(* ===== verification/_CoqProject ===== *)
-Q . S2P
Prelude.v
SimTime.v
PullSet.v
Expr.v
EventQueue.v
ArrayPool.v
OrdMap.v
Node.v
ProcGraph.v
Strings.v
Directory.v
State.v
Registry.v
RegistryProps.v
Events.v
Schedule.v
Excl.v
Flush.v
Eval.v
Feedback.v
TimingCheck.v
Step.v
SimCommands.v
Channel.v
ChannelManager.v
ChannelCommands.v
Commands.v
EventInv.v
EventProps.v
ScheduleProps.v
DequeueProps.v
StepInv.v
StepProps.v
CommandInv.v
CommandProps.v
Sessions.v
EvalProps.v
FlushProps.v
ExclProps.v
ChannelData.v
ChannelProps.v
Handshake.v
ManagerProps.v
ChannelCheckpoint.v
ExprAlloc.v
ExprTree.v
ExprBuild.v
ExprFold.v
ExprVisit.v
ExprForest.v
ExprRules.v
ExprCompact.v
ExprAllocProps.v
MetaValue.v
MetaExpr.v
MetaCheck.v
MetaExprProps.v
MetaEquiv.v
MetaMeaning.v
MetaTyping.v
MetaLimits.v
PrsExpr.v
PrsFootprint.v
PrsRules.v
PrsExprProps.v
PrsUnrollProps.v
PrsRulesProps.v
PrsCompile.v
PrsCheck.v
PrsCheckProps.v
Longs.v
Intervals.v
IntervalProps.v
PackedArray.v
PackedArrayProps.v
ArrayRanges.v
