(* ===== verification/Prelude.v ===== *)
(** HACKT verification library.

    HACKT compiles the hardware description language HAC, and simulates what
    it has compiled.  The compiler reads a source file into syntax trees
    (src/src/AST), checks them into objects (src/src/Object: definitions,
    types, expressions, instantiations), expands parameters and loops
    ("unrolling") into footprints, and lays the footprints of all instances
    out.  [hacprsim] (src/src/sim/prsim) takes the production rules of the
    footprints and simulates them event by event, with channels that play the
    environment of the circuit.  This library models the simulator's core,
    and the translation that gives it its rules.  All paths below are
    relative to src/src; a definition has the name of the function or of the
    member that it models.

    * Conventions

    Imperative code is written in the monad [M S] of this file: state passing
    with a [fault] for every way in which the C++ program stops or leaves its
    defined behaviour (a failed INVARIANT, ISE_INVARIANT, THROW_EXIT, an index
    out of range, a shift by too much).  [wpe m P Q s] says that [m], run from
    [s], returns with [P] or faults with [Q]; [wp m P s] excludes faults.
    Machine integers are Z with [wrap w] (unsigned) where the width matters,
    and nat where they are indices of containers.  [F_fuel] belongs to the
    model: it is the only fault that is not the program's.

    * Foundations

    - Prelude.v: the monad and its rules, [wrap], lists and bits.
    - SimTime.v (sim/time.hh, sim/random_time.hh): the class [SimTime] of what
      the simulator uses of times, its laws, and the instances [real_time] (an
      IEEE double) and [discrete_time] (a 64-bit long).
    - PullSet.v (sim/prsim/enums.hh, Node.hh, Event-prsim.cc): pull states,
      logic values, the pull set of a node, its next-value predicates and
      interference diagnostics, event guards.
    - OrdMap.v: std::map and std::set as sorted association lists.
    - ArrayPool.v (util/memory/array_pool.tcc, index_pool.tcc, free_list.hh):
      the pool of events.
    - EventQueue.v (sim/event.hh): the priority queue, a stable multiset.
    - Expr.v (sim/prsim/Expr.hh): expressions with their 16-bit counters.
    - Node.v (sim/prsim/Node.hh, Cause.hh, Event-prsim.hh): nodes and events.
    - ProcGraph.v (sim/prsim/process_graph.hh, process_state.hh, Rule.hh): the
      rules and expressions of a process type, and its instances.

    * The simulator (sim/prsim/State-prsim.cc)

    - State.v: the record [State], its flags, policies and exceptions.
    - Events.v: allocation, queueing, killing and taking of events.
    - Schedule.v: delays, set and unset of nodes, dequeue_event.
    - Excl.v: exclusive rings.  Flush.v: changed pulls become events.
    - Eval.v: propagation of a node's value to the pulls of other nodes.
    - Feedback.v: fanin, fanout, keeper check.
    - TimingCheck.v (TimingChecker.cc): setup and hold checks.
    - Step.v: execute_immediately, step, cycle, initialize, reset.

    A step takes the earliest event (Schedule), checks exclusion (Excl),
    changes the node, evaluates the expressions it occurs in (Eval), turns the
    pulls that changed into events (Flush), enforces exclusion, checks timing,
    and lets the channels answer (the class [ChannelManager] of Step.v).

    Theorems.  EventInv.v states the agreement of pool, queue and nodes;
    EventProps.v, ScheduleProps.v, DequeueProps.v and FlushProps.v show that
    each operation keeps it and refines an update of an abstract schedule,
    that dequeue_event terminates and takes an earliest event; StepInv.v and
    StepProps.v extend this to whole steps and runs.  EvalProps.v: the
    incremental counters always stand for the Kleene values of the guards.
    ExclProps.v: locks and ring counters are exact.

    * Channels (sim/prsim/Channel-prsim.cc)

    - Channel.v: one channel (sources, sinks, values, rails, checks).
    - ChannelManager.v: their registry, and the instance of the class above.
    - ChannelCheckpoint.v: saving and loading, with its round trip.
    - ChannelData.v: what is driven on the rails is read from them.
    - ChannelProps.v: counters of the rails, configuration errors.
    - Handshake.v: a four-phase channel delivers all its values, whatever the
      order of events.  ManagerProps.v: the registry stays consistent, also after
      errors and caught exceptions.

    * Commands (sim/command_registry.tcc, sim/prsim/Command-prsim.cc)

    - Strings.v (util/string.tcc, util/tokenize.cc), Directory.v
      (util/directory.cc): words, numbers, and paths of the working directory.
    - Registry.v: the interpreter of command lines over the state [shell]:
      aliases, comments, history, scripts, and commands that run commands; the
      class [ShellEnv] stands for files and [interp] ties the recursion.
    - SimCommands.v: the commands that run, change, query and check the
      simulator; the class [NameEnv] stands for the parser of references.
    - ChannelCommands.v: the commands for channels, with their descriptions.
    - Commands.v: the tables that register all of these under their names.

    Theorems.  RegistryProps.v: aliases as a rewriting system, and the rule
    [interp_keeps], that a session keeps what its commands keep.  CommandInv.v
    and CommandProps.v: each command keeps the event system consistent, also
    where "advance" has left events in the past (the order [loose_due] of
    EventInv.v takes the place of [strict_due]).  Sessions.v: what follows for
    sessions; termination of alias expansion and of backtraces; assertions;
    comments; a line that reruns itself for ever; and examples that run.

    * The allocation of expressions (sim/prsim/ExprAlloc.cc)

    - ExprAlloc.v: the visitor from the footprint of a type
      (Object/lang/PRS_footprint.hh, RTE_footprint.hh) to its process graph,
      with literal folding, negation denormalization, supplies, attributes,
      pass gates and pool compaction.
    - ExprTree.v: expressions under construction as trees with owners.
      ExprBuild.v, ExprFold.v, ExprVisit.v, ExprForest.v, ExprRules.v,
      ExprCompact.v: each layer preserves a three-valued reference semantics
      of footprints.  ExprAllocProps.v: the graph of a type is the tree graph
      on which EvalProps.v relies, and its pulls are the guards as written.

    * Meta-parameters (Object/expr, AST/expr.cc)

    - MetaValue.v: integers, booleans, reals and strings with their operators
      and the ways in which these fail: [outcome] tells an error that was
      reported from an exception and from a failed assertion.
    - MetaExpr.v: the classes of expressions, one inductive type per abstract
      class, with their two evaluators (as constants, and in a context),
      look-up of values, equivalence and substitution.
    - MetaCheck.v: the type checker, from syntax trees to these expressions.

    Theorems.  MetaExprProps.v: well-typed expressions evaluate without
    failing an assertion, and both evaluators agree.  MetaEquiv.v: what must
    be equivalent has the same values, and substitution is evaluation.
    MetaMeaning.v: checking keeps the meaning of the syntax, though it
    resolves overloading and folds constants, but for [!] of constants and
    ranges of constant bounds, of which the meaning says what folding makes of
    them.  MetaTyping.v: it implements the typing rules, and refuses just the
    well-typed trees with a constant to fold that has no value.  MetaLimits.v:
    overflow, and loops in namespaces.

    * Production rules (Object/lang/PRS.cc, AST/PRS.cc)

    - PrsCheck.v: the checker, from syntax to expressions and rules, with what
      it leaves in a definition after an error.
    - PrsExpr.v: expressions with negation, which changes them in place.
    - PrsRules.v: rules, their complements, and how the body of a definition is
      unrolled with its loops, conditionals, subcircuits and supplies into
    - PrsFootprint.v: the footprint of a definition, the starting point of
      ExprAlloc.v ([resolved_prs]), and unrolling of expressions.

    Theorems.  PrsExprProps.v gives expressions a three-valued reference
    semantics that negation respects; by PrsUnrollProps.v unrolling gives an
    entry of just this value, or fails where there is none.  PrsRulesProps.v
    gives bodies a meaning (who drives which bool, under which guard and
    supplies) and shows that unrolling writes this down.  PrsCompile.v joins
    these with ExprAllocProps.v: the graph that the simulator runs pulls each
    node by the guards that the rules mean.  PrsCheckProps.v: the checker keeps
    the meaning of the syntax, and leaves well-formed bodies after any error.

    * Ranges and arrays (util, Object/expr)

    - Longs.v: the signed [long] and [int] of the compiler's values.
    - Intervals.v (util/discrete_interval_set.tcc): sets of integers as maps of
      intervals.  IntervalProps.v: what adding, deleting and cutting do to the
      members, and the two cases in which the code fails its own check.
    - PackedArray.v (util/packed_array.tcc, util/multikey.tcc): arrays in one
      vector, their keys, and the enumeration of keys between two corners.
      PackedArrayProps.v: keys and indices correspond; slices; growth.
    - ArrayRanges.v (Object/expr/meta_range.cc, meta_range_list.cc,
      meta_index_expr_list.cc): constant ranges and indices over the above.

    * Fuel and bounds

    Fuel is a nat argument of the functions whose recursion is not structural.
    The climbs over expressions (local_root_expr, evaluate_climb) take one more than the
    number of expressions, which follow_expr_to_root_total and
    evaluate_kernel_correct show to suffice on well-formed graphs;
    flush_killed_events, drain_events and dequeue_event take one more than the
    length of the queue, each with a termination theorem; the visit of a
    footprint takes the depth of its expression.  execute_immediately, step
    and cycle need not terminate (a circuit may oscillate within one atomic
    evaluation) and take their fuel explicitly: more_fuel_same_run shows that
    enough fuel is enough.  A session's fuel bounds how deeply lines, sourced files
    and sub-shells are nested (in a sub-shell, the number of its lines), and
    the loops of the running commands; nothing bounds these in the program
    either (history_rerun_never_returns).  expand_aliases takes the number of
    aliases and two, backtrace_node three times the number of nodes and one;
    both are shown to be enough.  A handshake takes 2 * bundles + 2 events per value.
    Loops over meta-parameters have no fuel: they are folds over the range, as
    are [unroll] and the checkers over the syntax; [collect_literal_indices]
    takes one more than the length of the pool, as operands are earlier entries.
    The loop that copies a slice takes the number of its elements (slice_correct).

    * Not modelled

    Traces, VCD, VPI, printing and dumps of the simulator are input and output,
    and so are the commands that only do this; of the other commands, those on
    checkpoints, causality (why, why-not, why-x), listings of instances, frame
    caches, the seed of the random generator and loaded libraries are left out
    (unmodelled_commands of Commands.v).  The dynamic-supply and energy attributes of processes, the
    directives of spec bodies, and precharge invariants are left out of
    ExprAlloc.v.  chpsim is a second simulator.  Of the compiler, the parsers
    are generated, and the type system, unrolling of instances, netlists and
    persistence of whole modules are not modelled.  In the files on
    meta-parameters and production rules, references are to names of the
    definition itself, not to members of its instances; aggregates, calls of
    loaded functions, and the checks that the registered macros make of their
    arguments are left out.  The C library's random generators and its
    logarithm are parameters (the class [Env]), as are names of the compiled
    circuit in ChannelManager.v. *)
From stdpp Require Export base tactics list gmap fin_maps.
From Stdlib Require Export ZArith Lia.

Declare Scope hackt_scope.
Delimit Scope hackt_scope with hackt.

(** ** Faults and the fault/state monad

    The simulator is imperative C++: its functions read and write the
    members of one [State] object and stop the whole program when an
    assertion fails ([INVARIANT] of "util/macros.h", [ISE_INVARIANT] of
    "sim/ISE.hh").  [M S A] is the type of such a function. *)
Inductive fault : Set :=
  | F_assert      (* INVARIANT(x), i.e. assert(x) *)
  | F_ise         (* ISE_INVARIANT(x): internal simulator error, abort *)
  | F_exit        (* THROW_EXIT: a fatal error with a message *)
  | F_index       (* index outside of a vector or a pool: undefined in C++ *)
  | F_undef       (* other undefined behaviour: a shift by the width or more *)
  | F_fuel.       (* artefact of the model: the fuel argument was too small *)

Inductive res (A : Type) : Type :=
  | Ok (a : A)
  | Err (f : fault).
Arguments Ok {A} _.
Arguments Err {A} _.

Definition M (S A : Type) : Type := S -> res (A * S).

Section Monad.
Context {S : Type}.

Definition ret {A} (a : A) : M S A := fun s => Ok (a, s).
Definition bind {A B} (m : M S A) (k : A -> M S B) : M S B :=
  fun s => match m s with Ok (a, s') => k a s' | Err f => Err f end.
Definition fail {A} (f : fault) : M S A := fun _ => Err f.
Definition gets {A} (g : S -> A) : M S A := fun s => Ok (g s, s).
Definition modify (g : S -> S) : M S unit := fun s => Ok (tt, g s).
Definition require (f : fault) (b : bool) : M S unit :=
  if b then ret tt else fail f.
Definition of_option {A} (f : fault) (o : option A) : M S A :=
  match o with Some a => ret a | None => fail f end.
Definition when (b : bool) (m : M S unit) : M S unit :=
  if b then m else ret tt.
Definition lift_res {A} (r : res A) : M S A :=
  fun s => match r with Ok a => Ok (a, s) | Err f => Err f end.
Fixpoint for_each {A} (l : list A) (body : A -> M S unit) : M S unit :=
  match l with
  | [] => ret tt
  | x :: l' => bind (body x) (fun _ => for_each l' body)
  end.
(** A loop that threads a value, like the [err] accumulators of the source. *)
Fixpoint fold_m {A B} (l : list A) (b : B) (body : B -> A -> M S B) : M S B :=
  match l with
  | [] => ret b
  | x :: l' => bind (body b x) (fun b' => fold_m l' b' body)
  end.
End Monad.

(** Run a [const] member function of a part of the state. *)
Definition reading {S T A} (part : S -> T) (m : M T A) : M S A :=
  fun s => match m (part s) with Ok (a, _) => Ok (a, s) | Err f => Err f end.

Notation "x <- m ;; k" := (bind m (fun x => k))
  (at level 100, m at next level, right associativity) : hackt_scope.
Notation "m ;;; k" := (bind m (fun _ => k))
  (at level 100, right associativity) : hackt_scope.

(** ** Weakest preconditions

    [wpe E m Q s]: run from [s], [m] either returns with [Q], or stops with
    a fault that [E] tolerates.  [wp] tolerates none (total correctness),
    [wlp] tolerates all (partial correctness). *)
Definition wpe {S A} (E : fault -> Prop) (m : M S A) (Q : A -> S -> Prop) (s : S)
    : Prop :=
  match m s with Ok (a, s') => Q a s' | Err f => E f end.

Abbreviation wp := (wpe (fun _ => False)).
Abbreviation wlp := (wpe (fun _ => True)).

Section Wpe.
Context {S : Type} (E : fault -> Prop).

Lemma wpe_ret {A} (a : A) (Q : A -> S -> Prop) s : Q a s -> wpe E (ret a) Q s.
Proof. done. Qed.

Lemma wpe_bind {A B} (m : M S A) (k : A -> M S B) Q s :
  wpe E m (fun a s' => wpe E (k a) Q s') s -> wpe E (bind m k) Q s.
Proof. unfold wpe, bind. destruct (m s) as [[a s']|f]; done. Qed.

Lemma wpe_mono {A} (m : M S A) (P Q : A -> S -> Prop) s :
  wpe E m P s -> (forall a s', P a s' -> Q a s') -> wpe E m Q s.
Proof. unfold wpe. destruct (m s) as [[a s']|f]; eauto. Qed.

Lemma wpe_gets {A} (g : S -> A) (Q : A -> S -> Prop) s : Q (g s) s -> wpe E (gets g) Q s.
Proof. done. Qed.

Lemma wpe_modify (g : S -> S) (Q : unit -> S -> Prop) s :
  Q tt (g s) -> wpe E (modify g) Q s.
Proof. done. Qed.

Lemma wpe_require f b (Q : unit -> S -> Prop) s :
  (b = true -> Q tt s) -> (b = false -> E f) -> wpe E (require f b) Q s.
Proof. unfold require. destruct b; cbn; auto. Qed.

Lemma wpe_of_option {A} f (o : option A) (Q : A -> S -> Prop) s :
  (forall a, o = Some a -> Q a s) -> (o = None -> E f) -> wpe E (of_option f o) Q s.
Proof. destruct o; cbn; auto. Qed.

Lemma wpe_when b (m : M S unit) (Q : unit -> S -> Prop) s :
  (b = true -> wpe E m Q s) -> (b = false -> Q tt s) -> wpe E (when b m) Q s.
Proof. destruct b; cbn; auto. Qed.

Lemma wpe_lift_res {A} (r : res A) (Q : A -> S -> Prop) s :
  (forall a, r = Ok a -> Q a s) -> (forall f, r = Err f -> E f) -> wpe E (lift_res r) Q s.
Proof. destruct r; cbn; auto. Qed.

(** Loop rule: an invariant indexed by the elements still to be visited. *)
Lemma wpe_for_each {A} (I : list A -> S -> Prop) (l : list A) (body : A -> M S unit) s :
  I l s ->
  (forall x l' s', I (x :: l') s' -> wpe E (body x) (fun _ => I l') s') ->
  wpe E (for_each l body) (fun _ => I []) s.
Proof.
  intros HI Hb. revert s HI. induction l as [|x l IH]; intros s HI; cbn.
  - by apply wpe_ret.
  - apply wpe_bind. eapply wpe_mono; [by apply Hb|]. intros [] s' H. by apply IH.
Qed.

Lemma wpe_fold_m {A B} (I : list A -> B -> S -> Prop) (l : list A) (b : B)
    (body : B -> A -> M S B) s :
  I l b s ->
  (forall x l' b' s', I (x :: l') b' s' -> wpe E (body b' x) (I l') s') ->
  wpe E (fold_m l b body) (I []) s.
Proof.
  intros HI Hb. revert b s HI. induction l as [|x l IH]; intros b s HI; cbn.
  - by apply wpe_ret.
  - apply wpe_bind. eapply wpe_mono; [by apply Hb|]. intros b' s' H. by apply IH.
Qed.

Lemma wpe_ok {A} (m : M S A) (Q : A -> S -> Prop) s a s' :
  m s = Ok (a, s') -> wpe E m Q s -> Q a s'.
Proof. unfold wpe. intros ->. done. Qed.
End Wpe.

Lemma wp_total {S A} (m : M S A) (Q : A -> S -> Prop) s :
  wp m Q s <-> exists a s', m s = Ok (a, s') /\ Q a s'.
Proof.
  unfold wpe. destruct (m s) as [[a s']|f]; split; try done.
  - eauto.
  - intros (? & ? & [= -> ->] & ?). done.
  - intros (? & ? & [=] & ?).
Qed.

Lemma wpe_weaken {S A} (E1 E2 : fault -> Prop) (m : M S A) (Q : A -> S -> Prop) s :
  (forall f, E1 f -> E2 f) -> wpe E1 m Q s -> wpe E2 m Q s.
Proof. unfold wpe. destruct (m s) as [[a s']|f]; auto. Qed.

(** Symbolic execution of the monad's primitives. *)
Ltac wp_step :=
  match goal with
  | |- wpe _ (bind _ _) _ _ => apply wpe_bind
  | |- wpe _ (ret _) _ _ => apply wpe_ret
  | |- wpe _ (gets _) _ _ => apply wpe_gets
  | |- wpe _ (modify _) _ _ => apply wpe_modify
  | |- wpe _ (require _ _) _ _ => apply wpe_require
  | |- wpe _ (of_option _ _) _ _ => apply wpe_of_option
  | |- wpe _ (when _ _) _ _ => apply wpe_when
  | |- wpe _ (lift_res _) _ _ => apply wpe_lift_res
  end.

Create HintDb hackt_ro.

(** Inversion of successful runs. *)
Section Inversion.
Context {S : Type}.

Lemma bind_ok {A B} (m : M S A) (k : A -> M S B) s b s' :
  bind m k s = Ok (b, s') -> exists a s1, m s = Ok (a, s1) /\ k a s1 = Ok (b, s').
Proof. unfold bind. destruct (m s) as [[a s1]|f]; [eauto|done]. Qed.

Lemma bind_run {A B} (m : M S A) (k : A -> M S B) s a s1 : m s = Ok (a, s1) -> bind m k s = k a s1.
Proof. unfold bind. by intros ->. Qed.

Lemma require_ok f b (s s' : S) u : require f b s = Ok (u, s') -> b = true /\ s' = s.
Proof. unfold require. destruct b; cbn; [|done]. by intros [= _ ->]. Qed.

Lemma of_option_ok {A} f (o : option A) (s s' : S) a :
  of_option f o s = Ok (a, s') -> o = Some a /\ s' = s.
Proof. destruct o; cbn; [|done]. by intros [= -> ->]. Qed.

Lemma lift_res_ok {A} (r : res A) (s s' : S) a :
  lift_res r s = Ok (a, s') -> r = Ok a /\ s' = s.
Proof. destruct r; cbn; [|done]. by intros [= -> ->]. Qed.

Lemma gets_ok {A} (g : S -> A) s s' a : gets g s = Ok (a, s') -> a = g s /\ s' = s.
Proof. by intros [= <- <-]. Qed.

Lemma ret_ok {A} (b a : A) (s s' : S) : ret b s = Ok (a, s') -> a = b /\ s' = s.
Proof. by intros [= <- <-]. Qed.

Lemma when_ok b (m : M S unit) s s' u :
  when b m s = Ok (u, s') -> (b = true /\ m s = Ok (u, s')) \/ (b = false /\ s' = s).
Proof. destruct b; cbn; [by left|intros E; right]. by injection E. Qed.

(** A computation that does not change the state. *)
Definition readonly {A} (m : M S A) : Prop := forall s a s', m s = Ok (a, s') -> s' = s.

Lemma for_each_ok {A} (l : list A) (body : A -> M S unit) s s' u :
  (forall x, readonly (body x)) -> for_each l body s = Ok (u, s') ->
  s' = s /\ forall x, x ∈ l -> body x s = Ok (tt, s).
Proof.
  intros Hro. revert s. induction l as [|x l IH]; intros s E; cbn in E.
  - apply ret_ok in E as [_ ->]. split; [done|]. intros x Hx. by apply elem_of_nil in Hx.
  - apply bind_ok in E as ([] & s1 & E1 & E2). pose proof (Hro _ _ _ _ E1) as ->.
    destruct (IH _ E2) as [-> Hl]. split; [done|].
    intros y Hy. apply elem_of_cons in Hy as [->|Hy]; [done|by apply Hl].
Qed.

Lemma readonly_for_each {A} (l : list A) (body : A -> M S unit) :
  (forall x, readonly (body x)) -> readonly (for_each l body).
Proof. intros Hro s a s' E. by apply for_each_ok in E as [-> _]. Qed.
Lemma readonly_bind {A B} (m : M S A) (k : A -> M S B) :
  readonly m -> (forall a, readonly (k a)) -> readonly (bind m k).
Proof.
  intros Hm Hk s b s' E. apply bind_ok in E as (a & s1 & E1 & E2).
  apply Hk in E2 as ->. by apply Hm in E1.
Qed.
Lemma readonly_ret {A} (a : A) : readonly (ret a).
Proof. intros s b s' E. by apply ret_ok in E as [_ ->]. Qed.
Lemma readonly_fail {A} f : readonly (fail f : M S A).
Proof. done. Qed.
Lemma readonly_gets {A} (g : S -> A) : readonly (gets g).
Proof. intros s b s' E. by apply gets_ok in E as [_ ->]. Qed.
Lemma readonly_require f b : readonly (require f b).
Proof. intros s a s' E. by apply require_ok in E as [_ ->]. Qed.
Lemma readonly_of_option {A} f (o : option A) : readonly (of_option f o).
Proof. intros s a s' E. by apply of_option_ok in E as [_ ->]. Qed.
Lemma readonly_lift_res {A} (r : res A) : readonly (lift_res r).
Proof. intros s a s' E. by apply lift_res_ok in E as [_ ->]. Qed.
Lemma readonly_fold_m {A B} (l : list A) (b : B) (body : B -> A -> M S B) :
  (forall b x, readonly (body b x)) -> readonly (fold_m l b body).
Proof.
  intros Hro. revert b. induction l as [|x l IH]; intros b; [apply readonly_ret|].
  apply readonly_bind; [apply Hro|]. intros b'. apply IH.
Qed.
Lemma readonly_when b m : readonly m -> readonly (when b m).
Proof. destruct b; [done|intros _; apply readonly_ret]. Qed.
End Inversion.

#[export] Hint Resolve readonly_ret readonly_fail readonly_gets readonly_require
  readonly_of_option readonly_lift_res : hackt_ro.

(** Proves that a computation made of the monad's primitives is read-only. *)
Ltac solve_readonly :=
  repeat (match goal with
  | |- forall _, _ => intro
  | |- readonly (bind _ _) => apply readonly_bind
  | |- readonly (when _ _) => apply readonly_when
  | |- readonly (for_each _ _) => apply readonly_for_each
  | |- readonly (fold_m _ _ _) => apply readonly_fold_m
  | |- readonly (match ?x with _ => _ end) => destruct x
  | |- readonly _ => solve [auto with hackt_ro]
  end).

(** Decomposes a hypothesis that a computation succeeded. *)
Ltac inv_m :=
  repeat match goal with
  | H : bind _ _ _ = Ok _ |- _ => apply bind_ok in H as (? & ? & H & ?)
  | H : require _ _ _ = Ok _ |- _ => apply require_ok in H as [? ?]
  | H : of_option _ _ _ = Ok _ |- _ => apply of_option_ok in H as [? ?]
  | H : lift_res _ _ = Ok _ |- _ => apply lift_res_ok in H as [? ?]
  | H : gets _ _ = Ok _ |- _ => apply gets_ok in H as [? ?]
  | H : ret _ _ = Ok _ |- _ => apply ret_ok in H as [? ?]
  | H : (_, _) = (_, _) |- _ => injection H as ? ?
  | x : unit |- _ => destruct x
  end; subst.

(** ** More fuel

    [approx m m']: [m'] does what [m] does, unless [m] runs out of fuel. *)
Section Approx.
Context {S : Type}.

Definition approx {A} (m m' : M S A) : Prop := forall s, m s = Err F_fuel \/ m s = m' s.

Lemma approx_refl {A} (m : M S A) : approx m m.
Proof. intros s. by right. Qed.
Lemma approx_out {A} (m : M S A) : approx (fail F_fuel) m.
Proof. intros s. by left. Qed.
Lemma approx_bind {A B} (m m' : M S A) (k k' : A -> M S B) :
  approx m m' -> (forall a, approx (k a) (k' a)) -> approx (bind m k) (bind m' k').
Proof.
  intros Hm Hk s. unfold bind. destruct (Hm s) as [->| ->]; [by left|].
  destruct (m' s) as [[a s1]|f]; [apply Hk|by right].
Qed.
Lemma approx_when b (m m' : M S unit) : approx m m' -> approx (when b m) (when b m').
Proof. intros Hm. destruct b; [done|apply approx_refl]. Qed.
Lemma approx_for_each {A} (l : list A) (body body' : A -> M S unit) :
  (forall x, approx (body x) (body' x)) -> approx (for_each l body) (for_each l body').
Proof.
  intros Hb. induction l as [|x l IH]; cbn; [apply approx_refl|]. by apply approx_bind.
Qed.
Lemma approx_ok {A} (m m' : M S A) s x : approx m m' -> m s = Ok x -> m' s = Ok x.
Proof. intros Hm E. destruct (Hm s) as [E'|E']; congruence. Qed.
End Approx.

Ltac solve_approx :=
  repeat (match goal with
  | |- forall _, _ => intro
  | H : approx ?m ?m' |- approx ?m ?m' => exact H
  | H : forall _, _ |- approx _ _ => solve [apply H]
  | |- approx ?m ?m => apply approx_refl
  | |- approx (bind _ _) (bind _ _) => apply approx_bind
  | |- approx (when _ _) (when _ _) => apply approx_when
  | |- approx (for_each _ _) (for_each _ _) => apply approx_for_each
  | |- approx (match ?x with _ => _ end) _ => destruct x
  end).

(** ** Machine integers: unsigned wrap-around at [w] bits *)
Definition wrap (w : Z) (z : Z) : Z := z `mod` 2 ^ w.

Lemma wrap_small w z : (0 <= z < 2 ^ w)%Z -> wrap w z = z.
Proof. apply Z.mod_small. Qed.

Lemma wrap_range w z : (0 <= w)%Z -> (0 <= wrap w z < 2 ^ w)%Z.
Proof. intros. apply Z.mod_pos_bound. apply Z.pow_pos_nonneg; lia. Qed.

(** A bit flag of a C++ bit field: [flags & mask] used as a condition. *)
Definition has_flag (flags mask : Z) : bool := negb (Z.land flags mask =? 0)%Z.
Definition set_flag (flags mask : Z) : Z := Z.lor flags mask.
Definition clear_flag (flags mask : Z) : Z := Z.land flags (Z.lnot mask).
Definition put_flag (b : bool) (flags mask : Z) : Z :=
  if b then set_flag flags mask else clear_flag flags mask.

Lemma land_pow2_testbit f k : (0 <= k)%Z ->
  Z.land f (2 ^ k) = (if Z.testbit f k then 2 ^ k else 0)%Z.
Proof.
  intros Hk. apply Z.bits_inj'. intros n Hn.
  rewrite Z.land_spec, Z.pow2_bits_eqb by done.
  destruct (Z.eqb_spec k n) as [->|Hne].
  - rewrite andb_true_r. destruct (Z.testbit f n) eqn:E; [|by rewrite Z.bits_0].
    by rewrite Z.pow2_bits_eqb, Z.eqb_refl.
  - rewrite andb_false_r. destruct (Z.testbit f k); [|by rewrite Z.bits_0].
    rewrite Z.pow2_bits_eqb by done. by rewrite (proj2 (Z.eqb_neq k n) Hne).
Qed.

Lemma has_flag_testbit f k : (0 <= k)%Z -> has_flag f (2 ^ k) = Z.testbit f k.
Proof.
  intros Hk. unfold has_flag. rewrite land_pow2_testbit by done.
  destruct (Z.testbit f k); [|done].
  destruct (Z.eqb_spec (2 ^ k) 0); [|done].
  pose proof (Z.pow_pos_nonneg 2 k). lia.
Qed.

Lemma has_flag_put_same b f k : (0 <= k)%Z -> has_flag (put_flag b f (2 ^ k)) (2 ^ k) = b.
Proof.
  intros Hk. rewrite has_flag_testbit by done. unfold put_flag, set_flag, clear_flag.
  destruct b.
  - rewrite Z.lor_spec, Z.pow2_bits_eqb, Z.eqb_refl by done. by rewrite orb_true_r.
  - rewrite Z.land_spec, Z.lnot_spec, Z.pow2_bits_eqb, Z.eqb_refl by done.
    by rewrite andb_false_r.
Qed.

Lemma has_flag_put_other b f k j : (0 <= k)%Z -> (0 <= j)%Z -> j <> k ->
  has_flag (put_flag b f (2 ^ k)) (2 ^ j) = has_flag f (2 ^ j).
Proof.
  intros Hk Hj Hne. rewrite !has_flag_testbit by done.
  unfold put_flag, set_flag, clear_flag. destruct b.
  - rewrite Z.lor_spec, Z.pow2_bits_eqb by done.
    rewrite (proj2 (Z.eqb_neq k j)) by done. by rewrite orb_false_r.
  - rewrite Z.land_spec, Z.lnot_spec, Z.pow2_bits_eqb by done.
    rewrite (proj2 (Z.eqb_neq k j)) by done. by rewrite andb_true_r.
Qed.

(** ** Counting in lists *)
Fixpoint count_if {A} (p : A -> bool) (l : list A) : Z :=
  match l with
  | [] => 0
  | x :: l' => (if p x then 1 else 0) + count_if p l'
  end%Z.

Lemma count_if_bounds {A} (p : A -> bool) l : (0 <= count_if p l <= Z.of_nat (length l))%Z.
Proof. induction l as [|x l IH]; cbn; [lia|]. destruct (p x); lia. Qed.

Lemma count_if_insert {A} (p : A -> bool) l i x y :
  l !! i = Some x ->
  (count_if p (<[i:=y]> l)
   = count_if p l - (if p x then 1 else 0) + (if p y then 1 else 0))%Z.
Proof.
  revert i. induction l as [|z l IH]; intros [|i] Hi; simplify_eq/=; [lia|].
  rewrite (IH i) by done. lia.
Qed.

Lemma count_if_zero {A} (p : A -> bool) l :
  count_if p l = 0%Z <-> Forall (fun x => p x = false) l.
Proof.
  induction l as [|x l IH]; cbn.
  - split; [constructor|done].
  - pose proof (count_if_bounds p l). rewrite Forall_cons, <- IH.
    destruct (p x); split; intros; [lia|by destruct H0|by split; [|lia]|lia].
Qed.

Lemma count_if_split {A} (p q : A -> bool) l :
  (forall x, In x l -> p x && q x = false) ->
  (count_if p l + count_if q l <= Z.of_nat (length l))%Z.
Proof.
  induction l as [|x l IH]; cbn; intros H; [lia|].
  assert (p x && q x = false) by (apply H; by left).
  assert (count_if p l + count_if q l <= Z.of_nat (length l))%Z by (apply IH; auto).
  destruct (p x), (q x); cbn in *; try discriminate; lia.
Qed.

Lemma count_if_app {A} (p : A -> bool) l k :
  count_if p (l ++ k) = (count_if p l + count_if p k)%Z.
Proof. induction l as [|x l IH]; cbn; [lia|]. rewrite IH. lia. Qed.

Lemma count_if_ext {A} (p q : A -> bool) l :
  (forall x, In x l -> p x = q x) -> count_if p l = count_if q l.
Proof.
  induction l as [|x l IH]; cbn; intros H; [done|].
  rewrite IH by auto. by rewrite (H x (or_introl eq_refl)).
Qed.

Lemma filter_none {A} (P : A -> Prop) `{forall x, Decision (P x)} (l : list A) :
  (forall x, x ∈ l -> ~ P x) -> filter P l = [].
Proof.
  induction l as [|x l IH]; intros Hl; [done|]. rewrite filter_cons.
  rewrite decide_False by (apply Hl; by left). apply IH. intros y Hy. apply Hl. by right.
Qed.

(** ** Hints shared by the components *)
Create HintDb hackt.
#[export] Hint Resolve wpe_ret wpe_gets wpe_modify : hackt.
