(* ===== verification/SimTime.v ===== *)
(** Simulation time: [sim/time.hh], [sim/time.cc] and [sim/random_time.hh].

    The event queue and the simulator order events by a time type that is a
    template parameter of the source.  [SimTime] is what they use of it, and
    [SimTimeLaws] what their correctness needs; the source's two time types,
    [real_time] (an IEEE double, as the Standard Library's [spec_float] at
    precision 53) and [discrete_time] (a 64-bit [long]), are its instances.
    A comparison with a NaN is false, so the laws only speak of the times
    that [t_ok] accepts. *)
From S2P Require Import Prelude.
From Stdlib Require Import Floats.SpecFloat.
Open Scope Z_scope.

(** ** Interface *)
Class SimTime (T : Type) := {
  t_lt : T -> T -> bool;          (* operator < *)
  t_le : T -> T -> bool;          (* operator <= *)
  t_eqb : T -> T -> bool;         (* operator == *)
  t_add : T -> T -> T;            (* operator + *)
  t_zero : T;
  t_invalid : T;
  t_default : T;
  t_infinity : T;
  t_is_zero : T -> bool;          (* delay_policy<T>::is_zero *)
  t_ok : T -> bool                (* not a NaN: [t == t] *)
}.

Class SimTimeLaws (T : Type) `{SimTime T} := {
  t_lt_irrefl : forall x, t_lt x x = false;
  t_lt_trans : forall x y z, t_lt x y = true -> t_lt y z = true -> t_lt x z = true;
  t_lt_cotrans : forall x y z, t_ok y = true ->
    t_lt x z = true -> t_lt x y = true \/ t_lt y z = true;
  t_le_ok : forall x y, t_le x y = true -> t_ok x = true /\ t_ok y = true;
  t_le_lt : forall x y, t_ok x = true -> t_ok y = true -> t_le x y = negb (t_lt y x);
  t_lt_ok : forall x y, t_lt x y = true -> t_ok x = true /\ t_ok y = true;
  t_zero_ok : t_ok t_zero = true
}.

Section TimeLemmas.
Context {T : Type} `{SimTimeLaws T}.

Lemma t_lt_le x y : t_lt x y = true -> t_le x y = true.
Proof.
  intros Hlt. destruct (t_lt_ok _ _ Hlt) as [Hx Hy].
  rewrite t_le_lt by done. destruct (t_lt y x) eqn:E; [|done].
  pose proof (t_lt_trans _ _ _ Hlt E) as F. by rewrite t_lt_irrefl in F.
Qed.

Lemma t_le_refl x : t_ok x = true -> t_le x x = true.
Proof. intros. by rewrite t_le_lt, t_lt_irrefl. Qed.

Lemma t_le_trans x y z : t_le x y = true -> t_le y z = true -> t_le x z = true.
Proof.
  intros Hxy Hyz.
  destruct (t_le_ok _ _ Hxy) as [Hx Hy], (t_le_ok _ _ Hyz) as [_ Hz].
  rewrite t_le_lt in Hxy, Hyz |- * by done.
  destruct (t_lt z x) eqn:E; [|done].
  destruct (t_lt_cotrans _ y _ Hy E) as [F|F]; rewrite F in *; done.
Qed.

Lemma t_le_total x y : t_ok x = true -> t_ok y = true ->
  t_le x y = true \/ t_le y x = true.
Proof.
  intros. rewrite !t_le_lt by done. destruct (t_lt y x) eqn:E; [|by left].
  right. destruct (t_lt x y) eqn:F; [|done].
  pose proof (t_lt_trans _ _ _ E F) as G. by rewrite t_lt_irrefl in G.
Qed.
End TimeLemmas.

(** ** [real_time] *)
Definition real_time : Set := spec_float.

Definition double_prec : Z := 53.
Definition double_emax : Z := 1024.

(** A double from an integer mantissa and a binary exponent. *)
Definition double_of_Z (m e : Z) : real_time :=
  binary_normalize double_prec double_emax m e false.

Definition double_add (x y : real_time) : real_time := SFadd double_prec double_emax x y.
Definition double_sub (x y : real_time) : real_time := SFsub double_prec double_emax x y.
Definition double_mul (x y : real_time) : real_time := SFmul double_prec double_emax x y.
Definition double_is_nan (x : real_time) : bool :=
  match x with S754_nan => true | _ => false end.

Definition real_invalid_value : real_time := double_of_Z (-1) 0.
Definition real_default_delay : real_time := double_of_Z 10 0.
Definition real_zero : real_time := S754_zero false.
Definition real_infinity : real_time := S754_infinity false.
(** [std::numeric_limits<double>::max()] *)
Definition real_max : real_time := double_of_Z (2 ^ 53 - 1) 971.
(** [std::numeric_limits<double>::epsilon()] is 2^-52. *)
Definition real_epsilon : real_time := double_of_Z 1 (-52).

(** Threshold comparison, not an equality. *)
Definition real_is_zero (t : real_time) : bool := SFltb t real_epsilon.

#[export] Instance real_SimTime : SimTime real_time := {
  t_lt := SFltb; t_le := SFleb; t_eqb := SFeqb; t_add := double_add;
  t_zero := real_zero; t_invalid := real_invalid_value;
  t_default := real_default_delay; t_infinity := real_infinity;
  t_is_zero := real_is_zero; t_ok := fun x => negb (double_is_nan x)
}.

(** Every double but the NaNs has a key, ordered lexicographically. *)
Definition real_key (x : real_time) : Z * (Z * Z) :=
  match x with
  | S754_zero _ => (0, (0, 0))
  | S754_infinity s => ((if s then -2 else 2), (0, 0))
  | S754_nan => (0, (0, 0))
  | S754_finite s m e => if s then (-1, (- e, - Zpos m)) else (1, (e, Zpos m))
  end.

Definition key_lt (a b : Z * (Z * Z)) : Prop :=
  a.1 < b.1 \/ (a.1 = b.1 /\ (a.2.1 < b.2.1 \/ (a.2.1 = b.2.1 /\ a.2.2 < b.2.2))).

Ltac split_compare :=
  try match goal with |- context [Z.compare ?a ?b] => destruct (Z.compare_spec a b) end;
  try match goal with |- context [Pos.compare_cont Eq ?a ?b] =>
        change (Pos.compare_cont Eq a b) with (Pos.compare a b);
        destruct (Pos.compare_spec a b) end;
  cbn;
  (split; [intros E; try discriminate E; repeat split; lia
          |intros (? & ? & ?); try discriminate; try reflexivity; lia]).

Lemma SFltb_key x y :
  SFltb x y = true <-> double_is_nan x = false /\ double_is_nan y = false /\
                       key_lt (real_key x) (real_key y).
Proof.
  unfold SFltb, key_lt.
  destruct x as [sx|sx| |sx mx ex], y as [sy|sy| |sy my ey];
    cbn; try destruct sx; try destruct sy; cbn;
    split_compare.
Qed.

Lemma SFleb_key x y :
  SFleb x y = true <-> double_is_nan x = false /\ double_is_nan y = false /\
                       ~ key_lt (real_key y) (real_key x).
Proof.
  unfold SFleb, key_lt.
  destruct x as [sx|sx| |sx mx ex], y as [sy|sy| |sy my ey];
    cbn; try destruct sx; try destruct sy; cbn;
    split_compare.
Qed.

#[export] Instance real_SimTimeLaws : SimTimeLaws real_time.
Proof.
  split; cbn.
  - intros x. apply not_true_is_false. rewrite SFltb_key. unfold key_lt. lia.
  - intros x y z. rewrite !SFltb_key. unfold key_lt.
    intros (? & ? & ?) (? & ? & ?). repeat split; [done..|lia].
  - intros x y z Hy. rewrite !SFltb_key. unfold key_lt at 1. apply negb_true_iff in Hy.
    intros (Hx & Hz & Hlt).
    assert (key_lt (real_key x) (real_key y) \/ key_lt (real_key y) (real_key z))
      as [?|?] by (unfold key_lt; lia); [left|right]; done.
  - intros x y. rewrite SFleb_key. intros (-> & -> & _). done.
  - intros x y. rewrite !negb_true_iff. intros Hx Hy.
    destruct (SFltb y x) eqn:E; cbn.
    + apply not_true_is_false. rewrite SFleb_key. apply SFltb_key in E. tauto.
    + apply SFleb_key. repeat split; [done..|]. intros Hk.
      apply not_true_iff_false in E. apply E, SFltb_key. done.
  - intros x y. rewrite SFltb_key. intros (-> & -> & _). done.
  - done.
Qed.

Lemma real_eqb_spec (x y : real_time) :
  t_eqb x y = true <-> t_le x y = true /\ t_lt x y = false.
Proof. cbn. unfold SFeqb, SFltb, SFleb. destruct (SFcompare x y) as [[]|]; naive_solver. Qed.

(** A time that is due: equal to now or later. *)
Lemma real_eqb_due (x now : real_time) : t_le now x = true ->
  t_lt x now = false /\ t_lt now x = negb (t_eqb x now).
Proof.
  intros Hle. destruct (t_le_ok _ _ Hle) as [Hn Hx].
  assert (Hlt : t_lt x now = false) by (rewrite t_le_lt in Hle by done; by apply negb_true_iff).
  split; [done|]. pose proof (real_eqb_spec x now) as He. rewrite t_le_lt, Hlt in He by done.
  destruct (t_lt now x), (t_eqb x now); cbn [negb] in *; try done.
  - destruct (proj1 He eq_refl); done.
  - by rewrite (proj2 He).
Qed.

(** ** [discrete_time], a 64-bit [long] *)
Definition discrete_time : Set := Z.

Definition discrete_max : Z := 2 ^ 63 - 1.
(** Two's complement wrap-around of a 64-bit sum (a C++ compiler may do
    anything on overflow; GCC's [-fwrapv] does this). *)
Definition long_wrap (z : Z) : Z := wrap 64 (z + 2 ^ 63) - 2 ^ 63.
Definition discrete_invalid_value : discrete_time := -1.
Definition discrete_default_delay : discrete_time := 10.
Definition discrete_infinity : discrete_time := discrete_max.

(** [return t;] converted to [bool]: true when [t] is not zero. *)
Definition discrete_is_zero (t : discrete_time) : bool := negb (t =? 0).

#[export] Instance discrete_SimTime : SimTime discrete_time := {
  t_lt := Z.ltb; t_le := Z.leb; t_eqb := Z.eqb; t_add x y := long_wrap (x + y);
  t_zero := 0; t_invalid := discrete_invalid_value;
  t_default := discrete_default_delay; t_infinity := discrete_infinity;
  t_is_zero := discrete_is_zero; t_ok := fun _ => true
}.

#[export] Instance discrete_SimTimeLaws : SimTimeLaws discrete_time.
Proof. split; cbn; intros; try split; try done; lia. Qed.

(** ** [random_time<double>::operator ()]

    [rand48] is the C library's generator, here the sequence [draws] of its
    results; [log] is the C library's.  The loop redraws while the result is
    zero. *)
Section RandomTime.
Context (log : real_time -> real_time) (draws : nat -> real_time).

Fixpoint draw_nonzero (fuel k : nat) : option (real_time * nat) :=
  match fuel with
  | O => None
  | S fuel' =>
      let d := draws k in
      if SFeqb d real_zero then draw_nonzero fuel' (S k) else Some (d, S k)
  end.

Definition random_time_double (fuel k : nat) : option (real_time * nat) :=
  match draw_nonzero fuel k with
  | Some (d, k') => Some (double_mul (double_of_Z (-1) 0) (log d), k')
  | None => None
  end.
End RandomTime.

(** ** Properties *)

(** The two time types disagree on what zero is: [delay_policy<real_time>]
    accepts zero and rejects one, [delay_policy<discrete_time>] does the
    opposite. *)
Lemma discrete_is_zero_inverted t :
  discrete_is_zero t = true <-> t <> 0.
Proof. unfold discrete_is_zero. destruct (Z.eqb_spec t 0); cbn; naive_solver. Qed.

Lemma draw_nonzero_spec draws fuel k :
  (exists j, (k <= j < k + fuel)%nat /\ SFeqb (draws j) real_zero = false) ->
  exists j, (k <= j < k + fuel)%nat /\ SFeqb (draws j) real_zero = false /\
    (forall i, (k <= i < j)%nat -> SFeqb (draws i) real_zero = true) /\
    draw_nonzero draws fuel k = Some (draws j, S j).
Proof.
  revert k. induction fuel as [|fuel IH]; intros k (j & Hj & Hd); [lia|].
  cbn [draw_nonzero]. destruct (SFeqb (draws k) real_zero) eqn:E.
  - destruct (IH (S k)) as (j' & ? & ? & Hz & ->).
    { exists j. split; [|done]. destruct (decide (j = k)) as [->|]; [congruence|lia]. }
    exists j'. repeat split; [lia|lia|done|]. intros i Hi.
    destruct (decide (i = k)) as [->|]; [done|apply Hz; lia].
  - exists k. repeat split; [lia|lia|done|intros; lia].
Qed.
