(* ===== verification/PullSet.v ===== *)
(** Pull states and logic values of a node: "sim/prsim/enums.hh", the
    [pull_set] of "sim/prsim/Node.hh" with its [interference_info], and the
    event guard tables of "sim/prsim/Event-prsim.cc".

    The enumerators [PULL_INVALID] and [LOGIC_INVALID] only signal parse
    errors; they are [None] in the functions that return them, so a stored
    value is always one of three. *)
From S2P Require Import Prelude.

(** ** enums.hh *)
Inductive pull_enum : Set := PULL_OFF | PULL_ON | PULL_WEAK.
Inductive value_enum : Set := LOGIC_LOW | LOGIC_HIGH | LOGIC_OTHER.

#[export] Instance pull_enum_eq_dec : EqDecision pull_enum.
Proof. solve_decision. Defined.
#[export] Instance value_enum_eq_dec : EqDecision value_enum.
Proof. solve_decision. Defined.

Definition pull_eqb (a b : pull_enum) : bool := bool_decide (a = b).
Definition value_eqb (a b : value_enum) : bool := bool_decide (a = b).

(** [value_enum] and [pull_enum] share their encoding: the source converts
    between them with casts. *)
Definition pull_of_value (v : value_enum) : pull_enum :=
  match v with LOGIC_LOW => PULL_OFF | LOGIC_HIGH => PULL_ON | LOGIC_OTHER => PULL_WEAK end.
Definition value_of_pull (p : pull_enum) : value_enum :=
  match p with PULL_OFF => LOGIC_LOW | PULL_ON => LOGIC_HIGH | PULL_WEAK => LOGIC_OTHER end.

(** [NodeState::invert_value], also used for inverting pull states *)
Definition invert_value (v : value_enum) : value_enum :=
  match v with
  | LOGIC_LOW => LOGIC_HIGH
  | LOGIC_HIGH => LOGIC_LOW
  | LOGIC_OTHER => LOGIC_OTHER
  end.

(** [State::pull_to_value], indexed by up- then down-pull *)
Definition pull_to_value (up dn : pull_enum) : value_enum :=
  match up, dn with
  | PULL_OFF, PULL_OFF => LOGIC_OTHER
  | PULL_OFF, PULL_ON => LOGIC_LOW
  | PULL_OFF, PULL_WEAK => LOGIC_OTHER
  | PULL_ON, PULL_OFF => LOGIC_HIGH
  | PULL_ON, PULL_ON => LOGIC_OTHER
  | PULL_ON, PULL_WEAK => LOGIC_OTHER
  | PULL_WEAK, PULL_OFF => LOGIC_OTHER
  | PULL_WEAK, PULL_ON => LOGIC_OTHER
  | PULL_WEAK, PULL_WEAK => LOGIC_OTHER
  end.

Inductive rule_strength : Set := NORMAL_RULE | WEAK_RULE.

#[export] Instance rule_strength_eq_dec : EqDecision rule_strength.
Proof. solve_decision. Defined.

(** ** Event guards *)
Inductive event_guard : Set :=
  | EVENT_VACUOUS
  | EVENT_UNSTABLE
  | EVENT_WEAK_UNSTABLE
  | EVENT_INTERFERENCE
  | EVENT_WEAK_INTERFERENCE.

#[export] Instance event_guard_eq_dec : EqDecision event_guard.
Proof. solve_decision. Defined.

(** First the pull state of the guard, then the value of the pending event. *)
Definition upguard (guard : pull_enum) (ev : value_enum) : event_guard :=
  match guard, ev with
  | PULL_OFF, LOGIC_LOW => EVENT_VACUOUS
  | PULL_OFF, LOGIC_HIGH => EVENT_UNSTABLE
  | PULL_OFF, LOGIC_OTHER => EVENT_VACUOUS
  | PULL_ON, LOGIC_LOW => EVENT_INTERFERENCE
  | PULL_ON, LOGIC_HIGH => EVENT_VACUOUS
  | PULL_ON, LOGIC_OTHER => EVENT_VACUOUS
  | PULL_WEAK, LOGIC_LOW => EVENT_WEAK_INTERFERENCE
  | PULL_WEAK, LOGIC_HIGH => EVENT_WEAK_UNSTABLE
  | PULL_WEAK, LOGIC_OTHER => EVENT_VACUOUS
  end.

Definition dnguard (guard : pull_enum) (ev : value_enum) : event_guard :=
  match guard, ev with
  | PULL_OFF, LOGIC_LOW => EVENT_UNSTABLE
  | PULL_OFF, LOGIC_HIGH => EVENT_VACUOUS
  | PULL_OFF, LOGIC_OTHER => EVENT_VACUOUS
  | PULL_ON, LOGIC_LOW => EVENT_VACUOUS
  | PULL_ON, LOGIC_HIGH => EVENT_INTERFERENCE
  | PULL_ON, LOGIC_OTHER => EVENT_VACUOUS
  | PULL_WEAK, LOGIC_LOW => EVENT_WEAK_UNSTABLE
  | PULL_WEAK, LOGIC_HIGH => EVENT_WEAK_INTERFERENCE
  | PULL_WEAK, LOGIC_OTHER => EVENT_VACUOUS
  end.

(** ** pull_set *)
Record pull_set : Set := mk_pull_set {
  up : pull_enum;
  dn : pull_enum;
  wup : pull_enum;
  wdn : pull_enum
}.

#[export] Instance pull_set_eq_dec : EqDecision pull_set.
Proof. solve_decision. Defined.

Section Predicates.
Context (p : pull_set).
Notation "x =? y" := (pull_eqb x y).
Notation "x <>? y" := (negb (pull_eqb x y)) (at level 70).

Definition normal_rules_off : bool := (up p =? PULL_OFF) && (dn p =? PULL_OFF).
Definition weak_rules_off : bool := (wup p =? PULL_OFF) && (wdn p =? PULL_OFF).
Definition state_holding : bool := normal_rules_off && weak_rules_off.
Definition pulling_up : bool := (up p =? PULL_ON) || (wup p =? PULL_ON).
Definition pulling_dn : bool := (dn p =? PULL_ON) || (wdn p =? PULL_ON).
Definition __pulling_up_x : bool := (up p =? PULL_WEAK) || (wup p =? PULL_WEAK).
Definition __pulling_dn_x : bool := (dn p =? PULL_WEAK) || (wdn p =? PULL_WEAK).
Definition cutoff_up : bool := (up p =? PULL_OFF) && (wup p =? PULL_OFF).
Definition cutoff_dn : bool := (dn p =? PULL_OFF) && (wdn p =? PULL_OFF).
Definition cut_off_pull_up : pull_set := mk_pull_set PULL_OFF (dn p) PULL_OFF (wdn p).
Definition cut_off_pull_dn : pull_set := mk_pull_set (up p) PULL_OFF (wup p) PULL_OFF.
Definition normal_pulling_x : bool := (dn p =? PULL_WEAK) || (up p =? PULL_WEAK).
Definition weak_pulling_x : bool := (wdn p =? PULL_WEAK) || (wup p =? PULL_WEAK).
Definition normal_pulling_up_x : bool := (up p =? PULL_WEAK) && (wup p <>? PULL_ON).
Definition weak_pulling_up_x : bool := (up p =? PULL_OFF) && (wup p =? PULL_WEAK).
Definition pulling_up_x : bool := normal_pulling_up_x || weak_pulling_up_x.
Definition normal_pulling_dn_x : bool := (dn p =? PULL_WEAK) && (wdn p <>? PULL_ON).
Definition weak_pulling_dn_x : bool := (dn p =? PULL_OFF) && (wdn p =? PULL_WEAK).
Definition pulling_dn_x : bool := normal_pulling_dn_x || weak_pulling_dn_x.

(** The next four do not account for opposition. *)
Definition weak_pull_up_fires : bool := (up p <>? PULL_ON) && (wup p =? PULL_ON).
Definition weak_pull_up_fires_x : bool := (up p =? PULL_OFF) && (wup p =? PULL_WEAK).
Definition weak_pull_dn_fires : bool := (dn p <>? PULL_ON) && (wdn p =? PULL_ON).
Definition weak_pull_dn_fires_x : bool := (dn p =? PULL_OFF) && (wdn p =? PULL_WEAK).

Definition weak_pull_up_wins : bool :=
  (dn p =? PULL_OFF) && (weak_pull_up_fires_x || weak_pull_up_fires).
Definition weak_pull_dn_wins : bool :=
  (up p =? PULL_OFF) && (weak_pull_dn_fires_x || weak_pull_dn_fires).

Definition pull_up_wins_any : bool :=
  (dn p =? PULL_OFF) &&
  ((up p =? PULL_ON) || ((wup p =? PULL_ON) && (wdn p =? PULL_OFF))).
Definition pull_dn_wins_any : bool :=
  (up p =? PULL_OFF) &&
  ((dn p =? PULL_ON) || ((wdn p =? PULL_ON) && (wup p =? PULL_OFF))).
Definition pull_up_x_wins_any : bool := cutoff_dn && pulling_up_x.
Definition pull_dn_x_wins_any : bool := cutoff_up && pulling_dn_x.
Definition x_wins_any : bool := pull_up_x_wins_any || pull_dn_x_wins_any.
Definition weak_wins_any : bool := weak_pull_up_wins || weak_pull_dn_wins.

Definition definite_interference_strong : bool :=
  (up p =? PULL_ON) && (dn p =? PULL_ON).
Definition possible_interference_strong : bool :=
  (dn p <>? PULL_OFF) && (up p <>? PULL_OFF).
Definition possible_interference_strong_x_up_vs_weak_dn : bool :=
  ((up p =? PULL_WEAK) && (wup p <>? PULL_ON)) &&
  ((dn p =? PULL_OFF) && (wdn p <>? PULL_OFF)).
Definition possible_interference_strong_x_dn_vs_weak_up : bool :=
  ((dn p =? PULL_WEAK) && (wdn p <>? PULL_ON)) &&
  ((up p =? PULL_OFF) && (wup p <>? PULL_OFF)).
Definition possible_interference_strong_vs_weak : bool :=
  possible_interference_strong_x_up_vs_weak_dn ||
  possible_interference_strong_x_dn_vs_weak_up.
Definition definite_interference_weak : bool :=
  normal_rules_off && (wup p =? PULL_ON) && (wdn p =? PULL_ON).
Definition __possible_interference_weak : bool :=
  (wdn p <>? PULL_OFF) && (wup p <>? PULL_OFF).
Definition possible_interference_weak : bool :=
  normal_rules_off && __possible_interference_weak.
Definition possible_interference_any : bool :=
  possible_interference_strong || possible_interference_strong_vs_weak ||
  possible_interference_weak.
End Predicates.

(** ** interference_info *)
Inductive interference_value_type : Set :=
  | INTERFERENCE_VALUE_NONE | INTERFERENCE_1_vs_1 | INTERFERENCE_1_vs_X | INTERFERENCE_X_vs_X.
Inductive interference_rule_type : Set :=
  | INTERFERENCE_RULE_NONE | INTERFERENCE_STRONG_vs_STRONG
  | INTERFERENCE_STRONG_vs_WEAK | INTERFERENCE_WEAK_vs_WEAK.

#[export] Instance interference_value_type_eq_dec : EqDecision interference_value_type.
Proof. solve_decision. Defined.
#[export] Instance interference_rule_type_eq_dec : EqDecision interference_rule_type.
Proof. solve_decision. Defined.

Record interference_info : Set := mk_interference_info {
  have_interference : bool;
  possible_interference : bool;
  weak_rule_involved : bool;
  val_type : interference_value_type;
  rule_type : interference_rule_type
}.

Definition make_interference_info (p : pull_set) : interference_info :=
  if possible_interference_strong p then
    mk_interference_info true (normal_pulling_x p) false
      (if pull_eqb (up p) PULL_ON && pull_eqb (dn p) PULL_ON then INTERFERENCE_1_vs_1
       else if pull_eqb (up p) PULL_WEAK && pull_eqb (dn p) PULL_WEAK
       then INTERFERENCE_X_vs_X else INTERFERENCE_1_vs_X)
      INTERFERENCE_STRONG_vs_STRONG
  else if possible_interference_strong_x_up_vs_weak_dn p then
    mk_interference_info true true true
      (if pull_eqb (wdn p) PULL_WEAK then INTERFERENCE_X_vs_X else INTERFERENCE_1_vs_X)
      INTERFERENCE_STRONG_vs_WEAK
  else if possible_interference_strong_x_dn_vs_weak_up p then
    mk_interference_info true true true
      (if pull_eqb (wup p) PULL_WEAK then INTERFERENCE_X_vs_X else INTERFERENCE_1_vs_X)
      INTERFERENCE_STRONG_vs_WEAK
  else if possible_interference_weak p then
    mk_interference_info true (weak_pulling_x p) true
      (if pull_eqb (wup p) PULL_ON && pull_eqb (wdn p) PULL_ON then INTERFERENCE_1_vs_1
       else if pull_eqb (wup p) PULL_WEAK && pull_eqb (wdn p) PULL_WEAK
       then INTERFERENCE_X_vs_X else INTERFERENCE_1_vs_X)
      INTERFERENCE_WEAK_vs_WEAK
  else
    mk_interference_info false false false INTERFERENCE_VALUE_NONE INTERFERENCE_RULE_NONE.

(** ** Reference semantics

    A pull that is X stands for a pull that is either off or on.  A [world]
    fixes all four; [resolve] is what a wired node does in a world: strong
    rules override weak ones, and two opposing rules of the same strength
    interfere. *)
Inductive resolution : Set := R_hold | R_low | R_high | R_conflict.

#[export] Instance resolution_eq_dec : EqDecision resolution.
Proof. solve_decision. Defined.

Definition resolve1 (u d : bool) (otherwise : resolution) : resolution :=
  match u, d with
  | true, true => R_conflict
  | true, false => R_high
  | false, true => R_low
  | false, false => otherwise
  end.

Definition resolve (u d wu wd : bool) : resolution :=
  resolve1 u d (resolve1 wu wd R_hold).

Definition choices (q : pull_enum) : list bool :=
  match q with PULL_OFF => [false] | PULL_ON => [true] | PULL_WEAK => [false; true] end.

Definition outcomes (p : pull_set) : list resolution :=
  u ← choices (up p); d ← choices (dn p); wu ← choices (wup p); wd ← choices (wdn p);
  [resolve u d wu wd].

Definition mirror (p : pull_set) : pull_set :=
  mk_pull_set (dn p) (up p) (wdn p) (wup p).

(** Both weak rules may fire, one of them certainly, and the strong rule on
    the certain one's side may fire. *)
Definition shadowed_conflict (p : pull_set) : bool :=
  (pull_eqb (up p) PULL_WEAK && pull_eqb (dn p) PULL_OFF &&
   pull_eqb (wup p) PULL_ON && negb (pull_eqb (wdn p) PULL_OFF)) ||
  (pull_eqb (dn p) PULL_WEAK && pull_eqb (up p) PULL_OFF &&
   pull_eqb (wdn p) PULL_ON && negb (pull_eqb (wup p) PULL_OFF)).

Definition is_res (r : resolution) (q : resolution) : bool := bool_decide (q = r).

(** The side(s) that some world drives the node to. *)
Definition may_resolve (r : resolution) (p : pull_set) : bool :=
  existsb (is_res r) (outcomes p).

(** Whether more than one outcome other than holding is possible, or a
    conflict is. *)
Definition contested (p : pull_set) : bool :=
  may_resolve R_conflict p || (may_resolve R_low p && may_resolve R_high p).

Lemma pull_eqb_eq a b : pull_eqb a b = true <-> a = b.
Proof. apply bool_decide_eq_true. Qed.
Lemma value_eqb_eq a b : value_eqb a b = true <-> a = b.
Proof. apply bool_decide_eq_true. Qed.
Lemma value_eqb_refl a : value_eqb a a = true.
Proof. by apply value_eqb_eq. Qed.
Lemma value_eqb_neq a b : value_eqb a b = false <-> a <> b.
Proof. apply bool_decide_eq_false. Qed.

(** Every fact about the 81 pull sets is decided by evaluation. *)
Ltac by_pulls := intros [[] [] [] []]; vm_compute; try (intuition congruence).

Lemma mirror_involutive p : mirror (mirror p) = p.
Proof. by destruct p. Qed.

Lemma up_dn_mirror p :
  pull_dn_wins_any p = pull_up_wins_any (mirror p) /\
  pull_dn_x_wins_any p = pull_up_x_wins_any (mirror p).
Proof. revert p. by_pulls. Qed.

(** ** Properties *)

(** the next value of a driven node is decided as the possible-worlds
    reading of its pulls prescribes: [pull_up_wins_any] holds exactly when
    every reading of the X pulls drives the node high, [pull_dn_wins_any]
    when every reading drives it low, and [state_holding] when none drives it. *)
Theorem wins_any_worlds (p : pull_set) :
  pull_up_wins_any p = forallb (is_res R_high) (outcomes p) /\
  pull_dn_wins_any p = forallb (is_res R_low) (outcomes p) /\
  state_holding p = forallb (is_res R_hold) (outcomes p).
Proof. revert p. by_pulls. Qed.

(** [possible_interference_any] reports a node whose pulls can drive it
    both ways, and nothing else; the only contested pull sets it lets through
    are the shadowed conflicts. *)
Theorem possible_interference_contested (p : pull_set) :
  possible_interference_any p = contested p && negb (shadowed_conflict p).
Proof. revert p. by_pulls. Qed.

(** The five cases by which the simulator chooses a node's next value
    (hold, high, low, X without opposition, interference) are mutually
    exclusive; they cover every pull set but the shadowed conflicts, which
    belong to none of them. *)
Theorem pull_set_cases (p : pull_set) :
  count_if id [state_holding p; pull_up_wins_any p; pull_dn_wins_any p;
               x_wins_any p; possible_interference_any p]
  = (if shadowed_conflict p then 0 else 1)%Z.
Proof. revert p. by_pulls. Qed.

(** [interference_info] reports interference exactly when
    [possible_interference_any] holds; it is a certain one ([1] against [1])
    exactly when two rules of the same strength are on and, for weak rules,
    both strong rules are off; and the strengths it names are those of the
    opposing rules. *)
Theorem interference_info_correct (p : pull_set) :
  let i := make_interference_info p in
  have_interference i = possible_interference_any p /\
  have_interference i && negb (possible_interference i)
    = definite_interference_strong p || definite_interference_weak p /\
  (val_type i = INTERFERENCE_1_vs_1 <->
     have_interference i = true /\ possible_interference i = false) /\
  (rule_type i = INTERFERENCE_STRONG_vs_STRONG <-> possible_interference_strong p = true) /\
  (rule_type i = INTERFERENCE_STRONG_vs_WEAK <->
     possible_interference_strong_vs_weak p = true) /\
  (weak_rule_involved i = true <->
     rule_type i = INTERFERENCE_STRONG_vs_WEAK \/ rule_type i = INTERFERENCE_WEAK_vs_WEAK).
Proof. revert p. by_pulls. Qed.

(** The guard tables classify a pending event by what its guard has
    become: an event on the guard's side is unstable (weakly, when the guard
    is X) once the guard is no longer on; an event on the other side
    interferes (weakly, when the guard is X) as long as the guard is not off;
    an event to X is never affected; and the two tables are each other's
    image under inversion of the event's value. *)
Theorem guard_tables (g : pull_enum) (v : value_enum) :
  dnguard g v = upguard g (invert_value v) /\
  upguard g LOGIC_OTHER = EVENT_VACUOUS /\
  upguard g LOGIC_HIGH = (match g with
    | PULL_ON => EVENT_VACUOUS
    | PULL_OFF => EVENT_UNSTABLE
    | PULL_WEAK => EVENT_WEAK_UNSTABLE end) /\
  upguard g LOGIC_LOW = (match g with
    | PULL_OFF => EVENT_VACUOUS
    | PULL_ON => EVENT_INTERFERENCE
    | PULL_WEAK => EVENT_WEAK_INTERFERENCE end).
Proof. by destruct g, v. Qed.
