(* ===== verification/Expr.v ===== *)
(** Expressions of production rules: "sim/prsim/Expr.hh" and
    "sim/prsim/Expr.cc".

    [Expr] is the structure of one node of an expression graph, [ExprState]
    its state (two 16-bit counters), [ExprGraphNode] its list of children.
    The counters are an incremental encoding of the three-valued value of the
    expression; [kleene] is the value they encode, and [counts] the relation
    between the two. *)
From S2P Require Import Prelude PullSet.
Open Scope Z_scope.

Definition INVALID_EXPR_INDEX : nat := 0.
Definition INVALID_NODE_INDEX : nat := 0.

Definition is_valid_node_index (i : nat) : bool := negb (Nat.eqb i INVALID_NODE_INDEX).
Definition is_valid_expr_index (i : nat) : bool := negb (Nat.eqb i INVALID_EXPR_INDEX).

(** ** struct Expr *)
Record Expr : Set := mkExpr {
  e_parent : nat;       (* expression index, or node index of a root *)
  e_type : Z;           (* uchar: bit 0 AND, bit 1 NOT, bit 2 ROOT *)
  e_size : Z            (* ushort: number of children *)
}.

Definition EXPR_OR : Z := 0.
Definition EXPR_AND : Z := 1.
Definition EXPR_NOT : Z := 2.
Definition EXPR_MASK : Z := 3.
Definition EXPR_ROOT : Z := 4.

Definition set_type (e : Expr) (t : Z) : Expr := mkExpr (e_parent e) t (e_size e).
Definition set_parent (e : Expr) (p : nat) : Expr := mkExpr p (e_type e) (e_size e).

Definition Expr_empty : Expr := mkExpr INVALID_EXPR_INDEX 0 0.
(** [Expr(t, s)] asserts that it has a child. *)
Definition Expr_make (t s : Z) : res Expr :=
  if s =? 0 then Err F_assert else Ok (mkExpr INVALID_EXPR_INDEX t s).
Definition Expr_make_parent (p : nat) (t s : Z) : res Expr :=
  if (Nat.eqb p 0) || (s =? 0) then Err F_assert else Ok (mkExpr p t s).

Definition set_root (e : Expr) : Expr := set_type e (set_flag (e_type e) EXPR_ROOT).
Definition unset_root (e : Expr) : Expr := set_type e (clear_flag (e_type e) EXPR_ROOT).
Definition is_root (e : Expr) : bool := has_flag (e_type e) EXPR_ROOT.
Definition is_not (e : Expr) : bool := has_flag (e_type e) EXPR_NOT.
Definition toggle_not (e : Expr) : Expr := set_type e (Z.lxor (e_type e) EXPR_NOT).
Definition toggle_demorgan (e : Expr) : Expr :=
  set_type e (Z.lxor (e_type e) (Z.lor EXPR_NOT EXPR_AND)).
Definition wipe (e : Expr) : Expr := mkExpr (e_parent e) (e_type e) 0.
Definition wiped (e : Expr) : bool := e_size e =? 0.
Definition is_trivial (e : Expr) : bool := (e_size e =? 1) && negb (is_not e).
Definition set_parent_expr (e : Expr) (i : nat) : Expr := set_parent (unset_root e) i.
Definition set_parent_node (e : Expr) (n : nat) : Expr := set_parent (set_root e) n.
Definition is_conjunctive (e : Expr) : bool := has_flag (e_type e) EXPR_AND.
Definition is_disjunctive (e : Expr) : bool := negb (has_flag (e_type e) EXPR_AND).
Definition is_or (e : Expr) : bool :=
  negb (has_flag (e_type e) EXPR_AND) && negb (has_flag (e_type e) EXPR_NOT).
Definition is_nand (e : Expr) : bool :=
  has_flag (e_type e) EXPR_AND && has_flag (e_type e) EXPR_NOT.

(** "Object/lang/PRS_enum.hh" *)
Inductive prs_enum : Set :=
  | PRS_LITERAL_TYPE_ENUM | PRS_NOT_EXPR_TYPE_ENUM | PRS_AND_EXPR_TYPE_ENUM | PRS_OR_EXPR_TYPE_ENUM
  | PRS_NODE_TYPE_ENUM.
Definition to_prs_enum (e : Expr) : prs_enum :=
  if is_not e then PRS_NOT_EXPR_TYPE_ENUM
  else if is_or e then PRS_OR_EXPR_TYPE_ENUM
  else PRS_AND_EXPR_TYPE_ENUM.

Definition parenthesize (e : Expr) (ptype : Z) (proot : bool) : bool :=
  let neg := has_flag (e_type e) EXPR_NOT in
  let mismatch := has_flag (Z.lxor (e_type e) ptype) EXPR_MASK in
  (1 <? e_size e) && (neg || (mismatch && negb proot)).

(** ** struct ExprState *)
Record ExprState : Set := mkExprState {
  countdown : Z;   (* ushort: the 1's of an OR, the 0's of an AND *)
  unknowns : Z     (* ushort: the X's *)
}.

Definition ExprState_initialize (e : Expr) : ExprState := mkExprState 0 (e_size e).

Definition negate_pull (p : pull_enum) : pull_enum :=
  if pull_eqb p PULL_WEAK then PULL_WEAK
  else if pull_eqb p PULL_OFF then PULL_ON else PULL_OFF.

Definition or_pull_state (u : ExprState) (e : Expr) : pull_enum :=
  let r := if negb (countdown u =? 0) then PULL_ON
           else if negb (unknowns u =? 0) then PULL_WEAK else PULL_OFF in
  if is_not e then negate_pull r else r.

Definition and_pull_state (u : ExprState) (e : Expr) : pull_enum :=
  let r := if negb (countdown u =? 0) then PULL_OFF
           else if negb (unknowns u =? 0) then PULL_WEAK else PULL_ON in
  if is_not e then negate_pull r else r.

Definition pull_state (u : ExprState) (e : Expr) : pull_enum :=
  if is_disjunctive e then or_pull_state u e else and_pull_state u e.

(** The bits of a pull that the counters add up: [p >> 1], [p & 1], [!p]. *)
Definition pull_x (p : pull_enum) : Z := match p with PULL_WEAK => 1 | _ => 0 end.
Definition pull_1 (p : pull_enum) : Z := match p with PULL_ON => 1 | _ => 0 end.
Definition pull_0 (p : pull_enum) : Z := match p with PULL_OFF => 1 | _ => 0 end.

(** One step of [State::evaluate_kernel]: a child of [e] went from [prev] to
    [next]; the new counters, and the pull state before and after. *)
Definition update_expr (e : Expr) (u : ExprState) (prev next : pull_enum)
    : ExprState * pull_enum * pull_enum :=
  if is_disjunctive e then
    let old_pull := or_pull_state u e in
    let u' := mkExprState
      (wrap 16 (countdown u + (pull_1 next - pull_1 prev)))
      (wrap 16 (unknowns u + (pull_x next - pull_x prev))) in
    (u', old_pull, or_pull_state u' e)
  else
    let old_pull := and_pull_state u e in
    let u' := mkExprState
      (wrap 16 (countdown u + (pull_0 next - pull_0 prev)))
      (wrap 16 (unknowns u + (pull_x next - pull_x prev))) in
    (u', old_pull, and_pull_state u' e).

(** ** struct ExprGraphNode *)
(** [child_entry_type]: whether the child is a node, and its index. *)
Abbreviation child_entry := (bool * nat)%type.

Record ExprGraphNode : Set := mkExprGraphNode {
  g_offset : nat;                  (* ushort: position in the parent's list *)
  g_children : list child_entry
}.

Definition INVALID_OFFSET : nat := 255.
Definition ExprGraphNode_empty : ExprGraphNode := mkExprGraphNode INVALID_OFFSET [].

Definition push_back_expr (g : ExprGraphNode) (i : nat) : ExprGraphNode :=
  mkExprGraphNode (g_offset g) (g_children g ++ [(false, i)]).
Definition push_back_node (g : ExprGraphNode) (i : nat) : ExprGraphNode :=
  mkExprGraphNode (g_offset g) (g_children g ++ [(true, i)]).

Definition node_membership_checker (i : nat) (c : child_entry) : bool :=
  if c.1 then Nat.eqb c.2 i else false.
Definition contains_node_fanin (g : ExprGraphNode) (i : nat) : bool :=
  existsb (node_membership_checker i) (g_children g).
Definition ExprGraphNode_wipe (g : ExprGraphNode) : ExprGraphNode :=
  mkExprGraphNode (g_offset g) [].
Definition ExprGraphNode_wiped (g : ExprGraphNode) : bool :=
  match g_children g with [] => true | _ => false end.

(** ** Reference semantics: strong three-valued (Kleene) logic *)
Definition k_or (a b : pull_enum) : pull_enum :=
  match a, b with
  | PULL_ON, _ | _, PULL_ON => PULL_ON
  | PULL_OFF, PULL_OFF => PULL_OFF
  | _, _ => PULL_WEAK
  end.
Definition k_not (a : pull_enum) : pull_enum :=
  match a with PULL_ON => PULL_OFF | PULL_OFF => PULL_ON | PULL_WEAK => PULL_WEAK end.
Definition k_and (a b : pull_enum) : pull_enum := k_not (k_or (k_not a) (k_not b)).

Definition kleene (e : Expr) (cs : list pull_enum) : pull_enum :=
  let r := if is_disjunctive e then foldr k_or PULL_OFF cs else foldr k_and PULL_ON cs in
  if is_not e then k_not r else r.

(** ** Counting *)
Fixpoint sumz {A} (f : A -> Z) (l : list A) : Z :=
  match l with [] => 0 | x :: l' => f x + sumz f l' end.

(** What [countdown] counts in an expression. *)
Definition pull_c (e : Expr) (p : pull_enum) : Z :=
  if is_disjunctive e then pull_1 p else pull_0 p.

(** The counters of [e] agree with the pulls [cs] of its children. *)
Definition counts (e : Expr) (cs : list pull_enum) (u : ExprState) : Prop :=
  countdown u = sumz (pull_c e) cs /\ unknowns u = sumz pull_x cs.

Lemma sumz_insert {A} (f : A -> Z) (l : list A) j x y :
  l !! j = Some x -> sumz f (<[j:=y]> l) = sumz f l - f x + f y.
Proof.
  revert j. induction l as [|z l IH]; intros [|j] Hj; simplify_eq/=; [lia|].
  rewrite (IH j) by done. lia.
Qed.

Lemma sumz_bounds {A} (f : A -> Z) (l : list A) :
  (forall x, 0 <= f x <= 1) -> 0 <= sumz f l <= Z.of_nat (length l).
Proof. intros Hf. induction l as [|x l IH]; cbn; [lia|]. pose proof (Hf x). lia. Qed.

Lemma sumz_ext {A} (f g : A -> Z) (l : list A) :
  (forall x, x ∈ l -> f x = g x) -> sumz f l = sumz g l.
Proof.
  induction l as [|x l IH]; cbn; intros H; [done|].
  rewrite (H x) by (by apply list_elem_of_here). rewrite IH; [done|].
  intros y Hy. apply H. by apply list_elem_of_further.
Qed.

Lemma sumz_map {A B} (f : B -> Z) (g : A -> B) (l : list A) :
  sumz f (map g l) = sumz (fun x => f (g x)) l.
Proof. induction l as [|x l IH]; cbn; [done|]. by rewrite IH. Qed.

Lemma pull_bit_bounds p :
  0 <= pull_x p <= 1 /\ 0 <= pull_1 p <= 1 /\ 0 <= pull_0 p <= 1.
Proof. destruct p; cbn; lia. Qed.

Lemma pull_c_bounds e p : 0 <= pull_c e p <= 1.
Proof. unfold pull_c. pose proof (pull_bit_bounds p). destruct (is_disjunctive e); lia. Qed.

Lemma counts_range e cs u : counts e cs u ->
  0 <= countdown u <= Z.of_nat (length cs) /\ 0 <= unknowns u <= Z.of_nat (length cs).
Proof.
  intros [-> ->]. split; apply sumz_bounds; intros x.
  - apply pull_c_bounds.
  - apply pull_bit_bounds.
Qed.

Lemma negate_pull_k p : negate_pull p = k_not p.
Proof. by destruct p. Qed.

Lemma k_not_involutive p : k_not (k_not p) = p.
Proof. by destruct p. Qed.

Lemma foldr_k_or cs :
  foldr k_or PULL_OFF cs =
    if negb (sumz pull_1 cs =? 0) then PULL_ON
    else if negb (sumz pull_x cs =? 0) then PULL_WEAK else PULL_OFF.
Proof.
  induction cs as [|p cs IH]; cbn [foldr sumz]; [done|]. rewrite IH.
  assert (0 <= sumz pull_1 cs) by (apply sumz_bounds; apply pull_bit_bounds).
  assert (0 <= sumz pull_x cs) by (apply sumz_bounds; apply pull_bit_bounds).
  destruct p; cbn [pull_1 pull_x];
    repeat match goal with |- context [?a =? ?b] => destruct (Z.eqb_spec a b) end;
    cbn [negb k_or]; solve [done | exfalso; lia].
Qed.

Lemma foldr_k_and cs : foldr k_and PULL_ON cs = k_not (foldr k_or PULL_OFF (map k_not cs)).
Proof.
  induction cs as [|p cs IH]; [done|]. cbn [foldr map]. rewrite IH. unfold k_and.
  by rewrite k_not_involutive.
Qed.

Lemma sumz_k_not_1 cs : sumz pull_1 (map k_not cs) = sumz pull_0 cs.
Proof. rewrite sumz_map. apply sumz_ext. by intros []. Qed.
Lemma sumz_k_not_x cs : sumz pull_x (map k_not cs) = sumz pull_x cs.
Proof. rewrite sumz_map. apply sumz_ext. by intros []. Qed.

(** The counters determine the Kleene value of the expression. *)
Lemma pull_state_kleene e cs u : counts e cs u -> pull_state u e = kleene e cs.
Proof.
  intros [Hc Hx]. unfold pull_state, kleene, or_pull_state, and_pull_state, pull_c in *.
  destruct (is_disjunctive e).
  - rewrite Hc, Hx, foldr_k_or, !negate_pull_k. done.
  - rewrite Hc, Hx, foldr_k_and, foldr_k_or, sumz_k_not_1, sumz_k_not_x, !negate_pull_k.
    destruct (negb (sumz pull_0 cs =? 0)), (negb (sumz pull_x cs =? 0)); done.
Qed.

Lemma update_expr_eq e u prev next :
  update_expr e u prev next =
    (let u' := mkExprState (wrap 16 (countdown u + (pull_c e next - pull_c e prev)))
                           (wrap 16 (unknowns u + (pull_x next - pull_x prev))) in
     (u', pull_state u e, pull_state u' e)).
Proof. unfold update_expr, pull_state, pull_c. by destruct (is_disjunctive e). Qed.

Lemma counts_insert e cs u j prev next :
  cs !! j = Some prev -> counts e cs u -> Z.of_nat (length cs) < 2 ^ 16 ->
  counts e (<[j:=next]> cs)
    (mkExprState (wrap 16 (countdown u + (pull_c e next - pull_c e prev)))
                 (wrap 16 (unknowns u + (pull_x next - pull_x prev)))).
Proof.
  intros Hj [Hc Hx] Hlen.
  assert (Hrange : forall f : pull_enum -> Z, (forall p, 0 <= f p <= 1) ->
    0 <= sumz f (<[j:=next]> cs) < 2 ^ 16).
  { intros f Hf. pose proof (sumz_bounds f (<[j:=next]> cs) Hf) as Hs.
    rewrite length_insert in Hs. lia. }
  pose proof (Hrange (pull_c e) (pull_c_bounds e)).
  pose proof (Hrange pull_x (fun p => proj1 (pull_bit_bounds p))).
  rewrite !(sumz_insert _ _ _ _ _ Hj) in *.
  split; cbn; rewrite !(sumz_insert _ _ _ _ _ Hj), wrap_small; lia.
Qed.

Lemma is_not_toggle e : is_not (toggle_demorgan e) = negb (is_not e).
Proof.
  unfold is_not, toggle_demorgan, set_type, EXPR_NOT; cbn [e_type].
  rewrite !(has_flag_testbit _ 1), Z.lxor_spec by lia. by rewrite xorb_true_r.
Qed.

Lemma is_disjunctive_toggle e : is_disjunctive (toggle_demorgan e) = negb (is_disjunctive e).
Proof.
  unfold is_disjunctive, toggle_demorgan, set_type, EXPR_AND; cbn [e_type].
  rewrite !(has_flag_testbit _ 0), Z.lxor_spec by lia. by rewrite xorb_true_r.
Qed.

(** ** Properties *)

(** C23: replacing one child's pull by another, as [State::evaluate_kernel]
    does at each expression it visits, keeps the two 16-bit counters equal to
    the numbers they count (for an expression of fewer than 65536 children),
    and the pull states it compares before and after are the Kleene values
    of the expression over the old and the new children. *)
Theorem update_expr_correct e u cs j prev next :
  cs !! j = Some prev -> counts e cs u -> Z.of_nat (length cs) < 2 ^ 16 ->
  exists u', update_expr e u prev next = (u', kleene e cs, kleene e (<[j:=next]> cs)) /\
    counts e (<[j:=next]> cs) u'.
Proof.
  intros Hj Hc Hl. pose proof (counts_insert _ _ _ _ _ next Hj Hc Hl) as Hc'.
  eexists. split; [|exact Hc'].
  rewrite update_expr_eq. cbn. by rewrite (pull_state_kleene _ _ _ Hc), (pull_state_kleene _ _ _ Hc').
Qed.

(** A three-input NAND with inputs 1, X, 1, whose X input becomes 0. *)
Definition nand3 : Expr := mkExpr 0 7 3.
Lemma update_expr_correct_witness :
  exists u', update_expr nand3 (mkExprState 0 1) PULL_WEAK PULL_OFF
    = (u', PULL_WEAK, PULL_ON) /\ counts nand3 [PULL_ON; PULL_OFF; PULL_ON] u'.
Proof.
  apply (update_expr_correct nand3 (mkExprState 0 1) [PULL_ON; PULL_WEAK; PULL_ON] 1
           PULL_WEAK PULL_OFF); [done|done|vm_compute; done].
Defined.

(** [toggle_demorgan] is De Morgan's law on the type bits: the toggled
    expression over negated children has the value of the original one, its
    own root bit kept. *)
Theorem toggle_demorgan_correct e cs :
  kleene (toggle_demorgan e) (map k_not cs) = kleene e cs /\
  is_root (toggle_demorgan e) = is_root e.
Proof.
  split.
  - unfold kleene. rewrite is_not_toggle, is_disjunctive_toggle, foldr_k_and.
    destruct (is_disjunctive e), (is_not e); cbn [negb];
      rewrite ?foldr_k_and, ?k_not_involutive; try done;
      rewrite map_map; rewrite (map_ext _ id) by (intros; apply k_not_involutive);
      by rewrite map_id, ?k_not_involutive.
  - unfold is_root, toggle_demorgan, set_type, EXPR_ROOT; cbn [e_type].
    rewrite !(has_flag_testbit _ 2), Z.lxor_spec by lia. by rewrite xorb_false_r.
Qed.
