(* ===== verification/EventQueue.v ===== *)
(** The event queue: "sim/event.hh" and "sim/event.tcc".

    [EventQueue] wraps a [std::multiset] of placeholders ordered by time.  A
    multiset keeps its elements sorted and inserts an element behind those
    that are equal to it, so it is modelled by a sorted list; [wf_queue] is
    that the list is sorted and holds no NaN. *)
From S2P Require Import Prelude SimTime.
From stdpp Require Import sorting.

(** ** EventPlaceholder *)
Record EventPlaceholder (T : Type) : Type := mkPlaceholder {
  ep_time : T;
  ep_index : nat
}.
Arguments mkPlaceholder {T} _ _.
Arguments ep_time {T} _.
Arguments ep_index {T} _.

Section Queue.
Context {T : Type} `{SimTime T}.
Abbreviation value_type := (EventPlaceholder T).

Definition placeholder_lt (l r : value_type) : bool := t_lt (ep_time l) (ep_time r).

Definition index_finder (i : nat) (t : value_type) : bool := Nat.eqb (ep_index t) i.

(** ** EventQueue *)
#[local] Abbreviation EventQueue := (list value_type).

Definition eq_empty (q : EventQueue) : bool :=
  match q with [] => true | _ => false end.

(** [std::multiset::insert]: at the upper bound of the element. *)
Fixpoint multiset_insert (p : value_type) (q : EventQueue) : EventQueue :=
  match q with
  | [] => [p]
  | x :: q' => if placeholder_lt p x then p :: q else x :: multiset_insert p q'
  end.

Definition push (q : EventQueue) (p : value_type) : EventQueue := multiset_insert p q.

Definition eq_size (q : EventQueue) : nat := length q.

(** [*begin()] and [erase(begin())]; undefined on an empty queue. *)
Definition pop (q : EventQueue) : res (value_type * EventQueue) :=
  match q with [] => Err F_index | x :: q' => Ok (x, q') end.

(** [pop(value_type&)]: erases [begin()] and, for the multiset, erases the
    same iterator a second time, which is undefined. *)
Definition pop_into (q : EventQueue) : res (value_type * EventQueue) :=
  match pop q with
  | Err f => Err f
  | Ok _ => Err F_index
  end.

Definition top (q : EventQueue) : res value_type :=
  match q with [] => Err F_assert | x :: _ => Ok x end.

Definition eq_clear (q : EventQueue) : EventQueue := [].

Definition copy_to {A} (f : value_type -> A) (q : EventQueue) (s : list A) : list A :=
  s ++ map f q.

(** ** Invariant *)
Definition q_le (a b : value_type) : Prop := t_le (ep_time a) (ep_time b) = true.

Definition wf_queue (q : EventQueue) : Prop :=
  Forall (fun x => t_ok (ep_time x) = true) q /\ StronglySorted q_le q.

(** Two times that the queue does not tell apart. *)
Definition same_time (a b : T) : bool := negb (t_lt a b) && negb (t_lt b a).

Context `{!SimTimeLaws T}.

Lemma multiset_insert_split p q :
  exists q1 q2, q = q1 ++ q2 /\ multiset_insert p q = q1 ++ p :: q2 /\
    Forall (fun x => placeholder_lt p x = false) q1 /\
    match q2 with [] => True | x :: _ => placeholder_lt p x = true end.
Proof.
  induction q as [|x q (q1 & q2 & -> & E & H1 & H2)]; cbn [multiset_insert].
  - exists [], []. done.
  - destruct (placeholder_lt p x) eqn:Hp.
    + exists [], (x :: q1 ++ q2). done.
    + exists (x :: q1), q2. rewrite E. repeat split; [|done]. by constructor.
Qed.

Lemma multiset_insert_perm p q : multiset_insert p q ≡ₚ p :: q.
Proof.
  destruct (multiset_insert_split p q) as (q1 & q2 & -> & -> & _).
  symmetry. apply Permutation_middle.
Qed.

Lemma elem_of_multiset_insert x p q : x ∈ multiset_insert p q <-> x = p \/ x ∈ q.
Proof. rewrite multiset_insert_perm. apply elem_of_cons. Qed.

Lemma push_perm q p : push q p ≡ₚ p :: q.
Proof. apply multiset_insert_perm. Qed.

Lemma q_le_of_not_lt a b : t_ok (ep_time a) = true -> t_ok (ep_time b) = true ->
  placeholder_lt a b = false -> q_le b a.
Proof. unfold q_le, placeholder_lt. intros. rewrite t_le_lt by done. by apply negb_true_iff. Qed.

Lemma wf_push q p : wf_queue q -> t_ok (ep_time p) = true -> wf_queue (push q p).
Proof.
  intros [Hok Hs] Hp. split.
  { unfold push. rewrite multiset_insert_perm. by constructor. }
  unfold push. induction Hs as [|x q Hs IH Hx]; cbn [multiset_insert].
  { repeat constructor. }
  apply Forall_cons in Hok as [Hxok Hok].
  destruct (placeholder_lt p x) eqn:E.
  - constructor; [by constructor|]. constructor; [by apply t_lt_le|].
    eapply Forall_impl; [exact Hx|]. intros y Hy. eapply t_le_trans; [|exact Hy].
    by apply t_lt_le.
  - constructor; [by apply IH|]. rewrite multiset_insert_perm.
    constructor; [by apply q_le_of_not_lt|done].
Qed.

Lemma wf_pop q x q' : wf_queue q -> pop q = Ok (x, q') ->
  wf_queue q' /\ q = x :: q' /\ Forall (q_le x) q.
Proof.
  intros [Hok Hs] E. destruct q as [|y q]; [done|]. injection E as -> ->.
  apply Forall_cons in Hok as [Hx Hok]. apply StronglySorted_inv in Hs as [Hs Hf].
  repeat split; try done. constructor; [by apply t_le_refl|done].
Qed.

(** Waiting elements of one time keep their order: first in, first out. *)
Lemma push_fifo q p t : wf_queue q -> t_ok (ep_time p) = true -> t_ok t = true ->
  filter (fun x => Is_true (same_time (ep_time x) t)) (push q p)
  = filter (fun x => Is_true (same_time (ep_time x) t)) q ++
    filter (fun x => Is_true (same_time (ep_time x) t)) [p].
Proof.
  intros [Hok Hs] Hp Ht. unfold push.
  destruct (multiset_insert_split p q) as (q1 & q2 & Eq & -> & _ & H2). subst q.
  rewrite !filter_app. rewrite filter_cons, (filter_cons _ p []).
  case_decide as Hd; rewrite <- app_assoc; f_equal; [|by rewrite app_nil_r].
  (* an element behind p is strictly later than p, hence not at time t *)
  assert (filter (fun x => Is_true (same_time (ep_time x) t)) q2 = []) as ->; [|done].
  destruct q2 as [|x q2]; [done|]. apply filter_none. intros y Hy Hyt.
  apply Is_true_true in Hd, Hyt. unfold same_time in Hd, Hyt.
  apply andb_true_iff in Hd as [Hd1 Hd2], Hyt as [Hy1 Hy2].
  apply negb_true_iff in Hd1, Hd2, Hy1, Hy2.
  assert (t_lt (ep_time p) (ep_time y) = true) as Hlt.
  { apply Forall_app in Hok as [_ Hok].
    assert (StronglySorted q_le (x :: q2)) as Hs2 by (by eapply StronglySorted_app_1_r).
    apply StronglySorted_inv in Hs2 as [_ Hf]. unfold placeholder_lt in H2.
    apply elem_of_cons in Hy as [->|Hy]; [done|].
    pose proof (proj1 (Forall_forall _ _) Hf y Hy) as Hle. unfold q_le in Hle.
    destruct (t_le_ok _ _ Hle) as [Hxo Hyo].
    destruct (t_lt_cotrans _ (ep_time y) _ Hyo H2) as [|Hyx]; [done|].
    rewrite t_le_lt, Hyx in Hle by done. done. }
  destruct (t_lt_cotrans _ t _ Ht Hlt); congruence.
Qed.

(** The specification of a run of pushes: a stable sort by time. *)
Definition pushes (l : list value_type) (q : EventQueue) : EventQueue := foldl push q l.

Lemma wf_pushes l q : wf_queue q -> Forall (fun x => t_ok (ep_time x) = true) l ->
  wf_queue (pushes l q).
Proof.
  intros Hq Hl. revert q Hq. induction Hl as [|x l Hx Hl IH]; intros q Hq; [done|].
  apply IH. by apply wf_push.
Qed.

Lemma pushes_perm l q : pushes l q ≡ₚ q ++ l.
Proof.
  revert q. induction l as [|x l IH]; intros q; cbn.
  - by rewrite app_nil_r.
  - unfold pushes in IH. rewrite IH, push_perm. apply Permutation_middle.
Qed.

Lemma pushes_fifo l q t : wf_queue q -> Forall (fun x => t_ok (ep_time x) = true) l ->
  t_ok t = true ->
  filter (fun x => Is_true (same_time (ep_time x) t)) (pushes l q)
  = filter (fun x => Is_true (same_time (ep_time x) t)) (q ++ l).
Proof.
  intros Hq Hl Ht. revert q Hq. induction Hl as [|x l Hx Hl IH]; intros q Hq.
  - by rewrite app_nil_r.
  - change (pushes (x :: l) q) with (pushes l (push q x)).
    rewrite IH by (by apply wf_push).
    rewrite !filter_app, push_fifo, filter_cons by done. rewrite <- app_assoc. f_equal.
    rewrite filter_cons. by case_decide.
Qed.

(** ** Properties *)

(** The event queue is a stable priority queue.  After any run of pushes
    of events at proper times it holds exactly those events, sorted by time,
    and the events of one time stand in the order they were pushed. *)
Theorem queue_stable_sort l :
  Forall (fun x => t_ok (ep_time x) = true) l ->
  pushes l [] ≡ₚ l /\ wf_queue (pushes l []) /\
  forall t, t_ok t = true ->
    filter (fun x => Is_true (same_time (ep_time x) t)) (pushes l [])
    = filter (fun x => Is_true (same_time (ep_time x) t)) l.
Proof.
  intros Hl. assert (wf_queue []) as H0 by (split; constructor).
  split; [by rewrite pushes_perm|]. split; [by apply wf_pushes|].
  intros t Ht. by rewrite pushes_fifo.
Qed.

(** On a well-formed queue that is not empty, [pop] and [top] return an
    event of the earliest time, the first pushed among those of that time,
    and [pop] leaves the rest of the queue well-formed. *)
Theorem queue_pop_earliest q :
  wf_queue q -> q <> [] ->
  exists x q', pop q = Ok (x, q') /\ top q = Ok x /\ q ≡ₚ x :: q' /\ wf_queue q' /\
    Forall (fun y => t_lt (ep_time y) (ep_time x) = false) q /\
    head (filter (fun y => Is_true (same_time (ep_time y) (ep_time x))) q) = Some x.
Proof.
  intros Hq Hne. destruct q as [|x q]; [done|]. exists x, q.
  destruct (wf_pop _ x q Hq eq_refl) as (Hq' & _ & Hmin).
  repeat split; try done; try apply Hq'.
  - eapply Forall_impl; [exact Hmin|]. intros y Hy. unfold q_le in Hy.
    destruct (t_le_ok _ _ Hy). rewrite t_le_lt in Hy by done. by apply negb_true_iff.
  - rewrite filter_cons, decide_True; [done|]. unfold same_time. by rewrite t_lt_irrefl.
Qed.
End Queue.

Lemma queue_stable_sort_witness :
  let l := [mkPlaceholder 5%Z 1; mkPlaceholder 3%Z 2; mkPlaceholder 5%Z 3] in
  pushes l [] ≡ₚ l /\ wf_queue (pushes l []) /\
  forall t, t_ok t = true ->
    filter (fun x => Is_true (same_time (ep_time x) t)) (pushes l [])
    = filter (fun x => Is_true (same_time (ep_time x) t)) l.
Proof.
  intros l. apply (queue_stable_sort (T := discrete_time) l). repeat constructor.
Defined.

Lemma queue_pop_earliest_witness :
  let q := pushes [mkPlaceholder 5%Z 1; mkPlaceholder 3%Z 2] [] in
  exists x q', pop q = Ok (x, q') /\ top q = Ok x /\ q ≡ₚ x :: q' /\ wf_queue q' /\
    Forall (fun y => t_lt (ep_time y) (ep_time x) = false) q /\
    head (filter (fun y => Is_true (same_time (ep_time y) (ep_time x))) q) = Some x.
Proof.
  intros q. apply (queue_pop_earliest (T := discrete_time) q); [|done].
  apply wf_pushes; [split; constructor|repeat constructor].
Defined.
