(* ===== verification/ArrayPool.v ===== *)
(** The pool of events: "util/memory/array_pool.hh" and
    "util/memory/array_pool.tcc", over "util/memory/index_pool.tcc" and the
    [std::set] specialization of "util/memory/free_list.hh".

    A pool is a growing array, addressed by index, whose entry 0 is never
    given out, and the set of the indices that have been returned.  [wf_pool]
    is its invariant and [allocated] the indices that are in use. *)
From S2P Require Import Prelude.
From stdpp Require Import sorting.

(** ** index_pool *)
Section IndexPool.
Context {A : Type} (dflt : A).

Definition index_pool_allocate (l : list A) : nat * list A := (length l, l ++ [dflt]).
Definition index_pool_allocate_value (l : list A) (v : A) : nat * list A :=
  (length l, l ++ [v]).
End IndexPool.

(** ** free_list over std::set, ascending *)
Definition set_acquire (c : list nat) : res (nat * list nat) :=
  match c with [] => Err F_assert | x :: c' => Ok (x, c') end.

Fixpoint set_release (c : list nat) (v : nat) : res (list nat) :=
  match c with
  | [] => Ok [v]
  | x :: c' =>
      if Nat.ltb v x then Ok (v :: c)
      else if Nat.eqb v x then Err F_assert
      else match set_release c' v with Ok c'' => Ok (x :: c'') | Err f => Err f end
  end.

(** ** array_pool *)
Record array_pool (A : Type) : Type := mkPool {
  index_pool : list A;
  free_indices : list nat
}.
Arguments mkPool {A} _ _.
Arguments index_pool {A} _.
Arguments free_indices {A} _.

Section Pool.
Context {A : Type} (dflt : A).

(** The constructor and [clear] reserve entry 0. *)
Definition array_pool_make : array_pool A :=
  mkPool (snd (index_pool_allocate dflt [])) [].
Definition array_pool_clear (p : array_pool A) : array_pool A :=
  mkPool (snd (index_pool_allocate dflt [])) [].

Definition pool_size (p : array_pool A) : nat := length (index_pool p).

Definition pool_get (p : array_pool A) (i : nat) : res A :=
  if Nat.eqb i 0 then Err F_assert
  else match index_pool p !! i with Some a => Ok a | None => Err F_index end.

(** [pool[i] = e] through the reference that [operator[]] returns. *)
Definition pool_set (p : array_pool A) (i : nat) (e : A) : res (array_pool A) :=
  if Nat.eqb i 0 then Err F_assert
  else if Nat.ltb i (length (index_pool p)) then
    Ok (mkPool (<[i := e]> (index_pool p)) (free_indices p))
  else Err F_index.

Definition allocate (p : array_pool A) (e : A) : res (nat * array_pool A) :=
  match free_indices p with
  | [] =>
      let '(i, l) := index_pool_allocate_value (index_pool p) e in
      if Nat.eqb i 0 then Err F_assert else Ok (i, mkPool l [])
  | _ :: _ =>
      match set_acquire (free_indices p) with
      | Err f => Err f
      | Ok (i, c) =>
          if Nat.ltb i (length (index_pool p)) then
            if Nat.eqb i 0 then Err F_assert
            else Ok (i, mkPool (<[i := e]> (index_pool p)) c)
          else Err F_index
      end
  end.

Definition deallocate (p : array_pool A) (i : nat) : res (array_pool A) :=
  if Nat.eqb i 0 then Err F_assert
  else match set_release (free_indices p) i with
       | Ok c => Ok (mkPool (index_pool p) c)
       | Err f => Err f
       end.

(** All 64-bit: the sum of the free list, and the triangular number that
    halves the even factor first. *)
Definition free_sum (c : list nat) : Z :=
  foldl (fun s i => wrap 64 (s + Z.of_nat i)) 0%Z c.
Definition expect_sum (m : Z) : Z :=
  if Z.testbit m 0
  then wrap 64 (m * Z.shiftr (wrap 64 (m + 1)) 1)
  else wrap 64 (Z.shiftr m 1 * wrap 64 (m + 1)).

Definition check_valid_empty (p : array_pool A) : bool :=
  let n := wrap 64 (Z.of_nat (pool_size p) - 1) in
  let m := Z.of_nat (length (free_indices p)) in
  if negb (n =? m)%Z then false
  else (free_sum (free_indices p) =? expect_sum m)%Z.

(** ** Invariant *)
Definition in_pool (p : array_pool A) (i : nat) : Prop := 0 < i < pool_size p.

Record wf_pool (p : array_pool A) : Prop := {
  wf_pool_pos : 0 < pool_size p;
  wf_pool_sorted : StronglySorted lt (free_indices p);
  wf_pool_free : Forall (in_pool p) (free_indices p)
}.

Definition allocated (p : array_pool A) (i : nat) : Prop :=
  in_pool p i /\ i ∉ free_indices p.

Lemma set_release_spec c v : StronglySorted lt c -> v ∉ c ->
  exists c', set_release c v = Ok c' /\ StronglySorted lt c' /\ c' ≡ₚ v :: c.
Proof.
  intros Hs. induction Hs as [|x c Hs IH Hx]; intros Hv; cbn [set_release].
  { exists [v]. repeat constructor. }
  apply not_elem_of_cons in Hv as [Hne Hv].
  destruct (Nat.ltb_spec v x).
  - exists (v :: x :: c). split_and!; [done| |done].
    constructor; [by constructor|]. constructor; [done|]. eapply Forall_impl; [exact Hx|]. cbn. lia.
  - rewrite (proj2 (Nat.eqb_neq v x)) by done.
    destruct (IH Hv) as (c' & -> & Hs' & Hp). exists (x :: c'). split_and!; [done| |].
    + constructor; [done|]. rewrite Hp. constructor; [lia|done].
    + rewrite Hp. apply Permutation_swap.
Qed.

Lemma set_release_dup c v : StronglySorted lt c -> v ∈ c -> set_release c v = Err F_assert.
Proof.
  intros Hs. induction Hs as [|x c Hs IH Hx]; intros Hv; cbn [set_release]; [by apply elem_of_nil in Hv|].
  apply elem_of_cons in Hv as [->|Hv].
  - by rewrite Nat.ltb_irrefl, Nat.eqb_refl.
  - rewrite Forall_forall in Hx. pose proof (Hx v Hv).
    destruct (Nat.ltb_spec v x); [lia|]. rewrite (proj2 (Nat.eqb_neq v x)) by lia.
    by rewrite IH.
Qed.

Lemma wf_make : wf_pool array_pool_make.
Proof. split; cbn; [lia|constructor|constructor]. Qed.

Lemma wf_clear p : wf_pool (array_pool_clear p).
Proof. apply wf_make. Qed.

Lemma pool_get_in p i e : in_pool p i -> index_pool p !! i = Some e -> pool_get p i = Ok e.
Proof.
  intros [Hi _] He. unfold pool_get. rewrite (proj2 (Nat.eqb_neq i 0)) by lia. by rewrite He.
Qed.

Lemma pool_get_range p i e : pool_get p i = Ok e -> in_pool p i.
Proof.
  unfold pool_get. destruct (Nat.eqb_spec i 0) as [->|Hi]; [done|].
  destruct (index_pool p !! i) eqn:E; [|done]. intros _. apply lookup_lt_Some in E.
  unfold in_pool, pool_size. lia.
Qed.
Lemma pool_get_allocated p i : in_pool p i -> exists e, pool_get p i = Ok e.
Proof.
  intros Hi. destruct (lookup_lt_is_Some_2 (index_pool p) i) as [e He]; [apply Hi|].
  exists e. by apply pool_get_in.
Qed.

Lemma pool_get_ext p p' j :
  index_pool p' !! j = index_pool p !! j -> pool_get p' j = pool_get p j.
Proof. unfold pool_get. by intros ->. Qed.

(** What [allocate] promises: a fresh entry that holds [e], nothing else
    changed. *)
Record allocate_post (p : array_pool A) (e : A) (i : nat) (p' : array_pool A) : Prop := {
  al_wf : wf_pool p';
  al_fresh : ~ allocated p i;
  al_in : allocated p' i;
  al_get : pool_get p' i = Ok e;
  al_frame : forall j, j <> i -> allocated p' j <-> allocated p j;
  al_get_frame : forall j, allocated p j -> pool_get p' j = pool_get p j;
  al_range : pool_size p <= pool_size p' <= S (pool_size p)
}.

Lemma allocate_new p e : wf_pool p -> free_indices p = [] ->
  exists i p', allocate p e = Ok (i, p') /\ allocate_post p e i p'.
Proof.
  intros [Hp Hs Hf] E. unfold allocate, pool_size in *. rewrite E. cbn.
  rewrite (proj2 (Nat.eqb_neq _ 0)) by lia. eexists _, _. split; [done|].
  assert (Hin : forall j, in_pool (mkPool (index_pool p ++ [e]) []) j <->
                          j = length (index_pool p) \/ in_pool p j).
  { intros j. unfold in_pool, pool_size. cbn. rewrite length_app. cbn. lia. }
  assert (Hnil : forall j : nat, j ∉ []) by (intros j Hj; by apply elem_of_nil in Hj).
  split; unfold allocated; cbn.
  - split; cbn; unfold pool_size; cbn; [rewrite length_app; cbn; lia|constructor|constructor].
  - unfold in_pool, pool_size. lia.
  - split; [|done]. apply Hin. by left.
  - apply pool_get_in; [apply Hin; by left|]. cbn. by rewrite lookup_app_r, Nat.sub_diag by lia.
  - intros j Hne. rewrite Hin, E. tauto.
  - intros j [[_ Hj] _]. apply pool_get_ext. cbn. by apply lookup_app_l.
  - unfold pool_size. cbn. rewrite length_app. cbn. lia.
Qed.

Lemma allocate_reuse p e i c : wf_pool p -> free_indices p = i :: c ->
  exists i p', allocate p e = Ok (i, p') /\ allocate_post p e i p'.
Proof.
  intros [Hp Hs Hf] E. unfold allocate. rewrite E in *. cbn [set_acquire].
  apply Forall_cons in Hf as [Hi Hf]. apply StronglySorted_inv in Hs as [Hs Hlt].
  rewrite (proj2 (Nat.ltb_lt i _)) by apply Hi.
  rewrite (proj2 (Nat.eqb_neq i 0)) by (destruct Hi; lia). eexists _, _. split; [done|].
  assert (Hin : forall j, in_pool (mkPool (<[i:=e]> (index_pool p)) c) j <-> in_pool p j).
  { intros j. unfold in_pool, pool_size. cbn. by rewrite length_insert. }
  assert (Hic : i ∉ c).
  { intros Hic. rewrite Forall_forall in Hlt. pose proof (Hlt i Hic). lia. }
  split; unfold allocated; cbn.
  - split; cbn; unfold pool_size; cbn; [by rewrite length_insert|done|].
    eapply Forall_impl; [exact Hf|]. intros j Hj. by apply Hin.
  - rewrite E. intros [_ Hn]. apply Hn. by left.
  - by split; [apply Hin|].
  - apply pool_get_in; [by apply Hin|]. cbn. apply list_lookup_insert_eq. apply Hi.
  - intros j Hne. rewrite Hin, E, not_elem_of_cons. tauto.
  - rewrite E. intros j [_ Hj]. apply not_elem_of_cons in Hj as [Hne _].
    apply pool_get_ext. cbn. by rewrite list_lookup_insert_ne.
  - unfold pool_size. cbn. rewrite length_insert. lia.
Qed.

Lemma allocate_spec p e : wf_pool p ->
  exists i p', allocate p e = Ok (i, p') /\ allocate_post p e i p'.
Proof.
  intros Hp. destruct (free_indices p) as [|i c] eqn:E.
  - by apply allocate_new.
  - by eapply allocate_reuse.
Qed.

Record deallocate_post (p : array_pool A) (i : nat) (p' : array_pool A) : Prop := {
  de_wf : wf_pool p';
  de_free : ~ allocated p' i;
  de_frame : forall j, j <> i -> allocated p' j <-> allocated p j;
  de_pool : index_pool p' = index_pool p
}.

Lemma deallocate_spec p i : wf_pool p -> allocated p i ->
  exists p', deallocate p i = Ok p' /\ deallocate_post p i p'.
Proof.
  intros [Hp Hs Hf] [Hi Hn]. unfold deallocate.
  rewrite (proj2 (Nat.eqb_neq i 0)) by (destruct Hi; lia).
  destruct (set_release_spec (free_indices p) i Hs Hn) as (c & -> & Hs' & Hperm).
  eexists. split; [done|]. split; cbn; [|unfold allocated; cbn..|done].
  - split; cbn; [done|done|]. change (Forall (in_pool p) c). rewrite Hperm. by constructor.
  - intros [_ Hc]. apply Hc. rewrite Hperm. by left.
  - intros j Hne. unfold in_pool, pool_size. cbn. rewrite Hperm, not_elem_of_cons. tauto.
Qed.

Lemma deallocate_twice p i : wf_pool p -> i ∈ free_indices p -> deallocate p i = Err F_assert.
Proof.
  intros Hp Hi. unfold deallocate. destruct (Nat.eqb i 0); [done|].
  by rewrite set_release_dup by (apply Hp || done).
Qed.

Lemma pool_set_spec p i e : wf_pool p -> in_pool p i ->
  exists p', pool_set p i e = Ok p' /\ wf_pool p' /\ free_indices p' = free_indices p /\
    pool_size p' = pool_size p /\ pool_get p' i = Ok e /\
    (forall j, j <> i -> pool_get p' j = pool_get p j).
Proof.
  intros [Hp Hs Hf] Hi. unfold pool_set. rewrite (proj2 (Nat.eqb_neq i 0)) by (destruct Hi; lia).
  rewrite (proj2 (Nat.ltb_lt i _)) by apply Hi. eexists. split; [done|].
  assert (Hsz : pool_size (mkPool (<[i:=e]> (index_pool p)) (free_indices p)) = pool_size p).
  { unfold pool_size. cbn. by rewrite length_insert. }
  split_and!; [|done|done| |].
  - split; [by rewrite Hsz|done|]. eapply Forall_impl; [exact Hf|].
    intros j. unfold in_pool. by rewrite Hsz.
  - apply pool_get_in; [unfold in_pool; by rewrite Hsz|]. cbn.
    apply list_lookup_insert_eq, Hi.
  - intros j Hne. apply pool_get_ext. cbn. by rewrite list_lookup_insert_ne.
Qed.

Lemma allocated_eq p p' : free_indices p' = free_indices p -> pool_size p' = pool_size p ->
  forall i, allocated p' i <-> allocated p i.
Proof. unfold allocated, in_pool. intros -> ->. done. Qed.

(** ** The emptiness check *)
Lemma sorted_lt_NoDup c : StronglySorted lt c -> NoDup c.
Proof.
  intros Hs. induction Hs as [|x c Hs IH Hx]; constructor; [|done].
  intros Hi. rewrite Forall_forall in Hx. pose proof (Hx x Hi). lia.
Qed.

Lemma sorted_range_seq c a n :
  StronglySorted lt c -> Forall (fun x => a <= x < a + n) c -> length c = n -> c = seq a n.
Proof.
  revert a n. induction c as [|x c IH]; intros a [|n] Hs Hr Hl; simplify_eq/=; [done|].
  apply StronglySorted_inv in Hs as [Hs Hx]. apply Forall_cons in Hr as [Hxr Hr].
  assert (Hlen : forall c a n, StronglySorted lt c -> Forall (fun x => a <= x < a + n) c ->
    length c <= n).
  { clear. induction c as [|x c IH]; intros a n Hs Hr; cbn; [lia|].
    apply StronglySorted_inv in Hs as [Hs Hx]. apply Forall_cons in Hr as [Hxr Hr].
    assert (length c <= a + n - S x); [|lia]. apply (IH (S x)); [done|].
    rewrite Forall_forall in *. intros y Hy. pose proof (Hx y Hy). pose proof (Hr y Hy). lia. }
  assert (Hr' : Forall (fun y => S x <= y < a + S (length c)) c).
  { rewrite Forall_forall in *. intros y Hy. pose proof (Hx y Hy). pose proof (Hr y Hy). lia. }
  assert (x = a) as ->.
  { destruct (decide (x = a)) as [|Hne]; [done|].
    pose proof (Hlen c (S x) (a + S (length c) - S x) Hs) as Hbad.
    assert (length c <= a + S (length c) - S x); [|lia]. apply Hbad.
    eapply Forall_impl; [exact Hr'|]. cbn. lia. }
  f_equal. apply IH; [done| |done]. eapply Forall_impl; [exact Hr'|]. cbn. lia.
Qed.

Lemma free_sum_wrap c s : (0 <= s < 2 ^ 64)%Z ->
  foldl (fun s i => wrap 64 (s + Z.of_nat i)) s c
  = wrap 64 (s + foldr (fun i z => Z.of_nat i + z) 0 c)%Z.
Proof.
  revert s. induction c as [|x c IH]; intros s Hs; cbn [foldl foldr].
  - by rewrite Z.add_0_r, wrap_small.
  - rewrite IH by (apply wrap_range; lia). unfold wrap.
    rewrite Z.add_mod_idemp_l by lia. f_equal. lia.
Qed.

Lemma sum_seq a n :
  (2 * foldr (fun i z => Z.of_nat i + z) 0 (seq a n)
   = Z.of_nat n * (2 * Z.of_nat a + Z.of_nat n - 1))%Z.
Proof. revert a. induction n as [|n IH]; intros a; cbn [seq foldr]; [lia|]. specialize (IH (S a)). lia. Qed.

Lemma expect_sum_triangle m : (0 <= m < 2 ^ 64 - 1)%Z ->
  exists t, (2 * t = m * (m + 1))%Z /\ expect_sum m = wrap 64 t.
Proof.
  intros Hm. unfold expect_sum. rewrite (wrap_small 64 (m + 1)) by lia.
  rewrite !Z.shiftr_div_pow2 by lia. change (2 ^ 1)%Z with 2%Z.
  rewrite Z.bit0_odd. pose proof (Zdiv2_odd_eqn m) as E. rewrite Z.div2_div in E.
  destruct (Z.odd m).
  - exists (m * ((m + 1) / 2))%Z. split; [|done].
    assert ((m + 1) / 2 = m / 2 + 1)%Z as ->; [|nia].
    replace (m + 1)%Z with ((m / 2 + 1) * 2)%Z at 1 by lia. by rewrite Z.div_mul.
  - exists (m / 2 * (m + 1))%Z. split; [nia|done].
Qed.

Lemma all_free_seq p : wf_pool p -> (forall i, ~ allocated p i) ->
  free_indices p = seq 1 (pool_size p - 1).
Proof.
  intros [Hp Hs Hf] Hall.
  assert (Hperm : free_indices p ≡ₚ seq 1 (pool_size p - 1)).
  { apply NoDup_Permutation.
    - by apply sorted_lt_NoDup.
    - apply NoDup_seq.
    - intros i. rewrite elem_of_seq. split.
      + intros Hi. rewrite Forall_forall in Hf. destruct (Hf i Hi). lia.
      + intros Hi. destruct (decide (i ∈ free_indices p)); [done|].
        exfalso. apply (Hall i). split; [split; lia|done]. }
  apply sorted_range_seq; [done| |].
  - eapply Forall_impl; [exact Hf|]. unfold in_pool. intros. lia.
  - by rewrite Hperm, length_seq.
Qed.

Lemma check_valid_empty_iff p :
  wf_pool p -> (Z.of_nat (pool_size p) < 2 ^ 64)%Z ->
  check_valid_empty p = true <-> (forall i, ~ allocated p i).
Proof.
  intros Hwf Hsz. pose proof Hwf as [Hp Hs Hf]. unfold check_valid_empty.
  rewrite wrap_small by lia. destruct (Z.eqb_spec (Z.of_nat (pool_size p) - 1)
    (Z.of_nat (length (free_indices p)))) as [El|El]; cbn.
  - assert (E : free_indices p = seq 1 (pool_size p - 1)).
    { apply sorted_range_seq; [done| |lia].
      eapply Forall_impl; [exact Hf|]. unfold in_pool. intros. lia. }
    split; intros _.
    + intros i [[Hi1 Hi2] Hn]. apply Hn. rewrite E. apply elem_of_seq. lia.
    + rewrite E, length_seq. unfold free_sum. rewrite free_sum_wrap by lia.
      destruct (expect_sum_triangle (Z.of_nat (pool_size p - 1))) as (t & Ht & ->); [lia|].
      pose proof (sum_seq 1 (pool_size p - 1)). apply Z.eqb_eq. f_equal. lia.
  - split; [done|]. intros Hall. rewrite (all_free_seq p Hwf Hall), length_seq in El. lia.
Qed.

(** ** Properties *)

(** the pool's paranoid check is exact: on a well-formed pool of fewer
    than 2^64 entries, comparing the number of free indices and their 64-bit
    sum with a triangular number tells precisely whether every index has been
    returned, although the sum may wrap around. *)
Theorem check_valid_empty_exact p :
  wf_pool p -> (Z.of_nat (pool_size p) < 2 ^ 64)%Z ->
  check_valid_empty p = true <-> (forall i, ~ allocated p i).
Proof. apply check_valid_empty_iff. Qed.
End Pool.

Lemma check_valid_empty_exact_witness :
  let p := mkPool [0; 7; 8; 9] [1; 3] in
  check_valid_empty p = true <-> (forall i, ~ allocated p i).
Proof.
  intros p. apply (check_valid_empty_exact p); [|vm_compute; done].
  split; cbn; [unfold pool_size; cbn; lia|repeat constructor|].
  repeat constructor; unfold in_pool, pool_size; cbn; lia.
Defined.
