(* ===== verification/OrdMap.v ===== *)
(** [std::map] and [std::set]: association lists in ascending order of keys.

    The simulator iterates over its maps and sets, so the order of their
    elements matters; [KeyOrder] is the comparison of the keys. *)
From S2P Require Import Prelude.
From stdpp Require Import sorting.

Class KeyOrder (K : Type) := {
  key_ltb : K -> K -> bool;
  key_ltb_irrefl : forall a, key_ltb a a = false;
  key_ltb_trans : forall a b c, key_ltb a b = true -> key_ltb b c = true -> key_ltb a c = true;
  key_ltb_total : forall a b, key_ltb a b = false -> key_ltb b a = false -> a = b
}.

#[export] Instance nat_KeyOrder : KeyOrder nat.
Proof.
  refine {| key_ltb := Nat.ltb |}.
  - apply Nat.ltb_irrefl.
  - intros a b c. rewrite !Nat.ltb_lt. lia.
  - intros a b. rewrite !Nat.ltb_ge. lia.
Defined.

#[export] Instance pair_KeyOrder {A B} `{KeyOrder A, KeyOrder B} : KeyOrder (A * B).
Proof.
  refine {| key_ltb x y := key_ltb x.1 y.1 || (negb (key_ltb y.1 x.1) && key_ltb x.2 y.2) |}.
  - intros a. by rewrite !key_ltb_irrefl.
  - intros [a1 a2] [b1 b2] [c1 c2]; cbn. rewrite !orb_true_iff, !andb_true_iff, !negb_true_iff.
    intros [Hab|[Hba Hab]] [Hbc|[Hcb Hbc]].
    + left. by eapply key_ltb_trans.
    + left. destruct (key_ltb b1 c1) eqn:E; [by eapply key_ltb_trans|].
      by rewrite <- (key_ltb_total _ _ E Hcb).
    + left. destruct (key_ltb a1 b1) eqn:E; [by eapply key_ltb_trans|].
      by rewrite (key_ltb_total _ _ E Hba).
    + destruct (key_ltb a1 b1) eqn:E1, (key_ltb b1 c1) eqn:E2.
      * left. by eapply key_ltb_trans.
      * left. by rewrite <- (key_ltb_total _ _ E2 Hcb).
      * left. by rewrite (key_ltb_total _ _ E1 Hba).
      * right. rewrite (key_ltb_total _ _ E1 Hba). split; [done|by eapply key_ltb_trans].
  - intros [a1 a2] [b1 b2]; cbn. rewrite !orb_false_iff, !andb_false_iff, !negb_false_iff.
    intros [H1 H2] [H3 H4]. assert (a1 = b1) as -> by (by apply key_ltb_total).
    rewrite key_ltb_irrefl in H2, H4. f_equal.
    apply key_ltb_total; [by destruct H2|by destruct H4].
Defined.

#[export] Instance bool_KeyOrder : KeyOrder bool.
Proof.
  refine {| key_ltb a b := negb a && b |}.
  - by intros [].
  - by intros [] [] [].
  - by intros [] [].
Defined.

Section Map.
Context {K V : Type} `{KeyOrder K}.

Definition key_eqb (a b : K) : bool := negb (key_ltb a b) && negb (key_ltb b a).

Fixpoint m_find (k : K) (m : list (K * V)) : option V :=
  match m with
  | [] => None
  | (k', v) :: m' => if key_eqb k k' then Some v else m_find k m'
  end.

(** [m[k] = v] *)
Fixpoint m_set (k : K) (v : V) (m : list (K * V)) : list (K * V) :=
  match m with
  | [] => [(k, v)]
  | (k', v') :: m' =>
      if key_ltb k k' then (k, v) :: m
      else if key_ltb k' k then (k', v') :: m_set k v m' else (k, v) :: m'
  end.

(** [m.insert(make_pair(k, v))]: keeps an entry that is there; whether a new
    entry was made. *)
Definition m_insert (k : K) (v : V) (m : list (K * V)) : list (K * V) * bool :=
  match m_find k m with Some _ => (m, false) | None => (m_set k v m, true) end.

(** [--m.upper_bound(k)]: the last entry whose key is not above [k]; [None]
    when [upper_bound] is [begin()]. *)
Fixpoint m_last_le (k : K) (m : list (K * V)) : option (K * V) :=
  match m with
  | [] => None
  | (k', v) :: m' =>
      if key_ltb k k' then None
      else match m_last_le k m' with Some e => Some e | None => Some (k', v) end
  end.

Fixpoint m_erase (k : K) (m : list (K * V)) : list (K * V) :=
  match m with
  | [] => []
  | (k', v) :: m' => if key_eqb k k' then m' else (k', v) :: m_erase k m'
  end.

Lemma key_eqb_eq a b : key_eqb a b = true <-> a = b.
Proof.
  unfold key_eqb. rewrite andb_true_iff, !negb_true_iff. split.
  - intros []. by apply key_ltb_total.
  - intros ->. by rewrite key_ltb_irrefl.
Qed.

Lemma key_eqb_refl a : key_eqb a a = true.
Proof. by apply key_eqb_eq. Qed.

Lemma key_ltb_eqb_false a b : key_ltb a b = true -> key_eqb a b = false /\ key_eqb b a = false.
Proof. intros E. unfold key_eqb. rewrite E. cbn. by rewrite andb_false_r. Qed.

Lemma key_eqb_neq a b : a <> b -> key_eqb a b = false.
Proof. intros Hne. apply not_true_is_false. by rewrite key_eqb_eq. Qed.

Definition m_sorted (m : list (K * V)) : Prop :=
  StronglySorted (fun a b => key_ltb a.1 b.1 = true) m.

Lemma m_find_set k v m j :
  m_find j (m_set k v m) = if key_eqb j k then Some v else m_find j m.
Proof.
  induction m as [|[k' v'] m IH]; cbn [m_set m_find]; [done|].
  destruct (key_ltb k k') eqn:E1; [done|].
  destruct (key_ltb k' k) eqn:E2; cbn [m_find].
  - rewrite IH. destruct (key_eqb j k') eqn:E3; [|done].
    apply key_eqb_eq in E3 as ->. by rewrite (proj1 (key_ltb_eqb_false _ _ E2)).
  - assert (k = k') as -> by (by apply key_ltb_total). by destruct (key_eqb j k').
Qed.

Lemma m_set_keys k v m x : x ∈ (m_set k v m).*1 -> x = k \/ x ∈ m.*1.
Proof.
  induction m as [|[k' v'] m IH]; cbn [m_set]; [cbn; rewrite list_elem_of_singleton; auto|].
  destruct (key_ltb k k'), (key_ltb k' k); cbn; rewrite ?elem_of_cons; tauto.
Qed.

Lemma m_set_sorted k v m : m_sorted m -> m_sorted (m_set k v m).
Proof.
  intros Hs. induction Hs as [|[k' v'] m Hs IH Hf]; cbn [m_set]; [repeat constructor|].
  destruct (key_ltb k k') eqn:E1; [|destruct (key_ltb k' k) eqn:E2].
  - constructor; [by constructor|]. constructor; [done|].
    eapply Forall_impl; [exact Hf|]. cbn. intros a. by apply key_ltb_trans.
  - constructor; [done|]. apply Forall_forall. intros [x y] Hx.
    destruct (m_set_keys k v m x) as [->|Hin].
    { apply list_elem_of_fmap. by exists (x, y). }
    { done. }
    apply list_elem_of_fmap in Hin as ([x' y'] & -> & Hin).
    rewrite Forall_forall in Hf. by apply (Hf (x', y')).
  - assert (k = k') as -> by (by apply key_ltb_total). by constructor.
Qed.

Lemma m_find_elem k v m : m_sorted m -> m_find k m = Some v <-> (k, v) ∈ m.
Proof.
  intros Hs. induction Hs as [|[k' v'] m Hs IH Hf]; cbn [m_find].
  { split; [done|]. intros Hin. by apply elem_of_nil in Hin. }
  rewrite elem_of_cons. destruct (key_eqb k k') eqn:E.
  - apply key_eqb_eq in E as ->. split; [by left; simplify_eq|].
    intros [?|Hin]; [by simplify_eq|].
    rewrite Forall_forall in Hf. specialize (Hf _ Hin). cbn in Hf. by rewrite key_ltb_irrefl in Hf.
  - rewrite IH. split; [by right|]. intros [?|?]; [|done]. simplify_eq.
    by rewrite key_eqb_refl in E.
Qed.

(** [--upper_bound] finds the greatest key that is not above [k]. *)
Lemma m_last_le_spec k m k' v : m_sorted m -> m_last_le k m = Some (k', v) ->
  (k', v) ∈ m /\ key_ltb k k' = false /\
  forall x y, (x, y) ∈ m -> key_ltb k x = false -> key_ltb k' x = false.
Proof.
  intros Hs. revert k' v. induction Hs as [|[a b] m Hs IH Hf]; intros k' v; [done|].
  cbn [m_last_le]. destruct (key_ltb k a) eqn:E; [done|].
  destruct (m_last_le k m) as [[a' b']|] eqn:El.
  - intros [= -> ->]. destruct (IH _ _ eq_refl) as (Hin & Hle & Hmax).
    split; [by apply elem_of_cons; right|]. split; [done|]. intros x y Hx Hkx.
    apply elem_of_cons in Hx as [?|Hx]; [|by eapply Hmax]. simplify_eq.
    rewrite Forall_forall in Hf. specialize (Hf _ Hin). cbn in Hf.
    apply not_true_is_false. intros Hc. pose proof (key_ltb_trans _ _ _ Hf Hc) as Hbad.
    by rewrite key_ltb_irrefl in Hbad.
  - intros [= -> ->]. split; [by apply elem_of_cons; left|]. split; [done|].
    intros x y Hx Hkx. apply elem_of_cons in Hx as [?|Hx].
    { simplify_eq. apply key_ltb_irrefl. }
    exfalso. clear IH Hf. induction Hs as [|[c d] m Hs IH2 Hf2]; [by apply elem_of_nil in Hx|].
    cbn [m_last_le] in El. destruct (key_ltb k c) eqn:Ec.
    + apply elem_of_cons in Hx as [?|Hx]; [simplify_eq; congruence|].
      rewrite Forall_forall in Hf2. specialize (Hf2 _ Hx). cbn in Hf2.
      rewrite (key_ltb_trans _ _ _ Ec Hf2) in Hkx. done.
    + by destruct (m_last_le k m).
Qed.
End Map.

(** ** Sets of indices *)
Definition s_mem (k : nat) (s : list nat) : bool := existsb (Nat.eqb k) s.

Fixpoint s_insert (k : nat) (s : list nat) : list nat :=
  match s with
  | [] => [k]
  | x :: s' =>
      if Nat.ltb k x then k :: s else if Nat.ltb x k then x :: s_insert k s' else s
  end.

Definition s_of_list (l : list nat) : list nat := foldr s_insert [] l.

(** [std::set_intersection] of two ascending sequences. *)
Definition s_inter (a b : list nat) : list nat := List.filter (fun x => s_mem x b) a.

Lemma s_mem_spec k s : s_mem k s = true <-> k ∈ s.
Proof.
  unfold s_mem. rewrite existsb_exists. split.
  - intros (x & Hx & E). apply Nat.eqb_eq in E as ->. by apply list_elem_of_In.
  - intros Hk. exists k. split; [by apply list_elem_of_In|apply Nat.eqb_refl].
Qed.

Lemma elem_of_s_insert x k s : x ∈ s_insert k s <-> x = k \/ x ∈ s.
Proof.
  induction s as [|y s IH]; cbn [s_insert]; [apply elem_of_cons|].
  destruct (Nat.ltb_spec k y); [by rewrite elem_of_cons|].
  destruct (Nat.ltb_spec y k).
  - rewrite !elem_of_cons, IH. tauto.
  - assert (k = y) as -> by lia. rewrite elem_of_cons. tauto.
Qed.

Lemma s_insert_sorted k s : StronglySorted lt s -> StronglySorted lt (s_insert k s).
Proof.
  intros Hs. induction Hs as [|y s Hs IH Hf]; cbn [s_insert]; [repeat constructor|].
  destruct (Nat.ltb_spec k y).
  - constructor; [by constructor|]. constructor; [done|].
    eapply Forall_impl; [exact Hf|]. cbn. lia.
  - destruct (Nat.ltb_spec y k); [|by constructor]. constructor; [done|].
    apply Forall_forall. intros x Hx. apply elem_of_s_insert in Hx as [->|Hx]; [done|].
    rewrite Forall_forall in Hf. by apply Hf.
Qed.

Lemma elem_of_s_of_list x l : x ∈ s_of_list l <-> x ∈ l.
Proof.
  induction l as [|y l IH]; cbn; [done|]. by rewrite elem_of_s_insert, IH, elem_of_cons.
Qed.

Lemma s_of_list_sorted l : StronglySorted lt (s_of_list l).
Proof. induction l; cbn; [constructor|by apply s_insert_sorted]. Qed.

Lemma elem_of_s_inter x a b : x ∈ s_inter a b <-> x ∈ a /\ x ∈ b.
Proof.
  unfold s_inter. rewrite !list_elem_of_In, filter_In, <- !list_elem_of_In, s_mem_spec. done.
Qed.
