(* ===== verification/Node.v ===== *)
(** Nodes and events: "sim/prsim/Node.hh", "sim/prsim/Node.cc",
    "sim/prsim/Cause.hh" and the [Event] of "sim/prsim/Event-prsim.hh".

    A node keeps its value, its flags, the index of its pending event and,
    for each direction and strength, counters of the rules that pull it.
    Checkpointing and printing are left out. *)
From S2P Require Import Prelude SimTime PullSet Expr.
From Stdlib Require Import Ascii.
From Stdlib Require String.
Open Scope Z_scope.

Definition INVALID_EVENT_INDEX : nat := 0.
Definition INVALID_RULE_INDEX : nat := INVALID_EXPR_INDEX.

(** An array indexed by [value_enum]. *)
Record triple (A : Type) : Type := mkTriple { t_low : A; t_high : A; t_other : A }.
Arguments mkTriple {A} _ _ _.
Arguments t_low {A} _.
Arguments t_high {A} _.
Arguments t_other {A} _.

Definition tget {A} (t : triple A) (v : value_enum) : A :=
  match v with LOGIC_LOW => t_low t | LOGIC_HIGH => t_high t | LOGIC_OTHER => t_other t end.
Definition tset {A} (t : triple A) (v : value_enum) (x : A) : triple A :=
  match v with
  | LOGIC_LOW => mkTriple x (t_high t) (t_other t)
  | LOGIC_HIGH => mkTriple (t_low t) x (t_other t)
  | LOGIC_OTHER => mkTriple (t_low t) (t_high t) x
  end.

(** ** Cause.hh *)
Record EventCause : Type := mkEventCause { c_node : nat; c_val : value_enum }.
Definition EventCause_empty : EventCause := mkEventCause INVALID_NODE_INDEX LOGIC_LOW.

Definition value_code (v : value_enum) : nat :=
  match v with LOGIC_LOW => 0 | LOGIC_HIGH => 1 | LOGIC_OTHER => 2 end.
Definition EventCause_lt (a b : EventCause) : bool :=
  Nat.ltb (c_node a) (c_node b) ||
  (Nat.eqb (c_node a) (c_node b) && Nat.ltb (value_code (c_val a)) (value_code (c_val b))).

(** The fourth entry of [caused_by_value] is padding. *)
Record LastCause : Type := mkLastCause {
  caused_by_node : triple nat;
  caused_by_value : triple value_enum
}.
Definition LastCause_initialize : LastCause :=
  mkLastCause (mkTriple INVALID_NODE_INDEX INVALID_NODE_INDEX INVALID_NODE_INDEX)
              (mkTriple LOGIC_LOW LOGIC_LOW LOGIC_LOW).
Definition get_cause_node (l : LastCause) (v : value_enum) : nat := tget (caused_by_node l) v.
Definition get_cause (l : LastCause) (v : value_enum) : EventCause :=
  mkEventCause (tget (caused_by_node l) v) (tget (caused_by_value l) v).
Definition set_cause (l : LastCause) (v : value_enum) (e : EventCause) : LastCause :=
  mkLastCause (tset (caused_by_node l) v (c_node e)) (tset (caused_by_value l) v (c_val e)).

(** [Event::cause_type]: a cause and its index in the event trace. *)
Record cause_type : Type := mkCause {
  cause_ec : EventCause;
  critical_trace_event : nat
}.
Definition INVALID_TRACE_INDEX : nat := 0.
Definition cause_make (n : nat) (v : value_enum) : cause_type :=
  mkCause (mkEventCause n v) INVALID_TRACE_INDEX.
Definition cause_empty : cause_type := mkCause EventCause_empty INVALID_TRACE_INDEX.
Definition cause_node (c : cause_type) : nat := c_node (cause_ec c).
Definition cause_val (c : cause_type) : value_enum := c_val (cause_ec c).

(** ** Event *)

(** A [const rule_type*]: unique process type and local rule index. *)
Definition rule_ref : Type := nat * nat.

Record Event : Type := mkEvent {
  ev_node : nat;
  ev_cause : cause_type;
  ev_cause_rule : nat   (* global root expression, 0: none *);
  ev_rule_ptr : option rule_ref   (* NULL for an external cause *);
  ev_val : value_enum;
  ev_flags : Z   (* uchar *)
}.

Definition set_ev_node (x : nat) (r : Event) : Event :=
  mkEvent x (ev_cause r) (ev_cause_rule r) (ev_rule_ptr r) (ev_val r) (ev_flags r).
Definition set_ev_cause (x : cause_type) (r : Event) : Event :=
  mkEvent (ev_node r) x (ev_cause_rule r) (ev_rule_ptr r) (ev_val r) (ev_flags r).
Definition set_ev_cause_rule (x : nat) (r : Event) : Event :=
  mkEvent (ev_node r) (ev_cause r) x (ev_rule_ptr r) (ev_val r) (ev_flags r).
Definition set_ev_rule_ptr (x : option rule_ref) (r : Event) : Event :=
  mkEvent (ev_node r) (ev_cause r) (ev_cause_rule r) x (ev_val r) (ev_flags r).
Definition set_ev_val (x : value_enum) (r : Event) : Event :=
  mkEvent (ev_node r) (ev_cause r) (ev_cause_rule r) (ev_rule_ptr r) x (ev_flags r).
Definition set_ev_flags (x : Z) (r : Event) : Event :=
  mkEvent (ev_node r) (ev_cause r) (ev_cause_rule r) (ev_rule_ptr r) (ev_val r) x.

Definition EVENT_FLAG_PENDING_INTERFERENCE : Z := 1.
Definition EVENT_FLAG_KILLED : Z := 2.
Definition EVENT_FLAG_FORCED : Z := 4.
Definition EVENT_WEAK_RULE : Z := 8.
Definition EVENT_FLAGS_DEFAULT_VALUE : Z := 0.

Definition Event_empty : Event :=
  mkEvent INVALID_NODE_INDEX cause_empty INVALID_RULE_INDEX None LOGIC_LOW
          EVENT_FLAGS_DEFAULT_VALUE.
Definition Event_make (n : nat) (c : cause_type) (r : nat) (rp : option rule_ref)
    (v : value_enum) (w : bool) : Event :=
  mkEvent n c r rp v (if w then EVENT_WEAK_RULE else EVENT_FLAGS_DEFAULT_VALUE).

Definition kill (e : Event) : Event := set_ev_flags (set_flag (ev_flags e) EVENT_FLAG_KILLED) e.
Definition killed (e : Event) : bool := has_flag (ev_flags e) EVENT_FLAG_KILLED.
Definition force (e : Event) : Event := set_ev_flags (set_flag (ev_flags e) EVENT_FLAG_FORCED) e.
Definition unforce (e : Event) : Event :=
  set_ev_flags (clear_flag (ev_flags e) EVENT_FLAG_FORCED) e.
Definition forced (e : Event) : bool := has_flag (ev_flags e) EVENT_FLAG_FORCED.
Definition ev_is_weak (e : Event) : bool := has_flag (ev_flags e) EVENT_WEAK_RULE.
Definition set_weak (w : bool) (e : Event) : Event :=
  set_ev_flags (put_flag w (ev_flags e) EVENT_WEAK_RULE) e.
Definition set_cause_node (ni : nat) (e : Event) : Event :=
  let c := ev_cause e in
  set_ev_cause (mkCause (mkEventCause ni (cause_val c)) (critical_trace_event c)) e.
Definition pending_interference (e : Event) : bool :=
  has_flag (ev_flags e) EVENT_FLAG_PENDING_INTERFERENCE.
Definition set_pending_interference (i : bool) (e : Event) : Event :=
  set_ev_flags (put_flag i (ev_flags e) EVENT_FLAG_PENDING_INTERFERENCE) e.

(** ** fanin_state_type: the OR of the rules of one direction and strength *)
Record fanin_state_type : Set := mkFanin {
  fs_size : Z;        (* size_t *)
  fs_countdown : Z;   (* size_t: rules that are on *)
  fs_unknowns : Z     (* size_t: rules that are X *)
}.
Definition fanin_empty : fanin_state_type := mkFanin 0 0 0.
Definition fanin_initialize (f : fanin_state_type) : fanin_state_type :=
  mkFanin (fs_size f) 0 (fs_size f).
Definition fanin_any (f : fanin_state_type) : bool := negb (fs_size f =? 0).
Definition fanin_pull (f : fanin_state_type) : pull_enum :=
  if negb (fs_countdown f =? 0) then PULL_ON
  else if negb (fs_unknowns f =? 0) then PULL_WEAK else PULL_OFF.

(** The update of [State::evaluate]: one rule went from [prev] to [next]. *)
Definition update_fanin (f : fanin_state_type) (prev next : pull_enum) : fanin_state_type :=
  mkFanin (fs_size f)
    (wrap 64 (fs_countdown f + (pull_1 next - pull_1 prev)))
    (wrap 64 (fs_unknowns f + (pull_x next - pull_x prev))).

(** An array indexed by rule strength. *)
Record fanin_pair : Set := mkFaninPair { fp_normal : fanin_state_type; fp_weak : fanin_state_type }.
Definition fp_get (p : fanin_pair) (w : bool) : fanin_state_type :=
  if w then fp_weak p else fp_normal p.
Definition fp_set (p : fanin_pair) (w : bool) (f : fanin_state_type) : fanin_pair :=
  if w then mkFaninPair (fp_normal p) f else mkFaninPair f (fp_weak p).

(** ** Node and NodeState *)
Record NodeState : Type := mkNodeState {
  n_fanin : list nat   (* global processes that can drive it *);
  n_fanout : list nat   (* global expressions it is an input of *);
  n_struct_flags : Z   (* ushort *);
  n_value : value_enum;
  n_state_flags : Z   (* uchar *);
  n_event_index : nat   (* 0: no pending event *);
  n_causes : LastCause;
  n_last_edge : triple real_time;
  n_tcount : Z   (* size_t *);
  n_pull_up : fanin_pair;
  n_pull_dn : fanin_pair
}.

Definition set_n_fanin (x : list nat) (r : NodeState) : NodeState :=
  mkNodeState x (n_fanout r) (n_struct_flags r) (n_value r) (n_state_flags r)
    (n_event_index r) (n_causes r) (n_last_edge r) (n_tcount r) (n_pull_up r)
    (n_pull_dn r).
Definition set_n_fanout (x : list nat) (r : NodeState) : NodeState :=
  mkNodeState (n_fanin r) x (n_struct_flags r) (n_value r) (n_state_flags r)
    (n_event_index r) (n_causes r) (n_last_edge r) (n_tcount r) (n_pull_up r)
    (n_pull_dn r).
Definition set_n_struct_flags (x : Z) (r : NodeState) : NodeState :=
  mkNodeState (n_fanin r) (n_fanout r) x (n_value r) (n_state_flags r) (n_event_index
    r) (n_causes r) (n_last_edge r) (n_tcount r) (n_pull_up r) (n_pull_dn r).
Definition set_n_value (x : value_enum) (r : NodeState) : NodeState :=
  mkNodeState (n_fanin r) (n_fanout r) (n_struct_flags r) x (n_state_flags r)
    (n_event_index r) (n_causes r) (n_last_edge r) (n_tcount r) (n_pull_up r)
    (n_pull_dn r).
Definition set_n_state_flags (x : Z) (r : NodeState) : NodeState :=
  mkNodeState (n_fanin r) (n_fanout r) (n_struct_flags r) (n_value r) x (n_event_index
    r) (n_causes r) (n_last_edge r) (n_tcount r) (n_pull_up r) (n_pull_dn r).
Definition set_n_event_index (x : nat) (r : NodeState) : NodeState :=
  mkNodeState (n_fanin r) (n_fanout r) (n_struct_flags r) (n_value r) (n_state_flags
    r) x (n_causes r) (n_last_edge r) (n_tcount r) (n_pull_up r) (n_pull_dn r).
Definition set_n_causes (x : LastCause) (r : NodeState) : NodeState :=
  mkNodeState (n_fanin r) (n_fanout r) (n_struct_flags r) (n_value r) (n_state_flags
    r) (n_event_index r) x (n_last_edge r) (n_tcount r) (n_pull_up r) (n_pull_dn r).
Definition set_n_last_edge (x : triple real_time) (r : NodeState) : NodeState :=
  mkNodeState (n_fanin r) (n_fanout r) (n_struct_flags r) (n_value r) (n_state_flags
    r) (n_event_index r) (n_causes r) x (n_tcount r) (n_pull_up r) (n_pull_dn r).
Definition set_n_tcount (x : Z) (r : NodeState) : NodeState :=
  mkNodeState (n_fanin r) (n_fanout r) (n_struct_flags r) (n_value r) (n_state_flags
    r) (n_event_index r) (n_causes r) (n_last_edge r) x (n_pull_up r) (n_pull_dn r).
Definition set_n_pull_up (x : fanin_pair) (r : NodeState) : NodeState :=
  mkNodeState (n_fanin r) (n_fanout r) (n_struct_flags r) (n_value r) (n_state_flags
    r) (n_event_index r) (n_causes r) (n_last_edge r) (n_tcount r) x (n_pull_dn r).
Definition set_n_pull_dn (x : fanin_pair) (r : NodeState) : NodeState :=
  mkNodeState (n_fanin r) (n_fanout r) (n_struct_flags r) (n_value r) (n_state_flags
    r) (n_event_index r) (n_causes r) (n_last_edge r) (n_tcount r) (n_pull_up r) x.

Definition NODE_MK_EXCLHI : Z := 2.
Definition NODE_MK_EXCLLO : Z := 4.
Definition NODE_CHECK_EXCLHI : Z := 8.
Definition NODE_CHECK_EXCLLO : Z := 16.
Definition NODE_MAY_INTERFERE : Z := 32.
Definition NODE_MAY_WEAK_INTERFERE : Z := 64.
Definition NODE_IS_ATOMIC : Z := 128.
Definition NODE_CHECK_SETUP : Z := 256.
Definition NODE_CHECK_HOLD : Z := 512.
Definition NODE_MIN_DELAY_TARGET : Z := 1024.

Definition struct_flag_set (mask : Z) (n : NodeState) : NodeState :=
  set_n_struct_flags (set_flag (n_struct_flags n) mask) n.
Definition has_fanin (n : NodeState) : bool := negb (Nat.eqb (length (n_fanin n)) 0).
Definition has_fanout (n : NodeState) : bool := negb (Nat.eqb (length (n_fanout n)) 0).
Definition allow_interference : NodeState -> NodeState := struct_flag_set NODE_MAY_INTERFERE.
Definition allow_weak_interference : NodeState -> NodeState :=
  struct_flag_set NODE_MAY_WEAK_INTERFERE.
Definition mark_atomic : NodeState -> NodeState := struct_flag_set NODE_IS_ATOMIC.
Definition may_interfere (n : NodeState) : bool := has_flag (n_struct_flags n) NODE_MAY_INTERFERE.
Definition may_weak_interfere (n : NodeState) : bool :=
  has_flag (n_struct_flags n) NODE_MAY_WEAK_INTERFERE.
Definition is_atomic (n : NodeState) : bool := has_flag (n_struct_flags n) NODE_IS_ATOMIC.
Definition has_mk_exclhi (n : NodeState) : bool := has_flag (n_struct_flags n) NODE_MK_EXCLHI.
Definition has_mk_excllo (n : NodeState) : bool := has_flag (n_struct_flags n) NODE_MK_EXCLLO.
Definition make_exclhi : NodeState -> NodeState := struct_flag_set NODE_MK_EXCLHI.
Definition make_excllo : NodeState -> NodeState := struct_flag_set NODE_MK_EXCLLO.
Definition has_check_exclhi (n : NodeState) : bool :=
  has_flag (n_struct_flags n) NODE_CHECK_EXCLHI.
Definition has_check_excllo (n : NodeState) : bool :=
  has_flag (n_struct_flags n) NODE_CHECK_EXCLLO.
Definition check_exclhi : NodeState -> NodeState := struct_flag_set NODE_CHECK_EXCLHI.
Definition check_excllo : NodeState -> NodeState := struct_flag_set NODE_CHECK_EXCLLO.
Definition flag_setup_check : NodeState -> NodeState := struct_flag_set NODE_CHECK_SETUP.
Definition flag_hold_check : NodeState -> NodeState := struct_flag_set NODE_CHECK_HOLD.
Definition has_setup_check (n : NodeState) : bool := has_flag (n_struct_flags n) NODE_CHECK_SETUP.
Definition has_hold_check (n : NodeState) : bool := has_flag (n_struct_flags n) NODE_CHECK_HOLD.
Definition flag_min_delay_target : NodeState -> NodeState :=
  struct_flag_set NODE_MIN_DELAY_TARGET.
Definition is_min_delay_target (n : NodeState) : bool :=
  has_flag (n_struct_flags n) NODE_MIN_DELAY_TARGET.
Definition reset_min_delay_target (n : NodeState) : NodeState :=
  set_n_struct_flags (clear_flag (n_struct_flags n) NODE_MIN_DELAY_TARGET) n.

(** The attributes of the [bool] instance a node is allocated for. *)
Record bool_connect_policy : Set := mkBoolPolicy {
  bool_atomic : bool; bool_may_interfere : bool; bool_may_weak_interfere : bool
}.
(** The node, and whether there was an error. *)
Definition import_attributes (b : bool_connect_policy) (n : NodeState) : NodeState * bool :=
  if bool_atomic b then
    if has_mk_exclhi n || has_mk_excllo n then (n, true) else (mark_atomic n, false)
  else
    let n1 := if bool_may_weak_interfere b then allow_weak_interference n else n in
    let n2 := if bool_may_interfere b then allow_interference n1 else n1 in
    (n2, false).

Definition NODE_INITIAL_STATE_FLAGS : Z := 0.
Definition NODE_BREAKPOINT : Z := 1.
Definition NODE_WATCHPOINT : Z := 2.
Definition NODE_IN_CHANNEL : Z := 8.
Definition NODE_FROZEN : Z := 16.
Definition NODE_FLAG : Z := 128.
Definition NODE_INITIALIZE_SET_MASK : Z := 0.
Definition NODE_INITIALIZE_CLEAR_MASK : Z := Z.lor NODE_FLAG NODE_FROZEN.

Definition no_edge_time : triple real_time :=
  mkTriple real_invalid_value real_invalid_value real_invalid_value.

Definition NodeState_empty : NodeState :=
  mkNodeState [] [] 0 LOGIC_OTHER NODE_INITIAL_STATE_FLAGS INVALID_EVENT_INDEX
    LastCause_initialize no_edge_time 0
    (mkFaninPair fanin_empty fanin_empty) (mkFaninPair fanin_empty fanin_empty).

Definition pending_event (n : NodeState) : bool :=
  negb (Nat.eqb (n_event_index n) INVALID_EVENT_INDEX).
Definition get_cause_node_of (n : NodeState) : nat := get_cause_node (n_causes n) (n_value n).
Definition get_cause_of (n : NodeState) : EventCause := get_cause (n_causes n) (n_value n).
Definition set_event (i : nat) (n : NodeState) : res NodeState :=
  if Nat.eqb (n_event_index n) INVALID_EVENT_INDEX && negb (Nat.eqb i INVALID_EVENT_INDEX)
  then Ok (set_n_event_index i n) else Err F_assert.
Definition set_event_consistent (i : nat) (n : NodeState) : res NodeState :=
  if negb (pending_event n) then set_event i n
  else if Nat.eqb (n_event_index n) i then Ok n else Err F_assert.
Definition load_event (i : nat) (n : NodeState) : res NodeState :=
  if Nat.eqb i INVALID_EVENT_INDEX then Err F_assert else Ok (set_n_event_index i n).
Definition clear_event (n : NodeState) : NodeState := set_n_event_index INVALID_EVENT_INDEX n.

Definition state_flag_put (b : bool) (mask : Z) (n : NodeState) : NodeState :=
  set_n_state_flags (put_flag b (n_state_flags n) mask) n.
Definition is_watchpoint (n : NodeState) : bool := has_flag (n_state_flags n) NODE_WATCHPOINT.
Definition set_watchpoint : NodeState -> NodeState := state_flag_put true NODE_WATCHPOINT.
Definition clear_watchpoint : NodeState -> NodeState := state_flag_put false NODE_WATCHPOINT.
Definition is_breakpoint (n : NodeState) : bool := has_flag (n_state_flags n) NODE_BREAKPOINT.
Definition set_breakpoint : NodeState -> NodeState := state_flag_put true NODE_BREAKPOINT.
Definition clear_breakpoint : NodeState -> NodeState := state_flag_put false NODE_BREAKPOINT.
Definition set_in_channel : NodeState -> NodeState := state_flag_put true NODE_IN_CHANNEL.
Definition in_channel (n : NodeState) : bool := has_flag (n_state_flags n) NODE_IN_CHANNEL.
Definition freeze : NodeState -> NodeState := state_flag_put true NODE_FROZEN.
Definition restore : NodeState -> NodeState := state_flag_put false NODE_FROZEN.
Definition is_frozen (n : NodeState) : bool := has_flag (n_state_flags n) NODE_FROZEN.

Definition set_value_and_cause (c : value_enum) (e : EventCause) (t : real_time)
    (n : NodeState) : NodeState :=
  set_n_last_edge (tset (n_last_edge n) c t)
    (set_n_causes (set_cause (n_causes n) c e) (set_n_value c n)).
Definition get_last_edge_time (n : NodeState) (c : value_enum) : real_time :=
  tget (n_last_edge n) c.
Definition get_last_transition_time (n : NodeState) : real_time :=
  get_last_edge_time n (n_value n).

Definition initialize_pair (p : fanin_pair) : fanin_pair :=
  mkFaninPair (fanin_initialize (fp_normal p)) (fanin_initialize (fp_weak p)).

Definition x_value_and_cause (n : NodeState) : NodeState :=
  let n1 := set_n_event_index INVALID_EVENT_INDEX n in
  let n2 := set_n_causes LastCause_initialize n1 in
  let n3 := set_n_value LOGIC_OTHER n2 in
  let n4 := set_n_state_flags (set_flag (n_state_flags n3) NODE_INITIALIZE_SET_MASK) n3 in
  let n5 := set_n_state_flags (clear_flag (n_state_flags n4) NODE_INITIALIZE_CLEAR_MASK) n4 in
  set_n_pull_dn (initialize_pair (n_pull_dn n5)) (set_n_pull_up (initialize_pair (n_pull_up n5)) n5).

Definition NodeState_initialize (n : NodeState) : NodeState :=
  set_n_last_edge no_edge_time (set_n_tcount 0 (x_value_and_cause n)).

Definition NodeState_reset (n : NodeState) : NodeState :=
  set_n_state_flags NODE_INITIAL_STATE_FLAGS (NodeState_initialize n).

Definition reset_tcount (n : NodeState) : NodeState := set_n_tcount 0 n.

Definition get_pull_struct (dir w : bool) (n : NodeState) : fanin_state_type :=
  fp_get (if dir then n_pull_up n else n_pull_dn n) w.
Definition put_pull_struct (dir w : bool) (f : fanin_state_type) (n : NodeState) : NodeState :=
  if dir then set_n_pull_up (fp_set (n_pull_up n) w f) n
  else set_n_pull_dn (fp_set (n_pull_dn n) w f) n.

(** [__count_fanins]: the numbers of rules of one process that pull a node. *)
Definition count_fanins (up dn wup wdn : list nat) (n : NodeState) : NodeState :=
  let add f (l : list nat) := mkFanin (wrap 64 (fs_size f + Z.of_nat (length l)))
                                      (fs_countdown f) (fs_unknowns f) in
  set_n_pull_dn (mkFaninPair (add (fp_normal (n_pull_dn n)) dn) (add (fp_weak (n_pull_dn n)) wdn))
    (set_n_pull_up (mkFaninPair (add (fp_normal (n_pull_up n)) up)
                                (add (fp_weak (n_pull_up n)) wup)) n).

(** The constructor of [pull_set]; [w]: weak rules are enabled. *)
Definition pull_set_of (n : NodeState) (w : bool) : pull_set :=
  let u := fanin_pull (get_pull_struct true false n) in
  mk_pull_set u
    (if is_atomic n then pull_of_value (invert_value (value_of_pull u))
     else fanin_pull (get_pull_struct false false n))
    (if w then fanin_pull (get_pull_struct true true n) else PULL_OFF)
    (if w then fanin_pull (get_pull_struct false true n) else PULL_OFF).

Definition node_pull (dir w : bool) (n : NodeState) : pull_enum :=
  fanin_pull (get_pull_struct dir w n).

Definition interfering (n : NodeState) : bool :=
  let u := node_pull true false n in
  let d := node_pull false false n in
  if pull_eqb u PULL_ON && pull_eqb d PULL_ON then true
  else
    let wu := node_pull true true n in
    let wd := node_pull false true n in
    pull_eqb wu PULL_ON && pull_eqb wd PULL_ON.

Definition weak_interfering (n : NodeState) : bool :=
  let u := node_pull true false n in
  let d := node_pull false false n in
  if negb (pull_eqb u PULL_OFF) && negb (pull_eqb d PULL_OFF) &&
     (pull_eqb u PULL_WEAK || pull_eqb d PULL_WEAK) then true
  else
    let wu := node_pull true true n in
    let wd := node_pull false true n in
    negb (pull_eqb wu PULL_OFF) && negb (pull_eqb wd PULL_OFF) &&
    (pull_eqb wu PULL_WEAK || pull_eqb wd PULL_WEAK).

Definition drive_state (n : NodeState) : pull_enum :=
  let u := node_pull true false n in
  let d := node_pull false false n in
  let wu := node_pull true true n in
  let wd := node_pull false true n in
  if pull_eqb u PULL_ON || pull_eqb d PULL_ON then PULL_ON
  else if pull_eqb wu PULL_ON || pull_eqb wd PULL_ON then PULL_ON
  else if pull_eqb u PULL_WEAK || pull_eqb d PULL_WEAK then PULL_WEAK
  else if pull_eqb wu PULL_WEAK || pull_eqb wd PULL_WEAK then PULL_WEAK
  else PULL_OFF.

Definition driven (n : NodeState) : bool := pull_eqb (drive_state n) PULL_ON.
Definition x_driven (n : NodeState) : bool := pull_eqb (drive_state n) PULL_WEAK.
Definition undriven (n : NodeState) : bool := pull_eqb (drive_state n) PULL_OFF.

(** ** Parsing of values; [coin] is the random bit drawn for a '?' *)
Definition value_to_char (v : value_enum) : ascii :=
  match v with LOGIC_LOW => "0" | LOGIC_HIGH => "1" | LOGIC_OTHER => "X" end%char.

Definition char_to_value (coin : bool) (c : ascii) : option value_enum :=
  (if (c =? "f") || (c =? "F") || (c =? "0") then Some LOGIC_LOW
   else if (c =? "t") || (c =? "T") || (c =? "1") then Some LOGIC_HIGH
   else if (c =? "X") || (c =? "x") || (c =? "U") || (c =? "u") then Some LOGIC_OTHER
   else if c =? "?" then Some (if coin then LOGIC_HIGH else LOGIC_LOW)
   else None)%char.

Definition char_to_pull (c : ascii) : option pull_enum :=
  (if c =? "0" then Some PULL_OFF
   else if c =? "1" then Some PULL_ON
   else if (c =? "X") || (c =? "x") || (c =? "U") || (c =? "u") then Some PULL_WEAK
   else None)%char.

Definition string_to_value (coin : bool) (s : String.string) : option value_enum :=
  match s with String.String c String.EmptyString => char_to_value coin c | _ => None end.
Definition string_to_pull (s : String.string) : option pull_enum :=
  match s with String.String c String.EmptyString => char_to_pull c | _ => None end.

(** ** Lemmas *)
Lemma tget_tset {A} (t : triple A) v w x :
  tget (tset t v x) w = if value_eqb v w then x else tget t w.
Proof. destruct v, w; done. Qed.

Lemma pending_event_spec n : pending_event n = false <-> n_event_index n = INVALID_EVENT_INDEX.
Proof. unfold pending_event. rewrite negb_false_iff. apply Nat.eqb_eq. Qed.

Lemma killed_kill e : killed (kill e) = true.
Proof.
  unfold killed, kill, set_ev_flags, EVENT_FLAG_KILLED; cbn [ev_flags].
  apply (has_flag_put_same true _ 1). lia.
Qed.

Lemma killed_set_weak w e : killed (set_weak w e) = killed e.
Proof.
  unfold killed, set_weak. cbn [ev_flags set_ev_flags].
  by apply (has_flag_put_other w (ev_flags e) 3 1).
Qed.

(** The rule counters of one direction and strength agree with the pulls
    [rs] of its rules. *)
Definition fanin_counts (rs : list pull_enum) (f : fanin_state_type) : Prop :=
  fs_size f = Z.of_nat (length rs) /\
  fs_countdown f = sumz pull_1 rs /\ fs_unknowns f = sumz pull_x rs.

Lemma fanin_pull_or rs f : fanin_counts rs f -> fanin_pull f = foldr k_or PULL_OFF rs.
Proof. intros (_ & Hc & Hx). unfold fanin_pull. by rewrite Hc, Hx, foldr_k_or. Qed.

Lemma fanin_counts_initialize f : 0 <= fs_size f ->
  fanin_counts (replicate (Z.to_nat (fs_size f)) PULL_WEAK) (fanin_initialize f).
Proof.
  intros Hs. unfold fanin_counts, fanin_initialize. cbn.
  rewrite length_replicate, Z2Nat.id by done.
  assert (forall k, sumz pull_1 (replicate k PULL_WEAK) = 0 /\
                    sumz pull_x (replicate k PULL_WEAK) = Z.of_nat k) as Hr.
  { induction k as [|k [IH1 IH2]]; [done|]. cbn [replicate sumz pull_1 pull_x]. lia. }
  destruct (Hr (Z.to_nat (fs_size f))). lia.
Qed.

Lemma pull_set_of_atomic n w :
  is_atomic n = true -> dn (pull_set_of n w) = k_not (up (pull_set_of n w)).
Proof. intros Ha. unfold pull_set_of. rewrite Ha. cbn. by destruct (fanin_pull _). Qed.

Lemma put_pull_struct_get dir w f n : get_pull_struct dir w (put_pull_struct dir w f n) = f.
Proof. by destruct dir, w. Qed.
Lemma put_pull_struct_get_ne dir w dir' w' f n : (dir, w) <> (dir', w') ->
  get_pull_struct dir' w' (put_pull_struct dir w f n) = get_pull_struct dir' w' n.
Proof. destruct dir, w, dir', w'; done. Qed.

(** ** Properties *)

(** a rule counter of a node, updated as [State::evaluate] does when one
    of its rules changes, keeps counting the rules that are on and that are X
    and thereby the OR of the rules; an initialized counter has every rule X. *)
Theorem update_fanin_correct f rs j prev next :
  rs !! j = Some prev -> fanin_counts rs f -> Z.of_nat (length rs) < 2 ^ 64 ->
  fanin_counts (<[j:=next]> rs) (update_fanin f prev next) /\
  fanin_pull (update_fanin f prev next) = foldr k_or PULL_OFF (<[j:=next]> rs).
Proof.
  intros Hj (Hs & Hc & Hx) Hl.
  assert (Hf : fanin_counts (<[j:=next]> rs) (update_fanin f prev next)).
  { assert (Hrange : forall g : pull_enum -> Z, (forall p, 0 <= g p <= 1) ->
      0 <= sumz g (<[j:=next]> rs) < 2 ^ 64).
    { intros g Hg. pose proof (sumz_bounds g (<[j:=next]> rs) Hg) as Hb.
      rewrite length_insert in Hb. lia. }
    pose proof (Hrange pull_1 (fun p => proj1 (proj2 (pull_bit_bounds p)))).
    pose proof (Hrange pull_x (fun p => proj1 (pull_bit_bounds p))).
    rewrite !(sumz_insert _ _ _ _ _ Hj) in *.
    unfold fanin_counts. rewrite !(sumz_insert _ _ _ _ _ Hj), length_insert. cbn.
    rewrite !wrap_small; lia. }
  split; [done|]. by apply fanin_pull_or.
Qed.

Lemma update_fanin_correct_witness :
  fanin_counts [PULL_ON; PULL_OFF] (update_fanin (mkFanin 2 0 1) PULL_WEAK PULL_ON) /\
  fanin_pull (update_fanin (mkFanin 2 0 1) PULL_WEAK PULL_ON) = PULL_ON.
Proof.
  apply (update_fanin_correct (mkFanin 2 0 1) [PULL_WEAK; PULL_OFF] 0 PULL_WEAK PULL_ON);
    [done|done|vm_compute; done].
Defined.

(** the two diagnostic predicates of a node, against its pull set with
    weak rules enabled: [interfering] also reports opposing weak rules that a
    strong rule overrides, so it holds for every certain interference, and for
    nothing else when both strong rules are off; a node is [undriven] exactly
    when it holds its state. *)
Theorem node_diagnostics n :
  is_atomic n = false ->
  let p := pull_set_of n true in
  interfering n = definite_interference_strong p ||
                  (pull_eqb (wup p) PULL_ON && pull_eqb (wdn p) PULL_ON) /\
  (definite_interference_strong p || definite_interference_weak p = true ->
   interfering n = true) /\
  (normal_rules_off p = true -> interfering n = definite_interference_weak p) /\
  undriven n = state_holding p.
Proof.
  intros Ha p. unfold p, pull_set_of. rewrite Ha.
  unfold interfering, undriven, drive_state, node_pull,
    definite_interference_strong, definite_interference_weak, normal_rules_off,
    state_holding, weak_rules_off; cbn [up dn wup wdn].
  destruct (fanin_pull (get_pull_struct true false n)),
    (fanin_pull (get_pull_struct false false n)),
    (fanin_pull (get_pull_struct true true n)),
    (fanin_pull (get_pull_struct false true n));
    vm_compute; intuition congruence.
Qed.

(** A node with a strong pull-up and both weak rules on. *)
Definition shadowed_node : NodeState :=
  set_n_pull_up (mkFaninPair (mkFanin 1 1 0) (mkFanin 1 1 0))
    (set_n_pull_dn (mkFaninPair (mkFanin 1 0 0) (mkFanin 1 1 0)) NodeState_empty).

Lemma node_diagnostics_witness :
  interfering shadowed_node = true /\
  definite_interference_weak (pull_set_of shadowed_node true) = false.
Proof.
  split; [|reflexivity].
  rewrite (proj1 (node_diagnostics shadowed_node eq_refl)). reflexivity.
Defined.

(** Parsing a value is a left inverse of printing it, whatever bit is
    drawn for a '?', and only one-character strings parse. *)
Theorem value_char_roundtrip coin v s :
  string_to_value coin (String.String (value_to_char v) String.EmptyString) = Some v /\
  string_to_pull (String.String (value_to_char v) String.EmptyString) = Some (pull_of_value v) /\
  (String.length s <> 1%nat -> string_to_value coin s = None /\ string_to_pull s = None).
Proof.
  split; [by destruct v|]. split; [by destruct v|].
  destruct s as [|c [|c' s]]; done.
Qed.

Lemma value_char_roundtrip_witness :
  string_to_value true (String.String "1" (String.String "1" String.EmptyString)) = None.
Proof.
  apply (value_char_roundtrip true LOGIC_LOW
    (String.String "1" (String.String "1" String.EmptyString))). done.
Defined.
