(* ===== verification/ProcGraph.v ===== *)
(** The structure of one process type: "sim/prsim/Rule.hh",
    "sim/prsim/Rule.tcc", "sim/prsim/process_graph.hh" and
    "sim/prsim/process_graph.cc"; and the state of one process instance:
    "sim/prsim/process_state.hh" and "sim/prsim/process_state.cc".

    A [unique_process_subgraph] holds the expressions, rules and local nodes
    of a type, indexed from 0.  [check_structure] is the source's own
    consistency check; [wf_graph] is what it establishes. *)
From S2P Require Import Prelude SimTime PullSet Expr OrdMap Node.
From Stdlib Require Import String.
#[local] Abbreviation length := Datatypes.length.
Open Scope Z_scope.
Local Open Scope hackt_scope.

(** ** Rule *)
Record Rule : Type := mkRule {
  r_after : real_time;
  r_after_min : real_time;
  r_after_max : real_time;
  r_flags : Z   (* short *)
}.

Definition set_r_after (x : real_time) (r : Rule) : Rule :=
  mkRule x (r_after_min r) (r_after_max r) (r_flags r).
Definition set_r_after_min (x : real_time) (r : Rule) : Rule :=
  mkRule (r_after r) x (r_after_max r) (r_flags r).
Definition set_r_after_max (x : real_time) (r : Rule) : Rule :=
  mkRule (r_after r) (r_after_min r) x (r_flags r).
Definition set_r_flags (x : Z) (r : Rule) : Rule :=
  mkRule (r_after r) (r_after_min r) (r_after_max r) x.

Definition RULE_DEFAULT_FLAGS : Z := 0.
Definition RULE_DIR : Z := 1.
Definition RULE_WEAK : Z := 2.
Definition RULE_ALWAYS_RANDOM : Z := 4.
Definition RULE_INVARIANT : Z := 8.
Definition RULE_UNSTAB : Z := 16.

(** [default_unspecified_delay] is a mutable static, its value an argument. *)
Definition Rule_make (default_unspecified_delay : real_time) : Rule :=
  mkRule default_unspecified_delay real_zero real_zero RULE_DEFAULT_FLAGS.
Definition rule_flag_put (b : bool) (mask : Z) (r : Rule) : Rule :=
  set_r_flags (put_flag b (r_flags r) mask) r.
Definition set_direction (d : bool) : Rule -> Rule := rule_flag_put d RULE_DIR.
Definition direction (r : Rule) : bool := has_flag (r_flags r) RULE_DIR.
Definition is_always_random (r : Rule) : bool := has_flag (r_flags r) RULE_ALWAYS_RANDOM.
Definition set_always_random : Rule -> Rule := rule_flag_put true RULE_ALWAYS_RANDOM.
Definition clear_always_random : Rule -> Rule := rule_flag_put false RULE_ALWAYS_RANDOM.
Definition rule_is_weak (r : Rule) : bool := has_flag (r_flags r) RULE_WEAK.
Definition rule_set_weak : Rule -> Rule := rule_flag_put true RULE_WEAK.
Definition rule_clear_weak : Rule -> Rule := rule_flag_put false RULE_WEAK.
Definition is_invariant (r : Rule) : bool := has_flag (r_flags r) RULE_INVARIANT.
Definition set_invariant : Rule -> Rule := rule_flag_put true RULE_INVARIANT.
Definition is_unstable (r : Rule) : bool := has_flag (r_flags r) RULE_UNSTAB.
Definition set_unstable : Rule -> Rule := rule_flag_put true RULE_UNSTAB.
Definition clear_unstable : Rule -> Rule := rule_flag_put false RULE_UNSTAB.

Section EditProperty.
(** [string_to_num]: a [strtod] and a [strtol] of the whole string. *)
Context (string_to_time : string -> option real_time)
        (string_to_int : string -> option Z).

(** The edited rule, and whether there was an error. *)
Definition edit_property (prop val : string) (r : Rule) : Rule * bool :=
  if String.eqb prop "unstab"%string then
    match string_to_int val with
    | None => (r, true)
    | Some i => ((if i =? 0 then clear_unstable r else set_unstable r), false)
    end
  else if String.eqb prop "after"%string then
    match string_to_time val with None => (r, true) | Some t => (set_r_after t r, false) end
  else if String.eqb prop "after_min"%string then
    match string_to_time val with None => (r, true) | Some t => (set_r_after_min t r, false) end
  else if String.eqb prop "after_max"%string then
    match string_to_time val with None => (r, true) | Some t => (set_r_after_max t r, false) end
  else (r, false).
End EditProperty.

(** ** process_graph.hh *)
Record faninout_struct_type : Type := mkFaninout {
  f_pull_up : list nat; f_pull_up_weak : list nat;
  f_pull_dn : list nat; f_pull_dn_weak : list nat;
  f_fanout : list nat;
  f_is_atomic : bool
}.
Definition get_pull_expr (b : bool) (w : rule_strength) (f : faninout_struct_type) : list nat :=
  match b, w with
  | true, NORMAL_RULE => f_pull_up f
  | true, WEAK_RULE => f_pull_up_weak f
  | false, NORMAL_RULE => f_pull_dn f
  | false, WEAK_RULE => f_pull_dn_weak f
  end.
Definition fans (f : faninout_struct_type) : Z :=
  wrap 64 (Z.of_nat (length (f_fanout f)) + Z.of_nat (length (f_pull_up f)) +
           Z.of_nat (length (f_pull_up_weak f)) + Z.of_nat (length (f_pull_dn f)) +
           Z.of_nat (length (f_pull_dn_weak f))).
Definition faninout_has_fanin (f : faninout_struct_type) : bool :=
  negb (Nat.eqb (length (f_pull_up f)) 0) || negb (Nat.eqb (length (f_pull_dn f)) 0) ||
  negb (Nat.eqb (length (f_pull_up_weak f)) 0) || negb (Nat.eqb (length (f_pull_dn_weak f)) 0).
Definition contains_fanout (f : faninout_struct_type) (ei : nat) : bool :=
  existsb (Nat.eqb ei) (f_fanout f).

Record setup_constraint_entry : Type := mkSetup { su_ref_node : nat; su_time : real_time }.
Record hold_constraint_entry : Type := mkHold {
  ho_ref_node : nat; ho_time : real_time; ho_dir : bool
}.

(** Indexed by the directions of the reference and of the target. *)
Record min_delay_entry : Type := mkMinDelay {
  md_time : bool -> bool -> real_time;
  md_predicate : bool -> bool -> nat
}.
Definition min_delay_empty : min_delay_entry :=
  mkMinDelay (fun _ _ => real_zero) (fun _ _ => INVALID_NODE_INDEX).
Definition is_uniform (m : min_delay_entry) : bool :=
  let t := md_time m in let p := md_predicate m in
  t_eqb (t false false) (t false true) && t_eqb (t false false) (t true false) &&
  t_eqb (t false false) (t true true) && Nat.eqb (p false false) (p false true) &&
  Nat.eqb (p false false) (p true false) && Nat.eqb (p false false) (p true true).

Record unique_process_subgraph : Type := mkGraph {
  expr_pool : list Expr;
  expr_graph_node_pool : list ExprGraphNode;
  rule_pool : list Rule;
  rule_map : list (nat * nat)   (* root expression -> rule *);
  invariant_map : list (nat * nat);
  local_faninout_map : list faninout_struct_type   (* one per local node *);
  setup_constraints : list ((nat * bool) * list setup_constraint_entry);
  hold_constraints : list (nat * list hold_constraint_entry);
  min_delays : list (nat * list (nat * min_delay_entry))   (* target -> reference *)
}.

Definition set_expr_pool (x : list Expr) (r : unique_process_subgraph) : unique_process_subgraph :=
  mkGraph x (expr_graph_node_pool r) (rule_pool r) (rule_map r) (invariant_map r)
    (local_faninout_map r) (setup_constraints r) (hold_constraints r) (min_delays r).
Definition set_expr_graph_node_pool (x : list ExprGraphNode) (r : unique_process_subgraph) : unique_process_subgraph :=
  mkGraph (expr_pool r) x (rule_pool r) (rule_map r) (invariant_map r)
    (local_faninout_map r) (setup_constraints r) (hold_constraints r) (min_delays r).
Definition set_rule_pool (x : list Rule) (r : unique_process_subgraph) : unique_process_subgraph :=
  mkGraph (expr_pool r) (expr_graph_node_pool r) x (rule_map r) (invariant_map r)
    (local_faninout_map r) (setup_constraints r) (hold_constraints r) (min_delays r).
Definition set_rule_map (x : list (nat * nat)) (r : unique_process_subgraph) : unique_process_subgraph :=
  mkGraph (expr_pool r) (expr_graph_node_pool r) (rule_pool r) x (invariant_map r)
    (local_faninout_map r) (setup_constraints r) (hold_constraints r) (min_delays r).
Definition set_invariant_map (x : list (nat * nat)) (r : unique_process_subgraph) : unique_process_subgraph :=
  mkGraph (expr_pool r) (expr_graph_node_pool r) (rule_pool r) (rule_map r) x
    (local_faninout_map r) (setup_constraints r) (hold_constraints r) (min_delays r).
Definition set_local_faninout_map (x : list faninout_struct_type) (r : unique_process_subgraph) : unique_process_subgraph :=
  mkGraph (expr_pool r) (expr_graph_node_pool r) (rule_pool r) (rule_map r)
    (invariant_map r) x (setup_constraints r) (hold_constraints r) (min_delays r).
Definition set_setup_constraints (x : list ((nat * bool) * list setup_constraint_entry)) (r : unique_process_subgraph) : unique_process_subgraph :=
  mkGraph (expr_pool r) (expr_graph_node_pool r) (rule_pool r) (rule_map r)
    (invariant_map r) (local_faninout_map r) x (hold_constraints r) (min_delays r).
Definition set_hold_constraints (x : list (nat * list hold_constraint_entry)) (r : unique_process_subgraph) : unique_process_subgraph :=
  mkGraph (expr_pool r) (expr_graph_node_pool r) (rule_pool r) (rule_map r)
    (invariant_map r) (local_faninout_map r) (setup_constraints r) x (min_delays r).
Definition set_min_delays (x : list (nat * list (nat * min_delay_entry))) (r : unique_process_subgraph) : unique_process_subgraph :=
  mkGraph (expr_pool r) (expr_graph_node_pool r) (rule_pool r) (rule_map r)
    (invariant_map r) (local_faninout_map r) (setup_constraints r) (hold_constraints
    r) x.

Definition graph_empty : unique_process_subgraph := mkGraph [] [] [] [] [] [] [] [] [].

(** ** Member functions of unique_process_subgraph

    A [const] member function reads the graph it is called on: [GM]. *)
Abbreviation GM := (M unique_process_subgraph).

Definition get_expr (i : nat) : GM Expr :=
  g <- gets expr_pool ;; of_option F_index (g !! i).
Definition get_graph_node (i : nat) : GM ExprGraphNode :=
  g <- gets expr_graph_node_pool ;; of_option F_index (g !! i).
Definition get_faninout (i : nat) : GM faninout_struct_type :=
  g <- gets local_faninout_map ;; of_option F_index (g !! i).

Definition void_expr (ei : nat) : GM unit :=
  e <- get_expr ei ;;
  g <- get_graph_node ei ;;
  modify (fun s => set_expr_pool (<[ei := wipe e]> (expr_pool s)) s) ;;;
  modify (fun s => set_expr_graph_node_pool
    (<[ei := ExprGraphNode_wipe g]> (expr_graph_node_pool s)) s).

Definition is_rule_expr (ei : nat) (g : unique_process_subgraph) : bool :=
  match m_find ei (rule_map g) with Some _ => true | None => false end.

(** A pointer into [rule_pool]: the index of the rule, and the rule. *)
Definition lookup_rule_index (ei : nat) (g : unique_process_subgraph) : option nat :=
  m_find ei (rule_map g).
Definition lookup_rule (ei : nat) : GM (option Rule) :=
  g <- gets id ;;
  match lookup_rule_index ei g with
  | Some ri => r <- of_option F_index (rule_pool g !! ri) ;; ret (Some r)
  | None => ret None
  end.

Fixpoint lookup_expr_in (ri : nat) (m : list (nat * nat)) : option nat :=
  match m with
  | [] => None
  | (e, r) :: m' => if Nat.eqb r ri then Some e else lookup_expr_in ri m'
  end.
(** [DIE] when no expression maps to the rule. *)
Definition lookup_expr (ri : nat) : GM nat :=
  m <- gets rule_map ;; of_option F_assert (lookup_expr_in ri m).

(** [*lookup_rule(ei)]: undefined when there is no rule. *)
Definition the_rule (ei : nat) : GM Rule :=
  r <- lookup_rule ei ;; of_option F_index r.

Definition check_node_up (i : nat) (upi : nat) : GM unit :=
  when (is_valid_expr_index upi)
    (e <- get_expr upi ;;
     require F_assert (is_root e) ;;;
     r <- the_rule upi ;;
     require F_assert (direction r) ;;;
     require F_assert (Nat.eqb (e_parent e) i)).

Definition check_node_dn (i : nat) (dni : nat) : GM unit :=
  when (is_valid_expr_index dni)
    (e <- get_expr dni ;;
     r <- the_rule dni ;;
     require F_assert (is_root e) ;;;
     require F_assert (negb (direction r)) ;;;
     require F_assert (Nat.eqb (e_parent e) i)).

Definition check_node (i : nat) : GM unit :=
  nodes <- gets local_faninout_map ;;
  require F_assert (Nat.ltb i (length nodes)) ;;;
  n <- get_faninout i ;;
  for_each [NORMAL_RULE; WEAK_RULE] (fun k =>
    for_each (get_pull_expr true k n) (check_node_up i) ;;;
    for_each (get_pull_expr false k n) (check_node_dn i)) ;;;
  for_each (f_fanout n) (fun ei =>
    g <- get_graph_node ei ;;
    require F_assert (contains_node_fanin g i)).

Definition count_eq (l : list nat) (i : nat) : Z := count_if (Nat.eqb i) l.

(** The parent of a root is the node it pulls. *)
Definition check_expr_root (i : nat) (e : Expr) (r : option Rule) : GM unit :=
  node_pool <- gets local_faninout_map ;;
  require F_assert (Nat.ltb (e_parent e) (length node_pool)) ;;;
  n <- get_faninout (e_parent e) ;;
  rp <- of_option F_index r ;;
  let dir := direction rp in
  require F_assert ((count_eq (get_pull_expr dir NORMAL_RULE n) i =? 1) ||
                    (count_eq (get_pull_expr dir WEAK_RULE n) i =? 1)).

(** The parent of another expression lists it at its offset. *)
Definition check_expr_inner (i : nat) (e : Expr) (g : ExprGraphNode) : GM unit :=
  exprs <- gets expr_pool ;;
  require F_assert (Nat.ltb (e_parent e) (length exprs)) ;;;
  pg <- get_graph_node (e_parent e) ;;
  pc <- of_option F_index (g_children pg !! g_offset g : option (bool * nat)) ;;
  require F_assert (negb pc.1) ;;;
  require F_assert (Nat.eqb pc.2 i).

Definition check_expr_child (i : nat) (g : ExprGraphNode) (j : nat) : GM unit :=
  node_pool <- gets local_faninout_map ;;
  exprs <- gets expr_pool ;;
  c <- of_option F_index (g_children g !! j : option (bool * nat)) ;;
  if c.1 then
    require F_assert (Nat.ltb c.2 (length node_pool)) ;;;
    n <- get_faninout c.2 ;;
    require F_assert (contains_fanout n i)
  else
    require F_assert (Nat.ltb c.2 (length exprs)) ;;;
    ce <- get_expr c.2 ;;
    require F_assert (Nat.eqb (e_parent ce) i) ;;;
    cg <- get_graph_node c.2 ;;
    require F_assert (Nat.eqb (g_offset cg) j).

Definition check_expr (i : nat) : GM unit :=
  e <- get_expr i ;;
  r <- lookup_rule i ;;
  g <- get_graph_node i ;;
  let is_inv := match r with Some r' => is_invariant r' | None => false end in
  when (negb (wiped e))
    ((if is_root e then when (negb is_inv) (check_expr_root i e r)
      else check_expr_inner i e g) ;;;
     require F_assert (e_size e =? Z.of_nat (length (g_children g))) ;;;
     for_each (seq 0 (Z.to_nat (e_size e))) (check_expr_child i g)).

Definition check_structure : GM unit :=
  g <- gets id ;;
  let exprs := length (expr_pool g) in
  require F_ise (Nat.eqb exprs (length (expr_graph_node_pool g))) ;;;
  for_each (seq 0 exprs) check_expr ;;;
  for_each (seq 0 (length (local_faninout_map g))) check_node.

(** The loops that climb to a root take fuel: the number of expressions is
    enough when the parent links have no cycle. *)
Fixpoint local_root_expr (fuel : nat) (ei : nat) : GM nat :=
  match fuel with
  | O => fail F_fuel
  | S fuel' =>
      e <- get_expr ei ;;
      if is_root e then ret ei else local_root_expr fuel' (e_parent e)
  end.

Definition follow_expr_to_root (ei : nat) : GM nat :=
  g <- gets id ;;
  root <- local_root_expr (S (length (expr_pool g))) ei ;;
  of_option F_assert (m_find root (rule_map g)).

(** [INVARIANT(lni-1 < size)] on a [size_t]: 0 wraps around and fails. *)
Definition local_node_1based (lni : nat) : GM faninout_struct_type :=
  nodes <- gets local_faninout_map ;;
  require F_assert (Nat.ltb 0 lni && Nat.ltb (lni - 1) (length nodes)) ;;;
  get_faninout (lni - 1).

Definition collect_roots (l : list nat) : GM (list nat) :=
  fold_m l [] (fun r ei => ri <- follow_expr_to_root ei ;; ret (s_insert ri r)).

Definition rules_matching_fanin (lni : nat) (dir : bool) : GM (list nat) :=
  fia <- local_node_1based lni ;;
  collect_roots (get_pull_expr dir NORMAL_RULE fia).

Definition rules_matching_fanout (lni : nat) : GM (list nat) :=
  foa <- local_node_1based lni ;;
  collect_roots (f_fanout foa).

Definition rules_matching_faninout (lns lnd : nat) (ddir : bool) : GM (list nat) :=
  tmp1 <- rules_matching_fanin lnd ddir ;;
  tmp2 <- rules_matching_fanout lns ;;
  ret (s_inter tmp1 tmp2).

(** Rules edited before the first error stay edited. *)
Fixpoint edit_rule_property string_to_time string_to_int (rs : list nat)
    (prop val : string) : GM bool :=
  match rs with
  | [] => ret false
  | ri :: rs' =>
      g <- gets id ;;
      r <- of_option F_index (rule_pool g !! ri) ;;
      let '(r', err) := edit_property string_to_time string_to_int prop val r in
      modify (set_rule_pool (<[ri := r']> (rule_pool g))) ;;;
      if err then ret true
      else edit_rule_property string_to_time string_to_int rs' prop val
  end.

Definition fan_count (g : unique_process_subgraph) : Z :=
  foldl (fun n f => wrap 64 (n + fans f)) 0 (local_faninout_map g).
Definition has_local_fanin_map (g : unique_process_subgraph) : list bool :=
  map faninout_has_fanin (local_faninout_map g).
Definition has_not_local_fanin_map (g : unique_process_subgraph) : list bool :=
  map (fun f => negb (faninout_has_fanin f)) (local_faninout_map g).

(** ['+'] restricts to rising edges, ['-'] to falling, anything else to none. *)
Inductive edge_spec : Set := EDGE_RISE | EDGE_FALL | EDGE_ANY.
Definition edge_applies (c : edge_spec) (d : bool) : bool :=
  match c, d with EDGE_RISE, false => false | EDGE_FALL, true => false | _, _ => true end.

Definition add_min_delay_constraint (ref : nat) (refdir : edge_spec) (tgt : nat)
    (tgtdir : edge_spec) (del : real_time) (pred : nat) (g : unique_process_subgraph)
    : unique_process_subgraph :=
  let arcs := match m_find tgt (min_delays g) with Some a => a | None => [] end in
  let md := match m_find ref arcs with Some m => m | None => min_delay_empty end in
  let hit rd td := edge_applies refdir rd && edge_applies tgtdir td in
  let md' := mkMinDelay
    (fun rd td => if hit rd td then del else md_time md rd td)
    (fun rd td => if hit rd td then pred else md_predicate md rd td) in
  set_min_delays (m_set tgt (m_set ref md' arcs) (min_delays g)) g.
Definition reset_delay_constraints (g : unique_process_subgraph) : unique_process_subgraph :=
  set_min_delays [] g.

(** ** process_state.hh *)
Record process_sim_state : Type := mkProcState {
  ps_type : nat;               (* index of its unique_process_subgraph *)
  global_expr_offset : nat;
  expr_states : list ExprState
}.
Definition set_expr_states (l : list ExprState) (p : process_sim_state) : process_sim_state :=
  mkProcState (ps_type p) (global_expr_offset p) l.

(** Unsigned subtraction: [None] stands for an index that has wrapped around. *)
Definition local_expr_index (p : process_sim_state) (gei : nat) : option nat :=
  if Nat.ltb gei (global_expr_offset p) then None else Some (gei - global_expr_offset p)%nat.
Definition global_expr_index (p : process_sim_state) (lei : nat) : nat :=
  (lei + global_expr_offset p)%nat.

(** New [ExprState]s are uninitialized; the model fills in zeros, and
    [process_initialize] overwrites them. *)
Definition allocate_from_type (t : unique_process_subgraph) (tid ex_off : nat)
    : process_sim_state :=
  mkProcState tid ex_off (replicate (length (expr_pool t)) (mkExprState 0 0)).
Definition process_clear (p : process_sim_state) : process_sim_state := set_expr_states [] p.

(** Pairs the two arrays; runs off a shorter pool. *)
Fixpoint initialize_states (us : list ExprState) (es : list Expr) : res (list ExprState) :=
  match us, es with
  | [], _ => Ok []
  | _ :: us', e :: es' =>
      match initialize_states us' es' with
      | Ok l => Ok (ExprState_initialize e :: l)
      | Err f => Err f
      end
  | _ :: _, [] => Err F_index
  end.
Definition process_initialize (t : unique_process_subgraph) (p : process_sim_state)
    : res process_sim_state :=
  match initialize_states (expr_states p) (expr_pool t) with
  | Ok l => Ok (set_expr_states l p)
  | Err f => Err f
  end.

(** [check_invariants]: whether an invariant rule is certainly violated. *)
Definition check_invariants (t : unique_process_subgraph) (p : process_sim_state) : res bool :=
  (fix go (m : list (nat * nat)) (acc : bool) : res bool :=
    match m with
    | [] => Ok acc
    | (lei, ri) :: m' =>
        match rule_pool t !! ri with
        | None => Err F_index
        | Some r =>
            if is_invariant r then
              match expr_states p !! lei, expr_pool t !! lei with
              | Some u, Some e =>
                  go m' (match pull_state u e with PULL_OFF => true | _ => acc end)
              | _, _ => Err F_index
              end
            else go m' acc
        end
    end) (rule_map t) false.

(** ** What [check_structure] establishes *)
Section WfGraph.
Context (g : unique_process_subgraph).

(** Child [j] of expression [i]. *)
Definition child_at (i j : nat) (c : child_entry) : Prop :=
  exists e gn, expr_pool g !! i = Some e /\ expr_graph_node_pool g !! i = Some gn /\
    wiped e = false /\ g_children gn !! j = Some c.

Definition rule_of (i : nat) (r : Rule) : Prop :=
  exists ri, m_find i (rule_map g) = Some ri /\ rule_pool g !! ri = Some r.

Record wf_graph : Prop := {
  wf_same_length : length (expr_pool g) = length (expr_graph_node_pool g);
  wf_size : forall i e gn, expr_pool g !! i = Some e -> expr_graph_node_pool g !! i = Some gn ->
    wiped e = false -> e_size e = Z.of_nat (length (g_children gn));
  wf_parent : forall i e, expr_pool g !! i = Some e -> wiped e = false -> is_root e = false ->
    exists pn gn, expr_graph_node_pool g !! i = Some gn /\
      expr_graph_node_pool g !! e_parent e = Some pn /\
      g_children pn !! g_offset gn = Some (false, i);
  wf_child_expr : forall i j k, child_at i j (false, k) ->
    exists ce cn, expr_pool g !! k = Some ce /\ expr_graph_node_pool g !! k = Some cn /\
      e_parent ce = i /\ g_offset cn = j;
  wf_child_node : forall i j n, child_at i j (true, n) ->
    exists f, local_faninout_map g !! n = Some f /\ i ∈ f_fanout f;
  wf_root : forall i e, expr_pool g !! i = Some e -> wiped e = false -> is_root e = true ->
    (exists r, rule_of i r /\ is_invariant r = true) \/
    (exists r f, rule_of i r /\ is_invariant r = false /\
       local_faninout_map g !! e_parent e = Some f /\
       (count_eq (get_pull_expr (direction r) NORMAL_RULE f) i = 1 \/
        count_eq (get_pull_expr (direction r) WEAK_RULE f) i = 1));
  wf_fanout : forall n f i, local_faninout_map g !! n = Some f -> i ∈ f_fanout f ->
    exists gn j, expr_graph_node_pool g !! i = Some gn /\ g_children gn !! j = Some (true, n);
  wf_pulls : forall n f b w i, local_faninout_map g !! n = Some f ->
    i ∈ get_pull_expr b w f -> i <> 0%nat ->
    exists e r, expr_pool g !! i = Some e /\ is_root e = true /\ e_parent e = n /\
      rule_of i r /\ direction r = b
}.
End WfGraph.

Lemma readonly_get_expr i : readonly (get_expr i).
Proof. unfold get_expr. solve_readonly. Qed.
Lemma readonly_get_graph_node i : readonly (get_graph_node i).
Proof. unfold get_graph_node. solve_readonly. Qed.
Lemma readonly_get_faninout i : readonly (get_faninout i).
Proof. unfold get_faninout. solve_readonly. Qed.
Lemma readonly_lookup_rule i : readonly (lookup_rule i).
Proof. unfold lookup_rule. solve_readonly. Qed.
#[export] Hint Resolve readonly_get_expr readonly_get_graph_node readonly_get_faninout
  readonly_lookup_rule : hackt_ro.
Lemma readonly_the_rule i : readonly (the_rule i).
Proof. unfold the_rule. solve_readonly. Qed.
#[export] Hint Resolve readonly_the_rule : hackt_ro.
Lemma readonly_check_expr_child i gn j : readonly (check_expr_child i gn j).
Proof. unfold check_expr_child. solve_readonly. Qed.
#[export] Hint Resolve readonly_check_expr_child : hackt_ro.
Lemma readonly_check_expr i : readonly (check_expr i).
Proof. unfold check_expr, check_expr_root, check_expr_inner. solve_readonly. Qed.
Lemma readonly_check_node_up i u : readonly (check_node_up i u).
Proof. unfold check_node_up. solve_readonly. Qed.
Lemma readonly_check_node_dn i u : readonly (check_node_dn i u).
Proof. unfold check_node_dn. solve_readonly. Qed.
#[export] Hint Resolve readonly_check_expr readonly_check_node_up readonly_check_node_dn
  : hackt_ro.
Lemma readonly_check_node i : readonly (check_node i).
Proof. unfold check_node. solve_readonly. Qed.
#[export] Hint Resolve readonly_check_node : hackt_ro.

Lemma get_expr_ok i g e g' : get_expr i g = Ok (e, g') -> expr_pool g !! i = Some e /\ g' = g.
Proof. unfold get_expr. intros E. inv_m. done. Qed.
Lemma get_graph_node_ok i g gn g' :
  get_graph_node i g = Ok (gn, g') -> expr_graph_node_pool g !! i = Some gn /\ g' = g.
Proof. unfold get_graph_node. intros E. inv_m. done. Qed.
Lemma get_faninout_ok i g f g' :
  get_faninout i g = Ok (f, g') -> local_faninout_map g !! i = Some f /\ g' = g.
Proof. unfold get_faninout. intros E. inv_m. done. Qed.
Lemma lookup_rule_ok i g r g' : lookup_rule i g = Ok (r, g') ->
  g' = g /\ match r with Some r' => rule_of g i r' | None => m_find i (rule_map g) = None end.
Proof.
  unfold lookup_rule, lookup_rule_index. intros E. inv_m. cbn in *.
  destruct (m_find i (rule_map g)) eqn:Hf; inv_m; [|done]. split; [done|]. by exists n.
Qed.

(** One expression that passed. *)
Lemma check_expr_ok g i e gn : check_expr i g = Ok (tt, g) ->
  expr_pool g !! i = Some e -> expr_graph_node_pool g !! i = Some gn -> wiped e = false ->
  exists r g1 g2, lookup_rule i g = Ok (r, g1) /\
    (if is_root e
     then when (negb match r with Some r' => is_invariant r' | None => false end)
            (check_expr_root i e r)
     else check_expr_inner i e gn) g = Ok (tt, g2) /\
    e_size e = Z.of_nat (length (g_children gn)) /\
    forall j, (j < length (g_children gn))%nat -> check_expr_child i gn j g = Ok (tt, g).
Proof.
  unfold check_expr. intros E He Hg Hw.
  apply bind_ok in E as (e0 & s1 & E1 & E). apply get_expr_ok in E1 as [E1 ->].
  apply bind_ok in E as (r & s2 & E2 & E). pose proof (readonly_lookup_rule _ _ _ _ E2) as ->.
  apply bind_ok in E as (gn0 & s3 & E3 & E). apply get_graph_node_ok in E3 as [E3 ->].
  assert (e0 = e) as -> by congruence. assert (gn0 = gn) as -> by congruence.
  rewrite Hw in E. cbn [negb when] in E. apply bind_ok in E as ([] & s4 & E4 & E).
  apply bind_ok in E as (? & s5 & E5 & E). apply require_ok in E5 as [E5 ->].
  apply Z.eqb_eq in E5.
  assert (s4 = g) as ->.
  { enough (forall (b : bool), readonly (if b
      then when (negb match r with Some r' => is_invariant r' | None => false end)
             (check_expr_root i e r) else check_expr_inner i e gn)) as Hro by exact (Hro _ _ _ _ E4).
    unfold check_expr_root, check_expr_inner. solve_readonly. }
  exists r, g, g. split_and!; [done|done|done|]. intros j Hj.
  apply for_each_ok in E as [_ Hall]; [|solve_readonly].
  apply Hall. rewrite E5, Nat2Z.id. apply elem_of_seq. lia.
Qed.

Lemma check_expr_child_ok g i gn j g' : check_expr_child i gn j g = Ok (tt, g') ->
  match g_children gn !! j with
  | Some (true, n) => exists f, local_faninout_map g !! n = Some f /\ i ∈ f_fanout f
  | Some (false, k) => exists ce cn, expr_pool g !! k = Some ce /\
      expr_graph_node_pool g !! k = Some cn /\ e_parent ce = i /\ g_offset cn = j
  | None => False
  end.
Proof.
  unfold check_expr_child. intros E.
  apply bind_ok in E as (? & ? & E1 & E). apply gets_ok in E1 as [-> ->].
  apply bind_ok in E as (? & ? & E1 & E). apply gets_ok in E1 as [-> ->].
  apply bind_ok in E as ([[] k] & ? & E1 & E); apply of_option_ok in E1 as [-> ->]; cbn in E.
  - apply bind_ok in E as (? & ? & E1 & E). apply require_ok in E1 as [_ ->].
    apply bind_ok in E as (f & ? & E1 & E). apply get_faninout_ok in E1 as [E1 ->].
    apply require_ok in E as [E _]. exists f. split; [done|].
    unfold contains_fanout in E. apply existsb_exists in E as (y & Hy & Ey).
    apply Nat.eqb_eq in Ey as ->. by apply list_elem_of_In.
  - apply bind_ok in E as (? & ? & E1 & E). apply require_ok in E1 as [_ ->].
    apply bind_ok in E as (ce & ? & E1 & E). apply get_expr_ok in E1 as [E1 ->].
    apply bind_ok in E as (? & ? & E2 & E). apply require_ok in E2 as [E2 ->].
    apply bind_ok in E as (cn & ? & E3 & E). apply get_graph_node_ok in E3 as [E3 ->].
    apply require_ok in E as [E _]. apply Nat.eqb_eq in E2, E. by exists ce, cn.
Qed.

Lemma check_expr_inner_ok g i e gn g' : check_expr_inner i e gn g = Ok (tt, g') ->
  exists pn, expr_graph_node_pool g !! e_parent e = Some pn /\
    g_children pn !! g_offset gn = Some (false, i).
Proof.
  unfold check_expr_inner. intros E.
  apply bind_ok in E as (? & ? & E1 & E). apply gets_ok in E1 as [-> ->].
  apply bind_ok in E as (? & ? & E1 & E). apply require_ok in E1 as [_ ->].
  apply bind_ok in E as (pn & ? & E1 & E). apply get_graph_node_ok in E1 as [E1 ->].
  apply bind_ok in E as ([b k] & ? & E2 & E). apply of_option_ok in E2 as [E2 ->].
  apply bind_ok in E as (? & ? & E3 & E). apply require_ok in E3 as [E3 ->].
  apply require_ok in E as [E _]. apply Nat.eqb_eq in E. cbn in E, E3. subst k.
  destruct b; [done|]. by exists pn.
Qed.

Lemma check_expr_root_ok g i e r g' : check_expr_root i e r g = Ok (tt, g') ->
  exists r' f, r = Some r' /\ local_faninout_map g !! e_parent e = Some f /\
    (count_eq (get_pull_expr (direction r') NORMAL_RULE f) i = 1 \/
     count_eq (get_pull_expr (direction r') WEAK_RULE f) i = 1).
Proof.
  unfold check_expr_root. intros E.
  apply bind_ok in E as (? & ? & E1 & E). apply gets_ok in E1 as [-> ->].
  apply bind_ok in E as (? & ? & E1 & E). apply require_ok in E1 as [_ ->].
  apply bind_ok in E as (f & ? & E1 & E). apply get_faninout_ok in E1 as [E1 ->].
  apply bind_ok in E as (r' & ? & E2 & E). apply of_option_ok in E2 as [-> ->].
  apply require_ok in E as [E _]. exists r', f. split_and!; [done|done|].
  apply orb_true_iff in E as [E|E]; apply Z.eqb_eq in E; auto.
Qed.

Lemma the_rule_ok i g r g' : the_rule i g = Ok (r, g') -> g' = g /\ rule_of g i r.
Proof.
  unfold the_rule. intros E. apply bind_ok in E as (o & ? & E1 & E).
  apply lookup_rule_ok in E1 as [-> E1]. apply of_option_ok in E as [-> ->]. done.
Qed.

Lemma check_node_up_ok g n i g' : check_node_up n i g = Ok (tt, g') -> i <> 0%nat ->
  exists e r, expr_pool g !! i = Some e /\ is_root e = true /\ e_parent e = n /\
    rule_of g i r /\ direction r = true.
Proof.
  unfold check_node_up, is_valid_expr_index. intros E Hi.
  rewrite (proj2 (Nat.eqb_neq i _)) in E by done. cbn [negb when] in E.
  apply bind_ok in E as (e & ? & E1 & E). apply get_expr_ok in E1 as [E1 ->].
  apply bind_ok in E as (? & ? & E2 & E). apply require_ok in E2 as [E2 ->].
  apply bind_ok in E as (r & ? & E3 & E). apply the_rule_ok in E3 as [-> E3].
  apply bind_ok in E as (? & ? & E4 & E). apply require_ok in E4 as [E4 ->].
  apply require_ok in E as [E _]. apply Nat.eqb_eq in E. by exists e, r.
Qed.

Lemma check_node_dn_ok g n i g' : check_node_dn n i g = Ok (tt, g') -> i <> 0%nat ->
  exists e r, expr_pool g !! i = Some e /\ is_root e = true /\ e_parent e = n /\
    rule_of g i r /\ direction r = false.
Proof.
  unfold check_node_dn, is_valid_expr_index. intros E Hi.
  rewrite (proj2 (Nat.eqb_neq i _)) in E by done. cbn [negb when] in E.
  apply bind_ok in E as (e & ? & E1 & E). apply get_expr_ok in E1 as [E1 ->].
  apply bind_ok in E as (r & ? & E3 & E). apply the_rule_ok in E3 as [-> E3].
  apply bind_ok in E as (? & ? & E2 & E). apply require_ok in E2 as [E2 ->].
  apply bind_ok in E as (? & ? & E4 & E). apply require_ok in E4 as [E4 ->].
  apply require_ok in E as [E _]. apply Nat.eqb_eq in E. apply negb_true_iff in E4.
  by exists e, r.
Qed.

(** One node that passed. *)
Lemma check_node_ok g n f : check_node n g = Ok (tt, g) -> local_faninout_map g !! n = Some f ->
  (forall w i, i ∈ get_pull_expr true w f -> check_node_up n i g = Ok (tt, g)) /\
  (forall w i, i ∈ get_pull_expr false w f -> check_node_dn n i g = Ok (tt, g)) /\
  (forall i, i ∈ f_fanout f -> exists gn j, expr_graph_node_pool g !! i = Some gn /\
     g_children gn !! j = Some (true, n)).
Proof.
  unfold check_node. intros E Hf.
  apply bind_ok in E as (? & ? & E1 & E). apply gets_ok in E1 as [-> ->].
  apply bind_ok in E as (? & ? & E1 & E). apply require_ok in E1 as [_ ->].
  apply bind_ok in E as (f0 & ? & E1 & E). apply get_faninout_ok in E1 as [E1 ->].
  assert (f0 = f) as -> by congruence.
  apply bind_ok in E as ([] & ? & E2 & E).
  apply for_each_ok in E2 as [-> Hk]; [|solve_readonly].
  assert (Hpull : forall w,
    (forall i, i ∈ get_pull_expr true w f -> check_node_up n i g = Ok (tt, g)) /\
    (forall i, i ∈ get_pull_expr false w f -> check_node_dn n i g = Ok (tt, g))).
  { intros w. assert (w ∈ [NORMAL_RULE; WEAK_RULE]) as Hw by (destruct w; set_solver).
    pose proof (Hk w Hw) as Ew. apply bind_ok in Ew as ([] & ? & Eu & Ed).
    apply for_each_ok in Eu as [-> Hu]; [|solve_readonly].
    apply for_each_ok in Ed as [_ Hd]; [|solve_readonly]. done. }
  split_and!; [intros w; apply (Hpull w)|intros w; apply (Hpull w)|].
  apply for_each_ok in E as [_ Hfan]; [|solve_readonly].
  intros i Hi. pose proof (Hfan i Hi) as Ei.
  apply bind_ok in Ei as (gn & ? & Eg & Ei). apply get_graph_node_ok in Eg as [Eg ->].
  apply require_ok in Ei as [Ei _]. unfold contains_node_fanin in Ei.
  apply existsb_exists in Ei as ([b k] & Hin & Eb). destruct b; [|done]. cbn in Eb.
  apply Nat.eqb_eq in Eb as ->. apply list_elem_of_In, list_elem_of_lookup in Hin as [j Hj].
  by exists gn, j.
Qed.

Lemma check_structure_inv g g' : check_structure g = Ok (tt, g') ->
  g' = g /\ length (expr_pool g) = length (expr_graph_node_pool g) /\
  (forall i, (i < length (expr_pool g))%nat -> check_expr i g = Ok (tt, g)) /\
  (forall n, (n < length (local_faninout_map g))%nat -> check_node n g = Ok (tt, g)).
Proof.
  unfold check_structure. intros E.
  apply bind_ok in E as (? & ? & E1 & E). apply gets_ok in E1 as [-> ->].
  apply bind_ok in E as (? & ? & E1 & E). apply require_ok in E1 as [E1 ->].
  apply Nat.eqb_eq in E1.
  apply bind_ok in E as ([] & ? & E2 & E).
  apply for_each_ok in E2 as [-> H2]; [|solve_readonly].
  apply for_each_ok in E as [-> H3]; [|solve_readonly].
  split_and!; [done|done| |].
  - intros i Hi. apply H2. apply elem_of_seq. cbn. lia.
  - intros n Hn. apply H3. apply elem_of_seq. cbn. lia.
Qed.

Lemma check_structure_wf g g' : check_structure g = Ok (tt, g') -> wf_graph g.
Proof.
  intros E. apply check_structure_inv in E as (_ & Hlen & Hexpr & Hnode).
  assert (Hce : forall i e, expr_pool g !! i = Some e -> wiped e = false ->
    exists gn, expr_graph_node_pool g !! i = Some gn /\ check_expr i g = Ok (tt, g)).
  { intros i e He _. pose proof (lookup_lt_Some _ _ _ He) as Hi.
    destruct (lookup_lt_is_Some_2 (expr_graph_node_pool g) i) as [gn Hg]; [lia|].
    exists gn. split; [done|by apply Hexpr]. }
  assert (Hcn : forall n f, local_faninout_map g !! n = Some f -> check_node n g = Ok (tt, g)).
  { intros n f Hf. apply Hnode. by eapply lookup_lt_Some. }
  assert (Hchild : forall i j c, child_at g i j c -> exists gn,
    expr_graph_node_pool g !! i = Some gn /\ g_children gn !! j = Some c /\
    check_expr_child i gn j g = Ok (tt, g)).
  { intros i j c (e & gn & He & Hg & Hw & Hj). destruct (Hce i e He Hw) as (_ & _ & Hc).
    destruct (check_expr_ok _ _ _ _ Hc He Hg Hw) as (_ & _ & _ & _ & _ & _ & Hall).
    exists gn. split_and!; [done|done|]. apply Hall. by eapply lookup_lt_Some. }
  split.
  - done.
  - intros i e gn He Hg Hw. destruct (Hce i e He Hw) as (_ & _ & Hc).
    by destruct (check_expr_ok _ _ _ _ Hc He Hg Hw) as (_ & _ & _ & _ & _ & Hsz & _).
  - intros i e He Hw Hr. destruct (Hce i e He Hw) as (gn & Hg & Hc).
    destruct (check_expr_ok _ _ _ _ Hc He Hg Hw) as (r & g1 & g2 & _ & Hin & _).
    rewrite Hr in Hin. apply check_expr_inner_ok in Hin as (pn & Hp & Hpc). by exists pn, gn.
  - intros i j k Hc. destruct (Hchild i j _ Hc) as (gn & Hg & Hj & Hck).
    apply check_expr_child_ok in Hck. by rewrite Hj in Hck.
  - intros i j n Hc. destruct (Hchild i j _ Hc) as (gn & Hg & Hj & Hck).
    apply check_expr_child_ok in Hck. by rewrite Hj in Hck.
  - intros i e He Hw Hr. destruct (Hce i e He Hw) as (gn & Hg & Hc).
    destruct (check_expr_ok _ _ _ _ Hc He Hg Hw) as (r & g1 & g2 & Hrule & Hin & _).
    rewrite Hr in Hin. apply lookup_rule_ok in Hrule as [-> Hrule].
    destruct r as [r|]; cbn [negb when] in Hin.
    + destruct (is_invariant r) eqn:Hinv; [left; by exists r|right].
      apply check_expr_root_ok in Hin as (r' & f & [= <-] & Hf & Hcnt). by exists r, f.
    + by apply check_expr_root_ok in Hin as (r' & f & [=] & _).
  - intros n f i Hf Hi. by apply (check_node_ok g n f (Hcn n f Hf) Hf).
  - intros n f b w i Hf Hi Hne.
    destruct (check_node_ok g n f (Hcn n f Hf) Hf) as (Hu & Hd & _).
    destruct b; [eapply check_node_up_ok|eapply check_node_dn_ok]; eauto.
Qed.

(** ** Climbing to a root *)

(** The parent link of an expression that is not a root. *)
Definition parent_of (g : unique_process_subgraph) (i p : nat) : Prop :=
  exists e, expr_pool g !! i = Some e /\ is_root e = false /\ e_parent e = p.

(** [root_dist g i d]: [d] parent links lead from [i] to a root. *)
Inductive root_dist (g : unique_process_subgraph) : nat -> nat -> nat -> Prop :=
  | root_here i e : expr_pool g !! i = Some e -> is_root e = true -> root_dist g i i 0
  | root_up i p r d : parent_of g i p -> root_dist g p r d -> root_dist g i r (S d).

Lemma root_dist_fun g i r d r' d' : root_dist g i r d -> root_dist g i r' d' -> r = r' /\ d = d'.
Proof.
  intros H. revert r' d'. induction H as [i e He Hr|i p r d (e & He & Hr & Hp) Hd IH];
    intros r' d' H'; inversion H' as [? e' He' Hr'|? p' ? d'' (e' & He' & Hr' & Hp') Hd'];
    subst; rewrite He in He'; injection He' as <-; try congruence; [done|].
  destruct (IH _ _ Hd') as [-> ->]. done.
Qed.

Lemma local_root_expr_spec g i r d fuel : root_dist g i r d -> (d < fuel)%nat ->
  local_root_expr fuel i g = Ok (r, g).
Proof.
  intros H. revert fuel. induction H as [i e He Hr|i p r d (e & He & Hr & Hp) Hd IH];
    intros [|fuel] Hf; try lia; cbn [local_root_expr]; unfold bind, get_expr, gets, of_option;
    cbn; rewrite He; cbn; rewrite Hr; [done|]. rewrite Hp. apply IH. lia.
Qed.

(** A chain of parents visits every expression at most once. *)
Lemma root_dist_chain g i r d : root_dist g i r d ->
  exists l, length l = S d /\ NoDup l /\ (forall x, x ∈ l -> (x < length (expr_pool g))%nat) /\
    (forall x, x ∈ l -> exists d', (d' <= d)%nat /\ root_dist g x r d').
Proof.
  induction 1 as [i e He Hr|i p r d Hp Hd (l & Hl & Hnd & Hlt & Hall)].
  - exists [i]. split_and!; [done|apply NoDup_singleton| |]; intros x Hx;
      apply list_elem_of_singleton in Hx as ->; [by eapply lookup_lt_Some|].
    exists 0%nat. split; [lia|by eapply root_here].
  - exists (i :: l). pose proof (root_up g _ _ _ _ Hp Hd) as Hi.
    split_and!; [cbn; lia| | |].
    + constructor; [|done]. intros Hin. destruct (Hall i Hin) as (d' & Hle & Hd').
      destruct (root_dist_fun _ _ _ _ _ _ Hi Hd') as [_ <-]. lia.
    + intros x Hx. apply elem_of_cons in Hx as [->|Hx]; [|by apply Hlt].
      destruct Hp as (e & He & _). by eapply lookup_lt_Some.
    + intros x Hx. apply elem_of_cons in Hx as [->|Hx].
      * exists (S d). split; [lia|done].
      * destruct (Hall x Hx) as (d' & ? & ?). exists d'. split; [lia|done].
Qed.

Lemma root_dist_bound g i r d : root_dist g i r d -> (d < length (expr_pool g))%nat.
Proof.
  intros H. destruct (root_dist_chain g i r d H) as (l & Hl & Hnd & Hlt & _).
  assert (length l <= length (seq 0 (length (expr_pool g))))%nat as Hle.
  { apply submseteq_length, NoDup_submseteq; [done|]. intros x Hx. apply elem_of_seq.
    pose proof (Hlt x Hx). lia. }
  rewrite length_seq in Hle. lia.
Qed.

Lemma follow_expr_to_root_spec g i r d ri : root_dist g i r d ->
  m_find r (rule_map g) = Some ri -> follow_expr_to_root i g = Ok (ri, g).
Proof.
  intros Hd Hri. unfold follow_expr_to_root, bind, gets, id. cbv beta iota.
  pose proof (root_dist_bound _ _ _ _ Hd).
  rewrite (local_root_expr_spec g i r d) by (done || lia). by rewrite Hri.
Qed.

(** ** Properties *)

(** a process graph that passes the source's own [check_structure] is
    well formed: sizes match the children, every inner expression is its
    parent's child at its offset and conversely, nodes and expressions list
    each other as fanout and fanin, and every root pulls its node in its
    rule's direction (or is an invariant); and the check changes nothing. *)
Theorem check_structure_sound g g' :
  check_structure g = Ok (tt, g') -> wf_graph g /\ g' = g.
Proof.
  intros E. split; [by eapply check_structure_wf|]. by apply check_structure_inv in E as [-> _].
Qed.

(** A process with nodes 0, 1, 2 and the rule ~(0 & 1) -> 2+ over an AND
    expression 0 below a root 1. *)
Definition nand_graph : unique_process_subgraph :=
  mkGraph [mkExpr 1 EXPR_AND 2; mkExpr 2 (Z.lor EXPR_NOT EXPR_ROOT) 1]
    [mkExprGraphNode 0 [(true, 0%nat); (true, 1%nat)]; mkExprGraphNode 255 [(false, 0%nat)]]
    [set_direction true (Rule_make real_default_delay)] [(1, 0)%nat] []
    [mkFaninout [] [] [] [] [0%nat] false; mkFaninout [] [] [] [] [0%nat] false;
     mkFaninout [1%nat] [] [] [] [] false]
    [] [] [].

Lemma check_structure_sound_witness : wf_graph nand_graph /\ nand_graph = nand_graph.
Proof. apply (check_structure_sound nand_graph nand_graph). vm_compute. reflexivity. Defined.

(** whenever a chain of parent links leads from an expression to a root
    with a rule, [follow_expr_to_root] returns that rule: the climb never
    needs more steps than there are expressions. *)
Theorem follow_expr_to_root_total g i r d ri :
  root_dist g i r d -> m_find r (rule_map g) = Some ri ->
  follow_expr_to_root i g = Ok (ri, g) /\ (d < length (expr_pool g))%nat.
Proof. intros Hd Hr. split; [by eapply follow_expr_to_root_spec|by eapply root_dist_bound]. Qed.

Lemma follow_expr_to_root_total_witness :
  follow_expr_to_root 0 nand_graph = Ok (0%nat, nand_graph) /\
  (1 < length (expr_pool nand_graph))%nat.
Proof.
  apply (follow_expr_to_root_total nand_graph 0 1 1 0); [|reflexivity].
  eapply root_up; [by eexists|]. by eapply root_here.
Defined.

(** The guard and the fanout of a rule meet in [rules_matching_faninout]:
    when the two searches it makes succeed, its result is the ascending list
    of exactly the rules that occur in both. *)
Theorem rules_matching_faninout_spec g lns lnd ddir l1 l2 :
  rules_matching_fanin lnd ddir g = Ok (l1, g) -> rules_matching_fanout lns g = Ok (l2, g) ->
  exists l, rules_matching_faninout lns lnd ddir g = Ok (l, g) /\
    forall r, r ∈ l <-> r ∈ l1 /\ r ∈ l2.
Proof.
  intros H1 H2. exists (s_inter l1 l2). unfold rules_matching_faninout, bind. rewrite H1, H2.
  split; [done|]. intros r. apply elem_of_s_inter.
Qed.

Lemma rules_matching_faninout_spec_witness :
  exists l, rules_matching_faninout 1 3 true nand_graph = Ok (l, nand_graph) /\
    forall r, r ∈ l <-> r ∈ [0%nat] /\ r ∈ [0%nat].
Proof.
  apply (rules_matching_faninout_spec nand_graph 1 3 true [0%nat] [0%nat]); reflexivity.
Defined.
