(* ===== verification/Strings.v ===== *)
(** Strings: "util/string.tcc", "util/string.cc" and "util/tokenize.cc", as far
    as the simulator reads commands, numbers and lists of values with them.
    The C++ library's input of integers is modelled, that of floating-point
    numbers is a parameter of the definitions that use it. *)
From S2P Require Import Prelude.
From Stdlib Require Export String Ascii.
Open Scope Z_scope.
#[local] Abbreviation length := Datatypes.length.

(** ** Numbers

    [string_to_num] for an integer type of [w] bits: decimal, or hexadecimal
    after "0x"; what follows the number is not looked at. *)
Definition digit_of (c : ascii) : Z :=
  let n := Z.of_nat (nat_of_ascii c) in
  if (48 <=? n) && (n <=? 57) then n - 48
  else if (97 <=? n) && (n <=? 102) then n - 87
  else if (65 <=? n) && (n <=? 70) then n - 55 else 16.
Fixpoint read_number (base : Z) (s : string) (acc : option Z) : option Z :=
  match s with
  | String c s' =>
      if digit_of c <? base
      then read_number base s' (Some (base * match acc with Some a => a | None => 0 end + digit_of c))
      else acc
  | EmptyString => acc
  end.
Definition in_range (w : Z) (sgn neg : bool) (v : Z) : option Z :=
  let z := if neg then - v else v in
  if sgn then if (- 2 ^ (w - 1) <=? z) && (z <? 2 ^ (w - 1)) then Some z else None
  else if neg then None else if z <? 2 ^ w then Some z else None.
Definition string_to_int (w : Z) (sgn : bool) (s : string) : option Z :=
  let read base neg t :=
    match read_number base t None with Some v => in_range w sgn neg v | None => None end in
  match s with
  | String "0" (String "x" t) => read 16 false t
  | String "-" t => read 10 true t
  | String "+" t => read 10 false t
  | _ => read 10 false s
  end%char.
Definition string_to_integer : bool -> string -> option Z := string_to_int 64.
(** For [bool], which is unsigned. *)
Definition string_to_bool (s : string) : option bool :=
  match s with
  | String "-" _ => None
  | _ => match string_to_integer true s with
         | Some 0 => Some false
         | Some 1 => Some true
         | _ => None
         end
  end%char.

(** ** Prefixes *)
Fixpoint strip_one (pre s : string) : option string :=
  match pre, s with
  | EmptyString, _ => Some s
  | String a pre', String b s' => if Ascii.eqb a b then strip_one pre' s' else None
  | String _ _, EmptyString => None
  end.
(** [strip_prefix] with the number of occurrences that it removes; it does not
    return for the empty prefix. *)
Fixpoint strip_prefix_loop (fuel : nat) (t pre : string) : option (string * nat) :=
  match fuel with
  | O => None
  | S fuel' =>
      match strip_one pre t with
      | None => Some (t, 0%nat)
      | Some t' =>
          match strip_prefix_loop fuel' t' pre with
          | Some (r, n) => Some (r, S n)
          | None => None
          end
      end
  end.
Definition strip_prefix (t pre : string) : option (string * nat) :=
  strip_prefix_loop (S (String.length t)) t pre.

(** ** Tokens *)
Definition is_space (c : ascii) : bool :=
  let n := nat_of_ascii c in Nat.eqb n 32 || (Nat.leb 9 n && Nat.leb n 13).
Fixpoint eat_whitespace (s : string) : string :=
  match s with String c s' => if is_space c then eat_whitespace s' else s | EmptyString => s end.

(** [tokenize] at any of the characters [delim]; as it does by default, at
    spaces, tabs and ends of line. *)
Definition is_delim (delim : list ascii) (c : ascii) : bool := existsb (Ascii.eqb c) delim.
Fixpoint split_delims (delim : list ascii) (s cur : string) : list string :=
  match s with
  | EmptyString => [cur]
  | String c s' =>
      if is_delim delim c then cur :: split_delims delim s' EmptyString
      else split_delims delim s' (cur ++ String c EmptyString)%string
  end.
Definition nonempty (t : string) : bool := negb (String.eqb t EmptyString).
Definition tokenize_at (delim : list ascii) (s : string) : list string :=
  List.filter nonempty (map eat_whitespace (split_delims delim s EmptyString)).
Definition default_delim : list ascii := [" "; "009"; "010"]%char.
Definition tokenize : string -> list string := tokenize_at default_delim.

Fixpoint tokenize_char (s : string) (c : ascii) : list string :=
  match s with
  | EmptyString => [EmptyString]
  | String a s' =>
      let l := tokenize_char s' c in
      if Ascii.eqb a c then EmptyString :: l
      else match l with t :: l' => String a t :: l' | [] => [String a EmptyString] end
  end.

(** The longest prefix of characters that satisfy [p], and the rest. *)
Fixpoint span (p : ascii -> bool) (s : string) : string * string :=
  match s with
  | String c s' => if p c then let r := span p s' in (String c r.1, r.2) else (EmptyString, s)
  | EmptyString => (EmptyString, EmptyString)
  end.
Definition string_tail (s : string) : string := match s with String _ s' => s' | EmptyString => s end.

(** At single occurrences of [d]: longer runs of [d] stay in their token. *)
Fixpoint single_char_loop (fuel : nat) (s : string) (d : ascii) : list string :=
  match fuel, s with
  | O, _ | _, EmptyString => []
  | S fuel', _ =>
      let '(x, r) := span (fun c => negb (Ascii.eqb c d)) s in
      let '(ds, r') := span (fun c => Ascii.eqb c d) r in
      if String.eqb r EmptyString then [s]
      else if String.eqb r' EmptyString then [x]
      else if Nat.ltb 1 (String.length ds) then
        let '(y, r'') := span (fun c => negb (Ascii.eqb c d)) r' in
        if String.eqb r'' EmptyString then [s]
        else (x ++ ds ++ y)%string :: single_char_loop fuel' (string_tail r'') d
      else x :: single_char_loop fuel' r' d
  end.
Definition tokenize_single_char_only (s : string) (d : ascii) : list string :=
  single_char_loop (String.length s) s d.

(** [string::find] of a character. *)
Fixpoint find_char (s : string) (c : ascii) : option nat :=
  match s with
  | EmptyString => None
  | String a s' => if Ascii.eqb a c then Some 0%nat else S <$> find_char s' c
  end.
Definition tolower (c : ascii) : ascii :=
  let n := nat_of_ascii c in if Nat.leb 65 n && Nat.leb n 90 then ascii_of_nat (n + 32) else c.
