(* ===== verification/Directory.v ===== *)
(** The working directory of the command interpreter: "util/directory.cc".
    A directory is the name of a process, as a string of names separated by
    [separator]; the stack is never empty. *)
From S2P Require Import Prelude Strings.
Open Scope Z_scope.
Local Open Scope hackt_scope.
#[local] Abbreviation length := Datatypes.length.

(** ** Data and operations *)
Record directory_stack : Type := mkDirs {
  dir_stack : list string;            (* its back is the head of the list *)
  absolute_prefix : string;
  separator : string;
  this_dir_string : string;
  parent_dir_string : string;
  parent_separator : string
}.
Definition put_dir_stack (l : list string) (d : directory_stack) : directory_stack :=
  mkDirs l (absolute_prefix d) (separator d) (this_dir_string d) (parent_dir_string d) (parent_separator d).
Definition reset_directories : directory_stack -> directory_stack := put_dir_stack [""%string].
Definition directory_stack_empty : directory_stack :=
  reset_directories (mkDirs [] "::" "." "." ".." "/").
Definition set_separator (c : ascii) (d : directory_stack) : directory_stack :=
  mkDirs (dir_stack d) (absolute_prefix d) (String c EmptyString) (this_dir_string d)
    (parent_dir_string d) (parent_separator d).

Definition current_working_directory (d : directory_stack) : res string :=
  match dir_stack d with [] => Err F_assert | s :: _ => Ok s end.

Definition glue (sep : string) (toks : list string) : string :=
  match toks with
  | [] => EmptyString
  | t :: l => fold_left (fun cur u => cur ++ sep ++ u)%string l t
  end.
(** One part of a relative path; [toks] is reversed. *)
Definition relative_step (d : directory_stack) (toks : list string) (i : string) : list string :=
  if String.eqb i (parent_dir_string d) then match toks with [] => [] | _ :: l => l end
  else if String.eqb i (this_dir_string d) then toks
  else rev (if Nat.ltb 1 (String.length (separator d))
            then tokenize_at (list_ascii_of_string (separator d)) i
            else match separator d with
                 | String c _ => tokenize_single_char_only i c
                 | EmptyString => tokenize_single_char_only i "000"%char
                 end) ++ toks.
(** The directory that [rel] is, from [cur]; [None] when an empty absolute
    prefix is stripped for ever. *)
Definition __change_directory (d : directory_stack) (cur rel : string) : option string :=
  if String.eqb rel EmptyString then Some cur
  else
    match strip_prefix rel (absolute_prefix d) with
    | None => None
    | Some (rel', S _) => Some rel'
    | Some (_, O) =>
        if String.eqb rel (this_dir_string d) then Some cur
        else
          let toks := tokenize_at (list_ascii_of_string (separator d)) cur in
          let rtoks := tokenize_at (list_ascii_of_string (parent_separator d)) rel in
          Some (glue (separator d) (rev (fold_left (relative_step d) rtoks (rev toks))))
    end.

Definition DM : Type -> Type := M directory_stack.
Definition change_directory (_rel : string) : DM unit :=
  d <- gets id ;;
  match dir_stack d with
  | [] => fail F_assert
  | cur :: l =>
      cur' <- of_option F_fuel (__change_directory d cur _rel) ;;
      modify (put_dir_stack (cur' :: l))
  end.
Definition push_directory (_rel : string) : DM unit :=
  d <- gets id ;;
  match dir_stack d with
  | [] => fail F_assert
  | cur :: l => modify (put_dir_stack (cur :: cur :: l)) ;;; change_directory _rel
  end.
(** Whether the stack would become empty. *)
Definition pop_directory : DM bool :=
  d <- gets id ;;
  match dir_stack d with
  | _ :: (_ :: _) as l => modify (put_dir_stack l) ;;; ret false
  | _ => ret true
  end.
Definition transform (n : string) (d : directory_stack) : res string :=
  match current_working_directory d with
  | Ok cwd => match __change_directory d cwd n with Some s => Ok s | None => Err F_fuel end
  | Err f => Err f
  end.
