(* ===== verification/State.v ===== *)
(** The simulator's state: "sim/prsim/State-prsim.hh", with the error policies
    of "sim/command_error_codes.hh", the exceptions of
    "sim/prsim/Exception.hh" and the timing fanin of
    "sim/prsim/DelayBackAnnotation.hh".

    [State] has one field per data member that the simulation reads or
    writes.  The channel manager is a component of its own, of which the
    simulator uses the interface [ChannelManager] (in Step.v); its state is
    the parameter [C].  What lies outside of the sources, the C library's two
    random generators and its logarithm, is the class [Env]; the state keeps
    the position in each generator's sequence. *)
From S2P Require Import Prelude SimTime PullSet Expr EventQueue ArrayPool OrdMap Node ProcGraph.
Open Scope Z_scope.
Local Open Scope hackt_scope.
#[local] Abbreviation length := Datatypes.length.

(** ** command_error_codes.hh *)
Inductive error_policy_enum : Set :=
  | ERROR_NONE          (* = ERROR_IGNORE = 0 *)
  | ERROR_WARN          (* = ERROR_NOTIFY = 1 *)
  | ERROR_BREAK         (* 2 *)
  | ERROR_INTERACTIVE   (* 3 *)
  | ERROR_FATAL.        (* 4 *)
Abbreviation ERROR_IGNORE := ERROR_NONE.
#[export] Instance error_policy_enum_eq_dec : EqDecision error_policy_enum.
Proof. solve_decision. Defined.

Definition policy_code (e : error_policy_enum) : nat :=
  match e with
  | ERROR_NONE => 0 | ERROR_WARN => 1 | ERROR_BREAK => 2
  | ERROR_INTERACTIVE => 3 | ERROR_FATAL => 4
  end.
(** [a >= b], and [if (E > err) err = E]. *)
Definition policy_ge (a b : error_policy_enum) : bool := Nat.leb (policy_code b) (policy_code a).
Definition policy_gt (a b : error_policy_enum) : bool := Nat.ltb (policy_code b) (policy_code a).
Definition policy_max (err e : error_policy_enum) : error_policy_enum :=
  if policy_gt e err then e else err.
Definition policy_ignored (e : error_policy_enum) : bool := bool_decide (e = ERROR_IGNORE).

(** ** Exceptions *)
Inductive step_exception : Type :=
  | excl_exception (hi : bool) (lock_id node_id : nat)
  | invariant_exception (node_id : nat) (policy : error_policy_enum)
  | interference_exception (node_id : nat) (policy : error_policy_enum)
  | instability_exception (node_id : nat) (policy : error_policy_enum)
  | keeper_fail_exception (node_id : nat) (policy : error_policy_enum)
  | channel_exception (chan index iteration : nat) (expect got : Z) (got_x : bool)
  | timing_exception (reference node_id : nat) (tvalue : value_enum) (dir is_setup : bool)
      (pid : nat) (min_delay : real_time) (policy : error_policy_enum).

(** ** Simulation flags *)
Definition FLAG_UNSTABLE_DEQUEUE : Z := 1.
Definition FLAG_STOP_SIMULATION : Z := 2.
Definition FLAG_ESTIMATE_ENERGY : Z := 4.
Definition FLAG_SHOW_CAUSE : Z := 8.
Definition FLAG_WATCHALL : Z := 16.
Definition FLAG_SHOW_TCOUNTS : Z := 32.
Definition FLAG_CHECK_EXCL : Z := 64.
Definition FLAG_RANDOM_FANOUT_EVALUATION_ORDERING : Z := 128.
Definition FLAG_WATCH_QUEUE : Z := 256.
Definition FLAG_WATCHALL_QUEUE : Z := 512.
Definition FLAG_WEAK_RULES : Z := 1024.
Definition FLAG_HIDE_WEAK_RULES : Z := 2048.
Definition FLAG_AUTOSAVE : Z := 4096.
Definition FLAG_CONFIRM_ASSERTS : Z := 8192.
Definition FLAG_FROZEN_VERBOSE : Z := 16384.
Definition FLAG_TRACE_ON : Z := 32768.
Definition FLAG_VCD_ON : Z := 65536.
Definition FLAG_EXCL_UNSTABLE_DEQUEUE : Z := 131072.
Definition FLAG_STOP_ON_VACUOUS : Z := 262144.
Definition FLAG_MIN_DELAY_VERBOSE : Z := 524288.
Definition FLAGS_DEFAULT : Z := Z.lor FLAG_CHECK_EXCL FLAG_SHOW_CAUSE.
Definition FLAGS_INITIALIZE_SET_MASK : Z := 0.
Definition FLAGS_INITIALIZE_CLEAR_MASK : Z := FLAG_STOP_SIMULATION.

Inductive timing_enum : Set :=
  | TIMING_AFTER | TIMING_UNIFORM | TIMING_RANDOM | TIMING_BINARY | TIMING_BOUNDED.
Definition TIMING_DEFAULT : timing_enum := TIMING_UNIFORM.

(** ** Parts of the state *)

(** [count] is a signed 8-bit char. *)
Record ring_counter_state : Type := mkRing { elems : list nat; count : Z }.
Definition ring_empty : ring_counter_state := mkRing [] 0.
Definition char_wrap (z : Z) : Z := wrap 8 (z + 128) - 128.

Record node_update_info : Type := mkUpdate {
  rule_index : nat;
  rule_ptr : option rule_ref;
  old_pull_set : pull_set;
  excl_blocked : bool
}.
Definition pull_set_empty : pull_set := mk_pull_set PULL_OFF PULL_OFF PULL_OFF PULL_OFF.
Definition node_update_info_empty : node_update_info :=
  mkUpdate INVALID_RULE_INDEX None pull_set_empty false.
Definition set_excl_blocked (b : bool) (u : node_update_info) : node_update_info :=
  mkUpdate (rule_index u) (rule_ptr u) (old_pull_set u) b.

Record policy_state : Type := mkPolicies {
  invariant_fail_policy : error_policy_enum;
  invariant_unknown_policy : error_policy_enum;
  unstable_policy : error_policy_enum;
  weak_unstable_policy : error_policy_enum;
  excl_unstable_policy : error_policy_enum;
  interference_policy : error_policy_enum;
  weak_interference_policy : error_policy_enum;
  assert_fail_policy : error_policy_enum;
  channel_expect_fail_policy : error_policy_enum;
  excl_check_fail_policy : error_policy_enum;
  keeper_check_fail_policy : error_policy_enum;
  setup_violation_policy : error_policy_enum;
  hold_violation_policy : error_policy_enum
}.

Definition set_invariant_fail_policy (x : error_policy_enum) (r : policy_state) : policy_state :=
  mkPolicies x (invariant_unknown_policy r) (unstable_policy r) (weak_unstable_policy
    r) (excl_unstable_policy r) (interference_policy r) (weak_interference_policy r)
    (assert_fail_policy r) (channel_expect_fail_policy r) (excl_check_fail_policy r)
    (keeper_check_fail_policy r) (setup_violation_policy r) (hold_violation_policy r).
Definition set_invariant_unknown_policy (x : error_policy_enum) (r : policy_state) : policy_state :=
  mkPolicies (invariant_fail_policy r) x (unstable_policy r) (weak_unstable_policy r)
    (excl_unstable_policy r) (interference_policy r) (weak_interference_policy r)
    (assert_fail_policy r) (channel_expect_fail_policy r) (excl_check_fail_policy r)
    (keeper_check_fail_policy r) (setup_violation_policy r) (hold_violation_policy r).
Definition set_unstable_policy (x : error_policy_enum) (r : policy_state) : policy_state :=
  mkPolicies (invariant_fail_policy r) (invariant_unknown_policy r) x
    (weak_unstable_policy r) (excl_unstable_policy r) (interference_policy r)
    (weak_interference_policy r) (assert_fail_policy r) (channel_expect_fail_policy r)
    (excl_check_fail_policy r) (keeper_check_fail_policy r) (setup_violation_policy r)
    (hold_violation_policy r).
Definition set_weak_unstable_policy (x : error_policy_enum) (r : policy_state) : policy_state :=
  mkPolicies (invariant_fail_policy r) (invariant_unknown_policy r) (unstable_policy
    r) x (excl_unstable_policy r) (interference_policy r) (weak_interference_policy r)
    (assert_fail_policy r) (channel_expect_fail_policy r) (excl_check_fail_policy r)
    (keeper_check_fail_policy r) (setup_violation_policy r) (hold_violation_policy r).
Definition set_excl_unstable_policy (x : error_policy_enum) (r : policy_state) : policy_state :=
  mkPolicies (invariant_fail_policy r) (invariant_unknown_policy r) (unstable_policy
    r) (weak_unstable_policy r) x (interference_policy r) (weak_interference_policy r)
    (assert_fail_policy r) (channel_expect_fail_policy r) (excl_check_fail_policy r)
    (keeper_check_fail_policy r) (setup_violation_policy r) (hold_violation_policy r).
Definition set_interference_policy (x : error_policy_enum) (r : policy_state) : policy_state :=
  mkPolicies (invariant_fail_policy r) (invariant_unknown_policy r) (unstable_policy
    r) (weak_unstable_policy r) (excl_unstable_policy r) x (weak_interference_policy
    r) (assert_fail_policy r) (channel_expect_fail_policy r) (excl_check_fail_policy
    r) (keeper_check_fail_policy r) (setup_violation_policy r) (hold_violation_policy
    r).
Definition set_weak_interference_policy (x : error_policy_enum) (r : policy_state) : policy_state :=
  mkPolicies (invariant_fail_policy r) (invariant_unknown_policy r) (unstable_policy
    r) (weak_unstable_policy r) (excl_unstable_policy r) (interference_policy r) x
    (assert_fail_policy r) (channel_expect_fail_policy r) (excl_check_fail_policy r)
    (keeper_check_fail_policy r) (setup_violation_policy r) (hold_violation_policy r).
Definition set_assert_fail_policy (x : error_policy_enum) (r : policy_state) : policy_state :=
  mkPolicies (invariant_fail_policy r) (invariant_unknown_policy r) (unstable_policy
    r) (weak_unstable_policy r) (excl_unstable_policy r) (interference_policy r)
    (weak_interference_policy r) x (channel_expect_fail_policy r)
    (excl_check_fail_policy r) (keeper_check_fail_policy r) (setup_violation_policy r)
    (hold_violation_policy r).
Definition set_channel_expect_fail_policy (x : error_policy_enum) (r : policy_state) : policy_state :=
  mkPolicies (invariant_fail_policy r) (invariant_unknown_policy r) (unstable_policy
    r) (weak_unstable_policy r) (excl_unstable_policy r) (interference_policy r)
    (weak_interference_policy r) (assert_fail_policy r) x (excl_check_fail_policy r)
    (keeper_check_fail_policy r) (setup_violation_policy r) (hold_violation_policy r).
Definition set_excl_check_fail_policy (x : error_policy_enum) (r : policy_state) : policy_state :=
  mkPolicies (invariant_fail_policy r) (invariant_unknown_policy r) (unstable_policy
    r) (weak_unstable_policy r) (excl_unstable_policy r) (interference_policy r)
    (weak_interference_policy r) (assert_fail_policy r) (channel_expect_fail_policy r)
    x (keeper_check_fail_policy r) (setup_violation_policy r) (hold_violation_policy
    r).
Definition set_keeper_check_fail_policy (x : error_policy_enum) (r : policy_state) : policy_state :=
  mkPolicies (invariant_fail_policy r) (invariant_unknown_policy r) (unstable_policy
    r) (weak_unstable_policy r) (excl_unstable_policy r) (interference_policy r)
    (weak_interference_policy r) (assert_fail_policy r) (channel_expect_fail_policy r)
    (excl_check_fail_policy r) x (setup_violation_policy r) (hold_violation_policy r).
Definition set_setup_violation_policy (x : error_policy_enum) (r : policy_state) : policy_state :=
  mkPolicies (invariant_fail_policy r) (invariant_unknown_policy r) (unstable_policy
    r) (weak_unstable_policy r) (excl_unstable_policy r) (interference_policy r)
    (weak_interference_policy r) (assert_fail_policy r) (channel_expect_fail_policy r)
    (excl_check_fail_policy r) (keeper_check_fail_policy r) x (hold_violation_policy
    r).
Definition set_hold_violation_policy (x : error_policy_enum) (r : policy_state) : policy_state :=
  mkPolicies (invariant_fail_policy r) (invariant_unknown_policy r) (unstable_policy
    r) (weak_unstable_policy r) (excl_unstable_policy r) (interference_policy r)
    (weak_interference_policy r) (assert_fail_policy r) (channel_expect_fail_policy r)
    (excl_check_fail_policy r) (keeper_check_fail_policy r) (setup_violation_policy r)
    x.

Definition default_policies : policy_state :=
  mkPolicies ERROR_BREAK ERROR_WARN ERROR_BREAK ERROR_WARN ERROR_BREAK ERROR_BREAK
    ERROR_WARN ERROR_FATAL ERROR_FATAL ERROR_FATAL ERROR_IGNORE ERROR_WARN ERROR_BREAK.

Record timing_state : Type := mkTiming {
  timing_mode : timing_enum;
  uniform_delay : real_time;
  default_after_min : real_time;
  default_after_max : real_time;
  timing_probability : real_time
}.

Definition set_timing_mode (x : timing_enum) (r : timing_state) : timing_state :=
  mkTiming x (uniform_delay r) (default_after_min r) (default_after_max r)
    (timing_probability r).
Definition set_uniform_delay (x : real_time) (r : timing_state) : timing_state :=
  mkTiming (timing_mode r) x (default_after_min r) (default_after_max r)
    (timing_probability r).
Definition set_default_after_min (x : real_time) (r : timing_state) : timing_state :=
  mkTiming (timing_mode r) (uniform_delay r) x (default_after_max r)
    (timing_probability r).
Definition set_default_after_max (x : real_time) (r : timing_state) : timing_state :=
  mkTiming (timing_mode r) (uniform_delay r) (default_after_min r) x
    (timing_probability r).
Definition set_timing_probability (x : real_time) (r : timing_state) : timing_state :=
  mkTiming (timing_mode r) (uniform_delay r) (default_after_min r) (default_after_max
    r) x.

(** A [state_trace_point], and the part of the trace and VCD managers that the
    simulation sees: what they number events with. *)
Record trace_point : Type := mkTracePoint {
  tp_time : real_time; tp_rule : nat; tp_cause : nat; tp_node : nat;
  tp_new : value_enum; tp_old : value_enum
}.
Record trace_state : Type := mkTrace {
  current_chunk : list trace_point;
  previous_events : nat;
  trace_flush_interval : Z   (* size_t *);
  vcd_last_time : real_time;
  vcd_event_count : nat
}.

Definition set_current_chunk (x : list trace_point) (r : trace_state) : trace_state :=
  mkTrace x (previous_events r) (trace_flush_interval r) (vcd_last_time r)
    (vcd_event_count r).
Definition set_previous_events (x : nat) (r : trace_state) : trace_state :=
  mkTrace (current_chunk r) x (trace_flush_interval r) (vcd_last_time r)
    (vcd_event_count r).
Definition set_trace_flush_interval (x : Z) (r : trace_state) : trace_state :=
  mkTrace (current_chunk r) (previous_events r) x (vcd_last_time r) (vcd_event_count
    r).
Definition set_vcd_last_time (x : real_time) (r : trace_state) : trace_state :=
  mkTrace (current_chunk r) (previous_events r) (trace_flush_interval r) x
    (vcd_event_count r).
Definition set_vcd_event_count (x : nat) (r : trace_state) : trace_state :=
  mkTrace (current_chunk r) (previous_events r) (trace_flush_interval r)
    (vcd_last_time r) x.

(** Positions in the sequences of [drand48] and [rand]. *)
Record rng_state : Type := mkRng { rng_rand48 : nat; rng_rand : nat }.

Class Env := {
  env_rand48 : nat -> real_time;                 (* drand48: uniform in [0,1) *)
  env_lrand48 : nat -> Z;                        (* lrand48: uniform in [0,2^31) *)
  env_garbage : real_time;                       (* a double that was never set *)
  env_log : real_time -> real_time;
  env_shuffle : nat -> list nat -> list nat;     (* std::random_shuffle *)
  env_GND : nat;                                 (* the node !GND of the module *)
  env_Vdd : nat                                  (* the node !Vdd *)
}.

(** ** State *)
Section StateDef.
Context {C : Type}.

Record State : Type := mkState {
  node_pool : list NodeState   (* entry 0 is not a node *);
  unique_process_pool : list unique_process_subgraph;
  global_expr_process_id_map : list (nat * nat)   (* first global expression -> process *);
  process_state_array : list process_sim_state;
  footprint_frames : list (list nat)   (* per process: local node -> global node *);
  event_pool : array_pool Event;
  event_queue : list (EventPlaceholder real_time);
  mk_exhi : list ring_counter_state;
  mk_exlo : list ring_counter_state;
  mk_exhi_counter_map : list (nat * list nat)   (* node -> its rings *);
  mk_exlo_counter_map : list (nat * list nat);
  __mk_excl_blocking_set : list nat;
  updated_nodes : list (nat * node_update_info);
  updated_nodes_queue : list nat;
  check_exhi_ring_pool : list bool   (* locks; entry 0 is reserved *);
  check_exlo_ring_pool : list bool;
  check_exhi : list (nat * list nat)   (* node -> its locks *);
  check_exlo : list (nat * list nat);
  setup_check_map : list (nat * list (nat * list nat))   (* node -> process -> local nodes *);
  hold_check_map : list (nat * list (nat * list nat));
  timing_fanin : list (nat * list nat)   (* node -> processes *);
  current_time : real_time;
  timing : timing_state;
  _channel_manager : C;
  flags : Z;
  policies : policy_state;
  tracing : trace_state;
  __atomic_updated_nodes : list (nat * value_enum)   (* with the first old value *);
  recent_exceptions : list step_exception;
  interrupted : bool;
  __keeper_check_candidates : list nat;
  __invariant_update_map : list ((nat * nat) * pull_enum);
  rng : rng_state;
  __shuffle_generation : nat   (* how often __shuffle_indices was cleared *);
  fast_weak_keepers : bool   (* of the ExprAllocFlags *)
}.

Definition put_node_pool (x : list NodeState) (r : State) : State :=
  mkState x (unique_process_pool r) (global_expr_process_id_map r)
    (process_state_array r) (footprint_frames r) (event_pool r) (event_queue r)
    (mk_exhi r) (mk_exlo r) (mk_exhi_counter_map r) (mk_exlo_counter_map r)
    (__mk_excl_blocking_set r) (updated_nodes r) (updated_nodes_queue r)
    (check_exhi_ring_pool r) (check_exlo_ring_pool r) (check_exhi r) (check_exlo r)
    (setup_check_map r) (hold_check_map r) (timing_fanin r) (current_time r) (timing
    r) (_channel_manager r) (flags r) (policies r) (tracing r) (__atomic_updated_nodes
    r) (recent_exceptions r) (interrupted r) (__keeper_check_candidates r)
    (__invariant_update_map r) (rng r) (__shuffle_generation r) (fast_weak_keepers r).
Definition put_unique_process_pool (x : list unique_process_subgraph) (r : State) : State :=
  mkState (node_pool r) x (global_expr_process_id_map r) (process_state_array r)
    (footprint_frames r) (event_pool r) (event_queue r) (mk_exhi r) (mk_exlo r)
    (mk_exhi_counter_map r) (mk_exlo_counter_map r) (__mk_excl_blocking_set r)
    (updated_nodes r) (updated_nodes_queue r) (check_exhi_ring_pool r)
    (check_exlo_ring_pool r) (check_exhi r) (check_exlo r) (setup_check_map r)
    (hold_check_map r) (timing_fanin r) (current_time r) (timing r) (_channel_manager
    r) (flags r) (policies r) (tracing r) (__atomic_updated_nodes r)
    (recent_exceptions r) (interrupted r) (__keeper_check_candidates r)
    (__invariant_update_map r) (rng r) (__shuffle_generation r) (fast_weak_keepers r).
Definition put_global_expr_process_id_map (x : list (nat * nat)) (r : State) : State :=
  mkState (node_pool r) (unique_process_pool r) x (process_state_array r)
    (footprint_frames r) (event_pool r) (event_queue r) (mk_exhi r) (mk_exlo r)
    (mk_exhi_counter_map r) (mk_exlo_counter_map r) (__mk_excl_blocking_set r)
    (updated_nodes r) (updated_nodes_queue r) (check_exhi_ring_pool r)
    (check_exlo_ring_pool r) (check_exhi r) (check_exlo r) (setup_check_map r)
    (hold_check_map r) (timing_fanin r) (current_time r) (timing r) (_channel_manager
    r) (flags r) (policies r) (tracing r) (__atomic_updated_nodes r)
    (recent_exceptions r) (interrupted r) (__keeper_check_candidates r)
    (__invariant_update_map r) (rng r) (__shuffle_generation r) (fast_weak_keepers r).
Definition put_process_state_array (x : list process_sim_state) (r : State) : State :=
  mkState (node_pool r) (unique_process_pool r) (global_expr_process_id_map r) x
    (footprint_frames r) (event_pool r) (event_queue r) (mk_exhi r) (mk_exlo r)
    (mk_exhi_counter_map r) (mk_exlo_counter_map r) (__mk_excl_blocking_set r)
    (updated_nodes r) (updated_nodes_queue r) (check_exhi_ring_pool r)
    (check_exlo_ring_pool r) (check_exhi r) (check_exlo r) (setup_check_map r)
    (hold_check_map r) (timing_fanin r) (current_time r) (timing r) (_channel_manager
    r) (flags r) (policies r) (tracing r) (__atomic_updated_nodes r)
    (recent_exceptions r) (interrupted r) (__keeper_check_candidates r)
    (__invariant_update_map r) (rng r) (__shuffle_generation r) (fast_weak_keepers r).
Definition put_footprint_frames (x : list (list nat)) (r : State) : State :=
  mkState (node_pool r) (unique_process_pool r) (global_expr_process_id_map r)
    (process_state_array r) x (event_pool r) (event_queue r) (mk_exhi r) (mk_exlo r)
    (mk_exhi_counter_map r) (mk_exlo_counter_map r) (__mk_excl_blocking_set r)
    (updated_nodes r) (updated_nodes_queue r) (check_exhi_ring_pool r)
    (check_exlo_ring_pool r) (check_exhi r) (check_exlo r) (setup_check_map r)
    (hold_check_map r) (timing_fanin r) (current_time r) (timing r) (_channel_manager
    r) (flags r) (policies r) (tracing r) (__atomic_updated_nodes r)
    (recent_exceptions r) (interrupted r) (__keeper_check_candidates r)
    (__invariant_update_map r) (rng r) (__shuffle_generation r) (fast_weak_keepers r).
Definition put_event_pool (x : array_pool Event) (r : State) : State :=
  mkState (node_pool r) (unique_process_pool r) (global_expr_process_id_map r)
    (process_state_array r) (footprint_frames r) x (event_queue r) (mk_exhi r)
    (mk_exlo r) (mk_exhi_counter_map r) (mk_exlo_counter_map r)
    (__mk_excl_blocking_set r) (updated_nodes r) (updated_nodes_queue r)
    (check_exhi_ring_pool r) (check_exlo_ring_pool r) (check_exhi r) (check_exlo r)
    (setup_check_map r) (hold_check_map r) (timing_fanin r) (current_time r) (timing
    r) (_channel_manager r) (flags r) (policies r) (tracing r) (__atomic_updated_nodes
    r) (recent_exceptions r) (interrupted r) (__keeper_check_candidates r)
    (__invariant_update_map r) (rng r) (__shuffle_generation r) (fast_weak_keepers r).
Definition put_event_queue (x : list (EventPlaceholder real_time)) (r : State) : State :=
  mkState (node_pool r) (unique_process_pool r) (global_expr_process_id_map r)
    (process_state_array r) (footprint_frames r) (event_pool r) x (mk_exhi r) (mk_exlo
    r) (mk_exhi_counter_map r) (mk_exlo_counter_map r) (__mk_excl_blocking_set r)
    (updated_nodes r) (updated_nodes_queue r) (check_exhi_ring_pool r)
    (check_exlo_ring_pool r) (check_exhi r) (check_exlo r) (setup_check_map r)
    (hold_check_map r) (timing_fanin r) (current_time r) (timing r) (_channel_manager
    r) (flags r) (policies r) (tracing r) (__atomic_updated_nodes r)
    (recent_exceptions r) (interrupted r) (__keeper_check_candidates r)
    (__invariant_update_map r) (rng r) (__shuffle_generation r) (fast_weak_keepers r).
Definition put_mk_exhi (x : list ring_counter_state) (r : State) : State :=
  mkState (node_pool r) (unique_process_pool r) (global_expr_process_id_map r)
    (process_state_array r) (footprint_frames r) (event_pool r) (event_queue r) x
    (mk_exlo r) (mk_exhi_counter_map r) (mk_exlo_counter_map r)
    (__mk_excl_blocking_set r) (updated_nodes r) (updated_nodes_queue r)
    (check_exhi_ring_pool r) (check_exlo_ring_pool r) (check_exhi r) (check_exlo r)
    (setup_check_map r) (hold_check_map r) (timing_fanin r) (current_time r) (timing
    r) (_channel_manager r) (flags r) (policies r) (tracing r) (__atomic_updated_nodes
    r) (recent_exceptions r) (interrupted r) (__keeper_check_candidates r)
    (__invariant_update_map r) (rng r) (__shuffle_generation r) (fast_weak_keepers r).
Definition put_mk_exlo (x : list ring_counter_state) (r : State) : State :=
  mkState (node_pool r) (unique_process_pool r) (global_expr_process_id_map r)
    (process_state_array r) (footprint_frames r) (event_pool r) (event_queue r)
    (mk_exhi r) x (mk_exhi_counter_map r) (mk_exlo_counter_map r)
    (__mk_excl_blocking_set r) (updated_nodes r) (updated_nodes_queue r)
    (check_exhi_ring_pool r) (check_exlo_ring_pool r) (check_exhi r) (check_exlo r)
    (setup_check_map r) (hold_check_map r) (timing_fanin r) (current_time r) (timing
    r) (_channel_manager r) (flags r) (policies r) (tracing r) (__atomic_updated_nodes
    r) (recent_exceptions r) (interrupted r) (__keeper_check_candidates r)
    (__invariant_update_map r) (rng r) (__shuffle_generation r) (fast_weak_keepers r).
Definition put_mk_exhi_counter_map (x : list (nat * list nat)) (r : State) : State :=
  mkState (node_pool r) (unique_process_pool r) (global_expr_process_id_map r)
    (process_state_array r) (footprint_frames r) (event_pool r) (event_queue r)
    (mk_exhi r) (mk_exlo r) x (mk_exlo_counter_map r) (__mk_excl_blocking_set r)
    (updated_nodes r) (updated_nodes_queue r) (check_exhi_ring_pool r)
    (check_exlo_ring_pool r) (check_exhi r) (check_exlo r) (setup_check_map r)
    (hold_check_map r) (timing_fanin r) (current_time r) (timing r) (_channel_manager
    r) (flags r) (policies r) (tracing r) (__atomic_updated_nodes r)
    (recent_exceptions r) (interrupted r) (__keeper_check_candidates r)
    (__invariant_update_map r) (rng r) (__shuffle_generation r) (fast_weak_keepers r).
Definition put_mk_exlo_counter_map (x : list (nat * list nat)) (r : State) : State :=
  mkState (node_pool r) (unique_process_pool r) (global_expr_process_id_map r)
    (process_state_array r) (footprint_frames r) (event_pool r) (event_queue r)
    (mk_exhi r) (mk_exlo r) (mk_exhi_counter_map r) x (__mk_excl_blocking_set r)
    (updated_nodes r) (updated_nodes_queue r) (check_exhi_ring_pool r)
    (check_exlo_ring_pool r) (check_exhi r) (check_exlo r) (setup_check_map r)
    (hold_check_map r) (timing_fanin r) (current_time r) (timing r) (_channel_manager
    r) (flags r) (policies r) (tracing r) (__atomic_updated_nodes r)
    (recent_exceptions r) (interrupted r) (__keeper_check_candidates r)
    (__invariant_update_map r) (rng r) (__shuffle_generation r) (fast_weak_keepers r).
Definition put___mk_excl_blocking_set (x : list nat) (r : State) : State :=
  mkState (node_pool r) (unique_process_pool r) (global_expr_process_id_map r)
    (process_state_array r) (footprint_frames r) (event_pool r) (event_queue r)
    (mk_exhi r) (mk_exlo r) (mk_exhi_counter_map r) (mk_exlo_counter_map r) x
    (updated_nodes r) (updated_nodes_queue r) (check_exhi_ring_pool r)
    (check_exlo_ring_pool r) (check_exhi r) (check_exlo r) (setup_check_map r)
    (hold_check_map r) (timing_fanin r) (current_time r) (timing r) (_channel_manager
    r) (flags r) (policies r) (tracing r) (__atomic_updated_nodes r)
    (recent_exceptions r) (interrupted r) (__keeper_check_candidates r)
    (__invariant_update_map r) (rng r) (__shuffle_generation r) (fast_weak_keepers r).
Definition put_updated_nodes (x : list (nat * node_update_info)) (r : State) : State :=
  mkState (node_pool r) (unique_process_pool r) (global_expr_process_id_map r)
    (process_state_array r) (footprint_frames r) (event_pool r) (event_queue r)
    (mk_exhi r) (mk_exlo r) (mk_exhi_counter_map r) (mk_exlo_counter_map r)
    (__mk_excl_blocking_set r) x (updated_nodes_queue r) (check_exhi_ring_pool r)
    (check_exlo_ring_pool r) (check_exhi r) (check_exlo r) (setup_check_map r)
    (hold_check_map r) (timing_fanin r) (current_time r) (timing r) (_channel_manager
    r) (flags r) (policies r) (tracing r) (__atomic_updated_nodes r)
    (recent_exceptions r) (interrupted r) (__keeper_check_candidates r)
    (__invariant_update_map r) (rng r) (__shuffle_generation r) (fast_weak_keepers r).
Definition put_updated_nodes_queue (x : list nat) (r : State) : State :=
  mkState (node_pool r) (unique_process_pool r) (global_expr_process_id_map r)
    (process_state_array r) (footprint_frames r) (event_pool r) (event_queue r)
    (mk_exhi r) (mk_exlo r) (mk_exhi_counter_map r) (mk_exlo_counter_map r)
    (__mk_excl_blocking_set r) (updated_nodes r) x (check_exhi_ring_pool r)
    (check_exlo_ring_pool r) (check_exhi r) (check_exlo r) (setup_check_map r)
    (hold_check_map r) (timing_fanin r) (current_time r) (timing r) (_channel_manager
    r) (flags r) (policies r) (tracing r) (__atomic_updated_nodes r)
    (recent_exceptions r) (interrupted r) (__keeper_check_candidates r)
    (__invariant_update_map r) (rng r) (__shuffle_generation r) (fast_weak_keepers r).
Definition put_check_exhi_ring_pool (x : list bool) (r : State) : State :=
  mkState (node_pool r) (unique_process_pool r) (global_expr_process_id_map r)
    (process_state_array r) (footprint_frames r) (event_pool r) (event_queue r)
    (mk_exhi r) (mk_exlo r) (mk_exhi_counter_map r) (mk_exlo_counter_map r)
    (__mk_excl_blocking_set r) (updated_nodes r) (updated_nodes_queue r) x
    (check_exlo_ring_pool r) (check_exhi r) (check_exlo r) (setup_check_map r)
    (hold_check_map r) (timing_fanin r) (current_time r) (timing r) (_channel_manager
    r) (flags r) (policies r) (tracing r) (__atomic_updated_nodes r)
    (recent_exceptions r) (interrupted r) (__keeper_check_candidates r)
    (__invariant_update_map r) (rng r) (__shuffle_generation r) (fast_weak_keepers r).
Definition put_check_exlo_ring_pool (x : list bool) (r : State) : State :=
  mkState (node_pool r) (unique_process_pool r) (global_expr_process_id_map r)
    (process_state_array r) (footprint_frames r) (event_pool r) (event_queue r)
    (mk_exhi r) (mk_exlo r) (mk_exhi_counter_map r) (mk_exlo_counter_map r)
    (__mk_excl_blocking_set r) (updated_nodes r) (updated_nodes_queue r)
    (check_exhi_ring_pool r) x (check_exhi r) (check_exlo r) (setup_check_map r)
    (hold_check_map r) (timing_fanin r) (current_time r) (timing r) (_channel_manager
    r) (flags r) (policies r) (tracing r) (__atomic_updated_nodes r)
    (recent_exceptions r) (interrupted r) (__keeper_check_candidates r)
    (__invariant_update_map r) (rng r) (__shuffle_generation r) (fast_weak_keepers r).
Definition put_check_exhi (x : list (nat * list nat)) (r : State) : State :=
  mkState (node_pool r) (unique_process_pool r) (global_expr_process_id_map r)
    (process_state_array r) (footprint_frames r) (event_pool r) (event_queue r)
    (mk_exhi r) (mk_exlo r) (mk_exhi_counter_map r) (mk_exlo_counter_map r)
    (__mk_excl_blocking_set r) (updated_nodes r) (updated_nodes_queue r)
    (check_exhi_ring_pool r) (check_exlo_ring_pool r) x (check_exlo r)
    (setup_check_map r) (hold_check_map r) (timing_fanin r) (current_time r) (timing
    r) (_channel_manager r) (flags r) (policies r) (tracing r) (__atomic_updated_nodes
    r) (recent_exceptions r) (interrupted r) (__keeper_check_candidates r)
    (__invariant_update_map r) (rng r) (__shuffle_generation r) (fast_weak_keepers r).
Definition put_check_exlo (x : list (nat * list nat)) (r : State) : State :=
  mkState (node_pool r) (unique_process_pool r) (global_expr_process_id_map r)
    (process_state_array r) (footprint_frames r) (event_pool r) (event_queue r)
    (mk_exhi r) (mk_exlo r) (mk_exhi_counter_map r) (mk_exlo_counter_map r)
    (__mk_excl_blocking_set r) (updated_nodes r) (updated_nodes_queue r)
    (check_exhi_ring_pool r) (check_exlo_ring_pool r) (check_exhi r) x
    (setup_check_map r) (hold_check_map r) (timing_fanin r) (current_time r) (timing
    r) (_channel_manager r) (flags r) (policies r) (tracing r) (__atomic_updated_nodes
    r) (recent_exceptions r) (interrupted r) (__keeper_check_candidates r)
    (__invariant_update_map r) (rng r) (__shuffle_generation r) (fast_weak_keepers r).
Definition put_setup_check_map (x : list (nat * list (nat * list nat))) (r : State) : State :=
  mkState (node_pool r) (unique_process_pool r) (global_expr_process_id_map r)
    (process_state_array r) (footprint_frames r) (event_pool r) (event_queue r)
    (mk_exhi r) (mk_exlo r) (mk_exhi_counter_map r) (mk_exlo_counter_map r)
    (__mk_excl_blocking_set r) (updated_nodes r) (updated_nodes_queue r)
    (check_exhi_ring_pool r) (check_exlo_ring_pool r) (check_exhi r) (check_exlo r) x
    (hold_check_map r) (timing_fanin r) (current_time r) (timing r) (_channel_manager
    r) (flags r) (policies r) (tracing r) (__atomic_updated_nodes r)
    (recent_exceptions r) (interrupted r) (__keeper_check_candidates r)
    (__invariant_update_map r) (rng r) (__shuffle_generation r) (fast_weak_keepers r).
Definition put_hold_check_map (x : list (nat * list (nat * list nat))) (r : State) : State :=
  mkState (node_pool r) (unique_process_pool r) (global_expr_process_id_map r)
    (process_state_array r) (footprint_frames r) (event_pool r) (event_queue r)
    (mk_exhi r) (mk_exlo r) (mk_exhi_counter_map r) (mk_exlo_counter_map r)
    (__mk_excl_blocking_set r) (updated_nodes r) (updated_nodes_queue r)
    (check_exhi_ring_pool r) (check_exlo_ring_pool r) (check_exhi r) (check_exlo r)
    (setup_check_map r) x (timing_fanin r) (current_time r) (timing r)
    (_channel_manager r) (flags r) (policies r) (tracing r) (__atomic_updated_nodes r)
    (recent_exceptions r) (interrupted r) (__keeper_check_candidates r)
    (__invariant_update_map r) (rng r) (__shuffle_generation r) (fast_weak_keepers r).
Definition put_timing_fanin (x : list (nat * list nat)) (r : State) : State :=
  mkState (node_pool r) (unique_process_pool r) (global_expr_process_id_map r)
    (process_state_array r) (footprint_frames r) (event_pool r) (event_queue r)
    (mk_exhi r) (mk_exlo r) (mk_exhi_counter_map r) (mk_exlo_counter_map r)
    (__mk_excl_blocking_set r) (updated_nodes r) (updated_nodes_queue r)
    (check_exhi_ring_pool r) (check_exlo_ring_pool r) (check_exhi r) (check_exlo r)
    (setup_check_map r) (hold_check_map r) x (current_time r) (timing r)
    (_channel_manager r) (flags r) (policies r) (tracing r) (__atomic_updated_nodes r)
    (recent_exceptions r) (interrupted r) (__keeper_check_candidates r)
    (__invariant_update_map r) (rng r) (__shuffle_generation r) (fast_weak_keepers r).
Definition put_current_time (x : real_time) (r : State) : State :=
  mkState (node_pool r) (unique_process_pool r) (global_expr_process_id_map r)
    (process_state_array r) (footprint_frames r) (event_pool r) (event_queue r)
    (mk_exhi r) (mk_exlo r) (mk_exhi_counter_map r) (mk_exlo_counter_map r)
    (__mk_excl_blocking_set r) (updated_nodes r) (updated_nodes_queue r)
    (check_exhi_ring_pool r) (check_exlo_ring_pool r) (check_exhi r) (check_exlo r)
    (setup_check_map r) (hold_check_map r) (timing_fanin r) x (timing r)
    (_channel_manager r) (flags r) (policies r) (tracing r) (__atomic_updated_nodes r)
    (recent_exceptions r) (interrupted r) (__keeper_check_candidates r)
    (__invariant_update_map r) (rng r) (__shuffle_generation r) (fast_weak_keepers r).
Definition put_timing (x : timing_state) (r : State) : State :=
  mkState (node_pool r) (unique_process_pool r) (global_expr_process_id_map r)
    (process_state_array r) (footprint_frames r) (event_pool r) (event_queue r)
    (mk_exhi r) (mk_exlo r) (mk_exhi_counter_map r) (mk_exlo_counter_map r)
    (__mk_excl_blocking_set r) (updated_nodes r) (updated_nodes_queue r)
    (check_exhi_ring_pool r) (check_exlo_ring_pool r) (check_exhi r) (check_exlo r)
    (setup_check_map r) (hold_check_map r) (timing_fanin r) (current_time r) x
    (_channel_manager r) (flags r) (policies r) (tracing r) (__atomic_updated_nodes r)
    (recent_exceptions r) (interrupted r) (__keeper_check_candidates r)
    (__invariant_update_map r) (rng r) (__shuffle_generation r) (fast_weak_keepers r).
Definition put__channel_manager (x : C) (r : State) : State :=
  mkState (node_pool r) (unique_process_pool r) (global_expr_process_id_map r)
    (process_state_array r) (footprint_frames r) (event_pool r) (event_queue r)
    (mk_exhi r) (mk_exlo r) (mk_exhi_counter_map r) (mk_exlo_counter_map r)
    (__mk_excl_blocking_set r) (updated_nodes r) (updated_nodes_queue r)
    (check_exhi_ring_pool r) (check_exlo_ring_pool r) (check_exhi r) (check_exlo r)
    (setup_check_map r) (hold_check_map r) (timing_fanin r) (current_time r) (timing
    r) x (flags r) (policies r) (tracing r) (__atomic_updated_nodes r)
    (recent_exceptions r) (interrupted r) (__keeper_check_candidates r)
    (__invariant_update_map r) (rng r) (__shuffle_generation r) (fast_weak_keepers r).
Definition put_flags (x : Z) (r : State) : State :=
  mkState (node_pool r) (unique_process_pool r) (global_expr_process_id_map r)
    (process_state_array r) (footprint_frames r) (event_pool r) (event_queue r)
    (mk_exhi r) (mk_exlo r) (mk_exhi_counter_map r) (mk_exlo_counter_map r)
    (__mk_excl_blocking_set r) (updated_nodes r) (updated_nodes_queue r)
    (check_exhi_ring_pool r) (check_exlo_ring_pool r) (check_exhi r) (check_exlo r)
    (setup_check_map r) (hold_check_map r) (timing_fanin r) (current_time r) (timing
    r) (_channel_manager r) x (policies r) (tracing r) (__atomic_updated_nodes r)
    (recent_exceptions r) (interrupted r) (__keeper_check_candidates r)
    (__invariant_update_map r) (rng r) (__shuffle_generation r) (fast_weak_keepers r).
Definition put_policies (x : policy_state) (r : State) : State :=
  mkState (node_pool r) (unique_process_pool r) (global_expr_process_id_map r)
    (process_state_array r) (footprint_frames r) (event_pool r) (event_queue r)
    (mk_exhi r) (mk_exlo r) (mk_exhi_counter_map r) (mk_exlo_counter_map r)
    (__mk_excl_blocking_set r) (updated_nodes r) (updated_nodes_queue r)
    (check_exhi_ring_pool r) (check_exlo_ring_pool r) (check_exhi r) (check_exlo r)
    (setup_check_map r) (hold_check_map r) (timing_fanin r) (current_time r) (timing
    r) (_channel_manager r) (flags r) x (tracing r) (__atomic_updated_nodes r)
    (recent_exceptions r) (interrupted r) (__keeper_check_candidates r)
    (__invariant_update_map r) (rng r) (__shuffle_generation r) (fast_weak_keepers r).
Definition put_tracing (x : trace_state) (r : State) : State :=
  mkState (node_pool r) (unique_process_pool r) (global_expr_process_id_map r)
    (process_state_array r) (footprint_frames r) (event_pool r) (event_queue r)
    (mk_exhi r) (mk_exlo r) (mk_exhi_counter_map r) (mk_exlo_counter_map r)
    (__mk_excl_blocking_set r) (updated_nodes r) (updated_nodes_queue r)
    (check_exhi_ring_pool r) (check_exlo_ring_pool r) (check_exhi r) (check_exlo r)
    (setup_check_map r) (hold_check_map r) (timing_fanin r) (current_time r) (timing
    r) (_channel_manager r) (flags r) (policies r) x (__atomic_updated_nodes r)
    (recent_exceptions r) (interrupted r) (__keeper_check_candidates r)
    (__invariant_update_map r) (rng r) (__shuffle_generation r) (fast_weak_keepers r).
Definition put___atomic_updated_nodes (x : list (nat * value_enum)) (r : State) : State :=
  mkState (node_pool r) (unique_process_pool r) (global_expr_process_id_map r)
    (process_state_array r) (footprint_frames r) (event_pool r) (event_queue r)
    (mk_exhi r) (mk_exlo r) (mk_exhi_counter_map r) (mk_exlo_counter_map r)
    (__mk_excl_blocking_set r) (updated_nodes r) (updated_nodes_queue r)
    (check_exhi_ring_pool r) (check_exlo_ring_pool r) (check_exhi r) (check_exlo r)
    (setup_check_map r) (hold_check_map r) (timing_fanin r) (current_time r) (timing
    r) (_channel_manager r) (flags r) (policies r) (tracing r) x (recent_exceptions r)
    (interrupted r) (__keeper_check_candidates r) (__invariant_update_map r) (rng r)
    (__shuffle_generation r) (fast_weak_keepers r).
Definition put_recent_exceptions (x : list step_exception) (r : State) : State :=
  mkState (node_pool r) (unique_process_pool r) (global_expr_process_id_map r)
    (process_state_array r) (footprint_frames r) (event_pool r) (event_queue r)
    (mk_exhi r) (mk_exlo r) (mk_exhi_counter_map r) (mk_exlo_counter_map r)
    (__mk_excl_blocking_set r) (updated_nodes r) (updated_nodes_queue r)
    (check_exhi_ring_pool r) (check_exlo_ring_pool r) (check_exhi r) (check_exlo r)
    (setup_check_map r) (hold_check_map r) (timing_fanin r) (current_time r) (timing
    r) (_channel_manager r) (flags r) (policies r) (tracing r) (__atomic_updated_nodes
    r) x (interrupted r) (__keeper_check_candidates r) (__invariant_update_map r) (rng
    r) (__shuffle_generation r) (fast_weak_keepers r).
Definition put_interrupted (x : bool) (r : State) : State :=
  mkState (node_pool r) (unique_process_pool r) (global_expr_process_id_map r)
    (process_state_array r) (footprint_frames r) (event_pool r) (event_queue r)
    (mk_exhi r) (mk_exlo r) (mk_exhi_counter_map r) (mk_exlo_counter_map r)
    (__mk_excl_blocking_set r) (updated_nodes r) (updated_nodes_queue r)
    (check_exhi_ring_pool r) (check_exlo_ring_pool r) (check_exhi r) (check_exlo r)
    (setup_check_map r) (hold_check_map r) (timing_fanin r) (current_time r) (timing
    r) (_channel_manager r) (flags r) (policies r) (tracing r) (__atomic_updated_nodes
    r) (recent_exceptions r) x (__keeper_check_candidates r) (__invariant_update_map
    r) (rng r) (__shuffle_generation r) (fast_weak_keepers r).
Definition put___keeper_check_candidates (x : list nat) (r : State) : State :=
  mkState (node_pool r) (unique_process_pool r) (global_expr_process_id_map r)
    (process_state_array r) (footprint_frames r) (event_pool r) (event_queue r)
    (mk_exhi r) (mk_exlo r) (mk_exhi_counter_map r) (mk_exlo_counter_map r)
    (__mk_excl_blocking_set r) (updated_nodes r) (updated_nodes_queue r)
    (check_exhi_ring_pool r) (check_exlo_ring_pool r) (check_exhi r) (check_exlo r)
    (setup_check_map r) (hold_check_map r) (timing_fanin r) (current_time r) (timing
    r) (_channel_manager r) (flags r) (policies r) (tracing r) (__atomic_updated_nodes
    r) (recent_exceptions r) (interrupted r) x (__invariant_update_map r) (rng r)
    (__shuffle_generation r) (fast_weak_keepers r).
Definition put___invariant_update_map (x : list ((nat * nat) * pull_enum)) (r : State) : State :=
  mkState (node_pool r) (unique_process_pool r) (global_expr_process_id_map r)
    (process_state_array r) (footprint_frames r) (event_pool r) (event_queue r)
    (mk_exhi r) (mk_exlo r) (mk_exhi_counter_map r) (mk_exlo_counter_map r)
    (__mk_excl_blocking_set r) (updated_nodes r) (updated_nodes_queue r)
    (check_exhi_ring_pool r) (check_exlo_ring_pool r) (check_exhi r) (check_exlo r)
    (setup_check_map r) (hold_check_map r) (timing_fanin r) (current_time r) (timing
    r) (_channel_manager r) (flags r) (policies r) (tracing r) (__atomic_updated_nodes
    r) (recent_exceptions r) (interrupted r) (__keeper_check_candidates r) x (rng r)
    (__shuffle_generation r) (fast_weak_keepers r).
Definition put_rng (x : rng_state) (r : State) : State :=
  mkState (node_pool r) (unique_process_pool r) (global_expr_process_id_map r)
    (process_state_array r) (footprint_frames r) (event_pool r) (event_queue r)
    (mk_exhi r) (mk_exlo r) (mk_exhi_counter_map r) (mk_exlo_counter_map r)
    (__mk_excl_blocking_set r) (updated_nodes r) (updated_nodes_queue r)
    (check_exhi_ring_pool r) (check_exlo_ring_pool r) (check_exhi r) (check_exlo r)
    (setup_check_map r) (hold_check_map r) (timing_fanin r) (current_time r) (timing
    r) (_channel_manager r) (flags r) (policies r) (tracing r) (__atomic_updated_nodes
    r) (recent_exceptions r) (interrupted r) (__keeper_check_candidates r)
    (__invariant_update_map r) x (__shuffle_generation r) (fast_weak_keepers r).
Definition put___shuffle_generation (x : nat) (r : State) : State :=
  mkState (node_pool r) (unique_process_pool r) (global_expr_process_id_map r)
    (process_state_array r) (footprint_frames r) (event_pool r) (event_queue r)
    (mk_exhi r) (mk_exlo r) (mk_exhi_counter_map r) (mk_exlo_counter_map r)
    (__mk_excl_blocking_set r) (updated_nodes r) (updated_nodes_queue r)
    (check_exhi_ring_pool r) (check_exlo_ring_pool r) (check_exhi r) (check_exlo r)
    (setup_check_map r) (hold_check_map r) (timing_fanin r) (current_time r) (timing
    r) (_channel_manager r) (flags r) (policies r) (tracing r) (__atomic_updated_nodes
    r) (recent_exceptions r) (interrupted r) (__keeper_check_candidates r)
    (__invariant_update_map r) (rng r) x (fast_weak_keepers r).
Definition put_fast_weak_keepers (x : bool) (r : State) : State :=
  mkState (node_pool r) (unique_process_pool r) (global_expr_process_id_map r)
    (process_state_array r) (footprint_frames r) (event_pool r) (event_queue r)
    (mk_exhi r) (mk_exlo r) (mk_exhi_counter_map r) (mk_exlo_counter_map r)
    (__mk_excl_blocking_set r) (updated_nodes r) (updated_nodes_queue r)
    (check_exhi_ring_pool r) (check_exlo_ring_pool r) (check_exhi r) (check_exlo r)
    (setup_check_map r) (hold_check_map r) (timing_fanin r) (current_time r) (timing
    r) (_channel_manager r) (flags r) (policies r) (tracing r) (__atomic_updated_nodes
    r) (recent_exceptions r) (interrupted r) (__keeper_check_candidates r)
    (__invariant_update_map r) (rng r) (__shuffle_generation r) x.

(** The constructor, around the structure that ExprAlloc builds: the number of
    nodes, the types, the process instances and their maps. *)
Definition State_construct (n : nat) (types : list unique_process_subgraph)
    (ids : list (nat * nat)) (procs : list process_sim_state) (frames : list (list nat))
    (fast : bool) (c : C) : State :=
  mkState (replicate (S n) NodeState_empty) types ids procs frames
    (array_pool_make Event_empty) [] [ring_empty] [ring_empty] [] [] [] [] [] [false] [false]
    [] [] [] [] [] real_zero
    (mkTiming TIMING_DEFAULT real_default_delay real_zero real_zero (double_of_Z 1 (-1))) c
    FLAGS_DEFAULT default_policies (mkTrace [] 0 65536 real_zero 0)
    [] [] false [] [] (mkRng 0 0) 0 fast.

End StateDef.
Arguments State C : clear implicits.

Section Accessors.
Context {C : Type}.
#[local] Abbreviation State := (State C).

(** ** The member functions that only access flags and policies *)
Definition put_flag_of (b : bool) (mask : Z) (s : State) : State :=
  put_flags (put_flag b (flags s) mask) s.
Definition show_tcounts (s : State) : bool := has_flag (flags s) FLAG_SHOW_TCOUNTS.
Definition set_show_tcounts : State -> State := put_flag_of true FLAG_SHOW_TCOUNTS.
Definition clear_show_tcounts : State -> State := put_flag_of false FLAG_SHOW_TCOUNTS.
Definition show_cause (s : State) : bool := has_flag (flags s) FLAG_SHOW_CAUSE.
Definition set_show_cause : State -> State := put_flag_of true FLAG_SHOW_CAUSE.
Definition clear_show_cause : State -> State := put_flag_of false FLAG_SHOW_CAUSE.
Definition eval_ordering_is_random (s : State) : bool :=
  has_flag (flags s) FLAG_RANDOM_FANOUT_EVALUATION_ORDERING.
Definition set_eval_ordering_random : State -> State :=
  put_flag_of true FLAG_RANDOM_FANOUT_EVALUATION_ORDERING.
Definition set_eval_ordering_inorder : State -> State :=
  put_flag_of false FLAG_RANDOM_FANOUT_EVALUATION_ORDERING.
Definition enable_weak_rules : State -> State := put_flag_of true FLAG_WEAK_RULES.
Definition disable_weak_rules : State -> State := put_flag_of false FLAG_WEAK_RULES.
Definition weak_rules_enabled (s : State) : bool := has_flag (flags s) FLAG_WEAK_RULES.
Definition show_weak_rules : State -> State := put_flag_of false FLAG_HIDE_WEAK_RULES.
Definition hide_weak_rules : State -> State := put_flag_of true FLAG_HIDE_WEAK_RULES.
Definition weak_rules_shown (s : State) : bool := negb (has_flag (flags s) FLAG_HIDE_WEAK_RULES).
Definition confirm_asserts (s : State) : bool := has_flag (flags s) FLAG_CONFIRM_ASSERTS.
Definition set_confirm_asserts (b : bool) : State -> State := put_flag_of b FLAG_CONFIRM_ASSERTS.
Definition set_frozen_verbose (b : bool) : State -> State := put_flag_of b FLAG_FROZEN_VERBOSE.
Definition is_frozen_verbose (s : State) : bool := has_flag (flags s) FLAG_FROZEN_VERBOSE.
Definition watch_all_nodes : State -> State := put_flag_of true FLAG_WATCHALL.
Definition nowatch_all_nodes : State -> State := put_flag_of false FLAG_WATCHALL.
Definition watching_all_nodes (s : State) : bool := has_flag (flags s) FLAG_WATCHALL.
Definition watch_event_queue : State -> State := put_flag_of true FLAG_WATCH_QUEUE.
Definition nowatch_event_queue : State -> State := put_flag_of false FLAG_WATCH_QUEUE.
Definition watching_event_queue (s : State) : bool := has_flag (flags s) FLAG_WATCH_QUEUE.
Definition watchall_event_queue : State -> State := put_flag_of true FLAG_WATCHALL_QUEUE.
Definition nowatchall_event_queue : State -> State := put_flag_of false FLAG_WATCHALL_QUEUE.
Definition watching_all_event_queue (s : State) : bool := has_flag (flags s) FLAG_WATCHALL_QUEUE.
Definition dequeue_unstable_events (s : State) : bool := has_flag (flags s) FLAG_UNSTABLE_DEQUEUE.
Definition set_dequeue_unstable_events (b : bool) : State -> State := put_flag_of b FLAG_UNSTABLE_DEQUEUE.
Definition dequeue_excl_unstable_events (s : State) : bool :=
  has_flag (flags s) FLAG_EXCL_UNSTABLE_DEQUEUE.
Definition set_dequeue_excl_unstable_events (b : bool) : State -> State :=
  put_flag_of b FLAG_EXCL_UNSTABLE_DEQUEUE.
Definition step_over_vacuous_events : State -> State := put_flag_of false FLAG_STOP_ON_VACUOUS.
Definition stop_on_vacuous_events : State -> State := put_flag_of true FLAG_STOP_ON_VACUOUS.
Definition stopping_on_vacuous_events (s : State) : bool := has_flag (flags s) FLAG_STOP_ON_VACUOUS.
Definition show_min_delays : State -> State := put_flag_of true FLAG_MIN_DELAY_VERBOSE.
Definition silent_min_delays : State -> State := put_flag_of false FLAG_MIN_DELAY_VERBOSE.
Definition verbose_min_delays (s : State) : bool := has_flag (flags s) FLAG_MIN_DELAY_VERBOSE.
Definition checking_excl (s : State) : bool := has_flag (flags s) FLAG_CHECK_EXCL.
Definition check_excl : State -> State := put_flag_of true FLAG_CHECK_EXCL.
Definition nocheck_excl : State -> State := put_flag_of false FLAG_CHECK_EXCL.
Definition is_tracing (s : State) : bool := has_flag (flags s) FLAG_TRACE_ON.
Definition stop_trace : State -> State := put_flag_of false FLAG_TRACE_ON.
Definition is_tracing_vcd (s : State) : bool := has_flag (flags s) FLAG_VCD_ON.
Definition stop_vcd : State -> State := put_flag_of false FLAG_VCD_ON.

Definition clear_exceptions (s : State) : State := put_recent_exceptions [] s.
Definition record_exception (e : step_exception) (s : State) : State :=
  put_recent_exceptions (recent_exceptions s ++ [e]) s.
Definition fatal_exceptions (s : State) : nat := length (recent_exceptions s).
Definition is_fatal (s : State) : bool := negb (Nat.eqb (length (recent_exceptions s)) 0).
Definition stop (s : State) : State := put_interrupted true (put_flag_of true FLAG_STOP_SIMULATION s).
Definition stopped (s : State) : bool := has_flag (flags s) FLAG_STOP_SIMULATION.
Definition resume (s : State) : State :=
  clear_exceptions (put_interrupted false (put_flag_of false FLAG_STOP_SIMULATION s)).
Definition stopped_or_fatal (s : State) : bool := stopped s || is_fatal s.

Definition update_time (t : real_time) (s : State) : State := put_current_time t s.
Definition advance_time (t : real_time) (s : State) : State :=
  put_current_time (double_add (current_time s) t) s.
Definition timing_is_randomized (s : State) : bool :=
  match timing_mode (timing s) with TIMING_UNIFORM | TIMING_AFTER => false | _ => true end.
Definition randomize (s : State) : State := put_timing (set_timing_mode TIMING_RANDOM (timing s)) s.
Definition norandom (s : State) : State := put_timing (set_timing_mode TIMING_UNIFORM (timing s)) s.

Definition on_policies (f : policy_state -> policy_state) (s : State) : State :=
  put_policies (f (policies s)) s.
Definition set_mode_reset : State -> State := on_policies (fun p =>
  set_weak_interference_policy ERROR_IGNORE (set_interference_policy ERROR_BREAK
  (set_weak_unstable_policy ERROR_WARN (set_unstable_policy ERROR_BREAK p)))).
Definition set_mode_run : State -> State := on_policies (fun p =>
  set_weak_interference_policy ERROR_WARN (set_interference_policy ERROR_BREAK
  (set_weak_unstable_policy ERROR_WARN (set_unstable_policy ERROR_BREAK p)))).
Definition set_mode_breakall : State -> State := on_policies (fun p =>
  set_weak_interference_policy ERROR_BREAK (set_interference_policy ERROR_BREAK
  (set_weak_unstable_policy ERROR_BREAK (set_unstable_policy ERROR_BREAK p)))).
Definition set_mode_fatal (s : State) : State :=
  on_policies (fun p =>
    mkPolicies ERROR_FATAL ERROR_FATAL ERROR_FATAL ERROR_FATAL ERROR_FATAL ERROR_FATAL
      ERROR_FATAL ERROR_FATAL ERROR_FATAL ERROR_FATAL
      (if fast_weak_keepers s && weak_rules_enabled s then ERROR_FATAL
       else keeper_check_fail_policy p)
      ERROR_FATAL ERROR_FATAL) s.

Definition pending_events (s : State) : bool := negb (eq_empty (event_queue s)).
Definition have_atomic_updates (s : State) : bool :=
  negb (Nat.eqb (length (__atomic_updated_nodes s)) 0).
Definition get_num_processes (s : State) : nat := length (process_state_array s).
End Accessors.
