(* ===== verification/Registry.v ===== *)
(** The command interpreter that the simulators share:
    "sim/command_registry.tcc" and ".cc", the commands of
    "sim/command_common.tcc" and ".cc" that work on the interpreter itself,
    the status codes of "sim/command_error_codes.hh" and "sim/command_base.cc",
    and the manager of the files that are being sourced,
    "util/named_ifstream_manager.cc".

    The registry is a class template over the state of a simulator; here [St].
    Its static members, the stack of open files and the simulator's state make
    up [shell].  What is printed is left out.  The outside world is the class
    [ShellEnv] (the files that can be read and written, the names that exist)
    and the lines that the user will type; the commands given to the operating
    system are recorded.

    A command may interpret lines again (source, repeat, history-rerun, a
    sub-shell): [interp] ties the knot, with fuel. *)
From stdpp Require Import strings.
From S2P Require Import Prelude Strings SimTime PullSet Expr EventQueue ArrayPool OrdMap Node.
From S2P Require Import ProcGraph Directory State.
Open Scope Z_scope.
Local Open Scope hackt_scope.
#[local] Abbreviation length := Datatypes.length.

(** ** Status codes *)
Definition FATAL : Z := -5.
Definition INTERACT : Z := -4.
Definition BADFILE : Z := -3.
Definition SYNTAX : Z := -2.
Definition UNKNOWN : Z := -1.
Definition NORMAL : Z := 0.
Definition BADARG : Z := 1.
Definition END : Z := 255.

Definition error_policy_to_status (e : error_policy_enum) : Z :=
  match e with
  | ERROR_NONE | ERROR_WARN | ERROR_BREAK => NORMAL
  | ERROR_INTERACTIVE => INTERACT
  | ERROR_FATAL => FATAL
  end.
(** [None] for an invalid name. *)
Definition string_to_error_policy (s : string) : option error_policy_enum :=
  if String.eqb s "ignore" then Some ERROR_IGNORE
  else if String.eqb s "warn" || String.eqb s "notify" then Some ERROR_WARN
  else if String.eqb s "break" then Some ERROR_BREAK
  else if String.eqb s "interactive" then Some ERROR_INTERACTIVE
  else if String.eqb s "fatal" then Some ERROR_FATAL
  else None.

(** ** The world outside *)
Class ShellEnv := {
  read_file : string -> option (list string);   (* the lines of a file that can be opened *)
  read_file_empty : read_file "" = None;         (* the empty name is not a file *)
  can_write : string -> bool;
  parse_process : string -> option nat;          (* the index of a process of the circuit *)
  parse_to_footprint : string -> option nat      (* an instantiated type *)
}.

(** ** Aliases *)

(** [find] in a [std::map]: an alias that begins the command is replaced until
    none does; [None] when an alias comes up again. *)
Fixpoint expand_aliases_loop (fuel : nat) (al : gmap string (list string)) (seen : list string)
    (c : list string) : res (option (list string)) :=
  match fuel with
  | O => Err F_fuel
  | S fuel' =>
      match c with
      | [] => Err F_undef              (* front() of an empty list *)
      | a :: l =>
          match al !! a with
          | None => Ok (Some c)
          | Some x =>
              if bool_decide (a ∈ seen) then Ok None
              else expand_aliases_loop fuel' al (a :: seen) (x ++ l)
          end
      end
  end.
Definition expand_aliases (al : gmap string (list string)) (c : list string) : res (option (list string)) :=
  match c with
  | [] => Ok (Some c)
  | _ => expand_aliases_loop (S (S (size al))) al [] c
  end.

(** ** State *)
Section Shell.
Context {St : Type}.

Record shell : Type := mkShell {
  aliases : gmap string (list string);
  dirs : directory_stack;
  type_stack : list nat;
  history : list string;
  keep_noninteractive_history : bool;
  comment_level : Z;
  echo_commands : bool;
  external_cosimulation : bool;
  search_paths : list string;
  open_files : list string   (* its back is the head of the list *);
  stdin_lines : list string   (* lines of the terminal that are still to be read *);
  shell_log : list string   (* commands given to system() *);
  sim : St
}.
Definition put_aliases (x : gmap string (list string)) (r : shell) : shell :=
  mkShell x (dirs r) (type_stack r) (history r) (keep_noninteractive_history r)
    (comment_level r) (echo_commands r) (external_cosimulation r) (search_paths r)
    (open_files r) (stdin_lines r) (shell_log r) (sim r).
Definition put_dirs (x : directory_stack) (r : shell) : shell :=
  mkShell (aliases r) x (type_stack r) (history r) (keep_noninteractive_history r)
    (comment_level r) (echo_commands r) (external_cosimulation r) (search_paths r)
    (open_files r) (stdin_lines r) (shell_log r) (sim r).
Definition put_type_stack (x : list nat) (r : shell) : shell :=
  mkShell (aliases r) (dirs r) x (history r) (keep_noninteractive_history r) (comment_level
    r) (echo_commands r) (external_cosimulation r) (search_paths r) (open_files r)
    (stdin_lines r) (shell_log r) (sim r).
Definition put_history (x : list string) (r : shell) : shell :=
  mkShell (aliases r) (dirs r) (type_stack r) x (keep_noninteractive_history r)
    (comment_level r) (echo_commands r) (external_cosimulation r) (search_paths r)
    (open_files r) (stdin_lines r) (shell_log r) (sim r).
Definition put_keep_noninteractive_history (x : bool) (r : shell) : shell :=
  mkShell (aliases r) (dirs r) (type_stack r) (history r) x (comment_level r) (echo_commands
    r) (external_cosimulation r) (search_paths r) (open_files r) (stdin_lines r) (shell_log
    r) (sim r).
Definition put_comment_level (x : Z) (r : shell) : shell :=
  mkShell (aliases r) (dirs r) (type_stack r) (history r) (keep_noninteractive_history r) x
    (echo_commands r) (external_cosimulation r) (search_paths r) (open_files r) (stdin_lines
    r) (shell_log r) (sim r).
Definition put_echo_commands (x : bool) (r : shell) : shell :=
  mkShell (aliases r) (dirs r) (type_stack r) (history r) (keep_noninteractive_history r)
    (comment_level r) x (external_cosimulation r) (search_paths r) (open_files r)
    (stdin_lines r) (shell_log r) (sim r).
Definition put_search_paths (x : list string) (r : shell) : shell :=
  mkShell (aliases r) (dirs r) (type_stack r) (history r) (keep_noninteractive_history r)
    (comment_level r) (echo_commands r) (external_cosimulation r) x (open_files r)
    (stdin_lines r) (shell_log r) (sim r).
Definition put_open_files (x : list string) (r : shell) : shell :=
  mkShell (aliases r) (dirs r) (type_stack r) (history r) (keep_noninteractive_history r)
    (comment_level r) (echo_commands r) (external_cosimulation r) (search_paths r) x
    (stdin_lines r) (shell_log r) (sim r).
Definition put_stdin_lines (x : list string) (r : shell) : shell :=
  mkShell (aliases r) (dirs r) (type_stack r) (history r) (keep_noninteractive_history r)
    (comment_level r) (echo_commands r) (external_cosimulation r) (search_paths r)
    (open_files r) x (shell_log r) (sim r).
Definition put_shell_log (x : list string) (r : shell) : shell :=
  mkShell (aliases r) (dirs r) (type_stack r) (history r) (keep_noninteractive_history r)
    (comment_level r) (echo_commands r) (external_cosimulation r) (search_paths r)
    (open_files r) (stdin_lines r) x (sim r).
Definition put_sim (x : St) (r : shell) : shell :=
  mkShell (aliases r) (dirs r) (type_stack r) (history r) (keep_noninteractive_history r)
    (comment_level r) (echo_commands r) (external_cosimulation r) (search_paths r)
    (open_files r) (stdin_lines r) (shell_log r) x.

#[local] Abbreviation SHM := (M shell).

(** A member function of the simulator's state. *)
Definition on_sim {A} (m : M St A) : SHM A :=
  fun r => match m (sim r) with Ok (a, s) => Ok (a, put_sim s r) | Err f => Err f end.
(** A method of the directory stack. *)
Definition on_dirs {A} (m : M directory_stack A) : SHM A :=
  fun r => match m (dirs r) with Ok (a, d) => Ok (a, put_dirs d r) | Err f => Err f end.
Definition push_history (l : string) : SHM unit := modify (fun r => put_history (history r ++ [l]) r).

Definition in_local_type : SHM bool :=
  l <- gets type_stack ;; ret (match l with [] => false | _ => true end).
Definition prepend_working_dir (s : string) : SHM string :=
  d <- gets dirs ;; lift_res (transform s d).
Definition change_dir_abs (s : string) : SHM unit :=
  d <- gets dirs ;; on_dirs (change_directory (absolute_prefix d ++ s)).
(** Throws when the simulator is driven by another one. *)
Definition forbid_cosimulation : SHM unit :=
  b <- gets external_cosimulation ;; when b (fail F_exit).

(** ** Commands

    [c] continues the interpreter: a recursive call of the registry. *)
Inductive command_main : Type :=
  | Plain (main : list string -> SHM Z)
  | Repeat | MeasTime | Source | HistoryRerun | Interpret.

Section Commands.
Context {senv : ShellEnv} (command_map : gmap string command_main) (is_command is_category : string -> bool).

Definition add_alias (a : string) (c : list string) : SHM Z :=
  if is_command a || is_category a then ret BADARG
  else
    al <- gets aliases ;;
    match al !! a with
    | Some _ => ret BADARG
    | None => modify (put_aliases (<[a := c]> al)) ;;; ret NORMAL
    end.
Definition alias_main (a : list string) : SHM Z :=
  match a with
  | _ :: al :: (_ :: _) as ac => add_alias al ac
  | _ => ret SYNTAX
  end.
Definition unalias_main (a : list string) : SHM Z :=
  match a with
  | [_; n] => modify (fun r => put_aliases (delete n (aliases r)) r) ;;; ret NORMAL
  | _ => ret SYNTAX
  end.
Definition unalias_all_main (a : list string) : SHM Z :=
  match a with
  | [_] => modify (put_aliases ∅) ;;; ret NORMAL
  | _ => ret SYNTAX
  end.

(** Commands that print, when they are given [n] words. *)
Definition print_main (n : nat) (a : list string) : SHM Z :=
  ret (if Nat.eqb (length a) n then NORMAL else SYNTAX).
Definition constant_main (st : Z) (a : list string) : SHM Z := ret st.

Definition on_off (set : bool -> shell -> shell) (arg : string) (bad : Z) : SHM Z :=
  if String.eqb arg "on" then modify (set true) ;;; ret NORMAL
  else if String.eqb arg "off" then modify (set false) ;;; ret NORMAL
  else ret bad.
Definition echo_commands_main (a : list string) : SHM Z :=
  match a with
  | [_] => ret NORMAL
  | [_; arg] => on_off put_echo_commands arg BADARG
  | _ => ret SYNTAX
  end.
Definition history_noninteractive_main (a : list string) : SHM Z :=
  match a with
  | [] | [_] => ret NORMAL
  | [_; arg] => on_off put_keep_noninteractive_history arg BADARG
  | _ => ret SYNTAX
  end.

(** ** Directories and types *)
Definition change_dir_main (a : list string) : SHM Z :=
  match a with
  | [_; d] =>
      d0 <- gets dirs ;;
      save <- lift_res (current_working_directory d0) ;;
      on_dirs (change_directory d) ;;;
      d1 <- gets dirs ;;
      newdir <- lift_res (current_working_directory d1) ;;
      if nonempty newdir && match parse_process newdir with None => true | Some _ => false end
      then change_dir_abs save ;;; ret BADARG
      else ret NORMAL
  | [] | [_] => on_dirs (change_directory "") ;;; ret NORMAL
  | _ => ret SYNTAX
  end.
Definition push_dir_main (a : list string) : SHM Z :=
  match a with
  | [_; d] =>
      on_dirs (push_directory d) ;;;
      d1 <- gets dirs ;;
      newdir <- lift_res (current_working_directory d1) ;;
      if nonempty newdir && match parse_process newdir with None => true | Some _ => false end
      then on_dirs pop_directory ;;; ret BADARG
      else ret NORMAL
  | _ => ret SYNTAX
  end.
Definition pop_dir_main (a : list string) : SHM Z :=
  match a with
  | [_] => b <- on_dirs pop_directory ;; ret (if b : bool then BADARG else NORMAL)
  | _ => ret SYNTAX
  end.
Definition push_type_main (a : list string) : SHM Z :=
  match a with
  | [_; ts] =>
      match parse_to_footprint ts with
      | Some f => modify (fun r => put_type_stack (f :: type_stack r) r) ;;; ret NORMAL
      | None => ret BADARG
      end
  | _ => ret SYNTAX
  end.
Definition pop_type_main (a : list string) : SHM Z :=
  match a with
  | [_] => b <- in_local_type ;; when b (modify (fun r => put_type_stack (tl (type_stack r)) r)) ;;; ret NORMAL
  | _ => ret SYNTAX
  end.
Definition add_path_main (a : list string) : SHM Z :=
  match a with
  | [_; p] =>
      modify (fun r => put_search_paths
        (if bool_decide (p ∈ search_paths r) then search_paths r else search_paths r ++ [p]) r) ;;;
      ret NORMAL
  | _ => ret SYNTAX
  end.

(** ** History *)

(** The half-open range that [start] and [end_] mean in a history of [s] lines;
    the sums are of type [int]. *)
Definition history_range (s start end_ : Z) : res (Z * Z) :=
  if s <=? start then Ok (0, 0)
  else if s + start <=? 0 then Ok (0, 0)
  else
    let f := if start <? 0 then s + start - 1 else if start <? s then start else s in
    let r l := if (0 <=? f) && (l <=? s) then Ok (f, l) else Err F_assert in
    if end_ <? 0 then r (s + end_)
    else if end_ =? 0 then r s
    else if 2 ^ 31 <=? f + end_ then Err F_undef
    else r (if f + end_ <? s then f + end_ else s).
(** The numbers after the command, or its status. *)
Definition history_args (a : list string) (end_ : Z) : Z * Z + Z :=
  match a with
  | [] => inl (0, end_)
  | [lower] => match string_to_int 32 true lower with Some f => inl (f, end_) | None => inr BADARG end
  | [lower; upper] =>
      match string_to_int 32 true lower with
      | None => inr BADARG
      | Some f => match string_to_int 32 true upper with Some l => inl (f, l) | None => inr BADARG end
      end
  | _ => inr SYNTAX
  end.
Definition history_main (a : list string) : SHM Z :=
  match history_args (tl a) (-1) with
  | inr st => ret st
  | inl (f, l) =>
      h <- gets history ;;
      lift_res (history_range (Z.of_nat (length h)) f l) ;;; ret NORMAL
  end.
Definition history_save_main (a : list string) : SHM Z :=
  match a with
  | [_; fn] => ret (if can_write fn then NORMAL else BADARG)
  | _ => ret SYNTAX
  end.

(** ** Interpreting

    What the registry calls recursively: a line, a command that is given in the
    arguments of another one, and a sub-shell. *)
Inductive request : Type :=
  | R_line (line : string) (record : bool)
  | R_exec (args : list string)
  | R_stdin.

Definition continue_interpreter (_status : Z) (ia : bool) : bool :=
  negb (_status =? END) && ((_status =? NORMAL) || ia).

Section Knot.
Context (rec : request -> SHM Z).

(** An interactive status is answered with a sub-shell. *)
Definition subshell_if (st : Z) : SHM Z := if st =? INTERACT then rec R_stdin else ret st.

(** [__source] *)
Fixpoint source_lines (lines : list string) (status : Z) : SHM Z :=
  match lines with
  | [] => ret status
  | line :: lines' =>
      keep <- gets keep_noninteractive_history ;;
      st <- rec (R_line line keep) ;;
      if continue_interpreter st false then source_lines lines' st else ret st
  end.
Definition __source (lines : list string) : SHM Z :=
  st <- source_lines lines NORMAL ;;
  level <- gets comment_level ;;
  ret (if (st =? NORMAL) && negb (level =? 0) then FATAL else st).

(** The name under which a file is found: as given, or in a search path. *)
Fixpoint find_file (paths : list string) (fs : string) : option (string * list string) :=
  match paths with
  | [] => None
  | p :: paths' =>
      let df := (p ++ "/" ++ fs)%string in
      match read_file df with Some ls => Some (df, ls) | None => find_file paths' fs end
  end.
Definition open_ifstream (paths : list string) (fs : string) : option (string * list string) :=
  match read_file fs with Some ls => Some (fs, ls) | None => find_file paths fs end.
(** A file that is being read is not opened again. *)
Definition close_ifstream : SHM unit :=
  l <- gets open_files ;;
  match l with [] => fail F_undef | _ :: l' => modify (put_open_files l') end.
Definition source (f : string) : SHM Z :=
  paths <- gets search_paths ;;
  files <- gets open_files ;;
  match open_ifstream paths f with
  | None => ret BADFILE
  | Some (df, lines) =>
      if nonempty df && bool_decide (df ∈ files) then ret BADFILE
      else
        when (nonempty df) (modify (put_open_files (df :: files))) ;;;
        st <- __source lines ;;
        close_ifstream ;;;
        ret st
  end.
Fixpoint source_files (fs : list string) (status : Z) : SHM Z :=
  match fs with
  | [] => ret status
  | f :: fs' => if status =? NORMAL then st <- source f ;; source_files fs' st else ret status
  end.
Definition source_main (a : list string) : SHM Z :=
  match a with
  | _ :: (_ :: _) as fs => source_files fs NORMAL
  | _ => ret SYNTAX
  end.

Fixpoint rerun_lines (i : list nat) : SHM Z :=
  match i with
  | [] => ret NORMAL
  | k :: i' =>
      h <- gets history ;;
      line <- of_option F_index (h !! k) ;;
      st <- rec (R_line line false) ;;
      if st =? NORMAL then rerun_lines i' else ret st
  end.
Definition rerun (start end_ : Z) : SHM Z :=
  h <- gets history ;;
  p <- lift_res (history_range (Z.of_nat (length h)) start end_) ;;
  require F_assert (0 <=? p.1) ;;;
  require F_assert (p.2 <=? Z.of_nat (length h)) ;;;
  rerun_lines (seq (Z.to_nat p.1) (Z.to_nat (p.2 - p.1))).
Definition history_rerun_main (a : list string) : SHM Z :=
  match tl a with
  | [] => ret SYNTAX
  | _ => match history_args (tl a) 1 with inr st => ret st | inl (f, l) => rerun f l end
  end.

Definition begins_comment (t : string) : bool := String.prefix "/*" t.
Fixpoint ends_comment (t : string) : bool :=
  match t with
  | EmptyString => false
  | String _ t' => String.eqb t "*/" || ends_comment t'
  end.

(** [for ( ; j<n && ret == NORMAL; ++j)] *)
Fixpoint repeat_loop (body : SHM Z) (n : nat) (st : Z) : SHM Z :=
  match n with
  | O => ret st
  | S n' => if st =? NORMAL then st' <- body ;; repeat_loop body n' st' else ret st
  end.
(** An interactive status opens a sub-shell. *)
Definition execute_here (c : list string) : SHM Z := st <- rec (R_exec c) ;; subshell_if st.
Definition run_command (m : command_main) (a : list string) : SHM Z :=
  match m with
  | Plain main => main a
  | Source => source_main a
  | HistoryRerun => history_rerun_main a
  | Interpret => match a with [_] => rec R_stdin | _ => ret SYNTAX end
  | MeasTime =>
      match a with
      | _ :: (_ :: _) as cmd =>
          al <- gets aliases ;;
          e <- lift_res (expand_aliases al cmd) ;;
          match e with None => ret BADARG | Some cmd' => execute_here cmd' end
      | _ => ret SYNTAX
      end
  | Repeat =>
      match a with
      | _ :: cnt :: (_ :: _) as cmd =>
          match string_to_int 32 true cnt with
          | None => ret BADARG
          | Some n =>
              if n <? 0 then ret BADARG
              else
                al <- gets aliases ;;
                e <- lift_res (expand_aliases al cmd) ;;
                match e with
                | None => ret BADARG
                | Some cmd' => repeat_loop (execute_here cmd') (Z.to_nat n) NORMAL
                end
          end
      | _ => ret SYNTAX
      end
  end.
(** A command by its first word; comments and unknown words. *)
Definition execute (args : list string) : SHM Z :=
  match args with
  | [] => ret NORMAL
  | cmd :: _ =>
      match cmd with
      | EmptyString => ret NORMAL
      | String c _ =>
          if Ascii.eqb c "#" then ret NORMAL
          else match command_map !! cmd with Some m => run_command m args | None => ret SYNTAX end
      end
  end.

(** A line: a command of the operating system, a comment, or a command of the
    interpreter, unless it is within a block comment. *)
Definition record_line (line : string) (front : string) (alter_source_cmd : bool) : SHM unit :=
  push_history
    (if String.eqb front "history-save" then "# " ++ line
     else if alter_source_cmd then "# BEGIN " ++ line else line)%string.
Definition interpret_command (line : string) (record : bool) (toks : list string) (front : string)
    (alter_source_cmd : bool) : SHM Z :=
  when record (record_line line front alter_source_cmd) ;;;
  al <- gets aliases ;;
  e <- lift_res (expand_aliases al toks) ;;
  match e with
  | None => ret BADARG
  | Some toks' =>
      st <- execute toks' ;;
      when (record && alter_source_cmd) (push_history ("# END " ++ line)) ;;;
      subshell_if st
  end.
Definition interpret_line (line : string) (record : bool) : SHM Z :=
  match line with
  | String "!"%char rest =>
      let cursor := eat_whitespace rest in
      when record (push_history ("!" ++ cursor)) ;;;
      modify (fun r => put_shell_log (shell_log r ++ [cursor]) r) ;;;
      ret NORMAL
  | String "#"%char _ => ret NORMAL
  | _ =>
      let toks := tokenize line in
      match toks with
      | [] => ret NORMAL
      | front :: _ =>
          let back := List.last toks "" in
          when (begins_comment front) (
            level <- gets comment_level ;;
            require F_undef (level <? 2 ^ 31 - 1) ;;;
            modify (put_comment_level (level + 1))) ;;;
          keep <- gets keep_noninteractive_history ;;
          let alter_source_cmd := String.eqb front "source" && keep in
          level <- gets comment_level ;;
          if level =? 0 then interpret_command line record toks front alter_source_cmd
          else if ends_comment back then modify (put_comment_level (level - 1)) ;;; ret NORMAL
          else ret NORMAL
      end
  end.

(** [interpret]: the lines that the user types, up to the end of the input or
    the status [END]; leading whitespace is eaten and blank lines are skipped. *)
Definition interpret_stdin : SHM Z :=
  l <- gets stdin_lines ;;
  match l with
  | [] => ret NORMAL
  | line :: l' =>
      modify (put_stdin_lines l') ;;;
      st <- (let line := eat_whitespace line in
             if nonempty line then rec (R_line line true) else ret NORMAL) ;;
      if continue_interpreter st true then rec R_stdin else ret NORMAL
  end.
End Knot.

Fixpoint interp (fuel : nat) (q : request) : SHM Z :=
  match fuel with
  | O => fail F_fuel
  | S fuel' =>
      match q with
      | R_line line record => interpret_line (interp fuel') line record
      | R_exec args => execute (interp fuel') args
      | R_stdin => interpret_stdin (interp fuel')
      end
  end.
End Commands.
End Shell.
Arguments shell : clear implicits.
Arguments command_main : clear implicits.
