(* ===== verification/RegistryProps.v ===== *)
(** Properties of the command interpreter: the expansion of aliases against
    rewriting, what a session may do to the simulator, block comments, and
    command lines that never return. *)
From stdpp Require Import strings.
From S2P Require Import Prelude Strings SimTime Directory State Registry.
Open Scope Z_scope.
Local Open Scope hackt_scope.
#[local] Abbreviation length := Datatypes.length.

(** ** Aliases as a rewriting system *)
Section Aliases.
Context (al : gmap string (list string)).

(** The first word is replaced. *)
Inductive head_step : list string -> list string -> Prop :=
  | head_step_intro a x l : al !! a = Some x -> head_step (a :: l) (x ++ l).
Definition expanded (c : list string) : Prop := exists a l, c = a :: l /\ al !! a = None.
(** No alias stands for nothing, as the command [alias] sees to. *)
Definition aliases_ok : Prop := forall a x, al !! a = Some x -> x <> [].

Lemma head_step_det c c1 c2 : head_step c c1 -> head_step c c2 -> c1 = c2.
Proof. intros [a x l E] H. inversion H; subst. congruence. Qed.

(** Words that lead from one to another, ending at [h]. *)
Definition leads (seen : list string) (h : string) : Prop :=
  forall a, a ∈ seen -> exists y t, al !! a = Some (y :: t) /\ (y ∈ seen \/ y = h).

Lemma leads_forever seen h c : leads seen h -> h ∈ seen ->
  (exists a l, c = a :: l /\ a ∈ seen) -> forall c', rtc head_step c c' -> exists c'', head_step c' c''.
Proof.
  intros Hl Hh Hc c' Hr. assert (exists a l, c' = a :: l /\ a ∈ seen) as (a & l & -> & Ha).
  { induction Hr as [c|c c1 c2 Hs _ IH]; [done|]. apply IH. destruct Hc as (a & l & -> & Ha).
    destruct (Hl a Ha) as (y & t & Ey & Hy). inversion Hs; subst. simplify_eq.
    exists y, (t ++ l). split; [done|]. by destruct Hy as [Hy| ->]. }
  destruct (Hl a Ha) as (y & t & Ey & _). by exists ((y :: t) ++ l).
Qed.

Lemma seen_bound seen : NoDup seen -> (forall a, a ∈ seen -> is_Some (al !! a)) -> (length seen <= size al)%nat.
Proof.
  intros Hnd Hs. rewrite <- size_dom. rewrite <- (size_list_to_set (C:=gset string)) by done.
  apply subseteq_size. intros a Ha. apply elem_of_dom, Hs. by apply elem_of_list_to_set in Ha.
Qed.

(** What the expansion of [c] comes to. *)
Definition expansion (c : list string) (r : res (option (list string))) : Prop :=
  match r with
  | Ok (Some c') => rtc head_step c c' /\ expanded c'
  | Ok None => forall c', rtc head_step c c' -> exists c'', head_step c' c''
  | Err _ => False
  end.

Lemma expand_aliases_loop_correct (c0 : list string) fuel : forall seen a l,
  aliases_ok -> NoDup seen -> (forall b, b ∈ seen -> is_Some (al !! b)) -> leads seen a ->
  (exists b l0, c0 = b :: l0 /\ (b ∈ seen \/ b = a)) -> rtc head_step c0 (a :: l) ->
  (S (size al) < fuel + length seen)%nat -> expansion c0 (expand_aliases_loop fuel al seen (a :: l)).
Proof.
  induction fuel as [|fuel IH]; intros seen a l Hok Hnd Hs Hl H0 Hr Hf.
  { pose proof (seen_bound seen Hnd Hs). lia. }
  cbn [expand_aliases_loop]. destruct (al !! a) as [x|] eqn:Ea.
  - destruct (bool_decide_reflect (a ∈ seen)) as [Ha|Ha].
    + intros c' Hc'. apply (leads_forever seen a c0); [done|done| |done].
      destruct H0 as (b & l0 & E & [Hb|Hb]); exists b, l0; by subst.
    + destruct x as [|y t]; [by destruct (Hok a [] Ea)|]. apply (IH (a :: seen) y (t ++ l)).
      * done.
      * by constructor.
      * intros b [->|Hb]%elem_of_cons; [by exists (y :: t)|by apply Hs].
      * intros b [->|Hb]%elem_of_cons; [exists y, t; by split; [|right]|].
        destruct (Hl b Hb) as (y' & t' & E & [Hy'| ->]); [exists y', t'|exists a, t'];
          (split; [done|left]); [by right|by left].
      * destruct H0 as (b & l0 & E & Hb). exists b, l0. split; [done|left]. apply elem_of_cons. tauto.
      * eapply rtc_r; [exact Hr|]. by apply (head_step_intro a (y :: t) l).
      * cbn [length]. lia.
  - split; [done|]. by exists a, l.
Qed.

(** The expansion of aliases always ends: with the fully expanded command, or
    with an error exactly when the expansion would go on for ever. *)
Lemma expand_aliases_total c : aliases_ok -> c <> [] -> expansion c (expand_aliases al c).
Proof.
  intros Hok Hc. destruct c as [|a l]; [done|]. unfold expand_aliases.
  apply expand_aliases_loop_correct; try done.
  - constructor.
  - intros b Hb. by apply elem_of_nil in Hb.
  - intros b Hb. by apply elem_of_nil in Hb.
  - exists a, l. split; [done|by right].
  - cbn. lia.
Qed.
Lemma expand_aliases_nonempty c c' : aliases_ok -> c <> [] -> expand_aliases al c = Ok (Some c') -> c' <> [].
Proof.
  intros Hok Hc E. pose proof (expand_aliases_total c Hok Hc) as H. rewrite E in H.
  destruct H as [_ (a & l & -> & _)]. done.
Qed.
End Aliases.

(** ** What a session does to the shell

    [R] relates the shell before and after; what the interpreter itself changes
    must be in [R]. *)
Class ShellRel {St : Type} (R : shell St -> shell St -> Prop) : Prop := {
  sr_refl : forall r, R r r;
  sr_trans : forall r1 r2 r3, R r1 r2 -> R r2 r3 -> R r1 r3;
  sr_history : forall h r, R r (put_history h r);
  sr_level : forall n r, R r (put_comment_level n r);
  sr_log : forall l r, R r (put_shell_log l r);
  sr_stdin : forall l r, R r (put_stdin_lines l r);
  sr_file : forall r df r1 x l, df ∉ open_files r -> R (put_open_files (df :: open_files r) r) r1 ->
    open_files r1 = x :: l -> R r (put_open_files l r1)
}.

Section Keeps.
Context {St : Type} {senv : ShellEnv} (R : shell St -> shell St -> Prop) {HR : ShellRel R}.
#[local] Abbreviation SHM := (M (shell St)).

Definition keeps {A} (m : SHM A) : Prop := forall r, wlp m (fun _ => R r) r.

Lemma keeps_ret {A} (a : A) : keeps (ret a).
Proof. intros r. apply wpe_ret. apply sr_refl. Qed.
Lemma keeps_fail {A} f : keeps (fail f : SHM A).
Proof. done. Qed.
Lemma keeps_bind {A B} (m : SHM A) (k : A -> SHM B) :
  keeps m -> (forall a, keeps (k a)) -> keeps (bind m k).
Proof.
  intros Hm Hk r. apply wpe_bind. eapply wpe_mono; [apply Hm|]. intros a r1 H1.
  eapply wpe_mono; [apply Hk|]. intros b r2 H2. exact (sr_trans _ _ _ H1 H2).
Qed.
Lemma keeps_gets {A} (g : shell St -> A) : keeps (gets g).
Proof. intros r. apply wpe_gets. apply sr_refl. Qed.
Lemma keeps_lift_res {A} (x : res A) : keeps (lift_res x).
Proof. intros r. apply wpe_lift_res; [intros; apply sr_refl|done]. Qed.
Lemma keeps_of_option {A} f (o : option A) : keeps (of_option f o).
Proof. intros r. apply wpe_of_option; [intros; apply sr_refl|done]. Qed.
Lemma keeps_require f b : keeps (require f b).
Proof. intros r. apply wpe_require; [intros; apply sr_refl|done]. Qed.
Lemma keeps_when b (m : SHM unit) : keeps m -> keeps (when b m).
Proof. intros Hm. destruct b; [done|apply keeps_ret]. Qed.
Lemma keeps_modify g : (forall r, R r (g r)) -> keeps (modify g).
Proof. intros Hg r. by apply wpe_modify. Qed.
End Keeps.

Create HintDb hackt_keeps.
#[export] Hint Resolve keeps_ret keeps_fail keeps_gets keeps_lift_res keeps_of_option
  keeps_require : hackt_keeps.
#[export] Hint Extern 1 (ShellRel _) => typeclasses eauto : hackt_keeps.
Ltac keeps_step :=
  match goal with
  | |- forall _, _ => intro
  | |- ShellRel _ => typeclasses eauto
  | |- keeps _ (bind _ _) => apply keeps_bind
  | |- keeps _ (when _ _) => apply keeps_when
  | |- keeps _ (modify _) => apply keeps_modify; intro;
      first [apply sr_history|apply sr_level|apply sr_log|apply sr_stdin]
  | |- keeps _ (match ?x with _ => _ end) => destruct x
  | |- keeps _ (if ?x then _ else _) => destruct x
  | |- keeps _ _ => solve [eauto with hackt_keeps]
  end.
Ltac solve_keeps := repeat keeps_step.

Section Session.
Context {St : Type} {senv : ShellEnv} (R : shell St -> shell St -> Prop) {HR : ShellRel R}.
#[local] Abbreviation SHM := (M (shell St)).
Context (rec : request -> SHM Z) (Hrec : forall q, keeps R (rec q)).

Lemma keeps_source_lines lines st : keeps R (source_lines rec lines st).
Proof. revert st. induction lines as [|l lines IH]; intros st; cbn; solve_keeps. Qed.

Lemma keeps_source f : keeps R (source rec f).
Proof.
  unfold source. apply keeps_bind; [done|apply keeps_gets; done|]. intros paths r.
  apply wpe_bind, wpe_gets. destruct (open_ifstream paths f) as [[df lines]|] eqn:Eo; [|by apply keeps_ret].
  assert (Hdf : nonempty df = true).
  { unfold open_ifstream in Eo. destruct (read_file f) as [ls|] eqn:Ef.
    - injection Eo as <- <-. unfold nonempty. destruct (String.eqb_spec f ""); [|done].
      subst. by rewrite read_file_empty in Ef.
    - clear Ef. induction paths as [|p paths IHp]; cbn in Eo; [done|].
      destruct (read_file _); [|by apply IHp]. injection Eo as <- <-. by destruct p. }
  rewrite Hdf. cbn [andb when]. destruct (bool_decide_reflect (df ∈ open_files r)) as [Hin|Hin].
  { by apply keeps_ret. }
  apply wpe_bind, wpe_modify, wpe_bind. set (r0 := put_open_files _ r).
  assert (Hs : keeps R (__source rec lines)) by (unfold __source; pose proof keeps_source_lines; solve_keeps).
  eapply wpe_mono; [apply Hs|]. intros st r1 H1. apply wpe_bind. unfold close_ifstream.
  apply wpe_bind, wpe_gets. destruct (open_files r1) as [|x l] eqn:El; [done|].
  apply wpe_modify, wpe_ret. by apply (sr_file r df r1 x l).
Qed.

Lemma keeps_source_files fs st : keeps R (source_files rec fs st).
Proof. pose proof keeps_source. revert st. induction fs as [|f fs IH]; intros st; cbn; solve_keeps. Qed.
Lemma keeps_rerun_lines i : keeps R (rerun_lines rec i).
Proof. induction i as [|k i IH]; cbn; solve_keeps. Qed.
Lemma keeps_repeat_loop body n st : keeps R body -> keeps R (repeat_loop body n st).
Proof. intros Hb. revert st. induction n as [|n IH]; intros st; cbn; solve_keeps. Qed.
Lemma keeps_execute_here c : keeps R (execute_here rec c).
Proof. unfold execute_here, subshell_if. solve_keeps. Qed.

Context (command_map : gmap string (command_main St)).
Definition plain_keeps : Prop :=
  forall name main a, command_map !! name = Some (Plain main) -> keeps R (main a).

Lemma keeps_run_command name m a : plain_keeps -> command_map !! name = Some m -> keeps R (run_command rec m a).
Proof.
  intros Hp Hm. pose proof keeps_execute_here. pose proof keeps_repeat_loop.
  unfold run_command. destruct m.
  - by eapply Hp.
  - solve_keeps.
  - solve_keeps.
  - unfold source_main. pose proof keeps_source_files. solve_keeps.
  - unfold history_rerun_main, rerun. pose proof keeps_rerun_lines. solve_keeps.
  - solve_keeps.
Qed.

Lemma keeps_execute args : plain_keeps -> keeps R (execute command_map rec args).
Proof.
  intros Hp. unfold execute. destruct args as [|cmd l]; [solve_keeps|].
  destruct cmd as [|c cmd]; [solve_keeps|]. destruct (Ascii.eqb _ _); [solve_keeps|].
  destruct (command_map !! _) eqn:E; [|solve_keeps]. by eapply keeps_run_command.
Qed.

Lemma keeps_interpret_line line record : plain_keeps -> keeps R (interpret_line command_map rec line record).
Proof.
  intros Hp. pose proof (fun a => keeps_execute a Hp).
  unfold interpret_line, interpret_command, record_line, push_history, subshell_if. solve_keeps.
Qed.
Lemma keeps_interpret_stdin : keeps R (interpret_stdin rec).
Proof. unfold interpret_stdin. solve_keeps. Qed.
End Session.

(** Whatever a session interprets, if each command of the registry keeps [R],
    so does the session. *)
Lemma interp_keeps {St} {senv : ShellEnv} (R : shell St -> shell St -> Prop) `{!ShellRel R} command_map fuel q :
  plain_keeps R command_map -> keeps R (interp command_map fuel q).
Proof.
  intros Hp. revert q. induction fuel as [|fuel IH]; intros q; [done|]. cbn [interp]. destruct q.
  - by apply keeps_interpret_line.
  - by apply keeps_execute.
  - by apply keeps_interpret_stdin.
Qed.

(** ** The simulator through a session *)
Section OnSim.
Context {St : Type} {senv : ShellEnv} (Rs : St -> St -> Prop) {HRs : PreOrder Rs}.

Definition sim_rel (r r' : shell St) : Prop := Rs (sim r) (sim r').
#[export] Instance sim_rel_shell : ShellRel sim_rel.
Proof.
  split.
  - intros r. by unfold sim_rel.
  - intros r1 r2 r3 H1 H2. unfold sim_rel in *. by etransitivity.
  - intros h r. by unfold sim_rel.
  - intros n r. by unfold sim_rel.
  - intros l r. by unfold sim_rel.
  - intros l r. by unfold sim_rel.
  - intros r df r1 x l _ H _. exact H.
Qed.
End OnSim.

(** ** Well-formed shells *)
Section ShellOk.
Context {St : Type} {senv : ShellEnv}.
#[local] Abbreviation SHM := (M (shell St)).

(** No alias stands for nothing, there is a working directory, and no file is
    open twice. *)
Record shell_ok (r : shell St) : Prop := {
  sok_aliases : aliases_ok (aliases r);
  sok_dirs : dir_stack (dirs r) <> [];
  sok_files : NoDup (open_files r)
}.
Definition ok_rel (r r' : shell St) : Prop := shell_ok r -> shell_ok r' /\ open_files r' = open_files r.
Lemma ok_rel_same r r' : aliases r' = aliases r -> dirs r' = dirs r -> open_files r' = open_files r -> ok_rel r r'.
Proof. intros Ea Ed Eo [Ha Hd Ho]. split; [|done]. split; by rewrite ?Ea, ?Ed, ?Eo. Qed.
#[export] Instance ok_rel_shell : ShellRel ok_rel.
Proof.
  split.
  - intros r. by apply ok_rel_same.
  - intros r1 r2 r3 H1 H2 Hr. destruct (H1 Hr) as [Hr2 E1]. destruct (H2 Hr2) as [Hr3 E2].
    split; [done|congruence].
  - intros h r. by apply ok_rel_same.
  - intros n r. by apply ok_rel_same.
  - intros l r. by apply ok_rel_same.
  - intros l r. by apply ok_rel_same.
  - intros r df r1 x l Hdf H El [Ha Hd Ho].
    destruct H as [[Ha1 Hd1 Ho1] E1]; [split; try done; by constructor|].
    cbn in E1. rewrite El in E1. injection E1 as -> ->. by split.
Qed.
End ShellOk.

(** The commands of the interpreter itself. *)
Section Builtins.
Context {St : Type} {senv : ShellEnv} (R : shell St -> shell St -> Prop) {HR : ShellRel R}.
Context (Raliases : forall al r, (aliases_ok (aliases r) -> aliases_ok al) -> R r (put_aliases al r))
  (Rdirs : forall l r, l <> [] -> R r (put_dirs (put_dir_stack l (dirs r)) r))
  (Rtypes : forall l r, R r (put_type_stack l r))
  (Recho : forall b r, R r (put_echo_commands b r))
  (Rkeep : forall b r, R r (put_keep_noninteractive_history b r))
  (Rpaths : forall l r, R r (put_search_paths l r)).

Lemma keeps_alias_main is_command is_category a : keeps R (alias_main is_command is_category a).
Proof.
  unfold alias_main, add_alias. destruct a as [|c [|n [|w ac]]]; try by apply keeps_ret.
  destruct (_ || _); [by apply keeps_ret|]. intros r. apply wpe_bind, wpe_gets.
  destruct (aliases r !! n) eqn:E; [apply wpe_ret, HR|]. apply wpe_bind, wpe_modify, wpe_ret.
  apply Raliases. intros Hok b x Hb. destruct (decide (b = n)) as [->|Hne].
  - rewrite lookup_insert_eq in Hb. by simplify_eq.
  - rewrite lookup_insert_ne in Hb by done. by eapply Hok.
Qed.
Lemma keeps_unalias_main a : keeps R (unalias_main a).
Proof.
  unfold unalias_main. destruct a as [|c [|n [|]]]; try by apply keeps_ret. intros r.
  apply wpe_bind, wpe_modify, wpe_ret. apply Raliases. intros Hok b x Hb.
  apply lookup_delete_Some in Hb as [_ Hb]. by eapply Hok.
Qed.
Lemma keeps_unalias_all_main a : keeps R (unalias_all_main a).
Proof.
  unfold unalias_all_main. destruct a as [|c [|]]; try by apply keeps_ret. intros r.
  apply wpe_bind, wpe_modify, wpe_ret. apply Raliases. intros _ b x Hb. by rewrite lookup_empty in Hb.
Qed.
Lemma keeps_constant_main st a : keeps R (constant_main st a).
Proof. by apply keeps_ret. Qed.
Lemma keeps_print_main n a : keeps R (print_main n a).
Proof. by apply keeps_ret. Qed.
Lemma keeps_on_off set arg bad : (forall b r, R r (set b r)) -> keeps R (on_off set arg bad).
Proof.
  intros H. unfold on_off. repeat (case_match; [|try by apply keeps_ret]);
    (apply keeps_bind; [done|by apply keeps_modify|intros; by apply keeps_ret]).
Qed.
Lemma keeps_echo_commands_main a : keeps R (echo_commands_main a).
Proof. pose proof keeps_on_off. unfold echo_commands_main. solve_keeps. Qed.
Lemma keeps_history_noninteractive_main a : keeps R (history_noninteractive_main a).
Proof. pose proof keeps_on_off. unfold history_noninteractive_main. solve_keeps. Qed.
Lemma keeps_history_main a : keeps R (history_main a).
Proof. unfold history_main. solve_keeps. Qed.
Lemma keeps_history_save_main a : keeps R (history_save_main a).
Proof. unfold history_save_main. solve_keeps. Qed.
Lemma keeps_push_type_main a : keeps R (push_type_main a).
Proof. unfold push_type_main. solve_keeps; apply keeps_modify; auto. Qed.
Lemma keeps_pop_type_main a : keeps R (pop_type_main a).
Proof. unfold pop_type_main, in_local_type. solve_keeps; apply keeps_modify; auto. Qed.
Lemma keeps_add_path_main a : keeps R (add_path_main a).
Proof. unfold add_path_main. solve_keeps; apply keeps_modify; auto. Qed.

(** The stack of directories never becomes empty. *)
Lemma keeps_on_dirs {A} (m : M directory_stack A) :
  (forall d, wlp m (fun _ d' => d' = d \/ exists l, l <> [] /\ d' = put_dir_stack l d) d) -> keeps R (on_dirs m).
Proof.
  intros H r. specialize (H (dirs r)). unfold on_dirs, wpe in *. destruct (m (dirs r)) as [[a d]|f]; [|done].
  destruct H as [->|(l & Hl & ->)]; [|by apply Rdirs]. destruct r. apply HR.
Qed.
Lemma change_directory_dirs d0 l0 rel : l0 <> [] ->
  wlp (change_directory rel) (fun _ d' => exists l, l <> [] /\ d' = put_dir_stack l d0) (put_dir_stack l0 d0).
Proof.
  intros Hl. apply wpe_bind, wpe_gets. destruct d0; cbn. destruct l0 as [|c l]; [done|].
  apply wpe_bind, wpe_of_option; [|done]. intros cur' _. apply wpe_modify. by exists (cur' :: l).
Qed.
Lemma put_dir_stack_same d : put_dir_stack (dir_stack d) d = d.
Proof. by destruct d. Qed.
Lemma keeps_change_directory rel : keeps R (on_dirs (change_directory rel)).
Proof.
  apply keeps_on_dirs. intros d. destruct (decide (dir_stack d = [])) as [E|E].
  - apply wpe_bind, wpe_gets. unfold id. by rewrite E.
  - pose proof (change_directory_dirs d _ rel E) as H. rewrite put_dir_stack_same in H.
    eapply wpe_mono; [exact H|]. cbn. auto.
Qed.
Lemma keeps_push_directory rel : keeps R (on_dirs (push_directory rel)).
Proof.
  apply keeps_on_dirs. intros d. apply wpe_bind, wpe_gets. unfold id.
  destruct (dir_stack d) as [|cur l] eqn:E; [done|]. apply wpe_bind, wpe_modify.
  eapply wpe_mono; [by apply (change_directory_dirs d (cur :: cur :: l))|]. cbn. auto.
Qed.
Lemma keeps_pop_directory : keeps R (on_dirs pop_directory).
Proof.
  apply keeps_on_dirs. intros d. apply wpe_bind, wpe_gets. unfold id.
  destruct (dir_stack d) as [|cur [|c l]]; try (apply wpe_ret; by left).
  apply wpe_bind, wpe_modify, wpe_ret. right. by exists (c :: l).
Qed.
Lemma keeps_change_dir_abs s : keeps R (change_dir_abs s).
Proof. pose proof keeps_change_directory. unfold change_dir_abs. solve_keeps. Qed.
Lemma keeps_change_dir_main a : keeps R (change_dir_main a).
Proof. pose proof keeps_change_directory. pose proof keeps_change_dir_abs. unfold change_dir_main. solve_keeps. Qed.
Lemma keeps_push_dir_main a : keeps R (push_dir_main a).
Proof. pose proof keeps_push_directory. pose proof keeps_pop_directory. unfold push_dir_main. solve_keeps. Qed.
Lemma keeps_pop_dir_main a : keeps R (pop_dir_main a).
Proof. pose proof keeps_pop_directory. unfold pop_dir_main. solve_keeps. Qed.
End Builtins.

(** ** Fuel *)
Section Fuel.
Context {St : Type} {senv : ShellEnv} (command_map : gmap string (command_main St)).

Section OneStep.
Context (rec rec' : request -> M (shell St) Z) (Hrec : forall q, approx (rec q) (rec' q)).
Lemma approx_source_lines lines st : approx (source_lines rec lines st) (source_lines rec' lines st).
Proof. revert st. induction lines as [|l lines IH]; intros st; cbn; solve_approx. Qed.
Lemma approx_source f : approx (source rec f) (source rec' f).
Proof. pose proof approx_source_lines. unfold source, __source. solve_approx. Qed.
Lemma approx_source_files fs st : approx (source_files rec fs st) (source_files rec' fs st).
Proof. pose proof approx_source. revert st. induction fs as [|f fs IH]; intros st; cbn; solve_approx. Qed.
Lemma approx_rerun_lines i : approx (rerun_lines rec i) (rerun_lines rec' i).
Proof. induction i as [|k i IH]; cbn; solve_approx. Qed.
Lemma approx_execute_here c : approx (execute_here rec c) (execute_here rec' c).
Proof. unfold execute_here, subshell_if. solve_approx. Qed.
Lemma approx_repeat_loop (b b' : M (shell St) Z) n st : approx b b' -> approx (repeat_loop b n st) (repeat_loop b' n st).
Proof. intros Hb. revert st. induction n as [|n IH]; intros st; cbn; solve_approx. Qed.
Lemma approx_run_command m a : approx (run_command rec m a) (run_command rec' m a).
Proof.
  pose proof approx_execute_here. pose proof approx_source_files. pose proof approx_rerun_lines.
  unfold run_command, source_main, history_rerun_main, rerun. destruct m; solve_approx. by apply approx_repeat_loop.
Qed.
Lemma approx_execute args : approx (execute command_map rec args) (execute command_map rec' args).
Proof. pose proof approx_run_command. unfold execute. solve_approx. Qed.
Lemma approx_interpret_line line record :
  approx (interpret_line command_map rec line record) (interpret_line command_map rec' line record).
Proof. pose proof approx_execute. unfold interpret_line, interpret_command, subshell_if. cbv zeta. solve_approx. Qed.
Lemma approx_interpret_stdin : approx (interpret_stdin rec) (interpret_stdin rec').
Proof. unfold interpret_stdin. cbv zeta. solve_approx. Qed.
End OneStep.

(** What a session does, it does with any more fuel. *)
Lemma interp_approx fuel fuel' q : (fuel <= fuel')%nat -> approx (interp command_map fuel q) (interp command_map fuel' q).
Proof.
  revert fuel' q. induction fuel as [|fuel IH]; intros fuel' q Hle; [apply approx_out|].
  destruct fuel' as [|fuel']; [lia|]. assert (Hr : forall q, approx (interp command_map fuel q) (interp command_map fuel' q)).
  { intros. apply IH. lia. }
  cbn [interp]. destruct q.
  - by apply approx_interpret_line.
  - by apply approx_execute.
  - by apply approx_interpret_stdin.
Qed.
End Fuel.
