(* ===== verification/Events.v ===== *)
(** Events of the simulator: the part of "sim/prsim/State-prsim.cc" that
    allocates, queues, kills, reschedules and takes events.

    A pending event is held in three places: the event pool (its contents),
    the event queue (its time) and its node (its index).  Killing an event
    only marks it, its queue entry is dropped when it reaches the front. *)
From S2P Require Import Prelude SimTime PullSet Expr EventQueue ArrayPool OrdMap Node ProcGraph.
From S2P Require Import State.
Open Scope Z_scope.
Local Open Scope hackt_scope.
#[local] Abbreviation length := Datatypes.length.

Section Events.
Context {C : Type}.
#[local] Abbreviation State := (State C).
#[local] Abbreviation SM := (M State).

(** ** Access to nodes and events *)
Definition get_node (i : nat) : SM NodeState :=
  np <- gets node_pool ;; of_option F_index (np !! i).
Definition upd_node (i : nat) (f : NodeState -> NodeState) : SM unit :=
  n <- get_node i ;;
  modify (fun s => put_node_pool (<[i := f n]> (node_pool s)) s).
(** For the member functions of a node that assert. *)
Definition upd_node_res (i : nat) (f : NodeState -> res NodeState) : SM unit :=
  n <- get_node i ;;
  n' <- lift_res (f n) ;;
  modify (fun s => put_node_pool (<[i := n']> (node_pool s)) s).

Definition get_event (i : nat) : SM Event :=
  p <- gets event_pool ;; lift_res (pool_get p i).
Definition upd_event (i : nat) (f : Event -> Event) : SM unit :=
  e <- get_event i ;;
  p <- gets event_pool ;;
  p' <- lift_res (pool_set p i (f e)) ;;
  modify (put_event_pool p').

Definition pool_allocate (e : Event) : SM nat :=
  p <- gets event_pool ;;
  ip <- lift_res (allocate p e) ;;
  modify (put_event_pool ip.2) ;;;
  ret ip.1.
Definition pool_deallocate (i : nat) : SM unit :=
  p <- gets event_pool ;;
  p' <- lift_res (deallocate p i) ;;
  modify (put_event_pool p').

Definition queue_push (t : real_time) (i : nat) : SM unit :=
  modify (fun s => put_event_queue (push (event_queue s) (mkPlaceholder t i)) s).
Definition queue_pop : SM (EventPlaceholder real_time) :=
  q <- gets event_queue ;;
  xq <- lift_res (pop q) ;;
  modify (put_event_queue xq.2) ;;;
  ret xq.1.

(** ** Allocation *)
Definition __copy_event (e : Event) : SM nat := pool_allocate e.

(** [ni]: the index of the node that is passed by reference. *)
Definition __allocate_event (ni : nat) (e : Event) : SM nat :=
  n <- get_node ni ;;
  require F_ise (negb (pending_event n)) ;;;
  require F_ise (negb (is_frozen n) || forced e) ;;;
  i <- pool_allocate e ;;
  upd_node_res ni (set_event i) ;;;
  ret i.

Definition __allocate_event_new (ni : nat) (c : cause_type) (ri : nat) (r : option rule_ref)
    (val : value_enum) (weak frc : bool) : SM nat :=
  n <- get_node ni ;;
  require F_ise (negb (pending_event n)) ;;;
  let e := Event_make ni c ri r val weak in
  __allocate_event ni (if frc then force e else e).

Definition __allocate_pending_interference_event (ni : nat) (c : cause_type)
    (next : value_enum) (weak : bool) : SM nat :=
  ne <- pool_allocate (Event_make ni c INVALID_RULE_INDEX None next weak) ;;
  upd_event ne (set_pending_interference true) ;;;
  ret ne.

Definition __load_allocate_event (ev : Event) : SM nat :=
  ne <- pool_allocate ev ;;
  when (negb (killed ev)) (upd_node_res (ev_node ev) (load_event ne)) ;;;
  ret ne.

Definition __deallocate_event (ni i : nat) : SM unit :=
  upd_node ni clear_event ;;; pool_deallocate i.
Definition __deallocate_pending_interference_event (i : nat) : SM unit := pool_deallocate i.
Definition __deallocate_killed_event (i : nat) : SM unit := pool_deallocate i.

(** The loops over the queue only look at events. *)
Fixpoint any_live (p : array_pool Event) (q : list (EventPlaceholder real_time)) : res bool :=
  match q with
  | [] => Ok false
  | x :: q' =>
      match pool_get p (ep_index x) with
      | Ok e => if negb (killed e) then Ok true else any_live p q'
      | Err f => Err f
      end
  end.
Definition pending_live_events : SM bool :=
  q <- gets event_queue ;;
  p <- gets event_pool ;;
  if eq_empty q then ret false else lift_res (any_live p q).

Fixpoint first_live_time (p : array_pool Event) (q : list (EventPlaceholder real_time))
    : res real_time :=
  match q with
  | [] => Ok real_max   (* delay_policy<time_type>::max() *)
  | x :: q' =>
      match pool_get p (ep_index x) with
      | Ok e => if negb (killed e) then Ok (ep_time x) else first_live_time p q'
      | Err f => Err f
      end
  end.
Definition next_event_time : SM real_time :=
  q <- gets event_queue ;;
  p <- gets event_pool ;;
  lift_res (first_live_time p q).

(** ** Killing and queueing *)
Definition kill_event (ei ni : nat) : SM unit :=
  upd_event ei kill ;;; upd_node ni clear_event.

(** An event in the past is still pushed before the abort. *)
Definition load_enqueue_event (t : real_time) (ei : nat) : SM nat :=
  require F_assert (negb (Nat.eqb ei 0)) ;;;
  e <- get_event ei ;;
  now <- gets current_time ;;
  when (negb (t_le now t)) (queue_push t ei ;;; fail F_ise) ;;;
  queue_push t ei ;;;
  ret (ev_node e).

Definition enqueue_event (t : real_time) (ei : nat) : SM unit :=
  ni <- load_enqueue_event t ei ;;
  n <- get_node ni ;;
  require F_ise (pending_event n) ;;;
  require F_ise (Nat.eqb (n_event_index n) ei) ;;;
  require F_ise (negb (is_atomic n)).

(** ** Descheduling and rescheduling: true signals an error *)
Definition deschedule_event (ni : nat) : SM bool :=
  n <- get_node ni ;;
  if pending_event n then kill_event (n_event_index n) ni ;;; ret false
  else ret true.

(** Pops the entries of the front that are due now. *)
Fixpoint pop_due (now : real_time) (q : list (EventPlaceholder real_time))
    : list (EventPlaceholder real_time) * list (EventPlaceholder real_time) :=
  match q with
  | x :: q' =>
      if t_eqb (ep_time x) now then let '(tmp, rest) := pop_due now q' in (x :: tmp, rest)
      else ([], q)
  | [] => ([], [])
  end.

(** The copy of an event takes its place, the original is killed. *)
Definition replace_event (ni ei : nat) : SM nat :=
  e <- get_event ei ;;
  ne <- __copy_event e ;;
  kill_event ei ni ;;;
  upd_node_res ni (set_event ne) ;;;
  ret ne.

Definition reschedule_event_now (ni : nat) : SM bool :=
  n <- get_node ni ;;
  if pending_event n then
    ne <- replace_event ni (n_event_index n) ;;
    now <- gets current_time ;;
    q <- gets event_queue ;;
    let '(tmp, rest) := pop_due now q in
    modify (put_event_queue rest) ;;;
    enqueue_event now ne ;;;
    for_each tmp (fun x => modify (fun s => put_event_queue (push (event_queue s) x) s)) ;;;
    ret false
  else ret true.

Definition reschedule_event (ni : nat) (t : real_time) : SM bool :=
  now <- gets current_time ;;
  if t_lt t now then ret true
  else
    n <- get_node ni ;;
    if pending_event n then
      ne <- replace_event ni (n_event_index n) ;;
      enqueue_event t ne ;;;
      ret false
    else ret true.

Definition reschedule_event_relative (ni : nat) (dt : real_time) : SM bool :=
  n <- get_node ni ;;
  if pending_event n then
    q <- gets event_queue ;;
    let temp := copy_to id q [] in
    let t := match List.find (index_finder (n_event_index n)) temp with
             | Some x => ep_time x
             | None => real_invalid_value
             end in
    require F_assert (negb (t_eqb t real_invalid_value)) ;;;
    reschedule_event ni (t_add t dt)
  else ret true.

Definition reschedule_event_future (ni : nat) (dt : real_time) : SM bool :=
  now <- gets current_time ;;
  reschedule_event ni (t_add now dt).

(** ** Taking events *)
Fixpoint flush_killed_loop (fuel : nat) : SM unit :=
  match fuel with
  | O => fail F_fuel
  | S fuel' =>
      q <- gets event_queue ;;
      if eq_empty q then ret tt
      else
        x <- lift_res (top q) ;;
        e <- get_event (ep_index x) ;;
        if killed e then
          y <- queue_pop ;;
          __deallocate_killed_event (ep_index y) ;;;
          flush_killed_loop fuel'
        else ret tt
  end.
Definition flush_killed_events : SM unit :=
  q <- gets event_queue ;; flush_killed_loop (S (length q)).

(** Empties the queue, as the destructor and [__initialize_state] do. *)
Fixpoint drain_loop (fuel : nat) : SM unit :=
  match fuel with
  | O => fail F_fuel
  | S fuel' =>
      q <- gets event_queue ;;
      if eq_empty q then ret tt
      else
        next <- queue_pop ;;
        pool_deallocate (ep_index next) ;;;
        drain_loop fuel'
  end.
Definition drain_events : SM unit :=
  q <- gets event_queue ;; drain_loop (S (length q)).

(** ** The simulator's check of the queue against the nodes *)
Definition check_event (unique_nodes : list (nat * nat)) (x : EventPlaceholder real_time)
    : SM (list (nat * nat)) :=
  e <- get_event (ep_index x) ;;
  n <- get_node (ev_node e) ;;
  let ne := n_event_index n in
  if killed e then
    require F_ise (Nat.eqb ne 0 || negb (Nat.eqb ne (ep_index x))) ;;;
    ret unique_nodes
  else
    let '(unique_nodes', inserted) := m_insert (ev_node e) (ep_index x) unique_nodes in
    require F_ise (negb (Nat.eqb ne 0) && Nat.eqb ne (ep_index x) && inserted) ;;;
    ret unique_nodes'.
Definition check_event_queue : SM unit :=
  q <- gets event_queue ;;
  fold_m (copy_to id q []) [] check_event ;;;
  ret tt.
End Events.
