(* ===== verification/Schedule.v ===== *)
(** Scheduling: the part of "sim/prsim/State-prsim.cc" that computes delays,
    sets and unsets nodes, and takes the next event, with the timing fanin of
    "sim/prsim/DelayBackAnnotation.cc". *)
From S2P Require Import Prelude SimTime PullSet Expr EventQueue ArrayPool OrdMap Node ProcGraph.
From S2P Require Import Strings State Events.
From Stdlib Require Import String Ascii.
Open Scope Z_scope.
Local Open Scope hackt_scope.
#[local] Abbreviation length := Datatypes.length.

(** ** Timing mode *)
Section Timing.
(** [string_to_num]: the C++ library's number input, with the value that the
    variable had before; the variable's new value, and whether it failed. *)
Context (string_to_num : string -> real_time -> real_time * bool).

(** One side of the pair: [None] on a syntax error. *)
Definition parse_delay (tok : string) (old : real_time) : option real_time :=
  if String.eqb tok EmptyString then Some real_zero
  else
    let '(v, err) := string_to_num tok old in
    if err then None else if t_lt v real_zero then None else Some v.

(** The new pair, or [None] on error, when the old one is kept. *)
Definition parse_min_max_delay (d : string) (min_delay max_delay : real_time)
    : option (real_time * real_time) :=
  match tokenize_char d ":"%char with
  | [front; back] =>
      match parse_delay front min_delay with
      | None => None
      | Some new_min =>
          match parse_delay back max_delay with
          | None => None
          | Some new_max =>
              if real_is_zero new_max || t_lt new_min new_max then Some (new_min, new_max)
              else None
          end
      end
  | _ => None
  end.

Definition set_min_max (d : string) (t : timing_state) : timing_state * bool :=
  match parse_min_max_delay d (default_after_min t) (default_after_max t) with
  | Some (mn, mx) => (set_default_after_max mx (set_default_after_min mn t), false)
  | None => (t, true)
  end.

(** The mode is set before the arguments are parsed. *)
Definition set_timing (m : string) (a : list string) (t : timing_state) : timing_state * bool :=
  if String.eqb m "random"%string then
    let t1 := set_timing_mode TIMING_RANDOM t in
    match a with
    | [] => (t1, false)
    | [d] => set_min_max d t1
    | _ => (t1, true)
    end
  else if String.eqb m "uniform"%string then
    let t1 := set_timing_mode TIMING_UNIFORM t in
    match a with
    | [] => (t1, false)
    | [d] => let '(v, err) := string_to_num d (uniform_delay t1) in (set_uniform_delay v t1, err)
    | _ => (t1, true)
    end
  else if String.eqb m "after"%string then
    (set_timing_mode TIMING_AFTER t, negb (Nat.eqb (length a) 0))
  else if String.eqb m "binary"%string || String.eqb m "bounded"%string then
    let t1 := set_timing_mode
      (if String.eqb m "binary"%string then TIMING_BINARY else TIMING_BOUNDED) t in
    match a with
    | [d; p] =>
        let '(t2, err) := set_min_max d t1 in
        if err then (t2, true)
        else
          let '(v, perr) := string_to_num p (timing_probability t2) in
          (set_timing_probability v t2, perr)
    | _ => (t1, true)
    end
  else (t, true).
End Timing.

Section Schedule.
Context {C : Type} {env : Env}.
#[local] Abbreviation State := (State C).
#[local] Abbreviation SM := (M State).

(** ** Lookups *)
Definition get_type (tid : nat) : SM unique_process_subgraph :=
  g <- gets unique_process_pool ;; of_option F_index (g !! tid).
Definition get_process_state (pid : nat) : SM process_sim_state :=
  p <- gets process_state_array ;; of_option F_index (p !! pid).
Definition get_footprint_frame_map (pid : nat) : SM (list nat) :=
  f <- gets footprint_frames ;; of_option F_index (f !! pid).

(** The index of the process that owns a global expression. *)
Definition lookup_global_expr_process (gei : nat) : SM nat :=
  require F_assert (negb (Nat.eqb gei 0)) ;;;
  m <- gets global_expr_process_id_map ;;
  f <- of_option F_assert (m_last_le gei m) ;;
  get_process_state f.2 ;;;
  ret f.2.

(** The pointer to a rule, and the rule it points to. *)
Definition state_lookup_rule (ei : nat) : SM (option rule_ref) :=
  if negb (Nat.eqb ei 0) then
    pid <- lookup_global_expr_process ei ;;
    s <- get_process_state pid ;;
    g <- get_type (ps_type s) ;;
    ret (match local_expr_index s ei with
         | Some lei => match lookup_rule_index lei g with
                       | Some ri => Some (ps_type s, ri)
                       | None => None
                       end
         | None => None
         end)
  else ret None.
Definition state_is_rule_expr (ei : nat) : SM bool :=
  r <- state_lookup_rule ei ;; ret (match r with Some _ => true | None => false end).
Definition deref_rule (r : rule_ref) : SM Rule :=
  g <- get_type r.1 ;; of_option F_index (rule_pool g !! r.2).
Definition deref_rule_opt (r : option rule_ref) : SM (option Rule) :=
  match r with
  | Some p => x <- deref_rule p ;; ret (Some x)
  | None => ret None
  end.

(** ** Random delays *)
Definition uniform_random_delay : SM real_time :=
  r <- gets rng ;;
  modify (put_rng (mkRng (S (rng_rand48 r)) (rng_rand r))) ;;;
  ret (env_rand48 (rng_rand48 r)).

(** [drand48] passes every one of its 2^48 states before it repeats one, so
    it does not return zero twice in a row. *)
Definition exponential_fuel : nat := 2.
Definition exponential_random_delay : SM real_time :=
  r <- gets rng ;;
  d <- of_option F_fuel (random_time_double env_log env_rand48 exponential_fuel (rng_rand48 r)) ;;
  modify (put_rng (mkRng d.2 (rng_rand r))) ;;;
  ret d.1.

(** ** Delays *)
Definition __get_delay (r : option Rule) (m : Rule -> real_time) (def : real_time) : real_time :=
  match r with
  | Some r' => if negb (real_is_zero (m r')) then m r' else def
  | None => def
  end.
Definition is_rule (r : option Rule) : bool := match r with Some _ => true | None => false end.

Definition random_delay (r : option Rule) (tm : timing_state) : SM real_time :=
  if match r with Some r' => real_is_zero (r_after r') | None => false end then ret real_zero
  else
    let min_val := __get_delay r r_after_min (default_after_min tm) in
    let max_val := __get_delay r r_after_max (default_after_max tm) in
    let have_min := is_rule r && negb (real_is_zero min_val) in
    let have_max := is_rule r && negb (real_is_zero max_val) in
    if have_max then
      u <- uniform_random_delay ;;
      ret (if have_min then double_add min_val (double_mul (double_sub max_val min_val) u)
           else double_mul max_val u)
    else
      x <- exponential_random_delay ;;
      let delta := double_mul (double_of_Z 2048 0) x in
      ret (if have_min then double_add delta min_val else delta).

Definition binary_delay (tm : timing_state) (mn mx : real_time) : SM real_time :=
  u <- uniform_random_delay ;;
  ret (if t_lt u (timing_probability tm) then mn else mx).

Definition bounded_delay (r : option Rule) (tm : timing_state) : SM real_time :=
  let min_val := __get_delay r r_after_min (default_after_min tm) in
  let max_val := __get_delay r r_after_max (default_after_max tm) in
  let have_min := is_rule r && negb (real_is_zero min_val) in
  let have_max := is_rule r && negb (real_is_zero max_val) in
  require F_assert (have_min && have_max) ;;;
  require F_assert (t_le min_val max_val) ;;;
  binary_delay tm min_val max_val.

Definition delay_delta (r : option Rule) (tm : timing_state) : SM real_time :=
  match timing_mode tm with
  | TIMING_UNIFORM => ret (uniform_delay tm)
  | TIMING_RANDOM => random_delay r tm
  | mode =>
      if match r with Some r' => is_always_random r' | None => false end then random_delay r tm
      else match mode with
           | TIMING_BINARY => binary_delay tm (default_after_min tm) (default_after_max tm)
           | TIMING_BOUNDED => bounded_delay r tm
           | _ => ret (match r with Some r' => r_after r' | None => real_zero end)
           end
  end.

Definition get_delay_up (e : Event) : SM real_time :=
  r <- deref_rule_opt (ev_rule_ptr e) ;;
  tm <- gets timing ;;
  delta <- delay_delta r tm ;;
  now <- gets current_time ;;
  ret (t_add now delta).
Definition get_delay_dn (e : Event) : SM real_time := get_delay_up e.

(** The time of a new event by its value: X takes effect now. *)
Definition delay_of_value (e : Event) : SM real_time :=
  match ev_val e with
  | LOGIC_HIGH => get_delay_up e
  | LOGIC_LOW => get_delay_dn e
  | LOGIC_OTHER => gets current_time
  end.

(** ** Minimum delays *)

(** A [monotonic_vector] asserts that it only grows at the end. *)
Definition monotonic_insert (v : nat) (l : list nat) : res (list nat) :=
  match last l with
  | None => Ok (l ++ [v])
  | Some b => if Nat.ltb v b then Err F_assert else if Nat.ltb b v then Ok (l ++ [v]) else Ok l
  end.
Definition add_timing_fanin (ni pi : nat) : SM unit :=
  m <- gets timing_fanin ;;
  let ptf := match m_find ni m with Some l => l | None => [] end in
  l' <- lift_res (monotonic_insert pi ptf) ;;
  modify (put_timing_fanin (m_set ni l' m)).
Definition lookup_process_timing_fanin (ni : nat) : SM (option (list nat)) :=
  m <- gets timing_fanin ;; ret (m_find ni m).

Definition reset_min_delays : SM unit :=
  modify (fun s => put_node_pool (map reset_min_delay_target (node_pool s)) s) ;;;
  modify (put_timing_fanin []) ;;;
  modify (fun s => put_unique_process_pool (map reset_delay_constraints (unique_process_pool s)) s).

(** [bfm[i-1]]: local node indices start from 1. *)
Definition frame_node (bfm : list nat) (i : nat) : SM nat :=
  require F_index (negb (Nat.eqb i 0)) ;;;
  of_option F_index (bfm !! (i - 1)%nat).

Definition apply_min_delays (pid : nat) : SM unit :=
  s <- get_process_state pid ;;
  g <- get_type (ps_type s) ;;
  bfm <- get_footprint_frame_map pid ;;
  for_each (min_delays g) (fun md =>
    require F_assert (negb (Nat.eqb md.1 0)) ;;;
    gt <- frame_node bfm md.1 ;;
    upd_node gt flag_min_delay_target ;;;
    add_timing_fanin gt pid).
Definition apply_all_min_delays : SM unit :=
  n <- gets get_num_processes ;;
  for_each (seq 0 n) apply_min_delays.

Record applied_min_delay_constraint : Type := mkApplied {
  delayed : bool; ref : nat; time : real_time
}.

(** One constraint, from the reference node [ref_node] of the process. *)
Definition apply_constraint (bfm : list nat) (tgt_dir : bool) (c : applied_min_delay_constraint)
    (di : nat * min_delay_entry) : SM applied_min_delay_constraint :=
  grr <- frame_node bfm di.1 ;;
  r <- get_node grr ;;
  match n_value r with
  | LOGIC_OTHER => ret c
  | rv =>
      let ref_dir := value_eqb rv LOGIC_HIGH in
      let pni := md_predicate di.2 ref_dir tgt_dir in
      apply <- (if negb (Nat.eqb pni 0) then
                  gpr <- frame_node bfm pni ;;
                  p <- get_node gpr ;;
                  ret (negb (value_eqb (n_value p) LOGIC_LOW))
                else ret true) ;;
      let past := get_last_edge_time r rv in
      let min_time := t_add past (md_time di.2 ref_dir tgt_dir) in
      ret (if apply && t_le real_zero past && t_lt (time c) min_time
           then mkApplied true grr min_time else c)
  end.

Definition min_delay_of_process (ni : nat) (tgt_dir : bool) (c : applied_min_delay_constraint)
    (pid : nat) : SM applied_min_delay_constraint :=
  s <- get_process_state pid ;;
  g <- get_type (ps_type s) ;;
  bfm <- get_footprint_frame_map pid ;;
  fold_m (seq 0 (length bfm)) c (fun c j =>
    if match bfm !! j with Some k => Nat.eqb k ni | None => false end then
      f <- of_option F_assert (m_find (S j) (min_delays g)) ;;
      fold_m f c (apply_constraint bfm tgt_dir)
    else ret c).

Definition node_event_min_delay (ni : nat) (nval : value_enum) : SM applied_min_delay_constraint :=
  now <- gets current_time ;;
  n <- get_node ni ;;
  let c0 := mkApplied false INVALID_NODE_INDEX now in
  if is_min_delay_target n && negb (value_eqb nval LOGIC_OTHER) then
    o <- lookup_process_timing_fanin ni ;;
    ptf <- of_option F_assert o ;;
    fold_m ptf c0 (min_delay_of_process ni (value_eqb nval LOGIC_HIGH))
  else ret c0.

(** ** Taking the next event *)
Fixpoint dequeue_event_loop (fuel : nat) : SM (EventPlaceholder real_time) :=
  match fuel with
  | O => fail F_fuel
  | S fuel' =>
      flush_killed_events ;;;
      q <- gets event_queue ;;
      now <- gets current_time ;;
      if eq_empty q then ret (mkPlaceholder now INVALID_EVENT_INDEX)
      else
        ep <- lift_res (top q) ;;
        ne <- get_event (ep_index ep) ;;
        if negb (value_eqb (ev_val ne) LOGIC_OTHER) then
          c <- node_event_min_delay (ev_node ne) (ev_val ne) ;;
          if delayed c && t_lt (ep_time ep) (time c) then
            require F_assert (t_lt now (time c)) ;;;
            err <- reschedule_event (ev_node ne) (time c) ;;
            require F_assert (negb err) ;;;
            modify (put_current_time (ep_time ep)) ;;;
            dequeue_event_loop fuel'
          else queue_pop
        else queue_pop
  end.
(** Every event is delayed at most once, so that the number of the events is
    enough. *)
Definition dequeue_event : SM (EventPlaceholder real_time) :=
  q <- gets event_queue ;; dequeue_event_loop (S (length q)).

Definition safe_fast_forward (t : real_time) : SM unit :=
  now <- gets current_time ;;
  require F_ise (t_le now t) ;;;
  when (t_lt now t)
    (pend <- gets pending_events ;;
     when pend (next <- next_event_time ;; when (t_lt next t) (require F_ise (t_le t next))) ;;;
     modify (update_time t)).

(** ** Setting nodes *)
Inductive enqueue_status : Set :=
  | ENQUEUE_ACCEPT | ENQUEUE_WARNING | ENQUEUE_REJECT | ENQUEUE_FATAL.

Definition set_node_event (ni : nat) (val : value_enum) (t : real_time) (f : bool) : SM enqueue_status :=
  n <- get_node ni ;;
  if negb (is_frozen n) || f then
    ei <- __allocate_event_new ni cause_empty INVALID_RULE_INDEX None val false f ;;
    enqueue_event t ei ;;;
    ret ENQUEUE_ACCEPT
  else ret ENQUEUE_WARNING.

Definition set_node_time (ni : nat) (val : value_enum) (t : real_time) (f : bool)
    : SM enqueue_status :=
  n <- get_node ni ;;
  if is_atomic n then ret ENQUEUE_REJECT
  else
    let pending := n_event_index n in
    let unchanged := value_eqb val (n_value n) in
    if pending_event n then
      get_event pending ;;;
      if f then kill_event pending ni ;;; set_node_event ni val t f
      else if negb unchanged then ret ENQUEUE_WARNING
      else ret ENQUEUE_ACCEPT
    else if unchanged then ret ENQUEUE_ACCEPT
    else set_node_event ni val t f.
Definition set_node_after (ni : nat) (val : value_enum) (t : real_time) (f : bool)
    : SM enqueue_status :=
  now <- gets current_time ;; set_node_time ni val (t_add now t) f.
Definition set_node (ni : nat) (val : value_enum) (f : bool) : SM enqueue_status :=
  now <- gets current_time ;; set_node_time ni val now f.

Definition freeze_node (ni : nat) : SM unit :=
  n <- get_node ni ;; when (negb (is_atomic n)) (upd_node ni freeze).

(** [~] stands for the opposite of the current value. *)
Definition node_to_value (coin : bool) (v : string) (ni : nat) : SM (option value_enum) :=
  if String.eqb v "~"%string then n <- get_node ni ;; ret (Some (invert_value (n_value n)))
  else ret (string_to_value coin v).

Definition unset_value (p : pull_set) : value_enum :=
  if pull_up_wins_any p then LOGIC_HIGH
  else if pull_dn_wins_any p then LOGIC_LOW else LOGIC_OTHER.

Definition unset_node (ni : nat) : SM unit :=
  upd_node ni restore ;;;
  n <- get_node ni ;;
  require F_assert (negb (is_frozen n)) ;;;
  weak <- gets weak_rules_enabled ;;
  let p := pull_set_of n weak in
  when (negb (state_holding p))
    (let weak_wins := weak_wins_any p in
     let new_val := unset_value p in
     if pending_event n then
       let pending := n_event_index n in
       upd_event pending (fun e =>
         unforce (set_weak weak_wins
           (if value_eqb (ev_val e) new_val then e else set_ev_val new_val e)))
     else
       let current := n_value n in
       if value_eqb current LOGIC_LOW && pull_eqb (up p) PULL_OFF then ret tt
       else if value_eqb current LOGIC_HIGH && pull_eqb (dn p) PULL_OFF then ret tt
       else when (negb (value_eqb current new_val))
         (ei <- __allocate_event_new ni cause_empty INVALID_RULE_INDEX None new_val weak_wins false ;;
          e <- get_event ei ;;
          t <- match new_val with
               | LOGIC_HIGH => get_delay_up e
               | LOGIC_LOW => get_delay_dn e
               | LOGIC_OTHER => gets current_time
               end ;;
          enqueue_event t ei)).

Definition unset_all_nodes : SM unit :=
  np <- gets node_pool ;;
  for_each (seq 1 (length np - 1)) unset_node.

(** [LOGIC_OTHER] is delayed as a rising transition. *)
Definition enqueue_new_event (newevent : Event) : SM unit :=
  ei <- __allocate_event (ev_node newevent) newevent ;;
  t <- (if value_eqb (ev_val newevent) LOGIC_LOW then get_delay_dn newevent
        else get_delay_up newevent) ;;
  enqueue_event t ei.

(** ** Breakpoints and watched nodes *)
Definition set_node_breakpoint (ni : nat) : SM unit := upd_node ni set_breakpoint.
Definition clear_node_breakpoint (ni : nat) : SM unit := upd_node ni clear_breakpoint.
Definition clear_all_breakpoints : SM unit :=
  modify (fun s => put_node_pool (map clear_breakpoint (node_pool s)) s).
Definition watch_node (ni : nat) : SM unit := upd_node ni set_watchpoint.
Definition unwatch_node (ni : nat) : SM unit := upd_node ni clear_watchpoint.
Definition is_watching_node (ni : nat) : SM bool := n <- get_node ni ;; ret (is_watchpoint n).
(** The loop starts behind the first entry, which is not a node. *)
Definition unwatch_all_nodes : SM unit :=
  modify (fun s => put_node_pool
    (match node_pool s with [] => [] | n :: l => n :: map clear_watchpoint l end) s).
End Schedule.
