(* ===== verification/Excl.v ===== *)
(** Exclusive rings: the part of "sim/prsim/State-prsim.cc" that forces nodes
    to be exclusive (mk_exclhi, mk_excllo) and that checks exclusion
    (check_exclhi, check_excllo).

    The source writes every routine twice, for rings of high and of low
    nodes.  [excl_rings] collects the members that one direction uses. *)
From S2P Require Import Prelude SimTime PullSet Expr EventQueue ArrayPool OrdMap Node ProcGraph.
From S2P Require Import State Events.
Open Scope Z_scope.
Local Open Scope hackt_scope.
#[local] Abbreviation length := Datatypes.length.

Section Excl.
Context {C : Type}.
#[local] Abbreviation State := (State C).
#[local] Abbreviation SM := (M State).

Record excl_rings : Type := mkExclRings {
  er_active : value_enum;                        (* the value that locks a ring *)
  er_rings : State -> list ring_counter_state;   (* mk_exhi, mk_exlo *)
  er_put_rings : list ring_counter_state -> State -> State;
  er_map : State -> list (nat * list nat);       (* mk_exhi_counter_map, mk_exlo_counter_map *)
  er_put_map : list (nat * list nat) -> State -> State;
  er_make : NodeState -> NodeState;
  er_checked : NodeState -> bool;                (* has_check_exclhi, has_check_excllo *)
  er_check : NodeState -> NodeState;
  er_locks : State -> list bool;                 (* check_exhi_ring_pool, check_exlo_ring_pool *)
  er_put_locks : list bool -> State -> State;
  er_check_map : State -> list (nat * list nat); (* check_exhi, check_exlo *)
  er_put_check_map : list (nat * list nat) -> State -> State
}.
Definition excl_hi : excl_rings :=
  mkExclRings LOGIC_HIGH mk_exhi put_mk_exhi mk_exhi_counter_map put_mk_exhi_counter_map
    make_exclhi has_check_exclhi check_exclhi
    check_exhi_ring_pool put_check_exhi_ring_pool check_exhi put_check_exhi.
Definition excl_lo : excl_rings :=
  mkExclRings LOGIC_LOW mk_exlo put_mk_exlo mk_exlo_counter_map put_mk_exlo_counter_map
    make_excllo has_check_excllo check_excllo
    check_exlo_ring_pool put_check_exlo_ring_pool check_exlo put_check_exlo.

(** [m[k].push_back(j)] *)
Definition map_push_back (k j : nat) (m : list (nat * list nat)) : list (nat * list nat) :=
  m_set k (match m_find k m with Some l => l | None => [] end ++ [j]) m.

(** ** Building rings *)
Definition append_mk_ring (R : excl_rings) (r : list nat) : SM unit :=
  rings <- gets (er_rings R) ;;
  let j := length rings in
  for_each r (fun ni =>
    n <- get_node ni ;;
    when (is_atomic n) (fail F_exit) ;;;
    upd_node ni (er_make R) ;;;
    modify (fun s => er_put_map R (map_push_back ni j (er_map R s)) s)) ;;;
  modify (fun s => er_put_rings R (er_rings R s ++ [mkRing r 0]) s).
Definition append_mk_exclhi_ring : list nat -> SM unit := append_mk_ring excl_hi.
Definition append_mk_excllo_ring : list nat -> SM unit := append_mk_ring excl_lo.

Definition append_check_ring (R : excl_rings) (r : list nat) : SM unit :=
  locks <- gets (er_locks R) ;;
  let j := length locks in
  modify (er_put_locks R (locks ++ [false])) ;;;
  for_each r (fun ni =>
    upd_node ni (er_check R) ;;;
    modify (fun s => er_put_check_map R (map_push_back ni j (er_check_map R s)) s)).
Definition append_check_exclhi_ring : list nat -> SM unit := append_check_ring excl_hi.
Definition append_check_excllo_ring : list nat -> SM unit := append_check_ring excl_lo.

(** ** Forcing exclusion *)

(** [updated_nodes.insert(...)], and the queue that keeps their order. *)
Definition updated_nodes_insert (ni : nat) (nui : node_update_info) : SM bool :=
  u <- gets updated_nodes ;;
  let '(u', inserted) := m_insert ni nui u in
  modify (put_updated_nodes u') ;;;
  when inserted (modify (fun s => put_updated_nodes_queue (updated_nodes_queue s ++ [ni]) s)) ;;;
  ret inserted.

Definition enforce_ring (R : excl_rings) (ni : nat) (v prev : value_enum) (j : nat) : SM unit :=
  rings <- gets (er_rings R) ;;
  r <- of_option F_index (rings !! j) ;;
  let active x := value_eqb x (er_active R) in
  let others := List.filter (fun m => negb (Nat.eqb m ni)) (elems r) in   (* exclude self *)
  if active v && negb (active prev) then
    modify (er_put_rings R (<[j := mkRing (elems r) (char_wrap (count r + 1))]> rings)) ;;;
    for_each others (fun m =>
      modify (fun s => put___mk_excl_blocking_set (s_insert m (__mk_excl_blocking_set s)) s))
  else if negb (active v) && active prev then
    let r' := mkRing (elems r) (char_wrap (count r - 1)) in
    modify (er_put_rings R (<[j := r']> rings)) ;;;
    when (count r' =? 0)
      (for_each others (fun m => updated_nodes_insert m node_update_info_empty ;;; ret tt))
  else ret tt.

Definition enforce_excl (R : excl_rings) (c : cause_type) (prev : value_enum) : SM unit :=
  m <- gets (er_map R) ;;
  l <- of_option F_ise (m_find (cause_node c) m) ;;
  for_each l (enforce_ring R (cause_node c) (cause_val c) prev).
Definition enforce_exclhi : cause_type -> value_enum -> SM unit := enforce_excl excl_hi.
Definition enforce_excllo : cause_type -> value_enum -> SM unit := enforce_excl excl_lo.

(** ** Checking exclusion *)

(** Locks in order, up to the first that is taken, which is returned. *)
Fixpoint lock_rings (R : excl_rings) (l : list nat) : SM (option nat) :=
  match l with
  | [] => ret None
  | li :: l' =>
      require F_ise (negb (Nat.eqb li 0)) ;;;
      locks <- gets (er_locks R) ;;
      k <- of_option F_ise (locks !! li) ;;
      if (k : bool) then ret (Some li)
      else modify (er_put_locks R (<[li := true]> locks)) ;;; lock_rings R l'
  end.
Definition unlock_rings (R : excl_rings) (l : list nat) : SM unit :=
  for_each l (fun li =>
    require F_ise (negb (Nat.eqb li 0)) ;;;
    locks <- gets (er_locks R) ;;
    of_option F_ise (locks !! li) ;;;
    modify (er_put_locks R (<[li := false]> locks))).

Definition check_excl_dir (R : excl_rings) (ni : nat) (n : NodeState) (prev next : value_enum)
    : SM (option nat) :=
  if er_checked R n then
    if value_eqb next (er_active R) then
      m <- gets (er_check_map R) ;;
      l <- of_option F_ise (m_find ni m) ;;
      lock_rings R l
    else if value_eqb prev (er_active R) && negb (value_eqb next prev) then
      m <- gets (er_check_map R) ;;
      l <- of_option F_ise (m_find ni m) ;;
      unlock_rings R l ;;;
      ret None
    else ret None
  else ret None.

(** The exception, unless its lock index is the invalid one. *)
Definition check_excl_rings (ni : nat) (n : NodeState) (prev next : value_enum)
    : SM (option step_exception) :=
  hi <- check_excl_dir excl_hi ni n prev next ;;
  match hi with
  | Some li => ret (Some (excl_exception true li ni))
  | None =>
      lo <- check_excl_dir excl_lo ni n prev next ;;
      match lo with
      | Some li => ret (Some (excl_exception false li ni))
      | None => ret None
      end
  end.
End Excl.
