(* ===== verification/Flush.v ===== *)
(** Flushing: the part of "sim/prsim/State-prsim.cc" that turns the changed
    pulls of nodes into events, and diagnoses interference and instability. *)
From S2P Require Import Prelude SimTime PullSet Expr EventQueue ArrayPool OrdMap Node ProcGraph.
From S2P Require Import State Events Schedule Excl.
Open Scope Z_scope.
Local Open Scope hackt_scope.
#[local] Abbreviation length := Datatypes.length.

Section Flush.
Context {C : Type} {env : Env}.
#[local] Abbreviation State := (State C).
#[local] Abbreviation SM := (M State).

(** ** Diagnoses: messages are left out *)
Definition __report_interference (weak : bool) (ni : nat) : SM error_policy_enum :=
  n <- get_node ni ;;
  p <- gets policies ;;
  ret (if weak then
         if negb (policy_ignored (weak_interference_policy p)) && negb (may_weak_interfere n)
         then weak_interference_policy p else ERROR_NONE
       else
         if negb (policy_ignored (interference_policy p)) && negb (may_interfere n)
         then interference_policy p else ERROR_NONE).

Definition rule_unstable (r : option rule_ref) : SM bool :=
  r' <- deref_rule_opt r ;;
  ret (match r' with Some x => is_unstable x | None => false end).

Definition __report_instability (weak excl : bool) (ev : Event) : SM error_policy_enum :=
  u <- rule_unstable (ev_rule_ptr ev) ;;
  p <- gets policies ;;
  let report e := if policy_ignored e then ERROR_NONE else e in
  ret (if u then ERROR_NONE
       else if excl then report (excl_unstable_policy p)
       else if weak then report (weak_unstable_policy p)
       else report (unstable_policy p)).

(** The bits of the guard tables. *)
Definition guard_vacuous (g : event_guard) : bool :=
  match g with EVENT_VACUOUS => true | _ => false end.
Definition guard_unstable (g : event_guard) : bool :=
  match g with EVENT_UNSTABLE | EVENT_WEAK_UNSTABLE => true | _ => false end.
Definition guard_weak (g : event_guard) : bool :=
  match g with EVENT_WEAK_UNSTABLE | EVENT_WEAK_INTERFERENCE => true | _ => false end.

(** [ei]: the index of the event [e]; [ui]: its node, that is [n]. *)
Definition __diagnose_violation (next : pull_enum) (ei ui : nat) (c : cause_type)
    (dir weak : bool) : SM error_policy_enum :=
  e <- get_event ei ;;
  let eu := if dir then upguard next (ev_val e) else dnguard next (ev_val e) in
  if guard_vacuous eu then ret ERROR_NONE
  else
    let instability := guard_unstable eu && negb (weak && negb (ev_is_weak e)) in
    if instability then
      upd_event ei (set_cause_node (cause_node c)) ;;;
      unstable <- rule_unstable (ev_rule_ptr e) ;;
      dq <- gets dequeue_unstable_events ;;
      n <- get_node ui ;;
      (if (dq || unstable) && (pull_eqb next PULL_OFF || value_eqb (n_value n) LOGIC_OTHER) then
         kill_event (n_event_index n) ui
       else
         upd_event ei (set_ev_val LOGIC_OTHER) ;;;
         p <- gets policies ;;
         let E := if pull_eqb next PULL_WEAK then weak_unstable_policy p else unstable_policy p in
         when (policy_ge E ERROR_INTERACTIVE)
           (modify (record_exception (instability_exception (cause_node c) E)))) ;;;
      n' <- get_node ui ;;
      weak_en <- gets weak_rules_enabled ;;
      let p := pull_set_of n' weak_en in
      let b := negb weak || (if dir then negb (pull_eqb (up p) PULL_ON)
                             else negb (pull_eqb (dn p) PULL_ON)) in
      if b then
        e' <- get_event ei ;;
        E <- __report_instability (guard_weak eu) false e' ;;
        ret (policy_max ERROR_NONE E)
      else ret ERROR_NONE
    else ret ERROR_NONE.

(** ** Nodes that a locked ring blocks *)
Definition flush_blocked_node (val : value_enum) (ni : nat) : SM unit :=
  u <- gets updated_nodes ;;
  match m_find ni u with
  | Some nui => modify (put_updated_nodes (m_set ni (set_excl_blocked true nui) u))
  | None =>
      n <- get_node ni ;;
      when (pending_event n)
        (e <- get_event (n_event_index n) ;;
         when (value_eqb (ev_val e) val)
           (updated_nodes_insert ni (set_excl_blocked true node_update_info_empty) ;;; ret tt))
  end.
Definition flush_blocked_excl_nodes (val : value_enum) : SM unit :=
  b <- gets __mk_excl_blocking_set ;;
  for_each b (flush_blocked_node val) ;;;
  modify (put___mk_excl_blocking_set []).

(** ** The next value of a node by its pulls *)
Definition blocked_pull_set (p : pull_set) (blocked : bool) (val : value_enum) : pull_set :=
  if blocked then
    match val with
    | LOGIC_HIGH => cut_off_pull_up p
    | LOGIC_LOW => cut_off_pull_dn p
    | LOGIC_OTHER => p
    end
  else p.

(** Without interference: [None] where the source's last case asserts. *)
Definition next_value (p : pull_set) (old_val : value_enum) : option value_enum :=
  if pull_up_wins_any p then Some LOGIC_HIGH
  else if pull_dn_wins_any p then Some LOGIC_LOW
  else if pull_up_x_wins_any p then
    Some (if value_eqb old_val LOGIC_LOW then LOGIC_OTHER else old_val)
  else if pull_dn_x_wins_any p then
    Some (if value_eqb old_val LOGIC_HIGH then LOGIC_OTHER else old_val)
  else if state_holding p then Some old_val else None.

(** The pull that scheduled the pending value is not fully on any more. *)
Definition lost_pull (p : pull_set) (pval : value_enum) : bool :=
  match pval with
  | LOGIC_LOW => negb (pulling_dn p)
  | LOGIC_HIGH => negb (pulling_up p)
  | LOGIC_OTHER => false
  end.

Definition set_x_cause (ni : nat) (c : cause_type) (et : real_time) : SM unit :=
  upd_node ni (set_value_and_cause LOGIC_OTHER (cause_ec c) et).

(** ** The event of an updated node: its value and strength, and diagnosis *)
Definition new_event (ni : nat) (c : cause_type) (f : node_update_info) (p : pull_set)
    (old_val : value_enum) (err : error_policy_enum) : SM (Event * error_policy_enum) :=
  let base := set_ev_rule_ptr (rule_ptr f) (set_ev_cause_rule (rule_index f)
                (set_ev_cause c (set_ev_node ni Event_empty))) in
  let int_info := make_interference_info p in
  if have_interference int_info then
    let ev := set_ev_val LOGIC_OTHER
                (if weak_rule_involved int_info then set_weak true base else base) in
    let old_interf := make_interference_info (old_pull_set f) in
    if negb (have_interference old_interf) ||
       negb (bool_decide (val_type old_interf = val_type int_info)) then
      E <- __report_interference (possible_interference int_info) ni ;;
      ret (ev, policy_max err E)
    else ret (ev, err)
  else
    v <- of_option F_ise (next_value p old_val) ;;
    ret (set_ev_val v (set_weak (weak_wins_any p) base), err).

(** ** A node with a pending event [prevevent] *)
Section Pending.
Context (c : cause_type) (et : real_time) (ni prevevent : nat) (p : pull_set)
  (old_val : value_enum) (blocked have_int : bool) (newevent : Event).

(** Interference overwrites an event that the user did not force. *)
Definition clobber_pending (pe : Event) : SM unit :=
  if forced pe then ret tt
  else if value_eqb old_val LOGIC_OTHER then kill_event prevevent ni ;;; set_x_cause ni c et
  else upd_event prevevent (fun e => set_ev_cause c (set_ev_val LOGIC_OTHER e)).

Definition diagnose_instability (pval : value_enum) (err : error_policy_enum)
    : SM error_policy_enum :=
  upd_event prevevent (fun e =>
    set_ev_cause (mkCause (cause_ec c) (critical_trace_event (ev_cause e))) e) ;;;
  pe <- get_event prevevent ;;
  E <- __report_instability (value_eqb (cause_val c) LOGIC_OTHER) blocked pe ;;
  ret (policy_max err E).

Definition renew_event : SM unit :=
  kill_event prevevent ni ;;;
  when (negb (value_eqb (ev_val newevent) old_val)) (enqueue_new_event newevent).

Definition cancel_unstable (pval : value_enum) : SM unit :=
  require F_assert (negb (value_eqb (ev_val newevent) pval)) ;;;
  pe <- get_event prevevent ;;
  r <- state_lookup_rule (ev_cause_rule pe) ;;
  r_unstable <- rule_unstable r ;;
  dq <- gets dequeue_unstable_events ;;
  dqx <- gets dequeue_excl_unstable_events ;;
  if dq || r_unstable || (blocked && dqx) then renew_event
  else if value_eqb old_val LOGIC_OTHER then kill_event prevevent ni ;;; set_x_cause ni c et
  else upd_event prevevent (fun e =>
    set_weak (weak_wins_any p) (set_cause_node (cause_node c) (set_ev_val LOGIC_OTHER e))).

(** A pending X is overtaken by a definite value. *)
Definition overtake_pending (pval : value_enum) : SM unit :=
  pe <- get_event prevevent ;;
  when ((pulling_dn p || pulling_up p) && negb (value_eqb (ev_val newevent) pval) &&
        value_eqb (ev_val pe) LOGIC_OTHER)
    (require F_assert (negb (value_eqb (ev_val newevent) LOGIC_OTHER)) ;;; renew_event).

Definition update_pending (err : error_policy_enum) : SM error_policy_enum :=
  pe <- get_event prevevent ;;
  let pval := ev_val pe in
  when have_int (clobber_pending pe) ;;;
  let unstable := lost_pull p pval in
  err' <- (if unstable then diagnose_instability pval err else ret err) ;;
  (if have_int then ret tt
   else if unstable then cancel_unstable pval
   else overtake_pending pval) ;;;
  ret err'.
End Pending.

(** ** Flushing *)
Definition flush_updated_node (c : cause_type) (et : real_time) (err : error_policy_enum) (ni : nat)
    : SM error_policy_enum :=
  n <- get_node ni ;;
  u <- gets updated_nodes ;;
  f <- of_option F_ise (m_find ni u) ;;
  weak_en <- gets weak_rules_enabled ;;
  let old_val := n_value n in
  let p := blocked_pull_set (pull_set_of n weak_en) (excl_blocked f) (cause_val c) in
  ne <- new_event ni c f p old_val err ;;
  let '(newevent, err1) := ne in
  err2 <- (if pending_event n then
             update_pending c et ni (n_event_index n) p old_val (excl_blocked f)
               (have_interference (make_interference_info p)) newevent err1
           else
             when (negb (value_eqb (ev_val newevent) old_val)) (enqueue_new_event newevent) ;;;
             ret err1) ;;
  modify (fun s => put_updated_nodes (m_erase ni (updated_nodes s)) s) ;;;
  ret err2.

Definition flush_updated_nodes (c : cause_type) (et : real_time) : SM error_policy_enum :=
  when (negb (value_eqb (cause_val c) LOGIC_OTHER)) (flush_blocked_excl_nodes (cause_val c)) ;;;
  q <- gets updated_nodes_queue ;;
  u <- gets updated_nodes ;;
  require F_ise (Nat.eqb (length u) (length q)) ;;;
  err <- fold_m q ERROR_NONE (flush_updated_node c et) ;;
  u' <- gets updated_nodes ;;
  require F_ise (Nat.eqb (length u') 0) ;;;
  modify (put_updated_nodes_queue []) ;;;
  ret err.
End Flush.
