(* ===== verification/Eval.v ===== *)
(** Evaluation: the part of "sim/prsim/State-prsim.cc" that propagates the new
    value of a node through the expressions it occurs in, up to the rules and
    invariants, and collects the nodes whose pulls have changed. *)
From S2P Require Import Prelude SimTime PullSet Expr EventQueue ArrayPool OrdMap Node ProcGraph.
From S2P Require Import State Events Schedule Excl Flush.
Open Scope Z_scope.
Local Open Scope hackt_scope.
#[local] Abbreviation length := Datatypes.length.

(** [pull_enum(v)] and [value_enum(p)]: the two enumerations have the same
    codes. *)
Definition value_as_pull (v : value_enum) : pull_enum :=
  match v with LOGIC_LOW => PULL_OFF | LOGIC_HIGH => PULL_ON | LOGIC_OTHER => PULL_WEAK end.
Definition pull_as_value (p : pull_enum) : value_enum :=
  match p with PULL_OFF => LOGIC_LOW | PULL_ON => LOGIC_HIGH | PULL_WEAK => LOGIC_OTHER end.

Section Eval.
Context {C : Type} {env : Env}.
#[local] Abbreviation State := (State C).
#[local] Abbreviation SM := (M State).

(** [bfm[lni]]: here local node indices start from 0. *)
Definition translate_to_global_node (pid lni : nat) : SM nat :=
  np <- gets get_num_processes ;;
  require F_ise (Nat.ltb pid np) ;;;
  bfm <- get_footprint_frame_map pid ;;
  of_option F_assert (bfm !! lni).

(** ** evaluate_kernel *)
Record eval_info : Type := mkEvalInfo {
  root_expr : nat;        (* local index of the root expression *)
  root_node : nat;        (* local index of the node that it pulls *)
  root_prev : pull_enum;  (* the new values of the arguments prev and next *)
  root_next : pull_enum
}.

(** The climb from expression [ui] of process [pid] of type [g]; [None] when
    the propagation stops below the root. *)
Fixpoint evaluate_climb (fuel : nat) (pid : nat) (g : unique_process_subgraph) (ui : nat)
    (prev next : pull_enum) : SM (option eval_info) :=
  match fuel with
  | O => fail F_fuel
  | S fuel' =>
      e <- of_option F_index (expr_pool g !! ui) ;;
      ps <- get_process_state pid ;;
      u <- of_option F_index (expr_states ps !! ui) ;;
      let '(u', old_pull, new_pull) := update_expr e u prev next in
      modify (fun s => put_process_state_array
        (<[pid := set_expr_states (<[ui := u']> (expr_states ps)) ps]> (process_state_array s)) s) ;;;
      if pull_eqb old_pull new_pull then ret None
      else if is_root e then ret (Some (mkEvalInfo ui (e_parent e) old_pull new_pull))
      else evaluate_climb fuel' pid g (e_parent e) old_pull new_pull
  end.

(** The process of the expression, and the climb. *)
Definition evaluate_kernel (gui : nat) (prev next : pull_enum) : SM (nat * option eval_info) :=
  pid <- lookup_global_expr_process gui ;;
  ps <- get_process_state pid ;;
  g <- get_type (ps_type ps) ;;
  ui <- of_option F_index (local_expr_index ps gui) ;;
  r <- evaluate_climb (S (length (expr_pool g))) pid g ui prev next ;;
  ret (pid, r).

(** ** evaluate *)
Record evaluate_return_type : Type := mkEvalReturn {
  er_node_index : nat;
  er_root_pull : pull_enum;
  er_root_rule : rule_ref;
  er_root_rule_index : nat;
  er_prev_pull : pull_set
}.

(** A rule that is not an invariant: the update of its node. *)
Definition evaluate_rule (pid : nat) (ps : process_sim_state) (i : eval_info) (lri : nat) (r : Rule)
    : SM (option evaluate_return_type) :=
  oni <- translate_to_global_node pid (root_node i) ;;
  n <- get_node oni ;;
  weak_en <- gets weak_rules_enabled ;;
  let ops := pull_set_of n weak_en in
  let dir := direction r in
  let is_weak := rule_is_weak r in
  when (is_atomic n)
    (require F_assert dir ;;;
     require F_assert (negb is_weak) ;;;
     modify (fun s => put___atomic_updated_nodes
       (m_insert oni (n_value n) (__atomic_updated_nodes s)).1 s)) ;;;
  let fs := get_pull_struct dir is_weak n in
  let fs' := update_fanin fs (root_prev i) (root_next i) in
  upd_node oni (put_pull_struct dir is_weak fs') ;;;
  if pull_eqb (fanin_pull fs) (fanin_pull fs') then ret None
  else ret (Some (mkEvalReturn oni (fanin_pull fs') (ps_type ps, lri)
                    (global_expr_index ps (root_expr i)) ops)).

Definition evaluate (gui : nat) (prev next : pull_enum) : SM (option evaluate_return_type) :=
  ei <- evaluate_kernel gui prev next ;;
  let '(pid, o) := ei in
  match o with
  | None => ret None
  | Some i =>
      ps <- get_process_state pid ;;
      g <- get_type (ps_type ps) ;;
      lri <- of_option F_index (m_find (root_expr i) (rule_map g)) ;;
      r <- of_option F_index (rule_pool g !! lri) ;;
      if negb (is_invariant r) then evaluate_rule pid ps i lri r
      else
        modify (fun s => put___invariant_update_map
          (m_set (pid, root_expr i) (root_next i) (__invariant_update_map s)) s) ;;;
        ret None
  end.

(** ** Invariants *)
Definition __diagnose_invariant (next : pull_enum) : SM error_policy_enum :=
  p <- gets policies ;;
  ret (match next with
       | PULL_OFF => invariant_fail_policy p
       | PULL_WEAK => invariant_unknown_policy p
       | PULL_ON => ERROR_NONE
       end).

(** [stop()], and an exception for the policies that ask for it. *)
Definition react (E : error_policy_enum) (x : step_exception) : SM unit :=
  when (policy_ge E ERROR_BREAK)
    (modify stop ;;; when (policy_ge E ERROR_INTERACTIVE) (modify (record_exception x))).

Definition handle_invariants (c : cause_type) : SM unit :=
  m <- gets __invariant_update_map ;;
  for_each m (fun entry =>
    E <- __diagnose_invariant entry.2 ;;
    react E (invariant_exception (cause_node c) E)).

(** ** propagate_evaluation *)

(** Either side of the source's [if (dir)]: the rule of a node that is already
    being updated gives way to one whose pull has become stronger. *)
Definition note_updated_node (ui : nat) (ev : evaluate_return_type) (p : pull_set) (dir weak : bool)
    : SM unit :=
  let ops := er_prev_pull ev in
  let stronger now before := negb (pull_eqb now PULL_OFF) && negb (pull_eqb before PULL_ON) in
  let takes := if dir then (negb weak && stronger (up p) (up ops)) ||
                           (weak && stronger (wup p) (wup ops))
               else (negb weak && stronger (dn p) (dn ops)) ||
                    (weak && stronger (wdn p) (wdn ops)) in
  let nui := mkUpdate (er_root_rule_index ev) (Some (er_root_rule ev)) in
  u <- gets updated_nodes ;;
  match m_find ui u with
  | Some old =>
      when takes (modify (put_updated_nodes
        (m_set ui (nui (old_pull_set old) (excl_blocked old)) u)))
  | None => updated_nodes_insert ui (nui ops false) ;;; ret tt
  end.

(** What the pre-filter of weak rules decides. *)
Inductive weak_filter : Set := WF_continue | WF_drop.

Definition weak_preserved (dir : bool) (p : pull_set) : bool :=
  if dir then (cutoff_up p && negb (cutoff_dn p)) ||
              (weak_pulling_up_x p && pull_eqb (dn p) PULL_WEAK)
  else (cutoff_dn p && negb (cutoff_up p)) ||
       (weak_pulling_dn_x p && pull_eqb (up p) PULL_WEAK).

Definition filter_weak (ui : nat) (n : NodeState) (p : pull_set) (next : pull_enum)
    (dir is_weak : bool) : SM (weak_filter * error_policy_enum) :=
  weak_en <- gets weak_rules_enabled ;;
  if weak_en then
    if pending_event n then
      let ei := n_event_index n in
      e <- get_event ei ;;
      if ev_is_weak e && negb is_weak && negb (pull_eqb next PULL_OFF) then
        err <- (if negb (value_eqb (ev_val e) LOGIC_OTHER) then
                  E <- __report_instability (pull_eqb next PULL_WEAK) false e ;;
                  ret (policy_max ERROR_NONE E)
                else ret ERROR_NONE) ;;
        kill_event ei ui ;;;
        ret (WF_continue, err)
      else if negb (ev_is_weak e) && is_weak then ret (WF_drop, ERROR_NONE)
      else ret (WF_continue, ERROR_NONE)
    else if is_weak && negb (normal_rules_off p) then
      ret (if weak_preserved dir p then WF_continue else WF_drop, ERROR_NONE)
    else ret (WF_continue, ERROR_NONE)
  else ret (if is_weak then WF_drop else WF_continue, ERROR_NONE).

(** Two [swap_saver]s: [m] runs with empty sets of updated nodes. *)
Definition save_updated_nodes {A} (m : SM A) : SM A :=
  u <- gets updated_nodes ;;
  q <- gets updated_nodes_queue ;;
  modify (fun s => put_updated_nodes_queue [] (put_updated_nodes [] s)) ;;;
  a <- m ;;
  modify (fun s => put_updated_nodes_queue q (put_updated_nodes u s)) ;;;
  ret a.

(** [set_now]: [set_node_immediately], which propagates in turn. *)
Definition propagate_evaluation (set_now : nat -> value_enum -> bool -> SM (nat * nat))
    (c : cause_type) (exi : nat) (prev : pull_enum) : SM error_policy_enum :=
  o <- evaluate exi prev (value_as_pull (cause_val c)) ;;
  match o with
  | None => ret ERROR_NONE
  | Some ev =>
      let ui := er_node_index ev in
      let next := er_root_pull ev in
      require F_ise (negb (Nat.eqb (er_root_rule_index ev) 0)) ;;;
      r <- deref_rule (er_root_rule ev) ;;
      let dir := direction r in
      n <- get_node ui ;;
      if is_atomic n then
        save_updated_nodes (set_now ui (pull_as_value next) false) ;;;
        ret ERROR_NONE
      else if is_frozen n then ret ERROR_NONE
      else
        weak_en <- gets weak_rules_enabled ;;
        let p := pull_set_of n weak_en in
        pol <- gets policies ;;
        when (policy_gt (keeper_check_fail_policy pol) ERROR_IGNORE && state_holding p)
          (modify (fun s => put___keeper_check_candidates
            (s_insert ui (__keeper_check_candidates s)) s)) ;;;
        f <- filter_weak ui n p next dir (rule_is_weak r) ;;
        match f with
        | (WF_drop, err) => ret err
        | (WF_continue, err) => note_updated_node ui ev p dir (rule_is_weak r) ;;; ret err
        end
  end.
End Eval.
