(* ===== verification/Feedback.v ===== *)
(** Queries over the rules around a node, and the keeper check: node_fanin,
    node_fanout, node_feedback and check_floating_node of
    "sim/prsim/State-prsim.cc", with the helpers of
    "sim/prsim/process_state.cc". *)
From S2P Require Import Prelude SimTime PullSet Expr EventQueue ArrayPool OrdMap Node ProcGraph.
From S2P Require Import State Events Schedule Excl Flush Eval.
Open Scope Z_scope.
Local Open Scope hackt_scope.
#[local] Abbreviation length := Datatypes.length.

Section Feedback.
Context {C : Type} {env : Env}.
#[local] Abbreviation State := (State C).
#[local] Abbreviation SM := (M State).

(** ** process_state.cc *)

(** The literals of an expression, in order; an expression without children
    is dereferenced all the same. *)
Fixpoint __collect_expr_literals (fuel : nat) (pid : nat) (g : unique_process_subgraph) (ei : nat)
    : SM (list nat) :=
  match fuel with
  | O => fail F_fuel
  | S fuel' =>
      require F_ise (Nat.ltb ei (length (expr_pool g))) ;;;
      gn <- of_option F_index (expr_graph_node_pool g !! ei) ;;
      require F_index (negb (Nat.eqb (length (g_children gn)) 0)) ;;;
      fold_m (g_children gn) [] (fun acc ch =>
        l <- (if (ch : child_entry).1 then
                gni <- translate_to_global_node pid ch.2 ;; ret [gni]
              else __collect_expr_literals fuel' pid g ch.2) ;;
        ret (acc ++ l))
  end.

(** A tree of expressions is not deeper than their number. *)
Definition __collect_rule_literals (pid : nat) (g : unique_process_subgraph) (ri : nat)
    : SM (list nat) :=
  __collect_expr_literals (S (length (expr_pool g))) pid g ri.

Definition collect_rules (pid : nat) (g : unique_process_subgraph) (l acc : list nat)
    : SM (list nat) :=
  fold_m l acc (fun acc ri => k <- __collect_rule_literals pid g ri ;; ret (acc ++ k)).

(** Weak rules are always considered. *)
Definition collect_node_fanin (pid : nat) (g : unique_process_subgraph) (lni : nat)
    : SM (list nat) :=
  fia <- of_option F_index (local_faninout_map g !! lni) ;;
  l1 <- collect_rules pid g (f_pull_up fia) [] ;;
  l2 <- collect_rules pid g (f_pull_dn fia) l1 ;;
  l3 <- collect_rules pid g (f_pull_up_weak fia) l2 ;;
  collect_rules pid g (f_pull_dn_weak fia) l3.

Definition global_expr_to_root (ps : process_sim_state) (g : unique_process_subgraph) (gei : nat)
    : SM nat :=
  lei <- of_option F_index (local_expr_index ps gei) ;;
  root <- reading (fun _ => g) (local_root_expr (S (length (expr_pool g))) lei) ;;
  ret (global_expr_index ps root).

Definition rule_fanout (pid : nat) (g : unique_process_subgraph) (lri : nat) : SM nat :=
  r <- reading (fun _ => g) (lookup_rule lri) ;;
  of_option F_assert r ;;;
  e <- of_option F_index (expr_pool g !! lri) ;;
  require F_ise (is_root e) ;;;
  translate_to_global_node pid (e_parent e).

(** ** Fanin and fanout of a node *)
Definition process_fanin (ni pid : nat) (acc : list nat) : SM (list nat) :=
  ps <- get_process_state pid ;;
  g <- get_type (ps_type ps) ;;
  bfm <- get_footprint_frame_map pid ;;
  fold_m (seq 0 (length bfm)) acc (fun acc lni =>
    if match bfm !! lni with Some k => Nat.eqb k ni | None => false end then
      l <- collect_node_fanin pid g lni ;; ret (acc ++ l)
    else ret acc).

Definition node_fanin (ni : nat) : SM (list nat) :=
  n <- get_node ni ;;
  l <- fold_m (n_fanin n) [] (fun acc pid => process_fanin ni pid acc) ;;
  ret (s_of_list l).

Definition process_of_expr (gei : nat) : SM (nat * process_sim_state * unique_process_subgraph) :=
  pid <- lookup_global_expr_process gei ;;
  ps <- get_process_state pid ;;
  g <- get_type (ps_type ps) ;;
  ret (pid, ps, g).

Definition expr_root_of (gei : nat) : SM nat :=
  x <- process_of_expr gei ;;
  let '(_, ps, g) := x in global_expr_to_root ps g gei.

(** The node that a rule pulls; invariants pull none. *)
Definition root_fanout (gri : nat) : SM (list nat) :=
  x <- process_of_expr gri ;;
  let '(pid, ps, g) := x in
  lri <- of_option F_index (local_expr_index ps gri) ;;
  r <- reading (fun _ => g) (lookup_rule lri) ;;
  r' <- of_option F_assert r ;;
  if is_invariant r' then ret [] else gni <- rule_fanout pid g lri ;; ret [gni].

Definition node_fanout (ni : nat) : SM (list nat) :=
  n <- get_node ni ;;
  roots <- fold_m (n_fanout n) [] (fun acc gei => ei <- expr_root_of gei ;; ret (s_insert ei acc)) ;;
  l <- fold_m roots [] (fun acc gri => k <- root_fanout gri ;; ret (acc ++ k)) ;;
  ret (s_of_list l).

(** [std::set_union] of two ascending sequences. *)
Definition s_union (a b : list nat) : list nat := s_of_list (a ++ b).

Definition node_feedback (ni : nat) : SM (list nat) :=
  fi <- node_fanin ni ;; fo <- node_fanout ni ;; ret (s_inter fi fo).
Definition node_feedthrough (a b : nat) : SM (list nat) :=
  fo <- node_fanout a ;; fi <- node_fanin b ;; ret (s_inter fi fo).

(** After [ret.swap(tmpb)] the result still holds the fanout of [b], and the
    intersection is appended to it. *)
Definition node_feedback_feedthrough (a b : nat) : SM (list nat) :=
  tmpa <- node_fanout a ;;
  tmpb <- node_fanout b ;;
  let u := s_union tmpa tmpb in
  fi <- node_fanin b ;;
  ret (tmpb ++ s_inter fi u).

(** ** Keeper checks *)
Fixpoint any_pending (l : list nat) : SM bool :=
  match l with
  | [] => ret false
  | i :: l' => n <- get_node i ;; if pending_event n then ret true else any_pending l'
  end.

(** [inp]: the node that has just switched. *)
Definition check_floating_node (ni inp : nat) : SM bool :=
  n <- get_node ni ;;
  weak_en <- gets weak_rules_enabled ;;
  if state_holding (pull_set_of n weak_en) then
    fb <- node_feedback_feedthrough inp ni ;;
    have_pending <- any_pending fb ;;
    ret (negb have_pending)
  else ret false.

Definition handle_keeper_checks (ni : nat) : SM unit :=
  l <- gets __keeper_check_candidates ;;
  thrown <- fold_m l 0%nat (fun first i =>
    n <- get_node i ;;
    if has_fanin n then
      fl <- check_floating_node i ni ;;
      ret (if fl && Nat.eqb first 0 then i else first)
    else ret first) ;;
  when (negb (Nat.eqb thrown 0))
    (p <- gets policies ;;
     let E := keeper_check_fail_policy p in react E (keeper_fail_exception ni E)).
End Feedback.
