(* ===== verification/TimingCheck.v ===== *)
(** Setup and hold checks: "sim/prsim/TimingChecker.cc", with the process types'
    constraints of "sim/prsim/process_graph.hh". *)
From S2P Require Import Prelude SimTime PullSet Expr EventQueue ArrayPool OrdMap Node ProcGraph.
From S2P Require Import State Events Schedule Excl Flush Eval.
Open Scope Z_scope.
Local Open Scope hackt_scope.
#[local] Abbreviation length := Datatypes.length.

Section TimingCheck.
Context {C : Type} {env : Env}.
#[local] Abbreviation State := (State C).
#[local] Abbreviation SM := (M State).

Definition timing_reset (s : State) : State :=
  put_policies (set_hold_violation_policy ERROR_BREAK
    (set_setup_violation_policy ERROR_WARN (policies s))) s.

Definition policy_of_tex (x : step_exception) : error_policy_enum :=
  match x with timing_exception _ _ _ _ _ _ _ E => E | _ => ERROR_FATAL end.
Definition handle_timing_exception (tex : step_exception) : SM unit :=
  react (policy_of_tex tex) tex.

(** A violation: the reference changed at [rt], less than [t] ago. *)
Definition timing_violated (now rt t : real_time) : bool :=
  t_le real_zero rt && t_lt (double_sub now rt) t.

(** One constraint of node [ni], against the node [ref_node] of the process;
    [last]: when the reference changed. *)
Definition check_constraint (pid ni : nat) (nv : value_enum) (dir setup : bool) (ref_node : nat)
    (last : NodeState -> real_time) (t : real_time) : SM unit :=
  gri <- translate_to_global_node pid ref_node ;;
  r <- get_node gri ;;
  now <- gets current_time ;;
  p <- gets policies ;;
  let E := if setup then setup_violation_policy p else hold_violation_policy p in
  when (timing_violated now (last r) t && policy_gt E ERROR_IGNORE)
    (handle_timing_exception (timing_exception gri ni nv dir setup pid t E)).

Definition setup_check_node (pid ni lni : nat) (nv : value_enum) (g : unique_process_subgraph)
    (dir : bool) : SM unit :=
  let rise_fall := negb (value_eqb nv (if dir then LOGIC_LOW else LOGIC_HIGH)) in
  when rise_fall
    (match m_find (lni, dir) (setup_constraints g) with
     | None => ret tt
     | Some sc => for_each sc (fun si =>
         check_constraint pid ni nv dir true (su_ref_node si) get_last_transition_time (su_time si))
     end).

Definition hold_check_node (pid ni lni : nat) (nv : value_enum) (g : unique_process_subgraph)
    : SM unit :=
  match m_find lni (hold_constraints g) with
  | None => ret tt
  | Some sc => for_each sc (fun si =>
      check_constraint pid ni nv (ho_dir si) false (ho_ref_node si)
        (fun r => get_last_edge_time r (if ho_dir si then LOGIC_HIGH else LOGIC_LOW)) (ho_time si))
  end.

(** The processes that own a constraint of the node, and its local names. *)
Definition for_local_nodes (m : list (nat * list nat))
    (body : nat -> nat -> unique_process_subgraph -> SM unit) : SM unit :=
  for_each m (fun pl =>
    ps <- get_process_state pl.1 ;;
    g <- get_type (ps_type ps) ;;
    for_each pl.2 (fun lni => body pl.1 lni g)).

Definition do_setup_check (ni : nat) (nv : value_enum) : SM unit :=
  scm <- gets setup_check_map ;;
  match m_find ni scm with
  | None => ret tt
  | Some m => for_local_nodes m (fun pid lni g =>
      setup_check_node pid ni lni nv g false ;;; setup_check_node pid ni lni nv g true)
  end.

Definition do_hold_check (ni : nat) (nv : value_enum) : SM unit :=
  hcm <- gets hold_check_map ;;
  match m_find ni hcm with
  | None => ret tt
  | Some m => for_local_nodes m (fun pid lni g => hold_check_node pid ni lni nv g)
  end.
End TimingCheck.
