(* ===== verification/Step.v ===== *)
(** Execution: [execute_immediately], [step], [cycle] and the reset of the
    simulator, the part of "sim/prsim/State-prsim.cc" that drives the others.

    Atomic nodes and vacuous events make [execute_immediately] recursive;
    the definitions are open, [execute] ties the knot with fuel. *)
From S2P Require Import Prelude SimTime PullSet Expr EventQueue ArrayPool OrdMap Node ProcGraph.
From S2P Require Import State Events Schedule Excl Flush Eval Feedback TimingCheck.
Open Scope Z_scope.
Local Open Scope hackt_scope.
#[local] Abbreviation length := Datatypes.length.

(** ** What the channels promise

    The channel manager ("sim/prsim/Channel-prsim.cc") plays the environment:
    it keeps a state of its own, reads the simulator's, draws random numbers
    from the same source, and answers with events and with exceptions, or
    fails. *)
Record env_event_type : Type := mkEnvEvent {
  ee_node_index : nat; ee_value : value_enum; ee_use_global : bool; ee_delay : real_time
}.

Record channel_answer (C : Type) : Type := mkAnswer {
  ca_manager : C;
  ca_rng : rng_state;
  ca_events : list env_event_type;
  ca_exceptions : list step_exception
}.
Arguments mkAnswer {C} _ _ _ _.
Arguments ca_manager {C} _.
Arguments ca_rng {C} _.
Arguments ca_events {C} _.
Arguments ca_exceptions {C} _.

Class ChannelManager (C : Type) := {
  cm_initialize : C -> res C;
  cm_clobber_all : C -> C;
  cm_process_node : State C -> nat -> value_enum -> value_enum -> res (channel_answer C);
  cm_reset_channel : State C -> nat -> res (channel_answer C);
  cm_resume_channel : State C -> nat -> res (channel_answer C);
  cm_reset_all_channels : State C -> res (channel_answer C);
  cm_resume_all_channels : State C -> res (channel_answer C);
  cm_node_has_fanin : C -> nat -> bool;
  cm_node_has_fanout : C -> nat -> bool
}.

Section Step.
Context {C : Type} {env : Env} {cm : ChannelManager C}.
#[local] Abbreviation State := (State C).
#[local] Abbreviation SM := (M State).

(** ** Channels *)
Definition flush_channel_event (c : cause_type) (err : error_policy_enum) (i : env_event_type)
    : SM error_policy_enum :=
  let ni := ee_node_index i in
  let v := ee_value i in
  n <- get_node ni ;;
  require F_ise (negb (is_frozen n)) ;;;
  r <- (if pending_event n then
          let pe := n_event_index n in
          ev <- get_event pe ;;
          E <- __report_instability (value_eqb v LOGIC_OTHER) false ev ;;
          dq <- gets dequeue_unstable_events ;;
          (if dq then kill_event pe (ev_node ev) else upd_event pe (set_ev_val LOGIC_OTHER)) ;;;
          ret (policy_max err E, dq)
        else ret (err, true)) ;;
  when (r.2 && negb (value_eqb (n_value n) v))
    (pn <- __allocate_event_new ni c INVALID_RULE_INDEX None v false false ;;
     ev <- get_event pn ;;
     now <- gets current_time ;;
     t <- (if negb (ee_use_global i) then ret (t_add now (ee_delay i)) else delay_of_value ev) ;;
     enqueue_event t pn) ;;;
  ret r.1.
Definition flush_channel_events (l : list env_event_type) (c : cause_type) : SM error_policy_enum :=
  fold_m l ERROR_NONE (flush_channel_event c).

(** The channels' new state, and what they throw. *)
Definition accept_answer (f : State -> res (channel_answer C)) : SM (list env_event_type) :=
  r <- gets f ;;
  a <- lift_res r ;;
  modify (put__channel_manager (ca_manager a)) ;;;
  modify (put_rng (ca_rng a)) ;;;
  for_each (ca_exceptions a) (fun x => modify (record_exception x)) ;;;
  ret (ca_events a).
Definition channel_action (f : State -> res (channel_answer C)) : SM unit :=
  l <- accept_answer f ;;
  flush_channel_events l (cause_make INVALID_NODE_INDEX LOGIC_OTHER) ;;;
  ret tt.
Definition reset_channel (k : nat) : SM unit := channel_action (fun s => cm_reset_channel s k).
Definition resume_channel (k : nat) : SM unit := channel_action (fun s => cm_resume_channel s k).
Definition reset_all_channels : SM unit := channel_action cm_reset_all_channels.
Definition resume_all_channels : SM unit := channel_action cm_resume_all_channels.

Definition node_is_driven_by_channel (ni : nat) : SM bool :=
  n <- get_node ni ;; m <- gets _channel_manager ;; ret (in_channel n && cm_node_has_fanin m ni).
Definition node_drives_any_channel (ni : nat) : SM bool :=
  n <- get_node ni ;; m <- gets _channel_manager ;; ret (in_channel n && cm_node_has_fanout m ni).
Definition node_is_driven (ni : nat) : SM bool :=
  n <- get_node ni ;; d <- node_is_driven_by_channel ni ;; ret (has_fanin n || d).

(** Whether the root rule of an expression is no invariant. *)
Definition fanout_uses (gei : nat) : SM bool :=
  x <- process_of_expr gei ;;
  let '(_, ps, g) := x in
  lei <- of_option F_index (local_expr_index ps gei) ;;
  root <- reading (fun _ => g) (local_root_expr (S (length (expr_pool g))) lei) ;;
  r <- reading (fun _ => g) (the_rule root) ;;
  ret (negb (is_invariant r)).
Fixpoint any_fanout_uses (l : list nat) : SM bool :=
  match l with
  | [] => ret false
  | gei :: l' => u <- fanout_uses gei ;; if (u : bool) then ret true else any_fanout_uses l'
  end.
Definition node_is_used (ni : nat) : SM bool :=
  n <- get_node ni ;;
  u <- any_fanout_uses (n_fanout n) ;;
  if (u : bool) then ret true else node_drives_any_channel ni.

(** ** Tracing *)
Definition trace_flush (t : trace_state) : trace_state :=
  if Nat.eqb (length (current_chunk t)) 0 then t
  else set_current_chunk []
         (set_previous_events (previous_events t + length (current_chunk t))%nat t).
Definition push_back_event (p : trace_point) (t : trace_state) : trace_state * nat :=
  (set_current_chunk (current_chunk t ++ [p]) t,
   (length (current_chunk t) + previous_events t)%nat).
Definition record_event (now : real_time) (t : trace_state) : trace_state * nat :=
  let t1 := if t_lt (vcd_last_time t) now then set_vcd_last_time now t else t in
  (set_vcd_event_count (S (vcd_event_count t)) t1, vcd_event_count t).

(** The index of the event in the trace, or in the VCD trace if there is one. *)
Definition trace_event (pe : Event) (ni : nat) (prev : value_enum) : SM nat :=
  now <- gets current_time ;;
  tr <- gets is_tracing ;;
  critical <-
    (if tr then
       t <- gets tracing ;;
       let '(t1, i) := push_back_event (mkTracePoint now (ev_cause_rule pe)
                         (critical_trace_event (ev_cause pe)) ni (ev_val pe) prev) t in
       modify (put_tracing
         (if trace_flush_interval t1 <=? Z.of_nat (length (current_chunk t1))
          then trace_flush t1 else t1)) ;;;
       ret i
     else ret INVALID_TRACE_INDEX) ;;
  vcd <- gets is_tracing_vcd ;;
  if vcd then
    t <- gets tracing ;;
    require F_assert (t_le (vcd_last_time t) now) ;;;
    let '(t1, i) := record_event now t in
    modify (put_tracing t1) ;;; ret i
  else ret critical.
Definition close_trace : SM unit :=
  modify (fun s => stop_trace (put_tracing
    (set_previous_events 0 (set_current_chunk [] (tracing s))) s)).
Definition close_vcd : SM unit :=
  modify (fun s => stop_vcd (put_tracing
    (set_vcd_event_count 0 (set_vcd_last_time real_zero (tracing s))) s)).

(** ** Execution of one event *)
Section Execute.
(** [step], and [set_node_immediately], which call [execute_immediately]. *)
Context (rec_step : SM (nat * nat)) (rec_set : nat -> value_enum -> bool -> SM (nat * nat)).

(** How the scope that owns the event is left: with the result of an early
    return, or by changing the node. *)
Inductive commit_result : Type := CR_return (r : nat * nat) | CR_commit.

(** An exclusion violation: either execution goes on without checks, or the
    event goes back to the queue.  True: go on. *)
Definition handle_excl_exception (ept : real_time) (pei : nat) (x : step_exception) : SM bool :=
  p <- gets policies ;;
  match excl_check_fail_policy p with
  | ERROR_BREAK => modify stop ;;; modify nocheck_excl ;;; ret true
  | ERROR_WARN | ERROR_NONE => modify nocheck_excl ;;; ret true
  | ERROR_INTERACTIVE | ERROR_FATAL =>
      when (negb (Nat.eqb pei 0)) (enqueue_event ept pei) ;;;
      modify (record_exception x) ;;;
      ret false
  end.

Definition set_node_value (ni : nat) (pe : Event) (ept : real_time) : SM unit :=
  n <- get_node ni ;;
  when (has_setup_check n) (do_setup_check ni (ev_val pe)) ;;;
  when (has_hold_check n) (do_hold_check ni (ev_val pe)) ;;;
  upd_node ni (set_value_and_cause (ev_val pe) (cause_ec (ev_cause pe)) ept) ;;;
  when (negb (value_eqb (ev_val pe) LOGIC_OTHER))
    (upd_node ni (fun n => set_n_tcount (wrap 64 (n_tcount n + 1)) n)).

Definition check_and_set (ni : nat) (pe : Event) (ept : real_time) (pei : nat) (prev : value_enum)
    : SM (commit_result * bool) :=
  chk <- gets checking_excl ;;
  n <- get_node ni ;;
  x <- (if chk then check_excl_rings ni n prev (ev_val pe) else ret None) ;;
  go <- match x with
        | Some exex => handle_excl_exception ept pei exex
        | None => ret true
        end ;;
  if (go : bool) then set_node_value ni pe ept ;;; ret (CR_commit, Nat.eqb pei 0)
  else ret (CR_return (INVALID_NODE_INDEX, INVALID_NODE_INDEX), true).

(** The event's scope; the boolean is [event_deallocator::keep]. *)
Definition commit_event (ni : nat) (pe : Event) (ept : real_time) (pei : nat) (prev : value_enum)
    : SM (commit_result * bool) :=
  let keep := Nat.eqb pei 0 in
  if value_eqb (ev_val pe) LOGIC_OTHER && value_eqb prev LOGIC_OTHER then
    ret (CR_return (ni, cause_node (ev_cause pe)), keep)
  else
    dq <- gets dequeue_unstable_events ;;
    if dq && value_eqb prev (ev_val pe) then
      vac <- gets stopping_on_vacuous_events ;;
      if (vac : bool) then ret (CR_return (INVALID_NODE_INDEX, INVALID_NODE_INDEX), keep)
      else r <- rec_step ;; ret (CR_return r, keep)
    else
      require F_ise (dq || negb (value_eqb prev (ev_val pe)) || forced pe) ;;;
      check_and_set ni pe ept pei prev.

(** The order of the fanouts; iterators into [__shuffle_indices] are invalid
    once it is cleared again. *)
Definition evaluation_order (fanout : list nat) : SM (list nat * option nat) :=
  rnd <- gets eval_ordering_is_random ;;
  if (rnd : bool) then
    r <- gets rng ;;
    g <- gets __shuffle_generation ;;
    modify (put___shuffle_generation (S g)) ;;;
    modify (put_rng (mkRng (rng_rand48 r) (rng_rand r + length fanout)%nat)) ;;;
    ret (env_shuffle (rng_rand r) fanout, Some (S g))
  else ret (fanout, None).

Definition evaluate_fanout (c : cause_type) (prev : value_enum) (gen : option nat) (exi : nat)
    : SM unit :=
  g <- gets __shuffle_generation ;;
  require F_index (match gen with Some g' => Nat.eqb g g' | None => true end) ;;;
  E <- propagate_evaluation rec_set c exi (value_as_pull prev) ;;
  when (policy_ge E ERROR_BREAK) (modify stop).

Definition evaluate_fanouts (c : cause_type) (fanout : list nat) (prev : value_enum) : SM unit :=
  og <- evaluation_order fanout ;;
  modify (put___keeper_check_candidates []) ;;;
  saved <- gets __invariant_update_map ;;
  modify (put___invariant_update_map []) ;;;
  for_each og.1 (evaluate_fanout c prev og.2) ;;;
  handle_invariants c ;;;
  modify (put___invariant_update_map saved).

Definition react_channels (c : cause_type) (prev next : value_enum) : SM unit :=
  events <- accept_answer (fun s => cm_process_node s (cause_node c) prev next) ;;
  E <- flush_channel_events events c ;;
  react E (instability_exception (cause_node c) E).

(** [~auto_flush_queues] *)
Definition auto_flush_queues (c : cause_type) (t : real_time) : SM unit :=
  E <- flush_updated_nodes c t ;;
  react E (interference_exception (cause_node c) E).

(** The node has changed to [next]. *)
Definition propagate_change (ni : nat) (ept : real_time) (critical : nat) (prev : value_enum) : SM unit :=
  n <- get_node ni ;;
  let c := mkCause (mkEventCause ni (n_value n)) critical in
  evaluate_fanouts c (n_fanout n) prev ;;;
  when (in_channel n) (react_channels c prev (n_value n)) ;;;
  when (has_mk_exclhi n) (enforce_exclhi c prev) ;;;
  when (has_mk_excllo n) (enforce_excllo c prev) ;;;
  auto_flush_queues c ept ;;;
  p <- gets policies ;;
  when (policy_gt (keeper_check_fail_policy p) ERROR_IGNORE) (handle_keeper_checks ni).

Definition execute_event (pe : Event) (ept : real_time) : SM (nat * nat) :=
  u <- gets updated_nodes ;;
  require F_ise (Nat.eqb (length u) 0) ;;;
  q <- gets updated_nodes_queue ;;
  require F_ise (Nat.eqb (length q) 0) ;;;
  b <- gets __mk_excl_blocking_set ;;
  require F_ise (Nat.eqb (length b) 0) ;;;
  modify clear_exceptions ;;;
  let ni := ev_node pe in
  n <- get_node ni ;;
  when (negb (is_atomic n)) (modify clear_exceptions) ;;;
  let prev := n_value n in
  critical <- trace_event pe ni prev ;;
  let pei := n_event_index n in
  cr <- commit_event ni pe ept pei prev ;;
  when (negb cr.2) (__deallocate_event ni pei) ;;;
  match cr.1 with
  | CR_return r => ret r
  | CR_commit => propagate_change ni ept critical prev ;;; ret (ni, cause_node (ev_cause pe))
  end.
End Execute.

(** ** The knot *)
Section Knot.
Context (exec : Event -> real_time -> SM (nat * nat)).

(** [execute_immediately] of an event in the pool. *)
Definition execute_queued (ei : nat) (ept : real_time) : SM (nat * nat) :=
  if Nat.eqb ei 0 then ret (INVALID_NODE_INDEX, INVALID_NODE_INDEX)
  else
    pe <- get_event ei ;;
    n <- get_node (ev_node pe) ;;
    require F_ise (pending_event n) ;;;
    require F_ise (Nat.eqb (n_event_index n) ei) ;;;
    exec pe ept.

Definition step_with : SM (nat * nat) :=
  modify (put___atomic_updated_nodes []) ;;;
  pend <- gets pending_events ;;
  if negb pend then ret (INVALID_NODE_INDEX, INVALID_NODE_INDEX)
  else
    ep <- dequeue_event ;;
    modify (put_current_time (ep_time ep)) ;;;
    execute_queued (ep_index ep) (ep_time ep).

Definition set_node_immediately_with (ni : nat) (val : value_enum) (f : bool) : SM (nat * nat) :=
  let e := set_ev_val val (set_ev_node ni Event_empty) in
  n <- get_node ni ;;
  require F_ise (negb (pending_event n)) ;;;
  now <- gets current_time ;;
  exec (if f then force e else e) now.
End Knot.

Fixpoint execute_immediately (fuel : nat) (pe : Event) (ept : real_time) : SM (nat * nat) :=
  match fuel with
  | O => fail F_fuel
  | S fuel' =>
      execute_event (step_with (execute_immediately fuel'))
        (set_node_immediately_with (execute_immediately fuel')) pe ept
  end.
Definition step (fuel : nat) : SM (nat * nat) := step_with (execute_immediately fuel).
Definition set_node_immediately (fuel : nat) : nat -> value_enum -> bool -> SM (nat * nat) :=
  set_node_immediately_with (execute_immediately fuel).

(** Runs until the queue is empty, or a breakpoint or [stop] ends it. *)
Fixpoint cycle (fuel : nat) : SM (nat * nat) :=
  match fuel with
  | O => fail F_fuel
  | S fuel' =>
      r <- step fuel' ;;
      if Nat.eqb r.1 0 then ret r
      else
        n <- get_node r.1 ;;
        st <- gets stopped ;;
        if is_breakpoint n || st then ret r else cycle fuel'
  end.

(** ** Initialization and reset *)
Definition __initialize_time : SM unit :=
  modify (put_current_time real_zero) ;;; close_trace ;;; close_vcd.

Definition initialize_processes : SM unit :=
  n <- gets get_num_processes ;;
  for_each (seq 0 n) (fun pid =>
    ps <- get_process_state pid ;;
    g <- get_type (ps_type ps) ;;
    ps' <- lift_res (process_initialize g ps) ;;
    modify (fun s => put_process_state_array (<[pid := ps']> (process_state_array s)) s)).

Definition __initialize_state (fuel : nat) (startup reset_count : bool) : SM unit :=
  modify (fun s => put_node_pool
    (map (if startup then NodeState_reset
          else if reset_count then NodeState_initialize else x_value_and_cause) (node_pool s)) s) ;;;
  initialize_processes ;;;
  drain_events ;;;
  p <- gets event_pool ;;
  require F_ise (check_valid_empty p) ;;;
  modify (fun s => put_check_exhi_ring_pool (map (fun _ => false) (check_exhi_ring_pool s)) s) ;;;
  modify (fun s => put_check_exlo_ring_pool (map (fun _ => false) (check_exlo_ring_pool s)) s) ;;;
  require F_assert (negb (Nat.eqb env_GND 0)) ;;;
  require F_assert (negb (Nat.eqb env_Vdd 0)) ;;;
  set_node env_GND LOGIC_LOW false ;;;
  set_node env_Vdd LOGIC_HIGH false ;;;
  cycle fuel ;;;
  m <- gets _channel_manager ;;
  m' <- lift_res (cm_initialize m) ;;
  modify (put__channel_manager m').

Definition __initialize (fuel : nat) (startup : bool) : SM unit :=
  __initialize_time ;;;
  __initialize_state fuel startup true ;;;
  now <- gets current_time ;;
  require F_assert (real_is_zero now).
Definition x_all (fuel : nat) : SM unit := __initialize_state fuel false false.
Definition initialize (fuel : nat) : SM unit :=
  __initialize fuel false ;;;
  modify (fun s => put_flags (clear_flag (set_flag (flags s) FLAGS_INITIALIZE_SET_MASK)
                                FLAGS_INITIALIZE_CLEAR_MASK) s).

Definition reset_tcounts : SM unit :=
  modify (fun s => put_node_pool (map reset_tcount (node_pool s)) s).

(** [default_policies] holds the defaults of the timing checker, too. *)
Definition reset (fuel : nat) : SM unit :=
  __initialize fuel true ;;;
  modify (put_flags FLAGS_DEFAULT) ;;;
  modify (put_policies default_policies) ;;;
  modify (fun s => put_timing (set_timing_mode TIMING_DEFAULT (timing s)) s) ;;;
  unwatch_all_nodes ;;;
  clear_all_breakpoints ;;;
  modify (fun s => put_timing (set_uniform_delay real_default_delay (timing s)) s) ;;;
  modify (fun s => put__channel_manager (cm_clobber_all (_channel_manager s)) s) ;;;
  modify (fun s => put_rng (mkRng 0 (rng_rand (rng s))) s).

(** ** Status *)
Definition find_nodes (f : NodeState -> bool) (s : State) : list nat :=
  List.filter (fun i => match node_pool s !! i with Some n => f n | None => false end)
    (seq 1 (length (node_pool s) - 1)).
Definition status_nodes (val : value_enum) : State -> list nat :=
  find_nodes (fun n => value_eqb (n_value n) val).
Definition status_interference (w : bool) : State -> list nat :=
  find_nodes (if w then weak_interfering else interfering).
Definition status_driven (p : pull_enum) (fanin_only : bool) (s : State) : list nat :=
  let l := find_nodes (match p with
                       | PULL_OFF => undriven | PULL_WEAK => x_driven | PULL_ON => driven
                       end) s in
  if fanin_only
  then List.filter (fun i => match node_pool s !! i with Some n => has_fanin n | None => false end) l
  else l.
Definition status_frozen : State -> list nat := find_nodes is_frozen.

Definition check_all_invariants : SM bool :=
  n <- gets get_num_processes ;;
  fold_m (seq 0 n) false (fun acc pid =>
    ps <- get_process_state pid ;;
    g <- get_type (ps_type ps) ;;
    b <- lift_res (check_invariants g ps) ;;
    ret (acc || b)).
End Step.
