(* ===== verification/SimCommands.v ===== *)
(** The commands of the simulator: "sim/prsim/Command-prsim.cc",
    "sim/prsim/Command-prsim-export.cc", the commands of
    "sim/command_common.tcc" that call the simulator, and the queries of
    "sim/prsim/State-prsim.cc" that only commands use.

    A command takes its words and runs over the shell, whose last member is the
    simulator.  What is printed is left out: a command that only prints is
    modelled by what it reads and by its status.  Names are looked up by the
    parser of instance references, the class [NameEnv]. *)
From stdpp Require Import strings.
From S2P Require Import Prelude Strings SimTime PullSet Expr EventQueue ArrayPool OrdMap Node.
From S2P Require Import ProcGraph Directory State Registry Events Schedule Excl Flush Eval Feedback.
From S2P Require Import TimingCheck Step.
Open Scope Z_scope.
Local Open Scope hackt_scope.
#[local] Abbreviation length := Datatypes.length.

(** What a name refers to, in the top-level process or in a type; and the
    number input of the C++ library: the variable's new value, and whether it
    failed. *)
Inductive named_reference : Type :=
  | REF_NONE | REF_PROCESS (pid : nat) | REF_BOOL (ni : nat) | REF_OTHER.
Class NameEnv := {
  parser_node : option nat -> string -> nat;                     (* 0: none *)
  parser_local_node : option nat -> string -> nat;
  parser_nodes : option nat -> string -> option (list nat);
  parser_process : option nat -> string -> option nat;
  parser_subnodes : option nat -> string -> option (list nat);
  parser_subnodes_local : option nat -> option (list nat);       (* of a process *)
  parser_ports : option nat -> option (list nat);
  parser_reference : option nat -> string -> named_reference;
  process_footprint_map : nat -> nat;                            (* 0: none *)
  string_to_num : string -> real_time -> real_time * bool
}.

Section Queries.
Context {C : Type} {env : Env} {cm : ChannelManager C}.
#[local] Abbreviation State := (State C).
#[local] Abbreviation SM := (M State).

(** ** Exceptions *)
Definition inspect (x : step_exception) : SM error_policy_enum :=
  p <- gets policies ;;
  match x with
  | excl_exception hi lock_id _ =>
      m <- gets (if hi then check_exhi else check_exlo) ;;
      let ring := List.filter (fun e => existsb (Nat.eqb lock_id) e.2) m in
      require F_ise (Nat.ltb 1 (length ring)) ;;;
      ret (excl_check_fail_policy p)
  | channel_exception _ _ _ _ _ _ => ret (channel_expect_fail_policy p)
  | invariant_exception _ policy | interference_exception _ policy
  | instability_exception _ policy | keeper_fail_exception _ policy => ret policy
  | timing_exception _ _ _ _ _ _ _ policy => ret policy
  end.
Definition inspect_exceptions : SM error_policy_enum :=
  l <- gets recent_exceptions ;;
  fold_m l ERROR_NONE (fun r x => E <- inspect x ;; ret (policy_max r E)).

(** ** Queries about nodes *)
Definition filter_nodes (f : nat -> SM bool) (l : list nat) : SM (list nat) :=
  fold_m l [] (fun acc ni => b <- f ni ;; ret (if (b : bool) then acc ++ [ni] else acc)).
Definition find_matching (f : nat -> SM bool) : SM (list nat) :=
  n <- gets (fun s => length (node_pool s)) ;; filter_nodes f (seq 1 (n - 1)).

Definition is_X (n : NodeState) : bool := value_eqb (n_value n) LOGIC_OTHER.
Definition node_is_X_no_driver (ni : nat) : SM bool :=
  n <- get_node ni ;;
  if is_X n then d <- node_is_driven ni ;; ret (negb d) else ret false.
Definition node_is_X_no_driver_with_fanout (ni : nat) : SM bool :=
  b <- node_is_X_no_driver ni ;; if (b : bool) then node_is_used ni else ret false.
Definition node_is_unused (ni : nat) : SM bool :=
  d <- node_is_driven ni ;;
  if (d : bool) then ret false else u <- node_is_used ni ;; ret (negb u).
Definition node_is_X_not_used (ni : nat) : SM bool :=
  n <- get_node ni ;;
  if is_X n then u <- node_is_used ni ;; ret (negb u) else ret false.
Definition node_is_X_used (ni : nat) : SM bool :=
  n <- get_node ni ;; if is_X n then node_is_used ni else ret false.
Definition node_is_X_has_fanin_off (ni : nat) : SM bool :=
  n <- get_node ni ;;
  d <- (if is_X n then node_is_driven ni else ret false) ;;
  ret (d && forallb (fun p => pull_eqb p PULL_OFF)
    [node_pull false false n; node_pull true false n; node_pull false true n; node_pull true true n]).
Definition unused_nodes : SM (list nat) := find_matching node_is_unused.
Definition dangling_unknown_nodes (b : bool) : SM (list nat) :=
  find_matching (if b then node_is_X_no_driver else node_is_X_no_driver_with_fanout).
Definition output_unknown_nodes : SM (list nat) := find_matching node_is_X_not_used.
Definition unknown_nodes_fanout : SM (list nat) := find_matching node_is_X_used.
Definition unknown_nodes_fanin_off : SM (list nat) := find_matching node_is_X_has_fanin_off.

(** ** Process graphs *)
Definition on_graph {A} (gid : nat) (m : M unique_process_subgraph A) : SM A :=
  g <- get_type gid ;;
  match m g with
  | Ok (a, g') =>
      modify (fun s => put_unique_process_pool (<[gid := g']> (unique_process_pool s)) s) ;;; ret a
  | Err f => fail f
  end.
Definition check_structure_all : SM unit :=
  l <- gets unique_process_pool ;; for_each l (fun g => reading (fun _ => g) check_structure).

(** [backtrace_node]: goes from cause to cause until one comes up again. *)
Fixpoint backtrace_loop (fuel : nat) (seen : list (nat * value_enum)) (e : nat * value_enum) : SM unit :=
  match fuel with
  | O => fail F_fuel
  | S fuel' =>
      n <- get_node e.1 ;;
      let c := get_cause (n_causes n) e.2 in
      if Nat.eqb (c_node c) 0 then ret tt
      else
        get_node (c_node c) ;;;
        if bool_decide ((c_node c, c_val c) ∈ seen) then ret tt
        else backtrace_loop fuel' ((c_node c, c_val c) :: seen) (c_node c, c_val c)
  end.
Definition backtrace_node (ni : nat) (v : value_enum) : SM unit :=
  get_node ni ;;;
  require F_ise (negb (Nat.eqb ni 0)) ;;;
  n <- gets (fun s => length (node_pool s)) ;;
  backtrace_loop (S (3 * n)) [(ni, v)] (ni, v).
End Queries.

Section Commands.
Context {C : Type} {env : Env} {cm : ChannelManager C} {senv : ShellEnv} {names : NameEnv}.
#[local] Abbreviation State := (State C).
#[local] Abbreviation SM := (M State).
#[local] Abbreviation SHM := (M (shell State)).

(** ** Arguments *)

(** A type-local scope takes the place of the working directory; [proc]: the
    empty name is that of the top-level process. *)
Definition dispatch_parser {A} (f : option nat -> string -> A) (proc : bool) (s : string) : SHM A :=
  l <- gets type_stack ;;
  match l with
  | ty :: _ => ret (f (Some ty) s)
  | [] =>
      t <- prepend_working_dir s ;;
      ret (f None (if proc && negb (nonempty t) then "."%string else t))
  end.
Definition parse_node_to_index : string -> SHM nat := dispatch_parser parser_node false.
Definition parse_node_to_local_index : string -> SHM nat := dispatch_parser parser_local_node false.
Definition parse_nodes_to_indices : string -> SHM (option (list nat)) := dispatch_parser parser_nodes false.
Definition parse_process_to_index : string -> SHM (option nat) := dispatch_parser parser_process true.
Definition parse_global_reference : string -> SHM named_reference := dispatch_parser parser_reference false.
Definition parse_name_to_get_subnodes : string -> SHM (option (list nat)) := dispatch_parser parser_subnodes true.
Definition parse_name_to_get_subnodes_local (s : string) : SHM (option (list nat)) :=
  p <- parse_process_to_index s ;; ret (parser_subnodes_local p).
Definition parse_name_to_get_ports (s : string) : SHM (option (list nat)) :=
  p <- parse_process_to_index s ;; ret (parser_ports p).
Definition __get_current_process_graph : SHM nat :=
  l <- gets type_stack ;;
  match l with
  | ty :: _ => require F_undef (negb (Nat.eqb (process_footprint_map ty) 0)) ;;; ret (process_footprint_map ty)
  | [] => ret 0%nat
  end.

(** Commands that are refused within a type. *)
Definition global_only (m : SHM Z) : SHM Z := b <- in_local_type ;; if (b : bool) then ret BADARG else m.

(** [NODE_FOR_EACH]: the body goes on with a value, or returns a status. *)
Fixpoint loop_nodes {B} (body : B -> nat -> SHM (Z + B)) (l : list nat) (b : B) : SHM (Z + B) :=
  match l with
  | [] => ret (inr b)
  | ni :: l' =>
      r <- body b ni ;;
      match r with inl st => ret (inl st) | inr b' => loop_nodes body l' b' end
  end.
Definition node_for_each {B} (ref : string) (b : B) (body : B -> nat -> SHM (Z + B)) (last : B -> Z) : SHM Z :=
  o <- parse_nodes_to_indices ref ;;
  match o with
  | None => ret BADARG
  | Some l => r <- loop_nodes body l b ;; ret (match r with inl st => st | inr b' => last b' end)
  end.
Definition each_node (ref : string) (body : nat -> SM unit) : SHM Z :=
  node_for_each ref tt (fun _ ni => on_sim (body ni) ;;; ret (inr tt)) (fun _ => NORMAL).
(** A command for one argument that may name several nodes. *)
Definition nodes_main (body : nat -> SM unit) (a : list string) : SHM Z :=
  match a with [_; objname] => global_only (each_node objname body) | _ => ret SYNTAX end.
(** A command for a single node, that only prints. *)
Definition node_main (body : nat -> SM unit) (a : list string) : SHM Z :=
  match a with
  | [_; objname] =>
      global_only (
        ni <- parse_node_to_index objname ;;
        if Nat.eqb ni 0 then ret BADARG else on_sim (body ni) ;;; ret NORMAL)
  | _ => ret SYNTAX
  end.
(** A command without arguments. *)
Definition plain_main (bad : Z) (m : SM unit) (a : list string) : SHM Z :=
  match a with [_] => on_sim m ;;; ret NORMAL | _ => ret bad end.

Definition parse_time (s : string) : option real_time :=
  let '(v, err) := string_to_num s env_garbage in if err then None else Some v.
Definition is_relative (d : string) : bool := String.prefix "+" d.

(** The value that a word stands for; [?] draws one. *)
Definition flip : SM bool :=
  r <- gets rng ;;
  modify (put_rng (mkRng (S (rng_rand48 r)) (rng_rand r))) ;;;
  ret (Z.odd (env_lrand48 (rng_rand48 r))).
Definition coin_for (v : string) : SM bool := if String.eqb v "?" then flip else ret false.
Definition word_to_value (v : string) : SM (option value_enum) :=
  c <- coin_for v ;; ret (string_to_value c v).
Definition word_to_node_value (v : string) (ni : nat) : SM (option value_enum) :=
  c <- coin_for v ;; node_to_value c v ni.

(** A status as the value of an enumeration. *)
Definition enqueue_code (e : enqueue_status) : Z :=
  match e with ENQUEUE_ACCEPT => 0 | ENQUEUE_WARNING => 1 | ENQUEUE_REJECT => 2 | ENQUEUE_FATAL => 3 end.
Definition enqueue_result (e : enqueue_status) : Z := if enqueue_code e <? 1 then NORMAL else BADARG.

(** ** Running *)
Section Run.
(** The fuel of [step], and of the loops. *)
Context (fuel : nat).

(** True at a breakpoint. *)
Definition post_event_messages (ni : nat) : SM bool :=
  n <- get_node ni ;;
  l <- gets __atomic_updated_nodes ;;
  for_each l (fun x => get_node x.1 ;;; ret tt) ;;;
  ret (is_breakpoint n).
(** The end of a run: the exceptions that the last step recorded. *)
Definition run_status : SM Z :=
  b <- gets is_fatal ;;
  if (b : bool) then e <- inspect_exceptions ;; ret (error_policy_to_status e) else ret NORMAL.

(** [n] counts the times that differ, or the events. *)
Fixpoint step_loop (k : nat) (by_time : bool) (i : Z) (time : real_time) : SM Z :=
  match k with
  | O => fail F_fuel
  | S k' =>
      st <- gets stopped_or_fatal ;;
      if st || (i =? 0) then run_status
      else
        ni <- step fuel ;;
        if Nat.eqb ni.1 0 then run_status
        else
          ct <- gets current_time ;;
          let i' := if by_time && t_eqb time ct then i else i - 1 in
          b <- post_event_messages ni.1 ;;
          if (b : bool) then ret NORMAL else step_loop k' by_time i' ct
  end.
Definition step_event_main (i : Z) : SM Z :=
  modify resume ;;; now <- gets current_time ;; step_loop fuel false i now.
Definition steps_main (by_time : bool) (a : list string) : SHM Z :=
  forbid_cosimulation ;;;
  let go i := on_sim (modify resume ;;; now <- gets current_time ;; step_loop fuel by_time i now) in
  match a with
  | [] | [_] => go 1
  | [_; n] => match string_to_int 64 false n with None => ret BADARG | Some i => go i end
  | _ => ret SYNTAX
  end.
Definition step_main : list string -> SHM Z := steps_main true.
Definition step_event_cmd_main : list string -> SHM Z := steps_main false.

Definition advance_goes_on (stop_time : real_time) : SM bool :=
  st <- gets stopped_or_fatal ;;
  pend <- gets pending_events ;;
  if st || negb pend then ret false else t <- next_event_time ;; ret (t_lt t stop_time).
Definition advance_end (stop_time : real_time) : SM Z :=
  st <- gets stopped ;;
  now <- gets current_time ;;
  when (negb st && t_lt now stop_time) (modify (update_time stop_time)) ;;;
  run_status.
Fixpoint advance_loop (k : nat) (stop_time : real_time) : SM Z :=
  match k with
  | O => fail F_fuel
  | S k' =>
      go <- advance_goes_on stop_time ;;
      if negb go then advance_end stop_time
      else
        ni <- step fuel ;;
        if Nat.eqb ni.1 0 then advance_end stop_time
        else
          n <- get_node ni.1 ;;
          if is_breakpoint n then ret NORMAL else advance_loop k' stop_time
  end.
Definition prsim_advance (stop_time : real_time) : SM Z := modify resume ;;; advance_loop fuel stop_time.
Definition advance_main (a : list string) : SHM Z :=
  forbid_cosimulation ;;;
  match a with
  | [_; t] =>
      match parse_time t with
      | None => ret BADARG
      | Some add =>
          if t_lt add real_zero then ret BADARG
          else on_sim (now <- gets current_time ;; prsim_advance (t_add now add))
      end
  | _ => ret SYNTAX
  end.

Fixpoint cycle_loop (k : nat) : SM Z :=
  match k with
  | O => fail F_fuel
  | S k' =>
      st <- gets stopped_or_fatal ;;
      if (st : bool) then run_status
      else
        ni <- step fuel ;;
        if Nat.eqb ni.1 0 then run_status
        else b <- post_event_messages ni.1 ;; if (b : bool) then ret NORMAL else cycle_loop k'
  end.
Definition cycle_main (a : list string) : SHM Z :=
  forbid_cosimulation ;;;
  match a with
  | [_] => on_sim (modify resume ;;; cycle_loop fuel)
  | _ => ret SYNTAX
  end.

Definition initialize_main (a : list string) : SHM Z := on_sim (initialize fuel) ;;; ret NORMAL.
Definition reset_main (a : list string) : SHM Z :=
  on_sim (reset fuel) ;;; modify (fun r => put_dirs (reset_directories (dirs r)) r) ;;; ret NORMAL.
Definition x_all_main (a : list string) : SHM Z :=
  match a with [] | [_] => on_sim (x_all fuel) ;;; ret NORMAL | _ => ret SYNTAX end.
End Run.

(** ** Setting nodes *)
Definition set_at (ni : nat) (val : value_enum) (d : option string) (force : bool) : SM (Z + enqueue_status) :=
  match d with
  | None => e <- set_node ni val force ;; ret (inr e)
  | Some d =>
      match parse_time d with
      | None => ret (inl BADARG)
      | Some t =>
          if is_relative d then
            if t_lt t real_zero then ret (inl BADARG)
            else e <- set_node_after ni val t force ;; ret (inr e)
          else
            now <- gets current_time ;;
            if t_lt t now then ret (inl BADARG)
            else e <- set_node_time ni val t force ;; ret (inr e)
      end
  end.
Definition set_body (_val : string) (d : option string) (force : bool) (ni : nat) : SM (Z + enqueue_status) :=
  val <- word_to_node_value _val ni ;;
  match val with
  | None => ret (inl SYNTAX)
  | Some val => set_at ni val d force
  end.
(** The status is that of the last node. *)
Definition __set_main (force : bool) (a : list string) : SHM Z :=
  let go objname _val d :=
    global_only (node_for_each objname ENQUEUE_ACCEPT
      (fun _ ni => on_sim (set_body _val d force ni)) enqueue_result) in
  match a with
  | [_; objname; _val] => go objname _val None
  | [_; objname; _val; d] => go objname _val (Some d)
  | _ => ret SYNTAX
  end.

Definition set_now_body (fuel : nat) (_val : string) (ni : nat) : SM (Z + unit) :=
  n <- get_node ni ;;
  if is_atomic n then ret (inl BADARG)
  else if pending_event n then ret (inl BADARG)
  else
    val <- word_to_node_value _val ni ;;
    match val with
    | None => ret (inl SYNTAX)
    | Some val =>
        r <- set_node_immediately fuel ni val false ;;
        post_event_messages r.1 ;;;
        fatal <- gets is_fatal ;;
        if (fatal : bool) then e <- inspect_exceptions ;; ret (inl (error_policy_to_status e))
        else ret (inr tt)
    end.
Definition __set_now_main (fuel : nat) (a : list string) : SHM Z :=
  match a with
  | [_; objname; _val] =>
      node_for_each objname tt (fun _ ni => on_sim (set_now_body fuel _val ni)) (fun _ => NORMAL)
  | _ => ret SYNTAX
  end.

Definition set_pair_random_main (a : list string) : SHM Z :=
  match a with
  | [_; objname1; objname2] =>
      global_only (
        ni1 <- parse_node_to_index objname1 ;;
        ni2 <- parse_node_to_index objname2 ;;
        if Nat.eqb ni1 0 || Nat.eqb ni2 0 then ret BADARG
        else
          on_sim (
            b <- flip ;;
            let val := if (b : bool) then LOGIC_HIGH else LOGIC_LOW in
            err1 <- set_node ni1 val false ;;
            err2 <- set_node ni2 (invert_value val) false ;;
            ret (if negb (enqueue_code err1 =? 0) || negb (enqueue_code err2 =? 0) then BADARG else NORMAL)))
  | _ => ret SYNTAX
  end.
Definition unset_main : list string -> SHM Z := nodes_main unset_node.
Definition thaw_main : list string -> SHM Z := unset_main.
Definition unsetall_main : list string -> SHM Z := plain_main SYNTAX unset_all_nodes.

(** The word of the value is taken anew for each node, [*ai++]: it is read past
    the end of the words from the second node on. *)
Definition setrf_body (_val : string) (force : bool) (first : bool) (ni : nat) : SM (Z + enqueue_status) :=
  require F_undef first ;;;
  val <- word_to_node_value _val ni ;;
  match val with
  | None => ret (inl SYNTAX)
  | Some val =>
      d <- exponential_random_delay ;;
      e <- set_node_after ni val d force ;; ret (inr e)
  end.
Definition __setrf_main (force : bool) (a : list string) : SHM Z :=
  match a with
  | [_; objname; _val] =>
      global_only (node_for_each objname (true, ENQUEUE_ACCEPT)
        (fun b ni => r <- on_sim (setrf_body _val force b.1 ni) ;;
                     ret (match r with inl st => inl st | inr e => inr (false, e) end))
        (fun b => enqueue_result b.2))
  | _ => ret SYNTAX
  end.
Definition freeze_main : list string -> SHM Z := nodes_main freeze_node.

Definition on_off_main (set : bool -> State -> State) (a : list string) : SHM Z :=
  match a with
  | [_] => ret NORMAL
  | [_; arg] =>
      if String.eqb arg "on" then on_sim (modify (set true)) ;;; ret NORMAL
      else if String.eqb arg "off" then on_sim (modify (set false)) ;;; ret NORMAL
      else ret BADARG
  | _ => ret BADARG
  end.
Definition frozen_verbose_main : list string -> SHM Z := on_off_main set_frozen_verbose.

Definition upset_body (_val : option string) (ni : nat) : SM (Z + unit) :=
  n <- get_node ni ;;
  val <- (match _val with Some v => word_to_node_value v ni | None => ret (Some (n_value n)) end) ;;
  match val with
  | None => ret (inl SYNTAX)
  | Some val =>
      err <- set_node ni val true ;;
      if negb (enqueue_code err =? 0) then ret (inl (enqueue_code err))
      else freeze_node ni ;;; ret (inr tt)
  end.
Definition upset_main (a : list string) : SHM Z :=
  let go objname _val :=
    global_only (node_for_each objname tt (fun _ ni => on_sim (upset_body _val ni)) (fun _ => NORMAL)) in
  match a with
  | [_; objname] => go objname None
  | [_; objname; _val] => go objname (Some _val)
  | _ => ret SYNTAX
  end.

(** ** The queue *)
Definition dequeue_main : list string -> SHM Z := nodes_main (fun ni => deschedule_event ni ;;; ret tt).
Definition reschedule_body (smf : nat -> SM bool) (ni : nat) : SM (Z + unit) :=
  err <- smf ni ;; ret (if (err : bool) then inl BADARG else inr tt).
Definition reschedule_main (smf : nat -> real_time -> SM bool) (a : list string) : SHM Z :=
  match a with
  | [_; objname; t] =>
      global_only (
        match parse_time t with
        | None => ret BADARG
        | Some t =>
            node_for_each objname tt (fun _ ni => on_sim (reschedule_body (fun ni => smf ni t) ni)) (fun _ => NORMAL)
        end)
  | _ => ret SYNTAX
  end.
Definition reschedule_now_main (a : list string) : SHM Z :=
  match a with
  | [_; objname] =>
      global_only (node_for_each objname tt (fun _ ni => on_sim (reschedule_body reschedule_event_now ni)) (fun _ => NORMAL))
  | _ => ret SYNTAX
  end.
Definition execute_main (fuel : nat) (a : list string) : SHM Z :=
  match a with
  | [_; objname] =>
      global_only (
        ni <- parse_node_to_index objname ;;
        if Nat.eqb ni 0 then ret BADARG
        else on_sim (err <- reschedule_event_now ni ;;
                     if (err : bool) then ret BADARG else step_event_main fuel 1))
  | _ => ret SYNTAX
  end.
Definition pending_main : list string -> SHM Z :=
  node_main (fun ni => n <- get_node ni ;;
    when (pending_event n) (get_event (n_event_index n) ;;; ret tt)).
(** Only a thrown exception is caught; a failed assertion ends the program. *)
Definition catching {A} (m : SM A) : SM Z :=
  fun s => match m s with
           | Ok (_, s') => Ok (NORMAL, s')
           | Err F_exit => Ok (FATAL, s)
           | Err f => Err f
           end.
Definition check_main (m : SM unit) (a : list string) : SHM Z :=
  match a with [_] => on_sim (catching m) | _ => ret SYNTAX end.
Definition check_structure_main : list string -> SHM Z := check_main check_structure_all.
Definition check_queue_main : list string -> SHM Z := check_main check_event_queue.

(** ** Breakpoints and watched nodes *)
Fixpoint each_arg (body : string -> SHM Z) (l : list string) : SHM Z :=
  match l with
  | [] => ret NORMAL
  | x :: l' => st <- body x ;; if st =? NORMAL then each_arg body l' else ret st
  end.
Definition args_main (body : nat -> SM unit) (a : list string) : SHM Z :=
  match a with
  | _ :: (_ :: _) as l => global_only (each_arg (fun objname => each_node objname body) l)
  | _ => ret SYNTAX
  end.
Definition breakpt_main (a : list string) : SHM Z := forbid_cosimulation ;;; args_main set_node_breakpoint a.
Definition nobreakpt_main (a : list string) : SHM Z := forbid_cosimulation ;;; args_main clear_node_breakpoint a.
Definition nobreakptall_main (a : list string) : SHM Z :=
  forbid_cosimulation ;;; plain_main SYNTAX clear_all_breakpoints a.
Definition watch_main : list string -> SHM Z :=
  args_main (fun ni => when (negb (Nat.eqb ni 0)) (watch_node ni)).
Definition unwatch_main : list string -> SHM Z := args_main unwatch_node.
Definition flag_main (f : State -> State) : list string -> SHM Z := plain_main SYNTAX (modify f).
Definition unwatchall_main : list string -> SHM Z := plain_main SYNTAX unwatch_all_nodes.
Definition zerotcounts_main : list string -> SHM Z := plain_main SYNTAX reset_tcounts.

(** ** Queries *)
Definition print_node_main : list string -> SHM Z := nodes_main (fun ni => get_node ni ;;; ret tt).
Definition get_main : list string -> SHM Z :=
  nodes_main (fun ni => n <- get_node ni ;; get_node (get_cause_node_of n) ;;; ret tt).
Definition get_driven_main : list string -> SHM Z := print_node_main.
Definition default_print_nodeinfo_main : list string -> SHM Z := print_node_main.
Definition attributes_main : list string -> SHM Z := print_node_main.
Definition tcount_main : list string -> SHM Z := print_node_main.
Definition node_id_main : list string -> SHM Z := node_main (fun _ => ret tt).
Definition dump_node_main : list string -> SHM Z := node_main (fun ni => get_node ni ;;; ret tt).
Definition process_id_main (a : list string) : SHM Z :=
  match a with
  | [_; objname] =>
      global_only (p <- parse_process_to_index objname ;;
                   ret (match p with Some _ => NORMAL | None => BADARG end))
  | _ => ret SYNTAX
  end.
Definition print_nodes (l : list nat) : SM unit := for_each l (fun ni => get_node ni ;;; ret tt).
Definition subnodes_main (parse : string -> SHM (option (list nat))) (a : list string) : SHM Z :=
  match a with
  | [_; objname] =>
      global_only (
        o <- parse objname ;;
        match o with None => ret BADARG | Some l => on_sim (print_nodes l) ;;; ret NORMAL end)
  | _ => ret SYNTAX
  end.
Definition getports_main : list string -> SHM Z := subnodes_main parse_name_to_get_ports.
Definition getlocal_main : list string -> SHM Z := subnodes_main parse_name_to_get_subnodes_local.
Definition getall_main : list string -> SHM Z := subnodes_main parse_name_to_get_subnodes.
(** Which of the ports are printed depends on a mask. *)
Definition getioports_main : list string -> SHM Z :=
  subnodes_main (fun s =>
    p <- parse_process_to_index s ;;
    ret (match p with None => None | Some _ => parser_ports p end)).
Definition getcommonports_main (a : list string) : SHM Z :=
  match a with
  | [_; objname1; objname2] =>
      global_only (
        o1 <- parse_name_to_get_ports objname1 ;;
        match o1 with
        | None => ret BADARG
        | Some nodes1 =>
            o2 <- parse_name_to_get_ports objname2 ;;
            match o2 with
            | None => ret BADARG
            | Some nodes2 =>
                on_sim (print_nodes (s_inter (s_of_list nodes1) (s_of_list nodes2))) ;;; ret NORMAL
            end
        end)
  | _ => ret SYNTAX
  end.
Definition exceptions_main (a : list string) : SHM Z :=
  match a with [] | [_] => on_sim inspect_exceptions ;;; ret NORMAL | _ => ret SYNTAX end.

Definition __status_main (a : list string) : SHM Z :=
  let go v proc :=
    val <- on_sim (word_to_value v) ;;
    match val with
    | None => ret BADARG
    | Some val =>
        match proc with
        | None => on_sim (l <- gets (status_nodes val) ;; print_nodes l) ;;; ret NORMAL
        | Some proc =>
            o <- parse_name_to_get_subnodes proc ;;
            match o with
            | None => ret BADARG
            | Some l =>
                on_sim (l <- filter_nodes (fun ni => n <- get_node ni ;; ret (value_eqb (n_value n) val)) l ;;
                        print_nodes l) ;;; ret NORMAL
            end
        end
    end in
  match a with
  | [_; v] => go v None
  | [_; v; proc] => go v (Some proc)
  | _ => ret SYNTAX
  end.
(** A command that fails if there are such nodes. *)
Definition no_such_nodes (m : SM (list nat)) : SM Z :=
  l <- m ;; match l with [] => ret NORMAL | _ => print_nodes l ;;; ret FATAL end.
Definition no_status_main (a : list string) : SHM Z :=
  match a with
  | [_; v] =>
      val <- on_sim (word_to_value v) ;;
      match val with
      | None => ret BADARG
      | Some val => on_sim (no_such_nodes (gets (status_nodes val)))
      end
  | _ => ret SYNTAX
  end.
Definition list_main (m : SM (list nat)) (a : list string) : SHM Z :=
  match a with [_] => on_sim (l <- m ;; print_nodes l) ;;; ret NORMAL | _ => ret SYNTAX end.
Definition no_list_main (m : SM (list nat)) (a : list string) : SHM Z :=
  match a with [_] => on_sim (no_such_nodes m) | _ => ret SYNTAX end.
Definition status_interfere_main (w : bool) : list string -> SHM Z := list_main (gets (status_interference w)).
Definition no_status_interfere_main (w : bool) : list string -> SHM Z := no_list_main (gets (status_interference w)).
Definition drive_argument (v : string) : option pull_enum :=
  if String.eqb v "0" then Some PULL_OFF
  else if String.eqb v "1" then Some PULL_ON
  else if String.eqb v "X" || String.eqb v "x" then Some PULL_WEAK
  else None.
Definition print_status_driven (p : pull_enum) (fanin_only assert_empty : bool) : SM bool :=
  l <- gets (status_driven p fanin_only) ;;
  print_nodes l ;;;
  ret (assert_empty && negb (Nat.eqb (length l) 0)).
Definition __status_driven (fanin_only assert_empty : bool) (a : list string) : SHM Z :=
  match a with
  | [_; v] =>
      match drive_argument v with
      | None => ret BADARG
      | Some p =>
          on_sim (err <- print_status_driven p fanin_only assert_empty ;;
                  ret (if (err : bool) then FATAL else NORMAL))
      end
  | _ => ret SYNTAX
  end.
Definition status_frozen_main : list string -> SHM Z := list_main (gets status_frozen).

Definition ring_main (local_ok : bool) (a : list string) : SHM Z :=
  match a with
  | [_; objname] =>
      let m := ni <- parse_node_to_index objname ;;
               if Nat.eqb ni 0 then ret BADARG else on_sim (get_node ni ;;; ret tt) ;;; ret NORMAL in
      if local_ok then m else global_only m
  | _ => ret SYNTAX
  end.
Definition default_print_node_rings : list string -> SHM Z := ring_main false.
Definition rings_chk_main : list string -> SHM Z := ring_main true.

Definition backtrace_main (a : list string) : SHM Z :=
  let go objname v :=
    global_only (
      ni <- parse_node_to_index objname ;;
      if Nat.eqb ni 0 then ret BADARG
      else
        on_sim (
          n <- get_node ni ;;
          val <- (match v with Some v => word_to_value v | None => ret (Some (n_value n)) end) ;;
          match val with
          | None => ret BADARG
          | Some val => backtrace_node ni val ;;; ret NORMAL
          end)) in
  match a with
  | [_; objname] => go objname None
  | [_; objname; v] => go objname (Some v)
  | _ => ret SYNTAX
  end.

(** ** Assertions *)

(** The status of a failed assertion. *)
Definition assert_failed : SM Z :=
  p <- gets policies ;; ret (error_policy_to_status (assert_fail_policy p)).
Definition assert_body (holds : NodeState -> bool) (ni : nat) : SM (Z + unit) :=
  n <- get_node ni ;;
  if holds n then ret (inr tt) else st <- assert_failed ;; ret (inl st).
Definition assert_nodes (objname : string) (holds : NodeState -> bool) : SHM Z :=
  node_for_each objname tt (fun _ ni => on_sim (assert_body holds ni)) (fun _ => NORMAL).
Definition assert_value_main (positive : bool) (a : list string) : SHM Z :=
  match a with
  | [_; objname; _val] =>
      global_only (
        val <- on_sim (word_to_value _val) ;;
        match val with
        | None => ret SYNTAX
        | Some val => assert_nodes objname (fun n => Bool.eqb (value_eqb (n_value n) val) positive)
        end)
  | _ => ret SYNTAX
  end.
Definition assert_main : list string -> SHM Z := assert_value_main true.
Definition assertn_main : list string -> SHM Z := assert_value_main false.
Definition assert_driven_main (a : list string) : SHM Z :=
  match a with
  | [_; objname; _val] =>
      global_only (
        match string_to_pull _val with
        | None => ret SYNTAX
        | Some val => assert_nodes objname (fun n => pull_eqb (drive_state n) val)
        end)
  | _ => ret SYNTAX
  end.
Definition assert_pending_main (positive : bool) (a : list string) : SHM Z :=
  match a with
  | [_; objname] => global_only (assert_nodes objname (fun n => Bool.eqb (pending_event n) positive))
  | _ => ret SYNTAX
  end.
Definition assert_queue_main (positive : bool) (a : list string) : SHM Z :=
  match a with
  | [_] =>
      on_sim (b <- pending_live_events ;;
              if Bool.eqb b positive then ret NORMAL else assert_failed)
  | _ => ret SYNTAX
  end.
Definition check_invariants_main (a : list string) : SHM Z :=
  match a with
  | [_] => on_sim (b <- check_all_invariants ;; ret (if (b : bool) then BADARG else NORMAL))
  | _ => ret SYNTAX
  end.

(** ** Modes *)
Definition eval_order_main (a : list string) : SHM Z :=
  match a with
  | [_] => ret NORMAL
  | [_; m] =>
      if String.eqb m "random" then on_sim (modify set_eval_ordering_random) ;;; ret NORMAL
      else if String.eqb m "inorder" then on_sim (modify set_eval_ordering_inorder) ;;; ret NORMAL
      else ret BADARG
  | _ => ret SYNTAX
  end.
Definition weak_rules_main (a : list string) : SHM Z :=
  match a with
  | [_] => ret NORMAL
  | [_; arg] =>
      if String.eqb arg "on" then on_sim (modify enable_weak_rules) ;;; ret NORMAL
      else if String.eqb arg "off" then on_sim (modify disable_weak_rules) ;;; ret NORMAL
      else if String.eqb arg "show" then on_sim (modify show_weak_rules) ;;; ret NORMAL
      else if String.eqb arg "hide" then on_sim (modify hide_weak_rules) ;;; ret NORMAL
      else ret BADARG
  | _ => ret BADARG
  end.
Definition timing_main (a : list string) : SHM Z :=
  match a with
  | [] => fail F_undef   (* front() of an empty list *)
  | [_] => ret NORMAL
  | _ :: m :: b =>
      on_sim (
        tm <- gets timing ;;
        let '(tm', err) := set_timing string_to_num m b tm in
        modify (put_timing tm') ;;;
        ret (if (err : bool) then BADARG else NORMAL))
  end.
Definition upto_one_main (bad : Z) (m : SM unit) (a : list string) : SHM Z :=
  match a with [] | [_] => on_sim m ;;; ret NORMAL | _ => ret bad end.
Definition mode_flag_main (f : State -> State) : list string -> SHM Z := upto_one_main BADARG (modify f).
Definition checkexcl_main : list string -> SHM Z := mode_flag_main check_excl.
Definition nocheckexcl_main : list string -> SHM Z := mode_flag_main nocheck_excl.
Definition unstable_unknown_main : list string -> SHM Z := mode_flag_main (set_dequeue_unstable_events false).
Definition unstable_dequeue_main : list string -> SHM Z := mode_flag_main (set_dequeue_unstable_events true).
Definition excl_unstable_unknown_main : list string -> SHM Z :=
  mode_flag_main (set_dequeue_excl_unstable_events false).
Definition excl_unstable_dequeue_main : list string -> SHM Z :=
  mode_flag_main (set_dequeue_excl_unstable_events true).
(** The commands that set an error policy. *)
Definition error_control_main (set_policy : error_policy_enum -> policy_state -> policy_state)
    (a : list string) : SHM Z :=
  match a with
  | [_; m] =>
      match string_to_error_policy m with
      | Some e => on_sim (modify (on_policies (set_policy e))) ;;; ret NORMAL
      | None => ret BADARG
      end
  | _ => ret NORMAL
  end.
Definition set_mode_main (a : list string) : SHM Z :=
  match a with
  | [_] => ret NORMAL
  | [_; m] =>
      if String.eqb m "reset" then on_sim (modify set_mode_reset) ;;; ret NORMAL
      else if String.eqb m "run" then on_sim (modify set_mode_run) ;;; ret NORMAL
      else if String.eqb m "paranoid" then on_sim (modify set_mode_breakall) ;;; ret NORMAL
      else if String.eqb m "fatal" then on_sim (modify set_mode_fatal) ;;; ret NORMAL
      else ret BADARG
  | _ => ret SYNTAX
  end.

(** ** Rules and delays *)
Definition process_main (a : list string) : SHM Z :=
  match a with
  | [_; p] =>
      global_only (
        o <- parse_process_to_index p ;;
        n <- on_sim (gets get_num_processes) ;;
        ret (match o with Some pid => if Nat.ltb pid n then NORMAL else BADARG | None => BADARG end))
  | _ => ret SYNTAX
  end.
Definition rules_main : list string -> SHM Z := process_main.
Definition timing_constraints_process_main : list string -> SHM Z := process_main.
Definition all_rules_main (a : list string) : SHM Z := match a with [_] => ret NORMAL | _ => ret SYNTAX end.
Definition invariants_main (a : list string) : SHM Z :=
  match a with
  | [_; iname] =>
      gref <- (if String.eqb iname "." then ret (REF_PROCESS 0) else parse_global_reference iname) ;;
      match gref with
      | REF_PROCESS pid =>
          n <- on_sim (gets get_num_processes) ;; ret (if Nat.ltb pid n then NORMAL else BADARG)
      | REF_BOOL ni => require F_assert (negb (Nat.eqb ni 0)) ;;; on_sim (get_node ni) ;;; ret NORMAL
      | REF_NONE | REF_OTHER => ret BADARG
      end
  | _ => ret SYNTAX
  end.
Definition local_rules_main (a : list string) : SHM Z :=
  match a with [_] => __get_current_process_graph ;;; ret NORMAL | _ => ret SYNTAX end.

Definition rule_direction (s : string) : option bool :=
  if String.eqb s "+" then Some true else if String.eqb s "-" then Some false else None.
(** The rules from a local node to another one. *)
Definition with_local_rules (src dst dirs_ : string) (m : nat -> nat -> nat -> bool -> SHM Z) : SHM Z :=
  srcind <- parse_node_to_local_index src ;;
  if Nat.eqb srcind 0 then ret BADARG
  else
    dstind <- parse_node_to_local_index dst ;;
    if Nat.eqb dstind 0 then ret BADARG
    else
      match rule_direction dirs_ with
      | None => ret BADARG
      | Some dir => g <- __get_current_process_graph ;; m g srcind dstind dir
      end.
Definition local_rules_matching_main (a : list string) : SHM Z :=
  match a with
  | [_; src; dst; d] =>
      with_local_rules src dst d (fun g srcind dstind dir =>
        on_sim (on_graph g (rules_matching_faninout srcind dstind dir)) ;;; ret NORMAL)
  | _ => ret SYNTAX
  end.
Definition local_rules_edit_attr_main (a : list string) : SHM Z :=
  match a with
  | [_; src; dst; d; attr_name; attr_val] =>
      with_local_rules src dst d (fun g srcind dstind dir =>
        on_sim (
          r <- on_graph g (rules_matching_faninout srcind dstind dir) ;;
          err <- on_graph g (edit_rule_property parse_time (string_to_int 32 true) r attr_name attr_val) ;;
          ret (if (err : bool) then BADARG else NORMAL)))
  | _ => ret SYNTAX
  end.

(** A node with an edge behind its name. *)
Fixpoint split_edge (s : string) : string * edge_spec :=
  match s with
  | EmptyString => (EmptyString, EDGE_ANY)
  | String c EmptyString =>
      if Ascii.eqb c "+" then (EmptyString, EDGE_RISE)
      else if Ascii.eqb c "-" then (EmptyString, EDGE_FALL) else (s, EDGE_ANY)
  | String c s' => let '(t, e) := split_edge s' in (String c t, e)
  end.
Definition min_delay_main (a : list string) : SHM Z :=
  let go src tgt d pred :=
    g <- __get_current_process_graph ;;
    let '(src, rdir) := split_edge src in
    let '(tgt, tdir) := split_edge tgt in
    srcind <- parse_node_to_local_index src ;;
    if Nat.eqb srcind 0 then ret BADARG
    else
      dstind <- parse_node_to_local_index tgt ;;
      if Nat.eqb dstind 0 then ret BADARG
      else
        let min_delay := (string_to_num d env_garbage).1 in
        predind <- (match pred with Some p => parse_node_to_local_index p | None => ret 0%nat end) ;;
        if match pred with Some _ => Nat.eqb predind 0 | None => false end then ret BADARG
        else
          on_sim (on_graph g (modify
            (add_min_delay_constraint srcind rdir dstind tdir min_delay predind))) ;;; ret NORMAL in
  match a with
  | [_; src; tgt; d] => go src tgt d None
  | [_; src; tgt; d; pred] => go src tgt d (Some pred)
  | _ => ret SYNTAX
  end.
Definition min_delay_reset_main : list string -> SHM Z := upto_one_main SYNTAX reset_min_delays.
Definition min_delay_apply_all_main : list string -> SHM Z := upto_one_main SYNTAX apply_all_min_delays.
Definition min_delay_fanin_proc_main (a : list string) : SHM Z :=
  match a with
  | [_; objname] => ni <- parse_node_to_index objname ;; ret (if Nat.eqb ni 0 then BADARG else NORMAL)
  | _ => ret SYNTAX
  end.
Definition min_delay_verbose_main (a : list string) : SHM Z :=
  match a with
  | [_] => ret NORMAL
  | [_; b] =>
      match string_to_bool b with
      | None => ret BADARG
      | Some b => on_sim (modify (if b : bool then show_min_delays else silent_min_delays)) ;;; ret NORMAL
      end
  | _ => ret SYNTAX
  end.
End Commands.
