(* ===== verification/Channel.v ===== *)
(** Channels: the part of "sim/prsim/Channel-prsim.cc" and its header that
    plays the environment of a circuit.  A channel groups the nodes of a
    handshake; as a source it drives the data (and the validity) in reply to
    the acknowledge, as a sink it drives the acknowledge, and it can compare
    the data with expected values.

    A channel reads the nodes of the simulator and the policy for failed
    expectations, here [node_value] and [expect_policy]; it draws random
    numbers; and it answers with events and exceptions, which [cstate] collects.
    What is printed and logged is left out, but not the reading of the data
    rails for it, which may fail. *)
From S2P Require Import Prelude SimTime PullSet Expr OrdMap Node ProcGraph.
From S2P Require Import Strings State Events Schedule Step.
From Stdlib Require Import String Ascii.
Open Scope Z_scope.
Local Open Scope hackt_scope.
#[local] Abbreviation length := Datatypes.length.

(** ** Data *)
Inductive channel_timing_enum : Set :=
  | CHANNEL_TIMING_GLOBAL | CHANNEL_TIMING_AFTER | CHANNEL_TIMING_RANDOM | CHANNEL_TIMING_BINARY.

Inductive channel_types : Set :=
  | CHANNEL_TYPE_1ofN
  | CHANNEL_TYPE_LEDR
  | CHANNEL_TYPE_BD_4P
  | CHANNEL_TYPE_BD_2P
  | CHANNEL_TYPE_CLK_SRC1
  | CHANNEL_TYPE_CLK_SRC2
  | CHANNEL_TYPE_CLK_1EDGE
  | CHANNEL_TYPE_CLK_2EDGE
  | CHANNEL_TYPE_SINGLE_TRACK
  | CHANNEL_TYPE_NULL.

Definition CHANNEL_ACK_RESET_VALUE : Z := 1.
Definition CHANNEL_ACK_ACTIVE_SENSE : Z := 2.
Definition CHANNEL_VALID_ACTIVE_SENSE : Z := 4.
Definition CHANNEL_DATA_ACTIVE_SENSE : Z := 8.
Definition CHANNEL_SOURCING : Z := 16.
Definition CHANNEL_VALUE_LOOP : Z := 32.
Definition CHANNEL_SINKING : Z := 64.
Definition CHANNEL_EXPECTING : Z := 128.
Definition CHANNEL_STOPPED : Z := 256.
Definition CHANNEL_IGNORED : Z := 512.
Definition CHANNEL_RANDOM : Z := 1024.
Definition CHANNEL_WATCHED : Z := 2048.
Definition CHANNEL_STOP_ON_EMPTY : Z := 4096.
Definition CHANNEL_SIGNED : Z := 8192.
Definition CHANNEL_DEFAULT_FLAGS : Z := 0.

(** [value_type] is an unsigned 64-bit integer; the second component marks a
    value that does not matter. *)
Definition value_bits : Z := 64.
Definition array_value_type : Set := Z * bool.

Record channel : Type := mkChannel {
  ch_name : string;
  ack_signal : nat   (* acknowledge or enable *);
  valid_signal : nat   (* validity, request, repeat rail or clock *);
  ch_timing_mode : channel_timing_enum;
  ch_after_min : real_time;
  ch_after_max : real_time;
  ch_timing_probability : real_time;
  ch_type : channel_types;
  ch_flags : Z;
  counter_state : Z   (* uchar: the number of active data rails *);
  x_counter : Z   (* uchar: the number of X data rails *);
  bundles : nat   (* the sizes of data *);
  radix : nat;
  ch_data : list nat   (* row by row *);
  inject_expect_file : string;
  dumplog : option string   (* the log file, if open *);
  ch_values : list array_value_type;
  value_index : nat;
  iteration : nat;
  __node_to_rail : list (nat * (nat * nat))
}.

Definition set_ch_name (x : string) (r : channel) : channel :=
  mkChannel x (ack_signal r) (valid_signal r) (ch_timing_mode r) (ch_after_min r)
    (ch_after_max r) (ch_timing_probability r) (ch_type r) (ch_flags r) (counter_state
    r) (x_counter r) (bundles r) (radix r) (ch_data r) (inject_expect_file r) (dumplog
    r) (ch_values r) (value_index r) (iteration r) (__node_to_rail r).
Definition set_ack_signal (x : nat) (r : channel) : channel :=
  mkChannel (ch_name r) x (valid_signal r) (ch_timing_mode r) (ch_after_min r)
    (ch_after_max r) (ch_timing_probability r) (ch_type r) (ch_flags r) (counter_state
    r) (x_counter r) (bundles r) (radix r) (ch_data r) (inject_expect_file r) (dumplog
    r) (ch_values r) (value_index r) (iteration r) (__node_to_rail r).
Definition set_valid_signal (x : nat) (r : channel) : channel :=
  mkChannel (ch_name r) (ack_signal r) x (ch_timing_mode r) (ch_after_min r)
    (ch_after_max r) (ch_timing_probability r) (ch_type r) (ch_flags r) (counter_state
    r) (x_counter r) (bundles r) (radix r) (ch_data r) (inject_expect_file r) (dumplog
    r) (ch_values r) (value_index r) (iteration r) (__node_to_rail r).
Definition set_ch_timing_mode (x : channel_timing_enum) (r : channel) : channel :=
  mkChannel (ch_name r) (ack_signal r) (valid_signal r) x (ch_after_min r)
    (ch_after_max r) (ch_timing_probability r) (ch_type r) (ch_flags r) (counter_state
    r) (x_counter r) (bundles r) (radix r) (ch_data r) (inject_expect_file r) (dumplog
    r) (ch_values r) (value_index r) (iteration r) (__node_to_rail r).
Definition set_ch_after_min (x : real_time) (r : channel) : channel :=
  mkChannel (ch_name r) (ack_signal r) (valid_signal r) (ch_timing_mode r) x
    (ch_after_max r) (ch_timing_probability r) (ch_type r) (ch_flags r) (counter_state
    r) (x_counter r) (bundles r) (radix r) (ch_data r) (inject_expect_file r) (dumplog
    r) (ch_values r) (value_index r) (iteration r) (__node_to_rail r).
Definition set_ch_after_max (x : real_time) (r : channel) : channel :=
  mkChannel (ch_name r) (ack_signal r) (valid_signal r) (ch_timing_mode r)
    (ch_after_min r) x (ch_timing_probability r) (ch_type r) (ch_flags r)
    (counter_state r) (x_counter r) (bundles r) (radix r) (ch_data r)
    (inject_expect_file r) (dumplog r) (ch_values r) (value_index r) (iteration r)
    (__node_to_rail r).
Definition set_ch_timing_probability (x : real_time) (r : channel) : channel :=
  mkChannel (ch_name r) (ack_signal r) (valid_signal r) (ch_timing_mode r)
    (ch_after_min r) (ch_after_max r) x (ch_type r) (ch_flags r) (counter_state r)
    (x_counter r) (bundles r) (radix r) (ch_data r) (inject_expect_file r) (dumplog r)
    (ch_values r) (value_index r) (iteration r) (__node_to_rail r).
Definition set_ch_type (x : channel_types) (r : channel) : channel :=
  mkChannel (ch_name r) (ack_signal r) (valid_signal r) (ch_timing_mode r)
    (ch_after_min r) (ch_after_max r) (ch_timing_probability r) x (ch_flags r)
    (counter_state r) (x_counter r) (bundles r) (radix r) (ch_data r)
    (inject_expect_file r) (dumplog r) (ch_values r) (value_index r) (iteration r)
    (__node_to_rail r).
Definition set_ch_flags (x : Z) (r : channel) : channel :=
  mkChannel (ch_name r) (ack_signal r) (valid_signal r) (ch_timing_mode r)
    (ch_after_min r) (ch_after_max r) (ch_timing_probability r) (ch_type r) x
    (counter_state r) (x_counter r) (bundles r) (radix r) (ch_data r)
    (inject_expect_file r) (dumplog r) (ch_values r) (value_index r) (iteration r)
    (__node_to_rail r).
Definition set_counter_state (x : Z) (r : channel) : channel :=
  mkChannel (ch_name r) (ack_signal r) (valid_signal r) (ch_timing_mode r)
    (ch_after_min r) (ch_after_max r) (ch_timing_probability r) (ch_type r) (ch_flags
    r) x (x_counter r) (bundles r) (radix r) (ch_data r) (inject_expect_file r)
    (dumplog r) (ch_values r) (value_index r) (iteration r) (__node_to_rail r).
Definition set_x_counter (x : Z) (r : channel) : channel :=
  mkChannel (ch_name r) (ack_signal r) (valid_signal r) (ch_timing_mode r)
    (ch_after_min r) (ch_after_max r) (ch_timing_probability r) (ch_type r) (ch_flags
    r) (counter_state r) x (bundles r) (radix r) (ch_data r) (inject_expect_file r)
    (dumplog r) (ch_values r) (value_index r) (iteration r) (__node_to_rail r).
Definition set_bundles (x : nat) (r : channel) : channel :=
  mkChannel (ch_name r) (ack_signal r) (valid_signal r) (ch_timing_mode r)
    (ch_after_min r) (ch_after_max r) (ch_timing_probability r) (ch_type r) (ch_flags
    r) (counter_state r) (x_counter r) x (radix r) (ch_data r) (inject_expect_file r)
    (dumplog r) (ch_values r) (value_index r) (iteration r) (__node_to_rail r).
Definition set_radix (x : nat) (r : channel) : channel :=
  mkChannel (ch_name r) (ack_signal r) (valid_signal r) (ch_timing_mode r)
    (ch_after_min r) (ch_after_max r) (ch_timing_probability r) (ch_type r) (ch_flags
    r) (counter_state r) (x_counter r) (bundles r) x (ch_data r) (inject_expect_file
    r) (dumplog r) (ch_values r) (value_index r) (iteration r) (__node_to_rail r).
Definition set_ch_data (x : list nat) (r : channel) : channel :=
  mkChannel (ch_name r) (ack_signal r) (valid_signal r) (ch_timing_mode r)
    (ch_after_min r) (ch_after_max r) (ch_timing_probability r) (ch_type r) (ch_flags
    r) (counter_state r) (x_counter r) (bundles r) (radix r) x (inject_expect_file r)
    (dumplog r) (ch_values r) (value_index r) (iteration r) (__node_to_rail r).
Definition set_inject_expect_file (x : string) (r : channel) : channel :=
  mkChannel (ch_name r) (ack_signal r) (valid_signal r) (ch_timing_mode r)
    (ch_after_min r) (ch_after_max r) (ch_timing_probability r) (ch_type r) (ch_flags
    r) (counter_state r) (x_counter r) (bundles r) (radix r) (ch_data r) x (dumplog r)
    (ch_values r) (value_index r) (iteration r) (__node_to_rail r).
Definition set_dumplog (x : option string) (r : channel) : channel :=
  mkChannel (ch_name r) (ack_signal r) (valid_signal r) (ch_timing_mode r)
    (ch_after_min r) (ch_after_max r) (ch_timing_probability r) (ch_type r) (ch_flags
    r) (counter_state r) (x_counter r) (bundles r) (radix r) (ch_data r)
    (inject_expect_file r) x (ch_values r) (value_index r) (iteration r)
    (__node_to_rail r).
Definition set_ch_values (x : list array_value_type) (r : channel) : channel :=
  mkChannel (ch_name r) (ack_signal r) (valid_signal r) (ch_timing_mode r)
    (ch_after_min r) (ch_after_max r) (ch_timing_probability r) (ch_type r) (ch_flags
    r) (counter_state r) (x_counter r) (bundles r) (radix r) (ch_data r)
    (inject_expect_file r) (dumplog r) x (value_index r) (iteration r) (__node_to_rail
    r).
Definition set_value_index (x : nat) (r : channel) : channel :=
  mkChannel (ch_name r) (ack_signal r) (valid_signal r) (ch_timing_mode r)
    (ch_after_min r) (ch_after_max r) (ch_timing_probability r) (ch_type r) (ch_flags
    r) (counter_state r) (x_counter r) (bundles r) (radix r) (ch_data r)
    (inject_expect_file r) (dumplog r) (ch_values r) x (iteration r) (__node_to_rail
    r).
Definition set_iteration (x : nat) (r : channel) : channel :=
  mkChannel (ch_name r) (ack_signal r) (valid_signal r) (ch_timing_mode r)
    (ch_after_min r) (ch_after_max r) (ch_timing_probability r) (ch_type r) (ch_flags
    r) (counter_state r) (x_counter r) (bundles r) (radix r) (ch_data r)
    (inject_expect_file r) (dumplog r) (ch_values r) (value_index r) x (__node_to_rail
    r).
Definition set___node_to_rail (x : list (nat * (nat * nat))) (r : channel) : channel :=
  mkChannel (ch_name r) (ack_signal r) (valid_signal r) (ch_timing_mode r)
    (ch_after_min r) (ch_after_max r) (ch_timing_probability r) (ch_type r) (ch_flags
    r) (counter_state r) (x_counter r) (bundles r) (radix r) (ch_data r)
    (inject_expect_file r) (dumplog r) (ch_values r) (value_index r) (iteration r) x.

(** The default delay is a mutable static of the rules. *)
Definition channel_construct (default_unspecified_delay : real_time) : channel :=
  mkChannel ""%string INVALID_NODE_INDEX INVALID_NODE_INDEX CHANNEL_TIMING_GLOBAL
    default_unspecified_delay default_unspecified_delay (double_of_Z 1 (-1))
    CHANNEL_TYPE_1ofN CHANNEL_DEFAULT_FLAGS 0 0 0 0 [] ""%string None [] 0 0 [].

(** ** Attributes *)
Definition ch_flag (mask : Z) (c : channel) : bool := has_flag (ch_flags c) mask.
Definition put_ch_flag (b : bool) (mask : Z) (c : channel) : channel :=
  set_ch_flags (put_flag b (ch_flags c) mask) c.

Definition get_ack_init : channel -> bool := ch_flag CHANNEL_ACK_RESET_VALUE.
Definition get_ack_active : channel -> bool := ch_flag CHANNEL_ACK_ACTIVE_SENSE.
Definition get_valid_sense : channel -> bool := ch_flag CHANNEL_VALID_ACTIVE_SENSE.
Definition get_data_sense : channel -> bool := ch_flag CHANNEL_DATA_ACTIVE_SENSE.
Definition set_ack_init (b : bool) : channel -> channel := put_ch_flag b CHANNEL_ACK_RESET_VALUE.
Definition set_ack_active (b : bool) : channel -> channel := put_ch_flag b CHANNEL_ACK_ACTIVE_SENSE.
Definition set_valid_sense (b : bool) : channel -> channel := put_ch_flag b CHANNEL_VALID_ACTIVE_SENSE.
Definition set_data_sense (b : bool) : channel -> channel := put_ch_flag b CHANNEL_DATA_ACTIVE_SENSE.
(** Other names of the same flags. *)
Definition get_data_init : channel -> bool := get_ack_active.
Definition set_data_init : bool -> channel -> channel := set_ack_active.
Definition get_repeat_init : channel -> bool := get_valid_sense.
Definition set_repeat_init : bool -> channel -> channel := set_valid_sense.
Definition get_req_init : channel -> bool := get_valid_sense.
Definition get_clock_sense : channel -> bool := get_valid_sense.
Definition set_clock_sense : bool -> channel -> channel := set_valid_sense.
Definition get_clk_init : channel -> bool := get_valid_sense.
Definition set_clk_init : bool -> channel -> channel := set_valid_sense.
(** Other names of [valid_signal]. *)
Definition clock_signal : channel -> nat := valid_signal.
Definition repeat_rail : channel -> nat := valid_signal.

Definition is_sourcing : channel -> bool := ch_flag CHANNEL_SOURCING.
Definition is_sinking : channel -> bool := ch_flag CHANNEL_SINKING.
Definition is_expecting : channel -> bool := ch_flag CHANNEL_EXPECTING.
Definition is_random (c : channel) : bool := ch_flag CHANNEL_RANDOM c && is_sourcing c.
Definition is_looping (c : channel) : bool :=
  (is_sourcing c || is_expecting c) && ch_flag CHANNEL_VALUE_LOOP c.
Definition ch_stopped : channel -> bool := ch_flag CHANNEL_STOPPED.
Definition ch_stop : channel -> channel := put_ch_flag true CHANNEL_STOPPED.
Definition watched : channel -> bool := ch_flag CHANNEL_WATCHED.
Definition watch : channel -> channel := put_ch_flag true CHANNEL_WATCHED.
Definition unwatch : channel -> channel := put_ch_flag false CHANNEL_WATCHED.
Definition ignored : channel -> bool := ch_flag CHANNEL_IGNORED.
Definition ignore : channel -> channel := put_ch_flag true CHANNEL_IGNORED.
Definition heed : channel -> channel := put_ch_flag false CHANNEL_IGNORED.
Definition stopping_on_empty : channel -> bool := ch_flag CHANNEL_STOP_ON_EMPTY.
Definition set_stop_on_empty (b : bool) : channel -> channel := put_ch_flag b CHANNEL_STOP_ON_EMPTY.
Definition is_signed : channel -> bool := ch_flag CHANNEL_SIGNED.
Definition set_unsigned : channel -> channel := put_ch_flag false CHANNEL_SIGNED.

Definition channel_types_eqb (a b : channel_types) : bool :=
  match a, b with
  | CHANNEL_TYPE_1ofN, CHANNEL_TYPE_1ofN | CHANNEL_TYPE_LEDR, CHANNEL_TYPE_LEDR
  | CHANNEL_TYPE_BD_4P, CHANNEL_TYPE_BD_4P | CHANNEL_TYPE_BD_2P, CHANNEL_TYPE_BD_2P
  | CHANNEL_TYPE_CLK_SRC1, CHANNEL_TYPE_CLK_SRC1 | CHANNEL_TYPE_CLK_SRC2, CHANNEL_TYPE_CLK_SRC2
  | CHANNEL_TYPE_CLK_1EDGE, CHANNEL_TYPE_CLK_1EDGE | CHANNEL_TYPE_CLK_2EDGE, CHANNEL_TYPE_CLK_2EDGE
  | CHANNEL_TYPE_SINGLE_TRACK, CHANNEL_TYPE_SINGLE_TRACK | CHANNEL_TYPE_NULL, CHANNEL_TYPE_NULL => true
  | _, _ => false
  end.
Definition type_in (l : list channel_types) (c : channel) : bool :=
  existsb (channel_types_eqb (ch_type c)) l.

Definition four_phase : channel -> bool := type_in [CHANNEL_TYPE_1ofN; CHANNEL_TYPE_BD_4P].
Definition two_phase (c : channel) : bool := negb (four_phase c).
Definition is_clocked : channel -> bool :=
  type_in [CHANNEL_TYPE_CLK_SRC1; CHANNEL_TYPE_CLK_SRC2; CHANNEL_TYPE_CLK_1EDGE; CHANNEL_TYPE_CLK_2EDGE].
Definition is_clock_source : channel -> bool := type_in [CHANNEL_TYPE_CLK_SRC1; CHANNEL_TYPE_CLK_SRC2].
Definition data_is_bundled : channel -> bool := type_in [CHANNEL_TYPE_BD_4P; CHANNEL_TYPE_BD_2P].
Definition has_ack (c : channel) : bool := negb (Nat.eqb (ack_signal c) 0).
Definition has_valid (c : channel) : bool := negb (Nat.eqb (valid_signal c) 0).
Definition can_source (c : channel) : bool :=
  has_ack c || channel_types_eqb (ch_type c) CHANNEL_TYPE_LEDR || is_clocked c.
Definition can_be_signed (c : channel) : bool :=
  (data_is_bundled c && negb (Nat.eqb (radix c) 0)) ||
  (Nat.eqb (radix c) 2 && Nat.ltb 1 (bundles c)).
Definition set_signed (c : channel) : channel :=
  if can_be_signed c then put_ch_flag true CHANNEL_SIGNED c else c.

Definition ledr_empty_parity (c : channel) : bool :=
  xorb (xorb (get_data_init c) (get_repeat_init c)) (get_ack_init c).
Definition ledr_full_parity (c : channel) : bool := negb (ledr_empty_parity c).
Definition bd2p_empty_parity (c : channel) : bool := xorb (get_req_init c) (get_ack_init c).

(** The values that are left. *)
Definition have_value (c : channel) : bool := Nat.ltb (value_index c) (length (ch_values c)).

(** [data[k]], [key_to_index] *)
Definition rail (c : channel) (j k : nat) : option nat := ch_data c !! (j * radix c + k)%nat.
Definition ledr_data_rail (c : channel) : option nat := ch_data c !! 0%nat.
Definition alias_data_rails (ni : nat) (c : channel) : bool := existsb (Nat.eqb ni) (ch_data c).
Definition get_all_nodes (c : channel) : list nat :=
  (if has_ack c then [ack_signal c] else []) ++ (if has_valid c then [valid_signal c] else []) ++ ch_data c.

(** ** The computations of a channel *)
Record cstate : Type := mkCS {
  cs_chan : channel;
  cs_rng : rng_state;
  cs_events : list env_event_type;
  cs_exceptions : list step_exception
}.
Definition CM (A : Type) : Type := M cstate A.
Definition cput (c : channel) (s : cstate) : cstate := mkCS c (cs_rng s) (cs_events s) (cs_exceptions s).
Definition cupd (f : channel -> channel) : CM unit := modify (fun s => cput (f (cs_chan s)) s).
Definition chan : CM channel := gets cs_chan.

Section Channel.
Context {env : Env} (node_value : nat -> res value_enum) (expect_policy : error_policy_enum)
  (chan_id : nat).

Definition get_value (ni : nat) : CM value_enum := lift_res (node_value ni).
Definition get_rail (j k : nat) : CM nat :=
  c <- chan ;; of_option F_index (rail c j k).
Definition get_ledr_rail : CM nat :=
  c <- chan ;; of_option F_index (ledr_data_rail c).

(** ** Random numbers *)
Definition cput_rng (r : rng_state) (s : cstate) : cstate :=
  mkCS (cs_chan s) r (cs_events s) (cs_exceptions s).
Definition draw_uniform : CM real_time :=
  r <- gets cs_rng ;;
  modify (cput_rng (mkRng (S (rng_rand48 r)) (rng_rand r))) ;;;
  ret (env_rand48 (rng_rand48 r)).
Definition draw_exponential : CM real_time :=
  r <- gets cs_rng ;;
  d <- of_option F_fuel (random_time_double env_log env_rand48 exponential_fuel (rng_rand48 r)) ;;
  modify (cput_rng (mkRng d.2 (rng_rand r))) ;;;
  ret d.1.
Definition draw_value : CM Z :=
  r <- gets cs_rng ;;
  modify (cput_rng (mkRng (S (rng_rand48 r)) (rng_rand r))) ;;;
  ret (env_lrand48 (rng_rand48 r)).

(** ** Events *)

(** The delay of an event with the global timing is never set. *)
Definition event_delay (c : channel) : CM (bool * real_time) :=
  match ch_timing_mode c with
  | CHANNEL_TIMING_GLOBAL => ret (true, env_garbage)
  | CHANNEL_TIMING_AFTER => ret (false, ch_after_min c)
  | CHANNEL_TIMING_RANDOM =>
      let mn := ch_after_min c in
      let mx := ch_after_max c in
      let have_min := negb (real_is_zero mn) in
      if negb (real_is_zero mx) then
        u <- draw_uniform ;;
        ret (false, if have_min then double_add mn (double_mul (double_sub mx mn) u) else double_mul mx u)
      else
        x <- draw_exponential ;;
        let d := double_mul (double_of_Z 2048 0) x in
        ret (false, if have_min then double_add d mn else d)
  | CHANNEL_TIMING_BINARY =>
      u <- draw_uniform ;;
      ret (false, if t_lt u (ch_timing_probability c) then ch_after_min c else ch_after_max c)
  end.
Definition ENV_EVENT (ni : nat) (v : value_enum) : CM env_event_type :=
  c <- chan ;;
  d <- event_delay c ;;
  ret (mkEnvEvent ni v d.1 d.2).
Definition push_event (e : env_event_type) : CM unit :=
  modify (fun s => mkCS (cs_chan s) (cs_rng s) (cs_events s ++ [e]) (cs_exceptions s)).
Definition drive (ni : nat) (v : value_enum) : CM unit :=
  e <- ENV_EVENT ni v ;; push_event e.
Definition toggle (ni : nat) : CM unit :=
  v <- get_value ni ;; drive ni (invert_value v).
(** Active high or low. *)
Definition level (sense : bool) : value_enum := if sense then LOGIC_HIGH else LOGIC_LOW.
Definition drive_ack (active : bool) : CM unit :=
  c <- chan ;; drive (ack_signal c) (level (Bool.eqb (get_ack_active c) active)).
Definition drive_valid (active : bool) : CM unit :=
  c <- chan ;; drive (valid_signal c) (level (Bool.eqb (get_valid_sense c) active)).
Definition x_ack_signal : CM unit := c <- chan ;; drive (ack_signal c) LOGIC_OTHER.
Definition x_valid_signal : CM unit := c <- chan ;; drive (valid_signal c) LOGIC_OTHER.

(** ** The sequence of values *)
Definition clear_values (c : channel) : channel := set_ch_values [] c.
Definition advance_value : CM unit :=
  c <- chan ;;
  if is_random c then
    require F_assert (Nat.eqb (value_index c) 0) ;;;
    require F_assert (Nat.eqb (length (ch_values c)) 1) ;;;
    v <- draw_value ;;
    cupd (fun c => set_ch_values (match ch_values c with (_, x) :: l => (v, x) :: l | [] => [] end) c)
  else
    cupd (fun c => set_value_index (S (value_index c)) c) ;;;
    c1 <- chan ;;
    when (Nat.leb (length (ch_values c1)) (value_index c1))
      (if is_looping c1 then
         cupd (fun c => set_iteration (S (iteration c)) (set_value_index 0%nat c))
       else
         cupd (fun c => set_inject_expect_file ""%string (set_value_index 0%nat (clear_values c)))) ;;;
    c2 <- chan ;;
    match ch_values c2 !! value_index c2 with
    | Some (_, true) =>
        v <- draw_value ;;
        cupd (fun c => set_ch_values (<[value_index c := (v, true)]> (ch_values c)) c)
    | _ => ret tt
    end.

(** ** Driving the data rails *)
Definition drive_all (v : value_enum) : CM unit :=
  c <- chan ;; for_each (ch_data c) (fun ni => drive ni v).

Definition reset_all_data_rails : CM unit :=
  c <- chan ;;
  when (type_in [CHANNEL_TYPE_SINGLE_TRACK; CHANNEL_TYPE_1ofN] c) (drive_all (level (get_data_sense c))).
Definition reset_bundled_data_rails : CM unit :=
  c <- chan ;;
  when (negb (Nat.eqb (radix c) 0) &&
        type_in [CHANNEL_TYPE_CLK_1EDGE; CHANNEL_TYPE_CLK_2EDGE; CHANNEL_TYPE_BD_2P; CHANNEL_TYPE_BD_4P] c)
    (drive_all (level (get_data_sense c))).
Definition initialize_all_data_rails : CM unit :=
  c <- chan ;;
  match ch_type c with
  | CHANNEL_TYPE_SINGLE_TRACK | CHANNEL_TYPE_CLK_1EDGE | CHANNEL_TYPE_CLK_2EDGE
  | CHANNEL_TYPE_BD_2P | CHANNEL_TYPE_BD_4P => reset_bundled_data_rails
  | CHANNEL_TYPE_1ofN => reset_all_data_rails
  | CHANNEL_TYPE_LEDR =>
      d <- get_ledr_rail ;;
      drive d (level (get_data_init c)) ;;;
      drive (repeat_rail c) (level (get_repeat_init c))
  | CHANNEL_TYPE_CLK_SRC1 | CHANNEL_TYPE_CLK_SRC2 => ret tt
  | CHANNEL_TYPE_NULL => fail F_assert
  end.
Definition X_all_data_rails : CM unit :=
  c <- chan ;;
  match ch_type c with
  | CHANNEL_TYPE_LEDR =>
      d <- get_ledr_rail ;; drive d LOGIC_OTHER ;;; drive (repeat_rail c) LOGIC_OTHER
  | CHANNEL_TYPE_CLK_SRC1 | CHANNEL_TYPE_CLK_SRC2 => ret tt
  | CHANNEL_TYPE_NULL => fail F_assert
  | _ => drive_all LOGIC_OTHER
  end.

(** A binary digit, or in general one of [n], on the rails of bundle [j]. *)
Definition bit (v : Z) : bool := Z.testbit v 0.
Fixpoint drive_binary (n j : nat) (v : Z) : CM unit :=
  match n with
  | O => ret tt
  | S n' =>
      c <- chan ;;
      ni0 <- get_rail j 0 ;;
      ni1 <- get_rail j 1 ;;
      let b := level (xorb (bit v) (get_data_sense c)) in
      drive ni0 (invert_value b) ;;;
      drive ni1 b ;;;
      drive_binary n' (S j) (Z.shiftr v 1)
  end.
(** [ldiv]: rounds towards zero; the value is a signed long. *)
Definition as_long (v : Z) : Z := if v <? 2 ^ 63 then v else v - 2 ^ 64.
Definition as_value (v : Z) : Z := wrap value_bits v.
Definition drive_digit (j : nat) (rem : Z) : CM unit :=
  c <- chan ;;
  for_each (seq 0 (radix c)) (fun k =>
    ni <- get_rail j k ;;
    drive ni (level (xorb (Z.of_nat k =? as_value rem) (get_data_sense c)))).
Fixpoint drive_digits (n j : nat) (quot : Z) : CM unit :=
  match n with
  | O => ret tt
  | S n' =>
      c <- chan ;;
      require F_undef (negb (Nat.eqb (radix c) 0)) ;;;
      let rdx := Z.of_nat (radix c) in
      drive_digit j (Z.rem quot rdx) ;;;
      drive_digits n' (S j) (Z.quot quot rdx)
  end.
(** A bus: one rail for each bit. *)
Fixpoint drive_bus (n k : nat) (v : Z) : CM unit :=
  match n with
  | O => ret tt
  | S n' =>
      c <- chan ;;
      ni <- get_rail 0 k ;;
      drive ni (level (xorb (bit v) (get_data_sense c))) ;;;
      drive_bus n' (S k) (Z.shiftr v 1)
  end.

Definition set_ledr_rails (val : Z) : CM unit :=
  c <- chan ;;
  dn <- get_ledr_rail ;;
  let v := xorb (bit val) (get_data_sense c) in
  x <- get_value dn ;;
  match x with
  | LOGIC_LOW => if v then drive dn LOGIC_HIGH else toggle (repeat_rail c)
  | LOGIC_HIGH => if v then toggle (repeat_rail c) else drive dn LOGIC_LOW
  | LOGIC_OTHER => ret tt
  end.

Definition set_all_data_rails : CM unit :=
  c <- chan ;;
  match ch_values c !! value_index c with
  | Some (val, _) =>
      match ch_type c with
      | CHANNEL_TYPE_SINGLE_TRACK | CHANNEL_TYPE_1ofN =>
          if Nat.eqb (radix c) 2 then drive_binary (bundles c) 0 val
          else drive_digits (bundles c) 0 (as_long val)
      | CHANNEL_TYPE_CLK_1EDGE | CHANNEL_TYPE_CLK_2EDGE | CHANNEL_TYPE_BD_2P | CHANNEL_TYPE_BD_4P =>
          drive_bus (radix c) 0 val
      | CHANNEL_TYPE_LEDR => set_ledr_rails val
      | CHANNEL_TYPE_CLK_SRC1 | CHANNEL_TYPE_CLK_SRC2 | CHANNEL_TYPE_NULL => fail F_assert
      end
  | None =>
      require F_assert (negb (is_random c)) ;;;
      reset_all_data_rails ;;;
      cupd (fun c => clear_values (put_ch_flag false CHANNEL_SOURCING c))
  end.

(** ** Counting data rails *)
Definition uchar (z : Z) : Z := wrap 8 z.
Definition is_active (sense : bool) (v : value_enum) : bool := value_eqb v (level (negb sense)).
Definition is_x (v : value_enum) : bool := value_eqb v LOGIC_OTHER.

(** [initialize_data_counter], on the values of the rails. *)
Definition count_rails (sense : bool) (vs : list value_enum) : Z * Z :=
  fold_left (fun cx v =>
    (if is_active sense v then uchar (cx.1 + 1) else cx.1, if is_x v then uchar (cx.2 + 1) else cx.2))
    vs (0, 0).
Definition get_values (l : list nat) : CM (list value_enum) :=
  fold_m l [] (fun acc ni => v <- get_value ni ;; ret (acc ++ [v])).
Definition set_counters (cx : Z * Z) (c : channel) : channel := set_x_counter cx.2 (set_counter_state cx.1 c).

(** Whether it throws ([THROW_EXIT]), once the counters are set. *)
Definition initialize_data_counter : CM bool :=
  c <- chan ;;
  match ch_type c with
  | CHANNEL_TYPE_SINGLE_TRACK | CHANNEL_TYPE_1ofN =>
      vs <- get_values (ch_data c) ;;
      let cx := count_rails (get_data_sense c) vs in
      cupd (set_counters cx) ;;;
      ret (Z.of_nat (bundles c) <? cx.1)
  | CHANNEL_TYPE_CLK_1EDGE | CHANNEL_TYPE_CLK_2EDGE | CHANNEL_TYPE_BD_2P | CHANNEL_TYPE_BD_4P =>
      vs <- get_values (ch_data c) ;;
      cupd (set_counters (count_rails (get_data_sense c) vs)) ;;; ret false
  | CHANNEL_TYPE_LEDR =>
      d <- get_ledr_rail ;;
      vs <- get_values [d; repeat_rail c] ;;
      cupd (set_counters (0, (count_rails false vs).2)) ;;; ret false
  | CHANNEL_TYPE_CLK_SRC1 | CHANNEL_TYPE_CLK_SRC2 | CHANNEL_TYPE_NULL => cupd (set_counters (0, 0)) ;;; ret false
  end.

Definition update_bd_data_counter (prev next : value_enum) : CM unit :=
  c <- chan ;;
  let act := is_active (get_data_sense c) in
  when (act prev) (require F_assert (negb (counter_state c =? 0))) ;;;
  when (is_x prev) (require F_assert (negb (x_counter c =? 0))) ;;;
  let dec (b : bool) z := if b then uchar (z - 1) else z in
  let inc (b : bool) z := if b then uchar (z + 1) else z in
  cupd (set_counters (inc (act next) (dec (act prev) (counter_state c)),
                      inc (is_x next) (dec (is_x prev) (x_counter c)))).
Definition update_data_counter : value_enum -> value_enum -> CM unit := update_bd_data_counter.

Definition channel_initialize : CM unit :=
  c <- chan ;;
  match ch_type c with
  | CHANNEL_TYPE_SINGLE_TRACK | CHANNEL_TYPE_1ofN =>
      cupd (set_x_counter (uchar (Z.of_nat (bundles c * radix c))))
  | CHANNEL_TYPE_CLK_SRC1 | CHANNEL_TYPE_CLK_SRC2 => ret tt
  | CHANNEL_TYPE_CLK_1EDGE | CHANNEL_TYPE_CLK_2EDGE | CHANNEL_TYPE_BD_2P | CHANNEL_TYPE_BD_4P =>
      cupd (set_x_counter (uchar (Z.of_nat (radix c))))
  | CHANNEL_TYPE_LEDR => cupd (set_x_counter 2)
  | CHANNEL_TYPE_NULL => fail F_assert
  end ;;;
  cupd (fun c => set_dumplog None (set_value_index 0%nat (set_counter_state 0 c))).
Definition channel_clobber : CM unit :=
  channel_initialize ;;;
  cupd (fun c =>
    set_valid_signal INVALID_NODE_INDEX (set_ack_signal INVALID_NODE_INDEX (set___node_to_rail []
      (set_ch_data [] (set_radix 0%nat (set_bundles 0%nat (set_ch_flags CHANNEL_DEFAULT_FLAGS
        (set_inject_expect_file ""%string (clear_values (set_ch_name ""%string c)))))))))).

(** ** Reading the data rails *)
Definition data_is_valid (c : channel) : bool :=
  if negb (x_counter c =? 0) then false
  else
    match ch_type c with
    | CHANNEL_TYPE_1ofN => counter_state c =? Z.of_nat (bundles c)
    | CHANNEL_TYPE_CLK_1EDGE | CHANNEL_TYPE_CLK_2EDGE | CHANNEL_TYPE_BD_2P | CHANNEL_TYPE_BD_4P
    | CHANNEL_TYPE_LEDR => true
    | _ => false
    end.

(** The active rail of bundle [j], of which there must be one. *)
Definition read_rail (j k : nat) : CM bool :=
  c <- chan ;;
  ni <- get_rail j k ;;
  v <- get_value ni ;;
  require F_assert (negb (is_x v)) ;;;
  ret (is_active (get_data_sense c) v).
Definition read_digit (j : nat) : CM nat :=
  c <- chan ;;
  hi <- fold_m (seq 0 (radix c)) None (fun hi k =>
    b <- read_rail j k ;;
    if (b : bool) then require F_assert (match hi with None => true | Some _ => false end) ;;; ret (Some k)
    else ret hi) ;;
  of_option F_assert hi.
(** Bundle [n - 1] is the most significant one. *)
Fixpoint read_digits (n : nat) (acc : Z) : CM Z :=
  match n with
  | O => ret acc
  | S j =>
      c <- chan ;;
      hi <- read_digit j ;;
      read_digits j (as_value (as_value (acc * Z.of_nat (radix c)) + Z.of_nat hi))
  end.
Fixpoint read_bus (n : nat) (acc : Z) : CM Z :=
  match n with
  | O => ret acc
  | S k =>
      b <- read_rail 0 k ;;
      read_bus k (Z.lor (as_value (Z.shiftl acc 1)) (if (b : bool) then 1 else 0))
  end.

(** [1 << n] of type int, converted to [value_type]. *)
Definition int_shl_1 (n : Z) : CM Z :=
  require F_undef ((0 <=? n) && (n <? 32)) ;;;
  ret (if n =? 31 then as_value (- 2 ^ 31) else 2 ^ n).
Definition sign_extend (v : Z) : CM Z :=
  c <- chan ;;
  if is_signed c then
    require F_assert (Nat.eqb (radix c) 2 || data_is_bundled c) ;;;
    let width := Z.of_nat (if data_is_bundled c then radix c else bundles c) in
    m <- int_shl_1 (width - 1) ;;
    if negb (Z.land v m =? 0) then
      require F_undef (width <? value_bits) ;;;
      ret (Z.lor v (as_value (Z.shiftl (-1) width)))
    else ret v
  else ret v.

Definition data_rails_value : CM Z :=
  c <- chan ;;
  if Nat.eqb (radix c) 0 then ret 0
  else
    match ch_type c with
    | CHANNEL_TYPE_SINGLE_TRACK | CHANNEL_TYPE_1ofN => v <- read_digits (bundles c) 0 ;; sign_extend v
    | CHANNEL_TYPE_CLK_SRC1 | CHANNEL_TYPE_CLK_SRC2 => ret 0
    | CHANNEL_TYPE_CLK_1EDGE | CHANNEL_TYPE_CLK_2EDGE | CHANNEL_TYPE_BD_2P | CHANNEL_TYPE_BD_4P =>
        v <- read_bus (radix c) 0 ;; sign_extend v
    | CHANNEL_TYPE_LEDR =>
        d <- get_ledr_rail ;;
        x <- get_value d ;;
        sign_extend (if xorb (value_eqb x LOGIC_LOW) (get_data_sense c) then 0 else 1)
    | CHANNEL_TYPE_NULL => fail F_assert
    end.

(** ** The state of the handshake *)
Record status_summary : Type := mkStatus {
  current_value : Z;
  value_transitioning : bool;
  full : bool;
  x_ack : bool;
  st_ack_active : bool;
  x_valid : bool;
  valid_active : bool;
  valid_following : bool;
  waiting_sender : bool;
  waiting_receiver : bool
}.
Definition set_current_value (x : Z) (r : status_summary) : status_summary :=
  mkStatus x (value_transitioning r) (full r) (x_ack r) (st_ack_active r) (x_valid r)
    (valid_active r) (valid_following r) (waiting_sender r) (waiting_receiver r).
Definition set_value_transitioning (x : bool) (r : status_summary) : status_summary :=
  mkStatus (current_value r) x (full r) (x_ack r) (st_ack_active r) (x_valid r)
    (valid_active r) (valid_following r) (waiting_sender r) (waiting_receiver r).
Definition set_full (x : bool) (r : status_summary) : status_summary :=
  mkStatus (current_value r) (value_transitioning r) x (x_ack r) (st_ack_active r)
    (x_valid r) (valid_active r) (valid_following r) (waiting_sender r)
    (waiting_receiver r).
Definition set_x_ack (x : bool) (r : status_summary) : status_summary :=
  mkStatus (current_value r) (value_transitioning r) (full r) x (st_ack_active r)
    (x_valid r) (valid_active r) (valid_following r) (waiting_sender r)
    (waiting_receiver r).
Definition set_st_ack_active (x : bool) (r : status_summary) : status_summary :=
  mkStatus (current_value r) (value_transitioning r) (full r) (x_ack r) x (x_valid r)
    (valid_active r) (valid_following r) (waiting_sender r) (waiting_receiver r).
Definition set_x_valid (x : bool) (r : status_summary) : status_summary :=
  mkStatus (current_value r) (value_transitioning r) (full r) (x_ack r) (st_ack_active
    r) x (valid_active r) (valid_following r) (waiting_sender r) (waiting_receiver r).
Definition set_valid_active (x : bool) (r : status_summary) : status_summary :=
  mkStatus (current_value r) (value_transitioning r) (full r) (x_ack r) (st_ack_active
    r) (x_valid r) x (valid_following r) (waiting_sender r) (waiting_receiver r).
Definition set_waiting_sender (x : bool) (r : status_summary) : status_summary :=
  mkStatus (current_value r) (value_transitioning r) (full r) (x_ack r) (st_ack_active
    r) (x_valid r) (valid_active r) (valid_following r) x (waiting_receiver r).
Definition set_waiting_receiver (x : bool) (r : status_summary) : status_summary :=
  mkStatus (current_value r) (value_transitioning r) (full r) (x_ack r) (st_ack_active
    r) (x_valid r) (valid_active r) (valid_following r) (waiting_sender r) x.
Definition status_empty : status_summary :=
  mkStatus 0 false false false false false false false false false.
Definition set_empty (e : bool) (s : status_summary) : status_summary :=
  let s1 := set_full (negb e) s in
  if e then set_st_ack_active true (set_valid_active false (set_waiting_sender true s1))
  else set_st_ack_active false (set_valid_active true (set_waiting_receiver true s1)).
Definition wait_receiver_if (b : bool) (s : status_summary) : status_summary :=
  if b then set_waiting_receiver true s else set_waiting_sender true s.

(** The parity of some nodes; X if one of them is. *)
Fixpoint current_parity (l : list nat) (p : bool) : CM value_enum :=
  match l with
  | [] => ret (level p)
  | ni :: l' =>
      v <- get_value ni ;;
      match v with
      | LOGIC_HIGH => current_parity l' (negb p)
      | LOGIC_LOW => current_parity l' p
      | LOGIC_OTHER => ret LOGIC_OTHER
      end
  end.
Definition current_ledr_parity : CM value_enum :=
  c <- chan ;;
  if has_ack c then
    a <- get_value (ack_signal c) ;;
    if is_x a then ret LOGIC_OTHER
    else d <- get_ledr_rail ;; current_parity [d; repeat_rail c] (value_eqb a LOGIC_HIGH)
  else d <- get_ledr_rail ;; current_parity [d; repeat_rail c] false.
Definition current_bd2p_parity : CM value_enum :=
  c <- chan ;; current_parity [ack_signal c; valid_signal c] false.

(** Of the acknowledge and of the validity. *)
Definition summarize_signals (ret0 : status_summary) : CM status_summary :=
  c <- chan ;;
  r1 <- (if has_ack c then
           a <- get_value (ack_signal c) ;;
           ret (set_st_ack_active (xorb (get_ack_active c) (value_eqb a LOGIC_LOW)) (set_x_ack (is_x a) ret0))
         else ret ret0) ;;
  if has_valid c then
    v <- get_value (valid_signal c) ;;
    ret (set_valid_active (xorb (get_valid_sense c) (value_eqb v LOGIC_LOW)) (set_x_valid (is_x v) r1))
  else ret r1.
Definition summarize_bundled (r : status_summary) : CM status_summary :=
  c <- chan ;;
  match ch_type c with
  | CHANNEL_TYPE_BD_4P =>
      require F_assert (has_ack c) ;;;
      require F_assert (has_valid c) ;;;
      ret (if negb (x_valid r) && negb (x_ack r)
           then wait_receiver_if (xorb (valid_active r) (st_ack_active r)) r else r)
  | CHANNEL_TYPE_BD_2P =>
      require F_assert (has_ack c) ;;;
      require F_assert (has_valid c) ;;;
      p <- current_bd2p_parity ;;
      ret (if negb (x_valid r) && negb (x_ack r)
           then set_empty (xorb (bd2p_empty_parity c) (value_eqb p LOGIC_LOW)) r else r)
  | _ => ret r
  end.
(** 1-of-N: neutral, valid, or in between. *)
Definition summarize_1ofN (r : status_summary) : CM status_summary :=
  c <- chan ;;
  let known := has_ack c && negb (x_ack r) in
  let shared := xorb (valid_active r) (st_ack_active r) in
  let wait (b : bool) r :=
    if has_valid c then (if x_valid r then r else wait_receiver_if shared r) else wait_receiver_if b r in
  if counter_state c =? 0 then ret (if known then wait (st_ack_active r) r else r)
  else if counter_state c =? Z.of_nat (bundles c) then
    v <- data_rails_value ;;
    let r1 := set_current_value v r in
    ret (if known then wait (negb (st_ack_active r)) r1 else r1)
  else
    let r1 := set_value_transitioning true r in
    ret (if known then set_waiting_sender true r1 else r1).
Definition summarize_LEDR (r : status_summary) : CM status_summary :=
  c <- chan ;;
  p <- current_ledr_parity ;;
  require F_assert (negb (is_x p)) ;;;
  if has_ack c then
    let empty := xorb (ledr_empty_parity c) (value_eqb p LOGIC_LOW) in
    let r1 := set_empty empty r in
    if empty then ret r1 else v <- data_rails_value ;; ret (set_current_value v r1)
  else v <- data_rails_value ;; ret (set_current_value v r).
Definition summarize_status : CM status_summary :=
  c <- chan ;;
  r <- (if channel_types_eqb (ch_type c) CHANNEL_TYPE_LEDR then ret status_empty
        else s <- summarize_signals status_empty ;; summarize_bundled s) ;;
  if negb (x_counter c =? 0) then ret r
  else
    match ch_type c with
    | CHANNEL_TYPE_1ofN => summarize_1ofN r
    | CHANNEL_TYPE_CLK_1EDGE | CHANNEL_TYPE_CLK_2EDGE | CHANNEL_TYPE_BD_4P | CHANNEL_TYPE_BD_2P =>
        v <- data_rails_value ;; ret (set_current_value v r)
    | CHANNEL_TYPE_LEDR => summarize_LEDR r
    | _ => ret r
    end.

(** ** Reacting to data *)
Definition put_exception (x : step_exception) : CM unit :=
  modify (fun s => mkCS (cs_chan s) (cs_rng s) (cs_events s) (cs_exceptions s ++ [x])).

(** [print_data_value(..., data_rails_value(s))]: only the reading matters. *)
Definition log_data (v : bool) : CM unit :=
  c <- chan ;;
  when (watched c && v) (data_rails_value ;;; ret tt) ;;;
  when (negb (ignored c) && match dumplog c with Some _ => true | None => false end)
    (when (v || data_is_bundled c) (data_rails_value ;;; ret tt)).

(** Stands for the value where there is none. *)
Definition DEADBEEF : Z := 3735928559.
Definition throw_mismatch (idx iter : nat) (expect got : Z) (x : bool) : CM unit :=
  when (policy_gt expect_policy ERROR_WARN)
    (put_exception (channel_exception chan_id idx iter (as_long expect) (as_long got) x)).

Definition expect_value (v : bool) (e : array_value_type) (idx iter : nat) : CM unit :=
  c <- chan ;;
  if negb e.2 then
    if v then
      got <- data_rails_value ;;
      advance_value ;;;
      when (negb (Nat.eqb (radix c) 0) && negb (e.1 =? got))
        (throw_mismatch idx iter e.1 got (negb (x_counter c =? 0)))
    else
      when (data_is_bundled c || is_clocked c) advance_value ;;;
      throw_mismatch idx iter e.1 DEADBEEF true
  else when (v || data_is_bundled c || is_clocked c) advance_value.

Definition process_data : CM unit :=
  c <- chan ;;
  let v := data_is_valid c in
  log_data v ;;;
  when (is_expecting c && negb (ignored c))
    (match ch_values c !! value_index c with
     | Some e =>
         expect_value v e (value_index c) (iteration c) ;;;
         c1 <- chan ;;
         when (two_phase c1 && negb (have_value c1) && is_sinking c1 && stopping_on_empty c1) (cupd ch_stop)
     | None =>
         cupd (fun c => clear_values (put_ch_flag false CHANNEL_EXPECTING c)) ;;;
         c1 <- chan ;;
         when (four_phase c1 && is_sinking c1 && stopping_on_empty c1) (cupd ch_stop)
     end).

(** ** Reacting to nodes *)

(** The channel acts as a source, or as a sink, unless it is stopped. *)
Definition source_acts (c : channel) : bool := is_sourcing c && negb (ch_stopped c).
Definition sink_acts (c : channel) : bool := is_sinking c && negb (ch_stopped c).

(** The next value on the data rails. *)
Definition send_next : CM unit := set_all_data_rails ;;; advance_value.

(** The acknowledge follows the validity. *)
Definition follow_validity (st : status_summary) : CM unit :=
  if x_valid st then x_ack_signal else drive_ack (valid_active st).

(** The data rails, and then the request, at the latest of their delays. *)
Definition max_delay (l : list env_event_type) (d : real_time) : real_time :=
  fold_left (fun m e => if t_lt m (ee_delay e) then ee_delay e else m) l d.
Definition set_bd_data_req (st : status_summary) : CM unit :=
  set_all_data_rails ;;;
  advance_value ;;;
  c <- chan ;;
  reqv <- match ch_type c with
          | CHANNEL_TYPE_BD_2P =>
              if x_ack st then ret LOGIC_OTHER
              else
                a <- get_value (ack_signal c) ;;
                ret (if bd2p_empty_parity c then a else invert_value a)
          | CHANNEL_TYPE_BD_4P => ret (level (get_valid_sense c))
          | _ => fail F_assert
          end ;;
  evs <- gets cs_events ;;
  match evs with
  | [] => drive (valid_signal c) reqv
  | e :: l => push_event (mkEnvEvent (valid_signal c) reqv false (max_delay l (ee_delay e)))
  end.

Definition ack_1ofN : CM unit :=
  st <- summarize_status ;;
  c <- chan ;;
  when (source_acts c)
    (if x_ack st then X_all_data_rails
     else if st_ack_active st then reset_all_data_rails
     else send_next).
Definition valid_1ofN : CM unit :=
  st <- summarize_status ;;
  when (negb (x_valid st) && valid_active st) process_data ;;;
  c <- chan ;;
  when (sink_acts c) (require F_assert (has_ack c) ;;; follow_validity st).
(** The sink's answer to the data rails, if there is no validity. *)
Definition sink_data (active : bool) : CM unit :=
  c <- chan ;;
  when (sink_acts c && negb (has_valid c)) (require F_assert (has_ack c) ;;; drive_ack active).
Definition data_1ofN (prev next : value_enum) : CM unit :=
  update_data_counter prev next ;;;
  c <- chan ;;
  if negb (x_counter c =? 0) then
    when (is_sourcing c && has_valid c) x_valid_signal ;;;
    when (sink_acts c && is_x next && (x_counter c =? 1))
      (require F_assert (has_ack c) ;;; when (negb (has_valid c)) x_ack_signal)
  else if counter_state c =? 0 then
    when (is_sourcing c && has_valid c) (drive_valid false) ;;;
    sink_data false
  else
    when (counter_state c =? Z.of_nat (bundles c))
      (when (is_sourcing c && has_valid c) (drive_valid true) ;;;
       when (negb (has_valid c)) process_data ;;;
       sink_data true).
Definition process_1ofN (ni : nat) (prev next : value_enum) : CM unit :=
  c <- chan ;;
  if has_ack c && Nat.eqb ni (ack_signal c) then ack_1ofN
  else if has_valid c && Nat.eqb ni (valid_signal c) then valid_1ofN
  else data_1ofN prev next.

Definition ack_LEDR : CM unit :=
  c <- chan ;;
  when (source_acts c)
    (p <- current_ledr_parity ;;
     match p with
     | LOGIC_OTHER => X_all_data_rails
     | _ => when (Bool.eqb (value_eqb p LOGIC_HIGH) (ledr_empty_parity c)) send_next
     end).
Definition data_LEDR (ni : nat) (prev next : value_enum) : CM unit :=
  c <- chan ;;
  d <- get_ledr_rail ;;
  require F_assert (Nat.eqb ni (repeat_rail c) || Nat.eqb ni d) ;;;
  cupd (fun c => set_x_counter
    (let x1 := if is_x prev then uchar (x_counter c - 1) else x_counter c in
     if is_x next then uchar (x1 + 1) else x1) c) ;;;
  c1 <- chan ;;
  when (negb (has_ack c1) && source_acts c1)
    (if x_counter c1 =? 0 then send_next else X_all_data_rails) ;;;
  c2 <- chan ;;
  when (has_ack c2 && sink_acts c2)
    (if negb (x_counter c2 =? 0) then x_ack_signal else toggle (ack_signal c2)) ;;;
  process_data.
Definition process_LEDR (ni : nat) (prev next : value_enum) : CM unit :=
  c <- chan ;;
  if has_ack c && Nat.eqb ni (ack_signal c) then ack_LEDR else data_LEDR ni prev next.

(** A cycle is over at the active edge, or at each edge. *)
Definition clock_tick (st : status_summary) : CM unit :=
  c <- chan ;;
  when (negb (x_valid st) && (channel_types_eqb (ch_type c) CHANNEL_TYPE_CLK_SRC2 || valid_active st))
    advance_value ;;;
  toggle (clock_signal c).
Definition process_clk_src (ni : nat) : CM unit :=
  st <- summarize_status ;;
  c <- chan ;;
  require F_assert (Nat.eqb ni (clock_signal c)) ;;;
  when (source_acts c && have_value c) (clock_tick st).

Definition send_if_any : CM unit := c <- chan ;; when (have_value c) send_next.
(** [samples]: whether data are sampled, [holds]: whether they are held, at
    this level of the clock. *)
Definition process_clocked (samples holds : status_summary -> bool) (ni : nat) (prev next : value_enum)
    : CM unit :=
  c <- chan ;;
  if Nat.eqb ni (clock_signal c) then
    st <- summarize_status ;;
    when (negb (x_valid st) && samples st) process_data ;;;
    c1 <- chan ;;
    when (source_acts c1)
      (if x_valid st then X_all_data_rails
       else if holds st then ret tt else send_if_any)
  else update_bd_data_counter prev next.
Definition process_clk_1edge : nat -> value_enum -> value_enum -> CM unit :=
  process_clocked valid_active valid_active.
Definition process_clk_2edge : nat -> value_enum -> value_enum -> CM unit :=
  process_clocked (fun _ => true) (fun _ => false).

Definition process_BD_2P (ni : nat) (prev next : value_enum) : CM unit :=
  c <- chan ;;
  if Nat.eqb ni (ack_signal c) then
    st <- summarize_status ;;
    when (source_acts c)
      (if x_ack st then X_all_data_rails ;;; x_valid_signal
       else when (negb (full st) && have_value c) (set_bd_data_req st))
  else if Nat.eqb ni (valid_signal c) then
    st <- summarize_status ;;
    when (negb (x_valid st) && full st) process_data ;;;
    c1 <- chan ;;
    when (sink_acts c1 && has_ack c1)
      (if x_valid st then x_ack_signal else toggle (ack_signal c1))
  else update_bd_data_counter prev next.
Definition process_BD_4P (ni : nat) (prev next : value_enum) : CM unit :=
  c <- chan ;;
  if Nat.eqb ni (ack_signal c) then
    st <- summarize_status ;;
    when (source_acts c)
      (if x_ack st then X_all_data_rails ;;; x_valid_signal
       else if st_ack_active st then reset_all_data_rails ;;; drive_valid false
       else when (have_value c) (set_bd_data_req st))
  else if Nat.eqb ni (valid_signal c) then
    st <- summarize_status ;;
    when (negb (x_valid st) && valid_active st) process_data ;;;
    c1 <- chan ;;
    when (sink_acts c1 && has_ack c1) (follow_validity st)
  else update_bd_data_counter prev next.

Definition channel_process_node (ni : nat) (prev next : value_enum) : CM unit :=
  c <- chan ;;
  match ch_type c with
  | CHANNEL_TYPE_1ofN => process_1ofN ni prev next
  | CHANNEL_TYPE_LEDR => process_LEDR ni prev next
  | CHANNEL_TYPE_CLK_SRC1 | CHANNEL_TYPE_CLK_SRC2 => process_clk_src ni
  | CHANNEL_TYPE_CLK_2EDGE => process_clk_2edge ni prev next
  | CHANNEL_TYPE_BD_2P => process_BD_2P ni prev next
  | CHANNEL_TYPE_CLK_1EDGE => process_clk_1edge ni prev next
  | CHANNEL_TYPE_BD_4P => process_BD_4P ni prev next
  | CHANNEL_TYPE_SINGLE_TRACK | CHANNEL_TYPE_NULL => fail F_assert
  end.

(** ** Reset and resume *)
Definition reset_source : CM unit :=
  c <- chan ;;
  initialize_all_data_rails ;;;
  match ch_type c with
  | CHANNEL_TYPE_CLK_SRC1 => drive (clock_signal c) (level (negb (get_clock_sense c)))
  | CHANNEL_TYPE_CLK_SRC2 => drive (clock_signal c) (level (get_clk_init c))
  | CHANNEL_TYPE_BD_4P => drive (valid_signal c) (level (negb (get_valid_sense c)))
  | CHANNEL_TYPE_BD_2P => drive (valid_signal c) (level (get_req_init c))
  | _ => ret tt
  end.
Definition reset_sink : CM unit :=
  c <- chan ;;
  match ch_type c with
  | CHANNEL_TYPE_CLK_SRC1 | CHANNEL_TYPE_CLK_SRC2 | CHANNEL_TYPE_CLK_1EDGE | CHANNEL_TYPE_CLK_2EDGE => ret tt
  | CHANNEL_TYPE_1ofN | CHANNEL_TYPE_BD_2P | CHANNEL_TYPE_BD_4P | CHANNEL_TYPE_LEDR =>
      require F_assert (has_ack c) ;;; drive (ack_signal c) (level (get_ack_init c))
  | CHANNEL_TYPE_SINGLE_TRACK => fail F_exit
  | CHANNEL_TYPE_NULL => fail F_assert
  end.
Definition channel_reset : CM unit :=
  c <- chan ;;
  when (is_sourcing c) reset_source ;;;
  when (is_sinking c) reset_sink ;;;
  cupd ch_stop.

Definition __resume_4p_sink (st : status_summary) : CM unit :=
  c <- chan ;;
  when (is_sinking c)
    (require F_assert (has_ack c) ;;;
     if has_valid c then follow_validity st
     else if negb (x_counter c =? 0) then x_ack_signal
     else if counter_state c =? 0 then drive_ack false
     else when (counter_state c =? Z.of_nat (bundles c)) (drive_ack true)).

Definition resume_1ofN (st : status_summary) : CM unit :=
  c <- chan ;;
  when (is_sourcing c)
    (require F_assert (has_ack c) ;;;
     if x_ack st then X_all_data_rails
     else if st_ack_active st then reset_all_data_rails
     else
       when (negb (counter_state c =? Z.of_nat (bundles c)) || negb (x_counter c =? 0)) send_next ;;;
       when (has_valid c)
         (if negb (x_counter c =? 0) then x_valid_signal
          else if counter_state c =? 0 then drive_valid false
          else when (counter_state c =? Z.of_nat (bundles c)) (drive_valid true))) ;;;
  __resume_4p_sink st.
Definition resume_BD_4P (st : status_summary) : CM unit :=
  c <- chan ;;
  when (is_sourcing c)
    (require F_assert (has_ack c) ;;;
     require F_assert (has_valid c) ;;;
     if x_ack st then X_all_data_rails
     else if st_ack_active st then reset_all_data_rails ;;; drive_valid false
     else when (have_value c) (set_bd_data_req st)) ;;;
  __resume_4p_sink st.
Definition resume_BD_2P (st : status_summary) : CM unit :=
  c <- chan ;;
  when (is_sourcing c)
    (if x_ack st then X_all_data_rails ;;; x_valid_signal
     else when (negb (full st) && have_value c) (set_bd_data_req st)) ;;;
  c1 <- chan ;;
  when (is_sinking c1)
    (if x_valid st then x_ack_signal else when (full st) (toggle (ack_signal c1))).
Definition resume_clocked (st : status_summary) : CM unit :=
  c <- chan ;;
  when (is_sourcing c && negb (x_valid st) &&
        (channel_types_eqb (ch_type c) CHANNEL_TYPE_CLK_2EDGE || negb (valid_active st)))
    send_next.
Definition resume_LEDR_source : CM unit :=
  c <- chan ;;
  if has_ack c then
    p <- current_ledr_parity ;;
    if is_x p then X_all_data_rails
    else when (Bool.eqb (value_eqb p LOGIC_HIGH) (ledr_empty_parity c)) send_next
  else send_next.
Definition resume_LEDR : CM unit :=
  c <- chan ;;
  when (is_sourcing c) resume_LEDR_source ;;;
  c1 <- chan ;;
  when (is_sinking c1 && has_ack c1)
    (p <- current_ledr_parity ;;
     if is_x p then x_ack_signal
     else when (Bool.eqb (value_eqb p LOGIC_HIGH) (ledr_full_parity c1)) (toggle (ack_signal c1))).
Definition channel_resume : CM unit :=
  cupd (put_ch_flag false CHANNEL_STOPPED) ;;;
  st <- summarize_status ;;
  c <- chan ;;
  match ch_type c with
  | CHANNEL_TYPE_1ofN => resume_1ofN st
  | CHANNEL_TYPE_BD_4P => resume_BD_4P st
  | CHANNEL_TYPE_BD_2P => resume_BD_2P st
  | CHANNEL_TYPE_CLK_SRC1 | CHANNEL_TYPE_CLK_SRC2 => when (is_sourcing c && have_value c) (clock_tick st)
  | CHANNEL_TYPE_CLK_1EDGE | CHANNEL_TYPE_CLK_2EDGE => resume_clocked st
  | CHANNEL_TYPE_LEDR => resume_LEDR
  | CHANNEL_TYPE_SINGLE_TRACK => fail F_exit
  | CHANNEL_TYPE_NULL => fail F_assert
  end.

(** ** Assertions on the state of a channel *)
Definition assert_channel_value (expect got : Z) : CM bool :=
  c <- chan ;; ret (Nat.eqb (radix c) 0 || (expect =? got)).
Definition assert_value (st : status_summary) (expect : Z) : CM bool :=
  c <- chan ;;
  match ch_type c with
  | CHANNEL_TYPE_1ofN =>
      if counter_state c =? Z.of_nat (bundles c) then assert_channel_value expect (current_value st) else ret false
  | CHANNEL_TYPE_CLK_1EDGE | CHANNEL_TYPE_CLK_2EDGE | CHANNEL_TYPE_BD_4P =>
      assert_channel_value expect (current_value st)
  | CHANNEL_TYPE_BD_2P =>
      require F_assert (has_ack c) ;;;
      if full st then assert_channel_value expect (current_value st) else ret false
  | CHANNEL_TYPE_LEDR =>
      if has_ack c && negb (full st) then ret false else assert_channel_value expect (current_value st)
  | _ => ret true
  end.
Definition assert_validity (st : status_summary) (expect_valid : bool) : CM bool :=
  c <- chan ;;
  let by_signal := negb (x_valid st) && Bool.eqb expect_valid (valid_active st) in
  match ch_type c with
  | CHANNEL_TYPE_1ofN =>
      ret (if has_valid c then by_signal
           else if counter_state c =? Z.of_nat (bundles c) then expect_valid
           else if counter_state c =? 0 then negb expect_valid else false)
  | CHANNEL_TYPE_BD_4P => require F_assert (has_valid c) ;;; ret by_signal
  | CHANNEL_TYPE_BD_2P => require F_assert (has_ack c) ;;; ret (Bool.eqb (full st) expect_valid)
  | CHANNEL_TYPE_LEDR => ret (has_ack c && Bool.eqb (full st) expect_valid)
  | CHANNEL_TYPE_CLK_SRC1 | CHANNEL_TYPE_CLK_SRC2 | CHANNEL_TYPE_CLK_1EDGE | CHANNEL_TYPE_CLK_2EDGE => ret false
  | CHANNEL_TYPE_SINGLE_TRACK | CHANNEL_TYPE_NULL => ret true
  end.

Definition assert_keyword (st : status_summary) (v : string) : CM (option bool) :=
  c <- chan ;;
  let kw (k : string) := String.eqb v k in
  if kw "valid"%string || kw "neutral"%string then
    b <- assert_validity st (kw "valid"%string) ;; ret (Some b)
  else if kw "full"%string || kw "empty"%string then
    b <- assert_validity st (kw "full"%string) ;; ret (Some b)
  else if kw "ack"%string || kw "neg-ack"%string then
    ret (Some (four_phase c && has_ack c && Bool.eqb (kw "ack"%string) (st_ack_active st)))
  else if kw "waiting-sender"%string then ret (Some (waiting_sender st))
  else if kw "waiting-receiver"%string then ret (Some (waiting_receiver st))
  else ret None.
Definition assert_status (v : string) : CM error_policy_enum :=
  st <- summarize_status ;;
  c <- chan ;;
  if negb (x_counter c =? 0) || channel_types_eqb (ch_type c) CHANNEL_TYPE_SINGLE_TRACK then ret expect_policy
  else
    r <- (match string_to_integer false v with
          | Some expect => b <- assert_value st expect ;; ret (Some b)
          | None => assert_keyword st v
          end) ;;
    ret (match r with Some true => ERROR_NONE | Some false => expect_policy | None => ERROR_FATAL end).
End Channel.

(** ** Configuration *)
Definition int_ok (z : Z) : res Z :=
  if (- 2 ^ 31 <=? z) && (z <? 2 ^ 31) then Ok z else Err F_undef.
(** [(1 << n) - 1] of type int; [-1 << n] *)
Definition int_mask (n : nat) : res Z :=
  if Nat.ltb n 32 then int_ok ((if Nat.eqb n 31 then - 2 ^ 31 else 2 ^ Z.of_nat n) - 1) else Err F_undef.
Definition int_min (n : nat) : res Z := if Nat.ltb n 32 then Ok (- 2 ^ Z.of_nat n) else Err F_undef.
Definition res_bind {A B} (r : res A) (k : A -> res B) : res B :=
  match r with Ok a => k a | Err f => Err f end.
Definition res_assert {A} (b : bool) (r : res A) : res A := if b then r else Err F_assert.

(** [pow] is taken to be exact; the bounds only select warnings. *)
Definition max_value (c : channel) : res Z :=
  match ch_type c with
  | CHANNEL_TYPE_SINGLE_TRACK | CHANNEL_TYPE_1ofN =>
      if is_signed c then res_assert (Nat.eqb (radix c) 2) (int_mask (bundles c - 1))
      else let p := Z.of_nat (radix c) ^ Z.of_nat (bundles c) in
           if p <? 2 ^ value_bits then Ok (as_value (p - 1)) else Err F_undef
  | CHANNEL_TYPE_CLK_1EDGE | CHANNEL_TYPE_CLK_2EDGE | CHANNEL_TYPE_BD_2P | CHANNEL_TYPE_BD_4P =>
      if is_signed c then int_mask (radix c - 1) else int_mask (radix c)
  | _ => Ok 1
  end.
Definition min_value (c : channel) : res Z :=
  match ch_type c with
  | CHANNEL_TYPE_SINGLE_TRACK | CHANNEL_TYPE_1ofN =>
      if is_signed c then res_assert (Nat.eqb (radix c) 2) (int_min (bundles c - 1)) else Ok 0
  | CHANNEL_TYPE_CLK_1EDGE | CHANNEL_TYPE_CLK_2EDGE | CHANNEL_TYPE_BD_2P | CHANNEL_TYPE_BD_4P =>
      if is_signed c then int_min (radix c - 1) else Ok 0
  | _ => Ok 1
  end.

Definition lex_channel_value (sgn : bool) (tok : string) : option array_value_type :=
  if String.eqb tok "X"%string || String.eqb tok "x"%string then Some (0, true)
  else match string_to_integer sgn tok with Some v => Some (as_value v, false) | None => None end.
Fixpoint push_values (l : list string) (c : channel) : channel * bool :=
  match l with
  | [] => (c, false)
  | tok :: l' =>
      match lex_channel_value (is_signed c) tok with
      | Some p => push_values l' (set_ch_values (ch_values c ++ [p]) c)
      | None => (c, true)
      end
  end.
(** True on error. *)
Definition read_values_from_list (l : list string) (c : channel) : res (channel * bool) :=
  res_bind (max_value c) (fun _ => res_bind (min_value c) (fun _ => Ok (push_values l c))).

(** The first token of each line that is neither empty nor a comment. *)
Fixpoint line_tokens (lines : list string) : res (list string) :=
  match lines with
  | [] => Ok []
  | line :: lines' =>
      match line with
      | EmptyString | String "#"%char _ => line_tokens lines'
      | _ =>
          match tokenize line with
          | [] => Err F_undef
          | t :: _ => res_bind (line_tokens lines') (fun l => Ok (t :: l))
          end
      end
  end.
(** [None]: the file can not be opened. *)
Definition read_values_from_file (lines : option (list string)) (c : channel) : res (channel * bool) :=
  let c1 := clear_values c in
  match lines with
  | None => Ok (c1, true)
  | Some l => res_bind (line_tokens l) (fun s => read_values_from_list s c1)
  end.

Definition __configure_source (loop : bool) (c : channel) : channel * bool :=
  let c1 := put_ch_flag false CHANNEL_RANDOM (put_ch_flag false CHANNEL_VALUE_LOOP
              (put_ch_flag false CHANNEL_EXPECTING c)) in
  let c2 := put_ch_flag true CHANNEL_SOURCING c1 in
  let c3 := if loop then put_ch_flag true CHANNEL_VALUE_LOOP c2 else c2 in
  (c3, negb (has_ack c3) && negb (can_source c3)).
Definition __configure_expect (loop : bool) (c : channel) : channel :=
  let c1 := put_ch_flag false CHANNEL_VALUE_LOOP (put_ch_flag false CHANNEL_SOURCING c) in
  let c2 := put_ch_flag true CHANNEL_EXPECTING c1 in
  if loop then put_ch_flag true CHANNEL_VALUE_LOOP c2 else c2.

Definition set_source_file (file_name : string) (lines : option (list string)) (loop : bool) (c : channel)
    : res (channel * bool) :=
  let '(c1, err) := __configure_source loop c in
  if err then Ok (c1, true)
  else
    res_bind (read_values_from_file lines (set_value_index 0%nat c1)) (fun r =>
      Ok (if r.2 then r else (set_inject_expect_file file_name r.1, false))).
Definition set_source_args (v : list string) (loop : bool) (c : channel) : res (channel * bool) :=
  let '(c1, err) := __configure_source loop c in
  if err then Ok (c1, true) else read_values_from_list v (set_value_index 0%nat c1).
(** [resize] *)
Definition resize_values (n : nat) (l : list array_value_type) : list array_value_type :=
  take n l ++ replicate (n - length l) (0, false).
Definition set_rsource (c : channel) : channel * bool :=
  let '(c1, err) := __configure_source false c in
  if err then (c1, true)
  else
    let c2 := put_ch_flag true CHANNEL_RANDOM c1 in
    (set_inject_expect_file ""%string
       (set_ch_values (resize_values 1 (ch_values c2)) (set_value_index 0%nat c2)), false).
Definition set_clock_source (n : Z) (c : channel) : channel * bool :=
  let '(c1, err) := __configure_source (n <? 0) c in
  if err then (c1, true)
  else (set_ch_values (replicate (if n <? 0 then 1%nat else Z.to_nat n) (0, false)) (set_value_index 0%nat c1),
        false).
Definition set_sink (c : channel) : channel * bool :=
  if has_ack c then (put_ch_flag true CHANNEL_SINKING c, false) else (c, negb (is_clocked c)).
Definition set_expect_file (fn : string) (lines : option (list string)) (loop : bool) (c : channel)
    : res (channel * bool) :=
  res_bind (read_values_from_file lines (clear_values (set_value_index 0%nat (__configure_expect loop c))))
    (fun r => Ok (if r.2 then r
                  else (match ch_values r.1 with [] => r.1 | _ => set_inject_expect_file fn r.1 end, false))).
Definition set_expect_args (v : list string) (loop : bool) (c : channel) : res (channel * bool) :=
  read_values_from_list v (clear_values (set_value_index 0%nat (__configure_expect loop c))).
Definition close_stream : channel -> channel := set_dumplog None.
Definition set_log (opened : bool) (fn : string) (c : channel) : channel * bool :=
  if opened then (set_dumplog (Some fn) c, false) else (c, true).

(** The mode is set before the arguments are parsed. *)
Definition channel_set_timing (string_to_num : string -> real_time -> real_time * bool)
    (m : string) (a : list string) (c : channel) : channel * bool :=
  let min_max d c := match parse_min_max_delay string_to_num d (ch_after_min c) (ch_after_max c) with
                     | Some (mn, mx) => (set_ch_after_max mx (set_ch_after_min mn c), false)
                     | None => (c, true)
                     end in
  if String.eqb m "random"%string then
    let c1 := set_ch_timing_mode CHANNEL_TIMING_RANDOM c in
    match a with d :: _ => min_max d c1 | [] => (c1, false) end
  else if String.eqb m "global"%string then (set_ch_timing_mode CHANNEL_TIMING_GLOBAL c, false)
  else if String.eqb m "after"%string then
    let c1 := set_ch_timing_mode CHANNEL_TIMING_AFTER c in
    match a with
    | d :: _ =>
        let '(t, err) := string_to_num d (ch_after_min c1) in
        let c2 := set_ch_after_min t c1 in
        (if err then c2 else set_ch_after_max t c2, err)
    | [] => (c1, false)
    end
  else if String.eqb m "binary"%string then
    let c1 := set_ch_timing_mode CHANNEL_TIMING_BINARY c in
    match a with
    | [d; p] =>
        let '(c2, err) := min_max d c1 in
        if err then (c2, true)
        else let '(t, perr) := string_to_num p (ch_timing_probability c2) in
             (set_ch_timing_probability t c2, perr)
    | _ => (c1, false)
    end
  else (c, true).

(** ** Which nodes a channel drives and reads *)
Definition is_data_rail (ni : nat) (c : channel) : bool :=
  match m_find ni (__node_to_rail c) with Some _ => true | None => false end.
Definition may_drive_node (ni : nat) (c : channel) : bool :=
  (is_sourcing c &&
     ((has_valid c && Nat.eqb ni (valid_signal c) && negb (is_clock_source c)) || is_data_rail ni c)) ||
  (is_sinking c && has_ack c && Nat.eqb (ack_signal c) ni).
Definition source_reads (ni : nat) (c : channel) : option bool :=
  if has_ack c && Nat.eqb ni (ack_signal c) then Some true
  else
    match ch_type c with
    | CHANNEL_TYPE_1ofN => if has_valid c && is_data_rail ni c then Some true else None
    | CHANNEL_TYPE_CLK_SRC1 | CHANNEL_TYPE_CLK_SRC2 | CHANNEL_TYPE_CLK_1EDGE | CHANNEL_TYPE_CLK_2EDGE =>
        Some (Nat.eqb ni (clock_signal c))
    | _ => None
    end.
Definition sink_reads (ni : nat) (c : channel) : bool :=
  if has_valid c then Nat.eqb ni (valid_signal c) else is_data_rail ni c.
Definition reads_node (ni : nat) (c : channel) : bool :=
  match (if is_sourcing c then source_reads ni c else None) with
  | Some b => b
  | None => is_sinking c && sink_reads ni c
  end.
Definition channel_get_fanins (ni : nat) (c : channel) (ret : list nat) : list nat :=
  let insert_all l r := fold_left (fun r n => s_insert n r) l r in
  let r1 :=
    if is_sourcing c then
      let r0 := if has_valid c && Nat.eqb ni (valid_signal c) then insert_all (ch_data c) ret else ret in
      if has_ack c && is_data_rail ni c then s_insert (ack_signal c) r0 else r0
    else ret in
  if is_sinking c && has_ack c && Nat.eqb (ack_signal c) ni then
    if has_valid c then s_insert (valid_signal c) r1 else insert_all (ch_data c) r1
  else r1.
