(* ===== verification/ChannelManager.v ===== *)
(** The manager of the channels: the classes [channel_manager] and
    [channel_file_handle] of "sim/prsim/Channel-prsim.cc".  It keeps the
    channels in a pool, by name and by node, sets them up, and gives the
    simulator's step the interface of the file Step.

    The names in the compiled circuit belong to the compiler: their expansion
    and their translation to nodes are parameters here. *)
From S2P Require Import Prelude SimTime PullSet Expr OrdMap Node ProcGraph.
From S2P Require Import State Events Schedule Step Channel.
From stdpp Require Import strings pretty.
Open Scope Z_scope.
Local Open Scope hackt_scope.

Record channel_manager : Type := mkManager {
  channel_pool : list channel;
  channel_index_set : gmap string nat;
  node_channels_map : list (nat * list nat)
}.
Definition set_channel_pool (l : list channel) (m : channel_manager) : channel_manager :=
  mkManager l (channel_index_set m) (node_channels_map m).
Definition set_channel_index_set (x : gmap string nat) (m : channel_manager) : channel_manager :=
  mkManager (channel_pool m) x (node_channels_map m).
Definition set_node_channels_map (x : list (nat * list nat)) (m : channel_manager) : channel_manager :=
  mkManager (channel_pool m) (channel_index_set m) x.
Definition channel_manager_empty : channel_manager := mkManager [] ∅ [].

#[local] Abbreviation State := (State channel_manager).
#[local] Abbreviation SM := (M State).
#[local] Abbreviation MM := (M (channel_answer channel_manager)).

(** ** Lookups *)
Definition channels_of (m : channel_manager) (ni : nat) : list nat :=
  match m_find ni (node_channels_map m) with Some l => l | None => [] end.
(** [node_channels_map[ni].insert(key)] *)
Definition insert_node_channel (ni key : nat) (m : channel_manager) : channel_manager :=
  set_node_channels_map (m_set ni (s_insert key (channels_of m ni)) (node_channels_map m)) m.
Definition lookup_channel (m : channel_manager) (name : string) : option nat := channel_index_set m !! name.
Definition put_channel (key : nat) (c : channel) (m : channel_manager) : channel_manager :=
  set_channel_pool (<[key := c]> (channel_pool m)) m.
Definition get_channel (key : nat) : SM channel :=
  m <- gets _channel_manager ;; of_option F_index (channel_pool m !! key).
Definition upd_manager (f : channel_manager -> channel_manager) : SM unit :=
  modify (fun s => put__channel_manager (f (_channel_manager s)) s).
Definition upd_channel (key : nat) (f : channel -> channel) : SM unit :=
  c <- get_channel key ;; upd_manager (put_channel key (f c)).

Definition channels_any (f : channel -> bool) (m : channel_manager) (ni : nat) : bool :=
  existsb (fun k => match channel_pool m !! k with Some c => f c | None => false end) (channels_of m ni).
Definition manager_node_has_fanin (m : channel_manager) (ni : nat) : bool :=
  channels_any (may_drive_node ni) m ni.
Definition manager_node_has_fanout (m : channel_manager) (ni : nat) : bool :=
  channels_any (reads_node ni) m ni.

(** ** The values of the nodes *)
Definition node_value (s : State) (ni : nat) : res value_enum :=
  match node_pool s !! ni with Some n => Ok (n_value n) | None => Err F_index end.
Definition expect_fail_policy (s : State) : error_policy_enum := channel_expect_fail_policy (policies s).

Definition __get_X_fanins (s : State) (ni : nat) (ret0 : list nat) : res (list nat) :=
  let m := _channel_manager s in
  let fanins := fold_left (fun l k => match channel_pool m !! k with
                                      | Some c => channel_get_fanins ni c l
                                      | None => l
                                      end) (channels_of m ni) [] in
  fold_left (fun r n => match r, node_value s n with
                        | Ok l, Ok v => Ok (if is_x v then s_insert n l else l)
                        | Err f, _ | _, Err f => Err f
                        end) fanins (Ok ret0).

(** ** Channels at work *)

(** A channel of the pool computes, with the events of the others before its
    own. *)
Definition run_channel {A} (key : nat) (m : CM A) : MM A :=
  fun a =>
    match channel_pool (ca_manager a) !! key with
    | None => Err F_index
    | Some c =>
        match m (mkCS c (ca_rng a) (ca_events a) (ca_exceptions a)) with
        | Ok (x, st) => Ok (x, mkAnswer (put_channel key (cs_chan st) (ca_manager a)) (cs_rng st)
                              (cs_events st) (cs_exceptions st))
        | Err f => Err f
        end
    end.
Definition pool_keys (m : channel_manager) : list nat := seq 0 (length (channel_pool m)).
Definition run_manager (s : State) (m : MM unit) : res (channel_answer channel_manager) :=
  match m (mkAnswer (_channel_manager s) (rng s) [] []) with Ok (_, a) => Ok a | Err f => Err f end.

Section Manager.
Context {env : Env}.

Definition manager_process_node (s : State) (ni : nat) (prev next : value_enum)
    : res (channel_answer channel_manager) :=
  run_manager s
    (for_each (channels_of (_channel_manager s) ni) (fun key =>
       run_channel key (channel_process_node (node_value s) (expect_fail_policy s) key ni prev next))).
Definition manager_reset_channel (s : State) (key : nat) : res (channel_answer channel_manager) :=
  run_manager s (run_channel key channel_reset).
Definition manager_resume_channel (s : State) (key : nat) : res (channel_answer channel_manager) :=
  run_manager s (run_channel key (channel_resume (node_value s))).
Definition manager_reset_all_channels (s : State) : res (channel_answer channel_manager) :=
  run_manager s (for_each (pool_keys (_channel_manager s)) (fun key => run_channel key channel_reset)).
Definition manager_resume_all_channels (s : State) : res (channel_answer channel_manager) :=
  run_manager s
    (for_each (pool_keys (_channel_manager s)) (fun key => run_channel key (channel_resume (node_value s)))).
End Manager.

(** [for_each(pool, mem_fun_ref(f))] *)
Definition apply_all (f : channel -> channel) (m : channel_manager) : channel_manager :=
  set_channel_pool (map f (channel_pool m)) m.
Definition rng_none : rng_state := mkRng 0 0.
Definition initialize_one (c : channel) : res channel :=
  match channel_initialize (mkCS c rng_none [] []) with Ok (_, st) => Ok (cs_chan st) | Err f => Err f end.
Fixpoint initialize_pool (l : list channel) : res (list channel) :=
  match l with
  | [] => Ok []
  | c :: l' => res_bind (initialize_one c) (fun c' => res_bind (initialize_pool l') (fun r => Ok (c' :: r)))
  end.
Definition manager_initialize (m : channel_manager) : res channel_manager :=
  res_bind (initialize_pool (channel_pool m)) (fun l => Ok (set_channel_pool l m)).
Definition manager_clobber_all (m : channel_manager) : channel_manager := channel_manager_empty.

#[export] Instance manager_is_ChannelManager {env : Env} : ChannelManager channel_manager := {|
  cm_initialize := manager_initialize;
  cm_clobber_all := manager_clobber_all;
  cm_process_node := manager_process_node;
  cm_reset_channel := manager_reset_channel;
  cm_resume_channel := manager_resume_channel;
  cm_reset_all_channels := manager_reset_all_channels;
  cm_resume_all_channels := manager_resume_all_channels;
  cm_node_has_fanin := manager_node_has_fanin;
  cm_node_has_fanout := manager_node_has_fanout
|}.

(** ** Setting up channels *)

(** Some error is reported, or an exception, of the name lookup or of the
    counting of rails, goes through. *)
Inductive setup : Set := S_done | S_error | S_thrown.
Definition and_then (m k : SM setup) : SM setup :=
  r <- m ;; match r with S_done => k | _ => ret r end.
Definition catch_all (m : SM setup) : SM setup :=
  r <- m ;; ret match r with S_thrown => S_error | _ => r end.

(** A reference to an instance, by its name; [gr_is_process] when it refers to
    a process with a valid index. *)
Record global_reference : Type := mkGlobalRef { gr_name : string; gr_is_process : bool }.

(** The node is in the channel. *)
Definition attach_node (ni key : nat) : SM unit :=
  upd_node ni set_in_channel ;;; upd_manager (insert_node_channel ni key).
Definition init_counter (key : nat) : SM setup :=
  s <- gets (fun s => s) ;;
  c <- get_channel key ;;
  r <- lift_res (initialize_data_counter (node_value s) (mkCS c (rng s) [] [])) ;;
  upd_manager (put_channel key (cs_chan r.2)) ;;;
  ret (if r.1 : bool then S_thrown else S_done).
Definition set_data_dims (nb nr : nat) (c : channel) : channel :=
  set_radix nr (set_bundles nb (set_ch_data (replicate (nb * nr) INVALID_NODE_INDEX) c)).
Definition set_rail (j k ni : nat) (c : channel) : channel :=
  set___node_to_rail (m_set ni (j, k) (__node_to_rail c))
    (set_ch_data (<[(j * radix c + k)%nat := ni]> (ch_data c)) c).

Definition indexed (sized : nat) (i : nat) : string :=
  if Nat.eqb sized 0 then "" else ("[" ++ pretty i ++ "]")%string.
Definition rail_path (base bundle_name : string) (_num_bundles : nat) (rail_name : string) (_num_rails : nat)
    (j k : nat) : string :=
  (base ++
   (if String.eqb bundle_name "" then "" else "." ++ bundle_name ++ indexed _num_bundles j) ++
   "." ++ rail_name ++ indexed _num_rails k)%string.
Definition at_least_one (n : nat) : nat := if Nat.eqb n 0 then 1%nat else n.

Section Setup.
Context (expand_global_references : string -> option (list global_reference))
  (parse_node_to_index : string -> option nat) (default_unspecified_delay : real_time).

(** [None]: an exception; index 0: there is no such node. *)
Definition with_node (n : string) (k : nat -> SM setup) : SM setup :=
  match parse_node_to_index n with
  | None => ret S_thrown
  | Some ni => if Nat.eqb ni INVALID_NODE_INDEX then ret S_error else k ni
  end.

Fixpoint assign_rails (key : nat) (path : nat -> nat -> string) (dks : list (nat * nat)) (aliases : list nat)
    : SM setup :=
  match dks with
  | [] => ret S_done
  | (j, k) :: dks' =>
      with_node (path j k) (fun ni =>
        upd_channel key (set_rail j k ni) ;;;
        attach_node ni key ;;;
        if s_mem ni aliases then ret S_error else assign_rails key path dks' (s_insert ni aliases))
  end.
Definition allocate_data_rails (key : nat) (bundle_name : string) (_num_bundles : nat)
    (rail_name : string) (_num_rails : nat) : SM setup :=
  let num_bundles := at_least_one _num_bundles in
  let num_rails := at_least_one _num_rails in
  c <- get_channel key ;;
  if String.eqb rail_name "" then upd_channel key (set_data_dims 0 0) ;;; ret S_done
  else
    upd_channel key (set_data_dims num_bundles num_rails) ;;;
    and_then
      (assign_rails key (rail_path (ch_name c) bundle_name _num_bundles rail_name _num_rails)
         (list_prod (seq 0 num_bundles) (seq 0 num_rails)) [])
      (init_counter key).

(** The indices of the channel's signals. *)
Definition set_channel_2p_ack (key : nat) (a : string) (ack_init : bool) : SM setup :=
  with_node a (fun ni =>
    upd_channel key (set_ack_signal ni) ;;;
    attach_node ni key ;;;
    upd_channel key (set_ack_init ack_init) ;;;
    ret S_done).
Definition set_channel_2p_req (key : nat) (r : string) (req_init : bool) : SM setup :=
  with_node r (fun ni =>
    upd_channel key (set_valid_signal ni) ;;;
    attach_node ni key ;;;
    upd_channel key (set_repeat_init req_init) ;;;
    ret S_done).

Definition set_channel_ack (key : nat) (base : string) (ack_sense ack_init : bool) : SM setup :=
  upd_channel key (fun c => set_ack_init ack_init (set_ack_active ack_sense c)) ;;;
  with_node (base ++ (if ack_sense then ".a" else ".e"))%string (fun ai =>
    upd_channel key (set_ack_signal ai) ;;;
    c <- get_channel key ;;
    if alias_data_rails ai c then ret S_error else attach_node ai key ;;; ret S_done).
Definition set_channel_valid (key : nat) (base : string) (vname : option string) (validity_sense : bool)
    : SM setup :=
  upd_channel key (set_valid_sense validity_sense) ;;;
  with_node (match vname with
             | Some v => base ++ "." ++ v
             | None => base ++ (if validity_sense then ".v" else ".n")
             end)%string (fun vi =>
    upd_channel key (set_valid_signal vi) ;;;
    c <- get_channel key ;;
    if alias_data_rails vi c || Nat.eqb (ack_signal c) (valid_signal c) then ret S_error
    else attach_node vi key ;;; ret S_done).
Definition set_channel_ack_valid (base : string) (have_ack ack_sense ack_init : bool) (vname : option string)
    (have_validity validity_sense : bool) : SM setup :=
  m <- gets _channel_manager ;;
  match lookup_channel m base with
  | None => ret S_error
  | Some key =>
      and_then (if have_ack then set_channel_ack key base ack_sense ack_init else ret S_done)
        (if have_validity then set_channel_valid key base vname validity_sense else ret S_done)
  end.

(** A new channel of this name at the end of the pool, unless there is one. *)
Definition register_channel (base : string) (f : channel -> channel) (k : nat -> SM setup) : SM setup :=
  m <- gets _channel_manager ;;
  let key := length (channel_pool m) in
  match lookup_channel m base with
  | Some _ => ret S_error
  | None =>
      upd_manager (fun m => set_channel_pool (channel_pool m ++ [f (channel_construct default_unspecified_delay)])
                             (set_channel_index_set (<[base := key]> (channel_index_set m)) m)) ;;;
      k key
  end.
Fixpoint for_each_reference (l : list global_reference) (body : global_reference -> SM setup) : SM setup :=
  match l with
  | [] => ret S_done
  | g :: l' => and_then (body g) (for_each_reference l' body)
  end.
Definition for_references (_base : string) (body : global_reference -> SM setup) : SM setup :=
  match expand_global_references _base with
  | None => ret S_error
  | Some refs => for_each_reference refs body
  end.
Definition init_channel (type : channel_types) (name : string) (active_low : bool) (c : channel) : channel :=
  set_data_sense active_low (set_ch_name name (set_ch_type type c)).
Definition init_channel_after (type : channel_types) (name : string) (active_low : bool) (c : channel) : channel :=
  init_channel type name active_low (set_ch_timing_mode CHANNEL_TIMING_AFTER c).

Definition new_channel (_base bundle_name : string) (_num_bundles : nat) (rail_name : string) (_num_rails : nat)
    (active_low have_ack ack_sense ack_init have_validity validity_sense : bool) : SM setup :=
  for_references _base (fun g =>
    if negb (gr_is_process g) then ret S_error
    else
      let base := gr_name g in
      register_channel base (init_channel CHANNEL_TYPE_1ofN base active_low) (fun key =>
        catch_all
          (and_then (allocate_data_rails key bundle_name _num_bundles rail_name _num_rails)
             (set_channel_ack_valid base have_ack ack_sense ack_init None have_validity validity_sense)))).

Definition set_ledr_data (key : nat) (n : string) (data_init : bool) : SM setup :=
  upd_channel key (set_data_dims 1 1) ;;;
  with_node n (fun ni =>
    upd_channel key (set_rail 0 0 ni) ;;;
    attach_node ni key ;;;
    upd_channel key (set_data_init data_init) ;;;
    ret S_done).
Definition new_channel_ledr (_base ack_name : string) (ack_init : bool) (bundle_name : string) (_num_bundles : nat)
    (data_name : string) (data_init active_low : bool) (repeat_name : string) (repeat_init : bool) : SM setup :=
  for_references _base (fun g =>
    let base := gr_name g in
    register_channel base (init_channel CHANNEL_TYPE_LEDR base active_low) (fun key =>
      and_then (if String.eqb ack_name "" then ret S_done
                else set_channel_2p_ack key (base ++ "." ++ ack_name)%string ack_init)
      (and_then (set_channel_2p_req key (base ++ "." ++ repeat_name)%string repeat_init)
      (and_then (ret (if Nat.eqb _num_bundles 0 then S_done else S_error))
      (and_then (set_ledr_data key (base ++ "." ++ data_name)%string data_init)
        (init_counter key)))))).

Definition new_channel_bd4p (_base : string) (ack_sense ack_init req_sense : bool) (data_name : string)
    (_num_rails : nat) (active_low : bool) : SM setup :=
  for_references _base (fun g =>
    let base := gr_name g in
    register_channel base (init_channel_after CHANNEL_TYPE_BD_4P base active_low) (fun key =>
      and_then (allocate_data_rails key "" 0 data_name _num_rails)
        (set_channel_ack_valid base true ack_sense ack_init None true req_sense))).
Definition new_channel_bd2p (_base ack_name : string) (ack_init : bool) (req_name : string) (req_init : bool)
    (data_name : string) (_num_rails : nat) (active_low : bool) : SM setup :=
  for_references _base (fun g =>
    let base := gr_name g in
    register_channel base (init_channel_after CHANNEL_TYPE_BD_2P base false) (fun key =>
      and_then (set_channel_2p_ack key (base ++ "." ++ ack_name)%string ack_init)
      (and_then (set_channel_2p_req key (base ++ "." ++ req_name)%string req_init)
        (upd_channel key (set_data_sense active_low) ;;;
         allocate_data_rails key "" 0 data_name _num_rails)))).
(** At one edge, or at both. *)
Definition new_channel_clocked (type : channel_types) (_base clkname : string) (clk : bool) (data_name : string)
    (_num_rails : nat) (active_low : bool) : SM setup :=
  for_references _base (fun g =>
    let base := gr_name g in
    register_channel base (init_channel_after type base active_low) (fun key =>
      and_then (allocate_data_rails key "" 0 data_name _num_rails)
        (set_channel_ack_valid base false false false (Some clkname) true clk))).
Definition new_channel_clocked_1edge : string -> string -> bool -> string -> nat -> bool -> SM setup :=
  new_channel_clocked CHANNEL_TYPE_CLK_1EDGE.
Definition new_channel_clocked_2edge : string -> string -> bool -> string -> nat -> bool -> SM setup :=
  new_channel_clocked CHANNEL_TYPE_CLK_2EDGE.

(** A clock source that exists is set anew; [cycles] negative: for ever. *)
Definition configure_clock_source (clk_2edge clk_sense clk_init : bool) (vi : nat) (c : channel) : channel :=
  let c1 := set_ch_type (if clk_2edge then CHANNEL_TYPE_CLK_SRC2 else CHANNEL_TYPE_CLK_SRC1) c in
  let c2 := if clk_2edge then set_clk_init clk_init c1 else set_clock_sense clk_sense c1 in
  set_valid_signal vi c2.
Definition new_clock_source (clkname : string) (clk_2edge clk_sense clk_init : bool) (cycles : Z) : SM setup :=
  for_references clkname (fun g =>
    let base := gr_name g in
    with_node base (fun vi =>
      let config key :=
        upd_channel key (configure_clock_source clk_2edge clk_sense clk_init vi) ;;;
        attach_node vi key ;;;
        upd_channel key (fun c => (set_clock_source cycles c).1) ;;;
        ret S_done in
      m <- gets _channel_manager ;;
      match lookup_channel m base with
      | Some key => config key
      | None =>
          register_channel base (fun c => set_ch_timing_mode CHANNEL_TIMING_AFTER (set_ch_name base c)) config
      end)).

(** [None] on error. *)
Fixpoint lookup_all (m : channel_manager) (l : list global_reference) : option (list nat) :=
  match l with
  | [] => Some []
  | g :: l' =>
      match lookup_channel m (gr_name g), lookup_all m l' with
      | Some k, Some r => Some (k :: r)
      | _, _ => None
      end
  end.
Definition lookup_expand (m : channel_manager) (_base : string) : option (list nat) :=
  match expand_global_references _base with
  | None => None
  | Some refs => lookup_all m refs
  end.
End Setup.

(** ** Checks of a configuration

    They only warn; but a channel's signals must be known to the manager. *)
Definition check_signal (ni : nat) (m : channel_manager) : res bool :=
  match m_find ni (node_channels_map m) with Some _ => Ok false | None => Err F_assert end.
Definition check_source (c : channel) (m : channel_manager) : res bool :=
  if has_valid c && negb (is_clocked c) then check_signal (valid_signal c) m else Ok false.
Definition check_sink (c : channel) (m : channel_manager) : res bool :=
  if has_ack c then check_signal (ack_signal c) m else Ok false.
Definition log_channel (opened : bool) (channel_name file_name : string) (m : channel_manager)
    : channel_manager * bool :=
  match lookup_channel m channel_name with
  | Some key =>
      match channel_pool m !! key with
      | Some c => let r := set_log opened file_name c in (put_channel key r.1 m, r.2)
      | None => (m, true)
      end
  | None => (m, true)
  end.
