(* ===== verification/ChannelCommands.v ===== *)
(** The commands for channels of "sim/prsim/Command-prsim.cc": how a channel is
    declared from its textual description, configured, reset, released and
    checked.

    Words are taken apart at their colons.  The failures differ: a description
    that can not be read gives a status, or lets an exception leave the command
    ([F_exit]). *)
From stdpp Require Import strings.
From S2P Require Import Prelude Strings SimTime PullSet Node State Registry Step Channel.
From S2P Require Import ChannelManager SimCommands.
Open Scope Z_scope.
Local Open Scope hackt_scope.
#[local] Abbreviation length := Datatypes.length.

(** The names of the circuit, as the channel manager looks them up: they are
    not relative to the working directory of the interpreter. *)
Class ChannelNames := {
  channel_references : string -> option (list global_reference);
  channel_node : string -> option nat;
  unspecified_delay : real_time
}.

(** ** Descriptions of channels *)
Definition colon : ascii := ":"%char.
Definition colon_pair (s : string) : option (string * string) :=
  match tokenize_char s colon with [x; y] => Some (x, y) | _ => None end.
Definition string_to_size : string -> option Z := string_to_int 64 false.
(** The name and the size around the first colon. *)
Definition split_size (s : string) : option (string * string) :=
  match find_char s colon with
  | Some c => if Nat.eqb c (String.length s - 1) then None
              else Some (String.substring 0 c s, String.substring (S c) (String.length s - S c) s)
  | None => None
  end.
(** [~] inverts. *)
Definition split_sense (s : string) : bool * string :=
  match s with String "~"%char t => (true, t) | _ => (false, s) end.
Definition name_size (s : string) : option (string * nat) :=
  match split_size s with
  | Some (n, v) => match string_to_size v with Some z => Some (n, Z.to_nat z) | None => None end
  | None => None
  end.
Definition rail_spec (s : string) : option (bool * string * nat) :=
  match name_size s with
  | Some (n, z) => let '(sense, r) := split_sense n in if nonempty r then Some (sense, r, z) else None
  | None => None
  end.

(** The letters before the colon say which signals the channel has; what
    follows it is the initial value of the acknowledge. *)
Record event_type : Type := mkEventType {
  et_have_ack : bool; et_ack_sense : bool; et_have_valid : bool; et_valid_sense : bool
}.
Fixpoint ev_letters (s : string) (t : event_type) : option (event_type * string) :=
  match s with
  | EmptyString => None
  | String c s' =>
      let l := tolower c in
      if Ascii.eqb l colon then Some (t, s')
      else
        ev_letters s'
          (if Ascii.eqb l "a" then mkEventType true true (et_have_valid t) (et_valid_sense t)
           else if Ascii.eqb l "e" then mkEventType true false (et_have_valid t) (et_valid_sense t)
           else if Ascii.eqb l "n" then mkEventType (et_have_ack t) (et_ack_sense t) true false
           else if Ascii.eqb l "v" then mkEventType (et_have_ack t) (et_ack_sense t) true true
           else t)
  end.
Fixpoint ev_init (s : string) (b : bool) : option bool :=
  match s with
  | EmptyString => Some b
  | String c s' =>
      if Ascii.eqb c "0" then ev_init s' false else if Ascii.eqb c "1" then ev_init s' true else None
  end.
Definition ev_type (s : string) : option (event_type * bool) :=
  match ev_letters s (mkEventType false false false false) with
  | None => None
  | Some (t, r) =>
      if et_have_ack t then match ev_init r false with Some b => Some (t, b) | None => None end
      else Some (t, false)
  end.

Section ChannelCommands.
Context {env : Env} {senv : ShellEnv} {names : NameEnv} {cnames : ChannelNames}.
#[local] Abbreviation State := (State channel_manager).
#[local] Abbreviation SM := (M State).
#[local] Abbreviation SHM := (M (shell State)).

Definition or_status {A} (st : Z) (o : option A) (k : A -> SHM Z) : SHM Z :=
  match o with Some a => k a | None => ret st end.
Definition set_up (m : SM setup) : SHM Z :=
  r <- on_sim m ;;
  match r with S_done => ret NORMAL | S_error => ret BADARG | S_thrown => fail F_exit end.
(** A name with an initial value, that is only read if there is a name. *)
Definition optional_init (n i : string) : option bool := if nonempty n then string_to_bool i else Some false.
(** [THROW_EXIT], unless something follows a colon. *)
Definition expect_colon (s : string) : SHM unit :=
  match split_size s with Some _ => ret tt | None => fail F_exit end.

Definition channel_main (a : list string) : SHM Z :=
  match a with
  | [_; chan_name; ev; bundle; rail] =>
      global_only (
        or_status BADARG (ev_type ev) (fun '(t, ack_init) =>
        or_status BADARG (name_size bundle) (fun '(bundle_name, bundle_size) =>
        or_status BADARG (rail_spec rail) (fun '(data_sense, rail_name, rail_size) =>
          set_up (new_channel channel_references channel_node unspecified_delay chan_name bundle_name bundle_size
            rail_name rail_size data_sense (et_have_ack t) (et_ack_sense t) ack_init (et_have_valid t)
            (et_valid_sense t))))))
  | _ => ret SYNTAX
  end.
Definition channel_ledr_main (a : list string) : SHM Z :=
  match a with
  | [_; chan_name; ack; bundle; data; repeat] =>
      global_only (
        or_status SYNTAX (colon_pair ack) (fun '(ack_name, ai) =>
        or_status SYNTAX (optional_init ack_name ai) (fun ack_init =>
        or_status SYNTAX (colon_pair bundle) (fun '(bundle_name, bn) =>
        or_status SYNTAX (string_to_size bn) (fun num_bundles =>
        expect_colon data ;;;
        or_status SYNTAX (colon_pair data) (fun '(dn, di) =>
        let '(data_sense, data_name) := split_sense dn in
        or_status SYNTAX (optional_init dn di) (fun data_init =>
        or_status SYNTAX (colon_pair repeat) (fun '(repeat_name, ri) =>
        or_status SYNTAX (string_to_bool ri) (fun repeat_init =>
          set_up (new_channel_ledr channel_references channel_node unspecified_delay chan_name ack_name ack_init
            bundle_name (Z.to_nat num_bundles) data_name data_init data_sense repeat_name repeat_init))))))))))
  | _ => ret SYNTAX
  end.
Definition channel_bd_2p_main (a : list string) : SHM Z :=
  match a with
  | [_; chan_name; ack; req; data] =>
      global_only (
        or_status SYNTAX (colon_pair ack) (fun '(ack_name, ai) =>
        or_status SYNTAX (optional_init ack_name ai) (fun ack_init =>
        or_status SYNTAX (colon_pair req) (fun '(req_name, ri) =>
        or_status SYNTAX (string_to_bool ri) (fun req_init =>
        expect_colon data ;;;
        or_status SYNTAX (colon_pair data) (fun '(dn, w) =>
        let '(data_sense, data_name) := split_sense dn in
        or_status SYNTAX (if nonempty dn then string_to_size w else Some 0) (fun num_rails =>
          set_up (new_channel_bd2p channel_references channel_node unspecified_delay chan_name ack_name ack_init
            req_name req_init data_name (Z.to_nat num_rails) data_sense))))))))
  | _ => ret SYNTAX
  end.
(** The data rails of a bus: their name can not be empty. *)
Definition bus_data (data : string) (k : bool -> string -> nat -> SHM Z) : SHM Z :=
  expect_colon data ;;;
  or_status SYNTAX (colon_pair data) (fun '(dn, w) =>
    let '(data_sense, data_name) := split_sense dn in
    require F_exit (nonempty data_name) ;;;
    or_status SYNTAX (string_to_size w) (fun num_rails => k data_sense data_name (Z.to_nat num_rails))).
Definition signal_sense (yes no s : string) : option bool :=
  if String.eqb s yes then Some true else if String.eqb s no then Some false else None.
Definition channel_bd_4p_main (a : list string) : SHM Z :=
  match a with
  | [_; chan_name; ack; req; data] =>
      global_only (
        or_status SYNTAX (colon_pair ack) (fun '(ack_name, ai) =>
        or_status SYNTAX (signal_sense "a" "e" ack_name) (fun ack_sense =>
        or_status SYNTAX (string_to_bool ai) (fun ack_init =>
        or_status SYNTAX (colon_pair req) (fun '(req_name, _) =>
        or_status SYNTAX (signal_sense "v" "n" req_name) (fun req_sense =>
        bus_data data (fun data_sense data_name num_rails =>
          set_up (new_channel_bd4p channel_references channel_node unspecified_delay chan_name ack_sense ack_init
            req_sense data_name num_rails data_sense))))))))
  | _ => ret SYNTAX
  end.

(** A clock: [~] for the falling edge, [*] for both edges, with the initial
    value; [substr(1)] of an empty name throws. *)
Definition clock_spec (s : string) (k : string -> bool -> bool -> bool -> SHM Z) : SHM Z :=
  or_status SYNTAX (colon_pair s) (fun '(clk_name, i) =>
    match clk_name with
    | EmptyString => fail F_exit
    | String c t =>
        let inv := Ascii.eqb c "~" in
        let both := Ascii.eqb c "*" in
        or_status SYNTAX (if both then string_to_bool i else Some false) (fun clk_init =>
          k (if inv || both then t else clk_name) both (negb inv) clk_init)
    end).
Definition cycle_count (count : string) : option Z :=
  match count with String "*"%char _ => Some (-1) | _ => string_to_int 32 true count end.
Definition clock_source_main (a : list string) : SHM Z :=
  match a with
  | [_; clk; count] =>
      global_only (
        clock_spec clk (fun clk_name clk_2edge clk_sense clk_init =>
        or_status SYNTAX (cycle_count count) (fun iter =>
          set_up (new_clock_source channel_references channel_node unspecified_delay clk_name clk_2edge clk_sense
            clk_init iter))))
  | _ => ret SYNTAX
  end.
Definition channel_clocked_main (a : list string) : SHM Z :=
  match a with
  | [_; chan_name; clk; data] =>
      global_only (
        clock_spec clk (fun clk_name clk_2edge clk_sense clk_init =>
        bus_data data (fun data_sense data_name num_rails =>
          set_up (if clk_2edge
                  then new_channel_clocked_2edge channel_references channel_node unspecified_delay chan_name
                         clk_name clk_init data_name num_rails data_sense
                  else new_channel_clocked_1edge channel_references channel_node unspecified_delay chan_name
                         clk_name clk_sense data_name num_rails data_sense))))
  | _ => ret SYNTAX
  end.

(** ** Named channels *)

(** [CHANNEL_FOR_EACH]: the body's result tells whether the command ends here,
    with [BADARG]. *)
Fixpoint loop_channels (body : nat -> SHM (option Z)) (l : list nat) : SHM Z :=
  match l with
  | [] => ret NORMAL
  | key :: l' => r <- body key ;; match r with Some st => ret st | None => loop_channels body l' end
  end.
Definition channel_for_each (name : string) (body : nat -> SHM (option Z)) : SHM Z :=
  m <- on_sim (gets _channel_manager) ;;
  match lookup_expand channel_references m name with
  | None => ret BADARG
  | Some l => loop_channels body l
  end.
Definition for_channels (name : string) (body : nat -> SM unit) : SHM Z :=
  channel_for_each name (fun key => on_sim (body key) ;;; ret None).
(** The command fails at the first channel that reports an error. *)
Definition try_channels (name : string) (body : nat -> SHM bool) : SHM Z :=
  channel_for_each name (fun key => err <- body key ;; ret (if (err : bool) then Some BADARG else None)).
Definition one_name (body : string -> SHM Z) (a : list string) : SHM Z :=
  match a with [_; ref] => body ref | _ => ret SYNTAX end.
(** A method of the channel, that does not change the simulator. *)
Definition ask_channel {A} (key : nat) (m : (nat -> res value_enum) -> error_policy_enum -> CM A) : SM A :=
  s <- gets (fun s => s) ;;
  c <- get_channel key ;;
  r <- lift_res (m (node_value s) (expect_fail_policy s) (mkCS c (rng s) [] [])) ;;
  ret r.1.

Definition standard_channel_command_main (f : channel -> channel) : list string -> SHM Z :=
  one_name (fun ref => for_channels ref (fun key => upd_channel key f)).
Definition no_name (m : SM unit) (a : list string) : SHM Z :=
  match a with [_] => on_sim m ;;; ret NORMAL | _ => ret SYNTAX end.
Definition standard_channel_apply_all_main (f : channel -> channel) : list string -> SHM Z :=
  no_name (upd_manager (apply_all f)).
Definition channel_report_time_main (a : list string) : SHM Z :=
  match a with
  | [_] => ret NORMAL
  | [_; arg] => ret (if String.eqb arg "on" || String.eqb arg "off" then NORMAL else BADARG)
  | _ => ret BADARG
  end.
Definition channel_show_main : list string -> SHM Z :=
  one_name (fun ref => for_channels ref (fun key => get_channel key ;;; ret tt)).
Definition channel_get_main : list string -> SHM Z :=
  one_name (fun ref => for_channels ref (fun key => ask_channel key (fun nv _ => summarize_status nv) ;;; ret tt)).
Definition channel_show_all_main : list string -> SHM Z := no_name (ret tt).

Definition channel_signed_main : list string -> SHM Z := standard_channel_command_main set_signed.
Definition channel_unsigned_main : list string -> SHM Z := standard_channel_command_main set_unsigned.
Definition channel_watch_main : list string -> SHM Z := standard_channel_command_main watch.
Definition channel_unwatch_main : list string -> SHM Z := standard_channel_command_main unwatch.
Definition channel_watchall_main : list string -> SHM Z := standard_channel_apply_all_main watch.
Definition channel_unwatchall_main : list string -> SHM Z := standard_channel_apply_all_main unwatch.
Definition channel_heed_main : list string -> SHM Z := standard_channel_command_main heed.
Definition channel_ignore_main : list string -> SHM Z := standard_channel_command_main ignore.
Definition channel_heed_all_main : list string -> SHM Z := standard_channel_apply_all_main heed.
Definition channel_ignore_all_main : list string -> SHM Z := standard_channel_apply_all_main ignore.
Definition channel_stop_main : list string -> SHM Z := standard_channel_command_main ch_stop.
Definition channel_stop_all_main : list string -> SHM Z := standard_channel_apply_all_main ch_stop.
Definition channel_stop_on_empty_main : list string -> SHM Z :=
  standard_channel_command_main (set_stop_on_empty true).
Definition channel_continue_on_empty_main : list string -> SHM Z :=
  standard_channel_command_main (set_stop_on_empty false).
Definition channel_close_main : list string -> SHM Z := standard_channel_command_main close_stream.
Definition channel_close_all_main : list string -> SHM Z := standard_channel_apply_all_main close_stream.

Definition channel_reset_main : list string -> SHM Z := one_name (fun ref => for_channels ref reset_channel).
Definition channel_reset_all_main : list string -> SHM Z := no_name reset_all_channels.
Definition channel_release_main : list string -> SHM Z := one_name (fun ref => for_channels ref resume_channel).
Definition channel_release_all_main : list string -> SHM Z := no_name resume_all_channels.

(** ** Values to send and to expect *)

(** True on error; the channel keeps what the method changed. *)
Definition configure (key : nat) (f : channel -> res (channel * bool)) : SM bool :=
  c <- get_channel key ;;
  r <- lift_res (f c) ;;
  upd_manager (put_channel key r.1) ;;;
  ret r.2.
Definition check_channel (key : nat) (f : channel -> channel_manager -> res bool) : SM bool :=
  c <- get_channel key ;; m <- gets _channel_manager ;; lift_res (f c m).
Definition configure_and_check (key : nat) (f : channel -> res (channel * bool))
    (g : channel -> channel_manager -> res bool) : SM bool :=
  err <- configure key f ;; if (err : bool) then ret true else check_channel key g.
(** The lines of a file; a file that is being read is not opened again. *)
Definition file_lines (fn : string) : SHM (option (list string)) :=
  paths <- gets search_paths ;;
  files <- gets open_files ;;
  ret (match open_ifstream paths fn with
       | Some (df, lines) => if nonempty df && bool_decide (df ∈ files) then None else Some lines
       | None => None
       end).

Definition source_file_main (loop : bool) (a : list string) : SHM Z :=
  match a with
  | [_; ref; fn] =>
      try_channels ref (fun key =>
        lines <- file_lines fn ;;
        on_sim (configure_and_check key (set_source_file fn lines loop) check_source))
  | _ => ret SYNTAX
  end.
Definition channel_source_file_main : list string -> SHM Z := source_file_main false.
Definition channel_source_file_loop_main : list string -> SHM Z := source_file_main true.
Definition source_args_main (loop : bool) (a : list string) : SHM Z :=
  match a with
  | _ :: ref :: v =>
      try_channels ref (fun key => on_sim (configure_and_check key (set_source_args v loop) check_source))
  | _ => ret SYNTAX
  end.
Definition channel_source_args_main : list string -> SHM Z := source_args_main false.
Definition channel_source_args_loop_main : list string -> SHM Z := source_args_main true.
Definition channel_rsource_main : list string -> SHM Z :=
  one_name (fun ref => try_channels ref (fun key =>
    on_sim (configure_and_check key (fun c => Ok (set_rsource c)) check_source))).
Definition channel_sink_main : list string -> SHM Z :=
  one_name (fun ref => try_channels ref (fun key =>
    on_sim (configure_and_check key (fun c => Ok (set_sink c)) check_sink))).
Definition channel_log_main (a : list string) : SHM Z :=
  match a with
  | [_; ref; fn] =>
      m <- on_sim (gets _channel_manager) ;;
      let r := log_channel (can_write fn) ref fn m in
      on_sim (upd_manager (fun _ => r.1)) ;;; ret (if r.2 then BADARG else NORMAL)
  | _ => ret SYNTAX
  end.
Definition expect_file_main (loop : bool) (a : list string) : SHM Z :=
  match a with
  | [_; ref; fn] =>
      try_channels ref (fun key =>
        lines <- file_lines fn ;; on_sim (configure key (set_expect_file fn lines loop)))
  | _ => ret SYNTAX
  end.
Definition channel_expect_file_main : list string -> SHM Z := expect_file_main false.
Definition channel_expect_file_loop_main : list string -> SHM Z := expect_file_main true.
Definition expect_args_main (loop : bool) (a : list string) : SHM Z :=
  match a with
  | _ :: ref :: (v :: vs) =>
      try_channels ref (fun key => on_sim (configure key (set_expect_args (v :: vs) loop)))
  | _ => ret SYNTAX
  end.
Definition channel_expect_args_main : list string -> SHM Z := expect_args_main false.
Definition channel_expect_args_loop_main : list string -> SHM Z := expect_args_main true.
Definition channel_timing_main (a : list string) : SHM Z :=
  match a with
  | _ :: cn :: m :: b =>
      try_channels cn (fun key => on_sim (configure key (fun c => Ok (channel_set_timing string_to_num m b c))))
  | [_; cn] => for_channels cn (fun key => get_channel key ;;; ret tt)
  | _ => ret SYNTAX
  end.

(** ** Assertions *)
Definition worst_status (key : nat) (l : list string) : SM error_policy_enum :=
  fold_m l ERROR_NONE (fun e v =>
    r <- ask_channel key (fun nv p => assert_status nv p v) ;; ret (policy_max e r)).
Definition channel_assert_main (a : list string) : SHM Z :=
  match a with
  | _ :: n :: (v :: vs) =>
      m <- on_sim (gets _channel_manager) ;;
      match lookup_channel m n with
      | None => ret BADARG
      | Some key => e <- on_sim (worst_status key (v :: vs)) ;; ret (error_policy_to_status e)
      end
  | _ => ret SYNTAX
  end.
Definition channel_assert_value_queue_main (a : list string) : SHM Z :=
  match a with
  | [_; cn; v] =>
      channel_for_each cn (fun key =>
        c <- on_sim (get_channel key) ;;
        ret (match string_to_int 32 true v with
             | None => Some BADARG
             | Some x => if Bool.eqb (have_value c) (negb (x =? 0)) then None else Some FATAL
             end))
  | _ => ret SYNTAX
  end.
End ChannelCommands.
