(* ===== verification/Commands.v ===== *)
(** The commands by their names, as "sim/prsim/Command-prsim.cc" registers them
    with the interpreter.

    The commands that are not modelled (tracing, checkpoints, causality
    queries, listings of instances) have names, so that no alias can take
    them, but no entry in the map. *)
From stdpp Require Import strings.
From S2P Require Import Prelude Strings SimTime PullSet Node State Registry Events Step Channel.
From S2P Require Import ChannelManager Schedule SimCommands ChannelCommands.
Open Scope Z_scope.
Local Open Scope hackt_scope.
#[local] Abbreviation length := Datatypes.length.

Definition command_categories : list string :=
  ["builtin"; "general"; "debug"; "simulation"; "channels"; "info"; "view"; "tracing"; "modes"]%string.
Definition is_category (c : string) : bool := bool_decide (c ∈ command_categories).
Definition unmodelled_commands : list string :=
  ["precision"; "process-member-separator"; "save"; "load"; "autosave"; "ls"; "what"; "who"; "who-newline";
   "time-fmt"; "seed48"; "trace"; "trace-file"; "trace-close"; "trace-flush-notify"; "trace-flush-interval";
   "trace-dump"; "vcd"; "vcd-file"; "vcd-close"; "vcd-time-scale"; "why"; "why-verbose"; "why-1";
   "why-1-verbose"; "why-N"; "why-N-verbose"; "why-not"; "why-not-verbose"; "why-not-1"; "why-not-1-verbose";
   "why-not-N"; "why-not-N-verbose"; "why-x"; "why-x-verbose"; "why-x-1"; "why-x-1-verbose"; "why-x-N";
   "why-x-N-verbose"; "memstats"; "frame-cache-half-life"; "frame-cache-halve"; "frame-cache-dump";
   "min-delay-list"; "dladdpath"; "dlopen"; "dlcheckfunc"; "dlfuncs"; "dlcreate"]%string.

Section Commands.
Context {env : Env} {senv : ShellEnv} {names : NameEnv} {cnames : ChannelNames}.
#[local] Abbreviation State := (State channel_manager).
#[local] Abbreviation SHM := (M (shell State)).
#[local] Abbreviation table := (list (string * (list string -> SHM Z))).

(** Commands of the interpreter, but for those that run other commands;
    [is_command] knows all names. *)
Definition shell_commands (is_command : string -> bool) : table :=
  [("help", constant_main NORMAL); ("all", constant_main NORMAL);
   ("alias", alias_main is_command is_category); ("unalias", unalias_main); ("unaliasall", unalias_all_main);
   ("aliases", print_main 1); ("echo-commands", echo_commands_main);
   ("history", history_main); ("history-save", history_save_main);
   ("history-noninteractive", history_noninteractive_main);
   ("addpath", add_path_main); ("paths", print_main 1);
   ("cd", change_dir_main); ("pushd", push_dir_main); ("popd", pop_dir_main); ("pwd", print_main 1);
   ("dirs", print_main 1); ("pusht", push_type_main); ("popt", pop_type_main); ("pwt", print_main 1);
   ("echo", constant_main NORMAL); ("#", constant_main NORMAL); ("comment", constant_main NORMAL);
   ("exit", constant_main END); ("quit", constant_main END); ("abort", constant_main FATAL)]%string.
(** Commands that run the simulation. *)
Definition run_commands (fuel : nat) : table :=
  [("initialize", initialize_main fuel); ("reset", reset_main fuel); ("x-all", x_all_main fuel);
   ("step", step_main fuel); ("step-event", step_event_cmd_main fuel); ("advance", advance_main fuel);
   ("cycle", cycle_main fuel); ("execute", execute_main fuel); ("set-now", __set_now_main fuel)]%string.
(** Commands that change nodes or the queue. *)
Definition node_commands : table :=
  [("set", __set_main false); ("setf", __set_main true); ("setr", __setrf_main false);
   ("setrf", __setrf_main true); ("set-pair-random", set_pair_random_main);
   ("unset", unset_main); ("unsetall", unsetall_main); ("freeze", freeze_main); ("thaw", thaw_main);
   ("upset", upset_main); ("dequeue", dequeue_main); ("reschedule", reschedule_main reschedule_event);
   ("reschedule-now", reschedule_now_main);
   ("reschedule-from-now", reschedule_main reschedule_event_future);
   ("reschedule-relative", reschedule_main reschedule_event_relative);
   ("breakpt", breakpt_main); ("nobreakpt", nobreakpt_main); ("unbreak", nobreakpt_main);
   ("nobreakptall", nobreakptall_main); ("unbreakall", nobreakptall_main);
   ("watch", watch_main); ("unwatch", unwatch_main); ("unwatchall", unwatchall_main);
   ("zerotcounts", zerotcounts_main);
   ("min-delay", min_delay_main); ("min-delay-reset", min_delay_reset_main);
   ("min-delay-apply-all", min_delay_apply_all_main);
   ("local-rules-edit-attr", local_rules_edit_attr_main)]%string.
(** Commands that set modes and flags. *)
Definition mode_commands : table :=
  [("frozen-verbose", frozen_verbose_main); ("confirm", flag_main (set_confirm_asserts true));
   ("noconfirm", flag_main (set_confirm_asserts false)); ("watch-queue", flag_main watch_event_queue);
   ("nowatch-queue", flag_main nowatch_event_queue); ("watchall-queue", flag_main watchall_event_queue);
   ("nowatchall-queue", flag_main nowatchall_event_queue); ("watchall", flag_main watch_all_nodes);
   ("nowatchall", flag_main nowatch_all_nodes); ("cause", flag_main set_show_cause);
   ("nocause", flag_main clear_show_cause); ("tcounts", flag_main set_show_tcounts);
   ("notcounts", flag_main clear_show_tcounts); ("random", flag_main randomize);
   ("norandom", flag_main norandom); ("eval-order", eval_order_main); ("weak-rules", weak_rules_main);
   ("timing", timing_main); ("checkexcl", checkexcl_main); ("nocheckexcl", nocheckexcl_main);
   ("unstable-unknown", unstable_unknown_main); ("unstable-dequeue", unstable_dequeue_main);
   ("excl-unstable-unknown", excl_unstable_unknown_main);
   ("excl-unstable-dequeue", excl_unstable_dequeue_main); ("mode", set_mode_main);
   ("min-delay-verbose", min_delay_verbose_main)]%string.
Definition error_commands : table :=
  [("unstable", error_control_main set_unstable_policy);
   ("weak-unstable", error_control_main set_weak_unstable_policy);
   ("excl-unstable", error_control_main set_excl_unstable_policy);
   ("interference", error_control_main set_interference_policy);
   ("weak-interference", error_control_main set_weak_interference_policy);
   ("invariant-fail", error_control_main set_invariant_fail_policy);
   ("invariant-unknown", error_control_main set_invariant_unknown_policy);
   ("assert-fail", error_control_main set_assert_fail_policy);
   ("channel-expect-fail", error_control_main set_channel_expect_fail_policy);
   ("checkexcl-fail", error_control_main set_excl_check_fail_policy);
   ("keeper-check-fail", error_control_main set_keeper_check_fail_policy);
   ("setup-violation", error_control_main set_setup_violation_policy);
   ("hold-violation", error_control_main set_hold_violation_policy)]%string.
(** Commands that print or check. *)
Definition query_commands : table :=
  [("queue", print_main 1); ("time", print_main 1); ("breaks", print_main 1); ("watches", print_main 1);
   ("pending", pending_main); ("pending-debug", pending_main); ("check-structure", check_structure_main);
   ("check-queue", check_queue_main); ("dump-node", dump_node_main); ("process-id", process_id_main);
   ("node-id", node_id_main); ("get", get_main); ("get-driven", get_driven_main); ("getports", getports_main);
   ("getinports", getioports_main); ("getoutports", getioports_main); ("getcommonports", getcommonports_main);
   ("getlocal", getlocal_main); ("getall", getall_main); ("exceptions", exceptions_main);
   ("status", __status_main); ("status-newline", __status_main); ("no-status", no_status_main);
   ("status-interference", status_interfere_main false); ("status-weak-interference", status_interfere_main true);
   ("no-status-interfere", no_status_interfere_main false);
   ("no-status-weak-interfere", no_status_interfere_main true);
   ("status-driven", __status_driven false false); ("status-driven-fanin", __status_driven true false);
   ("no-status-driven", __status_driven false true); ("no-status-driven-fanin", __status_driven true true);
   ("status-frozen", status_frozen_main); ("status-frozen-get", status_frozen_main);
   ("unused-nodes", list_main unused_nodes); ("unused-nodes-get", list_main unused_nodes);
   ("no-unused-nodes", no_list_main unused_nodes);
   ("unknown-inputs", list_main (dangling_unknown_nodes true));
   ("unknown-inputs-fanout", list_main (dangling_unknown_nodes false));
   ("no-unknown-inputs", no_list_main (dangling_unknown_nodes true));
   ("no-unknown-inputs-fanout", no_list_main (dangling_unknown_nodes false));
   ("unknown-undriven-fanin", list_main unknown_nodes_fanin_off);
   ("no-unknown-undriven-fanin", no_list_main unknown_nodes_fanin_off);
   ("unknown-outputs", list_main output_unknown_nodes); ("no-unknown-outputs", no_list_main output_unknown_nodes);
   ("unknown-fanout", list_main unknown_nodes_fanout); ("no-unknown-fanout", no_list_main unknown_nodes_fanout);
   ("fanin", default_print_nodeinfo_main); ("fanin-get", default_print_nodeinfo_main);
   ("fanout", default_print_nodeinfo_main); ("fanout-get", default_print_nodeinfo_main);
   ("feedback", default_print_nodeinfo_main); ("feedback-get", default_print_nodeinfo_main);
   ("rings-mk", default_print_node_rings); ("rings-mk-get", default_print_node_rings);
   ("allrings-mk", print_main 1); ("allrings-mk-get", print_main 1);
   ("rings-chk", rings_chk_main); ("rings-chk-get", rings_chk_main);
   ("allrings-chk", print_main 1); ("allrings-chk-get", print_main 1);
   ("attributes", attributes_main); ("tcount", tcount_main); ("backtrace", backtrace_main);
   ("assert", assert_main); ("assertn", assertn_main); ("assert-driven", assert_driven_main);
   ("assert-pending", assert_pending_main true); ("assertn-pending", assert_pending_main false);
   ("assert-queue", assert_queue_main true); ("assertn-queue", assert_queue_main false);
   ("check-invariants", check_invariants_main); ("rules", rules_main); ("rules-verbose", rules_main);
   ("allrules", all_rules_main); ("allrules-verbose", all_rules_main); ("local-rules", local_rules_main);
   ("local-rules-matching", local_rules_matching_main); ("invariants", invariants_main);
   ("invariants-verbose", invariants_main); ("allinvariants", print_main 1); ("allinvariants-verbose", print_main 1);
   ("timing-constraints-process", timing_constraints_process_main);
   ("min-delay-list-all", upto_one_main SYNTAX (ret tt));
   ("min-delay-fanin-proc", min_delay_fanin_proc_main)]%string.
Definition channel_commands : table :=
  [("channel", channel_main); ("channel-ledr", channel_ledr_main); ("channel-bd-2p", channel_bd_2p_main);
   ("channel-bd-4p", channel_bd_4p_main); ("clock-source", clock_source_main);
   ("channel-clocked", channel_clocked_main); ("channel-report-time", channel_report_time_main);
   ("channel-show", channel_show_main); ("channel-get", channel_get_main);
   ("channel-show-all", channel_show_all_main); ("channel-assert", channel_assert_main);
   ("channel-signed", channel_signed_main); ("channel-unsigned", channel_unsigned_main);
   ("channel-watch", channel_watch_main); ("channel-unwatch", channel_unwatch_main);
   ("channel-watchall", channel_watchall_main); ("channel-unwatchall", channel_unwatchall_main);
   ("channel-heed", channel_heed_main); ("channel-ignore", channel_ignore_main);
   ("channel-heed-all", channel_heed_all_main); ("channel-ignore-all", channel_ignore_all_main);
   ("channel-reset", channel_reset_main); ("channel-reset-all", channel_reset_all_main);
   ("channel-stop", channel_stop_main); ("channel-stop-all", channel_stop_all_main);
   ("channel-stop-on-empty", channel_stop_on_empty_main);
   ("channel-continue-on-empty", channel_continue_on_empty_main);
   ("channel-release", channel_release_main); ("channel-release-all", channel_release_all_main);
   ("channel-close", channel_close_main); ("channel-close-all", channel_close_all_main);
   ("channel-source-file", channel_source_file_main); ("channel-source", channel_source_file_main);
   ("channel-source-file-loop", channel_source_file_loop_main);
   ("channel-source-loop", channel_source_file_loop_main); ("channel-source-args", channel_source_args_main);
   ("channel-source-args-loop", channel_source_args_loop_main); ("channel-rsource", channel_rsource_main);
   ("channel-sink", channel_sink_main); ("channel-log", channel_log_main);
   ("channel-expect-file", channel_expect_file_main); ("channel-expect", channel_expect_file_main);
   ("channel-expect-file-loop", channel_expect_file_loop_main);
   ("channel-expect-loop", channel_expect_file_loop_main); ("channel-expect-args", channel_expect_args_main);
   ("channel-expect-args-loop", channel_expect_args_loop_main);
   ("channel-assert-value-queue", channel_assert_value_queue_main);
   ("channel-timing", channel_timing_main)]%string.

(** ** The map *)
Definition plain_commands (fuel : nat) (is_command : string -> bool) : table :=
  shell_commands is_command ++ run_commands fuel ++ node_commands ++ mode_commands ++ error_commands ++
  query_commands ++ channel_commands.
(** Commands that run commands. *)
Definition nested_commands : list (string * command_main State) :=
  [("repeat", Repeat); ("meas-time", MeasTime); ("source", Source); ("history-rerun", HistoryRerun);
   ("interpret", Interpret)]%string.
Definition command_names : list string :=
  map fst (plain_commands 0 (fun _ => false)) ++ map fst nested_commands ++ unmodelled_commands.
Definition is_command (c : string) : bool := bool_decide (c ∈ command_names).
Definition prsim_commands (fuel : nat) : gmap string (command_main State) :=
  list_to_map (map (fun p => (p.1, Plain p.2)) (plain_commands fuel is_command) ++ nested_commands).

(** A line that the user types, and a script; [fuel] bounds the steps of one
    command, and how deeply commands run commands. *)
Definition prsim_interp (fuel : nat) : request -> SHM Z := interp (prsim_commands fuel) fuel.
Definition prsim_line (fuel : nat) (line : string) : SHM Z := prsim_interp fuel (R_line line true).
Definition prsim_script (fuel : nat) (lines : list string) : SHM Z := __source (prsim_interp fuel) lines.
End Commands.
