(* ===== verification/EventInv.v ===== *)
(** The invariant of the event system: the event pool, the event queue and
    the pending-event indices of the nodes describe the same events.

    [ev_ok H p q l t]: pool [p], queue [q], the nodes' event indices [l] and
    the time [t] agree; [H] holds the indices of the events that are in hand,
    i.e. allocated but not in the queue, as between [__allocate_event] and
    [enqueue_event], or while an event that was taken is executed. *)
From S2P Require Import Prelude SimTime PullSet Expr EventQueue ArrayPool OrdMap Node ProcGraph.
From S2P Require Import State Events.
From stdpp Require Import sorting.
Open Scope Z_scope.
Local Open Scope hackt_scope.
#[local] Abbreviation length := Datatypes.length.
#[local] Abbreviation queue := (list (EventPlaceholder real_time)).

Definition q_idx (q : queue) : list nat := map ep_index q.

(** What it is for an event of the queue to be due, at a time that the
    simulator has reached: by default, not to lie in the past.  Times that have
    been passed over, as the command [advance] can leave them, make up a weaker
    order, in which all that the invariant says of times is that they are. *)
Class DueOrder := {
  due : real_time -> real_time -> Prop;
  due_le : forall t u, t_le t u = true -> due t u;
  due_trans : forall t u v, due t u -> due u v -> due t v;
  due_ok : forall t u, due t u -> t_ok u = true
}.
#[export] Instance strict_due : DueOrder := {|
  due t u := t_le t u = true;
  due_le t u H := H;
  due_trans := t_le_trans;
  due_ok t u H := proj2 (t_le_ok t u H)
|}.
Definition loose_due : DueOrder := {|
  due t u := t_ok u = true;
  due_le t u H := proj2 (t_le_ok t u H);
  due_trans t u v _ H := H;
  due_ok t u H := H
|}.

Section Ev.
Context {D : DueOrder}.

Record ev_ok (H : list nat) (p : array_pool Event) (q : queue) (l : list nat) (t : real_time)
    : Prop := {
  ok_pool : wf_pool p;
  ok_queue : wf_queue q;
  ok_nodup : NoDup (q_idx q ++ H);
  ok_alloc : forall i, allocated p i <-> i ∈ q_idx q ++ H;
  ok_dom : forall i e, allocated p i -> pool_get p i = Ok e -> (ev_node e < length l)%nat;
  ok_live : forall i e, allocated p i -> pool_get p i = Ok e -> killed e = false ->
    l !! ev_node e = Some i;
  ok_link : forall ni i, l !! ni = Some i -> i <> 0%nat ->
    exists e, allocated p i /\ pool_get p i = Ok e /\ killed e = false /\ ev_node e = ni;
  ok_due : Forall (fun x => due t (ep_time x)) q
}.

Lemma allocated_pos {A} (p : array_pool A) i : allocated p i -> i <> 0%nat.
Proof. intros [[? _] _]. lia. Qed.

Lemma q_idx_perm q q' : q ≡ₚ q' -> q_idx q ≡ₚ q_idx q'.
Proof. intros E. unfold q_idx. by rewrite E. Qed.

Lemma NoDup_perm (l k : list nat) : l ≡ₚ k -> NoDup l -> NoDup k.
Proof. intros E. by rewrite E. Qed.

(** [H] and the queue may be permuted and exchange entries. *)
Lemma ev_ok_move H H' p q q' l t :
  ev_ok H p q l t -> q_idx q ++ H ≡ₚ q_idx q' ++ H' -> wf_queue q' ->
  Forall (fun x => due t (ep_time x)) q' -> ev_ok H' p q' l t.
Proof.
  intros [Hp Hq Hn Ha Hdom Hl Hk Hd] E Hq' Hd'. split; try done.
  - by eapply NoDup_perm.
  - intros i. by rewrite Ha, E.
Qed.

Lemma ev_ok_time H p q l t t' :
  ev_ok H p q l t -> Forall (fun x => due t' (ep_time x)) q -> ev_ok H p q l t'.
Proof. intros [] Hd. by split. Qed.

Lemma ev_ok_push H p q l t i tt :
  ev_ok (i :: H) p q l t -> due t tt ->
  ev_ok H p (push q (mkPlaceholder tt i)) l t.
Proof.
  intros Hev Ht. pose proof (push_perm q (mkPlaceholder tt i)) as E.
  pose proof (due_ok _ _ Ht) as Hok. eapply ev_ok_move; [done| | |].
  - rewrite (q_idx_perm _ _ E). cbn. symmetry. apply Permutation_middle.
  - apply wf_push; [apply Hev|done].
  - rewrite E. constructor; [done|apply Hev].
Qed.

Lemma ev_ok_pop H p x q l t : ev_ok H p (x :: q) l t -> ev_ok (ep_index x :: H) p q l t.
Proof.
  intros Hev. eapply ev_ok_move; [done| | |].
  - cbn. apply Permutation_middle.
  - by apply (wf_pop _ x q (ok_queue _ _ _ _ _ Hev) eq_refl).
  - pose proof (ok_due _ _ _ _ _ Hev) as Hd. by apply Forall_cons in Hd as [_ Hd].
Qed.

(** The earliest entry is due first. *)
Lemma ev_ok_head H p x q l t : ev_ok H p (x :: q) l t ->
  due t (ep_time x) /\ Forall (fun y => t_le (ep_time x) (ep_time y) = true) (x :: q).
Proof.
  intros Hev. pose proof (ok_due _ _ _ _ _ Hev) as Hd. apply Forall_cons in Hd as [Hx _].
  split; [done|]. by apply (wf_pop _ x q (ok_queue _ _ _ _ _ Hev) eq_refl).
Qed.

Lemma ev_ok_allocate H p q l t e :
  ev_ok H p q l t -> l !! ev_node e = Some 0%nat -> killed e = false ->
  exists i p', allocate p e = Ok (i, p') /\ i <> 0%nat /\
    ev_ok (i :: H) p' q (<[ev_node e := i]> l) t.
Proof.
  intros Hev Hl0 Hk. destruct Hev as [Hp Hq Hn Ha Hdom Hl Hlk Hd].
  destruct (allocate_spec p e Hp) as (i & p' & E & [Hp' Hfr Hin Hg Hf Hgf _]).
  pose proof (allocated_pos _ _ Hin) as Hi0.
  assert (Hnew : i ∉ q_idx q ++ H) by (by rewrite <- Ha).
  exists i, p'. split; [done|]. split; [done|]. split; try done.
  - eapply NoDup_perm; [apply Permutation_middle|]. by constructor.
  - intros j. rewrite <- Permutation_middle, elem_of_cons, <- Ha.
    destruct (decide (j = i)) as [->|Hne]; [tauto|]. rewrite Hf by done. tauto.
  - intros j ej Hj Hge. rewrite length_insert. destruct (decide (j = i)) as [->|Hne].
    + rewrite Hg in Hge. injection Hge as <-. by eapply lookup_lt_Some.
    + apply Hf in Hj; [|done]. rewrite Hgf in Hge by done. by eapply Hdom.
  - intros j ej Hj Hge Hkj. destruct (decide (j = i)) as [->|Hne].
    + rewrite Hg in Hge. injection Hge as <-. apply list_lookup_insert_eq. by eapply lookup_lt_Some.
    + apply Hf in Hj; [|done]. rewrite Hgf in Hge by done.
      pose proof (Hl _ _ Hj Hge Hkj) as Hlj. rewrite list_lookup_insert_ne; [done|].
      intros Heq. rewrite <- Heq, Hl0 in Hlj. injection Hlj as <-.
      by apply allocated_pos in Hj.
  - intros ni j Hj Hj0. destruct (decide (ni = ev_node e)) as [->|Hne].
    + rewrite list_lookup_insert_eq in Hj by (by eapply lookup_lt_Some).
      injection Hj as <-. by exists e.
    + rewrite list_lookup_insert_ne in Hj by done.
      destruct (Hlk _ _ Hj Hj0) as (ej & Hja & Hje & ? & ?). exists ej. split_and!; try done.
      * apply Hf; [|done]. intros ->. done.
      * by rewrite Hgf.
Qed.

(** Rewriting an event without touching its node or its killed mark. *)
Lemma ev_ok_update H p q l t i e e' p' :
  ev_ok H p q l t -> pool_get p i = Ok e -> ev_node e' = ev_node e -> killed e' = killed e ->
  pool_set p i e' = Ok p' -> ev_ok H p' q l t.
Proof.
  intros Hev Hg En Ek E. destruct Hev as [Hp Hq Hn Ha Hdom Hl Hlk Hd].
  pose proof (pool_get_range _ _ _ Hg) as Hin.
  destruct (pool_set_spec p i e' Hp Hin) as (p'' & E' & Hp' & Hfree & Hsz & Hgi & Hgj).
  rewrite E in E'. injection E' as <-.
  assert (Hal : forall j, allocated p' j <-> allocated p j) by (by apply allocated_eq).
  assert (Hget : forall j ej, pool_get p' j = Ok ej ->
      exists e0, pool_get p j = Ok e0 /\ ev_node ej = ev_node e0 /\ killed ej = killed e0).
  { intros j ej Hj. destruct (decide (j = i)) as [->|Hne].
    - rewrite Hgi in Hj. injection Hj as <-. by exists e.
    - rewrite Hgj in Hj by done. by exists ej. }
  split; try done.
  - intros j. by rewrite Hal.
  - intros j ej Hj Hge. apply Hal in Hj. destruct (Hget _ _ Hge) as (e0 & H0 & -> & _). by eapply Hdom.
  - intros j ej Hj Hge Hkj. apply Hal in Hj. destruct (Hget _ _ Hge) as (e0 & H0 & -> & Ek0).
    apply Hl; [done..|congruence].
  - intros ni j Hj Hj0. destruct (Hlk _ _ Hj Hj0) as (ej & Hja & Hje & Hkj & Hnj).
    destruct (decide (j = i)) as [->|Hne].
    + exists e'. rewrite Hal. rewrite Hje in Hg. injection Hg as <-.
      split_and!; [done|done|congruence|congruence].
    + exists ej. rewrite Hal, Hgj by done. done.
Qed.

Lemma ev_ok_kill H p q l t i e :
  ev_ok H p q l t -> allocated p i -> pool_get p i = Ok e -> killed e = false ->
  exists p', pool_set p i (kill e) = Ok p' /\ ev_ok H p' q (<[ev_node e := 0%nat]> l) t.
Proof.
  intros Hev Hi Hg Hke. destruct Hev as [Hp Hq Hn Ha Hdom Hl Hlk Hd].
  destruct (pool_set_spec p i (kill e) Hp (proj1 Hi)) as (p' & E & Hp' & Hfree & Hsz & Hgi & Hgj).
  assert (Hal : forall j, allocated p' j <-> allocated p j) by (by apply allocated_eq).
  pose proof (Hl _ _ Hi Hg Hke) as Hle.
  exists p'. split; [done|]. split; try done.
  - intros j. by rewrite Hal.
  - intros j ej Hj Hge. rewrite length_insert. apply Hal in Hj. destruct (decide (j = i)) as [->|Hne].
    + rewrite Hgi in Hge. injection Hge as <-. by apply (Hdom i e).
    + rewrite Hgj in Hge by done. by eapply Hdom.
  - intros j ej Hj Hge Hkj. apply Hal in Hj. destruct (decide (j = i)) as [->|Hne].
    + rewrite Hgi in Hge. injection Hge as <-. by rewrite killed_kill in Hkj.
    + rewrite Hgj in Hge by done. pose proof (Hl _ _ Hj Hge Hkj) as Hlj.
      rewrite list_lookup_insert_ne; [done|]. intros Heq. rewrite <- Heq, Hle in Hlj. congruence.
  - intros ni j Hj Hj0. destruct (decide (ni = ev_node e)) as [->|Hne].
    + rewrite list_lookup_insert_eq in Hj by (by eapply lookup_lt_Some). congruence.
    + rewrite list_lookup_insert_ne in Hj by done.
      destruct (Hlk _ _ Hj Hj0) as (ej & Hja & Hje & Hkj & Hnj).
      destruct (decide (j = i)) as [->|Hne']; [congruence|].
      exists ej. rewrite Hal, Hgj by done. done.
Qed.

(** Returning an event in hand: killed, or still linked from its node. *)
Lemma ev_ok_deallocate_killed H p q l t i e :
  ev_ok (i :: H) p q l t -> pool_get p i = Ok e -> killed e = true ->
  exists p', deallocate p i = Ok p' /\ ev_ok H p' q l t.
Proof.
  intros Hev Hg Hke. destruct Hev as [Hp Hq Hn Ha Hdom Hl Hlk Hd].
  assert (Hi : allocated p i) by (apply Ha, elem_of_app; right; by left).
  destruct (deallocate_spec p i Hp Hi) as (p' & E & [Hp' Hfree Hf Hpool]).
  assert (Hget : forall j, pool_get p' j = pool_get p j) by (intros j; unfold pool_get; by rewrite Hpool).
  assert (Hn' : NoDup (i :: q_idx q ++ H)) by (by eapply NoDup_perm; [symmetry; apply Permutation_middle|]).
  apply NoDup_cons in Hn' as [Hni Hn'].
  assert (Hne : forall j, allocated p' j -> j <> i) by (intros j Hj ->; done).
  exists p'. split; [done|]. split; try done.
  - intros j. destruct (decide (j = i)) as [->|Hji]; [tauto|].
    rewrite Hf, Ha, <- Permutation_middle, elem_of_cons by done. tauto.
  - intros j ej Hj Hge. rewrite Hget in Hge. apply (Hdom j); [by apply Hf; [apply Hne|]|done].
  - intros j ej Hj Hge Hkj. rewrite Hget in Hge.
    apply Hl; [by apply Hf; [apply Hne|]|done..].
  - intros ni j Hj Hj0. destruct (Hlk _ _ Hj Hj0) as (ej & Hja & Hje & Hkj & Hnj).
    exists ej. rewrite Hget. split_and!; try done. apply Hf; [|done]. intros ->. congruence.
Qed.

Lemma ev_ok_deallocate_live H p q l t i e :
  ev_ok (i :: H) p q l t -> pool_get p i = Ok e -> killed e = false ->
  exists p', deallocate p i = Ok p' /\ ev_ok H p' q (<[ev_node e := 0%nat]> l) t.
Proof.
  intros Hev Hg Hke.
  assert (Hi : allocated p i) by (apply (ok_alloc _ _ _ _ _ Hev), elem_of_app; right; by left).
  destruct (ev_ok_kill _ _ _ _ _ _ _ Hev Hi Hg Hke) as (p1 & E1 & Hev1).
  destruct (pool_set_spec p i (kill e) (ok_pool _ _ _ _ _ Hev) (proj1 Hi))
    as (p1' & E1' & Hp1 & Hfree & Hsz & Hgi & Hgj).
  assert (p1' = p1) as -> by congruence.
  destruct (ev_ok_deallocate_killed _ _ _ _ _ _ _ Hev1 Hgi (killed_kill e)) as (p2 & E2 & Hev2).
  destruct (deallocate_spec p i (ok_pool _ _ _ _ _ Hev) Hi) as (p' & E & [Hp' Hde Hf Hpool]).
  exists p'. split; [done|].
  (* p' and p2 only differ in the contents of the returned entry *)
  assert (Hfr : free_indices p' = free_indices p2).
  { revert E E2. unfold deallocate. rewrite Hfree. destruct (Nat.eqb i 0); [done|].
    destruct (set_release (free_indices p) i); [|done]. by intros [= <-] [= <-]. }
  assert (Hlen : pool_size p' = pool_size p2).
  { unfold pool_size. rewrite Hpool. revert E2. unfold deallocate.
    destruct (Nat.eqb i 0); [done|]. destruct (set_release _ i); [|done].
    intros [= <-]. cbn. symmetry. exact Hsz. }
  assert (Hal : forall j, allocated p' j <-> allocated p2 j) by (by apply allocated_eq).
  assert (Hget : forall j, j <> i -> pool_get p' j = pool_get p2 j).
  { intros j Hne. transitivity (pool_get p j); [unfold pool_get; by rewrite Hpool|].
    rewrite <- Hgj by done. revert E2. unfold deallocate. destruct (Nat.eqb i 0); [done|].
    destruct (set_release _ i); [|done]. by intros [= <-]. }
  assert (Hne : forall j, allocated p' j -> j <> i) by (intros j Hj ->; done).
  destruct Hev2 as [Hp2 Hq2 Hn2 Ha2 Hdom2 Hl2 Hlk2 Hd2]. split; try done.
  - intros j. by rewrite Hal.
  - intros j ej Hj Hge. rewrite Hget in Hge by (by apply Hne). apply (Hdom2 j); [by apply Hal|done].
  - intros j ej Hj Hge Hkj. rewrite Hget in Hge by (by apply Hne). apply Hl2; [by apply Hal|done..].
  - intros ni j Hj Hj0. destruct (Hlk2 _ _ Hj Hj0) as (ej & Hja & Hje & Hkj & Hnj).
    exists ej. apply Hal in Hja. split_and!; try done. by rewrite Hget by (by apply Hne).
Qed.

(** A copy takes the place of a live event. *)
Lemma ev_ok_replace H p q l t i e :
  ev_ok H p q l t -> allocated p i -> pool_get p i = Ok e -> killed e = false ->
  exists j p1 p2, allocate p e = Ok (j, p1) /\ pool_set p1 i (kill e) = Ok p2 /\
    pool_get p1 i = Ok e /\ j <> 0%nat /\ ev_ok (j :: H) p2 q (<[ev_node e := j]> l) t.
Proof.
  intros Hev Hi Hg Hke. pose proof (allocated_pos _ _ Hi) as Hi0.
  pose proof (ok_live _ _ _ _ _ Hev _ _ Hi Hg Hke) as Hle.
  destruct Hev as [Hp Hq Hn Ha Hdom Hl Hlk Hd].
  destruct (allocate_spec p e Hp) as (j & p1 & E & [Hp1 Hfr Hin Hgj Hf Hgf _]).
  pose proof (allocated_pos _ _ Hin) as Hj0.
  assert (Hji : j <> i) by (intros ->; done).
  assert (Hi1 : allocated p1 i) by (apply Hf; done).
  destruct (pool_set_spec p1 i (kill e) Hp1 (proj1 Hi1)) as (p2 & E2 & Hp2 & Hfree & Hsz & Hgi & Hgk).
  assert (Hal : forall k, allocated p2 k <-> allocated p1 k) by (by apply allocated_eq).
  assert (Hnew : j ∉ q_idx q ++ H) by (by rewrite <- Ha).
  exists j, p1, p2. split_and!; [done|done|by rewrite Hgf|done|]. split; try done.
  - eapply NoDup_perm; [apply Permutation_middle|]. by constructor.
  - intros k. rewrite Hal, <- Permutation_middle, elem_of_cons, <- Ha.
    destruct (decide (k = j)) as [->|Hne]; [tauto|]. rewrite Hf by done. tauto.
  - intros k ek Hk Hge. rewrite length_insert. apply Hal in Hk.
    destruct (decide (k = i)) as [->|Hki].
    { rewrite Hgi in Hge. injection Hge as <-. by apply (Hdom i e). }
    rewrite Hgk in Hge by done. destruct (decide (k = j)) as [->|Hkj].
    { rewrite Hgj in Hge. injection Hge as <-. by apply (Hdom i e). }
    apply Hf in Hk; [|done]. rewrite Hgf in Hge by done. by eapply Hdom.
  - intros k ek Hk Hge Hkk. apply Hal in Hk. destruct (decide (k = i)) as [->|Hki].
    { rewrite Hgi in Hge. injection Hge as <-. by rewrite killed_kill in Hkk. }
    rewrite Hgk in Hge by done. destruct (decide (k = j)) as [->|Hkj].
    + rewrite Hgj in Hge. injection Hge as <-. apply list_lookup_insert_eq. by eapply lookup_lt_Some.
    + apply Hf in Hk; [|done]. rewrite Hgf in Hge by done. pose proof (Hl _ _ Hk Hge Hkk) as Hlk'.
      rewrite list_lookup_insert_ne; [done|]. intros Heq. rewrite <- Heq, Hle in Hlk'. congruence.
  - intros ni k Hk Hk0. destruct (decide (ni = ev_node e)) as [->|Hne].
    + rewrite list_lookup_insert_eq in Hk by (by eapply lookup_lt_Some). injection Hk as <-.
      exists e. rewrite Hal, Hgk by done. done.
    + rewrite list_lookup_insert_ne in Hk by done.
      destruct (Hlk _ _ Hk Hk0) as (ek & Hka & Hke' & Hkk & Hnk).
      assert (k <> i) by congruence. exists ek. rewrite Hal, Hgk by done.
      rewrite Hgf by done. split_and!; try done. apply Hf; [|done]. intros ->. done.
Qed.

End Ev.

(** ** The invariant of a state *)
Section Inv.
Context {C : Type} {D : DueOrder}.
#[local] Abbreviation State := (State C).
#[local] Abbreviation SM := (M State).
Implicit Types (s : State) (H : list nat).

Definition links s : list nat := map n_event_index (node_pool s).

(** The event system of [s], with the events [H] in hand. *)
Definition EV H s : Prop :=
  ev_ok H (event_pool s) (event_queue s) (links s) (current_time s).

(** Between operations no event is in hand. *)
Definition wf_events s : Prop := EV [] s.

Lemma links_lookup s i n : node_pool s !! i = Some n -> links s !! i = Some (n_event_index n).
Proof. intros E. unfold links. by rewrite list_lookup_fmap, E. Qed.

Lemma links_lookup_inv s i k : links s !! i = Some k ->
  exists n, node_pool s !! i = Some n /\ n_event_index n = k.
Proof.
  unfold links. rewrite list_lookup_fmap. destruct (node_pool s !! i) as [n|]; [|done].
  intros [= <-]. by exists n.
Qed.

Lemma links_insert (np : list NodeState) i n :
  map n_event_index (<[i := n]> np) = <[i := n_event_index n]> (map n_event_index np).
Proof. apply list_fmap_insert. Qed.

Lemma links_same (np : list NodeState) i n n' :
  np !! i = Some n -> n_event_index n' = n_event_index n ->
  map n_event_index (<[i := n']> np) = map n_event_index np.
Proof.
  intros E En. rewrite links_insert, En. apply list_insert_id. by rewrite list_lookup_fmap, E.
Qed.

(** The invariant only depends on four fields. *)
Lemma EV_ext H s s' :
  event_pool s' = event_pool s -> event_queue s' = event_queue s ->
  links s' = links s -> current_time s' = current_time s -> EV H s -> EV H s'.
Proof. unfold EV. by intros -> -> -> ->. Qed.

(** The pending event of a node. *)
Lemma EV_pending H s ni n : EV H s -> node_pool s !! ni = Some n -> pending_event n = true ->
  exists e, allocated (event_pool s) (n_event_index n) /\
    pool_get (event_pool s) (n_event_index n) = Ok e /\ killed e = false /\ ev_node e = ni /\
    n_event_index n <> 0%nat.
Proof.
  intros Hev Hn Hp. unfold pending_event, INVALID_EVENT_INDEX in Hp.
  apply negb_true_iff, Nat.eqb_neq in Hp.
  destruct (ok_link _ _ _ _ _ Hev ni _ (links_lookup _ _ _ Hn) Hp) as (e & ? & ? & ? & ?).
  by exists e.
Qed.

Section Rules.
Context (E : fault -> Prop).

Lemma wpe_get_node i n (Q : NodeState -> State -> Prop) s :
  node_pool s !! i = Some n -> Q n s -> wpe E (get_node i) Q s.
Proof. intros Hn HQ. unfold get_node, wpe, bind, gets, of_option. cbn. by rewrite Hn. Qed.

Lemma wpe_upd_node i n f (Q : unit -> State -> Prop) s :
  node_pool s !! i = Some n ->
  Q tt (put_node_pool (<[i := f n]> (node_pool s)) s) -> wpe E (upd_node i f) Q s.
Proof.
  intros Hn HQ. unfold upd_node. apply wpe_bind. eapply wpe_get_node; [done|]. done.
Qed.

Lemma wpe_upd_node_res i n n' f (Q : unit -> State -> Prop) s :
  node_pool s !! i = Some n -> f n = Ok n' ->
  Q tt (put_node_pool (<[i := n']> (node_pool s)) s) -> wpe E (upd_node_res i f) Q s.
Proof.
  intros Hn Hf HQ. unfold upd_node_res. apply wpe_bind. eapply wpe_get_node; [done|].
  apply wpe_bind. rewrite Hf. done.
Qed.

Lemma wpe_get_event i e (Q : Event -> State -> Prop) s :
  pool_get (event_pool s) i = Ok e -> Q e s -> wpe E (get_event i) Q s.
Proof. intros He HQ. unfold get_event, wpe, bind, gets, lift_res. cbn. by rewrite He. Qed.

Lemma wpe_upd_event i e f p' (Q : unit -> State -> Prop) s :
  pool_get (event_pool s) i = Ok e -> pool_set (event_pool s) i (f e) = Ok p' ->
  Q tt (put_event_pool p' s) -> wpe E (upd_event i f) Q s.
Proof.
  intros He Hp HQ. unfold upd_event. apply wpe_bind. eapply wpe_get_event; [done|].
  unfold wpe, bind, gets, lift_res, modify. cbn. by rewrite Hp.
Qed.

Lemma wpe_pool_allocate e i p' (Q : nat -> State -> Prop) s :
  allocate (event_pool s) e = Ok (i, p') -> Q i (put_event_pool p' s) ->
  wpe E (pool_allocate e) Q s.
Proof.
  intros Ha HQ. unfold pool_allocate, wpe, bind, gets, lift_res, modify, ret. cbn. by rewrite Ha.
Qed.

Lemma wpe_pool_deallocate i p' (Q : unit -> State -> Prop) s :
  deallocate (event_pool s) i = Ok p' -> Q tt (put_event_pool p' s) ->
  wpe E (pool_deallocate i) Q s.
Proof.
  intros Ha HQ. unfold pool_deallocate, wpe, bind, gets, lift_res, modify. cbn. by rewrite Ha.
Qed.

Lemma set_event_ok n i : pending_event n = false -> i <> 0%nat ->
  set_event i n = Ok (set_n_event_index i n).
Proof.
  intros Hp Hi. unfold set_event. apply pending_event_spec in Hp. rewrite Hp.
  by rewrite (proj2 (Nat.eqb_neq i _)) by done.
Qed.

(** [__allocate_event]: the new event is in hand, and linked from its node. *)
Lemma wpe___allocate_event H ni n e (Q : nat -> State -> Prop) s :
  EV H s -> node_pool s !! ni = Some n -> pending_event n = false ->
  is_frozen n = false \/ forced e = true -> ev_node e = ni -> killed e = false ->
  (forall i p', i <> 0%nat -> pool_get p' i = Ok e ->
     (forall j, allocated (event_pool s) j -> pool_get p' j = pool_get (event_pool s) j) ->
     let s' := put_node_pool (<[ni := set_n_event_index i n]> (node_pool s)) (put_event_pool p' s) in
     EV (i :: H) s' -> Q i s') ->
  wpe E (__allocate_event ni e) Q s.
Proof.
  intros Hev Hn Hp Hf He Hk HQ. unfold __allocate_event. subst ni.
  assert (Hl : links s !! ev_node e = Some 0%nat).
  { rewrite (links_lookup _ _ _ Hn). by apply pending_event_spec in Hp as ->. }
  destruct (ev_ok_allocate _ _ _ _ _ _ Hev Hl Hk) as (i & p' & Ea & Hi & Hev').
  destruct (allocate_spec _ e (ok_pool _ _ _ _ _ Hev)) as (i' & p'' & Ea' & [_ _ _ Hg _ Hgf _]).
  rewrite Ea in Ea'. injection Ea' as <- <-.
  apply wpe_bind. eapply wpe_get_node; [done|].
  apply wpe_bind, wpe_require; [intros _|by rewrite Hp].
  apply wpe_bind, wpe_require; [intros _|intros Hbad; destruct Hf as [Hf|Hf]; rewrite Hf in Hbad;
    cbn in Hbad; rewrite ?orb_true_r in Hbad; done].
  apply wpe_bind. eapply wpe_pool_allocate; [done|].
  apply wpe_bind. eapply wpe_upd_node_res; [done|by apply set_event_ok|].
  apply wpe_ret. apply HQ; [done..|]. unfold EV, links. cbn. rewrite links_insert. exact Hev'.
Qed.

Lemma wpe___allocate_event_new H ni n c ri r v w frc (Q : nat -> State -> Prop) s :
  EV H s -> node_pool s !! ni = Some n -> pending_event n = false ->
  is_frozen n = false \/ frc = true ->
  (let e := if frc then force (Event_make ni c ri r v w) else Event_make ni c ri r v w in
   forall i p', i <> 0%nat -> pool_get p' i = Ok e ->
     (forall j, allocated (event_pool s) j -> pool_get p' j = pool_get (event_pool s) j) ->
     let s' := put_node_pool (<[ni := set_n_event_index i n]> (node_pool s)) (put_event_pool p' s) in
     EV (i :: H) s' -> Q i s') ->
  wpe E (__allocate_event_new ni c ri r v w frc) Q s.
Proof.
  intros Hev Hn Hp Hf HQ. unfold __allocate_event_new.
  apply wpe_bind. eapply wpe_get_node; [done|].
  apply wpe_bind, wpe_require; [intros _|by rewrite Hp].
  eapply wpe___allocate_event; [done..| | | |exact HQ].
  - destruct Hf as [Hf| ->]; [by left|right]. by destruct w.
  - by destruct frc.
  - by destruct frc, w.
Qed.

(** [kill_event] on the pending event of a node. *)
Lemma wpe_kill_event H ni n (Q : unit -> State -> Prop) s :
  EV H s -> node_pool s !! ni = Some n -> pending_event n = true ->
  (forall p', (forall j, j <> n_event_index n -> pool_get p' j = pool_get (event_pool s) j) ->
     (forall e, pool_get (event_pool s) (n_event_index n) = Ok e ->
        pool_get p' (n_event_index n) = Ok (kill e)) ->
     let s' := put_node_pool (<[ni := clear_event n]> (node_pool s)) (put_event_pool p' s) in
     EV H s' -> Q tt s') ->
  wpe E (kill_event (n_event_index n) ni) Q s.
Proof.
  intros Hev Hn Hp HQ. destruct (EV_pending _ _ _ _ Hev Hn Hp) as (e & Ha & Hg & Hk & He & Hi).
  destruct (ev_ok_kill _ _ _ _ _ _ _ Hev Ha Hg Hk) as (p' & Es & Hev').
  destruct (pool_set_spec _ _ (kill e) (ok_pool _ _ _ _ _ Hev) (proj1 Ha))
    as (p'' & Es' & _ & _ & _ & Hgi & Hgj).
  assert (p'' = p') as -> by congruence.
  unfold kill_event. apply wpe_bind. eapply wpe_upd_event; [done..|].
  eapply wpe_upd_node; [done|]. apply HQ; [done| |].
  - intros e' He'. congruence.
  - unfold EV, links. cbn. rewrite links_insert. rewrite <- He at 1. exact Hev'.
Qed.

(** [enqueue_event] of an event in hand that its node links to. *)
Lemma wpe_enqueue_event H t i e n (Q : unit -> State -> Prop) s :
  EV (i :: H) s -> pool_get (event_pool s) i = Ok e -> node_pool s !! ev_node e = Some n ->
  n_event_index n = i -> i <> 0%nat -> is_atomic n = false -> t_le (current_time s) t = true ->
  (let s' := put_event_queue (push (event_queue s) (mkPlaceholder t i)) s in
   EV H s' -> Q tt s') ->
  wpe E (enqueue_event t i) Q s.
Proof.
  intros Hev Hg Hn Hi Hi0 Hna Ht HQ. unfold enqueue_event, load_enqueue_event.
  apply wpe_bind, wpe_bind, wpe_require; [intros _|intros Hb; by apply negb_false_iff, Nat.eqb_eq in Hb].
  apply wpe_bind. eapply wpe_get_event; [done|].
  apply wpe_bind, wpe_gets, wpe_bind, wpe_when; [by rewrite Ht|intros _].
  apply wpe_bind. apply wpe_modify. apply wpe_ret. apply wpe_bind.
  eapply wpe_get_node; [done|].
  apply wpe_bind, wpe_require; [intros _|intros Hb; apply pending_event_spec in Hb;
    unfold INVALID_EVENT_INDEX in Hb; congruence].
  apply wpe_bind, wpe_require; [intros _|intros Hb; apply Nat.eqb_neq in Hb; congruence].
  apply wpe_require; [intros _|by rewrite Hna]. apply HQ.
  unfold EV. cbn. by apply ev_ok_push; [|apply due_le].
Qed.

Lemma wpe_replace_event H ni n (Q : nat -> State -> Prop) s :
  EV H s -> node_pool s !! ni = Some n -> pending_event n = true ->
  (forall j p' e, pool_get (event_pool s) (n_event_index n) = Ok e ->
     j <> 0%nat -> pool_get p' j = Ok e -> ev_node e = ni ->
     (forall k, k <> n_event_index n -> allocated (event_pool s) k ->
        pool_get p' k = pool_get (event_pool s) k) ->
     let s' := put_node_pool (<[ni := set_n_event_index j n]> (node_pool s)) (put_event_pool p' s) in
     EV (j :: H) s' -> Q j s') ->
  wpe E (replace_event ni (n_event_index n)) Q s.
Proof.
  intros Hev Hn Hp HQ. destruct (EV_pending _ _ _ _ Hev Hn Hp) as (e & Ha & Hg & Hk & He & Hi).
  destruct (ev_ok_replace _ _ _ _ _ _ _ Hev Ha Hg Hk) as (j & p1 & p2 & Ea & Es & Hg1 & Hj & Hev').
  destruct (allocate_spec _ e (ok_pool _ _ _ _ _ Hev)) as (j' & p1' & Ea' & [Hp1 Hfr _ Hgj Hf Hgf _]).
  rewrite Ea in Ea'. injection Ea' as <- <-.
  assert (Ha1 : allocated p1 (n_event_index n)) by (apply Hf; [by intros <-|done]).
  destruct (pool_set_spec p1 (n_event_index n) (kill e) Hp1 (proj1 Ha1))
    as (p2' & Es' & _ & _ & _ & _ & Hgk).
  assert (p2' = p2) as -> by congruence.
  assert (Hni : (ni < length (node_pool s))%nat) by (by eapply lookup_lt_Some).
  unfold replace_event, __copy_event, kill_event.
  apply wpe_bind. eapply wpe_get_event; [done|].
  apply wpe_bind. eapply wpe_pool_allocate; [done|].
  apply wpe_bind, wpe_bind. eapply wpe_upd_event; [done..|].
  eapply wpe_upd_node; [exact Hn|].
  apply wpe_bind. eapply wpe_upd_node_res.
  { cbn. by apply list_lookup_insert_eq. }
  { apply set_event_ok; [by apply pending_event_spec|done]. }
  apply wpe_ret.
  match goal with |- Q j ?st => assert (Est : st = put_node_pool
    (<[ni := set_n_event_index j n]> (node_pool s)) (put_event_pool p2 s)) end.
  { cbn. by rewrite list_insert_insert_eq. }
  rewrite Est. apply (HQ j p2 e); [done|done| |done| |].
  - rewrite Hgk; [done|]. intros Heq. rewrite <- Heq in Ha. done.
  - intros k Hki Hka. rewrite Hgk by done. by apply Hgf.
  - unfold EV, links. cbn. rewrite links_insert. rewrite <- He at 1. exact Hev'.
Qed.
End Rules.

(** ** The abstract schedule: what is pending at which node, and when *)
Definition schedule_type : Type := nat -> Event -> real_time -> Prop.

Definition schedule s : schedule_type := fun ni e t =>
  exists n, node_pool s !! ni = Some n /\ pending_event n = true /\
    pool_get (event_pool s) (n_event_index n) = Ok e /\
    mkPlaceholder t (n_event_index n) ∈ event_queue s.

#[export] Instance schedule_equiv : Equiv schedule_type :=
  fun P P' => forall ni e t, P ni e t <-> P' ni e t.
#[export] Instance schedule_equivalence : Equivalence (≡@{schedule_type}).
Proof.
  split.
  - intros P ni e t. done.
  - intros P P' HP ni e t. symmetry. apply HP.
  - intros P P' P'' H1 H2 ni e t. etransitivity; [apply H1|apply H2].
Qed.

Definition sch_del (ni : nat) (P : schedule_type) : schedule_type :=
  fun nj e t => nj <> ni /\ P nj e t.
Definition sch_put (ni : nat) (e0 : Event) (t0 : real_time) (P : schedule_type) : schedule_type :=
  fun nj e t => (nj = ni /\ e = e0 /\ t = t0) \/ (nj <> ni /\ P nj e t).

#[export] Instance sch_del_proper ni : Proper ((≡) ==> (≡)) (sch_del ni).
Proof. intros P P' HP nj e t. unfold sch_del. specialize (HP nj e t). tauto. Qed.
#[export] Instance sch_put_proper ni e t : Proper ((≡) ==> (≡)) (sch_put ni e t).
Proof. intros P P' HP nj e' t'. unfold sch_put. specialize (HP nj e' t'). tauto. Qed.

Lemma sch_put_del ni e t P : sch_put ni e t (sch_del ni P) ≡ sch_put ni e t P.
Proof. intros nj e' t'. unfold sch_put, sch_del. tauto. Qed.

Lemma sch_del_absent ni P : (forall e t, ~ P ni e t) -> sch_del ni P ≡ P.
Proof.
  intros Hn nj e t. unfold sch_del. split; [tauto|]. intros HP. split; [|done].
  intros ->. by apply Hn in HP.
Qed.

Lemma schedule_ext s s' :
  event_pool s' = event_pool s -> event_queue s' = event_queue s ->
  node_pool s' = node_pool s -> schedule s' ≡ schedule s.
Proof. intros E1 E2 E3 ni e t. unfold schedule. by rewrite E1, E2, E3. Qed.

Lemma elem_of_q_idx t i (q : queue) : mkPlaceholder t i ∈ q -> i ∈ q_idx q.
Proof. intros Hq. unfold q_idx. apply list_elem_of_fmap. by exists (mkPlaceholder t i). Qed.

(** Every time of a schedule is the only one for its node. *)
Lemma schedule_fun H s ni e t e' t' : EV H s ->
  schedule s ni e t -> schedule s ni e' t' -> e = e' /\ t = t'.
Proof.
  intros Hev (n & Hn & _ & Hg & Hq) (n' & Hn' & _ & Hg' & Hq').
  assert (n' = n) as -> by congruence. split; [congruence|].
  pose proof (ok_nodup _ _ _ _ _ Hev) as Hnd. apply NoDup_app in Hnd as (Hnd & _).
  clear -Hnd Hq Hq'. induction (event_queue s) as [|x q IH]; [by apply elem_of_nil in Hq|].
  cbn in Hnd. apply NoDup_cons in Hnd as [Hx Hnd].
  assert (Hin : forall u, mkPlaceholder u (n_event_index n) ∈ q -> n_event_index n ∈ q_idx q).
  { intros u. apply elem_of_q_idx. }
  apply elem_of_cons in Hq as [Hq|Hq], Hq' as [Hq'|Hq'].
  - congruence.
  - exfalso. apply Hx. rewrite <- Hq. cbn. by eapply Hin.
  - exfalso. apply Hx. rewrite <- Hq'. cbn. by eapply Hin.
  - by apply IH.
Qed.

(** Distinct pending nodes have distinct events. *)
Lemma EV_link_inj H s ni nj n m : EV H s ->
  node_pool s !! ni = Some n -> node_pool s !! nj = Some m -> pending_event n = true ->
  n_event_index n = n_event_index m -> ni = nj.
Proof.
  intros Hev Hn Hm Hp Heq. destruct (EV_pending _ _ _ _ Hev Hn Hp) as (e & _ & Hg & _ & He & Hi).
  rewrite Heq in Hi, Hg.
  destruct (ok_link _ _ _ _ _ Hev nj _ (links_lookup _ _ _ Hm) Hi) as (e' & _ & Hg' & _ & He').
  congruence.
Qed.

(** Clearing a node's link removes it from the schedule. *)
Lemma schedule_kill H s ni n p' :
  EV H s -> node_pool s !! ni = Some n -> pending_event n = true ->
  (forall j, j <> n_event_index n -> pool_get p' j = pool_get (event_pool s) j) ->
  schedule (put_node_pool (<[ni := clear_event n]> (node_pool s)) (put_event_pool p' s))
  ≡ sch_del ni (schedule s).
Proof.
  intros Hev Hn Hp Hg nj e t. unfold schedule, sch_del. cbn.
  destruct (decide (nj = ni)) as [->|Hne].
  - rewrite list_lookup_insert_eq by (by eapply lookup_lt_Some). split; [|tauto].
    by intros (n' & [= <-] & Hpe & _).
  - rewrite list_lookup_insert_ne by done. split.
    + intros (m & Hm & Hpm & Hgm & Hq). split; [done|]. exists m. rewrite Hg in Hgm; [done|].
      intros Heq. by pose proof (EV_link_inj _ _ _ _ _ _ Hev Hm Hn Hpm Heq).
    + intros (_ & m & Hm & Hpm & Hgm & Hq). exists m. rewrite Hg; [done|].
      intros Heq. by pose proof (EV_link_inj _ _ _ _ _ _ Hev Hm Hn Hpm Heq).
Qed.

(** An event that gets in hand is not in the schedule. *)
Lemma schedule_link s ni n i p' :
  node_pool s !! ni = Some n -> i ∉ q_idx (event_queue s) ->
  (forall nj m, nj <> ni -> node_pool s !! nj = Some m -> pending_event m = true ->
     pool_get p' (n_event_index m) = pool_get (event_pool s) (n_event_index m)) ->
  schedule (put_node_pool (<[ni := set_n_event_index i n]> (node_pool s)) (put_event_pool p' s))
  ≡ sch_del ni (schedule s).
Proof.
  intros Hn Hi Hg nj e t. unfold schedule, sch_del. cbn.
  destruct (decide (nj = ni)) as [->|Hne].
  - rewrite list_lookup_insert_eq by (by eapply lookup_lt_Some). split; [|tauto].
    intros (n' & [= <-] & _ & _ & Hq). cbn in Hq. by apply elem_of_q_idx in Hq.
  - rewrite list_lookup_insert_ne by done. split.
    + intros (m & Hm & Hpm & Hgm & Hq). split; [done|]. exists m. by rewrite <- (Hg nj).
    + intros (_ & m & Hm & Hpm & Hgm & Hq). exists m. by rewrite (Hg nj).
Qed.

Lemma schedule_push H s i e t n :
  EV (i :: H) s -> pool_get (event_pool s) i = Ok e -> node_pool s !! ev_node e = Some n ->
  n_event_index n = i -> i <> 0%nat ->
  schedule (put_event_queue (push (event_queue s) (mkPlaceholder t i)) s)
  ≡ sch_put (ev_node e) e t (schedule s).
Proof.
  intros Hev Hg Hn Hi Hi0 nj e' t'. unfold schedule, sch_put. cbn.
  assert (Hiq : i ∉ q_idx (event_queue s)).
  { pose proof (ok_nodup _ _ _ _ _ Hev) as Hnd. apply NoDup_app in Hnd as (_ & Hd & _).
    intros Hin. apply (Hd i Hin). by left. }
  assert (Hpn : pending_event n = true).
  { apply not_false_is_true. intros Hb. apply pending_event_spec in Hb.
    unfold INVALID_EVENT_INDEX in Hb. congruence. }
  setoid_rewrite push_perm. setoid_rewrite elem_of_cons. split.
  - intros (m & Hm & Hpm & Hgm & [Hq|Hq]).
    + injection Hq as -> Heq.
      assert (nj = ev_node e) as -> by (eapply (EV_link_inj _ _ _ _ m n Hev); try done; congruence).
      left. split_and!; [done|congruence|done].
    + right. split.
      * intros ->. assert (m = n) as -> by congruence. rewrite Hi in Hq.
        by apply elem_of_q_idx in Hq.
      * by exists m.
  - intros [(-> & -> & ->)|(Hne & m & Hm & Hpm & Hgm & Hq)].
    + exists n. rewrite Hi. split_and!; [done..|]. by left.
    + exists m. split_and!; [done..|]. by right.
Qed.
End Inv.
