(* ===== verification/EventProps.v ===== *)
(** What the event operations do to the abstract schedule, and that they keep
    the invariant of the event system. *)
From S2P Require Import Prelude SimTime PullSet Expr EventQueue ArrayPool OrdMap Node ProcGraph.
From S2P Require Import State Events EventInv.
From stdpp Require Import sorting.
Open Scope Z_scope.
Local Open Scope hackt_scope.
#[local] Abbreviation length := Datatypes.length.

Section Props.
Context {C : Type} {D : DueOrder}.
#[local] Abbreviation State := (State C).
#[local] Abbreviation SM := (M State).
Implicit Types (s : State) (H : list nat).

(** The state changes in the pool, the queue and the node's link only. *)
Definition only_events (ni : nat) (n : NodeState) s s' : Prop :=
  exists p q k, s' = put_node_pool (<[ni := set_n_event_index k n]> (node_pool s))
                       (put_event_queue q (put_event_pool p s)).

Lemma only_events_refl ni n s : node_pool s !! ni = Some n -> only_events ni n s s.
Proof.
  intros Hn. exists (event_pool s), (event_queue s), (n_event_index n).
  assert (set_n_event_index (n_event_index n) n = n) as -> by (by destruct n).
  rewrite list_insert_id by done. by destruct s.
Qed.

(** A pending event of a node, as the schedule sees it. *)
Lemma schedule_pending H s ni n : EV H s -> node_pool s !! ni = Some n -> pending_event n = true ->
  n_event_index n ∉ H ->
  exists e t, schedule s ni e t /\ killed e = false /\ ev_node e = ni.
Proof.
  intros Hev Hn Hp Hin. destruct (EV_pending _ _ _ _ Hev Hn Hp) as (e & Ha & Hg & Hk & He & Hi).
  apply (ok_alloc _ _ _ _ _ Hev), elem_of_app in Ha as [Ha|Ha]; [|done].
  unfold q_idx in Ha. apply list_elem_of_fmap in Ha as ([t i] & Heq & Hq). cbn in Heq. subst i.
  exists e, t. split_and!; [|done|done]. by exists n.
Qed.

Lemma schedule_absent s ni n : node_pool s !! ni = Some n -> pending_event n = false ->
  forall e t, ~ schedule s ni e t.
Proof. intros Hn Hp e t (n' & Hn' & Hp' & _). congruence. Qed.

Lemma schedule_event H s ni e t : EV H s -> schedule s ni e t ->
  killed e = false /\ ev_node e = ni /\ due (current_time s) t.
Proof.
  intros Hev (n & Hn & Hp & Hg & Hq).
  destruct (EV_pending _ _ _ _ Hev Hn Hp) as (e' & _ & Hg' & Hk & He & _).
  assert (e' = e) as -> by congruence. split_and!; [done|done|].
  pose proof (ok_due _ _ _ _ _ Hev) as Hd. rewrite Forall_forall in Hd. by apply Hd in Hq.
Qed.

(** ** Descheduling and rescheduling *)
Lemma wp_deschedule_event H s ni n :
  EV H s -> node_pool s !! ni = Some n ->
  wp (deschedule_event ni) (fun err s' =>
    err = negb (pending_event n) /\ EV H s' /\ schedule s' ≡ sch_del ni (schedule s)) s.
Proof.
  intros Hev Hn. unfold deschedule_event. apply wpe_bind. eapply wpe_get_node; [done|].
  destruct (pending_event n) eqn:Hp.
  - apply wpe_bind. eapply wpe_kill_event; [done..|]. intros p' Hgj _ s' Hev'.
    apply wpe_ret. split_and!; [done|done|]. by eapply schedule_kill.
  - apply wpe_ret. split_and!; [done|done|]. symmetry. apply sch_del_absent.
    by eapply schedule_absent.
Qed.

Lemma wp_reschedule_event H s ni n t :
  EV H s -> node_pool s !! ni = Some n -> is_atomic n = false -> t_ok t = true ->
  t_ok (current_time s) = true ->
  (pending_event n = true -> n_event_index n ∉ H) ->
  wp (reschedule_event ni t) (fun err s' =>
    (err = t_lt t (current_time s) || negb (pending_event n)) /\ EV H s' /\
    current_time s' = current_time s /\
    (err = true -> s' = s) /\ only_events ni n s s' /\
    (err = false -> exists e t0 j, schedule s ni e t0 /\ schedule s' ≡ sch_put ni e t (schedule s) /\
       event_queue s' = push (event_queue s) (mkPlaceholder t j))) s.
Proof.
  intros Hev Hn Hna Ht Hnow HH. unfold reschedule_event. apply wpe_bind, wpe_gets.
  pose proof (only_events_refl _ _ _ Hn) as Hrefl.
  destruct (t_lt t (current_time s)) eqn:Hlt; [by apply wpe_ret|].
  apply wpe_bind. eapply wpe_get_node; [done|].
  destruct (pending_event n) eqn:Hp; [|by apply wpe_ret].
  destruct (schedule_pending _ _ _ _ Hev Hn Hp (HH eq_refl)) as (e & t0 & Hs & _ & _).
  apply wpe_bind. eapply wpe_replace_event; [done..|].
  intros j p' e' Hge Hj Hgj He' Hgk s1 Hev1.
  assert (e' = e) as -> by (destruct Hs as (n' & Hn' & _ & Hg & _); congruence).
  assert (Hn1 : node_pool s1 !! ni = Some (set_n_event_index j n)).
  { cbn. apply list_lookup_insert_eq. by eapply lookup_lt_Some. }
  apply wpe_bind. eapply (wpe_enqueue_event _ H t j e); [done|done|by rewrite He'|done|done|done| |].
  { change (t_le (current_time s) t = true). by rewrite t_le_lt, Hlt. }
  intros s2 Hev2. apply wpe_ret. split_and!; [done|done|done|done| |].
  { by exists p', (push (event_queue s) (mkPlaceholder t j)), j. }
  intros _. exists e, t0, j. split; [done|]. split; [|done]. unfold s2.
  rewrite (schedule_push H s1 j e t (set_n_event_index j n)) by (rewrite ?He'; done).
  rewrite He'. unfold s1. rewrite (schedule_link s ni n j p'); [by apply sch_put_del|done| |].
  - pose proof (ok_nodup _ _ _ _ _ Hev1) as Hnd. apply NoDup_app in Hnd as (_ & Hd & _).
    intros Hin. apply (Hd j Hin). by left.
  - intros nj m Hne Hm Hpm. apply Hgk.
    + intros Heq. by pose proof (EV_link_inj _ _ _ _ _ _ Hev Hm Hn Hpm Heq).
    + by destruct (EV_pending _ _ _ _ Hev Hm Hpm) as (? & ? & _).
Qed.

(** ** Killed events *)
Lemma schedule_drop_killed H s x q p' e :
  EV H s -> event_queue s = x :: q -> pool_get (event_pool s) (ep_index x) = Ok e ->
  killed e = true -> (forall j, pool_get p' j = pool_get (event_pool s) j) ->
  schedule (put_event_pool p' (put_event_queue q s)) ≡ schedule s.
Proof.
  intros Hev Eq Hg Hk Hp ni e' t. unfold schedule. cbn. rewrite Eq. split.
  - intros (n & Hn & Hpn & Hgn & Hq). exists n. rewrite Hp in Hgn. split_and!; [done..|]. by right.
  - intros (n & Hn & Hpn & Hgn & Hq). exists n. rewrite Hp. split_and!; [done..|].
    apply elem_of_cons in Hq as [Hq|]; [|done]. exfalso.
    destruct (EV_pending _ _ _ _ Hev Hn Hpn) as (e'' & _ & Hg' & Hk' & _).
    rewrite <- Hq in Hg. cbn in Hg. congruence.
Qed.

Lemma deallocate_get {A} (p p' : array_pool A) i : deallocate p i = Ok p' ->
  forall j, pool_get p' j = pool_get p j.
Proof.
  unfold deallocate. destruct (Nat.eqb i 0); [done|]. destruct (set_release _ i); [|done].
  by intros [= <-].
Qed.

(** The front of the queue is live. *)
Definition front_live s : Prop :=
  match event_queue s with
  | [] => True
  | x :: _ => exists e, pool_get (event_pool s) (ep_index x) = Ok e /\ killed e = false
  end.

Definition flush_post H s s' : Prop :=
  EV H s' /\ schedule s' ≡ schedule s /\ front_live s' /\
  (length (event_queue s') <= length (event_queue s))%nat /\
  exists p q, s' = put_event_pool p (put_event_queue q s).

Lemma wp_flush_killed_loop H fuel s :
  EV H s -> (length (event_queue s) < fuel)%nat ->
  wp (flush_killed_loop fuel) (fun _ s' => flush_post H s s') s.
Proof.
  revert s. induction fuel as [|fuel IH]; intros s Hev Hf; [lia|]. cbn [flush_killed_loop].
  apply wpe_bind, wpe_gets. destruct (event_queue s) as [|x q] eqn:Eq; cbn [eq_empty].
  { apply wpe_ret. unfold flush_post, front_live. rewrite Eq. split_and!; try done.
    exists (event_pool s), (event_queue s). by destruct s. }
  apply wpe_bind. cbn [top].
  assert (Ha : allocated (event_pool s) (ep_index x)).
  { apply (ok_alloc _ _ _ _ _ Hev). rewrite Eq. cbn. by left. }
  destruct (pool_get_allocated _ _ (proj1 Ha)) as [e He].
  apply wpe_bind. eapply wpe_get_event; [done|].
  destruct (killed e) eqn:Hk.
  - apply wpe_bind. unfold queue_pop. apply wpe_bind, wpe_gets. rewrite Eq.
    apply wpe_bind. cbn [pop]. apply wpe_bind, wpe_modify, wpe_ret. cbn [fst snd].
    assert (Hev1 : EV (ep_index x :: H) (put_event_queue q s)).
    { unfold EV in *. cbn. rewrite Eq in Hev. by apply ev_ok_pop. }
    destruct (ev_ok_deallocate_killed _ _ _ _ _ _ _ Hev1 He Hk) as (p' & Ed & Hev2).
    apply wpe_bind. eapply wpe_pool_deallocate; [done|].
    assert (Hpost := IH (put_event_pool p' (put_event_queue q s))).
    eapply wpe_mono; [apply Hpost; [exact Hev2|exact (proj2 (Nat.succ_lt_mono _ _) Hf)]|].
    intros [] s' (Hev' & Hs & Hfr & Hlen & p2 & q2 & ->). unfold flush_post.
    split_and!; [done| |done|rewrite Eq; by apply Nat.le_le_succ_r|by exists p2, q2].
    rewrite Hs. eapply schedule_drop_killed; try done. by eapply deallocate_get.
  - apply wpe_ret. unfold flush_post, front_live. rewrite Eq. split_and!; try done.
    + by exists e.
    + exists (event_pool s), (event_queue s). by destruct s.
Qed.

Lemma wp_flush_killed_events H s :
  EV H s -> wp flush_killed_events (fun _ s' => flush_post H s s') s.
Proof.
  intros Hev. unfold flush_killed_events. apply wpe_bind, wpe_gets.
  apply wp_flush_killed_loop; [done|lia].
Qed.

(** ** Emptying the queue *)

(** Without regard to the nodes, which may have been reset before. *)
Record pool_queue_ok (p : array_pool Event) (q : list (EventPlaceholder real_time)) : Prop := {
  pq_pool : wf_pool p;
  pq_nodup : NoDup (q_idx q);
  pq_alloc : forall i, allocated p i <-> i ∈ q_idx q
}.

Lemma EV_pool_queue s : EV [] s -> pool_queue_ok (event_pool s) (event_queue s).
Proof.
  intros Hev. split; [apply Hev| |].
  - rewrite <- (app_nil_r (q_idx _)). apply Hev.
  - intros i. by rewrite (ok_alloc _ _ _ _ _ Hev), app_nil_r.
Qed.

Lemma wp_drain_loop fuel s :
  pool_queue_ok (event_pool s) (event_queue s) -> (length (event_queue s) < fuel)%nat ->
  wp (drain_loop fuel) (fun _ s' =>
    (exists p, s' = put_event_pool p (put_event_queue [] s)) /\
    pool_queue_ok (event_pool s') [] /\ pool_size (event_pool s') = pool_size (event_pool s)) s.
Proof.
  revert s. induction fuel as [|fuel IH]; intros s Hok Hf; [lia|]. cbn [drain_loop].
  apply wpe_bind, wpe_gets. destruct (event_queue s) as [|x q] eqn:Eq; cbn [eq_empty].
  { apply wpe_ret. split_and!; [|done|done]. exists (event_pool s). rewrite <- Eq. by destruct s. }
  unfold queue_pop. apply wpe_bind, wpe_bind, wpe_gets. rewrite Eq. apply wpe_bind. cbn [pop].
  apply wpe_bind, wpe_modify, wpe_ret. cbn [fst snd].
  destruct Hok as [Hp Hnd Ha]. cbn in Hnd. apply NoDup_cons in Hnd as [Hx Hnd].
  assert (Hal : allocated (event_pool s) (ep_index x)) by (apply Ha; by left).
  destruct (deallocate_spec _ _ Hp Hal) as (p' & Ed & [Hp' Hfree Hfr Hpool]).
  apply wpe_bind. eapply wpe_pool_deallocate; [done|].
  eapply wpe_mono.
  { apply (IH (put_event_pool p' (put_event_queue q s))); cbn; [|exact (proj2 (Nat.succ_lt_mono _ _) Hf)].
    split; [done|done|]. intros i. destruct (decide (i = ep_index x)) as [->|Hne]; [tauto|].
    rewrite Hfr, Ha by done. cbn. rewrite elem_of_cons. tauto. }
  intros [] s' ((p2 & ->) & Hok2 & Hsz). split_and!; [by exists p2|done|].
  rewrite Hsz. cbn. unfold pool_size. by rewrite Hpool.
Qed.

Lemma wp_drain_events s :
  pool_queue_ok (event_pool s) (event_queue s) ->
  wp drain_events (fun _ s' =>
    (exists p, s' = put_event_pool p (put_event_queue [] s)) /\
    pool_queue_ok (event_pool s') [] /\ pool_size (event_pool s') = pool_size (event_pool s)) s.
Proof.
  intros Hok. unfold drain_events. apply wpe_bind, wpe_gets. apply wp_drain_loop; [done|lia].
Qed.
(** ** The simulator's own check *)
Lemma wp_check_events H s q q0 u :
  EV H s -> event_queue s = q0 ++ q ->
  (forall ni i, m_find ni u = Some i -> i ∈ q_idx q0 /\ links s !! ni = Some i) ->
  wp (fold_m q u check_event) (fun _ s' => s' = s) s.
Proof.
  intros Hev. revert q0 u. induction q as [|x q IH]; intros q0 u Eq Hu; cbn [fold_m].
  { by apply wpe_ret. }
  assert (Hxq : q_idx (event_queue s) = q_idx q0 ++ ep_index x :: q_idx q).
  { rewrite Eq. unfold q_idx. by rewrite map_app. }
  assert (Ha : allocated (event_pool s) (ep_index x)).
  { apply (ok_alloc _ _ _ _ _ Hev), elem_of_app. left. rewrite Hxq. apply elem_of_app. right. by left. }
  destruct (pool_get_allocated _ _ (proj1 Ha)) as [e He].
  destruct (lookup_lt_is_Some_2 (node_pool s) (ev_node e)) as [n Hn].
  { pose proof (ok_dom _ _ _ _ _ Hev _ _ Ha He) as Hd. unfold links in Hd. by rewrite length_map in Hd. }
  pose proof (links_lookup _ _ _ Hn) as Hl.
  assert (Hnext : forall u', (forall ni i, m_find ni u' = Some i ->
      (i = ep_index x \/ i ∈ q_idx q0) /\ links s !! ni = Some i) ->
    wp (fold_m q u' check_event) (fun _ s' => s' = s) s).
  { intros u' Hu'. apply (IH (q0 ++ [x])); [by rewrite Eq, <- app_assoc|].
    intros ni i Hi. destruct (Hu' ni i Hi) as [Hi' ?]. split; [|done].
    unfold q_idx. rewrite map_app. apply elem_of_app.
    destruct Hi' as [->|]; [right; cbn; by left|by left]. }
  apply wpe_bind. unfold check_event. apply wpe_bind. eapply wpe_get_event; [done|].
  apply wpe_bind. eapply wpe_get_node; [done|]. cbv zeta.
  destruct (killed e) eqn:Hk.
  - apply wpe_bind, wpe_require; [intros _; apply wpe_ret, Hnext; intros ni i Hi;
      destruct (Hu ni i Hi); tauto|].
    intros Hb. apply orb_false_iff in Hb as [H0 H1].
    apply Nat.eqb_neq in H0. apply negb_false_iff, Nat.eqb_eq in H1.
    destruct (ok_link _ _ _ _ _ Hev _ _ Hl H0) as (e' & _ & He' & Hk' & _). congruence.
  - pose proof (ok_live _ _ _ _ _ Hev _ _ Ha He Hk) as Hlk. rewrite Hl in Hlk. injection Hlk as Hlk.
    unfold m_insert. destruct (m_find (ev_node e) u) as [i|] eqn:Hf.
    + exfalso. destruct (Hu _ _ Hf) as [Hi Hli]. rewrite Hl in Hli. injection Hli as Hli.
      pose proof (ok_nodup _ _ _ _ _ Hev) as Hnd. rewrite Hxq in Hnd.
      apply NoDup_app in Hnd as (Hnd & _). apply NoDup_app in Hnd as (_ & Hd & _).
      apply (Hd i Hi). rewrite <- Hli, Hlk. by left.
    + apply wpe_bind, wpe_require.
      * intros _. apply wpe_ret, Hnext. intros ni i. rewrite m_find_set.
        destruct (key_eqb ni (ev_node e)) eqn:Ek.
        -- apply key_eqb_eq in Ek as ->. intros [= <-]. split; [by left|by rewrite Hl, Hlk].
        -- intros Hi. destruct (Hu ni i Hi). tauto.
      * rewrite Hlk, Nat.eqb_refl. apply allocated_pos in Ha.
        rewrite (proj2 (Nat.eqb_neq _ 0)) by done. done.
Qed.

(** ** The next event *)
Lemma first_live_time_spec H s q q0 :
  EV H s -> event_queue s = q0 ++ q ->
  (forall x, x ∈ q0 -> exists e, pool_get (event_pool s) (ep_index x) = Ok e /\ killed e = true) ->
  exists t, first_live_time (event_pool s) q = Ok t /\
    ((forall ni e t', ~ schedule s ni e t') /\ t = real_max \/
     (exists ni e, schedule s ni e t) /\ forall ni e t', schedule s ni e t' -> t_le t t' = true).
Proof.
  intros Hev. revert q0. induction q as [|x q IH]; intros q0 Eq Hk; cbn [first_live_time].
  - exists real_max. split; [done|]. left. split; [|done].
    intros ni e t' (n & Hn & Hp & Hg & Hq). rewrite Eq, app_nil_r in Hq.
    destruct (Hk _ Hq) as (e' & Hg' & Hk'). cbn in Hg'.
    destruct (EV_pending _ _ _ _ Hev Hn Hp) as (e'' & _ & Hg'' & Hk'' & _). congruence.
  - assert (Ha : allocated (event_pool s) (ep_index x)).
    { apply (ok_alloc _ _ _ _ _ Hev), elem_of_app. left. rewrite Eq. unfold q_idx. rewrite map_app.
      apply elem_of_app. right. by left. }
    destruct (pool_get_allocated _ _ (proj1 Ha)) as [e He]. rewrite He.
    destruct (killed e) eqn:Hke; cbn [negb].
    + apply (IH (q0 ++ [x])); [by rewrite Eq, <- app_assoc|]. intros y Hy.
      apply elem_of_app in Hy as [Hy|Hy]; [by apply Hk|].
      apply list_elem_of_singleton in Hy as ->. by exists e.
    + exists (ep_time x). split; [done|]. right.
      pose proof (ok_live _ _ _ _ _ Hev _ _ Ha He Hke) as Hl.
      apply links_lookup_inv in Hl as (n & Hn & Hi).
      assert (Hp : pending_event n = true).
      { unfold pending_event, INVALID_EVENT_INDEX. rewrite Hi.
        apply allocated_pos in Ha. by rewrite (proj2 (Nat.eqb_neq _ 0)). }
      split.
      * exists (ev_node e), e, n. rewrite Hi. split_and!; [done..|].
        rewrite Eq. apply elem_of_app. right. destruct x. by left.
      * intros ni e' t' (n' & Hn' & Hp' & Hg' & Hq').
        rewrite Eq in Hq'. apply elem_of_app in Hq' as [Hq'|Hq'].
        { destruct (Hk _ Hq') as (e2 & Hg2 & Hk2). cbn in Hg2.
          destruct (EV_pending _ _ _ _ Hev Hn' Hp') as (e3 & _ & Hg3 & Hk3 & _). congruence. }
        pose proof (ok_queue _ _ _ _ _ Hev) as [Hok Hs]. rewrite Eq in Hok, Hs.
        apply StronglySorted_app_1_r in Hs. apply Forall_app in Hok as [_ Hok].
        destruct (wf_pop _ x q (conj Hok Hs) eq_refl) as (_ & _ & Hmin).
        rewrite Forall_forall in Hmin. by apply Hmin in Hq'.
Qed.

End Props.

(** ** Moving an event to the front *)
Section Front.
Context {C : Type}.
#[local] Abbreviation State := (State C).
#[local] Abbreviation SM := (M State).
Implicit Types (s : State) (H : list nat).

Lemma pop_due_spec now (q : list (EventPlaceholder real_time)) :
  wf_queue q -> Forall (fun x => t_le now (ep_time x) = true) q ->
  let '(tmp, rest) := pop_due now q in
  q = tmp ++ rest /\ Forall (fun x => t_lt (ep_time x) now = false /\ t_lt now (ep_time x) = false) tmp /\
  Forall (fun x => t_lt now (ep_time x) = true) rest.
Proof.
  induction q as [|x q IH]; intros Hq Hd; cbn [pop_due]; [done|].
  apply Forall_cons in Hd as [Hx Hd]. destruct (wf_pop _ x q Hq eq_refl) as (Hq' & _ & Hmin).
  destruct (real_eqb_due _ _ Hx) as [He1 He2].
  destruct (t_eqb (ep_time x) now) eqn:E.
  - specialize (IH Hq' Hd). destruct (pop_due now q) as [tmp rest]. destruct IH as (-> & Ht & Hr).
    split_and!; [done| |done]. by constructor.
  - split_and!; [done|constructor|]. constructor; [done|].
    apply Forall_cons in Hmin as [_ Hmin]. eapply Forall_impl; [exact Hmin|].
    intros y Hy. unfold q_le in Hy. destruct (t_le_ok _ _ Hx) as [_ Hxo].
    destruct (t_le_ok _ _ Hy) as [_ Hyo].
    destruct (t_lt_cotrans now (ep_time y) (ep_time x) Hyo He2) as [|Hbad]; [done|].
    rewrite t_le_lt in Hy by done. by rewrite Hbad in Hy.
Qed.

Lemma push_behind (pre rest : list (EventPlaceholder real_time)) x :
  Forall (fun y => placeholder_lt x y = false) pre ->
  match rest with [] => True | y :: _ => placeholder_lt x y = true end ->
  push (pre ++ rest) x = pre ++ x :: rest.
Proof.
  unfold push. intros Hp Hr. induction Hp as [|y pre Hy Hp IH]; cbn [app multiset_insert].
  - destruct rest as [|y rest]; cbn [multiset_insert]; [done|]. by rewrite Hr.
  - by rewrite Hy, IH.
Qed.

(** Returning the entries of [tmp] to the queue, from hand. *)
Lemma wp_push_back H tmp pre rest s now :
  EV (q_idx tmp ++ H) s -> event_queue s = pre ++ rest ->
  current_time s = now ->
  Forall (fun x => t_lt (ep_time x) now = false /\ t_lt now (ep_time x) = false /\
                   t_ok (ep_time x) = true) (pre ++ tmp) ->
  Forall (fun x => t_lt now (ep_time x) = true) rest -> t_ok now = true ->
  wp (for_each tmp (fun x => modify (fun s => put_event_queue (push (event_queue s) x) s)))
    (fun _ s' => s' = put_event_queue (pre ++ tmp ++ rest) s /\ EV H s') s.
Proof.
  revert pre s. induction tmp as [|x tmp IH]; intros pre s Hev Eq Hnow Hpre Hrest Hok; cbn [for_each].
  { apply wpe_ret. cbn [app]. rewrite <- Eq. split; [by destruct s|done]. }
  assert (Hx : t_lt (ep_time x) now = false /\ t_lt now (ep_time x) = false /\
               t_ok (ep_time x) = true).
  { rewrite Forall_forall in Hpre. apply Hpre, elem_of_app. right. by left. }
  destruct Hx as (Hx1 & Hx2 & Hxo).
  assert (Epush : push (pre ++ rest) x = (pre ++ [x]) ++ rest).
  { rewrite push_behind, <- app_assoc; [done| |].
    - apply Forall_app in Hpre as [Hpre _]. eapply Forall_impl; [exact Hpre|].
      intros y (Hy1 & Hy2 & Hyo). unfold placeholder_lt.
      apply not_true_is_false. intros Hb. by destruct (t_lt_cotrans _ now _ Hok Hb); congruence.
    - destruct rest as [|y rest]; [done|]. apply Forall_cons in Hrest as [Hy _].
      unfold placeholder_lt. destruct (t_lt_cotrans _ (ep_time x) _ Hxo Hy); congruence. }
  apply wpe_bind, wpe_modify. rewrite Eq, Epush. eapply wpe_mono.
  { apply (IH (pre ++ [x])); [|done|done| |done|done].
    - unfold EV in *. cbn. rewrite <- Epush, <- Eq. destruct x as [tx ix]. cbn [ep_time] in *.
      apply ev_ok_push; [done|]. apply due_le. rewrite Hnow, t_le_lt by done. by rewrite Hx1.
    - by rewrite <- app_assoc. }
  intros [] s' [-> Hev']. rewrite <- app_assoc in *. cbn in *. done.
Qed.

Lemma wp_reschedule_event_now H s ni n :
  EV H s -> node_pool s !! ni = Some n -> is_atomic n = false -> t_ok (current_time s) = true ->
  (pending_event n = true -> n_event_index n ∉ H) ->
  wp (reschedule_event_now ni) (fun err s' =>
    err = negb (pending_event n) /\ EV H s' /\
    (err = true -> s' = s) /\
    (err = false -> exists e t0 j, schedule s ni e t0 /\
       schedule s' ≡ sch_put ni e (current_time s) (schedule s) /\
       event_queue s' = mkPlaceholder (current_time s) j :: event_queue s)) s.
Proof.
  intros Hev Hn Hna Hnow HH. unfold reschedule_event_now. apply wpe_bind. eapply wpe_get_node; [done|].
  destruct (pending_event n) eqn:Hp; [|by apply wpe_ret].
  destruct (schedule_pending _ _ _ _ Hev Hn Hp (HH eq_refl)) as (e & t0 & Hs & _ & _).
  apply wpe_bind. eapply wpe_replace_event; [done..|].
  intros j p' e' Hge Hj Hgj He' Hgk s1 Hev1.
  assert (e' = e) as -> by (destruct Hs as (n' & Hn' & _ & Hg & _); congruence).
  apply wpe_bind, wpe_gets, wpe_bind, wpe_gets. change (event_queue s1) with (event_queue s).
  change (current_time s1) with (current_time s).
  pose proof (pop_due_spec (current_time s) (event_queue s) (ok_queue _ _ _ _ _ Hev)
    (ok_due _ _ _ _ _ Hev)) as Hpop.
  destruct (pop_due (current_time s) (event_queue s)) as [tmp rest].
  destruct Hpop as (Eq & Htmp & Hrest).
  apply wpe_bind, wpe_modify. set (s2 := put_event_queue rest s1).
  pose proof (ok_queue _ _ _ _ _ Hev) as [Hok Hsort]. rewrite Eq in Hok, Hsort.
  apply Forall_app in Hok as [Hok1 Hok2].
  assert (Hev2 : EV (j :: q_idx tmp ++ H) s2).
  { unfold EV. cbn. eapply ev_ok_move; [exact Hev1| | |]; cbn.
    - rewrite Eq. unfold q_idx. rewrite map_app, <- app_assoc.
      rewrite (Permutation_app_comm (map ep_index tmp)), <- !app_assoc. apply Permutation_app_head.
      cbn. constructor. apply Permutation_app_comm.
    - split; [done|by eapply StronglySorted_app_1_r].
    - pose proof (ok_due _ _ _ _ _ Hev) as Hd. rewrite Eq in Hd. by apply Forall_app in Hd as [_ Hd]. }
  assert (Hn1 : node_pool s2 !! ni = Some (set_n_event_index j n)).
  { cbn. apply list_lookup_insert_eq. by eapply lookup_lt_Some. }
  apply wpe_bind. eapply (wpe_enqueue_event _ (q_idx tmp ++ H) _ j e);
    [done|done|by rewrite He'|done|done|done|by apply t_le_refl|].
  intros s3 Hev3.
  assert (Eq3 : event_queue s3 = [mkPlaceholder (current_time s) j] ++ rest).
  { cbn [event_queue s3 put_event_queue]. change (event_queue s2) with rest.
    change rest with ([] ++ rest) at 1. apply push_behind; [constructor|].
    destruct rest as [|y rest']; [done|]. by apply Forall_cons in Hrest as [Hy _]. }
  apply wpe_bind. eapply wpe_mono.
  { apply (wp_push_back H tmp [mkPlaceholder (current_time s) j] rest s3 (current_time s));
      [done|exact Eq3|done| |done|done].
    constructor; [cbn [ep_time]; by rewrite t_lt_irrefl|]. clear -Htmp Hok1.
    rewrite !Forall_forall in *. intros y Hy. destruct (Htmp y Hy). by split_and!; [| |apply Hok1]. }
  intros [] s' [-> Hev']. apply wpe_ret. split_and!; [done|done|done|]. intros _.
  exists e, t0, j. split; [done|]. split; [|cbn; by rewrite Eq].
  transitivity (schedule (put_event_queue (push (event_queue s1) (mkPlaceholder (current_time s) j)) s1)).
  { intros nk ek tk. unfold schedule. cbn [event_pool event_queue node_pool put_event_queue s3 s2].
    setoid_rewrite push_perm. change (event_queue s1) with (event_queue s). rewrite Eq. done. }
  rewrite (schedule_push H s1 j e _ (set_n_event_index j n)) by (rewrite ?He'; done).
  rewrite He'. unfold s1. rewrite (schedule_link s ni n j p'); [by apply sch_put_del|done| |].
  - pose proof (ok_nodup _ _ _ _ _ Hev1) as Hnd. apply NoDup_app in Hnd as (_ & Hd & _).
    intros Hin. apply (Hd j Hin). by left.
  - intros nj m Hne Hm Hpm. apply Hgk.
    + intros Heq. by pose proof (EV_link_inj _ _ _ _ _ _ Hev Hm Hn Hpm Heq).
    + by destruct (EV_pending _ _ _ _ Hev Hm Hpm) as (? & ? & _).
Qed.
End Front.
