(* ===== verification/ScheduleProps.v ===== *)
(** Correctness of the event system: setting, descheduling, rescheduling,
    flushing and draining events refine updates of the abstract schedule and
    keep the invariant [wf_events]. *)
From S2P Require Import Prelude SimTime PullSet Expr EventQueue ArrayPool OrdMap Node ProcGraph.
From S2P Require Import State Events Schedule EventInv EventProps.
From stdpp Require Import sorting.
Open Scope Z_scope.
Local Open Scope hackt_scope.
#[local] Abbreviation length := Datatypes.length.

Section Construct.
Context {C : Type}.

(** The constructor establishes the invariant. *)
Lemma wf_events_construct n ty ids procs frames fast (c : C) :
  wf_events (State_construct n ty ids procs frames fast c).
Proof.
  assert (Hna : forall i, ~ allocated (array_pool_make Event_empty) i).
  { intros i [[H0 H1] _]. cbn in H1. lia. }
  unfold wf_events, EV, State_construct, links. cbn [event_pool event_queue node_pool current_time].
  split.
  - apply wf_make.
  - split; constructor.
  - constructor.
  - intros i. split; [intros Hi; by apply Hna in Hi|intros Hi; by apply elem_of_nil in Hi].
  - intros i e Hi. by apply Hna in Hi.
  - intros i e Hi. by apply Hna in Hi.
  - intros ni i Hi Hi0. rewrite list_lookup_fmap in Hi.
    apply fmap_Some in Hi as (x & Hx & ->). apply lookup_replicate in Hx as [-> _]. done.
  - constructor.
Qed.
End Construct.

Section SetNode.
Context {C : Type}.
#[local] Abbreviation State := (State C).
Implicit Types (s : State) (H : list nat).

(** What [set_node_time] promises: its status, and whether an event is
    scheduled. *)
Definition set_node_outcome (n : NodeState) (val : value_enum) (f : bool)
    : enqueue_status * bool :=
  if is_atomic n then (ENQUEUE_REJECT, false)
  else if pending_event n && negb f then
    (if value_eqb val (n_value n) then ENQUEUE_ACCEPT else ENQUEUE_WARNING, false)
  else if negb (pending_event n) && value_eqb val (n_value n) then (ENQUEUE_ACCEPT, false)
  else if is_frozen n && negb f then (ENQUEUE_WARNING, false)
  else (ENQUEUE_ACCEPT, true).

(** The event of an external set: no rule, no cause, normal strength. *)
Definition external_event (ni : nat) (val : value_enum) (f : bool) : Event :=
  let e := Event_make ni cause_empty INVALID_RULE_INDEX None val false in
  if f then force e else e.

Lemma external_event_node ni val f : ev_node (external_event ni val f) = ni.
Proof. by destruct f. Qed.

Lemma wp_set_node_event H s ni n val t f :
  EV H s -> node_pool s !! ni = Some n -> pending_event n = false -> is_atomic n = false ->
  t_le (current_time s) t = true ->
  wp (set_node_event ni val t f) (fun st s' =>
    st = (if is_frozen n && negb f then ENQUEUE_WARNING else ENQUEUE_ACCEPT) /\
    EV H s' /\ only_events ni n s s' /\
    if is_frozen n && negb f then s' = s
    else schedule s' ≡ sch_put ni (external_event ni val f) t (schedule s)) s.
Proof.
  intros Hev Hn Hp Hna Ht. unfold set_node_event. apply wpe_bind. eapply wpe_get_node; [done|].
  assert (Hif : negb (is_frozen n) || f = negb (is_frozen n && negb f)) by (by destruct (is_frozen n), f).
  rewrite Hif. destruct (is_frozen n && negb f) eqn:Hff; cbn [negb].
  { apply wpe_ret. split_and!; [done|done|by apply only_events_refl|done]. }
  apply wpe_bind. eapply wpe___allocate_event_new; [done|done|done| |].
  { destruct (is_frozen n); [right; by destruct f|by left]. }
  change (if f then _ else _) with (external_event ni val f). cbv zeta.
  intros i p' Hi Hg Hgf Hev1.
  set (s1 := put_node_pool (<[ni := set_n_event_index i n]> (node_pool s)) (put_event_pool p' s)) in *.
  assert (Hlt : (ni < length (node_pool s))%nat) by (by eapply lookup_lt_Some).
  assert (Hn1 : node_pool s1 !! ni = Some (set_n_event_index i n)) by (by apply list_lookup_insert_eq).
  apply wpe_bind. eapply (wpe_enqueue_event _ H t i (external_event ni val f));
    [done|done|by rewrite external_event_node|done|done|done|done|].
  intros s2 Hev2. apply wpe_ret. split_and!; [done|done| |].
  { by exists p', (push (event_queue s) (mkPlaceholder t i)), i. }
  unfold s2. rewrite (schedule_push H s1 i _ t (set_n_event_index i n)) by
    (rewrite ?external_event_node; done).
  rewrite external_event_node. unfold s1. rewrite (schedule_link s ni n i p'); [by apply sch_put_del|done| |].
  - pose proof (ok_nodup _ _ _ _ _ Hev1) as Hnd. apply NoDup_app in Hnd as (_ & Hd & _).
    intros Hin. apply (Hd i Hin). by left.
  - intros nj m Hne Hm Hpm. apply Hgf. by destruct (EV_pending _ _ _ _ Hev Hm Hpm) as (? & ? & _).
Qed.

Lemma wp_set_node_time H s ni n val t f :
  EV H s -> node_pool s !! ni = Some n -> t_le (current_time s) t = true ->
  wp (set_node_time ni val t f) (fun st s' =>
    st = (set_node_outcome n val f).1 /\ EV H s' /\ only_events ni n s s' /\
    if (set_node_outcome n val f).2
    then schedule s' ≡ sch_put ni (external_event ni val f) t (schedule s)
    else s' = s) s.
Proof.
  intros Hev Hn Ht. unfold set_node_time, set_node_outcome.
  pose proof (only_events_refl _ _ _ Hn) as Hrefl.
  apply wpe_bind. eapply wpe_get_node; [done|].
  destruct (is_atomic n) eqn:Hna; [by apply wpe_ret|].
  destruct (pending_event n) eqn:Hp; cbn [negb andb].
  - destruct (EV_pending _ _ _ _ Hev Hn Hp) as (e & _ & Hg & _).
    apply wpe_bind. eapply wpe_get_event; [done|].
    destruct f; cbn [negb].
    + rewrite andb_false_r. cbn. apply wpe_bind. eapply wpe_kill_event; [done..|].
      intros p' Hgj _ s1 Hev1. assert (Hlt : (ni < length (node_pool s))%nat) by (by eapply lookup_lt_Some).
      eapply wpe_mono.
      { apply (wp_set_node_event H s1 ni (clear_event n) val t true); try done.
        cbn. by apply list_lookup_insert_eq. }
      cbn beta. rewrite andb_false_r. intros st s' (-> & Hev' & (p & q & k & ->) & Hsch).
      split_and!; [done|done| |].
      * exists p, q, k. unfold s1. cbn. rewrite list_insert_insert_eq. by destruct n.
      * rewrite Hsch. unfold s1. rewrite (schedule_kill H s ni n p') by done. apply sch_put_del.
    + destruct (value_eqb val (n_value n)); by apply wpe_ret.
  - destruct (value_eqb val (n_value n)); [by apply wpe_ret|].
    eapply wpe_mono; [by apply wp_set_node_event|].
    intros st s' (-> & ? & ? & ?). by destruct (is_frozen n && negb f).
Qed.
End SetNode.

(** ** A state with pending events, for the examples *)
Section Example.
Definition ex_empty : State unit := State_construct 3 [] [] [] [] false tt.
Definition ex_run {A} (m : M (State unit) A) (s : State unit) : State unit :=
  match m s with Ok (_, s') => s' | Err _ => s end.
Definition ex_t5 : real_time := double_of_Z 5 0.
Definition ex_t7 : real_time := double_of_Z 7 0.
(** Node 1 goes high at 5, then is overridden to low at 7; node 2 goes high at 7. *)
Definition ex_s1 : State unit := ex_run (set_node_time 1 LOGIC_HIGH ex_t5 false) ex_empty.
Definition ex_s2 : State unit := ex_run (set_node_time 2 LOGIC_HIGH ex_t7 false) ex_s1.
Definition ex_s3 : State unit := ex_run (set_node_time 1 LOGIC_LOW ex_t7 true) ex_s2.

Lemma ex_set_wf ni val t f (s : State unit) :
  wf_events s -> is_Some (node_pool s !! ni) -> t_le (current_time s) t = true ->
  wf_events (ex_run (set_node_time ni val t f) s).
Proof.
  intros Hwf [n Hn] Ht. pose proof (wp_set_node_time [] s ni n val t f Hwf Hn Ht) as Hw.
  apply wp_total in Hw as (st & s' & E & _ & Hev & _). unfold ex_run. by rewrite E.
Qed.
Lemma ex_s1_wf : wf_events ex_s1.
Proof. apply ex_set_wf; [apply wf_events_construct|by eexists|done]. Qed.
Lemma ex_s2_wf : wf_events ex_s2.
Proof. apply ex_set_wf; [apply ex_s1_wf|by eexists|done]. Qed.
Lemma ex_s3_wf : wf_events ex_s3.
Proof. apply ex_set_wf; [apply ex_s2_wf|by eexists|done]. Qed.
End Example.

(** ** Properties *)
Section Theorems.
Context {C : Type}.
#[local] Abbreviation State := (State C).
Implicit Types (s : State).

(** C21: set_node_time on a well-formed state never fails an assertion, and
    behaves as the table [set_node_outcome] says: atomic nodes are rejected, a
    pending event wins over an unforced set (silently if the value is the
    current one), vacuous sets are dropped, frozen nodes resist unforced sets;
    otherwise the new event replaces whatever was scheduled for the node, at
    time [t], and nothing else of the schedule or of the nodes changes. *)
Theorem set_node_time_correct s ni n val t f :
  wf_events s -> node_pool s !! ni = Some n -> t_le (current_time s) t = true ->
  exists st s', set_node_time ni val t f s = Ok (st, s') /\ wf_events s' /\
    st = (set_node_outcome n val f).1 /\ only_events ni n s s' /\
    if (set_node_outcome n val f).2
    then schedule s' ≡ sch_put ni (external_event ni val f) t (schedule s)
    else s' = s.
Proof.
  intros Hwf Hn Ht. pose proof (wp_set_node_time [] s ni n val t f Hwf Hn Ht) as Hw.
  apply wp_total in Hw as (st & s' & E & Hst & Hev & Ho & Hs). exists st, s'. done.
Qed.

(** [reschedule_event] on a well-formed state moves the pending event of a
    node to time [t] unless [t] is in the past or nothing is pending, when it
    signals an error and changes nothing; the old entry stays in the queue,
    killed, and does not show in the schedule. *)
Theorem reschedule_event_correct s ni n t :
  wf_events s -> node_pool s !! ni = Some n -> is_atomic n = false ->
  t_ok t = true -> t_ok (current_time s) = true ->
  exists err s', reschedule_event ni t s = Ok (err, s') /\ wf_events s' /\
    err = t_lt t (current_time s) || negb (pending_event n) /\
    (err = true -> s' = s) /\
    (err = false -> exists e t0, schedule s ni e t0 /\ schedule s' ≡ sch_put ni e t (schedule s)).
Proof.
  intros Hwf Hn Hna Ht Hnow.
  assert (Hw := wp_reschedule_event [] s ni n t Hwf Hn Hna Ht Hnow (fun _ => not_elem_of_nil _)).
  apply wp_total in Hw as (err & s' & E & He & Hev & _ & H1 & _ & H2). exists err, s'. split_and!; try done.
  intros Hf. destruct (H2 Hf) as (e & t0 & j & ? & ? & _). by exists e, t0.
Qed.

(** Reschedule_event_now makes the pending event of a node the first of
    the queue, due now, in front of the events that were already due now and
    that keep their order. *)
Theorem reschedule_event_now_first s ni n :
  wf_events s -> node_pool s !! ni = Some n -> is_atomic n = false -> pending_event n = true ->
  t_ok (current_time s) = true ->
  exists s' e t0 j, reschedule_event_now ni s = Ok (false, s') /\ wf_events s' /\
    schedule s ni e t0 /\ schedule s' ≡ sch_put ni e (current_time s) (schedule s) /\
    event_queue s' = mkPlaceholder (current_time s) j :: event_queue s.
Proof.
  intros Hwf Hn Hna Hp Hnow.
  assert (Hw := wp_reschedule_event_now [] s ni n Hwf Hn Hna Hnow (fun _ => not_elem_of_nil _)).
  apply wp_total in Hw as (err & s' & E & He & Hev & _ & H2). rewrite Hp in He. subst err.
  destruct (H2 eq_refl) as (e & t0 & j & ? & ? & ?). by exists s', e, t0, j.
Qed.

(** Deschedule_event removes the pending event of a node from the
    schedule, or reports that there is none. *)
Theorem deschedule_event_correct s ni n :
  wf_events s -> node_pool s !! ni = Some n ->
  exists err s', deschedule_event ni s = Ok (err, s') /\ wf_events s' /\
    err = negb (pending_event n) /\ schedule s' ≡ sch_del ni (schedule s).
Proof.
  intros Hwf Hn. pose proof (wp_deschedule_event [] s ni n Hwf Hn) as Hw.
  apply wp_total in Hw as (err & s' & E & He & Hev & Hs). by exists err, s'.
Qed.

(** flush_killed_events terminates, returns killed events at the front of
    the queue to the pool and stops at a live event or an empty queue; no
    pending event is lost and nothing but the pool and the queue changes. *)
Theorem flush_killed_events_correct s :
  wf_events s ->
  exists s', flush_killed_events s = Ok (tt, s') /\ wf_events s' /\
    schedule s' ≡ schedule s /\ front_live s' /\
    exists p q, s' = put_event_pool p (put_event_queue q s).
Proof.
  intros Hwf. pose proof (wp_flush_killed_events [] s Hwf) as Hw.
  apply wp_total in Hw as ([] & s' & E & Hev & Hs & Hf & _ & Hpq). by exists s'.
Qed.

(** emptying the queue of a well-formed state returns every event to the
    pool: nothing stays allocated, and the emptiness check of
    __initialize_state and of the destructor holds (the pool holds less than
    2^64 events). *)
Theorem drain_events_returns_all s :
  wf_events s -> (Z.of_nat (pool_size (event_pool s)) < 2 ^ 64)%Z ->
  exists s', drain_events s = Ok (tt, s') /\ event_queue s' = [] /\
    (forall i, ~ allocated (event_pool s') i) /\ check_valid_empty (event_pool s') = true /\
    exists p, s' = put_event_pool p (put_event_queue [] s).
Proof.
  intros Hwf Hsz. pose proof (wp_drain_events s (EV_pool_queue _ Hwf)) as Hw.
  apply wp_total in Hw as ([] & s' & E & (p & ->) & [Hp Hnd Ha] & Hsz').
  assert (Hna : forall i, ~ allocated (event_pool (put_event_pool p (put_event_queue [] s))) i).
  { intros i Hi. apply Ha in Hi. by apply elem_of_nil in Hi. }
  eexists. split_and!; [exact E|done|exact Hna| |by exists p].
  apply check_valid_empty_iff; [done| |done]. by rewrite Hsz'.
Qed.

(** The simulator's own consistency check of the event queue passes on
    every well-formed state, without changing it. *)
Theorem check_event_queue_passes s :
  wf_events s -> check_event_queue s = Ok (tt, s).
Proof.
  intros Hwf. assert (Hw : wp check_event_queue (fun _ s' => s' = s) s).
  { unfold check_event_queue. apply wpe_bind, wpe_gets, wpe_bind.
    apply (wpe_mono _ _ (fun _ s' => s' = s)); [|intros u s' ->; by apply wpe_ret].
    apply (wp_check_events [] s _ []); [done| |by intros ??]. symmetry. exact (List.map_id _). }
  apply wp_total in Hw as ([] & s' & E & ->). exact E.
Qed.

(** Next_event_time is the earliest time at which a live event is
    scheduled, and the largest time if none is. *)
Theorem next_event_time_earliest s :
  wf_events s ->
  exists t, next_event_time s = Ok (t, s) /\
    ((forall ni e t', ~ schedule s ni e t') /\ t = real_max \/
     (exists ni e, schedule s ni e t) /\ forall ni e t', schedule s ni e t' -> t_le t t' = true).
Proof.
  intros Hwf. destruct (first_live_time_spec [] s (event_queue s) [] Hwf eq_refl) as (t & E & Ht).
  { intros x Hx. by apply elem_of_nil in Hx. }
  exists t. split; [|done]. unfold next_event_time, bind, gets, lift_res. cbn. by rewrite E.
Qed.
End Theorems.

Lemma set_node_time_correct_witness :
  exists st s', set_node_time 1 LOGIC_LOW ex_t7 true ex_s2 = Ok (st, s') /\ wf_events s' /\
    exists n, st = (set_node_outcome n LOGIC_LOW true).1 /\ only_events 1 n ex_s2 s' /\
    if (set_node_outcome n LOGIC_LOW true).2
    then schedule s' ≡ sch_put 1 (external_event 1 LOGIC_LOW true) ex_t7 (schedule ex_s2)
    else s' = ex_s2.
Proof.
  destruct (node_pool ex_s2 !! 1%nat) as [n|] eqn:Hn; [|vm_compute in Hn; discriminate].
  destruct (set_node_time_correct ex_s2 1 n LOGIC_LOW ex_t7 true ex_s2_wf Hn eq_refl)
    as (st & s' & ? & ? & ? & ? & ?).
  exists st, s'. split; [assumption|]. split; [assumption|]. exists n. split_and!; assumption.
Defined.

Lemma reschedule_event_correct_witness :
  exists err s', reschedule_event 1 ex_t7 ex_s2 = Ok (err, s') /\ wf_events s' /\ err = false.
Proof.
  destruct (node_pool ex_s2 !! 1%nat) as [n|] eqn:Hn; [|vm_compute in Hn; discriminate].
  assert (Hf : is_atomic n = false /\ pending_event n = true).
  { vm_compute in Hn. injection Hn as <-. done. }
  destruct (reschedule_event_correct ex_s2 1 n ex_t7 ex_s2_wf Hn (proj1 Hf) eq_refl eq_refl)
    as (err & s' & ? & ? & He & _).
  exists err, s'. split_and!; [assumption..|]. rewrite He, (proj2 Hf). reflexivity.
Defined.

Lemma reschedule_event_now_first_witness :
  exists s' j, reschedule_event_now 2 ex_s3 = Ok (false, s') /\ wf_events s' /\
    event_queue s' = mkPlaceholder (current_time ex_s3) j :: event_queue ex_s3.
Proof.
  destruct (node_pool ex_s3 !! 2%nat) as [n|] eqn:Hn; [|vm_compute in Hn; discriminate].
  assert (Hf : is_atomic n = false /\ pending_event n = true).
  { vm_compute in Hn. injection Hn as <-. done. }
  destruct (reschedule_event_now_first ex_s3 2 n ex_s3_wf Hn (proj1 Hf) (proj2 Hf) eq_refl)
    as (s' & e & t0 & j & ? & ? & ? & ? & ?).
  exists s', j. split_and!; assumption.
Defined.

Lemma deschedule_event_correct_witness :
  exists s', deschedule_event 1 ex_s3 = Ok (false, s') /\ wf_events s' /\
    schedule s' ≡ sch_del 1 (schedule ex_s3).
Proof.
  destruct (node_pool ex_s3 !! 1%nat) as [n|] eqn:Hn; [|vm_compute in Hn; discriminate].
  assert (Hp : pending_event n = true) by (vm_compute in Hn; by injection Hn as <-).
  destruct (deschedule_event_correct ex_s3 1 n ex_s3_wf Hn) as (err & s' & E & ? & He & ?).
  rewrite Hp in He. subst err. exists s'. split_and!; assumption.
Defined.

Lemma flush_killed_events_correct_witness :
  exists s', flush_killed_events ex_s3 = Ok (tt, s') /\ wf_events s' /\
    schedule s' ≡ schedule ex_s3 /\ front_live s' /\
    exists p q, s' = put_event_pool p (put_event_queue q ex_s3).
Proof. apply (flush_killed_events_correct ex_s3), ex_s3_wf. Defined.

Lemma drain_events_returns_all_witness :
  exists s', drain_events ex_s3 = Ok (tt, s') /\ event_queue s' = [] /\
    (forall i, ~ allocated (event_pool s') i) /\ check_valid_empty (event_pool s') = true /\
    exists p, s' = put_event_pool p (put_event_queue [] ex_s3).
Proof. apply (drain_events_returns_all ex_s3); [apply ex_s3_wf|done]. Defined.

Lemma check_event_queue_passes_witness : check_event_queue ex_s3 = Ok (tt, ex_s3).
Proof. apply (check_event_queue_passes ex_s3), ex_s3_wf. Defined.

Lemma next_event_time_earliest_witness :
  exists t, next_event_time ex_s3 = Ok (t, ex_s3) /\
    ((forall ni e t', ~ schedule ex_s3 ni e t') /\ t = real_max \/
     (exists ni e, schedule ex_s3 ni e t) /\
     forall ni e t', schedule ex_s3 ni e t' -> t_le t t' = true).
Proof. apply (next_event_time_earliest ex_s3), ex_s3_wf. Defined.
