(* ===== verification/DequeueProps.v ===== *)
(** Correctness of [dequeue_event]: minimum-delay constraints are the maximum
    of the constraint times of a node, each event is delayed at most once, so
    that the loop terminates, and events are taken in the order of their
    effective times. *)
From S2P Require Import Prelude SimTime PullSet Expr EventQueue ArrayPool OrdMap Node ProcGraph.
From S2P Require Import State Events Schedule EventInv EventProps ScheduleProps.
From stdpp Require Import sorting.
Open Scope Z_scope.
Local Open Scope hackt_scope.
#[local] Abbreviation length := Datatypes.length.

Section Dequeue.
Context {C : Type}.
#[local] Abbreviation State := (State C).
Implicit Types (s : State) (c : applied_min_delay_constraint) (P : real_time -> Prop).

(** ** Minimum-delay constraints *)

(** The reference [i] of a frame, and its node. *)
Definition frame_at s (bfm : list nat) (i : nat) (gi : nat) (n : NodeState) : Prop :=
  i <> 0%nat /\ bfm !! (i - 1)%nat = Some gi /\ node_pool s !! gi = Some n.

(** The structure that the back-annotated delays build, and the lookups of
    [node_event_min_delay] rely on. *)
Definition entry_ok s (bfm : list nat) (di : nat * min_delay_entry) : Prop :=
  (exists gi n, frame_at s bfm di.1 gi n) /\
  forall rd td, md_predicate di.2 rd td <> 0%nat ->
    exists gi n, frame_at s bfm (md_predicate di.2 rd td) gi n.
Definition process_ok s (ni pid : nat) : Prop :=
  exists ps g bfm, process_state_array s !! pid = Some ps /\
    unique_process_pool s !! ps_type ps = Some g /\ footprint_frames s !! pid = Some bfm /\
    forall j, bfm !! j = Some ni ->
      exists f, m_find (S j) (min_delays g) = Some f /\ Forall (entry_ok s bfm) f.
Definition min_delays_ok s : Prop :=
  forall ni n, node_pool s !! ni = Some n -> is_min_delay_target n = true ->
    exists ptf, m_find ni (timing_fanin s) = Some ptf /\ Forall (process_ok s ni) ptf.

(** The times that constrain a transition of node [ni] in direction [td]. *)
Definition entry_time s (bfm : list nat) (td : bool) (di : nat * min_delay_entry) (m : real_time)
    : Prop :=
  exists gi r, frame_at s bfm di.1 gi r /\ n_value r <> LOGIC_OTHER /\
    let rd := value_eqb (n_value r) LOGIC_HIGH in
    (md_predicate di.2 rd td <> 0%nat ->
     forall gp p, frame_at s bfm (md_predicate di.2 rd td) gp p -> n_value p <> LOGIC_LOW) /\
    t_le real_zero (get_last_edge_time r (n_value r)) = true /\
    m = t_add (get_last_edge_time r (n_value r)) (md_time di.2 rd td).
Definition process_time s (ni : nat) (td : bool) (pid : nat) (m : real_time) : Prop :=
  exists ps g bfm j f di, process_state_array s !! pid = Some ps /\
    unique_process_pool s !! ps_type ps = Some g /\ footprint_frames s !! pid = Some bfm /\
    bfm !! j = Some ni /\ m_find (S j) (min_delays g) = Some f /\ di ∈ f /\ entry_time s bfm td di m.
Definition constraint_time s (ni : nat) (val : value_enum) (m : real_time) : Prop :=
  exists n ptf pid, node_pool s !! ni = Some n /\ is_min_delay_target n = true /\
    val <> LOGIC_OTHER /\ m_find ni (timing_fanin s) = Some ptf /\ pid ∈ ptf /\
    process_time s ni (value_eqb val LOGIC_HIGH) pid m.

(** [c'] is the maximum of [c] and the times in [P]. *)
Record max_post c c' P : Prop := {
  mp_from : (time c' = time c /\ delayed c' = delayed c) \/
            (P (time c') /\ delayed c' = true /\ t_lt (time c) (time c') = true);
  mp_above : forall m, P m -> t_lt (time c') m = false
}.

Lemma max_post_none c P : (forall m, ~ P m) -> max_post c c P.
Proof. intros Hn. split; [by left|]. intros m Hm. by apply Hn in Hm. Qed.

Lemma max_post_iff c c' P Q : (forall m, P m <-> Q m) -> max_post c c' P -> max_post c c' Q.
Proof.
  intros HPQ [Hf Ha]. split; [|intros m Hm; by apply Ha, HPQ].
  destruct Hf as [Hf|(Hp & Hf)]; [by left|right]. by rewrite <- HPQ.
Qed.

Lemma max_post_trans c1 c2 c3 P Q :
  max_post c1 c2 P -> max_post c2 c3 Q -> max_post c1 c3 (fun m => P m \/ Q m).
Proof.
  intros [Hf1 Ha1] [Hf2 Ha2]. split.
  - destruct Hf2 as [[Et Ed]|(Hq & Hd & Hlt)]; [rewrite Et, Ed|].
    + destruct Hf1 as [|(Hp & Hf1)]; [by left|right; tauto].
    + right. split; [tauto|]. split; [done|]. destruct Hf1 as [[Et _]|(_ & _ & Hlt')].
      * by rewrite <- Et.
      * by eapply t_lt_trans.
  - intros m [Hm|Hm]; [|by apply Ha2]. specialize (Ha1 _ Hm).
    destruct Hf2 as [[Et _]|(_ & _ & Hlt)]; [by rewrite Et|].
    apply not_true_is_false. intros Hb. pose proof (t_lt_trans _ _ _ Hlt Hb). congruence.
Qed.

(** Folding a maximum over a list. *)
Lemma wp_fold_max {A} (l : list A) (body : applied_min_delay_constraint -> A -> M State _)
    (P : A -> real_time -> Prop) c s :
  (forall x c, x ∈ l -> wp (body c x) (fun c' s' => s' = s /\ max_post c c' (P x)) s) ->
  wp (fold_m l c body) (fun c' s' => s' = s /\ max_post c c' (fun m => exists x, x ∈ l /\ P x m)) s.
Proof.
  revert c. induction l as [|x l IH]; intros c Hb; cbn [fold_m].
  { apply wpe_ret. split; [done|]. apply max_post_none. intros m (x & Hx & _). by apply elem_of_nil in Hx. }
  apply wpe_bind. eapply wpe_mono; [apply Hb; by left|]. intros c1 s1 [-> H1].
  eapply wpe_mono; [apply IH; intros y c' Hy; apply Hb; by right|]. intros c2 s2 [-> H2].
  split; [done|]. eapply max_post_iff; [|exact (max_post_trans _ _ _ _ _ H1 H2)].
  intros m. setoid_rewrite elem_of_cons. split.
  - intros [Hp|(y & Hy & Hp)]; [exists x|exists y]; tauto.
  - intros (y & [->|Hy] & Hp); [by left|right; by exists y].
Qed.

Lemma wp_frame_node s bfm i gi n : frame_at s bfm i gi n ->
  forall Q : nat -> State -> Prop, Q gi s -> wp (frame_node bfm i) Q s.
Proof.
  intros (Hi & Hb & _) Q HQ. unfold frame_node.
  apply wpe_bind, wpe_require; [intros _|intros Hz; by apply negb_false_iff, Nat.eqb_eq in Hz].
  apply wpe_of_option; [|by rewrite Hb]. intros a Ha. rewrite Hb in Ha. by injection Ha as <-.
Qed.

Lemma frame_at_fun s bfm i gi n gi' n' :
  frame_at s bfm i gi n -> frame_at s bfm i gi' n' -> gi = gi' /\ n = n'.
Proof. intros (_ & H1 & H2) (_ & H3 & H4). rewrite H1 in H3. injection H3 as <-. split; congruence. Qed.

Lemma wp_apply_constraint s bfm td c di :
  entry_ok s bfm di ->
  wp (apply_constraint bfm td c di) (fun c' s' => s' = s /\ max_post c c' (entry_time s bfm td di)) s.
Proof.
  intros [(gi & r & Hf) Hpred]. unfold apply_constraint.
  apply wpe_bind. eapply wp_frame_node; [exact Hf|].
  apply wpe_bind. eapply wpe_get_node; [apply Hf|].
  destruct (value_eqb (n_value r) LOGIC_OTHER) eqn:Hv.
  { destruct (n_value r) eqn:Ev; try done. apply wpe_ret. split; [done|]. apply max_post_none.
    intros m (gi' & r' & Hf' & Hr & _). destruct (frame_at_fun _ _ _ _ _ _ _ Hf Hf') as [_ <-].
    by rewrite Ev in Hr. }
  assert (Hno : n_value r <> LOGIC_OTHER) by (by destruct (n_value r)).
  set (rd := value_eqb (n_value r) LOGIC_HIGH).
  set (past := get_last_edge_time r (n_value r)).
  set (pni := md_predicate di.2 rd td).
  set (mt := t_add past (md_time di.2 rd td)).
  assert (Hbody : wp (applies <- (if negb (Nat.eqb pni 0) then
      gpr <- frame_node bfm pni ;; p <- get_node gpr ;; ret (negb (value_eqb (n_value p) LOGIC_LOW))
      else ret true) ;;
    ret (if applies && t_le real_zero past && t_lt (time c) mt then mkApplied true gi mt else c))
    (fun c' s' => s' = s /\ max_post c c' (entry_time s bfm td di)) s).
  { set (applies_ok := fun b : bool => b = true <-> (pni <> 0%nat ->
      forall gp p, frame_at s bfm pni gp p -> n_value p <> LOGIC_LOW)).
    apply wpe_bind. apply (wpe_mono _ _ (fun b s' => s' = s /\ applies_ok b)).
    - destruct (Nat.eqb_spec pni 0) as [Hp|Hp]; cbn [negb].
      + apply wpe_ret. split; [done|]. split; [intros _ Hn; done|done].
      + destruct (Hpred rd td Hp) as (gp & p & Hfp).
        apply wpe_bind. eapply wp_frame_node; [exact Hfp|].
        apply wpe_bind. eapply wpe_get_node; [apply Hfp|]. apply wpe_ret. split; [done|].
        unfold applies_ok. rewrite negb_true_iff. split.
        * intros Hl _ gp' p' Hfp'. destruct (frame_at_fun _ _ _ _ _ _ _ Hfp Hfp') as [_ <-].
          by destruct (n_value p).
        * intros Hl. specialize (Hl Hp _ _ Hfp). by destruct (n_value p).
    - intros b s' [-> Hb]. apply wpe_ret. split; [done|].
      assert (Het : forall m, entry_time s bfm td di m <->
        (b && t_le real_zero past = true) /\ m = mt).
      { unfold applies_ok in Hb. intros m. rewrite andb_true_iff, Hb. split.
        - intros (gi' & r' & Hf' & Hr & Hp & Hle & Hm).
          destruct (frame_at_fun _ _ _ _ _ _ _ Hf Hf') as [<- <-]. done.
        - intros [[Hp Hle] ->]. by exists gi, r. }
      eapply max_post_iff; [intros m; symmetry; apply Het|].
      destruct (b && t_le real_zero past); cbn [andb].
      + destruct (t_lt (time c) mt) eqn:Hlt; split; cbn [time delayed].
        * by right.
        * intros m [_ ->]. apply t_lt_irrefl.
        * by left.
        * by intros m [_ ->].
      + apply max_post_none. by intros m [? _]. }
  destruct (n_value r); [exact Hbody|exact Hbody|done].
Qed.

Lemma wp_min_delay_of_process s ni td c pid :
  process_ok s ni pid ->
  wp (min_delay_of_process ni td c pid)
    (fun c' s' => s' = s /\ max_post c c' (process_time s ni td pid)) s.
Proof.
  intros (ps & g & bfm & Hps & Hg & Hb & Hj). unfold min_delay_of_process.
  apply wpe_bind. unfold get_process_state. apply wpe_bind, wpe_gets, wpe_of_option;
    [intros x Hx; rewrite Hps in Hx; injection Hx as <-|by rewrite Hps].
  apply wpe_bind. unfold get_type. apply wpe_bind, wpe_gets, wpe_of_option;
    [intros x Hx; rewrite Hg in Hx; injection Hx as <-|by rewrite Hg].
  apply wpe_bind. unfold get_footprint_frame_map. apply wpe_bind, wpe_gets, wpe_of_option;
    [intros x Hx; rewrite Hb in Hx; injection Hx as <-|by rewrite Hb].
  eapply wpe_mono.
  { apply (wp_fold_max _ _ (fun j m => bfm !! j = Some ni /\ exists f di,
      m_find (S j) (min_delays g) = Some f /\ di ∈ f /\ entry_time s bfm td di m)).
    intros j c1 _. destruct (bfm !! j) as [k|] eqn:Hk; [destruct (Nat.eqb_spec k ni) as [->|Hne]|].
    - destruct (Hj j Hk) as (f & Hf & Hok).
      apply wpe_bind, wpe_of_option; [intros x Hx; rewrite Hf in Hx; injection Hx as <-|by rewrite Hf].
      eapply wpe_mono.
      { apply (wp_fold_max f _ (entry_time s bfm td)). intros di c2 Hdi.
        apply wp_apply_constraint. by eapply Forall_forall in Hok. }
      intros c2 s2 [-> H2]. split; [done|]. eapply max_post_iff; [|exact H2]. intros m. split.
      + intros (di & Hdi & Ht). split; [done|]. by exists f, di.
      + intros (_ & f' & di & Hf' & Hdi & Ht). rewrite Hf in Hf'. injection Hf' as <-. by exists di.
    - apply wpe_ret. split; [done|]. apply max_post_none. intros m ([= ?] & _). done.
    - apply wpe_ret. split; [done|]. apply max_post_none. by intros m (? & _). }
  intros c' s' [-> H]. split; [done|]. eapply max_post_iff; [|exact H]. intros m. split.
  - intros (j & _ & Hk & f & di & ?). by exists ps, g, bfm, j, f, di.
  - intros (ps' & g' & bfm' & j & f & di & Hps' & Hg' & Hb' & Hk & Hrest).
    assert (ps' = ps) as -> by congruence. assert (g' = g) as -> by congruence.
    assert (bfm' = bfm) as -> by congruence. exists j. split.
    + apply elem_of_seq. apply lookup_lt_Some in Hk. lia.
    + split; [done|]. by exists f, di.
Qed.

Lemma wp_node_event_min_delay s ni n val :
  min_delays_ok s -> node_pool s !! ni = Some n ->
  wp (node_event_min_delay ni val) (fun c s' => s' = s /\
    max_post (mkApplied false INVALID_NODE_INDEX (current_time s)) c (constraint_time s ni val)) s.
Proof.
  intros Hok Hn. unfold node_event_min_delay. apply wpe_bind, wpe_gets, wpe_bind.
  eapply wpe_get_node; [done|]. cbv zeta. destruct (is_min_delay_target n) eqn:Ht; cbn [andb].
  2: { apply wpe_ret. split; [done|]. apply max_post_none.
       intros m (n' & ptf & pid & Hn' & Ht' & _). congruence. }
  destruct (value_eqb val LOGIC_OTHER) eqn:Hv; cbn [negb].
  { apply wpe_ret. split; [done|]. apply max_post_none. intros m (n' & ptf & pid & _ & _ & Hno & _).
    by destruct val. }
  destruct (Hok _ _ Hn Ht) as (ptf & Hptf & Hall).
  apply wpe_bind. unfold lookup_process_timing_fanin. apply wpe_bind, wpe_gets, wpe_ret.
  apply wpe_bind, wpe_of_option; [intros x Hx; rewrite Hptf in Hx; injection Hx as <-|by rewrite Hptf].
  eapply wpe_mono.
  { apply (wp_fold_max ptf _ (process_time s ni (value_eqb val LOGIC_HIGH))). intros pid c1 Hp.
    apply wp_min_delay_of_process. by eapply Forall_forall in Hall. }
  intros c s' [-> H]. split; [done|]. eapply max_post_iff; [|exact H]. intros m. split.
  - intros (pid & Hp & Hm). exists n, ptf, pid. split_and!; try done. by destruct val.
  - intros (n' & ptf' & pid & Hn' & _ & _ & Hptf' & Hp & Hm). exists pid.
    rewrite Hptf in Hptf'. by injection Hptf' as <-.
Qed.

(** ** What dequeueing leaves alone *)
Definition sched_frame s s' : Prop :=
  exists np p q t, s' = put_node_pool np (put_event_pool p (put_event_queue q (put_current_time t s))) /\
    map clear_event np = map clear_event (node_pool s).

Lemma sched_frame_refl s : sched_frame s s.
Proof.
  exists (node_pool s), (event_pool s), (event_queue s), (current_time s). split; [by destruct s|done].
Qed.
Lemma sched_frame_trans s1 s2 s3 : sched_frame s1 s2 -> sched_frame s2 s3 -> sched_frame s1 s3.
Proof.
  intros (np & p & q & t & -> & E) (np' & p' & q' & t' & -> & E').
  exists np', p', q', t'. split; [done|]. by rewrite E', <- E.
Qed.
Lemma sched_frame_put s p q : sched_frame s (put_event_pool p (put_event_queue q s)).
Proof. exists (node_pool s), p, q, (current_time s). split; [by destruct s|done]. Qed.
Lemma sched_frame_time s t : sched_frame s (put_current_time t s).
Proof. exists (node_pool s), (event_pool s), (event_queue s), t. split; [by destruct s|done]. Qed.
Lemma sched_frame_only ni n s s' : node_pool s !! ni = Some n -> only_events ni n s s' -> sched_frame s s'.
Proof.
  intros Hn (p & q & k & ->). eexists _, p, q, (current_time s). split; [by destruct s|].
  rewrite list_fmap_insert. apply list_insert_id. rewrite list_lookup_fmap, Hn. reflexivity.
Qed.

Lemma sched_frame_node s s' i n' : sched_frame s s' -> node_pool s' !! i = Some n' ->
  exists n, node_pool s !! i = Some n /\ clear_event n' = clear_event n.
Proof.
  intros (np & p & q & t & -> & E) Hn. cbn in Hn.
  pose proof (f_equal (fun l => l !! i) E) as El. cbn in El. rewrite !list_lookup_fmap, Hn in El.
  destruct (node_pool s !! i) as [n|]; [|done]. exists n. split; [done|]. exact (Some_inj _ _ El).
Qed.
Lemma sched_frame_sym s s' : sched_frame s s' -> sched_frame s' s.
Proof.
  intros (np & p & q & t & -> & E). exists (node_pool s), (event_pool s), (event_queue s), (current_time s).
  split; [by destruct s|]. by rewrite <- E.
Qed.
Lemma sched_frame_fields s s' : sched_frame s s' ->
  timing_fanin s' = timing_fanin s /\ process_state_array s' = process_state_array s /\
  unique_process_pool s' = unique_process_pool s /\ footprint_frames s' = footprint_frames s.
Proof. by intros (np & p & q & t & -> & _). Qed.

Lemma clear_event_fields n n' : clear_event n' = clear_event n ->
  n_value n' = n_value n /\ n_last_edge n' = n_last_edge n /\ n_struct_flags n' = n_struct_flags n.
Proof.
  intros E. split_and!; [exact (f_equal n_value E)|exact (f_equal n_last_edge E)|exact (f_equal n_struct_flags E)].
Qed.

Lemma frame_at_frame s s' bfm i gi n' : sched_frame s s' -> frame_at s' bfm i gi n' ->
  exists n, frame_at s bfm i gi n /\ clear_event n' = clear_event n.
Proof.
  intros Hf (Hi & Hb & Hn). destruct (sched_frame_node _ _ _ _ Hf Hn) as (n & Hn0 & E).
  by exists n.
Qed.

Lemma entry_time_frame s s' bfm td di m : sched_frame s s' ->
  entry_time s' bfm td di m -> entry_time s bfm td di m.
Proof.
  intros Hf (gi & r & Hr & Hv & Hp & Hle & Hm).
  destruct (frame_at_frame _ _ _ _ _ _ Hf Hr) as (r0 & Hr0 & E).
  destruct (clear_event_fields _ _ E) as (Ev & El & _). unfold get_last_edge_time in *.
  rewrite Ev, El in *. exists gi, r0. cbv zeta. split_and!; try done. intros Hpn gp p Hgp.
  destruct (frame_at_frame _ _ _ _ _ _ (sched_frame_sym _ _ Hf) Hgp) as (p0 & Hp0 & Ep).
  destruct (clear_event_fields _ _ Ep) as (Evp & _). rewrite Evp. by apply (Hp Hpn gp).
Qed.

Lemma constraint_time_frame s s' ni val m : sched_frame s s' ->
  constraint_time s' ni val m <-> constraint_time s ni val m.
Proof.
  assert (Hone : forall s s', sched_frame s s' -> constraint_time s' ni val m -> constraint_time s ni val m).
  { clear. intros s s' Hf (n & ptf & pid & Hn & Ht & Hv & Hptf & Hin & Hpt).
    destruct (sched_frame_node _ _ _ _ Hf Hn) as (n0 & Hn0 & E).
    destruct (clear_event_fields _ _ E) as (_ & _ & Es).
    destruct (sched_frame_fields _ _ Hf) as (E1 & E2 & E3 & E4).
    exists n0, ptf, pid. unfold is_min_delay_target in *. rewrite <- Es. rewrite E1 in Hptf.
    split_and!; try done. destruct Hpt as (ps & g & bfm & j & f & di & Hps & Hg & Hb & Hj & Hfi & Hdi & Het).
    rewrite E2 in Hps. rewrite E3 in Hg. rewrite E4 in Hb. exists ps, g, bfm, j, f, di.
    split_and!; try done. by eapply entry_time_frame. }
  intros Hf. split; [by apply Hone|]. apply Hone. by apply sched_frame_sym.
Qed.

Lemma min_delays_ok_frame s s' : sched_frame s s' -> min_delays_ok s -> min_delays_ok s'.
Proof.
  intros Hf Hok ni n' Hn Ht. destruct (sched_frame_node _ _ _ _ Hf Hn) as (n & Hn0 & E).
  destruct (clear_event_fields _ _ E) as (_ & _ & Es).
  destruct (sched_frame_fields _ _ Hf) as (E1 & E2 & E3 & E4).
  unfold is_min_delay_target in Ht. rewrite Es in Ht.
  destruct (Hok ni n Hn0 Ht) as (ptf & Hptf & Hall). exists ptf. rewrite E1. split; [done|].
  assert (Hat : forall bfm i, (exists gi n, frame_at s bfm i gi n) -> exists gi n, frame_at s' bfm i gi n).
  { intros bfm i (gi & m & Hm).
    destruct (frame_at_frame _ _ _ _ _ _ (sched_frame_sym _ _ Hf) Hm) as (m' & Hm' & _). by exists gi, m'. }
  eapply Forall_impl; [exact Hall|]. intros pid (ps & g & bfm & Hps & Hg & Hb & Hj).
  exists ps, g, bfm. rewrite E2, E3, E4. split_and!; [done..|]. intros j Hjn.
  destruct (Hj j Hjn) as (f & Hfi & Hfa). exists f. split; [done|]. eapply Forall_impl; [exact Hfa|].
  intros di [Hd Hpr]. split; [by apply Hat|]. intros rd td Hne. by apply Hat, Hpr.
Qed.

(** ** Taking the earliest event *)

(** Taking the first entry removes it from the schedule. *)
Lemma schedule_pop H s x q e :
  EV H s -> event_queue s = x :: q -> pool_get (event_pool s) (ep_index x) = Ok e ->
  killed e = false ->
  schedule s (ev_node e) e (ep_time x) /\
  schedule (put_event_queue q s) ≡ sch_del (ev_node e) (schedule s).
Proof.
  intros Hev Eq Hg Hk.
  assert (Ha : allocated (event_pool s) (ep_index x)).
  { apply (ok_alloc _ _ _ _ _ Hev). rewrite Eq. cbn. by left. }
  pose proof (ok_live _ _ _ _ _ Hev _ _ Ha Hg Hk) as Hl.
  apply links_lookup_inv in Hl as (n & Hn & Hi).
  assert (Hp : pending_event n = true).
  { unfold pending_event, INVALID_EVENT_INDEX. rewrite Hi. apply allocated_pos in Ha.
    by rewrite (proj2 (Nat.eqb_neq _ 0)). }
  assert (Hs : schedule s (ev_node e) e (ep_time x)).
  { exists n. rewrite Hi, Eq. split_and!; [done..|]. destruct x. by left. }
  split; [done|]. intros nj e' t. unfold sch_del, schedule. cbn. rewrite Eq.
  pose proof (ok_nodup _ _ _ _ _ Hev) as Hnd. rewrite Eq in Hnd. apply NoDup_app in Hnd as (Hnd & _).
  cbn in Hnd. apply NoDup_cons in Hnd as [Hx _]. split.
  - intros (m & Hm & Hpm & Hgm & Hq). split.
    + intros ->. assert (m = n) as -> by congruence. rewrite Hi in Hq. by apply elem_of_q_idx in Hq.
    + exists m. split_and!; [done..|]. by right.
  - intros (Hne & m & Hm & Hpm & Hgm & Hq). exists m. split_and!; [done..|].
    apply elem_of_cons in Hq as [Hq|]; [|done]. exfalso.
    apply Hne, (EV_link_inj H s nj (ev_node e) m n Hev Hm Hn Hpm). rewrite Hi, <- Hq. done.
Qed.

(** [t'] is the later of [t] and the constraints of the transition. *)
Definition effective s (ni : nat) (val : value_enum) (t t' : real_time) : Prop :=
  (t' = t \/ constraint_time s ni val t' /\ t_lt t t' = true) /\
  forall m, constraint_time s ni val m -> t_lt t' m = false.

(** The events of [s] are those of [s0], some of them at their effective time. *)
Definition postponed s0 s : Prop :=
  forall ni e t', schedule s ni e t' ->
    exists t, schedule s0 ni e t /\ (t' = t \/ effective s0 ni (ev_val e) t t').

Definition pending_not_atomic s : Prop :=
  forall ni n, node_pool s !! ni = Some n -> pending_event n = true -> is_atomic n = false.

Record dequeue_post s0 (ep : EventPlaceholder real_time) s' : Prop := {
  dq_frame : sched_frame s0 s';
  dq_now : t_le (current_time s0) (current_time s') = true;
  dq_due : t_le (current_time s') (ep_time ep) = true;
  dq_postponed : postponed s0 s';
  dq_event :
    (ep_index ep = INVALID_EVENT_INDEX /\ wf_events s' /\ event_queue s' = [] /\
     forall ni e t, ~ schedule s0 ni e t) \/
    (exists ni e t0, schedule s0 ni e t0 /\ EV [ep_index ep] s' /\
       pool_get (event_pool s') (ep_index ep) = Ok e /\ killed e = false /\
       effective s0 ni (ev_val e) t0 (ep_time ep) /\
       (forall nj e' t', schedule s' nj e' t' -> t_le (ep_time ep) t' = true) /\
       forall nj e', (exists t', schedule s' nj e' t') <-> nj <> ni /\ exists t, schedule s0 nj e' t)
}.

(** The invariant of the loop: the events of [ripe] have been delayed. *)
Record dequeue_inv s0 (ripe : list nat) s : Prop := {
  di_ev : EV [] s;
  di_frame : sched_frame s0 s;
  di_now : t_le (current_time s0) (current_time s) = true;
  di_postponed : postponed s0 s;
  di_kept : forall ni e t, schedule s0 ni e t -> exists t', schedule s ni e t';
  di_nodup : NoDup ripe;
  di_ripe : forall ni, ni ∈ ripe -> exists e t, schedule s ni e t /\
    forall m, constraint_time s0 ni (ev_val e) m -> t_lt t m = false
}.

Lemma ripe_bound s0 ripe s : EV [] s0 -> dequeue_inv s0 ripe s ->
  (length ripe <= length (event_queue s0))%nat.
Proof.
  intros Hev [_ _ _ Hpp _ Hnd Hr].
  set (f := fun ni => match node_pool s0 !! ni with Some n => n_event_index n | None => 0%nat end).
  assert (Hs : forall ni, ni ∈ ripe -> exists n, node_pool s0 !! ni = Some n /\
      pending_event n = true /\ f ni = n_event_index n /\ n_event_index n ∈ q_idx (event_queue s0)).
  { intros ni Hni. destruct (Hr ni Hni) as (e & t & Hs & _). apply Hpp in Hs as (t0 & Hs & _).
    destruct Hs as (n & Hn & Hp & _ & Hq). exists n. unfold f. rewrite Hn.
    split_and!; try done. by eapply elem_of_q_idx. }
  assert (Hsub : f <$> ripe ⊆+ q_idx (event_queue s0)).
  { apply NoDup_submseteq.
    - apply NoDup_fmap_2_strong; [|done]. intros x y Hx Hy Hxy.
      destruct (Hs x Hx) as (n & Hn & Hp & Ef & _), (Hs y Hy) as (m & Hm & _ & Ef' & _).
      apply (EV_link_inj [] s0 x y n m Hev Hn Hm Hp). congruence.
    - intros i Hi. apply list_elem_of_fmap in Hi as (ni & -> & Hni).
      destruct (Hs ni Hni) as (n & _ & _ & -> & Hq). done. }
  apply submseteq_length in Hsub. unfold q_idx in Hsub. by rewrite length_fmap, length_map in Hsub.
Qed.

(** Flushing killed events keeps the invariant of the loop. *)
Lemma dequeue_inv_flush s0 ripe s s1 :
  dequeue_inv s0 ripe s -> flush_post [] s s1 -> dequeue_inv s0 ripe s1.
Proof.
  intros [Hev Hf Hnow Hpp Hkp Hnd Hr] (Hev1 & Hs & _ & _ & p & q & ->).
  split; [done| |done| | |done|].
  - eapply sched_frame_trans; [done|]. apply sched_frame_put.
  - intros ni e t Hsch. apply Hs in Hsch. by apply Hpp.
  - intros ni e t Hsch. destruct (Hkp _ _ _ Hsch) as (t' & Hs'). exists t'. by apply Hs.
  - intros ni Hni. destruct (Hr ni Hni) as (e & t & Hsch & Hm). exists e, t. split; [by apply Hs|done].
Qed.

(** The event at the front is the earliest of the schedule. *)
Lemma schedule_front H s x q : EV H s -> event_queue s = x :: q ->
  forall nj e t, schedule s nj e t -> t_le (ep_time x) t = true.
Proof.
  intros Hev Eq nj e t (n & _ & _ & _ & Hq).
  unfold EV in Hev. rewrite Eq in Hev, Hq. apply ev_ok_head in Hev as [_ Hall].
  rewrite Forall_forall in Hall. exact (Hall _ Hq).
Qed.

(** One delay: the front event moves to its effective time, and is ripe. *)
Lemma dequeue_inv_delay s0 ripe s1 s2 x q e j c n :
  dequeue_inv s0 ripe s1 -> event_queue s1 = x :: q ->
  pool_get (event_pool s1) (ep_index x) = Ok e -> killed e = false ->
  node_pool s1 !! ev_node e = Some n ->
  max_post (mkApplied false INVALID_NODE_INDEX (current_time s1)) c
    (constraint_time s1 (ev_node e) (ev_val e)) ->
  delayed c = true -> t_lt (ep_time x) (time c) = true ->
  EV [] s2 -> current_time s2 = current_time s1 -> only_events (ev_node e) n s1 s2 ->
  schedule s2 ≡ sch_put (ev_node e) e (time c) (schedule s1) ->
  event_queue s2 = push (event_queue s1) (mkPlaceholder (time c) j) ->
  (ev_node e ∉ ripe) /\
  dequeue_inv s0 (ev_node e :: ripe) (put_current_time (ep_time x) s2).
Proof.
  intros [Hev Hf Hnow Hpp Hkp Hnd Hr] Eq Hg Hk Hn Hmax Hd Hlt Hev2 Et2 Hoe Hs2 Eq2.
  destruct (schedule_pop _ _ _ _ _ Hev Eq Hg Hk) as [Hsx _].
  pose proof Hev as Hevx. unfold EV in Hevx. rewrite Eq in Hevx. apply ev_ok_head in Hevx as [Hx Hfront].
  destruct Hmax as [[[_ Hbad]|(Hc & _ & _)] Habove]; [cbn in Hbad; congruence|].
  assert (Hnr : ev_node e ∉ ripe).
  { intros Hin. destruct (Hr _ Hin) as (e' & t & Hs' & Hm).
    destruct (schedule_fun _ _ _ _ _ _ _ Hev Hsx Hs') as [-> <-].
    rewrite (Hm (time c)) in Hlt; [done|]. by apply (constraint_time_frame _ _ _ _ _ Hf). }
  split; [done|].
  assert (Hpost : forall t, schedule s0 (ev_node e) e t -> ep_time x = t ->
      effective s0 (ev_node e) (ev_val e) t (time c)).
  { intros t _ <-. split.
    - right. split; [by apply (constraint_time_frame _ _ _ _ _ Hf)|done].
    - intros m Hm. apply Habove. by apply (constraint_time_frame _ _ _ _ _ Hf). }
  split.
  - unfold EV in *. cbn. change (links (put_current_time (ep_time x) s2)) with (links s2).
    eapply ev_ok_time; [exact Hev2|]. rewrite Eq2, push_perm, Eq. constructor; [|done].
    cbn [ep_time]. by apply t_lt_le.
  - eapply sched_frame_trans; [exact Hf|]. eapply sched_frame_trans; [by eapply sched_frame_only|].
    apply sched_frame_time.
  - eapply t_le_trans; [exact Hnow|exact Hx].
  - intros ni e' t' Hs'. change (schedule s2 ni e' t') in Hs'. apply Hs2 in Hs'.
    destruct Hs' as [(-> & -> & ->)|[Hne Hs']]; [|by apply Hpp].
    destruct (Hpp _ _ _ Hsx) as (t & Hst & [Heq|Heff]).
    + exists t. split; [done|]. right. by apply Hpost.
    + exfalso. destruct Heff as [_ Heff].
      rewrite (Heff (time c)) in Hlt; [done|]. by apply (constraint_time_frame _ _ _ _ _ Hf).
  - intros ni e' t Hs'. destruct (Hkp _ _ _ Hs') as (t' & Hs1).
    destruct (decide (ni = ev_node e)) as [->|Hne].
    + destruct (schedule_fun _ _ _ _ _ _ _ Hev Hsx Hs1) as [-> _]. exists (time c).
      apply Hs2. by left.
    + exists t'. apply Hs2. by right.
  - by constructor.
  - intros ni Hni. apply elem_of_cons in Hni as [->|Hni].
    + exists e, (time c). split; [apply Hs2; by left|]. intros m Hm. apply Habove.
      by apply (constraint_time_frame _ _ _ _ _ Hf).
    + destruct (Hr _ Hni) as (e' & t & Hs' & Hm). exists e', t. split; [|done].
      apply Hs2. right. split; [|done]. by intros ->.
Qed.

(** Taking the front event when no constraint delays it. *)
Lemma dequeue_inv_pop s0 ripe s1 x q e :
  dequeue_inv s0 ripe s1 -> event_queue s1 = x :: q ->
  pool_get (event_pool s1) (ep_index x) = Ok e -> killed e = false ->
  (forall m, constraint_time s1 (ev_node e) (ev_val e) m -> t_lt (ep_time x) m = false) ->
  dequeue_post s0 x (put_event_queue q s1).
Proof.
  intros [Hev Hf Hnow Hpp Hkp Hnd Hr] Eq Hg Hk Hm.
  destruct (schedule_pop _ _ _ _ _ Hev Eq Hg Hk) as [Hsx Hdel].
  pose proof Hev as Hevx. unfold EV in Hevx. rewrite Eq in Hevx.
  split.
  - eapply sched_frame_trans; [exact Hf|].
    exists (node_pool s1), (event_pool s1), q, (current_time s1). split; [by destruct s1|done].
  - exact Hnow.
  - by apply ev_ok_head in Hevx as [? _].
  - intros ni e' t' Hs'. apply Hdel in Hs' as [_ Hs']. by apply Hpp.
  - right. destruct (Hpp _ _ _ Hsx) as (t & Hst & Hor). exists (ev_node e), e, t.
    split_and!; [done| |done|done| | |].
    + unfold EV. cbn. change (links (put_event_queue q s1)) with (links s1). by apply ev_ok_pop.
    + split; [destruct Hor as [->|[Heff _]]; [by left|exact Heff]|].
      intros m Hc. apply Hm. by apply (constraint_time_frame _ _ _ _ _ Hf).
    + intros nj e' t' Hs'. apply Hdel in Hs' as [_ Hs']. by eapply schedule_front.
    + intros nj e'. split.
      * intros (t' & Hs'). apply Hdel in Hs' as [Hne Hs']. split; [done|].
        destruct (Hpp _ _ _ Hs') as (t1 & ? & _). by exists t1.
      * intros (Hne & t1 & Hs0). destruct (Hkp _ _ _ Hs0) as (t' & Hs1). exists t'. by apply Hdel.
Qed.

Lemma wp_dequeue_event_loop s0 fuel ripe s :
  EV [] s0 -> min_delays_ok s0 -> pending_not_atomic s0 -> t_ok (current_time s0) = true ->
  dequeue_inv s0 ripe s -> (length (event_queue s0) < fuel + length ripe)%nat ->
  wp (dequeue_event_loop fuel) (dequeue_post s0) s.
Proof.
  intros Hev0 Hmd Hna Hok0. revert ripe s. induction fuel as [|fuel IH]; intros ripe s Hinv Hf.
  { pose proof (ripe_bound _ _ _ Hev0 Hinv). lia. }
  cbn [dequeue_event_loop]. apply wpe_bind. eapply wpe_mono; [apply wp_flush_killed_events, Hinv|].
  intros [] s1 Hfl. pose proof (dequeue_inv_flush _ _ _ _ Hinv Hfl) as Hinv1.
  destruct Hfl as (_ & _ & Hfront & _). clear Hinv s. unfold front_live in Hfront.
  pose proof (di_now _ _ _ Hinv1) as Hnow. destruct (t_le_ok _ _ Hnow) as [_ Hok1].
  apply wpe_bind, wpe_gets, wpe_bind, wpe_gets.
  destruct (event_queue s1) as [|x q] eqn:Eq; cbn [eq_empty].
  { apply wpe_ret. destruct Hinv1 as [Hev Hfr _ Hpp Hkp _ _]. split; [done|done|by apply t_le_refl|done|].
    left. split_and!; [done|done|done|]. intros ni e t Hs. destruct (Hkp _ _ _ Hs) as (t' & n & _ & _ & _ & Hq).
    rewrite Eq in Hq. by apply elem_of_nil in Hq. }
  destruct Hfront as (e & Hg & Hk). apply wpe_bind. cbn [top].
  apply wpe_lift_res; [|done]. intros x' [= <-]. apply wpe_bind. eapply wpe_get_event; [exact Hg|].
  assert (Hpop : (forall m, constraint_time s1 (ev_node e) (ev_val e) m -> t_lt (ep_time x) m = false) ->
      wp queue_pop (dequeue_post s0) s1).
  { intros Hm. unfold queue_pop. apply wpe_bind, wpe_gets. rewrite Eq. apply wpe_bind. cbn [pop].
    apply wpe_bind, wpe_modify, wpe_ret. by eapply dequeue_inv_pop. }
  destruct (value_eqb (ev_val e) LOGIC_OTHER) eqn:Hv; cbn [negb].
  { apply Hpop. intros m (n & ptf & pid & _ & _ & Hno & _). by destruct (ev_val e). }
  pose proof Hinv1 as [Hev1 Hfr1 _ Hpp1 _ _ _].
  destruct (schedule_pop _ _ _ _ _ Hev1 Eq Hg Hk) as [Hsx _].
  pose proof Hsx as (n & Hn & Hp & Hgn & _).
  apply wpe_bind. eapply wpe_mono.
  { eapply wp_node_event_min_delay; [by eapply min_delays_ok_frame|exact Hn]. }
  intros c s1' [-> Hmax]. pose proof Hmax as [Hfrom Habove].
  destruct (delayed c) eqn:Hd; cbn [andb].
  2: { apply Hpop. intros m Hm. apply not_true_is_false. intros Hb.
       destruct Hfrom as [[Et _]|(_ & Hbad & _)]; [|cbn in Hbad; congruence].
       specialize (Habove m Hm). rewrite Et in Habove. cbn [time] in Habove.
       pose proof (ok_due _ _ _ _ _ Hev1) as Hdue. rewrite Eq in Hdue. apply Forall_cons in Hdue as [Hx _].
       destruct (t_le_ok _ _ Hx) as [_ Hxo], (t_lt_ok _ _ Hb) as [_ Hmo].
       assert (Hle : t_le m (current_time s1) = true) by (by rewrite t_le_lt, Habove).
       pose proof (t_le_trans _ _ _ Hle Hx) as Hmx. rewrite t_le_lt, Hb in Hmx by done. done. }
  destruct (t_lt (ep_time x) (time c)) eqn:Hlt.
  2: { apply Hpop. intros m Hm. apply not_true_is_false. intros Hb. specialize (Habove m Hm).
       destruct (t_lt_ok _ _ Hb) as [_ Hmo].
       destruct Hfrom as [[Et Ed]|(_ & _ & Hlc)]; [cbn in Ed; congruence|].
       destruct (t_lt_ok _ _ Hlc) as [_ Hco].
       destruct (t_lt_cotrans (ep_time x) (time c) m Hco Hb); congruence. }
  destruct Hfrom as [[_ Ed]|(_ & _ & Hlc)]; [cbn in Ed; congruence|]. cbn [time] in Hlc.
  destruct (t_lt_ok _ _ Hlc) as [_ Hco].
  apply wpe_bind, wpe_require; [intros _|intros Hb; exact (eq_true_false_abs _ Hlc Hb)].
  assert (Hnan : is_atomic n = false).
  { destruct (sched_frame_node _ _ _ _ Hfr1 Hn) as (n0 & Hn0 & E).
    destruct (clear_event_fields _ _ E) as (_ & _ & Es). unfold is_atomic. rewrite Es.
    destruct (Hpp1 _ _ _ Hsx) as (t & (n0' & Hn0' & Hp0 & _) & _).
    assert (n0' = n0) as -> by congruence. by apply (Hna _ _ Hn0). }
  apply wpe_bind. eapply wpe_mono.
  { apply (wp_reschedule_event [] s1 _ n (time c) Hev1 Hn Hnan Hco Hok1). intros _.
    apply not_elem_of_nil. }
  intros err s2 (Herr & Hev2 & Et2 & _ & Hoe & Hput).
  assert (Hef : err = false).
  { rewrite Herr, Hp. cbn [negb]. rewrite orb_false_r. apply not_true_is_false. intros Hb.
    pose proof (t_lt_trans _ _ _ Hlc Hb) as Hbad. by rewrite t_lt_irrefl in Hbad. }
  destruct (Hput Hef) as (e' & t0 & j & Hse & Hs2 & Eq2).
  destruct (schedule_fun _ _ _ _ _ _ _ Hev1 Hsx Hse) as [<- _].
  apply wpe_bind, wpe_require; [intros _|by rewrite Hef]. apply wpe_bind, wpe_modify.
  destruct (dequeue_inv_delay s0 ripe s1 s2 x q e j c n) as [Hnr Hinv2]; try done.
  apply (IH (ev_node e :: ripe)); [exact Hinv2|]. cbn [length]. lia.
Qed.
End Dequeue.

(** ** Properties *)

(** C19: taking the next event terminates and never fails an assertion on a
    well-formed state whose back-annotated delays have their structure.
    Killed events are skipped.  The event that is taken is at its effective
    time, i.e. the later of the time for which it was scheduled and of the
    minimum-delay constraints on its transition, and no remaining event is
    scheduled before that time; the remaining events are those of before, some
    of them postponed to their effective times; time does not run backwards.
    An invalid index is returned exactly when nothing was scheduled. *)
Theorem dequeue_event_correct {C} (s : State C) :
  wf_events s -> min_delays_ok s -> pending_not_atomic s -> t_ok (current_time s) = true ->
  exists ep s', dequeue_event s = Ok (ep, s') /\ dequeue_post s ep s'.
Proof.
  intros Hwf Hmd Hna Hok.
  assert (Hw : wp dequeue_event (dequeue_post s) s).
  { unfold dequeue_event. apply wpe_bind, wpe_gets.
    apply (wp_dequeue_event_loop s _ []); try done; [|cbn [length]; lia].
    split; [done|apply sched_frame_refl|by apply t_le_refl| | |constructor|].
    - intros ni e t Hs. exists t. split; [done|by left].
    - intros ni e t Hs. by exists t.
    - intros ni Hni. by apply elem_of_nil in Hni. }
  by apply wp_total in Hw.
Qed.

(** ** An example with a minimum delay: node 1 may not change before 12 *)
Section Example.
Definition ex_md : min_delay_entry := mkMinDelay (fun _ _ => double_of_Z 9 0) (fun _ _ => 0%nat).
Definition ex_graph : unique_process_subgraph := set_min_delays [(1%nat, [(2%nat, ex_md)])] graph_empty.
Definition ex_d0 : State unit :=
  State_construct 3 [ex_graph] [] [mkProcState 0 1 []] [[1; 2; 3]%nat] false tt.
Definition ex_d1 : State unit := ex_run
  (apply_all_min_delays ;;;
   upd_node 2 (set_value_and_cause LOGIC_HIGH EventCause_empty (double_of_Z 3 0))) ex_d0.
Definition ex_d2 : State unit := ex_run (set_node_time 1 LOGIC_HIGH ex_t5 false) ex_d1.
Definition ex_d3 : State unit := ex_run (set_node_time 3 LOGIC_HIGH ex_t7 false) ex_d2.

Lemma ex_d3_wf : wf_events ex_d3.
Proof.
  apply ex_set_wf; [|by eexists|done]. apply ex_set_wf; [|by eexists|done].
  eapply (EV_ext [] ex_d0); [reflexivity..|apply wf_events_construct].
Qed.

Lemma ex_d3_min_delays : min_delays_ok ex_d3.
Proof.
  intros ni n Hn Ht.
  assert (Hni : ni = 1%nat).
  { do 4 (destruct ni as [|ni]; [vm_compute in Hn; injection Hn as <-; vm_compute in Ht; done|]);
      vm_compute in Hn; done. }
  subst ni. exists [0%nat]. split; [vm_compute; reflexivity|]. constructor; [|constructor].
  exists (mkProcState 0 1 []), ex_graph, [1; 2; 3]%nat. split_and!; [reflexivity..|].
  intros j Hj. assert (j = 0%nat) as ->.
  { do 3 (destruct j as [|j]; [done|]). done. }
  exists [(2%nat, ex_md)]. split; [reflexivity|]. constructor; [|constructor]. split; [|done].
  destruct (node_pool ex_d3 !! 2%nat) as [m|] eqn:Hm; [|vm_compute in Hm; discriminate].
  exists 2%nat, m. split_and!; [discriminate|reflexivity|exact Hm].
Qed.

Lemma ex_d3_pending : pending_not_atomic ex_d3.
Proof.
  intros ni n Hn _. do 4 (destruct ni as [|ni]; [vm_compute in Hn; by injection Hn as <-|]).
  vm_compute in Hn. discriminate.
Qed.

(** Node 3 at 7, then node 1, delayed from 5 to 12. *)
Example ex_dequeue_twice :
  match dequeue_event ex_d3 with
  | Ok (a, s1) => match dequeue_event s1 with Ok (b, _) => Some (a, b) | Err _ => None end
  | Err _ => None
  end = Some (mkPlaceholder ex_t7 2, mkPlaceholder (double_of_Z 12 0) 3).
Proof. vm_compute. reflexivity. Qed.

Lemma dequeue_event_correct_witness :
  exists ep s', dequeue_event ex_d3 = Ok (ep, s') /\ dequeue_post ex_d3 ep s'.
Proof.
  apply (dequeue_event_correct ex_d3);
    [apply ex_d3_wf|apply ex_d3_min_delays|apply ex_d3_pending|reflexivity].
Defined.
End Example.
