(* ===== verification/StepInv.v ===== *)
(** Preservation of the event system by whole runs: every function that the
    simulator calls while it executes an event keeps the invariant [EV] of the
    event pool, the queue and the nodes' links, whatever it reads from the
    circuit.

    [pres P m]: a run of [m] from [P] that returns ends in [P].  Most functions
    do not touch the event system at all, [solve_pres] finds that out; the
    lemmas about the others say which event they allocate, kill or queue. *)
From S2P Require Import Prelude SimTime PullSet Expr EventQueue ArrayPool OrdMap Node ProcGraph.
From S2P Require Import State Events Schedule Excl Flush Eval Feedback TimingCheck Step.
From S2P Require Import EventInv EventProps.
Open Scope Z_scope.
Local Open Scope hackt_scope.
#[local] Abbreviation length := Datatypes.length.

Section Pres.
Context {C : Type}.
#[local] Abbreviation State := (State C).
#[local] Abbreviation SM := (M State).
Implicit Types (s : State) (P : State -> Prop).

(** A vacuous event does not start the next step from within its own. *)
Definition no_nested_step s : bool :=
  negb (dequeue_unstable_events s) || stopping_on_vacuous_events s.

(** The part of the state that the invariant speaks of. *)
Record same_events s s' : Prop := {
  se_pool : event_pool s' = event_pool s;
  se_queue : event_queue s' = event_queue s;
  se_links : links s' = links s;
  se_time : current_time s' = current_time s;
  se_nested : no_nested_step s' = no_nested_step s
}.
Class OnEvents P : Prop := on_events : forall s s', same_events s s' -> P s -> P s'.

Definition pres {A} P (m : SM A) : Prop := forall s, P s -> wlp m (fun _ s' => P s') s.

Lemma same_events_refl s : same_events s s.
Proof. done. Qed.

Lemma pres_ret {A} P (a : A) : pres P (ret a).
Proof. intros s Hs. by apply wpe_ret. Qed.
Lemma pres_fail {A} P f : pres P (fail f : SM A).
Proof. done. Qed.
Lemma pres_bind {A B} P (m : SM A) (k : A -> SM B) :
  pres P m -> (forall a, pres P (k a)) -> pres P (bind m k).
Proof.
  intros Hm Hk s Hs. apply wpe_bind. eapply wpe_mono; [by apply Hm|]. intros a s'. apply Hk.
Qed.
Lemma pres_readonly {A} P (m : SM A) : readonly m -> pres P m.
Proof.
  intros Hro s Hs. unfold wpe. destruct (m s) as [[a s']|f] eqn:E; [|done]. by rewrite (Hro _ _ _ E).
Qed.
Lemma pres_when P b (m : SM unit) : pres P m -> pres P (when b m).
Proof. intros Hm. destruct b; [done|apply pres_ret]. Qed.
Lemma pres_for_each {A} P (l : list A) (body : A -> SM unit) :
  (forall x, pres P (body x)) -> pres P (for_each l body).
Proof.
  intros Hb s Hs. eapply wpe_mono; [apply (wpe_for_each _ (fun _ => P)); [done|]|done].
  intros x _ s' Hs'. by apply Hb.
Qed.
Lemma pres_fold_m {A B} P (l : list A) (b : B) (body : B -> A -> SM B) :
  (forall b x, pres P (body b x)) -> pres P (fold_m l b body).
Proof.
  intros Hb s Hs. eapply wpe_mono; [apply (wpe_fold_m _ (fun _ _ => P)); [done|]|done].
  intros x _ b' s' Hs'. by apply Hb.
Qed.
Lemma pres_reading {T A} P (part : State -> T) (m : M T A) : pres P (reading part m).
Proof.
  intros s Hs. unfold wpe, reading. by destruct (m (part s)) as [[a t]|f].
Qed.
Lemma pres_modify P `{!OnEvents P} (g : State -> State) :
  (forall s, same_events s (g s)) -> pres P (modify g).
Proof. intros Hg s Hs. apply wpe_modify. by eapply on_events. Qed.

(** A change of the nodes that leaves their links. *)
Lemma same_events_nodes s np : map n_event_index np = links s ->
  same_events s (put_node_pool np s).
Proof. intros E. by split. Qed.
Lemma pres_upd_node P `{!OnEvents P} ni (f : NodeState -> NodeState) :
  (forall n, n_event_index (f n) = n_event_index n) -> pres P (upd_node ni f).
Proof.
  intros Hf s Hs. unfold upd_node, get_node. apply wpe_bind, wpe_bind, wpe_gets.
  apply wpe_of_option; [|done]. intros n Hn. apply wpe_modify. eapply on_events; [|done].
  apply same_events_nodes. by apply links_same with n.
Qed.

(** The flags that the execution of an event changes. *)
Lemma no_nested_put_flag b k s : 0 <= k -> k <> 0 -> k <> 18 ->
  same_events s (put_flag_of b (2 ^ k) s).
Proof.
  intros Hk H0 H18. split; try done. unfold no_nested_step, dequeue_unstable_events,
    stopping_on_vacuous_events, put_flag_of. cbn [flags put_flags].
  change FLAG_UNSTABLE_DEQUEUE with (2 ^ 0). change FLAG_STOP_ON_VACUOUS with (2 ^ 18).
  by rewrite !has_flag_put_other by lia.
Qed.
Lemma no_nested_stop s : same_events s (stop s).
Proof.
  destruct (no_nested_put_flag true 1 s) as [? ? ? ? ?]; [done..|by split].
Qed.
Lemma no_nested_nocheck_excl s : same_events s (nocheck_excl s).
Proof. by apply (no_nested_put_flag false 6). Qed.
End Pres.

Create HintDb hackt_pres.
#[export] Hint Resolve pres_ret pres_fail pres_reading pres_upd_node no_nested_stop
  no_nested_nocheck_excl : hackt_pres.
#[export] Hint Extern 1 (same_events _ _) => (split; reflexivity) : hackt_pres.
#[export] Hint Extern 1 (n_event_index _ = n_event_index _) => reflexivity : hackt_pres.
#[export] Hint Extern 1 (n_event_index (put_pull_struct ?d _ _ _) = _) =>
  (destruct d; reflexivity) : hackt_pres.
#[export] Hint Extern 1 (OnEvents _) => typeclasses eauto : hackt_pres.

(** Decomposes a computation that does not touch the event system. *)
Ltac pres_step :=
  match goal with
  | |- forall _, _ => intro
  | |- pres _ (bind _ _) => apply pres_bind
  | |- pres _ (when _ _) => apply pres_when
  | |- pres _ (for_each _ _) => apply pres_for_each
  | |- pres _ (fold_m _ _ _) => apply pres_fold_m
  | |- pres _ (gets _) => apply pres_readonly, readonly_gets
  | |- pres _ (require _ _) => apply pres_readonly, readonly_require
  | |- pres _ (of_option _ _) => apply pres_readonly, readonly_of_option
  | |- pres _ (lift_res _) => apply pres_readonly, readonly_lift_res
  | |- pres _ (modify _) => apply pres_modify; [typeclasses eauto|intros ?; solve [auto with hackt_pres]]
  | |- pres _ (let '(_, _) := ?x in _) => destruct x
  | |- pres _ (match ?x with _ => _ end) => destruct x
  | |- pres _ _ => solve [auto with hackt_pres]
  end.
Ltac pres_unfold :=
  match goal with
  | |- pres _ ?m => let rec go t := match t with ?f _ => go f | _ => unfold t end in go m
  end.
Ltac solve_pres := repeat first [pres_step | progress pres_unfold].

(** ** Functions that leave the event system alone *)
Section Frame.
Context {C : Type} {env : Env}.
#[local] Abbreviation State := (State C).
#[local] Abbreviation SM := (M State).
Implicit Types (s : State).

Context (P : State -> Prop) `{HP : !OnEvents P}.

Lemma pres_get_delay_up e : pres P (get_delay_up e).
Proof. solve_pres. Qed.
Lemma pres_react E x : pres P (react E x).
Proof. solve_pres. Qed.

Lemma pres_evaluate_climb fuel pid g ui prev next : pres P (evaluate_climb fuel pid g ui prev next).
Proof.
  revert ui prev next. induction fuel as [|fuel IH]; intros ui prev next; cbn [evaluate_climb]; solve_pres.
Qed.
Lemma pres_evaluate gui prev next : pres P (evaluate gui prev next).
Proof.
  unfold evaluate, evaluate_kernel, evaluate_rule. pose proof pres_evaluate_climb. solve_pres.
Qed.
Lemma pres_lock_rings R l : (forall k s, same_events s (er_put_locks R k s)) ->
  pres P (lock_rings R l).
Proof. intros HR. induction l as [|li l IH]; cbn [lock_rings]; solve_pres. Qed.
Lemma pres_check_excl_rings ni n prev next : pres P (check_excl_rings ni n prev next).
Proof.
  unfold check_excl_rings, check_excl_dir. pose proof pres_lock_rings. solve_pres;
    apply pres_lock_rings; auto with hackt_pres.
Qed.
Lemma pres_enforce_excl R c prev : (forall k s, same_events s (er_put_rings R k s)) ->
  pres P (enforce_excl R c prev).
Proof. intros HR. solve_pres. Qed.
Lemma pres_handle_invariants c : pres P (handle_invariants c).
Proof. solve_pres. Qed.
Lemma pres_note_updated_node ui ev p dir weak : pres P (note_updated_node ui ev p dir weak).
Proof. solve_pres. Qed.
Lemma pres_collect_expr_literals fuel pid g ei : pres P (__collect_expr_literals fuel pid g ei).
Proof.
  revert ei. induction fuel as [|fuel IH]; intros ei; cbn [__collect_expr_literals]; solve_pres.
Qed.
Lemma pres_any_pending l : pres P (any_pending l).
Proof. induction l as [|i l IH]; cbn [any_pending]; solve_pres. Qed.
Lemma pres_node_fanin ni : pres P (node_fanin ni).
Proof.
  unfold node_fanin, process_fanin, collect_node_fanin, collect_rules, __collect_rule_literals.
  pose proof pres_collect_expr_literals. solve_pres.
Qed.
Lemma pres_node_fanout ni : pres P (node_fanout ni).
Proof. solve_pres. Qed.
Lemma pres_handle_keeper_checks ni : pres P (handle_keeper_checks ni).
Proof.
  unfold handle_keeper_checks, check_floating_node, node_feedback_feedthrough.
  pose proof pres_node_fanin. pose proof pres_node_fanout. pose proof pres_any_pending. solve_pres.
Qed.
Lemma pres_do_setup_check ni v : pres P (do_setup_check ni v).
Proof. solve_pres. Qed.
Lemma pres_do_hold_check ni v : pres P (do_hold_check ni v).
Proof. solve_pres. Qed.
Lemma pres_trace_event pe ni prev : pres P (trace_event pe ni prev).
Proof. unfold trace_event, push_back_event, record_event. solve_pres. Qed.
End Frame.

#[export] Hint Resolve pres_get_delay_up pres_react pres_evaluate_climb pres_evaluate
  pres_check_excl_rings pres_handle_invariants pres_note_updated_node pres_node_fanin
  pres_node_fanout pres_any_pending pres_handle_keeper_checks pres_do_setup_check
  pres_do_hold_check pres_trace_event : hackt_pres.

(** ** The invariant of an execution *)
Section Inv.
Context {C : Type} {env : Env} {D : DueOrder}.
#[local] Abbreviation State := (State C).
#[local] Abbreviation SM := (M State).
Implicit Types (s : State) (H : list nat).

(** The events [H] are in hand, and the time is [t]. *)
Definition exec_inv H (t : real_time) s : Prop :=
  EV H s /\ no_nested_step s = true /\ current_time s = t.
(** In addition, [ei] is the pending event of node [ni]. *)
Definition linked H t (ni ei : nat) s : Prop :=
  exec_inv H t s /\ links s !! ni = Some ei /\ ei <> 0%nat.
(** In addition, [e] has been allocated at [i] and is not in the queue yet. *)
Definition in_hand H t (i : nat) (e : Event) s : Prop :=
  linked (i :: H) t (ev_node e) i s /\ pool_get (event_pool s) i = Ok e.

#[global] Instance exec_inv_on_events H t : OnEvents (exec_inv H t).
Proof.
  intros s s' [Ep Eq El Et En] (Hev & Hn & Ht). split_and!; [by eapply EV_ext|congruence|congruence].
Qed.
#[global] Instance linked_on_events H t ni ei : OnEvents (linked H t ni ei).
Proof.
  intros s s' Hse (Hi & Hl & He). split_and!; [by eapply on_events|by rewrite (se_links _ _ Hse)|done].
Qed.
#[global] Instance in_hand_on_events H t i e : OnEvents (in_hand H t i e).
Proof.
  intros s s' Hse (Hi & Hg). split; [by eapply on_events|by rewrite (se_pool _ _ Hse)].
Qed.

Lemma linked_node H t ni ei s : linked H t ni ei s ->
  exists n, node_pool s !! ni = Some n /\ n_event_index n = ei /\ pending_event n = true.
Proof.
  intros (_ & Hl & He). destruct (links_lookup_inv _ _ _ Hl) as (n & Hn & Hi). exists n.
  split_and!; [done|done|]. unfold pending_event, INVALID_EVENT_INDEX. rewrite Hi.
  by rewrite (proj2 (Nat.eqb_neq ei 0)).
Qed.
Lemma linked_intro H t ni n s : exec_inv H t s -> node_pool s !! ni = Some n ->
  pending_event n = true -> linked H t ni (n_event_index n) s.
Proof.
  intros Hi Hn Hp. split_and!; [done|by apply links_lookup|].
  unfold pending_event in Hp. by apply negb_true_iff, Nat.eqb_neq in Hp.
Qed.

(** Rewriting an event. *)
Lemma upd_event_same s i f p' e :
  pool_get (event_pool s) i = Ok e -> ev_node (f e) = ev_node e -> killed (f e) = killed e ->
  pool_set (event_pool s) i (f e) = Ok p' ->
  forall H, EV H s -> EV H (put_event_pool p' s).
Proof. intros Hg En Ek Ep H Hev. unfold EV in *. cbn. by eapply ev_ok_update. Qed.

Lemma pres_upd_event_gen (P : State -> Prop) i f :
  (forall s p', (forall H, EV H s -> EV H (put_event_pool p' s)) -> P s -> P (put_event_pool p' s)) ->
  (forall e, ev_node (f e) = ev_node e /\ killed (f e) = killed e) -> pres P (upd_event i f).
Proof.
  intros HP Hf s Hs. unfold upd_event, get_event.
  apply wpe_bind, wpe_bind, wpe_gets, wpe_lift_res; [|done]. intros e Hg.
  apply wpe_bind, wpe_gets, wpe_bind, wpe_lift_res; [|done]. intros p' Ep.
  apply wpe_modify. apply HP; [|done]. destruct (Hf e). by eapply upd_event_same.
Qed.
Lemma pres_upd_event H t i f :
  (forall e, ev_node (f e) = ev_node e /\ killed (f e) = killed e) ->
  pres (exec_inv H t) (upd_event i f).
Proof.
  apply pres_upd_event_gen. intros s p' Hev (He & Hn & Ht). split_and!; [by apply Hev|done|done].
Qed.
Lemma pres_upd_event_linked H t ni ei i f :
  (forall e, ev_node (f e) = ev_node e /\ killed (f e) = killed e) ->
  pres (linked H t ni ei) (upd_event i f).
Proof.
  apply pres_upd_event_gen. intros s p' Hev ((He & Hn & Ht) & Hl & Hne).
  split; [|done]. split_and!; [by apply Hev|done|done].
Qed.

(** Killing the pending event of a node. *)
Lemma wlp_kill_event H t ni ei s :
  linked H t ni ei s -> wlp (kill_event ei ni) (fun _ s' => exec_inv H t s') s.
Proof.
  intros Hl. destruct (linked_node _ _ _ _ _ Hl) as (n & Hn & <- & Hp).
  destruct Hl as ((Hev & Hns & Ht) & _). eapply wpe_kill_event; [done..|].
  intros p' _ _ s' Hev'. by split.
Qed.

(** Queueing an event in hand. *)
Lemma wlp_enqueue_event_at H t te i e s :
  in_hand H t i e s -> wlp (enqueue_event te i) (fun _ s' => exec_inv H t s' /\
    event_queue s' = push (event_queue s) (mkPlaceholder te i)) s.
Proof.
  intros (Hl & Hg). destruct (linked_node _ _ _ _ _ Hl) as (n & Hn & Hi & Hp).
  destruct Hl as ((Hev & Hns & Ht) & _ & Hi0). unfold enqueue_event, load_enqueue_event.
  apply wpe_bind, wpe_bind, wpe_require; [intros _|done].
  apply wpe_bind. eapply wpe_get_event; [done|].
  apply wpe_bind, wpe_gets, wpe_bind, wpe_when; [by intros|intros Hle].
  apply wpe_bind, wpe_modify, wpe_ret, wpe_bind. eapply wpe_get_node; [done|].
  apply wpe_bind, wpe_require; [intros _|done]. apply wpe_bind, wpe_require; [intros _|done].
  apply wpe_require; [intros _|done]. split; [|done]. split_and!; [|done|done].
  unfold EV. cbn. apply ev_ok_push; [done|]. by apply due_le, negb_false_iff.
Qed.
Lemma wlp_enqueue_event H t te i e s :
  in_hand H t i e s -> wlp (enqueue_event te i) (fun _ s' => exec_inv H t s') s.
Proof.
  intros Hh. eapply wpe_mono; [by apply (wlp_enqueue_event_at H t te i e)|]. by intros [] s' [? _].
Qed.

(** Allocating an event, whose node has none. *)
Lemma wlp___allocate_event H t e s :
  exec_inv H t s -> killed e = false ->
  wlp (__allocate_event (ev_node e) e) (fun i s' => in_hand H t i e s') s.
Proof.
  intros (Hev & Hns & Ht) Hk.
  destruct (node_pool s !! ev_node e) as [n|] eqn:Hn.
  2: { unfold __allocate_event, get_node, wpe, bind, gets, of_option. cbn. by rewrite Hn. }
  destruct (pending_event n) eqn:Hp.
  { unfold __allocate_event. apply wpe_bind. eapply wpe_get_node; [done|].
    apply wpe_bind, wpe_require; [by rewrite Hp|done]. }
  destruct (negb (is_frozen n) || forced e) eqn:Hf.
  2: { unfold __allocate_event. apply wpe_bind. eapply wpe_get_node; [done|].
       apply wpe_bind, wpe_require; [intros _|done]. apply wpe_bind, wpe_require; [intros Hb; by rewrite Hf in Hb|done]. }
  eapply wpe___allocate_event; [done..| |done|done|].
  { apply orb_true_iff in Hf as [Hf|Hf]; [left; by apply negb_true_iff|by right]. }
  intros i p' Hi Hg _ s' Hev'. split; [|done]. split; [by split|split; [|done]].
  rewrite (links_lookup s' _ (set_n_event_index i n)); [done|].
  cbn. apply list_lookup_insert_eq. by eapply lookup_lt_Some.
Qed.

Lemma pres_enqueue_new_event H t e : killed e = false ->
  pres (exec_inv H t) (enqueue_new_event e).
Proof.
  intros Hk s Hs. unfold enqueue_new_event. apply wpe_bind. eapply wpe_mono; [by apply wlp___allocate_event|].
  intros i s1 Hi. apply wpe_bind.
  assert (Hd : pres (in_hand H t i e) (if value_eqb (ev_val e) LOGIC_LOW then get_delay_dn e else get_delay_up e)).
  { destruct (value_eqb _ _); solve_pres. }
  eapply wpe_mono; [by apply Hd|]. intros te s2 Hi2. by apply wlp_enqueue_event with e.
Qed.
End Inv.

(** ** Flushing *)
Section Flushing.
Context {C : Type} {env : Env} {D : DueOrder}.
#[local] Abbreviation State := (State C).
#[local] Abbreviation SM := (M State).
Implicit Types (s : State) (H : list nat).

Lemma wlp_get_node i (Q : NodeState -> State -> Prop) s :
  (forall n, node_pool s !! i = Some n -> Q n s) -> wlp (get_node i) Q s.
Proof. intros HQ. unfold get_node. apply wpe_bind, wpe_gets. by apply wpe_of_option. Qed.

Lemma wlp_pres {A} (P : State -> Prop) (m : SM A) (Q : A -> State -> Prop) s :
  pres P m -> P s -> (forall a s', P s' -> Q a s') -> wlp m Q s.
Proof. intros Hm Hs HQ. eapply wpe_mono; [by apply Hm|done]. Qed.

Section Pending.
Context (H : list nat) (t : real_time) (c : cause_type) (et : real_time) (ni prev : nat)
  (p : pull_set) (old_val : value_enum).
#[local] Abbreviation L := (linked (C:=C) H t ni prev).
#[local] Abbreviation I := (exec_inv (C:=C) H t).

Lemma pres_set_x_cause (P : State -> Prop) `{!OnEvents P} : pres P (set_x_cause ni c et).
Proof. solve_pres. Qed.

(** The pending event is cancelled, or becomes X. *)
Lemma wlp_kill_or_x (b : bool) f s :
  (forall e, ev_node (f e) = ev_node e /\ killed (f e) = killed e) -> L s ->
  wlp (if b then kill_event prev ni ;;; set_x_cause ni c et else upd_event prev f)
      (fun _ => I) s.
Proof.
  intros Hf Hs. destruct b.
  - apply wpe_bind. eapply wpe_mono; [by apply wlp_kill_event|]. intros [] s' Hs'.
    eapply wlp_pres; [by apply (pres_set_x_cause I)|exact Hs'|done].
  - eapply wlp_pres; [by apply pres_upd_event|apply Hs|done].
Qed.

Lemma wlp_clobber_pending pe s : L s -> wlp (clobber_pending c et ni prev old_val pe) (fun _ => I) s.
Proof.
  intros Hs. unfold clobber_pending. destruct (forced pe); [apply wpe_ret, Hs|].
  by apply wlp_kill_or_x.
Qed.

Lemma wlp_renew_event e s : killed e = false -> L s -> wlp (renew_event ni prev old_val e) (fun _ => I) s.
Proof.
  intros Hk Hs. unfold renew_event. apply wpe_bind.
  eapply wpe_mono; [by apply wlp_kill_event|]. intros [] s' Hs'.
  apply wpe_when; [intros _|done]. by apply pres_enqueue_new_event.
Qed.

Lemma wlp_cancel_unstable blocked e pval s : killed e = false -> L s ->
  wlp (cancel_unstable c et ni prev p old_val blocked e pval) (fun _ => I) s.
Proof.
  intros Hk Hs. unfold cancel_unstable. apply wpe_bind, wpe_require; [intros _|done].
  assert (Hro : forall i, pres L (get_event i)) by (intros; solve_pres).
  apply wpe_bind. eapply wlp_pres; [apply Hro|done|]. intros pe s1 Hs1.
  apply wpe_bind. eapply wlp_pres; [|exact Hs1|]; [solve_pres|]. intros r s2 Hs2.
  apply wpe_bind. eapply wlp_pres; [|exact Hs2|]; [solve_pres|]. intros ru s3 Hs3.
  apply wpe_bind, wpe_gets, wpe_bind, wpe_gets.
  destruct (_ || _ || _); [by apply wlp_renew_event|].
  apply wlp_kill_or_x; [|done]. intros x. split; [done|by rewrite killed_set_weak].
Qed.

Lemma wlp_overtake_pending e pval s : killed e = false -> L s ->
  wlp (overtake_pending ni prev p old_val e pval) (fun _ => I) s.
Proof.
  intros Hk Hs. unfold overtake_pending. apply wpe_bind.
  assert (Hro : pres L (get_event prev)) by solve_pres.
  eapply wlp_pres; [apply Hro|done|]. intros pe s1 Hs1.
  apply wpe_when; [intros _|intros _; apply Hs1].
  apply wpe_bind, wpe_require; [intros _|done]. by apply wlp_renew_event.
Qed.

Lemma pres_diagnose_instability (P : State -> Prop) `{!OnEvents P} blocked pval err :
  (forall i f, (forall e, ev_node (f e) = ev_node e /\ killed (f e) = killed e) -> pres P (upd_event i f)) ->
  pres P (diagnose_instability c prev blocked pval err).
Proof. intros Hu. unfold diagnose_instability. apply pres_bind; [by apply Hu|]. solve_pres. Qed.

Lemma wlp_update_pending blocked hi e err s : killed e = false -> L s ->
  wlp (update_pending c et ni prev p old_val blocked hi e err) (fun _ => I) s.
Proof.
  intros Hk Hs. unfold update_pending. apply wpe_bind.
  assert (Hro : pres L (get_event prev)) by solve_pres.
  eapply wlp_pres; [apply Hro|done|]. intros pe s1 Hs1. apply wpe_bind. destruct hi; cbn [when].
  - eapply wpe_mono; [by apply wlp_clobber_pending|]. intros [] s2 Hs2. apply wpe_bind.
    eapply (wlp_pres I); [|exact Hs2|].
    { destruct (lost_pull _ _); [|apply pres_ret]. apply pres_diagnose_instability; [apply _|].
      intros. by apply pres_upd_event. }
    intros err' s3 Hs3. by apply wpe_bind, wpe_ret, wpe_ret.
  - apply wpe_ret, wpe_bind. eapply (wlp_pres L); [|exact Hs1|].
    { destruct (lost_pull _ _); [|apply pres_ret]. apply pres_diagnose_instability; [apply _|].
      intros. by apply pres_upd_event_linked. }
    intros err' s3 Hs3. apply wpe_bind. eapply (wpe_mono _ _ (fun _ => I)); [|by intros [] s4 Hs4; apply wpe_ret].
    destruct (lost_pull _ _); [by apply wlp_cancel_unstable|by apply wlp_overtake_pending].
Qed.
End Pending.

Lemma wlp_new_event (P : State -> Prop) `{!OnEvents P} ni c f p old_val err s : P s ->
  wlp (new_event ni c f p old_val err) (fun r s' => killed r.1 = false /\ ev_node r.1 = ni /\ P s') s.
Proof.
  intros Hs. unfold new_event.
  set (base := set_ev_rule_ptr _ _).
  assert (Hb : forall w v, killed (set_ev_val v (set_weak w base)) = false).
  { intros w v. transitivity (killed (set_weak w base)); [done|]. by rewrite killed_set_weak. }
  destruct (have_interference _).
  - assert (Hk : forall (b : bool), killed (set_ev_val LOGIC_OTHER (if b then set_weak true base else base)) = false)
      by (intros []; [apply Hb|done]).
    assert (Hn : forall (b : bool), ev_node (set_ev_val LOGIC_OTHER (if b then set_weak true base else base)) = ni)
      by (by intros []).
    destruct (_ || _); [|apply wpe_ret; split; [apply Hk|split; [apply Hn|done]]].
    apply wpe_bind. eapply (wlp_pres P); [solve_pres|done|].
    intros E s' Hs'. apply wpe_ret. split; [apply Hk|split; [apply Hn|done]].
  - apply wpe_bind, wpe_of_option; [|done]. intros v _. apply wpe_ret. split; [apply Hb|done].
Qed.

Lemma pres_flush_updated_node H t c et err ni :
  pres (exec_inv (C:=C) H t) (flush_updated_node c et err ni).
Proof.
  intros s Hs. unfold flush_updated_node. apply wpe_bind, wlp_get_node. intros n Hn.
  apply wpe_bind, wpe_gets, wpe_bind, wpe_of_option; [|done]. intros f _. apply wpe_bind, wpe_gets.
  cbv zeta. apply wpe_bind.
  set (p := blocked_pull_set _ _ _).
  destruct (pending_event n) eqn:Hp.
  - eapply wpe_mono; [apply (wlp_new_event (linked H t ni (n_event_index n)));
      by eapply linked_intro|]. intros [e err1] s1 (Hk & _ & Hs1). apply wpe_bind.
    eapply wpe_mono; [by apply wlp_update_pending|]. intros err2 s2 Hs2.
    revert s2 Hs2. change (pres (exec_inv (C:=C) H t) (modify (fun s0 => put_updated_nodes
      (m_erase ni (updated_nodes s0)) s0) ;;; ret err2)). solve_pres.
  - eapply wpe_mono; [apply (wlp_new_event (exec_inv H t)); exact Hs|].
    intros [e err1] s1 (Hk & _ & Hs1). revert s1 Hs1.
    match goal with |- forall s1, _ s1 -> wlp ?m _ s1 => change (pres (exec_inv (C:=C) H t) m) end.
    apply pres_bind; [|solve_pres]. apply pres_bind; [|solve_pres].
    apply pres_when. by apply pres_enqueue_new_event.
Qed.

Lemma pres_flush_updated_nodes H t c et : pres (exec_inv (C:=C) H t) (flush_updated_nodes c et).
Proof.
  unfold flush_updated_nodes. pose proof pres_flush_updated_node. solve_pres.
Qed.
End Flushing.

(** ** Evaluation, channels and execution *)
Section Executing.
Context {C : Type} {env : Env} {cm : ChannelManager C} {D : DueOrder}.
#[local] Abbreviation State := (State C).
#[local] Abbreviation SM := (M State).
Implicit Types (s : State) (H : list nat).
#[local] Abbreviation I t := (exec_inv (C:=C) [] t).

Lemma pres_filter_weak t ui n p next dir is_weak s :
  node_pool s !! ui = Some n -> I t s ->
  wlp (filter_weak ui n p next dir is_weak) (fun _ => I t) s.
Proof.
  intros Hn Hs. unfold filter_weak. apply wpe_bind, wpe_gets.
  destruct (weak_rules_enabled s); [|by apply wpe_ret].
  destruct (pending_event n) eqn:Hp; [|by destruct (_ && _); apply wpe_ret].
  pose proof (linked_intro _ _ _ _ _ Hs Hn Hp) as Hl.
  apply wpe_bind. eapply (wlp_pres (linked [] t ui (n_event_index n))); [solve_pres|done|].
  intros e s1 Hs1. destruct (_ && _).
  - apply wpe_bind. eapply (wlp_pres (linked [] t ui (n_event_index n))); [solve_pres|done|].
    intros err s2 Hs2. apply wpe_bind. eapply wpe_mono; [by apply wlp_kill_event|].
    intros [] s3 Hs3. by apply wpe_ret.
  - destruct (_ && _); apply wpe_ret; apply Hs1.
Qed.

Lemma pres_flush_channel_event t c err i : pres (I t) (flush_channel_event c err i).
Proof.
  intros s Hs. unfold flush_channel_event. cbv zeta. apply wpe_bind, wlp_get_node. intros n Hn.
  apply wpe_bind, wpe_require; [intros _|done].
  apply wpe_bind. eapply (wpe_mono _ _ (fun _ => I t)).
  - destruct (pending_event n) eqn:Hp; [|by apply wpe_ret].
    pose proof (linked_intro _ _ _ _ _ Hs Hn Hp) as Hl.
    destruct (EV_pending _ _ _ _ (proj1 Hs) Hn Hp) as (ev & _ & Hg & _ & Hev & _).
    apply wpe_bind. eapply wpe_get_event; [done|]. rewrite Hev.
    apply wpe_bind. eapply (wlp_pres (linked [] t (ee_node_index i) (n_event_index n))); [solve_pres|done|].
    intros E s1 Hs1. apply wpe_bind, wpe_gets.
    apply wpe_bind. eapply (wpe_mono _ _ (fun _ => I t)); [|intros [] s2 Hs2; by apply wpe_ret].
    destruct (dequeue_unstable_events s1); [by apply wlp_kill_event|].
    eapply wlp_pres; [by apply (pres_upd_event [] t)|apply Hs1|done].
  - intros r s1 Hs1. apply wpe_bind. eapply (wpe_mono _ _ (fun _ => I t)); [|intros [] s2 Hs2; by apply wpe_ret].
    apply wpe_when; [intros _|done]. apply wpe_bind. unfold __allocate_event_new.
    apply wpe_bind, wlp_get_node. intros n1 Hn1. apply wpe_bind, wpe_require; [intros _|done].
    eapply wpe_mono; [by apply (wlp___allocate_event [] t (Event_make _ c INVALID_RULE_INDEX None (ee_value i) false))|].
    intros pn s2 Hs2. apply wpe_bind.
    eapply (wlp_pres (in_hand [] t pn (Event_make (ee_node_index i) c INVALID_RULE_INDEX None (ee_value i) false)));
      [solve_pres|done|]. intros ev s3 Hs3. apply wpe_bind, wpe_gets, wpe_bind.
    eapply (wlp_pres (in_hand [] t pn (Event_make (ee_node_index i) c INVALID_RULE_INDEX None (ee_value i) false)));
      [solve_pres|done|]. intros te s4 Hs4. by eapply wlp_enqueue_event.
Qed.
Lemma pres_react_channels t c prev next : pres (I t) (react_channels c prev next).
Proof.
  unfold react_channels, flush_channel_events. pose proof pres_flush_channel_event. solve_pres.
Qed.

(** What the recursive calls promise. *)
Definition set_now_ok (rec_set : nat -> value_enum -> bool -> SM (nat * nat)) : Prop :=
  forall t ni v f, pres (I t) (rec_set ni v f).

Section Rec.
Context (rec_step : SM (nat * nat)) (rec_set : nat -> value_enum -> bool -> SM (nat * nat)).
Hypothesis Hset : set_now_ok rec_set.

Lemma pres_propagate_evaluation t c exi prev : pres (I t) (propagate_evaluation rec_set c exi prev).
Proof.
  unfold propagate_evaluation. apply pres_bind; [solve_pres|]. intros [ev|]; [|apply pres_ret].
  apply pres_bind; [solve_pres|]. intros [].
  apply pres_bind; [solve_pres|]. intros r s Hs. apply wpe_bind, wlp_get_node. intros n Hn.
  cbv zeta. destruct (is_atomic n).
  { eapply (wlp_pres (I t)); [|exact Hs|done]. pose proof Hset. unfold set_now_ok in *. solve_pres. }
  destruct (is_frozen n); [by apply wpe_ret|].
  apply wpe_bind, wpe_gets, wpe_bind, wpe_gets, wpe_bind.
  eapply (wpe_mono _ _ (fun _ s' => node_pool s' = node_pool s /\ I t s')).
  - apply wpe_when; [intros _|by intros]. apply wpe_modify. split; [done|].
    eapply on_events; [|exact Hs]. by split.
  - intros [] s1 [En Hs1]. apply wpe_bind.
    eapply wpe_mono; [apply (pres_filter_weak t); [by rewrite En|done]|].
    intros [[] err] s2 Hs2; [|by apply wpe_ret].
    eapply (wlp_pres (I t)); [|exact Hs2|done]. solve_pres.
Qed.

Lemma pres_propagate_change t ni ept critical prev :
  pres (I t) (propagate_change rec_set ni ept critical prev).
Proof.
  assert (He : forall c gen exi, pres (I t) (evaluate_fanout rec_set c prev gen exi)).
  { unfold evaluate_fanout. pose proof pres_propagate_evaluation. solve_pres. }
  assert (Hf : forall c fanout, pres (I t) (evaluate_fanouts rec_set c fanout prev)).
  { unfold evaluate_fanouts. solve_pres. }
  assert (Hx : forall R c, (forall k s, same_events s (er_put_rings (C:=C) R k s)) ->
      pres (I t) (enforce_excl R c prev)) by (intros R c HR; apply pres_enforce_excl; [apply _|exact HR]).
  unfold propagate_change, enforce_exclhi, enforce_excllo, auto_flush_queues.
  pose proof pres_react_channels. pose proof (pres_flush_updated_nodes (C:=C) []). solve_pres;
    apply Hx; auto with hackt_pres.
Qed.
End Rec.
End Executing.

(** ** The event that is executed *)
Section Knot.
Context {C : Type} {env : Env} {cm : ChannelManager C} {D : DueOrder}.
#[local] Abbreviation State := (State C).
#[local] Abbreviation SM := (M State).
Implicit Types (s : State) (H : list nat).
#[local] Abbreviation I t := (exec_inv (C:=C) [] t).

(** The event of node [ni] is in hand, unless the queue was bypassed. *)
Definition held (t : real_time) (ni pei : nat) s : Prop :=
  exec_inv (if Nat.eqb pei 0 then [] else [pei]) t s /\ links s !! ni = Some pei.
#[global] Instance held_on_events t ni pei : OnEvents (held t ni pei).
Proof.
  intros s s' Hse (Hi & Hl). split; [by eapply on_events|by rewrite (se_links _ _ Hse)].
Qed.
(** It is still in hand, or has been put back. *)
Definition held_unless (t : real_time) (ni pei : nat) (keep : bool) s : Prop :=
  if keep then I t s else held t ni pei s /\ pei <> 0%nat.

Lemma held_keep t ni pei s : held t ni pei s -> held_unless t ni pei (Nat.eqb pei 0) s.
Proof. unfold held_unless, held. destruct (Nat.eqb_spec pei 0); [by intros [? _]|by intros Hs; split]. Qed.

Lemma wlp___deallocate_event t ni pei s : held t ni pei s -> pei <> 0%nat ->
  wlp (__deallocate_event ni pei) (fun _ => I t) s.
Proof.
  intros [(Hev & Hns & Ht) Hl] Hne. rewrite (proj2 (Nat.eqb_neq pei 0)) in Hev by done.
  destruct (links_lookup_inv _ _ _ Hl) as (n & Hn & Hi).
  destruct (ok_link _ _ _ _ _ Hev ni _ Hl Hne) as (e & Ha & Hg & Hk & He).
  destruct (ev_ok_deallocate_live _ _ _ _ _ _ _ Hev Hg Hk) as (p' & Ed & Hev').
  unfold __deallocate_event. apply wpe_bind. eapply wpe_upd_node; [done|].
  eapply wpe_pool_deallocate; [done|]. split; [|by split].
  unfold EV, links. cbn. rewrite links_insert. rewrite He in Hev'. exact Hev'.
Qed.

Lemma wlp_enqueue_held t ni pei te s : held t ni pei s -> pei <> 0%nat ->
  wlp (enqueue_event te pei) (fun _ => I t) s.
Proof.
  intros [Hi Hl] Hne. rewrite (proj2 (Nat.eqb_neq pei 0)) in Hi by done.
  destruct (ok_link _ _ _ _ _ (proj1 Hi) ni _ Hl Hne) as (e & Ha & Hg & Hk & He).
  apply wlp_enqueue_event with e. split; [|done]. rewrite He. by split.
Qed.

Lemma wlp_handle_excl_exception t ni pei ept x s : held t ni pei s ->
  wlp (handle_excl_exception ept pei x)
    (fun go s' => if (go : bool) then held t ni pei s' else I t s') s.
Proof.
  intros Hs. unfold handle_excl_exception. apply wpe_bind, wpe_gets.
  assert (Hgo : forall s0, held t ni pei s0 -> wlp (modify nocheck_excl ;;; ret true)
      (fun go s' => if (go : bool) then held t ni pei s' else I t s') s0).
  { intros s0 Hs0. apply wpe_bind. eapply (wlp_pres (held t ni pei)); [solve_pres|exact Hs0|].
    intros [] s' Hs'. by apply wpe_ret. }
  assert (Hback : wlp (when (negb (Nat.eqb pei 0)) (enqueue_event ept pei) ;;;
      modify (record_exception x) ;;; ret false)
      (fun go s' => if (go : bool) then held t ni pei s' else I t s') s).
  { apply wpe_bind. eapply (wpe_mono _ _ (fun _ => I t)).
    - apply wpe_when; intros Hb.
      + apply negb_true_iff, Nat.eqb_neq in Hb. by eapply wlp_enqueue_held.
      + apply negb_false_iff in Hb. destruct Hs as [Hi _]. by rewrite Hb in Hi.
    - intros [] s1 Hs1. apply wpe_bind. eapply (wlp_pres (I t)); [solve_pres|exact Hs1|].
      intros [] s2 Hs2. by apply wpe_ret. }
  destruct (excl_check_fail_policy _); [by apply Hgo..| |exact Hback|exact Hback].
  apply wpe_bind. eapply (wlp_pres (held t ni pei)); [solve_pres|exact Hs|].
  intros [] s1 Hs1. by apply Hgo.
Qed.

Lemma pres_set_node_value t ni pei pe ept : pres (held t ni pei) (set_node_value ni pe ept).
Proof. unfold set_node_value. solve_pres. Qed.

Lemma wlp_check_and_set t ni pei pe ept prev s : held t ni pei s ->
  wlp (check_and_set ni pe ept pei prev) (fun r => held_unless t ni pei r.2) s.
Proof.
  intros Hs. unfold check_and_set. apply wpe_bind, wpe_gets.
  apply wpe_bind. eapply (wlp_pres (held t ni pei)); [solve_pres|exact Hs|]. intros n s1 Hs1.
  apply wpe_bind. eapply (wlp_pres (held t ni pei)); [|exact Hs1|].
  { destruct (checking_excl s); [auto with hackt_pres|apply pres_ret]. }
  intros x s2 Hs2. apply wpe_bind.
  eapply (wpe_mono _ _ (fun go s' => if (go : bool) then held t ni pei s' else I t s')).
  { destruct x; [by apply wlp_handle_excl_exception|by apply wpe_ret]. }
  intros [] s3 Hs3; [|by apply wpe_ret].
  apply wpe_bind. eapply wlp_pres; [apply pres_set_node_value|exact Hs3|].
  intros [] s4 Hs4. apply wpe_ret. by apply held_keep.
Qed.

Lemma wlp_commit_event rec_step t ni pei pe ept prev s : held t ni pei s ->
  wlp (commit_event rec_step ni pe ept pei prev) (fun r => held_unless t ni pei r.2) s.
Proof.
  intros Hs. pose proof (held_keep _ _ _ _ Hs) as Hk. unfold commit_event.
  destruct (_ && _); [by apply wpe_ret|]. apply wpe_bind, wpe_gets.
  destruct (dequeue_unstable_events s) eqn:Hd; cbn [andb orb].
  - destruct (value_eqb prev (ev_val pe)).
    + apply wpe_bind, wpe_gets.
      assert (Hv : stopping_on_vacuous_events s = true).
      { destruct Hs as [(_ & Hn & _) _]. unfold no_nested_step in Hn. by rewrite Hd in Hn. }
      rewrite Hv. by apply wpe_ret.
    + apply wpe_bind, wpe_require; [intros _|done]. by apply wlp_check_and_set.
  - apply wpe_bind, wpe_require; [intros _|done]. by apply wlp_check_and_set.
Qed.

(** What [execute_immediately] promises. *)
Definition exec_ok (exec : Event -> real_time -> SM (nat * nat)) : Prop :=
  forall t pe ept pei s, held t (ev_node pe) pei s -> wlp (exec pe ept) (fun _ => I t) s.

Lemma exec_event_ok rec_step rec_set : set_now_ok rec_set -> exec_ok (execute_event rec_step rec_set).
Proof.
  intros Hset t pe ept pei s Hs. unfold execute_event.
  do 3 (apply wpe_bind, wpe_gets, wpe_bind, wpe_require; [intros _|done]).
  apply wpe_bind. eapply (wlp_pres (held t (ev_node pe) pei)); [solve_pres|exact Hs|]. intros [] s1 Hs1.
  cbv zeta. apply wpe_bind, wlp_get_node. intros n Hn.
  assert (Hi : n_event_index n = pei).
  { destruct Hs1 as [_ Hl]. rewrite (links_lookup _ _ _ Hn) in Hl. by injection Hl. }
  rewrite Hi. apply wpe_bind. eapply (wlp_pres (held t (ev_node pe) pei)); [solve_pres|exact Hs1|].
  intros [] s2 Hs2. apply wpe_bind.
  eapply (wlp_pres (held t (ev_node pe) pei)); [auto with hackt_pres|exact Hs2|].
  intros critical s3 Hs3. apply wpe_bind. eapply wpe_mono; [by apply wlp_commit_event|].
  intros [cr keep] s4 Hs4. cbn [fst snd] in Hs4 |- *. apply wpe_bind.
  eapply (wpe_mono _ _ (fun _ => I t)).
  { destruct keep; cbn [negb when]; [by apply wpe_ret|]. destruct Hs4. by apply wlp___deallocate_event. }
  intros [] s5 Hs5. destruct cr; [by apply wpe_ret|]. apply wpe_bind.
  eapply wlp_pres; [by apply pres_propagate_change|exact Hs5|]. intros [] s6 Hs6. by apply wpe_ret.
Qed.

Lemma set_now_exec exec : exec_ok exec -> set_now_ok (set_node_immediately_with exec).
Proof.
  intros He t ni v f s Hs. unfold set_node_immediately_with. cbv zeta.
  apply wpe_bind, wlp_get_node. intros n Hn. apply wpe_bind, wpe_require; [intros Hp|done].
  apply wpe_bind, wpe_gets.
  assert (Hl : held t ni 0 s).
  { split; [exact Hs|]. rewrite (links_lookup _ _ _ Hn). f_equal.
    by apply negb_true_iff, pending_event_spec in Hp. }
  destruct f; by eapply He.
Qed.

Lemma execute_immediately_ok fuel : exec_ok (execute_immediately fuel).
Proof.
  induction fuel as [|fuel IH]; [done|]. cbn [execute_immediately].
  apply exec_event_ok. by apply set_now_exec.
Qed.
End Knot.

(** ** Steps *)
Section Steps.
Context {C : Type} {env : Env} {cm : ChannelManager C} {D : DueOrder}.
#[local] Abbreviation State := (State C).
#[local] Abbreviation SM := (M State).
Implicit Types (s : State) (H : list nat).
#[local] Abbreviation I t := (exec_inv (C:=C) [] t).

(** A simulator between two steps. *)
Record sim_ok s : Prop := {
  so_events : wf_events s;
  so_time : t_ok (current_time s) = true;
  so_nested : no_nested_step s = true
}.
(** Nothing in the queue is due before [t]. *)
Definition due_after (t : real_time) s : Prop :=
  Forall (fun x => due t (ep_time x)) (event_queue s).

Lemma wlp_reschedule_event t ni te s : I t s ->
  wlp (reschedule_event ni te) (fun _ s' => I t s' /\
    (event_queue s' = event_queue s \/ exists j, event_queue s' = push (event_queue s) (mkPlaceholder te j))) s.
Proof.
  intros Hs. unfold reschedule_event. apply wpe_bind, wpe_gets.
  destruct (t_lt _ _); [apply wpe_ret; by split; [|left]|].
  apply wpe_bind, wlp_get_node. intros n Hn.
  destruct (pending_event n) eqn:Hp; [|apply wpe_ret; by split; [|left]].
  destruct Hs as (Hev & Hns & Ht). apply wpe_bind. eapply wpe_replace_event; [done..|].
  intros j p' e Hge Hj Hgj He _ s1 Hev1.
  assert (Hh : in_hand [] t j e s1).
  { split; [|done]. split; [by split|split; [|done]]. rewrite He.
    rewrite (links_lookup s1 ni (set_n_event_index j n)); [done|].
    apply list_lookup_insert_eq. by eapply lookup_lt_Some. }
  apply wpe_bind. eapply wpe_mono; [apply (wlp_enqueue_event_at [] t te j e), Hh|].
  intros [] s2 [Hs2 Eq]. apply wpe_ret. split; [done|]. right. by exists j.
Qed.

(** Setting the time to that of the earliest event. *)
Lemma exec_inv_time H t t' s : exec_inv H t s -> due_after t' s -> exec_inv H t' (put_current_time t' s).
Proof. intros (Hev & Hns & Ht) Hd. split_and!; [by eapply ev_ok_time|done|done]. Qed.

Lemma readonly_node_event_min_delay ni v : readonly (S:=State) (node_event_min_delay ni v).
Proof.
  unfold node_event_min_delay, min_delay_of_process, apply_constraint, frame_node,
    lookup_process_timing_fanin, get_process_state, get_type, get_footprint_frame_map, get_node.
  solve_readonly.
Qed.

(** The event that is taken, with the queue behind it. *)
Definition taken t0 (ep : EventPlaceholder real_time) s : Prop :=
  due t0 (current_time s) /\ no_nested_step s = true /\
  EV (if Nat.eqb (ep_index ep) 0 then [] else [ep_index ep]) s /\
  due_after (ep_time ep) s /\ due (current_time s) (ep_time ep).

Lemma wlp_dequeue_event_loop t0 fuel s :
  EV [] s -> no_nested_step s = true -> due t0 (current_time s) ->
  wlp (dequeue_event_loop fuel) (taken t0) s.
Proof.
  revert s. induction fuel as [|fuel IH]; intros s Hev Hns Ht; [done|]. cbn [dequeue_event_loop].
  apply wpe_bind. eapply wpe_mono.
  { eapply wpe_weaken; [|by apply (wp_flush_killed_events [])]. done. }
  intros [] s1 (Hev1 & _ & _ & _ & p1 & q1 & E1).
  assert (Hns1 : no_nested_step s1 = true) by (by subst).
  assert (Ht1 : due t0 (current_time s1)) by (by subst). clear E1 p1 q1 Hev Hns Ht.
  apply wpe_bind, wpe_gets, wpe_bind, wpe_gets.
  destruct (event_queue s1) as [|x q] eqn:Eq; cbn [eq_empty].
  { apply wpe_ret. pose proof (due_ok _ _ Ht1) as Hok. split_and!; [done..| |by apply due_le, t_le_refl].
    unfold due_after. by rewrite Eq. }
  assert (Hhead : due (current_time s1) (ep_time x) /\
      Forall (fun y => t_le (ep_time x) (ep_time y) = true) (x :: q)).
  { unfold EV in Hev1. rewrite Eq in Hev1. by eapply ev_ok_head. }
  destruct Hhead as [Hx Hall].
  assert (Hall' : Forall (fun y => due (ep_time x) (ep_time y)) (x :: q)).
  { eapply Forall_impl; [exact Hall|]. intros y. apply due_le. }
  apply wpe_bind. cbn [top]. apply wpe_lift_res; [|done]. intros x' [= <-].
  apply wpe_bind. unfold get_event at 1. apply wpe_bind, wpe_gets, wpe_lift_res; [|done]. intros e Hg.
  assert (Hpop : wlp queue_pop (taken t0) s1).
  { unfold queue_pop. apply wpe_bind, wpe_gets. rewrite Eq. apply wpe_bind. cbn [pop].
    apply wpe_bind, wpe_modify, wpe_ret. cbn [fst snd].
    assert (Hev2 : EV [ep_index x] (put_event_queue q s1)).
    { unfold EV in *. cbn. rewrite Eq in Hev1. by apply ev_ok_pop. }
    assert (Hi : Nat.eqb (ep_index x) 0 = false).
    { apply Nat.eqb_neq. eapply allocated_pos. apply (ok_alloc _ _ _ _ _ Hev2), elem_of_app.
      right. by left. }
    apply Forall_cons in Hall' as [_ Hall']. unfold taken. by rewrite Hi. }
  destruct (negb (value_eqb (ev_val e) LOGIC_OTHER)); [|exact Hpop].
  apply wpe_bind. unfold wpe at 1.
  destruct (node_event_min_delay (ev_node e) (ev_val e) s1) as [[c s1']|f] eqn:Ec; [|done].
  apply readonly_node_event_min_delay in Ec as ->.
  destruct (delayed c && t_lt (ep_time x) (time c)) eqn:Hd; [|exact Hpop].
  apply andb_true_iff in Hd as [_ Hlt].
  apply wpe_bind, wpe_require; [intros _|done]. apply wpe_bind.
  eapply wpe_mono; [by apply (wlp_reschedule_event (current_time s1))|].
  intros err s2 [Hs2 Hq2]. apply wpe_bind, wpe_require; [intros _|done]. apply wpe_bind, wpe_modify.
  assert (Hdue : due_after (ep_time x) s2).
  { unfold due_after. destruct Hq2 as [->|[j ->]]; rewrite Eq; [done|].
    rewrite (push_perm (x :: q) (mkPlaceholder (time c) j)). constructor; [by apply due_le, t_lt_le|done]. }
  destruct (exec_inv_time _ _ _ _ Hs2 Hdue) as (Hev3 & Hns3 & _).
  apply IH; [done|done|]. change (due t0 (ep_time x)). by eapply due_trans.
Qed.

Lemma wlp_dequeue_event s : sim_ok s -> wlp dequeue_event (taken (current_time s)) s.
Proof.
  intros [Hev Ht Hns]. unfold dequeue_event. apply wpe_bind, wpe_gets.
  apply wlp_dequeue_event_loop; [done|done|by apply due_le, t_le_refl].
Qed.

(** What a step promises. *)
Definition step_post s s' : Prop := sim_ok s' /\ due (current_time s) (current_time s').

Lemma step_post_refl s : sim_ok s -> step_post s s.
Proof. intros Hs. split; [done|]. apply due_le, t_le_refl, Hs. Qed.
Lemma step_post_trans s1 s2 s3 : step_post s1 s2 -> step_post s2 s3 -> step_post s1 s3.
Proof. intros [_ H12] [Hs3 H23]. split; [done|]. by eapply due_trans. Qed.

Lemma wlp_step_with exec s : exec_ok exec -> sim_ok s -> wlp (step_with exec) (fun _ => step_post s) s.
Proof.
  intros He Hs. unfold step_with. apply wpe_bind, wpe_modify.
  set (s1 := put___atomic_updated_nodes [] s).
  assert (Hs1 : sim_ok s1) by (by destruct Hs).
  eapply (wpe_mono _ _ (fun _ => step_post s1)); [|by intros r s'].
  apply wpe_bind, wpe_gets. destruct (negb (pending_events s1)); [by apply wpe_ret, step_post_refl|].
  apply wpe_bind. eapply wpe_mono; [by apply wlp_dequeue_event|].
  intros ep s2 (Ht & Hns & Hev & Hdue & Hep). apply wpe_bind, wpe_modify.
  set (s3 := put_current_time (ep_time ep) s2).
  assert (Hi : exec_inv (if Nat.eqb (ep_index ep) 0 then [] else [ep_index ep]) (ep_time ep) s3).
  { by eapply exec_inv_time. }
  assert (Htt : due (current_time s1) (ep_time ep)) by (by eapply due_trans).
  pose proof (due_ok _ _ Htt) as Hok.
  assert (Hpost : forall s', I (ep_time ep) s' -> step_post s1 s').
  { intros s' (Hev' & Hns' & Ht'). split; [|by rewrite Ht']. split; [done|by rewrite Ht'|done]. }
  unfold execute_queued. destruct (Nat.eqb_spec (ep_index ep) 0) as [E0|E0].
  { apply wpe_ret. by apply Hpost. }
  apply wpe_bind. unfold get_event at 1. apply wpe_bind, wpe_gets, wpe_lift_res; [|done]. intros pe Hg.
  apply wpe_bind, wlp_get_node. intros n Hn. apply wpe_bind, wpe_require; [intros _|done].
  apply wpe_bind, wpe_require; [intros Hni%Nat.eqb_eq|done].
  eapply wpe_mono; [apply (He (ep_time ep) pe (ep_time ep) (ep_index ep))|].
  - split; [by rewrite (proj2 (Nat.eqb_neq _ 0))|]. rewrite (links_lookup _ _ _ Hn). by f_equal.
  - intros r s' Hs'. by apply Hpost.
Qed.

Lemma wlp_step fuel s : sim_ok s -> wlp (step fuel) (fun _ => step_post s) s.
Proof. intros Hs. unfold step. apply wlp_step_with; [apply execute_immediately_ok|done]. Qed.

Lemma wlp_cycle fuel s : sim_ok s -> wlp (cycle fuel) (fun _ => step_post s) s.
Proof.
  revert s. induction fuel as [|fuel IH]; intros s Hs; [done|]. cbn [cycle].
  apply wpe_bind. eapply wpe_mono; [exact (wlp_step fuel s Hs)|]. intros r s1 Hs1.
  destruct (Nat.eqb _ _); [by apply wpe_ret|]. apply wpe_bind, wlp_get_node. intros n Hn.
  apply wpe_bind, wpe_gets. destruct (_ || _); [by apply wpe_ret|].
  eapply wpe_mono; [apply IH, Hs1|]. intros r' s2 Hs2. exact (step_post_trans _ _ _ Hs1 Hs2).
Qed.
End Steps.
