(* ===== verification/StepProps.v ===== *)
(** Properties of steps, runs and initialization, with an example circuit. *)
From S2P Require Import Prelude SimTime PullSet Expr EventQueue ArrayPool OrdMap Node ProcGraph.
From S2P Require Import State Events Schedule Excl Flush Eval Feedback TimingCheck Step.
From S2P Require Import EventInv EventProps ScheduleProps StepInv.
Open Scope Z_scope.
Local Open Scope hackt_scope.
#[local] Abbreviation length := Datatypes.length.

(** ** Initialization *)
Section Init.
Context {C : Type} {env : Env} {cm : ChannelManager C} {D : DueOrder}.
#[local] Abbreviation State := (State C).
#[local] Abbreviation SM := (M State).
Implicit Types (s : State).
#[local] Abbreviation I t := (exec_inv (C:=C) [] t).

Lemma pres_set_node_event t ni val te f : pres (I t) (set_node_event ni val te f).
Proof.
  intros s Hs. unfold set_node_event. apply wpe_bind, wlp_get_node. intros n _.
  destruct (_ || _); [|by apply wpe_ret]. apply wpe_bind. unfold __allocate_event_new.
  apply wpe_bind, wlp_get_node. intros n1 _. apply wpe_bind, wpe_require; [intros _|done]. cbv zeta.
  set (e := if f then _ else _).
  assert (He : killed e = false /\ ev_node e = ni) by (unfold e; by destruct f).
  destruct He as [Hk He]. pose proof (wlp___allocate_event [] t e s Hs Hk) as Hw. rewrite He in Hw.
  eapply wpe_mono; [exact Hw|]. intros i s1 Hi.
  apply wpe_bind. eapply wpe_mono; [apply (wlp_enqueue_event [] t te i e), Hi|].
  intros [] s2 Hs2. by apply wpe_ret.
Qed.

Lemma pres_set_node_time t ni val te f : pres (I t) (set_node_time ni val te f).
Proof.
  intros s Hs. unfold set_node_time. apply wpe_bind, wlp_get_node. intros n Hn. cbv zeta.
  destruct (is_atomic n); [by apply wpe_ret|]. destruct (pending_event n) eqn:Hp.
  - pose proof (linked_intro _ _ _ _ _ Hs Hn Hp) as Hl. apply wpe_bind.
    eapply (wlp_pres (linked [] t ni (n_event_index n))); [solve_pres|done|]. intros e s1 Hs1.
    destruct f.
    + apply wpe_bind. eapply wpe_mono; [by apply wlp_kill_event|]. intros [] s2 Hs2.
      by apply pres_set_node_event.
    + destruct (negb _); apply wpe_ret; apply Hs1.
  - destruct (value_eqb _ _); [by apply wpe_ret|]. by apply pres_set_node_event.
Qed.

Lemma wlp_set_node ni val f s : sim_ok s -> wlp (set_node ni val f) (fun _ => step_post s) s.
Proof.
  intros Hs. unfold set_node. apply wpe_bind, wpe_gets.
  eapply wpe_mono; [apply (pres_set_node_time (current_time s)); split; [apply Hs|split; [apply Hs|done]]|].
  intros r s' (Hev & Hns & Ht). destruct Hs as [_ Hok _]. unfold step_post. rewrite Ht.
  split; [split; [done|by rewrite Ht|done]|by apply due_le, t_le_refl].
Qed.

(** The nodes forget their events, which are still in the queue. *)
Definition unlinked s : Prop :=
  pool_queue_ok (event_pool s) (event_queue s) /\ no_nested_step s = true /\
  t_ok (current_time s) = true /\ Forall (fun i => i = 0%nat) (links s).
#[global] Instance unlinked_on_events : OnEvents unlinked.
Proof. intros s s' [Ep Eq El Et En]. unfold unlinked. by rewrite Ep, Eq, El, Et, En. Qed.

Lemma unlinked_drained s p : unlinked s -> pool_queue_ok p [] -> sim_ok (put_event_pool p (put_event_queue [] s)).
Proof.
  intros (_ & Hns & Ht & Hl) [Hp Hnd Ha]. rewrite Forall_forall in Hl.
  assert (Hna : forall i, ~ allocated p i) by (intros i Hi; by apply Ha, elem_of_nil in Hi).
  split; [|done|done]. split.
  - exact Hp.
  - split; constructor.
  - constructor.
  - intros i. split; [intros Hi; by apply Hna in Hi|intros Hi; by apply elem_of_nil in Hi].
  - intros i e Hi. by apply Hna in Hi.
  - intros i e Hi. by apply Hna in Hi.
  - intros ni i Hi Hi0. apply list_elem_of_lookup_2, Hl in Hi. done.
  - constructor.
Qed.

Lemma wlp___initialize_state fuel startup rc s :
  pool_queue_ok (event_pool s) (event_queue s) -> no_nested_step s = true ->
  t_ok (current_time s) = true -> wlp (__initialize_state fuel startup rc) (fun _ => sim_ok) s.
Proof.
  intros Hpq Hns Ht. unfold __initialize_state. apply wpe_bind, wpe_modify.
  set (f := if startup then _ else _). set (s0 := put_node_pool _ s).
  assert (Hu : unlinked s0).
  { split_and!; [done|done|done|]. apply Forall_forall. intros i Hi. unfold links in Hi.
    apply list_elem_of_fmap in Hi as (n' & -> & Hn').
    apply list_elem_of_fmap in Hn' as (n & -> & _). unfold f. by destruct startup, rc. }
  clearbody s0. apply wpe_bind. eapply (wlp_pres unlinked); [solve_pres|exact Hu|].
  intros [] s1 Hu1. apply wpe_bind.
  eapply wpe_mono; [eapply wpe_weaken; [|apply wp_drain_events, Hu1]; done|].
  intros [] s2 ((p & ->) & Hpq2 & _). pose proof (unlinked_drained _ _ Hu1 Hpq2) as Hs2.
  clear Hpq2. apply wpe_bind, wpe_gets, wpe_bind, wpe_require; [intros _|done].
  apply wpe_bind, wpe_modify, wpe_bind, wpe_modify.
  apply wpe_bind, wpe_require; [intros _|done]. apply wpe_bind, wpe_require; [intros _|done].
  apply wpe_bind. eapply wpe_mono; [apply wlp_set_node; by destruct Hs2|]. intros r s3 [Hs3 _].
  apply wpe_bind. eapply wpe_mono; [by apply wlp_set_node|]. intros r' s4 [Hs4 _].
  apply wpe_bind. eapply wpe_mono; [by apply wlp_cycle|]. intros r'' s5 [Hs5 _].
  apply wpe_bind, wpe_gets, wpe_bind, wpe_lift_res; [|done]. intros m' _.
  apply wpe_modify. by destruct Hs5.
Qed.

Lemma wlp___initialize fuel startup s :
  wf_events s -> no_nested_step s = true ->
  wlp (__initialize fuel startup) (fun _ s' => sim_ok s' /\ real_is_zero (current_time s') = true) s.
Proof.
  intros Hwf Hns. unfold __initialize, __initialize_time, close_trace, close_vcd.
  apply wpe_bind, wpe_bind, wpe_modify, wpe_bind, wpe_modify, wpe_modify.
  apply wpe_bind. eapply wpe_mono; [apply wlp___initialize_state|].
  - exact (EV_pool_queue _ Hwf).
  - unfold stop_vcd, stop_trace.
    rewrite (se_nested _ _ (no_nested_put_flag false 16 _ ltac:(done) ltac:(done) ltac:(done))).
    transitivity (no_nested_step (put_flag_of false (2 ^ 15) s)); [done|].
    by rewrite (se_nested _ _ (no_nested_put_flag false 15 s ltac:(done) ltac:(done) ltac:(done))).
  - done.
  - intros [] s1 Hs1. apply wpe_bind, wpe_gets, wpe_require; [by split|done].
Qed.

Lemma wlp_initialize fuel s : wf_events s -> no_nested_step s = true ->
  wlp (initialize fuel) (fun _ s' => sim_ok s' /\ real_is_zero (current_time s') = true) s.
Proof.
  intros Hwf Hns. unfold initialize. apply wpe_bind.
  eapply wpe_mono; [by apply wlp___initialize|]. intros [] s1 [[Hev Ht Hn] Hz].
  apply wpe_modify. split; [|done]. split; [done|done|].
  rewrite <- Hn. destruct (no_nested_put_flag false 1 s1) as [_ _ _ _ <-]; [done..|].
  unfold put_flag_of, put_flag, set_flag, FLAGS_INITIALIZE_SET_MASK. by rewrite Z.lor_0_r.
Qed.

(** What [reset] sets besides the events. *)
Definition reset_defaults s : Prop :=
  flags s = FLAGS_DEFAULT /\ policies s = default_policies /\
  timing_mode (timing s) = TIMING_DEFAULT /\ uniform_delay (timing s) = real_default_delay /\
  (forall i n, node_pool s !! i = Some n -> is_breakpoint n = false /\
     (i <> 0%nat -> is_watchpoint n = false)).

Lemma clear_breakpoint_off n : is_breakpoint (clear_breakpoint n) = false.
Proof. apply (has_flag_put_same false _ 0). lia. Qed.
Lemma clear_watchpoint_off n : is_watchpoint (clear_breakpoint (clear_watchpoint n)) = false.
Proof.
  unfold is_watchpoint, clear_breakpoint, state_flag_put. cbn [n_state_flags set_n_state_flags].
  rewrite (has_flag_put_other false _ 0 1) by done. apply (has_flag_put_same false _ 1). lia.
Qed.

Lemma wlp_reset fuel s : wf_events s -> no_nested_step s = true ->
  wlp (reset fuel) (fun _ s' => sim_ok s' /\ reset_defaults s' /\
    real_is_zero (current_time s') = true) s.
Proof.
  intros Hwf Hns. unfold reset. apply wpe_bind.
  eapply wpe_mono; [by apply wlp___initialize|]. intros [] s1 [[Hev Ht _] Hz].
  repeat (apply wpe_bind, wpe_modify). apply wpe_modify. unfold reset_defaults. split_and!.
  - split; [|exact Ht|reflexivity]. apply (EV_ext [] s1); [reflexivity|reflexivity| |reflexivity|exact Hev].
    unfold links. cbn [node_pool put_node_pool put_rng put__channel_manager put_timing put_policies put_flags].
    rewrite map_map. by destruct (node_pool s1); cbn; rewrite ?map_map.
  - reflexivity.
  - reflexivity.
  - reflexivity.
  - reflexivity.
  - intros i n Hn. change (map clear_breakpoint (match node_pool s1 with
      [] => [] | n0 :: l => n0 :: map clear_watchpoint l end) !! i = Some n) in Hn.
    rewrite list_lookup_fmap in Hn. apply fmap_Some in Hn as (m & Hm & ->).
    split; [apply clear_breakpoint_off|]. intros Hi. destruct i as [|i]; [done|].
    destruct (node_pool s1) as [|n0 l]; [done|]. cbn [lookup list_lookup] in Hm.
    change (map clear_watchpoint l !! i = Some m) in Hm.
    rewrite list_lookup_fmap in Hm. apply fmap_Some in Hm as (k & _ & ->). apply clear_watchpoint_off.
  - exact Hz.
Qed.
End Init.

(** ** Fuel *)
Section Fuel.
Context {C : Type} {env : Env} {cm : ChannelManager C}.
#[local] Abbreviation State := (State C).
#[local] Abbreviation SM := (M State).

Lemma approx_propagate_evaluation (set1 set2 : nat -> value_enum -> bool -> SM (nat * nat)) c exi prev :
  (forall ni v f, approx (set1 ni v f) (set2 ni v f)) ->
  approx (propagate_evaluation set1 c exi prev) (propagate_evaluation set2 c exi prev).
Proof. intros Hs. unfold propagate_evaluation, save_updated_nodes. solve_approx. Qed.

Lemma approx_execute_event (step1 step2 : SM (nat * nat)) set1 set2 pe ept :
  approx step1 step2 -> (forall ni v f, approx (set1 ni v f) (set2 ni v f)) ->
  approx (execute_event step1 set1 pe ept) (execute_event step2 set2 pe ept).
Proof.
  intros Hst Hs.
  assert (Hp : forall c exi prev, approx (propagate_evaluation set1 c exi prev) (propagate_evaluation set2 c exi prev)).
  { intros. by apply approx_propagate_evaluation. }
  unfold execute_event, commit_event, propagate_change, evaluate_fanouts, evaluate_fanout.
  cbv zeta. solve_approx.
Qed.

Lemma approx_step_with (e1 e2 : Event -> real_time -> SM (nat * nat)) :
  (forall pe t, approx (e1 pe t) (e2 pe t)) -> approx (step_with e1) (step_with e2).
Proof. intros He. unfold step_with, execute_queued. solve_approx. Qed.

Lemma approx_execute_immediately fuel fuel' pe t : (fuel <= fuel')%nat ->
  approx (execute_immediately fuel pe t) (execute_immediately fuel' pe t).
Proof.
  revert fuel' pe t. induction fuel as [|fuel IH]; intros fuel' pe t Hle; [apply approx_out|].
  destruct fuel' as [|fuel']; [lia|]. cbn [execute_immediately].
  assert (He : forall pe t, approx (execute_immediately fuel pe t) (execute_immediately fuel' pe t))
    by (intros; apply IH; lia).
  apply approx_execute_event; [by apply approx_step_with|].
  intros ni v f. unfold set_node_immediately_with. cbv zeta. solve_approx.
Qed.

Lemma approx_cycle fuel fuel' : (fuel <= fuel')%nat -> approx (cycle fuel) (cycle fuel').
Proof.
  revert fuel'. induction fuel as [|fuel IH]; intros fuel' Hle; [apply approx_out|].
  destruct fuel' as [|fuel']; [lia|]. cbn [cycle].
  assert (Hc : approx (cycle fuel) (cycle fuel')) by (apply IH; lia).
  assert (Hs : approx (step fuel) (step fuel')).
  { apply approx_step_with. intros. apply approx_execute_immediately. lia. }
  solve_approx.
Qed.
End Fuel.

(** ** Properties *)
Section Theorems.
Context {C : Type} {env : Env} {cm : ChannelManager C}.
#[local] Abbreviation State := (State C).
Implicit Types (s : State).

Lemma wlp_cycle_reason fuel s :
  wlp (cycle fuel) (fun r s' => r.1 = INVALID_NODE_INDEX \/ stopped s' = true \/
    exists n, node_pool s' !! r.1 = Some n /\ is_breakpoint n = true) s.
Proof.
  revert s. induction fuel as [|fuel IH]; intros s; [done|]. cbn [cycle].
  apply wpe_bind. eapply (wpe_mono _ _ (fun _ _ => True)).
  { unfold wpe. by destruct (step fuel s) as [[]|]. }
  intros r s1 _. destruct (Nat.eqb_spec r.1 0) as [H0|_]; [apply wpe_ret; by left|].
  apply wpe_bind, wlp_get_node. intros n Hn. apply wpe_bind, wpe_gets.
  destruct (is_breakpoint n || stopped s1) eqn:Hb; [|apply IH]. apply wpe_ret. right.
  apply orb_true_iff in Hb as [Hb|Hb]; [right; by exists n|by left].
Qed.

(** C8: a step that returns keeps the simulator well formed: whatever it
    propagates, kills, cancels, overwrites or schedules, the pool, the queue and
    the nodes agree on the pending events afterwards, no event is left in hand,
    nothing in the queue is due in the past, and time has not run backwards. *)
Theorem step_preserves_events fuel s r s' :
  sim_ok s -> step fuel s = Ok (r, s') ->
  sim_ok s' /\ t_le (current_time s) (current_time s') = true.
Proof. intros Hs E. exact (wpe_ok _ _ _ _ _ _ E (wlp_step fuel s Hs)). Qed.

(** C27: a run that returns keeps the simulator well formed, and it only ends
    for a reason: the last step changed no node, or it changed a node with a
    breakpoint, or the simulation has been stopped. *)
Theorem cycle_stops_for_a_reason fuel s r s' :
  sim_ok s -> cycle fuel s = Ok (r, s') ->
  sim_ok s' /\ t_le (current_time s) (current_time s') = true /\
  (r.1 = INVALID_NODE_INDEX \/ stopped s' = true \/
   exists n, node_pool s' !! r.1 = Some n /\ is_breakpoint n = true).
Proof.
  intros Hs E. destruct (wpe_ok _ _ _ _ _ _ E (wlp_cycle fuel s Hs)) as [Hs' Ht].
  split; [done|split; [done|]]. exact (wpe_ok _ _ _ _ _ _ E (wlp_cycle_reason fuel s)).
Qed.

(** fuel is only a bound on the depth of the recursion and on the length
    of a run: a step or a run that returns does the same with any more fuel. *)
Theorem more_fuel_same_run fuel fuel' s :
  (fuel <= fuel')%nat ->
  (forall x, step fuel s = Ok x -> step fuel' s = Ok x) /\
  (forall x, cycle fuel s = Ok x -> cycle fuel' s = Ok x).
Proof.
  intros Hle. split; intros x; apply approx_ok; [|by apply approx_cycle].
  apply approx_step_with. intros pe t. by apply approx_execute_immediately.
Qed.

(** C26: [initialize] leaves a well-formed simulator at time zero, whatever
    was pending before; [reset] in addition restores the flags, the error
    policies and the timing mode, and clears every breakpoint and watched
    node. *)
Theorem reset_restores fuel s :
  wf_events s -> no_nested_step s = true ->
  (forall s', initialize fuel s = Ok (tt, s') -> sim_ok s' /\ real_is_zero (current_time s') = true) /\
  (forall s', reset fuel s = Ok (tt, s') ->
     sim_ok s' /\ reset_defaults s' /\ real_is_zero (current_time s') = true).
Proof.
  intros Hwf Hns. split; intros s' E.
  - exact (wpe_ok _ _ _ _ _ _ E (wlp_initialize fuel s Hwf Hns)).
  - exact (wpe_ok _ _ _ _ _ _ E (wlp_reset fuel s Hwf Hns)).
Qed.
End Theorems.

(** ** An example: an inverter, from node 3 to node 4 *)
Section Example.
Definition inv_graph : unique_process_subgraph :=
  mkGraph [mkExpr 1 (Z.lor EXPR_OR EXPR_ROOT) 1; mkExpr 1 (Z.lor EXPR_NOT EXPR_ROOT) 1]
    [mkExprGraphNode 255 [(true, 0%nat)]; mkExprGraphNode 255 [(true, 0%nat)]]
    [set_direction false (Rule_make real_default_delay);
     set_direction true (Rule_make real_default_delay)] [(0, 0); (1, 1)]%nat []
    [mkFaninout [] [] [] [] [0; 1]%nat false; mkFaninout [1%nat] [] [0%nat] [] [] false]
    [] [] [].
#[export] Instance ex_env : Env := {|
  env_rand48 := fun _ => real_zero; env_lrand48 := fun _ => 0; env_garbage := real_zero;
  env_log := id; env_shuffle := fun _ l => l;
  env_GND := 1%nat; env_Vdd := 2%nat |}.
(** No channels. *)
#[export] Instance ex_channels : ChannelManager unit := {|
  cm_initialize := Ok; cm_clobber_all := id;
  cm_process_node := fun s _ _ _ => Ok (mkAnswer tt (rng s) [] []);
  cm_reset_channel := fun s _ => Ok (mkAnswer tt (rng s) [] []);
  cm_resume_channel := fun s _ => Ok (mkAnswer tt (rng s) [] []);
  cm_reset_all_channels := fun s => Ok (mkAnswer tt (rng s) [] []);
  cm_resume_all_channels := fun s => Ok (mkAnswer tt (rng s) [] []);
  cm_node_has_fanin := fun _ _ => false; cm_node_has_fanout := fun _ _ => false |}.

Definition one_rule : fanin_pair := mkFaninPair (mkFanin 1 0 1) fanin_empty.
Definition inv_nodes : list NodeState :=
  [NodeState_empty; NodeState_empty; NodeState_empty; set_n_fanout [1; 2]%nat NodeState_empty;
   set_n_fanin [0%nat] (set_n_pull_up one_rule (set_n_pull_dn one_rule NodeState_empty))].
Definition inv_empty : State unit :=
  State_construct 4 [inv_graph] [(1, 0)]%nat [allocate_from_type inv_graph 0 1] [[3; 4]%nat] false tt.
Definition inv_s0 : State unit := put_node_pool inv_nodes inv_empty.
Definition inv_s1 : State unit := ex_run (initialize 8) inv_s0.
Definition inv_s2 : State unit := ex_run (set_node_time 3 LOGIC_HIGH ex_t5 false) inv_s1.
Definition inv_s3 : State unit := ex_run (step 8) inv_s2.
Definition inv_s4 : State unit := ex_run (cycle 8) inv_s2.

(** The input goes high at 5, the output low at 15. *)
Example inverter_runs :
  match cycle 8 inv_s2 with
  | Ok (r, s) => Some (r, current_time s, map n_value (node_pool s))
  | Err _ => None
  end = Some ((0, 0)%nat, double_of_Z 15 0,
              [LOGIC_OTHER; LOGIC_LOW; LOGIC_HIGH; LOGIC_HIGH; LOGIC_LOW]).
Proof. vm_compute. reflexivity. Qed.

Lemma inv_s0_wf : wf_events inv_s0.
Proof. apply (EV_ext [] inv_empty); [reflexivity..|apply wf_events_construct]. Qed.

Definition ran {A} (m : M (State unit) A) (s : State unit) : bool :=
  match m s with Ok _ => true | Err _ => false end.
Lemma ex_run_ok {A} (m : M (State unit) A) s : ran m s = true -> exists a, m s = Ok (a, ex_run m s).
Proof. unfold ran, ex_run. destruct (m s) as [[a s']|f]; [by exists a|done]. Qed.
Lemma ex_run_wlp {A} (m : M (State unit) A) (Q : State unit -> Prop) s :
  wlp m (fun _ => Q) s -> ran m s = true -> Q (ex_run m s).
Proof. intros Hw Hr. destruct (ex_run_ok m s Hr) as [a E]. exact (wpe_ok _ _ _ _ _ _ E Hw). Qed.

Lemma inv_s1_ok : sim_ok inv_s1.
Proof.
  apply (ex_run_wlp (initialize 8) sim_ok inv_s0); [|vm_compute; reflexivity].
  eapply wpe_mono; [apply (wlp_initialize 8 inv_s0 inv_s0_wf); reflexivity|]. by intros r s' [? _].
Qed.
Lemma ex_set_ok ni v t f s : sim_ok s -> ran (set_node_time ni v t f) s = true ->
  sim_ok (ex_run (set_node_time ni v t f) s).
Proof.
  intros [Hev Ht Hns]. apply ex_run_wlp.
  eapply wpe_mono; [apply (pres_set_node_time (current_time s)); by split|].
  intros r s' (Hev' & Hns' & Ht'). split; [exact Hev'|rewrite Ht'; exact Ht|exact Hns'].
Qed.
Lemma inv_s2_ok : sim_ok inv_s2.
Proof. apply ex_set_ok; [exact inv_s1_ok|vm_compute; reflexivity]. Qed.

Lemma ex_step_ok fuel s : sim_ok s -> ran (step fuel) s = true -> sim_ok (ex_run (step fuel) s).
Proof.
  intros Hs. apply ex_run_wlp. eapply wpe_mono; [by apply wlp_step|]. by intros r s' [? _].
Qed.
Lemma ex_cycle_ok fuel s : sim_ok s -> ran (cycle fuel) s = true -> sim_ok (ex_run (cycle fuel) s).
Proof.
  intros Hs. apply ex_run_wlp. eapply wpe_mono; [by apply wlp_cycle|]. by intros r s' [? _].
Qed.
Lemma inv_s3_ok : sim_ok inv_s3.
Proof. apply ex_step_ok; [exact inv_s2_ok|vm_compute; reflexivity]. Qed.

Lemma step_preserves_events_witness :
  sim_ok inv_s3 /\ t_le (current_time inv_s2) (current_time inv_s3) = true.
Proof.
  destruct (ex_run_ok (step 8) inv_s2) as [r E]; [vm_compute; reflexivity|].
  exact (step_preserves_events 8 inv_s2 r inv_s3 inv_s2_ok E).
Defined.

Lemma cycle_stops_for_a_reason_witness :
  exists r, cycle 8 inv_s2 = Ok (r, inv_s4) /\
    (r.1 = INVALID_NODE_INDEX \/ stopped inv_s4 = true \/
     exists n, node_pool inv_s4 !! r.1 = Some n /\ is_breakpoint n = true).
Proof.
  destruct (ex_run_ok (cycle 8) inv_s2) as [r E]; [vm_compute; reflexivity|]. exists r.
  destruct (cycle_stops_for_a_reason 8 inv_s2 r inv_s4 inv_s2_ok E) as (_ & _ & H).
  split; [exact E|exact H].
Defined.

Lemma more_fuel_same_run_witness : exists r, cycle 1000 inv_s2 = Ok (r, inv_s4).
Proof.
  destruct (ex_run_ok (cycle 8) inv_s2) as [r E]; [vm_compute; reflexivity|]. exists r.
  exact (proj2 (more_fuel_same_run 8 1000 inv_s2 ltac:(lia)) _ E).
Defined.

Lemma reset_restores_witness :
  reset_defaults (ex_run (reset 8) inv_s3) /\ sim_ok (ex_run (reset 8) inv_s3).
Proof.
  destruct (ex_run_ok (reset 8) inv_s3) as [[] E]; [vm_compute; reflexivity|].
  destruct inv_s3_ok as [Hev _ Hns].
  destruct (proj2 (reset_restores 8 inv_s3 Hev Hns) _ E) as (H1 & H2 & _). split; [exact H2|exact H1].
Defined.

(** Node 4 is low; it is set to high and then, by force, to low again, which
    leaves a vacuous event; the input goes low later. *)
Definition nest_t (z : Z) : real_time := double_of_Z z 0.
Definition nest_s1 : State unit := ex_run (set_node_time 4 LOGIC_HIGH (nest_t 20) false) inv_s4.
Definition nest_s2 : State unit := ex_run (set_node_time 4 LOGIC_LOW (nest_t 20) true) nest_s1.
Definition nest_s3 : State unit := ex_run (set_node_time 3 LOGIC_LOW (nest_t 25) false) nest_s2.
Definition nest_s : State unit := set_dequeue_unstable_events true nest_s3.

Lemma wf_set_dequeue b (s : State unit) : wf_events s -> wf_events (set_dequeue_unstable_events b s).
Proof. intros Hev. by apply (EV_ext [] s). Qed.
Lemma nest_s_wf : wf_events nest_s.
Proof.
  assert (H4 : sim_ok inv_s4) by (apply ex_cycle_ok; [exact inv_s2_ok|vm_compute; reflexivity]).
  assert (H1 : sim_ok nest_s1) by (apply ex_set_ok; [exact H4|vm_compute; reflexivity]).
  assert (H2 : sim_ok nest_s2) by (apply ex_set_ok; [exact H1|vm_compute; reflexivity]).
  assert (H3 : sim_ok nest_s3) by (apply ex_set_ok; [exact H2|vm_compute; reflexivity]).
  destruct H3 as [Hev _ _]. exact (wf_set_dequeue true nest_s3 Hev).
Qed.
End Example.

(** A step inside a step breaks the event pool.  When unstable events
    are dequeued and the simulator does not stop at vacuous events, the vacuous
    event of node 4 makes [step] call itself before it has released that
    event; the inner step gives node 4 a new event, the outer one then unlinks
    that, and the next step fails an assertion.  The state before was well
    formed. *)
Theorem nested_step_breaks_events :
  wf_events nest_s /\ no_nested_step nest_s = false /\
  ran (step 8) nest_s = true /\ step 8 (ex_run (step 8) nest_s) = Err F_ise.
Proof.
  split; [exact nest_s_wf|]. split; [vm_compute; reflexivity|]. split; [vm_compute; reflexivity|].
  vm_compute; reflexivity.
Qed.
