(* ===== verification/CommandInv.v ===== *)
(** Preservation of the event system by the commands.

    A simulator is fit for the next command, [sim_fit], when its event pool,
    its queue and its nodes agree on the pending events.  Pending events may lie
    in the past: the command [advance] can pass them over.  Each operation that
    a command calls keeps that, so each command does, and so does any session
    that is made of them. *)
From stdpp Require Import strings.
From S2P Require Import Prelude Strings SimTime PullSet Expr EventQueue ArrayPool OrdMap Node ProcGraph.
From S2P Require Import Directory State Registry RegistryProps Events Schedule Excl Flush Eval Feedback.
From S2P Require Import TimingCheck Step SimCommands Channel ChannelManager ChannelCommands Commands.
From stdpp Require Import sorting.
From S2P Require Import EventInv EventProps StepInv StepProps.
Open Scope Z_scope.
Local Open Scope hackt_scope.
#[local] Abbreviation length := Datatypes.length.

(** ** Operations of the simulator *)
Section Ops.
Context {C : Type} {env : Env} {cm : ChannelManager C} {D : DueOrder}.
#[local] Abbreviation State := (State C).
#[local] Abbreviation SM := (M State).
Implicit Types (s : State) (H : list nat).
#[local] Abbreviation I t := (exec_inv (C:=C) [] t).
#[local] Abbreviation OK := (sim_ok (C:=C)).

#[global] Instance sim_ok_on_events : OnEvents OK.
Proof.
  intros s s' [Ep Eq El Et En] [Hev Ht Hn]. split; [by eapply EV_ext|by rewrite Et|by rewrite En].
Qed.

(** What does not depend on the time keeps a simulator between two steps. *)
Lemma pres_at_any_time {A} (m : SM A) : (forall t, pres (I t) m) -> pres OK m.
Proof.
  intros Hm s [Hev Ht Hn]. eapply wpe_mono; [apply (Hm (current_time s)); by split|].
  intros a s' (Hev' & Hn' & Ht'). split; [done|by rewrite Ht'|done].
Qed.

Lemma pres_sim_step fuel : pres OK (step fuel).
Proof. intros s Hs. eapply wpe_mono; [by apply wlp_step|]. by intros r s' [? _]. Qed.
Lemma pres_set_node ni val f : pres OK (set_node ni val f).
Proof. intros s Hs. eapply wpe_mono; [by apply wlp_set_node|]. by intros r s' [? _]. Qed.
Lemma pres_set_node_at ni val t f : pres OK (set_node_time ni val t f).
Proof. apply pres_at_any_time. intros. apply pres_set_node_time. Qed.
Lemma pres_set_node_after ni val t f : pres OK (set_node_after ni val t f).
Proof. unfold set_node_after. pose proof pres_set_node_at. solve_pres. Qed.
Lemma pres_set_node_immediately fuel ni val f : pres OK (set_node_immediately fuel ni val f).
Proof. apply pres_at_any_time. intros t. apply set_now_exec, execute_immediately_ok. Qed.
Lemma pres_initialize fuel : pres OK (initialize fuel).
Proof. intros s [Hev _ Hn]. eapply wpe_mono; [by apply wlp_initialize|]. by intros r s' [? _]. Qed.
Lemma pres_reset fuel : pres OK (reset fuel).
Proof. intros s [Hev _ Hn]. eapply wpe_mono; [by apply wlp_reset|]. by intros r s' [? _]. Qed.
Lemma pres_x_all fuel : pres OK (x_all fuel).
Proof. intros s [Hev Ht Hn]. apply wlp___initialize_state; [by apply EV_pool_queue|done|done]. Qed.

(** Unsetting a node. *)
Lemma wlp_new_unforced t ni val w s : I t s ->
  wlp (__allocate_event_new ni cause_empty INVALID_RULE_INDEX None val w false)
    (fun i s' => exists e, in_hand [] t i e s') s.
Proof.
  intros Hs. unfold __allocate_event_new. apply wpe_bind, wlp_get_node. intros n _.
  apply wpe_bind, wpe_require; [intros _|done]. cbv zeta.
  set (e := Event_make ni cause_empty INVALID_RULE_INDEX None val w).
  assert (He : killed e = false /\ ev_node e = ni) by (unfold e; by destruct w).
  destruct He as [Hk He]. pose proof (wlp___allocate_event [] t e s Hs Hk) as Hw. rewrite He in Hw.
  eapply wpe_mono; [exact Hw|]. intros i s1 Hi. by exists e.
Qed.
(** That an event is forced does not bear on whether it is killed. *)
Lemma killed_unforce e : killed (unforce e) = killed e.
Proof. apply (has_flag_put_other false (ev_flags e) 2 1); lia. Qed.
Lemma pres_unset_node t ni : pres (I t) (unset_node ni).
Proof.
  unfold unset_node. apply pres_bind; [solve_pres|]. intros []. intros s Hs.
  apply wpe_bind, wlp_get_node. intros n Hn. apply wpe_bind, wpe_require; [intros _|done].
  apply wpe_bind, wpe_gets. cbv zeta. apply wpe_when; [intros _|done].
  destruct (pending_event n) eqn:Hp.
  - apply pres_upd_event; [|done]. intros e. rewrite killed_unforce, killed_set_weak. by case_match.
  - repeat (case_match; [by apply wpe_ret|]). apply wpe_when; [intros _|done].
    apply wpe_bind. eapply wpe_mono; [by apply wlp_new_unforced|]. intros i s1 [e He].
    apply wpe_bind. eapply (wlp_pres (in_hand [] t i e)); [solve_pres|exact He|]. intros e' s2 He2.
    apply wpe_bind. eapply (wlp_pres (in_hand [] t i e)); [solve_pres|exact He2|]. intros te s3 He3.
    by apply wlp_enqueue_event with e.
Qed.
Lemma pres_unset_all_nodes : pres OK unset_all_nodes.
Proof. unfold unset_all_nodes. pose proof (fun n => pres_at_any_time _ (fun t => pres_unset_node t n)). solve_pres. Qed.
Lemma pres_deschedule_event t ni : pres (I t) (deschedule_event ni).
Proof.
  intros s Hs. unfold deschedule_event. apply wpe_bind, wlp_get_node. intros n Hn.
  destruct (pending_event n) eqn:Hp; [|by apply wpe_ret]. apply wpe_bind.
  eapply wpe_mono; [apply wlp_kill_event; by eapply linked_intro|]. intros [] s1 Hs1. by apply wpe_ret.
Qed.

(** Rescheduling. *)
Lemma pres_reschedule_event t ni te : pres (I t) (reschedule_event ni te).
Proof. intros s Hs. eapply wpe_mono; [by apply wlp_reschedule_event|]. by intros e s' [? _]. Qed.
Lemma pres_reschedule_event_future t ni te : pres (I t) (reschedule_event_future ni te).
Proof. unfold reschedule_event_future. pose proof pres_reschedule_event. solve_pres. Qed.
Lemma pres_reschedule_event_relative t ni te : pres (I t) (reschedule_event_relative ni te).
Proof. unfold reschedule_event_relative. pose proof pres_reschedule_event. solve_pres. Qed.

Lemma pop_due_split now (q : list (EventPlaceholder real_time)) : q = (pop_due now q).1 ++ (pop_due now q).2.
Proof.
  induction q as [|x q IH]; cbn [pop_due]; [done|]. destruct (t_eqb _ _); [|done].
  destruct (pop_due now q). cbn in *. by f_equal.
Qed.
Lemma wlp_return_entries H tmp t s : exec_inv (q_idx tmp ++ H) t s ->
  Forall (fun x => due t (ep_time x)) tmp ->
  wlp (for_each tmp (fun x => modify (fun s => put_event_queue (push (event_queue s) x) s)))
    (fun _ s' => exec_inv H t s') s.
Proof.
  revert s. induction tmp as [|x tmp IH]; intros s (Hev & Hn & Ht) Hd; cbn [for_each]; [by apply wpe_ret|].
  apply Forall_cons in Hd as [Hx Hd]. apply wpe_bind, wpe_modify, IH; [|done].
  split_and!; [|done|done]. unfold EV in *. cbn. destruct x. apply ev_ok_push; [done|]. by rewrite Ht.
Qed.
Lemma pres_reschedule_event_now t ni : pres (I t) (reschedule_event_now ni).
Proof.
  intros s Hs. unfold reschedule_event_now. apply wpe_bind, wlp_get_node. intros n Hn.
  destruct (pending_event n) eqn:Hp; [|by apply wpe_ret]. destruct Hs as (Hev & Hns & Ht).
  apply wpe_bind. eapply wpe_replace_event; [done..|]. intros j p' e Hge Hj Hgj He _ s1 Hev1.
  apply wpe_bind, wpe_gets, wpe_bind, wpe_gets. pose proof (pop_due_split (current_time s1) (event_queue s1)) as Eq.
  destruct (pop_due _ _) as [tmp rest]. cbn in Eq. apply wpe_bind, wpe_modify.
  pose proof (ok_queue _ _ _ _ _ Hev) as [Hok Hsort]. rewrite Eq in Hok, Hsort.
  pose proof (ok_due _ _ _ _ _ Hev) as Hd. rewrite Eq in Hd. apply Forall_app in Hd as [Hd1 Hd2].
  apply Forall_app in Hok as [_ Hok]. set (s2 := put_event_queue rest s1).
  assert (Hev2 : EV (j :: q_idx tmp ++ []) s2).
  { unfold EV. cbn. eapply ev_ok_move; [exact Hev1| | |exact Hd2]; cbn.
    - rewrite Eq. unfold q_idx. rewrite map_app, app_nil_r.
      rewrite (Permutation_app_comm (map ep_index tmp)), <- app_assoc. apply Permutation_app_head.
      symmetry. apply Permutation_cons_append.
    - split; [done|by eapply StronglySorted_app_1_r]. }
  assert (Hh : in_hand (q_idx tmp ++ []) t j e s2).
  { split; [|done]. split; [by split|split; [|done]]. rewrite He.
    rewrite (links_lookup s2 ni (set_n_event_index j n)); [done|].
    apply list_lookup_insert_eq. by eapply lookup_lt_Some. }
  apply wpe_bind. eapply wpe_mono; [exact (wlp_enqueue_event _ t _ j e s2 Hh)|]. intros [] s3 Hs3.
  apply wpe_bind. eapply wpe_mono; [apply (wlp_return_entries [] tmp t s3 Hs3)|].
  { rewrite <- Ht. exact Hd1. }
  intros [] s4 Hs4. by apply wpe_ret.
Qed.
End Ops.

(** ** Commands, between which events may lie in the past *)
Section Fit.
Context {env : Env} {senv : ShellEnv} {names : NameEnv} {cnames : ChannelNames}.
#[local] Abbreviation State := (State channel_manager).
#[local] Abbreviation SM := (M State).
#[local] Abbreviation SHM := (M (shell State)).
Implicit Types (s : State).

Definition sim_fit s : Prop := sim_ok (D:=loose_due) s.
#[global] Instance sim_fit_on_events : OnEvents sim_fit.
Proof. exact sim_ok_on_events. Qed.
Definition fit_rel s s' : Prop := sim_fit s -> sim_fit s'.
#[global] Instance fit_rel_preorder : PreOrder fit_rel.
Proof. split; unfold fit_rel; [by intros s|by intros s1 s2 s3; auto]. Qed.

Lemma fit_any_time {A} (m : SM A) : (forall t, pres (exec_inv (D:=loose_due) [] t) m) -> pres sim_fit m.
Proof. exact (pres_at_any_time m). Qed.

(** In particular a simulator whose events are not overdue. *)
Lemma sim_ok_fit s : sim_ok s -> sim_fit s.
Proof.
  intros [[Hp Hq Hn Ha Hdom Hl Hk Hd] Ht Hns]. split; [|done|done]. split; try done.
  eapply Forall_impl; [exact Hd|]. intros x. apply due_ok.
Qed.

(** Only a well-formed time may be set. *)
Lemma pres_update_time t s : t_lt (current_time s) t = true -> sim_fit s -> sim_fit (update_time t s).
Proof.
  intros Ht [Hev _ Hn]. destruct (t_lt_ok _ _ Ht) as [_ Hok]. split; [|done|done].
  unfold wf_events, EV in *. eapply ev_ok_time; [exact Hev|]. exact (ok_due _ _ _ _ _ Hev).
Qed.

Lemma fit_step fuel : pres sim_fit (step fuel).
Proof. exact (pres_sim_step fuel). Qed.
Lemma fit_set_node ni val f : pres sim_fit (set_node ni val f).
Proof. exact (pres_set_node ni val f). Qed.
Lemma fit_set_node_time ni val t f : pres sim_fit (set_node_time ni val t f).
Proof. exact (pres_set_node_at ni val t f). Qed.
Lemma fit_set_node_after ni val t f : pres sim_fit (set_node_after ni val t f).
Proof. exact (pres_set_node_after ni val t f). Qed.
Lemma fit_set_node_immediately fuel ni val f : pres sim_fit (set_node_immediately fuel ni val f).
Proof. exact (pres_set_node_immediately fuel ni val f). Qed.
Lemma fit_initialize fuel : pres sim_fit (initialize fuel).
Proof. exact (pres_initialize fuel). Qed.
Lemma fit_reset fuel : pres sim_fit (reset fuel).
Proof. exact (pres_reset fuel). Qed.
Lemma fit_x_all fuel : pres sim_fit (x_all fuel).
Proof. exact (pres_x_all fuel). Qed.
Lemma fit_unset_node ni : pres sim_fit (unset_node ni).
Proof. apply fit_any_time. intros t. apply pres_unset_node. Qed.
Lemma fit_unset_all_nodes : pres sim_fit unset_all_nodes.
Proof. exact pres_unset_all_nodes. Qed.
Lemma fit_deschedule_event ni : pres sim_fit (deschedule_event ni).
Proof. apply fit_any_time. intros t. apply pres_deschedule_event. Qed.
Lemma fit_reschedule_event ni t : pres sim_fit (reschedule_event ni t).
Proof. apply fit_any_time. intros t0. apply pres_reschedule_event. Qed.
Lemma fit_reschedule_event_now ni : pres sim_fit (reschedule_event_now ni).
Proof. apply fit_any_time. intros t. apply pres_reschedule_event_now. Qed.
Lemma fit_channel_action f : pres sim_fit (channel_action f).
Proof.
  apply fit_any_time. intros t. unfold channel_action, flush_channel_events.
  pose proof (pres_flush_channel_event (C:=channel_manager) (D:=loose_due)). solve_pres.
Qed.
Lemma fit_unwatch_all_nodes : pres sim_fit unwatch_all_nodes.
Proof.
  apply pres_modify; [apply _|]. intros s. apply same_events_nodes. unfold links.
  destruct (node_pool s) as [|n l]; [done|]. cbn. f_equal. rewrite map_map. by apply map_ext.
Qed.
Lemma fit_map_nodes (f : NodeState -> NodeState) : (forall n, n_event_index (f n) = n_event_index n) ->
  pres sim_fit (modify (fun s => put_node_pool (map f (node_pool s)) s)).
Proof.
  intros Hf. apply pres_modify; [apply _|]. intros s. apply same_events_nodes. unfold links.
  rewrite map_map. by apply map_ext.
Qed.
(** Flags, other than the two that decide on nested steps. *)
Lemma same_events_flag b m s : m = 2 ^ Z.log2 m -> Z.log2 m <> 0 -> Z.log2 m <> 18 ->
  same_events s (put_flag_of b m s).
Proof. intros -> H0 H18. rewrite Z.log2_pow2 in * by apply Z.log2_nonneg. apply no_nested_put_flag; [apply Z.log2_nonneg|done..]. Qed.
Lemma same_events_resume s : same_events s (resume s).
Proof. by destruct (same_events_flag false FLAG_STOP_SIMULATION s eq_refl) as [? ? ? ? ?]. Qed.
Lemma fit_unstable_unknown : pres sim_fit (modify (set_dequeue_unstable_events false)).
Proof.
  intros s [Hev Ht _]. apply wpe_modify. split; [done|done|]. unfold no_nested_step, dequeue_unstable_events.
  unfold set_dequeue_unstable_events, put_flag_of. cbn [flags put_flags]. change FLAG_UNSTABLE_DEQUEUE with (2 ^ 0).
  by rewrite has_flag_put_same.
Qed.
Lemma fit_on_graph {A} gid (m : M unique_process_subgraph A) : pres sim_fit (on_graph gid m).
Proof. unfold on_graph. solve_pres. Qed.
Lemma fit_backtrace_loop fuel seen e : pres sim_fit (backtrace_loop fuel seen e).
Proof. revert seen e. induction fuel as [|fuel IH]; intros seen e; cbn [backtrace_loop]; solve_pres. Qed.
Lemma fit_any_fanout_uses l : pres sim_fit (any_fanout_uses l).
Proof. induction l as [|i l IH]; cbn [any_fanout_uses]; solve_pres. Qed.
Lemma fit_assign_rails nodes key path l al : pres sim_fit (assign_rails nodes key path l al).
Proof. revert al. induction l as [|[j k] l IH]; intros al; cbn [assign_rails]; solve_pres. Qed.
Lemma fit_for_each_reference l body : (forall g, pres sim_fit (body g)) -> pres sim_fit (for_each_reference l body).
Proof. intros Hb. induction l as [|g l IH]; cbn [for_each_reference]; solve_pres. Qed.
End Fit.

#[export] Hint Resolve fit_step fit_set_node fit_set_node_time fit_set_node_after fit_set_node_immediately
  fit_initialize fit_reset fit_x_all fit_unset_node fit_unset_all_nodes fit_deschedule_event
  fit_reschedule_event fit_reschedule_event_now fit_channel_action fit_unwatch_all_nodes fit_unstable_unknown
  fit_on_graph fit_backtrace_loop fit_any_fanout_uses fit_assign_rails
  sim_fit_on_events : hackt_pres.
#[export] Hint Resolve same_events_resume : hackt_pres.
#[export] Hint Extern 2 (same_events _ _) => (apply same_events_flag; [reflexivity|done|done]) : hackt_pres.
#[export] Hint Extern 2 (pres _ (modify (fun s => put_node_pool (map _ (node_pool s)) s))) =>
  (apply fit_map_nodes; intros; reflexivity) : hackt_pres.
#[export] Hint Extern 1 (same_events _ ((if ?b then _ else _) _)) => (destruct b) : hackt_pres.
#[export] Hint Extern 1 (pres _ (for_each_reference _ _)) => (apply fit_for_each_reference; solve_pres) : hackt_pres.
