(* ===== verification/CommandProps.v ===== *)
(** What a session of commands does to the simulator.

    Each command keeps the simulator fit ([CommandInv]), but for
    "unstable-dequeue"; so any script, any line and any session at the terminal
    keeps it, however deeply its commands run other commands. *)
From stdpp Require Import strings.
From S2P Require Import Prelude Strings SimTime PullSet Expr EventQueue ArrayPool OrdMap Node ProcGraph.
From S2P Require Import Directory State Registry RegistryProps Events Schedule Excl Flush Eval Feedback.
From S2P Require Import TimingCheck Step SimCommands Channel ChannelManager ChannelCommands Commands.
From S2P Require Import EventInv EventProps StepInv StepProps CommandInv.
Open Scope Z_scope.
Local Open Scope hackt_scope.
#[local] Abbreviation length := Datatypes.length.

Section Fit.
Context {env : Env} {senv : ShellEnv} {names : NameEnv} {cnames : ChannelNames}.
#[local] Abbreviation State := (State channel_manager).
#[local] Abbreviation SM := (M State).
#[local] Abbreviation SHM := (M (shell State)).

(** ** Loops of the commands *)
Lemma fit_step_loop fuel k by_time i t : pres sim_fit (step_loop fuel k by_time i t).
Proof. revert i t. induction k as [|k IH]; intros i t; cbn [step_loop]; [done|]. cbv zeta. solve_pres. Qed.
Lemma fit_cycle_loop fuel k : pres sim_fit (cycle_loop fuel k).
Proof. induction k as [|k IH]; cbn [cycle_loop]; [done|]. solve_pres. Qed.
Lemma fit_advance_end t : pres sim_fit (advance_end t).
Proof.
  unfold advance_end. intros s Hs. apply wpe_bind, wpe_gets, wpe_bind, wpe_gets, wpe_bind.
  eapply (wpe_mono _ _ (fun _ => sim_fit)).
  - apply wpe_when; [intros Hb|done]. apply andb_true_iff in Hb as [_ Hb]. apply wpe_modify.
    by apply pres_update_time.
  - intros [] s' Hs'. revert s' Hs'. change (pres sim_fit (run_status (C:=channel_manager))). solve_pres.
Qed.
Lemma fit_advance_loop fuel k t : pres sim_fit (advance_loop fuel k t).
Proof. pose proof fit_advance_end. induction k as [|k IH]; cbn [advance_loop]; [done|]. solve_pres. Qed.

Lemma fit_catching {A} (m : SM A) : pres sim_fit m -> pres sim_fit (catching m).
Proof.
  intros Hm s Hs. specialize (Hm s Hs). unfold wpe, catching in *. by destruct (m s) as [[a s']|[]].
Qed.

End Fit.

#[local] Hint Resolve fit_step_loop fit_cycle_loop fit_advance_loop : hackt_pres.
#[local] Hint Extern 1 (pres _ (catching _)) => (apply fit_catching; solve_pres) : hackt_pres.

(** ** Commands *)

(** A relation of the shell before and after, that whatever keeps the simulator
    fit is in, and that the commands of the interpreter are in. *)
Class CommandRel (R : shell (State channel_manager) -> shell (State channel_manager) -> Prop) := {
  #[global] cr_shell :: ShellRel R;
  cr_sim : forall A (m : M (State channel_manager) A), pres sim_fit m -> keeps R (on_sim m);
  cr_aliases : forall al r, (aliases_ok (aliases r) -> aliases_ok al) -> R r (put_aliases al r);
  cr_dirs : forall l r, l <> [] -> R r (put_dirs (put_dir_stack l (dirs r)) r);
  cr_types : forall l r, R r (put_type_stack l r);
  cr_echo : forall b r, R r (put_echo_commands b r);
  cr_keep : forall b r, R r (put_keep_noninteractive_history b r);
  cr_paths : forall l r, R r (put_search_paths l r)
}.

Section Loops.
Context {R : shell (State channel_manager) -> shell (State channel_manager) -> Prop} {HR : CommandRel R}.
#[local] Abbreviation SHM := (M (shell (State channel_manager))).
Lemma keeps_loop_nodes {B} (body : B -> nat -> SHM (Z + B)) l b :
  (forall b ni, keeps R (body b ni)) -> keeps R (loop_nodes body l b).
Proof. intros Hb. revert b. induction l as [|ni l IH]; intros b; cbn [loop_nodes]; solve_keeps. Qed.
Lemma keeps_each_arg (body : string -> SHM Z) l : (forall x, keeps R (body x)) -> keeps R (each_arg body l).
Proof. intros Hb. induction l as [|x l IH]; cbn [each_arg]; solve_keeps. Qed.
Lemma keeps_loop_channels (body : nat -> SHM (option Z)) l :
  (forall key, keeps R (body key)) -> keeps R (loop_channels body l).
Proof. intros Hb. induction l as [|x l IH]; cbn [loop_channels]; solve_keeps. Qed.
End Loops.

(** Goes through a command: what it runs on the simulator has to keep it fit. *)
Ltac command_step :=
  match goal with
  | |- keeps _ (on_sim _) => apply cr_sim; solve [solve_pres]
  | |- keeps _ (loop_nodes _ _ _) => apply keeps_loop_nodes
  | |- keeps _ (each_arg _ _) => apply keeps_each_arg
  | |- keeps _ (loop_channels _ _) => apply keeps_loop_channels
  | |- keeps _ (modify (fun r => put_dirs (reset_directories _) r)) =>
      apply keeps_modify; intro; by apply cr_dirs
  | |- keeps _ (let '(_, _) := ?x in _) => destruct x
  | |- _ => keeps_step
  | |- keeps _ ?m => let rec go t := lazymatch t with ?f _ => go f | @on_sim => fail | _ => unfold t end in go m
  end.
Ltac solve_command := repeat command_step.
Ltac solve_table :=
  repeat (apply List.Forall_cons; [intros Hn a; cbn [fst snd] in *; first [by destruct (Hn eq_refl)|solve_command]|]); apply List.Forall_nil.

Section Tables.
Context {env : Env} {senv : ShellEnv} {names : NameEnv} {cnames : ChannelNames}.
#[local] Abbreviation State := (State channel_manager).
Context {R : shell State -> shell State -> Prop} {HR : CommandRel R}.

(** Each command of a table keeps the simulator fit, but for one. *)
Definition table_keeps (t : list (string * (list string -> M (shell State) Z))) : Prop :=
  Forall (fun p => p.1 <> "unstable-dequeue"%string -> forall a, keeps R (p.2 a)) t.

Lemma keeps_run_commands fuel : table_keeps (run_commands fuel).
Proof. solve_table. Qed.
Lemma keeps_node_commands : table_keeps node_commands.
Proof. solve_table. Qed.
Lemma keeps_mode_commands : table_keeps mode_commands.
Proof. solve_table. Qed.
Lemma keeps_error_commands : table_keeps error_commands.
Proof. solve_table. Qed.
Lemma keeps_query_commands : table_keeps query_commands.
Proof. solve_table. Qed.
Lemma keeps_channel_commands : table_keeps channel_commands.
Proof. solve_table. Qed.
Lemma keeps_shell_commands is_command : table_keeps (shell_commands is_command).
Proof.
  repeat (apply List.Forall_cons; [intros _ a; cbn [snd]|]); [..|apply List.Forall_nil];
    first [apply keeps_constant_main|apply keeps_print_main|apply keeps_alias_main|apply keeps_unalias_main
          |apply keeps_unalias_all_main|apply keeps_echo_commands_main|apply keeps_history_main
          |apply keeps_history_save_main|apply keeps_history_noninteractive_main|apply keeps_add_path_main
          |apply keeps_change_dir_main|apply keeps_push_dir_main|apply keeps_pop_dir_main
          |apply keeps_push_type_main|apply keeps_pop_type_main];
    first [apply cr_aliases|apply cr_dirs|apply cr_types|apply cr_echo|apply cr_keep|apply cr_paths|apply _].
Qed.

Lemma keeps_plain_commands fuel is_command : table_keeps (plain_commands fuel is_command).
Proof.
  unfold table_keeps, plain_commands. rewrite !Forall_app. split_and!.
  - apply keeps_shell_commands.
  - apply keeps_run_commands.
  - apply keeps_node_commands.
  - apply keeps_mode_commands.
  - apply keeps_error_commands.
  - apply keeps_query_commands.
  - apply keeps_channel_commands.
Qed.

Lemma prsim_plain_keeps fuel : plain_keeps R (delete "unstable-dequeue"%string (prsim_commands fuel)).
Proof.
  intros name main a Hm. apply lookup_delete_Some in Hm as [Hn Hm].
  apply elem_of_list_to_map_2, elem_of_app in Hm as [Hm|Hm].
  - apply list_elem_of_fmap in Hm as ([n m] & E & Hin). cbn in E. injection E as -> ->.
    pose proof (keeps_plain_commands fuel is_command) as Hk. unfold table_keeps in Hk. rewrite Forall_forall in Hk.
    by apply (Hk _ Hin).
  - repeat (apply elem_of_cons in Hm as [Hm|Hm]; [by injection Hm|]). by apply elem_of_nil in Hm.
Qed.
End Tables.

(** ** Sessions *)
Section Session.
Context {env : Env} {senv : ShellEnv} {names : NameEnv} {cnames : ChannelNames}.
#[local] Abbreviation State := (State channel_manager).
#[local] Abbreviation SHM := (M (shell State)).

(** The shell stays well-formed, no file stays open, the simulator stays fit. *)
Definition session_rel (r r' : shell State) : Prop := ok_rel r r' /\ sim_rel fit_rel r r'.
#[export] Instance session_shell_rel : ShellRel session_rel.
Proof.
  split.
  - intros r. split; apply sr_refl.
  - intros r1 r2 r3 [H1 H1'] [H2 H2']. split; [exact (sr_trans _ _ _ H1 H2)|exact (sr_trans _ _ _ H1' H2')].
  - intros h r. split; [by apply ok_rel_same|exact (sr_history h r)].
  - intros n r. split; [by apply ok_rel_same|exact (sr_level n r)].
  - intros l r. split; [by apply ok_rel_same|exact (sr_log l r)].
  - intros l r. split; [by apply ok_rel_same|exact (sr_stdin l r)].
  - intros r df r1 x l Hdf [H1 H2] E.
    split; [exact (sr_file _ _ _ _ _ Hdf H1 E)|exact (sr_file _ _ _ _ _ Hdf H2 E)].
Qed.
Lemma session_same g : (forall r, ok_rel r (g r)) -> (forall r, sim (g r) = sim r) -> forall r, session_rel r (g r).
Proof. intros H1 H2 r. split; [done|]. unfold sim_rel, fit_rel. by rewrite H2. Qed.
#[export] Instance session_command_rel : CommandRel session_rel.
Proof.
  split.
  - apply _.
  - intros A m Hm r. unfold on_sim, wpe. destruct (m (sim r)) as [[a s]|f] eqn:E; [|done]. split.
    + by apply ok_rel_same.
    + intros Hs. cbn. specialize (Hm _ Hs). unfold wpe in Hm. by rewrite E in Hm.
  - intros al r Hal. split; [|by unfold sim_rel, fit_rel]. intros [Ha Hd Ho]. split; [|done]. split; [by apply Hal|done..].
  - intros l r Hl. split; [|by unfold sim_rel, fit_rel]. intros [Ha Hd Ho]. split; [|done]. by split.
  - intros l. apply session_same; [intros; by apply ok_rel_same|done].
  - intros b. apply session_same; [intros; by apply ok_rel_same|done].
  - intros b. apply session_same; [intros; by apply ok_rel_same|done].
  - intros l. apply session_same; [intros; by apply ok_rel_same|done].
Qed.
End Session.
