(* ===== verification/Sessions.v ===== *)
(** Sessions of the command interpreter: what they keep, when they end, and
    example sessions that run on a circuit. *)
From stdpp Require Import strings.
From S2P Require Import Prelude Strings SimTime PullSet Expr EventQueue ArrayPool OrdMap Node ProcGraph.
From S2P Require Import Directory State Registry RegistryProps Events Schedule Excl Flush Eval Feedback.
From S2P Require Import TimingCheck Step SimCommands Channel ChannelManager ChannelCommands Commands.
From S2P Require Import EventInv ScheduleProps StepInv StepProps CommandInv CommandProps.
Open Scope Z_scope.
Local Open Scope hackt_scope.
#[local] Abbreviation length := Datatypes.length.

Section Session.
Context {env : Env} {senv : ShellEnv} {names : NameEnv} {cnames : ChannelNames}.
#[local] Abbreviation State := (State channel_manager).
#[local] Abbreviation SHM := (M (shell State)).

(** C5: Whatever a user types or a script contains, and however deeply its
    commands run other commands (sourced files, repeated commands, lines of the
    history, sub-shells): a session that returns leaves a well-formed shell, in
    which the same files are open as before, and a simulator whose event pool,
    event queue and nodes agree on the pending events, as long as the command
    "unstable-dequeue" is not used. *)
Theorem session_keeps_simulator fuel depth q (r r' : shell State) st :
  shell_ok r -> sim_fit (sim r) ->
  interp (delete "unstable-dequeue"%string (prsim_commands fuel)) depth q r = Ok (st, r') ->
  shell_ok r' /\ open_files r' = open_files r /\ sim_fit (sim r').
Proof.
  intros Hr Hs E. pose proof (interp_keeps session_rel _ depth q (prsim_plain_keeps fuel) r) as Hk.
  unfold wpe in Hk. rewrite E in Hk. destruct Hk as [Hok Hfit]. destruct (Hok Hr) as [H1 H2].
  split_and!; [done|done|by apply Hfit].
Qed.
End Session.

(** ** Aliases *)

(** C20: For aliases that stand for something, as the command "alias" makes
    them, the expansion of a command always ends: with a command that no alias
    begins, reached by replacing first words, or with the error, exactly when
    the replacing would never end. *)
Theorem expand_aliases_terminates (al : gmap string (list string)) c : aliases_ok al -> c <> [] ->
  exists r, expand_aliases al c = Ok r /\
    match r with
    | Some c' => rtc (head_step al) c c' /\ expanded al c'
    | None => forall c', rtc (head_step al) c c' -> exists c'', head_step al c' c''
    end.
Proof.
  intros Hal Hc. pose proof (expand_aliases_total al c Hal Hc) as He.
  destruct (expand_aliases al c) as [r|f]; [|done]. exists r. split; [done|exact He].
Qed.

(** ** Going back from cause to cause *)
Section Backtrace.
Context {C : Type}.
#[local] Abbreviation State := (State C).
Implicit Types (s : State).

(** Each cause is a node, or none. *)
Definition causes_in_range s : Prop :=
  forall i n v, node_pool s !! i = Some n -> (c_node (get_cause (n_causes n) v) < length (node_pool s))%nat.

Lemma get_node_in_range s i : (i < length (node_pool s))%nat ->
  exists n, node_pool s !! i = Some n /\ get_node i s = Ok (n, s).
Proof.
  intros Hi. destruct (lookup_lt_is_Some_2 _ _ Hi) as [n Hn]. exists n. split; [done|].
  unfold get_node, bind, gets, of_option. by rewrite Hn.
Qed.
(** There are three transitions of each node. *)
Lemma transitions_bound (seen : list (nat * value_enum)) n : NoDup seen -> (forall p, p ∈ seen -> (p.1 < n)%nat) ->
  (length seen <= 3 * n)%nat.
Proof.
  intros Hnd Hs. assert (Hl : length (list_prod (seq 0 n) [LOGIC_LOW; LOGIC_HIGH; LOGIC_OTHER]) = (3 * n)%nat).
  { rewrite length_prod, length_seq. cbn. lia. }
  rewrite <- Hl. apply submseteq_length, NoDup_submseteq; [done|]. intros [i v] Hp%Hs. apply list_elem_of_In, in_prod.
  - apply list_elem_of_In, elem_of_seq. cbn in Hp. lia.
  - destruct v; cbn; tauto.
Qed.
Lemma backtrace_loop_ends fuel seen e s : causes_in_range s -> NoDup seen ->
  (forall p, p ∈ seen -> (p.1 < length (node_pool s))%nat) -> (e.1 < length (node_pool s))%nat ->
  (3 * length (node_pool s) < fuel + length seen)%nat -> backtrace_loop fuel seen e s = Ok (tt, s).
Proof.
  intros Hc. revert seen e. induction fuel as [|fuel IH]; intros seen e Hnd Hs He Hf.
  { pose proof (transitions_bound seen _ Hnd Hs). lia. }
  destruct (get_node_in_range s e.1 He) as (n & Hn & E). cbn [backtrace_loop]. unfold bind at 1. rewrite E.
  cbv zeta. destruct (Nat.eqb _ 0); [done|]. pose proof (Hc _ _ e.2 Hn) as Hr.
  destruct (get_node_in_range s _ Hr) as (m & _ & Em). unfold bind. rewrite Em.
  destruct (bool_decide_reflect ((c_node (get_cause (n_causes n) e.2), c_val (get_cause (n_causes n) e.2)) ∈ seen));
    [done|]. apply IH; [by constructor| |done|cbn; lia].
  intros p [->|Hp]%elem_of_cons; [done|by apply Hs].
Qed.

(** C28: Going back from the value of a node to the cause of each change ends,
    however the causes are linked: when there is no cause or when one comes up
    again; and it changes nothing. *)
Theorem backtrace_node_terminates s ni v : causes_in_range s -> (0 < ni < length (node_pool s))%nat ->
  backtrace_node ni v s = Ok (tt, s).
Proof.
  intros Hc Hn. destruct (get_node_in_range s ni ltac:(lia)) as (n & _ & E).
  unfold backtrace_node. unfold bind at 1. rewrite E. destruct (Nat.eqb_spec ni 0); [lia|].
  apply (backtrace_loop_ends _ [(ni, v)] (ni, v) s Hc).
  - repeat constructor. apply not_elem_of_nil.
  - intros p [->|Hp]%elem_of_cons; [cbn; lia|by apply elem_of_nil in Hp].
  - cbn. lia.
  - cbn. lia.
Qed.
End Backtrace.

(** ** Assertions *)
Section Asserts.
Context {C : Type} {env : Env} {cm : ChannelManager C} {senv : ShellEnv} {names : NameEnv}.
#[local] Abbreviation State := (State C).
Implicit Types (r : shell State).

Definition node_holds (holds : NodeState -> bool) (s : State) (ni : nat) : bool :=
  match node_pool s !! ni with Some n => holds n | None => false end.
Definition assert_status (s : State) : Z := error_policy_to_status (assert_fail_policy (policies s)).

Lemma put_sim_same r : put_sim (sim r) r = r.
Proof. by destruct r. Qed.
Lemma run_on_sim {A} (m : M State A) r a : m (sim r) = Ok (a, sim r) -> on_sim m r = Ok (a, r).
Proof. unfold on_sim. intros ->. by rewrite put_sim_same. Qed.

Lemma run_assert_body holds ni r : (ni < length (node_pool (sim r)))%nat ->
  on_sim (assert_body holds ni) r
  = Ok (if node_holds holds (sim r) ni then inr tt else inl (assert_status (sim r)), r).
Proof.
  intros Hni. destruct (get_node_in_range (sim r) ni Hni) as (n & Hn & E). apply run_on_sim.
  unfold assert_body. rewrite (bind_run _ _ _ _ _ E). unfold node_holds. rewrite Hn. by destruct (holds n).
Qed.
Lemma loop_asserts holds l r : Forall (fun ni => (ni < length (node_pool (sim r)))%nat) l ->
  loop_nodes (fun _ ni => on_sim (assert_body holds ni)) l tt r
  = Ok (if forallb (node_holds holds (sim r)) l then inr tt else inl (assert_status (sim r)), r).
Proof.
  induction l as [|ni l IH]; intros Hl; cbn [loop_nodes forallb]; [done|].
  apply Forall_cons in Hl as [Hni Hl]. rewrite (bind_run _ _ _ _ _ (run_assert_body holds ni r Hni)).
  destruct (node_holds _ _ _); [by apply IH|done].
Qed.

(** C22: "assert" and "assertn" hold the nodes that are named against a value:
    the status is the normal one exactly when all of them have it, or none of
    them does, and else that of the policy for failed assertions; an assertion
    has no effect on the simulator or the shell. *)
Theorem assert_value_status positive c obj v val l r :
  type_stack r = [] -> String.eqb v "?" = false -> string_to_value false v = Some val ->
  parse_nodes_to_indices obj r = Ok (Some l, r) -> Forall (fun ni => (ni < length (node_pool (sim r)))%nat) l ->
  assert_value_main positive [c; obj; v] r
  = Ok (if forallb (node_holds (fun n => Bool.eqb (value_eqb (n_value n) val) positive) (sim r)) l
        then NORMAL else assert_status (sim r), r).
Proof.
  intros Ht Hq Hv Hp Hl. unfold assert_value_main, global_only, in_local_type.
  rewrite (bind_run _ _ r false r) by (unfold bind, gets, ret; by rewrite Ht).
  rewrite (bind_run _ _ r (Some val) r).
  - unfold assert_nodes, node_for_each. rewrite (bind_run _ _ _ _ _ Hp).
    rewrite (bind_run _ _ _ _ _ (loop_asserts _ l r Hl)). by destruct (forallb _ _).
  - apply run_on_sim. unfold word_to_value, coin_for. rewrite Hq. unfold bind, ret. by rewrite Hv.
Qed.
End Asserts.

(** ** Block comments *)
Section Comments.
Context {St : Type} {senv : ShellEnv} (command_map : gmap string (command_main St)).
Implicit Types (r : shell St).

(** A line that is neither a command of the operating system nor a comment. *)
Definition is_words (line : string) : bool :=
  match line with String "!"%char _ | String "#"%char _ => false | _ => true end.
(** Whether its first word begins a comment, and its last one ends it. *)
Definition comment_marks (line : string) (b e : bool) : Prop :=
  is_words line = true /\ exists front l, tokenize line = front :: l /\
    begins_comment front = b /\ ends_comment (List.last (front :: l) "") = e.
(** What may stand between them. *)
Definition inert (line : string) : Prop :=
  String.prefix "#" line = true \/ (is_words line = true /\ tokenize line = []) \/ comment_marks line false false.

Lemma is_words_tokens rec line keep : is_words line = true ->
  interpret_line command_map rec line keep =
  match tokenize line with
  | [] => ret NORMAL
  | front :: l =>
      let back := List.last (front :: l) "" in
      when (begins_comment front) (
        level <- gets comment_level ;;
        require F_undef (level <? 2 ^ 31 - 1) ;;;
        modify (put_comment_level (level + 1))) ;;;
      keep' <- gets keep_noninteractive_history ;;
      let alter_source_cmd := String.eqb front "source" && keep' in
      level <- gets comment_level ;;
      if level =? 0 then interpret_command command_map rec line keep (front :: l) front alter_source_cmd
      else if ends_comment back then modify (put_comment_level (level - 1)) ;;; ret NORMAL
      else ret NORMAL
  end.
Proof.
  unfold interpret_line. destruct line as [|c rest]; [done|]. intros Hw.
  destruct c as [[] [] [] [] [] [] [] []]; try discriminate Hw;
    cbv zeta; destruct (tokenize _); reflexivity.
Qed.

Lemma open_line rec line keep r : comment_level r = 0 -> comment_marks line true false ->
  interpret_line command_map rec line keep r = Ok (NORMAL, put_comment_level 1 r).
Proof.
  intros Hl (Hw & front & l & Ht & Hb & He). rewrite (is_words_tokens _ _ _ Hw), Ht. cbv zeta.
  rewrite Hb, He. unfold when, bind, gets, require, modify, ret. rewrite Hl. cbn [Z.ltb]. reflexivity.
Qed.
Lemma inert_line rec line keep r : comment_level r = 1 -> inert line ->
  interpret_line command_map rec line keep r = Ok (NORMAL, r).
Proof.
  intros Hl [Hp|[[Hw Ht]|(Hw & front & l & Ht & Hb & He)]].
  - unfold interpret_line. destruct line as [|c rest]; [done|].
    destruct c as [[] [] [] [] [] [] [] []]; try discriminate Hp. reflexivity.
  - by rewrite (is_words_tokens _ _ _ Hw), Ht.
  - rewrite (is_words_tokens _ _ _ Hw), Ht. cbv zeta. rewrite Hb, He. unfold when, bind, gets, ret. by rewrite Hl.
Qed.
Lemma close_line rec line keep r : comment_level r = 1 -> comment_marks line false true ->
  interpret_line command_map rec line keep r = Ok (NORMAL, put_comment_level 0 r).
Proof.
  intros Hl (Hw & front & l & Ht & Hb & He). rewrite (is_words_tokens _ _ _ Hw), Ht. cbv zeta.
  rewrite Hb, He. unfold when, bind, gets, modify, ret. by rewrite Hl.
Qed.
(** A line after which a script goes on. *)
Lemma source_line rec line lines st r r' :
  (forall keep, rec (R_line line keep) r = Ok (NORMAL, r')) ->
  source_lines rec (line :: lines) st r = source_lines rec lines NORMAL r'.
Proof. intros E. cbn [source_lines]. unfold bind, gets. by rewrite E. Qed.

(** C32: A block comment in a script is skipped: from the line whose first word
    begins it, over lines that are not meant for the operating system and in
    which no further comment begins or ends, to the line whose last word ends
    it, nothing is run, nothing is recorded, and the script goes on behind it
    as if it were not there. *)
Theorem block_comment_skipped fuel first body last rest st r :
  comment_level r = 0 -> comment_marks first true false -> Forall inert body -> comment_marks last false true ->
  source_lines (interp command_map (S fuel)) (first :: body ++ last :: rest) st r
  = source_lines (interp command_map (S fuel)) rest NORMAL r.
Proof.
  intros Hl Hf Hb Hc. rewrite (source_line _ _ _ _ r (put_comment_level 1 r)) by (intros; by apply open_line).
  assert (Hin : forall st, source_lines (interp command_map (S fuel)) (body ++ last :: rest) st (put_comment_level 1 r)
                 = source_lines (interp command_map (S fuel)) rest NORMAL r); [|apply Hin].
  induction Hb as [|line body Hi Hb IH]; intros st'; cbn [app].
  - rewrite (source_line _ _ _ _ _ (put_comment_level 0 (put_comment_level 1 r)));
      [|intros keep; apply (close_line (interp command_map fuel)); done].
    f_equal. destruct r. cbn in *. by subst.
  - rewrite (source_line _ _ _ _ _ (put_comment_level 1 r));
      [apply IH|intros keep; apply (inert_line (interp command_map fuel)); done].
Qed.
End Comments.

(** ** A line that runs itself *)
Section Rerun.
Context {St : Type} {senv : ShellEnv} (command_map : gmap string (command_main St)).
Implicit Types (r : shell St).
Definition rerun_line : string := "history-rerun 0".

(** The line reruns itself before it can return. *)
Lemma interpret_rerun rec record r : command_map !! "history-rerun"%string = Some HistoryRerun ->
  comment_level r = 0 -> aliases r !! "history-rerun"%string = None ->
  let r1 := if (record : bool) then put_history (history r ++ [rerun_line]) r else r in
  history r1 = [rerun_line] -> rec (R_line rerun_line false) r1 = Err F_fuel ->
  interpret_line command_map rec rerun_line record r = Err F_fuel.
Proof.
  intros Hm Hl Ha r1 Hh Hrec.
  change (interpret_line command_map rec rerun_line record r) with
    (bind (gets comment_level) (fun level =>
      if level =? 0 then interpret_command command_map rec rerun_line record ["history-rerun"; "0"]%string
        "history-rerun" false else ret NORMAL) r).
  unfold bind at 1, gets at 1. rewrite Hl. cbn [Z.eqb]. unfold interpret_command.
  assert (E1 : when record (record_line rerun_line "history-rerun" false) r = Ok (tt, r1)) by (unfold r1; by destruct record).
  rewrite (bind_run _ _ _ _ _ E1). unfold bind, gets.
  assert (Ha1 : aliases r1 = aliases r) by (unfold r1; by destruct record).
  clear E1. clearbody r1. rewrite Ha1. cbn [expand_aliases expand_aliases_loop]. rewrite Ha. cbn [lift_res ret].
  assert (E2 : execute command_map rec ["history-rerun"; "0"]%string r1 = Err F_fuel); [|by rewrite E2].
  change (execute command_map rec ["history-rerun"; "0"]%string r1) with
    (match command_map !! "history-rerun"%string with
     | Some m => run_command rec m ["history-rerun"; "0"]%string | None => ret SYNTAX end r1).
  rewrite Hm. change (run_command rec HistoryRerun ["history-rerun"; "0"]%string) with (rerun rec 0 1).
  unfold rerun, bind, gets. rewrite Hh.
  change (rerun_lines rec [0%nat] r1 = Err F_fuel). unfold rerun_lines, bind, gets. rewrite Hh.
  change (match rec (R_line rerun_line false) r1 with
          | Ok (st, s') => (if st =? NORMAL then ret NORMAL else ret st) s' | Err f => Err f end = Err F_fuel).
  by rewrite Hrec.
Qed.

(** "history-rerun" of a line that is itself such a command never returns,
    although lines that are rerun are not recorded: typed as the first line of
    a session, the command "history-rerun 0" reruns itself for ever. *)
Theorem history_rerun_never_returns fuel r :
  command_map !! "history-rerun"%string = Some HistoryRerun -> comment_level r = 0 ->
  aliases r !! "history-rerun"%string = None -> history r = [] ->
  interp command_map fuel (R_line rerun_line true) r = Err F_fuel.
Proof.
  intros Hm Hl Ha Hh.
  assert (Hloop : forall fuel r, comment_level r = 0 -> aliases r !! "history-rerun"%string = None ->
    history r = [rerun_line] -> interp command_map fuel (R_line rerun_line false) r = Err F_fuel).
  { clear -Hm. intros fuel. induction fuel as [|fuel IH]; intros r Hl Ha Hh; [done|]. cbn [interp].
    apply interpret_rerun; auto. }
  destruct fuel as [|fuel]; [done|]. cbn [interp]. apply interpret_rerun; [done..|cbn; by rewrite Hh|].
  apply Hloop; [done..|cbn; by rewrite Hh].
Qed.
End Rerun.

(** ** An example session

    The inverter of [StepProps], with the nodes "in" and "out". *)
Definition ses_file : list string :=
  ["/* a script"; "set in 0 1"; "end of the comment */"; "alias go cycle"; "set in 1 5"; "go"; "assert out 0";
   "repeat 2 advance 10"]%string.
#[local] Instance ses_shell_env : ShellEnv := {|
  read_file f := if String.eqb f "test.prsim" then Some ses_file else None;
  read_file_empty := eq_refl;
  can_write _ := false; parse_process _ := None; parse_to_footprint _ := None |}.
Definition ses_node (n : string) : nat :=
  if String.eqb n "in" then 3%nat else if String.eqb n "out" then 4%nat else 0%nat.
#[local] Instance ses_names : NameEnv := {|
  parser_node _ n := ses_node n; parser_local_node _ n := ses_node n;
  parser_nodes _ n := match ses_node n with O => None | i => Some [i] end;
  parser_process _ _ := None; parser_subnodes _ _ := None; parser_subnodes_local _ := None;
  parser_ports _ := None; parser_reference _ _ := REF_NONE; process_footprint_map _ := 0%nat;
  string_to_num s v := match string_to_int 32 true s with Some z => (double_of_Z z 0, false) | None => (v, true) end |}.
#[local] Instance ses_channel_names : ChannelNames := {|
  channel_references _ := None; channel_node _ := None; unspecified_delay := real_zero |}.

Definition ses_sim : State channel_manager :=
  put_node_pool inv_nodes
    (State_construct 4 [inv_graph] [(1, 0)]%nat [allocate_from_type inv_graph 0 1] [[3; 4]%nat] false
       channel_manager_empty).
Definition ses_shell : shell (State channel_manager) :=
  mkShell ∅ directory_stack_empty [] [] false 0 false false [] [] ["initialize"; "source test.prsim"]%string [] ses_sim.
Definition ses_run := interp (delete "unstable-dequeue"%string (prsim_commands 20)) 20 R_stdin ses_shell.
(** The block comment and the alias do what they should; the last command
    advances the time twice by 10. *)
Example session_runs :
  match ses_run with
  | Ok (st, r) => Some (st, current_time (sim r), map n_value (node_pool (sim r)), history r, stdin_lines r)
  | Err _ => None
  end = Some (0, double_of_Z 35 0, [LOGIC_OTHER; LOGIC_LOW; LOGIC_HIGH; LOGIC_HIGH; LOGIC_LOW],
              ["initialize"; "source test.prsim"]%string, []).
Proof. vm_compute. reflexivity. Qed.

Lemma ses_shell_ok : shell_ok ses_shell.
Proof. split; [|done|constructor]. intros a x E. unfold ses_shell in E. cbn [aliases] in E. by rewrite lookup_empty in E. Qed.
Lemma ses_sim_fit : sim_fit (sim ses_shell).
Proof.
  apply sim_ok_fit. split; [|reflexivity|reflexivity].
  eapply (EV_ext [] (State_construct 4 [inv_graph] [(1, 0)]%nat [allocate_from_type inv_graph 0 1] [[3; 4]%nat]
    false channel_manager_empty)); [reflexivity..|apply wf_events_construct].
Qed.
Definition ses_end : shell (State channel_manager) := match ses_run with Ok (_, r) => r | Err _ => ses_shell end.
Lemma ses_run_ok :
  interp (delete "unstable-dequeue"%string (prsim_commands 20)) 20 R_stdin ses_shell = Ok (0, ses_end).
Proof. vm_compute. reflexivity. Qed.
Lemma session_keeps_simulator_witness :
  shell_ok ses_end /\ open_files ses_end = open_files ses_shell /\ sim_fit (sim ses_end).
Proof. exact (session_keeps_simulator 20 20 R_stdin ses_shell ses_end 0 ses_shell_ok ses_sim_fit ses_run_ok). Defined.

(** ** Instances of the other theorems *)
Definition ses_aliases : gmap string (list string) := {["go" := ["run"; "fast"]; "run" := ["cycle"]]}%string.
Lemma ses_aliases_ok : aliases_ok ses_aliases.
Proof.
  intros a x Ha. unfold ses_aliases in Ha. apply lookup_insert_Some in Ha as [[_ <-]|[_ Ha]]; [done|].
  apply lookup_singleton_Some in Ha as [_ <-]. done.
Qed.
Lemma expand_aliases_terminates_witness :
  exists r, expand_aliases ses_aliases ["go"; "now"]%string = Ok r /\
    match r with
    | Some c' => rtc (head_step ses_aliases) ["go"; "now"]%string c' /\ expanded ses_aliases c'
    | None => forall c', rtc (head_step ses_aliases) ["go"; "now"]%string c' -> exists c'', head_step ses_aliases c' c''
    end.
Proof. apply (expand_aliases_terminates ses_aliases ["go"; "now"]%string ses_aliases_ok). discriminate. Defined.
Example expands_twice : expand_aliases ses_aliases ["go"; "now"]%string = Ok (Some ["cycle"; "fast"; "now"]%string).
Proof. vm_compute. reflexivity. Qed.

(** Two nodes that are each other's cause. *)
Definition caused_by (i : nat) : NodeState :=
  set_n_causes (mkLastCause (mkTriple i i i) (mkTriple LOGIC_HIGH LOGIC_LOW LOGIC_HIGH)) NodeState_empty.
Definition cyclic_causes : State unit :=
  put_node_pool [NodeState_empty; caused_by 2; caused_by 1] (State_construct 2 [] [] [] [] false tt).
Lemma cyclic_causes_in_range : causes_in_range cyclic_causes.
Proof.
  intros i n v Hn. do 3 (destruct i as [|i]; [injection Hn as <-; destruct v; vm_compute; lia|]).
  discriminate Hn.
Qed.
Lemma backtrace_node_terminates_witness : backtrace_node 1 LOGIC_HIGH cyclic_causes = Ok (tt, cyclic_causes).
Proof. apply (backtrace_node_terminates cyclic_causes 1 LOGIC_HIGH cyclic_causes_in_range). cbn. lia. Defined.

Lemma assert_value_status_witness :
  assert_value_main true ["assert"; "in"; "1"]%string ses_shell
  = Ok (assert_status (sim ses_shell), ses_shell).
Proof.
  apply (assert_value_status true "assert" "in" "1" LOGIC_HIGH [3%nat] ses_shell); [reflexivity..|].
  repeat constructor.
Defined.

Lemma block_comment_skipped_witness :
  source_lines (interp (prsim_commands 5) 9) ["/* off"; "set in 1"; "on */"; "exit"]%string NORMAL ses_shell
  = source_lines (interp (prsim_commands 5) 9) ["exit"]%string NORMAL ses_shell.
Proof.
  apply (block_comment_skipped (prsim_commands 5) 8 "/* off" ["set in 1"]%string "on */" ["exit"]%string NORMAL ses_shell).
  - reflexivity.
  - split; [reflexivity|]. exists "/*"%string, ["off"]%string. split_and!; reflexivity.
  - apply Forall_singleton. right. right. split; [reflexivity|]. exists "set"%string, ["in"; "1"]%string.
    split_and!; reflexivity.
  - split; [reflexivity|]. exists "on"%string, ["*/"]%string. split_and!; reflexivity.
Defined.

Lemma history_rerun_never_returns_witness :
  interp {["history-rerun"%string := HistoryRerun]} 1000 (R_line rerun_line true) ses_shell = Err F_fuel.
Proof. apply history_rerun_never_returns; reflexivity. Defined.

(** ** Time that passes over events

    Two inputs exclude each other, and a violation is fatal.  It happens at 8,
    and the event goes back to the queue; yet "advance" sets the time to 20, so
    that the next step takes the time back to 8. *)
Definition excl_shell : shell (State channel_manager) :=
  put_sim
    (match append_check_exclhi_ring [3; 4]%nat
             (put_node_pool (replicate 5 NodeState_empty) (State_construct 4 [] [] [] [] false channel_manager_empty)) with
     | Ok (_, s) => s | Err _ => ses_sim end) ses_shell.
Definition after (m : M (shell (State channel_manager)) Z) (r : shell (State channel_manager)) :
    Z * shell (State channel_manager) :=
  match m r with Ok p => p | Err _ => (255, r) end.
Example advance_passes_over_events :
  let '(st, r) := after (prsim_script 20 ["initialize"; "set in 0"; "set out 0"; "cycle"; "checkexcl-fail fatal";
    "set in 1 5"; "set out 1 8"; "advance 20"]%string) excl_shell in
  let '(st', r') := after (prsim_line 20 "step"%string) r in
  (st, current_time (sim r), map ep_time (event_queue (sim r)), st', current_time (sim r')) =
  (FATAL, double_of_Z 20 0, [double_of_Z 8 0], FATAL, double_of_Z 8 0).
Proof. vm_compute. reflexivity. Qed.
