(* ===== verification/EvalProps.v ===== *)
(** Correctness of the evaluation of expressions: the counters of the
    expressions of a process always stand for the Kleene values of the guards
    over the values of the nodes, and a change of one leaf restores this by a
    climb towards the root. *)
From S2P Require Import Prelude SimTime PullSet Expr EventQueue ArrayPool OrdMap Node ProcGraph.
From S2P Require Import State Events Schedule Excl Flush Eval.
From stdpp Require Import list_numbers.
Open Scope Z_scope.
Local Open Scope hackt_scope.
#[local] Abbreviation length := Datatypes.length.

Lemma root_dist_no_loop g x r d : root_dist g x r d -> ~ parent_of g x x.
Proof.
  intros Hd Hp. assert (Hd' : root_dist g x r (S d)) by (by eapply root_up).
  destruct (root_dist_fun _ _ _ _ _ _ Hd Hd') as [_ Hbad]. lia.
Qed.

Lemma root_dist_root g x r d : root_dist g x r d ->
  exists e, expr_pool g !! r = Some e /\ is_root e = true.
Proof. induction 1 as [i e He Hr|]; [by exists e|done]. Qed.

(** ** The values of expressions *)
Section Values.
Context (g : unique_process_subgraph).

(** What [check_structure] establishes, and what the allocator of expressions
    guarantees besides: a root is nobody's child, an expression below a root
    has children, and fewer of them than the 16-bit counters can count. *)
Record tree_graph : Prop := {
  tg_wf : wf_graph g;
  tg_root : forall i j k e, child_at g i j (false, k) -> expr_pool g !! k = Some e ->
    is_root e = false;
  tg_live : forall i r d e, root_dist g i r d -> expr_pool g !! i = Some e -> wiped e = false;
  tg_child_live : forall i j k e, child_at g i j (false, k) -> expr_pool g !! k = Some e ->
    wiped e = false;
  tg_size : forall i gn, expr_graph_node_pool g !! i = Some gn ->
    Z.of_nat (length (g_children gn)) < 2 ^ 16
}.

(** [lv i j]: the pull of child [j] of expression [i], if it is a node. *)
Definition leaves : Type := nat -> nat -> pull_enum.
Definition leaf_set (i0 j0 : nat) (p : pull_enum) (lv : leaves) : leaves :=
  fun i j => if decide (i = i0 /\ j = j0) then p else lv i j.

(** The value of an expression over its leaves. *)
Inductive denotes (lv : leaves) : nat -> pull_enum -> Prop :=
  | denotes_expr i e gn ps :
      expr_pool g !! i = Some e -> wiped e = false -> expr_graph_node_pool g !! i = Some gn ->
      length ps = length (g_children gn) ->
      (forall j n, g_children gn !! j = Some (true, n) -> ps !! j = Some (lv i j)) ->
      (forall j k p, g_children gn !! j = Some (false, k) -> ps !! j = Some p -> denotes lv k p) ->
      denotes lv i (kleene e ps).

(** The pull of an expression by its counters. *)
Definition expr_pull (us : list ExprState) (k : nat) : pull_enum :=
  match us !! k, expr_pool g !! k with Some u, Some e => pull_state u e | _, _ => PULL_OFF end.
Definition child_pull (us : list ExprState) (lv : leaves) (i j : nat) (c : child_entry) : pull_enum :=
  if c.1 then lv i j else expr_pull us c.2.
Definition child_pulls (us : list ExprState) (lv : leaves) (i : nat) (gn : ExprGraphNode) : list pull_enum :=
  imap (child_pull us lv i) (g_children gn).

(** The counters of every expression but [x] agree with its children. *)
Definition consistent_except (x : option nat) (lv : leaves) (us : list ExprState) : Prop :=
  length us = length (expr_pool g) /\
  forall i e gn u, Some i <> x -> expr_pool g !! i = Some e -> wiped e = false ->
    expr_graph_node_pool g !! i = Some gn -> us !! i = Some u -> counts e (child_pulls us lv i gn) u.
Definition consistent : leaves -> list ExprState -> Prop := consistent_except None.

Lemma child_pulls_lookup us lv i gn j :
  child_pulls us lv i gn !! j = child_pull us lv i j <$> g_children gn !! j.
Proof. apply list_lookup_imap. Qed.
Lemma child_pulls_length us lv i gn : length (child_pulls us lv i gn) = length (g_children gn).
Proof. apply length_imap. Qed.

Context (Hg : tree_graph).

(** In a consistent state the pull of an expression is its value. *)
Lemma consistent_denotes lv us i p : consistent lv us -> denotes lv i p -> expr_pull us i = p.
Proof.
  intros [Hlen Hc]. induction 1 as [i e gn ps He Hw Hgn Hl Hn Hk IH].
  destruct (lookup_lt_is_Some_2 us i) as [u Hu].
  { rewrite Hlen. by eapply lookup_lt_Some. }
  unfold expr_pull. rewrite Hu, He.
  rewrite (pull_state_kleene e (child_pulls us lv i gn)) by (by eapply Hc).
  f_equal. apply list_eq. intros j. rewrite child_pulls_lookup.
  destruct (g_children gn !! j) as [[[] k]|] eqn:Ej; cbn.
  - by rewrite (Hn _ _ Ej).
  - destruct (lookup_lt_is_Some_2 ps j) as [p Hp].
    { rewrite Hl. by eapply lookup_lt_Some. }
    rewrite Hp. f_equal. by eapply IH.
  - symmetry. apply lookup_ge_None. rewrite Hl. by apply lookup_ge_None.
Qed.

(** Where the new counters of expression [x] show. *)
Lemma child_pulls_other us lv i gn x u' :
  (forall j, g_children gn !! j <> Some (false, x)) ->
  child_pulls (<[x:=u']> us) lv i gn = child_pulls us lv i gn.
Proof.
  intros Hno. apply list_eq. intros j. rewrite !child_pulls_lookup.
  destruct (g_children gn !! j) as [[[] k]|] eqn:Ej; cbn; [done| |done].
  unfold child_pull, expr_pull. cbn [fst snd]. rewrite list_lookup_insert_ne; [done|].
  intros ->. by apply (Hno j).
Qed.
Lemma child_pulls_parent us lv i gn x u' off :
  (forall j, g_children gn !! j = Some (false, x) -> j = off) ->
  g_children gn !! off = Some (false, x) ->
  child_pulls (<[x:=u']> us) lv i gn = <[off := expr_pull (<[x:=u']> us) x]> (child_pulls us lv i gn).
Proof.
  intros Honly Hoff. apply list_eq. intros j. destruct (decide (j = off)) as [->|Hne].
  - rewrite list_lookup_insert_eq, child_pulls_lookup, Hoff; [done|].
    rewrite child_pulls_length. by eapply lookup_lt_Some.
  - rewrite list_lookup_insert_ne, !child_pulls_lookup by done.
    destruct (g_children gn !! j) as [[[] k]|] eqn:Ej; cbn; [done| |done].
    unfold child_pull, expr_pull. cbn [fst snd]. rewrite list_lookup_insert_ne; [done|].
    intros ->. by apply Hne, Honly.
Qed.

(** Child [j] of expression [x] has gone from [prev] to its present pull
    [next], but the counters of [x] have not followed yet. *)
Record pending_change (lv : leaves) (us : list ExprState) (x j : nat) (prev next : pull_enum) : Prop := {
  pc_consistent : consistent_except (Some x) lv us;
  pc_counts : forall e gn u, expr_pool g !! x = Some e -> expr_graph_node_pool g !! x = Some gn ->
    us !! x = Some u -> counts e (<[j:=prev]> (child_pulls us lv x gn)) u /\
    child_pulls us lv x gn !! j = Some next
}.

(** One step of the climb. *)
Lemma climb_step lv us x j prev next e u r d :
  pending_change lv us x j prev next -> root_dist g x r d ->
  expr_pool g !! x = Some e -> us !! x = Some u ->
  exists u', update_expr e u prev next = (u', expr_pull us x, expr_pull (<[x:=u']> us) x) /\
    (expr_pull us x = expr_pull (<[x:=u']> us) x \/ is_root e = true -> consistent lv (<[x:=u']> us)) /\
    (is_root e = false -> exists off,
       pending_change lv (<[x:=u']> us) (e_parent e) off (expr_pull us x) (expr_pull (<[x:=u']> us) x)).
Proof.
  intros [[Hlen Hc] Hpc] Hd He Hu.
  pose proof (tg_live Hg _ _ _ _ Hd He) as Hw.
  pose proof (lookup_lt_Some _ _ _ He) as Hx. rewrite (wf_same_length _ (tg_wf Hg)) in Hx.
  destruct (lookup_lt_is_Some_2 _ _ Hx) as [gn Hgn]. clear Hx.
  destruct (Hpc e gn u He Hgn Hu) as [Hcnt Hj]. set (cs := child_pulls us lv x gn) in *.
  assert (Hlt : (j < length cs)%nat) by (by eapply lookup_lt_Some).
  assert (Hj' : <[j:=prev]> cs !! j = Some prev) by (by apply list_lookup_insert_eq).
  pose proof (counts_insert e _ u j prev next Hj' Hcnt) as Hcnt'.
  rewrite list_insert_insert_eq, (list_insert_id cs j next Hj), length_insert in Hcnt'.
  specialize (Hcnt' ltac:(unfold cs; rewrite child_pulls_length; by eapply tg_size)).
  rewrite update_expr_eq. cbv zeta. set (u' := mkExprState _ _) in *. exists u'. clearbody u'.
  assert (Hxl : (x < length us)%nat) by (by eapply lookup_lt_Some).
  assert (Hpull : expr_pull us x = pull_state u e) by (unfold expr_pull; by rewrite Hu, He).
  assert (Hpull' : expr_pull (<[x:=u']> us) x = pull_state u' e).
  { unfold expr_pull. by rewrite list_lookup_insert_eq, He. }
  assert (Hpar : forall i k, child_at g i k (false, x) ->
      is_root e = false /\ e_parent e = i /\ k = g_offset gn /\ i <> x).
  { intros i k Hch. pose proof (tg_root Hg _ _ _ _ Hch He) as Hnr.
    destruct (wf_child_expr _ (tg_wf Hg) _ _ _ Hch) as (ce & cn & He' & Hgn' & Hp & Ho).
    assert (ce = e) as -> by congruence. assert (cn = gn) as -> by congruence.
    split_and!; [done..|]. intros ->. apply (root_dist_no_loop g x r d Hd). by exists e. }
  assert (Hown : child_pulls (<[x:=u']> us) lv x gn = cs).
  { apply child_pulls_other. intros k Hk. apply (Hpar x k); [by exists e, gn|done]. }
  assert (Hlen' : length (<[x:=u']> us) = length (expr_pool g)) by (by rewrite length_insert).
  assert (Hrest : forall i ei gi ui, expr_pool g !! i = Some ei -> wiped ei = false ->
      expr_graph_node_pool g !! i = Some gi -> <[x:=u']> us !! i = Some ui ->
      (expr_pull us x = expr_pull (<[x:=u']> us) x \/ is_root e = true \/ i <> e_parent e) ->
      counts ei (child_pulls (<[x:=u']> us) lv i gi) ui).
  { intros i ei gi ui Hei Hwi Hgi Hui Hor. destruct (decide (i = x)) as [->|Hix].
    - assert (ei = e) as -> by congruence. assert (gi = gn) as -> by congruence. rewrite Hown.
      rewrite list_lookup_insert_eq in Hui by done. by injection Hui as <-.
    - rewrite list_lookup_insert_ne in Hui by done.
      pose proof (Hc i ei gi ui ltac:(congruence) Hei Hwi Hgi Hui) as Hci.
      assert (Hch : forall k, g_children gi !! k = Some (false, x) -> child_at g i k (false, x))
        by (intros k Hk; by exists ei, gi).
      destruct (decide (g_children gi !! g_offset gn = Some (false, x))) as [Ho|Ho].
      + destruct (Hpar _ _ (Hch _ Ho)) as (Hnr & Hpe & _).
        rewrite (child_pulls_parent us lv i gi x u' (g_offset gn));
          [|intros k Hk; by apply (Hpar i k), Hch|done].
        destruct Hor as [Heq|[Hr|Hne]]; [|congruence|by rewrite Hpe in Hne].
        rewrite <- Heq, list_insert_id; [done|]. by rewrite child_pulls_lookup, Ho.
      + rewrite child_pulls_other; [done|]. intros k Hk. apply Ho.
        by destruct (Hpar _ _ (Hch _ Hk)) as (_ & _ & <- & _). }
  split; [by rewrite Hpull, Hpull'|split].
  - intros Hor. split; [done|]. intros i ei gi ui _ Hei Hwi Hgi Hui. eapply Hrest; try done.
    destruct Hor; tauto.
  - intros Hnr. exists (g_offset gn). split.
    + split; [done|]. intros i ei gi ui Hne Hei Hwi Hgi Hui. eapply Hrest; try done.
      right. right. congruence.
    + intros pe pg pu Hpe Hpg Hpu.
      destruct (wf_parent _ (tg_wf Hg) x e He Hw Hnr) as (pg' & gn' & Hgn' & Hpg' & Ho).
      assert (gn' = gn) as -> by congruence. assert (pg' = pg) as -> by congruence.
      assert (Hdp : root_dist g (e_parent e) r (d - 1)).
      { inversion Hd as [? e' He' Hr'|? p' ? d' (e' & He' & Hr' & <-) Hd']; subst.
        - assert (e' = e) as -> by congruence. congruence.
        - assert (e' = e) as -> by congruence. by rewrite Nat.sub_succ, Nat.sub_0_r. }
      pose proof (tg_live Hg _ _ _ _ Hdp Hpe) as Hwp.
      assert (Hch : child_at g (e_parent e) (g_offset gn) (false, x)) by (by exists pe, pg).
      destruct (Hpar _ _ Hch) as (_ & _ & _ & Hpx).
      rewrite list_lookup_insert_ne in Hpu by done.
      rewrite (child_pulls_parent us lv (e_parent e) pg x u' (g_offset gn));
        [|intros k Hk; apply (Hpar (e_parent e) k); by exists pe, pg|done].
      assert (Hcl : child_pulls us lv (e_parent e) pg !! g_offset gn = Some (expr_pull us x))
        by (by rewrite child_pulls_lookup, Ho).
      rewrite list_insert_insert_eq, list_insert_id by done. split.
      * eapply Hc; [congruence|done..].
      * apply list_lookup_insert_eq. by eapply lookup_lt_Some.
Qed.

(** What a climb to root [r] reports. *)
Definition climb_result (us us' : list ExprState) (r : nat) (o : option eval_info) : Prop :=
  match o with
  | None => expr_pull us' r = expr_pull us r
  | Some i => root_expr i = r /\ root_prev i = expr_pull us r /\ root_next i = expr_pull us' r /\
      root_prev i <> root_next i /\ exists e, expr_pool g !! r = Some e /\ root_node i = e_parent e
  end.

Lemma expr_pull_ne us x u' k : k <> x -> expr_pull (<[x:=u']> us) k = expr_pull us k.
Proof. intros Hne. unfold expr_pull. by rewrite list_lookup_insert_ne. Qed.

Section Climb.
Context {C : Type} {env : Env}.
#[local] Abbreviation State := (State C).

Lemma wp_evaluate_climb fuel pid ps lv x j prev next r d (s : State) :
  process_state_array s !! pid = Some ps -> pending_change lv (expr_states ps) x j prev next ->
  root_dist g x r d -> (d < fuel)%nat ->
  wp (evaluate_climb fuel pid g x prev next) (fun o s' => exists us',
    s' = put_process_state_array (<[pid := set_expr_states us' ps]> (process_state_array s)) s /\
    consistent lv us' /\ climb_result (expr_states ps) us' r o) s.
Proof.
  revert x j prev next d ps s. induction fuel as [|fuel IH]; intros x j prev next d ps s Hps Hpc Hd Hf; [lia|].
  destruct (expr_pool g !! x) as [e|] eqn:He.
  2: { inversion Hd as [? e' He' ?|? ? ? ? (e' & He' & _) _]; subst; congruence. }
  destruct (lookup_lt_is_Some_2 (expr_states ps) x) as [u Hu].
  { rewrite (proj1 (pc_consistent _ _ _ _ _ _ Hpc)). by eapply lookup_lt_Some. }
  destruct (climb_step _ _ _ _ _ _ _ _ _ _ Hpc Hd He Hu) as (u' & Eu & Hdone & Hgo).
  cbn [evaluate_climb]. apply wpe_bind, wpe_of_option; [|by rewrite He]. intros e' E'.
  assert (e' = e) as -> by congruence. clear E'.
  apply wpe_bind. unfold get_process_state. apply wpe_bind, wpe_gets, wpe_of_option; [|by rewrite Hps].
  intros ps' E'. assert (ps' = ps) as -> by congruence. clear E'.
  apply wpe_bind, wpe_of_option; [|by rewrite Hu]. intros u0 E0. assert (u0 = u) as -> by congruence.
  rewrite Eu. set (us' := <[x:=u']> (expr_states ps)) in *. apply wpe_bind, wpe_modify.
  destruct (root_dist_root _ _ _ _ Hd) as (er & Her & Hrr).
  assert (Hne : is_root e = false -> r <> x) by (intros Hr ->; congruence).
  destruct (pull_eqb _ _) eqn:Hp.
  { apply pull_eqb_eq in Hp. apply wpe_ret. exists us'. split; [done|]. split; [apply Hdone; by left|].
    cbn. destruct (decide (r = x)) as [->|Hrx]; [done|by apply expr_pull_ne]. }
  assert (Hpne : expr_pull (expr_states ps) x <> expr_pull us' x).
  { intros Heq. apply pull_eqb_eq in Heq. congruence. }
  destruct (is_root e) eqn:Hr.
  { apply wpe_ret. exists us'. split; [done|]. split; [apply Hdone; by right|].
    assert (r = x) as ->.
    { inversion Hd as [? e' He' Hr'|? p' ? d' (e' & He' & Hr' & _) Hd']; subst; congruence. }
    cbn. split_and!; try done. by exists e. }
  destruct (Hgo eq_refl) as [off Hpc'].
  assert (Hd' : exists d', root_dist g (e_parent e) r d' /\ d = S d').
  { inversion Hd as [? e' He' Hr'|? p' ? d' (e' & He' & Hr' & <-) Hd']; subst; [congruence|].
    assert (e' = e) as -> by congruence. by exists d'. }
  destruct Hd' as (d' & Hd' & ->).
  eapply wpe_mono; [apply (IH (e_parent e) off (expr_pull (expr_states ps) x) (expr_pull us' x) d' (set_expr_states us' ps)); [|exact Hpc'|exact Hd'|lia]|].
  { cbn. apply list_lookup_insert_eq. by eapply lookup_lt_Some. }
  intros o s' (us2 & -> & Hc2 & Hres). exists us2. split; [|split; [done|]].
  - cbn. by rewrite list_insert_insert_eq.
  - cbn [expr_states set_expr_states] in Hres. unfold climb_result in *. unfold us' in Hres.
    by rewrite !(expr_pull_ne (expr_states ps) x u' r) in Hres by (by apply Hne).
Qed.
End Climb.
End Values.

Lemma leaf_set_pending g us lv i0 j0 n0 prev next :
  consistent g lv us -> child_at g i0 j0 (true, n0) -> lv i0 j0 = prev ->
  pending_change g (leaf_set i0 j0 next lv) us i0 j0 prev next.
Proof.
  intros [Hlen Hc] (e0 & gn0 & He0 & Hgn0 & Hw0 & Hj0) Hprev.
  assert (Hl : forall i j, leaf_set i0 j0 next lv i j = if decide (i = i0 /\ j = j0) then next else lv i j) by done.
  split.
  - split; [done|]. intros i e gn u Hne He Hw Hgn Hu.
    assert (child_pulls g us (leaf_set i0 j0 next lv) i gn = child_pulls g us lv i gn) as ->.
    { apply list_eq. intros j. rewrite !child_pulls_lookup.
      destruct (g_children gn !! j) as [[[] k]|]; cbn; [|done..]. f_equal.
      unfold child_pull. cbn [fst]. rewrite Hl, decide_False; [done|]. intros [-> _]. done. }
    by eapply Hc.
  - intros e gn u He Hgn Hu. assert (e = e0) as -> by congruence. assert (gn = gn0) as -> by congruence.
    assert (Hnew : child_pulls g us (leaf_set i0 j0 next lv) i0 gn0 !! j0 = Some next).
    { rewrite child_pulls_lookup, Hj0. cbn. unfold child_pull. cbn [fst]. by rewrite Hl, decide_True. }
    split; [|done].
    assert (<[j0:=prev]> (child_pulls g us (leaf_set i0 j0 next lv) i0 gn0) = child_pulls g us lv i0 gn0) as ->.
    { apply list_eq. intros j. destruct (decide (j = j0)) as [->|Hne].
      - rewrite list_lookup_insert_eq by (by eapply lookup_lt_Some).
        rewrite child_pulls_lookup, Hj0. cbn. unfold child_pull. cbn [fst]. by rewrite Hprev.
      - rewrite list_lookup_insert_ne, !child_pulls_lookup by done.
        destruct (g_children gn0 !! j) as [[[] k]|]; cbn; [|done..]. f_equal.
        unfold child_pull. cbn [fst]. rewrite Hl, decide_False; [done|]. by intros [_ ->]. }
    by eapply Hc.
Qed.

(** ** Initialization: everything is X *)
Lemma initialize_states_spec us es l : initialize_states us es = Ok l ->
  length l = length us /\
  forall i e, l !! i <> None -> es !! i = Some e -> l !! i = Some (ExprState_initialize e).
Proof.
  revert es l. induction us as [|u us IH]; intros es l E; cbn in E.
  - injection E as <-. split; [done|]. intros i e Hi. by destruct i.
  - destruct es as [|e0 es]; [done|]. destruct (initialize_states us es) as [l'|] eqn:E'; [|done].
    injection E as <-. destruct (IH _ _ E') as [Hl Hall]. split; [cbn; by f_equal|].
    intros [|i] e Hi He; cbn in *; [by injection He as <-|]. by apply Hall.
Qed.

Lemma sumz_all {A} (f : A -> Z) (l : list A) x : (forall y, y ∈ l -> y = x) ->
  sumz f l = f x * Z.of_nat (length l).
Proof.
  induction l as [|y l IH]; intros Hl; cbn [sumz]; [by rewrite Z.mul_0_r|].
  rewrite IH by (intros z Hz; apply Hl; by right). rewrite (Hl y) by (by left). cbn [length]. lia.
Qed.

Lemma initialize_consistent g ps ps' : tree_graph g ->
  length (expr_states ps) = length (expr_pool g) -> process_initialize g ps = Ok ps' ->
  consistent g (fun _ _ => PULL_WEAK) (expr_states ps').
Proof.
  intros Hg Hlen E. unfold process_initialize in E.
  destruct (initialize_states _ _) as [l|] eqn:El; [|done]. injection E as <-. cbn.
  destruct (initialize_states_spec _ _ _ El) as [Hl Hall].
  split; [by rewrite Hl|]. intros i e gn u _ He Hw Hgn Hu.
  assert (u = ExprState_initialize e) as ->.
  { enough (l !! i = Some (ExprState_initialize e)) by congruence. apply Hall; [by rewrite Hu|done]. }
  assert (HX : forall p, p ∈ child_pulls g l (fun _ _ => PULL_WEAK) i gn -> p = PULL_WEAK).
  { intros p Hp. apply list_elem_of_lookup_1 in Hp as [j Hj]. rewrite child_pulls_lookup in Hj.
    apply fmap_Some in Hj as ([[] k] & Hk & ->); [done|]. unfold child_pull, expr_pull. cbn [fst snd].
    assert (Hch : child_at g i j (false, k)) by (by exists e, gn).
    destruct (wf_child_expr _ (tg_wf _ Hg) _ _ _ Hch) as (ce & cn & Hce & _).
    pose proof (tg_child_live _ Hg _ _ _ _ Hch Hce) as Hcw.
    destruct (lookup_lt_is_Some_2 l k) as [cu Hcu].
    { rewrite Hl, Hlen. by eapply lookup_lt_Some. }
    rewrite Hcu, Hce. assert (cu = ExprState_initialize ce) as ->.
    { enough (l !! k = Some (ExprState_initialize ce)) by congruence. apply Hall; [by rewrite Hcu|done]. }
    unfold wiped in Hcw. unfold pull_state, or_pull_state, and_pull_state, ExprState_initialize.
    cbn [countdown unknowns]. rewrite Hcw. cbn. by destruct (is_disjunctive ce), (is_not ce). }
  split; cbn [ExprState_initialize countdown unknowns]; rewrite (sumz_all _ _ PULL_WEAK HX), child_pulls_length.
  - unfold pull_c. by destruct (is_disjunctive e).
  - rewrite (wf_size _ (tg_wf _ Hg) _ _ _ He Hgn Hw). cbn [pull_x]. lia.
Qed.

(** ** Properties *)

(** C9: [evaluate_kernel], called for a leaf that went from [prev] to [next],
    terminates without a fault, and the counters of all the expressions of the
    process agree with their children again.  It reports the change of the
    root's pull, and reports nothing exactly when that did not change; the
    pull of the root is the Kleene value of its guard over the new leaves. *)
Theorem evaluate_kernel_correct {C} {env : Env} (s : State C) gui pid ps g i0 j0 n0 lv prev next r d :
  lookup_global_expr_process gui s = Ok (pid, s) -> process_state_array s !! pid = Some ps ->
  unique_process_pool s !! ps_type ps = Some g -> local_expr_index ps gui = Some i0 ->
  tree_graph g -> child_at g i0 j0 (true, n0) -> root_dist g i0 r d ->
  consistent g lv (expr_states ps) -> lv i0 j0 = prev ->
  exists o us', evaluate_kernel gui prev next s
    = Ok ((pid, o), put_process_state_array
            (<[pid := set_expr_states us' ps]> (process_state_array s)) s) /\
    consistent g (leaf_set i0 j0 next lv) us' /\ climb_result g (expr_states ps) us' r o /\
    forall p, denotes g (leaf_set i0 j0 next lv) r p -> expr_pull g us' r = p.
Proof.
  intros Hgui Hps Hty Hi Hg Hch Hd Hc Hprev.
  pose proof (leaf_set_pending g _ lv i0 j0 n0 prev next Hc Hch Hprev) as Hpc.
  pose proof (root_dist_bound g i0 r d Hd) as Hb.
  assert (Hw : wp (evaluate_kernel gui prev next) (fun po s' => exists us', po.1 = pid /\
      s' = put_process_state_array (<[pid := set_expr_states us' ps]> (process_state_array s)) s /\
      consistent g (leaf_set i0 j0 next lv) us' /\ climb_result g (expr_states ps) us' r po.2) s).
  { unfold evaluate_kernel. apply wpe_bind. unfold wpe at 1. rewrite Hgui.
    apply wpe_bind. unfold get_process_state. apply wpe_bind, wpe_gets, wpe_of_option; [|by rewrite Hps].
    intros ps' E. assert (ps' = ps) as -> by congruence.
    apply wpe_bind. unfold get_type. apply wpe_bind, wpe_gets, wpe_of_option; [|by rewrite Hty].
    intros g' E'. assert (g' = g) as -> by congruence.
    apply wpe_bind, wpe_of_option; [|by rewrite Hi]. intros ui Ei. assert (ui = i0) as -> by congruence.
    apply wpe_bind. eapply wpe_mono; [eapply (wp_evaluate_climb g Hg); [done|exact Hpc|exact Hd|lia]|].
    intros o s' (us' & -> & ? & ?). apply wpe_ret. by exists us'. }
  apply wp_total in Hw as ([pid' o] & s' & E & us' & Hpid & -> & Hc' & Hres). cbn in Hpid, Hres. subst pid'.
  exists o, us'. split; [done|]. split; [done|]. split; [done|]. intros p. by apply consistent_denotes.
Qed.

(** initializing a process makes the counters of its expressions
    consistent with leaves that are all X, so that evaluation can start. *)
Theorem process_initialize_consistent g ps :
  tree_graph g -> length (expr_states ps) = length (expr_pool g) ->
  exists ps', process_initialize g ps = Ok ps' /\ ps_type ps' = ps_type ps /\
    consistent g (fun _ _ => PULL_WEAK) (expr_states ps').
Proof.
  intros Hg Hlen. destruct (process_initialize g ps) as [ps'|f] eqn:E.
  - exists ps'. split; [done|]. split; [|by eapply initialize_consistent].
    unfold process_initialize in E. destruct (initialize_states _ _); [|done]. by injection E as <-.
  - exfalso. unfold process_initialize in E.
    assert (Hok : forall us es, length us = length es -> exists l, initialize_states us es = Ok l).
    { induction us as [|u us IH]; intros [|e es] Hl; try done; cbn; [by eexists|].
      destruct (IH es) as [l ->]; [by injection Hl|]. by eexists. }
    destruct (Hok _ _ Hlen) as [l El]. by rewrite El in E.
Qed.

(** ** An example: a NAND gate *)
Section Example.
Lemma nand_tree : tree_graph nand_graph.
Proof.
  assert (Hc : forall i j k, child_at nand_graph i j (false, k) -> k = 0%nat).
  { intros i j k (e & gn & He & Hgn & _ & Hj).
    destruct i as [|[|i]]; cbn in Hgn; [| |done]; injection Hgn as <-; cbn in Hj.
    - apply list_elem_of_lookup_2 in Hj. set_solver.
    - apply list_elem_of_lookup_2 in Hj. set_solver. }
  split.
  - apply (check_structure_wf nand_graph nand_graph). vm_compute. reflexivity.
  - intros i j k e Hch He. apply Hc in Hch as ->. by injection He as <-.
  - intros i r d e _ He. destruct i as [|[|i]]; cbn in He; [| |done]; by injection He as <-.
  - intros i j k e Hch He. apply Hc in Hch as ->. by injection He as <-.
  - intros i gn Hgn. destruct i as [|[|i]]; cbn in Hgn; [| |done]; by injection Hgn as <-.
Qed.

#[local] Instance nand_env : Env := {|
  env_rand48 := fun _ => real_zero; env_lrand48 := fun _ => 0; env_garbage := real_zero;
  env_log := id; env_shuffle := fun _ l => l;
  env_GND := 1%nat; env_Vdd := 2%nat |}.
Definition nand_process : process_sim_state :=
  mkProcState 0 1 [mkExprState 0 2; mkExprState 0 1].
Definition nand_state : State unit :=
  State_construct 3 [nand_graph] [(1, 0)]%nat [nand_process] [[1; 2; 3]%nat] false tt.

(** Input 0 goes from X to 0: the pull-up of the output goes from X to on. *)
Lemma evaluate_kernel_correct_witness :
  exists o us' s', evaluate_kernel 1 PULL_WEAK PULL_OFF nand_state = Ok ((0%nat, o), s') /\
    o = Some (mkEvalInfo 1 2 PULL_WEAK PULL_ON) /\
    climb_result nand_graph (expr_states nand_process) us' 1 o.
Proof.
  destruct (evaluate_kernel_correct nand_state 1 0 nand_process nand_graph 0 0 0
    (fun _ _ => PULL_WEAK) PULL_WEAK PULL_OFF 1 1) as (o & us' & E & _ & Hr & _);
    [reflexivity..|exact nand_tree| | | |reflexivity|].
  - by exists (mkExpr 1 EXPR_AND 2), (mkExprGraphNode 0 [(true, 0%nat); (true, 1%nat)]).
  - eapply root_up; [by eexists|]. by eapply root_here.
  - split; [done|]. intros i e gn u _ He _ Hgn Hu.
    destruct i as [|[|i]]; cbn in He, Hgn, Hu; [| |done]; injection He as <-; injection Hgn as <-;
      injection Hu as <-; by vm_compute.
  - exists o, us'. eexists. split; [exact E|]. split; [|exact Hr].
    assert (Ho : match evaluate_kernel 1 PULL_WEAK PULL_OFF nand_state with
      | Ok ((_, x), _) => x = Some (mkEvalInfo 1 2 PULL_WEAK PULL_ON) | Err _ => False end)
      by (vm_compute; reflexivity).
    rewrite E in Ho. exact Ho.
Defined.

Lemma process_initialize_consistent_witness :
  exists ps', process_initialize nand_graph (allocate_from_type nand_graph 0 1) = Ok ps' /\
    consistent nand_graph (fun _ _ => PULL_WEAK) (expr_states ps').
Proof.
  destruct (process_initialize_consistent nand_graph (allocate_from_type nand_graph 0 1) nand_tree eq_refl)
    as (ps' & E & _ & Hc).
  exists ps'. split; [exact E|exact Hc].
Defined.
End Example.
