(* ===== verification/FlushProps.v ===== *)
(** Correctness of flushing: what becomes of the pending event of a node whose
    pulls have changed, as a change of the abstract schedule. *)
From S2P Require Import Prelude SimTime PullSet Expr EventQueue ArrayPool OrdMap Node ProcGraph.
From S2P Require Import State Events Schedule Excl Flush Step.
From S2P Require Import EventInv EventProps ScheduleProps StepProps.
Open Scope Z_scope.
Local Open Scope hackt_scope.
#[local] Abbreviation length := Datatypes.length.

Section Flush.
Context {C : Type} {env : Env}.
#[local] Abbreviation State := (State C).
#[local] Abbreviation SM := (M State).
Implicit Types (s : State).

(** ** Delays that are not random *)

(** The rule that an event points to. *)
Definition rule_at s (o : option rule_ref) : option (option Rule) :=
  match o with
  | None => Some None
  | Some p => g ← unique_process_pool s !! p.1; r ← rule_pool g !! p.2; Some (Some r)
  end.
Definition fixed_delay s (e : Event) : option real_time :=
  r ← rule_at s (ev_rule_ptr e);
  match timing_mode (timing s) with
  | TIMING_UNIFORM => Some (uniform_delay (timing s))
  | TIMING_AFTER =>
      match r with
      | Some r' => if is_always_random r' then None else Some (r_after r')
      | None => Some real_zero
      end
  | _ => None
  end.

Lemma wp_deref_rule_opt E s o r (Q : option Rule -> State -> Prop) :
  rule_at s o = Some r -> Q r s -> wpe E (deref_rule_opt o) Q s.
Proof.
  intros Hr HQ. destruct o as [p|]; cbn in Hr; [|injection Hr as <-; by apply wpe_ret].
  destruct (unique_process_pool s !! p.1) as [g|] eqn:Hg; [|done]. cbn in Hr.
  destruct (rule_pool g !! p.2) as [r'|] eqn:Hr'; [|done]. injection Hr as <-.
  unfold deref_rule_opt, deref_rule, get_type.
  apply wpe_bind, wpe_bind, wpe_bind, wpe_gets, wpe_of_option; [|congruence]. intros g' Eg.
  apply wpe_of_option; [|congruence]. intros r0 Er. apply wpe_ret. congruence.
Qed.

Lemma wp_get_delay_up E s e d (Q : real_time -> State -> Prop) :
  fixed_delay s e = Some d -> Q (t_add (current_time s) d) s -> wpe E (get_delay_up e) Q s.
Proof.
  unfold fixed_delay. intros Hd HQ. destruct (rule_at s (ev_rule_ptr e)) as [r|] eqn:Hr; [|done].
  cbn in Hd. unfold get_delay_up. apply wpe_bind. eapply wp_deref_rule_opt; [done|].
  apply wpe_bind, wpe_gets, wpe_bind. unfold delay_delta.
  destruct (timing_mode (timing s)); try done.
  2: { injection Hd as <-. by apply wpe_ret, wpe_bind, wpe_gets, wpe_ret. }
  - destruct r as [r'|].
    + destruct (is_always_random r'); [done|]. injection Hd as <-.
      by apply wpe_ret, wpe_bind, wpe_gets, wpe_ret.
    + injection Hd as <-. by apply wpe_ret, wpe_bind, wpe_gets, wpe_ret.
Qed.

(** ** Effects on the schedule *)

(** The schedule sees a node only by its link. *)
Lemma schedule_links s s' : event_pool s' = event_pool s -> event_queue s' = event_queue s ->
  links s' = links s -> schedule s' ≡ schedule s.
Proof.
  intros Ep Eq El.
  assert (Hone : forall s1 s2 : State, event_pool s1 = event_pool s2 -> event_queue s1 = event_queue s2 ->
      links s1 = links s2 -> forall ni e t, schedule s1 ni e t -> schedule s2 ni e t).
  { intros s1 s2 Ep' Eq' El' ni e t (n & Hn & Hp & Hg & Hq). apply links_lookup in Hn.
    rewrite El' in Hn. apply links_lookup_inv in Hn as (m & Hm & Hi). exists m.
    rewrite Ep', Eq' in *. rewrite Hi. split_and!; [done| |done|done].
    unfold pending_event in *. by rewrite Hi. }
  intros ni e t. split; by apply Hone.
Qed.

Lemma wp_enqueue_new_event s ni n e d :
  wf_events s -> node_pool s !! ni = Some n -> pending_event n = false -> is_atomic n = false ->
  is_frozen n = false -> ev_node e = ni -> killed e = false -> fixed_delay s e = Some d ->
  t_le (current_time s) (t_add (current_time s) d) = true ->
  wp (enqueue_new_event e) (fun _ s' => wf_events s' /\ only_events ni n s s' /\
    schedule s' ≡ sch_put ni e (t_add (current_time s) d) (schedule s)) s.
Proof.
  intros Hev Hn Hp Hna Hnf He Hk Hd Ht. unfold enqueue_new_event. rewrite He.
  apply wpe_bind. eapply wpe___allocate_event; [exact Hev|done|done|by left|done|done|].
  intros i p' Hi Hg Hgf. cbv zeta. intros Hev1.
  set (s1 := put_node_pool (<[ni := set_n_event_index i n]> (node_pool s)) (put_event_pool p' s)) in *.
  assert (Hlt : (ni < length (node_pool s))%nat) by (by eapply lookup_lt_Some).
  assert (Hn1 : node_pool s1 !! ni = Some (set_n_event_index i n)) by (by apply list_lookup_insert_eq).
  assert (Hgd : forall Q : real_time -> State -> Prop, Q (t_add (current_time s) d) s1 ->
      wp (if value_eqb (ev_val e) LOGIC_LOW then get_delay_dn e else get_delay_up e) Q s1).
  { intros Q HQ. destruct (value_eqb _ _); by apply (wp_get_delay_up _ s1 e d). }
  apply wpe_bind, Hgd. eapply (wpe_enqueue_event _ [] _ i e); [done|done|by rewrite He|done|done|done|done|].
  intros s2 Hev2. split; [done|]. split; [by exists p', (push (event_queue s) (mkPlaceholder (t_add (current_time s) d) i)), i|].
  unfold s2. rewrite (schedule_push [] s1 i e _ (set_n_event_index i n)) by (rewrite ?He; done).
  rewrite He. unfold s1. rewrite (schedule_link s ni n i p'); [by apply sch_put_del|done| |].
  - pose proof (ok_nodup _ _ _ _ _ Hev1) as Hnd. apply NoDup_app in Hnd as (_ & Hdj & _).
    intros Hin. apply (Hdj i Hin). by left.
  - intros nj m Hne Hm Hpm. apply Hgf. by destruct (EV_pending _ _ _ _ Hev Hm Hpm) as (? & ? & _).
Qed.

Lemma wp_kill_event s ni n :
  wf_events s -> node_pool s !! ni = Some n -> pending_event n = true ->
  wp (kill_event (n_event_index n) ni) (fun _ s' => wf_events s' /\ only_events ni n s s' /\
    node_pool s' !! ni = Some (clear_event n) /\ schedule s' ≡ sch_del ni (schedule s)) s.
Proof.
  intros Hev Hn Hp. eapply wpe_kill_event; [exact Hev|done|done|].
  intros p' Hgj _. cbv zeta. intros Hev'. split; [done|]. split; [|split].
  - by exists p', (event_queue s), INVALID_EVENT_INDEX.
  - cbn. apply list_lookup_insert_eq. by eapply lookup_lt_Some.
  - by apply (schedule_kill [] s ni n p').
Qed.

(** Rewriting a pending event. *)
Lemma wp_upd_pending s ni n e0 t0 f :
  wf_events s -> node_pool s !! ni = Some n -> schedule s ni e0 t0 ->
  ev_node (f e0) = ev_node e0 -> killed (f e0) = killed e0 ->
  wp (upd_event (n_event_index n) f) (fun _ s' => wf_events s' /\ only_events ni n s s' /\
    (exists p, s' = put_event_pool p s) /\
    pool_get (event_pool s') (n_event_index n) = Ok (f e0) /\
    schedule s' ≡ sch_put ni (f e0) t0 (schedule s)) s.
Proof.
  intros Hev Hn (n' & Hn' & Hp & Hg & Hq) En Ek. assert (n' = n) as -> by congruence.
  destruct (EV_pending _ _ _ _ Hev Hn Hp) as (e' & Ha & Hg' & _ & _ & _).
  destruct (pool_set_spec _ _ (f e0) (ok_pool _ _ _ _ _ Hev) (proj1 Ha)) as (p' & Ep & _ & _ & _ & Hgi & Hgj).
  eapply wpe_upd_event; [exact Hg|exact Ep|]. split; [|split; [|split; [|split]]].
  - unfold wf_events, EV in *. cbn. exact (ev_ok_update _ _ _ _ _ _ e0 (f e0) p' Hev Hg En Ek Ep).
  - exists p', (event_queue s), (n_event_index n).
    assert (set_n_event_index (n_event_index n) n = n) as -> by (by destruct n).
    rewrite list_insert_id by done. by destruct s.
  - by exists p'.
  - exact Hgi.
  - intros nj e t. unfold schedule, sch_put. cbn. split.
    + intros (m & Hm & Hpm & Hgm & Hqm). destruct (decide (nj = ni)) as [->|Hne].
      * left. assert (m = n) as -> by congruence. split; [done|]. split; [congruence|].
        assert (Hs1 : schedule s ni e0 t) by (by exists n).
        assert (Hs2 : schedule s ni e0 t0) by (by exists n).
        by destruct (schedule_fun _ _ _ _ _ _ _ Hev Hs1 Hs2).
      * right. split; [done|]. exists m. rewrite Hgj in Hgm; [done|]. intros Heq.
        by apply Hne, (EV_link_inj _ _ _ _ _ _ Hev Hm Hn Hpm).
    + intros [(-> & -> & ->)|(Hne & m & Hm & Hpm & Hgm & Hqm)]; [by exists n|].
      exists m. rewrite Hgj; [done|]. intros Heq. by apply Hne, (EV_link_inj _ _ _ _ _ _ Hev Hm Hn Hpm).
Qed.

Lemma sch_del_put ni e t (P : schedule_type) : sch_del ni (sch_put ni e t P) ≡ sch_del ni P.
Proof. intros nj e' t'. unfold sch_put, sch_del. tauto. Qed.
Lemma sch_put_put ni e t e1 t1 (P : schedule_type) : sch_put ni e t (sch_put ni e1 t1 P) ≡ sch_put ni e t P.
Proof. intros nj e' t'. unfold sch_put. tauto. Qed.
Lemma sch_put_same H s ni e t : EV H s -> schedule s ni e t -> sch_put ni e t (schedule s) ≡ schedule s.
Proof.
  intros Hev Hs nj e' t'. unfold sch_put. split.
  - by intros [(-> & -> & ->)|[_ ?]].
  - intros Hs'. destruct (decide (nj = ni)) as [->|]; [left|by right].
    by destruct (schedule_fun _ _ _ _ _ _ _ Hev Hs Hs') as [-> ->].
Qed.

Lemma state_lookup_rule_pool s ei o p : state_lookup_rule ei s = Ok (o, s) ->
  state_lookup_rule ei (put_event_pool p s) = Ok (o, put_event_pool p s).
Proof.
  unfold state_lookup_rule, lookup_global_expr_process, get_process_state, get_type, bind, gets,
    of_option, require, ret, fail. cbn [global_expr_process_id_map process_state_array
    unique_process_pool put_event_pool].
  destruct (negb (Nat.eqb ei 0)); [|by intros [= <-]].
  destruct (m_last_le ei _) as [x|]; [|done]. destruct (process_state_array s !! x.2) as [ps|] eqn:E; [|done].
  rewrite E. destruct (unique_process_pool s !! ps_type ps) as [g|] eqn:Eg; rewrite ?Eg; [|done].
  intros [= <-]. cbn [process_state_array put_event_pool]. rewrite E. cbn [process_state_array put_event_pool].
  rewrite E. cbn [unique_process_pool put_event_pool]. by rewrite Eg.
Qed.

(** ** The node of a flush *)

(** Whether no rule pulls the node to the pending value any more. *)
Definition unsupported (p : pull_set) (pval : value_enum) : bool :=
  match pval with
  | LOGIC_HIGH => negb (pull_eqb (up p) PULL_ON || pull_eqb (wup p) PULL_ON)
  | LOGIC_LOW => negb (pull_eqb (dn p) PULL_ON || pull_eqb (wdn p) PULL_ON)
  | LOGIC_OTHER => false
  end.
Lemma lost_pull_unsupported p pval : lost_pull p pval = unsupported p pval.
Proof. by destruct p as [[] [] [] []], pval. Qed.

(** What becomes of the pending event of a node. *)
Inductive flush_action : Set := FA_keep | FA_cancel | FA_schedule | FA_make_x.

(** [v]: the value that the pulls ask for; [drop]: whether unstable events are
    dropped rather than turned into X. *)
Definition flush_action_of (pend : option Event) (p : pull_set) (old v : value_enum) (drop : bool)
    : flush_action :=
  let renew := if value_eqb v old then FA_cancel else FA_schedule in
  match pend with
  | None => if value_eqb v old then FA_keep else FA_schedule
  | Some pe =>
      if unsupported p (ev_val pe) then
        if drop then renew else if value_eqb old LOGIC_OTHER then FA_cancel else FA_make_x
      else if (pulling_dn p || pulling_up p) && negb (value_eqb v (ev_val pe)) &&
              value_eqb (ev_val pe) LOGIC_OTHER then renew
      else FA_keep
  end.

Definition flushed_event (c : cause_type) (f : node_update_info) (ni : nat) (p : pull_set)
    (v : value_enum) : Event :=
  set_ev_val v (set_weak (weak_wins_any p)
    (set_ev_rule_ptr (rule_ptr f) (set_ev_cause_rule (rule_index f)
      (set_ev_cause c (set_ev_node ni Event_empty))))).
Definition unstable_event (c : cause_type) (pe : Event) : Event :=
  set_ev_cause (mkCause (cause_ec c) (critical_trace_event (ev_cause pe))) pe.
Definition x_event (c : cause_type) (p : pull_set) (pe : Event) : Event :=
  set_weak (weak_wins_any p) (set_cause_node (cause_node c) (set_ev_val LOGIC_OTHER (unstable_event c pe))).

Definition flushed_schedule (c : cause_type) (p : pull_set) (ni : nat) (a : flush_action)
    (pend : option (Event * real_time)) (e : Event) (t : real_time) (P : schedule_type) : schedule_type :=
  match a, pend with
  | FA_keep, _ => P
  | FA_cancel, _ => sch_del ni P
  | FA_schedule, _ => sch_put ni e t P
  | FA_make_x, Some (pe, t0) => sch_put ni (x_event c p pe) t0 P
  | FA_make_x, None => P
  end.

Lemma killed_flushed c f ni p v : killed (flushed_event c f ni p v) = false.
Proof. unfold flushed_event. by destruct (weak_wins_any p). Qed.

(** [renew_event]: cancelled, and scheduled anew unless that is vacuous. *)
Lemma wp_renew_event s ni n old e d :
  wf_events s -> node_pool s !! ni = Some n -> pending_event n = true ->
  ev_node e = ni -> killed e = false ->
  (ev_val e <> old -> is_atomic n = false /\ is_frozen n = false /\ fixed_delay s e = Some d /\
     t_le (current_time s) (t_add (current_time s) d) = true) ->
  wp (renew_event ni (n_event_index n) old e) (fun _ s' => wf_events s' /\ only_events ni n s s' /\
    schedule s' ≡ if value_eqb (ev_val e) old then sch_del ni (schedule s)
                  else sch_put ni e (t_add (current_time s) d) (schedule s)) s.
Proof.
  intros Hev Hn Hp He Hk Hnew. unfold renew_event. apply wpe_bind.
  eapply wpe_mono; [by apply wp_kill_event|]. intros [] s1 (Hev1 & Ho & Hn1 & Hs1).
  destruct (value_eqb (ev_val e) old) eqn:Hv; cbn [negb when]; [by apply wpe_ret|].
  destruct Hnew as (Hna & Hnf & Hd & Ht).
  { intros Heq. apply value_eqb_eq in Heq. congruence. }
  pose proof Ho as (p & q & k & E).
  assert (Hd1 : fixed_delay s1 e = Some d) by (by subst s1).
  assert (Ht1 : current_time s1 = current_time s) by (by subst s1).
  eapply wpe_mono; [apply (wp_enqueue_new_event s1 ni (clear_event n) e d); try done; by rewrite Ht1|].
  intros [] s2 (Hev2 & (p2 & q2 & k2 & E2) & Hs2). rewrite Ht1 in Hs2. split; [done|split].
  - exists p2, q2, k2. subst s2 s1. cbn. rewrite list_insert_insert_eq. by destruct n.
  - rewrite Hs2, Hs1. apply sch_put_del.
Qed.

Definition rule_drops (r : option Rule) : bool :=
  match r with Some x => is_unstable x | None => false end.

Lemma wp_rule_unstable E s o r (Q : bool -> State -> Prop) :
  rule_at s o = Some r -> Q (rule_drops r) s -> wpe E (rule_unstable o) Q s.
Proof.
  intros Hr HQ. unfold rule_unstable. apply wpe_bind. eapply wp_deref_rule_opt; [done|]. by apply wpe_ret.
Qed.

Lemma wp_diagnose_instability s c ni n pe t0 blocked pval err r :
  wf_events s -> node_pool s !! ni = Some n -> schedule s ni pe t0 ->
  rule_at s (ev_rule_ptr pe) = Some r ->
  wp (diagnose_instability c (n_event_index n) blocked pval err) (fun _ s' => wf_events s' /\
    (exists p, s' = put_event_pool p s) /\ schedule s' ≡ sch_put ni (unstable_event c pe) t0 (schedule s)) s.
Proof.
  intros Hev Hn Hs Hr. unfold diagnose_instability. apply wpe_bind.
  eapply wpe_mono; [by apply (wp_upd_pending s ni n pe t0 (unstable_event c))|].
  intros [] s1 (Hev1 & _ & (p & ->) & Hg1 & Hs1). apply wpe_bind. eapply wpe_get_event; [exact Hg1|].
  apply wpe_bind. unfold __report_instability. apply wpe_bind. eapply wp_rule_unstable; [exact Hr|].
  apply wpe_bind, wpe_gets, wpe_ret, wpe_ret. split; [done|]. split; [by exists p|done].
Qed.

Lemma schedule_node s ni n e t : schedule s ni e t -> node_pool s !! ni = Some n ->
  pending_event n = true /\ pool_get (event_pool s) (n_event_index n) = Ok e.
Proof. intros (m & Hm & Hp & Hg & _) Hn. assert (m = n) as -> by congruence. done. Qed.

(** The branches of [cancel_unstable], from the state after the diagnosis. *)
Lemma wp_cancel_unstable s c et ni n p blocked e pe t0 r d :
  wf_events s -> node_pool s !! ni = Some n -> schedule s ni pe t0 ->
  ev_node e = ni -> killed e = false -> ev_val e <> ev_val pe ->
  state_lookup_rule (ev_cause_rule pe) s = Ok (ev_rule_ptr pe, s) -> rule_at s (ev_rule_ptr pe) = Some r ->
  (ev_val e <> n_value n -> is_atomic n = false /\ is_frozen n = false /\ fixed_delay s e = Some d /\
     t_le (current_time s) (t_add (current_time s) d) = true) ->
  wp (cancel_unstable c et ni (n_event_index n) p (n_value n) blocked e (ev_val pe)) (fun _ s' =>
    wf_events s' /\ updated_nodes s' = updated_nodes s /\
    schedule s' ≡
      if dequeue_unstable_events s || rule_drops r || (blocked && dequeue_excl_unstable_events s) then
        if value_eqb (ev_val e) (n_value n) then sch_del ni (schedule s)
        else sch_put ni e (t_add (current_time s) d) (schedule s)
      else if value_eqb (n_value n) LOGIC_OTHER then sch_del ni (schedule s)
      else sch_put ni (set_weak (weak_wins_any p) (set_cause_node (cause_node c) (set_ev_val LOGIC_OTHER pe)))
             t0 (schedule s)) s.
Proof.
  intros Hev Hn Hs He Hk Hv Hl Hr Hnew. destruct (schedule_node _ _ _ _ _ Hs Hn) as [Hp Hg].
  unfold cancel_unstable. apply wpe_bind, wpe_require; [intros _|].
  2: { intros Hb. apply negb_false_iff, value_eqb_eq in Hb. done. }
  apply wpe_bind. eapply wpe_get_event; [exact Hg|]. apply wpe_bind. unfold wpe at 1. rewrite Hl.
  apply wpe_bind. eapply wp_rule_unstable; [exact Hr|]. apply wpe_bind, wpe_gets, wpe_bind, wpe_gets.
  destruct (_ || _ || _).
  - eapply wpe_mono; [by apply (wp_renew_event s ni n (n_value n) e d)|].
    intros [] s1 (Hev1 & (q & k & i & ->) & Hs1). split; [done|]. by split.
  - destruct (value_eqb (n_value n) LOGIC_OTHER).
    + apply wpe_bind. eapply wpe_mono; [by apply wp_kill_event|].
      intros [] s1 (Hev1 & (q & k & i & ->) & Hn1 & Hs1). unfold set_x_cause.
      eapply wpe_upd_node; [exact Hn1|].
      match goal with |- wf_events ?x /\ _ => set (s2 := x) end.
      set (s1 := put_node_pool _ (put_event_queue k _)) in *.
      assert (Hlk : links s2 = links s1) by (by apply links_same with (clear_event n)).
      split; [|split; [done|]].
      * by apply (EV_ext [] s1).
      * rewrite <- Hs1. by apply schedule_links.
    + eapply wpe_mono; [apply (wp_upd_pending s ni n pe t0); [done..|by rewrite killed_set_weak]|].
      intros [] s1 (Hev1 & _ & (q & ->) & _ & Hs1). split; [done|]. by split.
Qed.

Lemma wp_overtake_pending s ni n p e pe t0 d :
  wf_events s -> node_pool s !! ni = Some n -> schedule s ni pe t0 ->
  ev_node e = ni -> killed e = false ->
  (ev_val e <> n_value n -> is_atomic n = false /\ is_frozen n = false /\ fixed_delay s e = Some d /\
     t_le (current_time s) (t_add (current_time s) d) = true) ->
  wp (overtake_pending ni (n_event_index n) p (n_value n) e (ev_val pe)) (fun _ s' =>
    wf_events s' /\ updated_nodes s' = updated_nodes s /\
    schedule s' ≡
      if (pulling_dn p || pulling_up p) && negb (value_eqb (ev_val e) (ev_val pe)) &&
         value_eqb (ev_val pe) LOGIC_OTHER then
        if value_eqb (ev_val e) (n_value n) then sch_del ni (schedule s)
        else sch_put ni e (t_add (current_time s) d) (schedule s)
      else schedule s) s.
Proof.
  intros Hev Hn Hs He Hk Hnew. destruct (schedule_node _ _ _ _ _ Hs Hn) as [Hp Hg].
  unfold overtake_pending. apply wpe_bind. eapply wpe_get_event; [exact Hg|].
  destruct ((pulling_dn p || pulling_up p) && negb (value_eqb (ev_val e) (ev_val pe)) &&
    value_eqb (ev_val pe) LOGIC_OTHER) eqn:Hb; cbn [when]; [|by apply wpe_ret].
  apply wpe_bind, wpe_require; [intros _|].
  - eapply wpe_mono; [by apply (wp_renew_event s ni n (n_value n) e d)|].
    intros [] s1 (Hev1 & (q & k & i & ->) & Hs1). split; [done|]. by split.
  - intros Hx. apply negb_false_iff, value_eqb_eq in Hx. rewrite Hx in Hb.
    apply andb_true_iff in Hb as [Hb Ho]. apply andb_true_iff in Hb as [_ Hb].
    apply value_eqb_eq in Ho. by rewrite Ho in Hb.
Qed.

(** What is pending at a node before the flush; if the pull that scheduled it
    is lost, its rule can be looked up, and the pulls ask for another value. *)
Definition pending_at s (ni : nat) (n : NodeState) (pend : option (Event * real_time))
    (p : pull_set) (v : value_enum) (r : option Rule) : Prop :=
  match pend with
  | None => pending_event n = false
  | Some (pe, t0) => schedule s ni pe t0 /\
      (unsupported p (ev_val pe) = true -> v <> ev_val pe /\
         state_lookup_rule (ev_cause_rule pe) s = Ok (ev_rule_ptr pe, s) /\
         rule_at s (ev_rule_ptr pe) = Some r)
  end.
Definition drops s (blocked : bool) (r : option Rule) : bool :=
  dequeue_unstable_events s || rule_drops r || (blocked && dequeue_excl_unstable_events s).

Lemma wp_update_pending s c et ni n p blocked e err pe t0 v d r :
  wf_events s -> node_pool s !! ni = Some n -> pending_at s ni n (Some (pe, t0)) p v r ->
  ev_node e = ni -> killed e = false -> ev_val e = v ->
  (v <> n_value n -> is_atomic n = false /\ is_frozen n = false /\ fixed_delay s e = Some d /\
     t_le (current_time s) (t_add (current_time s) d) = true) ->
  wp (update_pending c et ni (n_event_index n) p (n_value n) blocked false e err) (fun _ s' =>
    wf_events s' /\ updated_nodes s' = updated_nodes s /\
    schedule s' ≡ flushed_schedule c p ni (flush_action_of (Some pe) p (n_value n) v (drops s blocked r))
      (Some (pe, t0)) e (t_add (current_time s) d) (schedule s)) s.
Proof.
  intros Hev Hn [Hs Hlost] He Hk <- Hnew. destruct (schedule_node _ _ _ _ _ Hs Hn) as [Hp Hg].
  unfold update_pending, flush_action_of. apply wpe_bind. eapply wpe_get_event; [exact Hg|]. cbv zeta.
  apply wpe_bind. cbn [when]. apply wpe_ret.
  rewrite lost_pull_unsupported. destruct (unsupported p (ev_val pe)) eqn:Hl.
  - destruct (Hlost eq_refl) as (Hv & Hlk & Hr). apply wpe_bind.
    eapply wpe_mono; [by eapply (wp_diagnose_instability s c ni n pe t0)|].
    intros err' s1 (Hev1 & (q & ->) & Hs1). apply wpe_bind.
    set (s1 := put_event_pool q s) in *.
    assert (Hsx : schedule s1 ni (unstable_event c pe) t0) by (apply Hs1; by left).
    eapply wpe_mono.
    { apply (wp_cancel_unstable s1 c et ni n p blocked e (unstable_event c pe) t0 r d); try done.
      by apply state_lookup_rule_pool. }
    intros [] s2 (Hev2 & Hu & Hs2). apply wpe_ret. split; [done|]. split; [done|]. revert Hs2.
    change (dequeue_unstable_events s1 || rule_drops r || (blocked && dequeue_excl_unstable_events s1))
      with (drops s blocked r). intros Hs2. rewrite Hs2.
    destruct (drops s blocked r); [destruct (value_eqb (ev_val e) (n_value n))|
      destruct (value_eqb (n_value n) LOGIC_OTHER)]; cbn; rewrite Hs1;
      first [apply sch_del_put|apply sch_put_put].
  - apply wpe_bind, wpe_ret, wpe_bind.
    eapply wpe_mono; [by apply (wp_overtake_pending s ni n p e pe t0 d)|].
    intros [] s1 (Hev1 & Hu & Hs1). apply wpe_ret. split; [done|]. split; [done|]. rewrite Hs1.
    by destruct (_ && _ && _); [destruct (value_eqb (ev_val e) (n_value n))|].
Qed.

Lemma wp_flush_updated_node s c et err0 ni n f p v pend d r :
  wf_events s -> node_pool s !! ni = Some n -> m_find ni (updated_nodes s) = Some f ->
  p = blocked_pull_set (pull_set_of n (weak_rules_enabled s)) (excl_blocked f) (cause_val c) ->
  have_interference (make_interference_info p) = false -> next_value p (n_value n) = Some v ->
  pending_at s ni n pend p v r ->
  (v <> n_value n -> is_atomic n = false /\ is_frozen n = false /\
     fixed_delay s (flushed_event c f ni p v) = Some d /\
     t_le (current_time s) (t_add (current_time s) d) = true) ->
  wp (flush_updated_node c et err0 ni) (fun _ s' => wf_events s' /\
    updated_nodes s' = m_erase ni (updated_nodes s) /\
    schedule s' ≡ flushed_schedule c p ni
      (flush_action_of (fst <$> pend) p (n_value n) v (drops s (excl_blocked f) r))
      pend (flushed_event c f ni p v) (t_add (current_time s) d) (schedule s)) s.
Proof.
  intros Hev Hn Hf Hpe Hni Hv Hpend Hnew. unfold flush_updated_node.
  apply wpe_bind. eapply wpe_get_node; [done|]. apply wpe_bind, wpe_gets, wpe_bind, wpe_of_option; [|congruence].
  intros f' Ef. assert (f' = f) as -> by congruence. apply wpe_bind, wpe_gets. cbv zeta. rewrite <- Hpe.
  apply wpe_bind. unfold new_event. rewrite Hni. apply wpe_bind, wpe_of_option; [|by rewrite Hv].
  intros v' Ev. assert (v' = v) as -> by congruence. apply wpe_ret. fold (flushed_event c f ni p v).
  assert (Hend : forall (e0 : error_policy_enum) (s1 : State), wf_events s1 /\ updated_nodes s1 = updated_nodes s /\
      schedule s1 ≡ flushed_schedule c p ni
        (flush_action_of (fst <$> pend) p (n_value n) v (drops s (excl_blocked f) r))
        pend (flushed_event c f ni p v) (t_add (current_time s) d) (schedule s) ->
      wp (modify (fun s0 => put_updated_nodes (m_erase ni (updated_nodes s0)) s0) ;;; ret e0)
        (fun _ s' => wf_events s' /\ updated_nodes s' = m_erase ni (updated_nodes s) /\
          schedule s' ≡ flushed_schedule c p ni
            (flush_action_of (fst <$> pend) p (n_value n) v (drops s (excl_blocked f) r))
            pend (flushed_event c f ni p v) (t_add (current_time s) d) (schedule s)) s1).
  { intros e0 s1 (Hev1 & Hu1 & Hs1). apply wpe_bind, wpe_modify, wpe_ret. split; [exact Hev1|].
    split; [cbn; by rewrite Hu1|]. rewrite <- Hs1. by apply schedule_ext. }
  apply wpe_bind. destruct pend as [[pe t0]|].
  - destruct (schedule_node _ _ _ _ _ (proj1 Hpend) Hn) as [Hp _]. rewrite Hp.
    eapply wpe_mono; [apply (wp_update_pending s c et ni n p (excl_blocked f)
      (flushed_event c f ni p v) err0 pe t0 v d r); try done; apply killed_flushed|].
    intros err' s1 Hs1. by apply Hend.
  - cbn in Hpend. rewrite Hpend. apply wpe_bind.
    assert (Hvv : ev_val (flushed_event c f ni p v) = v) by done. rewrite Hvv.
    cbn [fmap option_fmap option_map] in *. unfold flush_action_of in Hend |- *.
    destruct (value_eqb v (n_value n)) eqn:Hb; cbn [negb when].
    + apply wpe_ret, wpe_ret. by apply Hend.
    + destruct Hnew as (Hna & Hnf & Hd & Ht).
      { intros Heq. apply value_eqb_eq in Heq. congruence. }
      eapply wpe_mono; [apply (wp_enqueue_new_event s ni n _ d); try done; apply killed_flushed|].
      intros [] s1 (Hev1 & (q & k & i & ->) & Hs1). apply wpe_ret. by apply Hend.
Qed.
End Flush.

(** ** Properties *)

(** C1: flushing an updated node without interference terminates without a
    fault and changes the schedule at that node only, as [flush_action_of]
    tells.  With [v] the value that its pulls ask for: an idle node gets one
    event with [v] after the rule's delay, or none if that is its value
    already; a pending event whose pull is still on stays as it is; one whose
    pull is lost is dropped, and replaced by an event with [v] unless that is
    vacuous, or else becomes X (or is dropped if the node is X), by the
    policy for unstable events, the rule's attribute and the exclusive ring;
    and a pending X is overtaken by a definite value. *)
Theorem flush_updated_node_correct {C} {env : Env} (s : State C) c et err0 ni n f p v pend d r :
  wf_events s -> node_pool s !! ni = Some n -> m_find ni (updated_nodes s) = Some f ->
  p = blocked_pull_set (pull_set_of n (weak_rules_enabled s)) (excl_blocked f) (cause_val c) ->
  have_interference (make_interference_info p) = false -> next_value p (n_value n) = Some v ->
  pending_at s ni n pend p v r ->
  (v <> n_value n -> is_atomic n = false /\ is_frozen n = false /\
     fixed_delay s (flushed_event c f ni p v) = Some d /\
     t_le (current_time s) (t_add (current_time s) d) = true) ->
  exists err s', flush_updated_node c et err0 ni s = Ok (err, s') /\ wf_events s' /\
    updated_nodes s' = m_erase ni (updated_nodes s) /\
    schedule s' ≡ flushed_schedule c p ni
      (flush_action_of (fst <$> pend) p (n_value n) v (drops s (excl_blocked f) r))
      pend (flushed_event c f ni p v) (t_add (current_time s) d) (schedule s).
Proof.
  intros H1 H2 H3 H4 H5 H6 H7 H8.
  pose proof (wp_flush_updated_node s c et err0 ni n f p v pend d r H1 H2 H3 H4 H5 H6 H7 H8) as Hw.
  by apply wp_total in Hw.
Qed.

(** The inverter's input has gone high, its output is updated. *)
Section Example.
Definition fl_cause : cause_type := mkCause (mkEventCause 3 LOGIC_HIGH) 0.
Definition fl_s : State unit := ex_run
  (upd_node 3 (set_n_value LOGIC_HIGH) ;;;
   evaluate_fanouts (fun _ _ _ => fail F_fuel) fl_cause [1; 2]%nat LOGIC_OTHER) inv_s1.
Definition fl_n : NodeState :=
  match node_pool fl_s !! 4%nat with Some n => n | None => NodeState_empty end.
Definition fl_f : node_update_info :=
  match m_find 4%nat (updated_nodes fl_s) with Some f => f | None => node_update_info_empty end.
Definition fl_p : pull_set := mk_pull_set PULL_OFF PULL_ON PULL_OFF PULL_OFF.

Lemma fl_wf : wf_events fl_s.
Proof.
  destruct inv_s1_ok as [Hev _ _].
  apply (EV_ext [] inv_s1); [vm_compute; reflexivity..|exact Hev].
Qed.

Lemma flush_updated_node_correct_witness :
  exists err s', flush_updated_node fl_cause real_zero ERROR_NONE 4 fl_s = Ok (err, s') /\
    updated_nodes s' = [] /\
    schedule s' ≡ sch_put 4 (flushed_event fl_cause fl_f 4 fl_p LOGIC_LOW) real_default_delay (schedule fl_s).
Proof.
  destruct (flush_updated_node_correct fl_s fl_cause real_zero ERROR_NONE 4 fl_n fl_f fl_p LOGIC_LOW None
    real_default_delay None fl_wf) as (err & s' & E & _ & Hu & Hs);
    [vm_compute; reflexivity..| |].
  - intros _. split_and!; vm_compute; reflexivity.
  - exists err, s'. split; [exact E|]. split; [exact Hu|exact Hs].
Defined.
End Example.
