(* ===== verification/ExclProps.v ===== *)
(** Correctness of exclusive rings: the locks of the checked rings tell
    whether a member is active, a violation is reported exactly when two
    members of a ring become active, and the counters of the forced rings
    count their active members. *)
From S2P Require Import Prelude SimTime PullSet Expr EventQueue ArrayPool OrdMap Node ProcGraph.
From S2P Require Import State Events Excl.
From S2P Require Import EventInv ScheduleProps StepProps.
Open Scope Z_scope.
Local Open Scope hackt_scope.
#[local] Abbreviation length := Datatypes.length.

(** The parts of the state that a direction uses do not overlap. *)
Class RingLaws {C} (R : excl_rings (C:=C)) : Prop := {
  rl_locks l s : er_locks R (er_put_locks R l s) = l;
  rl_locks_same s : er_put_locks R (er_locks R s) s = s;
  rl_locks_twice l l' s : er_put_locks R l (er_put_locks R l' s) = er_put_locks R l s;
  rl_locks_check_map l s : er_check_map R (er_put_locks R l s) = er_check_map R s;
  rl_locks_nodes l s : node_pool (er_put_locks R l s) = node_pool s;
  rl_checked n : er_checked R (er_check R n) = true;
  rl_checks m s : er_check_map R (er_put_check_map R m s) = m /\
    er_locks R (er_put_check_map R m s) = er_locks R s /\
    node_pool (er_put_check_map R m s) = node_pool s;
  rl_nodes l s : er_check_map R (put_node_pool l s) = er_check_map R s /\
    er_locks R (put_node_pool l s) = er_locks R s /\
    er_map R (put_node_pool l s) = er_map R s /\ er_rings R (put_node_pool l s) = er_rings R s;
  rl_maps m s : er_map R (er_put_map R m s) = m /\
    er_rings R (er_put_map R m s) = er_rings R s /\ node_pool (er_put_map R m s) = node_pool s;
  rl_rings l s : er_rings R (er_put_rings R l s) = l;
  rl_rings_same s : er_put_rings R (er_rings R s) s = s;
  rl_rings_twice l l' s : er_put_rings R l (er_put_rings R l' s) = er_put_rings R l s;
  rl_rings_frame l s : __mk_excl_blocking_set (er_put_rings R l s) = __mk_excl_blocking_set s /\
    updated_nodes (er_put_rings R l s) = updated_nodes s /\
    updated_nodes_queue (er_put_rings R l s) = updated_nodes_queue s /\
    node_pool (er_put_rings R l s) = node_pool s;
  rl_blocking b s : er_rings R (put___mk_excl_blocking_set b s) = er_rings R s /\
    er_map R (put___mk_excl_blocking_set b s) = er_map R s;
  rl_updated u s : er_rings R (put_updated_nodes u s) = er_rings R s /\
    er_map R (put_updated_nodes u s) = er_map R s;
  rl_queue q s : er_rings R (put_updated_nodes_queue q s) = er_rings R s /\
    er_map R (put_updated_nodes_queue q s) = er_map R s;
  rl_rings_map l s : er_map R (er_put_rings R l s) = er_map R s
}.
#[export] Instance RingLaws_hi {C} : RingLaws (C:=C) excl_hi.
Proof. split; intros; first [apply (has_flag_put_same true _ 3); lia|by try destruct s]. Qed.
#[export] Instance RingLaws_lo {C} : RingLaws (C:=C) excl_lo.
Proof. split; intros; first [apply (has_flag_put_same true _ 4); lia|by try destruct s]. Qed.

(** The values of the nodes once [ni] has changed. *)
Definition set_val (ni : nat) (v : value_enum) (val : nat -> value_enum) : nat -> value_enum :=
  fun x => if Nat.eqb x ni then v else val x.

Lemma set_val_same ni v val : set_val ni v val ni = v.
Proof. unfold set_val. by rewrite Nat.eqb_refl. Qed.
Lemma set_val_other ni v val x : x <> ni -> set_val ni v val x = val x.
Proof. intros Hx. unfold set_val. by rewrite (proj2 (Nat.eqb_neq x ni) Hx). Qed.

(** [locks] with those of [l] set to [b]. *)
Definition set_locks (b : bool) (l : list nat) (locks : list bool) : list bool :=
  foldl (fun k li => <[li := b]> k) locks l.

Lemma length_set_locks b l locks : length (set_locks b l locks) = length locks.
Proof.
  revert locks. induction l as [|i l IH]; intros locks; cbn; [done|].
  unfold set_locks in IH. by rewrite IH, length_insert.
Qed.
Lemma lookup_set_locks b l locks i k : locks !! i = Some k ->
  set_locks b l locks !! i = Some (if decide (i ∈ l) then b else k).
Proof.
  revert locks k. induction l as [|j l IH]; intros locks k Hk; cbn.
  - rewrite decide_False; [done|]. apply not_elem_of_nil.
  - change (set_locks b l (<[j:=b]> locks) !! i = Some (if decide (i ∈ j :: l) then b else k)).
    destruct (decide (i = j)) as [->|Hne].
    + rewrite (IH _ b) by (apply list_lookup_insert_eq; by eapply lookup_lt_Some).
      rewrite (decide_True (P := j ∈ j :: l)) by (by apply list_elem_of_here). by destruct (decide (j ∈ l)).
    + rewrite (IH _ k) by (by rewrite list_lookup_insert_ne).
      destruct (decide (i ∈ l)) as [Hi|Hi].
      * rewrite decide_True; [done|]. apply elem_of_cons. by right.
      * rewrite decide_False; [done|]. rewrite elem_of_cons. tauto.
Qed.

(** ** Checked rings *)
Section Check.
Context {C : Type} (R : excl_rings (C:=C)) `{!RingLaws R}.
#[local] Abbreviation State := (State C).
#[local] Abbreviation SM := (M State).
Implicit Types (s : State) (val : nat -> value_enum).

Definition in_ring s (ni li : nat) : Prop := exists l, m_find ni (er_check_map R s) = Some l /\ li ∈ l.

(** A lock is taken while a member of its ring is active, and no two members
    of a ring are. *)
Record check_ok val s : Prop := {
  ck_nodup ni l : m_find ni (er_check_map R s) = Some l -> NoDup l;
  ck_index ni li : in_ring s ni li -> li <> 0%nat /\ (li < length (er_locks R s))%nat;
  ck_flag ni n : node_pool s !! ni = Some n ->
    er_checked R n = true <-> is_Some (m_find ni (er_check_map R s));
  ck_lock li : (exists nj, in_ring s nj li) ->
    er_locks R s !! li = Some true <-> exists ni, in_ring s ni li /\ val ni = er_active R;
  ck_excl li ni nj : in_ring s ni li -> in_ring s nj li ->
    val ni = er_active R -> val nj = er_active R -> ni = nj
}.

Lemma wp_lock_rings s l : NoDup l ->
  (forall li, li ∈ l -> li <> 0%nat /\ (li < length (er_locks R s))%nat) ->
  wp (lock_rings R l) (fun r s' => exists pre post,
    s' = er_put_locks R (set_locks true pre (er_locks R s)) s /\
    l = pre ++ post /\ (forall li, li ∈ pre -> er_locks R s !! li = Some false) /\
    match r with
    | None => post = []
    | Some li => er_locks R s !! li = Some true /\ exists post', post = li :: post'
    end) s.
Proof.
  intros Hnd. revert s. induction Hnd as [|li l Hli Hnd IH]; intros s Hidx; cbn [lock_rings].
  { apply wpe_ret. exists [], []. cbn [set_locks foldl app]. split_and!; [by rewrite rl_locks_same|done| |done].
    intros x Hx. by apply elem_of_nil in Hx. }
  destruct (Hidx li) as [Hz Hlt]; [by apply list_elem_of_here|].
  apply wpe_bind, wpe_require; [intros _|by destruct li].
  apply wpe_bind, wpe_gets, wpe_bind, wpe_of_option.
  2: { intros En. apply lookup_ge_None in En. lia. }
  intros [] Ek.
  { apply wpe_ret. exists [], (li :: l). cbn [set_locks foldl app]. split_and!; [by rewrite rl_locks_same|done| |done|by exists l].
    intros x Hx. by apply elem_of_nil in Hx. }
  apply wpe_bind, wpe_modify. eapply wpe_mono; [apply IH|].
  { intros x Hx. rewrite rl_locks, length_insert. apply Hidx, elem_of_cons. by right. }
  intros r s' (pre & post & -> & -> & Hpre & Hr). rewrite rl_locks_twice, rl_locks in *.
  exists (li :: pre), post. split_and!; [done|done| |].
  - intros x Hx. apply elem_of_cons in Hx as [->|Hx]; [done|]. rewrite <- (Hpre x Hx).
    rewrite list_lookup_insert_ne; [done|]. intros ->. apply Hli, elem_of_app. by left.
  - destruct r as [lj|]; [|done]. destruct Hr as [Hlj (post' & ->)]. split; [|by exists post'].
    rewrite <- Hlj, list_lookup_insert_ne; [done|]. intros ->.
    apply Hli, elem_of_app. right. by apply list_elem_of_here.
Qed.

Lemma wp_unlock_rings s l :
  (forall li, li ∈ l -> li <> 0%nat /\ (li < length (er_locks R s))%nat) ->
  wp (unlock_rings R l) (fun _ s' => s' = er_put_locks R (set_locks false l (er_locks R s)) s) s.
Proof.
  revert s. induction l as [|li l IH]; intros s Hidx; unfold unlock_rings; cbn [for_each].
  { apply wpe_ret. cbn [set_locks foldl]. by rewrite rl_locks_same. }
  destruct (Hidx li) as [Hz Hlt]; [by apply list_elem_of_here|].
  apply wpe_bind, wpe_bind, wpe_require; [intros _|by destruct li].
  apply wpe_bind, wpe_gets, wpe_bind, wpe_of_option.
  2: { intros En. apply lookup_ge_None in En. lia. }
  intros k Ek. apply wpe_modify. eapply wpe_mono; [apply IH|].
  { intros x Hx. rewrite rl_locks, length_insert. apply Hidx, elem_of_cons. by right. }
  intros [] s' ->. by rewrite rl_locks_twice, rl_locks.
Qed.

Lemma in_ring_locks ls s ni li : in_ring (er_put_locks R ls s) ni li <-> in_ring s ni li.
Proof. unfold in_ring. by rewrite rl_locks_check_map. Qed.

(** The locks after a change: those of the rings of [ni] are [k], the others
    stay. *)
Lemma check_ok_set val s ni l k next :
  check_ok val s -> m_find ni (er_check_map R s) = Some l ->
  k = value_eqb next (er_active R) ->
  (forall li nj, li ∈ l -> in_ring s nj li -> nj <> ni -> val nj <> er_active R) ->
  check_ok (set_val ni next val) (er_put_locks R (set_locks k l (er_locks R s)) s).
Proof.
  intros [H1 H2 H3 H4 H5] Hl Hk Hout.
  assert (Hact : forall nj, set_val ni next val nj = er_active R <->
    (nj = ni /\ next = er_active R) \/ (nj <> ni /\ val nj = er_active R)).
  { intros nj. destruct (decide (nj = ni)) as [->|Hne]; [rewrite set_val_same|rewrite set_val_other by done]; tauto. }
  assert (Hni : forall li, in_ring s ni li <-> li ∈ l).
  { intros li. split; [|by exists l]. intros (l' & E & Hin). congruence. }
  split.
  - intros nj l'. rewrite rl_locks_check_map. apply H1.
  - intros nj li. rewrite in_ring_locks, rl_locks, length_set_locks. apply H2.
  - intros nj n. rewrite rl_locks_nodes, rl_locks_check_map. apply H3.
  - intros li [nj Hnj]. rewrite in_ring_locks in Hnj. rewrite rl_locks.
    destruct (lookup_lt_is_Some_2 (er_locks R s) li) as [b Hb]; [by apply (H2 nj)|].
    rewrite (lookup_set_locks _ _ _ _ _ Hb).
    assert (H4' : b = true <-> exists ni, in_ring s ni li /\ val ni = er_active R).
    { rewrite <- H4 by (by exists nj). rewrite Hb. split; congruence. }
    setoid_rewrite in_ring_locks. setoid_rewrite Hact. destruct (decide (li ∈ l)) as [Hin|Hin].
    + split.
      * intros [= ->]. exists ni. split; [by apply Hni|]. left. split; [done|]. by apply value_eqb_eq.
      * intros (nk & Hnk & [[-> ->]|[Hne Hv]]); [by rewrite (proj2 (value_eqb_eq _ _) eq_refl) in Hk; subst|].
        by destruct (Hout li nk Hin Hnk Hne).
    + transitivity (b = true); [split; congruence|]. rewrite H4'. split.
      * intros (nk & Hnk & Hv). exists nk. split; [done|]. right. split; [|done].
        intros ->. by apply Hin, Hni.
      * intros (nk & Hnk & [[-> _]|[_ Hv]]); [by destruct Hin; apply Hni|by exists nk].
  - intros li n1 n2. rewrite !in_ring_locks, !Hact. intros Hr1 Hr2 [[-> Ha]|[Hn1 Hv1]] [[-> Hb]|[Hn2 Hv2]]; [done|..].
    + destruct (Hout li n2); [by apply Hni|done..].
    + destruct (Hout li n1); [by apply Hni|done..].
    + by apply (H5 li).
Qed.

Lemma check_ok_same val s ni next :
  check_ok val s -> (forall li, in_ring s ni li -> val ni <> er_active R /\ next <> er_active R) ->
  check_ok (set_val ni next val) s.
Proof.
  intros [H1 H2 H3 H4 H5] Hni.
  assert (Hact : forall nj li, in_ring s nj li ->
    set_val ni next val nj = er_active R <-> val nj = er_active R).
  { intros nj li Hr. destruct (decide (nj = ni)) as [->|Hne]; [rewrite set_val_same|by rewrite set_val_other].
    destruct (Hni li Hr). tauto. }
  split; [done|done|done| |].
  - intros li Hex. rewrite H4 by done. split; intros (nj & Hr & Hv); exists nj; (split; [done|]);
      by apply (Hact nj li).
  - intros li n1 n2 Hr1 Hr2 Hv1 Hv2.
    apply (H5 li); [done|done|by apply (Hact n1 li)|by apply (Hact n2 li)].
Qed.

(** What a check answers. *)
Definition violates val s ni li (ls : list bool) : Prop :=
  (exists nj, nj <> ni /\ in_ring s nj li /\ val nj = er_active R) /\
  exists pre post, m_find ni (er_check_map R s) = Some (pre ++ li :: post) /\
    ls = set_locks true pre (er_locks R s).

Lemma wp_check_excl_dir s val ni n prev next :
  check_ok val s -> node_pool s !! ni = Some n -> val ni = prev -> prev <> next ->
  wp (check_excl_dir R ni n prev next) (fun r s' => exists ls, s' = er_put_locks R ls s /\
    match r with
    | None => check_ok (set_val ni next val) s'
    | Some li => next = er_active R /\ violates val s ni li ls
    end) s.
Proof.
  intros Hok Hn Hprev Hne. unfold check_excl_dir.
  assert (Hsame : (forall li, in_ring s ni li -> val ni <> er_active R /\ next <> er_active R) ->
    exists ls, s = er_put_locks R ls s /\ check_ok (set_val ni next val) s).
  { intros Hni. exists (er_locks R s). rewrite rl_locks_same. split; [done|]. by apply check_ok_same. }
  destruct (er_checked R n) eqn:Hc.
  2: { apply wpe_ret, Hsame. intros li (l & Hl & _). exfalso.
       assert (er_checked R n = true) by (by apply (ck_flag _ _ Hok ni n Hn)). congruence. }
  destruct (proj1 (ck_flag _ _ Hok ni n Hn) Hc) as [l Hl].
  assert (Hidx : forall li, li ∈ l -> li <> 0%nat /\ (li < length (er_locks R s))%nat).
  { intros li Hin. apply (ck_index _ _ Hok ni). by exists l. }
  destruct (value_eqb next (er_active R)) eqn:Hact.
  - apply value_eqb_eq in Hact as Hnext. apply wpe_bind, wpe_gets, wpe_bind, wpe_of_option; [|congruence].
    intros l' El. assert (l' = l) as -> by congruence.
    eapply wpe_mono; [apply wp_lock_rings; [by apply (ck_nodup _ _ Hok ni)|done]|].
    intros r s' (pre & post & -> & -> & Hpre & Hr). eexists. split; [done|]. destruct r as [li|].
    + destruct Hr as [Hli (post' & ->)]. split; [done|]. split; [|by exists pre, post'].
      assert (Hin : in_ring s ni li).
      { eexists. split; [exact Hl|]. apply elem_of_app. right. by apply list_elem_of_here. }
      destruct (proj1 (ck_lock _ _ Hok li (ex_intro _ ni Hin)) Hli) as (nj & Hnj & Hv).
      exists nj. split; [|done]. congruence.
    + subst post. rewrite app_nil_r in *. apply check_ok_set; [done|done|done|].
      intros li nj Hin Hnj _ Hv. pose proof (Hpre li Hin) as Hf.
      assert (er_locks R s !! li = Some true); [|congruence].
      apply (ck_lock _ _ Hok); by exists nj.
  - destruct (value_eqb prev (er_active R) && negb (value_eqb next prev)) eqn:Hb.
    + apply andb_true_iff in Hb as [Hb _]. apply value_eqb_eq in Hb.
      apply wpe_bind, wpe_gets, wpe_bind, wpe_of_option; [|congruence].
      intros l' El. assert (l' = l) as -> by congruence.
      apply wpe_bind. eapply wpe_mono; [by apply wp_unlock_rings|]. intros [] s' ->. apply wpe_ret.
      eexists. split; [done|]. apply check_ok_set; [done|done|done|].
      intros li nj Hin Hnj Hne' Hv. apply Hne', (ck_excl _ _ Hok li); [done|by exists l|done|congruence].
    + apply wpe_ret, Hsame. intros li _. rewrite Hprev. split; intros Heq.
      * rewrite Heq, (proj2 (value_eqb_eq _ _) eq_refl) in Hb. cbn in Hb.
        apply negb_false_iff, value_eqb_eq in Hb. congruence.
      * rewrite Heq, (proj2 (value_eqb_eq _ _) eq_refl) in Hact. done.
Qed.

(** *** Building a checked ring *)
Lemma m_find_push_back k x j m : m_find x (map_push_back k j m) =
  if key_eqb x k then Some (match m_find k m with Some l => l | None => [] end ++ [j]) else m_find x m.
Proof. apply m_find_set. Qed.

(** One more member, which is inactive, of a ring that is not locked. *)
Lemma check_ok_push val s ni n j : check_ok val s -> node_pool s !! ni = Some n ->
  ~ in_ring s ni j -> er_locks R s !! j = Some false -> j <> 0%nat -> val ni <> er_active R ->
  let s1 := put_node_pool (<[ni := er_check R n]> (node_pool s)) s in
  check_ok val (er_put_check_map R (map_push_back ni j (er_check_map R s1)) s1).
Proof.
  intros [H1 H2 H3 H4 H5] Hn Hr Hj Hz Hv s1.
  set (s2 := er_put_check_map R (map_push_back ni j (er_check_map R s1)) s1).
  destruct (rl_nodes (<[ni := er_check R n]> (node_pool s)) s) as (Em1 & El1 & _).
  destruct (rl_checks (map_push_back ni j (er_check_map R s1)) s1) as (Em2 & El2 & En2).
  assert (Em : er_check_map R s2 = map_push_back ni j (er_check_map R s)) by (by rewrite <- Em1).
  assert (El : er_locks R s2 = er_locks R s) by (by rewrite <- El1).
  assert (En : node_pool s2 = <[ni := er_check R n]> (node_pool s)) by done. clearbody s2. clear s1 Em1 El1 Em2 El2 En2.
  assert (Hin : forall nj li, in_ring s2 nj li <-> in_ring s nj li \/ (nj = ni /\ li = j)).
  { intros nj li. unfold in_ring. rewrite Em, m_find_push_back. destruct (key_eqb nj ni) eqn:Ek.
    - apply key_eqb_eq in Ek as ->. split.
      + intros (l & [= <-] & Hl). rewrite elem_of_app, list_elem_of_singleton in Hl.
        destruct Hl as [Hl| ->]; [left|by right]. destruct (m_find ni _); [by eexists|by apply elem_of_nil in Hl].
      + intros [(l & -> & Hl)|[_ ->]]; eexists; (split; [done|]); rewrite elem_of_app, list_elem_of_singleton; auto.
    - split; [by left|]. intros [?|[-> _]]; [done|]. by rewrite key_eqb_refl in Ek. }
  split.
  - intros nj l. rewrite Em, m_find_push_back. destruct (key_eqb nj ni) eqn:Ek; [|apply H1].
    intros [= <-]. apply NoDup_app. split_and!; [|intros x Hx Hx'|apply NoDup_singleton].
    + destruct (m_find ni _) eqn:E; [by apply (H1 ni)|constructor].
    + apply list_elem_of_singleton in Hx' as ->. apply Hr.
      destruct (m_find ni _) eqn:E; [by eexists|by apply elem_of_nil in Hx].
  - intros nj li. rewrite Hin, El. intros [?|[-> ->]]; [by apply (H2 nj)|].
    split; [done|]. by eapply lookup_lt_Some.
  - intros nj m. rewrite En, Em, m_find_push_back. destruct (key_eqb nj ni) eqn:Ek.
    + apply key_eqb_eq in Ek as ->. rewrite list_lookup_insert_eq by (by eapply lookup_lt_Some).
      intros [= <-]. rewrite rl_checked. split; [by eexists|done].
    + rewrite list_lookup_insert_ne; [apply H3|]. intros ->. by rewrite key_eqb_refl in Ek.
  - intros li [nj Hnj]. rewrite El. setoid_rewrite Hin.
    assert (Hno : (exists nk, in_ring s nk li) -> (exists nk, (in_ring s nk li \/ nk = ni /\ li = j) /\ val nk = er_active R) <->
      exists nk, in_ring s nk li /\ val nk = er_active R).
    { intros _. split; intros (nk & Hk & Ha); exists nk; [|tauto]. by destruct Hk as [?|[-> _]]. }
    apply Hin in Hnj as [Hnj|[-> ->]]; [rewrite Hno, H4 by (by exists nj); done|].
    rewrite Hj. split; [done|]. intros (nk & [Hk|[-> _]] & Ha); [|done]. rewrite <- Hj.
    apply H4; by exists nk.
  - intros li n1 n2. rewrite !Hin. intros [Hr1|[-> ->]] [Hr2|[-> E2]]; try done. by apply (H5 li).
Qed.

Lemma wp_append_check_ring s val r :
  check_ok val s -> er_locks R s <> [] -> NoDup r ->
  (forall ni, ni ∈ r -> (ni < length (node_pool s))%nat /\ val ni <> er_active R) ->
  wp (append_check_ring R r) (fun _ s' => check_ok val s' /\
    (forall ni, ni ∈ r -> in_ring s' ni (length (er_locks R s)))) s.
Proof.
  intros Hok Hne Hnd Hr. unfold append_check_ring. apply wpe_bind, wpe_gets, wpe_bind, wpe_modify.
  set (j := length (er_locks R s)). set (s1 := er_put_locks R (er_locks R s ++ [false]) s).
  assert (Hj : j <> 0%nat) by (unfold j; by destruct (er_locks R s)).
  assert (Hfresh : forall ni, ~ in_ring s ni j).
  { intros ni Hin. destruct (ck_index _ _ Hok ni j Hin) as [_ Hlt]. unfold j in Hlt. lia. }
  assert (Hok1 : check_ok val s1 /\ er_locks R s1 !! j = Some false).
  { unfold s1. rewrite rl_locks. split.
    - destruct Hok as [H1 H2 H3 H4 H5]. split.
      + intros ni l. rewrite rl_locks_check_map. apply H1.
      + intros ni li. rewrite in_ring_locks, rl_locks, length_app. intros Hin. destruct (H2 _ _ Hin).
        cbn. lia.
      + intros ni n. rewrite rl_locks_nodes, rl_locks_check_map. apply H3.
      + intros li [nj Hnj]. setoid_rewrite in_ring_locks. rewrite in_ring_locks in Hnj.
        rewrite rl_locks, lookup_app_l by (by apply (H2 nj)). apply H4. by exists nj.
      + intros li n1 n2. rewrite !in_ring_locks. apply H5.
    - by rewrite lookup_app_r, Nat.sub_diag. }
  assert (Hfr : forall ni, ni ∈ r -> ~ in_ring s1 ni j) by (intros ni _; unfold s1; rewrite in_ring_locks; apply Hfresh).
  assert (Hlen : length (node_pool s1) = length (node_pool s)) by (unfold s1; by rewrite rl_locks_nodes).
  clearbody s1. clear Hok Hfresh.
  pose (I := fun (l : list nat) (t : State) => check_ok val t /\ er_locks R t !! j = Some false /\
    length (node_pool t) = length (node_pool s) /\ NoDup l /\
    (forall ni, ni ∈ r -> ni ∈ l -> ~ in_ring t ni j) /\ (forall ni, ni ∈ r -> ni ∈ l \/ in_ring t ni j) /\ l ⊆ r).
  eapply wpe_mono; [apply (wpe_for_each _ I)|].
  - destruct Hok1 as [Ha Hb]. by split_and!; auto.
  - intros ni l' t (Hok & Hlk & Hl & Hn' & Hf & Hd & Hsub).
    assert (Hni : ni ∈ r) by (apply Hsub, list_elem_of_here).
    destruct (Hr ni Hni) as [Hlt Hv]. rewrite <- Hl in Hlt.
    destruct (lookup_lt_is_Some_2 _ _ Hlt) as [n Hn].
    apply wpe_bind. eapply wpe_upd_node; [exact Hn|]. apply wpe_modify.
    pose proof (check_ok_push val t ni n j Hok Hn (Hf ni Hni ltac:(by apply list_elem_of_here)) Hlk Hj Hv) as Hok2.
    cbv zeta in Hok2. set (t1 := put_node_pool _ t) in *. set (t2 := er_put_check_map _ _ _) in *.
    apply NoDup_cons in Hn' as [Hx Hn'].
    destruct (rl_nodes (<[ni := er_check R n]> (node_pool t)) t) as (Em1 & El1 & _).
    destruct (rl_checks (map_push_back ni j (er_check_map R t1)) t1) as (Em2 & El2 & En2).
    assert (Hin : forall nj, nj <> ni -> in_ring t2 nj j <-> in_ring t nj j).
    { intros nj Hne'. unfold in_ring, t2. rewrite Em2, m_find_push_back, key_eqb_neq by done.
      unfold t1. by rewrite Em1. }
    split_and!; [done| | |done|..].
    + unfold t2. rewrite El2. unfold t1. by rewrite El1.
    + unfold t2. rewrite En2. cbn. by rewrite length_insert.
    + intros nj Hnj Hin'. rewrite Hin by (by intros ->). apply Hf; [done|]. apply elem_of_cons. by right.
    + intros nj Hnj. destruct (decide (nj = ni)) as [->|Hne'].
      * right. unfold in_ring, t2. rewrite Em2, m_find_push_back, key_eqb_refl. eexists. split; [done|].
        apply elem_of_app. right. by apply list_elem_of_singleton.
      * rewrite Hin by done. destruct (Hd nj Hnj) as [Hc|?]; [|by right]. left.
        by apply elem_of_cons in Hc as [?|?].
    + intros x Hx'. apply Hsub, elem_of_cons. by right.
  - intros [] t (Hok & _ & _ & _ & _ & Hd & _). split; [done|]. intros ni Hni.
    destruct (Hd ni Hni) as [Hc|?]; [by apply elem_of_nil in Hc|done].
Qed.
End Check.

(** ** Forced rings *)
Section Enforce.
Context {C : Type} (R : excl_rings (C:=C)) `{!RingLaws R}.
#[local] Abbreviation State := (State C).
#[local] Abbreviation SM := (M State).
Implicit Types (s : State) (val : nat -> value_enum).

Definition active val (ni : nat) : bool := value_eqb (val ni) (er_active R).

(** Each counter counts the active members of its ring; rings are small
    enough for the counter's type. *)
Record force_ok val s : Prop := {
  fo_ring j r : er_rings R s !! j = Some r ->
    NoDup (elems r) /\ (length (elems r) <= 127)%nat /\ count r = count_if (active val) (elems r);
  fo_map ni l : m_find ni (er_map R s) = Some l -> NoDup l;
  fo_member ni l j : m_find ni (er_map R s) = Some l -> j ∈ l ->
    exists r, er_rings R s !! j = Some r /\ ni ∈ elems r;
  fo_entry ni j r : er_rings R s !! j = Some r -> ni ∈ elems r ->
    exists l, m_find ni (er_map R s) = Some l /\ j ∈ l
}.

(** The nodes that wait for re-evaluation are queued once each. *)
Definition queue_ok s : Prop :=
  NoDup (updated_nodes_queue s) /\
  forall m, m ∈ updated_nodes_queue s <-> is_Some (m_find m (updated_nodes s)).

(** [s'] is [s] with more nodes blocked and more nodes to be re-evaluated. *)
Record grown s s' (B U : nat -> Prop) : Prop := {
  gr_nodes : node_pool s' = node_pool s;
  gr_map : er_map R s' = er_map R s;
  gr_blocked m : m ∈ __mk_excl_blocking_set s' <-> m ∈ __mk_excl_blocking_set s \/ B m;
  gr_updated m : is_Some (m_find m (updated_nodes s')) <-> is_Some (m_find m (updated_nodes s)) \/ U m;
  gr_kept m f : m_find m (updated_nodes s) = Some f -> m_find m (updated_nodes s') = Some f;
  gr_queue : queue_ok s -> queue_ok s'
}.

Lemma grown_refl s : grown s s (fun _ => False) (fun _ => False).
Proof. split; tauto. Qed.
Lemma grown_trans s1 s2 s3 B1 B2 U1 U2 : grown s1 s2 B1 U1 -> grown s2 s3 B2 U2 ->
  grown s1 s3 (fun m => B1 m \/ B2 m) (fun m => U1 m \/ U2 m).
Proof.
  intros [H1 H2 H3 H4 H5 H6] [K1 K2 K3 K4 K5 K6]. split; [congruence|congruence|..|auto|auto];
    intros m; rewrite ?K3, ?H3, ?K4, ?H4; tauto.
Qed.
Lemma grown_ext s s' (B B' U U' : nat -> Prop) : grown s s' B U ->
  (forall m, B m <-> B' m) -> (forall m, U m <-> U' m) -> grown s s' B' U'.
Proof.
  intros [H1 H2 H3 H4 H5 H6] HB HU. split; [done|done|..|done|done]; intros m; rewrite <- ?HB, <- ?HU; auto.
Qed.
Lemma grown_rings l s : grown s (er_put_rings R l s) (fun _ => False) (fun _ => False).
Proof.
  destruct (rl_rings_frame l s) as (Hb & Hu & Hq & Hn).
  split; unfold queue_ok; rewrite ?Hb, ?Hu, ?Hq; try done; [apply rl_rings_map|tauto|tauto].
Qed.

Lemma grown_block m s :
  grown s (put___mk_excl_blocking_set (s_insert m (__mk_excl_blocking_set s)) s) (fun x => x = m) (fun _ => False).
Proof.
  split; [done|by destruct (rl_blocking (s_insert m (__mk_excl_blocking_set s)) s)|..|done|done]; intros x; cbn.
  - rewrite elem_of_s_insert. tauto.
  - tauto.
Qed.

Lemma wp_updated_nodes_insert E m nui s (Q : bool -> State -> Prop) :
  (forall b s', er_rings R s' = er_rings R s -> grown s s' (fun _ => False) (fun x => x = m) -> Q b s') ->
  wpe E (updated_nodes_insert m nui) Q s.
Proof.
  intros HQ. unfold updated_nodes_insert. apply wpe_bind, wpe_gets. unfold m_insert.
  destruct (m_find m (updated_nodes s)) as [f|] eqn:Hf; apply wpe_bind, wpe_modify, wpe_bind; cbn [when].
  - apply wpe_ret, wpe_ret, HQ; [by apply rl_updated|].
    split; [done|by apply rl_updated|cbn; tauto|cbn|done|done].
    intros x. split; [by left|]. intros [?| ->]; [done|by exists f].
  - apply wpe_modify, wpe_ret. set (u' := m_set m nui (updated_nodes s)).
    set (s1 := put_updated_nodes u' s). set (q' := updated_nodes_queue s1 ++ [m]).
    assert (Hu' : forall x, is_Some (m_find x u') <-> is_Some (m_find x (updated_nodes s)) \/ x = m).
    { intros x. unfold u'. rewrite m_find_set. destruct (key_eqb x m) eqn:Ex.
      - apply key_eqb_eq in Ex as ->. split; [by right|by eexists].
      - split; [by left|]. intros [?| ->]; [done|]. by rewrite key_eqb_refl in Ex. }
    apply HQ.
    { rewrite (proj1 (rl_queue q' s1)). by apply rl_updated. }
    split; [done| |cbn; tauto|exact Hu'|..].
    + rewrite (proj2 (rl_queue q' s1)). by apply rl_updated.
    + intros x g Hg. change (m_find x u' = Some g). unfold u'. rewrite m_find_set.
      destruct (key_eqb x m) eqn:Ex; [|done]. apply key_eqb_eq in Ex as ->. congruence.
    + intros [Hnd Hq]. change (NoDup q' /\ forall x, x ∈ q' <-> is_Some (m_find x u')).
      assert (Hm : m ∉ updated_nodes_queue s) by (rewrite Hq, Hf; by intros [? ?]).
      split.
      * apply NoDup_app. split_and!; [done| |apply NoDup_singleton].
        intros x Hx Hin. apply list_elem_of_singleton in Hin as ->. done.
      * intros x. rewrite Hu', <- Hq. unfold q'. rewrite elem_of_app, list_elem_of_singleton. done.
Qed.

(** Doing the same for all nodes of a list. *)
Lemma wp_for_each_grown l (body : nat -> SM unit) (B U : nat -> nat -> Prop) s :
  (forall m s1 (Q : unit -> State -> Prop), (forall s2, er_rings R s2 = er_rings R s1 ->
      grown s1 s2 (B m) (U m) -> Q tt s2) -> wp (body m) Q s1) ->
  wp (for_each l body) (fun _ s' => er_rings R s' = er_rings R s /\
    grown s s' (fun x => exists m, m ∈ l /\ B m x) (fun x => exists m, m ∈ l /\ U m x)) s.
Proof.
  intros Hb. revert s. induction l as [|m l IH]; intros s; cbn [for_each].
  - apply wpe_ret. split; [done|]. eapply grown_ext; [apply grown_refl| |];
      intros x; (split; [done|]); intros (m & Hm & _); by apply elem_of_nil in Hm.
  - apply wpe_bind, Hb. intros s2 Er Hg. eapply wpe_mono; [apply IH|].
    intros [] s3 [Er' Hg']. split; [congruence|]. eapply grown_ext; [by eapply grown_trans| |];
      intros x; cbn; (split; [intros [?|(k & ? & ?)]; [exists m|exists k]; rewrite elem_of_cons; tauto|]);
      intros (k & Hk & ?); apply elem_of_cons in Hk as [->|Hk]; eauto.
Qed.

Section Ring.
Context (ni : nat) (v prev : value_enum).
#[local] Abbreviation act x := (value_eqb x (er_active R)).

Definition ring_delta : Z := (if act v then 1 else 0) - (if act prev then 1 else 0).
Definition ring_next (r : ring_counter_state) : ring_counter_state :=
  mkRing (elems r) (count r + ring_delta).
Definition peer (r : ring_counter_state) (x : nat) : Prop := x ∈ elems r /\ x <> ni.
Definition blocks : Prop := act v && negb (act prev) = true.
Definition releases : Prop := negb (act v) && act prev = true.

Lemma others_spec (r : ring_counter_state) x :
  x ∈ List.filter (fun m => negb (Nat.eqb m ni)) (elems r) <-> peer r x.
Proof.
  unfold peer. rewrite !list_elem_of_In, filter_In, negb_true_iff, Nat.eqb_neq. tauto.
Qed.

Lemma wp_enforce_ring s j r :
  er_rings R s !! j = Some r -> 0 <= count r + ring_delta <= 127 ->
  wp (enforce_ring R ni v prev j) (fun _ s' =>
    er_rings R s' = <[j := ring_next r]> (er_rings R s) /\
    grown s s' (fun x => blocks /\ peer r x)
               (fun x => releases /\ count (ring_next r) = 0 /\ peer r x)) s.
Proof.
  intros Hr Hb. unfold enforce_ring. apply wpe_bind, wpe_gets, wpe_bind, wpe_of_option; [|congruence].
  intros r' Er. assert (r' = r) as -> by congruence.
  assert (Hw : char_wrap (count r + ring_delta) = count r + ring_delta).
  { unfold char_wrap. rewrite wrap_small; lia. }
  unfold ring_next, ring_delta, blocks, releases in *.
  destruct (act v), (act prev); cbn [andb negb] in *.
  1, 4: apply wpe_ret; cbn; rewrite Z.add_0_r; split;
    [destruct r; by rewrite list_insert_id|];
    eapply grown_ext; [apply grown_refl|intros x; split; [done|by intros [? ?]]..].
  - change (1 - 0) with 1 in *. apply wpe_bind, wpe_modify. rewrite Hw.
    eapply wpe_mono; [apply (wp_for_each_grown _ _ (fun m x => x = m) (fun _ _ => False))|].
    { intros m s1 Q HQ. apply wpe_modify, HQ; [by apply rl_blocking|apply grown_block]. }
    intros [] s' [E Hg]. split; [by rewrite E, rl_rings|].
    eapply grown_ext; [eapply grown_trans; [apply grown_rings|exact Hg]|..]; intros x; cbn.
    + split; [intros [?|(m & Hm & ->)]; [done|]; split; [done|]; by apply others_spec|].
      intros [_ Hp]. right. exists x. split; [by apply others_spec|done].
    + split; [intros [?|(m & ? & ?)]; done|by intros [? ?]].
  - apply wpe_bind, wpe_modify. cbn [count]. change (0 - 1) with (-1) in *.
    change (count r - 1) with (count r + -1). rewrite Hw.
    apply wpe_when; intros Hz.
    + eapply wpe_mono; [apply (wp_for_each_grown _ _ (fun _ _ => False) (fun m x => x = m))|].
      { intros m s1 Q HQ. apply wpe_bind, wp_updated_nodes_insert. intros b s2 E2 Hg2.
        by apply wpe_ret, HQ. }
      intros [] s' [E Hg]. split; [by rewrite E, rl_rings|].
      eapply grown_ext; [eapply grown_trans; [apply grown_rings|exact Hg]|..]; intros x; cbn.
      * split; [intros [?|(m & ? & ?)]; done|by intros [? ?]].
      * split; [intros [?|(m & Hm & ->)]; [done|]; split_and!; [done|lia|by apply others_spec..]|].
        intros (_ & _ & Hp). right. exists x. split; [by apply others_spec|done].
    + split; [by rewrite rl_rings|]. eapply grown_ext; [apply grown_rings|..]; intros x; cbn.
      * split; [done|by intros [? ?]].
      * split; [done|intros (_ & Hz' & _)]. apply Z.eqb_neq in Hz. done.
Qed.

Lemma wp_enforce_rings l s : NoDup l ->
  (forall j, j ∈ l -> exists r, er_rings R s !! j = Some r /\ 0 <= count r + ring_delta <= 127) ->
  wp (for_each l (enforce_ring R ni v prev)) (fun _ s' =>
    (forall j, er_rings R s' !! j =
       if decide (j ∈ l) then ring_next <$> er_rings R s !! j else er_rings R s !! j) /\
    grown s s' (fun x => blocks /\ exists j r, j ∈ l /\ er_rings R s !! j = Some r /\ peer r x)
      (fun x => releases /\ exists j r, j ∈ l /\ er_rings R s !! j = Some r /\
                 count (ring_next r) = 0 /\ peer r x)) s.
Proof.
  intros Hnd. revert s. induction Hnd as [|j l Hj Hnd IH]; intros s Hl; cbn [for_each].
  { apply wpe_ret. split; [intros j; by rewrite decide_False by apply not_elem_of_nil|].
    eapply grown_ext; [apply grown_refl|..]; intros x; (split; [done|]);
      intros (_ & j & r & Hj & _); by apply elem_of_nil in Hj. }
  destruct (Hl j) as (r & Hr & Hb); [by apply list_elem_of_here|]. apply wpe_bind.
  eapply wpe_mono; [by apply (wp_enforce_ring s j r)|]. intros [] s1 [E1 Hg1].
  assert (Hsame : forall j', j' ∈ l -> er_rings R s1 !! j' = er_rings R s !! j').
  { intros j' Hj'. rewrite E1, list_lookup_insert_ne; [done|]. by intros ->. }
  eapply wpe_mono; [apply IH|].
  { intros j' Hj'. rewrite Hsame by done. apply Hl, elem_of_cons. by right. }
  intros [] s2 [E2 Hg2]. split.
  - intros j'. rewrite E2. destruct (decide (j' = j)) as [->|Hne].
    + rewrite decide_False by done. rewrite (decide_True (P := j ∈ j :: l)) by (by apply list_elem_of_here).
      rewrite E1, Hr. apply list_lookup_insert_eq. by eapply lookup_lt_Some.
    + rewrite E1, list_lookup_insert_ne by done. destruct (decide (j' ∈ l)) as [Hin|Hin].
      * rewrite decide_True; [done|]. apply elem_of_cons. by right.
      * rewrite decide_False; [done|]. rewrite elem_of_cons. tauto.
  - eapply grown_ext; [by eapply grown_trans|..]; intros x; cbn.
    + setoid_rewrite elem_of_cons. split.
      * intros [[Hbl Hp]|(Hbl & j' & r' & Hj' & Hr' & Hp)].
        -- split; [done|]. exists j, r. auto.
        -- split; [done|]. exists j', r'. rewrite Hsame in Hr' by done. auto.
      * intros (Hbl & j' & r' & [->|Hj'] & Hr' & Hp).
        -- left. split; [done|]. by rewrite Hr in Hr'; simplify_eq.
        -- right. split; [done|]. exists j', r'. by rewrite Hsame.
    + setoid_rewrite elem_of_cons. split.
      * intros [[Hbl Hp]|(Hbl & j' & r' & Hj' & Hr' & Hp)].
        -- split; [done|]. exists j, r. tauto.
        -- split; [done|]. exists j', r'. rewrite Hsame in Hr' by done. auto.
      * intros (Hbl & j' & r' & [->|Hj'] & Hr' & Hp).
        -- left. split; [done|]. by rewrite Hr in Hr'; simplify_eq.
        -- right. split; [done|]. exists j', r'. by rewrite Hsame.
Qed.
End Ring.

Lemma count_if_set_val ni v val l : NoDup l ->
  count_if (active (set_val ni v val)) l =
  count_if (active val) l + if decide (ni ∈ l) then ring_delta v (val ni) else 0.
Proof.
  intros Hnd. induction Hnd as [|x l Hx Hnd IH]; cbn [count_if].
  { rewrite decide_False by apply not_elem_of_nil. lia. }
  unfold active at 1 3. destruct (decide (x = ni)) as [->|Hne].
  - rewrite set_val_same, (decide_True (P := ni ∈ ni :: l)) by (by apply list_elem_of_here).
    rewrite decide_False in IH by done. rewrite IH. unfold ring_delta. lia.
  - rewrite set_val_other, IH by done. destruct (decide (ni ∈ l)) as [Hin|Hin].
    + rewrite decide_True by (apply elem_of_cons; by right). lia.
    + rewrite decide_False; [lia|]. rewrite elem_of_cons. naive_solver.
Qed.

Lemma wp_enforce_excl s val c prev :
  force_ok val s -> is_Some (m_find (cause_node c) (er_map R s)) -> val (cause_node c) = prev ->
  wp (enforce_excl R c prev) (fun _ s' => force_ok (set_val (cause_node c) (cause_val c) val) s' /\
    grown s s'
      (fun x => blocks (cause_val c) prev /\ exists j r, er_rings R s !! j = Some r /\
         cause_node c ∈ elems r /\ peer (cause_node c) r x)
      (fun x => releases (cause_val c) prev /\ exists j r, er_rings R s' !! j = Some r /\
         cause_node c ∈ elems r /\ peer (cause_node c) r x /\ count r = 0)) s.
Proof.
  intros Hok [l Hl] <-. pose proof Hok as [H1 H2 H3 H4]. set (ni := cause_node c) in *. set (v := cause_val c).
  assert (Hcnt : forall j r, er_rings R s !! j = Some r -> ni ∈ elems r ->
    count (ring_next v (val ni) r) = count_if (active (set_val ni v val)) (elems r)).
  { intros j r Hr Hin. destruct (H1 j r Hr) as (Hnd & _ & Hc). cbn.
    rewrite (count_if_set_val _ _ _ _ Hnd), decide_True by done. by rewrite Hc. }
  assert (Hin : forall j, j ∈ l <-> exists r, er_rings R s !! j = Some r /\ ni ∈ elems r).
  { intros j. split; [by apply H3|]. intros (r & Hr & Hm).
    destruct (H4 ni j r Hr Hm) as (l' & E & Hj). congruence. }
  unfold enforce_excl. apply wpe_bind, wpe_gets, wpe_bind, wpe_of_option; [|fold ni; congruence].
  intros l' El. fold ni in El. assert (l' = l) as -> by congruence.
  eapply wpe_mono; [apply wp_enforce_rings; [by apply (H2 ni)|]|].
  { intros j Hj. apply Hin in Hj as (r & Hr & Hm). exists r. split; [done|].
    pose proof (Hcnt j r Hr Hm) as E. cbn in E. fold ni v. rewrite E.
    destruct (H1 j r Hr) as (_ & Hlen & _).
    pose proof (count_if_bounds (active (set_val ni v val)) (elems r)). lia. }
  fold ni v. intros [] s' [E Hg].
  assert (Hring : forall j r, er_rings R s' !! j = Some r <-> exists r0, er_rings R s !! j = Some r0 /\
      r = if decide (ni ∈ elems r0) then ring_next v (val ni) r0 else r0).
  { intros j r. rewrite E. destruct (er_rings R s !! j) as [r0|] eqn:Hr0; cbn.
    - assert (Hd : j ∈ l <-> ni ∈ elems r0).
      { rewrite Hin. split; [intros (? & ? & ?); congruence|]. intros ?. by exists r0. }
      destruct (decide (j ∈ l)) as [Hj|Hj].
      + split; [intros [= <-]; exists r0; by rewrite decide_True by tauto|]. intros (? & [= <-] & ->). by rewrite decide_True by tauto.
      + split; [intros [= <-]; exists r0; by rewrite decide_False by tauto|].
        intros (? & [= <-] & ->). by rewrite decide_False by tauto.
    - split; [by destruct (decide _)|]. by intros (? & ? & _). }
  assert (Hel : forall r0, elems (if decide (ni ∈ elems r0) then ring_next v (val ni) r0 else r0) = elems r0)
    by (intros r0; by destruct (decide _)).
  split.
  - split.
    + intros j r (r0 & Hr0 & ->)%Hring. rewrite Hel. destruct (H1 j r0 Hr0) as (Hnd & Hlen & Hc).
      split; [done|]. split; [done|]. destruct (decide _) as [Hm|Hm]; [by apply (Hcnt j)|].
      rewrite (count_if_set_val _ _ _ _ Hnd), decide_False by done. by rewrite Hc, Z.add_0_r.
    + intros nj l'. rewrite (gr_map _ _ _ _ Hg). apply H2.
    + intros nj l' j. rewrite (gr_map _ _ _ _ Hg). intros Hf Hj.
      destruct (H3 nj l' j Hf Hj) as (r0 & Hr0 & Hm). eexists. split; [by apply Hring; exists r0|].
      by rewrite Hel.
    + intros nj j r (r0 & Hr0 & ->)%Hring. rewrite Hel, (gr_map _ _ _ _ Hg). by apply H4.
  - eapply grown_ext; [exact Hg|..]; intros x; cbn.
    + split; intros (Hb & j & r & A & B & D); (split; [done|]); exists j, r.
      * apply Hin in A as (r' & ? & ?). by simplify_eq.
      * split; [apply Hin; by exists r|done].
    + split.
      * intros (Hb & j & r & Hj & Hr & Hz & Hp). apply Hin in Hj as (r' & ? & Hm). simplify_eq.
        split; [done|]. exists j, (ring_next v (val ni) r').
        split; [apply Hring; exists r'; by rewrite decide_True|]. done.
      * intros (Hb & j & r & Hr & Hm & Hp & Hz). apply Hring in Hr as (r0 & Hr0 & ->).
        rewrite Hel in Hm. rewrite decide_True in Hp, Hz by done. split; [done|].
        exists j, r0. split; [apply Hin; by exists r0|]. done.
Qed.

(** *** Building a forced ring *)
Lemma wp_append_mk_ring s val r :
  force_ok val s -> NoDup r -> (length r <= 127)%nat ->
  (forall ni, ni ∈ r -> val ni <> er_active R /\ exists n, node_pool s !! ni = Some n /\ is_atomic n = false) ->
  wp (append_mk_ring R r) (fun _ s' => force_ok val s' /\
    er_rings R s' = er_rings R s ++ [mkRing r 0]) s.
Proof.
  intros [H1 H2 H3 H4] Hnd Hlen Hr. unfold append_mk_ring. apply wpe_bind, wpe_gets.
  set (j := length (er_rings R s)). set (old ni := match m_find ni (er_map R s) with Some l => l | None => [] end).
  assert (Hj : er_rings R s !! j = None) by (by apply lookup_ge_None).
  assert (Hold : forall ni, j ∉ old ni).
  { intros ni Hin. unfold old in Hin. destruct (m_find ni _) as [l|] eqn:E; [|by apply elem_of_nil in Hin].
    destruct (H3 ni l j E Hin) as (r' & Hr' & _). congruence. }
  pose (I := fun (l : list nat) (t : State) => er_rings R t = er_rings R s /\ NoDup l /\ l ⊆ r /\
    (forall ni, ni ∈ l -> node_pool t !! ni = node_pool s !! ni) /\
    (forall ni, m_find ni (er_map R t) =
       if decide (ni ∈ r /\ ni ∉ l) then Some (old ni ++ [j]) else m_find ni (er_map R s))).
  apply wpe_bind. eapply wpe_mono; [apply (wpe_for_each _ I)|].
  - split_and!; try done. intros ni. rewrite decide_False; [done|tauto].
  - intros ni l t (Er & Hn & Hsub & Hp & Hm). apply NoDup_cons in Hn as [Hx Hn].
    assert (Hni : ni ∈ r) by (apply Hsub, list_elem_of_here).
    destruct (Hr ni Hni) as (_ & n & En & Ha).
    assert (Et : node_pool t !! ni = Some n) by (by rewrite Hp by apply list_elem_of_here).
    apply wpe_bind. eapply wpe_get_node; [done|]. rewrite Ha. apply wpe_bind, wpe_ret, wpe_bind.
    eapply wpe_upd_node; [exact Et|]. apply wpe_modify. set (t1 := put_node_pool _ t).
    destruct (rl_nodes (<[ni := er_make R n]> (node_pool t)) t) as (_ & _ & Em1 & Er1).
    destruct (rl_maps (map_push_back ni j (er_map R t1)) t1) as (Em2 & Er2 & En2).
    fold t1 in Em1, Er1. split_and!; [by rewrite Er2, Er1|done| | |].
    + intros x Hx'. apply Hsub, elem_of_cons. by right.
    + intros x Hx'. rewrite En2. cbn. rewrite list_lookup_insert_ne by (by intros ->).
      apply Hp, elem_of_cons. by right.
    + intros x. rewrite Em2, m_find_push_back, Em1, !Hm.
      assert (Hc : forall y, y ∉ ni :: l <-> y <> ni /\ y ∉ l) by (intros y; rewrite elem_of_cons; tauto).
      destruct (key_eqb x ni) eqn:Ek.
      * apply key_eqb_eq in Ek as ->. rewrite (decide_True (P := ni ∈ r /\ ni ∉ l)) by done.
        rewrite decide_False by (rewrite Hc; tauto). unfold old. done.
      * assert (x <> ni) by (intros ->; by rewrite key_eqb_refl in Ek).
        apply decide_ext. rewrite Hc. tauto.
  - intros [] t (Er & _ & _ & _ & Hm). apply wpe_modify.
    assert (Hm' : forall ni, m_find ni (er_map R (er_put_rings R (er_rings R t ++ [mkRing r 0]) t)) =
      if decide (ni ∈ r) then Some (old ni ++ [j]) else m_find ni (er_map R s)).
    { intros ni. rewrite rl_rings_map, Hm. destruct (decide (ni ∈ r)) as [Hi|Hi].
      - rewrite decide_True; [done|]. split; [done|]. apply not_elem_of_nil.
      - rewrite decide_False; [done|tauto]. }
    assert (Hlk : forall i x, (er_rings R s ++ [mkRing r 0]) !! i = Some x <->
      er_rings R s !! i = Some x \/ i = j /\ x = mkRing r 0).
    { intros i x. rewrite lookup_app. destruct (er_rings R s !! i) as [y|] eqn:Ey.
      - split; [by left|]. intros [?|[-> _]]; congruence.
      - apply lookup_ge_None in Ey. destruct (decide (i = j)) as [->|Hne].
        + unfold j. rewrite Nat.sub_diag. cbn. split; [intros [= <-]; by right|]. intros [?|[_ ->]]; done.
        + split; [|by intros [?|[-> _]]]. destruct (i - length (er_rings R s))%nat as [|k] eqn:Ek; [unfold j in Hne; lia|done]. }
    split; [|by rewrite rl_rings, Er]. split.
    + intros i x. rewrite rl_rings, Er, Hlk. intros [Hx|[-> ->]]; [by apply (H1 i)|].
      split; [done|]. split; [done|]. symmetry. apply count_if_zero, Forall_forall. intros y Hy.
      unfold active. apply not_true_is_false. intros Hv. apply value_eqb_eq in Hv. by destruct (Hr y Hy).
    + intros ni l. rewrite Hm'. destruct (decide (ni ∈ r)); [|apply H2]. intros [= <-].
      apply NoDup_app. split_and!; [|intros x Hx Hx'|apply NoDup_singleton].
      * unfold old. destruct (m_find ni _) eqn:E; [by apply (H2 ni)|constructor].
      * apply list_elem_of_singleton in Hx' as ->. by apply (Hold ni).
    + intros ni l i. rewrite Hm', rl_rings, Er. setoid_rewrite Hlk. destruct (decide (ni ∈ r)) as [Hi|Hi].
      * intros [= <-]. rewrite elem_of_app, list_elem_of_singleton. intros [Ho| ->]; [|exists (mkRing r 0); auto].
        unfold old in Ho. destruct (m_find ni _) as [l'|] eqn:E; [|by apply elem_of_nil in Ho].
        destruct (H3 ni l' i E Ho) as (x & ? & ?). eauto.
      * intros E Ho. destruct (H3 ni l i E Ho) as (x & ? & ?). eauto.
    + intros ni i x. rewrite Hm', rl_rings, Er, Hlk. intros [Hx|[-> ->]] Hin.
      * destruct (H4 ni i x Hx Hin) as (l & E & Hl). destruct (decide (ni ∈ r)); [|by exists l].
        exists (old ni ++ [j]). split; [done|]. apply elem_of_app. left. unfold old. by rewrite E.
      * rewrite decide_True by done. eexists. split; [done|]. apply elem_of_app. right.
        by apply list_elem_of_singleton.
Qed.
End Enforce.

(** ** Properties *)
Section Theorems.
Context {C : Type}.
Implicit Types (s : State C) (val : nat -> value_enum).

Lemma check_ok_ext (R : excl_rings (C:=C)) val s s' :
  er_locks R s' = er_locks R s -> er_check_map R s' = er_check_map R s -> node_pool s' = node_pool s ->
  check_ok R val s -> check_ok R val s'.
Proof.
  intros El Em En [H1 H2 H3 H4 H5].
  assert (Hr : forall ni li, in_ring R s' ni li <-> in_ring R s ni li) by (intros; unfold in_ring; by rewrite Em).
  split.
  - intros ni l. rewrite Em. apply H1.
  - intros ni li Hin. rewrite El. apply (H2 ni). by apply Hr.
  - intros ni n. rewrite En, Em. apply H3.
  - intros li [nj Hnj]. rewrite El, H4 by (exists nj; by apply Hr).
    split; intros (nk & Hk & Hv); exists nk; (split; [by apply Hr|done]).
  - intros li n1 n2 Hr1 Hr2. apply (H5 li); by apply Hr.
Qed.

(** The direction of an exception. *)
Definition excl_of (hi : bool) : excl_rings (C:=C) := if hi then excl_hi else excl_lo.

(** C29: with the locks in order, checking a change of a node from one value
    to another never faults.  Either no ring gets a second active member, and
    the locks are in order for the new values; or the exception names a ring
    with another member that already has the new value, and the locks of the
    rings that were tried before it stay taken. *)
Theorem check_excl_rings_correct val s ni n prev next :
  check_ok excl_hi val s -> check_ok excl_lo val s ->
  node_pool s !! ni = Some n -> val ni = prev -> prev <> next ->
  exists x s', check_excl_rings ni n prev next s = Ok (x, s') /\
    match x with
    | None => check_ok excl_hi (set_val ni next val) s' /\ check_ok excl_lo (set_val ni next val) s'
    | Some x' => exists hi li ls, x' = excl_exception hi li ni /\ next = er_active (excl_of hi) /\
        violates (excl_of hi) val s ni li ls /\ er_locks (excl_of hi) s' = ls
    end.
Proof.
  intros Hhi Hlo Hn Hv Hne. apply wp_total. unfold check_excl_rings.
  apply wpe_bind. eapply wpe_mono; [by apply (wp_check_excl_dir excl_hi s val)|].
  intros [li|] s1 (ls & -> & H1); [apply wpe_ret; exists true, li, ls; by destruct H1|].
  assert (Hlo1 : check_ok excl_lo val (er_put_locks excl_hi ls s)) by (by apply (check_ok_ext excl_lo val s)).
  apply wpe_bind. eapply wpe_mono; [by apply (wp_check_excl_dir excl_lo _ val _ _ prev next Hlo1)|].
  intros [li|] s2 (ls' & -> & H2); apply wpe_ret.
  - exists false, li, ls'. by destruct H2.
  - split; [|exact H2]. by apply (check_ok_ext excl_hi _ (er_put_locks excl_hi ls s)).
Qed.

(** C30: with the counters of the forced rings equal to the numbers of their
    active members, enforcing exclusion after a change never faults and keeps
    them so.  When the node becomes active, exactly the other members of its
    rings are blocked; when it stops being active, exactly the other members
    of those of its rings without an active member are scheduled for
    re-evaluation; each is queued once, and entries that are there stay. *)
Theorem enforce_excl_correct (hi : bool) val s c prev :
  let R := excl_of hi in
  force_ok R val s -> is_Some (m_find (cause_node c) (er_map R s)) -> val (cause_node c) = prev ->
  exists s', (if hi then enforce_exclhi else enforce_excllo) c prev s = Ok (tt, s') /\
    force_ok R (set_val (cause_node c) (cause_val c) val) s' /\
    grown R s s'
      (fun x => blocks R (cause_val c) prev /\ exists j r, er_rings R s !! j = Some r /\
         cause_node c ∈ elems r /\ peer (cause_node c) r x)
      (fun x => releases R (cause_val c) prev /\ exists j r, er_rings R s' !! j = Some r /\
         cause_node c ∈ elems r /\ peer (cause_node c) r x /\ count r = 0).
Proof.
  intros R Hok Hm Hv. subst R.
  assert (Hw : wp ((if hi then enforce_exclhi else enforce_excllo) c prev) (fun _ s' =>
    force_ok (excl_of hi) (set_val (cause_node c) (cause_val c) val) s' /\
    grown (excl_of hi) s s'
      (fun x => blocks (excl_of hi) (cause_val c) prev /\ exists j r, er_rings (excl_of hi) s !! j = Some r /\
         cause_node c ∈ elems r /\ peer (cause_node c) r x)
      (fun x => releases (excl_of hi) (cause_val c) prev /\ exists j r, er_rings (excl_of hi) s' !! j = Some r /\
         cause_node c ∈ elems r /\ peer (cause_node c) r x /\ count r = 0)) s).
  { destruct hi; [exact (wp_enforce_excl excl_hi s val c prev Hok Hm Hv)|exact (wp_enforce_excl excl_lo s val c prev Hok Hm Hv)]. }
  apply wp_total in Hw as ([] & s' & E & Hs'). by exists s'.
Qed.

(** Appending rings of inactive nodes brings the rings in order: a
    checked ring gets a fresh lock that is free, a forced ring a counter at
    zero. *)
Theorem append_rings_correct (hi : bool) val s r :
  let R := excl_of hi in
  NoDup r -> (forall ni, ni ∈ r -> val ni <> er_active R) ->
  (check_ok R val s -> er_locks R s <> [] -> (forall ni, ni ∈ r -> (ni < length (node_pool s))%nat) ->
   exists s', append_check_ring R r s = Ok (tt, s') /\ check_ok R val s' /\
     forall ni, ni ∈ r -> in_ring R s' ni (length (er_locks R s))) /\
  (force_ok R val s -> (length r <= 127)%nat ->
   (forall ni, ni ∈ r -> exists n, node_pool s !! ni = Some n /\ is_atomic n = false) ->
   exists s', append_mk_ring R r s = Ok (tt, s') /\ force_ok R val s' /\
     er_rings R s' = er_rings R s ++ [mkRing r 0]).
Proof.
  intros R Hnd Hv. assert (HL : RingLaws R) by (subst R; destruct hi; apply _). split.
  - intros Hok Hne Hr. assert (Hw : wp (append_check_ring R r) (fun _ s' => check_ok R val s' /\
      (forall ni, ni ∈ r -> in_ring R s' ni (length (er_locks R s)))) s) by (apply wp_append_check_ring; auto).
    apply wp_total in Hw as ([] & s' & E & Hs'). by exists s'.
  - intros Hok Hlen Hr. assert (Hw : wp (append_mk_ring R r) (fun _ s' => force_ok R val s' /\
      er_rings R s' = er_rings R s ++ [mkRing r 0]) s) by (apply wp_append_mk_ring; auto).
    apply wp_total in Hw as ([] & s' & E & Hs'). by exists s'.
Qed.
End Theorems.

(** ** Examples *)
Section Examples.

(** Without rings, everything is in order. *)
Lemma check_ok_none {C} (R : excl_rings (C:=C)) val s : er_check_map R s = [] ->
  (forall ni n, node_pool s !! ni = Some n -> er_checked R n = false) -> check_ok R val s.
Proof.
  intros Em Hn. assert (Hr : forall ni li, ~ in_ring R s ni li).
  { intros ni li (l & E & _). by rewrite Em in E. }
  split; rewrite ?Em; try done.
  - intros ni li Hc. by destruct (Hr ni li).
  - intros ni n E. rewrite (Hn ni n E). by split; [|intros []].
  - intros li [ni Hc]. by destruct (Hr ni li).
  - intros li ni nj Hc. by destruct (Hr ni li).
Qed.
(** The first ring is not used. *)
Lemma force_ok_none {C} (R : excl_rings (C:=C)) val s :
  er_rings R s = [ring_empty] -> er_map R s = [] -> force_ok R val s.
Proof.
  intros Er Em. split; rewrite ?Er, ?Em; try done.
  - intros [|j] r E; [injection E as <-|done]. split; [constructor|]. split; [cbn; lia|done].
  - intros ni [|j] r E Hin; [injection E as <-|done]. by apply elem_of_nil in Hin.
Qed.

Lemma ex_run_wp {A} (m : M (State unit) A) s (Q : State unit -> Prop) :
  wp m (fun _ => Q) s -> Q (ex_run m s).
Proof. unfold wpe, ex_run. by destruct (m s) as [[a s']|f]. Qed.

(** Six nodes, rings of the nodes 3 and 4 and of 3 and 5. *)
Definition xc_s0 : State unit := put_node_pool (replicate 6 NodeState_empty) inv_empty.
Definition xc_s1 : State unit := ex_run (append_check_exclhi_ring [3; 4]%nat) xc_s0.
Definition xc_s2 : State unit := ex_run (append_check_exclhi_ring [3; 5]%nat) xc_s1.
Definition xc_s3 : State unit := ex_run (append_mk_exclhi_ring [3; 4]%nat) xc_s0.
Definition all_x : nat -> value_enum := fun _ => LOGIC_OTHER.
Definition empty_nodes {C} (s : State C) : Prop := forall ni n, node_pool s !! ni = Some n -> n = NodeState_empty.

Lemma xc_s0_nodes : empty_nodes xc_s0.
Proof. intros ni n E. by apply lookup_replicate in E as [-> _]. Qed.
Lemma xc_s0_check R : er_check_map R xc_s0 = [] -> er_checked R NodeState_empty = false -> check_ok R all_x xc_s0.
Proof. intros Em Hc. apply check_ok_none; [done|]. by intros ni n ->%xc_s0_nodes. Qed.

Lemma xc_s1_ok : check_ok excl_hi all_x xc_s1 /\ check_ok excl_lo all_x xc_s1.
Proof.
  split.
  - apply (ex_run_wp (append_check_exclhi_ring [3; 4]%nat) xc_s0 (check_ok excl_hi all_x)).
    eapply wpe_mono; [apply (wp_append_check_ring excl_hi _ all_x)|by intros ? ? [? _]].
    + by apply xc_s0_check.
    + done.
    + repeat constructor; set_solver.
    + intros ni Hni. split; [|done]. change (ni < 6)%nat. set_unfold in Hni. lia.
  - apply check_ok_none; [done|]. intros ni n E.
    do 6 (destruct ni as [|ni]; [by injection E as <-|]). done.
Qed.

Lemma xc_s3_ok : force_ok excl_hi all_x xc_s3.
Proof.
  apply (ex_run_wp (append_mk_exclhi_ring [3; 4]%nat) xc_s0 (force_ok excl_hi all_x)).
  eapply wpe_mono; [apply (wp_append_mk_ring excl_hi _ all_x)|by intros ? ? [? _]].
  - by apply force_ok_none.
  - repeat constructor; set_solver.
  - cbn. lia.
  - intros ni Hni. split; [done|]. exists NodeState_empty. split; [|done].
    apply lookup_replicate. split; [done|]. set_unfold in Hni. lia.
Qed.

(** Node 3 goes from X to high. *)
Lemma check_excl_rings_correct_witness :
  exists s', check_excl_rings 3 (check_exclhi NodeState_empty) LOGIC_OTHER LOGIC_HIGH xc_s1 = Ok (None, s') /\
    check_ok excl_hi (set_val 3 LOGIC_HIGH all_x) s'.
Proof.
  destruct (check_excl_rings_correct all_x xc_s1 3 (check_exclhi NodeState_empty) LOGIC_OTHER LOGIC_HIGH)
    as (x & s' & E & Hx); [apply xc_s1_ok|apply xc_s1_ok|vm_compute; reflexivity|reflexivity|done|].
  assert (x = None) as ->.
  { assert (Hv : (x' ← match check_excl_rings 3 (check_exclhi NodeState_empty) LOGIC_OTHER LOGIC_HIGH xc_s1 with
      Ok (y, _) => Some y | Err _ => None end; x') = None) by (vm_compute; reflexivity).
    rewrite E in Hv. exact Hv. }
  exists s'. by destruct Hx.
Defined.

Lemma enforce_excl_correct_witness :
  exists s', enforce_exclhi (mkCause (mkEventCause 3 LOGIC_HIGH) 0) LOGIC_OTHER xc_s3 = Ok (tt, s') /\
    force_ok excl_hi (set_val 3 LOGIC_HIGH all_x) s' /\ 4%nat ∈ __mk_excl_blocking_set s'.
Proof.
  destruct (enforce_excl_correct true all_x xc_s3 (mkCause (mkEventCause 3 LOGIC_HIGH) 0) LOGIC_OTHER)
    as (s' & E & Hok & Hg); [exact xc_s3_ok|by exists [1%nat]|reflexivity|].
  exists s'. split; [exact E|]. split; [exact Hok|]. apply (gr_blocked _ _ _ _ _ Hg). right.
  split; [reflexivity|]. exists 1%nat, (mkRing [3; 4]%nat 0). split_and!; [reflexivity|..]; cbn;
    [set_solver|]. split; [set_solver|done].
Defined.

Lemma append_rings_correct_witness :
  exists s', append_check_ring excl_hi [3; 4]%nat xc_s0 = Ok (tt, s') /\ check_ok excl_hi all_x s'.
Proof.
  destruct (append_rings_correct true all_x xc_s0 [3; 4]%nat) as [H _].
  - repeat constructor; set_solver.
  - done.
  - destruct H as (s' & E & Hok & _).
    + by apply xc_s0_check.
    + done.
    + intros ni Hni. change (ni < 6)%nat. set_unfold in Hni. lia.
    + by exists s'.
Defined.
End Examples.

(** A check that fails leaves locks behind.  Node 5 goes high; then the
    rise of node 3 is refused, because of the ring that it shares with 5, but
    the ring of 3 and 4 stays locked: trying again is refused because of that
    ring, and so is the rise of node 4, although neither 3 nor 4 is high. *)
Theorem failed_check_leaks_lock :
  let rise ni s := check_excl_rings ni (check_exclhi NodeState_empty) LOGIC_OTHER LOGIC_HIGH s in
  exists s1 s2 s3 s4, rise 5%nat xc_s2 = Ok (None, s1) /\
    rise 3%nat s1 = Ok (Some (excl_exception true 2 3), s2) /\
    rise 3%nat s2 = Ok (Some (excl_exception true 1 3), s3) /\
    rise 4%nat s2 = Ok (Some (excl_exception true 1 4), s4).
Proof. do 4 eexists. split_and!; vm_compute; reflexivity. Qed.
