(* ===== verification/ChannelData.v ===== *)
(** The data of a channel: what [set_all_data_rails] puts on the rails and what
    [data_rails_value] reads from them again. *)
From S2P Require Import Prelude SimTime PullSet Expr OrdMap Node ProcGraph.
From S2P Require Import State Events Schedule Step Channel.
Open Scope Z_scope.
Local Open Scope hackt_scope.
#[local] Abbreviation length := Datatypes.length.

(** ** The effect of events *)

(** The values of the nodes, once the events have happened in their order. *)
Definition set_node (ni : nat) (v : value_enum) (nv : nat -> res value_enum) : nat -> res value_enum :=
  fun n => if Nat.eqb n ni then Ok v else nv n.
Definition apply_values (l : list (nat * value_enum)) (nv : nat -> res value_enum) : nat -> res value_enum :=
  fold_left (fun nv p => set_node p.1 p.2 nv) l nv.
Definition ev_pair (e : env_event_type) : nat * value_enum := (ee_node_index e, ee_value e).
Definition after_events (l : list env_event_type) (nv : nat -> res value_enum) : nat -> res value_enum :=
  apply_values (map ev_pair l) nv.

Lemma apply_values_app l1 l2 nv : apply_values (l1 ++ l2) nv = apply_values l2 (apply_values l1 nv).
Proof. apply fold_left_app. Qed.

Lemma apply_values_other l nv ni : ni ∉ l.*1 -> apply_values l nv ni = nv ni.
Proof.
  revert nv. induction l as [|[n v] l IH]; intros nv Hni; cbn; [done|].
  cbn in Hni. apply not_elem_of_cons in Hni as [Hn Hni].
  unfold apply_values in IH. rewrite IH by done. unfold set_node. cbn.
  by apply Nat.eqb_neq in Hn as ->.
Qed.

Lemma apply_values_lookup l nv ni v : NoDup l.*1 -> (ni, v) ∈ l -> apply_values l nv ni = Ok v.
Proof.
  revert nv. induction l as [|[n w] l IH]; intros nv Hnd Hin; [by apply elem_of_nil in Hin|].
  cbn in Hnd. apply NoDup_cons in Hnd as [Hn Hnd]. cbn.
  apply elem_of_cons in Hin as [[= -> ->]|Hin].
  - fold (apply_values l (set_node n w nv)). rewrite apply_values_other by done.
    unfold set_node. by rewrite Nat.eqb_refl.
  - by apply IH.
Qed.

(** [m] only emits events for these nodes, with these values. *)
Definition emitted (l : list (nat * value_enum)) (s0 s : cstate) : Prop :=
  cs_chan s = cs_chan s0 /\ cs_exceptions s = cs_exceptions s0 /\
  exists evs, cs_events s = cs_events s0 ++ evs /\ map ev_pair evs = l.
Definition emits {A} (m : CM A) (s0 : cstate) (l : list (nat * value_enum)) : Prop :=
  wpe (fun f => f = F_fuel) m (fun _ => emitted l s0) s0.

Lemma emitted_refl s : emitted [] s s.
Proof. split_and!; [done..|]. exists []. by rewrite app_nil_r. Qed.

Lemma emitted_trans l1 l2 s0 s1 s2 : emitted l1 s0 s1 -> emitted l2 s1 s2 -> emitted (l1 ++ l2) s0 s2.
Proof.
  intros (C1 & X1 & e1 & E1 & <-) (C2 & X2 & e2 & E2 & <-). split_and!; [congruence..|].
  exists (e1 ++ e2). by rewrite E2, E1, app_assoc, map_app.
Qed.

Section Data.
Context {env : Env} (nv : nat -> res value_enum).

Lemma emits_ret {A} (a : A) s : emits (ret a) s [].
Proof. apply wpe_ret, emitted_refl. Qed.

Lemma emits_bind {A B} (m : CM A) (k : A -> CM B) s l1 l2 :
  emits m s l1 -> (forall a s1, emitted l1 s s1 -> emits (k a) s1 l2) -> emits (bind m k) s (l1 ++ l2).
Proof.
  intros Hm Hk. apply wpe_bind. eapply wpe_mono; [exact Hm|]. intros a s1 H1.
  eapply wpe_mono; [by apply Hk|]. intros b s2 H2. exact (emitted_trans _ _ _ _ _ H1 H2).
Qed.

Lemma emits_chan {B} (k : channel -> CM B) s l : emits (k (cs_chan s)) s l -> emits (bind chan k) s l.
Proof. done. Qed.

Lemma emits_get_rail {B} j k ni (c : nat -> CM B) s l :
  rail (cs_chan s) j k = Some ni -> emits (c ni) s l -> emits (bind (get_rail j k) c) s l.
Proof.
  intros E H. unfold emits, get_rail. apply wpe_bind, wpe_bind, wpe_gets. by rewrite E.
Qed.

Lemma emits_drive ni v s : emits (drive ni v) s [(ni, v)].
Proof.
  unfold emits, drive, ENV_EVENT. apply wpe_bind, wpe_bind, wpe_gets, wpe_bind.
  assert (forall d s1, cs_chan s1 = cs_chan s -> cs_exceptions s1 = cs_exceptions s -> cs_events s1 = cs_events s ->
    wpe (fun f => f = F_fuel) (ret (mkEnvEvent ni v d.1 d.2))
      (fun e s2 => wpe (fun f => f = F_fuel) (push_event e) (fun _ => emitted [(ni, v)] s) s2) s1) as Hd.
  { intros d s1 E1 E2 E3. apply wpe_ret, wpe_modify. split_and!; [done..|]. cbn. rewrite E3. by eexists. }
  unfold event_delay. destruct (ch_timing_mode _).
  - by apply wpe_ret, Hd.
  - by apply wpe_ret, Hd.
  - destruct (negb (real_is_zero (ch_after_max _))).
    + apply wpe_bind. unfold draw_uniform. apply wpe_bind, wpe_gets, wpe_bind, wpe_modify, wpe_ret.
      apply wpe_ret, Hd; done.
    + apply wpe_bind. unfold draw_exponential. apply wpe_bind, wpe_gets, wpe_bind.
      apply wpe_of_option; [|done]. intros a _. apply wpe_bind, wpe_modify, wpe_ret, wpe_ret, Hd; done.
  - apply wpe_bind. unfold draw_uniform. apply wpe_bind, wpe_gets, wpe_bind, wpe_modify, wpe_ret.
    apply wpe_ret, Hd; done.
Qed.

Lemma emits_for_each {A} (xs : list A) (body : A -> CM unit) (f : A -> list (nat * value_enum)) c s :
  cs_chan s = c ->
  (forall x s, x ∈ xs -> cs_chan s = c -> emits (body x) s (f x)) ->
  emits (for_each xs body) s (concat (map f xs)).
Proof.
  revert s. induction xs as [|x xs IH]; intros s Hc Hb; cbn; [apply (emits_ret tt)|].
  apply emits_bind; [apply Hb; [by apply elem_of_cons; left|done]|].
  intros _ s1 H1. apply IH; [by rewrite (proj1 H1)|].
  intros y s2 Hy. apply Hb. apply elem_of_cons. by right.
Qed.

(** ** The rails of a value *)
Definition node_at (c : channel) (j k : nat) : nat := default INVALID_NODE_INDEX (rail c j k).
Definition dims_ok (c : channel) : Prop := length (ch_data c) = (bundles c * radix c)%nat.
Definition rail_level (c : channel) (active : bool) : value_enum := level (xorb active (get_data_sense c)).

(** The digit of bundle [j], and the bit of rail [k] of a bus. *)
Definition digit (r : nat) (v : Z) (j : nat) : Z := (v / Z.of_nat r ^ Z.of_nat j) mod Z.of_nat r.
Definition row (c : channel) (v : Z) (j : nat) : list (nat * value_enum) :=
  map (fun k => (node_at c j k, rail_level c (Z.of_nat k =? digit (radix c) v j))) (seq 0 (radix c)).
Definition digits_encoding (c : channel) (v : Z) : list (nat * value_enum) :=
  concat (map (row c v) (seq 0 (bundles c))).
Definition bus_encoding (c : channel) (v : Z) : list (nat * value_enum) :=
  map (fun k => (node_at c 0 k, rail_level c (Z.testbit v (Z.of_nat k)))) (seq 0 (radix c)).

Lemma rail_node c j k : dims_ok c -> (j < bundles c)%nat -> (k < radix c)%nat ->
  rail c j k = Some (node_at c j k).
Proof.
  unfold node_at, rail, dims_ok. intros Hd Hj Hk.
  destruct (ch_data c !! (j * radix c + k)%nat) eqn:E; [done|].
  apply lookup_ge_None in E. change (Datatypes.length (ch_data c)) with (length (ch_data c)) in E. nia.
Qed.

Lemma digit_shift r v j : 0 < Z.of_nat r -> digit r v (S j) = digit r (v / Z.of_nat r) j.
Proof.
  intros Hr. unfold digit. f_equal.
  rewrite Nat2Z.inj_succ, Z.pow_succ_r, Z.div_div by lia. done.
Qed.

Lemma level_invert b : invert_value (level b) = level (negb b).
Proof. by destruct b. Qed.

Lemma emits_drive_binary c v n j s :
  cs_chan s = c -> dims_ok c -> radix c = 2%nat -> (j + n <= bundles c)%nat ->
  emits (drive_binary n j (Z.shiftr v (Z.of_nat j))) s (concat (map (row c v) (seq j n))).
Proof.
  intros Hs Hd Hr. revert j s Hs. induction n as [|n IH]; intros j s Hs Hj; [apply (emits_ret tt)|].
  cbn [drive_binary seq map concat]. apply emits_chan. rewrite Hs.
  eapply emits_get_rail; [rewrite Hs; apply rail_node; [done|lia..]|].
  eapply emits_get_rail; [rewrite Hs; apply rail_node; [done|lia..]|].
  assert (digit 2 v j = Z.b2z (Z.testbit v (Z.of_nat j))) as Hdig.
  { unfold digit. by rewrite Z.testbit_spec' by lia. }
  assert (bit (Z.shiftr v (Z.of_nat j)) = Z.testbit v (Z.of_nat j)) as Hbit.
  { unfold bit. by rewrite Z.shiftr_spec by lia. }
  assert (row c v j = [(node_at c j 0, invert_value (rail_level c (Z.testbit v (Z.of_nat j))))] ++
                      [(node_at c j 1, rail_level c (Z.testbit v (Z.of_nat j)))]) as ->.
  { unfold row, rail_level. rewrite Hr, Hdig. cbn [seq map app]. rewrite level_invert.
    by destruct (Z.testbit v (Z.of_nat j)), (get_data_sense c). }
  rewrite <- app_assoc, Hbit. apply emits_bind; [apply emits_drive|]. intros _ s1 H1.
  apply emits_bind; [apply emits_drive|]. intros _ s2 H2.
  rewrite Z.shiftr_shiftr by lia. replace (Z.of_nat j + 1) with (Z.of_nat (S j)) by lia.
  apply IH; [|lia]. destruct H1 as [H1 _], H2 as [H2 _]. congruence.
Qed.

Lemma emits_drive_digit c v j s :
  cs_chan s = c -> dims_ok c -> (j < bundles c)%nat -> 0 <= v < 2 ^ 64 ->
  emits (drive_digit j (v mod Z.of_nat (radix c))) s
    (map (fun k => (node_at c j k, rail_level c (Z.of_nat k =? v mod Z.of_nat (radix c)))) (seq 0 (radix c))).
Proof.
  intros Hs Hd Hj Hv. unfold drive_digit. apply emits_chan. rewrite Hs.
  assert (forall (f : nat -> nat * value_enum) l, map f l = concat (map (fun x => [f x]) l)) as ->.
  { intros f l. induction l as [|x l IH]; cbn; [done|]. by rewrite IH. }
  apply emits_for_each with (c := c); [done|]. intros k s1 Hk Hs1.
  apply elem_of_seq in Hk.
  eapply emits_get_rail; [rewrite Hs1; apply rail_node; [done..|lia]|].
  assert (as_value (v mod Z.of_nat (radix c)) = v mod Z.of_nat (radix c)) as ->; [|apply emits_drive].
  apply wrap_small. change (2 ^ value_bits) with (2 ^ 64).
  pose proof (Z.mod_pos_bound v (Z.of_nat (radix c)) ltac:(lia)).
  pose proof (Z.mod_le v (Z.of_nat (radix c)) ltac:(lia) ltac:(lia)). lia.
Qed.

Lemma emits_drive_digits c v n j s :
  cs_chan s = c -> dims_ok c -> (0 < radix c)%nat -> (j + n <= bundles c)%nat -> 0 <= v < 2 ^ 64 ->
  emits (drive_digits n j (v / Z.of_nat (radix c) ^ Z.of_nat j)) s (concat (map (row c v) (seq j n))).
Proof.
  intros Hs Hd Hr Hj Hv. revert j s Hs Hj. induction n as [|n IH]; intros j s Hs Hj; [apply (emits_ret tt)|].
  cbn [drive_digits seq map concat]. apply emits_chan. rewrite Hs.
  set (q := v / Z.of_nat (radix c) ^ Z.of_nat j).
  assert (0 < Z.of_nat (radix c) ^ Z.of_nat j) by (apply Z.pow_pos_nonneg; lia).
  assert (0 <= q < 2 ^ 64) as Hq.
  { split; [apply Z.div_pos; lia|]. apply Z.le_lt_trans with v; [|lia].
    apply Z.div_le_upper_bound; nia. }
  unfold emits. apply wpe_bind, wpe_require; [|intros E; apply negb_false_iff, Nat.eqb_eq in E; lia].
  intros _. rewrite Z.rem_mod_nonneg, Z.quot_div_nonneg by lia.
  apply emits_bind; [by apply emits_drive_digit; [..|lia|]|]. intros _ s1 [Hs1 _].
  assert (q / Z.of_nat (radix c) = v / Z.of_nat (radix c) ^ Z.of_nat (S j)) as ->.
  { unfold q. rewrite Z.div_div by lia. f_equal. rewrite Nat2Z.inj_succ, Z.pow_succ_r by lia. lia. }
  apply IH; [congruence|lia].
Qed.

Lemma emits_drive_bus c v n k s :
  cs_chan s = c -> dims_ok c -> (0 < bundles c)%nat -> (k + n <= radix c)%nat ->
  emits (drive_bus n k (Z.shiftr v (Z.of_nat k))) s
    (map (fun i => (node_at c 0 i, rail_level c (Z.testbit v (Z.of_nat i)))) (seq k n)).
Proof.
  intros Hs Hd Hb. revert k s Hs. induction n as [|n IH]; intros k s Hs Hk; [apply (emits_ret tt)|].
  cbn [drive_bus seq map]. apply emits_chan. rewrite Hs.
  eapply emits_get_rail; [rewrite Hs; apply rail_node; [done|lia..]|].
  unfold bit. rewrite Z.shiftr_spec, Z.add_0_l by lia.
  apply (emits_bind _ _ _ [_]); [apply emits_drive|]. intros _ s1 [Hs1 _].
  rewrite Z.shiftr_shiftr by lia. replace (Z.of_nat k + 1) with (Z.of_nat (S k)) by lia.
  apply IH; [congruence|lia].
Qed.

(** ** The rails of an encoding are the rails of the channel *)
Lemma seq_rows b r : concat (map (fun j => map (fun k => j * r + k)%nat (seq 0 r)) (seq 0 b)) = seq 0 (b * r).
Proof.
  induction b as [|b IH]; [done|].
  rewrite seq_S, map_app, concat_app, IH. cbn [map concat]. rewrite app_nil_r.
  replace (S b * r)%nat with (b * r + r)%nat by lia. rewrite seq_app. f_equal.
  rewrite <- (Nat.add_0_r (0 + b * r)). apply (fmap_add_seq (b * r) 0 r).
Qed.

Lemma map_lookup_seq (l : list nat) : map (fun i => default INVALID_NODE_INDEX (l !! i)) (seq 0 (length l)) = l.
Proof.
  induction l as [|x l IH]; [done|]. cbn. f_equal. rewrite <- IH at 2.
  rewrite <- seq_shift, map_map. done.
Qed.

Lemma digits_encoding_nodes c v : dims_ok c -> (digits_encoding c v).*1 = ch_data c.
Proof.
  intros Hd. rewrite <- (map_lookup_seq (ch_data c)), Hd, <- seq_rows.
  unfold digits_encoding. change (list_fmap ?A ?B ?f ?l) with (map f l). rewrite !concat_map, !map_map.
  f_equal. apply map_ext. intros j. unfold row. rewrite !map_map. done.
Qed.

Lemma bus_encoding_nodes c v : dims_ok c -> bundles c = 1%nat -> (bus_encoding c v).*1 = ch_data c.
Proof.
  intros Hd Hb. rewrite <- (map_lookup_seq (ch_data c)), Hd, Hb, Nat.mul_1_l.
  unfold bus_encoding. change (list_fmap ?A ?B ?f ?l) with (map f l). rewrite !map_map. done.
Qed.

(** ** Reading *)

(** The rails show the digits, or the bits, of [v]. *)
Definition shows_digits (c : channel) (v : Z) : Prop :=
  forall j k, (j < bundles c)%nat -> (k < radix c)%nat ->
  nv (node_at c j k) = Ok (rail_level c (Z.of_nat k =? digit (radix c) v j)).
Definition shows_bits (c : channel) (v : Z) : Prop :=
  forall k, (k < radix c)%nat -> nv (node_at c 0 k) = Ok (rail_level c (Z.testbit v (Z.of_nat k))).

Lemma read_rail_run c j k a s :
  cs_chan s = c -> dims_ok c -> (j < bundles c)%nat -> (k < radix c)%nat ->
  nv (node_at c j k) = Ok (rail_level c a) -> read_rail nv j k s = Ok (a, s).
Proof.
  intros Hs Hd Hj Hk Hv. unfold read_rail, get_rail, get_value, lift_res, chan, bind, gets, of_option, require.
  rewrite Hs, (rail_node _ _ _ Hd Hj Hk). cbn. rewrite Hv. unfold rail_level, is_active, level.
  by destruct a, (get_data_sense c).
Qed.

Lemma read_digit_run c v j s :
  cs_chan s = c -> dims_ok c -> (j < bundles c)%nat -> (0 < radix c)%nat -> shows_digits c v ->
  read_digit nv j s = Ok (Z.to_nat (digit (radix c) v j), s).
Proof.
  intros Hs Hd Hj Hr Hv. unfold read_digit, bind at 1. cbn [chan gets]. rewrite Hs.
  set (d := digit (radix c) v j) in *.
  assert (0 <= d < Z.of_nat (radix c)) as Hdr by (apply Z.mod_pos_bound; lia).
  pose (found := fun k => if Nat.ltb (Z.to_nat d) k then Some (Z.to_nat d) else None).
  assert (forall n k, (k + n <= radix c)%nat ->
    fold_m (seq k n) (found k) (fun hi k0 => b <- read_rail nv j k0 ;;
      if (b : bool) then require F_assert (match hi with None => true | Some _ => false end) ;;; ret (Some k0)
      else ret hi) s = Ok (found (k + n)%nat, s)) as Hfold.
  { induction n as [|n IH]; intros k Hk; cbn [seq fold_m]; [by rewrite Nat.add_0_r|].
    unfold bind at 1 2. rewrite (read_rail_run c j k _ s Hs Hd Hj ltac:(lia) (Hv j k Hj ltac:(lia))).
    fold d. rewrite <- Nat.add_succ_comm, <- (IH (S k)) by lia. unfold found.
    destruct (Z.eqb_spec (Z.of_nat k) d) as [E|E].
    - destruct (Nat.ltb_spec (Z.to_nat d) k) as [?|_]; [lia|].
      destruct (Nat.ltb_spec (Z.to_nat d) (S k)) as [_|?]; [|lia]. cbn.
      replace (Z.to_nat d) with k by lia. done.
    - destruct (Nat.ltb_spec (Z.to_nat d) k), (Nat.ltb_spec (Z.to_nat d) (S k)); (done || lia). }
  specialize (Hfold (radix c) 0%nat ltac:(lia)).
  change (found 0%nat) with (@None nat) in Hfold. rewrite (bind_run _ _ _ _ _ Hfold).
  unfold found. destruct (Nat.ltb_spec (Z.to_nat d) (0 + radix c)) as [?|?]; [done|lia].
Qed.

Lemma as_value_idem a b : as_value (as_value a + b) = as_value (a + b).
Proof. apply Z.add_mod_idemp_l. done. Qed.
Lemma as_value_mul a b : as_value (as_value a * b) = as_value (a * b).
Proof. apply Z.mul_mod_idemp_l. done. Qed.
Lemma as_value_small v : 0 <= v < 2 ^ 64 -> as_value v = v.
Proof. apply wrap_small. Qed.

Lemma digits_value r v n : 0 < Z.of_nat r ->
  digit r v n * Z.of_nat r ^ Z.of_nat n + v mod Z.of_nat r ^ Z.of_nat n = v mod Z.of_nat r ^ Z.of_nat (S n).
Proof.
  intros Hr. assert (0 < Z.of_nat r ^ Z.of_nat n) by (apply Z.pow_pos_nonneg; lia).
  rewrite Nat2Z.inj_succ, Z.pow_succ_r, (Z.mul_comm (Z.of_nat r)), Z.rem_mul_r by lia.
  unfold digit. lia.
Qed.

Lemma read_digits_run c v n acc s :
  cs_chan s = c -> dims_ok c -> (n <= bundles c)%nat -> (0 < radix c)%nat -> shows_digits c v ->
  as_value acc = acc ->
  read_digits nv n acc s =
    Ok (as_value (acc * Z.of_nat (radix c) ^ Z.of_nat n + v mod Z.of_nat (radix c) ^ Z.of_nat n), s).
Proof.
  intros Hs Hd Hn Hr Hv. revert acc. induction n as [|n IH]; intros acc Hacc; cbn [read_digits].
  - unfold ret. rewrite Z.pow_0_r, Z.mod_1_r, Z.mul_1_r, Z.add_0_r, Hacc. done.
  - unfold bind at 1. cbn [chan gets]. rewrite Hs. unfold bind at 1.
    rewrite (read_digit_run c v n s Hs Hd ltac:(lia) Hr Hv).
    assert (0 <= digit (radix c) v n) by (apply Z.mod_pos_bound; lia).
    rewrite Z2Nat.id by done. rewrite IH by (lia || apply wrap_small, wrap_range; done).
    rewrite as_value_idem. do 2 f_equal. rewrite <- as_value_idem, as_value_mul, as_value_idem. f_equal.
    rewrite <- digits_value, Nat2Z.inj_succ, Z.pow_succ_r by lia. lia.
Qed.

Lemma lor_bit a (b : bool) : Z.lor (2 * a) (if b then 1 else 0) = 2 * a + Z.b2z b.
Proof.
  destruct b; cbn [Z.b2z]; [|by rewrite Z.lor_0_r, Z.add_0_r].
  destruct a as [|p|p]; [done|done|]. destruct p; done.
Qed.

Lemma bits_value v n : Z.b2z (Z.testbit v (Z.of_nat n)) * 2 ^ Z.of_nat n + v mod 2 ^ Z.of_nat n =
  v mod 2 ^ Z.of_nat (S n).
Proof. rewrite Z.testbit_spec' by lia. apply (digits_value 2). lia. Qed.

Lemma read_bus_run c v n acc s :
  cs_chan s = c -> dims_ok c -> (0 < bundles c)%nat -> (n <= radix c)%nat -> shows_bits c v ->
  as_value acc = acc ->
  read_bus nv n acc s = Ok (as_value (acc * 2 ^ Z.of_nat n + v mod 2 ^ Z.of_nat n), s).
Proof.
  intros Hs Hd Hb Hn Hv. revert acc. induction n as [|n IH]; intros acc Hacc; cbn [read_bus].
  - unfold ret. rewrite Z.pow_0_r, Z.mod_1_r, Z.mul_1_r, Z.add_0_r, Hacc. done.
  - unfold bind at 1. rewrite (read_rail_run c 0 n _ s Hs Hd Hb ltac:(lia) (Hv n ltac:(lia))).
    set (b := Z.testbit v (Z.of_nat n)).
    assert (as_value (Z.shiftl acc 1) = 2 * (acc mod 2 ^ 63)) as Hsh.
    { rewrite Z.shiftl_mul_pow2 by lia. unfold as_value, wrap, value_bits.
      change (2 ^ 64) with (2 ^ 63 * 2). change (2 ^ 1) with 2.
      rewrite Z.mul_mod_distr_r by lia. lia. }
    rewrite Hsh, lor_bit.
    assert (0 <= acc mod 2 ^ 63 < 2 ^ 63) by (apply Z.mod_pos_bound; lia).
    rewrite IH by (lia || apply as_value_small; destruct b; cbn [Z.b2z]; lia).
    do 2 f_equal. rewrite <- bits_value. fold b. rewrite Nat2Z.inj_succ, Z.pow_succ_r by lia.
    replace ((2 * (acc mod 2 ^ 63) + Z.b2z b) * 2 ^ Z.of_nat n + v mod 2 ^ Z.of_nat n)
      with (2 * (acc mod 2 ^ 63) * 2 ^ Z.of_nat n + (Z.b2z b * 2 ^ Z.of_nat n + v mod 2 ^ Z.of_nat n)) by lia.
    rewrite <- Hsh, <- as_value_idem, as_value_mul, as_value_idem, Z.shiftl_mul_pow2 by lia. f_equal. lia.
Qed.

(** ** Signs *)
Definition signed_value (w v : Z) : Z := if Z.testbit v (w - 1) then v - 2 ^ w else v.
Definition value_width (c : channel) : Z := Z.of_nat (if data_is_bundled c then radix c else bundles c).

Lemma bits_above v w i : 0 <= v < 2 ^ w -> 0 <= w <= i -> Z.testbit v i = false.
Proof.
  intros Hv Hi. rewrite <- (Z.mod_small v (2 ^ w)) by done. by apply Z.mod_pow2_bits_high.
Qed.

Lemma int_shl_1_run n s : 0 <= n < 32 ->
  exists m, int_shl_1 n s = Ok (m, s) /\ forall i, 0 <= i <= n -> Z.testbit m i = (i =? n).
Proof.
  intros Hn. unfold int_shl_1, bind, require.
  destruct (Z.leb_spec 0 n) as [_|?], (Z.ltb_spec n 32) as [_|?]; try lia. cbn [andb ret].
  eexists. split; [done|]. intros i Hi. destruct (Z.eqb_spec n 31) as [->|Hn31].
  - unfold as_value, wrap. change ((- 2 ^ 31) mod 2 ^ value_bits) with (Z.shiftl (2 ^ 33 - 1) 31).
    destruct (Z.eqb_spec i 31) as [->|Hi31]; [done|]. apply Z.shiftl_spec_low. lia.
  - rewrite Z.pow2_bits_eqb by lia. apply Z.eqb_sym.
Qed.

Lemma land_single v m w : 0 < w -> 0 <= v < 2 ^ w ->
  (forall i, 0 <= i <= w - 1 -> Z.testbit m i = (i =? w - 1)) ->
  Z.land v m = if Z.testbit v (w - 1) then 2 ^ (w - 1) else 0.
Proof.
  intros Hw Hv Hm. apply Z.bits_inj'. intros i Hi. rewrite Z.land_spec.
  destruct (Z.le_gt_cases w i) as [Hwi|Hwi].
  - rewrite (bits_above v w i) by (done || lia). destruct (Z.testbit v (w - 1)); [|by rewrite Z.bits_0].
    rewrite Z.pow2_bits_eqb by lia. symmetry. apply Z.eqb_neq. lia.
  - rewrite Hm by lia. destruct (Z.eqb_spec i (w - 1)) as [->|Hne].
    + rewrite andb_true_r. destruct (Z.testbit v (w - 1)) eqn:E; [|by rewrite Z.bits_0].
      rewrite Z.pow2_bits_eqb by lia. symmetry. apply Z.eqb_refl.
    + rewrite andb_false_r. destruct (Z.testbit v (w - 1)); [|by rewrite Z.bits_0].
      rewrite Z.pow2_bits_eqb by lia. symmetry. apply Z.eqb_neq. lia.
Qed.

Lemma lor_sign v w : 0 < w < 64 -> 0 <= v < 2 ^ w ->
  Z.lor v (as_value (Z.shiftl (-1) w)) = as_value (v - 2 ^ w).
Proof.
  intros Hw Hv.
  assert (2 ^ (64 - w) * 2 ^ w = 2 ^ 64) as Hpow by (rewrite <- Z.pow_add_r by lia; f_equal; lia).
  assert (0 < 2 ^ (64 - w) /\ 0 < 2 ^ w) as [Hp1 Hp2] by (split; apply Z.pow_pos_nonneg; lia).
  assert (as_value (Z.shiftl (-1) w) = Z.shiftl (2 ^ (64 - w) - 1) w) as ->.
  { rewrite !Z.shiftl_mul_pow2 by lia. unfold as_value, wrap, value_bits.
    symmetry. apply Z.mod_unique_pos with (q := -1); nia. }
  assert (Z.land v (Z.shiftl (2 ^ (64 - w) - 1) w) = 0) as Hland.
  { apply Z.bits_inj'. intros i Hi. rewrite Z.land_spec, Z.bits_0.
    destruct (Z.le_gt_cases w i); [by rewrite (bits_above v w i) by (done || lia)|].
    rewrite Z.shiftl_spec_low by lia. apply andb_false_r. }
  rewrite <- Z.lxor_lor, <- Z.add_nocarry_lxor, Z.shiftl_mul_pow2 by (done || lia).
  unfold as_value, wrap, value_bits. apply Z.mod_unique_pos with (q := -1); nia.
Qed.

Lemma sign_extend_run c v s : cs_chan s = c -> is_signed c = true ->
  radix c = 2%nat \/ data_is_bundled c = true ->
  0 < value_width c <= 32 -> 0 <= v < 2 ^ value_width c ->
  sign_extend v s = Ok (as_value (signed_value (value_width c) v), s).
Proof.
  intros Hs Hsg Hrd Hw Hv. unfold sign_extend, bind at 1. cbn [chan gets]. rewrite Hs, Hsg.
  assert (Nat.eqb (radix c) 2 || data_is_bundled c = true) as ->.
  { destruct Hrd as [-> | ->]; [done|apply orb_true_r]. }
  unfold require at 1, bind at 1. cbn [ret]. fold (value_width c). set (w := value_width c) in *.
  destruct (int_shl_1_run (w - 1) s ltac:(lia)) as (m & Em & Hm).
  rewrite (bind_run _ _ _ _ _ Em), (land_single v m w) by (done || lia). unfold signed_value.
  assert (0 < 2 ^ (w - 1)) by (apply Z.pow_pos_nonneg; lia).
  destruct (Z.testbit v (w - 1)).
  - destruct (Z.eqb_spec (2 ^ (w - 1)) 0); [lia|]. cbn [negb].
    unfold require, bind. destruct (Z.ltb_spec w value_bits) as [_|H64]; [|unfold value_bits in H64; lia].
    cbn. by rewrite lor_sign by lia.
  - cbn. rewrite as_value_small; [done|]. split; [lia|]. apply Z.lt_le_trans with (2 ^ w); [lia|].
    apply Z.pow_le_mono_r; lia.
Qed.

Lemma sign_extend_unsigned c v s : cs_chan s = c -> is_signed c = false -> sign_extend v s = Ok (v, s).
Proof. intros Hs Hsg. unfold sign_extend, bind at 1. cbn [chan gets]. by rewrite Hs, Hsg. Qed.
End Data.

(** ** Round trip *)
Definition has_digits : channel -> bool := type_in [CHANNEL_TYPE_1ofN; CHANNEL_TYPE_SINGLE_TRACK].
Definition has_bus : channel -> bool :=
  type_in [CHANNEL_TYPE_CLK_1EDGE; CHANNEL_TYPE_CLK_2EDGE; CHANNEL_TYPE_BD_2P; CHANNEL_TYPE_BD_4P].
Definition data_modulus (c : channel) : Z :=
  if has_digits c then Z.of_nat (radix c) ^ Z.of_nat (bundles c) else 2 ^ Z.of_nat (radix c).
Definition decoded (c : channel) (val : Z) : Z :=
  let m := val mod data_modulus c in
  if is_signed c then as_value (signed_value (value_width c) m) else m.

(** A channel whose rails can carry [val]; the width of a signed one. *)
Record carries (c : channel) (val : Z) : Prop := {
  ca_dims : dims_ok c;
  ca_radix : (0 < radix c)%nat;
  ca_rails : NoDup (ch_data c);
  ca_value : 0 <= val < 2 ^ 64;
  ca_type : (has_digits c = true /\ (radix c = 2%nat \/ val < 2 ^ 63)) \/ (has_bus c = true /\ bundles c = 1%nat)
}.
Definition sign_ok (w : Z) (c : channel) : Prop :=
  is_signed c = true -> can_be_signed c = true /\ value_width c <= w.

Definition encoding (c : channel) (val : Z) : list (nat * value_enum) :=
  if has_digits c then digits_encoding c val else bus_encoding c val.

Lemma has_digits_not_bus c : has_bus c = true -> has_digits c = false.
Proof. unfold has_bus, has_digits, type_in. by destruct (ch_type c). Qed.

Lemma encoding_nodes c val : carries c val -> (encoding c val).*1 = ch_data c.
Proof.
  intros Hc. unfold encoding. destruct (ca_type _ _ Hc) as [[-> _]|[Hb Hn]].
  - apply digits_encoding_nodes, Hc.
  - rewrite has_digits_not_bus by done. apply bus_encoding_nodes; [apply Hc|done].
Qed.

Section RoundTrip.
Context {env : Env} (nv : nat -> res value_enum).

Lemma emits_set_all_data_rails c val x s :
  cs_chan s = c -> carries c val -> ch_values c !! value_index c = Some (val, x) ->
  emits (set_all_data_rails nv) s (encoding c val).
Proof.
  intros Hs Hc Hx. unfold set_all_data_rails. apply emits_chan. rewrite Hs, Hx.
  pose proof (ca_dims _ _ Hc) as Hd. pose proof (ca_value _ _ Hc) as Hv. pose proof (ca_radix _ _ Hc) as Hr.
  unfold encoding. destruct (ca_type _ _ Hc) as [[Hk Hb]|[Hk Hb]].
  - rewrite Hk. assert (emits (if Nat.eqb (radix c) 2 then drive_binary (bundles c) 0 val
                        else drive_digits (bundles c) 0 (as_long val)) s (digits_encoding c val)) as Hgo.
    { unfold digits_encoding. destruct (Nat.eqb_spec (radix c) 2) as [H2|H2].
      - rewrite <- (Z.shiftr_0_r val) at 1. by apply (emits_drive_binary c val (bundles c) 0).
      - replace (as_long val) with (val / Z.of_nat (radix c) ^ Z.of_nat 0); [by apply emits_drive_digits|].
        rewrite Z.pow_0_r, Z.div_1_r. unfold as_long. destruct (Z.ltb_spec val (2 ^ 63)); [done|].
        destruct Hb; [done|lia]. }
    unfold has_digits, type_in in Hk. by destruct (ch_type c).
  - rewrite has_digits_not_bus by done.
    assert (emits (drive_bus (radix c) 0 val) s (bus_encoding c val)) as Hgo.
    { unfold bus_encoding. rewrite <- (Z.shiftr_0_r val) at 1.
      apply (emits_drive_bus c val (radix c) 0); (done || lia). }
    unfold has_bus, type_in in Hk. by destruct (ch_type c).
Qed.

Lemma modulus_pos c val : carries c val -> 0 < data_modulus c.
Proof.
  intros Hc. pose proof (ca_radix _ _ Hc).
  unfold data_modulus. destruct (has_digits c); apply Z.pow_pos_nonneg; lia.
Qed.

(** Without the sign. *)
Lemma data_rails_read c val s : cs_chan s = c -> carries c val ->
  (if has_digits c then shows_digits nv c val else shows_bits nv c val) ->
  data_rails_value nv s = sign_extend (val mod data_modulus c) s.
Proof.
  intros Hs Hc Hsh. unfold data_rails_value, bind at 1. cbn [chan gets]. rewrite Hs.
  pose proof (ca_dims _ _ Hc) as Hd. pose proof (ca_value _ _ Hc) as Hv. pose proof (ca_radix _ _ Hc) as Hr.
  destruct (Nat.eqb_spec (radix c) 0) as [?|_]; [lia|].
  assert (0 <= val mod data_modulus c < 2 ^ 64) as Hm64.
  { pose proof (modulus_pos _ _ Hc) as Hm0. pose proof (Z.mod_pos_bound val (data_modulus c) Hm0).
    pose proof (Z.mod_le val (data_modulus c)). lia. }
  destruct (ca_type _ _ Hc) as [[Hk Hb]|[Hk Hb]].
  - rewrite Hk in Hsh.
    assert (bind (read_digits nv (bundles c) 0) sign_extend s = sign_extend (val mod data_modulus c) s) as Hgo.
    { rewrite (bind_run _ _ _ _ _ (read_digits_run nv c val (bundles c) 0 s Hs Hd ltac:(lia) Hr Hsh eq_refl)).
      rewrite Z.mul_0_l, Z.add_0_l, as_value_small; unfold data_modulus in *; rewrite Hk in *; done. }
    unfold has_digits, type_in in Hk. by destruct (ch_type c).
  - pose proof (has_digits_not_bus _ Hk) as Hkd. rewrite Hkd in Hsh.
    assert (bind (read_bus nv (radix c) 0) sign_extend s = sign_extend (val mod data_modulus c) s) as Hgo.
    { rewrite (bind_run _ _ _ _ _ (read_bus_run nv c val (radix c) 0 s Hs Hd ltac:(lia) ltac:(lia) Hsh eq_refl)).
      rewrite Z.mul_0_l, Z.add_0_l, as_value_small; unfold data_modulus in *; rewrite Hkd in *; done. }
    unfold has_bus, type_in in Hk. by destruct (ch_type c).
Qed.

Lemma signed_width c val : carries c val -> can_be_signed c = true ->
  0 < value_width c /\ data_modulus c = 2 ^ value_width c /\ (radix c = 2%nat \/ data_is_bundled c = true).
Proof.
  intros Hc Hcs. pose proof (ca_radix _ _ Hc) as Hr. unfold can_be_signed in Hcs.
  unfold value_width, data_modulus in *. destruct (ca_type _ _ Hc) as [[Hk Hb]|[Hk Hb]].
  - rewrite Hk. assert (data_is_bundled c = false) as Hnb.
    { unfold has_digits, data_is_bundled, type_in in *. by destruct (ch_type c). }
    rewrite Hnb in *. cbn [andb orb] in Hcs. apply andb_true_iff in Hcs as [->%Nat.eqb_eq H1%Nat.ltb_lt].
    split_and!; [lia|done|by left].
  - rewrite has_digits_not_bus by done. destruct (data_is_bundled c); [split_and!; [lia|done|by right]|].
    cbn [andb orb] in Hcs. apply andb_true_iff in Hcs as [_ H1%Nat.ltb_lt]. lia.
Qed.

Lemma sign_extend_decoded c val s : cs_chan s = c -> carries c val -> sign_ok 32 c ->
  sign_extend (val mod data_modulus c) s = Ok (decoded c val, s).
Proof.
  intros Hs Hc Hsg. unfold decoded. destruct (is_signed c) eqn:E; [|by apply sign_extend_unsigned with (c := c)].
  destruct (Hsg E) as [Hcs Hw]. destruct (signed_width c val Hc Hcs) as (Hw0 & Hpow & Hor).
  apply sign_extend_run; [done..|lia|]. rewrite <- Hpow. apply Z.mod_pos_bound. by eapply modulus_pos.
Qed.
End RoundTrip.

Lemma encoding_shows c val nv : carries c val ->
  if has_digits c then shows_digits (apply_values (encoding c val) nv) c val
  else shows_bits (apply_values (encoding c val) nv) c val.
Proof.
  intros Hc. pose proof (encoding_nodes c val Hc) as Hn. pose proof (ca_rails _ _ Hc) as Hnd.
  rewrite <- Hn in Hnd. clear Hn. unfold encoding in *. destruct (has_digits c).
  - intros j k Hj Hk. apply apply_values_lookup; [done|].
    apply list_elem_of_In, in_concat. exists (row c val j). split; apply in_map_iff; [exists j|exists k];
      (split; [done|]); apply in_seq; lia.
  - intros k Hk. apply apply_values_lookup; [done|]. apply list_elem_of_In, in_map_iff.
    exists k. split; [done|]. apply in_seq. lia.
Qed.

(** *** Level-encoded two rails

    The data rail shows the value; either it or the repeat rail changes with
    every value, so that their parity alternates. *)
Record ledr_ready (nv : nat -> res value_enum) (c : channel) (d : nat) (a b : bool) : Prop := {
  lr_type : ch_type c = CHANNEL_TYPE_LEDR;
  lr_radix : radix c = 1%nat;
  lr_rail : ledr_data_rail c = Some d;
  lr_distinct : d <> repeat_rail c;
  lr_data : nv d = Ok (level a);
  lr_repeat : nv (repeat_rail c) = Ok (level b)
}.

(** The rail that the least bit of [val] changes, and its new value. *)
Definition ledr_encoding (c : channel) (val : Z) (d : nat) (a b : bool) : list (nat * value_enum) :=
  if Bool.eqb a (xorb (Z.odd val) (get_data_sense c)) then [(repeat_rail c, level (negb b))]
  else [(d, level (negb a))].

Section Ledr.
Context {env : Env} (nv : nat -> res value_enum).

Lemma emits_ledr c val x d a b s :
  cs_chan s = c -> ledr_ready nv c d a b -> ch_values c !! value_index c = Some (val, x) ->
  emits (set_all_data_rails nv) s (ledr_encoding c val d a b).
Proof.
  intros Hs [Ht Hr Hd Hne Ha Hb] Hx. unfold set_all_data_rails. apply emits_chan. rewrite Hs, Hx, Ht.
  unfold set_ledr_rails. apply emits_chan. rewrite Hs.
  unfold emits, get_ledr_rail. apply wpe_bind, wpe_bind, wpe_gets. rewrite Hs, Hd.
  apply wpe_ret, wpe_bind. unfold get_value at 1. rewrite Ha. apply wpe_ret.
  assert (Htog : emits (toggle nv (repeat_rail c)) s [(repeat_rail c, level (negb b))]).
  { unfold emits, toggle, get_value. apply wpe_bind. rewrite Hb. apply wpe_ret. rewrite level_invert.
    apply emits_drive. }
  unfold bit, ledr_encoding. rewrite Z.bit0_odd.
  destruct a; cbn [level]; destruct (xorb (Z.odd val) (get_data_sense c)); cbn [Bool.eqb negb level];
    first [exact Htog|apply emits_drive].
Qed.

Lemma ledr_read c val d a b s :
  cs_chan s = c -> ledr_ready nv c d a b -> sign_ok 32 c ->
  data_rails_value (apply_values (ledr_encoding c val d a b) nv) s = Ok (decoded c val, s).
Proof.
  intros Hs [Ht Hr Hd Hne Ha Hb] Hsg.
  assert (apply_values (ledr_encoding c val d a b) nv d = Ok (level (xorb (Z.odd val) (get_data_sense c))))
    as Hv.
  { unfold ledr_encoding. destruct (Bool.eqb a _) eqn:E; unfold apply_values, set_node; cbn.
    - apply Bool.eqb_prop in E as <-. by rewrite (proj2 (Nat.eqb_neq _ _)) by done.
    - rewrite Nat.eqb_refl. by destruct a, (xorb _ _). }
  assert (is_signed c = false) as Hns.
  { destruct (is_signed c) eqn:E; [|done]. destruct (Hsg E) as [Hc _]. unfold can_be_signed in Hc.
    unfold data_is_bundled, type_in in Hc. rewrite Ht, Hr in Hc. done. }
  assert (has_digits c = false) as Hk by (unfold has_digits, type_in; by rewrite Ht).
  unfold data_rails_value, bind at 1. cbn [chan gets]. rewrite Hs, Hr, Ht. cbn [Nat.eqb].
  set (nv' := apply_values _ nv) in *.
  assert (get_ledr_rail s = Ok (d, s)) as Er by (unfold get_ledr_rail, bind; cbn; by rewrite Hs, Hd).
  assert (get_value nv' d s = Ok (level (xorb (Z.odd val) (get_data_sense c)), s)) as Ev
    by (unfold get_value; by rewrite Hv).
  rewrite (bind_run _ _ _ _ _ Er), (bind_run _ _ _ _ _ Ev), sign_extend_unsigned with (c := c) by done.
  unfold decoded, data_modulus. rewrite Hns, Hk, Hr. change (2 ^ Z.of_nat 1) with 2. rewrite Zmod_odd.
  by destruct (Z.odd val), (get_data_sense c).
Qed.
End Ledr.

(** What a source needs to drive a value. *)
Definition rails_ready (nv : nat -> res value_enum) (c : channel) (val : Z) : Prop :=
  carries c val \/ exists d a b, ledr_ready nv c d a b.

(** The events that it makes: one for every data rail, but for LEDR just one,
    which inverts the repeat rail if the data rail has the value already, and
    the data rail otherwise. *)
Definition drives_rails (nv : nat -> res value_enum) (c : channel) (val : Z) (evs : list env_event_type)
    : Prop :=
  match ch_type c with
  | CHANNEL_TYPE_LEDR => exists d a b, ledr_data_rail c = Some d /\
      nv d = Ok (level a) /\ nv (repeat_rail c) = Ok (level b) /\
      map ev_pair evs =
        if Bool.eqb a (xorb (Z.odd val) (get_data_sense c)) then [(repeat_rail c, level (negb b))]
        else [(d, level (negb a))]
  | _ => map ee_node_index evs = ch_data c
  end.

Lemma encoding_drives nv c val evs :
  carries c val -> map ev_pair evs = encoding c val -> drives_rails nv c val evs.
Proof.
  intros Hc Hp. assert (map ee_node_index evs = ch_data c) as H.
  { rewrite <- (encoding_nodes c val Hc), <- Hp. symmetry. apply map_map. }
  pose proof (ca_type _ _ Hc) as Ht. unfold drives_rails, has_digits, has_bus, type_in in *.
  destruct (ch_type c); try done. by destruct Ht as [[]|[]].
Qed.

(** C11: the round trip of data, for every encoding of values.  A source that
    has a value drives the data rails: each once, for digits one of N as for
    a bus; on a level-encoded (LEDR) channel either the data rail or the
    repeat rail, whichever makes the value, so that their parity changes.
    When these events have happened, the channel reads from its rails the
    value modulo what they can show, and with its sign extended if it is
    signed and at most 32 bits wide, with either sense of the rails, whatever
    the rails of digits and buses were before.  A value has 64 bits, below
    2^63 for digits of a base other than 2; a bus is one bundle; the two rails
    of a LEDR channel are distinct and known, for to an unknown data rail the
    code adds no event. *)
Theorem data_round_trip {env : Env} (nv : nat -> res value_enum) (c : channel) (s : cstate) (val : Z) (x : bool) :
  cs_chan s = c -> rails_ready nv c val -> sign_ok 32 c -> ch_values c !! value_index c = Some (val, x) ->
  wpe (fun f => f = F_fuel) (set_all_data_rails nv)
    (fun _ s' => exists evs, cs_events s' = cs_events s ++ evs /\ drives_rails nv c val evs /\
       forall s1, cs_chan s1 = c -> data_rails_value (after_events evs nv) s1 = Ok (decoded c val, s1)) s.
Proof.
  intros Hs [Hc|(d & a & b & Hl)] Hsg Hx.
  - eapply wpe_mono; [by eapply emits_set_all_data_rails|].
    intros [] s' (_ & _ & evs & He & Hp). exists evs. split_and!; [done|by apply encoding_drives|].
    intros s1 Hs1. unfold after_events. rewrite Hp, (data_rails_read _ c val); [by apply sign_extend_decoded|done..|].
    by apply encoding_shows.
  - eapply wpe_mono; [by eapply emits_ledr|].
    intros [] s' (_ & _ & evs & He & Hp). exists evs. split_and!; [done| |].
    + unfold drives_rails. destruct Hl as [-> Hr Hd _ Ha Hb]. by exists d, a, b.
    + intros s1 Hs1. unfold after_events. rewrite Hp. by apply ledr_read.
Qed.

(** the bound of signed data.  On a signed channel of more than 32 bits
    the mask of the sign bit is a shift of an int by at least its width: to
    read the rails is undefined behaviour, whatever valid value they show. *)
Theorem wide_signed_data_undefined (nv : nat -> res value_enum) (c : channel) (s : cstate) (val : Z) :
  cs_chan s = c -> carries c val -> is_signed c = true -> can_be_signed c = true -> 32 < value_width c ->
  (if has_digits c then shows_digits nv c val else shows_bits nv c val) ->
  data_rails_value nv s = Err F_undef.
Proof.
  intros Hs Hc Hsg Hcs Hw Hsh. rewrite (data_rails_read _ c val) by done.
  destruct (signed_width c val Hc Hcs) as (_ & _ & Hor).
  unfold sign_extend, bind at 1. cbn [chan gets]. rewrite Hs, Hsg.
  assert (Nat.eqb (radix c) 2 || data_is_bundled c = true) as ->.
  { destruct Hor as [-> | ->]; [done|apply orb_true_r]. }
  fold (value_width c). unfold int_shl_1, require, bind.
  destruct (Z.ltb_spec (value_width c - 1) 32); [lia|]. by rewrite andb_false_r.
Qed.

(** ** Examples *)

(** The rails [first], [first + 1], ... *)
Definition ex_channel (type : channel_types) (b r first : nat) (flags : Z) : channel :=
  set_ch_flags flags (set_ch_data (seq first (b * r)) (set_radix r (set_bundles b (set_ch_type type
    (channel_construct real_zero))))).
Definition quiet_env : Env := {|
  env_rand48 := fun _ => real_zero; env_lrand48 := fun n => Z.of_nat n; env_garbage := real_zero;
  env_log := fun t => t; env_shuffle := fun _ l => l; env_GND := 1%nat; env_Vdd := 2%nat
|}.
Definition ex_state (c : channel) : cstate := mkCS c (mkRng 0 0) [] [].

(** Two digits of base 4; a negative number on a bus of 40 inverted rails. *)
Definition ex_1of4 : channel := set_ch_values [(27, false)] (ex_channel CHANNEL_TYPE_1ofN 2 4 3 0).
Definition ex_wide : channel :=
  ex_channel CHANNEL_TYPE_BD_4P 1 40 3 (Z.lor CHANNEL_SIGNED CHANNEL_DATA_ACTIVE_SENSE).

Lemma ex_carries : carries ex_1of4 27.
Proof. split; [done|cbn; lia|apply NoDup_seq|done|left; split; [done|right; done]]. Qed.
Lemma ex_wide_carries : carries ex_wide (2 ^ 39).
Proof. split; [done|cbn; lia|apply NoDup_seq|done|by right]. Qed.

(** A level-encoded channel of inverted rails 4 and 3, both low: the value 1
    is there already, and the repeat rail changes; then 0 is sent. *)
Definition ex_ledr (val : Z) : channel :=
  set_valid_signal 3 (set_ch_values [(val, false)] (ex_channel CHANNEL_TYPE_LEDR 1 1 4 CHANNEL_DATA_ACTIVE_SENSE)).
Definition low_nodes (n : nat) : res value_enum := Ok LOGIC_LOW.

Lemma ex_ledr_ready val : ledr_ready low_nodes (ex_ledr val) 4 false false.
Proof. by split. Qed.

Definition round_trip_at (nv : nat -> res value_enum) (c : channel) (val : Z) (read : Z) : Prop :=
  wpe (fun f => f = F_fuel) (set_all_data_rails (env := quiet_env) nv)
    (fun _ s' => exists evs, cs_events s' = [] ++ evs /\ drives_rails nv c val evs /\
       forall s1, cs_chan s1 = c -> data_rails_value (after_events evs nv) s1 = Ok (read, s1)) (ex_state c).

Lemma data_round_trip_witness :
  round_trip_at (fun _ => Ok LOGIC_OTHER) ex_1of4 27 11 /\
  round_trip_at low_nodes (ex_ledr 1) 1 1 /\ round_trip_at low_nodes (ex_ledr 6) 6 0.
Proof.
  split_and!.
  - exact (@data_round_trip quiet_env (fun _ => Ok LOGIC_OTHER) ex_1of4 (ex_state ex_1of4) 27 false
      eq_refl (or_introl ex_carries) (fun H => False_ind _ (eq_true_false_abs _ H eq_refl)) eq_refl).
  - exact (@data_round_trip quiet_env low_nodes (ex_ledr 1) (ex_state (ex_ledr 1)) 1 false eq_refl
      (or_intror (ex_intro _ 4%nat (ex_intro _ false (ex_intro _ false (ex_ledr_ready 1)))))
      (fun H => False_ind _ (eq_true_false_abs _ H eq_refl)) eq_refl).
  - exact (@data_round_trip quiet_env low_nodes (ex_ledr 6) (ex_state (ex_ledr 6)) 6 false eq_refl
      (or_intror (ex_intro _ 4%nat (ex_intro _ false (ex_intro _ false (ex_ledr_ready 6)))))
      (fun H => False_ind _ (eq_true_false_abs _ H eq_refl)) eq_refl).
Defined.

Example ex_ledr_events :
  (exists s, set_all_data_rails (env := quiet_env) low_nodes (ex_state (ex_ledr 1)) = Ok (tt, s) /\
     map ev_pair (cs_events s) = [(3%nat, LOGIC_HIGH)]) /\
  (exists s, set_all_data_rails (env := quiet_env) low_nodes (ex_state (ex_ledr 6)) = Ok (tt, s) /\
     map ev_pair (cs_events s) = [(4%nat, LOGIC_HIGH)]).
Proof. split; eexists; split; vm_compute; reflexivity. Qed.

Definition ex_wide_nodes (n : nat) : res value_enum :=
  Ok (rail_level ex_wide (Z.testbit (2 ^ 39) (Z.of_nat (n - 3)))).
Lemma ex_wide_shows : shows_bits ex_wide_nodes ex_wide (2 ^ 39).
Proof.
  intros k Hk. unfold ex_wide_nodes. do 3 f_equal. unfold node_at, rail. cbn [ex_wide ex_channel] in *.
  rewrite (lookup_seq_lt 3 40 k Hk : ch_data ex_wide !! (0 * radix ex_wide + k)%nat = Some (3 + k)%nat). cbn. lia.
Qed.
Lemma wide_signed_data_undefined_witness :
  data_rails_value ex_wide_nodes (ex_state ex_wide) = Err F_undef.
Proof.
  exact (wide_signed_data_undefined ex_wide_nodes ex_wide (ex_state ex_wide) (2 ^ 39) eq_refl ex_wide_carries
           eq_refl eq_refl eq_refl ex_wide_shows).
Defined.
