(* ===== verification/ChannelProps.v ===== *)
(** Invariants of a channel at work: what its computations leave alone, and the
    counters of its data rails. *)
From S2P Require Import Prelude SimTime PullSet Expr OrdMap Node ProcGraph.
From S2P Require Import State Events Schedule Step Channel ChannelData.
Open Scope Z_scope.
Local Open Scope hackt_scope.
#[local] Abbreviation length := Datatypes.length.

(** ** The frame of a channel

    Everything but the sequence of values and the flags that say what the
    channel is doing. *)
Definition activity_flags : Z := Z.lor CHANNEL_SOURCING (Z.lor CHANNEL_EXPECTING CHANNEL_STOPPED).
Definition frame (c : channel) : channel :=
  set_ch_values [] (set_value_index 0%nat (set_iteration 0%nat (set_inject_expect_file String.EmptyString
    (set_ch_flags (Z.ldiff (ch_flags c) activity_flags) c)))).
(** What it counts, too. *)
Definition structure (c : channel) : channel := set_counters (0, 0) (frame c).

Section Keeps.
Context {X : Type} (p : channel -> X).
Definition keeps {A} (m : CM A) : Prop := forall s a s', m s = Ok (a, s') -> p (cs_chan s') = p (cs_chan s).

Lemma p_keeps_bind {A B} (m : CM A) (k : A -> CM B) : keeps m -> (forall a, keeps (k a)) -> keeps (bind m k).
Proof. intros Hm Hk s b s' E. apply bind_ok in E as (a & s1 & E1 & E2). rewrite (Hk _ _ _ _ E2). by eapply Hm. Qed.
Lemma keeps_readonly {A} (m : CM A) : readonly m -> keeps m.
Proof. intros Hm s a s' E. by rewrite (Hm _ _ _ E). Qed.
Lemma p_keeps_modify g : (forall s, p (cs_chan (g s)) = p (cs_chan s)) -> keeps (modify g).
Proof. intros Hg s a s' [= _ <-]. apply Hg. Qed.
Lemma keeps_cupd f : (forall c, p (f c) = p c) -> keeps (cupd f).
Proof. intros Hf. apply p_keeps_modify. intros s. apply Hf. Qed.
Lemma p_keeps_when b m : keeps m -> keeps (when b m).
Proof. destruct b; [done|]. intros _. apply keeps_readonly, readonly_ret. Qed.
Lemma keeps_for_each {A} (l : list A) (body : A -> CM unit) : (forall x, keeps (body x)) -> keeps (for_each l body).
Proof.
  intros Hb. induction l as [|x l IH]; [apply keeps_readonly, readonly_ret|]. by apply p_keeps_bind.
Qed.
Lemma keeps_wlp {A} (m : CM A) s : keeps m -> wlp m (fun _ s' => p (cs_chan s') = p (cs_chan s)) s.
Proof. intros Hm. unfold wpe. destruct (m s) as [[a s']|f] eqn:E; [by eapply Hm|done]. Qed.
End Keeps.

#[export] Hint Resolve keeps_readonly : hackt_ro.
Create HintDb hackt_keeps.

(** Proves that a computation keeps the frame. *)
Ltac solve_keeps :=
  repeat (match goal with
  | |- forall _, _ => intro
  | |- keeps _ (bind _ _) => apply p_keeps_bind
  | |- keeps _ (when _ _) => apply p_keeps_when
  | |- keeps _ (for_each _ _) => apply keeps_for_each
  | |- keeps _ (match ?x with _ => _ end) => destruct x
  | |- keeps _ (ret _) => apply keeps_readonly, readonly_ret
  | |- keeps _ (fail _) => apply keeps_readonly, readonly_fail
  | |- keeps _ (gets _) => apply keeps_readonly, readonly_gets
  | |- keeps _ (require _ _) => apply keeps_readonly, readonly_require
  | |- keeps _ (of_option _ _) => apply keeps_readonly, readonly_of_option
  | |- keeps _ (lift_res _) => apply keeps_readonly, readonly_lift_res
  | |- keeps _ (fold_m _ _ _) => apply keeps_readonly; solve [solve_readonly]
  | |- keeps _ _ => solve [auto with hackt_keeps]
  end).

Lemma ldiff_put b f m a : Z.ldiff m a = 0 -> Z.ldiff (put_flag b f m) a = Z.ldiff f a.
Proof.
  intros Hm. unfold put_flag, set_flag, clear_flag. apply Z.bits_inj'. intros i Hi.
  assert (Z.testbit (Z.ldiff m a) i = false) as Hmi by (rewrite Hm; apply Z.bits_0).
  rewrite Z.ldiff_spec in Hmi. destruct b; rewrite !Z.ldiff_spec, ?Z.lor_spec, ?Z.land_spec, ?Z.lnot_spec by done;
    destruct (Z.testbit f i), (Z.testbit m i), (Z.testbit a i); done.
Qed.

Lemma frame_put_flag b m c : Z.ldiff m activity_flags = 0 -> frame (put_ch_flag b m c) = frame c.
Proof. intros Hm. unfold frame, put_ch_flag. cbn. by rewrite ldiff_put. Qed.

(** Fields that the frame determines. *)
Lemma frame_fields c c' : frame c = frame c' ->
  ch_type c = ch_type c' /\ ack_signal c = ack_signal c' /\ valid_signal c = valid_signal c' /\
  ch_data c = ch_data c' /\ bundles c = bundles c' /\ radix c = radix c' /\
  counter_state c = counter_state c' /\ x_counter c = x_counter c' /\ ch_name c = ch_name c' /\
  Z.ldiff (ch_flags c) activity_flags = Z.ldiff (ch_flags c') activity_flags.
Proof. unfold frame. destruct c, c'. cbn. intros [=]. split_and!; done. Qed.

Lemma frame_sense c c' m : frame c = frame c' -> Z.land m activity_flags = 0 -> ch_flag m c = ch_flag m c'.
Proof.
  intros (_ & _ & _ & _ & _ & _ & _ & _ & _ & Hf)%frame_fields Hm. unfold ch_flag, has_flag.
  assert (forall f, Z.land f m = Z.land (Z.ldiff f activity_flags) m) as Hl.
  { intros f. apply Z.bits_inj'. intros i Hi.
    assert (Z.testbit (Z.land m activity_flags) i = false) as Hmi by (rewrite Hm; apply Z.bits_0).
    rewrite Z.land_spec in Hmi. rewrite !Z.land_spec, Z.ldiff_spec by done.
    destruct (Z.testbit f i), (Z.testbit m i), (Z.testbit activity_flags i); done. }
  by rewrite Hl, Hf, <- Hl.
Qed.

Section Frame.
Context {env : Env} (nv : nat -> res value_enum) (pol : error_policy_enum) (id : nat).

Lemma keeps_get_value ni : keeps frame (get_value nv ni).
Proof. unfold get_value. solve_keeps. Qed.
Lemma keeps_drive ni v : keeps frame (drive ni v).
Proof.
  unfold drive, ENV_EVENT, event_delay, push_event, draw_uniform, draw_exponential, chan.
  solve_keeps; by apply p_keeps_modify.
Qed.
#[local] Hint Resolve keeps_get_value keeps_drive : hackt_keeps.
Lemma keeps_toggle ni : keeps frame (toggle nv ni).
Proof. unfold toggle. solve_keeps. Qed.
Lemma keeps_drive_ack b : keeps frame (drive_ack b).
Proof. unfold drive_ack, chan. solve_keeps. Qed.
Lemma keeps_drive_valid b : keeps frame (drive_valid b).
Proof. unfold drive_valid, chan. solve_keeps. Qed.
Lemma keeps_x_ack : keeps frame x_ack_signal.
Proof. unfold x_ack_signal, chan. solve_keeps. Qed.
Lemma keeps_x_valid : keeps frame x_valid_signal.
Proof. unfold x_valid_signal, chan. solve_keeps. Qed.
Lemma keeps_frame_upd f : (forall c, frame (f c) = frame c) -> keeps frame (cupd f).
Proof. apply keeps_cupd. Qed.
#[local] Hint Resolve keeps_toggle keeps_drive_ack keeps_drive_valid keeps_x_ack keeps_x_valid : hackt_keeps.
#[local] Hint Extern 4 (keeps frame (cupd _)) => apply keeps_cupd; intros []; reflexivity : hackt_keeps.
Lemma keeps_stop : keeps frame (cupd ch_stop).
Proof. apply keeps_cupd. intros c. by apply frame_put_flag. Qed.
#[local] Hint Resolve keeps_stop : hackt_keeps.

Lemma keeps_advance_value : keeps frame advance_value.
Proof. unfold advance_value, draw_value, chan. solve_keeps; by apply p_keeps_modify. Qed.
Lemma keeps_drive_all v : keeps frame (drive_all v).
Proof. unfold drive_all, chan. solve_keeps. Qed.
Lemma keeps_get_rail j k : keeps frame (get_rail j k).
Proof. unfold get_rail, chan. solve_keeps. Qed.
Lemma keeps_get_ledr_rail : keeps frame get_ledr_rail.
Proof. unfold get_ledr_rail, chan. solve_keeps. Qed.
#[local] Hint Resolve keeps_advance_value keeps_drive_all keeps_get_rail keeps_get_ledr_rail : hackt_keeps.
Lemma keeps_reset_all : keeps frame reset_all_data_rails.
Proof. unfold reset_all_data_rails, chan. solve_keeps. Qed.
Lemma keeps_X_all : keeps frame X_all_data_rails.
Proof. unfold X_all_data_rails, chan. solve_keeps. Qed.
Lemma keeps_drive_binary n j v : keeps frame (drive_binary n j v).
Proof. revert j v. induction n as [|n IH]; intros j v; cbn [drive_binary]; unfold chan; solve_keeps. Qed.
Lemma keeps_drive_digits n j v : keeps frame (drive_digits n j v).
Proof.
  revert j v. induction n as [|n IH]; intros j v; cbn [drive_digits]; unfold chan, drive_digit, chan; solve_keeps.
Qed.
Lemma keeps_drive_bus n j v : keeps frame (drive_bus n j v).
Proof. revert j v. induction n as [|n IH]; intros j v; cbn [drive_bus]; unfold chan; solve_keeps. Qed.
#[local] Hint Resolve keeps_reset_all keeps_X_all keeps_drive_binary keeps_drive_digits keeps_drive_bus : hackt_keeps.
Lemma keeps_set_all : keeps frame (set_all_data_rails nv).
Proof.
  unfold set_all_data_rails, set_ledr_rails, chan. solve_keeps.
  apply keeps_cupd. intros c. rewrite <- (frame_put_flag false CHANNEL_SOURCING c) by done. by destruct c.
Qed.
#[local] Hint Resolve keeps_set_all : hackt_keeps.

(** What only reads. *)
Lemma ro_get_value ni : readonly (get_value nv ni : CM value_enum).
Proof. unfold get_value. solve_readonly. Qed.
Lemma ro_get_rail j k : readonly (get_rail j k : CM nat).
Proof. unfold get_rail, chan. solve_readonly. Qed.
Lemma ro_get_ledr_rail : readonly (get_ledr_rail : CM nat).
Proof. unfold get_ledr_rail, chan. solve_readonly. Qed.
#[local] Hint Resolve ro_get_value ro_get_rail ro_get_ledr_rail : hackt_ro.
Lemma ro_read_digits n acc : readonly (read_digits nv n acc).
Proof.
  revert acc. induction n as [|n IH]; intros acc; cbn [read_digits]; unfold chan, read_digit, read_rail, chan;
    solve_readonly.
Qed.
Lemma ro_read_bus n acc : readonly (read_bus nv n acc).
Proof. revert acc. induction n as [|n IH]; intros acc; cbn [read_bus]; unfold read_rail, chan; solve_readonly. Qed.
Lemma ro_sign_extend v : readonly (sign_extend v).
Proof. unfold sign_extend, int_shl_1, chan. solve_readonly. Qed.
#[local] Hint Resolve ro_read_digits ro_read_bus ro_sign_extend : hackt_ro.
Lemma ro_data_rails_value : readonly (data_rails_value nv).
Proof. unfold data_rails_value, chan. solve_readonly. Qed.
#[local] Hint Resolve ro_data_rails_value : hackt_ro.
Lemma ro_current_parity l p : readonly (current_parity nv l p).
Proof. revert p. induction l as [|ni l IH]; intros p; cbn [current_parity]; solve_readonly. Qed.
#[local] Hint Resolve ro_current_parity : hackt_ro.
Lemma ro_current_ledr_parity : readonly (current_ledr_parity nv).
Proof. unfold current_ledr_parity, chan. solve_readonly. Qed.
#[local] Hint Resolve ro_current_ledr_parity : hackt_ro.
Lemma ro_summarize_status : readonly (summarize_status nv).
Proof.
  unfold summarize_status, summarize_signals, summarize_bundled, summarize_1ofN, summarize_LEDR, current_bd2p_parity,
    chan. solve_readonly.
Qed.
#[local] Hint Resolve ro_summarize_status : hackt_ro.
#[local] Hint Extern 5 (keeps frame _) => apply keeps_readonly; solve [auto with hackt_ro] : hackt_keeps.

(** What a channel does after it has counted. *)
Lemma keeps_process_data : keeps frame (process_data nv pol id).
Proof.
  unfold process_data, log_data, expect_value, throw_mismatch, put_exception, chan.
  solve_keeps; (apply p_keeps_modify; done) ||
  (apply keeps_cupd; intros c; rewrite <- (frame_put_flag false CHANNEL_EXPECTING c) by done; by destruct c).
Qed.
#[local] Hint Resolve keeps_process_data : hackt_keeps.
Lemma keeps_send_next : keeps frame (send_next nv).
Proof. unfold send_next. solve_keeps. Qed.
Lemma keeps_follow st : keeps frame (follow_validity st).
Proof. unfold follow_validity. solve_keeps. Qed.
Lemma keeps_sink_data b : keeps frame (sink_data b).
Proof. unfold sink_data, chan. solve_keeps. Qed.
Lemma keeps_push_event e : keeps frame (push_event e).
Proof. by apply p_keeps_modify. Qed.
#[local] Hint Resolve keeps_send_next keeps_follow keeps_sink_data keeps_push_event : hackt_keeps.
Lemma keeps_set_bd st : keeps frame (set_bd_data_req nv st).
Proof. unfold set_bd_data_req, chan. solve_keeps. Qed.
#[local] Hint Resolve keeps_set_bd : hackt_keeps.
Lemma keeps_ack_1ofN : keeps frame (ack_1ofN nv).
Proof. unfold ack_1ofN, chan. solve_keeps. Qed.
Lemma keeps_valid_1ofN : keeps frame (valid_1ofN nv pol id).
Proof. unfold valid_1ofN, chan. solve_keeps. Qed.
Lemma keeps_ack_LEDR : keeps frame (ack_LEDR nv).
Proof. unfold ack_LEDR, chan. solve_keeps. Qed.
Lemma keeps_clk_src ni : keeps frame (process_clk_src nv ni).
Proof. unfold process_clk_src, clock_tick, chan. solve_keeps. Qed.
#[local] Hint Resolve keeps_ack_1ofN keeps_valid_1ofN keeps_ack_LEDR keeps_clk_src : hackt_keeps.
End Frame.

(** ** The counters of the data rails *)
Definition rail_is (f : value_enum -> bool) (nv : nat -> res value_enum) (ni : nat) : bool :=
  match nv ni with Ok v => f v | Err _ => false end.
Definition rail_count (f : value_enum -> bool) (nv : nat -> res value_enum) (l : list nat) : nat :=
  length (List.filter (rail_is f nv) l).

(** The counters are the numbers of active and of unknown rails, and these fit
    into a byte. *)
Record counters_ok (nv : nat -> res value_enum) (c : channel) : Prop := {
  co_known : forall ni, ni ∈ ch_data c -> exists v, nv ni = Ok v;
  co_active : counter_state c = Z.of_nat (rail_count (is_active (get_data_sense c)) nv (ch_data c));
  co_x : x_counter c = Z.of_nat (rail_count is_x nv (ch_data c));
  co_byte : (length (ch_data c) <= 255)%nat
}.
(** The rails are different nodes, and no signals; with a clock there is no
    acknowledge. *)
Record separate (c : channel) : Prop := {
  se_rails : NoDup (ch_data c);
  se_ack : ack_signal c ∉ ch_data c;
  se_valid : valid_signal c ∉ ch_data c;
  se_clock : is_clocked c = true -> has_ack c = false
}.

Lemma rail_count_le f nv l : (rail_count f nv l <= length l)%nat.
Proof. apply filter_length_le. Qed.

Lemma rail_count_ext f nv nv' l : (forall ni, ni ∈ l -> nv ni = nv' ni) -> rail_count f nv l = rail_count f nv' l.
Proof.
  intros H. unfold rail_count. f_equal. apply filter_ext_in. intros ni Hni%list_elem_of_In.
  unfold rail_is. by rewrite H.
Qed.

Lemma rail_count_set f nv l ni prev next : NoDup l -> ni ∈ l -> nv ni = Ok prev ->
  (rail_count f (set_node ni next nv) l + Nat.b2n (f prev) = rail_count f nv l + Nat.b2n (f next))%nat.
Proof.
  intros Hnd Hin Hv. induction l as [|x l IH]; [by apply elem_of_nil in Hin|].
  apply NoDup_cons in Hnd as [Hx Hnd]. unfold rail_count in *. cbn [List.filter].
  destruct (decide (x = ni)) as [->|Hne].
  - assert (rail_count f (set_node ni next nv) l = rail_count f nv l) as Hl.
    { apply rail_count_ext. intros y Hy. unfold set_node. destruct (Nat.eqb_spec y ni); [by subst|done]. }
    unfold rail_count in Hl. assert (rail_is f (set_node ni next nv) ni = f next /\ rail_is f nv ni = f prev) as [-> ->].
    { unfold rail_is, set_node. by rewrite Nat.eqb_refl, Hv. }
    destruct (f prev), (f next); cbn; rewrite Hl; lia.
  - assert (rail_is f (set_node ni next nv) x = rail_is f nv x) as ->.
    { unfold rail_is, set_node. by apply Nat.eqb_neq in Hne as ->. }
    apply elem_of_cons in Hin as [?|Hin]; [done|]. specialize (IH Hnd Hin).
    destruct (rail_is f nv x); cbn; lia.
Qed.

Lemma rail_count_pos f nv l ni v : ni ∈ l -> nv ni = Ok v -> f v = true -> (0 < rail_count f nv l)%nat.
Proof.
  intros Hin Hv Hf. assert (In ni (List.filter (rail_is f nv) l)) as H.
  { apply filter_In. split; [by apply list_elem_of_In|]. unfold rail_is. by rewrite Hv. }
  unfold rail_count. destruct (List.filter _ _); [done|]. cbn. lia.
Qed.

Lemma counters_ok_frame nv nv' c c' : frame c = frame c' -> (forall ni, ni ∈ ch_data c -> nv ni = nv' ni) ->
  counters_ok nv c -> counters_ok nv' c'.
Proof.
  intros Hf Hnv [H1 H2 H3 H4]. pose proof (frame_sense c c' CHANNEL_DATA_ACTIVE_SENSE Hf eq_refl) as Hs.
  apply frame_fields in Hf as (_ & _ & _ & Hd & _ & _ & Hc & Hx & _). rewrite Hd in *. split; [|..].
  - intros ni Hni. rewrite <- Hnv by done. by apply H1.
  - rewrite <- Hc, H2. unfold get_data_sense. rewrite Hs. f_equal. by apply rail_count_ext.
  - rewrite <- Hx, H3. f_equal. by apply rail_count_ext.
  - done.
Qed.

(** A byte that counts: one less, one more. *)
Lemma count_step (n n' : nat) (p q : bool) :
  (n + Nat.b2n q = n' + Nat.b2n p)%nat -> (p = true -> 0 < n)%nat -> (n <= 255)%nat -> (n' <= 255)%nat ->
  (if q then uchar ((if p then uchar (Z.of_nat n - 1) else Z.of_nat n) + 1)
   else if p then uchar (Z.of_nat n - 1) else Z.of_nat n) = Z.of_nat n'.
Proof.
  intros E Hp Hn Hn'. unfold uchar, wrap. destruct p, q; cbn in E; rewrite ?Z.mod_small; try lia;
    specialize (Hp eq_refl); change (2 ^ 8) with 256; rewrite ?Z.mod_small; lia.
Qed.

Lemma update_counters nv s ni prev next :
  counters_ok nv (cs_chan s) -> NoDup (ch_data (cs_chan s)) -> ni ∈ ch_data (cs_chan s) -> nv ni = Ok prev ->
  wp (update_bd_data_counter prev next)
    (fun _ s' => (exists cx, s' = cput (set_counters cx (cs_chan s)) s) /\
       counters_ok (set_node ni next nv) (cs_chan s')) s.
Proof.
  intros [Hk Ha Hx Hb] Hnd Hin Hv. unfold update_bd_data_counter. apply wpe_bind, wpe_gets.
  set (c := cs_chan s) in *. set (act := is_active (get_data_sense c)) in *.
  assert (act prev = true -> 0 < rail_count act nv (ch_data c))%nat as Hap by (by eapply rail_count_pos).
  assert (is_x prev = true -> 0 < rail_count is_x nv (ch_data c))%nat as Hxp by (by eapply rail_count_pos).
  assert (forall b f n, (b = true -> 0 < n)%nat -> wp (when b (require f (negb (Z.of_nat n =? 0)))) (fun _ => eq s) s) as Hreq.
  { intros b f n Hn. apply wpe_when; [|done]. intros E. apply wpe_require; [done|].
    intros E1%negb_false_iff%Z.eqb_eq. specialize (Hn E). lia. }
  rewrite Ha, Hx. apply wpe_bind. eapply wpe_mono; [by apply Hreq|]. intros _ ? <-.
  apply wpe_bind. eapply wpe_mono; [by apply Hreq|]. intros _ ? <-.
  apply wpe_modify. split; [by eexists|].
  pose proof (rail_count_le act nv (ch_data c)). pose proof (rail_count_le is_x nv (ch_data c)).
  pose proof (rail_count_le act (set_node ni next nv) (ch_data c)).
  pose proof (rail_count_le is_x (set_node ni next nv) (ch_data c)).
  split; cbn.
  - intros n Hn. unfold set_node. destruct (Nat.eqb n ni); [by eexists|by apply Hk].
  - apply (count_step (rail_count act nv (ch_data c)) (rail_count act (set_node ni next nv) (ch_data c)));
      [|done|lia..].
    pose proof (rail_count_set act nv _ ni prev next Hnd Hin Hv). unfold act in *. lia.
  - apply (count_step (rail_count is_x nv (ch_data c)) (rail_count is_x (set_node ni next nv) (ch_data c)));
      [|done|lia..].
    pose proof (rail_count_set is_x nv _ ni prev next Hnd Hin Hv). lia.
  - done.
Qed.

(** *** Counting from scratch *)
Definition known_values (nv : nat -> res value_enum) (l : list nat) : list value_enum :=
  omap (fun ni => match nv ni with Ok v => Some v | Err _ => None end) l.

Lemma get_values_run nv l s : (forall ni, ni ∈ l -> exists v, nv ni = Ok v) ->
  get_values nv l s = Ok (known_values nv l, s).
Proof.
  unfold get_values. revert s. cut (forall acc s, (forall ni, ni ∈ l -> exists v, nv ni = Ok v) ->
    fold_m l acc (fun acc ni => v <- get_value nv ni ;; ret (acc ++ [v])) s = Ok (acc ++ known_values nv l, s)).
  { intros H s. by apply (H []). }
  induction l as [|ni l IH]; intros acc s Hk; cbn [fold_m].
  - unfold ret, known_values. by rewrite app_nil_r.
  - destruct (Hk ni) as [v Hv]; [by apply elem_of_cons; left|].
    unfold bind at 1 2, get_value, lift_res. rewrite Hv. cbn [ret].
    rewrite IH by (intros n Hn; apply Hk, elem_of_cons; by right).
    unfold known_values. cbn [omap list_omap]. rewrite Hv. by rewrite <- app_assoc.
Qed.

Lemma count_known f nv l : rail_count f nv l = length (List.filter f (known_values nv l)).
Proof.
  induction l as [|ni l IH]; [done|]. unfold rail_count, known_values in *. cbn [List.filter omap list_omap].
  unfold rail_is at 1. destruct (nv ni) as [v|]; [|done]. cbn [List.filter]. destruct (f v); cbn; by rewrite IH.
Qed.

Lemma uchar_add a b : uchar (uchar a + b) = uchar (a + b).
Proof. unfold uchar, wrap. by apply Z.add_mod_idemp_l. Qed.

Lemma count_rails_eq sense vs :
  count_rails sense vs = (uchar (Z.of_nat (length (List.filter (is_active sense) vs))),
                          uchar (Z.of_nat (length (List.filter is_x vs)))).
Proof.
  unfold count_rails.
  assert (forall n m, fold_left (fun cx v =>
      (if is_active sense v then uchar (cx.1 + 1) else cx.1, if is_x v then uchar (cx.2 + 1) else cx.2)) vs
      (uchar n, uchar m) =
    (uchar (n + Z.of_nat (length (List.filter (is_active sense) vs))),
     uchar (m + Z.of_nat (length (List.filter is_x vs))))) as H; [|by apply (H 0 0)].
  induction vs as [|v vs IH]; intros n m; cbn [fold_left List.filter]; [by rewrite !Z.add_0_r|]. cbn [fst snd].
  rewrite !uchar_add. destruct (is_active sense v), (is_x v); rewrite IH; cbn [length Datatypes.length];
    do 2 f_equal; lia.
Qed.

Definition counts : channel -> bool :=
  type_in [CHANNEL_TYPE_1ofN; CHANNEL_TYPE_CLK_1EDGE; CHANNEL_TYPE_CLK_2EDGE; CHANNEL_TYPE_BD_2P; CHANNEL_TYPE_BD_4P].

(** the width of the counters.  [initialize_data_counter] counts the
    active and the unknown rails modulo 256: the counters are right when there
    are at most 255 rails.  It throws just for a channel of digits with more
    active rails than digits, when the counters are set already. *)
Theorem initialize_counts_modulo_256 (nv : nat -> res value_enum) (s : cstate) :
  counts (cs_chan s) = true -> (forall ni, ni ∈ ch_data (cs_chan s) -> exists v, nv ni = Ok v) ->
  wp (initialize_data_counter nv)
    (fun thrown s' => let c := cs_chan s' in
       structure c = structure (cs_chan s) /\
       counter_state c = Z.of_nat (rail_count (is_active (get_data_sense c)) nv (ch_data c)) mod 256 /\
       x_counter c = Z.of_nat (rail_count is_x nv (ch_data c)) mod 256 /\
       ((length (ch_data c) <= 255)%nat -> counters_ok nv c) /\
       (thrown = true <-> ch_type c = CHANNEL_TYPE_1ofN /\ Z.of_nat (bundles c) < counter_state c)) s.
Proof.
  intros Hc Hk. unfold initialize_data_counter. apply wpe_bind, wpe_gets.
  set (c := cs_chan s) in *.
  set (cx := (uchar (Z.of_nat (rail_count (is_active (get_data_sense c)) nv (ch_data c))),
              uchar (Z.of_nat (rail_count is_x nv (ch_data c))))).
  assert (get_values nv (ch_data c) s = Ok (known_values nv (ch_data c), s)) as Hv by (by apply get_values_run).
  assert (count_rails (get_data_sense c) (known_values nv (ch_data c)) = cx) as Hcx.
  { unfold cx. by rewrite count_rails_eq, !count_known. }
  assert (let c' := set_counters cx c in structure c' = structure c /\
       counter_state c' = Z.of_nat (rail_count (is_active (get_data_sense c')) nv (ch_data c')) mod 256 /\
       x_counter c' = Z.of_nat (rail_count is_x nv (ch_data c')) mod 256 /\
       ((length (ch_data c') <= 255)%nat -> counters_ok nv c')) as (P1 & P2 & P3 & P4).
  { cbn zeta. split_and!; [done..|]. intros Hl. change (length (ch_data c) <= 255)%nat in Hl.
    assert (forall f, uchar (Z.of_nat (rail_count f nv (ch_data c))) = Z.of_nat (rail_count f nv (ch_data c))) as Hw.
    { intros f. apply wrap_small. change (2 ^ 8) with 256. pose proof (rail_count_le f nv (ch_data c)). lia. }
    split; [exact Hk|apply Hw..|exact Hl]. }
  unfold counts, type_in in Hc.
  destruct (ch_type c) eqn:Ht; try done; apply wpe_bind; unfold wpe at 1; rewrite Hv, Hcx;
    apply wpe_bind, wpe_modify, wpe_ret; (split; [exact P1|split; [exact P2|split; [exact P3|split; [exact P4|]]]]);
    match goal with |- ?b = true <-> _ =>
      cut (b = true <-> ch_type c = CHANNEL_TYPE_1ofN /\ Z.of_nat (bundles c) < cx.1); [exact id|] end;
    rewrite Ht, ?Z.ltb_lt; intuition discriminate.
Qed.

(** *** Counting along *)
Lemma structure_frame c c' : frame c = frame c' -> structure c = structure c'.
Proof. intros E. unfold structure. by rewrite E. Qed.

Section Process.
Context {env : Env} (nv : nat -> res value_enum) (pol : error_policy_enum) (id ni : nat) (prev next : value_enum).
#[local] Hint Resolve keeps_drive_ack keeps_drive_valid keeps_x_ack keeps_x_valid keeps_sink_data
  keeps_process_data keeps_X_all keeps_set_bd keeps_send_next keeps_toggle keeps_follow keeps_reset_all : hackt_keeps.
#[local] Hint Resolve ro_summarize_status : hackt_ro.
#[local] Hint Extern 5 (keeps frame _) => apply keeps_readonly; solve [auto with hackt_ro] : hackt_keeps.

(** A data rail is counted first; nothing else touches the counters. *)
Inductive counting : CM unit -> bool -> Prop :=
  | counting_rail m : keeps frame m -> counting (update_bd_data_counter prev next ;;; m) true
  | counting_only : counting (update_bd_data_counter prev next) true
  | counting_signal m : keeps frame m -> counting m false.

Lemma process_counting s :
  counts (cs_chan s) = true -> ni ∈ get_all_nodes (cs_chan s) -> separate (cs_chan s) ->
  exists m b, counting m b /\ channel_process_node nv pol id ni prev next s = m s /\
    (b = true <-> ni ∈ ch_data (cs_chan s)).
Proof.
  intros Hc Hin [_ Hack Hvalid Hclk]. set (c := cs_chan s) in *.
  assert (ni = ack_signal c -> ni ∉ ch_data c) as Ha by (by intros ->).
  assert (ni = valid_signal c -> ni ∉ ch_data c) as Hv by (by intros ->).
  assert (has_ack c && Nat.eqb ni (ack_signal c) = false ->
          has_valid c && Nat.eqb ni (valid_signal c) = false -> ni ∈ ch_data c) as Hd.
  { unfold get_all_nodes in Hin. intros E1 E2. apply elem_of_app in Hin as [Hin|Hin].
    - destruct (has_ack c); [|by apply elem_of_nil in Hin].
      apply list_elem_of_singleton in Hin as ->. by rewrite Nat.eqb_refl in E1.
    - apply elem_of_app in Hin as [Hin|Hin]; [|done]. destruct (has_valid c); [|by apply elem_of_nil in Hin].
      apply list_elem_of_singleton in Hin as ->. by rewrite Nat.eqb_refl in E2. }
  assert (forall m, keeps frame m -> ni ∉ ch_data c -> exists m' b, counting m' b /\ m s = m' s /\
            (b = true <-> ni ∈ ch_data c)) as Hsig.
  { intros m Hm Hn. exists m, false. split_and!; [by constructor|done..|by split]. }
  assert (forall x, x = ack_signal c \/ x = valid_signal c -> Nat.eqb ni x = true -> ni ∉ ch_data c) as Hx.
  { intros x [-> | ->] ->%Nat.eqb_eq; done. }
  assert (is_clocked c = true -> Nat.eqb ni (valid_signal c) = false -> ni ∈ ch_data c) as Hdc.
  { intros E1 E2. apply Hd; [by rewrite Hclk|by rewrite E2, andb_false_r]. }
  unfold channel_process_node. rewrite (bind_run _ _ _ _ _ (eq_refl : chan s = Ok (c, s))).
  assert (ch_type c <> CHANNEL_TYPE_1ofN -> ni ∈ ch_data c -> exists m' b, counting m' b /\
            update_bd_data_counter prev next s = m' s /\ (b = true <-> ni ∈ ch_data c)) as Hbus.
  { intros _ Hn. eexists _, true. split_and!; [constructor|done|by split]. }
  destruct (ch_type c) eqn:Ht; try (by unfold counts, type_in in Hc; rewrite Ht in Hc).
  - unfold process_1ofN. rewrite (bind_run _ _ _ _ _ (eq_refl : chan s = Ok (c, s))).
    destruct (has_ack c && Nat.eqb ni (ack_signal c)) eqn:E1.
    { apply Hsig; [apply keeps_ack_1ofN|]. apply Ha. by apply andb_true_iff in E1 as [_ ?%Nat.eqb_eq]. }
    destruct (has_valid c && Nat.eqb ni (valid_signal c)) eqn:E2.
    { apply Hsig; [apply keeps_valid_1ofN|]. apply Hv. by apply andb_true_iff in E2 as [_ ?%Nat.eqb_eq]. }
    eexists _, true. split_and!; [|done|split; [intros _; by apply Hd|done]].
    constructor. unfold chan. solve_keeps.
  - unfold process_BD_4P. rewrite (bind_run _ _ _ _ _ (eq_refl : chan s = Ok (c, s))).
    destruct (Nat.eqb ni (ack_signal c)) eqn:E1; [apply Hsig; [unfold chan; solve_keeps|by eapply Hx; [left|]]|].
    destruct (Nat.eqb ni (valid_signal c)) eqn:E2; [apply Hsig; [unfold chan; solve_keeps|by eapply Hx; [right|]]|].
    apply Hbus; [done|]. apply Hd; apply andb_false_r.
  - unfold process_BD_2P. rewrite (bind_run _ _ _ _ _ (eq_refl : chan s = Ok (c, s))).
    destruct (Nat.eqb ni (ack_signal c)) eqn:E1; [apply Hsig; [unfold chan; solve_keeps|by eapply Hx; [left|]]|].
    destruct (Nat.eqb ni (valid_signal c)) eqn:E2; [apply Hsig; [unfold chan; solve_keeps|by eapply Hx; [right|]]|].
    apply Hbus; [done|]. apply Hd; apply andb_false_r.
  - unfold process_clk_1edge, process_clocked. rewrite (bind_run _ _ _ _ _ (eq_refl : chan s = Ok (c, s))).
    destruct (Nat.eqb ni (clock_signal c)) eqn:E2; [apply Hsig; [unfold send_if_any, chan; solve_keeps|by eapply Hx; [right|]]|].
    apply Hbus; [done|]. apply Hdc; [unfold is_clocked, type_in; by rewrite Ht|done].
  - unfold process_clk_2edge, process_clocked. rewrite (bind_run _ _ _ _ _ (eq_refl : chan s = Ok (c, s))).
    destruct (Nat.eqb ni (clock_signal c)) eqn:E2; [apply Hsig; [unfold send_if_any, chan; solve_keeps|by eapply Hx; [right|]]|].
    apply Hbus; [done|]. apply Hdc; [unfold is_clocked, type_in; by rewrite Ht|done].
Qed.
End Process.

Lemma counting_correct {env : Env} nv prev next m b s ni :
  counting prev next m b -> (b = true <-> ni ∈ ch_data (cs_chan s)) -> NoDup (ch_data (cs_chan s)) ->
  counters_ok nv (cs_chan s) -> nv ni = Ok prev ->
  wlp m (fun _ s' => structure (cs_chan s') = structure (cs_chan s) /\
           counters_ok (set_node ni next nv) (cs_chan s')) s.
Proof.
  intros Hm Hb Hnd Hc Hv.
  assert (forall (m : CM unit) s1, keeps frame m -> counters_ok (set_node ni next nv) (cs_chan s1) ->
    structure (cs_chan s1) = structure (cs_chan s) ->
    wlp m (fun _ s' => structure (cs_chan s') = structure (cs_chan s) /\
             counters_ok (set_node ni next nv) (cs_chan s')) s1) as Hrest.
  { intros m1 s1 Hm1 Hc1 Hs1. eapply wpe_mono; [by apply (keeps_wlp frame)|]. intros [] s2 Hf. split.
    - by rewrite (structure_frame _ _ Hf).
    - eapply counters_ok_frame; [symmetry; exact Hf|done|done]. }
  destruct Hm as [m Hm| |m Hm].
  - apply wpe_bind. eapply wpe_mono; [eapply wpe_weaken; [|apply (update_counters nv); try done; by apply Hb]; done|].
    intros [] s1 [[cx Hs1] Hc1]. apply Hrest; [done..|]. by rewrite Hs1.
  - eapply wpe_mono; [eapply wpe_weaken; [|apply (update_counters nv); try done; by apply Hb]; done|].
    intros [] s1 [[cx Hs1] Hc1]. split; [by rewrite Hs1|done].
  - apply Hrest; [done| |done]. eapply counters_ok_frame; [done| |exact Hc].
    intros n Hn. unfold set_node. destruct (Nat.eqb_spec n ni) as [->|]; [|done].
    by apply Hb in Hn.
Qed.

(** C10: the counters of a channel with data rails stay the numbers of its
    active and of its unknown rails.  When a node of the channel changes from
    [prev] to [next] and the channel reacts, by whatever part of its protocol,
    the counters are right for the new values, and the nodes, the sizes and the
    senses of the channel are as before. *)
Theorem process_node_counters {env : Env} (nv : nat -> res value_enum) (pol : error_policy_enum) (id ni : nat)
    (prev next : value_enum) (s : cstate) :
  counts (cs_chan s) = true -> separate (cs_chan s) -> ni ∈ get_all_nodes (cs_chan s) ->
  counters_ok nv (cs_chan s) -> nv ni = Ok prev ->
  wlp (channel_process_node (set_node ni next nv) pol id ni prev next)
    (fun _ s' => structure (cs_chan s') = structure (cs_chan s) /\
       counters_ok (set_node ni next nv) (cs_chan s')) s.
Proof.
  intros Hc Hsep Hin Hok Hv.
  destruct (process_counting (set_node ni next nv) pol id ni prev next s Hc Hin Hsep) as (m & b & Hm & E & Hb).
  unfold wpe. rewrite E. eapply counting_correct; [exact Hm|done|apply Hsep|done..].
Qed.

(** *** Examples *)

(** A bus of 256 unknown rails. *)
Definition ex_bus256 : channel := ex_channel CHANNEL_TYPE_BD_4P 1 256 3 0.
Lemma initialize_counts_modulo_256_witness :
  wp (initialize_data_counter (fun _ => Ok LOGIC_OTHER))
    (fun thrown s' => let c := cs_chan s' in
       structure c = structure ex_bus256 /\
       counter_state c = Z.of_nat (rail_count (is_active (get_data_sense c)) (fun _ => Ok LOGIC_OTHER) (ch_data c)) mod 256 /\
       x_counter c = Z.of_nat (rail_count is_x (fun _ => Ok LOGIC_OTHER) (ch_data c)) mod 256 /\
       ((length (ch_data c) <= 255)%nat -> counters_ok (fun _ => Ok LOGIC_OTHER) c) /\
       (thrown = true <-> ch_type c = CHANNEL_TYPE_1ofN /\ Z.of_nat (bundles c) < counter_state c))
    (ex_state ex_bus256) /\
  Z.of_nat (rail_count is_x (fun _ => Ok LOGIC_OTHER) (ch_data ex_bus256)) mod 256 = 0.
Proof.
  split; [|by vm_compute].
  exact (initialize_counts_modulo_256 (fun _ => Ok LOGIC_OTHER) (ex_state ex_bus256) eq_refl
           (fun _ _ => ex_intro _ LOGIC_OTHER eq_refl)).
Defined.

(** A digit of base 2 on the nodes 3 and 4, with the enable 5. *)
Definition ex_e1of2 : channel :=
  set_x_counter 2 (set_ack_signal 5 (set_ch_values [(1, false)]
    (ex_channel CHANNEL_TYPE_1ofN 1 2 3 CHANNEL_SOURCING))).
Lemma ex_e1of2_separate : separate ex_e1of2.
Proof.
  split; [apply NoDup_seq|intros [H|[H|[]]]%list_elem_of_In; discriminate H..|done].
Qed.
Lemma ex_e1of2_counters : counters_ok (fun _ => Ok LOGIC_OTHER) ex_e1of2.
Proof. split; [by intros; eexists|done|done|cbn; lia]. Qed.
Lemma ex_e1of2_node : 3%nat ∈ get_all_nodes ex_e1of2.
Proof. apply list_elem_of_In. vm_compute. tauto. Qed.
Lemma process_node_counters_witness :
  wlp (channel_process_node (env := quiet_env) (set_node 3 LOGIC_LOW (fun _ => Ok LOGIC_OTHER)) ERROR_FATAL 0 3
         LOGIC_OTHER LOGIC_LOW)
    (fun _ s' => structure (cs_chan s') = structure ex_e1of2 /\
       counters_ok (set_node 3 LOGIC_LOW (fun _ => Ok LOGIC_OTHER)) (cs_chan s')) (ex_state ex_e1of2).
Proof.
  exact (process_node_counters (env := quiet_env) (fun _ => Ok LOGIC_OTHER) ERROR_FATAL 0 3 LOGIC_OTHER LOGIC_LOW
           (ex_state ex_e1of2) eq_refl ex_e1of2_separate ex_e1of2_node ex_e1of2_counters eq_refl).
Defined.

(** ** A source without an acknowledge *)

(** a source that was refused stays one.  On a channel of digits one of
    N, or of bundled data with a request, that has no acknowledge, every way to
    make it a source reports an error, but it leaves the channel sourcing; and
    then to resume it fails, in every state of its nodes. *)
Theorem refused_source_breaks_resume {env : Env} (nv : nat -> res value_enum) (args : list String.string) (loop : bool)
    (c : channel) (s : cstate) :
  ch_type c = CHANNEL_TYPE_1ofN \/ ch_type c = CHANNEL_TYPE_BD_4P -> has_ack c = false ->
  exists c', set_source_args args loop c = Ok (c', true) /\ set_rsource c = ((__configure_source false c).1, true) /\
    is_sourcing c' = true /\
    (cs_chan s = c' -> exists f, channel_resume nv s = Err f).
Proof.
  intros Ht Ha.
  assert (forall c3, ch_type c3 = ch_type c -> ack_signal c3 = ack_signal c ->
            negb (has_ack c3) && negb (can_source c3) = true) as Hno.
  { intros c3 E1 E2. unfold can_source, has_ack, is_clocked, type_in in *. rewrite E1, E2, Ha. by destruct Ht as [-> | ->]. }
  assert (forall l, exists c1, __configure_source l c = (c1, true) /\ is_sourcing c1 = true /\
            ch_type c1 = ch_type c /\ has_ack c1 = false) as Hcfg.
  { intros l. eexists. unfold __configure_source. split.
    - f_equal. apply Hno; by destruct l.
    - split_and!; [|by destruct l..].
      assert (forall x, has_flag (set_flag x CHANNEL_SOURCING) CHANNEL_SOURCING = true) as Hset
        by (intros x; apply (has_flag_put_same true x 4); lia).
      destruct l; [|apply Hset].
      unfold is_sourcing, ch_flag, put_ch_flag, put_flag, has_flag, set_flag. cbn [ch_flags set_ch_flags].
      rewrite Z.land_lor_distr_l. change (Z.land CHANNEL_VALUE_LOOP CHANNEL_SOURCING) with 0. rewrite Z.lor_0_r. apply Hset. }
  destruct (Hcfg loop) as (c1 & E1 & Hs & Ht1 & Ha1). exists c1. split_and!.
  - unfold set_source_args. by rewrite E1.
  - unfold set_rsource. destruct (Hcfg false) as (c2 & E2 & _). by rewrite E2.
  - done.
  - intros Hc. destruct (channel_resume nv s) as [[u s']|f] eqn:E; [exfalso|by exists f].
    set (c2 := put_ch_flag false CHANNEL_STOPPED c1) in *.
    assert (is_sourcing c2 = true) as Hs2.
    { unfold is_sourcing, ch_flag, c2, put_ch_flag, put_flag, clear_flag, has_flag in *. cbn [ch_flags set_ch_flags].
      rewrite <- Z.land_assoc. exact Hs. }
    unfold channel_resume in E. apply bind_ok in E as (u1 & s1 & E0 & E). injection E0 as _ <-. rewrite Hc in E. fold c2 in E.
    apply bind_ok in E as (st & s2 & Est & E). pose proof (ro_summarize_status nv _ _ _ Est) as ->.
    apply bind_ok in E as (c3 & s3 & Ec & E). injection Ec as <- <-. cbn [cs_chan cput] in E.
    change (ch_type c2) with (ch_type c1) in E. rewrite Ht1 in E.
    assert (forall (k1 k2 : CM unit) b, bind (when (is_sourcing c2) (require F_assert (has_ack c2) ;;; k1)) (fun _ => k2)
              (cput c2 s) <> Ok (u, b)) as Hreq.
    { intros k1 k2 b Hb. change (has_ack c2) with (has_ack c1) in Hb. by rewrite Hs2, Ha1 in Hb. }
    destruct Ht as [Ht|Ht]; rewrite Ht in E; unfold resume_1ofN, resume_BD_4P in E;
      apply bind_ok in E as (c4 & s4 & Ec & E); injection Ec as <- <-; cbn [cs_chan cput] in E; exact (Hreq _ _ _ E).
Qed.

Lemma refused_source_breaks_resume_witness :
  exists c', set_source_args [] false (ex_channel CHANNEL_TYPE_1ofN 1 2 3 0) = Ok (c', true) /\
    set_rsource (ex_channel CHANNEL_TYPE_1ofN 1 2 3 0) =
      ((__configure_source false (ex_channel CHANNEL_TYPE_1ofN 1 2 3 0)).1, true) /\
    is_sourcing c' = true /\
    (ex_channel CHANNEL_TYPE_1ofN 1 2 3 CHANNEL_SOURCING = c' ->
     exists f, channel_resume (env := quiet_env) (fun _ => Ok LOGIC_LOW)
       (ex_state (ex_channel CHANNEL_TYPE_1ofN 1 2 3 CHANNEL_SOURCING)) = Err f).
Proof.
  exact (refused_source_breaks_resume (env := quiet_env) (fun _ => Ok LOGIC_LOW) [] false
           (ex_channel CHANNEL_TYPE_1ofN 1 2 3 0) (ex_state (ex_channel CHANNEL_TYPE_1ofN 1 2 3 CHANNEL_SOURCING))
           (or_introl eq_refl) eq_refl).
Defined.
