(* ===== verification/Handshake.v ===== *)
(** The four-phase handshake: a channel that is a source and a sink at once
    plays both ends of it.  Its events happen in any order, and every one that
    changes its node is given to [channel_process_node]. *)
From S2P Require Import Prelude SimTime PullSet Expr OrdMap Node ProcGraph.
From S2P Require Import State Events Schedule Step Channel ChannelData ChannelProps.
Open Scope Z_scope.
Local Open Scope hackt_scope.
#[local] Abbreviation length := Datatypes.length.

(** ** A channel and its nodes *)
Record world : Type := mkWorld {
  w_nv : nat -> res value_enum   (* the values of the nodes *);
  w_chan : channel;
  w_rng : rng_state;
  w_pending : list env_event_type;
  w_exceptions : list step_exception;
  w_received : list Z   (* what the rails showed at each acknowledge *)
}.

(** The simulator schedules an event only if it changes the node. *)
Definition changes (nv : nat -> res value_enum) (e : env_event_type) : bool :=
  match nv (ee_node_index e) with Ok v => negb (value_eqb v (ee_value e)) | Err _ => true end.
Definition is_acknowledge (c : channel) (e : env_event_type) : bool :=
  Nat.eqb (ee_node_index e) (ack_signal c) && value_eqb (ee_value e) (level (get_ack_active c)).

Section World.
Context {env : Env} (pol : error_policy_enum) (id : nat).

Definition observe (nv : nat -> res value_enum) (e : env_event_type) (s : cstate) : list Z :=
  if is_acknowledge (cs_chan s) e then
    match data_rails_value nv s with Ok (v, _) => [v] | Err _ => [] end
  else [].
(** The channel acts on the values [nv]; what it wants is scheduled. *)
Definition act_in (nv : nat -> res value_enum) (m : CM unit) (rest : list env_event_type) (seen : list Z) (w : world)
    : res (unit * world) :=
  match m (mkCS (w_chan w) (w_rng w) [] (w_exceptions w)) with
  | Err f => Err f
  | Ok (_, s) => Ok (tt, mkWorld nv (cs_chan s) (cs_rng s) (rest ++ List.filter (changes nv) (cs_events s))
                     (cs_exceptions s) (w_received w ++ seen))
  end.
(** The event [e] happens, and leaves [rest]. *)
Definition react (e : env_event_type) (rest : list env_event_type) : M world unit :=
  fun w =>
    match w_nv w (ee_node_index e) with
    | Err f => Err f
    | Ok prev =>
        let nv := set_node (ee_node_index e) (ee_value e) (w_nv w) in
        act_in nv (channel_process_node nv pol id (ee_node_index e) prev (ee_value e)) rest
          (observe nv e (mkCS (w_chan w) (w_rng w) [] (w_exceptions w))) w
    end.
Definition start : M world unit :=
  fun w => act_in (w_nv w) (channel_resume (w_nv w)) (w_pending w) [] w.

(** Whatever the order of the events, the world is in [P] after [n] of them,
    and is not stuck before; only a random delay may run out of fuel. *)
Fixpoint inevitably (P : world -> Prop) (n : nat) (w : world) : Prop :=
  match n with
  | O => P w
  | S n' => w_pending w <> [] /\
      forall e rest, w_pending w ≡ₚ e :: rest ->
        wpe (fun f => f = F_fuel) (react e rest) (fun _ => inevitably P n') w
  end.

Lemma inevitably_trans P Q n m w :
  inevitably P n w -> (forall w', P w' -> inevitably Q m w') -> inevitably Q (n + m) w.
Proof.
  intros H HQ. revert w H. induction n as [|n IH]; intros w H; [by apply HQ|].
  destruct H as [Hne H]. split; [done|]. intros e rest Hp. eapply wpe_mono; [by apply H|].
  intros [] w' Hw. by apply IH.
Qed.
End World.

(** ** A channel that is ready for handshakes *)
Record ready (c : channel) : Prop := {
  rd_type : ch_type c = CHANNEL_TYPE_1ofN;
  rd_ack : has_ack c = true;
  rd_valid : has_valid c = false;
  rd_separate : separate c;
  rd_dims : dims_ok c;
  rd_radix : (0 < radix c)%nat;
  rd_bundles : (0 < bundles c)%nat;
  rd_byte : (length (ch_data c) <= 255)%nat;
  rd_sign : sign_ok 32 c;
  rd_sinking : is_sinking c = true;
  rd_expecting : is_expecting c = false
}.
(** What is left to send. *)
Definition remaining (c : channel) : list array_value_type := drop (value_index c) (ch_values c).

(** ** The active rails *)
Record actives (nv : nat -> res value_enum) (c : channel) (A : list nat) : Prop := {
  av_nodup : NoDup A;
  av_rails : A ⊆ ch_data c;
  av_values : forall n, n ∈ ch_data c -> nv n = Ok (rail_level c (bool_decide (n ∈ A)))
}.
Definition acked (nv : nat -> res value_enum) (c : channel) (a : bool) : Prop :=
  nv (ack_signal c) = Ok (level (Bool.eqb (get_ack_active c) a)).

Lemma rail_level_active c b : is_active (get_data_sense c) (rail_level c b) = b.
Proof. unfold is_active, rail_level, level. by destruct b, (get_data_sense c). Qed.
Lemma rail_level_not_x c b : is_x (rail_level c b) = false.
Proof. unfold rail_level, level. by destruct (xorb _ _). Qed.

Lemma actives_count nv c A : NoDup (ch_data c) -> actives nv c A ->
  rail_count (is_active (get_data_sense c)) nv (ch_data c) = length A /\ rail_count is_x nv (ch_data c) = 0%nat.
Proof.
  intros Hnd [HA Hsub Hv]. unfold rail_count. split.
  - apply Permutation_length, NoDup_Permutation; [by apply NoDup_ListNoDup, List.NoDup_filter, NoDup_ListNoDup|done|].
    intros n. rewrite list_elem_of_In, filter_In, <- list_elem_of_In. unfold rail_is. split.
    + intros [Hn E]. rewrite (Hv n Hn), rail_level_active in E. by apply bool_decide_eq_true in E.
    + intros Hn. split; [by apply Hsub|]. rewrite (Hv n (Hsub n Hn)), rail_level_active. by apply bool_decide_eq_true.
  - apply length_zero_iff_nil. destruct (List.filter _ _) as [|n l] eqn:E; [done|exfalso].
    assert (In n (n :: l)) as Hin by by left. rewrite <- E, filter_In, <- list_elem_of_In in Hin.
    destruct Hin as [Hn Hx]. unfold rail_is in Hx. by rewrite (Hv n Hn), rail_level_not_x in Hx.
Qed.

Lemma actives_counters nv c A : NoDup (ch_data c) -> actives nv c A -> counters_ok nv c ->
  counter_state c = Z.of_nat (length A) /\ x_counter c = 0.
Proof. intros Hnd HA [_ -> -> _]. by destruct (actives_count nv c A Hnd HA) as [-> ->]. Qed.

Lemma actives_perm nv c A A' : A ≡ₚ A' -> actives nv c A -> actives nv c A'.
Proof.
  intros E [H1 H2 H3]. split; [by rewrite <- E|by rewrite <- E|]. intros n Hn. rewrite (H3 n Hn).
  do 3 f_equal. apply bool_decide_ext. by rewrite E.
Qed.
Lemma actives_raise nv c A n : n ∈ ch_data c -> n ∉ A -> actives nv c A ->
  actives (set_node n (rail_level c true) nv) c (n :: A).
Proof.
  intros Hn HnA [H1 H2 H3]. split; [by apply NoDup_cons| |].
  - intros x [->|Hx]%elem_of_cons; [done|by apply H2].
  - intros x Hx. unfold set_node. destruct (Nat.eqb_spec x n) as [->|Hne].
    + rewrite bool_decide_true; [done|]. apply elem_of_cons. by left.
    + rewrite (H3 x Hx). do 3 f_equal. apply bool_decide_ext. rewrite elem_of_cons. tauto.
Qed.
Lemma actives_drop nv c A n : n ∉ A -> actives nv c (n :: A) -> actives (set_node n (rail_level c false) nv) c A.
Proof.
  intros HnA [H1 H2 H3]. split; [by apply NoDup_cons in H1 as [_ ?]| |].
  - intros x Hx. apply H2, elem_of_cons. by right.
  - intros x Hx. unfold set_node. destruct (Nat.eqb_spec x n) as [->|Hne].
    + by rewrite bool_decide_false.
    + rewrite (H3 x Hx). do 3 f_equal. apply bool_decide_ext. rewrite elem_of_cons. tauto.
Qed.
Lemma actives_other nv c A n v : n ∉ ch_data c -> actives nv c A -> actives (set_node n v nv) c A.
Proof.
  intros Hn [H1 H2 H3]. split; [done..|]. intros x Hx. unfold set_node.
  destruct (Nat.eqb_spec x n) as [->|_]; [done|by apply H3].
Qed.
Lemma actives_frame nv c c' A : frame c = frame c' -> actives nv c A -> actives nv c' A.
Proof.
  intros Hf [H1 H2 H3]. pose proof (frame_sense _ _ CHANNEL_DATA_ACTIVE_SENSE Hf eq_refl) as Hs.
  apply frame_fields in Hf as (_ & _ & _ & Hd & _). split; [done|by rewrite <- Hd|].
  intros n Hn. rewrite <- Hd in Hn. rewrite (H3 n Hn). unfold rail_level, get_data_sense. by rewrite Hs.
Qed.

(** ** The rails of a digit *)
Definition targets (c : channel) (v : Z) : list nat :=
  map (fun j => node_at c j (Z.to_nat (digit (radix c) v j))) (seq 0 (bundles c)).

Section Targets.
Context (c : channel) (v : Z) (Hd : dims_ok c) (Hnd : NoDup (ch_data c)) (Hr : (0 < radix c)%nat).

Lemma node_at_inj j k j' k' : (j < bundles c)%nat -> (k < radix c)%nat -> (j' < bundles c)%nat -> (k' < radix c)%nat ->
  node_at c j k = node_at c j' k' -> j = j' /\ k = k'.
Proof.
  intros Hj Hk Hj' Hk' E. pose proof (rail_node c j k Hd Hj Hk) as E1. pose proof (rail_node c j' k' Hd Hj' Hk') as E2.
  rewrite <- E in E2. unfold rail in E1, E2. pose proof (NoDup_lookup _ _ _ _ Hnd E1 E2) as Hi.
  apply (Nat.div_mod_unique (radix c)); lia.
Qed.
Lemma digit_range j : (Z.to_nat (digit (radix c) v j) < radix c)%nat.
Proof. assert (0 <= digit (radix c) v j < Z.of_nat (radix c)) by (apply Z.mod_pos_bound; lia). lia. Qed.

Lemma targets_at j k : (j < bundles c)%nat -> (k < radix c)%nat ->
  bool_decide (node_at c j k ∈ targets c v) = (Z.of_nat k =? digit (radix c) v j).
Proof.
  intros Hj Hk. assert (0 <= digit (radix c) v j < Z.of_nat (radix c)) by (apply Z.mod_pos_bound; lia).
  apply eq_true_iff_eq. rewrite bool_decide_eq_true, Z.eqb_eq. unfold targets.
  rewrite list_elem_of_In, in_map_iff. split.
  - intros (j' & E & Hj'%in_seq). symmetry in E.
    apply node_at_inj in E as [<- ->]; [|lia|done|lia|apply digit_range]. lia.
  - intros E. exists j. rewrite <- E, Nat2Z.id. split; [done|]. apply in_seq. lia.
Qed.

Lemma targets_nodup : NoDup (targets c v).
Proof.
  apply NoDup_alt. intros i i' x E1 E2. unfold targets in *.
  apply list_lookup_fmap_Some in E1 as (j & -> & Hj). apply list_lookup_fmap_Some in E2 as (j' & E & Hj').
  apply lookup_seq in Hj as [-> Hi]. apply lookup_seq in Hj' as [-> Hi'].
  by apply node_at_inj in E as [? _]; [|lia|apply digit_range|lia|apply digit_range].
Qed.
Lemma targets_length : length (targets c v) = bundles c.
Proof. unfold targets. by rewrite length_map, length_seq. Qed.
Lemma node_at_data j k : (j < bundles c)%nat -> (k < radix c)%nat -> node_at c j k ∈ ch_data c.
Proof. intros Hj Hk. eapply list_elem_of_lookup_2, (rail_node c j k); done. Qed.
Lemma targets_data : targets c v ⊆ ch_data c.
Proof.
  intros x Hx. apply list_elem_of_In, in_map_iff in Hx as (j & <- & Hj%in_seq).
  apply node_at_data; [lia|apply digit_range].
Qed.

Lemma list_by_fst {A} (l : list (nat * A)) d f : l.*1 = d -> (forall p, p ∈ l -> p.2 = f p.1) ->
  l = map (fun n => (n, f n)) d.
Proof.
  intros <- Hf. induction l as [|[n a] l IH]; [done|]. cbn.
  assert (a = f n) as -> by (apply (Hf (n, a)), elem_of_cons; by left). f_equal. apply IH.
  intros p Hp. apply Hf, elem_of_cons. by right.
Qed.

(** What is driven for [v], rail by rail. *)
Lemma digits_by_rail :
  digits_encoding c v = map (fun n => (n, rail_level c (bool_decide (n ∈ targets c v)))) (ch_data c).
Proof.
  apply list_by_fst; [by apply digits_encoding_nodes|]. intros p Hp.
  apply list_elem_of_In, in_concat in Hp as (r & Hr' & Hp). apply in_map_iff in Hr' as (j & <- & Hj%in_seq).
  apply in_map_iff in Hp as (k & <- & Hk%in_seq). cbn. by rewrite targets_at by lia.
Qed.

Lemma actives_shows nv A : A ≡ₚ targets c v -> actives nv c A -> shows_digits nv c v.
Proof.
  intros E HA j k Hj Hk. rewrite (av_values _ _ _ (actives_perm _ _ _ _ E HA)) by (by apply node_at_data).
  by rewrite targets_at.
Qed.
End Targets.

(** ** Which of the driven rails change *)
Definition changes_pair (nv : nat -> res value_enum) (p : nat * value_enum) : bool :=
  match nv p.1 with Ok v => negb (value_eqb v p.2) | Err _ => true end.

Lemma filter_changes nv l : map ev_pair (List.filter (changes nv) l) = List.filter (changes_pair nv) (map ev_pair l).
Proof.
  induction l as [|e l IH]; [done|]. cbn [List.filter map].
  change (changes_pair nv (ev_pair e)) with (changes nv e). destruct (changes nv e); cbn [map]; by rewrite IH.
Qed.

Lemma filter_rails nv c A q : NoDup (ch_data c) -> actives nv c A ->
  List.filter (changes_pair nv) (map (fun n => (n, rail_level c (q n))) (ch_data c)) =
  map (fun n => (n, rail_level c (q n))) (List.filter (fun n => xorb (q n) (bool_decide (n ∈ A))) (ch_data c)).
Proof.
  intros _ [_ _ Hv]. assert (forall n, n ∈ ch_data c -> nv n = Ok (rail_level c (bool_decide (n ∈ A)))) as H by done.
  clear Hv. revert H. generalize (ch_data c) as l. induction l as [|n l IH]; intros H; [done|].
  cbn [map List.filter]. rewrite IH by (intros x Hx; apply H, elem_of_cons; by right).
  assert (changes_pair nv (n, rail_level c (q n)) = xorb (q n) (bool_decide (n ∈ A))) as ->.
  { unfold changes_pair. cbn. rewrite (H n) by (apply elem_of_cons; by left).
    unfold rail_level, level. by destruct (q n), (bool_decide _), (get_data_sense c). }
  by destruct (xorb _ _).
Qed.

Lemma filter_in_perm (l A : list nat) : NoDup l -> NoDup A -> A ⊆ l ->
  List.filter (fun n => bool_decide (n ∈ A)) l ≡ₚ A.
Proof.
  intros Hl HA Hs. apply NoDup_Permutation; [by apply NoDup_ListNoDup, List.NoDup_filter, NoDup_ListNoDup|done|].
  intros n. rewrite list_elem_of_In, filter_In, <- list_elem_of_In, bool_decide_eq_true. split; [tauto|]. auto.
Qed.

Lemma map_ext_perm {B} (f g : nat -> B) l l' : l ≡ₚ l' -> (forall n, n ∈ l -> f n = g n) -> map f l ≡ₚ map g l'.
Proof.
  intros E H. rewrite <- E. erewrite map_ext_in; [done|]. intros n Hn%list_elem_of_In. by apply H.
Qed.

(** From neutral rails, those of the value; from any, those that are active. *)
Lemma changes_send nv c v : dims_ok c -> NoDup (ch_data c) -> (0 < radix c)%nat -> actives nv c [] ->
  List.filter (changes_pair nv) (digits_encoding c v) ≡ₚ map (fun n => (n, rail_level c true)) (targets c v).
Proof.
  intros Hd Hnd Hr HA. rewrite digits_by_rail, (filter_rails _ _ _ _ Hnd HA) by done.
  assert (List.filter (fun n => xorb (bool_decide (n ∈ targets c v)) (bool_decide (n ∈ []))) (ch_data c) =
          List.filter (fun n => bool_decide (n ∈ targets c v)) (ch_data c)) as ->.
  { apply filter_ext. intros n. rewrite (bool_decide_false (n ∈ [])) by apply not_elem_of_nil. apply xorb_false_r. }
  apply map_ext_perm; [apply filter_in_perm; [done|by apply targets_nodup|by apply targets_data]|].
  intros n Hn. apply list_elem_of_In, filter_In in Hn as [_ E]. by rewrite E.
Qed.
Lemma changes_reset nv c A : NoDup (ch_data c) -> actives nv c A ->
  List.filter (changes_pair nv) (map (fun n => (n, rail_level c false)) (ch_data c)) ≡ₚ
  map (fun n => (n, rail_level c false)) A.
Proof.
  intros Hnd HA. rewrite (filter_rails _ _ _ _ Hnd HA). apply map_ext_perm; [|done].
  cbn [xorb]. apply filter_in_perm; [done|apply HA..].
Qed.

(** ** What the channel does *)
Definition acts {A} (m : CM A) (s : cstate) (c' : channel) (l : list (nat * value_enum)) : Prop :=
  wpe (fun f => f = F_fuel) m
    (fun _ s' => cs_chan s' = c' /\ map ev_pair (cs_events s') = map ev_pair (cs_events s) ++ l) s.

Lemma acts_emits {A} (m : CM A) s l : emits m s l -> acts m s (cs_chan s) l.
Proof.
  intros H. eapply wpe_mono; [exact H|]. intros a s' (H1 & _ & evs & H2 & <-). split; [done|]. by rewrite H2, map_app.
Qed.
Lemma acts_bind {A B} (m : CM A) (k : A -> CM B) s c1 c2 l1 l2 :
  acts m s c1 l1 -> (forall a s1, cs_chan s1 = c1 -> acts (k a) s1 c2 l2) -> acts (bind m k) s c2 (l1 ++ l2).
Proof.
  intros Hm Hk. apply wpe_bind. eapply wpe_mono; [exact Hm|]. intros a s1 [H1 E1].
  eapply wpe_mono; [by apply Hk|]. intros b s2 [H2 E2]. split; [done|]. by rewrite E2, E1, app_assoc.
Qed.
Lemma acts_bind_nil {A B} (m : CM A) (k : A -> CM B) s c1 c2 l :
  acts m s c1 [] -> (forall a s1, cs_chan s1 = c1 -> acts (k a) s1 c2 l) -> acts (bind m k) s c2 l.
Proof. intros Hm Hk. exact (acts_bind m k s c1 c2 [] l Hm Hk). Qed.
Lemma acts_chan {B} (k : channel -> CM B) s c l : acts (k (cs_chan s)) s c l -> acts (bind chan k) s c l.
Proof. done. Qed.
Lemma acts_run {A B} (m : CM A) (k : A -> CM B) s a c l :
  m s = Ok (a, s) -> acts (k a) s c l -> acts (bind m k) s c l.
Proof. intros E H. unfold acts, wpe. by rewrite (bind_run _ _ _ _ _ E). Qed.
Lemma acts_ret {A} (a : A) s : acts (ret a) s (cs_chan s) [].
Proof. apply wpe_ret. by rewrite app_nil_r. Qed.

Section Acts.
Context {env : Env} (nv : nat -> res value_enum) (pol : error_policy_enum) (id : nat).

Lemma acts_drive_ack s c b : cs_chan s = c ->
  acts (drive_ack b) s c [(ack_signal c, level (Bool.eqb (get_ack_active c) b))].
Proof. intros <-. apply acts_chan, acts_emits, emits_drive. Qed.

Lemma emits_drive_all s c v : cs_chan s = c -> emits (drive_all v) s (map (fun n => (n, v)) (ch_data c)).
Proof.
  intros <-. unfold drive_all. apply emits_chan.
  assert (map (fun n => (n, v)) (ch_data (cs_chan s)) = concat (map (fun n => [(n, v)]) (ch_data (cs_chan s)))) as ->.
  { induction (ch_data _) as [|n l IH]; cbn; [done|by rewrite IH]. }
  apply emits_for_each with (c := cs_chan s); [done|]. intros n s1 _ _. apply emits_drive.
Qed.
Lemma acts_reset s c : cs_chan s = c -> ch_type c = CHANNEL_TYPE_1ofN ->
  acts reset_all_data_rails s c (map (fun n => (n, rail_level c false)) (ch_data c)).
Proof.
  intros Hs Ht. unfold reset_all_data_rails. apply acts_chan. rewrite Hs. unfold type_in. rewrite Ht. cbn [existsb orb when channel_types_eqb].
  rewrite <- Hs at 1. rewrite <- Hs. apply acts_emits. by apply (emits_drive_all s (cs_chan s)).
Qed.

(** Watching and logging read the rails, which are valid. *)
Lemma run_process_data s c v : cs_chan s = c -> is_expecting c = false ->
  data_rails_value nv s = Ok (v, s) -> (data_is_valid c = true) -> process_data nv pol id s = Ok (tt, s).
Proof.
  intros Hs He Hv Hval. unfold process_data. rewrite (bind_run _ _ _ _ _ (eq_refl : chan s = Ok (cs_chan s, s))).
  assert (log_data nv (data_is_valid (cs_chan s)) s = Ok (tt, s)) as Hlog.
  { rewrite Hs, Hval. unfold log_data, chan, when, bind, gets, ret.
    destruct (watched (cs_chan s)), (ignored (cs_chan s)), (dumplog (cs_chan s)); cbn [andb negb orb];
      rewrite ?Hv, ?Hv; done. }
  rewrite (bind_run _ _ _ _ _ Hlog), Hs, He. done.
Qed.

Lemma run_summarize s c a : cs_chan s = c -> ready c -> acked nv c a ->
  (counter_state c = Z.of_nat (bundles c) -> exists v, data_rails_value nv s = Ok (v, s)) ->
  exists st, summarize_status nv s = Ok (st, s) /\ x_ack st = false /\ st_ack_active st = a.
Proof.
  intros Hs Hr Ha Hv. unfold summarize_status. rewrite (bind_run _ _ _ _ _ (eq_refl : chan s = Ok (cs_chan s, s))).
  rewrite Hs, (rd_type _ Hr). cbn [channel_types_eqb].
  set (st0 := set_st_ack_active a (set_x_ack false status_empty)).
  assert (summarize_signals nv status_empty s = Ok (st0, s)) as Hsig.
  { unfold summarize_signals, get_value, lift_res, chan, bind, gets, ret.
    rewrite Hs, (rd_ack _ Hr), (rd_valid _ Hr), Ha. subst st0. unfold level.
    by destruct a, (get_ack_active c). }
  rewrite (bind_run _ _ _ st0 s); last first.
  { rewrite (bind_run _ _ _ _ _ Hsig). unfold summarize_bundled, chan, bind, gets. by rewrite Hs, (rd_type _ Hr). }
  destruct (negb (x_counter c =? 0)); [by exists st0|].
  unfold summarize_1ofN. rewrite (bind_run _ _ _ _ _ (eq_refl : chan s = Ok (cs_chan s, s))), Hs, (rd_ack _ Hr), (rd_valid _ Hr).
  destruct (counter_state c =? 0); [by eexists; split; [done|]; destruct a|].
  destruct (Z.eqb_spec (counter_state c) (Z.of_nat (bundles c))) as [E|E].
  - destruct (Hv E) as [v Hrd]. rewrite (bind_run _ _ _ _ _ Hrd). eexists. split; [done|]. by destruct a.
  - eexists. split; [done|]. done.
Qed.

(** The next value, or the end of them. *)
Definition advanced (c : channel) : channel :=
  let c1 := set_value_index (S (value_index c)) c in
  if Nat.leb (length (ch_values c1)) (value_index c1) then
    if is_looping c1 then set_iteration (S (iteration c1)) (set_value_index 0%nat c1)
    else set_inject_expect_file String.EmptyString (set_value_index 0%nat (clear_values c1))
  else c1.
Definition stopped_source (c : channel) : channel := clear_values (put_ch_flag false CHANNEL_SOURCING c).

Lemma run_advance s c : cs_chan s = c -> is_random c = false ->
  (forall v x, ch_values (advanced c) !! value_index (advanced c) = Some (v, x) -> x = false) ->
  advance_value s = Ok (tt, cput (advanced c) s).
Proof.
  intros Hs Hr Hx. unfold advance_value. rewrite (bind_run _ _ _ _ _ (eq_refl : chan s = Ok (cs_chan s, s))).
  rewrite Hs, Hr. destruct s as [c0 r ev ex]. cbn in Hs. subst c0.
  unfold advanced in *. set (c1 := set_value_index (S (value_index c)) c) in *.
  unfold cupd, modify, bind, chan, gets. cbn [cput cs_chan cs_rng cs_events cs_exceptions]. fold c1.
  destruct (Nat.leb (length (ch_values c1)) (value_index c1)); cbn [when]; [destruct (is_looping c1)|];
    unfold ret at 1; cbn [cput cs_chan cs_rng cs_events cs_exceptions];
    (destruct (_ !! _) as [[v []]|] eqn:E; [by specialize (Hx _ _ eq_refl)|done..]).
Qed.

Lemma remaining_lookup c : ch_values c !! value_index c = head (remaining c).
Proof. unfold remaining. by rewrite head_lookup, lookup_drop, Nat.add_0_r. Qed.
Lemma remaining_advanced c p r : is_looping c = false -> remaining c = p :: r -> remaining (advanced c) = r.
Proof.
  intros Hl Hrem. unfold remaining, advanced in *. cbn -[is_looping Nat.leb].
  change (is_looping (set_value_index (S (value_index c)) c)) with (is_looping c). rewrite Hl.
  assert (r = drop (S (value_index c)) (ch_values c)) as ->.
  { change (S (value_index c)) with (1 + value_index c)%nat. by rewrite Nat.add_comm, <- drop_drop, Hrem. }
  destruct (Nat.leb_spec (length (ch_values c)) (S (value_index c))); [|done].
  cbn. symmetry. by apply drop_ge.
Qed.
Lemma remaining_none c : remaining c = [] -> ch_values c !! value_index c = None.
Proof. intros H. by rewrite remaining_lookup, H. Qed.
Lemma frame_advanced c : frame (advanced c) = frame c.
Proof. unfold advanced. destruct (Nat.leb _ _); [|done]. by destruct (is_looping _). Qed.
Lemma flags_advanced c : ch_flags (advanced c) = ch_flags c.
Proof. unfold advanced. destruct (Nat.leb _ _); [|done]. by destruct (is_looping _). Qed.

Lemma acts_send_next s c v r : cs_chan s = c -> ready c -> is_random c = false -> is_looping c = false ->
  remaining c = (v, false) :: r -> Forall (fun p => p.2 = false) r -> carries c v ->
  acts (send_next nv) s (advanced c) (digits_encoding c v).
Proof.
  intros Hs Hr Hrd Hl Hrem Hx Hc. unfold send_next.
  assert (encoding c v = digits_encoding c v) as He.
  { unfold encoding, has_digits, type_in. by rewrite (rd_type _ Hr). }
  rewrite <- (app_nil_r (digits_encoding c v)), <- He. apply acts_bind with (c1 := c).
  - rewrite <- Hs at 1. rewrite <- Hs. apply acts_emits. rewrite Hs.
    apply (emits_set_all_data_rails nv c v false); [done..|]. by rewrite remaining_lookup, Hrem.
  - intros _ s1 Hs1. unfold acts, wpe. rewrite (run_advance s1 c Hs1 Hrd).
    + cbn. by rewrite app_nil_r.
    + intros v' x E. rewrite remaining_lookup, (remaining_advanced c _ _ Hl Hrem) in E.
      destruct r as [|q r]; [done|]. cbn in E. injection E as ->. by apply Forall_cons in Hx as [? _].
Qed.

Lemma acts_send_none s c : cs_chan s = c -> ready c -> is_random c = false -> remaining c = [] ->
  acts (send_next nv) s (advanced (stopped_source c)) (map (fun n => (n, rail_level c false)) (ch_data c)).
Proof.
  intros Hs Hr Hrd Hrem. unfold send_next.
  rewrite <- (app_nil_r (map _ _)). apply acts_bind with (c1 := stopped_source c).
  - unfold set_all_data_rails. apply acts_chan. change (Z * bool)%type with array_value_type.
    rewrite Hs, (remaining_none c Hrem).
    eapply acts_run; [unfold require; rewrite Hrd; done|].
    rewrite <- (app_nil_r (map _ _)). apply acts_bind with (c1 := c); [by apply acts_reset, Hr|].
    intros _ s1 Hs1. unfold acts, wpe, cupd, modify. cbn. by rewrite Hs1, app_nil_r.
  - intros _ s1 Hs1. unfold acts, wpe. rewrite (run_advance s1 _ Hs1); [cbn; by rewrite app_nil_r| |].
    + unfold is_random, is_sourcing, stopped_source. change (ch_flag ?m (clear_values ?x)) with (ch_flag m x).
      unfold ch_flag at 2, put_ch_flag, put_flag, has_flag, clear_flag. cbn -[Z.land Z.lnot].
      rewrite <- Z.land_assoc, (Z.land_comm (Z.lnot _)), Z.land_lnot_diag, Z.land_0_r. apply andb_false_r.
    + intros v x E. exfalso. unfold advanced, stopped_source in E. cbn in E.
      destruct (is_looping _) in E; done.
Qed.

(** *** The reactions *)
Definition ack_level (c : channel) (a : bool) : nat * value_enum :=
  (ack_signal c, level (Bool.eqb (get_ack_active c) a)).
Definition response (c : channel) (k : nat) : list (nat * value_enum) :=
  if Nat.eqb k 0 then [ack_level c false] else if Nat.eqb k (bundles c) then [ack_level c true] else [].

Lemma acts_sink_data s c b : cs_chan s = c -> ready c -> sink_acts c = true -> acts (sink_data b) s c [ack_level c b].
Proof.
  intros Hs Hr Hk. unfold sink_data. apply acts_chan. cbv beta. rewrite Hs, Hk, (rd_valid _ Hr). cbn [andb negb when].
  eapply acts_run; [by rewrite (rd_ack _ Hr)|]. by apply acts_drive_ack.
Qed.

(** After a data rail has been counted. *)
Lemma acts_counted s c A next : cs_chan s = c -> ready c -> sink_acts c = true -> counters_ok nv c -> actives nv c A ->
  (length A = bundles c -> exists v, data_rails_value nv s = Ok (v, s)) ->
  acts (c <- chan ;;
    if negb (x_counter c =? 0) then
      when (is_sourcing c && has_valid c) x_valid_signal ;;;
      when (sink_acts c && is_x next && (x_counter c =? 1))
        (require F_assert (has_ack c) ;;; when (negb (has_valid c)) x_ack_signal)
    else if counter_state c =? 0 then
      when (is_sourcing c && has_valid c) (drive_valid false) ;;;
      sink_data false
    else
      when (counter_state c =? Z.of_nat (bundles c))
        (when (is_sourcing c && has_valid c) (drive_valid true) ;;;
         when (negb (has_valid c)) (process_data nv pol id) ;;;
         sink_data true)) s c (response c (length A)).
Proof.
  intros Hs Hr Hk Hc HA Hv.
  destruct (actives_counters nv c A (se_rails _ (rd_separate _ Hr)) HA Hc) as [Hcnt Hx].
  apply acts_chan. cbv beta. rewrite Hs, Hx, Hcnt, (rd_valid _ Hr), !andb_false_r. cbn [Z.eqb negb when].
  unfold response. pose proof (rd_bundles _ Hr). destruct (Nat.eqb_spec (length A) 0) as [E|E].
  - rewrite E. cbn. eapply acts_run; [done|]. by apply acts_sink_data.
  - destruct (Z.eqb_spec (Z.of_nat (length A)) 0); [lia|].
    destruct (Nat.eqb_spec (length A) (bundles c)) as [E1|E1].
    + rewrite E1, Z.eqb_refl. cbn [when]. eapply acts_run; [done|].
      destruct (Hv E1) as [v Hrd]. eapply acts_run; [|by apply acts_sink_data].
      eapply run_process_data; [done|apply Hr|exact Hrd|].
      unfold data_is_valid. rewrite Hx, Hcnt, (rd_type _ Hr), E1. by apply Z.eqb_refl.
    + destruct (Z.eqb_spec (Z.of_nat (length A)) (Z.of_nat (bundles c))); [lia|]. cbn [when].
      rewrite <- Hs. apply (acts_ret tt).
Qed.

(** The acknowledge, once the rails are all valid or all neutral. *)
Lemma acts_ack s c A a : cs_chan s = c -> ready c -> source_acts c = true -> counters_ok nv c -> actives nv c A ->
  acked nv c a -> (length A = bundles c -> exists v, data_rails_value nv s = Ok (v, s)) ->
  forall c' l, acts (if a then reset_all_data_rails else send_next nv) s c' l -> acts (ack_1ofN nv) s c' l.
Proof.
  intros Hs Hr Hk Hc HA Ha Hv c' l Hgo.
  destruct (actives_counters nv c A (se_rails _ (rd_separate _ Hr)) HA Hc) as [Hcnt Hx].
  destruct (run_summarize s c a Hs Hr Ha) as (st & Est & Hxa & Hsa).
  { rewrite Hcnt. intros E. apply Hv. lia. }
  unfold ack_1ofN. eapply acts_run; [exact Est|]. apply acts_chan. cbv beta. rewrite Hs, Hk, Hxa, Hsa. exact Hgo.
Qed.
End Acts.

(** ** Phases of the handshake *)
Lemma structure_fields c c' : structure c = structure c' ->
  ch_type c = ch_type c' /\ ack_signal c = ack_signal c' /\ valid_signal c = valid_signal c' /\
  ch_data c = ch_data c' /\ bundles c = bundles c' /\ radix c = radix c' /\
  Z.ldiff (ch_flags c) activity_flags = Z.ldiff (ch_flags c') activity_flags.
Proof. unfold structure, frame. destruct c, c'. cbn. intros [=]. split_and!; done. Qed.
Lemma structure_sense c c' m : structure c = structure c' -> Z.land m activity_flags = 0 -> ch_flag m c = ch_flag m c'.
Proof.
  intros E Hm. change (ch_flag m (set_counters (0, 0) c) = ch_flag m (set_counters (0, 0) c')).
  apply frame_sense; [|done]. exact E.
Qed.
Lemma structure_rail_level c c' b : structure c = structure c' -> rail_level c b = rail_level c' b.
Proof. intros E. unfold rail_level, get_data_sense. by rewrite (structure_sense c c' _ E). Qed.
Lemma structure_ack_level c c' a : structure c = structure c' -> ack_level c a = ack_level c' a.
Proof.
  intros E. unfold ack_level, get_ack_active. rewrite (structure_sense c c' _ E) by done.
  by apply structure_fields in E as (_ & -> & _).
Qed.
Lemma structure_targets c c' v : structure c = structure c' -> targets c v = targets c' v.
Proof.
  intros (_ & _ & _ & Hd & Hb & Hr & _)%structure_fields. unfold targets, node_at, rail. by rewrite Hd, Hb, Hr.
Qed.
Lemma structure_carries c c' v : structure c = structure c' -> carries c v -> carries c' v.
Proof.
  intros (Ht & _ & _ & Hd & Hb & Hr & _)%structure_fields [H1 H2 H3 H4 H5].
  unfold dims_ok, has_digits, has_bus, type_in in *. split; unfold dims_ok, has_digits, has_bus, type_in; congruence || idtac.
  all: rewrite <- ?Ht, <- ?Hd, <- ?Hb, <- ?Hr; done.
Qed.
Lemma structure_decoded c c' v : structure c = structure c' -> decoded c v = decoded c' v.
Proof.
  intros E. unfold decoded, is_signed. rewrite (structure_sense c c' _ E) by done.
  apply structure_fields in E as (Ht & _ & _ & Hd & Hb & Hr & _).
  unfold data_modulus, has_digits, value_width, data_is_bundled, type_in. by rewrite Ht, Hb, Hr.
Qed.

Lemma actives_set_counters cx nv c A : actives nv c A -> actives nv (set_counters cx c) A.
Proof. intros []. by split. Qed.
Lemma carries_set_counters cx c v : carries c v -> carries (set_counters cx c) v.
Proof. intros []. by split. Qed.
Lemma ready_counters cx c : ready c -> ready (set_counters cx c).
Proof. intros [? ? ? [] ? ? ? ? ? ? ?]. by split. Qed.
Lemma ready_advanced c : ready c -> ready (advanced c).
Proof.
  intros [? ? ? [] ? ? ? ? ? ? ?]. unfold advanced.
  destruct (Nat.leb _ _); [destruct (is_looping _)|]; by split.
Qed.

Section Phases.
Context {env : Env} (pol : error_policy_enum) (id : nat) (c0 : channel).

(** The rails [A] are active, the acknowledge shows [a], [todo] is scheduled,
    the values [vs] are left to send, and [got] have been received. *)
Record phase (A : list nat) (a : bool) (todo : list (nat * value_enum)) (vs : list array_value_type) (got : list Z)
    (w : world) : Prop := {
  ph_ready : ready (w_chan w);
  ph_source : source_acts (w_chan w) = true;
  ph_sink : sink_acts (w_chan w) = true;
  ph_random : is_random (w_chan w) = false;
  ph_looping : is_looping (w_chan w) = false;
  ph_structure : structure (w_chan w) = structure c0;
  ph_counters : counters_ok (w_nv w) (w_chan w);
  ph_actives : actives (w_nv w) (w_chan w) A;
  ph_acked : acked (w_nv w) (w_chan w) a;
  ph_pending : map ev_pair (w_pending w) ≡ₚ todo;
  ph_remaining : remaining (w_chan w) = vs;
  ph_values : Forall (fun p => p.2 = false /\ carries c0 p.1) vs;
  ph_received : w_received w = got
}.

Lemma wpe_act_in nv m rest seen w c' l (Q : world -> Prop) :
  acts m (mkCS (w_chan w) (w_rng w) [] (w_exceptions w)) c' l ->
  (forall w', w_nv w' = nv -> w_chan w' = c' ->
     map ev_pair (w_pending w') = map ev_pair rest ++ List.filter (changes_pair nv) l ->
     w_received w' = w_received w ++ seen -> Q w') ->
  wpe (fun f => f = F_fuel) (act_in nv m rest seen) (fun _ => Q) w.
Proof.
  intros Hm HQ. unfold acts, wpe, act_in in *. destruct (m _) as [[[] s]|f]; [|done].
  destruct Hm as [Hc He]. apply HQ; [done..| |done]. cbn [w_pending]. rewrite map_app, filter_changes. by rewrite He.
Qed.

Lemma changes_ack nv c a b : acked nv c a -> changes_pair nv (ack_level c b) = negb (Bool.eqb a b).
Proof.
  intros H. unfold changes_pair, ack_level. cbn. rewrite H. unfold level. by destruct a, b, (get_ack_active c).
Qed.
Definition reply (a : bool) (k : nat) : list (nat * value_enum) :=
  if Nat.eqb k 0 then if a then [ack_level c0 false] else []
  else if Nat.eqb k (bundles c0) then if a then [] else [ack_level c0 true] else [].

Lemma reply_full k : k <> 0%nat -> k = bundles c0 -> reply false k = [ack_level c0 true].
Proof. intros H0 ->. unfold reply. apply Nat.eqb_neq in H0 as ->. by rewrite Nat.eqb_refl. Qed.
Lemma reply_none a k : k <> 0%nat -> k <> bundles c0 -> reply a k = [].
Proof. intros H0 H1. unfold reply. apply Nat.eqb_neq in H0 as ->. by apply Nat.eqb_neq in H1 as ->. Qed.

(** The rails of the data are no acknowledge. *)
Lemma rail_not_ack c n : separate c -> n ∈ ch_data c -> Nat.eqb n (ack_signal c) = false.
Proof. intros Hs Hn. apply Nat.eqb_neq. intros ->. by apply (se_ack _ Hs). Qed.

Lemma wpe_react e rest w prev (Q : world -> Prop) : w_nv w (ee_node_index e) = Ok prev ->
  (let nv := set_node (ee_node_index e) (ee_value e) (w_nv w) in
   wpe (fun f => f = F_fuel)
     (act_in nv (channel_process_node nv pol id (ee_node_index e) prev (ee_value e)) rest
       (observe nv e (mkCS (w_chan w) (w_rng w) [] (w_exceptions w)))) (fun _ => Q) w) ->
  wpe (fun f => f = F_fuel) (react pol id e rest) (fun _ => Q) w.
Proof. intros E. unfold react, wpe. by rewrite E. Qed.

Lemma rail_step w A A' a todo vs got e rest n b :
  phase A a todo vs got w -> ev_pair e = (n, rail_level c0 b) -> n ∈ ch_data c0 ->
  actives (set_node n (rail_level c0 b) (w_nv w)) (w_chan w) A' ->
  (length A' = bundles c0 -> exists v, carries c0 v /\ A' ≡ₚ targets c0 v) ->
  wpe (fun f => f = F_fuel) (react pol id e rest)
    (fun _ => phase A' a (map ev_pair rest ++ reply a (length A')) vs got) w.
Proof.
  intros Hph He Hn HA' Hfull.
  assert (ee_node_index e = n /\ ee_value e = rail_level c0 b) as [En Ev] by (by injection He).
  destruct Hph as [Hr Hsrc Hsnk Hrnd Hlp Hst Hc HA Hack Hp Hrem Hvs Hgot].
  pose proof (structure_fields _ _ Hst) as (Ht & _ & _ & Hd & Hb & _). rewrite <- Hd in Hn.
  eapply wpe_react; [rewrite En; exact (av_values _ _ _ HA n Hn)|]. rewrite En, Ev. cbv zeta. set (prev := rail_level (w_chan w) (bool_decide (n ∈ A))) in *.
  set (nv := set_node n (rail_level c0 b) (w_nv w)) in *. set (c := w_chan w) in *.
  pose proof (rd_separate _ Hr) as Hsep. pose proof (rail_not_ack c n Hsep Hn) as Hna.
  assert (acked nv c a) as Hack'.
  { unfold acked, nv, set_node. rewrite Nat.eqb_sym, Hna. exact Hack. }
  set (s := mkCS c (w_rng w) [] (w_exceptions w)).
  assert (observe nv e s = []) as ->.
  { unfold observe, is_acknowledge. cbn [cs_chan s]. by rewrite En, Hna. }
  assert (exists cx, counters_ok nv (set_counters cx c) /\
    acts (channel_process_node nv pol id n prev (rail_level c0 b)) s (set_counters cx c) (response c (length A')))
    as (cx & Hc' & Hacts).
  { pose proof (update_counters (w_nv w) s n prev (rail_level c0 b) Hc (se_rails _ Hsep) Hn
                  (av_values _ _ _ HA n Hn)) as Hupd.
    apply wp_total in Hupd as ([] & s1 & Eup & [cx ->] & Hc'). exists cx. split; [exact Hc'|].
    unfold channel_process_node. apply acts_chan. cbv beta. cbn [cs_chan s]. rewrite (rd_type _ Hr).
    unfold process_1ofN. apply acts_chan. cbv beta. cbn [cs_chan s].
    rewrite Hna, (rd_valid _ Hr), andb_false_r. cbn [andb]. unfold data_1ofN, update_data_counter, acts, wpe.
    rewrite (bind_run _ _ _ _ _ Eup).
    apply (acts_counted nv pol id (cput (set_counters cx c) s) (set_counters cx c) A' (rail_level c0 b));
      [done|by apply ready_counters|done|exact Hc'|by apply actives_set_counters|].
    intros E. change (bundles (set_counters cx c)) with (bundles c) in E. rewrite Hb in E.
    destruct (Hfull E) as (v & Hcar & HT). exists (decoded c v).
    assert (carries c v) as Hcar' by (by eapply structure_carries).
    rewrite (data_rails_read nv (set_counters cx c) v); [|done|by apply carries_set_counters|].
    - apply (sign_extend_decoded (set_counters cx c) v); [done|by apply carries_set_counters|apply Hr].
    - unfold has_digits, type_in. change (ch_type (set_counters cx c)) with (ch_type c). rewrite (rd_type _ Hr). cbn.
      apply (actives_shows c v (rd_dims _ Hr) (se_rails _ Hsep) (rd_radix _ Hr) nv A'); [|done].
      by rewrite (structure_targets c c0). }
  eapply wpe_act_in; [exact Hacts|]. intros w' E1 E2 E3 E4.
  split; rewrite ?E1, ?E2, ?E3, ?E4, ?app_nil_r;
    [by apply ready_counters|done|done|done|done|done|exact Hc'|by apply actives_set_counters|exact Hack'| |done..].
  f_equiv. unfold response, reply. rewrite Hb.
  assert (forall x, ack_level (set_counters cx c) x = ack_level c0 x) as Hl by (intros x; by apply structure_ack_level).
  destruct (Nat.eqb (length A') 0); [|destruct (Nat.eqb (length A') (bundles c0))]; cbn [List.filter];
    rewrite ?(changes_ack nv c a) by done; rewrite <- ?(structure_ack_level c c0) by done; by destruct a.
Qed.

(** The rails show a value of [c0]. *)
Lemma full_reads nv c A v s : structure c = structure c0 -> ready c -> actives nv c A -> A ≡ₚ targets c0 v ->
  carries c0 v -> cs_chan s = c -> data_rails_value nv s = Ok (decoded c0 v, s).
Proof.
  intros Hst Hr HA HT Hcar Hs. assert (carries c v) as Hcar' by (by eapply structure_carries).
  rewrite <- (structure_decoded c c0) by done. rewrite (data_rails_read nv c v); [|done|done|].
  - apply sign_extend_decoded; [done|done|apply Hr].
  - unfold has_digits, type_in. rewrite (rd_type _ Hr). cbn.
    apply (actives_shows c v (rd_dims _ Hr) (se_rails _ (rd_separate _ Hr)) (rd_radix _ Hr) nv A); [|done].
    by rewrite (structure_targets c c0).
Qed.

Lemma ack_reacts w A a b todo vs got e rest c' l (Q : world -> Prop) :
  phase A a todo vs got w -> ev_pair e = ack_level c0 b ->
  let nv := set_node (ack_signal c0) (level (Bool.eqb (get_ack_active c0) b)) (w_nv w) in
  (length A = bundles c0 -> exists v, carries c0 v /\ A ≡ₚ targets c0 v) ->
  (forall s, cs_chan s = w_chan w -> actives nv (w_chan w) A -> counters_ok nv (w_chan w) ->
     acked nv (w_chan w) b -> acts (if b then reset_all_data_rails else send_next nv) s c' l) ->
  (forall w', w_nv w' = nv -> w_chan w' = c' ->
     map ev_pair (w_pending w') = map ev_pair rest ++ List.filter (changes_pair nv) l ->
     w_received w' = got ++ observe nv e (mkCS (w_chan w) (w_rng w) [] (w_exceptions w)) ->
     actives nv (w_chan w) A -> counters_ok nv (w_chan w) -> acked nv (w_chan w) b -> Q w') ->
  wpe (fun f => f = F_fuel) (react pol id e rest) (fun _ => Q) w.
Proof.
  intros Hph He nv Hfull Hacts HQ.
  assert (ee_node_index e = ack_signal c0 /\ ee_value e = level (Bool.eqb (get_ack_active c0) b)) as [En Ev]
    by (by injection He).
  destruct Hph as [Hr Hsrc Hsnk Hrnd Hlp Hst Hc HA Hack Hp Hrem Hvs Hgot]. set (c := w_chan w) in *.
  pose proof (structure_fields _ _ Hst) as (Ht & Hak & _ & Hd & Hb & _).
  pose proof (structure_ack_level c c0 b Hst) as Hal. pose proof (rd_separate _ Hr) as Hsep.
  eapply wpe_react; [rewrite En, <- Hak; exact Hack|]. rewrite En, Ev. cbv zeta. fold nv.
  assert (acked nv c b) as Hack'.
  { unfold acked, nv, set_node. rewrite Hak, Nat.eqb_refl. unfold ack_level in Hal. by injection Hal as _ ->. }
  assert (actives nv c A) as HA' by (apply actives_other; [rewrite <- Hak; apply Hsep|exact HA]).
  assert (counters_ok nv c) as Hc'.
  { eapply counters_ok_frame; [done| |exact Hc]. intros n Hn. unfold nv, set_node.
    destruct (Nat.eqb_spec n (ack_signal c0)) as [->|]; [|done]. rewrite <- Hak in Hn. by apply (se_ack _ Hsep) in Hn. }
  eapply wpe_act_in; [|intros w' E1 E2 E3 E4; apply HQ; try done; by rewrite E4, Hgot].
  unfold channel_process_node. apply acts_chan. cbv beta. cbn [cs_chan]. fold c. rewrite (rd_type _ Hr).
  unfold process_1ofN. apply acts_chan. cbv beta. cbn [cs_chan]. fold c. rewrite (rd_ack _ Hr), <- Hak, Nat.eqb_refl.
  cbn [andb]. eapply (acts_ack nv _ c A b); [done|done|done|done|done|done| |by apply Hacts].
  intros E. rewrite Hb in E. destruct (Hfull E) as (v & Hcar & HT). exists (decoded c0 v).
  by eapply full_reads.
Qed.

Lemma observe_rise nv e s v : ev_pair e = ack_level c0 true -> structure (cs_chan s) = structure c0 ->
  data_rails_value nv s = Ok (v, s) -> observe nv e s = [v].
Proof.
  intros He Hst Hv. unfold observe, is_acknowledge.
  assert (ev_pair e = ack_level (cs_chan s) true) as He' by (by rewrite He, (structure_ack_level (cs_chan s) c0)).
  injection He' as -> ->. rewrite Nat.eqb_refl, Hv. by destruct (get_ack_active _).
Qed.
Lemma observe_fall nv e s : ev_pair e = ack_level c0 false -> structure (cs_chan s) = structure c0 ->
  observe nv e s = [].
Proof.
  intros He Hst. unfold observe, is_acknowledge.
  assert (ev_pair e = ack_level (cs_chan s) false) as He' by (by rewrite He, (structure_ack_level (cs_chan s) c0)).
  injection He' as -> ->. rewrite Nat.eqb_refl. by destruct (get_ack_active _).
Qed.

(** *** Raising the rails of [v] *)
Definition todo_raise (l : list nat) : list (nat * value_enum) :=
  match l with [] => [ack_level c0 true] | _ => map (fun n => (n, rail_level c0 true)) l end.
Definition todo_drop (l : list nat) : list (nat * value_enum) :=
  match l with [] => [ack_level c0 false] | _ => map (fun n => (n, rail_level c0 false)) l end.
Definition raising (v : Z) (l : list nat) vs got (w : world) : Prop :=
  carries c0 v /\ exists A, A ++ l ≡ₚ targets c0 v /\ phase A false (todo_raise l) vs got w.
Definition dropping (A : list nat) vs got (w : world) : Prop :=
  NoDup A /\ A ⊆ ch_data c0 /\ (length A <= bundles c0)%nat /\ phase A true (todo_drop A) vs got w.

Lemma pending_cases f (l : list nat) e rest (pend : list env_event_type) :
  map ev_pair pend ≡ₚ map f l -> pend ≡ₚ e :: rest ->
  exists n l', l ≡ₚ n :: l' /\ ev_pair e = f n /\ map ev_pair rest ≡ₚ map f l'.
Proof.
  intros Hp E. rewrite E in Hp. cbn in Hp. symmetry in Hp.
  assert (ev_pair e ∈ map f l) as Hin by (rewrite Hp; apply elem_of_cons; by left).
  apply list_elem_of_In, in_map_iff in Hin as (n & He & Hn%list_elem_of_In).
  apply elem_of_Permutation in Hn as [l' El]. exists n, l'. split_and!; [done|done|].
  rewrite El in Hp. cbn in Hp. rewrite He in Hp. by apply Permutation_cons_inv in Hp.
Qed.
Lemma pending_nonempty (l : list env_event_type) p t : map ev_pair l ≡ₚ p :: t -> l <> [].
Proof. intros H ->. by apply Permutation_nil_cons in H. Qed.

Context (Hc0 : ready c0).

Lemma raise_rails v l vs got w : raising v l vs got w ->
  inevitably pol id (raising v [] vs got) (length l) w.
Proof.
  remember (length l) as k eqn:Hk. revert l Hk w. induction k as [|k IH]; intros l Hk w Hw.
  { by destruct l. }
  destruct Hw as (Hcar & A & HT & Hph).
  assert (todo_raise l = map (fun n => (n, rail_level c0 true)) l) as Htodo by (by destruct l).
  split.
  { pose proof (ph_pending _ _ _ _ _ _ Hph) as Hp. rewrite Htodo in Hp. destruct l; [done|]. by eapply pending_nonempty. }
  intros e rest E. pose proof (ph_pending _ _ _ _ _ _ Hph) as Hp. rewrite Htodo in Hp.
  destruct (pending_cases _ _ _ _ _ Hp E) as (n & l' & El & He & Hrest).
  assert (n :: A ++ l' ≡ₚ targets c0 v) as HT' by (rewrite <- HT, El; solve_Permutation).
  assert (NoDup (n :: A ++ l')) as Hnd.
  { rewrite HT'. apply targets_nodup; [apply Hc0|apply Hc0|apply Hc0]. }
  assert (n ∈ ch_data c0) as Hn.
  { apply (targets_data c0 v); [apply Hc0..|]. rewrite <- HT'. apply elem_of_cons. by left. }
  pose proof (Permutation_length El) as HlE. cbn in HlE.
  pose proof (Permutation_length HT') as HlT. rewrite targets_length in HlT. cbn in HlT. rewrite length_app in HlT.
  eapply wpe_mono.
  - eapply (rail_step w A (n :: A) false _ vs got e rest n true Hph He Hn).
    + rewrite <- (structure_rail_level (w_chan w) c0) by (apply Hph). apply actives_raise; [|by apply NoDup_cons in Hnd as [[??]%not_elem_of_app _]|apply Hph].
      pose proof (structure_fields _ _ (ph_structure _ _ _ _ _ _ Hph)) as (_ & _ & _ & -> & _). done.
    + intros Hfull. exists v. split; [done|]. destruct l'; [by rewrite app_nil_r in HT'|]. cbn in Hfull, HlT. lia.
  - intros [] w' Hw'. apply (IH l'); [lia|]. split; [done|]. exists (n :: A). split; [done|].
    destruct Hw' as [? ? ? ? ? ? ? ? ? Hp' ? ? ?]. split; [done..| |done|done|done].
    rewrite Hp', Hrest. cbn [Datatypes.length]. destruct l' as [|m l']; cbn [Datatypes.length] in HlT.
    + by rewrite reply_full by lia.
    + rewrite reply_none by lia. by rewrite app_nil_r.
Qed.

Lemma drop_rails A vs got w : dropping A vs got w -> inevitably pol id (dropping [] vs got) (length A) w.
Proof.
  remember (length A) as k eqn:Hk. revert A Hk w. induction k as [|k IH]; intros A Hk w Hw.
  { by destruct A. }
  destruct Hw as (HndA & HsubA & HlA & Hph).
  assert (todo_drop A = map (fun n => (n, rail_level c0 false)) A) as Htodo by (by destruct A).
  split.
  { pose proof (ph_pending _ _ _ _ _ _ Hph) as Hp. rewrite Htodo in Hp. destruct A; [done|]. by eapply pending_nonempty. }
  intros e rest E. pose proof (ph_pending _ _ _ _ _ _ Hph) as Hp. rewrite Htodo in Hp.
  destruct (pending_cases _ _ _ _ _ Hp E) as (n & l' & El & He & Hrest).
  pose proof (Permutation_length El) as HlE. cbn in HlE.
  assert (NoDup (n :: l')) as Hnd by (by rewrite <- El). apply NoDup_cons in Hnd as [Hnl Hnd].
  assert (n ∈ ch_data c0) as Hn by (apply HsubA; rewrite El; apply elem_of_cons; by left).
  eapply wpe_mono.
  - eapply (rail_step w A l' true _ vs got e rest n false Hph He Hn).
    + rewrite <- (structure_rail_level (w_chan w) c0) by (apply Hph). apply actives_drop; [done|].
      eapply actives_perm; [exact El|apply Hph].
    + intros Hfull. lia.
  - intros [] w' Hw'. apply (IH l'); [lia|]. split_and!; [done| |lia|].
    { intros x Hx. apply HsubA. rewrite El. apply elem_of_cons. by right. }
    destruct Hw' as [? ? ? ? ? ? ? ? ? Hp' ? ? ?]. split; [done..| |done|done|done].
    rewrite Hp', Hrest. destruct l' as [|m l']; cbn [Datatypes.length] in *; [done|].
    rewrite reply_none by lia. by rewrite app_nil_r.
Qed.

(** *** The two edges of the acknowledge *)
Lemma ack_rises v vs got w : raising v [] vs got w ->
  inevitably pol id (fun w' => exists A, length A = bundles c0 /\ dropping A vs (got ++ [decoded c0 v]) w') 1 w.
Proof.
  intros (Hcar & A & HT & Hph). rewrite app_nil_r in HT. pose proof (ph_pending _ _ _ _ _ _ Hph) as Hp.
  cbn [todo_raise] in Hp. split; [by eapply pending_nonempty|]. intros e rest E.
  destruct (pending_cases (fun _ => ack_level c0 true) [0%nat] _ _ _ Hp E) as (n & l' & El & He & Hrest).
  apply Permutation_length_1_inv in El. injection El as -> ->. cbn in Hrest. symmetry in Hrest. apply Permutation_nil in Hrest.
  assert (length A = bundles c0) as HlA by (rewrite HT; apply targets_length).
  eapply (ack_reacts w A false true _ vs got e rest (w_chan w)); [exact Hph|exact He| | |].
  - intros _. by exists v.
  - intros s Hs _ _ _. apply acts_reset; [done|apply Hph].
  - intros w' E1 E2 E3 E4 HA' Hc' Hack'. exists A. split; [done|].
    destruct Hph as [Hr Hsrc Hsnk Hrnd Hlp Hst Hc HA Hack _ Hrem Hvs Hgot].
    split_and!; [apply HA'| |lia|].
    { pose proof (structure_fields _ _ Hst) as (_ & _ & _ & <- & _). apply HA'. }
    rewrite observe_rise with (v := decoded c0 v) in E4; [|done|done|by eapply full_reads].
    split; rewrite ?E1, ?E2; [done..| |done|done|exact E4].
    rewrite E3, Hrest. cbn [app]. rewrite (changes_reset _ (w_chan w) A); [|apply Hr|done].
    pose proof (rd_bundles _ Hc0). destruct A as [|m A]; [cbn in HlA; lia|]. cbn [todo_drop].
    by rewrite (structure_rail_level (w_chan w) c0).
Qed.

(** The rails are neutral and the acknowledge is not active: the source sends
    the next value, or has no more. *)
Record poised (nv : nat -> res value_enum) (vs : list array_value_type) (c : channel) : Prop := {
  po_ready : ready c;
  po_source : source_acts c = true;
  po_sink : sink_acts c = true;
  po_random : is_random c = false;
  po_looping : is_looping c = false;
  po_structure : structure c = structure c0;
  po_counters : counters_ok nv c;
  po_actives : actives nv c [];
  po_acked : acked nv c false;
  po_remaining : remaining c = vs;
  po_values : Forall (fun p => p.2 = false /\ carries c0 p.1) vs
}.
Definition next_chan (c : channel) : channel :=
  match remaining c with [] => advanced (stopped_source c) | _ => advanced c end.
Definition next_events (c : channel) : list (nat * value_enum) :=
  match remaining c with
  | [] => map (fun n => (n, rail_level c false)) (ch_data c)
  | (v, _) :: _ => digits_encoding c v
  end.
Definition idle (vs : list array_value_type) (got : list Z) (w : world) : Prop :=
  match vs with
  | [] => w_pending w = [] /\ w_received w = got
  | (v, _) :: r => raising v (targets c0 v) r got w
  end.

Lemma acts_send nv vs s c : cs_chan s = c -> poised nv vs c -> acts (send_next nv) s (next_chan c) (next_events c).
Proof.
  intros Hs [Hr _ _ Hrnd Hlp Hst _ _ _ Hrem Hvs]. unfold next_chan, next_events. rewrite Hrem.
  destruct vs as [|[v x] r]; [by apply acts_send_none|]. apply Forall_cons in Hvs as [[Hx Hcar] Hvs].
  cbn in Hx, Hcar. subst x. eapply acts_send_next; [done|done|done|done|exact Hrem| |by eapply structure_carries].
  eapply Forall_impl; [exact Hvs|]. cbn. tauto.
Qed.

Lemma flag_advanced m c : ch_flag m (advanced c) = ch_flag m c.
Proof. unfold ch_flag. by rewrite flags_advanced. Qed.
Lemma acked_frame nv c c' a : frame c = frame c' -> acked nv c a -> acked nv c' a.
Proof.
  intros Hf. unfold acked, get_ack_active. rewrite (frame_sense c c' _ Hf) by done.
  by apply frame_fields in Hf as (_ & -> & _).
Qed.

Lemma idle_after nv vs got c w : poised nv vs c -> w_nv w = nv -> w_chan w = next_chan c ->
  map ev_pair (w_pending w) ≡ₚ List.filter (changes_pair nv) (next_events c) -> w_received w = got -> idle vs got w.
Proof.
  intros [Hr Hsrc Hsnk Hrnd Hlp Hst Hc HA Hack Hrem Hvs] E1 E2 E3 E4. unfold next_chan, next_events in *.
  rewrite Hrem in *. destruct vs as [|[v x] r].
  - split; [|done]. rewrite (changes_reset nv c []) in E3; [|apply Hr|done]. cbn in E3.
    symmetry in E3. apply Permutation_nil in E3. by apply map_eq_nil in E3.
  - apply Forall_cons in Hvs as [[Hx Hcar] Hvs]. cbn in Hx, Hcar. split; [done|]. exists [].
    split; [done|]. pose proof (frame_advanced c) as Hf.
    split; rewrite ?E1, ?E2; [by apply ready_advanced|..].
    + unfold source_acts, is_sourcing, ch_stopped in *. by rewrite !flag_advanced.
    + unfold sink_acts, is_sinking, ch_stopped in *. by rewrite !flag_advanced.
    + unfold is_random, is_sourcing in *. by rewrite !flag_advanced.
    + unfold is_looping, is_sourcing, is_expecting in *. by rewrite !flag_advanced.
    + by rewrite (structure_frame _ _ Hf).
    + by eapply counters_ok_frame; [symmetry; exact Hf| |exact Hc].
    + by eapply actives_frame; [symmetry; exact Hf|].
    + by eapply acked_frame; [symmetry; exact Hf|].
    + rewrite E3, changes_send by (done || apply Hr).
      rewrite (structure_targets c c0) by done. pose proof (targets_length c0 v) as Hlen. pose proof (rd_bundles _ Hc0).
      rewrite (structure_rail_level c c0) by done. unfold todo_raise. destruct (targets c0 v); [cbn in Hlen; lia|done].
    + by eapply remaining_advanced.
    + done.
    + done.
Qed.

Lemma ack_falls vs got w : dropping [] vs got w -> inevitably pol id (idle vs got) 1 w.
Proof.
  intros (_ & _ & _ & Hph). pose proof (ph_pending _ _ _ _ _ _ Hph) as Hp. cbn [todo_drop] in Hp.
  split; [by eapply pending_nonempty|]. intros e rest E.
  destruct (pending_cases (fun _ => ack_level c0 false) [0%nat] _ _ _ Hp E) as (n & l' & El & He & Hrest).
  apply Permutation_length_1_inv in El. injection El as -> ->. cbn in Hrest. symmetry in Hrest. apply Permutation_nil in Hrest.
  set (nv := set_node (ack_signal c0) (level (Bool.eqb (get_ack_active c0) false)) (w_nv w)).
  assert (actives nv (w_chan w) [] -> counters_ok nv (w_chan w) -> acked nv (w_chan w) false -> poised nv vs (w_chan w)) as Hpo.
  { destruct Hph. by split. }
  eapply (ack_reacts w [] true false _ vs got e rest (next_chan (w_chan w)) (next_events (w_chan w)));
    [exact Hph|exact He| | |].
  - pose proof (rd_bundles _ Hc0). cbn. lia.
  - intros s Hs HA' Hc' Hack'. apply (acts_send nv vs); [done|by apply Hpo].
  - intros w' E1 E2 E3 E4 HA' Hc' Hack'. eapply idle_after; [by apply Hpo|done|done| |].
    + rewrite E3, Hrest. done.
    + rewrite E4, observe_fall by (done || apply Hph). by rewrite app_nil_r.
Qed.

(** ** All the values *)
Lemma idle_delivers vs got w : idle vs got w ->
  inevitably pol id (fun w' => w_pending w' = [] /\ w_received w' = got ++ map (fun p => decoded c0 p.1) vs)
    (length vs * (2 * bundles c0 + 2)) w.
Proof.
  revert got w. induction vs as [|[v x] vs IH]; intros got w Hw; [cbn; rewrite app_nil_r; exact Hw|].
  cbn [Datatypes.length map fst].
  replace (S (length vs) * (2 * bundles c0 + 2))%nat
    with (bundles c0 + (1 + (bundles c0 + (1 + length vs * (2 * bundles c0 + 2)))))%nat by lia.
  eapply inevitably_trans.
  { rewrite <- (targets_length c0 v). by apply raise_rails. }
  intros w1 H1. eapply inevitably_trans; [by apply ack_rises|]. intros w2 (A & HlA & H2).
  eapply inevitably_trans; [rewrite <- HlA; by apply drop_rails|]. intros w3 H3.
  eapply inevitably_trans; [by apply ack_falls|]. intros w4 H4. apply IH in H4.
  by rewrite <- app_assoc in H4.
Qed.

Lemma acts_resume nv vs s c : put_ch_flag false CHANNEL_STOPPED (cs_chan s) = c -> poised nv vs c ->
  exists c', acts (channel_resume nv) s c' (next_events c ++ [ack_level c false]) /\ c' = next_chan c.
Proof.
  intros Hs Hpo. exists (next_chan c). split; [|done]. pose proof (po_ready _ _ _ Hpo) as Hr.
  destruct (actives_counters nv c [] (se_rails _ (rd_separate _ Hr)) (po_actives _ _ _ Hpo) (po_counters _ _ _ Hpo))
    as [Hcnt Hx]. change (counter_state c = 0) in Hcnt. pose proof (rd_bundles _ Hr) as Hb.
  unfold channel_resume. apply acts_bind_nil with (c1 := c).
  { unfold acts, wpe, cupd, modify. cbn. by rewrite Hs, app_nil_r. }
  intros _ s1 Hs1.
  destruct (run_summarize nv s1 c false Hs1 Hr (po_acked _ _ _ Hpo)) as (st & Est & Hxa & Hsa); [lia|].
  eapply acts_run; [exact Est|]. apply acts_chan. cbv beta. rewrite Hs1, (rd_type _ Hr). unfold resume_1ofN.
  apply acts_chan. cbv beta. rewrite Hs1.
  pose proof (po_source _ _ _ Hpo) as Hsrc. unfold source_acts in Hsrc. apply andb_true_iff in Hsrc as [Hsrc Hstop].
  rewrite Hsrc, (rd_ack _ Hr), Hxa, Hsa, (rd_valid _ Hr), Hcnt. cbn [when].
  assert ((0 =? Z.of_nat (bundles c)) = false) as -> by (apply Z.eqb_neq; lia). cbn [negb orb when].
  assert (frame (next_chan c) = frame c) as Hf.
  { unfold next_chan. destruct (remaining c); rewrite frame_advanced; [|done].
    unfold stopped_source. rewrite <- (frame_put_flag false CHANNEL_SOURCING c) by done. by destruct c. }
  apply acts_bind with (c1 := next_chan c).
  - eapply acts_run; [done|]. rewrite <- (app_nil_r (next_events c)).
    apply acts_bind with (c1 := next_chan c); [by apply (acts_send nv vs)|].
    intros _ s2 <-. apply (acts_ret tt).
  - intros _ s2 Hs2. unfold __resume_4p_sink. apply acts_chan. cbv beta. rewrite Hs2.
    pose proof (rd_sinking _ Hr) as Hsk. unfold is_sinking in *. rewrite (frame_sense _ _ CHANNEL_SINKING Hf eq_refl), Hsk.
    pose proof (frame_fields _ _ Hf) as (_ & Ha & Hv & _ & _ & _ & Hc & Hxc & _).
    unfold has_ack, has_valid. rewrite Ha, Hv. fold (has_ack c). fold (has_valid c).
    rewrite (rd_ack _ Hr), (rd_valid _ Hr), Hxc, Hx, Hc, Hcnt. cbn [when negb Z.eqb]. eapply acts_run; [done|].
    assert (ack_level c false = ack_level (next_chan c) false) as -> by (symmetry; apply structure_ack_level, structure_frame, Hf).
    by apply acts_drive_ack.
Qed.

Lemma start_idle vs w : poised (w_nv w) vs (put_ch_flag false CHANNEL_STOPPED (w_chan w)) -> w_pending w = [] ->
  wpe (fun f => f = F_fuel) start (fun _ => idle vs (w_received w)) w.
Proof.
  intros Hpo Hp. set (c := put_ch_flag false CHANNEL_STOPPED (w_chan w)) in *.
  destruct (acts_resume (w_nv w) vs (mkCS (w_chan w) (w_rng w) [] (w_exceptions w)) c eq_refl Hpo) as (c' & Hacts & ->).
  unfold start. apply (wpe_act_in _ _ (w_pending w) [] w _ _ (idle vs (w_received w)) Hacts).
  intros w' E1 E2 E3 E4. eapply idle_after; [exact Hpo|done|done| |by rewrite E4, app_nil_r].
  rewrite E3, Hp. cbn [map app]. rewrite List.filter_app. cbn [List.filter].
  rewrite (changes_ack _ c false) by apply Hpo. by rewrite app_nil_r.
Qed.
End Phases.

(** C7: the handshake makes progress and delivers.  A four-phase channel of
    digits one of N, without a validity, that is a source and a sink at once,
    is resumed with its rails neutral and its acknowledge not active.  Then in
    whatever order the events happen, whatever their delays, nothing is stuck
    before [2 * bundles + 2] events for each value have happened, and after
    them nothing is scheduled any more, and the rails have shown the values of
    the source, each once and in order, at the acknowledges.  Only a random
    delay may run out of its fuel. *)
Theorem handshake_delivers {env : Env} (pol : error_policy_enum) (id : nat) (w : world) :
  let c := put_ch_flag false CHANNEL_STOPPED (w_chan w) in
  poised c (w_nv w) (remaining c) c -> w_pending w = [] ->
  wpe (fun f => f = F_fuel) start
    (fun _ => inevitably pol id
       (fun w' => w_pending w' = [] /\
          w_received w' = w_received w ++ map (fun p => decoded c p.1) (remaining c))
       (length (remaining c) * (2 * bundles c + 2))) w.
Proof.
  intros c Hpo Hp. eapply wpe_mono; [exact (start_idle id c (po_ready _ _ _ _ Hpo) (remaining c) w Hpo Hp)|].
  intros [] w' Hw. apply idle_delivers; [apply Hpo|exact Hw].
Qed.

(** *** Example *)

(** Two digits of base 4 on the nodes 3 to 10, and the enable 2. *)
Definition ex_loop : channel :=
  set_ack_signal 2 (set_ch_values [(27, false); (5, false)]
    (ex_channel CHANNEL_TYPE_1ofN 2 4 3 (Z.lor CHANNEL_SOURCING (Z.lor CHANNEL_SINKING CHANNEL_STOPPED)))).
Definition ex_neutral (n : nat) : res value_enum := Ok (if Nat.eqb n 2 then LOGIC_HIGH else LOGIC_LOW).
Definition ex_world : world := mkWorld ex_neutral ex_loop (mkRng 0 0) [] [] [].
Definition ex_resumed : channel := put_ch_flag false CHANNEL_STOPPED ex_loop.

Lemma ex_loop_separate : separate ex_resumed.
Proof. split; [apply (NoDup_seq 3 8)|by apply (bool_decide_unpack _); vm_compute..|done]. Qed.
Lemma ex_loop_carries v : 0 <= v < 2 ^ 63 -> carries ex_resumed v.
Proof. intros Hv. split; [done|cbn; lia|apply (NoDup_seq 3 8)|lia|left; split; [done|right; lia]]. Qed.
Lemma ex_loop_ready : ready ex_resumed.
Proof. split; try done; [exact ex_loop_separate|cbn; lia..]. Qed.
Lemma ex_rail n : n ∈ ch_data ex_resumed -> ex_neutral n = Ok LOGIC_LOW.
Proof. intros H%elem_of_seq. unfold ex_neutral. destruct (Nat.eqb_spec n 2); [lia|done]. Qed.
Lemma ex_loop_actives : actives ex_neutral ex_resumed [].
Proof.
  split; [constructor|apply list_subseteq_nil|]. intros n Hn. rewrite ex_rail by done.
  by rewrite bool_decide_false by apply not_elem_of_nil.
Qed.
Lemma ex_loop_poised : poised ex_resumed ex_neutral (remaining ex_resumed) ex_resumed.
Proof.
  split; try done; [exact ex_loop_ready| |exact ex_loop_actives|].
  - split; [intros n Hn; rewrite ex_rail by done; by eexists|done..|cbn; lia].
  - apply Forall_cons. split; [split; [done|by apply ex_loop_carries]|].
    apply Forall_cons. split; [split; [done|by apply ex_loop_carries]|by constructor].
Qed.
Lemma handshake_delivers_witness :
  wpe (fun f => f = F_fuel) (start (env := quiet_env))
    (fun _ => inevitably (env := quiet_env) ERROR_FATAL 0
       (fun w' => w_pending w' = [] /\ w_received w' = [11; 5]) 12) ex_world.
Proof. exact (handshake_delivers (env := quiet_env) ERROR_FATAL 0 ex_world ex_loop_poised eq_refl). Defined.
