(* ===== verification/ManagerProps.v ===== *)
(** The invariant of the manager of the channels: names, nodes and flags stay
    consistent, whatever is set up and however the channels act. *)
From S2P Require Import Prelude SimTime PullSet Expr OrdMap Node ProcGraph.
From S2P Require Import State Events Schedule Step Channel ChannelManager.
From S2P Require Import ChannelData ChannelProps.
From stdpp Require Import strings pretty.
Open Scope Z_scope.
Local Open Scope hackt_scope.
#[local] Abbreviation State := (State channel_manager).

(** ** The wiring of a channel *)
Definition wiring (c : channel) : string * nat * nat * list nat * nat * nat :=
  (ch_name c, ack_signal c, valid_signal c, ch_data c, bundles c, radix c).
Lemma wiring_nodes c c' : wiring c = wiring c' -> get_all_nodes c = get_all_nodes c'.
Proof. unfold wiring, get_all_nodes, has_ack, has_valid. intros [= _ -> -> -> _ _]. done. Qed.
Lemma wiring_dims c c' : wiring c = wiring c' -> dims_ok c -> dims_ok c'.
Proof. unfold wiring, dims_ok. intros [= _ _ _ -> -> ->]. done. Qed.
Lemma structure_wiring c c' : structure c = structure c' -> wiring c = wiring c'.
Proof. unfold structure, frame, wiring. destruct c, c'. cbn. intros [=]. by subst. Qed.

Lemma keeps_through {X Y A} (p : channel -> X) (q : channel -> Y) (m : CM A) :
  (forall c c', p c = p c' -> q c = q c') -> keeps p m -> keeps q m.
Proof. intros Hpq Hm s a s' E. by eapply Hpq, Hm. Qed.
Lemma frame_wiring c c' : frame c = frame c' -> wiring c = wiring c'.
Proof. intros H. by apply structure_wiring, structure_frame. Qed.

(** ** The invariant

    [x], if any, is a node of a channel that the manager does not know yet. *)
Record manager_inv (x : option (nat * nat)) (s : State) : Prop := {
  mi_names : forall name k, channel_index_set (_channel_manager s) !! name = Some k ->
    exists c, channel_pool (_channel_manager s) !! k = Some c /\ ch_name c = name;
  mi_dims : forall k c, channel_pool (_channel_manager s) !! k = Some c -> dims_ok c;
  mi_nodes : forall k c ni, channel_pool (_channel_manager s) !! k = Some c -> ni ∈ get_all_nodes c ->
    ni <> INVALID_NODE_INDEX -> x <> Some (k, ni) -> k ∈ channels_of (_channel_manager s) ni;
  mi_flags : forall ni k, k ∈ channels_of (_channel_manager s) ni ->
    (k < length (channel_pool (_channel_manager s)))%nat /\
    exists n, node_pool s !! ni = Some n /\ in_channel n = true
}.

(** What it depends on. *)
Lemma manager_inv_ext x s s' : _channel_manager s = _channel_manager s' -> node_pool s = node_pool s' ->
  manager_inv x s -> manager_inv x s'.
Proof. intros E1 E2 [H1 H2 H3 H4]. rewrite E1, E2 in *. by split. Qed.

Lemma channels_of_insert m ni key x : channels_of (insert_node_channel ni key m) x =
  if decide (x = ni) then s_insert key (channels_of m ni) else channels_of m x.
Proof.
  unfold channels_of at 1, insert_node_channel. cbn. rewrite m_find_set.
  destruct (decide (x = ni)) as [->|Hne].
  - assert (key_eqb ni ni = true) as -> by apply key_eqb_refl. done.
  - rewrite key_eqb_neq by done. done.
Qed.

(** A change of one channel that adds at most the node [ni]. *)
Definition adds (ni : nat) (f : channel -> channel) : Prop := forall c,
  ch_name (f c) = ch_name c /\ (dims_ok c -> dims_ok (f c)) /\
  forall x, x ∈ get_all_nodes (f c) -> x <> INVALID_NODE_INDEX -> x = ni \/ x ∈ get_all_nodes c.

Lemma put_channel_inv k c c' x y s :
  channel_pool (_channel_manager s) !! k = Some c -> manager_inv x s ->
  ch_name c' = ch_name c -> dims_ok c' ->
  (forall ni, ni ∈ get_all_nodes c' -> ni <> INVALID_NODE_INDEX ->
     (ni ∈ get_all_nodes c /\ x <> Some (k, ni)) \/ y = Some (k, ni)) ->
  (x = y \/ x = None) ->
  manager_inv y (put__channel_manager (put_channel k c' (_channel_manager s)) s).
Proof.
  intros Hk [H1 H2 H3 H4] Hn Hd Hnodes Hxy.
  assert (k < length (channel_pool (_channel_manager s)))%nat as Hlt by (by eapply lookup_lt_Some).
  split; cbn.
  - intros name k' E. destruct (H1 _ _ E) as (c1 & E1 & En). destruct (decide (k' = k)) as [->|Hne].
    + rewrite list_lookup_insert_eq by done. exists c'. split; [done|]. congruence.
    + rewrite list_lookup_insert_ne by done. by exists c1.
  - intros k' c1 E. destruct (decide (k' = k)) as [->|Hne].
    + rewrite list_lookup_insert_eq in E by done. by injection E as <-.
    + rewrite list_lookup_insert_ne in E by done. by eapply H2.
  - intros k' c1 ni E Hin H0 Hx. change (channels_of (put_channel k c' ?m) ni) with (channels_of m ni).
    destruct (decide (k' = k)) as [->|Hne].
    + rewrite list_lookup_insert_eq in E by done. injection E as <-.
      destruct (Hnodes ni Hin H0) as [[? ?]|?]; [by eapply H3|done].
    + rewrite list_lookup_insert_ne in E by done. eapply H3; [done..|]. destruct Hxy as [-> | ->]; done.
  - intros ni k' Hin. rewrite length_insert. by apply H4.
Qed.

Section Primitives.
Implicit Types s : State.

Lemma wlp_get_channel key s (Q : channel -> State -> Prop) :
  (forall c, channel_pool (_channel_manager s) !! key = Some c -> Q c s) -> wlp (get_channel key) Q s.
Proof. intros H. apply wpe_bind, wpe_gets, wpe_of_option; [done|]. done. Qed.

Lemma wlp_upd_adds ni key f s : adds ni f -> manager_inv None s ->
  wlp (upd_channel key f) (fun _ => manager_inv (Some (key, ni))) s.
Proof.
  intros Hf Hi. apply wpe_bind, wlp_get_channel. intros c Hc. apply wpe_modify.
  destruct (Hf c) as (Hn & Hd & Hx). eapply put_channel_inv; [done..| | |by right].
  - by eapply Hd, Hi.
  - intros n Hn1 Hn2. destruct (Hx n Hn1 Hn2) as [-> |?]; [by right|by left].
Qed.
Lemma wlp_upd_same key f s : (forall c, wiring (f c) = wiring c) -> manager_inv None s ->
  wlp (upd_channel key f) (fun _ => manager_inv None) s.
Proof.
  intros Hf Hi. apply wpe_bind, wlp_get_channel. intros c Hc. apply wpe_modify.
  eapply put_channel_inv; [done..| | | |by left].
  - specialize (Hf c). by injection Hf.
  - eapply wiring_dims; [symmetry; apply Hf|]. by eapply Hi.
  - intros n Hn1 _. left. by rewrite (wiring_nodes _ c) in Hn1.
Qed.
Lemma wlp_upd_none key f s : adds INVALID_NODE_INDEX f -> manager_inv None s ->
  wlp (upd_channel key f) (fun _ => manager_inv None) s.
Proof.
  intros Hf Hi. eapply wpe_mono; [by eapply wlp_upd_adds|]. intros _ s1 [H1 H2 H3 H4].
  split; [done..| |done]. intros k c ni E Hin H0 _. eapply H3; [done..|]. congruence.
Qed.
(** A node that is known already. *)
Lemma manager_inv_known key ni s : manager_inv (Some (key, ni)) s ->
  key ∈ channels_of (_channel_manager s) ni -> manager_inv None s.
Proof.
  intros [H1 H2 H3 H4] Hk. split; [done..| |done]. intros k c n E Hin H0 _.
  destruct (decide ((k, n) = (key, ni))) as [[= -> ->]|Hne]; [done|]. eapply H3; [done..|]. congruence.
Qed.

Lemma wlp_attach ni key s : (key < length (channel_pool (_channel_manager s)))%nat ->
  manager_inv (Some (key, ni)) s -> wlp (attach_node ni key) (fun _ => manager_inv None) s.
Proof.
  intros Hkey [H1 H2 H3 H4]. unfold attach_node, upd_node. apply wpe_bind.
  unfold get_node, wpe, bind, gets, of_option. destruct (node_pool s !! ni) as [n|] eqn:En; cbn; [|done].
  unfold upd_manager, modify. cbn. split; cbn; [done..| |].
  - intros k c x E Hin H0 _. rewrite channels_of_insert. destruct (decide (x = ni)) as [->|Hne].
    + apply elem_of_s_insert. destruct (decide (k = key)) as [->|]; [by left|]. right. eapply H3; [done..|]. congruence.
    + eapply H3; [done..|]. congruence.
  - intros x k Hin. rewrite channels_of_insert in Hin. destruct (decide (x = ni)) as [->|Hne].
    + apply elem_of_s_insert in Hin. split.
      { destruct Hin as [->|Hin]; [done|]. by apply H4 in Hin as [? _]. }
      eexists. rewrite list_lookup_insert_eq by (by eapply lookup_lt_Some). split; [done|].
      apply (has_flag_put_same true _ 3). lia.
    + destruct (H4 _ _ Hin) as (Hlt & n' & En' & Hf). split; [done|]. exists n'.
      by rewrite list_lookup_insert_ne by done.
Qed.

(** The channel is changed, and its new node attached. *)
Lemma wlp_upd_attach ni key f s : adds ni f -> manager_inv None s ->
  wlp (upd_channel key f ;;; attach_node ni key) (fun _ => manager_inv None) s.
Proof.
  intros Hf Hi. apply wpe_bind. pose proof (wlp_upd_adds ni key f s Hf Hi) as H.
  apply wpe_bind, wlp_get_channel. intros c Hc. apply wpe_modify.
  apply wlp_attach; [cbn; rewrite length_insert; by eapply lookup_lt_Some|].
  unfold upd_channel, get_channel, wpe, bind, gets, of_option in H. by rewrite Hc in H.
Qed.

(** A signal is set, and attached unless the channel has its node already. *)
Lemma wlp_signal ni key f (bad : channel -> bool) s :
  ni <> INVALID_NODE_INDEX -> adds ni f -> manager_inv None s ->
  (forall c, bad (f c) = true -> ni ∈ get_all_nodes c) ->
  wlp (upd_channel key f ;;; c <- get_channel key ;;
       if bad c then ret S_error else attach_node ni key ;;; ret S_done) (fun _ => manager_inv None) s.
Proof.
  intros H0 Hf Hi Hbad. pose proof (wlp_upd_adds ni key f s Hf Hi) as H.
  apply wpe_bind. apply wpe_bind, wlp_get_channel. intros c Hc. apply wpe_modify.
  unfold upd_channel, get_channel, wpe at 1, bind, gets, of_option in H. rewrite Hc in H.
  assert (key < length (channel_pool (_channel_manager s)))%nat as Hlt by (by eapply lookup_lt_Some).
  apply wpe_bind, wlp_get_channel. cbn. rewrite list_lookup_insert_eq by done. intros ? [= <-].
  destruct (bad (f c)) eqn:E.
  - apply wpe_ret. eapply manager_inv_known; [exact H|]. eapply Hi; [exact Hc|by apply Hbad|done|done].
  - apply wpe_bind. eapply wpe_mono; [apply wlp_attach; [|exact H]|].
    + cbn. by rewrite length_insert.
    + intros u s1 H1. by apply wpe_ret.
Qed.
Lemma wlp_init_counter key s : manager_inv None s -> wlp (init_counter key) (fun _ => manager_inv None) s.
Proof.
  intros Hi. apply wpe_bind, wpe_gets, wpe_bind, wlp_get_channel. intros c Hc.
  apply wpe_bind, wpe_lift_res; [|done]. intros [t st] E.
  assert (keeps wiring (initialize_data_counter (node_value s))) as Hk.
  { unfold initialize_data_counter, get_values, get_ledr_rail, get_value, chan. solve_keeps;
      try (apply keeps_readonly; solve [solve_readonly]); by apply keeps_cupd. }
  apply Hk in E. cbn in E. apply wpe_bind, wpe_modify, wpe_ret. cbn [snd].
  eapply put_channel_inv; [done..| | | |by left].
  - by injection E.
  - eapply wiring_dims; [symmetry; exact E|]. by eapply Hi.
  - intros n Hn _. left. by rewrite (wiring_nodes _ _ E) in Hn.
Qed.

Lemma channels_of_pool m l i x : channels_of (set_channel_pool l (set_channel_index_set i m)) x = channels_of m x.
Proof. done. Qed.

Lemma wlp_register dflt base f k s : manager_inv None s ->
  (forall c, ch_name (f c) = base /\ get_all_nodes (f (channel_construct dflt)) = [] /\
     dims_ok (f (channel_construct dflt))) ->
  (forall key s1, manager_inv None s1 -> wlp (k key) (fun _ => manager_inv None) s1) ->
  wlp (register_channel dflt base f k) (fun _ => manager_inv None) s.
Proof.
  intros Hi Hf Hk. unfold register_channel. apply wpe_bind, wpe_gets. unfold lookup_channel.
  destruct (channel_index_set (_channel_manager s) !! base) eqn:E; [by apply wpe_ret|].
  apply wpe_bind, wpe_modify, Hk. destruct Hi as [H1 H2 H3 H4].
  destruct (Hf (channel_construct dflt)) as (Hn & Hnodes & Hd).
  set (c1 := f (channel_construct dflt)) in *. set (pool := channel_pool (_channel_manager s)) in *.
  split; cbn -[channels_of]; fold pool.
  - intros name k' E'. destruct (decide (name = base)) as [->|Hne].
    + rewrite lookup_insert_eq in E'. injection E' as <-. exists c1. split; [|done]. by apply list_lookup_middle.
    + rewrite lookup_insert_ne in E' by done. destruct (H1 _ _ E') as (c & Ec & En). exists c. split; [|done].
      rewrite lookup_app_l; [done|by eapply lookup_lt_Some].
  - intros k' c E'. apply lookup_app_Some in E' as [E'|[_ E']]; [by eapply H2|].
    apply list_lookup_singleton_Some in E' as [_ <-]. done.
  - intros k' c ni E' Hin H0 _. apply lookup_app_Some in E' as [E'|[_ E']]; [by eapply H3|].
    apply list_lookup_singleton_Some in E' as [_ <-]. rewrite Hnodes in Hin. by apply elem_of_nil in Hin.
  - intros ni k' Hin. destruct (H4 _ _ Hin) as [Hlt ?]. split; [|done]. rewrite length_app. fold pool in Hlt. lia.
Qed.
End Primitives.

(** ** Setting up *)
Lemma elem_of_nodes x c : x ∈ get_all_nodes c <->
  (has_ack c = true /\ x = ack_signal c) \/ (has_valid c = true /\ x = valid_signal c) \/ x ∈ ch_data c.
Proof.
  unfold get_all_nodes. rewrite !elem_of_app. destruct (has_ack c), (has_valid c);
    rewrite ?list_elem_of_singleton, ?elem_of_nil; firstorder congruence.
Qed.
Lemma not_invalid n : n <> INVALID_NODE_INDEX -> negb (Nat.eqb n 0) = true.
Proof. intros H. apply negb_true_iff. by apply Nat.eqb_neq. Qed.

Lemma adds_ack ni : adds ni (set_ack_signal ni).
Proof. intros c. split_and!; [done..|]. intros x. rewrite !elem_of_nodes. cbn. firstorder congruence. Qed.
Lemma adds_valid ni : adds ni (set_valid_signal ni).
Proof. intros c. split_and!; [done..|]. intros x. rewrite !elem_of_nodes. cbn. firstorder congruence. Qed.
Lemma elem_of_insert_or (l : list nat) i y x : x ∈ <[i := y]> l -> x = y \/ x ∈ l.
Proof.
  intros (j & Hj)%list_elem_of_lookup_1. destruct (decide (j = i)) as [->|Hne].
  - destruct (decide (i < Datatypes.length l)%nat) as [Hlt|Hge].
    + rewrite list_lookup_insert_eq in Hj by done. injection Hj as <-. by left.
    + rewrite list_insert_ge in Hj by lia. right. by eapply list_elem_of_lookup_2.
  - rewrite list_lookup_insert_ne in Hj by done. right. by eapply list_elem_of_lookup_2.
Qed.
Lemma adds_rail j k ni : adds ni (set_rail j k ni).
Proof.
  intros c. split_and!; [done|unfold dims_ok; cbn; by rewrite length_insert|].
  intros x. rewrite !elem_of_nodes. cbn. intros [H|[H|H]] _; [tauto..|].
  apply elem_of_insert_or in H. tauto.
Qed.
Lemma adds_dims nb nr : adds INVALID_NODE_INDEX (set_data_dims nb nr).
Proof.
  intros c. split_and!; [done|intros _; unfold dims_ok; cbn; apply length_replicate|].
  intros x. rewrite !elem_of_nodes. cbn. intros [H|[H|H]] _; [tauto..|].
  apply elem_of_replicate in H as [-> _]. by left.
Qed.
Lemma adds_clock e cs ci vi : adds vi (configure_clock_source e cs ci vi).
Proof.
  intros c. unfold configure_clock_source. split_and!; [by destruct e|by destruct e|].
  intros x. rewrite !elem_of_nodes. destruct e; cbn; firstorder congruence.
Qed.

(** The nodes that names are looked up to are nodes of the simulator, which
    has one for the invalid index too. *)
Definition nodes_known (parse : string -> option nat) (s : State) : Prop :=
  (0 < length (node_pool s))%nat /\ forall n ni, parse n = Some ni -> (ni < length (node_pool s))%nat.

(** The channel [key], of this type and size. *)
Definition chan_at (key : nat) (P : channel_types -> nat -> Prop) (s : State) : Prop :=
  exists c, channel_pool (_channel_manager s) !! key = Some c /\ P (ch_type c) (length (ch_data c)).
Definition any_channel (_ : channel_types) (_ : nat) : Prop := True.
(** There is a data rail to count, if the channel is level-encoded. *)
Definition countable (t : channel_types) (n : nat) : Prop := t = CHANNEL_TYPE_LEDR -> n <> 0%nat.

Lemma upd_channel_run key f c s : channel_pool (_channel_manager s) !! key = Some c ->
  upd_channel key f s = Ok (tt, put__channel_manager (put_channel key (f c) (_channel_manager s)) s).
Proof. intros Hc. unfold upd_channel, get_channel, bind, gets, of_option. by rewrite Hc. Qed.

Lemma attach_node_run ni key s : (ni < length (node_pool s))%nat ->
  exists s', attach_node ni key s = Ok (tt, s') /\
    channel_pool (_channel_manager s') = channel_pool (_channel_manager s) /\
    length (node_pool s') = length (node_pool s).
Proof.
  intros Hni. destruct (lookup_lt_is_Some_2 (node_pool s) ni Hni) as [n Hn].
  unfold attach_node, upd_node, get_node, bind, gets, of_option. rewrite Hn.
  eexists. split; [reflexivity|]. split; [done|]. apply length_insert.
Qed.

Section Setup.
Context (expand : string -> option (list global_reference)) (parse : string -> option nat) (dflt : real_time).

Definition good (s : State) : Prop := manager_inv None s /\ nodes_known parse s.

(** An operation that returns, and keeps the manager consistent, even when it
    fails. *)
Definition consistent {A} (m : M State A) : Prop := forall s, good s -> wp m (fun _ => good) s.

(** The same of an operation on a channel, which leaves it as in [Q]. *)
Definition goes {A} (key : nat) (P Q : channel_types -> nat -> Prop) (m : M State A) : Prop :=
  forall s, good s -> chan_at key P s -> wp m (fun _ s' => good s' /\ chan_at key Q s') s.

Lemma chan_at_mono key (P Q : channel_types -> nat -> Prop) s :
  (forall t n, P t n -> Q t n) -> chan_at key P s -> chan_at key Q s.
Proof. intros H (c & Hc & HP). exists c. auto. Qed.

Lemma consistent_ret {A} (a : A) : consistent (ret a).
Proof. intros s Hi. by apply wpe_ret. Qed.
Lemma consistent_and_then m k : consistent m -> consistent k -> consistent (and_then m k).
Proof.
  intros Hm Hk s Hi. apply wpe_bind. eapply wpe_mono; [by apply Hm|]. intros r s1 H1.
  destruct r; [by apply Hk|by apply wpe_ret..].
Qed.

Section Channel.
Context (key : nat).
Implicit Types P Q R : channel_types -> nat -> Prop.

Lemma goes_ret {A} P (a : A) : goes key P P (ret a).
Proof. intros s Hi Hc. by apply wpe_ret. Qed.
Lemma goes_bind {A B} P Q R (m : M State A) (k : A -> M State B) :
  goes key P Q m -> (forall a, goes key Q R (k a)) -> goes key P R (bind m k).
Proof.
  intros Hm Hk s Hi Hc. apply wpe_bind. eapply wpe_mono; [by apply Hm|]. intros a s1 [H1 H2].
  by apply Hk.
Qed.
Lemma goes_weaken {A} P Q R (m : M State A) :
  (forall t n, Q t n -> R t n) -> goes key P Q m -> goes key P R m.
Proof.
  intros HQ Hm s Hi Hc. eapply wpe_mono; [by apply Hm|]. intros a s1 [H1 H2].
  split; [done|by eapply chan_at_mono].
Qed.
Lemma goes_and_then P Q m k : goes key P Q m -> goes key Q Q k -> goes key P Q (and_then m k).
Proof. intros Hm Hk. eapply goes_bind; [exact Hm|]. intros []; [done|apply goes_ret..]. Qed.

(** A change of the channel. *)
Lemma goes_upd P Q f :
  (forall s, manager_inv None s -> wlp (upd_channel key f) (fun _ => manager_inv None) s) ->
  (forall c, P (ch_type c) (length (ch_data c)) -> Q (ch_type (f c)) (length (ch_data (f c)))) ->
  goes key P Q (upd_channel key f).
Proof.
  intros Hm HPQ s [Hi Hn] (c & Hc & HP). specialize (Hm s Hi). unfold wpe in *.
  rewrite (upd_channel_run key f c s Hc) in *. split; [split; [exact Hm|exact Hn]|].
  exists (f c). split; [|auto]. cbn. rewrite list_lookup_insert_eq; [done|by eapply lookup_lt_Some].
Qed.
Lemma goes_same P f : (forall c, wiring (f c) = wiring c /\ ch_type (f c) = ch_type c) ->
  goes key P P (upd_channel key f).
Proof.
  intros Hf. apply goes_upd; [intros s Hi; apply wlp_upd_same; [apply Hf|done]|].
  intros c HP. destruct (Hf c) as [Hw ->]. by injection Hw as _ _ _ -> _ _.
Qed.
Lemma goes_dims P Q nb nr : (forall t n, P t n -> Q t (nb * nr)%nat) ->
  goes key P Q (upd_channel key (set_data_dims nb nr)).
Proof.
  intros HPQ. apply goes_upd; [intros s Hi; by apply wlp_upd_none; [apply adds_dims|]|].
  intros c HP. cbn. change (Datatypes.length ?l) with (length l). rewrite length_replicate. by eapply HPQ.
Qed.

(** A node is added to the channel. *)
Definition same_shape (f : channel -> channel) : Prop :=
  forall c, ch_type (f c) = ch_type c /\ length (ch_data (f c)) = length (ch_data c).
Lemma goes_attach {B} P Q ni f (k : M State B) : (exists n, parse n = Some ni) -> adds ni f ->
  (forall c, P (ch_type c) (length (ch_data c)) -> P (ch_type (f c)) (length (ch_data (f c)))) ->
  goes key P Q k -> goes key P Q (upd_channel key f ;;; attach_node ni key ;;; k).
Proof.
  intros [n Hn] Hf HP Hk s [Hi [H0 Hns]] (c & Hc & Hcp).
  pose proof (wlp_upd_attach ni key f s Hf Hi) as H. unfold wpe, bind in H.
  rewrite (upd_channel_run key f c s Hc) in H.
  set (s1 := put__channel_manager (put_channel key (f c) (_channel_manager s)) s) in *.
  destruct (attach_node_run ni key s1) as (s2 & E2 & Hpool & Hlen); [by eapply Hns|].
  rewrite E2 in H. apply wpe_bind. unfold wpe at 1. rewrite (upd_channel_run key f c s Hc). fold s1.
  apply wpe_bind. unfold wpe at 1. rewrite E2. apply Hk.
  - split; [done|]. unfold nodes_known. rewrite Hlen. done.
  - exists (f c). rewrite Hpool. split; [|auto]. cbn.
    rewrite list_lookup_insert_eq; [done|by eapply lookup_lt_Some].
Qed.
Lemma goes_signal P ni f bad : (exists n, parse n = Some ni) -> ni <> INVALID_NODE_INDEX -> adds ni f ->
  same_shape f -> (forall c, bad (f c) = true -> ni ∈ get_all_nodes c) ->
  goes key P P (upd_channel key f ;;; c <- get_channel key ;;
    if bad c then ret S_error else attach_node ni key ;;; ret S_done).
Proof.
  intros [n Hn] H0 Hf Hsame Hbad s [Hi [Hz Hns]] (c & Hc & Hcp).
  pose proof (wlp_signal ni key f bad s H0 Hf Hi Hbad) as H.
  assert (key < length (channel_pool (_channel_manager s)))%nat as Hlt by (by eapply lookup_lt_Some).
  set (s1 := put__channel_manager (put_channel key (f c) (_channel_manager s)) s).
  assert (channel_pool (_channel_manager s1) !! key = Some (f c)) as Hc1
    by (cbn; by rewrite list_lookup_insert_eq).
  assert (P (ch_type (f c)) (length (ch_data (f c)))) as HP1 by (destruct (Hsame c) as [-> ->]; done).
  destruct (attach_node_run ni key s1) as (s2 & E2 & Hpool & Hlen); [by eapply Hns|].
  unfold wpe, bind in *. rewrite (upd_channel_run key f c s Hc) in *. fold s1 in H |- *.
  unfold get_channel, bind, gets, of_option, ret in *. rewrite Hc1 in *.
  destruct (bad (f c)); [split; [by split|by exists (f c)]|]. rewrite E2 in *.
  split; [split; [done|]|].
  - unfold nodes_known. rewrite Hlen. done.
  - exists (f c). by rewrite Hpool.
Qed.

(** Every node of a channel is a node of the simulator. *)
Lemma channel_node_value s c ni : good s -> channel_pool (_channel_manager s) !! key = Some c ->
  ni ∈ get_all_nodes c \/ ni = INVALID_NODE_INDEX -> exists v, node_value s ni = Ok v.
Proof.
  intros [Hi [Hz _]] Hc Hin. unfold node_value.
  assert (is_Some (node_pool s !! ni)) as [x ->]; [|eauto].
  destruct (decide (ni = INVALID_NODE_INDEX)) as [->|Hne]; [by apply lookup_lt_is_Some_2|].
  destruct Hin as [Hin|?]; [|done].
  pose proof (mi_nodes _ _ Hi key c ni Hc Hin Hne ltac:(done)) as Hk.
  destruct (mi_flags _ _ Hi ni key Hk) as [_ (x & -> & _)]. by eexists.
Qed.

(** The counters are all that counting changes. *)
Lemma initialize_run nv st :
  let c := cs_chan st in
  (forall ni, ni ∈ ch_data c -> exists v, nv ni = Ok v) -> (exists v, nv (repeat_rail c) = Ok v) ->
  countable (ch_type c) (length (ch_data c)) ->
  exists thrown cx, initialize_data_counter nv st =
    Ok (thrown, mkCS (set_counters cx c) (cs_rng st) (cs_events st) (cs_exceptions st)).
Proof.
  intros c Hd Hr Hl. unfold initialize_data_counter. unfold bind at 1. cbn [chan gets]. fold c.
  destruct (ch_type c) eqn:Ht.
  all: try (unfold bind at 1; rewrite (get_values_run nv (ch_data c) st Hd); by eexists _, _).
  all: try by eexists _, _.
  specialize (Hl eq_refl). destruct (ch_data c) as [|d l] eqn:El; [done|].
  assert (get_ledr_rail st = Ok (d, st)) as E.
  { unfold get_ledr_rail, bind, chan, gets, of_option, ledr_data_rail. fold c. by rewrite El. }
  rewrite (bind_run _ _ _ _ _ E).
  unfold bind at 1. rewrite (get_values_run nv [d; repeat_rail c] st); [by eexists _, _|].
  intros ni [->|[->|[]%elem_of_nil]%elem_of_cons]%elem_of_cons; [|done].
  apply Hd. apply elem_of_cons. by left.
Qed.

Lemma goes_init P : (forall t n, P t n -> countable t n) -> goes key P P (init_counter key).
Proof.
  intros HP s Hg (c & Hc & Hcp). pose proof (wlp_init_counter key s (proj1 Hg)) as H.
  destruct (initialize_run (node_value s) (mkCS c (rng s) [] [])) as (t & cx & E).
  - intros ni Hin. eapply channel_node_value; [done..|]. left. apply elem_of_nodes. by right; right.
  - eapply channel_node_value; [done..|]. cbn. unfold repeat_rail.
    destruct (decide (valid_signal c = INVALID_NODE_INDEX)) as [?|Hne]; [by right|left].
    apply elem_of_nodes. right. left. split; [|done]. by apply not_invalid.
  - by apply HP.
  - assert (init_counter key s = Ok (if t : bool then S_thrown else S_done,
      put__channel_manager (put_channel key (set_counters cx c) (_channel_manager s)) s)) as Er.
    { unfold init_counter, get_channel, bind, gets, of_option, lift_res, upd_manager, modify.
      rewrite Hc. unfold ret. cbv beta iota. by rewrite E. }
    unfold wpe in *. rewrite Er in *. split; [split; [exact H|apply Hg]|].
    exists (set_counters cx c). split; [|done]. cbn.
    rewrite list_lookup_insert_eq; [done|by eapply lookup_lt_Some].
Qed.

(** *** The steps of the operations *)
Lemma goes_with_node P Q n k :
  (forall t m, P t m -> Q t m) ->
  (forall ni, parse n = Some ni -> ni <> INVALID_NODE_INDEX -> goes key P Q (k ni)) ->
  goes key P Q (with_node parse n k).
Proof.
  intros HPQ Hk. unfold with_node. destruct (parse n) as [ni|]; [|apply (goes_weaken P P), goes_ret; done].
  destruct (Nat.eqb_spec ni INVALID_NODE_INDEX); [apply (goes_weaken P P), goes_ret; done|by apply Hk].
Qed.

Lemma same_rail j k ni : same_shape (set_rail j k ni).
Proof. intros c. split; [done|]. apply length_insert. Qed.
Lemma shape_keeps P f : same_shape f ->
  forall c, P (ch_type c) (length (ch_data c)) -> P (ch_type (f c)) (length (ch_data (f c))).
Proof. intros Hf c HP. by destruct (Hf c) as [-> ->]. Qed.

Lemma goes_assign P path dks al : goes key P P (assign_rails parse key path dks al).
Proof.
  revert al. induction dks as [|[j k] dks IH]; intros al; cbn [assign_rails]; [apply goes_ret|].
  apply goes_with_node; [done|]. intros ni Hni _.
  apply goes_attach; [eauto|apply adds_rail|apply shape_keeps, same_rail|].
  destruct (s_mem ni al); [apply goes_ret|apply IH].
Qed.
Lemma goes_get_channel {A} P Q (k : channel -> M State A) :
  (forall c, goes key P Q (k c)) -> goes key P Q (c <- get_channel key ;; k c).
Proof.
  intros Hk s Hg (c & Hc & HP). apply wpe_bind. unfold get_channel. apply wpe_bind, wpe_gets.
  rewrite Hc. apply wpe_ret. apply Hk; [done|]. by exists c.
Qed.
Lemma goes_allocate t bn nb rn nr : t <> CHANNEL_TYPE_LEDR ->
  goes key (fun t' _ => t' = t) (fun t' _ => t' = t) (allocate_data_rails parse key bn nb rn nr).
Proof.
  intros Ht. unfold allocate_data_rails. apply goes_get_channel. intros c.
  destruct (String.eqb rn "").
  - apply (goes_bind _ (fun t' _ => t' = t)); [by apply goes_dims|]. intros _. apply goes_ret.
  - apply (goes_bind _ (fun t' _ => t' = t)); [by apply goes_dims|]. intros _.
    apply goes_and_then; [apply goes_assign|]. apply goes_init. intros t' n ->. by intros ?.
Qed.
Lemma goes_2p_ack P a i : goes key P P (set_channel_2p_ack parse key a i).
Proof.
  apply goes_with_node; [done|]. intros ni Hni _.
  apply goes_attach; [eauto|apply adds_ack|by apply shape_keeps|].
  eapply goes_bind; [by apply goes_same|]. intros _. apply goes_ret.
Qed.
Lemma goes_2p_req P a i : goes key P P (set_channel_2p_req parse key a i).
Proof.
  apply goes_with_node; [done|]. intros ni Hni _.
  apply goes_attach; [eauto|apply adds_valid|by apply shape_keeps|].
  eapply goes_bind; [by apply goes_same|]. intros _. apply goes_ret.
Qed.
(** The data rail of a level-encoded channel. *)
Lemma goes_ledr_data n i : goes key any_channel (fun _ m => m <> 0%nat) (set_ledr_data parse key n i).
Proof.
  unfold set_ledr_data. eapply goes_bind; [by apply goes_dims with (Q := fun _ m => m <> 0%nat)|]. intros _.
  apply goes_with_node; [done|]. intros ni Hni _.
  apply goes_attach; [eauto|apply adds_rail|apply (shape_keeps (fun _ m => m <> 0%nat)), same_rail|].
  eapply goes_bind; [by apply goes_same|]. intros _. apply goes_ret.
Qed.
End Channel.

Lemma alias_node ni c : alias_data_rails ni c = true -> ni ∈ get_all_nodes c.
Proof.
  intros (x & Hx & <-%Nat.eqb_eq)%existsb_exists. apply elem_of_nodes. right. right. by apply list_elem_of_In.
Qed.

(** An operation on a channel that is found by its name. *)
Lemma consistent_lookup base (m : nat -> M State setup) k :
  (forall key, goes key any_channel any_channel (m key)) -> consistent k ->
  consistent (g <- gets _channel_manager ;;
    match lookup_channel g base with Some key => m key | None => k end).
Proof.
  intros Hm Hk s Hg. apply wpe_bind, wpe_gets. unfold lookup_channel.
  destruct (channel_index_set _ !! base) as [key|] eqn:E; [|by apply Hk].
  destruct (mi_names _ _ (proj1 Hg) base key E) as (c & Hc & _).
  eapply wpe_mono; [apply Hm; [done|by exists c]|]. by intros r s1 [].
Qed.
Lemma goes_ack key P base sa ia : goes key P P (set_channel_ack parse key base sa ia).
Proof.
  unfold set_channel_ack. eapply goes_bind; [by apply goes_same|]. intros _.
  apply goes_with_node; [done|]. intros ni Hni H0.
  apply (goes_signal key P ni (set_ack_signal ni) (alias_data_rails ni)); [eauto|done|apply adds_ack|done|].
  intros c. apply (alias_node ni c).
Qed.
Lemma goes_valid key P base vn sv : goes key P P (set_channel_valid parse key base vn sv).
Proof.
  unfold set_channel_valid. eapply goes_bind; [by apply goes_same|]. intros _.
  apply goes_with_node; [done|]. intros ni Hni H0.
  apply (goes_signal key P ni (set_valid_signal ni)
           (fun c => alias_data_rails ni c || Nat.eqb (ack_signal c) (valid_signal c)));
    [eauto|done|apply adds_valid|done|].
  intros c [Ha|Ha%Nat.eqb_eq]%orb_true_iff; [by apply (alias_node ni c)|]. cbn in Ha.
  apply elem_of_nodes. left. unfold has_ack. rewrite Ha. split; [by apply not_invalid|done].
Qed.
Lemma consistent_ack_valid base ha sa ia vn hv sv :
  consistent (set_channel_ack_valid parse base ha sa ia vn hv sv).
Proof.
  unfold set_channel_ack_valid.
  apply (consistent_lookup base (fun key =>
    and_then (if ha then set_channel_ack parse key base sa ia else ret S_done)
      (if hv then set_channel_valid parse key base vn sv else ret S_done))); [|apply consistent_ret].
  intros key. apply goes_and_then; [destruct ha|destruct hv]; auto using goes_ret, goes_ack, goes_valid.
Qed.
Lemma consistent_refs base body : (forall g, consistent (body g)) -> consistent (for_references expand base body).
Proof.
  intros Hb. unfold for_references. destruct (expand base) as [refs|]; [|apply consistent_ret].
  induction refs as [|g refs IH]; cbn [for_each_reference]; [apply consistent_ret|]. by apply consistent_and_then.
Qed.

(** What is done to a new channel. *)
Definition starts (t : channel_types) (k : nat -> M State setup) : Prop :=
  forall key s, good s -> chan_at key (fun t' _ => t' = t) s -> wp (k key) (fun _ => good) s.
Lemma starts_goes t Q k : (forall key, goes key (fun t' _ => t' = t) Q (k key)) -> starts t k.
Proof. intros Hk key s Hg Hc. eapply wpe_mono; [by apply Hk|]. by intros r s1 []. Qed.
Lemma starts_and_then t Q m k : (forall key, goes key (fun t' _ => t' = t) Q (m key)) -> consistent k ->
  starts t (fun key => and_then (m key) k).
Proof.
  intros Hm Hk key s Hg Hc. apply wpe_bind. eapply wpe_mono; [by apply Hm|]. intros r s1 [H1 _].
  destruct r; [by apply Hk|by apply wpe_ret..].
Qed.
Lemma starts_catch t k : starts t k -> starts t (fun key => catch_all (k key)).
Proof. intros Hk key s Hg Hc. apply wpe_bind. eapply wpe_mono; [by apply Hk|]. intros r s1 H1. by apply wpe_ret. Qed.

Lemma starts_allocate t base bn nb rn nr ha sa ia vn hv sv : t <> CHANNEL_TYPE_LEDR ->
  starts t (fun key => and_then (allocate_data_rails parse key bn nb rn nr)
    (set_channel_ack_valid parse base ha sa ia vn hv sv)).
Proof.
  intros Ht. apply (starts_and_then t (fun t' _ => t' = t)); [|apply consistent_ack_valid].
  intros key. by apply goes_allocate.
Qed.
Lemma starts_ledr a ai r ri (b : bool) d di (an : string) :
  starts CHANNEL_TYPE_LEDR (fun key =>
    and_then (if String.eqb an "" then ret S_done else set_channel_2p_ack parse key a ai)
    (and_then (set_channel_2p_req parse key r ri)
    (and_then (ret (if b then S_done else S_error))
    (and_then (set_ledr_data parse key d di) (init_counter key))))).
Proof.
  intros key s Hg Hc. assert (chan_at key any_channel s) as Hc' by (by eapply chan_at_mono). clear Hc.
  apply wpe_mono with (P := fun _ s' => good s' /\ chan_at key any_channel s'); [|by intros r' s1 []].
  revert s Hg Hc'. refine (goes_and_then key any_channel any_channel _ _ _ _).
  { destruct (String.eqb _ _); [apply goes_ret|apply goes_2p_ack]. }
  apply goes_and_then; [apply goes_2p_req|]. apply goes_and_then; [apply goes_ret|].
  apply (goes_weaken key _ (fun _ m => m <> 0%nat)); [done|].
  apply goes_and_then; [apply goes_ledr_data|]. apply goes_init. by intros t n Hn _.
Qed.
Lemma goes_clock key e cs ci vi n : (exists x, parse x = Some vi) ->
  goes key any_channel any_channel
    (upd_channel key (configure_clock_source e cs ci vi) ;;; attach_node vi key ;;;
     upd_channel key (fun c => (set_clock_source n c).1) ;;; ret S_done).
Proof.
  intros Hvi. apply goes_attach; [done|apply adds_clock|done|].
  eapply goes_bind; [|intros _; apply goes_ret].
  apply goes_upd; [|done]. intros s Hi. apply wlp_upd_same; [|done]. intros c.
  unfold set_clock_source, __configure_source. destruct (n <? 0); cbv beta iota zeta; by destruct (_ && _).
Qed.

Lemma consistent_register t base f k :
  (forall c, wiring (f c) = (base, ack_signal c, valid_signal c, ch_data c, bundles c, radix c)) ->
  ch_type (f (channel_construct dflt)) = t -> starts t k -> consistent (register_channel dflt base f k).
Proof.
  intros Hw Ht Hk s [Hi Hn].
  assert (wlp (register_channel dflt base f (fun _ => ret S_done)) (fun _ => manager_inv None) s) as H.
  { apply wlp_register; [done| |by intros key s1 H1; apply wpe_ret]. intros c.
    assert (wiring (f (channel_construct dflt)) = wiring (set_ch_name base (channel_construct dflt))) as E by apply Hw.
    split; [specialize (Hw c); by injection Hw|].
    split; [by rewrite (wiring_nodes _ _ E)|]. by eapply wiring_dims; [symmetry; exact E|]. }
  unfold register_channel, wpe, bind, gets in *.
  destruct (lookup_channel (_channel_manager s) base); [done|].
  unfold upd_manager, modify in *. cbn [ret] in H. apply Hk; [split; [exact H|exact Hn]|].
  exists (f (channel_construct dflt)). split; [|done]. cbn. by apply list_lookup_middle.
Qed.
End Setup.

(** The operations of the manager's setup. *)
Inductive setup_operation (expand : string -> option (list global_reference)) (parse : string -> option nat)
    (dflt : real_time) : M State setup -> Prop :=
  | op_new_channel b bn nb rn nr al ha sa ia hv sv :
      setup_operation expand parse dflt (new_channel expand parse dflt b bn nb rn nr al ha sa ia hv sv)
  | op_ledr b an ai bn nb dn di al rn ri :
      setup_operation expand parse dflt (new_channel_ledr expand parse dflt b an ai bn nb dn di al rn ri)
  | op_bd4p b sa ia rs dn nr al :
      setup_operation expand parse dflt (new_channel_bd4p expand parse dflt b sa ia rs dn nr al)
  | op_bd2p b an ai rn ri dn nr al :
      setup_operation expand parse dflt (new_channel_bd2p expand parse dflt b an ai rn ri dn nr al)
  | op_1edge b cn cs dn nr al :
      setup_operation expand parse dflt (new_channel_clocked_1edge expand parse dflt b cn cs dn nr al)
  | op_2edge b cn ci dn nr al :
      setup_operation expand parse dflt (new_channel_clocked_2edge expand parse dflt b cn ci dn nr al)
  | op_clock b e cs ci n : setup_operation expand parse dflt (new_clock_source expand parse dflt b e cs ci n).

Lemma setup_consistent expand parse dflt op :
  setup_operation expand parse dflt op -> consistent parse op.
Proof.
  intros Hop. destruct Hop; apply consistent_refs; intros g.
  - destruct (negb _); [apply consistent_ret|]. eapply consistent_register; [done..|].
    by apply starts_catch, starts_allocate.
  - eapply consistent_register; [done..|]. apply starts_ledr.
  - eapply consistent_register; [done..|]. by apply starts_allocate.
  - eapply consistent_register; [done..|]. eapply starts_goes. intros key.
    apply goes_and_then; [apply goes_2p_ack|]. apply goes_and_then; [apply goes_2p_req|].
    eapply goes_bind; [by apply goes_same|]. intros _. by apply goes_allocate.
  - eapply consistent_register; [done..|]. by apply starts_allocate.
  - eapply consistent_register; [done..|]. by apply starts_allocate.
  - unfold with_node. destruct (parse (gr_name g)) as [vi|] eqn:Hvi; [|apply consistent_ret].
    destruct (Nat.eqb vi INVALID_NODE_INDEX); [apply consistent_ret|].
    apply (consistent_lookup parse (gr_name g) (fun key =>
      upd_channel key (configure_clock_source e cs ci vi) ;;; attach_node vi key ;;;
      upd_channel key (fun c => (set_clock_source n c).1) ;;; ret S_done)).
    + intros key. apply goes_clock. by eexists.
    + eapply consistent_register; [done..|]. intros key s Hg Hc.
      eapply wpe_mono; [apply goes_clock; [by eexists|done|by eapply chan_at_mono]|]. by intros r s1 [].
Qed.

(** The exceptions are caught, and are errors. *)
Definition catches (m : M State setup) : Prop := forall s, wlp m (fun r _ => r <> S_thrown) s.
Lemma catches_and_then m k : catches m -> catches k -> catches (and_then m k).
Proof.
  intros Hm Hk s. apply wpe_bind. eapply wpe_mono; [apply Hm|]. intros r s1 H1.
  destruct r; [apply Hk|by apply wpe_ret..].
Qed.
Lemma new_channel_catches expand parse dflt b bn nb rn nr al ha sa ia hv sv :
  catches (new_channel expand parse dflt b bn nb rn nr al ha sa ia hv sv).
Proof.
  unfold new_channel, for_references. destruct (expand b) as [refs|]; [|intros s; by apply wpe_ret].
  induction refs as [|g refs IH]; cbn [for_each_reference]; [intros s; by apply wpe_ret|].
  apply catches_and_then; [|exact IH]. intros s. destruct (negb _); [by apply wpe_ret|].
  unfold register_channel. apply wpe_bind, wpe_gets. destruct (lookup_channel _ _); [by apply wpe_ret|].
  apply wpe_bind, wpe_modify, wpe_bind. apply wpe_mono with (P := fun _ _ => True).
  - unfold wpe. by destruct (and_then _ _ _) as [[]|].
  - intros r s1 _. apply wpe_ret. by destruct r.
Qed.

(** C25: setting up channels keeps their manager consistent.  Every operation
    of the setup returns, and whatever it returns (success; the error of a
    node that does not exist, of rails or signals that alias, or, from
    [new_channel], of an exception that it catches when the name lookup or
    the counting of too many active rails has thrown it; that exception,
    from the others), every name leads to the channel of that name, the data
    have the size of the channel's dimensions, and every node of every channel
    leads to the channel and carries the flag by which the simulator's step
    recognizes it.  The nodes that names are looked up to are nodes of the
    simulator. *)
Theorem setup_keeps_manager_consistent (expand : string -> option (list global_reference))
    (parse : string -> option nat) (dflt : real_time) (op : M State setup) (s : State) :
  setup_operation expand parse dflt op -> manager_inv None s -> nodes_known parse s ->
  exists r s', op s = Ok (r, s') /\ manager_inv None s'.
Proof.
  intros Hop Hi Hn. pose proof (setup_consistent _ _ _ _ Hop s (conj Hi Hn)) as H.
  unfold wpe in H. destruct (op s) as [[r s']|]; [|done]. exists r, s'. split; [done|apply H].
Qed.

(** ** Channels at work *)
Section Work.
Context {env : Env}.
#[local] Hint Resolve keeps_drive_ack keeps_drive_valid keeps_x_ack keeps_x_valid keeps_sink_data keeps_drive
  keeps_process_data keeps_X_all keeps_set_bd keeps_send_next keeps_toggle keeps_follow keeps_reset_all
  keeps_ack_1ofN keeps_valid_1ofN keeps_ack_LEDR keeps_clk_src keeps_drive_all keeps_advance_value keeps_stop
  keeps_get_ledr_rail : hackt_keeps.
#[local] Hint Resolve ro_summarize_status ro_current_ledr_parity : hackt_ro.
#[local] Hint Extern 5 (keeps frame _) => apply keeps_readonly; solve [auto with hackt_ro] : hackt_keeps.
#[local] Hint Extern 6 (keeps frame (cupd (put_ch_flag _ _))) =>
  apply keeps_cupd; intros; by apply frame_put_flag : hackt_keeps.

Lemma keeps_wiring {A} (m : CM A) : keeps frame m -> keeps wiring m.
Proof. apply keeps_through, frame_wiring. Qed.
Lemma keeps_update_counter prev next : keeps wiring (update_bd_data_counter prev next).
Proof. unfold update_bd_data_counter, chan. solve_keeps. by apply keeps_cupd. Qed.
#[local] Hint Resolve keeps_update_counter : hackt_keeps.
#[local] Hint Extern 8 (keeps wiring _) => apply keeps_wiring; solve [solve_keeps] : hackt_keeps.

Lemma process_keeps_wiring nv pol id ni prev next : keeps wiring (channel_process_node nv pol id ni prev next).
Proof.
  unfold channel_process_node, process_1ofN, data_1ofN, update_data_counter, process_LEDR, data_LEDR,
    process_clk_2edge, process_clk_1edge, process_clocked, send_if_any, process_BD_2P, process_BD_4P, chan.
  solve_keeps; by apply keeps_cupd.
Qed.
Lemma reset_keeps_wiring : keeps wiring channel_reset.
Proof.
  apply keeps_wiring.
  unfold channel_reset, reset_source, reset_sink, initialize_all_data_rails, reset_bundled_data_rails, chan. solve_keeps.
Qed.
Lemma resume_keeps_wiring nv : keeps wiring (channel_resume nv).
Proof.
  apply keeps_wiring. unfold channel_resume, resume_1ofN, resume_BD_4P, resume_BD_2P, resume_clocked, resume_LEDR,
    resume_LEDR_source, __resume_4p_sink, clock_tick, chan. solve_keeps.
Qed.

(** The answer of the manager, in the simulator's state. *)
Definition answered (s : State) (a : channel_answer channel_manager) : State := put__channel_manager (ca_manager a) s.

Lemma run_channel_consistent key (m : CM unit) s a u a' : keeps wiring m ->
  manager_inv None (answered s a) -> run_channel key m a = Ok (u, a') -> manager_inv None (answered s a').
Proof.
  intros Hm Hi E. unfold run_channel in E. destruct (channel_pool (ca_manager a) !! key) as [c|] eqn:Hc; [|done].
  destruct (m _) as [[x st]|] eqn:Em; [|done]. injection E as _ <-. apply Hm in Em. cbn in Em.
  apply (put_channel_inv key c (cs_chan st) None None (answered s a)); [done|done| | | |by left].
  - by injection Em.
  - eapply wiring_dims; [symmetry; exact Em|]. by eapply Hi.
  - intros n Hn _. left. by rewrite (wiring_nodes _ _ Em) in Hn.
Qed.
Lemma for_each_consistent keys (m : nat -> CM unit) s a u a' : (forall k, keeps wiring (m k)) ->
  manager_inv None (answered s a) -> for_each keys (fun k => run_channel k (m k)) a = Ok (u, a') ->
  manager_inv None (answered s a').
Proof.
  intros Hm. revert a. induction keys as [|k keys IH]; intros a Hi E; cbn in E; [by injection E as _ <-|].
  apply bind_ok in E as (u1 & a1 & E1 & E2). eapply IH; [|exact E2]. by eapply run_channel_consistent.
Qed.

(** What the simulator asks of the manager. *)
Inductive manager_action : (State -> res (channel_answer channel_manager)) -> Prop :=
  | act_process ni prev next : manager_action (fun s => cm_process_node s ni prev next)
  | act_reset key : manager_action (fun s => cm_reset_channel s key)
  | act_resume key : manager_action (fun s => cm_resume_channel s key)
  | act_reset_all : manager_action cm_reset_all_channels
  | act_resume_all : manager_action cm_resume_all_channels.
End Work.

(** C31: the manager stays consistent while the channels work: whatever the
    simulator asks (to process a node, to reset or to resume channels), with
    the answer of the manager its names, dimensions, nodes and flags still
    agree. *)
Theorem work_keeps_manager_consistent {env : Env} (f : State -> res (channel_answer channel_manager)) (s : State)
    (a : channel_answer channel_manager) :
  manager_action f -> manager_inv None s -> f s = Ok a -> manager_inv None (answered s a).
Proof.
  intros Hf Hi E.
  assert (forall m : M (channel_answer channel_manager) unit, run_manager s m = Ok a ->
    (forall a0 u a', manager_inv None (answered s a0) -> m a0 = Ok (u, a') -> manager_inv None (answered s a')) ->
    manager_inv None (answered s a)) as Hrun.
  { intros m Em Hm. unfold run_manager in Em. destruct (m _) as [[u a']|] eqn:E'; [|done]. injection Em as <-.
    eapply Hm; [|exact E']. by eapply manager_inv_ext; [| |exact Hi]. }
  destruct Hf; cbn [cm_process_node cm_reset_channel cm_resume_channel cm_reset_all_channels cm_resume_all_channels
    manager_is_ChannelManager] in E; unfold manager_process_node, manager_reset_channel, manager_resume_channel,
    manager_reset_all_channels, manager_resume_all_channels in E; apply (Hrun _ E); intros a0 u a' Hi0 E0.
  - exact (for_each_consistent _ _ s a0 u a' (fun k => process_keeps_wiring _ _ k ni prev next) Hi0 E0).
  - exact (run_channel_consistent key _ s a0 u a' reset_keeps_wiring Hi0 E0).
  - exact (run_channel_consistent key _ s a0 u a' (resume_keeps_wiring _) Hi0 E0).
  - exact (for_each_consistent _ _ s a0 u a' (fun k => reset_keeps_wiring) Hi0 E0).
  - exact (for_each_consistent _ _ s a0 u a' (fun k => resume_keeps_wiring _) Hi0 E0).
Qed.


(** ** Examples *)
#[local] Existing Instance quiet_env.

(** A channel [c] with two rails and an enable, in a circuit without rules. *)
Definition ex_expand (base : string) : option (list global_reference) :=
  if String.eqb base "c" then Some [mkGlobalRef "c" true] else None.
Definition ex_parse (n : string) : option nat :=
  Some (if String.eqb n "c.d[0]" then 3 else if String.eqb n "c.d[1]" then 4 else if String.eqb n "c.e" then 5 else 0)%nat.
Definition ex_empty : State :=
  put_node_pool (replicate 6 NodeState_empty) (State_construct 3 [] [] [] [] false channel_manager_empty).
Definition ex_new : M State setup :=
  new_channel ex_expand ex_parse real_zero "c" "" 0 "d" 2 false true false false false false.
Definition ex_made : State := match ex_new ex_empty with Ok (_, s) => s | Err _ => ex_empty end.

Lemma manager_inv_empty : manager_inv None ex_empty.
Proof.
  split; cbn.
  - intros name k E. by rewrite lookup_empty in E.
  - done.
  - done.
  - intros ni k Hin. by apply elem_of_nil in Hin.
Qed.
Lemma ex_new_operation : setup_operation ex_expand ex_parse real_zero ex_new.
Proof. exact (op_new_channel _ _ _ "c" "" 0 "d" 2 false true false false false false). Qed.

(** The same with the rails both high, though one of two may be: the counting
    of the rails throws. *)
Definition ex_high : State :=
  put_node_pool (map (set_n_value LOGIC_HIGH) (node_pool ex_empty)) ex_empty.

Lemma manager_inv_high : manager_inv None ex_high.
Proof.
  split; cbn.
  - intros name k E. by rewrite lookup_empty in E.
  - done.
  - done.
  - intros ni k Hin. by apply elem_of_nil in Hin.
Qed.
Lemma ex_known s : length (node_pool s) = 6%nat -> nodes_known ex_parse s.
Proof.
  intros E. split; [lia|]. intros n ni [= <-]. rewrite E. repeat case_match; lia.
Qed.

Lemma setup_keeps_manager_consistent_witness :
  (exists r s', ex_new ex_empty = Ok (r, s') /\ manager_inv None s') /\
  (exists r s', ex_new ex_high = Ok (r, s') /\ manager_inv None s').
Proof.
  split.
  - exact (setup_keeps_manager_consistent ex_expand ex_parse real_zero ex_new ex_empty ex_new_operation
      manager_inv_empty (ex_known ex_empty eq_refl)).
  - exact (setup_keeps_manager_consistent ex_expand ex_parse real_zero ex_new ex_high ex_new_operation
      manager_inv_high (ex_known ex_high eq_refl)).
Defined.

(** What they return; the channel of the error is there all the same. *)
Example ex_new_results :
  (exists s, ex_new ex_empty = Ok (S_done, s)) /\
  (exists s, ex_new ex_high = Ok (S_error, s) /\ lookup_channel (_channel_manager s) "c" = Some 0%nat /\
     map counter_state (channel_pool (_channel_manager s)) = [2]).
Proof.
  split; [eexists; vm_compute; reflexivity|].
  destruct (ex_new ex_high) as [[r s]|] eqn:E; vm_compute in E; [|discriminate].
  injection E as <- <-. eexists. split_and!; vm_compute; reflexivity.
Qed.

Lemma ex_made_inv : manager_inv None ex_made.
Proof.
  unfold ex_made. destruct (ex_new ex_empty) as [[r s]|] eqn:E; [|exact manager_inv_empty].
  pose proof (setup_consistent _ _ _ _ ex_new_operation ex_empty
    (conj manager_inv_empty (ex_known ex_empty eq_refl))) as H.
  unfold wpe in H. rewrite E in H. apply H.
Qed.
(** It becomes a source of the values 1 and 0, and a sink; it is reset. *)
Definition ex_configured : State :=
  put__channel_manager (apply_all (fun c => (set_sink (match set_source_args ["1"; "0"]%string false c with
    Ok (c', _) => c' | Err _ => c end)).1) (_channel_manager ex_made)) ex_made.
Definition ex_after (m : M State unit) (s : State) : State := match m s with Ok (_, s') => s' | Err _ => s end.
Definition ex_reset : State := ex_after (reset_channel 0) ex_configured.

Lemma work_keeps_manager_consistent_witness :
  match cm_reset_channel ex_made 0 with
  | Ok a => manager_inv None (answered ex_made a)
  | Err _ => False
  end.
Proof.
  destruct (cm_reset_channel ex_made 0) as [a|f] eqn:E.
  - exact (work_keeps_manager_consistent
             (fun s => cm_reset_channel s 0)
             ex_made a (act_reset 0) ex_made_inv E).
  - vm_compute in E. discriminate E.
Defined.

(** The whole simulator with channels: in a run of the events, the rails show
    the two values, and everything comes to rest in the neutral state. *)
Definition values (s : State) : list value_enum := map n_value (node_pool s).
Definition ex_cycled (s : State) : State := match cycle 20 s with Ok (_, s') => s' | Err _ => s end.
Definition ex_neutral : State := ex_cycled ex_reset.
Example channel_resets : values ex_neutral = [LOGIC_OTHER; LOGIC_OTHER; LOGIC_OTHER; LOGIC_LOW; LOGIC_LOW; LOGIC_LOW].
Proof. vm_compute. reflexivity. Qed.
(** Each rail rises once, and the enable rises and falls with both. *)
Example channel_delivers :
  let s := ex_cycled (ex_after (resume_channel 0) ex_neutral) in
  (values s, map n_tcount (node_pool s), map ch_values (channel_pool (_channel_manager s)), event_queue s) =
  ([LOGIC_OTHER; LOGIC_OTHER; LOGIC_OTHER; LOGIC_LOW; LOGIC_LOW; LOGIC_HIGH], [0; 0; 0; 3; 3; 6], [[]], []).
Proof. vm_compute. reflexivity. Qed.
