(* ===== verification/ChannelCheckpoint.v ===== *)
(** The checkpoints of the channels: [save_checkpoint] and [load_checkpoint] of
    "sim/prsim/Channel-prsim.cc".  A stream is the list of the values that
    [write_value] of "util/IO_utils.tcc" writes, one token each; what happens
    when something else is read than what was written is left open. *)
From S2P Require Import Prelude SimTime PullSet Expr OrdMap Node ProcGraph.
From S2P Require Import State Events Schedule Step Channel ChannelManager.
From S2P Require Import ChannelData.
From stdpp Require Import strings.
Open Scope Z_scope.
Local Open Scope hackt_scope.
#[local] Abbreviation length := Datatypes.length.

Inductive token : Type :=
  | T_size (n : nat)
  | T_string (s : string)
  | T_bool (b : bool)
  | T_time (t : real_time)
  | T_mode (m : channel_timing_enum)
  | T_type (t : channel_types)
  | T_int (z : Z)
  | T_value (v : array_value_type).
Definition reader (A : Type) : Type := M (list token) A.

Definition read_token {A} (f : token -> option A) : reader A :=
  fun l => match l with
           | t :: l' => match f t with Some a => Ok (a, l') | None => Err F_undef end
           | [] => Err F_undef
           end.
Definition read_size : reader nat := read_token (fun t => match t with T_size n => Some n | _ => None end).
Definition read_string : reader string := read_token (fun t => match t with T_string s => Some s | _ => None end).
Definition read_bool : reader bool := read_token (fun t => match t with T_bool b => Some b | _ => None end).
Definition read_time : reader real_time := read_token (fun t => match t with T_time x => Some x | _ => None end).
Definition read_mode : reader channel_timing_enum := read_token (fun t => match t with T_mode m => Some m | _ => None end).
Definition read_type : reader channel_types := read_token (fun t => match t with T_type x => Some x | _ => None end).
Definition read_int : reader Z := read_token (fun t => match t with T_int z => Some z | _ => None end).
Definition read_array_value : reader array_value_type :=
  read_token (fun t => match t with T_value v => Some v | _ => None end).
(** [read_range] over [n] elements *)
Fixpoint read_range {A} (r : reader A) (n : nat) : reader (list A) :=
  match n with
  | O => ret []
  | S n' => a <- r ;; l <- read_range r n' ;; ret (a :: l)
  end.
Definition read_sequence_resize {A} (r : reader A) : reader (list A) := n <- read_size ;; read_range r n.

Definition save_dumplog (d : option string) : list token :=
  match d with Some fn => [T_bool true; T_string fn] | None => [T_bool false] end.
Definition channel_save_checkpoint (c : channel) : list token :=
  [T_size (ack_signal c); T_size (valid_signal c);
   T_mode (ch_timing_mode c); T_time (ch_after_min c); T_time (ch_after_max c); T_time (ch_timing_probability c);
   T_type (ch_type c); T_int (ch_flags c); T_int (counter_state c); T_int (x_counter c);
   T_size (bundles c); T_size (radix c)] ++
  map T_size (ch_data c) ++ [T_size (value_index c); T_size (iteration c)] ++ save_dumplog (dumplog c) ++
  T_size (length (ch_values c)) :: map T_value (ch_values c).
Definition save_pool (l : list channel) : list token :=
  concat (map (fun c => T_string (ch_name c) :: channel_save_checkpoint c) l).
Definition manager_save_checkpoint (m : channel_manager) : list token :=
  T_size (length (channel_pool m)) :: save_pool (channel_pool m).

Section Load.
Context (opens : string -> bool) (default_unspecified_delay : real_time).

(** The log is appended to; true if it can not be opened. *)
Definition load_dumplog : reader (option string * bool) :=
  v <- read_bool ;;
  if (v : bool) then fn <- read_string ;; ret (if opens fn then (Some fn, false) else (None, true))
  else ret (None, false).
Definition channel_load_checkpoint (c : channel) : reader (channel * bool) :=
  ack <- read_size ;; valid <- read_size ;;
  mode <- read_mode ;; mn <- read_time ;; mx <- read_time ;; prob <- read_time ;;
  type <- read_type ;; flags <- read_int ;; counter <- read_int ;; xs <- read_int ;;
  b <- read_size ;; r <- read_size ;;
  data <- read_range read_size (b * r) ;;
  idx <- read_size ;; iter <- read_size ;;
  log <- load_dumplog ;;
  let c1 := mkChannel (ch_name c) ack valid mode mn mx prob type flags counter xs b r data (inject_expect_file c)
              log.1 (ch_values c) idx iter (__node_to_rail c) in
  if (log.2 : bool) then ret (c1, true)
  else vs <- read_sequence_resize read_array_value ;; ret (set_ch_values vs c1, false).

(** The result of a channel's load is not looked at. *)
Definition load_one (m : channel_manager) : reader channel_manager :=
  name <- read_string ;;
  r <- channel_load_checkpoint (channel_construct default_unspecified_delay) ;;
  let key := length (channel_pool m) in
  let c := set_ch_name name r.1 in
  let m1 := set_channel_pool (channel_pool m ++ [c])
              (set_channel_index_set (<[name := key]> (channel_index_set m)) m) in
  ret (fold_left (fun m ni => insert_node_channel ni key m) (get_all_nodes c) m1).
Fixpoint load_pool (n : nat) (m : channel_manager) : reader channel_manager :=
  match n with
  | O => ret m
  | S n' => m' <- load_one m ;; load_pool n' m'
  end.
Definition manager_load_checkpoint : reader channel_manager :=
  n <- read_size ;; load_pool n channel_manager_empty.
End Load.

(** ** Round trip *)

(** What a checkpoint does not keep. *)
Definition forget (c : channel) : channel := set_inject_expect_file String.EmptyString (set___node_to_rail [] c).
(** The logs that are open can be opened again. *)
Definition reopens (opens : string -> bool) (c : channel) : Prop :=
  match dumplog c with Some fn => opens fn = true | None => True end.

Lemma read_range_run {A} (r : reader A) (w : A -> token) (l : list A) rest :
  (forall a rest, r (w a :: rest) = Ok (a, rest)) -> read_range r (length l) (map w l ++ rest) = Ok (l, rest).
Proof.
  intros Hr. induction l as [|a l IH]; [done|]. cbn [Datatypes.length read_range map app].
  rewrite (bind_run _ _ _ _ _ (Hr a _)), (bind_run _ _ _ _ _ IH). done.
Qed.

Lemma read_bind {A B} (f : token -> option A) (k : A -> reader B) t l a :
  f t = Some a -> bind (read_token f) k (t :: l) = k a l.
Proof. intros E. unfold bind, read_token. by rewrite E. Qed.

Section RoundTrip.
Context (opens : string -> bool) (dflt : real_time).

Lemma channel_round_trip c rest : dims_ok c -> reopens opens c ->
  exists c', channel_load_checkpoint opens (channel_construct dflt) (channel_save_checkpoint c ++ rest) =
    Ok ((c', false), rest) /\ set_ch_name (ch_name c) c' = forget c.
Proof.
  intros Hd Ho. exists (set_ch_name String.EmptyString (forget c)). split; [|by destruct c].
  unfold channel_save_checkpoint, channel_load_checkpoint. rewrite <- !app_assoc. cbn [app].
  unfold read_size, read_mode, read_time, read_type, read_int. do 12 (erewrite read_bind by reflexivity).
  rewrite <- Hd. erewrite bind_run by (apply read_range_run; reflexivity).
  do 2 (erewrite read_bind by reflexivity).
  rewrite (bind_run _ _ _ (dumplog c, false) ((T_size (length (ch_values c)) :: map T_value (ch_values c)) ++ rest)).
  - cbn [app snd fst]. unfold read_sequence_resize, read_size.
    erewrite bind_run; [|erewrite read_bind by reflexivity; apply read_range_run; reflexivity]. by destruct c.
  - unfold load_dumplog, save_dumplog, reopens, read_bool, read_string in *. destruct (dumplog c) as [fn|]; cbn [app].
    + erewrite read_bind by reflexivity. cbv iota beta. erewrite read_bind by reflexivity. by rewrite Ho.
    + by erewrite read_bind by reflexivity.
Qed.

(** The manager that has loaded these channels. *)
Record loaded (l : list channel) (m : channel_manager) : Prop := {
  ld_pool : channel_pool m = map forget l;
  ld_names : forall name k, channel_index_set m !! name = Some k <->
    exists c, l !! k = Some c /\ ch_name c = name;
  ld_nodes : forall ni k, k ∈ channels_of m ni <-> exists c, l !! k = Some c /\ ni ∈ get_all_nodes c
}.

Lemma channels_of_fold key l m ni k :
  k ∈ channels_of (fold_left (fun m ni => insert_node_channel ni key m) l m) ni <->
  (k = key /\ ni ∈ l) \/ k ∈ channels_of m ni.
Proof.
  revert m. induction l as [|x l IH]; intros m; cbn [fold_left].
  - rewrite elem_of_nil. tauto.
  - rewrite IH. unfold channels_of at 1, insert_node_channel. cbn. rewrite m_find_set, elem_of_cons.
    destruct (decide (ni = x)) as [->|Hne].
    + rewrite key_eqb_refl, elem_of_s_insert. tauto.
    + rewrite key_eqb_neq by done. fold (channels_of m ni). tauto.
Qed.
Lemma pool_fold key l m :
  channel_pool (fold_left (fun m ni => insert_node_channel ni key m) l m) = channel_pool m /\
  channel_index_set (fold_left (fun m ni => insert_node_channel ni key m) l m) = channel_index_set m.
Proof. revert m. induction l as [|x l IH]; intros m; [done|]. cbn [fold_left]. by rewrite !(proj1 (IH _)), !(proj2 (IH _)). Qed.

Lemma load_one_run l m c rest : loaded l m -> dims_ok c -> reopens opens c -> (forall c', c' ∈ l -> ch_name c' <> ch_name c) ->
  exists m', load_one opens dflt m (T_string (ch_name c) :: channel_save_checkpoint c ++ rest) = Ok (m', rest) /\
    loaded (l ++ [c]) m'.
Proof.
  intros [Hp Hn Hk] Hd Ho Hnew. destruct (channel_round_trip c rest Hd Ho) as (c' & Ec & En).
  unfold load_one, read_string. erewrite read_bind by reflexivity. erewrite bind_run by exact Ec. cbn [fst]. rewrite En.
  eexists. split; [done|].
  assert (length (channel_pool m) = length l) as Hlen by (by rewrite Hp, length_map).
  split.
  - rewrite (proj1 (pool_fold _ _ _)). cbn. by rewrite Hp, map_app.
  - intros name k. rewrite (proj2 (pool_fold _ _ _)). cbn. rewrite Hlen.
    destruct (decide (name = ch_name c)) as [->|Hne].
    + rewrite lookup_insert_eq. split.
      * intros [= <-]. exists c. split; [by apply list_lookup_middle|done].
      * intros (c1 & E1 & E2). f_equal. apply lookup_app_Some in E1 as [E1|[Hge E1]].
        { by apply list_elem_of_lookup_2, Hnew in E1. }
        apply list_lookup_singleton_Some in E1 as [Hi _]. unfold length in *. lia.
    + rewrite lookup_insert_ne, Hn by done. split; intros (c1 & E1 & E2); exists c1; (split; [|done]).
      * by apply lookup_app_l_Some.
      * apply lookup_app_Some in E1 as [E1|[_ E1]]; [done|].
        apply list_lookup_singleton_Some in E1 as [_ <-]. done.
  - intros ni k. rewrite channels_of_fold, Hlen. cbn.
    change (channels_of (set_channel_pool _ _) ni) with (channels_of m ni). rewrite Hk.
    assert (get_all_nodes (forget c) = get_all_nodes c) as -> by done. split.
    + intros [[-> Hin]|(c1 & E1 & E2)]; [exists c|exists c1]; (split; [|done]).
      * by apply list_lookup_middle.
      * by apply lookup_app_l_Some.
    + intros (c1 & E1 & E2). apply lookup_app_Some in E1 as [E1|[Hge E1]]; [right; by exists c1|].
      apply list_lookup_singleton_Some in E1 as [Hi <-]. left. split; [|done]. unfold length in *. lia.
Qed.

Lemma load_pool_run l2 : forall l1 m rest, loaded l1 m -> NoDup (map ch_name (l1 ++ l2)) ->
  Forall (fun c => dims_ok c /\ reopens opens c) l2 ->
  exists m', load_pool opens dflt (length l2) m (save_pool l2 ++ rest) = Ok (m', rest) /\ loaded (l1 ++ l2) m'.
Proof.
  induction l2 as [|c l2 IH]; intros l1 m rest Hl Hnd Hok; [exists m; by rewrite app_nil_r|].
  apply Forall_cons in Hok as [[Hd Ho] Hok]. unfold save_pool. cbn [Datatypes.length load_pool map concat].
  rewrite <- app_assoc, <- app_comm_cons. fold (save_pool l2).
  destruct (load_one_run l1 m c (save_pool l2 ++ rest) Hl Hd Ho) as (m1 & E1 & H1).
  { intros c' Hc' E. rewrite map_app in Hnd. apply NoDup_app in Hnd as (_ & Hdis & _).
    apply (Hdis (ch_name c')); [by apply list_elem_of_fmap_2|]. rewrite E. cbn. apply elem_of_cons. by left. }
  rewrite (bind_run _ _ _ _ _ E1). assert (l1 ++ c :: l2 = (l1 ++ [c]) ++ l2) as Happ by (by rewrite <- app_assoc).
  rewrite Happ in *. by apply IH.
Qed.
Lemma loaded_empty : loaded [] channel_manager_empty.
Proof.
  split; [done|..]; cbn.
  - intros name k. rewrite lookup_empty. split; [done|]. by intros (c & E & _).
  - intros ni k. split; [intros H; by apply elem_of_nil in H|]. by intros (c & E & _).
Qed.
End RoundTrip.

(** C33: the round trip of a checkpoint.  When the names of the channels
    differ, the data have the size of the dimensions and the logs can be opened
    again, loading what was saved reads exactly that part of the stream, and
    gives the same channels, under the same names, reached from the same nodes
    as the channels say, but for what [forget] drops: the file of the values,
    and the map from nodes to rails, without which no node counts as a data
    rail. *)
Theorem manager_checkpoint_round_trip (opens : string -> bool) (dflt : real_time) (m : channel_manager)
    (rest : list token) :
  NoDup (map ch_name (channel_pool m)) ->
  (forall c, c ∈ channel_pool m -> dims_ok c /\ reopens opens c) ->
  exists m', manager_load_checkpoint opens dflt (manager_save_checkpoint m ++ rest) = Ok (m', rest) /\
    channel_pool m' = map forget (channel_pool m) /\
    (forall name k, channel_index_set m' !! name = Some k <->
       exists c, channel_pool m !! k = Some c /\ ch_name c = name) /\
    (forall ni k, k ∈ channels_of m' ni <->
       exists c, channel_pool m !! k = Some c /\ ni ∈ get_all_nodes c) /\
    (forall c ni, c ∈ channel_pool m' -> is_data_rail ni c = false).
Proof.
  intros Hnd Hok. unfold manager_load_checkpoint, manager_save_checkpoint, read_size.
  cbn [app]. erewrite read_bind by reflexivity.
  destruct (load_pool_run opens dflt (channel_pool m) [] channel_manager_empty rest loaded_empty) as (m' & E & [H1 H2 H3]);
    [done|by apply Forall_forall|].
  exists m'. split_and!; [exact E|done..|]. rewrite H1. intros c ni (c0 & -> & _)%list_elem_of_fmap_1. done.
Qed.

(** Two channels, one with values and a log. *)
Definition ex_pool : list channel :=
  [set_ch_name "a" (set_dumplog (Some "log"%string) (set_ch_values [(27, false); (0, true)]
     (ex_channel CHANNEL_TYPE_1ofN 2 4 3 CHANNEL_SOURCING)));
   set_ch_name "b" (set_ack_signal 11 (set_valid_signal 12 (ex_channel CHANNEL_TYPE_BD_4P 1 8 13 0)))].
Definition ex_manager : channel_manager := mkManager ex_pool ∅ [].
Lemma ex_pool_ok c : c ∈ channel_pool ex_manager -> dims_ok c /\ reopens (fun _ => true) c.
Proof. intros [->|[->|H%elem_of_nil]%elem_of_cons]%elem_of_cons; by split. Qed.
Lemma ex_pool_names : NoDup (map ch_name (channel_pool ex_manager)).
Proof. apply (bool_decide_unpack _). by vm_compute. Qed.
Lemma manager_checkpoint_round_trip_witness :
  exists m', manager_load_checkpoint (fun _ => true) real_zero (manager_save_checkpoint ex_manager ++ [T_bool true]) =
      Ok (m', [T_bool true]) /\
    channel_pool m' = map forget ex_pool /\
    (forall name k, channel_index_set m' !! name = Some k <->
       exists c, channel_pool ex_manager !! k = Some c /\ ch_name c = name) /\
    (forall ni k, k ∈ channels_of m' ni <->
       exists c, channel_pool ex_manager !! k = Some c /\ ni ∈ get_all_nodes c) /\
    (forall c ni, c ∈ channel_pool m' -> is_data_rail ni c = false).
Proof.
  exact (manager_checkpoint_round_trip (fun _ => true) real_zero ex_manager [T_bool true] ex_pool_names ex_pool_ok).
Defined.
