(* ===== verification/ExprAlloc.v ===== *)
(** Allocation of expressions: "sim/prsim/ExprAlloc.cc" and its header, which
    turn the production rules of a process type, the [PRS::footprint] of
    "Object/lang/PRS_footprint.hh" and its parts, and its atomic assignments,
    the [RTE::footprint], into a [unique_process_subgraph].

    The visitor keeps the graph under construction, a free list of expression
    indices, the rule whose attributes are read and the power supply; what it
    returns in [ret_ex_index] is here the result of each visit.  The recursion
    over expressions takes fuel: their depth.  The options are constants.
    Precharge invariants, which need the netlists, are left out. *)
From S2P Require Import Prelude SimTime PullSet Expr OrdMap Node ProcGraph.
From Stdlib Require Import String.
Open Scope Z_scope.
Local Open Scope hackt_scope.
#[local] Abbreviation length := Datatypes.length.

(** ** ExprAllocFlags *)
Definition FOLD_LITERALS : Z := 1.
Definition DENORMALIZE_NEGATIONS : Z := 2.
Definition OPTIMIZE_FLAGS : Z := Z.lor FOLD_LITERALS DENORMALIZE_NEGATIONS.

Record ExprAllocFlags : Type := mkFlags {
  ef_flags : Z;
  fast_weak_keepers : bool;
  auto_precharge_invariants : bool;
  dynamic_ground_supply : bool;
  dynamic_power_supply : bool
}.
Definition ExprAllocFlags_default : ExprAllocFlags := mkFlags 0 false false false false.
Definition is_fold_literals (f : ExprAllocFlags) : bool := has_flag (ef_flags f) FOLD_LITERALS.
Definition is_denormalize_negations (f : ExprAllocFlags) : bool := has_flag (ef_flags f) DENORMALIZE_NEGATIONS.
Definition any_optimize (f : ExprAllocFlags) : bool := has_flag (ef_flags f) OPTIMIZE_FLAGS.
Definition set_ef_flags (x : Z) (f : ExprAllocFlags) : ExprAllocFlags :=
  mkFlags x (fast_weak_keepers f) (auto_precharge_invariants f) (dynamic_ground_supply f) (dynamic_power_supply f).
Definition fold_literals (f : ExprAllocFlags) : ExprAllocFlags := set_ef_flags (set_flag (ef_flags f) FOLD_LITERALS) f.
Definition denormalize_negations (f : ExprAllocFlags) : ExprAllocFlags :=
  set_ef_flags (set_flag (ef_flags f) DENORMALIZE_NEGATIONS) f.
Definition optimize (level : Z) (f : ExprAllocFlags) : ExprAllocFlags :=
  set_ef_flags (put_flag (negb (level =? 0)) (ef_flags f) OPTIMIZE_FLAGS) f.
(** Whether a checkpoint fits: the other options only give warnings. *)
Definition assert_equal (f g : ExprAllocFlags) : bool := Bool.eqb (fast_weak_keepers f) (fast_weak_keepers g).

(** ** The footprint of a process type *)

(** The indices of nodes and of expressions count from 1. *)
Record footprint_expr_node : Type := mkFExpr { fe_type : prs_enum; fe_nodes : list nat }.
Record footprint_rule : Type := mkFRule {
  fr_expr_index : nat;
  fr_output_index : nat;
  fr_dir : bool;
  fr_attributes : list (string * list Z)
}.
Record footprint_macro : Type := mkFMacro { fm_name : string; fm_nodes : list (list nat) }.
(** The first rule and the first internal node that the supplies drive. *)
Record supply_override_entry : Type := mkSupply {
  so_rules_first : nat;
  so_int_nodes_first : nat;
  so_Vdd : nat;
  so_GND : nat
}.
Record prs_footprint : Type := mkPRS {
  pf_rule_pool : list footprint_rule;
  pf_expr_pool : list footprint_expr_node;
  pf_macro_pool : list footprint_macro;
  pf_internal_node_pool : list (nat * bool)   (* expression, direction *);
  pf_invariant_pool : list nat;
  pf_supply_map : list supply_override_entry
}.
Record footprint_assignment : Type := mkFAssign { fa_expr_index : nat; fa_output_index : nat }.
Record rte_footprint : Type := mkRTE {
  rf_assignment_pool : list footprint_assignment;
  rf_expr_pool : list footprint_expr_node
}.

(** [offset_array<vector, 1>] *)
Definition pool_at {A} (l : list A) (i : nat) : option A := match i with O => None | S k => l !! k end.

Fixpoint find_internal_node_from (k : nat) (l : list (nat * bool)) (ei : nat) : option nat :=
  match l with
  | [] => None
  | (x, _) :: l' => if Nat.eqb x ei then Some k else find_internal_node_from (S k) l' ei
  end.
Definition find_internal_node (p : prs_footprint) (ei : nat) : option nat :=
  find_internal_node_from 0 (pf_internal_node_pool p) ei.
(** [--upper_bound(...)] by one of the two first indices; the entries are
    sorted by both. *)
Fixpoint supply_last_le (first : supply_override_entry -> nat) (i : nat) (l : list supply_override_entry)
    : option supply_override_entry :=
  match l with
  | [] => None
  | s :: l' =>
      if Nat.ltb i (first s) then None
      else match supply_last_le first i l' with Some r => Some r | None => Some s end
  end.
Definition lookup_rule_supply (p : prs_footprint) (i : nat) : option supply_override_entry :=
  supply_last_le so_rules_first i (pf_supply_map p).
Definition lookup_internal_node_supply (p : prs_footprint) (i : nat) : option supply_override_entry :=
  supply_last_le so_int_nodes_first i (pf_supply_map p).

(** ** The state of the visitor *)
Record alloc_state : Type := mkAlloc {
  al_g : unique_process_subgraph;
  expr_free_list : list nat   (* a FIFO queue *);
  suppress_keeper_rule : bool;
  temp_rule : option Rule   (* NULL outside of a rule *);
  power_supply : option nat   (* [None]: the index -1 *);
  at_source : bool
}.
Definition put_g (x : unique_process_subgraph) (a : alloc_state) : alloc_state :=
  mkAlloc x (expr_free_list a) (suppress_keeper_rule a) (temp_rule a) (power_supply a) (at_source a).
Definition put_free (x : list nat) (a : alloc_state) : alloc_state :=
  mkAlloc (al_g a) x (suppress_keeper_rule a) (temp_rule a) (power_supply a) (at_source a).
Definition put_suppress (x : bool) (a : alloc_state) : alloc_state :=
  mkAlloc (al_g a) (expr_free_list a) x (temp_rule a) (power_supply a) (at_source a).
Definition put_temp_rule (x : option Rule) (a : alloc_state) : alloc_state :=
  mkAlloc (al_g a) (expr_free_list a) (suppress_keeper_rule a) x (power_supply a) (at_source a).
Definition put_power_supply (x : option nat) (a : alloc_state) : alloc_state :=
  mkAlloc (al_g a) (expr_free_list a) (suppress_keeper_rule a) (temp_rule a) x (at_source a).
Definition put_at_source (x : bool) (a : alloc_state) : alloc_state :=
  mkAlloc (al_g a) (expr_free_list a) (suppress_keeper_rule a) (temp_rule a) (power_supply a) x.
Definition alloc_init (g : unique_process_subgraph) : alloc_state := mkAlloc g [] false None (Some 0%nat) false.

Abbreviation AM := (M alloc_state).
Definition upd_g (f : unique_process_subgraph -> unique_process_subgraph) : AM unit :=
  modify (fun a => put_g (f (al_g a)) a).
(** A member function of the graph. *)
Definition on_g {A} (m : M unique_process_subgraph A) : AM A :=
  fun a => match m (al_g a) with Ok (x, g) => Ok (x, put_g g a) | Err f => Err f end.
(** [value_saver] *)
Definition saving {A B} (get : alloc_state -> B) (put : B -> alloc_state -> alloc_state) (m : AM A) : AM A :=
  b <- gets get ;; x <- m ;; modify (put b) ;;; ret x.

Definition upd_expr (i : nat) (f : Expr -> Expr) : AM unit :=
  e <- on_g (get_expr i) ;; upd_g (fun g => set_expr_pool (<[i := f e]> (expr_pool g)) g).
Definition upd_graph_node (i : nat) (f : ExprGraphNode -> ExprGraphNode) : AM unit :=
  n <- on_g (get_graph_node i) ;;
  upd_g (fun g => set_expr_graph_node_pool (<[i := f n]> (expr_graph_node_pool g)) g).
Definition upd_faninout (i : nat) (f : faninout_struct_type -> faninout_struct_type) : AM unit :=
  n <- on_g (get_faninout i) ;;
  upd_g (fun g => set_local_faninout_map (<[i := f n]> (local_faninout_map g)) g).

Definition set_offset (j : nat) (n : ExprGraphNode) : ExprGraphNode := mkExprGraphNode j (g_children n).
Definition set_child (j : nat) (c : child_entry) (n : ExprGraphNode) : ExprGraphNode :=
  mkExprGraphNode (g_offset n) (<[j := c]> (g_children n)).
Definition get_child (n : ExprGraphNode) (j : nat) : AM child_entry := of_option F_index (g_children n !! j).
Definition set_fanout (l : list nat) (f : faninout_struct_type) : faninout_struct_type :=
  mkFaninout (f_pull_up f) (f_pull_up_weak f) (f_pull_dn f) (f_pull_dn_weak f) l (f_is_atomic f).
Definition set_pull_expr (b : bool) (w : rule_strength) (l : list nat) (f : faninout_struct_type)
    : faninout_struct_type :=
  match b, w with
  | true, NORMAL_RULE => mkFaninout l (f_pull_up_weak f) (f_pull_dn f) (f_pull_dn_weak f) (f_fanout f) (f_is_atomic f)
  | true, WEAK_RULE => mkFaninout (f_pull_up f) l (f_pull_dn f) (f_pull_dn_weak f) (f_fanout f) (f_is_atomic f)
  | false, NORMAL_RULE => mkFaninout (f_pull_up f) (f_pull_up_weak f) l (f_pull_dn_weak f) (f_fanout f) (f_is_atomic f)
  | false, WEAK_RULE => mkFaninout (f_pull_up f) (f_pull_up_weak f) (f_pull_dn f) l (f_fanout f) (f_is_atomic f)
  end.
(** [std::replace] *)
Definition replace (i n : nat) (l : list nat) : list nat := map (fun x => if Nat.eqb x i then n else x) l.
(** The local index of a node, from 0; [None]: it wraps around. *)
Definition lookup_local_bool_id (ni : nat) : option nat := match ni with O => None | S k => Some k end.

(** ** Allocating expressions *)

(** A recycled index, or a new one. *)
Definition allocate_expr (e : Expr) : AM nat :=
  fl <- gets expr_free_list ;;
  match fl with
  | i :: fl' =>
      modify (put_free fl') ;;;
      upd_expr i (fun _ => e) ;;;
      upd_graph_node i (fun _ => ExprGraphNode_empty) ;;;
      ret i
  | [] =>
      g <- gets al_g ;;
      upd_g (fun g => set_expr_graph_node_pool (expr_graph_node_pool g ++ [ExprGraphNode_empty])
                        (set_expr_pool (expr_pool g ++ [e]) g)) ;;;
      ret (length (expr_pool g))
  end.
Definition release_expr (i : nat) : AM unit :=
  on_g (void_expr i) ;;; modify (fun a => put_free (expr_free_list a ++ [i]) a).

Definition allocate_new_literal_expr (ni : option nat) : AM nat :=
  e <- lift_res (Expr_make EXPR_OR 1) ;;
  i <- allocate_expr e ;;
  n <- of_option F_assert ni ;;
  g <- gets al_g ;;
  require F_assert (Nat.ltb n (length (local_faninout_map g))) ;;;
  upd_faninout n (fun f => set_fanout (f_fanout f ++ [i]) f) ;;;
  upd_graph_node i (fun x => push_back_node x n) ;;;
  ret i.
Definition allocate_new_not_expr (ei : nat) : AM nat := upd_expr ei toggle_not ;;; ret ei.
Definition link_child_expr (parent child offset : nat) : AM unit :=
  upd_expr child (fun e => set_parent_expr e parent) ;;;
  upd_graph_node child (set_offset offset) ;;;
  upd_graph_node parent (fun x => push_back_expr x child).
Definition grow (e : Expr) : Expr := mkExpr (e_parent e) (e_type e) (wrap 16 (e_size e + 1)).
Definition append_child_expr (parent child : nat) : AM unit :=
  pg <- on_g (get_graph_node parent) ;;
  upd_expr parent grow ;;;
  link_child_expr parent child (length (g_children pg)).
Definition prepend_child_expr (parent child : nat) : AM unit :=
  upd_expr parent grow ;;; link_child_expr parent child 0.
Definition allocate_new_Nary_expr (type : prs_enum) (sz : nat) : AM nat :=
  require F_assert (negb (Nat.eqb sz 0)) ;;;
  require F_exit (Z.of_nat sz <? 2 ^ 16) ;;;
  e <- lift_res (Expr_make (match type with PRS_AND_EXPR_TYPE_ENUM => EXPR_AND | _ => EXPR_OR end) (Z.of_nat sz)) ;;
  allocate_expr e.
Definition allocate_new_supply_expr : AM nat :=
  ni <- gets power_supply ;;
  ps <- allocate_new_literal_expr ni ;;
  r <- gets temp_rule ;;
  r <- of_option F_assert r ;;
  if direction r then ret ps else allocate_new_not_expr ps.
Definition and_expression_with_literal (last next : nat) : AM nat :=
  l <- on_g (get_expr last) ;;
  if is_conjunctive l && negb (is_not l) then append_child_expr last next ;;; ret last
  else
    r <- allocate_new_Nary_expr PRS_AND_EXPR_TYPE_ENUM 2 ;;
    link_child_expr r last 0 ;;;
    link_child_expr r next 1 ;;;
    ret r.

(** ** Optimizations *)

(** Bypass child [j] of [_e], the expression [ei] around the child [c]. *)
Definition skip_expr (_e j ei : nat) (c : child_entry) : AM unit :=
  upd_graph_node _e (set_child j c) ;;;
  upd_faninout c.2 (fun f => set_fanout (replace ei _e (f_fanout f)) f) ;;;
  release_expr ei.
Definition fold_child (_e j : nat) : AM unit :=
  gn <- on_g (get_graph_node _e) ;;
  c <- get_child gn j ;;
  when (negb c.1)
    (let ei := c.2 in
     oe <- on_g (get_expr ei) ;;
     og <- on_g (get_graph_node ei) ;;
     ogc <- get_child og 0 ;;
     when (is_trivial oe && ogc.1) (skip_expr _e j ei ogc)).
Definition children_of (_e : nat) : AM (list nat) :=
  e <- on_g (get_expr _e) ;; ret (seq 0 (Z.to_nat (e_size e))).
Definition fold_literal (_e : nat) : AM unit :=
  js <- children_of _e ;; for_each js (fold_child _e).

(** Whether each child is a negated expression around a single child. *)
Definition denorm_child (_e : nat) (denorm : bool) (j : nat) : AM bool :=
  if denorm then
    gn <- on_g (get_graph_node _e) ;;
    c <- get_child gn j ;;
    if (c.1 : bool) then ret false
    else oe <- on_g (get_expr c.2) ;; ret ((e_size oe =? 1) && is_not oe)
  else ret false.
Definition denorm_skip (_e j : nat) : AM unit :=
  gn <- on_g (get_graph_node _e) ;;
  c <- get_child gn j ;;
  let ei := c.2 in
  og <- on_g (get_graph_node ei) ;;
  ogc <- get_child og 0 ;;
  if (ogc.1 : bool) then skip_expr _e j ei ogc else upd_expr ogc.2 toggle_not.
Definition denormalize_negation (_e : nat) : AM unit :=
  js <- children_of _e ;;
  denorm <- fold_m js true (denorm_child _e) ;;
  when denorm (for_each js (denorm_skip _e) ;;; upd_expr _e toggle_demorgan).

(** ** Visiting expressions *)
Section Alloc.
Context (flags : ExprAllocFlags).

Definition optimize_expr (last : nat) : AM unit :=
  when (is_fold_literals flags) (fold_literal last) ;;;
  when (is_denormalize_negations flags) (denormalize_negation last).

(** [pfp]: the production rules of the type; [rec]: the visit of expressions
    by index. *)
Section Visit.
Context (pfp : prs_footprint) (rec : nat -> AM nat).

Definition the_only (e : footprint_expr_node) : AM nat :=
  require F_assert (Nat.eqb (length (fe_nodes e)) 1) ;;; of_option F_index (fe_nodes e !! 0%nat).
Definition visit_literal (e : footprint_expr_node) : AM nat :=
  n <- the_only e ;; allocate_new_literal_expr (lookup_local_bool_id n).
Definition visit_not_expr (e : footprint_expr_node) : AM nat :=
  n <- the_only e ;; sub <- rec n ;; allocate_new_not_expr sub.

(** The power supply, if the expression [i] that was built does without. *)
Definition supply_expr (i : nat) : AM nat :=
  src <- gets at_source ;;
  if (src : bool) then ps <- allocate_new_supply_expr ;; and_expression_with_literal i ps else ret i.

Fixpoint visit_conjuncts (last : nat) (cs : list nat) (offset : nat) : AM unit :=
  match cs with
  | [] => ret tt
  | c :: cs' =>
      sub <- rec c ;; link_child_expr last sub offset ;;; visit_conjuncts last cs' (S offset)
  end.
(** The first conjunct tells whether the power supply is needed; the offset of
    the second one. *)
Definition visit_first (last c : nat) : AM nat :=
  first <- rec c ;;
  src <- gets at_source ;;
  if (src : bool) then
    ps <- allocate_new_supply_expr ;;
    prepend_child_expr last ps ;;;
    link_child_expr last first 1 ;;;
    modify (put_at_source false) ;;;
    ret 2%nat
  else link_child_expr last first 0 ;;; ret 1%nat.
Definition visit_and_expr (e : footprint_expr_node) : AM nat :=
  last <- allocate_new_Nary_expr (fe_type e) (length (fe_nodes e)) ;;
  match fe_nodes e with
  | [] => fail F_assert
  | c :: cs => off <- visit_first last c ;; visit_conjuncts last cs off
  end ;;;
  optimize_expr last ;;;
  ret last.

Fixpoint visit_disjuncts (last : nat) (cs : list nat) (offset : nat) : AM unit :=
  match cs with
  | [] => ret tt
  | c :: cs' =>
      saving at_source put_at_source
        (i <- rec c ;; sub <- supply_expr i ;; link_child_expr last sub offset) ;;;
      visit_disjuncts last cs' (S offset)
  end.
Definition visit_or_expr (e : footprint_expr_node) : AM nat :=
  last <- allocate_new_Nary_expr (fe_type e) (length (fe_nodes e)) ;;
  visit_disjuncts last (fe_nodes e) 0 ;;;
  modify (put_at_source false) ;;;
  optimize_expr last ;;;
  ret last.

(** An internal node stands for its expression, with a supply of its own. *)
Definition visit_node_expr (e : footprint_expr_node) : AM nat :=
  eo <- the_only e ;;
  int_ind <- of_option F_assert (find_internal_node pfp eo) ;;
  s <- of_option F_assert (lookup_internal_node_supply pfp int_ind) ;;
  saving power_supply put_power_supply
    (r <- gets temp_rule ;;
     r <- of_option F_undef r ;;
     modify (put_power_supply (lookup_local_bool_id (if direction r then so_Vdd s else so_GND s))) ;;;
     i <- rec eo ;;
     j <- supply_expr i ;;
     modify (put_at_source false) ;;;
     ret j).

Definition visit_expr_node (e : footprint_expr_node) : AM nat :=
  match fe_type e with
  | PRS_LITERAL_TYPE_ENUM => visit_literal e
  | PRS_NOT_EXPR_TYPE_ENUM => visit_not_expr e
  | PRS_AND_EXPR_TYPE_ENUM => visit_and_expr e
  | PRS_OR_EXPR_TYPE_ENUM => visit_or_expr e
  | PRS_NODE_TYPE_ENUM => visit_node_expr e
  end.

(** Atomic expressions: no internal nodes, no supplies, no optimization. *)
Definition visit_atomic_expr (e : footprint_expr_node) : AM nat :=
  last <- allocate_new_Nary_expr (fe_type e) (length (fe_nodes e)) ;;
  visit_conjuncts last (fe_nodes e) 0 ;;;
  ret last.
Definition visit_rte_expr_node (e : footprint_expr_node) : AM nat :=
  match fe_type e with
  | PRS_LITERAL_TYPE_ENUM => visit_literal e
  | PRS_NOT_EXPR_TYPE_ENUM => visit_not_expr e
  | PRS_AND_EXPR_TYPE_ENUM | PRS_OR_EXPR_TYPE_ENUM => visit_atomic_expr e
  | PRS_NODE_TYPE_ENUM => fail F_exit
  end.
End Visit.

Fixpoint visit_expr (pfp : prs_footprint) (fuel : nat) (ei : nat) : AM nat :=
  match fuel with
  | O => fail F_fuel
  | S fuel' =>
      e <- of_option F_index (pool_at (pf_expr_pool pfp) ei) ;;
      visit_expr_node pfp (visit_expr pfp fuel') e
  end.
Fixpoint visit_rte_expr (rfp : rte_footprint) (fuel : nat) (ei : nat) : AM nat :=
  match fuel with
  | O => fail F_fuel
  | S fuel' =>
      e <- of_option F_index (pool_at (rf_expr_pool rfp) ei) ;;
      visit_rte_expr_node (visit_rte_expr rfp fuel') e
  end.

(** ** Rule attributes *)
Section Attributes.
Context (values : list Z).

Definition upd_temp_rule (f : Rule -> Rule) : AM unit :=
  r <- gets temp_rule ;; r <- of_option F_assert r ;; modify (put_temp_rule (Some (f r))).
Definition front_value : AM Z := of_option F_index (values !! 0%nat).
(** True if no value is given. *)
Definition flag_value : bool := match values with [] => true | v :: _ => negb (v =? 0) end.
Definition check_after_min_max : AM unit :=
  r <- gets temp_rule ;;
  r <- of_option F_assert r ;;
  require F_exit (negb (t_lt (r_after_max r) (r_after_min r))).

Definition After : AM unit := d <- front_value ;; upd_temp_rule (set_r_after (double_of_Z d 0)).
Definition AfterMin : AM unit :=
  d <- front_value ;;
  upd_temp_rule (set_r_after_min (double_of_Z d 0)) ;;;
  r <- gets temp_rule ;;
  when (match r with Some r => negb (real_is_zero (r_after_max r)) | None => false end) check_after_min_max.
Definition AfterMax : AM unit :=
  d <- front_value ;;
  upd_temp_rule (set_r_after_max (double_of_Z d 0)) ;;;
  r <- gets temp_rule ;;
  when (match r with Some r => negb (real_is_zero (r_after_min r)) | None => false end) check_after_min_max.
Definition Always_Random : AM unit :=
  upd_temp_rule (if flag_value then set_always_random else clear_always_random).
Definition Weak : AM unit := upd_temp_rule (if flag_value then rule_set_weak else rule_clear_weak).
Definition Unstab : AM unit := upd_temp_rule (if flag_value then set_unstable else clear_unstable).
Definition IsKeeper : AM unit :=
  modify (put_suppress flag_value) ;;;
  when (flag_value && fast_weak_keepers flags)
    (upd_temp_rule (fun r => set_r_after real_zero (rule_set_weak r)) ;;; modify (put_suppress false)).
Definition Diode : AM unit := modify (put_suppress flag_value).

(** The other attributes have no effect. *)
Definition rule_attribute (key : string) : AM unit :=
  let kw (k : string) := String.eqb key k in
  if kw "after"%string then After
  else if kw "after_min"%string then AfterMin
  else if kw "after_max"%string then AfterMax
  else if kw "always_random"%string then Always_Random
  else if kw "weak"%string then Weak
  else if kw "unstab"%string then Unstab
  else if kw "iskeeper"%string then IsKeeper
  else if kw "diode"%string then Diode
  else ret tt.
End Attributes.

(** ** Rules, macros and invariants *)
Definition link_node_to_root_expr (ni : option nat) (top_ex_index : nat) (dir : bool) (dummy : Rule)
    (w : rule_strength) : AM unit :=
  n <- of_option F_index ni ;;
  f <- on_g (get_faninout n) ;;
  upd_graph_node top_ex_index (set_offset (length (get_pull_expr dir w f))) ;;;
  upd_faninout n (set_pull_expr dir w (get_pull_expr dir w f ++ [top_ex_index])) ;;;
  upd_expr top_ex_index (fun e => set_parent_node e n) ;;;
  upd_g (fun g => set_rule_pool (rule_pool g ++ [set_direction dir dummy])
                    (set_rule_map (m_set top_ex_index (length (rule_pool g)) (rule_map g)) g)).
Definition link_invariant_expr (default_unspecified_delay : real_time) (top_ex_index src_inv_index : nat) : AM unit :=
  upd_expr top_ex_index set_root ;;;
  upd_g (fun g => set_rule_pool (rule_pool g ++ [set_invariant (Rule_make default_unspecified_delay)])
    (set_invariant_map (m_set top_ex_index src_inv_index (invariant_map g))
      (set_rule_map (m_set top_ex_index (length (rule_pool g)) (rule_map g)) g))).

Context (default_unspecified_delay : real_time) (fuel : nat).

Definition strength_of (r : Rule) : rule_strength := if rule_is_weak r then WEAK_RULE else NORMAL_RULE.
(** The rule with its attributes. *)
Definition attributed_rule (r : footprint_rule) : AM Rule :=
  saving temp_rule put_temp_rule
    (modify (put_temp_rule (Some (set_direction (fr_dir r) (Rule_make default_unspecified_delay)))) ;;;
     for_each (fr_attributes r) (fun a => rule_attribute a.2 a.1) ;;;
     d <- gets temp_rule ;;
     of_option F_assert d).
Definition visit_guard (pfp : prs_footprint) (ri : nat) (r : footprint_rule) (dummy : Rule) : AM nat :=
  require F_assert (Nat.leb (fr_expr_index r) (length (pf_expr_pool pfp))) ;;;
  saving temp_rule put_temp_rule
    (modify (put_temp_rule (Some dummy)) ;;;
     si <- of_option F_assert (lookup_rule_supply pfp ri) ;;
     saving power_supply put_power_supply
       (modify (put_power_supply (lookup_local_bool_id (if fr_dir r then so_Vdd si else so_GND si))) ;;;
        saving at_source put_at_source
          (modify (put_at_source (if fr_dir r then dynamic_power_supply flags else dynamic_ground_supply flags)) ;;;
           i <- visit_expr pfp fuel (fr_expr_index r) ;;
           supply_expr i))).
Definition visit_rule (pfp : prs_footprint) (ri : nat) (r : footprint_rule) : AM unit :=
  dummy <- attributed_rule r ;;
  suppressed <- gets suppress_keeper_rule ;;
  if (suppressed : bool) then modify (put_suppress false)
  else
    top <- visit_guard pfp ri r dummy ;;
    link_node_to_root_expr (lookup_local_bool_id (fr_output_index r)) top (fr_dir r) dummy (strength_of dummy).

(** The pass gates [passn] and [passp]: [g & ~s -> d-], [~g & s -> d+]. *)
Definition macro_node (m : footprint_macro) (k : nat) : AM nat :=
  l <- of_option F_index (fm_nodes m !! k) ;; of_option F_index (l !! 0%nat).
Definition pass_gate (dir : bool) (m : footprint_macro) : AM unit :=
  gn <- macro_node m 0 ;;
  g <- allocate_new_literal_expr (lookup_local_bool_id gn) ;;
  sn <- macro_node m 1 ;;
  s <- allocate_new_literal_expr (lookup_local_bool_id sn) ;;
  d <- macro_node m 2 ;;
  allocate_new_not_expr (if dir then g else s) ;;;
  pe <- allocate_new_Nary_expr PRS_AND_EXPR_TYPE_ENUM 2 ;;
  link_child_expr pe g 0 ;;;
  link_child_expr pe s 1 ;;;
  link_node_to_root_expr (lookup_local_bool_id d) pe dir (Rule_make default_unspecified_delay) NORMAL_RULE ;;;
  ri <- (gr <- gets al_g ;; of_option F_index (lookup_rule_index pe gr)) ;;
  r <- (gr <- gets al_g ;; of_option F_index (rule_pool gr !! ri)) ;;
  upd_g (fun gr => set_rule_pool (<[ri := set_r_after real_zero r]> (rule_pool gr)) gr).
Definition PassN : footprint_macro -> AM unit := pass_gate false.
Definition PassP : footprint_macro -> AM unit := pass_gate true.
(** [check_node_args]: no groups of nodes. *)
Definition macro_args_ok (m : footprint_macro) : bool :=
  forallb (fun l => Nat.leb (length l) 1) (fm_nodes m).
(** Other macros are ignored. *)
Definition visit_macro (m : footprint_macro) : AM unit :=
  if String.eqb (fm_name m) "passn"%string then require F_exit (macro_args_ok m) ;;; PassN m
  else if String.eqb (fm_name m) "passp"%string then require F_exit (macro_args_ok m) ;;; PassP m
  else ret tt.
Definition visit_invariant (pfp : prs_footprint) (j ei : nat) : AM unit :=
  i <- visit_expr pfp fuel ei ;; link_invariant_expr default_unspecified_delay i j.

Definition indexed {A} (l : list A) : list (nat * A) := combine (seq 0 (length l)) l.
Definition visit_prs (pfp : prs_footprint) : AM unit :=
  for_each (indexed (pf_rule_pool pfp)) (fun r => visit_rule pfp r.1 r.2) ;;;
  for_each (pf_macro_pool pfp) visit_macro ;;;
  for_each (indexed (pf_invariant_pool pfp)) (fun i => visit_invariant pfp i.1 i.2).

(** An assignment is a rule that pulls up, with its complement. *)
Definition visit_assignment (rfp : rte_footprint) (r : footprint_assignment) : AM unit :=
  s <- gets suppress_keeper_rule ;;
  require F_assert (negb s) ;;;
  require F_assert (Nat.leb (fa_expr_index r) (length (rf_expr_pool rfp))) ;;;
  top <- visit_rte_expr rfp fuel (fa_expr_index r) ;;
  link_node_to_root_expr (lookup_local_bool_id (fa_output_index r)) top true
    (set_direction true (Rule_make default_unspecified_delay)) NORMAL_RULE.
Definition visit_rte (rfp : rte_footprint) : AM unit := for_each (rf_assignment_pool rfp) (visit_assignment rfp).

(** ** Compaction *)

(** Point the parent, be it a node or an expression, at the new index [n]. *)
Definition relink_parent (i n : nat) (e : Expr) (gn : ExprGraphNode) : AM unit :=
  if is_root e then
    r <- on_g (the_rule n) ;;
    upd_faninout (e_parent e) (fun f =>
      set_pull_expr (direction r) (strength_of r) (replace i n (get_pull_expr (direction r) (strength_of r) f)) f)
  else upd_graph_node (e_parent e) (set_child (g_offset gn) (false, n)).
Definition relink_child (i n : nat) (c : child_entry) : AM unit :=
  if c.1 then upd_faninout c.2 (fun f => set_fanout (replace i n (f_fanout f)) f)
  else upd_expr c.2 (fun e => set_parent e n).
Definition move_rule (i n : nat) : AM unit :=
  upd_g (fun g => match m_find i (rule_map g) with
                  | Some ri => set_rule_map (m_erase i (m_set n ri (rule_map g))) g
                  | None => g
                  end).
Definition move_expr (i n : nat) : AM unit :=
  move_rule i n ;;;
  en <- on_g (get_expr n) ;;
  gnn <- on_g (get_graph_node n) ;;
  require F_assert (wiped en) ;;;
  require F_assert (ExprGraphNode_wiped gnn) ;;;
  e <- on_g (get_expr i) ;;
  gn <- on_g (get_graph_node i) ;;
  upd_expr n (fun _ => e) ;;;
  upd_graph_node n (fun _ => gn) ;;;
  relink_parent i n e gn ;;;
  require F_assert (e_size e =? Z.of_nat (length (g_children gn))) ;;;
  for_each (g_children gn) (relink_child i n).
(** Expression [i], from the end of the pool, is thrown away or takes the first
    free place. *)
Definition compact_one (discard free : list nat) (i : nat) : AM (list nat) :=
  if s_mem i discard then ret free
  else
    match free with
    | [] => fail F_assert
    | n :: free' => move_expr i n ;;; ret free'
    end.
Definition compact_expr_pools : AM unit :=
  a <- gets id ;;
  let holes := expr_free_list a in
  let eps := length (expr_pool (al_g a)) in
  let move_end := (eps - length holes)%nat in
  let discard := s_of_list (List.filter (Nat.leb move_end) holes) in
  let free := s_of_list (List.filter (fun i => Nat.ltb i move_end) holes) in
  modify (put_free []) ;;;
  left <- fold_m (seq move_end (length holes)) free (compact_one discard) ;;
  require F_assert (match left with [] => true | _ => false end) ;;;
  upd_g (fun g => set_expr_pool (take move_end (expr_pool g))
    (set_expr_graph_node_pool (take (length (expr_graph_node_pool g) - length holes) (expr_graph_node_pool g)) g)).

(** ** The graph of a process type *)

(** [visit_rules_and_directives] without the directives, which concern other
    parts of the state. *)
Definition visit_rules (pfp : option prs_footprint) (rfp : option rte_footprint) : AM unit :=
  match pfp with Some p => visit_prs p | None => ret tt end ;;;
  match rfp with Some r => visit_rte r | None => ret tt end.
Definition new_graph (atomic : list bool) : unique_process_subgraph :=
  set_local_faninout_map (map (mkFaninout [] [] [] [] []) atomic) graph_empty.
Definition auto_create_unique_process_graph (atomic : list bool) (pfp : option prs_footprint)
    (rfp : option rte_footprint) : AM unit :=
  upd_g (fun _ => new_graph atomic) ;;;
  visit_rules pfp rfp ;;;
  fl <- gets expr_free_list ;;
  when (any_optimize flags && match fl with [] => false | _ => true end) compact_expr_pools.
End Alloc.

(** The type's graph, from the initial state of the visitor. *)
Definition process_graph (flags : ExprAllocFlags) (default_unspecified_delay : real_time) (fuel : nat)
    (atomic : list bool) (pfp : option prs_footprint) (rfp : option rte_footprint) : res unique_process_subgraph :=
  match auto_create_unique_process_graph flags default_unspecified_delay fuel atomic pfp rfp (alloc_init graph_empty) with
  | Ok (_, a) => Ok (al_g a)
  | Err f => Err f
  end.
