(* ===== verification/ExprTree.v ===== *)
(** Expressions under construction as trees with owners.

    While the allocator of "ExprAlloc.v" runs, an expression is a tree of
    entries of the two pools, linked both ways.  [tree nv g i J v]: entry [i]
    is the top of a tree, made of the entries [J], whose value is [v] when the
    nodes have the values [nv].  [own J J' a a'] is a footprint specification
    in the manner of separation logic: a run from [a] to [a'] that owns the
    entries [J], and changes no other live entry, ends up owning [J'], all
    others accounted for. *)
From S2P Require Import Prelude SimTime PullSet Expr OrdMap Node ProcGraph ExprAlloc.
From stdpp Require Import gmap.
Open Scope Z_scope.
Local Open Scope hackt_scope.
#[local] Abbreviation length := Datatypes.length.

(** ** The type bits of expressions *)
Lemma type_bit_xor t m k : 0 <= k -> has_flag (Z.lxor t m) (2 ^ k) = xorb (has_flag t (2 ^ k)) (Z.testbit m k).
Proof. intros Hk. by rewrite !has_flag_testbit, Z.lxor_spec by done. Qed.
Lemma is_not_toggle_not e : is_not (toggle_not e) = negb (is_not e).
Proof. unfold is_not, toggle_not. cbn. rewrite (type_bit_xor _ _ 1) by done. by destruct (has_flag _ _). Qed.
Lemma is_disjunctive_toggle_not e : is_disjunctive (toggle_not e) = is_disjunctive e.
Proof. unfold is_disjunctive, toggle_not. cbn. rewrite (type_bit_xor _ _ 0) by done. by destruct (has_flag _ _). Qed.
Lemma is_root_toggle_not e : is_root (toggle_not e) = is_root e.
Proof. unfold is_root, toggle_not. cbn. rewrite (type_bit_xor _ _ 2) by done. by destruct (has_flag _ _). Qed.
Lemma is_root_toggle_demorgan e : is_root (toggle_demorgan e) = is_root e.
Proof. unfold is_root, toggle_demorgan. cbn. rewrite (type_bit_xor _ _ 2) by done. by destruct (has_flag _ _). Qed.

Lemma put_root_spec b e :
  let e' := set_type e (put_flag b (e_type e) EXPR_ROOT) in
  is_root e' = b /\ is_not e' = is_not e /\ is_disjunctive e' = is_disjunctive e.
Proof.
  cbn. unfold is_root, is_not, is_disjunctive. cbn. split_and!.
  - by apply (has_flag_put_same b _ 2).
  - by apply (has_flag_put_other b _ 2 1).
  - f_equal. by apply (has_flag_put_other b _ 2 0).
Qed.
Lemma set_parent_expr_spec e p : let e' := set_parent_expr e p in
  is_root e' = false /\ is_not e' = is_not e /\ is_disjunctive e' = is_disjunctive e /\
  e_parent e' = p /\ e_size e' = e_size e.
Proof. destruct (put_root_spec false e) as (? & ? & ?). done. Qed.
Lemma set_parent_node_spec e n : let e' := set_parent_node e n in
  is_root e' = true /\ is_not e' = is_not e /\ is_disjunctive e' = is_disjunctive e /\
  e_parent e' = n /\ e_size e' = e_size e.
Proof. destruct (put_root_spec true e) as (? & ? & ?). done. Qed.

Lemma kleene_bits e e' cs : is_not e' = is_not e -> is_disjunctive e' = is_disjunctive e ->
  kleene e' cs = kleene e cs.
Proof. unfold kleene. by intros -> ->. Qed.
Lemma kleene_toggle_not e cs : kleene (toggle_not e) cs = k_not (kleene e cs).
Proof.
  unfold kleene. rewrite is_not_toggle_not, is_disjunctive_toggle_not.
  destruct (is_not e); cbn [negb]; by rewrite ?k_not_involutive.
Qed.
Lemma kleene_toggle_demorgan e cs : kleene (toggle_demorgan e) (map k_not cs) = kleene e cs.
Proof.
  unfold kleene. rewrite is_not_toggle, is_disjunctive_toggle, foldr_k_and.
  assert (E : map k_not (map k_not cs) = cs).
  { rewrite map_map. rewrite (map_ext _ id) by (intros; apply k_not_involutive). apply map_id. }
  destruct (is_disjunctive e), (is_not e); cbn [negb]; by rewrite ?foldr_k_and, ?E, ?k_not_involutive.
Qed.
(** An expression around a single child. *)
Lemma kleene_single e v : kleene e [v] = if is_not e then k_not v else v.
Proof. unfold kleene, k_and. by destruct (is_disjunctive e), (is_not e), v. Qed.

(** ** Entries of the two pools *)
Abbreviation entry := (Expr * ExprGraphNode)%type.
Definition cell (g : unique_process_subgraph) (i : nat) : option entry :=
  e ← expr_pool g !! i; n ← expr_graph_node_pool g !! i; Some (e, n).
Definition set_cell (i : nat) (c : entry) (g : unique_process_subgraph) : unique_process_subgraph :=
  set_expr_graph_node_pool (<[i := c.2]> (expr_graph_node_pool g)) (set_expr_pool (<[i := c.1]> (expr_pool g)) g).

Lemma cell_inv g i e gn : cell g i = Some (e, gn) ->
  expr_pool g !! i = Some e /\ expr_graph_node_pool g !! i = Some gn.
Proof.
  unfold cell. destruct (expr_pool g !! i); [|done]. destruct (expr_graph_node_pool g !! i); [|done].
  by intros [= -> ->].
Qed.
Lemma cell_intro g i e gn : expr_pool g !! i = Some e -> expr_graph_node_pool g !! i = Some gn ->
  cell g i = Some (e, gn).
Proof. unfold cell. by intros -> ->. Qed.
Lemma cell_set_cell g i c c0 k : cell g i = Some c0 ->
  cell (set_cell i c g) k = if decide (k = i) then Some c else cell g k.
Proof.
  destruct c0, c. intros [H1 H2]%cell_inv. unfold cell. cbn. destruct (decide (k = i)) as [->|Hne].
  - by rewrite !list_lookup_insert_eq by (by eapply lookup_lt_Some).
  - by rewrite !list_lookup_insert_ne by done.
Qed.
Lemma cell_set_cell_eq g i c c0 : cell g i = Some c0 -> cell (set_cell i c g) i = Some c.
Proof. intros H. by rewrite (cell_set_cell _ _ _ _ _ H), decide_True. Qed.
Lemma cell_set_cell_ne g i c k : k <> i -> cell (set_cell i c g) k = cell g k.
Proof. intros Hne. unfold cell. cbn. by rewrite !list_lookup_insert_ne. Qed.

(** ** Trees *)
Definition full (e : Expr) (gn : ExprGraphNode) : Prop :=
  e_size e = Z.of_nat (length (g_children gn)) /\ g_children gn <> [] /\
  Z.of_nat (length (g_children gn)) < 2 ^ 16.
Definition child_of (g : unique_process_subgraph) (k p j : nat) : Prop :=
  exists e gn, cell g k = Some (e, gn) /\ is_root e = false /\ e_parent e = p /\ g_offset gn = j.

Section Tree.
Context (nv : nat -> pull_enum).

(** [branches g p j cs J vs]: the children [cs] of entry [p], from number [j]
    on, are nodes or tops of trees, on the entries [J]; their values. *)
Inductive tree (g : unique_process_subgraph) : nat -> gset nat -> pull_enum -> Prop :=
  | tree_expr i e gn J vs :
      cell g i = Some (e, gn) -> full e gn -> i ∉ J -> branches g i 0 (g_children gn) J vs ->
      tree g i ({[i]} ∪ J) (kleene e vs)
with branches (g : unique_process_subgraph) : nat -> nat -> list child_entry -> gset nat -> list pull_enum -> Prop :=
  | br_nil p j : branches g p j [] ∅ []
  | br_node p j n cs J vs :
      branches g p (S j) cs J vs -> branches g p j ((true, n) :: cs) J (nv n :: vs)
  | br_expr p j k cs Jk J v vs :
      tree g k Jk v -> child_of g k p j -> Jk ## J -> branches g p (S j) cs J vs ->
      branches g p j ((false, k) :: cs) (Jk ∪ J) (v :: vs).
End Tree.

Scheme tree_mut := Induction for tree Sort Prop
  with branches_mut := Induction for branches Sort Prop.
Combined Scheme tree_branches_ind from tree_mut, branches_mut.

Section TreeLemmas.
Context (nv : nat -> pull_enum).

Lemma tree_inv g i J v : tree nv g i J v -> exists e gn J' vs, J = {[i]} ∪ J' /\ v = kleene e vs /\
  cell g i = Some (e, gn) /\ full e gn /\ (i ∉ J') /\ branches nv g i 0 (g_children gn) J' vs.
Proof. intros H. destruct H as [i e gn J vs]. by exists e, gn, J, vs. Qed.
Lemma tree_top g i J v : tree nv g i J v -> i ∈ J.
Proof. intros (? & ? & ? & ? & -> & _)%tree_inv. set_solver. Qed.
Lemma tree_cell g i J v : tree nv g i J v -> exists e gn, cell g i = Some (e, gn) /\ full e gn.
Proof. intros (e & gn & ? & ? & ? & ? & ? & ? & _)%tree_inv. by exists e, gn. Qed.

Lemma child_of_local g g' k p j : cell g' k = cell g k -> child_of g k p j -> child_of g' k p j.
Proof. unfold child_of. by intros ->. Qed.
(** Trees depend on their own entries only. *)
Lemma tree_local_mut g g' :
  (forall i J v, tree nv g i J v -> (forall k, k ∈ J -> cell g' k = cell g k) -> tree nv g' i J v) /\
  (forall p j cs J vs, branches nv g p j cs J vs -> (forall k, k ∈ J -> cell g' k = cell g k) ->
    branches nv g' p j cs J vs).
Proof.
  apply (tree_branches_ind nv g
    (fun i J v _ => (forall k, k ∈ J -> cell g' k = cell g k) -> tree nv g' i J v)
    (fun p j cs J vs _ => (forall k, k ∈ J -> cell g' k = cell g k) -> branches nv g' p j cs J vs)).
  - intros i e gn J vs He Hf Hi _ IH Hg. eapply tree_expr; [|done|done|].
    + by rewrite Hg by set_solver.
    + apply IH. set_solver.
  - intros. constructor.
  - intros p j n cs J vs _ IH Hg. constructor. by apply IH.
  - intros p j k cs Jk J v vs Ht IHk Hc Hd _ IH Hg. constructor; [|eapply child_of_local; [|done]|done|].
    + apply IHk. set_solver.
    + apply Hg. apply tree_top in Ht. set_solver.
    + apply IH. set_solver.
Qed.
Lemma tree_local g g' i J v : tree nv g i J v -> (forall k, k ∈ J -> cell g' k = cell g k) -> tree nv g' i J v.
Proof. apply tree_local_mut. Qed.
Lemma branches_local g g' p j cs J vs : branches nv g p j cs J vs ->
  (forall k, k ∈ J -> cell g' k = cell g k) -> branches nv g' p j cs J vs.
Proof. apply tree_local_mut. Qed.

Lemma branches_length g p j cs J vs : branches nv g p j cs J vs -> length vs = length cs.
Proof. induction 1; cbn; by f_equal. Qed.
Lemma branches_app g p cs1 : forall j cs2 J vs, branches nv g p j (cs1 ++ cs2) J vs <->
  exists J1 J2 vs1 vs2, J = J1 ∪ J2 /\ J1 ## J2 /\ vs = vs1 ++ vs2 /\
    branches nv g p j cs1 J1 vs1 /\ branches nv g p (length cs1 + j) cs2 J2 vs2.
Proof.
  induction cs1 as [|c cs1 IH]; intros j cs2 J vs; cbn [app length].
  - split.
    + intros H. exists ∅, J, [], vs. split_and!; [set_solver|set_solver|done|constructor|done].
    + intros (J1 & J2 & vs1 & vs2 & -> & _ & -> & H1 & H2). inversion H1; subst.
      rewrite union_empty_l_L. done.
  - split.
    + intros H. inversion H as [|? ? n ? J' vs' Hb|? ? k ? Jk J' v vs' Ht Hc Hd Hb]; subst;
        apply IH in Hb as (J1 & J2 & vs1 & vs2 & -> & Hd' & -> & H1 & H2);
        rewrite Nat.add_succ_r in H2.
      * exists J1, J2, (nv n :: vs1), vs2. split_and!; [done..|by constructor|done].
      * exists (Jk ∪ J1), J2, (v :: vs1), vs2. split_and!; [set_solver|set_solver|done| |done].
        constructor; [done..|set_solver|done].
    + intros (J1 & J2 & vs1 & vs2 & -> & Hd & -> & H1 & H2).
      change (S (length cs1) + j)%nat with (S (length cs1 + j)) in H2. rewrite <- Nat.add_succ_r in H2.
      inversion H1 as [|? ? n ? J' vs' Hb|? ? k ? Jk J' v vs' Ht Hc Hd' Hb]; subst; cbn.
      * constructor. apply IH. by exists J1, J2, vs', vs2.
      * rewrite <- union_assoc_L. constructor; [done..|set_solver|]. apply IH.
        exists J', J2, vs', vs2. split_and!; [done|set_solver|done..].
Qed.
Lemma branches_snoc g p cs J vs k Jk v : branches nv g p 0 cs J vs -> tree nv g k Jk v ->
  child_of g k p (length cs) -> J ## Jk -> branches nv g p 0 (cs ++ [(false, k)]) (J ∪ Jk) (vs ++ [v]).
Proof.
  intros Hb Ht Hc Hd. apply branches_app. exists J, Jk, vs, [v]. split_and!; [done..|].
  rewrite Nat.add_0_r. rewrite <- (union_empty_r_L Jk). constructor; [done..|set_solver|constructor].
Qed.

(** The top of a tree may be turned and relinked. *)
Lemma tree_retop g g' i J v e gn e' gn' : tree nv g i J v -> cell g i = Some (e, gn) ->
  cell g' i = Some (e', gn') -> (forall k, k ∈ J -> k <> i -> cell g' k = cell g k) ->
  g_children gn' = g_children gn -> e_size e' = e_size e ->
  exists vs, v = kleene e vs /\ tree nv g' i J (kleene e' vs).
Proof.
  intros (e0 & gn0 & J' & vs & -> & -> & Hc & Hf & Hi & Hb)%tree_inv He He' Hloc Hch Hsz.
  simplify_eq. exists vs. split; [done|]. eapply tree_expr; [done|unfold full in *; congruence|done|].
  rewrite Hch. eapply branches_local; [done|]. intros k Hk. apply Hloc; set_solver.
Qed.
Lemma tree_relink g g' i J v e gn e' gn' : tree nv g i J v -> cell g i = Some (e, gn) ->
  cell g' i = Some (e', gn') -> (forall k, k ∈ J -> k <> i -> cell g' k = cell g k) ->
  g_children gn' = g_children gn -> e_size e' = e_size e ->
  is_not e' = is_not e -> is_disjunctive e' = is_disjunctive e -> tree nv g' i J v.
Proof.
  intros Ht He He' Hloc Hch Hsz Hn Hd.
  destruct (tree_retop _ _ _ _ _ _ _ _ _ Ht He He' Hloc Hch Hsz) as (vs & -> & Ht').
  by rewrite (kleene_bits e e') in Ht'.
Qed.
End TreeLemmas.

(** ** Pools and ownership *)
Definition fan_in (g : unique_process_subgraph) (n i : nat) : Prop :=
  exists f, local_faninout_map g !! n = Some f /\ i ∈ f_fanout f.
Definition leaf_in (g : unique_process_subgraph) (n i : nat) : Prop :=
  exists e gn, cell g i = Some (e, gn) /\ (true, n) ∈ g_children gn.
Definition live (a : alloc_state) : gset nat :=
  list_to_set (seq 0 (length (expr_pool (al_g a)))) ∖ list_to_set (expr_free_list a).
Lemma elem_of_live a i : i ∈ live a <-> (i < length (expr_pool (al_g a)))%nat /\ i ∉ expr_free_list a.
Proof. unfold live. rewrite elem_of_difference, !elem_of_list_to_set, elem_of_seq. intuition lia. Qed.

(** Free entries are wiped; fanouts and leaves agree. *)
Record pool_ok (a : alloc_state) : Prop := {
  po_len : length (expr_pool (al_g a)) = length (expr_graph_node_pool (al_g a));
  po_nodup : NoDup (expr_free_list a);
  po_free : forall i, i ∈ expr_free_list a -> exists e gn, cell (al_g a) i = Some (e, gn) /\
    wiped e = true /\ g_children gn = [];
  po_fan : forall n i, fan_in (al_g a) n i <-> leaf_in (al_g a) n i
}.

(** What the construction of expressions leaves alone. *)
Definition rest (g : unique_process_subgraph) :=
  (map (set_fanout []) (local_faninout_map g), rule_pool g, rule_map g, invariant_map g,
   (setup_constraints g, hold_constraints g, min_delays g)).
Record own (J J' : gset nat) (a a' : alloc_state) : Prop := {
  ow_pool : pool_ok a';
  ow_before : J ⊆ live a;
  ow_after : J' ⊆ live a';
  ow_others : live a' ∖ J' = live a ∖ J;
  ow_cells : forall i, i ∈ live a -> i ∉ J -> cell (al_g a') i = cell (al_g a) i;
  ow_rest : rest (al_g a') = rest (al_g a)
}.
(** The control part of the visitor. *)
Definition ctl (a : alloc_state) := (suppress_keeper_rule a, temp_rule a, power_supply a, at_source a).

Lemma own_refl a J : pool_ok a -> J ⊆ live a -> own J J a a.
Proof. by split. Qed.
Lemma own_trans a a1 a2 J J1 J2 : own J J1 a a1 -> own J1 J2 a1 a2 -> own J J2 a a2.
Proof.
  intros [P1 B1 A1 O1 C1 R1] [P2 B2 A2 O2 C2 R2]. split; [done..|congruence| |congruence].
  intros i Hi Hn. assert (i ∈ live a1 ∖ J1) as [Hi1 Hn1]%elem_of_difference by (rewrite O1; set_solver).
  rewrite C2 by done. by apply C1.
Qed.
(** The frame rule. *)
Lemma own_frame a a' J J' F : own J J' a a' -> F ⊆ live a -> F ## J ->
  own (J ∪ F) (J' ∪ F) a a' /\ F ## J'.
Proof.
  intros [P B A O C R] HF Hd. assert (Hd' : F ⊆ live a' ∖ J') by (rewrite O; set_solver).
  split; [|set_solver]. split; [done|set_solver|set_solver| | |done].
  - rewrite <- !difference_difference_l_L. by rewrite O.
  - intros i Hi Hn. apply C; set_solver.
Qed.
Lemma own_frame_sub a a1 a2 J J1 K K' : own J J1 a a1 -> own K K' a1 a2 -> K ⊆ J1 ->
  own J (K' ∪ (J1 ∖ K)) a a2 /\ (J1 ∖ K) ## K'.
Proof.
  intros H1 H2 Hsub. pose proof (ow_after _ _ _ _ H1) as HJ.
  destruct (own_frame _ _ _ _ (J1 ∖ K) H2) as [H Hd]; [set_solver..|]. split; [|done].
  eapply own_trans; [exact H1|]. by replace J1 with (K ∪ J1 ∖ K) at 1 by (by rewrite <- union_difference_L).
Qed.
(** Allocating next to what is owned already. *)
Lemma own_more a a1 a2 J J1 K : own J J1 a a1 -> own ∅ K a1 a2 -> own J (J1 ∪ K) a a2 /\ J1 ## K.
Proof.
  intros H1 H2. destruct (own_frame_sub _ _ _ _ _ _ _ H1 H2) as [H Hd]; [set_solver|].
  rewrite difference_empty_L in *. by rewrite union_comm_L.
Qed.
(** Changing a part of what is owned. *)
Lemma own_part a a1 a2 J J1 K : own J J1 a a1 -> own K K a1 a2 -> K ⊆ J1 -> own J J1 a a2.
Proof.
  intros H1 H2 Hs. destruct (own_frame_sub _ _ _ _ _ _ _ H1 H2 Hs) as [H _].
  by rewrite <- union_difference_L in H.
Qed.
Lemma own_tree nv a a' J J' i K v : own J J' a a' -> tree nv (al_g a) i K v -> K ⊆ live a -> K ## J ->
  tree nv (al_g a') i K v.
Proof. intros Ho Ht Hs Hd. eapply tree_local; [done|]. intros k Hk. eapply ow_cells; [done|set_solver..]. Qed.
Lemma own_branches nv a a' J J' p j cs K vs : own J J' a a' -> branches nv (al_g a) p j cs K vs ->
  K ⊆ live a -> K ## J -> branches nv (al_g a') p j cs K vs.
Proof. intros Ho Ht Hs Hd. eapply branches_local; [done|]. intros k Hk. eapply ow_cells; [done|set_solver..]. Qed.

(** Ownership does not depend on the control part. *)
Definition heap (a : alloc_state) := (al_g a, expr_free_list a).
Lemma live_heap a b : heap a = heap b -> live a = live b.
Proof. unfold live. by intros [= -> ->]. Qed.
Lemma pool_ok_heap a b : heap a = heap b -> pool_ok a -> pool_ok b.
Proof. intros [= Eg El] [H1 H2 H3 H4]. split; rewrite <- ?Eg, <- ?El; done. Qed.
Lemma own_heap J J' a a' b b' : heap a = heap b -> heap a' = heap b' -> own J J' a a' -> own J J' b b'.
Proof.
  intros E E' [H1 H2 H3 H4 H5 H6]. pose proof (live_heap _ _ E) as L. pose proof (live_heap _ _ E') as L'.
  pose proof (pool_ok_heap _ _ E' H1). injection E as Eg El. injection E' as Eg' El'.
  split; rewrite <- ?L, <- ?L', <- ?Eg, <- ?Eg'; done.
Qed.
Lemma own_put_at_source J J' a a' s : own J J' a a' -> own J J' a (put_at_source s a').
Proof. by apply own_heap. Qed.
