(* ===== verification/ExprBuild.v ===== *)
(** The operations of "ExprAlloc.v" that build expressions, specified by the
    trees of "ExprTree.v": each one takes ownership of the entries it
    allocates, leaves all others alone, and gives a tree of the right value. *)
From S2P Require Import Prelude SimTime PullSet Expr OrdMap Node ProcGraph ExprAlloc ExprTree.
From stdpp Require Import gmap.
Open Scope Z_scope.
Local Open Scope hackt_scope.
#[local] Abbreviation length := Datatypes.length.

(** ** Changing one entry *)
Abbreviation set_cell_of i c a := (put_g (set_cell i c (al_g a)) a).

Lemma wp_upd_expr i f a e gn (Q : unit -> alloc_state -> Prop) : cell (al_g a) i = Some (e, gn) ->
  Q tt (set_cell_of i (f e, gn) a) -> wp (upd_expr i f) Q a.
Proof.
  intros [He Hg]%cell_inv HQ. unfold upd_expr, upd_g, on_g, get_expr. cbn. unfold wpe, bind, gets, of_option.
  rewrite He. cbn. unfold set_cell in HQ. cbn in HQ. rewrite (list_insert_id _ i gn) in HQ by done.
  by destruct a as [[] ? ? ? ? ?].
Qed.
Lemma wp_upd_graph_node i f a e gn (Q : unit -> alloc_state -> Prop) : cell (al_g a) i = Some (e, gn) ->
  Q tt (set_cell_of i (e, f gn) a) -> wp (upd_graph_node i f) Q a.
Proof.
  intros [He Hg]%cell_inv HQ. unfold upd_graph_node, upd_g, on_g, get_graph_node. cbn.
  unfold wpe, bind, gets, of_option.
  rewrite Hg. cbn. unfold set_cell in HQ. cbn in HQ. rewrite (list_insert_id _ i e) in HQ by done.
  by destruct a as [[] ? ? ? ? ?].
Qed.
Lemma wp_get_expr i a e gn (Q : Expr -> alloc_state -> Prop) : cell (al_g a) i = Some (e, gn) ->
  Q e a -> wp (on_g (get_expr i)) Q a.
Proof.
  intros [He _]%cell_inv HQ. unfold on_g, get_expr, wpe, bind, gets, of_option. cbn. rewrite He. cbn.
  by destruct a.
Qed.
Lemma wp_get_graph_node i a e gn (Q : ExprGraphNode -> alloc_state -> Prop) : cell (al_g a) i = Some (e, gn) ->
  Q gn a -> wp (on_g (get_graph_node i)) Q a.
Proof.
  intros [_ Hg]%cell_inv HQ. unfold on_g, get_graph_node, wpe, bind, gets, of_option. cbn. rewrite Hg. cbn.
  by destruct a.
Qed.
Definition set_faninout (n : nat) (f : faninout_struct_type) (g : unique_process_subgraph) :=
  set_local_faninout_map (<[n := f]> (local_faninout_map g)) g.
Lemma wp_get_faninout n a f (Q : faninout_struct_type -> alloc_state -> Prop) :
  local_faninout_map (al_g a) !! n = Some f -> Q f a -> wp (on_g (get_faninout n)) Q a.
Proof.
  intros Hf HQ. unfold on_g, get_faninout, wpe, bind, gets, of_option. cbn. rewrite Hf. cbn. by destruct a.
Qed.
Lemma wp_upd_faninout n F a f (Q : unit -> alloc_state -> Prop) : local_faninout_map (al_g a) !! n = Some f ->
  Q tt (put_g (set_faninout n (F f) (al_g a)) a) -> wp (upd_faninout n F) Q a.
Proof.
  intros Hf HQ. unfold upd_faninout, upd_g, on_g, get_faninout, wpe, bind, gets, of_option. cbn. rewrite Hf. cbn.
  by destruct a as [[] ? ? ? ? ?].
Qed.

Lemma live_cell a i : pool_ok a -> i ∈ live a -> exists e gn, cell (al_g a) i = Some (e, gn).
Proof.
  intros Hp [Hi _]%elem_of_live. destruct (lookup_lt_is_Some_2 _ _ Hi) as [e He].
  rewrite (po_len _ Hp) in Hi. destruct (lookup_lt_is_Some_2 _ _ Hi) as [gn Hgn].
  exists e, gn. by apply cell_intro.
Qed.
Lemma live_set_cell a i c : live (set_cell_of i c a) = live a.
Proof. unfold live. cbn. by rewrite length_insert. Qed.
Lemma leaf_in_set_cell g i c c0 n k : cell g i = Some c0 ->
  leaf_in (set_cell i c g) n k <-> if decide (k = i) then (true, n) ∈ g_children c.2 else leaf_in g n k.
Proof.
  intros H. unfold leaf_in. destruct (decide (k = i)) as [->|Hne].
  - rewrite (cell_set_cell_eq _ _ _ _ H). destruct c as [e gn]. cbn.
    split; [by intros (? & ? & [= -> ->] & ?)|]. intros Hn. by exists e, gn.
  - by rewrite cell_set_cell_ne.
Qed.

(** A live entry may change as long as its nodes stay the same. *)
Lemma own_set_cell a i e gn e' gn' : pool_ok a -> i ∈ live a -> cell (al_g a) i = Some (e, gn) ->
  (forall n, (true, n) ∈ g_children gn' <-> (true, n) ∈ g_children gn) ->
  own {[i]} {[i]} a (set_cell_of i (e', gn') a).
Proof.
  intros Hp Hi Hc Hn. split.
  - destruct Hp as [Hl Hnd Hf Hfan]. split; cbn [al_g put_g expr_free_list].
    + cbn. by rewrite !length_insert.
    + done.
    + intros k Hk. apply elem_of_live in Hi as [_ Hi]. rewrite cell_set_cell_ne by congruence. by apply Hf.
    + intros n k. rewrite (leaf_in_set_cell _ _ _ _ _ _ Hc).
      etransitivity; [apply (Hfan n k)|]. destruct (decide (k = i)) as [->|]; [|done]. cbn. rewrite Hn.
      unfold leaf_in. rewrite Hc. split; [by intros (? & ? & [= <- <-] & ?)|]. intros ?. by exists e, gn.
  - set_solver.
  - rewrite live_set_cell. set_solver.
  - by rewrite live_set_cell.
  - intros k _ Hk. cbn. apply cell_set_cell_ne. set_solver.
  - done.
Qed.

Lemma own_cell K a0 a i e gn e' gn' : own K K a0 a -> i ∈ K -> cell (al_g a) i = Some (e, gn) ->
  (forall n, (true, n) ∈ g_children gn' <-> (true, n) ∈ g_children gn) ->
  own K K a0 (set_cell_of i (e', gn') a).
Proof.
  intros Ho Hi Hc Hn. pose proof (ow_after _ _ _ _ Ho) as Hl.
  eapply own_part; [exact Ho|eapply own_set_cell; [by eapply ow_pool|by apply Hl|done|done]|set_solver].
Qed.

(** ** Allocation *)
Lemma lookup_snoc_if {A} (l : list A) x k : (l ++ [x]) !! k = if decide (k = length l) then Some x else l !! k.
Proof.
  destruct (decide (k = length l)) as [->|Hne].
  - rewrite lookup_app_r by done. by rewrite Nat.sub_diag.
  - destruct (decide (k < length l)%nat); [by apply lookup_app_l|].
    rewrite lookup_app_r by lia. rewrite (lookup_ge_None_2 l) by lia. apply lookup_ge_None_2. cbn. lia.
Qed.
Lemma own_nodes_length J J' a a' : own J J' a a' ->
  length (local_faninout_map (al_g a')) = length (local_faninout_map (al_g a)).
Proof. intros [_ _ _ _ _ R]. unfold rest in R. injection R as R _. by apply (f_equal length) in R; rewrite !length_map in R. Qed.
Lemma wp_allocate_expr a e : pool_ok a ->
  wp (allocate_expr e) (fun i a' => own ∅ {[i]} a a' /\ cell (al_g a') i = Some (e, ExprGraphNode_empty) /\
    ctl a' = ctl a) a.
Proof.
  intros Hp. unfold allocate_expr. apply wpe_bind, wpe_gets.
  destruct (expr_free_list a) as [|i fl] eqn:Efl.
  - apply wpe_bind, wpe_gets, wpe_bind. unfold upd_g. apply wpe_modify, wpe_ret.
    destruct Hp as [Hl Hnd Hf Hfan]. set (i := length (expr_pool (al_g a))).
    assert (Hnone : cell (al_g a) i = None) by (unfold cell; by rewrite (lookup_ge_None_2 (expr_pool (al_g a)) i) by (unfold i; lia)).
    assert (Hci : forall k, cell (set_expr_graph_node_pool (expr_graph_node_pool (al_g a) ++ [ExprGraphNode_empty])
        (set_expr_pool (expr_pool (al_g a) ++ [e]) (al_g a))) k =
      if decide (k = i) then Some (e, ExprGraphNode_empty) else cell (al_g a) k).
    { intros k. unfold cell. cbn. rewrite !lookup_snoc_if, <- Hl. fold i. by destruct (decide (k = i)). }
    split_and!; [|by cbn [al_g put_g]; rewrite Hci, decide_True|done]. split.
    + split; cbn [al_g put_g expr_free_list].
      * cbn. rewrite !length_app. cbn. by rewrite Hl.
      * done.
      * rewrite Efl. by intros ? ?%elem_of_nil.
      * intros n k. unfold fan_in, leaf_in. rewrite Hci. etransitivity; [apply (Hfan n k)|].
        unfold leaf_in. destruct (decide (k = i)) as [->|]; [|done]. rewrite Hnone.
        split; [by intros (? & ? & ? & _)|]. intros (? & ? & [= <- <-] & ?%elem_of_nil). done.
    + set_solver.
    + intros k ->%elem_of_singleton. rewrite elem_of_live. cbn. rewrite length_app, Efl. cbn.
      split; [unfold i; lia|]. by intros ?%elem_of_nil.
    + apply set_eq. intros k. rewrite !elem_of_difference, !elem_of_live. cbn. rewrite length_app. cbn.
      fold i. set_unfold. intuition lia.
    + intros k Hk _. cbn [al_g put_g]. rewrite Hci, decide_False; [done|].
      apply elem_of_live in Hk as [Hk _]. fold i in Hk. lia.
    + done.
  - apply wpe_bind, wpe_modify. pose proof (po_nodup _ Hp) as Hnd. rewrite Efl in Hnd.
    apply NoDup_cons in Hnd as [Hni Hnd].
    destruct (po_free _ Hp i) as (e0 & gn0 & Hc & _ & Hch); [rewrite Efl; by left|].
    apply wpe_bind. eapply wp_upd_expr; [exact Hc|]. apply wpe_bind.
    eapply wp_upd_graph_node; [by eapply cell_set_cell_eq|]. apply wpe_ret.
    cbn [al_g put_g put_free].
    assert (Hci : forall k, cell (set_cell i (e, ExprGraphNode_empty) (set_cell i (e, gn0) (al_g a))) k =
      if decide (k = i) then Some (e, ExprGraphNode_empty) else cell (al_g a) k).
    { intros k. erewrite cell_set_cell by (by eapply cell_set_cell_eq).
      destruct (decide (k = i)); [done|]. by apply cell_set_cell_ne. }
    split_and!; [|by cbn [al_g put_g put_free]; rewrite Hci, decide_True|done]. split.
    + destruct Hp as [Hl Hnd' Hf Hfan]. split; cbn [al_g put_g put_free expr_free_list].
      * cbn. by rewrite !length_insert.
      * done.
      * intros k Hk. rewrite Hci, decide_False by congruence. apply Hf. rewrite Efl. by right.
      * intros n k. unfold fan_in, leaf_in. rewrite Hci. etransitivity; [apply (Hfan n k)|].
        unfold leaf_in. destruct (decide (k = i)) as [->|]; [|done]. rewrite Hc. split.
        -- intros (? & ? & [= <- <-] & Hx). rewrite Hch in Hx. by apply elem_of_nil in Hx.
        -- intros (? & ? & [= <- <-] & ?%elem_of_nil). done.
    + set_solver.
    + intros k ->%elem_of_singleton. rewrite elem_of_live. cbn. rewrite !length_insert.
      apply cell_inv in Hc as [Hc _]. apply lookup_lt_Some in Hc. done.
    + apply set_eq. intros k. rewrite !elem_of_difference, !elem_of_live. cbn. rewrite !length_insert, Efl.
      set_unfold. naive_solver.
    + intros k Hk _. cbn [al_g put_g put_free]. rewrite Hci, decide_False; [done|].
      apply elem_of_live in Hk as [_ Hk]. rewrite Efl in Hk. set_solver.
    + done.
Qed.

(** ** Fanouts *)
Lemma map_insert {A B} (f : A -> B) l i x : map f (<[i := x]> l) = <[i := f x]> (map f l).
Proof. revert i. induction l as [|y l IH]; intros [|i]; cbn; [done..|]. by rewrite IH. Qed.
Lemma lookup_map {A B} (f : A -> B) l i : map f l !! i = f <$> l !! i.
Proof. revert i. induction l as [|y l IH]; intros [|i]; cbn; [done..|]. by rewrite IH. Qed.

Lemma rest_set_fanout n f l g : local_faninout_map g !! n = Some f ->
  rest (set_faninout n (set_fanout l f) g) = rest g.
Proof.
  intros Hf. unfold rest. cbn. rewrite map_insert. rewrite list_insert_id; [done|].
  rewrite lookup_map, Hf. done.
Qed.
Lemma fan_in_set_fanout n f l g m k : local_faninout_map g !! n = Some f ->
  fan_in (set_faninout n (set_fanout l f) g) m k <-> if decide (m = n) then k ∈ l else fan_in g m k.
Proof.
  intros Hf. unfold fan_in. cbn. destruct (decide (m = n)) as [->|Hne].
  - rewrite list_lookup_insert_eq by (by eapply lookup_lt_Some). split.
    + by intros (? & [= <-] & ?).
    + intros Hk. by eexists.
  - by rewrite list_lookup_insert_ne.
Qed.
Lemma own_push_leaf a i e gn n f : pool_ok a -> i ∈ live a -> cell (al_g a) i = Some (e, gn) ->
  local_faninout_map (al_g a) !! n = Some f ->
  own {[i]} {[i]} a (put_g (set_cell i (e, push_back_node gn n)
    (set_faninout n (set_fanout (f_fanout f ++ [i]) f) (al_g a))) a).
Proof.
  intros Hp Hi Hc Hf. set (g1 := set_faninout n _ (al_g a)).
  assert (Hc1 : cell g1 i = Some (e, gn)) by done. split; cbn [al_g put_g].
  - destruct Hp as [Hl Hnd Hfr Hfan]. split; cbn [al_g put_g expr_free_list].
    + cbn. by rewrite !length_insert.
    + done.
    + intros k Hk. apply elem_of_live in Hi as [_ Hi]. rewrite cell_set_cell_ne by congruence. by apply Hfr.
    + intros m k. etransitivity; [apply (fan_in_set_fanout n f _ (al_g a) m k Hf)|].
      etransitivity; [|symmetry; apply (leaf_in_set_cell _ _ _ _ m k Hc1)].
      change (g_children (e, push_back_node gn n).2) with (g_children gn ++ [(true, n)]).
      change (leaf_in g1 m k) with (leaf_in (al_g a) m k).
      destruct (decide (m = n)) as [->|Hmn]; destruct (decide (k = i)) as [->|Hki].
      * rewrite !elem_of_app, !list_elem_of_singleton. naive_solver.
      * rewrite <- Hfan, elem_of_app, list_elem_of_singleton. unfold fan_in. rewrite Hf. naive_solver.
      * rewrite elem_of_app, list_elem_of_singleton. etransitivity; [apply Hfan|]. unfold leaf_in. rewrite Hc.
        split; [by intros (? & ? & [= <- <-] & ?); left|]. intros [?|[= ?]]; [by exists e, gn|done].
      * apply Hfan.
  - set_solver.
  - intros k ->%elem_of_singleton. apply elem_of_live in Hi as [Hi ?]. rewrite elem_of_live. cbn.
    by rewrite length_insert.
  - f_equal. unfold live. cbn. by rewrite length_insert.
  - intros k _ Hk. rewrite cell_set_cell_ne by set_solver. done.
  - by apply rest_set_fanout.
Qed.

(** ** Literals, negations, links *)
Section Build.
Context (nv : nat -> pull_enum).

(** Entry [p] has the type of [e] and the children [cs] so far. *)
Definition node_at (g : unique_process_subgraph) (p : nat) (e : Expr) (cs : list child_entry) (J : gset nat)
    (vs : list pull_enum) : Prop :=
  exists gn, cell g p = Some (e, gn) /\ g_children gn = cs /\ (p ∉ J) /\ branches nv g p 0 cs J vs.
(** The top of an expression that is not linked yet; [b]: it is a literal. *)
Definition top_ok (b : bool) (g : unique_process_subgraph) (i : nat) : Prop :=
  exists e gn, cell g i = Some (e, gn) /\ e_parent e = INVALID_EXPR_INDEX /\ (b = true -> is_disjunctive e = true).

Lemma node_at_local g g' p e cs J vs : node_at g p e cs J vs ->
  (forall k, k ∈ {[p]} ∪ J -> cell g' k = cell g k) -> node_at g' p e cs J vs.
Proof.
  intros (gn & Hc & Hch & Hp & Hb) Hl. exists gn. split_and!; [by rewrite Hl by set_solver|done|done|].
  eapply branches_local; [done|]. intros k Hk. apply Hl. set_solver.
Qed.
Lemma own_node_at a a' J J' p e cs K vs : own J J' a a' -> node_at (al_g a) p e cs K vs ->
  {[p]} ∪ K ⊆ live a -> ({[p]} ∪ K) ## J -> node_at (al_g a') p e cs K vs.
Proof. intros Ho Hn Hs Hd. eapply node_at_local; [done|]. intros k Hk. eapply ow_cells; [done|set_solver..]. Qed.
(** A node with as many children as it announces. *)
Lemma node_at_tree g p e cs J vs : node_at g p e cs J vs -> e_size e = Z.of_nat (length cs) -> cs <> [] ->
  Z.of_nat (length cs) < 2 ^ 16 -> tree nv g p ({[p]} ∪ J) (kleene e vs).
Proof. intros (gn & Hc & <- & Hp & Hb) Hs Hn Hl. by eapply tree_expr. Qed.
Lemma tree_node_at g p J v : tree nv g p J v -> exists e cs J' vs, J = {[p]} ∪ J' /\ v = kleene e vs /\
  node_at g p e cs J' vs /\ e_size e = Z.of_nat (length cs) /\ cs <> [] /\ Z.of_nat (length cs) < 2 ^ 16.
Proof.
  intros (e & gn & J' & vs & -> & -> & Hc & (Hs & Hn & Hl) & Hp & Hb)%tree_inv.
  exists e, (g_children gn), J', vs. split_and!; [done..| |done|done|done]. by exists gn.
Qed.

Lemma wp_literal a n : pool_ok a -> (n < length (local_faninout_map (al_g a)))%nat ->
  wp (allocate_new_literal_expr (Some n)) (fun i a' => own ∅ {[i]} a a' /\
    tree nv (al_g a') i {[i]} (nv n) /\ (forall b, top_ok b (al_g a') i) /\ ctl a' = ctl a) a.
Proof.
  intros Hp Hn. unfold allocate_new_literal_expr. apply wpe_bind, wpe_lift_res; [|done]. intros e [= <-].
  apply wpe_bind. eapply wpe_mono; [by apply wp_allocate_expr|]. intros i a1 (Ho & Hc & Hctl).
  apply wpe_bind. cbn [of_option]. apply wpe_ret, wpe_bind, wpe_gets.
  rewrite (own_nodes_length _ _ _ _ Ho), (proj2 (Nat.ltb_lt _ _) Hn). apply wpe_bind, wpe_ret.
  destruct (lookup_lt_is_Some_2 (local_faninout_map (al_g a1)) n) as [f Hf].
  { by rewrite (own_nodes_length _ _ _ _ Ho). }
  apply wpe_bind. eapply wp_upd_faninout; [done|]. apply wpe_bind. eapply wp_upd_graph_node; [exact Hc|].
  apply wpe_ret. pose proof (ow_after _ _ _ _ Ho) as Hl.
  pose proof (own_push_leaf a1 i _ _ n f (ow_pool _ _ _ _ Ho) (Hl i ltac:(set_solver)) Hc Hf) as Ho'.
  set (a2 := put_g (set_cell i _ _) _) in *. change (own {[i]} {[i]} a1 a2) in Ho'.
  assert (Hc2 : cell (al_g a2) i = Some (mkExpr INVALID_EXPR_INDEX EXPR_OR 1, push_back_node ExprGraphNode_empty n)).
  { by eapply cell_set_cell_eq. }
  split_and!; [by eapply own_trans| |by intros b; eexists _, _|done].
  rewrite <- (union_empty_r_L {[i]}).
  replace (nv n) with (kleene (mkExpr INVALID_EXPR_INDEX EXPR_OR 1) [nv n]) by apply kleene_single.
  eapply tree_expr; [exact Hc2|by split_and!|set_solver|]. cbn. constructor. constructor.
Qed.

Lemma wp_toggle_not a k J v : pool_ok a -> tree nv (al_g a) k J v -> J ⊆ live a ->
  wp (upd_expr k toggle_not) (fun _ a' => own J J a a' /\ tree nv (al_g a') k J (k_not v) /\
    ctl a' = ctl a /\ (forall b, top_ok b (al_g a) k -> top_ok b (al_g a') k) /\
    forall p j, child_of (al_g a) k p j -> child_of (al_g a') k p j) a.
Proof.
  intros Hp Ht Hl. pose proof (tree_top _ _ _ _ _ Ht) as Hk. destruct (tree_cell _ _ _ _ _ Ht) as (e & gn & Hc & _).
  eapply wp_upd_expr; [exact Hc|]. split_and!; [| |done| |].
  - eapply own_cell; [by apply own_refl|done|exact Hc|done].
  - destruct (tree_retop nv _ (set_cell k (toggle_not e, gn) (al_g a)) _ _ _ _ _ (toggle_not e) gn Ht Hc) as (vs & -> & Ht').
    + by eapply cell_set_cell_eq.
    + intros. by apply cell_set_cell_ne.
    + done.
    + done.
    + by rewrite kleene_toggle_not in Ht'.
  - intros b (e' & gn' & Hc' & Hpar & Hd). simplify_eq. exists (toggle_not e), gn. split; [by eapply cell_set_cell_eq|].
    by rewrite is_disjunctive_toggle_not.
  - intros p j (e' & gn' & Hc' & Hr & Hpar & Ho). simplify_eq. exists (toggle_not e), gn.
    split; [by eapply cell_set_cell_eq|]. by rewrite is_root_toggle_not.
Qed.
Lemma wp_not a k J v : pool_ok a -> tree nv (al_g a) k J v -> J ⊆ live a ->
  wp (allocate_new_not_expr k) (fun i a' => i = k /\ own J J a a' /\ tree nv (al_g a') k J (k_not v) /\
    ctl a' = ctl a /\ (forall b, top_ok b (al_g a) k -> top_ok b (al_g a') k)) a.
Proof.
  intros Hp Ht Hl. unfold allocate_new_not_expr. apply wpe_bind.
  eapply wpe_mono; [by eapply wp_toggle_not|]. intros [] a' (? & ? & ? & ? & _). by apply wpe_ret.
Qed.

Lemma wp_link a p e cs J vs k Jk v : pool_ok a -> node_at (al_g a) p e cs J vs -> tree nv (al_g a) k Jk v ->
  {[p]} ∪ J ∪ Jk ⊆ live a -> ({[p]} ∪ J) ## Jk ->
  wp (link_child_expr p k (length cs)) (fun _ a' => node_at (al_g a') p e (cs ++ [(false, k)]) (J ∪ Jk) (vs ++ [v]) /\
    own ({[p]} ∪ Jk) ({[p]} ∪ Jk) a a' /\ ctl a' = ctl a) a.
Proof.
  intros Hp (gnp & Hcp & <- & HpJ & Hb) Ht Hl Hd. pose proof (tree_top _ _ _ _ _ Ht) as Hk.
  destruct (tree_cell _ _ _ _ _ Ht) as (ek & gnk & Hck & _). assert (Hne : p <> k) by set_solver.
  unfold link_child_expr. apply wpe_bind. eapply wp_upd_expr; [exact Hck|]. apply wpe_bind.
  eapply wp_upd_graph_node; [by eapply cell_set_cell_eq|].
  set (j := length (g_children gnp)). set (ek' := set_parent_expr ek p). set (gnk' := set_offset j gnk).
  set (gnp' := push_back_expr gnp k).
  assert (Hcp2 : cell (set_cell k (ek', gnk') (set_cell k (ek', gnk) (al_g a))) p = Some (e, gnp)).
  { by rewrite !cell_set_cell_ne by congruence. }
  eapply wp_upd_graph_node; [exact Hcp2|]. fold gnp'.
  set (a' := put_g _ (put_g _ (put_g _ a))).
  assert (Hci : forall i, cell (al_g a') i =
    if decide (i = p) then Some (e, gnp') else if decide (i = k) then Some (ek', gnk') else cell (al_g a) i).
  { intros i. unfold a'. cbn [al_g put_g]. rewrite (cell_set_cell _ _ _ _ _ Hcp2). destruct (decide (i = p)); [done|].
    erewrite cell_set_cell by (by eapply cell_set_cell_eq). destruct (decide (i = k)); [done|].
    by apply cell_set_cell_ne. }
  destruct (set_parent_expr_spec ek p) as (Hr & Hn & Hdj & Hpar & Hsz). fold ek' in Hr, Hn, Hdj, Hpar, Hsz.
  split_and!; [| |done].
  - exists gnp'. split_and!; [by rewrite Hci, decide_True|done|set_solver|]. apply branches_snoc; [| | |set_solver].
    + eapply branches_local; [done|]. intros i Hi. by rewrite Hci, !decide_False by set_solver.
    + eapply (tree_relink nv _ _ _ _ _ ek gnk ek' gnk'); [exact Ht|exact Hck| | |reflexivity|exact Hsz|exact Hn|exact Hdj].
      * rewrite Hci. rewrite decide_False by congruence. by rewrite decide_True by done.
      * intros i Hi Hik. by rewrite Hci, !decide_False by set_solver.
    + exists ek', gnk'. rewrite Hci, decide_False, decide_True by congruence. done.
  - unfold a'. eapply own_cell; [|set_solver|exact Hcp2|].
    + eapply own_cell; [|set_solver|by eapply cell_set_cell_eq|done].
      eapply own_cell; [apply own_refl; [done|set_solver]|set_solver|exact Hck|done].
    + intros n. change (g_children gnp') with (g_children gnp ++ [(false, k)]). rewrite elem_of_app, list_elem_of_singleton. naive_solver.
Qed.

(** ** Conjunctions, disjunctions, supplies *)
Definition nary (ty : prs_enum) (sz : nat) : Expr :=
  mkExpr INVALID_EXPR_INDEX (match ty with PRS_AND_EXPR_TYPE_ENUM => EXPR_AND | _ => EXPR_OR end) (Z.of_nat sz).
Lemma wp_Nary a ty sz : pool_ok a -> (0 < sz)%nat -> Z.of_nat sz < 2 ^ 16 ->
  wp (allocate_new_Nary_expr ty sz) (fun i a' => own ∅ {[i]} a a' /\ node_at (al_g a') i (nary ty sz) [] ∅ [] /\
    ctl a' = ctl a) a.
Proof.
  intros Hp Hsz Hlt. unfold allocate_new_Nary_expr.
  rewrite (proj2 (Nat.eqb_neq sz 0)) by lia. apply wpe_bind, wpe_ret.
  rewrite (proj2 (Z.ltb_lt _ _) Hlt). apply wpe_bind, wpe_ret, wpe_bind.
  unfold Expr_make. rewrite (proj2 (Z.eqb_neq (Z.of_nat sz) 0)) by lia. apply wpe_lift_res; [|done].
  intros e [= <-]. eapply wpe_mono; [by apply wp_allocate_expr|]. intros i a' (Ho & Hc & Hctl).
  split_and!; [done| |done]. exists ExprGraphNode_empty. split_and!; [done|done|set_solver|constructor].
Qed.

Lemma wp_grow a p e cs J vs : pool_ok a -> node_at (al_g a) p e cs J vs -> {[p]} ∪ J ⊆ live a ->
  wp (upd_expr p grow) (fun _ a' => node_at (al_g a') p (grow e) cs J vs /\ own {[p]} {[p]} a a' /\ ctl a' = ctl a) a.
Proof.
  intros Hp (gn & Hc & Hch & HpJ & Hb) Hl. eapply wp_upd_expr; [exact Hc|]. split_and!; [| |done].
  - exists gn. split_and!; [by eapply cell_set_cell_eq|done|done|].
    eapply branches_local; [done|]. intros k Hk. apply cell_set_cell_ne. set_solver.
  - eapply own_cell; [apply own_refl; [done|set_solver]|set_solver|exact Hc|done].
Qed.

(** The value of a supply, as it appears in a guard of direction [dir]. *)
Definition node_val (nodes : nat) (ni : option nat) : option pull_enum :=
  match ni with Some n => if Nat.ltb n nodes then Some (nv n) else None | None => None end.
Definition supply_val (nodes : nat) (dir : bool) (ps : option nat) : option pull_enum :=
  (fun v => if dir then v else k_not v) <$> node_val nodes ps.

Lemma wp_supply a r s : pool_ok a -> temp_rule a = Some r ->
  supply_val (length (local_faninout_map (al_g a))) (direction r) (power_supply a) = Some s ->
  wp allocate_new_supply_expr (fun i a' => own ∅ {[i]} a a' /\ tree nv (al_g a') i {[i]} s /\ ctl a' = ctl a) a.
Proof.
  intros Hp Hr Hs. unfold supply_val in Hs. apply fmap_Some in Hs as (v & Hv & ->).
  unfold allocate_new_supply_expr. apply wpe_bind, wpe_gets, wpe_bind.
  unfold node_val in Hv. destruct (power_supply a) as [n|]; [|done].
  destruct (Nat.ltb_spec n (length (local_faninout_map (al_g a)))) as [Hn|]; [|done]. injection Hv as <-.
  eapply wpe_mono; [by apply wp_literal|]. intros i a1 (Ho & Ht & _ & Hctl).
  apply wpe_bind, wpe_gets, wpe_bind. assert (temp_rule a1 = Some r) as ->.
  { unfold ctl in Hctl. injection Hctl as _ E _ _. congruence. }
  apply wpe_ret. destruct (direction r); [by apply wpe_ret|].
  eapply wpe_mono; [eapply wp_not; [by eapply ow_pool|exact Ht|by eapply ow_after]|].
  intros i' a2 (-> & Ho2 & Ht2 & Hctl2 & _). split_and!; [by eapply own_trans|done|congruence].
Qed.

Lemma wp_and_literal a last J1 v1 next J2 v2 : pool_ok a -> tree nv (al_g a) last J1 v1 -> top_ok true (al_g a) last ->
  tree nv (al_g a) next J2 v2 -> J1 ∪ J2 ⊆ live a -> J1 ## J2 ->
  wp (and_expression_with_literal last next) (fun i a' => exists J, own (J1 ∪ J2) J a a' /\
    tree nv (al_g a') i J (k_and v1 v2) /\ top_ok false (al_g a') i /\ ctl a' = ctl a) a.
Proof.
  intros Hp Ht1 (e & gn & Hc & _ & Hdj) Ht2 Hl Hd. specialize (Hdj eq_refl). unfold and_expression_with_literal.
  apply wpe_bind. eapply wp_get_expr; [exact Hc|]. unfold is_disjunctive in Hdj. apply negb_true_iff in Hdj.
  unfold is_conjunctive. rewrite Hdj. cbn [andb].
  apply wpe_bind. eapply wpe_mono; [by apply wp_Nary; [|lia|lia]|]. intros i a1 (Ho1 & Hn1 & Hctl1).
  destruct (own_frame _ _ _ _ (J1 ∪ J2) Ho1) as [Hf1 Hd1]; [done|set_solver|].
  pose proof (own_tree _ _ _ _ _ _ _ _ Ho1 Ht1 ltac:(set_solver) ltac:(set_solver)) as Ht1'.
  pose proof (own_tree _ _ _ _ _ _ _ _ Ho1 Ht2 ltac:(set_solver) ltac:(set_solver)) as Ht2'.
  pose proof (ow_after _ _ _ _ Hf1) as Hl1.
  apply wpe_bind. eapply wpe_mono; [eapply (wp_link a1 i _ []); [by eapply ow_pool|exact Hn1|exact Ht1'|set_solver|set_solver]|].
  intros _ a2 (Hn2 & Ho2 & Hctl2). cbn [length app] in Hn2.
  pose proof (own_tree _ _ _ _ _ _ _ _ Ho2 Ht2' ltac:(set_solver) ltac:(set_solver)) as Ht2''.
  assert (Hf2 : own (J1 ∪ J2) ({[i]} ∪ (J1 ∪ J2)) a a2).
  { eapply own_part; [by rewrite union_empty_l_L in Hf1|exact Ho2|set_solver]. }
  pose proof (ow_after _ _ _ _ Hf2) as Hl2.
  apply wpe_bind. eapply wpe_mono; [eapply (wp_link a2 i _ [(false, last)]); [by eapply ow_pool|exact Hn2|exact Ht2''|set_solver|set_solver]|].
  intros _ a3 (Hn3 & Ho3 & Hctl3). cbn [length app] in Hn3. apply wpe_ret.
  exists ({[i]} ∪ (J1 ∪ J2)). split_and!; [eapply own_part; [exact Hf2|exact Ho3|set_solver]| | |congruence].
  2: { destruct Hn3 as (gn3 & Hc3 & _). by eexists _, _. }
  rewrite union_empty_l_L in Hn3. apply node_at_tree in Hn3; [|done..].
  unfold kleene in Hn3. cbn in Hn3. by destruct v1, v2.
Qed.

(** The supply is added where there is none yet. *)
Lemma wp_supply_expr a i J v r : pool_ok a -> tree nv (al_g a) i J v -> J ⊆ live a ->
  top_ok (at_source a) (al_g a) i -> (at_source a = true -> temp_rule a = Some r) ->
  forall v', (if at_source a then k_and v <$> supply_val (length (local_faninout_map (al_g a))) (direction r) (power_supply a)
   else Some v) = Some v' ->
  wp (supply_expr i) (fun i' a' => exists J', own J J' a a' /\ tree nv (al_g a') i' J' v' /\ top_ok false (al_g a') i' /\ ctl a' = ctl a) a.
Proof.
  intros Hp Ht Hl Hdj Hr v' Hv. unfold supply_expr. apply wpe_bind, wpe_gets. destruct (at_source a).
  - specialize (Hr eq_refl). apply fmap_Some in Hv as (s & Hs & ->).
    apply wpe_bind. eapply wpe_mono; [eapply wp_supply; [done|exact Hr|exact Hs]|]. intros ps a1 (Ho & Hts & Hctl).
    destruct (own_frame _ _ _ _ J Ho) as [Hf Hd]; [done|set_solver|]. rewrite union_empty_l_L in Hf.
    assert (Hdj' : top_ok true (al_g a1) i).
    { destruct Hdj as (e & gn & Hc & ?). exists e, gn. split; [|done]. rewrite (ow_cells _ _ _ _ Ho); [done| |set_solver].
      apply Hl. by eapply tree_top. }
    pose proof (own_tree _ _ _ _ _ _ _ _ Ho Ht ltac:(done) ltac:(set_solver)) as Ht'.
    pose proof (ow_after _ _ _ _ Hf) as Hl1.
    eapply wpe_mono; [eapply wp_and_literal; [by eapply ow_pool|exact Ht'|exact Hdj'|exact Hts|set_solver|set_solver]|].
    intros i' a2 (J' & Ho2 & Ht2 & Htop & Hctl2). exists J'. split_and!; [|done|done|congruence].
    rewrite union_comm_L in Ho2. by eapply own_trans.
  - injection Hv as <-. apply wpe_ret. exists J. split_and!; [by apply own_refl|done| |done].
    destruct Hdj as (e & gn & ? & ? & _). by exists e, gn.
Qed.
End Build.
