(* ===== verification/ExprFold.v ===== *)
(** The two optimizations of "ExprAlloc.v" preserve the value of the
    expression: [fold_literal] bypasses the children that are plain literals,
    [denormalize_negation] applies De Morgan's law when all are negations. *)
From S2P Require Import Prelude SimTime PullSet Expr OrdMap Node ProcGraph ExprAlloc ExprTree ExprBuild.
From stdpp Require Import gmap.
Open Scope Z_scope.
Local Open Scope hackt_scope.
#[local] Abbreviation length := Datatypes.length.

Lemma elem_of_insert_other {A} (l : list A) j x y z : l !! j = Some z -> x <> y -> x <> z ->
  x ∈ <[j := y]> l <-> x ∈ l.
Proof.
  intros Hj Hy Hz. pose proof (lookup_lt_Some _ _ _ Hj) as Hlt. rewrite !list_elem_of_lookup. split; intros [i Hi]; exists i.
  - destruct (decide (i = j)) as [->|]; [|by rewrite list_lookup_insert_ne in Hi].
    rewrite list_lookup_insert_eq in Hi by done. congruence.
  - destruct (decide (i = j)) as [->|]; [congruence|by rewrite list_lookup_insert_ne].
Qed.
Lemma elem_of_replace k p l i : i ∈ replace k p l <-> (i = p /\ k ∈ l) \/ (i <> k /\ i ∈ l).
Proof.
  unfold replace. rewrite list_elem_of_In, in_map_iff. setoid_rewrite <- list_elem_of_In. split.
  - intros (x & <- & Hx). destruct (Nat.eqb_spec x k) as [->|]; [by left|by right].
  - intros [[-> Hk]|[Hne Hi]].
    + exists k. by rewrite Nat.eqb_refl.
    + exists i. by rewrite (proj2 (Nat.eqb_neq i k)).
Qed.

(** ** Bypassing a child that stands for a node *)
Lemma wp_release_expr k a e gn (Q : unit -> alloc_state -> Prop) : cell (al_g a) k = Some (e, gn) ->
  Q tt (put_free (expr_free_list a ++ [k]) (set_cell_of k (wipe e, ExprGraphNode_wipe gn) a)) ->
  wp (release_expr k) Q a.
Proof.
  intros [He Hg]%cell_inv HQ. unfold release_expr, on_g, void_expr, get_expr, get_graph_node.
  unfold wpe, bind, gets, of_option. rewrite He. cbn. rewrite Hg. cbn. by destruct a as [[] ? ? ? ? ?].
Qed.

Lemma pool_ok_skip a p j k ep gnp ek gnk n f : pool_ok a -> p ∈ live a -> k ∈ live a -> p <> k ->
  cell (al_g a) p = Some (ep, gnp) -> g_children gnp !! j = Some (false, k) ->
  cell (al_g a) k = Some (ek, gnk) -> g_children gnk = [(true, n)] ->
  local_faninout_map (al_g a) !! n = Some f ->
  pool_ok (put_free (expr_free_list a ++ [k]) (set_cell_of k (wipe ek, ExprGraphNode_wipe gnk)
    (put_g (set_faninout n (set_fanout (replace k p (f_fanout f)) f)
      (set_cell p (ep, set_child j (true, n) gnp) (al_g a))) a))).
Proof.
  intros [Hl Hnd Hfr Hfan] Hlp Hlk Hne Hcp Hj Hck Hch Hf.
  set (g1 := set_cell p (ep, set_child j (true, n) gnp) (al_g a)). set (g2 := set_faninout n _ g1).
  assert (Hck2 : cell g2 k = Some (ek, gnk)).
  { change (cell g2 k) with (cell g1 k). unfold g1. by rewrite cell_set_cell_ne. }
  apply elem_of_live in Hlp as [_ Hlp], Hlk as [_ Hlk]. split; cbn [al_g put_g put_free expr_free_list].
  - cbn. by rewrite !length_insert.
  - apply NoDup_app. split_and!; [done| |apply NoDup_singleton]. by intros x Hx ->%list_elem_of_singleton.
  - intros i [Hi| ->%list_elem_of_singleton]%elem_of_app.
    + rewrite cell_set_cell_ne by congruence. change (cell g2 i) with (cell g1 i). unfold g1.
      rewrite cell_set_cell_ne by congruence. by apply Hfr.
    + exists (wipe ek), (ExprGraphNode_wipe gnk). split; [by eapply cell_set_cell_eq|done].
  - intros m i. etransitivity; [apply (fan_in_set_fanout n f _ g1 m i Hf)|].
    etransitivity; [|symmetry; apply (leaf_in_set_cell _ _ _ _ m i Hck2)].
    change (leaf_in g2 m i) with (leaf_in g1 m i).
    pose proof (leaf_in_set_cell (al_g a) p (ep, set_child j (true, n) gnp) _ m i Hcp) as H1. fold g1 in H1.
    change (fan_in g1 m i) with (fan_in (al_g a) m i).
    assert (Hk : k ∈ f_fanout f).
    { assert (fan_in (al_g a) n k) as (f' & Hf' & ?); [|by simplify_eq].
      apply Hfan. exists ek, gnk. split; [done|]. rewrite Hch. by left. }
    assert (Hfi : i ∈ f_fanout f <-> fan_in (al_g a) n i).
    { unfold fan_in. rewrite Hf. naive_solver. }
    pose proof (elem_of_replace k p (f_fanout f) i) as Hrep. destruct (decide (i = k)) as [->|Hik].
    + rewrite decide_False in H1 by done.
      change (g_children (wipe ek, ExprGraphNode_wipe gnk).2) with (@nil child_entry). rewrite elem_of_nil.
      destruct (decide (m = n)) as [->|Hmn]; [naive_solver|]. rewrite Hfan. unfold leaf_in. rewrite Hck.
      split; [|done]. intros (? & ? & [= <- <-] & Hx). rewrite Hch in Hx. set_solver.
    + rewrite H1. destruct (decide (i = p)) as [->|Hip].
      * change (g_children (ep, set_child j (true, n) gnp).2) with (<[j := (true, n)]> (g_children gnp)).
        destruct (decide (m = n)) as [->|Hmn].
        -- split; [|intros _; apply Hrep; by left]. intros _. eapply list_elem_of_lookup_2, list_lookup_insert_eq. by eapply lookup_lt_Some.
        -- rewrite elem_of_insert_other by (done || congruence). rewrite Hfan. unfold leaf_in. rewrite Hcp. naive_solver.
      * destruct (decide (m = n)) as [->|Hmn]; [|apply Hfan]. rewrite Hrep, Hfi, Hfan. naive_solver.
Qed.

Lemma wp_skip_expr a p j k ep gnp ek gnk n : pool_ok a -> p ∈ live a -> k ∈ live a -> p <> k ->
  cell (al_g a) p = Some (ep, gnp) -> g_children gnp !! j = Some (false, k) ->
  cell (al_g a) k = Some (ek, gnk) -> g_children gnk = [(true, n)] ->
  wp (skip_expr p j k (true, n)) (fun _ a' => own {[p; k]} {[p]} a a' /\
    cell (al_g a') p = Some (ep, set_child j (true, n) gnp) /\ ctl a' = ctl a) a.
Proof.
  intros Hp Hlp Hlk Hne Hcp Hj Hck Hch.
  assert (fan_in (al_g a) n k) as (f & Hf & _).
  { apply (po_fan _ Hp). exists ek, gnk. split; [done|]. rewrite Hch. by left. }
  pose proof (pool_ok_skip a p j k ep gnp ek gnk n f Hp Hlp Hlk Hne Hcp Hj Hck Hch Hf) as Hp'.
  unfold skip_expr. apply wpe_bind. eapply wp_upd_graph_node; [exact Hcp|]. apply wpe_bind.
  eapply wp_upd_faninout; [exact Hf|]. cbn [snd al_g put_g].
  set (g1 := set_cell p (ep, set_child j (true, n) gnp) (al_g a)) in *. set (g2 := set_faninout n _ g1) in *.
  assert (Hck2 : cell g2 k = Some (ek, gnk)).
  { change (cell g2 k) with (cell g1 k). unfold g1. by rewrite cell_set_cell_ne. }
  eapply wp_release_expr; [exact Hck2|].
  assert (Hcp2 : cell g2 p = Some (ep, set_child j (true, n) gnp)).
  { change (cell g2 p) with (cell g1 p). by eapply cell_set_cell_eq. }
  split_and!; [|cbn [al_g put_free put_g]; by rewrite cell_set_cell_ne|done]. split; [exact Hp'|set_solver| | | |].
  - intros i ->%elem_of_singleton. apply elem_of_live in Hlp as [? ?], Hlk as [? ?]. apply elem_of_live. cbn.
    rewrite !length_insert, elem_of_app, list_elem_of_singleton. naive_solver.
  - apply set_eq. intros i. rewrite !elem_of_difference, !elem_of_live. cbn.
    rewrite !length_insert, elem_of_app, list_elem_of_singleton, elem_of_union, !elem_of_singleton. naive_solver.
  - intros i _ Hi. cbn [al_g put_free put_g]. rewrite cell_set_cell_ne by set_solver.
    change (cell g2 i) with (cell g1 i). apply cell_set_cell_ne. set_solver.
  - cbn [al_g put_free put_g]. etransitivity; [|exact (rest_set_fanout n f (replace k p (f_fanout f)) g1 Hf)]. done.
Qed.

(** ** A loop over the children *)
Lemma branches_child nv g p j cs J vs k : branches nv g p j cs J vs -> (false, k) ∈ cs -> k ∈ J.
Proof.
  induction 1 as [|? ? n cs J vs Hb IH|? ? k' cs Jk J v vs Ht Hc Hd Hb IH]; rewrite ?elem_of_cons.
  - by intros ?%elem_of_nil.
  - intros [?|?]; [done|by apply IH].
  - intros [[= ->]|?]; [apply tree_top in Ht; set_solver|set_solver].
Qed.

Section Children.
Context (nv : nat -> pull_enum) (p : nat) (e : Expr).
Context (body : nat -> AM unit) (P : unique_process_subgraph -> child_entry -> Prop) (F : pull_enum -> pull_enum).

(** [body] changes child [j] and its tree, and its value by [F]. *)
Definition child_step : Prop := forall a gn j c Jc v, pool_ok a -> cell (al_g a) p = Some (e, gn) ->
  g_children gn !! j = Some c -> branches nv (al_g a) p j [c] Jc [v] -> {[p]} ∪ Jc ⊆ live a -> p ∉ Jc ->
  P (al_g a) c ->
  wp (body j) (fun _ a' => exists c' Jc', own ({[p]} ∪ Jc) ({[p]} ∪ Jc') a a' /\ (p ∉ Jc') /\
    cell (al_g a') p = Some (e, set_child j c' gn) /\ branches nv (al_g a') p j [c'] Jc' [F v] /\ ctl a' = ctl a) a.
Context (Hbody : child_step).
Context (Plocal : forall g g' c, (c.1 = false -> cell g' c.2 = cell g c.2) -> P g c -> P g' c).

Lemma wp_children todo : forall dn a gn J1 vs1 J2 vs2, pool_ok a -> cell (al_g a) p = Some (e, gn) ->
  g_children gn = dn ++ todo -> branches nv (al_g a) p 0 dn J1 vs1 ->
  branches nv (al_g a) p (length dn) todo J2 vs2 -> (p ∉ J1 ∪ J2) -> J1 ## J2 ->
  {[p]} ∪ (J1 ∪ J2) ⊆ live a -> Forall (P (al_g a)) todo ->
  wp (for_each (seq (length dn) (length todo)) body) (fun _ a' => exists cs' J',
    own ({[p]} ∪ (J1 ∪ J2)) ({[p]} ∪ J') a a' /\ length cs' = length (dn ++ todo) /\
    node_at nv (al_g a') p e cs' J' (vs1 ++ map F vs2) /\ ctl a' = ctl a) a.
Proof.
  induction todo as [|c todo IH]; intros dn a gn J1 vs1 J2 vs2 Hp Hc Hch H1 H2 Hpn Hd Hl HP.
  - inversion H2; subst. cbn [length seq for_each map]. apply wpe_ret. exists dn, J1. rewrite !app_nil_r, !union_empty_r_L in *.
    split_and!; [by apply own_refl|done| |done]. by exists gn.
  - change (c :: todo) with ([c] ++ todo) in H2.
    apply branches_app in H2 as (Jc & Jt & vc & vt & -> & Hdc & -> & Hbc & Hbt).
    pose proof (branches_length _ _ _ _ _ _ _ Hbc) as Hlc. destruct vc as [|v [|]]; [done| |done].
    apply Forall_cons in HP as [HPc HPt]. cbn [length seq for_each].
    assert (Hj : g_children gn !! length dn = Some c).
    { rewrite Hch, lookup_app_r, Nat.sub_diag by done. done. }
    apply wpe_bind. eapply wpe_mono; [eapply Hbody; [done|exact Hc|exact Hj|exact Hbc|set_solver|set_solver|done]|].
    intros _ a1 (c' & Jc' & Ho & Hpc' & Hc1 & Hbc1 & Hctl).
    destruct (own_frame _ _ _ _ (J1 ∪ Jt) Ho) as [Hf Hdf]; [set_solver|set_solver|].
    pose proof (own_branches _ _ _ _ _ _ _ _ _ _ Ho H1 ltac:(set_solver) ltac:(set_solver)) as H1'.
    pose proof (own_branches _ _ _ _ _ _ _ _ _ _ Ho Hbt ltac:(set_solver) ltac:(set_solver)) as Hbt'.
    pose proof (ow_after _ _ _ _ Hf) as Hl1.
    assert (Hlen1 : S (length dn) = length (dn ++ [c'])) by (rewrite length_app; cbn; lia).
    rewrite Hlen1. eapply wpe_mono; [eapply (IH (dn ++ [c']) a1 _ (J1 ∪ Jc') (vs1 ++ [F v]) Jt vt)|].
    + by eapply ow_pool.
    + exact Hc1.
    + cbn. rewrite Hch, insert_app_r_alt, Nat.sub_diag by done. cbn. by rewrite <- app_assoc.
    + apply branches_app. exists J1, Jc', vs1, [F v]. rewrite Nat.add_0_r. split_and!; [done|set_solver|done..].
    + by rewrite <- Hlen1.
    + set_solver.
    + set_solver.
    + set_solver.
    + rewrite Forall_forall in HPt |- *. intros [b k0] Hk0. eapply Plocal; [|by apply HPt].
      cbn. intros ->. pose proof (branches_child _ _ _ _ _ _ _ _ Hbt Hk0). eapply ow_cells; [exact Ho|set_solver..].
    + intros _ a2 (cs' & J' & Ho2 & Hlen & Hn & Hctl2). exists cs', J'. split_and!.
      * eapply own_trans; [|exact Ho2].
        replace ({[p]} ∪ (J1 ∪ (Jc ∪ Jt))) with ({[p]} ∪ Jc ∪ (J1 ∪ Jt)) by set_solver.
        by replace ({[p]} ∪ (J1 ∪ Jc' ∪ Jt)) with ({[p]} ∪ Jc' ∪ (J1 ∪ Jt)) by set_solver.
      * rewrite Hlen, !length_app. cbn. lia.
      * by rewrite <- app_assoc in Hn.
      * congruence.
Qed.
End Children.

(** ** The steps of the two optimizations *)
Section Steps.
Context (nv : nat -> pull_enum) (p : nat) (e : Expr).

(** An expression around a single node. *)
Lemma tree_single g k Jk v ek gnk n : tree nv g k Jk v -> cell g k = Some (ek, gnk) ->
  e_size ek = 1 -> g_children gnk !! 0%nat = Some (true, n) ->
  g_children gnk = [(true, n)] /\ Jk = {[k]} /\ v = (if is_not ek then k_not (nv n) else nv n).
Proof.
  intros (e' & gn' & J' & vs & -> & -> & Hc' & (Hs & _ & _) & _ & Hb)%tree_inv Hc H1 Hn.
  assert (e' = ek) as -> by congruence. assert (gn' = gnk) as -> by congruence. clear Hc'.
  destruct (g_children gnk) as [|c [|]]; [done| |cbn in Hs; lia]. cbn in Hn. simplify_eq.
  inversion Hb as [|? ? ? ? J vs' Hb'|]; subst. inversion Hb'; subst.
  split_and!; [done|set_solver|apply kleene_single].
Qed.
Lemma branches_node_or_tree g j c Jc v : branches nv g p j [c] Jc [v] ->
  match c with (true, n) => Jc = ∅ /\ v = nv n | (false, k) => tree nv g k Jc v /\ child_of g k p j end.
Proof.
  intros H. inversion H as [|? ? ? ? J vs' Hb'|? ? ? ? ? J ? vs' Ht Hc Hd Hb']; subst; inversion Hb'; subst; [done|].
  by rewrite union_empty_r_L.
Qed.
Lemma branches_tree g p0 k j J v : tree nv g k J v -> child_of g k p0 j -> branches nv g p0 j [(false, k)] J [v].
Proof. intros Ht Hc. rewrite <- (union_empty_r_L J). constructor; [done..|set_solver|constructor]. Qed.
Lemma set_child_same gn j c : g_children gn !! j = Some c -> set_child j c gn = gn.
Proof. intros Hj. unfold set_child. rewrite list_insert_id by done. by destruct gn. Qed.

(** A step that leaves the child as it is. *)
Lemma child_step_id a gn j c Jc v : pool_ok a -> cell (al_g a) p = Some (e, gn) ->
  g_children gn !! j = Some c -> branches nv (al_g a) p j [c] Jc [v] -> {[p]} ∪ Jc ⊆ live a -> (p ∉ Jc) ->
  exists c' Jc', own ({[p]} ∪ Jc) ({[p]} ∪ Jc') a a /\ (p ∉ Jc') /\
    cell (al_g a) p = Some (e, set_child j c' gn) /\ branches nv (al_g a) p j [c'] Jc' [v] /\ ctl a = ctl a.
Proof.
  intros Hp Hc Hj Hb Hl Hn. exists c, Jc. rewrite (set_child_same _ _ _ Hj).
  split_and!; [by apply own_refl|done..].
Qed.
(** A step that bypasses the child. *)
Lemma child_step_skip a gn j k n ek gnk : pool_ok a -> cell (al_g a) p = Some (e, gn) ->
  g_children gn !! j = Some (false, k) -> {[p]} ∪ {[k]} ⊆ live a -> p <> k ->
  cell (al_g a) k = Some (ek, gnk) -> g_children gnk = [(true, n)] ->
  wp (skip_expr p j k (true, n)) (fun _ a' => exists c' Jc', own ({[p]} ∪ {[k]}) ({[p]} ∪ Jc') a a' /\ (p ∉ Jc') /\
    cell (al_g a') p = Some (e, set_child j c' gn) /\ branches nv (al_g a') p j [c'] Jc' [nv n] /\ ctl a' = ctl a) a.
Proof.
  intros Hp Hc Hj Hl Hne Hck Hch.
  eapply wpe_mono; [eapply wp_skip_expr; [done|set_solver|set_solver|exact Hne|exact Hc|exact Hj|exact Hck|exact Hch]|].
  intros _ a' (Ho & Hc' & Hctl). exists (true, n), ∅. rewrite union_empty_r_L.
  split_and!; [exact Ho|set_solver|exact Hc'|constructor; constructor|done].
Qed.

Lemma fold_child_step : child_step nv p e (fold_child p) (fun _ _ => True) id.
Proof.
  intros a gn j c Jc v Hp Hc Hj Hb Hl Hn _. unfold fold_child.
  apply wpe_bind. eapply wp_get_graph_node; [exact Hc|]. unfold get_child.
  apply wpe_bind, wpe_of_option; [|by rewrite Hj]. intros c' E. assert (c' = c) as -> by congruence. clear E.
  apply wpe_when; [|intros _; by eapply child_step_id]. intros Hc1. destruct c as [[] k]; [done|]. cbn [snd].
  apply branches_node_or_tree in Hb as Hk. destruct Hk as [Ht Hcof].
  destruct (tree_cell _ _ _ _ _ Ht) as (ek & gnk & Hck & Hfull). pose proof (tree_top _ _ _ _ _ Ht) as Hkin.
  apply wpe_bind. eapply wp_get_expr; [exact Hck|]. apply wpe_bind. eapply wp_get_graph_node; [exact Hck|].
  destruct (g_children gnk !! 0%nat) as [ogc|] eqn:Eo.
  2: { exfalso. destruct Hfull as (_ & Hne & _). by destruct (g_children gnk). }
  apply wpe_bind. rewrite ?Eo. cbn [of_option]. apply wpe_ret.
  apply wpe_when; [|intros _; by eapply child_step_id]. intros [Htr Ho]%andb_true_iff.
  unfold is_trivial in Htr. apply andb_true_iff in Htr as [Hs Hnot]. apply Z.eqb_eq in Hs. apply negb_true_iff in Hnot.
  destruct ogc as [? n]. cbn in Ho. subst.
  destruct (tree_single _ _ _ _ _ _ _ Ht Hck Hs Eo) as (Hch & -> & ->). rewrite Hnot. unfold id.
  eapply child_step_skip; [done|exact Hc|exact Hj|done|set_solver|exact Hck|exact Hch].
Qed.

(** A negation around a single child. *)
Definition negated_child (g : unique_process_subgraph) (c : child_entry) : Prop :=
  c.1 = false /\ exists ek gnk, cell g c.2 = Some (ek, gnk) /\ e_size ek = 1 /\ is_not ek = true.
Lemma negated_child_local g g' c : (c.1 = false -> cell g' c.2 = cell g c.2) -> negated_child g c -> negated_child g' c.
Proof. intros Hl [H1 H2]. split; [done|]. by rewrite Hl. Qed.

Lemma denorm_skip_step : child_step nv p e (denorm_skip p) negated_child k_not.
Proof.
  intros a gn j c Jc v Hp Hc Hj Hb Hl Hn (H1 & ek & gnk & Hck & Hs & Hnot). unfold denorm_skip.
  apply wpe_bind. eapply wp_get_graph_node; [exact Hc|]. unfold get_child.
  apply wpe_bind, wpe_of_option; [|by rewrite Hj]. intros c' E. assert (c' = c) as -> by congruence. clear E.
  destruct c as [b k]. cbn in H1, Hck. subst b. cbn [snd].
  apply branches_node_or_tree in Hb as [Ht Hcof]. pose proof (tree_top _ _ _ _ _ Ht) as Hkin.
  apply wpe_bind. eapply wp_get_graph_node; [exact Hck|].
  destruct (g_children gnk !! 0%nat) as [[[] q]|] eqn:Eo; apply wpe_bind; rewrite ?Eo; cbn [of_option].
  - apply wpe_ret. destruct (tree_single _ _ _ _ _ _ _ Ht Hck Hs Eo) as (Hch & -> & ->).
    rewrite Hnot, k_not_involutive. cbn [fst].
    eapply child_step_skip; [done|exact Hc|exact Hj|done|set_solver|exact Hck|exact Hch].
  - apply wpe_ret. cbn [fst snd].
    destruct (tree_inv _ _ _ _ _ Ht) as (e' & gn' & J' & vs & -> & -> & Hc' & Hf & HkJ & Hb).
    assert (e' = ek) as -> by congruence. assert (gn' = gnk) as -> by congruence.
    assert (Hch : g_children gnk = [(false, q)]).
    { destruct Hf as (Hsz & _). destruct (g_children gnk) as [|c0 [|]]; [done|cbn in Eo; congruence|cbn in Hsz; lia]. }
    rewrite Hch in Hb. pose proof (branches_length _ _ _ _ _ _ _ Hb) as Hlen. destruct vs as [|v [|]]; [done| |done].
    inversion Hb as [|? ? ? ? ? vs' Hb'|? ? ? ? Jq J ? vs' Htq Hcq Hd Hb']; subst. inversion Hb'; subst.
    rewrite union_empty_r_L in *.
    assert (Hqk : k <> q) by (apply tree_top in Htq; set_solver).
    eapply wpe_mono; [eapply (wp_toggle_not nv a q Jq v); [done|exact Htq|set_solver]|].
    intros _ a' (Ho & Htq' & Hctl & _ & Hcq'). exists (false, k), ({[k]} ∪ Jq).
    assert (Hsame : forall i, i = p \/ i = k -> cell (al_g a') i = cell (al_g a) i).
    { intros i Hi. eapply ow_cells; [exact Ho|set_solver..]. }
    rewrite (set_child_same _ _ _ Hj). split_and!; [|set_solver|by rewrite Hsame by auto| |done].
    + eapply own_part; [by apply own_refl|exact Ho|set_solver].
    + apply branches_tree; [|eapply child_of_local; [|exact Hcof]; by rewrite Hsame by auto].
      replace (k_not (kleene ek [v])) with (kleene ek [k_not v]) by (by rewrite !kleene_single, Hnot).
      eapply tree_expr; [rewrite Hsame by auto; exact Hck|exact Hf|done|]. rewrite Hch.
      apply branches_tree; [done|by apply Hcq'].
  - exfalso. destruct (tree_cell _ _ _ _ _ Ht) as (? & ? & ? & (_ & Hne & _)). simplify_eq. by destruct (g_children gnk).
Qed.
End Steps.

(** ** The optimizations *)
Section Optimize.
Context (nv : nat -> pull_enum).

Lemma wp_over_children p e body P F a cs J vs : child_step nv p e body P F ->
  (forall g g' c, (c.1 = false -> cell g' c.2 = cell g c.2) -> P g c -> P g' c) ->
  pool_ok a -> node_at nv (al_g a) p e cs J vs -> {[p]} ∪ J ⊆ live a -> Forall (P (al_g a)) cs ->
  wp (for_each (seq 0 (length cs)) body) (fun _ a' => exists cs' J',
    own ({[p]} ∪ J) ({[p]} ∪ J') a a' /\ length cs' = length cs /\
    node_at nv (al_g a') p e cs' J' (map F vs) /\ ctl a' = ctl a) a.
Proof.
  intros Hstep Hloc Hp (gn & Hc & Hch & Hn & Hb) Hl HP.
  eapply wpe_mono; [eapply (wp_children nv p e body P F Hstep Hloc cs [] a gn ∅ [] J vs);
    [exact Hp|exact Hc|exact Hch|constructor|exact Hb| | | |exact HP]|].
  - by rewrite union_empty_l_L.
  - apply disjoint_empty_l.
  - by rewrite union_empty_l_L.
  - intros _ a' (cs' & J' & Ho & Hlen & Hn' & Hctl). exists cs', J'. by rewrite union_empty_l_L in Ho.
Qed.
Lemma wp_children_of p e cs J vs a (Q : list nat -> alloc_state -> Prop) : node_at nv (al_g a) p e cs J vs ->
  e_size e = Z.of_nat (length cs) -> Q (seq 0 (length cs)) a -> wp (children_of p) Q a.
Proof.
  intros (gn & Hc & _) Hs HQ. unfold children_of. apply wpe_bind. eapply wp_get_expr; [exact Hc|]. apply wpe_ret.
  by rewrite Hs, Nat2Z.id.
Qed.

Lemma wp_fold_literal p e cs J vs a : pool_ok a -> node_at nv (al_g a) p e cs J vs ->
  e_size e = Z.of_nat (length cs) -> {[p]} ∪ J ⊆ live a ->
  wp (fold_literal p) (fun _ a' => exists cs' J', own ({[p]} ∪ J) ({[p]} ∪ J') a a' /\ length cs' = length cs /\
    node_at nv (al_g a') p e cs' J' vs /\ ctl a' = ctl a) a.
Proof.
  intros Hp Hn Hs Hl. unfold fold_literal. apply wpe_bind. eapply wp_children_of; [exact Hn|exact Hs|].
  eapply wpe_mono; [eapply (wp_over_children _ _ _ (fun _ _ => True) id);
    [apply fold_child_step|done|exact Hp|exact Hn|exact Hl|by apply Forall_true]|].
  intros _ a' (cs' & J' & ? & ? & Hn' & ?). rewrite map_id in Hn'. by exists cs', J'.
Qed.

(** The first pass looks, and does nothing else. *)
Lemma wp_denorm_scan p e cs J vs a js b : node_at nv (al_g a) p e cs J vs -> Forall (fun j => (j < length cs)%nat) js ->
  wp (fold_m js b (denorm_child p)) (fun d a' => a' = a /\
    (d = true -> b = true /\ Forall (fun j => exists c, cs !! j = Some c /\ negated_child (al_g a) c) js)) a.
Proof.
  intros (gn & Hc & <- & _ & Hb). revert b. induction js as [|j js IH]; intros b Hjs; cbn [fold_m].
  - by apply wpe_ret.
  - apply Forall_cons in Hjs as [Hj Hjs]. apply wpe_bind. unfold denorm_child at 1. destruct b.
    2: { apply wpe_ret. eapply wpe_mono; [by apply IH|]. intros d a' [-> Hd]. split; [done|]. by intros [? _]%Hd. }
    apply wpe_bind. eapply wp_get_graph_node; [exact Hc|].
    destruct (lookup_lt_is_Some_2 _ _ Hj) as [c Hcj]. apply wpe_bind. unfold get_child. rewrite Hcj. apply wpe_ret.
    destruct c as [[] k]; cbn [fst snd].
    { apply wpe_ret. eapply wpe_mono; [by apply IH|]. intros d a' [-> Hd]. split; [done|]. by intros [? _]%Hd. }
    assert (exists ek gnk, cell (al_g a) k = Some (ek, gnk)) as (ek & gnk & Hck).
    { rewrite <- (take_drop_middle _ _ _ Hcj) in Hb. apply branches_app in Hb as (J1 & J2 & ? & ? & _ & _ & _ & _ & Hb).
      inversion Hb as [| |? ? ? ? ? ? ? ? Ht]; subst. destruct (tree_cell _ _ _ _ _ Ht) as (? & ? & ? & _). by eexists _, _. }
    apply wpe_bind. eapply wp_get_expr; [exact Hck|]. apply wpe_ret.
    eapply wpe_mono; [by apply IH|]. intros d a' [-> Hd]. split; [done|]. intros [Hb' Hall]%Hd. split; [done|].
    constructor; [|done]. apply andb_true_iff in Hb' as [Hs%Z.eqb_eq Hnot]. exists (false, k). split; [done|].
    split; [done|]. by exists ek, gnk.
Qed.

Lemma wp_denormalize p e cs J vs a : pool_ok a -> node_at nv (al_g a) p e cs J vs ->
  e_size e = Z.of_nat (length cs) -> {[p]} ∪ J ⊆ live a ->
  wp (denormalize_negation p) (fun _ a' => exists e' cs' J' vs', own ({[p]} ∪ J) ({[p]} ∪ J') a a' /\
    length cs' = length cs /\ e_size e' = e_size e /\ e_parent e' = e_parent e /\ node_at nv (al_g a') p e' cs' J' vs' /\
    kleene e' vs' = kleene e vs /\ ctl a' = ctl a) a.
Proof.
  intros Hp Hn Hs Hl. unfold denormalize_negation. apply wpe_bind. eapply wp_children_of; [exact Hn|exact Hs|].
  apply wpe_bind. eapply wpe_mono; [eapply wp_denorm_scan; [exact Hn|]|].
  { apply Forall_forall. intros j Hj%elem_of_seq. lia. }
  intros d a1 [-> Hd]. apply wpe_when.
  2: { intros _. exists e, cs, J, vs. split_and!; [by apply own_refl|done..]. }
  intros ->. destruct (Hd eq_refl) as [_ Hall]. apply wpe_bind.
  eapply wpe_mono; [eapply (wp_over_children _ _ _ negated_child k_not);
    [apply denorm_skip_step|apply negated_child_local|exact Hp|exact Hn|exact Hl|]|].
  { apply Forall_lookup. intros j c Hj. rewrite Forall_forall in Hall. destruct (Hall j) as (c' & Hc' & ?); [|by simplify_eq].
    apply elem_of_seq. apply lookup_lt_Some in Hj. lia. }
  intros _ a1 (cs' & J' & Ho & Hlen & (gn & Hc & Hch & HpJ & Hb) & Hctl).
  eapply wp_upd_expr; [exact Hc|]. exists (toggle_demorgan e), cs', J', (map k_not vs).
  pose proof (ow_after _ _ _ _ Ho) as Hl1. split_and!; [|done|done|done| |apply kleene_toggle_demorgan|done].
  - eapply own_trans; [exact Ho|]. eapply own_cell; [apply own_refl; [by eapply ow_pool|done]|set_solver|exact Hc|done].
  - exists gn. split_and!; [by eapply cell_set_cell_eq|done|done|].
    eapply branches_local; [done|]. intros k Hk. apply cell_set_cell_ne. set_solver.
Qed.

Lemma wp_optimize flags p e cs J vs a : pool_ok a -> node_at nv (al_g a) p e cs J vs ->
  e_size e = Z.of_nat (length cs) -> cs <> [] -> Z.of_nat (length cs) < 2 ^ 16 -> {[p]} ∪ J ⊆ live a ->
  wp (optimize_expr flags p) (fun _ a' => exists J', own ({[p]} ∪ J) J' a a' /\
    tree nv (al_g a') p J' (kleene e vs) /\
    (e_parent e = INVALID_EXPR_INDEX -> top_ok false (al_g a') p) /\ ctl a' = ctl a) a.
Proof.
  intros Hp Hn Hs Hne Hlt Hl. unfold optimize_expr. apply wpe_bind.
  assert (H1 : wp (when (is_fold_literals flags) (fold_literal p)) (fun _ a' => exists cs' J',
    own ({[p]} ∪ J) ({[p]} ∪ J') a a' /\ length cs' = length cs /\
    node_at nv (al_g a') p e cs' J' vs /\ ctl a' = ctl a) a).
  { apply wpe_when; intros _; [by eapply wp_fold_literal|]. exists cs, J. split_and!; [by apply own_refl|done..]. }
  eapply wpe_mono; [exact H1|]. clear H1. intros _ a1 (cs1 & J1 & Ho1 & Hlen1 & Hn1 & Hctl1).
  assert (Hne1 : cs1 <> []) by (intros ->; by destruct cs).
  apply wpe_when; intros _.
  - eapply wpe_mono; [eapply wp_denormalize; [by eapply ow_pool|exact Hn1|congruence|by eapply ow_after]|].
    intros _ a2 (e2 & cs2 & J2 & vs2 & Ho2 & Hlen2 & Hs2 & Hpar & Hn2 & Hv & Hctl2). exists ({[p]} ∪ J2).
    split_and!; [by eapply own_trans| | |congruence].
    2: { intros Hpe. destruct Hn2 as (gn & Hc & _). exists e2, gn. split_and!; [done|congruence|done]. }
    rewrite <- Hv.
    eapply node_at_tree; [exact Hn2|congruence| |congruence]. intros ->. by destruct cs1.
  - exists ({[p]} ∪ J1). split_and!; [done| | |done].
    + eapply node_at_tree; [exact Hn1|congruence|done|congruence].
    + intros Hpe. destruct Hn1 as (gn & Hc & _). by exists e, gn.
Qed.
End Optimize.
