(* ===== verification/ExprVisit.v ===== *)
(** Allocating an expression gives a graph of the right value.

    [fp_val] is a reference semantics of the expressions of a footprint: their
    three-valued value, with the power supply put where the visitor means to
    put it.  [visit_expr] is a compiler from these expressions to graphs;
    under every setting of the optimizations, the graph it returns is a tree
    of fresh entries with that value.  [rte_val] is the same for atomic
    assignments. *)
From S2P Require Import Prelude SimTime PullSet Expr OrdMap Node ProcGraph ExprAlloc ExprTree ExprBuild ExprFold.
From stdpp Require Import gmap.
Open Scope Z_scope.
Local Open Scope hackt_scope.
#[local] Abbreviation length := Datatypes.length.

(** ** Reference semantics *)
Definition only (e : footprint_expr_node) : option nat :=
  match fe_nodes e with [n] => Some n | _ => None end.
(** The sizes an expression can have. *)
Definition size_ok (n : nat) : bool := negb (Nat.eqb n 0) && (Z.of_nat n <? 2 ^ 16).

Section Reference.
Context (nv : nat -> pull_enum) (nodes : nat).

Section Rules.
Context (pfp : prs_footprint) (dir : option bool).

Definition the_supply (ps : option nat) : option pull_enum := d ← dir; supply_val nv nodes d ps.
(** The value [r.1], with the supply if it is still missing. *)
Definition with_supply (ps : option nat) (r : pull_enum * bool) : option pull_enum :=
  if (r.2 : bool) then k_and r.1 <$> the_supply ps else Some r.1.

(** The value of expression [ei], and whether it is still without supply. *)
Fixpoint fp_val (fuel : nat) (ps : option nat) (src : bool) (ei : nat) : option (pull_enum * bool) :=
  match fuel with
  | O => None
  | S fuel' =>
      e ← pool_at (pf_expr_pool pfp) ei;
      match fe_type e with
      | PRS_LITERAL_TYPE_ENUM => n ← only e; v ← node_val nv nodes (lookup_local_bool_id n); Some (v, src)
      | PRS_NOT_EXPR_TYPE_ENUM => n ← only e; r ← fp_val fuel' ps src n; Some (k_not r.1, r.2)
      | PRS_AND_EXPR_TYPE_ENUM =>
          match fe_nodes e with
          | [] => None
          | c :: cs =>
              r ← fp_val fuel' ps src c;
              sup ← (if (r.2 : bool) then (fun s => [s]) <$> the_supply ps else Some []);
              vs ← mapM (fun c => fst <$> fp_val fuel' ps false c) cs;
              if size_ok (length sup + length (c :: cs)) then Some (foldr k_and PULL_ON (sup ++ r.1 :: vs), false)
              else None
          end
      | PRS_OR_EXPR_TYPE_ENUM =>
          vs ← mapM (fun c => r ← fp_val fuel' ps src c; with_supply ps r) (fe_nodes e);
          if size_ok (length (fe_nodes e)) then Some (foldr k_or PULL_OFF vs, false) else None
      | PRS_NODE_TYPE_ENUM =>
          eo ← only e;
          d ← dir;
          ii ← find_internal_node pfp eo;
          s ← lookup_internal_node_supply pfp ii;
          let ps' := lookup_local_bool_id (if (d : bool) then so_Vdd s else so_GND s) in
          r ← fp_val fuel' ps' src eo;
          v ← with_supply ps' r;
          Some (v, false)
      end
  end.

Lemma fp_val_src fuel : forall ps ei r, fp_val fuel ps false ei = Some r -> r.2 = false.
Proof.
  induction fuel as [|fuel IH]; intros ps ei r E; [done|]. cbn [fp_val] in E.
  apply bind_Some in E as (e & _ & E). destruct (fe_type e).
  - apply bind_Some in E as (n & _ & E). apply bind_Some in E as (v & _ & E). by injection E as <-.
  - apply bind_Some in E as (n & _ & E). apply bind_Some in E as (r' & Er & E). apply IH in Er. by injection E as <-.
  - destruct (fe_nodes e) as [|c cs]; [done|]. apply bind_Some in E as (? & _ & E).
    apply bind_Some in E as (? & _ & E). apply bind_Some in E as (? & _ & E). case_match; [|done]. by injection E as <-.
  - apply bind_Some in E as (? & _ & E). case_match; [|done]. by injection E as <-.
  - do 6 apply bind_Some in E as (? & _ & E). by injection E as <-.
Qed.
End Rules.

Fixpoint rte_val (rfp : rte_footprint) (fuel : nat) (ei : nat) : option pull_enum :=
  match fuel with
  | O => None
  | S fuel' =>
      e ← pool_at (rf_expr_pool rfp) ei;
      match fe_type e with
      | PRS_LITERAL_TYPE_ENUM => n ← only e; node_val nv nodes (lookup_local_bool_id n)
      | PRS_NOT_EXPR_TYPE_ENUM => n ← only e; k_not <$> rte_val rfp fuel' n
      | PRS_AND_EXPR_TYPE_ENUM =>
          vs ← mapM (rte_val rfp fuel') (fe_nodes e);
          if size_ok (length (fe_nodes e)) then Some (foldr k_and PULL_ON vs) else None
      | PRS_OR_EXPR_TYPE_ENUM =>
          vs ← mapM (rte_val rfp fuel') (fe_nodes e);
          if size_ok (length (fe_nodes e)) then Some (foldr k_or PULL_OFF vs) else None
      | PRS_NODE_TYPE_ENUM => None
      end
  end.
End Reference.

(** ** The visitor *)
Lemma only_spec e n : only e = Some n -> fe_nodes e = [n].
Proof. unfold only. destruct (fe_nodes e) as [|? [|]]; [done| |done]. by intros [= ->]. Qed.
Lemma wp_the_only e n a (Q : nat -> alloc_state -> Prop) : only e = Some n -> Q n a -> wp (the_only e) Q a.
Proof.
  intros Hn%only_spec HQ. unfold the_only. rewrite Hn. cbn. done.
Qed.
Lemma size_ok_spec n : size_ok n = true -> (0 < n)%nat /\ Z.of_nat n < 2 ^ 16.
Proof. unfold size_ok. intros [H1%negb_true_iff H2%Z.ltb_lt]%andb_true_iff. apply Nat.eqb_neq in H1. lia. Qed.

Section Visit.
Context (flags : ExprAllocFlags) (nv : nat -> pull_enum) (nodes : nat) (dir : option bool).

(** Ready for a visit with this supply; what the visit gives. *)
Record ready (ps : option nat) (src : bool) (a : alloc_state) : Prop := {
  rd_pool : pool_ok a;
  rd_nodes : length (local_faninout_map (al_g a)) = nodes;
  rd_dir : direction <$> temp_rule a = dir;
  rd_supply : power_supply a = ps;
  rd_source : at_source a = src
}.
Definition visits (v : pull_enum) (src : bool) (a : alloc_state) (i : nat) (a' : alloc_state) : Prop :=
  exists J, own ∅ J a a' /\ tree nv (al_g a') i J v /\ ctl a' = ctl (put_at_source src a) /\
    top_ok src (al_g a') i.

Lemma ready_own ps src a a' J J' src' : ready ps src a -> own J J' a a' -> ctl a' = ctl (put_at_source src' a) ->
  ready ps src' a'.
Proof.
  intros [Hp Hn Hd Hs Hsrc] Ho Hc. unfold ctl in Hc. cbn in Hc. injection Hc as _ Ht Hps Hs'. split.
  - by eapply ow_pool.
  - by rewrite (own_nodes_length _ _ _ _ Ho).
  - by rewrite Ht.
  - by rewrite Hps.
  - done.
Qed.
Lemma ready_put ps src s a : ready ps src a -> ready ps s (put_at_source s a).
Proof. intros [Hp Hn Hd Hs _]. split; try done. by eapply (pool_ok_heap a). Qed.
Lemma ctl_same src a : at_source a = src -> ctl (put_at_source src a) = ctl a.
Proof. by intros <-. Qed.
Lemma put_at_source_idem src a a' : ctl a' = ctl (put_at_source src a) -> ctl (put_at_source src a') = ctl (put_at_source src a).
Proof. unfold ctl. cbn. by intros [= -> -> -> _]. Qed.

(** Linking a tree that is new. *)
Lemma wp_link_new a0 a a1 p e ds J vs k Jk v : own ∅ ({[p]} ∪ J) a0 a -> node_at nv (al_g a) p e ds J vs ->
  own ∅ Jk a a1 -> tree nv (al_g a1) k Jk v ->
  wp (link_child_expr p k (length ds)) (fun _ a' => node_at nv (al_g a') p e (ds ++ [(false, k)]) (J ∪ Jk) (vs ++ [v]) /\
    own ∅ ({[p]} ∪ (J ∪ Jk)) a0 a' /\ ctl a' = ctl a1 /\ exists K, own K K a1 a') a1.
Proof.
  intros Ho Hn Ho1 Ht. destruct (own_more _ _ _ _ _ _ Ho Ho1) as [Ho' Hd]. pose proof (ow_after _ _ _ _ Ho) as Hl.
  pose proof (ow_after _ _ _ _ Ho') as Hl'. pose proof (own_node_at nv _ _ _ _ _ _ _ _ _ Ho1 Hn Hl ltac:(set_solver)) as Hn'.
  eapply wpe_mono; [eapply wp_link; [by eapply ow_pool|exact Hn'|exact Ht|done|done]|].
  intros _ a2 (Hn2 & Ho2 & Hctl). split_and!; [done| |done|by eexists].
  rewrite union_assoc_L. eapply own_part; [exact Ho'|exact Ho2|set_solver].
Qed.

Section Children.
Context (rec : nat -> AM nat) (ps : option nat).

Lemma wp_conjuncts (val : nat -> option pull_enum) :
  (forall c a v, val c = Some v -> ready ps false a -> wp (rec c) (visits v false a) a) ->
  forall cs ws a0 a p e ds J vs, mapM val cs = Some ws -> ready ps false a ->
  own ∅ ({[p]} ∪ J) a0 a -> node_at nv (al_g a) p e ds J vs ->
  wp (visit_conjuncts rec p cs (length ds)) (fun _ a' => exists ds' J', length ds' = (length ds + length cs)%nat /\
    own ∅ ({[p]} ∪ J') a0 a' /\ node_at nv (al_g a') p e ds' J' (vs ++ ws) /\ ctl a' = ctl a) a.
Proof.
  intros Hrec. induction cs as [|c cs IH]; intros ws a0 a p e ds J vs Hws Hr Ho Hn; cbn [visit_conjuncts].
  - injection Hws as <-. apply wpe_ret. exists ds, J. by rewrite app_nil_r, Nat.add_0_r.
  - cbn in Hws. destruct (val c) as [v|] eqn:Ev; [|done]. cbn in Hws.
    destruct (mapM val cs) as [ws'|] eqn:Ew; [|done]. injection Hws as <-.
    apply wpe_bind. eapply wpe_mono; [by apply Hrec|]. intros k a1 (Jk & Ho1 & Ht & Hctl1 & _).
    rewrite (ctl_same _ _ (rd_source _ _ _ Hr)) in Hctl1.
    apply wpe_bind. eapply wpe_mono; [by eapply wp_link_new|]. intros _ a2 (Hn2 & Ho2 & Hctl2 & K & HK).
    replace (S (length ds)) with (length (ds ++ [(false, k)])) by (rewrite length_app; cbn; lia).
    eapply wpe_mono; [eapply IH; [done| |exact Ho2|exact Hn2]|].
    + assert (Hr1 : ready ps false a1) by (eapply ready_own; [done|exact Ho1|by rewrite (ctl_same _ _ (rd_source _ _ _ Hr))]).
      eapply ready_own; [exact Hr1|exact HK|by rewrite (ctl_same _ _ (rd_source _ _ _ Hr1))].
    + intros _ a3 (ds' & J' & Hlen & Ho3 & Hn3 & Hctl3). exists ds', J'. split_and!; [|done| |congruence].
      * rewrite Hlen, length_app. cbn. lia.
      * by rewrite <- app_assoc in Hn3.
Qed.
End Children.

Lemma wp_saving {A B} (get : alloc_state -> B) put (m : AM A) (Q : A -> alloc_state -> Prop) a :
  wp m (fun x a' => Q x (put (get a) a')) a -> wp (saving get put m) Q a.
Proof.
  intros H. unfold saving. apply wpe_bind, wpe_gets, wpe_bind. eapply wpe_mono; [exact H|]. intros x a' HQ.
  apply wpe_bind, wpe_modify, wpe_ret. exact HQ.
Qed.

(** *** Literals and negations *)
Lemma wp_literal_visit e n v a ps src : only e = Some n -> node_val nv nodes (lookup_local_bool_id n) = Some v ->
  ready ps src a -> wp (visit_literal e) (visits v src a) a.
Proof.
  intros Hn Hv Hr. unfold visit_literal. apply wpe_bind. eapply wp_the_only; [done|]. unfold node_val in Hv.
  destruct (lookup_local_bool_id n) as [m|]; [|done]. destruct (Nat.ltb_spec m nodes) as [Hm|]; [|done].
  injection Hv as <-. eapply wpe_mono; [apply (wp_literal nv); [apply Hr|by rewrite (rd_nodes _ _ _ Hr)]|].
  intros i a' (Ho & Ht & Hdj & Hctl). exists {[i]}. split_and!; [done|done| |done].
  by rewrite (ctl_same _ _ (rd_source _ _ _ Hr)).
Qed.

Lemma wp_not_visit rec e n v src a : only e = Some n -> wp (rec n) (visits v src a) a ->
  wp (visit_not_expr rec e) (visits (k_not v) src a) a.
Proof.
  intros Hn Hrec. unfold visit_not_expr. apply wpe_bind. eapply wp_the_only; [done|]. apply wpe_bind.
  eapply wpe_mono; [exact Hrec|]. intros k a1 (J & Ho & Ht & Hctl & Hdj).
  eapply wpe_mono; [eapply wp_not; [by eapply ow_pool|exact Ht|by eapply ow_after]|].
  intros i a2 (-> & Ho2 & Ht2 & Hctl2 & Hdj2). exists J. split_and!; [by eapply own_trans|done|congruence|auto].
Qed.

(** The supply is added after the visit, if it is missing. *)
Lemma wp_supplied ps src a i a1 r v : ready ps src a -> visits r.1 r.2 a i a1 ->
  with_supply nv nodes dir ps r = Some v ->
  wp (supply_expr i) (fun i' a2 => exists J, own ∅ J a a2 /\ tree nv (al_g a2) i' J v /\
    top_ok false (al_g a2) i' /\ ctl a2 = ctl a1) a1.
Proof.
  intros Hr (J & Ho & Ht & Hctl & Hdj) Hv. pose proof (ready_own _ _ _ _ _ _ _ Hr Ho Hctl) as Hr1.
  unfold with_supply in Hv. destruct r as [v1 []]; cbn [fst snd] in *.
  - apply fmap_Some in Hv as (s & Hs & ->). apply bind_Some in Hs as (d & Hd & Hs).
    destruct (temp_rule a1) as [rr|] eqn:Er; [|pose proof (rd_dir _ _ _ Hr1) as E; rewrite Er in E; cbn in E; congruence].
    assert (direction rr = d) as <-.
    { pose proof (rd_dir _ _ _ Hr1) as E. rewrite Er in E. cbn in E. congruence. }
    eapply wpe_mono; [eapply (wp_supply_expr nv a1 i J v1 rr); [apply Hr1|exact Ht|by eapply ow_after| |done|]|].
    + by rewrite (rd_source _ _ _ Hr1).
    + rewrite (rd_source _ _ _ Hr1), (rd_nodes _ _ _ Hr1), (rd_supply _ _ _ Hr1), Hs. done.
    + intros i' a2 (J' & Ho2 & Ht2 & Htop & Hctl2). exists J'. split_and!; [by eapply own_trans|done..].
  - injection Hv as <-. unfold supply_expr. apply wpe_bind, wpe_gets. rewrite (rd_source _ _ _ Hr1).
    apply wpe_ret. by exists J.
Qed.

Section Step.
Context (pfp : prs_footprint) (fuel : nat) (rec : nat -> AM nat).
Context (Hrec : forall ps src c a r, fp_val nv nodes pfp dir fuel ps src c = Some r -> ready ps src a ->
  wp (rec c) (visits r.1 r.2 a) a).

Lemma wp_disjuncts ps src cs : forall ws a0 a p e ds J vs,
  mapM (fun c => r ← fp_val nv nodes pfp dir fuel ps src c; with_supply nv nodes dir ps r) cs = Some ws ->
  ready ps src a -> own ∅ ({[p]} ∪ J) a0 a -> node_at nv (al_g a) p e ds J vs ->
  wp (visit_disjuncts rec p cs (length ds)) (fun _ a' => exists ds' J', length ds' = (length ds + length cs)%nat /\
    own ∅ ({[p]} ∪ J') a0 a' /\ node_at nv (al_g a') p e ds' J' (vs ++ ws) /\ ctl a' = ctl a) a.
Proof.
  induction cs as [|c cs IH]; intros ws a0 a p e ds J vs Hws Hr Ho Hn; cbn [visit_disjuncts].
  - injection Hws as <-. apply wpe_ret. exists ds, J. by rewrite app_nil_r, Nat.add_0_r.
  - cbn [mapM] in Hws. apply bind_Some in Hws as (v & Hv & Hws). apply bind_Some in Hws as (ws' & Hws' & [= <-]).
    apply bind_Some in Hv as (r & Hval & Hv).
    apply wpe_bind, wp_saving, wpe_bind. eapply wpe_mono; [by eapply Hrec|]. intros i a1 Hvis.
    apply wpe_bind. eapply wpe_mono; [by eapply wp_supplied|]. intros k a2 (Jk & Ho2 & Ht2 & _ & Hctl2).
    eapply wpe_mono; [by eapply wp_link_new|]. intros _ a3 (Hn3 & Ho3 & Hctl3 & K & HK).
    destruct Hvis as (_ & _ & _ & Hctl1 & _).
    assert (Hctl : ctl (put_at_source (at_source a) a3) = ctl a).
    { unfold ctl in *. cbn in *. congruence. }
    replace (S (length ds)) with (length (ds ++ [(false, k)])) by (rewrite length_app; cbn; lia).
    eapply wpe_mono; [eapply IH; [done| |exact (own_put_at_source _ _ _ _ _ Ho3)|exact Hn3]|].
    + apply (own_put_at_source _ _ _ _ (at_source a)) in Ho3. destruct Hr as [Hp Hnd Hdir Hps Hsrc]. unfold ctl in Hctl. cbn in Hctl. injection Hctl as _ Ht Hs. split.
      * by apply (ow_pool _ _ _ _ Ho3).
      * etransitivity; [|exact Hnd]. etransitivity; [apply (own_nodes_length _ _ _ _ Ho3)|].
        symmetry. apply (own_nodes_length _ _ _ _ Ho).
      * etransitivity; [|exact Hdir]. cbn. by rewrite Ht.
      * etransitivity; [|exact Hps]. done.
      * done.
    + intros _ a4 (ds' & J' & Hlen & Ho4 & Hn4 & Hctl4). exists ds', J'. split_and!; [|done| |congruence].
      * rewrite Hlen, length_app. cbn. lia.
      * by rewrite <- app_assoc in Hn4.
Qed.

Lemma wp_first ps src c a0 a p e r sup : ready ps src a -> own ∅ {[p]} a0 a -> node_at nv (al_g a) p e [] ∅ [] ->
  fp_val nv nodes pfp dir fuel ps src c = Some r ->
  (if (r.2 : bool) then (fun s => [s]) <$> the_supply nv nodes dir ps else Some []) = Some sup ->
  wp (visit_first rec p c) (fun off a' => exists ds J, off = length ds /\ length ds = S (length sup) /\
    own ∅ ({[p]} ∪ J) a0 a' /\ node_at nv (al_g a') p (if r.2 then grow e else e) ds J (sup ++ [r.1]) /\
    ready ps false a' /\ ctl a' = ctl (put_at_source false a)) a.
Proof.
  intros Hr Ho Hn Hval Hsup. unfold visit_first. apply wpe_bind. eapply wpe_mono; [by eapply Hrec|].
  intros k a1 (J1 & Ho1 & Ht1 & Hctl1 & Hdj). pose proof (ready_own _ _ _ _ _ _ _ Hr Ho1 Hctl1) as Hr1.
  apply wpe_bind, wpe_gets. rewrite (rd_source _ _ _ Hr1). destruct r as [v []]; cbn [fst snd] in *.
  - apply fmap_Some in Hsup as (s & Hs & ->). unfold the_supply in Hs. apply bind_Some in Hs as (d & Hd & Hs).
    assert (exists rr, temp_rule a1 = Some rr /\ direction rr = d) as (rr & Hrr & Hdd).
    { pose proof (rd_dir _ _ _ Hr1) as E. destruct (temp_rule a1) as [rr|]; cbn in E; [|congruence]. exists rr. split; congruence. }
    apply wpe_bind. eapply wpe_mono; [eapply (wp_supply nv a1 rr s); [apply Hr1|done|]|].
    { by rewrite (rd_nodes _ _ _ Hr1), (rd_supply _ _ _ Hr1), Hdd. }
    intros q a2 (Ho2 & Ht2 & Hctl2). pose proof Hr1 as Hr2.
    eapply (ready_own _ _ _ a2) in Hr2; [|exact Ho2|by rewrite (ctl_same _ _ (rd_source _ _ _ Hr1))].
    pose proof (ow_after _ _ _ _ Ho) as Hl0. pose proof (ow_after _ _ _ _ Ho1) as Hl1.
    destruct (own_more _ _ _ _ _ _ Ho1 Ho2) as [Ho12 Hd12].
    destruct (own_more _ _ _ _ _ _ Ho Ho12) as [Ho02 Hd02]. pose proof (ow_after _ _ _ _ Ho02) as Hl2.
    pose proof (own_tree _ _ _ _ _ _ _ _ Ho2 Ht1 Hl1 ltac:(set_solver)) as Ht1b.
    assert (Hn2 : node_at nv (al_g a2) p e [] ∅ []).
    { eapply own_node_at; [exact Ho12|exact Hn|set_solver|set_solver]. }
    unfold prepend_child_expr. apply wpe_bind, wpe_bind.
    eapply wpe_mono; [eapply wp_grow; [by eapply ow_pool|exact Hn2|set_solver]|]. intros _ a3 (Hn3 & Ho3 & Hctl3).
    pose proof (own_part _ _ _ _ _ _ Ho02 Ho3 ltac:(set_solver)) as Ho03. pose proof (ow_after _ _ _ _ Ho03) as Hl3.
    pose proof (own_tree _ _ _ _ _ _ _ _ Ho3 Ht1b ltac:(set_solver) ltac:(set_solver)) as Ht1c.
    pose proof (own_tree _ _ _ _ _ _ _ _ Ho3 Ht2 ltac:(set_solver) ltac:(set_solver)) as Ht2c.
    eapply wpe_mono; [eapply (wp_link nv a3 p _ []); [by eapply ow_pool|exact Hn3|exact Ht2c|set_solver|set_solver]|].
    intros _ a4 (Hn4 & Ho4 & Hctl4).
    pose proof (own_part _ _ _ _ _ _ Ho03 Ho4 ltac:(set_solver)) as Ho04. pose proof (ow_after _ _ _ _ Ho04) as Hl4.
    pose proof (own_tree _ _ _ _ _ _ _ _ Ho4 Ht1c ltac:(set_solver) ltac:(set_solver)) as Ht1d.
    apply wpe_bind. eapply wpe_mono; [eapply (wp_link nv a4 p _ ([] ++ [(false, q)])); [by eapply ow_pool|exact Hn4|exact Ht1d|set_solver|set_solver]|].
    intros _ a5 (Hn5 & Ho5 & Hctl5).
    pose proof (own_part _ _ _ _ _ _ Ho04 Ho5 ltac:(set_solver)) as Ho05.
    apply wpe_bind, wpe_modify, wpe_ret. exists (([] ++ [(false, q)]) ++ [(false, k)]), (∅ ∪ {[q]} ∪ J1).
    assert (Hctl : ctl a5 = ctl a2) by congruence.
    assert (Hr5 : ready ps true a5).
    { pose proof Hctl as E. unfold ctl in E. injection E as _ E1 E2 E3.
      split; [by eapply ow_pool| |rewrite ?E1, ?E2, ?E3; apply Hr2..].
      rewrite (own_nodes_length _ _ _ _ Ho5), (own_nodes_length _ _ _ _ Ho4), (own_nodes_length _ _ _ _ Ho3).
      apply Hr2. }
    split_and!; [done|done| |exact Hn5|by eapply ready_put|].
    + apply own_put_at_source. by replace ({[p]} ∪ (∅ ∪ {[q]} ∪ J1)) with ({[p]} ∪ (J1 ∪ {[q]})) by set_solver.
    + unfold ctl in *. cbn in *. congruence.
  - injection Hsup as <-. apply wpe_bind.
    eapply wpe_mono; [eapply (wp_link_new a0 a a1 p e [] ∅ []); [by rewrite union_empty_r_L|done..]|].
    intros _ a2 (Hn2 & Ho2 & Hctl2 & K & HK). apply wpe_ret. exists [(false, k)], J1. rewrite union_empty_l_L in *.
    split_and!; [done|done|exact Ho2|exact Hn2| |congruence].
    eapply ready_own; [exact Hr1|exact HK|by rewrite (ctl_same _ _ (rd_source _ _ _ Hr1))].
Qed.
Lemma wp_finish a0 a p e ds J vs v v' : own ∅ ({[p]} ∪ J) a0 a -> node_at nv (al_g a) p e ds J vs ->
  e_size e = Z.of_nat (length ds) -> ds <> [] -> Z.of_nat (length ds) < 2 ^ 16 -> kleene e vs = v ->
  ctl a = ctl (put_at_source false v') ->
  wp (optimize_expr flags p ;;; ret p) (fun i a' => exists J', own ∅ J' a0 a' /\ tree nv (al_g a') i J' v /\
    (e_parent e = INVALID_EXPR_INDEX -> top_ok false (al_g a') i) /\ ctl a' = ctl (put_at_source false v')) a.
Proof.
  intros Ho Hn Hs Hne Hlt <- Hctl. apply wpe_bind.
  eapply wpe_mono; [eapply wp_optimize; [by eapply ow_pool|exact Hn|done|done|done|by eapply ow_after]|].
  intros _ a' (J' & Ho' & Ht & Htop & Hctl'). apply wpe_ret. exists J'. split_and!; [by eapply own_trans|done|done|congruence].
Qed.

Lemma wp_visit_and ps src e a r : fe_type e = PRS_AND_EXPR_TYPE_ENUM -> ready ps src a ->
  match fe_nodes e with
  | [] => None
  | c :: cs =>
      r ← fp_val nv nodes pfp dir fuel ps src c;
      sup ← (if (r.2 : bool) then (fun s => [s]) <$> the_supply nv nodes dir ps else Some []);
      vs ← mapM (fun c => fst <$> fp_val nv nodes pfp dir fuel ps false c) cs;
      if size_ok (length sup + length (c :: cs)) then Some (foldr k_and PULL_ON (sup ++ r.1 :: vs), false) else None
  end = Some r -> wp (visit_and_expr flags rec e) (visits r.1 r.2 a) a.
Proof.
  intros Hty Hr E. unfold visit_and_expr. rewrite Hty. destruct (fe_nodes e) as [|c cs] eqn:En; [done|].
  apply bind_Some in E as (r1 & Hr1 & E). apply bind_Some in E as (sup & Hsup & E).
  apply bind_Some in E as (vs & Hvs & E). destruct (size_ok _) eqn:Hsz; [|done]. injection E as <-.
  apply size_ok_spec in Hsz as [_ Hsz].
  apply wpe_bind. eapply wpe_mono; [apply wp_Nary; [apply Hr|cbn; lia|cbn [length] in *; lia]|].
  intros p a1 (Ho1 & Hn1 & Hctl1). pose proof (ready_own _ _ _ a1 _ _ src Hr Ho1) as Hra1.
  rewrite (ctl_same _ _ (rd_source _ _ _ Hr)) in Hra1. specialize (Hra1 Hctl1).
  apply wpe_bind, wpe_bind. eapply wpe_mono; [by eapply wp_first|].
  intros off a2 (ds & J & -> & Hlen & Ho2 & Hn2 & Hra2 & Hctl2).
  eapply wpe_mono; [eapply (wp_conjuncts rec ps (fun c => fst <$> fp_val nv nodes pfp dir fuel ps false c)); [|exact Hvs|exact Hra2|exact Ho2|exact Hn2]|].
  { intros c' a' v (r' & Hv & ->)%fmap_Some Hra. rewrite <- (fp_val_src _ _ _ _ _ _ _ _ Hv) at 1.
    by eapply Hrec. }
  intros _ a3 (ds' & J' & Hlen' & Ho3 & Hn3 & Hctl3). cbn [fst snd].
  eapply wpe_mono; [eapply (wp_finish a a3 p _ ds' J' _ _ a); [exact Ho3|exact Hn3| | | |reflexivity|]|].
  - rewrite Hlen', Hlen. destruct r1 as [v []]; cbn [fst snd] in *.
    + apply fmap_Some in Hsup as (s & _ & ->). unfold grow, nary. cbn [e_size length app] in *.
      rewrite wrap_small; lia.
    + injection Hsup as <-. cbn [nary e_size length] in *. lia.
  - intros ->. cbn in Hlen'. lia.
  - rewrite Hlen', Hlen. cbn [length] in Hsz. lia.
  - unfold ctl in *. cbn in *. congruence.
  - intros i a4 (J4 & Ho4 & Ht4 & Htop & Hctl4). exists J4. split_and!; [done| |done|by apply Htop; destruct (r1.2)].
    replace (foldr k_and PULL_ON (sup ++ r1.1 :: vs)) with
      (kleene (if r1.2 then grow (nary PRS_AND_EXPR_TYPE_ENUM (length (c :: cs))) else nary PRS_AND_EXPR_TYPE_ENUM (length (c :: cs))) ((sup ++ [r1.1]) ++ vs)); [done|].
    rewrite <- app_assoc. by destruct (r1.2).
Qed.

Lemma wp_visit_or ps src e a r : fe_type e = PRS_OR_EXPR_TYPE_ENUM -> ready ps src a ->
  (vs ← mapM (fun c => r ← fp_val nv nodes pfp dir fuel ps src c; with_supply nv nodes dir ps r) (fe_nodes e);
   if size_ok (length (fe_nodes e)) then Some (foldr k_or PULL_OFF vs, false) else None) = Some r ->
  wp (visit_or_expr flags rec e) (visits r.1 r.2 a) a.
Proof.
  intros Hty Hr E. unfold visit_or_expr. rewrite Hty.
  apply bind_Some in E as (vs & Hvs & E). destruct (size_ok _) eqn:Hsz; [|done]. injection E as <-.
  apply size_ok_spec in Hsz as [Hpos Hsz].
  apply wpe_bind. eapply wpe_mono; [apply wp_Nary; [apply Hr|done|done]|].
  intros p a1 (Ho1 & Hn1 & Hctl1). pose proof (ready_own _ _ _ a1 _ _ src Hr Ho1) as Hra1.
  rewrite (ctl_same _ _ (rd_source _ _ _ Hr)) in Hra1. specialize (Hra1 Hctl1).
  apply wpe_bind. eapply wpe_mono; [eapply (wp_disjuncts ps src (fe_nodes e) vs a a1 p _ [] ∅ []);
    [exact Hvs|exact Hra1|by rewrite union_empty_r_L|exact Hn1]|].
  intros _ a2 (ds & J & Hlen & Ho2 & Hn2 & Hctl2). apply wpe_bind, wpe_modify.
  apply (own_put_at_source _ _ _ _ false) in Ho2.
  eapply wpe_mono; [eapply (wp_finish a (put_at_source false a2) p _ ds J _ _ a); [exact Ho2|exact Hn2| | | |reflexivity|]|].
  - rewrite Hlen. done.
  - intros ->. cbn in Hlen. lia.
  - by rewrite Hlen.
  - unfold ctl in *. cbn in *. congruence.
  - intros i a4 (J4 & Ho4 & Ht4 & Htop & Hctl4). exists J4. split_and!; [done..|by apply Htop].
Qed.

Lemma wp_visit_node ps src e a r : ready ps src a ->
  (eo ← only e;
   d ← dir;
   ii ← find_internal_node pfp eo;
   s ← lookup_internal_node_supply pfp ii;
   let ps' := lookup_local_bool_id (if (d : bool) then so_Vdd s else so_GND s) in
   r ← fp_val nv nodes pfp dir fuel ps' src eo;
   v ← with_supply nv nodes dir ps' r;
   Some (v, false)) = Some r -> wp (visit_node_expr pfp rec e) (visits r.1 r.2 a) a.
Proof.
  intros Hr E. unfold visit_node_expr.
  apply bind_Some in E as (eo & Heo & E). apply bind_Some in E as (d & Hd & E). apply bind_Some in E as (ii & Hii & E).
  apply bind_Some in E as (s & Hs & E). apply bind_Some in E as (r1 & Hr1 & E). apply bind_Some in E as (v & Hv & [= <-]).
  apply wpe_bind. eapply wp_the_only; [done|]. rewrite Hii. apply wpe_bind, wpe_ret. rewrite Hs. apply wpe_bind, wpe_ret.
  apply wp_saving, wpe_bind, wpe_gets. pose proof (rd_dir _ _ _ Hr) as Hdir.
  destruct (temp_rule a) as [rr|] eqn:Er; [|cbn in Hdir; congruence]. assert (Hdd : direction rr = d) by (cbn in Hdir; congruence).
  apply wpe_bind, wpe_ret, wpe_bind, wpe_modify. rewrite Hdd. set (ps' := lookup_local_bool_id _) in *.
  set (a1 := put_power_supply ps' a).
  assert (Hra1 : ready ps' src a1).
  { destruct Hr as [Hp Hn _ _ Hsrc]. split; try done. by eapply (pool_ok_heap a). cbn. by rewrite Er. }
  apply wpe_bind. eapply wpe_mono; [by eapply Hrec|]. intros i a2 Hvis.
  apply wpe_bind. eapply wpe_mono; [by eapply wp_supplied|]. intros j a3 (J & Ho3 & Ht3 & Htop & Hctl3).
  apply wpe_bind, wpe_modify, wpe_ret. destruct Hvis as (_ & _ & _ & Hctl2 & _). cbn [fst snd].
  exists J. split_and!; [by eapply own_heap; [| |exact Ho3]|done| |done].
  unfold ctl in *. cbn in *. congruence.
Qed.
End Step.

(** ** The whole recursion *)
Theorem visit_expr_spec pfp fuel : forall ps src ei a r, fp_val nv nodes pfp dir fuel ps src ei = Some r ->
  ready ps src a -> wp (visit_expr flags pfp fuel ei) (visits r.1 r.2 a) a.
Proof.
  induction fuel as [|fuel IH]; intros ps src ei a r E Hr; [done|]. cbn [fp_val visit_expr] in *.
  apply bind_Some in E as (e & He & E). rewrite He. apply wpe_bind, wpe_ret. unfold visit_expr_node.
  destruct (fe_type e) eqn:Hty.
  - apply bind_Some in E as (n & Hn & E). apply bind_Some in E as (v & Hv & [= <-]). by eapply wp_literal_visit.
  - apply bind_Some in E as (n & Hn & E). apply bind_Some in E as (r1 & Hr1 & [= <-]).
    eapply (wp_not_visit _ e n r1.1 r1.2); [done|]. exact (IH _ _ _ _ _ Hr1 Hr).
  - by eapply wp_visit_and.
  - by eapply wp_visit_or.
  - by eapply wp_visit_node.
Qed.

Lemma wp_visit_atomic rec (val : nat -> option pull_enum) ps e vs a :
  (forall c a v, val c = Some v -> ready ps false a -> wp (rec c) (visits v false a) a) ->
  mapM val (fe_nodes e) = Some vs -> size_ok (length (fe_nodes e)) = true -> ready ps false a ->
  wp (visit_atomic_expr rec e) (visits (kleene (nary (fe_type e) (length (fe_nodes e))) vs) false a) a.
Proof.
  intros Hrec Hvs [Hpos Hsz]%size_ok_spec Hr. unfold visit_atomic_expr.
  apply wpe_bind. eapply wpe_mono; [apply wp_Nary; [apply Hr|done|done]|].
  intros p a1 (Ho1 & Hn1 & Hctl1). pose proof (ready_own _ _ _ a1 _ _ false Hr Ho1) as Hra1.
  rewrite (ctl_same _ _ (rd_source _ _ _ Hr)) in Hra1. specialize (Hra1 Hctl1).
  apply wpe_bind. eapply wpe_mono; [eapply (wp_conjuncts rec ps val Hrec (fe_nodes e) vs a a1 p _ [] ∅ []);
    [exact Hvs|exact Hra1|by rewrite union_empty_r_L|exact Hn1]|].
  intros _ a2 (ds & J & Hlen & Ho2 & Hn2 & Hctl2). apply wpe_ret. exists ({[p]} ∪ J). cbn [length Nat.add] in Hlen.
  split_and!; [done| | |].
  - eapply node_at_tree; [exact Hn2| | |by rewrite Hlen]; [by rewrite Hlen|].
    intros ->. cbn in Hlen. lia.
  - rewrite (ctl_same _ _ (rd_source _ _ _ Hr)). congruence.
  - destruct Hn2 as (gn & Hc & _). by eexists _, _.
Qed.

Theorem visit_rte_expr_spec rfp fuel : forall ps ei a v, rte_val nv nodes rfp fuel ei = Some v ->
  ready ps false a -> wp (visit_rte_expr rfp fuel ei) (visits v false a) a.
Proof.
  induction fuel as [|fuel IH]; intros ps ei a v E Hr; [done|]. cbn [rte_val visit_rte_expr] in *.
  apply bind_Some in E as (e & He & E). rewrite He. apply wpe_bind, wpe_ret. unfold visit_rte_expr_node.
  assert (Hat : forall vs, mapM (rte_val nv nodes rfp fuel) (fe_nodes e) = Some vs -> size_ok (length (fe_nodes e)) = true ->
    wp (visit_atomic_expr (visit_rte_expr rfp fuel) e) (visits (kleene (nary (fe_type e) (length (fe_nodes e))) vs) false a) a).
  { intros vs Hvs Hsz. eapply wp_visit_atomic; [|exact Hvs|done|exact Hr]. intros c a0 v0 Hv0 Hr0. by eapply IH. }
  destruct (fe_type e) eqn:Hty.
  - apply bind_Some in E as (n & Hn & E). by eapply wp_literal_visit.
  - apply bind_Some in E as (n & Hn & E). apply fmap_Some in E as (w & Hw & ->).
    eapply wp_not_visit; [done|]. by eapply IH.
  - apply bind_Some in E as (vs & Hvs & E). destruct (size_ok _) eqn:Hsz; [|done]. injection E as <-. by apply Hat.
  - apply bind_Some in E as (vs & Hvs & E). destruct (size_ok _) eqn:Hsz; [|done]. injection E as <-. by apply Hat.
  - done.
Qed.
End Visit.
