(* ===== verification/ExprForest.v ===== *)
(** The graph of a type under construction as a forest: every live entry
    belongs to the tree of one root, and every root pulls a node or is an
    invariant.  Linking a new tree to its node keeps the forest, and a forest
    is the [tree_graph] that evaluation relies on. *)
From S2P Require Import Prelude SimTime PullSet Expr OrdMap Node ProcGraph EvalProps ExprAlloc ExprTree ExprBuild.
From stdpp Require Import gmap.
Open Scope Z_scope.
Local Open Scope hackt_scope.
#[local] Abbreviation length := Datatypes.length.

Lemma fanout_set_pull_expr b w l f : f_fanout (set_pull_expr b w l f) = f_fanout f.
Proof. by destruct b, w. Qed.
Lemma get_set_pull_expr b w l f b' w' : get_pull_expr b' w' (set_pull_expr b w l f) =
  if decide (b' = b /\ w' = w) then l else get_pull_expr b' w' f.
Proof. by destruct b, w, b', w'; cbn. Qed.

(** ** Forests *)
Abbreviation pull_target := (nat * bool * rule_strength)%type.   (* node, direction, strength *)
Record root_info : Type := mkRoot {
  rt_tree : gset nat;
  rt_val : pull_enum;
  rt_out : option pull_target   (* [None]: an invariant *)
}.
(** The guards that pull one way at a node, in order. *)
Definition pulls_at (t : pull_target) (l : list (pull_target * pull_enum)) : list pull_enum :=
  omap (fun x => if decide (x.1 = t) then Some x.2 else None) l.

Definition root_ok (g : unique_process_subgraph) (i : nat) (r : root_info) : Prop :=
  exists e gn rl, cell g i = Some (e, gn) /\ is_root e = true /\ rule_of g i rl /\
    match rt_out r with
    | None => is_invariant rl = true /\ e_parent e = INVALID_EXPR_INDEX
    | Some (n, b, w) => is_invariant rl = false /\ direction rl = b /\ strength_of rl = w /\ e_parent e = n /\
        exists f, local_faninout_map g !! n = Some f /\ i ∈ get_pull_expr b w f
    end.

Section Forest.
Context (nv : nat -> pull_enum).

(** [P]: the guards linked to nodes; [V]: the invariants, by number. *)
Record planted (a : alloc_state) (R : gmap nat root_info) (P : list (pull_target * pull_enum))
    (V : list pull_enum) : Prop := {
  pl_pool : pool_ok a;
  pl_sorted : m_sorted (rule_map (al_g a));
  pl_tree : forall i r, R !! i = Some r -> tree nv (al_g a) i (rt_tree r) (rt_val r);
  pl_disjoint : forall i j r r', R !! i = Some r -> R !! j = Some r' -> i <> j -> rt_tree r ## rt_tree r';
  pl_live : forall k, k ∈ live a <-> exists i r, R !! i = Some r /\ k ∈ rt_tree r;
  pl_root : forall i r, R !! i = Some r -> root_ok (al_g a) i r;
  pl_rules : forall i ri, m_find i (rule_map (al_g a)) = Some ri -> is_Some (R !! i);
  pl_pulls : forall n f b w, local_faninout_map (al_g a) !! n = Some f -> NoDup (get_pull_expr b w f) /\
    Forall2 (fun i v => exists r, R !! i = Some r /\ rt_out r = Some (n, b, w) /\ rt_val r = v)
      (get_pull_expr b w f) (pulls_at (n, b, w) P);
  pl_invs : forall v, v ∈ V -> exists i r, R !! i = Some r /\ rt_out r = None /\ rt_val r = v
}.

Lemma planted_heap a b R P V : heap a = heap b -> planted a R P V -> planted b R P V.
Proof.
  intros E [H1 H2 H3 H4 H5 H6 H7 H8 H9]. pose proof (live_heap _ _ E) as L. pose proof (pool_ok_heap _ _ E H1).
  injection E as Eg El. split; rewrite <- ?L, <- ?Eg; done.
Qed.

(** A new tree [J] with root [i] joins the forest: what the graph must show. *)
Record joins (a a' : alloc_state) (i : nat) (r : root_info) : Prop := {
  jn_pool : pool_ok a';
  jn_live : live a' = live a ∪ rt_tree r;
  jn_fresh : rt_tree r ## live a;
  jn_cells : forall k, k ∈ live a -> cell (al_g a') k = cell (al_g a) k;
  jn_tree : tree nv (al_g a') i (rt_tree r) (rt_val r);
  jn_rules : exists rl, rule_pool (al_g a') = rule_pool (al_g a) ++ [rl];
  jn_map : rule_map (al_g a') = m_set i (length (rule_pool (al_g a))) (rule_map (al_g a));
  jn_root : root_ok (al_g a') i r;
  jn_pulls : forall n f', local_faninout_map (al_g a') !! n = Some f' -> exists f,
    local_faninout_map (al_g a) !! n = Some f /\ forall b w, get_pull_expr b w f' =
      get_pull_expr b w f ++ (if decide (rt_out r = Some (n, b, w)) then [i] else []);
  jn_nodes : length (local_faninout_map (al_g a')) = length (local_faninout_map (al_g a))
}.

Lemma rule_of_join a a' i r k rl : joins a a' i r -> k <> i -> rule_of (al_g a) k rl -> rule_of (al_g a') k rl.
Proof.
  intros [_ _ _ _ _ [rl' Hp] Hm _ _ _] Hne (ri & Hf & Hr). exists ri. rewrite Hm, Hp, m_find_set, key_eqb_neq by done.
  split; [done|]. by apply lookup_app_l_Some.
Qed.

Lemma planted_join a a' R P V i r : planted a R P V -> joins a a' i r ->
  planted a' (<[i := r]> R)
    (match rt_out r with Some t => P ++ [(t, rt_val r)] | None => P end)
    (match rt_out r with Some _ => V | None => V ++ [rt_val r] end).
Proof.
  intros [Hpo Hso Htr Hdj Hlv Hrt Hru Hpu Hin] Hj. pose proof (tree_top _ _ _ _ _ (jn_tree _ _ _ _ Hj)) as Hi.
  pose proof (jn_fresh _ _ _ _ Hj) as Hfr.
  assert (Hsub : forall j r', R !! j = Some r' -> rt_tree r' ⊆ live a).
  { intros j r' Hr' k Hk. apply Hlv. by exists j, r'. }
  assert (Hni : R !! i = None).
  { destruct (R !! i) as [r'|] eqn:E; [|done]. exfalso. pose proof (tree_top _ _ _ _ _ (Htr _ _ E)).
    specialize (Hsub _ _ E). set_solver. }
  assert (Hne : forall j r', R !! j = Some r' -> j <> i) by (intros j r' E ->; congruence).
  split.
  - apply Hj.
  - rewrite (jn_map _ _ _ _ Hj). by apply m_set_sorted.
  - intros j r' [[<- <-]|[Hji E]]%lookup_insert_Some; [apply Hj|].
    eapply tree_local; [by apply Htr|]. intros k Hk. apply (jn_cells _ _ _ _ Hj). by eapply Hsub.
  - intros j1 j2 r1 r2 [[<- <-]|[H1 E1]]%lookup_insert_Some [[<- <-]|[H2 E2]]%lookup_insert_Some Hjj.
    + done.
    + specialize (Hsub _ _ E2). set_solver.
    + specialize (Hsub _ _ E1). set_solver.
    + by eapply Hdj.
  - intros k. rewrite (jn_live _ _ _ _ Hj), elem_of_union, Hlv. split.
    + intros [(j & r' & E & Hk)|Hk]; [exists j, r'|exists i, r; by rewrite lookup_insert_eq].
      by rewrite lookup_insert_ne by (apply not_eq_sym; eauto).
    + intros (j & r' & [[<- <-]|[H1 E1]]%lookup_insert_Some & Hk); [by right|]. left. by exists j, r'.
  - intros j r' [[<- <-]|[Hji E]]%lookup_insert_Some; [apply Hj|].
    destruct (Hrt _ _ E) as (e & gn & rl & Hc & Hr & Hro & Hout). exists e, gn, rl. split_and!.
    + rewrite (jn_cells _ _ _ _ Hj); [done|]. apply (Hsub _ _ E). eapply tree_top. by apply Htr.
    + done.
    + eapply rule_of_join; [done|by apply not_eq_sym|done].
    + destruct (rt_out r') as [[[n b] w]|]; [|done]. destruct Hout as (? & ? & ? & ? & f & Hf & Hjf). split_and!; try done.
      destruct (lookup_lt_is_Some_2 (local_faninout_map (al_g a')) n) as [f' Hf'].
      { rewrite (jn_nodes _ _ _ _ Hj). by eapply lookup_lt_Some. }
      exists f'. split; [done|]. destruct (jn_pulls _ _ _ _ Hj _ _ Hf') as (f0 & Hf0 & ->). simplify_eq.
      apply elem_of_app. by left.
  - intros j ri. rewrite (jn_map _ _ _ _ Hj), m_find_set. destruct (key_eqb j i) eqn:Eji.
    + apply key_eqb_eq in Eji as ->. rewrite lookup_insert_eq. by eexists.
    + intros Hf. apply Hru in Hf as [r' E]. exists r'. by rewrite lookup_insert_ne by (apply not_eq_sym; eauto).
  - intros n f' b w Hf'. destruct (jn_pulls _ _ _ _ Hj _ _ Hf') as (f & Hf & ->). destruct (Hpu _ _ b w Hf) as [Hnd Hall].
    assert (Hall' : Forall2 (fun j v => exists r', <[i := r]> R !! j = Some r' /\ rt_out r' = Some (n, b, w) /\ rt_val r' = v)
      (get_pull_expr b w f) (pulls_at (n, b, w) P)).
    { eapply Forall2_impl; [exact Hall|]. intros j v (r' & E & ?). exists r'.
      by rewrite lookup_insert_ne by (apply not_eq_sym; eauto). }
    assert (Hnin : i ∉ get_pull_expr b w f).
    { intros Hin'. apply list_elem_of_lookup in Hin' as [x Hx].
      destruct (Forall2_lookup_l _ _ _ _ _ Hall Hx) as (v & _ & r' & E & _). congruence. }
    destruct (decide (rt_out r = Some (n, b, w))) as [Eo|Eo].
    + rewrite Eo. unfold pulls_at. rewrite omap_app. cbn. rewrite decide_True by done. split.
      * apply NoDup_app. split_and!; [done| |apply NoDup_singleton]. by intros x Hx ->%list_elem_of_singleton.
      * apply Forall2_app; [done|]. constructor; [|constructor]. exists r. by rewrite lookup_insert_eq.
    + rewrite app_nil_r. split; [done|]. destruct (rt_out r) as [t|]; [|done].
      unfold pulls_at. rewrite omap_app. cbn. rewrite decide_False by congruence. by rewrite app_nil_r.
  - assert (HV : forall v, v ∈ V -> exists j r', <[i := r]> R !! j = Some r' /\ rt_out r' = None /\ rt_val r' = v).
    { intros v (j & r' & E & ?)%Hin. exists j, r'. by rewrite lookup_insert_ne by (apply not_eq_sym; eauto). }
    destruct (rt_out r) eqn:Eo; [done|]. intros v [Hv| ->%list_elem_of_singleton]%elem_of_app; [by apply HV|].
    exists i, r. by rewrite lookup_insert_eq.
Qed.
End Forest.

(** ** The entries of a tree *)
Definition inner (g : unique_process_subgraph) (J : gset nat) (k : nat) : Prop :=
  exists e gn, cell g k = Some (e, gn) /\ full e gn /\
    forall j q, g_children gn !! j = Some (false, q) -> q ∈ J /\ child_of g q k j.
Definition hangs (g : unique_process_subgraph) (J : gset nat) (k : nat) : Prop :=
  exists e gn pe pgn, cell g k = Some (e, gn) /\ is_root e = false /\ e_parent e ∈ J /\ e_parent e <> k /\
    cell g (e_parent e) = Some (pe, pgn) /\ g_children pgn !! g_offset gn = Some (false, k).
Lemma inner_mono g J J' k : J ⊆ J' -> inner g J k -> inner g J' k.
Proof.
  intros Hs (e & gn & Hc & Hf & Hch). exists e, gn. split_and!; [done..|]. intros j q Hj.
  destruct (Hch _ _ Hj). split; [set_solver|done].
Qed.
Lemma hangs_mono g J J' k : J ⊆ J' -> hangs g J k -> hangs g J' k.
Proof. intros Hs (e & gn & pe & pgn & Hc & Hr & Hp & Hpk & Hpc & Hch). exists e, gn, pe, pgn. split_and!; try done. by apply Hs. Qed.

Lemma tree_entries_mut nv g :
  (forall i J v, tree nv g i J v -> forall k, k ∈ J -> inner g J k /\ (k = i \/ hangs g J k)) /\
  (forall p j0 cs J vs, branches nv g p j0 cs J vs ->
    (forall k, k ∈ J -> inner g J k /\ ((exists x, cs !! x = Some (false, k) /\ child_of g k p (j0 + x)) \/ hangs g J k)) /\
    (forall x q, cs !! x = Some (false, q) -> q ∈ J /\ child_of g q p (j0 + x))).
Proof.
  apply (tree_branches_ind nv g
    (fun i J v _ => forall k, k ∈ J -> inner g J k /\ (k = i \/ hangs g J k))
    (fun p j0 cs J vs _ =>
      (forall k, k ∈ J -> inner g J k /\ ((exists x, cs !! x = Some (false, k) /\ child_of g k p (j0 + x)) \/ hangs g J k)) /\
      (forall x q, cs !! x = Some (false, q) -> q ∈ J /\ child_of g q p (j0 + x)))).
  - intros i e gn J vs Hc Hf Hi _ [IHk IHc] k [->%elem_of_singleton|Hk]%elem_of_union.
    + split; [|by left]. exists e, gn. split_and!; [done..|]. intros j q Hj. destruct (IHc _ _ Hj). split; [set_solver|done].
    + destruct (IHk _ Hk) as [Hin Hor]. split; [eapply inner_mono; [|done]; set_solver|]. right.
      destruct Hor as [(x & Hx & ce & cgn & Hcc & Hr & Hp & Ho)|Hh]; [|eapply hangs_mono; [|done]; set_solver].
      exists ce, cgn, e, gn. rewrite Hp, Ho. cbn. split_and!; [done|done|set_solver|congruence|done|done].
  - intros p j. split; [set_solver|]. by intros x q Hx.
  - intros p j n cs J vs _ [IHk IHc]. split.
    + intros k Hk. destruct (IHk _ Hk) as [Hin [(x & Hx & Hco)|Hh]]; (split; [done|]); [left|by right].
      exists (S x). split; [done|]. by rewrite Nat.add_succ_r.
    + intros [|x] q Hx; [done|]. cbn in Hx. rewrite Nat.add_succ_r. by apply IHc.
  - intros p j k cs Jk J v vs Ht IHt Hco Hd _ [IHk IHc]. pose proof (tree_top _ _ _ _ _ Ht) as Hkk. split.
    + intros k' [Hk'|Hk']%elem_of_union.
      * destruct (IHt _ Hk') as [Hin Hor]. split; [eapply inner_mono; [|done]; set_solver|].
        destruct Hor as [->|Hh]; [left|right; eapply hangs_mono; [|done]; set_solver].
        exists 0%nat. by rewrite Nat.add_0_r.
      * destruct (IHk _ Hk') as [Hin Hor]. split; [eapply inner_mono; [|done]; set_solver|].
        destruct Hor as [(x & Hx & Hcx)|Hh]; [left|right; eapply hangs_mono; [|done]; set_solver].
        exists (S x). split; [done|]. by rewrite Nat.add_succ_r.
    + intros [|x] q Hx; cbn in Hx.
      * injection Hx as <-. rewrite Nat.add_0_r. split; [set_solver|done].
      * destruct (IHc _ _ Hx). rewrite Nat.add_succ_r. split; [set_solver|done].
Qed.
Lemma tree_entries nv g i J v k : tree nv g i J v -> k ∈ J -> inner g J k /\ (k = i \/ hangs g J k).
Proof. intros Ht. by apply (proj1 (tree_entries_mut nv g) i J v Ht). Qed.

(** ** A forest without holes is well formed *)
Section Graph.
Context (nv : nat -> pull_enum) (a : alloc_state) (R : gmap nat root_info) (P : list (pull_target * pull_enum))
  (V : list pull_enum) (Hpl : planted nv a R P V).
#[local] Abbreviation g := (al_g a).

(** The root above a live entry. *)
Lemma live_entry k : k ∈ live a -> exists i r, R !! i = Some r /\ k ∈ rt_tree r /\
  inner g (rt_tree r) k /\ (k = i \/ hangs g (rt_tree r) k).
Proof.
  intros (i & r & E & Hk)%(pl_live _ _ _ _ _ Hpl). exists i, r.
  by destruct (tree_entries _ _ _ _ _ _ (pl_tree _ _ _ _ _ Hpl _ _ E) Hk).
Qed.
Lemma not_wiped_live k e gn : cell g k = Some (e, gn) -> wiped e = false -> k ∈ live a.
Proof.
  intros Hc Hw. apply elem_of_live. split; [apply cell_inv in Hc as [Hc _]; by eapply lookup_lt_Some|].
  intros Hk. destruct (po_free _ (pl_pool _ _ _ _ _ Hpl) _ Hk) as (e' & gn' & Hc' & Hw' & _). simplify_eq. congruence.
Qed.
Lemma child_at_cell i j c : child_at g i j c -> exists e gn, cell g i = Some (e, gn) /\ wiped e = false /\ g_children gn !! j = Some c.
Proof. intros (e & gn & He & Hg & Hw & Hj). exists e, gn. split; [by apply cell_intro|done]. Qed.
Lemma child_expr i j k : child_at g i j (false, k) -> child_of g k i j /\ exists r0 r, R !! r0 = Some r /\ k ∈ rt_tree r.
Proof.
  intros (e & gn & Hc & Hw & Hj)%child_at_cell.
  destruct (live_entry _ (not_wiped_live _ _ _ Hc Hw)) as (r0 & r & E & Hi & (e' & gn' & Hc' & _ & Hch) & _).
  simplify_eq. destruct (Hch _ _ Hj). split; [done|]. by exists r0, r.
Qed.
Lemma entry_full i e gn : cell g i = Some (e, gn) -> wiped e = false -> full e gn.
Proof.
  intros Hc Hw. destruct (live_entry _ (not_wiped_live _ _ _ Hc Hw)) as (r0 & r & E & Hi & (e' & gn' & Hc' & Hf & _) & _).
  by simplify_eq.
Qed.
Lemma root_of_tree i e gn r : cell g i = Some (e, gn) -> R !! i = Some r -> is_root e = true.
Proof. intros Hc E. destruct (pl_root _ _ _ _ _ Hpl _ _ E) as (e' & gn' & rl & Hc' & Hr & _). by simplify_eq. Qed.

Lemma count_eq_once l i : NoDup l -> i ∈ l -> count_eq l i = 1.
Proof.
  unfold count_eq. induction 1 as [|x l Hx Hnd IH]; [by intros ?%elem_of_nil|]. intros Hi. cbn [count_if].
  assert (Hz : x = i -> count_if (Nat.eqb i) l = 0).
  { intros ->. apply count_if_zero, Forall_forall. intros y Hy. apply Nat.eqb_neq. by intros ->. }
  destruct (Nat.eqb_spec i x) as [->|Hne]; [rewrite Hz by done; lia|].
  rewrite IH; [lia|]. apply elem_of_cons in Hi as [->|]; [congruence|done].
Qed.

Lemma planted_wf : wf_graph g.
Proof.
  pose proof (pl_pool _ _ _ _ _ Hpl) as Hp. split.
  - apply Hp.
  - intros i e gn He Hg Hw. by apply (entry_full i e gn (cell_intro _ _ _ _ He Hg) Hw).
  - intros i e He Hw Hr. pose proof (lookup_lt_Some _ _ _ He) as Hlt. rewrite (po_len _ Hp) in Hlt.
    destruct (lookup_lt_is_Some_2 _ _ Hlt) as [gn Hgn]. pose proof (cell_intro _ _ _ _ He Hgn) as Hc.
    destruct (live_entry _ (not_wiped_live _ _ _ Hc Hw)) as (r0 & r & E & Hi & _ & [->|Hh]).
    + rewrite (root_of_tree _ _ _ _ Hc E) in Hr. done.
    + destruct Hh as (e' & gn' & pe & pgn & Hc' & _ & _ & _ & [_ Hpg]%cell_inv & Hch). simplify_eq. by exists pgn, gn.
  - intros i j k Hch. destruct (child_expr _ _ _ Hch) as [(e & gn & [He Hg]%cell_inv & _ & Hpar & Ho) _]. by exists e, gn.
  - intros i j n (e & gn & Hc & Hw & Hj)%child_at_cell.
    destruct (po_fan _ Hp n i) as [_ Hfan]. apply Hfan. exists e, gn. split; [done|]. by eapply list_elem_of_lookup_2.
  - intros i e He Hw Hr. pose proof (lookup_lt_Some _ _ _ He) as Hlt. rewrite (po_len _ Hp) in Hlt.
    destruct (lookup_lt_is_Some_2 _ _ Hlt) as [gn Hgn]. pose proof (cell_intro _ _ _ _ He Hgn) as Hc.
    destruct (live_entry _ (not_wiped_live _ _ _ Hc Hw)) as (r0 & r & E & Hi & _ & [->|Hh]).
    2: { destruct Hh as (e' & gn' & pe & pgn & Hc' & ? & _). simplify_eq. congruence. }
    destruct (pl_root _ _ _ _ _ Hpl _ _ E) as (e' & gn' & rl & Hc' & _ & Hro & Hout). simplify_eq.
    destruct (rt_out r) as [[[n b] w]|]; [|left; exists rl; by destruct Hout].
    destruct Hout as (Hinv & <- & <- & <- & f & Hf & Hin). right. exists rl, f. split_and!; [done..|].
    destruct (pl_pulls _ _ _ _ _ Hpl _ _ (direction rl) (strength_of rl) Hf) as [Hnd _].
    destruct (strength_of rl); [left|right]; by apply count_eq_once.
  - intros n f i Hf Hi. destruct (po_fan _ Hp n i) as [Hfan _].
    destruct Hfan as (e & gn & [_ Hgn]%cell_inv & [j Hj]%list_elem_of_lookup_1); [by exists f|]. by exists gn, j.
  - intros n f b w i Hf Hi _. destruct (pl_pulls _ _ _ _ _ Hpl _ _ b w Hf) as [_ Hall].
    apply list_elem_of_lookup_1 in Hi as [x Hx]. destruct (Forall2_lookup_l _ _ _ _ _ Hall Hx) as (v & _ & r & E & Eo & _).
    destruct (pl_root _ _ _ _ _ Hpl _ _ E) as (e & gn & rl & [He _]%cell_inv & Hr & Hro & Hout). rewrite Eo in Hout.
    destruct Hout as (_ & ? & _ & ? & _). by exists e, rl.
Qed.

Lemma planted_tree_graph : expr_free_list a = [] -> tree_graph g.
Proof.
  intros Hfl. pose proof (pl_pool _ _ _ _ _ Hpl) as Hp.
  assert (Hlive : forall i e, expr_pool g !! i = Some e -> i ∈ live a).
  { intros i e He. apply elem_of_live. rewrite Hfl. split; [by eapply lookup_lt_Some|by intros ?%elem_of_nil]. }
  assert (Hw : forall i e, expr_pool g !! i = Some e -> wiped e = false).
  { intros i e He. destruct (live_entry _ (Hlive _ _ He)) as (r0 & r & E & Hi & (e' & gn & [He' _]%cell_inv & (Hs & Hne & _) & _) & _).
    simplify_eq. unfold wiped. apply Z.eqb_neq. destruct (g_children gn); [done|]. rewrite Hs. cbn [length]. lia. }
  split.
  - apply planted_wf.
  - intros i j k e Hch He. destruct (child_expr _ _ _ Hch) as [(e' & gn & [He' _]%cell_inv & Hr & _) _]. by simplify_eq.
  - intros i r d e _ He. by eapply Hw.
  - intros i j k e _ He. by eapply Hw.
  - intros i gn Hgn. pose proof (lookup_lt_Some _ _ _ Hgn) as Hlt. rewrite <- (po_len _ Hp) in Hlt.
    destruct (lookup_lt_is_Some_2 _ _ Hlt) as [e He].
    apply (entry_full i e gn (cell_intro _ _ _ _ He Hgn)). by eapply Hw.
Qed.
End Graph.
