(* ===== verification/ExprRules.v ===== *)
(** Production rules, pass gates, assignments and invariants of a type, as
    "ExprAlloc.v" links them: the forest gains one tree per item, with the
    value that the reference semantics gives, in the order of the items. *)
From S2P Require Import Prelude SimTime PullSet Expr OrdMap Node ProcGraph EvalProps.
From S2P Require Import ExprAlloc ExprTree ExprBuild ExprFold ExprVisit ExprForest.
From stdpp Require Import gmap.
From Stdlib Require Import String.
Open Scope Z_scope.
Local Open Scope hackt_scope.
#[local] Abbreviation length := Datatypes.length.

(** ** Linking a tree to the node that it pulls *)
Lemma pool_ok_ext a b : pool_ok a -> expr_pool (al_g b) = expr_pool (al_g a) ->
  expr_graph_node_pool (al_g b) = expr_graph_node_pool (al_g a) -> expr_free_list b = expr_free_list a ->
  (forall n i, fan_in (al_g b) n i <-> fan_in (al_g a) n i) -> pool_ok b.
Proof.
  intros [H1 H2 H3 H4] E1 E2 E3 E4.
  assert (Ec : forall i, cell (al_g b) i = cell (al_g a) i) by (intros i; unfold cell; by rewrite E1, E2).
  split.
  - by rewrite E1, E2.
  - by rewrite E3.
  - intros i. rewrite E3, Ec. apply H3.
  - intros n i. rewrite E4, H4. unfold leaf_in. by rewrite Ec.
Qed.
Lemma live_ext a b : expr_pool (al_g b) = expr_pool (al_g a) -> expr_free_list b = expr_free_list a -> live b = live a.
Proof. unfold live. by intros -> ->. Qed.

Lemma fan_in_set_pull n f b w l g m i : local_faninout_map g !! n = Some f ->
  fan_in (set_faninout n (set_pull_expr b w l f) g) m i <-> fan_in g m i.
Proof.
  intros Hf. unfold fan_in. cbn. destruct (decide (m = n)) as [->|Hne].
  - rewrite list_lookup_insert_eq by (by eapply lookup_lt_Some). rewrite Hf. split.
    + intros (? & [= <-] & Hi). rewrite fanout_set_pull_expr in Hi. by exists f.
    + intros (? & [= <-] & Hi). eexists. split; [done|]. by rewrite fanout_set_pull_expr.
  - by rewrite list_lookup_insert_ne.
Qed.
Lemma own_pulls J J' a a' n f' : own J J' a a' -> local_faninout_map (al_g a') !! n = Some f' ->
  exists f, local_faninout_map (al_g a) !! n = Some f /\ forall b w, get_pull_expr b w f' = get_pull_expr b w f.
Proof.
  intros [_ _ _ _ _ Hr] Hf'. unfold rest in Hr. injection Hr as Hr _.
  assert (E : map (set_fanout []) (local_faninout_map (al_g a)) !! n = Some (set_fanout [] f')).
  { rewrite <- Hr, lookup_map, Hf'. done. }
  rewrite lookup_map in E. destruct (local_faninout_map (al_g a) !! n) as [f|]; [|done]. injection E as E1 E2 E3 E4 _.
  exists f. split; [done|]. by intros [] [].
Qed.
Lemma own_rules J J' a a' : own J J' a a' -> rule_pool (al_g a') = rule_pool (al_g a) /\ rule_map (al_g a') = rule_map (al_g a).
Proof. intros [_ _ _ _ _ Hr]. unfold rest in Hr. by injection Hr. Qed.
Lemma own_fresh J a a' : own ∅ J a a' -> live a' = live a ∪ J /\ J ## live a.
Proof.
  intros [_ _ Hl Ho _ _]. rewrite difference_empty_L in Ho. rewrite <- Ho. split; [|set_solver].
  rewrite union_comm_L. by apply union_difference_L.
Qed.

Lemma put_direction_spec d r : let r' := set_direction d r in
  direction r' = d /\ is_invariant r' = is_invariant r /\ rule_is_weak r' = rule_is_weak r.
Proof.
  cbn. unfold direction, is_invariant, rule_is_weak, set_direction, rule_flag_put. cbn. split_and!.
  - by apply (has_flag_put_same d _ 0).
  - by apply (has_flag_put_other d _ 0 3).
  - by apply (has_flag_put_other d _ 0 1).
Qed.

Section Rules.
Context (nv : nat -> pull_enum).

Lemma wp_link_root a R P V a1 top J v n dir dummy : planted nv a R P V -> own ∅ J a a1 ->
  tree nv (al_g a1) top J v -> is_invariant dummy = false -> (n < length (local_faninout_map (al_g a)))%nat ->
  wp (link_node_to_root_expr (Some n) top dir dummy (strength_of dummy)) (fun _ a2 =>
    (exists R', planted nv a2 R' (P ++ [((n, dir, strength_of dummy), v)]) V) /\ ctl a2 = ctl a1 /\
    length (local_faninout_map (al_g a2)) = length (local_faninout_map (al_g a)) /\
    lookup_rule_index top (al_g a2) = Some (length (rule_pool (al_g a))) /\
    rule_pool (al_g a2) = rule_pool (al_g a) ++ [set_direction dir dummy]) a1.
Proof.
  intros Hpl Ho Ht Hinv Hn. destruct (own_fresh _ _ _ Ho) as [Hlive Hfresh]. destruct (own_rules _ _ _ _ Ho) as [Erp Erm].
  pose proof (tree_top _ _ _ _ _ Ht) as Htop. destruct (tree_cell _ _ _ _ _ Ht) as (e & gn & Hc & _).
  destruct (lookup_lt_is_Some_2 (local_faninout_map (al_g a1)) n) as [f Hf].
  { by rewrite (own_nodes_length _ _ _ _ Ho). }
  unfold link_node_to_root_expr. apply wpe_bind, wpe_ret, wpe_bind. eapply wp_get_faninout; [exact Hf|].
  set (w := strength_of dummy). set (l := get_pull_expr dir w f).
  apply wpe_bind. eapply wp_upd_graph_node; [exact Hc|]. apply wpe_bind. eapply wp_upd_faninout; [exact Hf|].
  apply wpe_bind. eapply wp_upd_expr; [by eapply cell_set_cell_eq|]. unfold upd_g. apply wpe_modify.
  set (e' := set_parent_node e n). set (gn' := set_offset (length l) gn).
  set (g2 := set_faninout n (set_pull_expr dir w (l ++ [top]) f) (set_cell top (e, gn') (al_g a1))).
  set (rl := set_direction dir dummy). cbn [al_g put_g].
  set (a2 := put_g _ _). destruct (set_parent_node_spec e n) as (Hr & Hno & Hdj & Hpar & Hsz).
  fold e' in Hr, Hno, Hdj, Hpar, Hsz. destruct (put_direction_spec dir dummy) as (Hd & Hi & Hwk). fold rl in Hd, Hi, Hwk.
  assert (Hc2 : forall k, cell (al_g a2) k = if decide (k = top) then Some (e', gn') else cell (al_g a1) k).
  { intros k. change (cell (al_g a2) k) with (cell (set_cell top (e', gn') g2) k).
    erewrite cell_set_cell by (change (cell g2 top) with (cell (set_cell top (e, gn') (al_g a1)) top); by eapply cell_set_cell_eq).
    destruct (decide (k = top)); [done|]. change (cell g2 k) with (cell (set_cell top (e, gn') (al_g a1)) k).
    by apply cell_set_cell_ne. }
  assert (Hp2 : pool_ok a2).
  { assert (Ho1 : own J J a1 (set_cell_of top (e', gn') (set_cell_of top (e, gn') a1))).
    { pose proof (ow_after _ _ _ _ Ho). eapply own_cell; [|done|by eapply cell_set_cell_eq|done].
      eapply own_cell; [apply own_refl; [by eapply ow_pool|done]|done|exact Hc|done]. }
    eapply pool_ok_ext; [exact (ow_pool _ _ _ _ Ho1)|done..|]. intros m i.
    exact (fan_in_set_pull n f dir w (l ++ [top]) (al_g a1) m i Hf). }
  assert (Hl2 : live a2 = live a1).
  { unfold live. cbn. by rewrite !length_insert. }
  set (r := mkRoot J v (Some (n, dir, w))).
  assert (Hj : joins nv a a2 top r).
  { split; try done.
    - by rewrite Hl2.
    - intros k Hk. rewrite Hc2, decide_False by (intros ->; set_solver). eapply ow_cells; [exact Ho|done|set_solver].
    - eapply (tree_relink nv (al_g a1) (al_g a2) top J v e gn e' gn' Ht Hc); [by rewrite Hc2, decide_True| |done..].
      intros k _ Hk. by rewrite Hc2, decide_False.
    - exists rl. cbn. by rewrite Erp.
    - cbn. by rewrite Erp, Erm.
    - exists e', gn', rl. split_and!; [by rewrite Hc2, decide_True|done| |].
      + exists (length (rule_pool (al_g a))). cbn. rewrite Erp, Erm, m_find_set, key_eqb_refl. split; [done|].
        rewrite lookup_app_r, Nat.sub_diag by done. done.
      + cbn. split_and!; [congruence|done| |done|].
        * unfold strength_of. rewrite Hwk. done.
        * eexists. cbn. rewrite list_lookup_insert_eq by (by eapply lookup_lt_Some). split; [done|].
          rewrite get_set_pull_expr, decide_True by done. apply elem_of_app. right. by left.
    - intros m f' Hf'. cbn in Hf'. destruct (decide (m = n)) as [->|Hne].
      + rewrite list_lookup_insert_eq in Hf' by (by eapply lookup_lt_Some). injection Hf' as <-.
        destruct (own_pulls _ _ _ _ _ _ Ho Hf) as (f0 & Hf0 & Hpu). exists f0. split; [done|]. intros b w'.
        rewrite get_set_pull_expr, <- Hpu. cbn [rt_out r].
        destruct (decide (b = dir /\ w' = w)) as [[-> ->]|Hbw]; [by rewrite decide_True|].
        rewrite decide_False by (intros [= -> ->]; tauto). by rewrite app_nil_r.
      + rewrite list_lookup_insert_ne in Hf' by done. destruct (own_pulls _ _ _ _ _ _ Ho Hf') as (f0 & Hf0 & Hpu).
        exists f0. split; [done|]. intros b w'. rewrite decide_False by (cbn; congruence). by rewrite app_nil_r.
    - cbn. rewrite length_insert. by eapply own_nodes_length. }
  split_and!; [eexists; exact (planted_join nv _ _ _ _ _ _ _ Hpl Hj)|done|apply Hj| |].
  - unfold lookup_rule_index. cbn. by rewrite Erp, Erm, m_find_set, key_eqb_refl.
  - cbn. by rewrite Erp.
Qed.

Lemma wp_link_invariant d a R P V a1 top J v j b : planted nv a R P V -> own ∅ J a a1 ->
  tree nv (al_g a1) top J v -> top_ok b (al_g a1) top ->
  wp (link_invariant_expr d top j) (fun _ a2 => (exists R', planted nv a2 R' P (V ++ [v])) /\ ctl a2 = ctl a1 /\
    length (local_faninout_map (al_g a2)) = length (local_faninout_map (al_g a))) a1.
Proof.
  intros Hpl Ho Ht (e & gn & Hc & Hpar & _). destruct (own_fresh _ _ _ Ho) as [Hlive Hfresh].
  destruct (own_rules _ _ _ _ Ho) as [Erp Erm]. pose proof (tree_top _ _ _ _ _ Ht) as Htop.
  unfold link_invariant_expr. apply wpe_bind. eapply wp_upd_expr; [exact Hc|]. unfold upd_g. apply wpe_modify.
  set (e' := set_root e). destruct (put_root_spec true e) as (Hr & Hno & Hdj). fold e' in Hr, Hno, Hdj.
  set (rl := set_invariant (Rule_make d)). set (a2 := put_g _ (put_g _ a1)).
  assert (Hc2 : forall k, cell (al_g a2) k = if decide (k = top) then Some (e', gn) else cell (al_g a1) k).
  { intros k. by apply (cell_set_cell (al_g a1) top (e', gn) (e, gn) k). }
  assert (Hp2 : pool_ok a2).
  { assert (Ho1 : own J J a1 (set_cell_of top (e', gn) a1)).
    { pose proof (ow_after _ _ _ _ Ho). eapply own_cell; [apply own_refl; [by eapply ow_pool|done]|done|exact Hc|done]. }
    by eapply pool_ok_ext; [exact (ow_pool _ _ _ _ Ho1)|done..]. }
  assert (Hl2 : live a2 = live a1) by (unfold live; cbn; by rewrite length_insert).
  assert (Hj : joins nv a a2 top (mkRoot J v None)).
  { split; try done.
    - by rewrite Hl2.
    - intros k Hk. rewrite Hc2, decide_False by (intros ->; set_solver). eapply ow_cells; [exact Ho|done|set_solver].
    - eapply (tree_relink nv (al_g a1) (al_g a2) top J v e gn e' gn Ht Hc); [by rewrite Hc2, decide_True| |done..].
      intros k _ Hk. by rewrite Hc2, decide_False.
    - exists rl. cbn. by rewrite Erp.
    - cbn. by rewrite Erp, Erm.
    - exists e', gn, rl. split_and!; [by rewrite Hc2, decide_True|done| |done].
      exists (length (rule_pool (al_g a))). cbn. rewrite Erp, Erm, m_find_set, key_eqb_refl. split; [done|].
      rewrite lookup_app_r, Nat.sub_diag by done. done.
    - intros m f' Hf'. destruct (own_pulls _ _ _ _ _ _ Ho Hf') as (f0 & Hf0 & Hpu).
      exists f0. split; [done|]. intros b' w'. rewrite decide_False by done. by rewrite app_nil_r.
    - by apply (own_nodes_length _ _ _ _ Ho). }
  split_and!; [eexists; exact (planted_join nv _ _ _ _ _ _ _ Hpl Hj)|done|apply Hj].
Qed.
End Rules.

(** ** Attributes *)
Section Attributes.
Context (flags : ExprAllocFlags) (d : real_time).

(** Attributes see and change [temp_rule] and [suppress_keeper_rule] only. *)
Definition probe (a : alloc_state) : alloc_state :=
  mkAlloc graph_empty [] (suppress_keeper_rule a) (temp_rule a) (Some 0%nat) false.
Definition put_attr (p a : alloc_state) : alloc_state :=
  put_temp_rule (temp_rule p) (put_suppress (suppress_keeper_rule p) a).
Lemma rule_attribute_local vals key a :
  rule_attribute flags vals key a =
  match rule_attribute flags vals key (probe a) with Ok (_, p) => Ok (tt, put_attr p a) | Err f => Err f end.
Proof.
  destruct a as [g fl s t ps src]. unfold probe, put_attr. cbn [suppress_keeper_rule temp_rule]. unfold rule_attribute.
  destruct (String.eqb key "after"); [by destruct vals, t|].
  destruct (String.eqb key "after_min").
  { destruct vals, t; try done. cbn. unfold check_after_min_max, bind, gets, of_option, require, ret, when. cbn.
    by repeat (case_match; cbn). }
  destruct (String.eqb key "after_max").
  { destruct vals, t; try done. cbn. unfold check_after_min_max, bind, gets, of_option, require, ret, when. cbn.
    by repeat (case_match; cbn). }
  destruct (String.eqb key "always_random"); [by destruct t|].
  destruct (String.eqb key "weak"); [by destruct t|].
  destruct (String.eqb key "unstab"); [by destruct t|].
  destruct (String.eqb key "iskeeper").
  { unfold IsKeeper, upd_temp_rule, bind, modify, when, ret, gets, of_option, fail. cbn.
    destruct (_ && _), t; done. }
  by destruct (String.eqb key "diode").
Qed.

Definition kind (r : Rule) : bool * bool := (direction r, is_invariant r).
Lemma kind_flag_put b k r : 0 <= k -> k <> 0 -> k <> 3 -> kind (rule_flag_put b (2 ^ k) r) = kind r.
Proof.
  intros Hk H0 H3. unfold kind, direction, is_invariant, rule_flag_put. cbn.
  f_equal; [by apply (has_flag_put_other b _ k 0)|by apply (has_flag_put_other b _ k 3)].
Qed.
Lemma kind_always_random r : kind (set_always_random r) = kind r /\ kind (clear_always_random r) = kind r.
Proof. split; by apply (kind_flag_put _ 2). Qed.
Lemma kind_weak r : kind (rule_set_weak r) = kind r /\ kind (rule_clear_weak r) = kind r.
Proof. split; by apply (kind_flag_put _ 1). Qed.
Lemma kind_unstable r : kind (set_unstable r) = kind r /\ kind (clear_unstable r) = kind r.
Proof. split; by apply (kind_flag_put _ 4). Qed.
Lemma kind_set_delays x r : kind (set_r_after x r) = kind r /\ kind (set_r_after_min x r) = kind r /\
  kind (set_r_after_max x r) = kind r.
Proof. split_and!; reflexivity. Qed.
Lemma upd_temp_rule_ok f a a' u r : upd_temp_rule f a = Ok (u, a') -> temp_rule a = Some r -> a' = put_temp_rule (Some (f r)) a.
Proof. unfold upd_temp_rule. intros E Hr. unfold bind, gets, of_option in E. rewrite Hr in E. by injection E. Qed.
Lemma check_after_ok a a' u : check_after_min_max a = Ok (u, a') -> a' = a.
Proof. unfold check_after_min_max. intros E. inv_m. done. Qed.
Lemma when_check_ok b a a' u : when b check_after_min_max a = Ok (u, a') -> a' = a.
Proof. destruct b; [apply check_after_ok|]. by intros [= _ <-]. Qed.

#[local] Ltac attr_ok := inv_m; repeat match goal with
  | H : upd_temp_rule _ _ = Ok _ |- _ => eapply upd_temp_rule_ok in H; [|done]; subst
  | H : when _ check_after_min_max _ = Ok _ |- _ => apply when_check_ok in H; subst
  end; eexists; (split; [reflexivity|]).

(** They leave the direction alone. *)
Lemma rule_attribute_kind vals key a a' r : rule_attribute flags vals key a = Ok (tt, a') -> temp_rule a = Some r ->
  exists r', temp_rule a' = Some r' /\ kind r' = kind r.
Proof.
  intros E Hr. unfold rule_attribute in E.
  destruct (String.eqb key "after").
  { unfold After, front_value in E. attr_ok. apply kind_set_delays. }
  destruct (String.eqb key "after_min").
  { unfold AfterMin, front_value in E. attr_ok. apply kind_set_delays. }
  destruct (String.eqb key "after_max").
  { unfold AfterMax, front_value in E. attr_ok. apply kind_set_delays. }
  destruct (String.eqb key "always_random").
  { unfold Always_Random in E. attr_ok. destruct (flag_value vals); apply kind_always_random. }
  destruct (String.eqb key "weak").
  { unfold Weak in E. attr_ok. destruct (flag_value vals); apply kind_weak. }
  destruct (String.eqb key "unstab").
  { unfold Unstab in E. attr_ok. destruct (flag_value vals); apply kind_unstable. }
  destruct (String.eqb key "iskeeper").
  { unfold IsKeeper in E. apply bind_ok in E as (u & s1 & [= _ <-] & E). apply when_ok in E as [[_ E]|[_ ->]]; [|by exists r].
    apply bind_ok in E as ([] & s2 & E & [= <-]). eapply upd_temp_rule_ok in E; [|done]. subst. eexists. split; [done|].
    etransitivity; [apply kind_set_delays|apply kind_weak]. }
  destruct (String.eqb key "diode").
  { injection E as <-. by exists r. }
  injection E as <-. by exists r.
Qed.

(** The rule with its attributes, and whether it is suppressed. *)
Definition rule_of_attributes (r : footprint_rule) : option (Rule * bool) :=
  match attributed_rule flags d r (alloc_init graph_empty) with
  | Ok (dummy, a) => Some (dummy, suppress_keeper_rule a)
  | Err _ => None
  end.
Lemma attributes_local l a p t : suppress_keeper_rule p = suppress_keeper_rule a -> temp_rule p = temp_rule a ->
  for_each l (fun x : string * list Z => rule_attribute flags x.2 x.1) p = Ok (tt, t) ->
  for_each l (fun x => rule_attribute flags x.2 x.1) a = Ok (tt, put_attr t a).
Proof.
  revert a p. induction l as [|[k v] l IH]; intros a p Hs Ht E; cbn [for_each] in *.
  - injection E as <-. unfold put_attr. rewrite Hs, Ht. by destruct a.
  - apply bind_ok in E as ([] & p1 & E1 & E2). rewrite rule_attribute_local in E1.
    assert (Hpr : probe p = probe a) by (unfold probe; by rewrite Hs, Ht).
    rewrite Hpr in E1. cbn [fst snd] in *. unfold bind. rewrite rule_attribute_local.
    destruct (rule_attribute flags v k (probe a)) as [[[] q]|]; [|done]. injection E1 as <-.
    rewrite (IH (put_attr q a) (put_attr q p) eq_refl eq_refl E2). by destruct a.
Qed.
Lemma attributes_kind l a r t : temp_rule a = Some r ->
  for_each l (fun x : string * list Z => rule_attribute flags x.2 x.1) a = Ok (tt, t) ->
  exists r', temp_rule t = Some r' /\ kind r' = kind r.
Proof.
  revert a r. induction l as [|[k v] l IH]; intros a r Hr E; cbn [for_each] in E.
  - injection E as <-. by exists r.
  - apply bind_ok in E as ([] & a1 & E1 & E2). destruct (rule_attribute_kind _ _ _ _ _ E1 Hr) as (r1 & Hr1 & Hk).
    destruct (IH _ _ Hr1 E2) as (r2 & ? & ?). exists r2. split; [done|congruence].
Qed.
Lemma attributed_rule_spec r dummy s a : rule_of_attributes r = Some (dummy, s) -> suppress_keeper_rule a = false ->
  attributed_rule flags d r a = Ok (dummy, put_suppress s a) /\ direction dummy = fr_dir r /\ is_invariant dummy = false.
Proof.
  intros E Hs. unfold rule_of_attributes in E. set (a0 := alloc_init graph_empty) in *.
  unfold attributed_rule, saving in *. set (r0 := set_direction (fr_dir r) (Rule_make d)) in *.
  unfold bind at 1 2 3, gets, modify in E. unfold bind at 1 2 3, gets, modify.
  cbn [temp_rule put_temp_rule] in *. unfold bind at 1 in E. unfold bind at 1.
  destruct (for_each (fr_attributes r) _ (put_temp_rule (Some r0) a0)) as [[[] t]|] eqn:El; [|done].
  rewrite (attributes_local _ (put_temp_rule (Some r0) a) (put_temp_rule (Some r0) a0) t); [|cbn; by rewrite Hs|done|done].
  destruct (attributes_kind _ (put_temp_rule (Some r0) a0) r0 t eq_refl El) as (r1 & Hr1 & Hk). unfold bind, of_option, gets, ret, modify in *.
  rewrite Hr1 in E. cbn in E. unfold put_attr. cbn. rewrite Hr1. cbn. injection E as <- <-.
  unfold kind in Hk. injection Hk as -> ->. destruct (put_direction_spec (fr_dir r) (Rule_make d)) as (? & ? & _).
  by destruct a.
Qed.
End Attributes.

(** ** The items of a type *)
Section Items.
Context (flags : ExprAllocFlags) (d : real_time) (fuel : nat) (nv : nat -> pull_enum) (nodes : nat).

Definition local_node (ni : nat) : option nat :=
  n ← lookup_local_bool_id ni; if Nat.ltb n nodes then Some n else None.
(** What the items do: the pulls on nodes with the values of their guards. *)
Abbreviation pulls := (list (pull_target * pull_enum)).

Section Footprint.
Context (pfp : prs_footprint).

Definition guard_val (ri : nat) (r : footprint_rule) : option pull_enum :=
  si ← lookup_rule_supply pfp ri;
  let ps := lookup_local_bool_id (if fr_dir r then so_Vdd si else so_GND si) in
  let src := if fr_dir r then dynamic_power_supply flags else dynamic_ground_supply flags in
  res ← fp_val nv nodes pfp (Some (fr_dir r)) fuel ps src (fr_expr_index r);
  with_supply nv nodes (Some (fr_dir r)) ps res.
Definition rule_pulls (x : nat * footprint_rule) : option pulls :=
  ds ← rule_of_attributes flags d x.2;
  if (ds.2 : bool) then Some []
  else
    n ← local_node (fr_output_index x.2);
    v ← guard_val x.1 x.2;
    Some [((n, fr_dir x.2, strength_of ds.1), v)].
Definition gate_node (m : footprint_macro) (k : nat) : option nat := l ← fm_nodes m !! k; n ← l !! 0%nat; local_node n.
Definition macro_pulls (m : footprint_macro) : option pulls :=
  let gate (dir : bool) (f : pull_enum -> pull_enum -> pull_enum) :=
    if macro_args_ok m then
      g ← gate_node m 0; s ← gate_node m 1; t ← gate_node m 2;
      Some [((t, dir, NORMAL_RULE), f (nv g) (nv s))]
    else None in
  if String.eqb (fm_name m) "passn"%string then gate false (fun g s => k_and g (k_not s))
  else if String.eqb (fm_name m) "passp"%string then gate true (fun g s => k_and (k_not g) s)
  else Some [].
Definition invariant_val (ei : nat) : option pull_enum :=
  fst <$> fp_val nv nodes pfp None fuel (Some 0%nat) false ei.
End Footprint.
Definition assignment_pulls (rfp : rte_footprint) (r : footprint_assignment) : option pulls :=
  n ← local_node (fa_output_index r);
  v ← rte_val nv nodes rfp fuel (fa_expr_index r);
  Some [((n, true, NORMAL_RULE), v)].

(** Between two items. *)
Definition settled (P : pulls) (V : list pull_enum) (a : alloc_state) : Prop :=
  (exists R, planted nv a R P V) /\ ctl a = ctl (alloc_init graph_empty) /\
  length (local_faninout_map (al_g a)) = nodes.

Lemma local_node_spec ni n : local_node ni = Some n -> lookup_local_bool_id ni = Some n /\ (n < nodes)%nat.
Proof. unfold local_node. intros (m & -> & E)%bind_Some. destruct (Nat.ltb_spec m nodes); [|done]. by injection E as <-. Qed.
Lemma pool_at_le {A} (l : list A) i x : pool_at l i = Some x -> (i <= length l)%nat.
Proof. destruct i; [done|]. intros H%lookup_lt_Some. lia. Qed.
Lemma fp_val_index pfp dir ps src ei r : fp_val nv nodes pfp dir fuel ps src ei = Some r -> (ei <= length (pf_expr_pool pfp))%nat.
Proof. destruct fuel; [done|]. cbn [fp_val]. intros (e & He & _)%bind_Some. by eapply pool_at_le. Qed.
Lemma rte_val_index rfp ei r : rte_val nv nodes rfp fuel ei = Some r -> (ei <= length (rf_expr_pool rfp))%nat.
Proof. destruct fuel; [done|]. cbn [rte_val]. intros (e & He & _)%bind_Some. by eapply pool_at_le. Qed.

Lemma wp_visit_guard pfp ri r dummy v a : pool_ok a -> length (local_faninout_map (al_g a)) = nodes ->
  direction dummy = fr_dir r -> guard_val pfp ri r = Some v ->
  wp (visit_guard flags fuel pfp ri r dummy) (fun i a' => exists J, own ∅ J a a' /\ tree nv (al_g a') i J v /\
    top_ok false (al_g a') i /\ ctl a' = ctl a) a.
Proof.
  intros Hp Hn Hd E. unfold guard_val in E. apply bind_Some in E as (si & Hsi & E). apply bind_Some in E as (rv & Hrv & Hv).
  unfold visit_guard. rewrite (proj2 (Nat.leb_le _ _) (fp_val_index _ _ _ _ _ _ Hrv)).
  apply wpe_bind, wpe_ret, wp_saving, wpe_bind, wpe_modify. rewrite Hsi. apply wpe_bind, wpe_ret.
  apply wp_saving, wpe_bind, wpe_modify, wp_saving, wpe_bind, wpe_modify.
  set (ps := lookup_local_bool_id _) in *. set (src := if fr_dir r then dynamic_power_supply flags else _) in *.
  set (a0 := put_at_source src (put_power_supply ps (put_temp_rule (Some dummy) a))).
  assert (Hr : ready nodes (Some (fr_dir r)) ps src a0).
  { split; try done; [by eapply (pool_ok_heap a)|]. cbn. by rewrite Hd. }
  apply wpe_bind. eapply wpe_mono; [by eapply visit_expr_spec|]. intros i a1 Hvis.
  eapply wpe_mono; [by eapply wp_supplied|]. intros i' a2 (J & Ho & Ht & Htop & Hctl).
  destruct Hvis as (_ & _ & _ & Hctl1 & _). exists J. split_and!; [by eapply own_heap; [| |exact Ho]|done|done|].
  unfold ctl in *. cbn in *. congruence.
Qed.

Lemma strength_direction dir r : strength_of (set_direction dir r) = strength_of r.
Proof. unfold strength_of. destruct (put_direction_spec dir r) as (_ & _ & ->). done. Qed.

Lemma wp_rule pfp x l P V a : rule_pulls pfp x = Some l -> settled P V a ->
  wp (visit_rule flags d fuel pfp x.1 x.2) (fun _ => settled (P ++ l) V) a.
Proof.
  intros E [[R Hpl] [Hctl Hn]]. unfold rule_pulls in E. apply bind_Some in E as ([dummy s] & Hat & E). cbn [fst snd] in E.
  assert (Hsup : suppress_keeper_rule a = false) by (unfold ctl in Hctl; by injection Hctl).
  destruct (attributed_rule_spec _ _ _ _ _ a Hat Hsup) as (Hrun & Hdir & Hinv).
  unfold visit_rule. apply wpe_bind. unfold wpe at 1. rewrite Hrun. apply wpe_bind, wpe_gets.
  cbn [suppress_keeper_rule put_suppress]. destruct s.
  - injection E as <-. apply wpe_modify. rewrite app_nil_r. split_and!; [|unfold ctl in *; cbn in *; congruence|done].
    exists R. by eapply (planted_heap nv a).
  - apply bind_Some in E as (n & Hno & E). apply bind_Some in E as (v & Hv & [= <-]).
    apply local_node_spec in Hno as [Hno Hlt].
    assert (Hpl' : planted nv (put_suppress false a) R P V) by (by eapply (planted_heap nv a)).
    apply wpe_bind. eapply wpe_mono; [eapply (wp_visit_guard pfp x.1 x.2 dummy v); [apply Hpl'|done|done|done]|].
    intros i a1 (J & Ho & Ht & _ & Hctl1). rewrite Hno.
    eapply wpe_mono; [eapply (wp_link_root nv _ R P V); [exact Hpl'|exact Ho|exact Ht|done|cbn; lia]|].
    intros _ a2 (Hpl2 & Hctl2 & Hn2 & _). split_and!; [done| |by rewrite Hn2].
    rewrite Hctl2, Hctl1. unfold ctl in *. cbn in *. congruence.
Qed.

Lemma wp_assignment rfp r l P V a : assignment_pulls rfp r = Some l -> settled P V a ->
  wp (visit_assignment d fuel rfp r) (fun _ => settled (P ++ l) V) a.
Proof.
  intros E [[R Hpl] [Hctl Hn]]. unfold assignment_pulls in E. apply bind_Some in E as (n & Hno & E).
  apply bind_Some in E as (v & Hv & [= <-]). apply local_node_spec in Hno as [Hno Hlt].
  unfold visit_assignment. apply wpe_bind, wpe_gets.
  assert (suppress_keeper_rule a = false) as -> by (unfold ctl in Hctl; by injection Hctl).
  apply wpe_bind, wpe_ret. rewrite (proj2 (Nat.leb_le _ _) (rte_val_index _ _ _ Hv)). apply wpe_bind, wpe_ret, wpe_bind.
  assert (Hr : ready nodes (direction <$> temp_rule a) (power_supply a) false a).
  { split; try done; [apply Hpl|]. unfold ctl in Hctl. by injection Hctl. }
  eapply wpe_mono; [by eapply visit_rte_expr_spec|]. intros i a1 (J & Ho & Ht & Hctl1 & _). rewrite Hno.
  change NORMAL_RULE with (strength_of (set_direction true (Rule_make d))).
  eapply wpe_mono; [eapply (wp_link_root nv _ R P V); [exact Hpl|exact Ho|exact Ht|done|lia]|].
  intros _ a2 (Hpl2 & Hctl2 & Hn2 & _). split_and!; [done| |by rewrite Hn2].
  rewrite Hctl2, Hctl1. unfold ctl in *. cbn in *. congruence.
Qed.

Lemma wp_invariant pfp x v P V a : invariant_val pfp x.2 = Some v -> settled P V a ->
  wp (visit_invariant flags d fuel pfp x.1 x.2) (fun _ => settled P (V ++ [v])) a.
Proof.
  intros E [[R Hpl] [Hctl Hn]]. unfold invariant_val in E. apply fmap_Some in E as (r & Hr & ->).
  pose proof (fp_val_src _ _ _ _ _ _ _ _ Hr) as Hsrc. pose proof Hctl as Hc. unfold ctl in Hc. cbn in Hc.
  injection Hc as _ Ht0 Hps Hs0.
  assert (Hrd : ready nodes None (Some 0%nat) false a).
  { split; try done; [apply Hpl|by rewrite Ht0]. }
  unfold visit_invariant. apply wpe_bind. eapply wpe_mono; [by eapply visit_expr_spec|].
  intros i a1 (J & Ho & Ht & Hctl1 & Htop). eapply wpe_mono; [by eapply (wp_link_invariant nv d a R P V)|].
  intros _ a2 (Hpl2 & Hctl2 & Hn2). split_and!; [done| |by rewrite Hn2].
  rewrite Hctl2, Hctl1, Hsrc. unfold ctl in *. cbn in *. congruence.
Qed.
End Items.
(** The delay of a rule may change. *)
Lemma planted_rule nv a R P V ri r r' : planted nv a R P V -> rule_pool (al_g a) !! ri = Some r ->
  direction r' = direction r -> is_invariant r' = is_invariant r -> strength_of r' = strength_of r ->
  planted nv (put_g (set_rule_pool (<[ri := r']> (rule_pool (al_g a))) (al_g a)) a) R P V.
Proof.
  intros [H1 H2 H3 H4 H5 H6 H7 H8 H9] Hr Ed Ei Es. split; try done.
  - by eapply pool_ok_ext; [exact H1|..].
  - intros i x E. eapply tree_local; [by apply H3|]. done.
  - intros i x E. destruct (H6 _ _ E) as (e & gn & rl & Hc & Hrt & (rj & Hf & Hl) & Hout).
    destruct (decide (rj = ri)) as [->|Hne].
    + assert (rl = r) as -> by congruence. exists e, gn, r'. split_and!; [done|done| |].
      * exists ri. split; [done|]. cbn. rewrite list_lookup_insert_eq; [done|]. by eapply lookup_lt_Some.
      * rewrite Ed, Ei, Es. by destruct (rt_out x) as [[[] ]|].
    + exists e, gn, rl. split_and!; [done|done| |by destruct (rt_out x) as [[[] ]|]].
      exists rj. split; [done|]. cbn. by rewrite list_lookup_insert_ne.
Qed.

Lemma wp_gate_node pfp_m k n (nodes : nat) a (Q : nat -> alloc_state -> Prop) : gate_node nodes pfp_m k = Some n ->
  (forall x, lookup_local_bool_id x = Some n -> Q x a) -> wp (macro_node pfp_m k) Q a.
Proof.
  unfold gate_node, macro_node. intros (l & Hl & (x & Hx & [Hn _]%local_node_spec)%bind_Some)%bind_Some HQ.
  rewrite Hl. apply wpe_bind, wpe_ret. rewrite Hx. apply wpe_ret. by apply HQ.
Qed.

Section Gates.
Context (flags : ExprAllocFlags) (d : real_time) (fuel : nat) (nv : nat -> pull_enum) (nodes : nat).
#[local] Abbreviation settled := (settled nv nodes).

Lemma wp_pass_gate dir m g s t P V a : gate_node nodes m 0 = Some g -> gate_node nodes m 1 = Some s ->
  gate_node nodes m 2 = Some t -> settled P V a ->
  wp (pass_gate d dir m) (fun _ => settled (P ++ [((t, dir, NORMAL_RULE),
    if dir then k_and (k_not (nv g)) (nv s) else k_and (nv g) (k_not (nv s)))]) V) a.
Proof.
  intros Hg Hs Ht [[R Hpl] [Hctl Hn]].
  assert (Hgn : (g < nodes)%nat /\ (s < nodes)%nat /\ (t < nodes)%nat).
  { unfold gate_node in *. apply bind_Some in Hg as (? & _ & (? & _ & [_ ?]%local_node_spec)%bind_Some).
    apply bind_Some in Hs as (? & _ & (? & _ & [_ ?]%local_node_spec)%bind_Some).
    apply bind_Some in Ht as (? & _ & (? & _ & [_ ?]%local_node_spec)%bind_Some). done. }
  destruct Hgn as (Hgn & Hsn & Htn). unfold pass_gate.
  apply wpe_bind. eapply wp_gate_node; [exact Hg|]. intros xg Hxg.
  apply wpe_bind. rewrite Hxg. eapply wpe_mono; [apply (wp_literal nv a g); [apply Hpl|lia]|].
  intros ig a1 (Ho1 & Hg1 & _ & Hc1).
  apply wpe_bind. eapply wp_gate_node; [exact Hs|]. intros xs Hxs.
  apply wpe_bind. rewrite Hxs. eapply wpe_mono; [apply (wp_literal nv a1 s); [apply Ho1|by rewrite (own_nodes_length _ _ _ _ Ho1); lia]|].
  intros is2 a2 (Ho2 & Hs2 & _ & Hc2). destruct (own_more _ _ _ _ _ _ Ho1 Ho2) as [Ho12 Hd12].
  pose proof (ow_after _ _ _ _ Ho1) as Hl1. pose proof (ow_after _ _ _ _ Ho12) as Hl2.
  pose proof (own_tree _ _ _ _ _ _ _ _ Ho2 Hg1 Hl1 ltac:(set_solver)) as Hg2.
  apply wpe_bind. eapply wp_gate_node; [exact Ht|]. intros xt Hxt.
  set (vg := if dir then k_not (nv g) else nv g). set (vs := if dir then nv s else k_not (nv s)).
  assert (H3 : wp (allocate_new_not_expr (if dir then ig else is2)) (fun _ a3 => own ∅ {[ig; is2]} a a3 /\
    tree nv (al_g a3) ig {[ig]} vg /\ tree nv (al_g a3) is2 {[is2]} vs /\ ctl a3 = ctl a2) a2).
  { unfold vg, vs. destruct dir.
    - eapply wpe_mono; [eapply wp_not; [by eapply ow_pool|exact Hg2|set_solver]|].
      intros _ a3 (_ & Ho3 & Hg3 & Hc3 & _). split_and!; [eapply own_part; [exact Ho12|exact Ho3|set_solver]|done| |done].
      eapply own_tree; [exact Ho3|exact Hs2|set_solver|set_solver].
    - eapply wpe_mono; [eapply wp_not; [by eapply ow_pool|exact Hs2|set_solver]|].
      intros _ a3 (_ & Ho3 & Hs3 & Hc3 & _). split_and!; [eapply own_part; [exact Ho12|exact Ho3|set_solver]| |done|done].
      eapply own_tree; [exact Ho3|exact Hg2|set_solver|set_solver]. }
  apply wpe_bind. eapply wpe_mono; [exact H3|]. clear H3. intros _ a3 (Ho3 & Hg3 & Hs3 & Hc3).
  pose proof (ow_after _ _ _ _ Ho3) as Hl3.
  apply wpe_bind. eapply wpe_mono; [apply (wp_Nary nv a3 PRS_AND_EXPR_TYPE_ENUM 2); [by eapply ow_pool|lia|lia]|].
  intros pe a4 (Ho4 & Hn4 & Hc4). destruct (own_more _ _ _ _ _ _ Ho3 Ho4) as [Ho34 Hd34].
  pose proof (ow_after _ _ _ _ Ho34) as Hl4.
  pose proof (own_tree _ _ _ _ _ _ _ _ Ho4 Hg3 ltac:(set_solver) ltac:(set_solver)) as Hg4.
  pose proof (own_tree _ _ _ _ _ _ _ _ Ho4 Hs3 ltac:(set_solver) ltac:(set_solver)) as Hs4.
  apply wpe_bind. eapply wpe_mono; [eapply (wp_link nv a4 pe _ []); [by eapply ow_pool|exact Hn4|exact Hg4|set_solver|set_solver]|].
  intros _ a5 (Hn5 & Ho5 & Hc5). pose proof (own_part _ _ _ _ _ _ Ho34 Ho5 ltac:(set_solver)) as Ho35.
  pose proof (ow_after _ _ _ _ Ho35) as Hl5.
  pose proof (own_tree _ _ _ _ _ _ _ _ Ho5 Hs4 ltac:(set_solver) ltac:(set_solver)) as Hs5.
  apply wpe_bind. eapply wpe_mono; [eapply (wp_link nv a5 pe _ ([] ++ [(false, ig)])); [by eapply ow_pool|exact Hn5|exact Hs5|set_solver|set_solver]|].
  intros _ a6 (Hn6 & Ho6 & Hc6). pose proof (own_part _ _ _ _ _ _ Ho35 Ho6 ltac:(set_solver)) as Ho36.
  apply node_at_tree in Hn6; [|done..]. rewrite Hxt.
  replace ({[pe]} ∪ (∅ ∪ {[ig]} ∪ {[is2]})) with ({[ig; is2]} ∪ {[pe]} : gset nat) in Hn6 by set_solver.
  change NORMAL_RULE with (strength_of (Rule_make d)).
  apply wpe_bind. eapply wpe_mono; [eapply (wp_link_root nv a R P V a6); [exact Hpl|exact Ho36|exact Hn6|done|lia]|].
  intros _ a7 ([R7 Hpl7] & Hc7 & Hn7 & Hi7 & Hr7).
  apply wpe_bind, wpe_bind, wpe_gets. rewrite Hi7. apply wpe_ret, wpe_bind, wpe_bind, wpe_gets.
  assert (Hat : rule_pool (al_g a7) !! length (rule_pool (al_g a)) = Some (set_direction dir (Rule_make d))).
  { rewrite Hr7, lookup_app_r, Nat.sub_diag by done. done. }
  rewrite Hat. apply wpe_ret. unfold upd_g. apply wpe_modify. split_and!; [exists R7| |cbn; by rewrite Hn7].
  - replace (if dir then k_and (k_not (nv g)) (nv s) else k_and (nv g) (k_not (nv s))) with (k_and vg vs) by (unfold vg, vs; by destruct dir).
    replace (k_and vg vs) with (kleene (nary PRS_AND_EXPR_TYPE_ENUM 2) (([] ++ [vg]) ++ [vs])); [by eapply planted_rule|].
    unfold kleene. cbn. by destruct vg, vs.
  - change (ctl a7 = ctl (alloc_init graph_empty)). congruence.
Qed.

Lemma wp_macro m l P V a : macro_pulls nv nodes m = Some l -> settled P V a ->
  wp (visit_macro d m) (fun _ => settled (P ++ l) V) a.
Proof.
  unfold macro_pulls, visit_macro, PassN, PassP. intros E Hst.
  destruct (String.eqb (fm_name m) "passn").
  { destruct (macro_args_ok m); [|done]. apply wpe_bind, wpe_ret. apply bind_Some in E as (g & Hg & (s & Hs & (t & Ht & [= <-])%bind_Some)%bind_Some). by apply (wp_pass_gate false m g s t). }
  destruct (String.eqb (fm_name m) "passp").
  { destruct (macro_args_ok m); [|done]. apply wpe_bind, wpe_ret. apply bind_Some in E as (g & Hg & (s & Hs & (t & Ht & [= <-])%bind_Some)%bind_Some). by apply (wp_pass_gate true m g s t). }
  injection E as <-. apply wpe_ret. by rewrite app_nil_r.
Qed.

(** ** All the items of a type, in order *)
Lemma wp_items {X} (f : X -> option (list (pull_target * pull_enum))) (body : X -> AM unit) V :
  (forall x l P a, f x = Some l -> settled P V a -> wp (body x) (fun _ => settled (P ++ l) V) a) ->
  forall xs ls P a, mapM f xs = Some ls -> settled P V a -> wp (for_each xs body) (fun _ => settled (P ++ List.concat ls) V) a.
Proof.
  intros Hb. induction xs as [|x xs IH]; intros ls P a E Hst; cbn [for_each].
  - injection E as <-. apply wpe_ret. by rewrite app_nil_r.
  - cbn in E. apply bind_Some in E as (l & Hl & (ls' & Hls & [= <-])%bind_Some). apply wpe_bind.
    eapply wpe_mono; [by apply Hb|]. intros [] a1 H1. cbn [List.concat]. rewrite app_assoc. by apply IH.
Qed.
Lemma wp_invariants pfp xs : forall vs P V a, mapM (invariant_val fuel nv nodes pfp) xs.*2 = Some vs -> settled P V a ->
  wp (for_each xs (fun i => visit_invariant flags d fuel pfp i.1 i.2)) (fun _ => settled P (V ++ vs)) a.
Proof.
  induction xs as [|x xs IH]; intros vs P V a E Hst; cbn [for_each].
  - injection E as <-. apply wpe_ret. by rewrite app_nil_r.
  - cbn in E. apply bind_Some in E as (v & Hv & (vs' & Hvs & [= <-])%bind_Some). apply wpe_bind.
    eapply wpe_mono; [by eapply wp_invariant|]. intros [] a1 H1. change (v :: vs') with ([v] ++ vs'). rewrite app_assoc. by apply IH.
Qed.

Definition prs_pulls (pfp : prs_footprint) : option (list (pull_target * pull_enum)) :=
  rs ← mapM (rule_pulls flags d fuel nv nodes pfp) (indexed (pf_rule_pool pfp));
  ms ← mapM (macro_pulls nv nodes) (pf_macro_pool pfp);
  Some (List.concat rs ++ List.concat ms).
Definition prs_invariants (pfp : prs_footprint) : option (list pull_enum) :=
  mapM (invariant_val fuel nv nodes pfp) (pf_invariant_pool pfp).
Definition rte_pulls (rfp : rte_footprint) : option (list (pull_target * pull_enum)) :=
  @List.concat _ <$> mapM (assignment_pulls fuel nv nodes rfp) (rf_assignment_pool rfp).

Lemma indexed_snd {A} (l : list A) : (indexed l).*2 = l.
Proof.
  unfold indexed. generalize 0%nat as k. induction l as [|x l IH]; intros k; [done|]. cbn. by rewrite IH.
Qed.

(** The guards that pull the nodes of a type, and its invariants. *)
Definition type_pulls (pfp : option prs_footprint) (rfp : option rte_footprint) : option (list (pull_target * pull_enum)) :=
  ps ← from_option prs_pulls (Some []) pfp; rs ← from_option rte_pulls (Some []) rfp; Some (ps ++ rs).
Definition type_invariants (pfp : option prs_footprint) : option (list pull_enum) :=
  from_option prs_invariants (Some []) pfp.

Lemma wp_visit_rules pfp rfp P V a : type_pulls pfp rfp = Some P -> type_invariants pfp = Some V -> settled [] [] a ->
  wp (visit_rules flags d fuel pfp rfp) (fun _ => settled P V) a.
Proof.
  unfold type_pulls. intros (ps & Hps & (rs & Hrs & [= <-])%bind_Some)%bind_Some HV Hst. unfold visit_rules.
  apply wpe_bind. assert (H1 : wp (match pfp with Some p => visit_prs flags d fuel p | None => ret tt end)
    (fun _ => settled ps V) a).
  { destruct pfp as [p|]; cbn [from_option] in Hps, HV; [|injection Hps as <-; injection HV as <-; exact Hst].
    apply bind_Some in Hps as (ls & Hls & (ms & Hms & [= <-])%bind_Some). unfold visit_prs.
    apply wpe_bind. eapply wpe_mono; [eapply (wp_items (rule_pulls flags d fuel nv nodes p)); [|exact Hls|exact Hst]|].
    { intros x l P a' E H. by eapply wp_rule. }
    intros [] a1 H1. apply wpe_bind. eapply wpe_mono; [eapply (wp_items (macro_pulls nv nodes)); [|exact Hms|exact H1]|].
    { intros x l P a' E H. by eapply wp_macro. }
    intros [] a2 H2. eapply wpe_mono; [eapply (wp_invariants p _ V); [by rewrite indexed_snd|exact H2]|]. done. }
  eapply wpe_mono; [exact H1|]. intros [] a1 Hst1. destruct rfp as [r|]; cbn in Hrs.
  - apply fmap_Some in Hrs as (ls & Hls & ->). unfold visit_rte.
    eapply (wp_items (assignment_pulls fuel nv nodes r)); [|exact Hls|exact Hst1].
    intros x l P a' E H. by eapply wp_assignment.
  - injection Hrs as <-. apply wpe_ret. by rewrite app_nil_r.
Qed.
End Gates.
