(* ===== verification/ExprCompact.v ===== *)
(** Compaction of the pools of expressions, [compact_expr_pools] of
    "ExprAlloc.v": it renames the entries of a forest, and leaves no hole.

    The loop moves one entry at a time.  Its invariant, [renamed], says that
    the graph is the original one under a permutation of the indices, which
    every move composes with a transposition. *)
From S2P Require Import Prelude SimTime PullSet Expr OrdMap Node ProcGraph EvalProps.
From S2P Require Import ExprAlloc ExprTree ExprBuild ExprFold ExprForest.
From stdpp Require Import gmap.
Open Scope Z_scope.
Local Open Scope hackt_scope.
#[local] Abbreviation length := Datatypes.length.

(** ** Erasing from an ordered map *)
Lemma m_find_above (m : list (nat * nat)) k : Forall (fun x => key_ltb k x.1 = true) m -> m_find k m = None.
Proof.
  induction 1 as [|[x y] m Hx _ IH]; [done|]. cbn [m_find fst] in *.
  by rewrite (proj1 (key_ltb_eqb_false _ _ Hx)).
Qed.
Lemma m_find_erase (m : list (nat * nat)) k j : m_sorted m ->
  m_find j (m_erase k m) = if decide (j = k) then None else m_find j m.
Proof.
  induction 1 as [|[x y] m Hs IH Hf]; cbn [m_erase m_find]; [by destruct (decide _)|].
  destruct (key_eqb k x) eqn:E.
  - apply key_eqb_eq in E as ->. destruct (decide (j = x)) as [->|Hne]; [by apply m_find_above|].
    by rewrite key_eqb_neq.
  - cbn [m_find]. rewrite IH. destruct (decide (j = k)) as [->|]; [|done]. by rewrite E.
Qed.
Lemma m_erase_elem (m : list (nat * nat)) k x : x ∈ m_erase k m -> x ∈ m.
Proof.
  induction m as [|[a b] m IH]; cbn; [done|]. destruct (key_eqb k a); [by right|].
  intros [->|Hx]%elem_of_cons; [by left|right; by apply IH].
Qed.
Lemma m_erase_sorted (m : list (nat * nat)) k : m_sorted m -> m_sorted (m_erase k m).
Proof.
  induction 1 as [|[a b] m Hs IH Hf]; cbn; [constructor|]. destruct (key_eqb k a); [done|]. constructor; [done|].
  rewrite Forall_forall in Hf |- *. intros x Hx. apply Hf. by eapply m_erase_elem.
Qed.

(** ** Renaming *)
Lemma disjoint_map (f : nat -> nat) `{!Inj (=) (=) f} (X Y : gset nat) : X ## Y ->
  (set_map f X : gset nat) ## (set_map f Y : gset nat).
Proof. intros Hd x (y & -> & Hy)%elem_of_map (z & E & Hz)%elem_of_map. apply (inj f) in E as ->. by apply (Hd z). Qed.
Definition swap (i n x : nat) : nat := if Nat.eqb x i then n else if Nat.eqb x n then i else x.
Lemma swap_invol i n x : swap i n (swap i n x) = x.
Proof.
  unfold swap. destruct (Nat.eqb_spec x i) as [->|Hi].
  - rewrite Nat.eqb_refl. by destruct (Nat.eqb_spec n i).
  - destruct (Nat.eqb_spec x n) as [->|Hn]; [by rewrite Nat.eqb_refl|].
    by rewrite (proj2 (Nat.eqb_neq _ _) Hi), (proj2 (Nat.eqb_neq _ _) Hn).
Qed.
#[local] Instance swap_inj i n : Inj (=) (=) (swap i n).
Proof. intros x y E. by rewrite <- (swap_invol i n x), E, swap_invol. Qed.

Definition ren_child (f : nat -> nat) (c : child_entry) : child_entry := if c.1 then c else (false, f c.2).
Definition ren_expr (f : nat -> nat) (e : Expr) : Expr := if is_root e then e else set_parent e (f (e_parent e)).
Definition ren_node (f : nat -> nat) (gn : ExprGraphNode) : ExprGraphNode :=
  mkExprGraphNode (g_offset gn) (map (ren_child f) (g_children gn)).
Definition ren_fan (f : nat -> nat) (x : faninout_struct_type) : faninout_struct_type :=
  mkFaninout (map f (f_pull_up x)) (map f (f_pull_up_weak x)) (map f (f_pull_dn x)) (map f (f_pull_dn_weak x))
    (map f (f_fanout x)) (f_is_atomic x).
Lemma ren_fan_pulls f b w x : get_pull_expr b w (ren_fan f x) = map f (get_pull_expr b w x).
Proof. by destruct b, w. Qed.
Lemma ren_expr_spec f e : is_root (ren_expr f e) = is_root e /\ is_not (ren_expr f e) = is_not e /\
  is_disjunctive (ren_expr f e) = is_disjunctive e /\ e_size (ren_expr f e) = e_size e /\
  (is_root e = false -> e_parent (ren_expr f e) = f (e_parent e)) /\ (is_root e = true -> ren_expr f e = e).
Proof. unfold ren_expr. destruct (is_root e) eqn:E; by split_and!. Qed.

(** [b] is [a] with the live entries [k] of [a] at [f k]. *)
Record renamed (f : nat -> nat) (a b : alloc_state) : Prop := {
  rn_inj : Inj (=) (=) f;
  rn_cells : forall k e gn, k ∈ live a -> cell (al_g a) k = Some (e, gn) ->
    cell (al_g b) (f k) = Some (ren_expr f e, ren_node f gn);
  rn_fans : local_faninout_map (al_g b) = map (ren_fan f) (local_faninout_map (al_g a));
  rn_rules : rule_pool (al_g b) = rule_pool (al_g a);
  rn_sorted : m_sorted (rule_map (al_g b));
  rn_map : forall k, k ∈ live a -> m_find (f k) (rule_map (al_g b)) = m_find k (rule_map (al_g a));
  rn_only : forall j, (forall k, k ∈ live a -> f k <> j) -> m_find j (rule_map (al_g b)) = None
}.

(** ** A renamed forest without holes is a forest *)
Section Renamed.
Context (nv : nat -> pull_enum) (a b : alloc_state) (f : nat -> nat) (Hf : renamed f a b).
#[local] Instance f_inj : Inj (=) (=) f := rn_inj _ _ _ Hf.

Lemma tree_renamed_mut :
  (forall i J v, tree nv (al_g a) i J v -> J ⊆ live a -> tree nv (al_g b) (f i) (set_map f J) v) /\
  (forall p j cs J vs, branches nv (al_g a) p j cs J vs -> J ⊆ live a ->
    branches nv (al_g b) (f p) j (map (ren_child f) cs) (set_map f J) vs).
Proof.
  apply (tree_branches_ind nv (al_g a)
    (fun i J v _ => J ⊆ live a -> tree nv (al_g b) (f i) (set_map f J) v)
    (fun p j cs J vs _ => J ⊆ live a -> branches nv (al_g b) (f p) j (map (ren_child f) cs) (set_map f J) vs)).
  - intros i e gn J vs Hc Hfu Hi _ IH Hl. destruct (ren_expr_spec f e) as (_ & Hn & Hd & Hs & _).
    rewrite set_map_union_L, set_map_singleton_L. rewrite <- (kleene_bits e (ren_expr f e) vs Hn Hd).
    eapply (tree_expr _ _ _ _ (ren_node f gn)).
    + apply (rn_cells _ _ _ Hf); [set_solver|done].
    + unfold full in *. cbn. rewrite length_map, Hs. destruct Hfu as (? & Hne & ?). split_and!; [done| |done].
      by destruct (g_children gn).
    + intros (x & Ex & Hx)%elem_of_map. apply (inj f) in Ex. congruence.
    + apply IH. set_solver.
  - intros p j Hl. rewrite set_map_empty. constructor.
  - intros p j n cs J vs _ IH Hl. constructor. by apply IH.
  - intros p j k cs Jk J v vs Ht IHk Hco Hd _ IH Hl. rewrite set_map_union_L. cbn [map].
    change (ren_child f (false, k)) with (false, f k). apply union_subseteq in Hl as [Hlk Hl].
    constructor; [by apply IHk| |apply (disjoint_map f); exact Hd|by apply IH].
    destruct Hco as (e & gn & Hc & Hr & Hp & Ho). destruct (ren_expr_spec f e) as (Hr' & _ & _ & _ & Hp' & _).
    exists (ren_expr f e), (ren_node f gn). split_and!.
    + apply (rn_cells _ _ _ Hf); [|done]. apply tree_top in Ht. by apply Hlk.
    + congruence.
    + rewrite Hp' by done. congruence.
    + done.
Qed.

Context (Hfree : expr_free_list b = []) (Hlen : length (expr_pool (al_g b)) = length (expr_graph_node_pool (al_g b))).
Context (Honto : forall j, (j < length (expr_pool (al_g b)))%nat <-> exists k, k ∈ live a /\ j = f k).
Context (R : gmap nat root_info) (P : list (pull_target * pull_enum)) (V : list pull_enum) (Hpl : planted nv a R P V).

Definition ren_root (r : root_info) : root_info := mkRoot (set_map f (rt_tree r)) (rt_val r) (rt_out r).
Definition ren_roots : gmap nat root_info := kmap f (ren_root <$> R).
Lemma ren_roots_lookup i r : ren_roots !! i = Some r <-> exists i0 r0, i = f i0 /\ r = ren_root r0 /\ R !! i0 = Some r0.
Proof.
  unfold ren_roots. rewrite lookup_kmap_Some by apply _. setoid_rewrite lookup_fmap_Some. naive_solver.
Qed.
Lemma root_live i r : R !! i = Some r -> i ∈ live a.
Proof.
  intros E. apply (pl_live _ _ _ _ _ Hpl). exists i, r. split; [done|]. eapply tree_top, (pl_tree _ _ _ _ _ Hpl _ _ E).
Qed.
Lemma leaf_live n i : leaf_in (al_g a) n i -> i ∈ live a.
Proof.
  intros (e & gn & Hc & Hn). apply elem_of_live. split; [apply cell_inv in Hc as [Hc _]; by eapply lookup_lt_Some|].
  intros Hi. destruct (po_free _ (pl_pool _ _ _ _ _ Hpl) _ Hi) as (e' & gn' & Hc' & _ & Hch). simplify_eq.
  rewrite Hch in Hn. by apply elem_of_nil in Hn.
Qed.
Lemma fan_renamed n j : fan_in (al_g b) n j <-> exists i, j = f i /\ fan_in (al_g a) n i.
Proof.
  unfold fan_in. rewrite (rn_fans _ _ _ Hf), lookup_map. split.
  - intros (x & (x0 & Hx0 & ->)%fmap_Some & Hj). cbn in Hj. apply list_elem_of_In, in_map_iff in Hj as (i & <- & Hi).
    exists i. split; [done|]. exists x0. split; [done|]. by apply list_elem_of_In.
  - intros (i & -> & x0 & -> & Hi). eexists. split; [done|]. cbn. apply list_elem_of_In, in_map_iff.
    exists i. split; [done|]. by apply list_elem_of_In.
Qed.
Lemma leaf_renamed n i e gn : i ∈ live a -> cell (al_g a) i = Some (e, gn) ->
  leaf_in (al_g b) n (f i) <-> (true, n) ∈ g_children gn.
Proof.
  intros Hi Hc. unfold leaf_in. rewrite (rn_cells _ _ _ Hf _ _ _ Hi Hc). split.
  - intros (? & ? & [= <- <-] & Hn). cbn in Hn. apply list_elem_of_In, in_map_iff in Hn as ([[] x] & E & Hx); [|done].
    injection E as <-. by apply list_elem_of_In.
  - intros Hn. eexists _, _. split; [done|]. cbn. apply list_elem_of_In, in_map_iff. exists (true, n).
    split; [done|]. by apply list_elem_of_In.
Qed.

Lemma planted_renamed : planted nv b ren_roots P V.
Proof.
  assert (Hlive : forall j, j ∈ live b <-> exists k, k ∈ live a /\ j = f k).
  { intros j. rewrite elem_of_live, Hfree, Honto. split; [by intros [? _]|]. intros ?. split; [done|by intros ?%elem_of_nil]. }
  pose proof (pl_pool _ _ _ _ _ Hpl) as Hp. split.
  - split; [done|rewrite Hfree; constructor|intros i; rewrite Hfree; by intros ?%elem_of_nil|].
    intros n j. rewrite fan_renamed. split.
    + intros (i & -> & Hi). apply (po_fan _ Hp) in Hi as Hl. pose proof (leaf_live _ _ Hl).
      destruct Hl as (e & gn & Hc & Hn). by eapply leaf_renamed.
    + intros Hj. assert (exists k, k ∈ live a /\ j = f k) as (k & Hk & ->).
      { apply Honto. destruct Hj as (e & gn & [Hc _]%cell_inv & _). by eapply lookup_lt_Some. }
      exists k. split; [done|]. apply (po_fan _ Hp). destruct (live_cell _ _ Hp Hk) as (e & gn & Hc).
      exists e, gn. split; [done|]. by eapply leaf_renamed.
  - apply Hf.
  - intros i r (i0 & r0 & -> & -> & E)%ren_roots_lookup. cbn. apply tree_renamed_mut; [by apply Hpl|].
    intros k Hk. apply (pl_live _ _ _ _ _ Hpl). by exists i0, r0.
  - intros i j r r' (i0 & r0 & -> & -> & E)%ren_roots_lookup (j0 & r1 & -> & -> & E')%ren_roots_lookup Hne. cbn.
    apply (disjoint_map f). eapply (pl_disjoint _ _ _ _ _ Hpl); [done..|congruence].
  - intros k. rewrite Hlive. setoid_rewrite (pl_live _ _ _ _ _ Hpl). split.
    + intros (k0 & (i & r & E & Hk) & ->). exists (f i), (ren_root r). split; [apply ren_roots_lookup; naive_solver|].
      cbn. set_solver.
    + intros (i & r & (i0 & r0 & -> & -> & E)%ren_roots_lookup & (k0 & -> & Hk)%elem_of_map). exists k0. naive_solver.
  - intros i r (i0 & r0 & -> & -> & E)%ren_roots_lookup. pose proof (root_live _ _ E) as Hl.
    destruct (pl_root _ _ _ _ _ Hpl _ _ E) as (e & gn & rl & Hc & Hr & (ri & Hm & Hrl) & Hout).
    destruct (ren_expr_spec f e) as (Hr' & _ & _ & _ & _ & He). specialize (He Hr).
    exists e, (ren_node f gn), rl. split_and!; [rewrite (rn_cells _ _ _ Hf _ _ _ Hl Hc), He; done|done| |].
    + exists ri. by rewrite (rn_map _ _ _ Hf), (rn_rules _ _ _ Hf).
    + cbn. destruct (rt_out r0) as [[[n d] w]|]; [|done]. destruct Hout as (? & ? & ? & ? & x & Hx & Hi). split_and!; try done.
      exists (ren_fan f x). rewrite (rn_fans _ _ _ Hf), lookup_map, Hx, ren_fan_pulls. split; [done|].
      apply list_elem_of_In, in_map_iff. exists i0. split; [done|]. by apply list_elem_of_In.
  - intros i ri Hm. destruct (decide (Exists (fun k => f k = i) (elements (live a)))) as [Hex|Hnex].
    + apply Exists_exists in Hex as (k & Hk%elem_of_elements & <-). rewrite (rn_map _ _ _ Hf) in Hm by done.
      apply (pl_rules _ _ _ _ _ Hpl) in Hm as [r E]. exists (ren_root r). apply ren_roots_lookup. naive_solver.
    + exfalso. rewrite (rn_only _ _ _ Hf) in Hm; [done|]. intros k Hk E. apply Hnex, Exists_exists. exists k.
      by rewrite elem_of_elements.
  - intros n x b' w Hx. rewrite (rn_fans _ _ _ Hf), lookup_map in Hx. apply fmap_Some in Hx as (x0 & Hx0 & ->).
    rewrite ren_fan_pulls. destruct (pl_pulls _ _ _ _ _ Hpl _ _ b' w Hx0) as [Hnd Hall]. split.
    + apply NoDup_ListNoDup, Finite.Injective_map_NoDup; [|by apply NoDup_ListNoDup]. intros ? ? ?. by apply (inj f).
    + clear Hnd. induction Hall as [|i v l l' (r & E & Ho & Hv) _ IH]; cbn; constructor; [|done].
      exists (ren_root r). split; [apply ren_roots_lookup; naive_solver|done].
  - intros v (i & r & E & Ho & Hv)%(pl_invs _ _ _ _ _ Hpl). exists (f i), (ren_root r).
    split; [apply ren_roots_lookup; naive_solver|done].
Qed.
End Renamed.

(** ** Redirecting the children of an entry *)
Lemma replace_idem i n l : i <> n -> replace i n (replace i n l) = replace i n l.
Proof.
  intros Hne. unfold replace. rewrite map_map. apply map_ext. intros x.
  destruct (Nat.eqb_spec x i) as [->|Hx]; [by rewrite (proj2 (Nat.eqb_neq n i)) by congruence|].
  by rewrite (proj2 (Nat.eqb_neq x i) Hx).
Qed.
Definition redirect (n : nat) (c : entry) : entry := (set_parent c.1 n, c.2).
Definition refan (i n : nat) (x : faninout_struct_type) : faninout_struct_type := set_fanout (replace i n (f_fanout x)) x.
Lemma refan_idem i n x : i <> n -> refan i n (refan i n x) = refan i n x.
Proof. intros Hne. unfold refan, set_fanout. cbn [f_fanout f_pull_up f_pull_up_weak f_pull_dn f_pull_dn_weak f_is_atomic]. by rewrite replace_idem. Qed.
(** What a move leaves alone. *)
Definition core (b : alloc_state) := (rule_pool (al_g b), rule_map (al_g b), expr_free_list b,
  length (expr_pool (al_g b)), length (expr_graph_node_pool (al_g b)), length (local_faninout_map (al_g b)), ctl b).

Lemma wp_relink_children i n cs : i <> n -> forall b,
  (forall k, (false, k) ∈ cs -> is_Some (cell (al_g b) k)) ->
  (forall m, (true, m) ∈ cs -> is_Some (local_faninout_map (al_g b) !! m)) ->
  wp (for_each cs (relink_child i n)) (fun _ b' => core b' = core b /\
    (forall k, cell (al_g b') k = if decide ((false, k) ∈ cs) then redirect n <$> cell (al_g b) k else cell (al_g b) k) /\
    (forall m, local_faninout_map (al_g b') !! m = if decide ((true, m) ∈ cs)
      then refan i n <$> local_faninout_map (al_g b) !! m else local_faninout_map (al_g b) !! m)) b.
Proof.
  intros Hne. induction cs as [|[[] c] cs IH]; intros b Hk Hm; cbn [for_each].
  - apply wpe_ret. split_and!; [done|..]; intros x; by rewrite decide_False by apply not_elem_of_nil.
  - apply wpe_bind. unfold relink_child at 1. cbn [fst snd]. destruct (Hm c) as [x Hx]; [by left|].
    eapply wp_upd_faninout; [exact Hx|]. change (set_fanout _ x) with (refan i n x). set (b1 := put_g _ b).
    assert (Hf1 : forall m, local_faninout_map (al_g b1) !! m = if decide (m = c)
      then refan i n <$> local_faninout_map (al_g b) !! m else local_faninout_map (al_g b) !! m).
    { intros m. cbn. destruct (decide (m = c)) as [->|Hmc]; [|by rewrite list_lookup_insert_ne].
      rewrite list_lookup_insert_eq by (by eapply lookup_lt_Some). by rewrite Hx. }
    eapply wpe_mono; [apply (IH b1)|].
    + intros k Hin. apply Hk. by right.
    + intros m Hin. rewrite Hf1. destruct (decide (m = c)); [apply fmap_is_Some|]; apply Hm; by right.
    + intros _ b2 (Hco & Hc & Hf). split_and!.
      * rewrite Hco. unfold core. cbn. by rewrite length_insert.
      * intros k. rewrite Hc. change (cell (al_g b1) k) with (cell (al_g b) k).
        destruct (decide ((false, k) ∈ cs)) as [Hi|Hi]; destruct (decide ((false, k) ∈ (true, c) :: cs)) as [Hj|Hj]; try done.
        -- exfalso. apply Hj. by right.
        -- apply elem_of_cons in Hj as [|]; done.
      * intros m. rewrite Hf, !Hf1. destruct (decide ((true, m) ∈ cs)) as [Hi|Hi], (decide (m = c)) as [->|Hmc];
          destruct (decide (_ ∈ (true, c) :: cs)) as [Hj|Hj]; try done.
        -- rewrite Hx. cbn [fmap option_fmap option_map]. by rewrite refan_idem.
        -- exfalso. apply Hj. by left.
        -- exfalso. apply Hj. by right.
        -- exfalso. apply Hj. by left.
        -- apply elem_of_cons in Hj as [[=]|]; [congruence|done].
  - apply wpe_bind. unfold relink_child at 1. cbn [fst snd]. destruct (Hk c) as [[e gn] Hc]; [by left|].
    eapply wp_upd_expr; [exact Hc|]. set (b1 := put_g _ b).
    assert (Hc1 : forall k, cell (al_g b1) k = if decide (k = c) then redirect n <$> cell (al_g b) k else cell (al_g b) k).
    { intros k. cbn [al_g put_g b1]. rewrite (cell_set_cell _ _ _ _ _ Hc). destruct (decide (k = c)) as [->|]; [|done].
      by rewrite Hc. }
    eapply wpe_mono; [apply (IH b1)|].
    + intros k Hin. rewrite Hc1. destruct (decide (k = c)); [apply fmap_is_Some|]; apply Hk; by right.
    + intros m Hin. apply (Hm m). by right.
    + intros _ b2 (Hco & Hce & Hf). split_and!.
      * rewrite Hco. unfold core. cbn. by rewrite !length_insert.
      * intros k. rewrite Hce, !Hc1. destruct (decide ((false, k) ∈ cs)) as [Hi|Hi], (decide (k = c)) as [->|Hmc];
          destruct (decide (_ ∈ (false, c) :: cs)) as [Hj|Hj]; try done.
        -- by rewrite Hc.
        -- exfalso. apply Hj. by left.
        -- exfalso. apply Hj. by right.
        -- exfalso. apply Hj. by left.
        -- apply elem_of_cons in Hj as [[=]|]; [congruence|done].
      * intros m. rewrite Hf. change (local_faninout_map (al_g b1)) with (local_faninout_map (al_g b)).
        destruct (decide ((true, m) ∈ cs)) as [Hi|Hi]; destruct (decide ((true, m) ∈ (false, c) :: cs)) as [Hj|Hj]; try done.
        -- exfalso. apply Hj. by right.
        -- apply elem_of_cons in Hj as [|]; done.
Qed.

(** ** One move *)
Lemma ren_children_ext f f' cs : (forall j q, cs !! j = Some (false, q) -> f' q = f q) ->
  map (ren_child f') cs = map (ren_child f) cs.
Proof.
  intros H. apply list_eq. intros j. rewrite !lookup_map. destruct (cs !! j) as [[[] q]|] eqn:E; cbn; [done| |done].
  unfold ren_child. cbn. by rewrite (H _ _ E).
Qed.
Lemma fan_ext x y : (forall b w, get_pull_expr b w x = get_pull_expr b w y) -> f_fanout x = f_fanout y ->
  f_is_atomic x = f_is_atomic y -> x = y.
Proof.
  intros Hp Hf Ha. pose proof (Hp true NORMAL_RULE). pose proof (Hp true WEAK_RULE). pose proof (Hp false NORMAL_RULE).
  pose proof (Hp false WEAK_RULE). destruct x, y. cbn in *. congruence.
Qed.
Definition moved_map (i n : nat) (m : list (nat * nat)) : list (nat * nat) :=
  match m_find i m with Some ri => m_erase i (m_set n ri m) | None => m end.
Lemma wp_move_rule i n b (Q : unit -> alloc_state -> Prop) :
  Q tt (put_g (set_rule_map (moved_map i n (rule_map (al_g b))) (al_g b)) b) -> wp (move_rule i n) Q b.
Proof.
  unfold move_rule, upd_g, moved_map. intros HQ. apply wpe_modify. destruct (m_find i (rule_map (al_g b))); [done|].
  by destruct b as [[] ? ? ? ? ?].
Qed.
Lemma moved_map_spec i n m : i <> n -> m_sorted m -> m_find n m = None -> m_sorted (moved_map i n m) /\
  forall j, m_find j (moved_map i n m) = if decide (j = i) then None else if decide (j = n) then m_find i m else m_find j m.
Proof.
  intros Hne Hs Hn. unfold moved_map. destruct (m_find i m) as [ri|] eqn:Ei.
  - split; [by apply m_erase_sorted, m_set_sorted|]. intros j. rewrite m_find_erase by (by apply m_set_sorted).
    destruct (decide (j = i)); [done|]. rewrite m_find_set. destruct (decide (j = n)) as [->|]; [by rewrite key_eqb_refl|].
    by rewrite key_eqb_neq.
  - split; [done|]. intros j. destruct (decide (j = i)) as [->|]; [done|]. by destruct (decide (j = n)) as [->|].
Qed.

Definition after_move (i n : nat) (f : nat -> nat) (k : nat) : nat := swap i n (f k).
Section Move.
Context (nv : nat -> pull_enum) (a : alloc_state) (R : gmap nat root_info) (P : list (pull_target * pull_enum))
  (V : list pull_enum) (Hpl : planted nv a R P V).

Lemma entry_facts k e gn : k ∈ live a -> cell (al_g a) k = Some (e, gn) -> full e gn /\
  (is_root e = false -> exists pe pgn, e_parent e ∈ live a /\ e_parent e <> k /\
    cell (al_g a) (e_parent e) = Some (pe, pgn) /\ g_children pgn !! g_offset gn = Some (false, k)) /\
  (is_root e = true -> exists r, R !! k = Some r).
Proof.
  intros Hk Hc. destruct (live_entry _ _ _ _ _ Hpl _ Hk) as (r0 & r & E & Hin & (e' & gn' & Hc' & Hfu & _) & Hor).
  assert (e' = e) as -> by congruence. assert (gn' = gn) as -> by congruence. split; [done|].
  destruct Hor as [->|(e' & gn' & pe & pgn & Hc2 & Hr & Hp & Hne & Hpc & Hch)].
  - rewrite (root_of_tree _ _ _ _ _ Hpl _ _ _ _ Hc E). split; [done|]. by exists r.
  - assert (e' = e) as -> by congruence. assert (gn' = gn) as -> by congruence. rewrite Hr. split; [|done].
    intros _. exists pe, pgn. split_and!; try done. apply (pl_live _ _ _ _ _ Hpl). by exists r0, r.
Qed.
Lemma child_facts k e gn j q : k ∈ live a -> cell (al_g a) k = Some (e, gn) -> g_children gn !! j = Some (false, q) ->
  q ∈ live a /\ q <> k /\ child_of (al_g a) q k j.
Proof.
  intros Hk Hc Hj. destruct (live_entry _ _ _ _ _ Hpl _ Hk) as (r0 & r & E & Hin & (e' & gn' & Hc' & Hfu & Hch) & _).
  assert (e' = e) as -> by congruence. assert (gn' = gn) as -> by congruence. destruct (Hch _ _ Hj) as [Hq Hco].
  assert (q ∈ live a) by (apply (pl_live _ _ _ _ _ Hpl); by exists r0, r). split_and!; [done| |done].
  destruct Hco as (eq & gnq & Hcq & Hr & Hpq & _). destruct (entry_facts _ _ _ H Hcq) as (_ & Hpar & _).
  destruct (Hpar Hr) as (_ & _ & _ & Hne & _). congruence.
Qed.
Lemma pulled_out k m x d w : local_faninout_map (al_g a) !! m = Some x -> k ∈ get_pull_expr d w x ->
  exists r, R !! k = Some r /\ rt_out r = Some (m, d, w).
Proof.
  intros Hx Hk. destruct (pl_pulls _ _ _ _ _ Hpl _ _ d w Hx) as [_ Hall]. apply list_elem_of_lookup_1 in Hk as [j Hj].
  destruct (Forall2_lookup_l _ _ _ _ _ Hall Hj) as (v & _ & r & ? & ? & _). by exists r.
Qed.
Lemma fanned_live k m x : local_faninout_map (al_g a) !! m = Some x -> k ∈ f_fanout x -> k ∈ live a.
Proof. intros Hx Hk. eapply leaf_live; [done|]. apply (po_fan _ (pl_pool _ _ _ _ _ Hpl)). by exists x. Qed.

Context (b : alloc_state) (f : nat -> nat) (Hf : renamed f a b).
Context (i n : nat) (Hi : i ∈ live a) (Hfi : f i = i) (Hn : forall k, k ∈ live a -> f k <> n).
#[local] Instance f_inj' : Inj (=) (=) f := rn_inj _ _ _ Hf.
#[local] Abbreviation f' := (after_move i n f).

Lemma moved_at k : k ∈ live a -> f' k = if decide (k = i) then n else f k.
Proof.
  intros Hk. unfold after_move, swap. destruct (decide (k = i)) as [->|Hne]; [by rewrite Hfi, Nat.eqb_refl|].
  rewrite (proj2 (Nat.eqb_neq (f k) i)), (proj2 (Nat.eqb_neq (f k) n)); [done|by apply Hn|].
  intros E. apply Hne, (inj f). congruence.
Qed.
Lemma moved_i : f' i = n.
Proof. by rewrite moved_at, decide_True. Qed.
Lemma moved_other k : k ∈ live a -> k <> i -> f' k = f k.
Proof. intros Hk Hne. by rewrite moved_at, decide_False. Qed.
Lemma i_not_n : i <> n.
Proof. rewrite <- Hfi at 1. by apply Hn. Qed.
(** A list of entries after the move. *)
Lemma replace_moved l : (forall k, k ∈ l -> k ∈ live a) -> replace i n (map f l) = map f' l.
Proof.
  intros Hl. unfold replace. rewrite map_map. apply map_ext_in. intros k Hk%list_elem_of_In%Hl.
  rewrite moved_at by done. destruct (decide (k = i)) as [->|Hne]; [by rewrite Hfi, Nat.eqb_refl|].
  rewrite (proj2 (Nat.eqb_neq (f k) i)); [done|]. intros E. apply Hne, (inj f). congruence.
Qed.
Lemma map_moved l : (forall k, k ∈ l -> k ∈ live a) -> i ∉ l -> map f' l = map f l.
Proof.
  intros Hl Hni. apply map_ext_in. intros k Hk%list_elem_of_In. apply moved_other; [by apply Hl|by intros ->].
Qed.
Lemma elem_of_moved k cs : (false, f k) ∈ map (ren_child f) cs <-> (false, k) ∈ cs.
Proof.
  rewrite !list_elem_of_In, in_map_iff. split.
  - intros ([[] q] & E & Hq); [done|]. unfold ren_child in E. cbn in E. injection E as E. apply (inj f) in E as ->. done.
  - intros Hk. by exists (false, k).
Qed.

(** The entries after the move, if [i] hangs below [p0]. *)
Lemma moved_entry k e gn ei gni : k ∈ live a -> cell (al_g a) k = Some (e, gn) -> cell (al_g a) i = Some (ei, gni) ->
  k <> i ->
  (if decide ((false, f k) ∈ map (ren_child f) (g_children gni)) then set_parent (ren_expr f e) n else ren_expr f e) =
    ren_expr f' e /\
  (if decide (is_root ei = false /\ f k = f (e_parent ei)) then set_child (g_offset gni) (false, n) (ren_node f gn)
   else ren_node f gn) = ren_node f' gn.
Proof.
  intros Hk Hc Hci Hne. destruct (entry_facts _ _ _ Hk Hc) as (_ & Hpar & _).
  destruct (entry_facts _ _ _ Hi Hci) as (_ & Hpari & _). split.
  - destruct (decide _) as [Hin|Hin].
    + apply (proj1 (elem_of_moved _ _)), list_elem_of_lookup_1 in Hin as [j Hj].
      destruct (child_facts _ _ _ _ _ Hi Hci Hj) as (_ & _ & (e' & gn' & Hc' & Hr & Hp & _)).
      assert (e' = e) as -> by congruence. unfold ren_expr. rewrite Hr, Hp, moved_i. done.
    + unfold ren_expr. destruct (is_root e) eqn:Hr; [done|]. destruct (Hpar eq_refl) as (pe & pgn & Hpl' & _ & Hcp & Hch).
      f_equal. symmetry. apply moved_other; [done|]. intros Ep. apply Hin, (proj2 (elem_of_moved _ _)). rewrite Ep in Hcp.
      assert (pgn = gni) as -> by congruence. by eapply list_elem_of_lookup_2.
  - unfold ren_node, set_child. destruct (decide _) as [[Hr Ek]|Hno].
    + apply (inj f) in Ek as ->. destruct (Hpari Hr) as (pe & pgn & _ & _ & Hcp & Hch).
      assert (pgn = gn) as -> by congruence. cbn [g_offset g_children]. f_equal. apply list_eq. intros j.
      destruct (decide (j = g_offset gni)) as [->|Hj].
      * rewrite list_lookup_insert_eq by (rewrite length_map; by eapply lookup_lt_Some).
        rewrite lookup_map, Hch. cbn. unfold ren_child. cbn. by rewrite moved_i.
      * rewrite list_lookup_insert_ne, !lookup_map by done.
        destruct (g_children gn !! j) as [[[] q]|] eqn:Ej; cbn; [done| |done]. unfold ren_child. cbn. do 2 f_equal.
        destruct (child_facts _ _ _ _ _ Hk Hc Ej) as (Hq & _ & (eq & gnq & Hcq & _ & _ & Ho)). symmetry.
        apply moved_other; [done|]. intros ->. congruence.
    + f_equal. symmetry. apply ren_children_ext. intros j q Ej.
      destruct (child_facts _ _ _ _ _ Hk Hc Ej) as (Hq & _ & (eq & gnq & Hcq & Hr & Hp & Ho)).
      apply moved_other; [done|]. intros ->. apply Hno. split; congruence.
Qed.
Lemma moved_self ei gni : cell (al_g a) i = Some (ei, gni) ->
  ren_expr f' ei = ren_expr f ei /\ ren_node f' gni = ren_node f gni.
Proof.
  intros Hci. destruct (entry_facts _ _ _ Hi Hci) as (_ & Hpar & _). split.
  - unfold ren_expr. destruct (is_root ei) eqn:Hr; [done|]. destruct (Hpar eq_refl) as (pe & pgn & Hpl' & Hne & _).
    f_equal. by apply moved_other.
  - unfold ren_node. f_equal. apply ren_children_ext. intros j q Ej.
    destruct (child_facts _ _ _ _ _ Hi Hci Ej) as (Hq & Hne & _). by apply moved_other.
Qed.

(** The entry above is redirected. *)
Lemma wp_relink_parent ei gni b3 : cell (al_g a) i = Some (ei, gni) -> rule_pool (al_g b3) = rule_pool (al_g a) ->
  (forall ri, m_find i (rule_map (al_g a)) = Some ri -> m_find n (rule_map (al_g b3)) = Some ri) ->
  local_faninout_map (al_g b3) = map (ren_fan f) (local_faninout_map (al_g a)) ->
  (0 < length (local_faninout_map (al_g a)))%nat ->
  (forall k, k <> n -> cell (al_g b3) k = cell (al_g b) k) ->
  wp (relink_parent i n (ren_expr f ei) (ren_node f gni)) (fun _ b4 => core b4 = core b3 /\
    (forall k e gn, cell (al_g b3) k = Some (e, gn) -> cell (al_g b4) k = Some (e,
      if decide (is_root ei = false /\ k = f (e_parent ei)) then set_child (g_offset gni) (false, n) gn else gn)) /\
    (forall m x0, local_faninout_map (al_g a) !! m = Some x0 -> exists x4, local_faninout_map (al_g b4) !! m = Some x4 /\
      f_fanout x4 = map f (f_fanout x0) /\ f_is_atomic x4 = f_is_atomic x0 /\
      forall d w, get_pull_expr d w x4 = map f' (get_pull_expr d w x0))) b3.
Proof.
  intros Hci Hrp Hmap Hfans Hpos Hcells. destruct (entry_facts _ _ _ Hi Hci) as (_ & Hpar & Hroot).
  destruct (ren_expr_spec f ei) as (Hre & _ & _ & _ & Hrp' & Hrr). unfold relink_parent. rewrite Hre.
  assert (Hlive : forall m x d w k, local_faninout_map (al_g a) !! m = Some x -> k ∈ get_pull_expr d w x -> k ∈ live a).
  { intros m x d w k Hx Hk. destruct (pulled_out _ _ _ _ _ Hx Hk) as (r & E & _). eapply root_live; [exact Hpl|exact E]. }
  destruct (is_root ei) eqn:Hr.
  - rewrite Hrr by done. destruct (Hroot eq_refl) as [r E].
    destruct (pl_root _ _ _ _ _ Hpl _ _ E) as (e' & gn' & rl & Hc' & _ & (ri & Hri & Hrl) & Hout).
    assert (e' = ei) as -> by congruence.
    apply wpe_bind. unfold wpe at 1. unfold on_g, the_rule, lookup_rule, lookup_rule_index, bind, gets, id.
    rewrite (Hmap _ Hri), Hrp, Hrl. cbn [of_option ret]. unfold ret.
    assert (Hbd : (e_parent ei < length (local_faninout_map (al_g a)))%nat).
    { destruct (rt_out r) as [[[m d] w]|]; [|destruct Hout as [_ ->]; done].
      destruct Hout as (_ & _ & _ & -> & x & Hx & _). by eapply lookup_lt_Some. }
    destruct (lookup_lt_is_Some_2 _ _ Hbd) as [x0 Hx0].
    assert (Hx3 : local_faninout_map (al_g b3) !! e_parent ei = Some (ren_fan f x0)) by (by rewrite Hfans, lookup_map, Hx0).
    replace (put_g (al_g b3) b3) with b3 by (by destruct b3).
    eapply wp_upd_faninout; [exact Hx3|]. set (x4 := set_pull_expr _ _ _ _). split_and!.
    + unfold core. cbn. by rewrite length_insert.
    + intros k e gn Hk. rewrite decide_False by (by intros [? _]). done.
    + assert (Hpulls : forall m x d w, local_faninout_map (al_g a) !! m = Some x ->
        ~ (m = e_parent ei /\ d = direction rl /\ w = strength_of rl) -> i ∉ get_pull_expr d w x).
      { intros m x d w Hx Hno Hin. destruct (pulled_out _ _ _ _ _ Hx Hin) as (r' & E' & Eo).
        assert (r' = r) as -> by congruence. rewrite Eo in Hout. destruct Hout as (_ & ? & ? & ? & _). apply Hno. done. }
      intros m x Hx. destruct (decide (m = e_parent ei)) as [->|Hm].
      * assert (x = x0) as -> by congruence. exists x4. cbn. rewrite list_lookup_insert_eq by (by eapply lookup_lt_Some).
        split_and!; [done|by unfold x4; rewrite fanout_set_pull_expr|by unfold x4; destruct (direction rl), (strength_of rl)|].
        intros d w. unfold x4. rewrite get_set_pull_expr. destruct (decide _) as [[-> ->]|Hdw].
        -- rewrite ren_fan_pulls. apply replace_moved. intros k. by eapply Hlive.
        -- rewrite ren_fan_pulls. symmetry. apply map_moved; [intros k; by eapply Hlive|]. apply (Hpulls _ _ _ _ Hx). tauto.
      * exists (ren_fan f x). cbn. rewrite list_lookup_insert_ne, Hfans, lookup_map, Hx by done.
        split_and!; [done..|]. intros d w. rewrite ren_fan_pulls. symmetry.
        apply map_moved; [intros k; by eapply Hlive|]. apply (Hpulls _ _ _ _ Hx). tauto.
  - rewrite Hrp' by done. destruct (Hpar eq_refl) as (pe & pgn & Hpl' & Hne & Hcp & Hch).
    pose proof (Hcells (f (e_parent ei)) (Hn _ Hpl')) as Hc3. rewrite (rn_cells _ _ _ Hf _ _ _ Hpl' Hcp) in Hc3.
    eapply wp_upd_graph_node; [exact Hc3|]. split_and!.
    + unfold core. cbn. by rewrite !length_insert.
    + intros k e gn Hk. cbn [al_g put_g]. rewrite (cell_set_cell _ _ _ _ _ Hc3). destruct (decide (k = _)) as [->|Hkp].
      * rewrite decide_True by done. rewrite Hc3 in Hk. by injection Hk as <- <-.
      * rewrite decide_False by tauto. done.
    + intros m x Hx. exists (ren_fan f x). change (local_faninout_map (al_g (set_cell_of ?k ?c b3))) with (local_faninout_map (al_g b3)).
      rewrite Hfans, lookup_map, Hx. split_and!; [done..|]. intros d w. rewrite ren_fan_pulls. symmetry.
      apply map_moved; [intros k; by eapply Hlive|]. intros Hin. destruct (pulled_out _ _ _ _ _ Hx Hin) as (r & E & _).
      pose proof (root_of_tree _ _ _ _ _ Hpl _ _ _ _ Hci E). congruence.
Qed.

Lemma wp_move ei gni en gnn : cell (al_g a) i = Some (ei, gni) -> cell (al_g b) n = Some (en, gnn) ->
  wiped en = true -> g_children gnn = [] -> (0 < length (local_faninout_map (al_g a)))%nat ->
  wp (move_expr i n) (fun _ b' => renamed f' a b' /\ expr_free_list b' = expr_free_list b /\
    length (expr_pool (al_g b')) = length (expr_pool (al_g b)) /\
    length (expr_graph_node_pool (al_g b')) = length (expr_graph_node_pool (al_g b)) /\
    (forall k, k <> n -> (forall q, q ∈ live a -> f q <> k) -> cell (al_g b') k = cell (al_g b) k) /\ ctl b' = ctl b) b.
Proof.
  intros Hci Hcn Hw Hnil Hpos. pose proof i_not_n as Hin.
  pose proof (rn_cells _ _ _ Hf _ _ _ Hi Hci) as Hbi. rewrite Hfi in Hbi.
  assert (Hmn : m_find n (rule_map (al_g b)) = None) by (apply (rn_only _ _ _ Hf); by apply Hn).
  destruct (moved_map_spec i n (rule_map (al_g b)) Hin (rn_sorted _ _ _ Hf) Hmn) as [Hms Hmf].
  unfold move_expr. apply wpe_bind, wp_move_rule. set (b1 := put_g _ b).
  apply wpe_bind. eapply wp_get_expr; [exact Hcn|]. apply wpe_bind. eapply wp_get_graph_node; [exact Hcn|].
  rewrite Hw. apply wpe_bind, wpe_ret. unfold ExprGraphNode_wiped. rewrite Hnil. apply wpe_bind, wpe_ret.
  apply wpe_bind. eapply wp_get_expr; [exact Hbi|]. apply wpe_bind. eapply wp_get_graph_node; [exact Hbi|].
  apply wpe_bind. eapply wp_upd_expr; [exact Hcn|]. apply wpe_bind.
  eapply wp_upd_graph_node; [by eapply (cell_set_cell_eq (al_g b1))|].
  set (b3 := put_g _ (put_g _ b1)). set (e := ren_expr f ei). set (gn := ren_node f gni).
  assert (Hc3 : forall k, cell (al_g b3) k = if decide (k = n) then Some (e, gn) else cell (al_g b) k).
  { intros k. unfold b3. cbn [al_g put_g]. erewrite cell_set_cell by (by eapply (cell_set_cell_eq (al_g b1))).
    destruct (decide (k = n)); [done|]. rewrite cell_set_cell_ne by done. done. }
  apply wpe_bind. eapply wpe_mono; [eapply (wp_relink_parent ei gni b3 Hci)|].
  { apply Hf. }
  { intros ri Hri. cbn. rewrite Hmf, decide_False, decide_True by congruence.
    rewrite <- Hfi, (rn_map _ _ _ Hf); done. }
  { apply Hf. }
  { done. }
  { intros k Hk. by rewrite Hc3, decide_False. }
  intros _ b4 (Hco4 & Hc4 & Hf4). apply wpe_bind.
  destruct (entry_facts _ _ _ Hi Hci) as ((Hs & _) & _). destruct (ren_expr_spec f ei) as (_ & _ & _ & Hse & _).
  apply wpe_require.
  2: { intros E. apply Z.eqb_neq in E. apply E. unfold e, gn. cbn. by rewrite length_map, Hse. }
  intros _. assert (Hsome : forall k, is_Some (cell (al_g b3) k) -> is_Some (cell (al_g b4) k)).
  { intros k [[ek gk] Hk]. rewrite (Hc4 _ _ _ Hk). by eexists. }
  eapply wpe_mono; [apply (wp_relink_children i n (g_children gn) Hin b4)|].
  { intros k Hk. apply Hsome. rewrite Hc3. destruct (decide (k = n)); [by eexists|].
    unfold gn in Hk. cbn in Hk. apply list_elem_of_In, in_map_iff in Hk as ([[] q] & E & Hq); [done|].
    unfold ren_child in E. cbn in E. injection E as <-. apply list_elem_of_In, list_elem_of_lookup_1 in Hq as [j Hj].
    destruct (child_facts _ _ _ _ _ Hi Hci Hj) as (Hql & _ & (eq & gnq & Hcq & _)).
    rewrite (rn_cells _ _ _ Hf _ _ _ Hql Hcq). by eexists. }
  { intros m Hm. unfold gn in Hm. cbn in Hm. apply list_elem_of_In, in_map_iff in Hm as ([[] q] & E & Hq); [|done].
    injection E as <-. apply list_elem_of_In in Hq.
    destruct (po_fan _ (pl_pool _ _ _ _ _ Hpl) q i) as [_ Hfan]. destruct Hfan as (x & Hx & _); [by exists ei, gni|].
    destruct (Hf4 _ _ Hx) as (x4 & -> & _). by eexists. }
  intros _ b5 (Hco5 & Hc5 & Hf5). assert (Hco : core b5 = core b3) by congruence.
  pose proof (f_equal snd Hco) as Ect. change (ctl b5 = ctl b) in Ect. apply (f_equal fst) in Hco.
  unfold core in Hco. injection Hco as Erp Erm Efl Elp Elg Elf.
  assert (Hself : (false, n) ∉ g_children gn).
  { unfold gn. cbn. intros Hq. apply list_elem_of_In, in_map_iff in Hq as ([[] q] & E & Hq); [done|].
    unfold ren_child in E. cbn in E. injection E as E. apply list_elem_of_In, list_elem_of_lookup_1 in Hq as [j Hj].
    destruct (child_facts _ _ _ _ _ Hi Hci Hj) as (Hql & _). by apply (Hn q). }
  destruct (entry_facts _ _ _ Hi Hci) as (_ & Hpar & _).
  split_and!; [|by rewrite Efl|by rewrite Elp; cbn; rewrite !length_insert|by rewrite Elg; cbn; rewrite !length_insert| |exact Ect].
  - split.
    + intros x y E. unfold after_move in E. apply (inj (swap i n)) in E. by apply (inj f).
    + intros k ek gk Hk Hck. rewrite Hc5. destruct (decide (k = i)) as [->|Hki].
      * assert (ek = ei) as -> by congruence. assert (gk = gni) as -> by congruence.
        rewrite moved_i, decide_False by done. destruct (moved_self _ _ Hci) as [-> ->].
        rewrite (Hc4 n e gn) by (by rewrite Hc3, decide_True). rewrite decide_False; [done|].
        intros [Hr E]. destruct (Hpar Hr) as (_ & _ & Hp & _). by apply (Hn _ Hp).
      * rewrite moved_other by done. assert (Hfk : f k <> n) by (by apply Hn).
        rewrite (Hc4 (f k) (ren_expr f ek) (ren_node f gk)).
        2: { rewrite Hc3, decide_False by done. by apply (rn_cells _ _ _ Hf). }
        destruct (moved_entry k ek gk ei gni Hk Hck Hci Hki) as [<- <-].
        change (g_children gn) with (map (ren_child f) (g_children gni)).
        by destruct (decide ((false, f k) ∈ map (ren_child f) (g_children gni))).
    + apply list_eq. intros m. rewrite lookup_map, Hf5. destruct (local_faninout_map (al_g a) !! m) as [x0|] eqn:Ex.
      2: { assert (local_faninout_map (al_g b5) !! m = None) as E5.
           { apply lookup_ge_None. rewrite Elf. cbn. rewrite (rn_fans _ _ _ Hf), length_map. by apply lookup_ge_None. }
           rewrite Hf5 in E5. cbn. destruct (decide _); [|done]. by rewrite E5. }
      destruct (Hf4 _ _ Ex) as (x4 & Ex4 & Efo & Eat & Epu). rewrite Ex4.
      assert (Hfo : replace i n (map f (f_fanout x0)) = map f' (f_fanout x0)).
      { apply replace_moved. intros k. by eapply fanned_live. }
      destruct (decide _) as [Hm|Hm]; cbn; f_equal; apply fan_ext; try done.
      * intros d w. rewrite ren_fan_pulls, <- Epu. by destruct d, w.
      * unfold refan. cbn. by rewrite Efo, Hfo.
      * intros d w. by rewrite ren_fan_pulls, Epu.
      * cbn. rewrite Efo. symmetry. apply map_moved; [intros k; by eapply fanned_live|]. intros Hif. apply Hm.
        destruct (po_fan _ (pl_pool _ _ _ _ _ Hpl) m i) as [Hfan _].
        destruct Hfan as (e' & gn' & Hc' & Hl); [by exists x0|]. assert (gn' = gni) as -> by congruence.
        unfold gn. cbn. apply list_elem_of_In, in_map_iff. exists (true, m). split; [done|]. by apply list_elem_of_In.
    + rewrite Erp. apply Hf.
    + rewrite Erm. exact Hms.
    + intros k Hk. rewrite Erm. cbn. rewrite Hmf. destruct (decide (k = i)) as [->|Hki].
      * rewrite moved_i, decide_False, decide_True by congruence. rewrite <- Hfi at 1. by apply (rn_map _ _ _ Hf).
      * rewrite moved_other by done. rewrite !decide_False; [by apply (rn_map _ _ _ Hf)|by apply Hn|].
        intros E. apply Hki, (inj f). congruence.
    + intros j Hj. rewrite Erm. cbn. rewrite Hmf. destruct (decide (j = i)) as [->|Hji]; [done|].
      rewrite decide_False by (intros ->; by apply (Hj i); rewrite ?moved_i). apply (rn_only _ _ _ Hf). intros k Hk E.
      apply (Hj k Hk). rewrite moved_other; [done|done|]. intros ->. congruence.
  - intros k Hkn Hk. rewrite Hc5, decide_False.
    + assert (Hk3 : cell (al_g b3) k = cell (al_g b) k) by (by rewrite Hc3, decide_False).
      destruct (cell (al_g b) k) as [[e' gn']|] eqn:Ek.
      * rewrite (Hc4 _ _ _ Hk3), decide_False; [done|]. intros [Hr E]. destruct (Hpar Hr) as (_ & _ & Hp & _).
        by apply (Hk _ Hp).
      * destruct (cell (al_g b4) k) as [[e4 g4]|] eqn:E4; [|done]. exfalso. apply cell_inv in E4 as [E4 E4'].
        apply lookup_lt_Some in E4, E4'. apply (f_equal fst) in Hco4. unfold core in Hco4.
        injection Hco4 as _ _ _ El El' _. rewrite El in E4. rewrite El' in E4'.
        destruct (lookup_lt_is_Some_2 _ _ E4) as [? He4]. destruct (lookup_lt_is_Some_2 _ _ E4') as [? Hg4].
        pose proof (cell_intro (al_g b3) k _ _ He4 Hg4). congruence.
    + unfold gn. cbn. intros Hq. apply list_elem_of_In, in_map_iff in Hq as ([[] q] & E & Hq); [done|].
      unfold ren_child in E. cbn in E. injection E as E. apply list_elem_of_In, list_elem_of_lookup_1 in Hq as [j Hj].
      destruct (child_facts _ _ _ _ _ Hi Hci Hj) as (Hql & _). by apply (Hk q).
Qed.
End Move.

(** ** The loop *)
Lemma ren_id_expr e : ren_expr id e = e.
Proof. unfold ren_expr. by destruct (is_root e), e. Qed.
Lemma ren_id_node gn : ren_node id gn = gn.
Proof.
  unfold ren_node. destruct gn as [o cs]. cbn. f_equal. rewrite <- (map_id cs) at 2. apply map_ext. by intros [[] q].
Qed.
Lemma ren_id_fan x : ren_fan id x = x.
Proof. unfold ren_fan. destruct x. cbn. by rewrite !map_id. Qed.

(** Every tree has a node. *)
Lemma tree_leaf_mut nv g :
  (forall i J v, tree nv g i J v -> exists n k, leaf_in g n k) /\
  (forall p j cs J vs, branches nv g p j cs J vs -> cs <> [] -> (exists n, (true, n) ∈ cs) \/ exists n k, leaf_in g n k).
Proof.
  apply (tree_branches_ind nv g (fun i J v _ => exists n k, leaf_in g n k)
    (fun p j cs J vs _ => cs <> [] -> (exists n, (true, n) ∈ cs) \/ exists n k, leaf_in g n k)).
  - intros i e gn J vs Hc (_ & Hne & _) _ _ IH. destruct (IH Hne) as [[n Hn]|?]; [|done]. exists n, i, e, gn. done.
  - done.
  - intros p j n cs J vs _ _ _. left. exists n. by left.
  - intros p j k cs Jk J v vs _ IH _ _ _ _ _. by right.
Qed.

Lemma length_filter_split {A} (p q : A -> bool) l : (forall x, x ∈ l -> q x = negb (p x)) ->
  (length (List.filter p l) + length (List.filter q l) = length l)%nat.
Proof.
  induction l as [|x l IH]; intros Hq; [done|]. cbn. rewrite (Hq x) by (by left).
  pose proof (IH (fun y Hy => Hq y ltac:(by right))). destruct (p x); cbn; lia.
Qed.
Lemma elem_of_bool_filter {A} (p : A -> bool) l x : x ∈ List.filter p l <-> x ∈ l /\ p x = true.
Proof. by rewrite !list_elem_of_In, filter_In. Qed.
Lemma NoDup_bool_filter {A} (p : A -> bool) l : NoDup l -> NoDup (List.filter p l).
Proof. rewrite !NoDup_ListNoDup. apply List.NoDup_filter. Qed.
Lemma length_s_of_list l : NoDup l -> length (s_of_list l) = length l /\ NoDup (s_of_list l).
Proof.
  intros Hnd. assert (Hs : NoDup (s_of_list l)).
  { pose proof (s_of_list_sorted l) as Hs. induction Hs as [|x s Hs IH Hall]; [constructor|]. constructor; [|done].
    rewrite Forall_forall in Hall. intros Hx. specialize (Hall _ Hx). lia. }
  split; [|done]. apply Permutation_length, NoDup_Permutation; [done..|]. intros x. apply elem_of_s_of_list.
Qed.

Section Compaction.
Context (nv : nat -> pull_enum) (a : alloc_state) (R : gmap nat root_info) (P : list (pull_target * pull_enum))
  (V : list pull_enum) (Hpl : planted nv a R P V).
#[local] Abbreviation holes := (expr_free_list a).
#[local] Abbreviation eps := (length (expr_pool (al_g a))).
#[local] Abbreviation move_end := (eps - length holes)%nat.
#[local] Abbreviation discard := (s_of_list (List.filter (Nat.leb move_end) holes)).
#[local] Abbreviation free := (s_of_list (List.filter (fun i => Nat.ltb i move_end) holes)).

Lemma hole_lt i : i ∈ holes -> (i < eps)%nat.
Proof.
  intros Hi. destruct (po_free _ (pl_pool _ _ _ _ _ Hpl) _ Hi) as (e & gn & [Hc _]%cell_inv & _). by eapply lookup_lt_Some.
Qed.
Lemma holes_le : (length holes <= eps)%nat.
Proof.
  etransitivity; [apply (NoDup_incl_length (l' := seq 0 eps))|by rewrite length_seq];
    [apply NoDup_ListNoDup, (pl_pool _ _ _ _ _ Hpl)|].
  intros x Hx. apply list_elem_of_In, elem_of_seq. apply list_elem_of_In, hole_lt in Hx. lia.
Qed.
Lemma elem_of_discard i : i ∈ discard <-> i ∈ holes /\ (move_end <= i)%nat.
Proof. by rewrite elem_of_s_of_list, elem_of_bool_filter, Nat.leb_le. Qed.
Lemma elem_of_free i : i ∈ free <-> i ∈ holes /\ (i < move_end)%nat.
Proof. by rewrite elem_of_s_of_list, elem_of_bool_filter, Nat.ltb_lt. Qed.
Definition stays (i : nat) : bool := negb (s_mem i discard).
Lemma stays_live i : (move_end <= i < eps)%nat -> stays i = true <-> i ∈ live a.
Proof.
  intros Hi. unfold stays. rewrite negb_true_iff, <- not_true_iff_false, s_mem_spec, elem_of_discard, elem_of_live.
  intuition lia.
Qed.
Lemma length_free : length free = length (List.filter stays (seq move_end (length holes))).
Proof.
  pose proof (po_nodup _ (pl_pool _ _ _ _ _ Hpl)) as Hnd. pose proof holes_le as Hle.
  destruct (length_s_of_list (List.filter (fun i => Nat.ltb i move_end) holes)) as [-> _]; [by apply NoDup_bool_filter|].
  assert (H1 : (length (List.filter (Nat.leb move_end) holes) + length (List.filter (fun i => Nat.ltb i move_end) holes)
    = length holes)%nat).
  { apply length_filter_split. intros x _. destruct (Nat.leb_spec move_end x), (Nat.ltb_spec x move_end); cbn; lia. }
  assert (H2 : (length (List.filter (fun i => s_mem i discard) (seq move_end (length holes))) +
    length (List.filter stays (seq move_end (length holes))) = length holes)%nat).
  { etransitivity; [by apply length_filter_split|apply length_seq]. }
  assert (H3 : length (List.filter (fun i => s_mem i discard) (seq move_end (length holes))) =
    length (List.filter (Nat.leb move_end) holes)).
  { apply Permutation_length, NoDup_Permutation; [apply NoDup_bool_filter, NoDup_seq|by apply NoDup_bool_filter|].
    intros x. rewrite !elem_of_bool_filter, s_mem_spec, elem_of_discard, Nat.leb_le, elem_of_seq. split; [tauto|].
    intros [Hx Hm]. pose proof (hole_lt _ Hx). split_and!; try done; lia. }
  lia.
Qed.

Record compacting (i : nat) (fr : list nat) (b : alloc_state) (f : nat -> nat) : Prop := {
  co_renamed : renamed f a b;
  co_later : forall k, k ∈ live a -> (i <= k)%nat -> f k = k;
  co_done : forall k, k ∈ live a -> (k < i)%nat -> (f k < move_end)%nat;
  co_nodup : NoDup fr;
  co_free : forall n, n ∈ fr -> (n < move_end)%nat /\ (forall k, k ∈ live a -> f k <> n) /\
    exists en gnn, cell (al_g b) n = Some (en, gnn) /\ wiped en = true /\ g_children gnn = [];
  co_onto : forall j, (j < move_end)%nat -> j ∈ fr \/ exists k, k ∈ live a /\ f k = j;
  co_len : length (expr_pool (al_g b)) = eps;
  co_len' : length (expr_graph_node_pool (al_g b)) = eps;
  co_list : expr_free_list b = [];
  co_ctl : ctl b = ctl a
}.

Lemma compacting_start : compacting move_end free (put_free [] a) id.
Proof.
  pose proof (pl_pool _ _ _ _ _ Hpl) as Hp. split; try done.
  - split; try done.
    + apply _.
    + intros k e gn _ Hc. by rewrite ren_id_expr, ren_id_node.
    + cbn. rewrite <- (map_id (local_faninout_map (al_g a))) at 1. apply map_ext. intros x. by rewrite ren_id_fan.
    + apply Hpl.
    + intros j Hj. destruct (m_find j _) as [ri|] eqn:E; [|done]. apply (pl_rules _ _ _ _ _ Hpl) in E as [r E].
      exfalso. apply (Hj j); [|done]. eapply root_live; [exact Hpl|exact E].
  - apply length_s_of_list, NoDup_bool_filter, Hp.
  - intros n [Hn Hlt]%elem_of_free. split_and!; [done| |by apply (po_free _ Hp)].
    intros k Hk <-. by apply elem_of_live in Hk as [_ ?].
  - intros j Hj. destruct (decide (j ∈ holes)) as [Hh|Hh]; [left; by apply elem_of_free|right].
    exists j. split; [|done]. apply elem_of_live. split; [lia|done].
  - cbn. symmetry. apply Hp.
Qed.

Lemma wp_compact_loop m : forall i fr b f, compacting i fr b f -> (move_end <= i)%nat -> (i + m = eps)%nat ->
  length fr = length (List.filter stays (seq i m)) ->
  wp (fold_m (seq i m) fr (compact_one discard)) (fun fr' b' => fr' = [] /\ exists f', compacting eps [] b' f') b.
Proof.
  induction m as [|m IH]; intros i fr b f Hco Hi Him Hlen; cbn [seq fold_m].
  - apply wpe_ret. destruct fr; [|done]. replace i with eps in Hco by lia. split; [done|by exists f].
  - cbn [seq List.filter] in Hlen. apply wpe_bind. unfold compact_one at 1. destruct (s_mem i discard) eqn:Ed.
    + unfold stays at 1 in Hlen. rewrite Ed in Hlen. cbn [negb] in Hlen. apply wpe_ret. apply (IH (S i) fr b f); [|lia|lia|done].
      assert (Hni : i ∉ live a).
      { rewrite <- stays_live by lia. unfold stays. by rewrite Ed. }
      destruct Hco. split; try done.
      * intros k Hk Hik. apply co_later0; [done|lia].
      * intros k Hk Hik. apply co_done0; [done|]. destruct (decide (k = i)); [congruence|lia].
    + assert (Hst : stays i = true) by (unfold stays; by rewrite Ed). rewrite Hst in Hlen.
      assert (Hil : i ∈ live a) by (apply stays_live; [lia|done]).
      destruct fr as [|n fr]; [done|]. cbn in Hlen. injection Hlen as Hlen. apply wpe_bind.
      pose proof (co_later _ _ _ _ Hco i Hil ltac:(lia)) as Hfi.
      destruct (co_free _ _ _ _ Hco n) as (Hn & Hfn & en & gnn & Hcn & Hw & Hnil); [by left|].
      destruct (live_cell _ _ (pl_pool _ _ _ _ _ Hpl) Hil) as (ei & gni & Hci).
      assert (Hpos : (0 < length (local_faninout_map (al_g a)))%nat).
      { destruct (live_entry _ _ _ _ _ Hpl _ Hil) as (r0 & r & E & _).
        destruct (proj1 (tree_leaf_mut nv (al_g a)) _ _ _ (pl_tree _ _ _ _ _ Hpl _ _ E)) as (nn & k & Hl).
        apply (po_fan _ (pl_pool _ _ _ _ _ Hpl)) in Hl as (x & Hx & _). apply lookup_lt_Some in Hx. lia. }
      eapply wpe_mono; [eapply (wp_move nv a R P V Hpl b f (co_renamed _ _ _ _ Hco) i n Hil Hfi Hfn); done|].
      intros [] b1 (Hr1 & Hfl & Hl1 & Hl2 & Hoth & Hct). apply wpe_ret.
      assert (Hat : forall k, k ∈ live a -> after_move i n f k = if decide (k = i) then n else f k).
      { intros k Hk. by eapply (moved_at a b f (co_renamed _ _ _ _ Hco)). }
      destruct Hco. apply NoDup_cons in co_nodup0 as [Hnf Hnd].
      apply (IH (S i) fr b1 (after_move i n f)); [|lia|lia|done]. split; try done.
      * intros k Hk Hik. rewrite Hat, decide_False by (done || lia). apply co_later0; [done|lia].
      * intros k Hk Hik. rewrite Hat by done. destruct (decide (k = i)); [done|]. apply co_done0; [done|lia].
      * intros n' Hn'. destruct (co_free0 n') as (Hlt & Hno & en' & gnn' & Hcn' & Hw'); [by right|].
        assert (n' <> n) by congruence. split_and!; [done| |].
        -- intros k Hk. rewrite Hat by done. destruct (decide (k = i)); [congruence|by apply Hno].
        -- exists en', gnn'. by rewrite Hoth.
      * intros j Hj. destruct (co_onto0 _ Hj) as [[->|Hjf]%elem_of_cons|(k & Hk & Ek)]; [right|by left|right].
        -- exists i. split; [done|]. by rewrite Hat, decide_True.
        -- exists k. split; [done|]. rewrite Hat by done. rewrite decide_False; [done|]. intros ->. lia.
      * congruence.
      * congruence.
      * congruence.
      * congruence.
Qed.

Lemma wp_compact : wp compact_expr_pools (fun _ a' => (exists R', planted nv a' R' P V) /\ expr_free_list a' = [] /\
  length (local_faninout_map (al_g a')) = length (local_faninout_map (al_g a))) a.
Proof.
  pose proof holes_le as Hle. unfold compact_expr_pools. apply wpe_bind, wpe_gets, wpe_bind, wpe_modify. unfold id at 1 2 3 4 5 6.
  apply wpe_bind. eapply wpe_mono; [apply (wp_compact_loop (length holes) move_end free (put_free [] a) id compacting_start); [lia|lia|apply length_free]|].
  intros fr b (-> & f & Hco). apply wpe_bind, wpe_ret. unfold upd_g. apply wpe_modify. unfold id.
  pose proof (co_renamed _ _ _ _ Hco) as Hf.
  set (b' := put_g _ b).
  assert (Hlt : forall k, k ∈ live a -> (f k < move_end)%nat).
  { intros k Hk. apply (co_done _ _ _ _ Hco); [done|]. by apply elem_of_live in Hk as [? _]. }
  assert (Hcell : forall j, (j < move_end)%nat -> cell (al_g b') j = cell (al_g b) j).
  { intros j Hj. unfold cell. cbn. rewrite (co_len' _ _ _ _ Hco), !lookup_take_lt by lia. done. }
  assert (Hf' : renamed f a b').
  { destruct Hf. split; try done. intros k e gn Hk Hc. rewrite Hcell by (by apply Hlt). by apply rn_cells0. }
  assert (Hlen : length (expr_pool (al_g b')) = move_end).
  { cbn. rewrite length_take, (co_len _ _ _ _ Hco). lia. }
  split_and!.
  - eexists. eapply (planted_renamed nv a b' f Hf'); [apply Hco| | |exact Hpl].
    + rewrite Hlen. cbn. rewrite length_take, (co_len' _ _ _ _ Hco). lia.
    + intros j. rewrite Hlen. split.
      * intros Hj. destruct (co_onto _ _ _ _ Hco _ Hj) as [?%elem_of_nil|(k & Hk & <-)]; [done|]. by exists k.
      * intros (k & Hk & ->). by apply Hlt.
  - apply Hco.
  - change (length (local_faninout_map (al_g b')) = length (local_faninout_map (al_g a))).
    rewrite (rn_fans _ _ _ Hf'). apply length_map.
Qed.
End Compaction.
