(* ===== verification/ExprAllocProps.v ===== *)
(** The graph of a process type, as a whole: what [process_graph] of
    "ExprAlloc.v" returns is the well-formed tree graph that evaluation relies
    on, and its roots carry the guards of the type's footprint.

    Two facts about the reference semantics of guards follow the theorems on
    the graph: without dynamic supplies a guard is the plain three-valued
    value of its expression, and with them a guard in negation-normal form is
    gated by the supply as a whole. *)
From S2P Require Import Prelude SimTime PullSet Expr OrdMap Node ProcGraph EvalProps.
From S2P Require Import ExprAlloc ExprTree ExprBuild ExprFold ExprVisit ExprForest ExprRules ExprCompact.
From stdpp Require Import gmap.
From Stdlib Require Import String.
Open Scope Z_scope.
Local Open Scope hackt_scope.
#[local] Abbreviation length := Datatypes.length.

(** ** Without optimizations there are no holes *)
Create HintDb hackt_solid.

Definition solid {A} (m : AM A) : Prop :=
  forall a x a', m a = Ok (x, a') -> expr_free_list a = [] -> expr_free_list a' = [].

Lemma solid_bind {A B} (m : AM A) (k : A -> AM B) : solid m -> (forall x, solid (k x)) -> solid (bind m k).
Proof. intros Hm Hk a b a' (x & a1 & E1 & E2)%bind_ok Ha. eapply Hk; [exact E2|]. by eapply Hm. Qed.
Lemma solid_readonly {A} (m : AM A) : readonly m -> solid m.
Proof. intros Hm a x a' E%Hm Ha. by subst. Qed.
Lemma solid_modify f : (forall a, expr_free_list (f a) = expr_free_list a) -> solid (modify f).
Proof. intros Hf a x a' [= _ <-] Ha. by rewrite Hf. Qed.
Lemma solid_upd_g f : solid (upd_g f).
Proof. by apply solid_modify. Qed.
Lemma solid_on_g {A} (m : M unique_process_subgraph A) : solid (on_g m).
Proof. intros a x a' E Ha. unfold on_g in E. destruct (m (al_g a)) as [[]|]; [|done]. by injection E as _ <-. Qed.
Lemma solid_saving {A B} (get : alloc_state -> B) put (m : AM A) :
  (forall b a, expr_free_list (put b a) = expr_free_list a) -> solid m -> solid (saving get put m).
Proof.
  intros Hp Hm a x a' E Ha. unfold saving, gets, modify, ret, bind in E. destruct (m a) as [[y a1]|] eqn:Em; [|done].
  injection E as <- <-. rewrite Hp. by eapply Hm.
Qed.
Lemma solid_for_each {X} (l : list X) body : (forall x, solid (body x)) -> solid (for_each l body).
Proof.
  intros Hb. induction l as [|x l IH]; [apply solid_readonly, readonly_ret|]. by apply solid_bind.
Qed.
Lemma solid_when b m : (b = true -> solid m) -> solid (when b m).
Proof. destruct b; intros H; [by apply H|apply solid_readonly, readonly_ret]. Qed.
#[export] Hint Resolve solid_upd_g solid_on_g solid_readonly : hackt_solid.
#[export] Hint Resolve readonly_ret readonly_fail readonly_gets readonly_require
  readonly_of_option readonly_lift_res : hackt_solid.
Ltac solve_solid := repeat (match goal with
  | |- forall _, _ => intro
  | |- solid (bind _ _) => apply solid_bind
  | |- solid (when _ _) => apply solid_when
  | |- solid (for_each _ _) => apply solid_for_each
  | |- solid (saving _ _ _) => apply solid_saving; [done|]
  | |- solid (modify _) => apply solid_modify; done
  | |- solid (let _ := _ in _) => cbv zeta
  | |- solid (match ?x with _ => _ end) => destruct x
  | |- solid _ => solve [auto with hackt_solid]
  end).

Lemma solid_upd_expr i f : solid (upd_expr i f).
Proof. unfold upd_expr. solve_solid. Qed.
Lemma solid_upd_graph_node i f : solid (upd_graph_node i f).
Proof. unfold upd_graph_node. solve_solid. Qed.
Lemma solid_upd_faninout i f : solid (upd_faninout i f).
Proof. unfold upd_faninout. solve_solid. Qed.
#[export] Hint Resolve solid_upd_expr solid_upd_graph_node solid_upd_faninout : hackt_solid.
Lemma solid_allocate_expr e : solid (allocate_expr e).
Proof.
  intros a x a' E Ha. unfold allocate_expr, gets, bind in E. rewrite Ha in E. by injection E as _ <-.
Qed.
#[export] Hint Resolve solid_allocate_expr : hackt_solid.
Lemma solid_literal ni : solid (allocate_new_literal_expr ni).
Proof. unfold allocate_new_literal_expr. solve_solid. Qed.
Lemma solid_not ei : solid (allocate_new_not_expr ei).
Proof. unfold allocate_new_not_expr. solve_solid. Qed.
Lemma solid_link p c o : solid (link_child_expr p c o).
Proof. unfold link_child_expr. solve_solid. Qed.
Lemma solid_Nary t n : solid (allocate_new_Nary_expr t n).
Proof. unfold allocate_new_Nary_expr. solve_solid. Qed.
#[export] Hint Resolve solid_literal solid_not solid_link solid_Nary : hackt_solid.
Lemma solid_supply i : solid (supply_expr i).
Proof.
  unfold supply_expr, allocate_new_supply_expr, and_expression_with_literal, append_child_expr. solve_solid.
Qed.
Lemma solid_prepend p c : solid (prepend_child_expr p c).
Proof. unfold prepend_child_expr. solve_solid. Qed.
Lemma solid_the_only e : solid (the_only e).
Proof. unfold the_only. solve_solid. Qed.
#[export] Hint Resolve solid_supply solid_prepend solid_the_only : hackt_solid.

Section Solid.
Context (flags : ExprAllocFlags) (Hopt : any_optimize flags = false).

Lemma no_optimization : is_fold_literals flags = false /\ is_denormalize_negations flags = false.
Proof.
  unfold any_optimize, is_fold_literals, is_denormalize_negations, has_flag in *.
  apply negb_false_iff, Z.eqb_eq in Hopt. change OPTIMIZE_FLAGS with (Z.lor FOLD_LITERALS DENORMALIZE_NEGATIONS) in Hopt.
  rewrite Z.land_lor_distr_r in Hopt. apply Z.lor_eq_0_iff in Hopt as [-> ->]. done.
Qed.
Lemma solid_optimize last : solid (optimize_expr flags last).
Proof. unfold optimize_expr. destruct no_optimization as [-> ->]. unfold when. solve_solid. Qed.
Hint Resolve solid_optimize : hackt_solid.

Section Rec.
Context (rec : nat -> AM nat) (Hrec : forall c, solid (rec c)).
Hint Resolve Hrec : hackt_solid.

Lemma solid_conjuncts last cs : forall o, solid (visit_conjuncts rec last cs o).
Proof. induction cs as [|c cs IH]; intros o; cbn [visit_conjuncts]; solve_solid. Qed.
Lemma solid_disjuncts last cs : forall o, solid (visit_disjuncts rec last cs o).
Proof. induction cs as [|c cs IH]; intros o; cbn [visit_disjuncts]; solve_solid. Qed.
Hint Resolve solid_conjuncts solid_disjuncts : hackt_solid.
Lemma solid_visit_expr_node pfp e : solid (visit_expr_node flags pfp rec e).
Proof.
  assert (H : solid allocate_new_supply_expr) by (unfold allocate_new_supply_expr; solve_solid).
  unfold visit_expr_node, visit_literal, visit_not_expr, visit_and_expr, visit_or_expr, visit_node_expr, visit_first.
  solve_solid.
Qed.
Lemma solid_visit_rte_expr_node e : solid (visit_rte_expr_node rec e).
Proof.
  unfold visit_rte_expr_node, visit_literal, visit_not_expr, visit_atomic_expr. solve_solid.
Qed.
End Rec.

Lemma solid_visit_expr pfp fuel : forall ei, solid (visit_expr flags pfp fuel ei).
Proof.
  induction fuel as [|fuel IH]; intros ei; cbn [visit_expr]; [solve_solid|].
  apply solid_bind; [solve_solid|]. intros e. by apply solid_visit_expr_node.
Qed.
Lemma solid_visit_rte_expr rfp fuel : forall ei, solid (visit_rte_expr rfp fuel ei).
Proof.
  induction fuel as [|fuel IH]; intros ei; cbn [visit_rte_expr]; [solve_solid|].
  apply solid_bind; [solve_solid|]. intros e. by apply solid_visit_rte_expr_node.
Qed.
Hint Resolve solid_visit_expr solid_visit_rte_expr : hackt_solid.

Lemma solid_upd_temp_rule f : solid (upd_temp_rule f).
Proof. unfold upd_temp_rule. solve_solid. Qed.
Hint Resolve solid_upd_temp_rule : hackt_solid.
Lemma solid_rule_attribute vals key : solid (rule_attribute flags vals key).
Proof.
  unfold rule_attribute. cbv zeta.
  repeat (match goal with |- solid (if ?b then _ else _) => destruct b end; [solve
    [unfold After, AfterMin, AfterMax, Always_Random, Weak, Unstab, IsKeeper, Diode, check_after_min_max, front_value;
     solve_solid]|]).
  solve_solid.
Qed.
Hint Resolve solid_rule_attribute : hackt_solid.
Lemma solid_link_node ni i dir r w : solid (link_node_to_root_expr ni i dir r w).
Proof. unfold link_node_to_root_expr. solve_solid. Qed.
Lemma solid_link_invariant d i j : solid (link_invariant_expr d i j).
Proof. unfold link_invariant_expr. solve_solid. Qed.
Lemma solid_macro_node m k : solid (macro_node m k).
Proof. unfold macro_node. solve_solid. Qed.
Hint Resolve solid_link_node solid_link_invariant solid_macro_node : hackt_solid.
Lemma solid_visit_rules d fuel pfp rfp : solid (visit_rules flags d fuel pfp rfp).
Proof.
  unfold visit_rules, visit_prs, visit_rte, visit_rule, visit_macro, visit_invariant, visit_assignment, visit_guard,
    attributed_rule, PassN, PassP, pass_gate. solve_solid.
Qed.
End Solid.

(** ** The graph *)
Lemma planted_start nv atomic :
  planted nv (put_g (new_graph atomic) (alloc_init graph_empty)) ∅ [] [].
Proof.
  set (a := put_g _ _).
  assert (Hnone : forall i e gn, cell (al_g a) i <> Some (e, gn)) by (intros [|i] e gn E; done).
  assert (Hat : forall n f, local_faninout_map (al_g a) !! n = Some f -> f_fanout f = [] /\
    forall b w, get_pull_expr b w f = []).
  { cbn. intros n f. rewrite lookup_map. destruct (atomic !! n); [|done]. intros [= <-]. split; [done|]. by intros [] []. }
  split; try done.
  - split; [done|apply NoDup_nil_2|by intros i ?%elem_of_nil|]. intros n i. split.
    + intros (f & Hf & Hi). destruct (Hat _ _ Hf) as [E _]. rewrite E in Hi. by apply elem_of_nil in Hi.
    + intros (e & gn & E & _). by apply Hnone in E.
  - constructor.
  - intros k. rewrite elem_of_live. cbn. split; [intros [? _]; lia|]. by intros (i & r & ? & _).
  - intros n f b w Hf. destruct (Hat _ _ Hf) as [_ ->]. split; [apply NoDup_nil_2|constructor].
  - by intros v ?%elem_of_nil.
Qed.

(** The pulls of the nodes below each expression. *)
Definition node_leaves (nv : nat -> pull_enum) (g : unique_process_subgraph) : leaves := fun i j =>
  match expr_graph_node_pool g !! i with
  | Some gn => match g_children gn !! j with Some (true, n) => nv n | _ => PULL_OFF end
  | None => PULL_OFF
  end.

Lemma tree_denotes_mut nv g :
  (forall i J v, tree nv g i J v -> denotes g (node_leaves nv g) i v) /\
  (forall p j0 cs J vs, branches nv g p j0 cs J vs ->
    (forall x n, cs !! x = Some (true, n) -> vs !! x = Some (nv n)) /\
    (forall x k v, cs !! x = Some (false, k) -> vs !! x = Some v -> denotes g (node_leaves nv g) k v)).
Proof.
  apply (tree_branches_ind nv g (fun i J v _ => denotes g (node_leaves nv g) i v)
    (fun p j0 cs J vs _ => (forall x n, cs !! x = Some (true, n) -> vs !! x = Some (nv n)) /\
      (forall x k v, cs !! x = Some (false, k) -> vs !! x = Some v -> denotes g (node_leaves nv g) k v))).
  - intros i e gn J vs [He Hgn]%cell_inv (Hs & Hne & _) _ Hb [IHn IHk]. eapply denotes_expr; [exact He| |exact Hgn| | |exact IHk].
    + unfold wiped. apply Z.eqb_neq. destruct (g_children gn); [done|]. rewrite Hs. cbn [length]. lia.
    + by eapply branches_length.
    + intros j n Hj. rewrite (IHn _ _ Hj). unfold node_leaves. by rewrite Hgn, Hj.
  - by intros p j.
  - intros p j n cs J vs _ [IHn IHk]. split.
    + intros [|x] m Hx; cbn in *; [congruence|by apply IHn].
    + intros [|x] k v Hx; cbn in *; [done|by apply IHk].
  - intros p j k cs Jk J v vs _ IHt _ _ _ [IHn IHk]. split.
    + intros [|x] m Hx; cbn in *; [done|by apply IHn].
    + intros [|x] k' v' Hx Hv; cbn in *; [by simplify_eq|by eapply IHk].
Qed.
Lemma tree_denotes nv g i J v : tree nv g i J v -> denotes g (node_leaves nv g) i v.
Proof. apply tree_denotes_mut. Qed.

(** The guards [P] of the nodes of a type and its invariants [V], in graph [g]. *)
Record carries (nv : nat -> pull_enum) (nodes : nat) (g : unique_process_subgraph)
    (P : list (pull_target * pull_enum)) (V : list pull_enum) : Prop := {
  ca_nodes : length (local_faninout_map g) = nodes;
  ca_pulls : forall n f b w, local_faninout_map g !! n = Some f ->
    Forall2 (denotes g (node_leaves nv g)) (get_pull_expr b w f) (pulls_at (n, b, w) P);
  ca_invariants : forall v, v ∈ V -> exists i rl, rule_of g i rl /\ is_invariant rl = true /\
    denotes g (node_leaves nv g) i v
}.
Lemma planted_carries nv a R P V : planted nv a R P V ->
  carries nv (length (local_faninout_map (al_g a))) (al_g a) P V.
Proof.
  intros Hpl. split; [done| |].
  - intros n f b w Hf. destruct (pl_pulls _ _ _ _ _ Hpl _ _ b w Hf) as [_ Hall].
    eapply Forall2_impl; [exact Hall|]. intros i v (r & E & _ & <-). eapply tree_denotes. by apply Hpl.
  - intros v (i & r & E & Eo & <-)%(pl_invs _ _ _ _ _ Hpl).
    destruct (pl_root _ _ _ _ _ Hpl _ _ E) as (e & gn & rl & _ & _ & Hro & Hout). rewrite Eo in Hout.
    exists i, rl. split_and!; [done|apply Hout|]. eapply tree_denotes. by apply Hpl.
Qed.

Section Whole.
Context (flags : ExprAllocFlags) (d : real_time) (fuel : nat) (nv : nat -> pull_enum).

Lemma wp_auto_create atomic pfp rfp P V : type_pulls flags d fuel nv (length atomic) pfp rfp = Some P ->
  type_invariants fuel nv (length atomic) pfp = Some V ->
  wp (auto_create_unique_process_graph flags d fuel atomic pfp rfp)
    (fun _ a => tree_graph (al_g a) /\ carries nv (length atomic) (al_g a) P V) (alloc_init graph_empty).
Proof.
  intros HP HV. unfold auto_create_unique_process_graph. apply wpe_bind. unfold upd_g at 1. apply wpe_modify.
  set (a0 := put_g _ _). assert (Hst : settled nv (length atomic) [] [] a0).
  { split; [exists ∅; apply planted_start|]. split; [done|]. cbn. apply length_map. }
  pose proof (wp_visit_rules flags d fuel nv (length atomic) pfp rfp P V a0 HP HV Hst) as Hvr.
  apply wp_total in Hvr as (u & a1 & E1 & [R Hpl] & _ & Hn). apply wpe_bind. unfold wpe at 1. rewrite E1.
  apply wpe_bind, wpe_gets.
  destruct (any_optimize flags) eqn:Eo; [destruct (expr_free_list a1) eqn:Ef|]; cbn [andb]; unfold when.
  - apply wpe_ret. rewrite <- Hn. split; [by eapply planted_tree_graph|by eapply planted_carries].
  - eapply wpe_mono; [by eapply wp_compact|]. intros _ a2 ([R2 Hpl2] & Hf & Hn2). rewrite <- Hn, <- Hn2.
    split; [by eapply planted_tree_graph|by eapply planted_carries].
  - apply wpe_ret. assert (Hf : expr_free_list a1 = []) by (by eapply (solid_visit_rules flags Eo); [exact E1|]).
    rewrite <- Hn. split; [by eapply planted_tree_graph|by eapply planted_carries].
Qed.

Lemma process_graph_spec atomic pfp rfp P V : type_pulls flags d fuel nv (length atomic) pfp rfp = Some P ->
  type_invariants fuel nv (length atomic) pfp = Some V ->
  exists g, process_graph flags d fuel atomic pfp rfp = Ok g /\ tree_graph g /\ carries nv (length atomic) g P V.
Proof.
  intros HP HV. pose proof (wp_auto_create atomic pfp rfp P V HP HV) as Hw.
  apply wp_total in Hw as ([] & a & E & Ht & Hc). exists (al_g a). unfold process_graph. by rewrite E.
Qed.

(** C2: the graph that is built for a type, from its production rules, its
    macros, its invariants and its atomic assignments, under any setting of
    the optimizations and of the dynamic supplies, is a well-formed tree graph
    without holes; at each node the pull-ups and pull-downs of either
    strength are exactly the guards of the type's items, in order, each of the
    value that the reference semantics gives it. *)
Theorem process_graph_correct atomic pfp rfp P V :
  type_pulls flags d fuel nv (length atomic) pfp rfp = Some P ->
  type_invariants fuel nv (length atomic) pfp = Some V ->
  exists g, process_graph flags d fuel atomic pfp rfp = Ok g /\ tree_graph g /\ carries nv (length atomic) g P V.
Proof. apply process_graph_spec. Qed.

(** C24: in the graph of a type, once the counters of its expressions agree
    with the pulls of the nodes, as initialization and evaluation keep them,
    the pull that the counters of a rule's root show is the value of the
    rule's guard in the footprint. *)
Theorem guards_of_counters atomic pfp rfp P V g us n f b w :
  type_pulls flags d fuel nv (length atomic) pfp rfp = Some P ->
  type_invariants fuel nv (length atomic) pfp = Some V ->
  process_graph flags d fuel atomic pfp rfp = Ok g -> consistent g (node_leaves nv g) us ->
  local_faninout_map g !! n = Some f ->
  map (expr_pull g us) (get_pull_expr b w f) = pulls_at (n, b, w) P.
Proof.
  intros HP HV E Hc Hf. destruct (process_graph_spec _ _ _ _ _ HP HV) as (g' & E' & _ & Hca).
  assert (g' = g) as -> by congruence. pose proof (ca_pulls _ _ _ _ _ Hca _ _ b w Hf) as Hall. revert Hall. generalize (pulls_at (n, b, w) P) as vs.
  induction 1 as [|i v es vs Hi _ IH]; [done|]. cbn. f_equal; [by eapply consistent_denotes|done].
Qed.
End Whole.

(** ** Supplies in guards *)
Section Supplies.
Context (nv : nat -> pull_enum) (nodes : nat) (pfp : prs_footprint).

(** The value of an expression as it is written, without any supply. *)
Fixpoint plain_val (fuel : nat) (ei : nat) : option pull_enum :=
  match fuel with
  | O => None
  | S fuel' =>
      e ← pool_at (pf_expr_pool pfp) ei;
      match fe_type e with
      | PRS_LITERAL_TYPE_ENUM => n ← only e; node_val nv nodes (lookup_local_bool_id n)
      | PRS_NOT_EXPR_TYPE_ENUM => n ← only e; k_not <$> plain_val fuel' n
      | PRS_AND_EXPR_TYPE_ENUM => foldr k_and PULL_ON <$> mapM (plain_val fuel') (fe_nodes e)
      | PRS_OR_EXPR_TYPE_ENUM => foldr k_or PULL_OFF <$> mapM (plain_val fuel') (fe_nodes e)
      | PRS_NODE_TYPE_ENUM => n ← only e; plain_val fuel' n
      end
  end.
(** Negation-normal form without internal nodes. *)
Fixpoint normal_form (fuel : nat) (ei : nat) : bool :=
  match fuel with
  | O => false
  | S fuel' =>
      match pool_at (pf_expr_pool pfp) ei with
      | None => false
      | Some e =>
          match fe_type e with
          | PRS_LITERAL_TYPE_ENUM => true
          | PRS_NOT_EXPR_TYPE_ENUM => match only e with
              | Some n => match pool_at (pf_expr_pool pfp) n with
                  | Some l => match fe_type l with PRS_LITERAL_TYPE_ENUM => true | _ => false end
                  | None => false
                  end
              | None => false
              end
          | PRS_AND_EXPR_TYPE_ENUM | PRS_OR_EXPR_TYPE_ENUM => forallb (normal_form fuel') (fe_nodes e)
          | PRS_NODE_TYPE_ENUM => false
          end
      end
  end.

Lemma mapM_agree {A B} (f g : A -> option B) l ys : mapM f l = Some ys ->
  (forall x y, f x = Some y -> g x = Some y) -> mapM g l = Some ys.
Proof.
  intros E Hfg. revert ys E. induction l as [|x l IH]; intros ys E; cbn in *; [done|].
  apply bind_Some in E as (y & Hy & (ys' & Hys & [= <-])%bind_Some). by rewrite (Hfg _ _ Hy), (IH _ Hys).
Qed.

Lemma fp_val_plain dir fuel : forall ps ei r, fp_val nv nodes pfp dir fuel ps false ei = Some r ->
  plain_val fuel ei = Some r.1.
Proof.
  induction fuel as [|fuel IH]; intros ps ei r E; [done|]. cbn [fp_val plain_val] in *.
  apply bind_Some in E as (e & He & E). rewrite He. cbn [mbind option_bind]. destruct (fe_type e).
  - apply bind_Some in E as (n & -> & (v & Hv & [= <-])%bind_Some). exact Hv.
  - apply bind_Some in E as (n & -> & (r1 & Hr1 & [= <-])%bind_Some). cbn. by rewrite (IH _ _ _ Hr1).
  - destruct (fe_nodes e) as [|c cs]; [done|]. apply bind_Some in E as (r1 & Hr1 & E).
    apply bind_Some in E as (sup & Hsup & E). apply bind_Some in E as (vs & Hvs & E). case_match; [|done].
    injection E as <-. rewrite (fp_val_src _ _ _ _ _ _ _ _ Hr1) in Hsup. injection Hsup as <-. cbn.
    rewrite (IH _ _ _ Hr1). cbn. rewrite (mapM_agree _ (plain_val fuel) _ _ Hvs); [done|].
    intros x y (r' & Hr' & ->)%fmap_Some. by eapply IH.
  - apply bind_Some in E as (vs & Hvs & E). case_match; [|done]. injection E as <-.
    rewrite (mapM_agree _ (plain_val fuel) _ _ Hvs); [done|].
    intros x y (r' & Hr' & Hw)%bind_Some. unfold with_supply in Hw. rewrite (fp_val_src _ _ _ _ _ _ _ _ Hr') in Hw.
    injection Hw as <-. by eapply IH.
  - apply bind_Some in E as (n & -> & E). apply bind_Some in E as (dd & _ & E). apply bind_Some in E as (ii & _ & E).
    apply bind_Some in E as (s & _ & E). apply bind_Some in E as (r' & Hr' & E). apply bind_Some in E as (v & Hw & [= <-]).
    unfold with_supply in Hw. rewrite (fp_val_src _ _ _ _ _ _ _ _ Hr') in Hw. injection Hw as <-. cbn. by eapply IH.
Qed.

Lemma k_and_comm x y : k_and x y = k_and y x.
Proof. by destruct x, y. Qed.
Lemma k_and_assoc x y z : k_and x (k_and y z) = k_and (k_and x y) z.
Proof. by destruct x, y, z. Qed.
Lemma foldr_k_or_supply s vs : foldr k_or PULL_OFF (map (fun v => k_and v s) vs) = k_and (foldr k_or PULL_OFF vs) s.
Proof. induction vs as [|v vs IH]; cbn; [by destruct s|]. rewrite IH. generalize (foldr k_or PULL_OFF vs) as u. by intros []; destruct v, s. Qed.
Lemma with_supply_done dir ps v : with_supply nv nodes dir ps (v, false) = Some v.
Proof. done. Qed.

(** The supply gates an expression in normal form as a whole. *)
Lemma fp_val_supplied dir ps s fuel : the_supply nv nodes dir ps = Some s -> forall ei r v,
  normal_form fuel ei = true -> fp_val nv nodes pfp dir fuel ps true ei = Some r ->
  with_supply nv nodes dir ps r = Some v -> exists p, plain_val fuel ei = Some p /\ v = k_and p s.
Proof.
  intros Hs. induction fuel as [|fuel IH]; intros ei r v Hnf E Hw; [done|]. cbn [fp_val plain_val normal_form] in *.
  apply bind_Some in E as (e & He & E). rewrite He in Hnf |- *. cbn [mbind option_bind]. destruct (fe_type e).
  - apply bind_Some in E as (n & -> & (w & Hv & [= <-])%bind_Some). exists w. split; [exact Hv|].
    unfold with_supply in Hw. cbn [fst snd] in Hw. rewrite Hs in Hw. by injection Hw.
  - apply bind_Some in E as (n & Hn & (r1 & Hr1 & [= <-])%bind_Some). rewrite Hn in Hnf |- *.
    destruct fuel as [|fuel]; [done|]. cbn [fp_val plain_val mbind option_bind] in *. destruct (pool_at (pf_expr_pool pfp) n) as [l|]; [|done].
    cbn [mbind option_bind] in *. destruct (fe_type l); try done.
    apply bind_Some in Hr1 as (m & -> & (w & Hv & [= <-])%bind_Some). cbn. rewrite Hv. eexists. split; [done|].
    unfold with_supply in Hw. cbn [fst snd] in Hw. rewrite Hs in Hw. by injection Hw.
  - destruct (fe_nodes e) as [|c cs]; [done|]. cbn [forallb] in Hnf. apply andb_true_iff in Hnf as [Hnf _].
    apply bind_Some in E as (r1 & Hr1 & E). apply bind_Some in E as (sup & Hsup & E).
    apply bind_Some in E as (vs & Hvs & E). case_match; [|done]. injection E as <-. injection Hw as <-.
    assert (Hvs' : mapM (plain_val fuel) cs = Some vs).
    { eapply mapM_agree; [exact Hvs|]. intros x y (r' & Hr' & ->)%fmap_Some. by eapply fp_val_plain. }
    cbn. assert (exists p, plain_val fuel c = Some p /\ foldr k_and PULL_ON (sup ++ [r1.1]) = k_and p s) as (p & Hp & Ep).
    { destruct r1 as [v1 []]; cbn [fst snd] in *.
      - rewrite Hs in Hsup. injection Hsup as <-. destruct (IH c (v1, true) (k_and v1 s) Hnf Hr1) as (p & Hp & Ep).
        + unfold with_supply. cbn [fst snd]. by rewrite Hs.
        + exists p. split; [done|]. cbn. rewrite <- Ep. by destruct v1, s.
      - injection Hsup as <-. destruct (IH c (v1, false) v1 Hnf Hr1 eq_refl) as (p & Hp & ->). exists p. split; [done|].
        cbn. by destruct p, s. }
    rewrite Hp, Hvs'. eexists. split; [done|]. cbn. change (r1.1 :: vs) with ([r1.1] ++ vs). rewrite app_assoc, foldr_app.
    clear -Ep. revert Ep. generalize (foldr k_and PULL_ON vs) as u. intros u Ep.
    assert (Hf : foldr k_and u (sup ++ [r1.1]) = k_and (foldr k_and PULL_ON (sup ++ [r1.1])) u).
    { generalize (sup ++ [r1.1]) as l. induction l as [|x l IH]; cbn; [by destruct u|]. by rewrite IH, k_and_assoc. }
    rewrite Hf, Ep, <- !k_and_assoc. f_equal. apply k_and_comm.
  - apply bind_Some in E as (vs & Hvs & E). case_match; [|done]. injection E as <-. injection Hw as <-.
    assert (exists ws, mapM (plain_val fuel) (fe_nodes e) = Some ws /\ vs = map (fun v => k_and v s) ws) as (ws & -> & ->).
    { clear He H. revert vs Hvs Hnf. induction (fe_nodes e) as [|c cs IHc]; intros vs Hvs Hnf; cbn in *.
      - injection Hvs as <-. by exists [].
      - apply andb_true_iff in Hnf as [Hc Hcs]. apply bind_Some in Hvs as (v & (r' & Hr' & Hv)%bind_Some & (vs' & Hvs' & [= <-])%bind_Some).
        destruct (IH _ _ _ Hc Hr' Hv) as (p & -> & ->). destruct (IHc _ Hvs' Hcs) as (ws & -> & ->). by exists (p :: ws). }
    eexists. split; [done|]. apply foldr_k_or_supply.
  - done.
Qed.

(** The visit of the guard of a rule allocates an expression of its own.
    Without dynamic supplies its value is that of the rule's expression as
    written; with a dynamic supply of value [s] (a ground is inverted), the
    guard of a rule whose expression is in negation-normal form is gated as a
    whole: its value is the conjunction of the expression and [s]. *)
Theorem guard_gated_by_supply flags fuel ri r dummy si v s a :
  let supply := lookup_local_bool_id (if fr_dir r then so_Vdd si else so_GND si) in
  let dynamic := if fr_dir r then dynamic_power_supply flags else dynamic_ground_supply flags in
  pool_ok a -> length (local_faninout_map (al_g a)) = nodes -> direction dummy = fr_dir r ->
  lookup_rule_supply pfp ri = Some si -> guard_val flags fuel nv nodes pfp ri r = Some v ->
  supply_val nv nodes (fr_dir r) supply = Some s ->
  normal_form fuel (fr_expr_index r) = true \/ dynamic = false ->
  exists i a' J p, visit_guard flags fuel pfp ri r dummy a = Ok (i, a') /\ own ∅ J a a' /\
    plain_val fuel (fr_expr_index r) = Some p /\ tree nv (al_g a') i J (if dynamic then k_and p s else p).
Proof.
  intros supply dynamic Hp Hn Hd Hsi E Hs Hnf.
  pose proof (wp_visit_guard flags fuel nv nodes pfp ri r dummy v a Hp Hn Hd E) as Hw.
  apply wp_total in Hw as (i & a' & Erun & J & Ho & Ht & _). exists i, a', J.
  assert (exists p, plain_val fuel (fr_expr_index r) = Some p /\ v = if dynamic then k_and p s else p) as (p & Hpl & ->);
    [|by exists p]. unfold guard_val in E. rewrite Hsi in E. cbn [mbind option_bind] in E.
  fold supply dynamic in E. apply bind_Some in E as (res & Hres & Hws). destruct dynamic.
  - destruct Hnf as [Hnf|]; [|done]. by eapply (fp_val_supplied (Some (fr_dir r)) supply).
  - pose proof (fp_val_src _ _ _ _ _ _ _ _ Hres) as Hsrc. unfold with_supply in Hws. rewrite Hsrc in Hws.
    injection Hws as <-. exists res.1. split; [by eapply fp_val_plain|done].
Qed.
End Supplies.

(** ** An example: an OR gate, with the nodes GND, Vdd, a, b and y *)
Section Example.
Definition or_exprs : list footprint_expr_node :=
  [mkFExpr PRS_LITERAL_TYPE_ENUM [3%nat]; mkFExpr PRS_LITERAL_TYPE_ENUM [4%nat];
   mkFExpr PRS_AND_EXPR_TYPE_ENUM [1%nat; 2%nat]; mkFExpr PRS_OR_EXPR_TYPE_ENUM [1%nat; 3%nat];
   mkFExpr PRS_NOT_EXPR_TYPE_ENUM [4%nat]; mkFExpr PRS_NOT_EXPR_TYPE_ENUM [3%nat]].
(** [a | a & b -> y-], [~(a | a & b) -> y+], and the invariant [a]. *)
Definition or_prs : prs_footprint :=
  mkPRS [mkFRule 4 5 false [("weak"%string, [])]; mkFRule 5 5 true []] or_exprs [] [] [1%nat] [mkSupply 0 0 2 1].
Definition or_atomic : list bool := [false; false; false; false; false].
Definition or_flags : ExprAllocFlags := optimize 1 ExprAllocFlags_default.
Definition or_values (n : nat) : pull_enum := match n with 1%nat | 2%nat => PULL_ON | 3%nat => PULL_WEAK | _ => PULL_OFF end.

Lemma process_graph_correct_witness : exists g,
  process_graph or_flags real_zero 4 or_atomic (Some or_prs) None = Ok g /\ tree_graph g /\
  carries or_values 5 g [((4%nat, false, WEAK_RULE), PULL_ON); ((4%nat, true, NORMAL_RULE), PULL_OFF)] [PULL_ON].
Proof.
  exact (process_graph_correct or_flags real_zero 4 or_values or_atomic (Some or_prs) None
    [((4%nat, false, WEAK_RULE), PULL_ON); ((4%nat, true, NORMAL_RULE), PULL_OFF)] [PULL_ON] eq_refl eq_refl).
Defined.

Definition all_X (n : nat) : pull_enum := PULL_WEAK.
Definition or_graph : unique_process_subgraph :=
  match process_graph or_flags real_zero 4 or_atomic (Some or_prs) None with Ok g => g | Err _ => graph_empty end.
Definition or_states : list ExprState :=
  match process_initialize or_graph (allocate_from_type or_graph 0 1) with Ok p => expr_states p | Err _ => [] end.
Lemma or_consistent : consistent or_graph (node_leaves all_X or_graph) or_states.
Proof.
  split; [vm_compute; reflexivity|]. intros i e gn u _ He _ Hgn Hu.
  do 5 (destruct i as [|i]; [vm_compute in He, Hgn, Hu; injection He as <-; injection Hgn as <-; injection Hu as <-; by vm_compute|]).
  apply lookup_lt_Some in He. change (length (expr_pool or_graph)) with 5%nat in He. lia.
Qed.
Definition or_pulls_at_y : faninout_struct_type :=
  match local_faninout_map or_graph !! 4%nat with Some f => f | None => mkFaninout [] [] [] [] [] false end.
Lemma or_graph_ok : process_graph or_flags real_zero 4 or_atomic (Some or_prs) None = Ok or_graph.
Proof. vm_compute. reflexivity. Qed.
Lemma or_pulls_at_y_ok : local_faninout_map or_graph !! 4%nat = Some or_pulls_at_y.
Proof. vm_compute. reflexivity. Qed.
Lemma guards_of_counters_witness :
  map (expr_pull or_graph or_states) (get_pull_expr false WEAK_RULE or_pulls_at_y) = [PULL_WEAK].
Proof.
  exact (guards_of_counters or_flags real_zero 4 all_X or_atomic (Some or_prs) None
    [((4%nat, false, WEAK_RULE), PULL_WEAK); ((4%nat, true, NORMAL_RULE), PULL_WEAK)] [PULL_WEAK] or_graph or_states
    4 or_pulls_at_y false WEAK_RULE eq_refl eq_refl or_graph_ok or_consistent or_pulls_at_y_ok).
Defined.

Definition or_supplied : ExprAllocFlags := mkFlags 3 false false true true.
Definition or_rule : footprint_rule := mkFRule 4 5 false [].
Definition or_start : alloc_state := put_g (new_graph or_atomic) (alloc_init graph_empty).
Lemma guard_gated_by_supply_witness : exists i a' J p,
  visit_guard or_supplied 4 or_prs 0 or_rule (set_direction false (Rule_make real_zero)) or_start = Ok (i, a') /\
  own ∅ J or_start a' /\ plain_val or_values 5 or_prs 4 4 = Some p /\ tree or_values (al_g a') i J (k_and p PULL_ON).
Proof.
  exact (guard_gated_by_supply or_values 5 or_prs or_supplied 4 0 or_rule (set_direction false (Rule_make real_zero))
    (mkSupply 0 0 2 1) PULL_ON PULL_ON or_start (pl_pool _ _ _ _ _ (planted_start or_values or_atomic)) eq_refl eq_refl
    eq_refl eq_refl eq_refl (or_introl eq_refl)).
Defined.

(** Compaction moves an expression with its rule, but the map of
    invariants keeps the old index: in the graph of this type, the root of the
    invariant, which is [a], is not in the map, where a violation looks it up. *)
Theorem compaction_strands_invariants : exists g i rl,
  process_graph or_flags real_zero 4 or_atomic (Some or_prs) None = Ok g /\
  rule_of g i rl /\ is_invariant rl = true /\ m_find i (invariant_map g) = None.
Proof.
  exists or_graph, 4%nat, (set_invariant (Rule_make real_zero)). split; [exact or_graph_ok|].
  split; [exists 2%nat; by vm_compute|]. by vm_compute.
Qed.

(** the supply of a negated conjunction goes inside of the negation: in
    the graph of a type with the rule [~(a & b) -> y+], with dynamic supplies,
    the guard of the pull-up is on although the power supply is off. *)
Theorem negation_conducts_without_supply :
  let prs := mkPRS [mkFRule 6 5 true []] or_exprs [] [] [] [mkSupply 0 0 2 1] in
  exists g f i nv, process_graph or_supplied real_zero 4 or_atomic (Some prs) None = Ok g /\
    local_faninout_map g !! 4%nat = Some f /\ get_pull_expr true NORMAL_RULE f = [i] /\
    nv 1%nat = PULL_OFF /\ denotes g (node_leaves nv g) i PULL_ON.
Proof.
  intros prs. destruct (process_graph_spec or_supplied real_zero 4 (fun _ => PULL_OFF) or_atomic (Some prs) None
    [((4%nat, true, NORMAL_RULE), PULL_ON)] [] eq_refl eq_refl) as (g & E & _ & Hca).
  destruct (lookup_lt_is_Some_2 (local_faninout_map g) 4) as [f Hf]; [rewrite (ca_nodes _ _ _ _ _ Hca); cbn; lia|].
  pose proof (ca_pulls _ _ _ _ _ Hca _ _ true NORMAL_RULE Hf) as Hall. apply Forall2_cons_inv_r in Hall as (i & l & Hi & Hl & El).
  apply Forall2_nil_inv_r in Hl as ->. exists g, f, i, (fun _ => PULL_OFF). by split_and!.
Qed.
End Example.
