(* ===== verification/MetaValue.v ===== *)
(** Values of meta-parameters and the operators on them: "Object/expr/types.hh",
    "util/operators.hh", "util/numeric/zerodiv_detect.hh", and the operator
    tables ([op_map], [reverse_op_map]) and unary operators of
    "Object/expr/operators.cc".

    A [pint] is a 64-bit signed [long], a [preal] an IEEE single, a [pstring]
    an [std::string].  An operator may throw ([std::domain_error] on a zero
    divisor) or leave the defined behaviour of C++ (overflow, shifts by the
    width or more), which [outcome] tells from an error that has been
    reported. *)
From stdpp Require Import strings.
From Stdlib Require Import Ascii Floats.SpecFloat.
From S2P Require Import Prelude.
Open Scope Z_scope.

(** ** Outcomes

    [Bad] is [good_bool(false)], or a NULL pointer: the error has been
    reported and the caller goes on.  [Throws] is a C++ exception. *)
Inductive outcome (A : Type) : Type :=
  | Good (a : A)
  | Bad
  | Throws
  | Crash (f : fault).
Arguments Good {A} _.
Arguments Bad {A}.
Arguments Throws {A}.
Arguments Crash {A} _.

Definition obind {A B} (m : outcome A) (k : A -> outcome B) : outcome B :=
  match m with
  | Good a => k a
  | Bad => Bad
  | Throws => Throws
  | Crash f => Crash f
  end.

Definition omap_out {A B} (f : A -> B) (m : outcome A) : outcome B :=
  obind m (fun a => Good (f a)).

(** Evaluates both operands, the left one first, and only then looks at
    whether they are good: a bad left operand does not keep the right one from
    throwing. *)
Definition both {A B R} (l : outcome A) (r : outcome B) (k : A -> B -> outcome R) : outcome R :=
  match l with
  | Throws => Throws
  | Crash f => Crash f
  | Good a => obind r (k a)
  | Bad => obind r (fun _ => Bad)
  end.

(** [try { ... } catch (const std::exception&) { return NULL; }] *)
Definition catching {A} (m : outcome A) : outcome A :=
  match m with Throws => Bad | _ => m end.

(** [INVARIANT(b)] *)
Definition invariant (b : bool) : outcome unit := if b then Good tt else Crash F_assert.

Declare Scope meta_scope.
Delimit Scope meta_scope with meta.
Infix ">>=o" := obind (at level 58, left associativity) : meta_scope.
Open Scope meta_scope.

(** ** The value types *)
Definition pint_value_type : Type := Z.
Definition pbool_value_type : Type := bool.
Definition preal_value_type : Type := spec_float.
Definition pstring_value_type : Type := string.

Definition LONG_MIN : Z := - 2 ^ 63.
Definition LONG_MAX : Z := 2 ^ 63 - 1.
Definition is_long (v : Z) : bool := (LONG_MIN <=? v) && (v <=? LONG_MAX).

(** The [long] of a 64-bit pattern. *)
Definition long_of_bits (v : Z) : Z :=
  let u := wrap 64 v in if 2 ^ 63 <=? u then u - 2 ^ 64 else u.

(** Signed arithmetic is undefined when the result does not fit. *)
Definition checked (v : Z) : outcome Z := if is_long v then Good v else Crash F_undef.

(** ** Operators on [pint] *)
Inductive pint_arith_op : Set :=
  | adder | subtractor | multiplier | divider | remainder
  | doubler | halver | masker | unmasker | hasher.

#[export] Instance pint_arith_op_eq_dec : EqDecision pint_arith_op.
Proof. solve_decision. Defined.

Definition zerodiv_detect (v : Z) : bool := v =? 0.

Definition divides (a b : Z) : outcome Z :=
  if zerodiv_detect b then Throws else checked (Z.quot a b).

(** [LONG_MIN % -1] is undefined, like the quotient. *)
Definition modulus (a b : Z) : outcome Z :=
  if zerodiv_detect b then Throws
  else if is_long (Z.quot a b) then Good (Z.rem a b) else Crash F_undef.

(** [a << s] shifts the bit pattern of [a]. *)
Definition shift_left (a s : Z) : outcome Z :=
  if (0 <=? s) && (s <? 64) then Good (long_of_bits (Z.shiftl a s)) else Crash F_undef.

Definition shift_right (a s : Z) : outcome Z :=
  if (0 <=? s) && (s <? 64) then Good (Z.shiftr a s) else Crash F_undef.

Definition pint_arith (o : pint_arith_op) (a b : Z) : outcome Z :=
  match o with
  | adder => checked (a + b)
  | subtractor => checked (a - b)
  | multiplier => checked (a * b)
  | divider => divides a b
  | remainder => modulus a b
  | doubler => shift_left a b
  | halver => shift_right a b
  | masker => Good (Z.land a b)
  | unmasker => Good (Z.lor a b)
  | hasher => Good (Z.lxor a b)
  end.

(** [pint_unary_expr::evaluate]: whatever is not ['-'] is ['~']. *)
Definition pint_unary_evaluate (op : ascii) (v : Z) : outcome Z :=
  if bool_decide (op = "-"%char) then checked (- v) else Good (Z.lnot v).

Definition pint_op_map (c : ascii) : option pint_arith_op :=
  match c with
  | "+" => Some adder | "-" => Some subtractor | "*" => Some multiplier
  | "/" => Some divider | "%" => Some remainder
  | "<" => Some doubler | ">" => Some halver
  | "&" => Some masker | "^" => Some hasher | "|" => Some unmasker
  | _ => None
  end%char.

Definition pint_reverse_op_map (o : pint_arith_op) : ascii :=
  match o with
  | adder => "+" | subtractor => "-" | multiplier => "*"
  | divider => "/" | remainder => "%"
  | doubler => "<" | halver => ">"
  | masker => "&" | hasher => "^" | unmasker => "|"
  end%char.

(** ** Operators on [preal] *)
Definition float_prec : Z := 24.
Definition float_emax : Z := 128.

(** [std::numeric_limits<float>::min()], the least normal number. *)
Definition FLT_MIN : spec_float := S754_finite false (2 ^ 23)%positive (-149).

Definition zerodiv_detect_float (v : spec_float) : bool := SFltb v FLT_MIN.

(** [float(v)] of a [long]: rounded to nearest, ties to even. *)
Definition float_of_long (v : Z) : spec_float :=
  binary_normalize float_prec float_emax v 0 false.

(** The mantissas of [x] and [y] over the lesser of their two exponents. *)
Definition align (mx : positive) (ex : Z) (e : Z) : Z := Z.pos mx * 2 ^ (ex - e).

(** C's [fmodf], exact on finite numbers; the result has the sign of [x]. *)
Definition fmodf (x y : spec_float) : spec_float :=
  match x, y with
  | S754_nan, _ | _, S754_nan => S754_nan
  | S754_infinity _, _ => S754_nan
  | _, S754_zero _ => S754_nan
  | _, S754_infinity _ => x
  | S754_zero _, _ => x
  | S754_finite sx mx ex, S754_finite _ my ey =>
      let e := Z.min ex ey in
      let r := Z.rem (align mx ex e) (align my ey e) in
      binary_normalize float_prec float_emax (cond_Zopp sx r) e sx
  end.

Inductive preal_arith_op : Set :=
  | radder | rsubtractor | rmultiplier | rdivider | rremainder.

#[export] Instance preal_arith_op_eq_dec : EqDecision preal_arith_op.
Proof. solve_decision. Defined.

Definition preal_arith (o : preal_arith_op) (a b : spec_float) : outcome spec_float :=
  match o with
  | radder => Good (SFadd float_prec float_emax a b)
  | rsubtractor => Good (SFsub float_prec float_emax a b)
  | rmultiplier => Good (SFmul float_prec float_emax a b)
  | rdivider =>
      if zerodiv_detect_float b then Throws else Good (SFdiv float_prec float_emax a b)
  | rremainder => if zerodiv_detect_float b then Throws else Good (fmodf a b)
  end.

Definition preal_unary_evaluate (op : ascii) (v : spec_float) : outcome spec_float :=
  invariant (bool_decide (op = "-"%char)) >>=o fun _ => Good (SFopp v).

Definition preal_op_map (c : ascii) : option preal_arith_op :=
  match c with
  | "+" => Some radder | "-" => Some rsubtractor | "*" => Some rmultiplier
  | "/" => Some rdivider | "%" => Some rremainder
  | _ => None
  end%char.

Definition preal_reverse_op_map (o : preal_arith_op) : ascii :=
  match o with
  | radder => "+" | rsubtractor => "-" | rmultiplier => "*"
  | rdivider => "/" | rremainder => "%"
  end%char.

(** ** Relational operators *)
Inductive relational_op : Set :=
  | op_equal_to | op_not_equal_to | op_less | op_greater | op_less_equal | op_greater_equal.

#[export] Instance relational_op_eq_dec : EqDecision relational_op.
Proof. solve_decision. Defined.

Definition pint_relation (o : relational_op) (a b : Z) : bool :=
  match o with
  | op_equal_to => a =? b
  | op_not_equal_to => negb (a =? b)
  | op_less => a <? b
  | op_greater => b <? a
  | op_less_equal => a <=? b
  | op_greater_equal => b <=? a
  end.

Definition preal_relation (o : relational_op) (a b : spec_float) : bool :=
  match o with
  | op_equal_to => SFeqb a b
  | op_not_equal_to => negb (SFeqb a b)
  | op_less => SFltb a b
  | op_greater => SFltb b a
  | op_less_equal => SFleb a b
  | op_greater_equal => SFleb b a
  end.

Definition pstring_relation (o : relational_op) (a b : string) : bool :=
  match o with
  | op_equal_to => String.eqb a b
  | op_not_equal_to => negb (String.eqb a b)
  | op_less => String.ltb a b
  | op_greater => String.ltb b a
  | op_less_equal => negb (String.ltb b a)
  | op_greater_equal => negb (String.ltb a b)
  end.

Definition relational_op_map (s : string) : option relational_op :=
  match s with
  | "==" => Some op_equal_to | "!=" => Some op_not_equal_to
  | "<" => Some op_less | ">" => Some op_greater
  | "<=" => Some op_less_equal | ">=" => Some op_greater_equal
  | _ => None
  end%string.

Definition relational_reverse_op_map (o : relational_op) : string :=
  match o with
  | op_equal_to => "==" | op_not_equal_to => "!="
  | op_less => "<" | op_greater => ">"
  | op_less_equal => "<=" | op_greater_equal => ">="
  end%string.

(** ** Logical operators *)
Inductive logical_op : Set := op_and | op_or | op_xor | op_xnor.

#[export] Instance logical_op_eq_dec : EqDecision logical_op.
Proof. solve_decision. Defined.

Definition pbool_logical (o : logical_op) (a b : bool) : bool :=
  match o with
  | op_and => a && b
  | op_or => a || b
  | op_xor => xorb a b
  | op_xnor => negb (xorb a b)
  end.

Definition pbool_unary_evaluate (op : ascii) (v : bool) : outcome bool :=
  invariant (bool_decide (op = "~"%char)) >>=o fun _ => Good (negb v).

Definition pbool_op_map (s : string) : option logical_op :=
  match s with
  | "&&" => Some op_and | "||" => Some op_or
  | "!=" => Some op_xor | "==" => Some op_xnor
  | _ => None
  end%string.

Definition pbool_reverse_op_map (o : logical_op) : string :=
  match o with
  | op_and => "&&" | op_or => "||" | op_xor => "!=" | op_xnor => "=="
  end%string.
