(* ===== verification/MetaExpr.v ===== *)
(** Meta-parameter expressions: the classes of "Object/expr/operators.cc",
    "Object/expr/basic_param.cc", "loop_meta_expr.tcc", "convert_expr.tcc",
    "meta_range.cc" and "meta_index_expr_list.cc", with the value references
    of "Object/ref/simple_meta_value_reference.tcc", the collections of values
    of "Object/inst/value_collection.tcc" and the look-up of them in
    "Object/unroll/unroll_context.cc".

    One constructor per concrete class, one inductive type per abstract class;
    a virtual function is a family of mutually recursive functions, whose
    branches are the overriding methods.  Left out are aggregates, calls of
    loaded functions, references to members, and the loops over [preal] that
    no expression of the language makes. *)
From stdpp Require Import strings gmap.
From Stdlib Require Import Ascii Floats.SpecFloat.
From S2P Require Import Prelude MetaValue.
Open Scope Z_scope.

#[local] Abbreviation length := Datatypes.length.

(** ** Value placeholders

    The declared parameter that a reference names.  [is_template_formal] is
    its position among the template parameters of its owner, from 1, or 0.
    [footprint_key] is the name, qualified if the owner is a namespace other
    than the global one. *)
Inductive ptype : Set := PInt | PBool | PReal | PString.

#[export] Instance ptype_eq_dec : EqDecision ptype.
Proof. solve_decision. Defined.

Record value_placeholder : Type := {
  get_name : string;
  footprint_key : string;
  get_dimensions : nat;
  is_template_formal : nat;
  is_relaxed_template_formal : bool;
  get_owner : option nat       (* the definition, if it is not a namespace *)
}.

#[export] Instance value_placeholder_eq_dec : EqDecision value_placeholder.
Proof. solve_decision. Defined.

(** ** Expressions *)
Inductive pint_expr : Type :=
  | pint_const (val : Z)
  | pint_value_reference (p : value_placeholder) (array_indices : meta_index_list)
  | pint_unary_expr (op : ascii) (ex : pint_expr)
  | pint_arith_expr (lx : pint_expr) (op : pint_arith_op) (rx : pint_expr)
  | pint_arith_loop_expr (ind_var : value_placeholder) (range : meta_range_expr)
      (ex : pint_expr) (op : pint_arith_op)
with pbool_expr : Type :=
  | pbool_const (val : bool)
  | pbool_value_reference (p : value_placeholder) (array_indices : meta_index_list)
  | pbool_unary_expr (op : ascii) (ex : pbool_expr)
  | pbool_logical_expr (lx : pbool_expr) (op : logical_op) (rx : pbool_expr)
  | pint_relational_expr (lx : pint_expr) (op : relational_op) (rx : pint_expr)
  | preal_relational_expr (lx : preal_expr) (op : relational_op) (rx : preal_expr)
  | pstring_relational_expr (lx : pstring_expr) (op : relational_op) (rx : pstring_expr)
  | pbool_logical_loop_expr (ind_var : value_placeholder) (range : meta_range_expr)
      (ex : pbool_expr) (op : logical_op)
  | param_defined (t : ptype) (p : value_placeholder) (array_indices : meta_index_list)
with preal_expr : Type :=
  | preal_const (val : spec_float)
  | preal_value_reference (p : value_placeholder) (array_indices : meta_index_list)
  | preal_unary_expr (op : ascii) (ex : preal_expr)
  | preal_arith_expr (lx : preal_expr) (op : preal_arith_op) (rx : preal_expr)
  | convert_pint_to_preal_expr (rvalue_expr : pint_expr)
with pstring_expr : Type :=
  | pstring_const (val : string)
  | pstring_value_reference (p : value_placeholder) (array_indices : meta_index_list)
with meta_range_expr : Type :=
  | const_range (first second : Z)
  | pint_range (lower upper : pint_expr)
with meta_index_list : Type :=
  | no_indices                                          (* also the NULL list *)
  | index_int (e : pint_expr) (l : meta_index_list)
  | index_range (r : meta_range_expr) (l : meta_index_list).

Scheme pint_expr_mind := Induction for pint_expr Sort Prop
  with pbool_expr_mind := Induction for pbool_expr Sort Prop
  with preal_expr_mind := Induction for preal_expr Sort Prop
  with pstring_expr_mind := Induction for pstring_expr Sort Prop
  with meta_range_expr_mind := Induction for meta_range_expr Sort Prop
  with meta_index_list_mind := Induction for meta_index_list Sort Prop.
Combined Scheme meta_expr_mind from pint_expr_mind, pbool_expr_mind, preal_expr_mind,
  pstring_expr_mind, meta_range_expr_mind, meta_index_list_mind.

(** [count_ptr<const param_expr>]: an expression of any type. *)
Inductive param_expr : Type :=
  | AnInt (e : pint_expr)
  | ABool (e : pbool_expr)
  | AReal (e : preal_expr)
  | AString (e : pstring_expr).

Definition param_type (e : param_expr) : ptype :=
  match e with AnInt _ => PInt | ABool _ => PBool | AReal _ => PReal | AString _ => PString end.

(** *** Dimensions *)
Fixpoint indices_size (l : meta_index_list) : nat :=
  match l with
  | no_indices => 0
  | index_int _ l | index_range _ l => S (indices_size l)
  end.

Fixpoint dimensions_collapsed (l : meta_index_list) : nat :=
  match l with
  | no_indices => 0
  | index_int _ l => S (dimensions_collapsed l)
  | index_range _ l => dimensions_collapsed l
  end.

Definition reference_dimensions (p : value_placeholder) (i : meta_index_list) : nat :=
  get_dimensions p - dimensions_collapsed i.

Definition pint_dimensions (e : pint_expr) : nat :=
  match e with pint_value_reference p i => reference_dimensions p i | _ => 0 end.
Definition pbool_dimensions (e : pbool_expr) : nat :=
  match e with pbool_value_reference p i => reference_dimensions p i | _ => 0 end.
Definition preal_dimensions (e : preal_expr) : nat :=
  match e with
  | preal_value_reference p i => reference_dimensions p i
  | convert_pint_to_preal_expr e => pint_dimensions e
  | _ => 0
  end.
Definition pstring_dimensions (e : pstring_expr) : nat :=
  match e with pstring_value_reference p i => reference_dimensions p i | _ => 0 end.

(** *** Constants *)
Fixpoint pint_is_static_constant (e : pint_expr) : bool :=
  match e with
  | pint_const _ => true
  | pint_value_reference _ _ => false
  | pint_unary_expr _ ex => pint_is_static_constant ex
  | pint_arith_expr lx _ rx => pint_is_static_constant lx && pint_is_static_constant rx
  | pint_arith_loop_expr _ _ _ _ => false
  end.

Fixpoint preal_is_static_constant (e : preal_expr) : bool :=
  match e with
  | preal_const _ => true
  | preal_value_reference _ _ => false
  | preal_unary_expr _ ex => preal_is_static_constant ex
  | preal_arith_expr lx _ rx => preal_is_static_constant lx && preal_is_static_constant rx
  | convert_pint_to_preal_expr ex => pint_is_static_constant ex
  end.

Definition pstring_is_static_constant (e : pstring_expr) : bool :=
  match e with pstring_const _ => true | pstring_value_reference _ _ => false end.

Fixpoint pbool_is_static_constant (e : pbool_expr) : bool :=
  match e with
  | pbool_const _ => true
  | pbool_value_reference _ _ => false
  | pbool_unary_expr _ ex => pbool_is_static_constant ex
  | pbool_logical_expr lx _ rx => pbool_is_static_constant lx && pbool_is_static_constant rx
  | pint_relational_expr lx _ rx => pint_is_static_constant lx && pint_is_static_constant rx
  | preal_relational_expr lx _ rx => preal_is_static_constant lx && preal_is_static_constant rx
  | pstring_relational_expr lx _ rx =>
      pstring_is_static_constant lx && pstring_is_static_constant rx
  | pbool_logical_loop_expr _ _ _ _ => false
  | param_defined _ _ _ => false
  end.

Definition range_is_static_constant (r : meta_range_expr) : bool :=
  match r with
  | const_range _ _ => true
  | pint_range l u => pint_is_static_constant l && pint_is_static_constant u
  end.

(** The value of a constant; of anything else, a failed assertion. *)
Fixpoint pint_static_constant_value (e : pint_expr) : outcome Z :=
  match e with
  | pint_const v => Good v
  | pint_value_reference _ _ => Crash F_assert
  | pint_unary_expr op ex => pint_static_constant_value ex >>=o pint_unary_evaluate op
  | pint_arith_expr lx op rx =>
      both (pint_static_constant_value lx) (pint_static_constant_value rx) (pint_arith op)
  | pint_arith_loop_expr _ _ _ _ => Crash F_ise
  end.

(** The negation is not looked up: the operator can only be ['-']. *)
Fixpoint preal_static_constant_value (e : preal_expr) : outcome spec_float :=
  match e with
  | preal_const v => Good v
  | preal_value_reference _ _ => Crash F_assert
  | preal_unary_expr _ ex => omap_out SFopp (preal_static_constant_value ex)
  | preal_arith_expr lx op rx =>
      both (preal_static_constant_value lx) (preal_static_constant_value rx) (preal_arith op)
  | convert_pint_to_preal_expr ex => omap_out float_of_long (pint_static_constant_value ex)
  end.

Definition pstring_static_constant_value (e : pstring_expr) : outcome string :=
  match e with
  | pstring_const v => Good v
  | pstring_value_reference _ _ => Crash F_assert
  end.

Definition relate {A} (rel : A -> A -> bool) (l r : outcome A) : outcome bool :=
  both l r (fun a b => Good (rel a b)).

Fixpoint pbool_static_constant_value (e : pbool_expr) : outcome bool :=
  match e with
  | pbool_const v => Good v
  | pbool_value_reference _ _ => Crash F_assert
  | pbool_unary_expr op ex => pbool_static_constant_value ex >>=o pbool_unary_evaluate op
  | pbool_logical_expr lx op rx =>
      relate (pbool_logical op) (pbool_static_constant_value lx) (pbool_static_constant_value rx)
  | pint_relational_expr lx op rx =>
      relate (pint_relation op) (pint_static_constant_value lx) (pint_static_constant_value rx)
  | preal_relational_expr lx op rx =>
      relate (preal_relation op) (preal_static_constant_value lx) (preal_static_constant_value rx)
  | pstring_relational_expr lx op rx =>
      relate (pstring_relation op)
        (pstring_static_constant_value lx) (pstring_static_constant_value rx)
  | pbool_logical_loop_expr _ _ _ _ => Crash F_ise
  | param_defined _ _ _ => Crash F_ise
  end.

(** ** Values in footprints

    The instance of a parameter: whether it was declared ([instantiated]) and
    whether it was given its value ([valid]). *)
Record param_instance (A : Type) : Type := {
  value : A;
  instantiated : bool;
  valid : bool
}.
Arguments value {A} _.
Arguments instantiated {A} _.
Arguments valid {A} _.

(** [value_array<Tag,0>] and [value_array<Tag,D>]. *)
Inductive value_array (A : Type) : Type :=
  | value_scalar (the_instance : param_instance A)
  | value_collection (D : nat) (collection : gmap (list Z) (param_instance A)).
Arguments value_scalar {A} _.
Arguments value_collection {A} _ _.

(** What a footprint's map of collections holds. *)
Inductive instance_collection : Type :=
  | pint_collection (v : value_array Z)
  | pbool_collection (v : value_array bool)
  | preal_collection (v : value_array spec_float)
  | pstring_collection (v : value_array string)
  | physical_collection.

Abbreviation footprint := (gmap string instance_collection).

(** A context's own look-up footprint, the top-level one, and the context of
    the enclosing scope. *)
Inductive unroll_context : Type :=
  | root_context (lookup_footprint top_footprint : option footprint)
  | chained_context (lookup_footprint top_footprint : option footprint) (next : unroll_context).

Definition is_a_value (i : instance_collection) : option instance_collection :=
  match i with physical_collection => None | _ => Some i end.

Definition footprint_value (f : option footprint) (key : string) : option instance_collection :=
  f ≫= fun m => m !! key ≫= is_a_value.

Definition first_of {A} (a b : option A) : option A :=
  match a with Some _ => a | None => b end.

Fixpoint lookup_rvalue_collection (c : unroll_context) (key : string) : option instance_collection :=
  match c with
  | root_context f t => first_of (footprint_value f key) (footprint_value t key)
  | chained_context f t next =>
      first_of (footprint_value f key)
        (first_of (lookup_rvalue_collection next key) (footprint_value t key))
  end.

Definition top_footprint (c : unroll_context) : option footprint :=
  match c with root_context _ t | chained_context _ t _ => t end.

Definition as_pint (i : instance_collection) : option (value_array Z) :=
  match i with pint_collection v => Some v | _ => None end.
Definition as_pbool (i : instance_collection) : option (value_array bool) :=
  match i with pbool_collection v => Some v | _ => None end.
Definition as_preal (i : instance_collection) : option (value_array spec_float) :=
  match i with preal_collection v => Some v | _ => None end.
Definition as_pstring (i : instance_collection) : option (value_array string) :=
  match i with pstring_collection v => Some v | _ => None end.

(** *** Looking up one value *)
Section Lookup.
Context {A : Type}.

Definition lookup_value (i : param_instance A) : outcome A :=
  if valid i then Good (value i) else Bad.

(** At an index: the scalar's version must not be called. *)
Definition lookup_value_at (v : value_array A) (k : list Z) : outcome A :=
  match v with
  | value_scalar _ => Crash F_ise
  | value_collection D m =>
      invariant (D =? length k)%nat >>=o fun _ =>
      match m !! k with None => Bad | Some i => lookup_value i end
  end.

Definition lookup_defined_at (v : value_array A) (k : list Z) : outcome bool :=
  match v with
  | value_scalar _ => Crash F_ise
  | value_collection D m =>
      invariant (D =? length k)%nat >>=o fun _ =>
      match m !! k with None => Bad | Some i => Good (valid i) end
  end.
End Lookup.

(** *** Resolved indices *)
Inductive const_index : Type :=
  | ci_int (v : Z)
  | ci_range (first second : Z).

Definition lower_bound (i : const_index) : Z :=
  match i with ci_int v => v | ci_range l _ => l end.
Definition upper_bound (i : const_index) : Z :=
  match i with ci_int v => v | ci_range _ u => u end.

Definition lower_multikey (l : list const_index) : list Z := lower_bound <$> l.
Definition upper_multikey (l : list const_index) : list Z := upper_bound <$> l.

Definition is_ci_int (i : const_index) : bool :=
  match i with ci_int _ => true | ci_range _ _ => false end.

(** The key that a list of resolved indices stands for, if it is one. *)
Definition multikey_of (l : list const_index) : outcome (list Z) :=
  if bool_decide (lower_multikey l = upper_multikey l) then Good (lower_multikey l) else Bad.

Section References.
Context {A : Type}.

(** [unroll_resolve_value]: [v] is the collection found, if it has the type of
    the reference; [idx] its resolved indices, if there are any.  The cast of a
    scalar reference to a scalar collection throws if it fails. *)
Definition reference_value (v : option (value_array A))
    (idx : option (outcome (list const_index))) : outcome A :=
  match v with
  | None => Bad
  | Some a =>
      match idx with
      | Some l => l >>=o multikey_of >>=o lookup_value_at a
      | None => match a with value_scalar i => lookup_value i | value_collection _ _ => Throws end
      end
  end.

Definition reference_defined (v : option (value_array A))
    (idx : option (outcome (list const_index))) : outcome bool :=
  match v with
  | None => Bad
  | Some a =>
      match idx with
      | Some l => l >>=o multikey_of >>=o lookup_defined_at a
      | None => match a with value_scalar i => Good (valid i) | value_collection _ _ => Throws end
      end
  end.

(** [__unroll_resolve_rvalue]: the indices of a scalar are not looked at; a
    list that does not name a single element yields an aggregate, which is
    refused where a scalar is wanted. *)
Definition reference_rvalue (as_t : instance_collection -> option (value_array A))
    (i : option instance_collection)
    (idx : option (outcome (list const_index))) : outcome A :=
  match i with
  | None => Bad
  | Some i =>
      match as_t i with
      | None => Crash F_assert
      | Some (value_scalar s) => lookup_value s
      | Some (value_collection D m) =>
          default (Good []) idx >>=o fun l =>
          if (D =? length l)%nat && forallb is_ci_int l
          then lookup_value_at (value_collection D m) (lower_multikey l)
          else Bad
      end
  end.
End References.

(** *** Loops

    The loop's own footprint holds the induction variable and nothing else.
    The variable is registered there by its key, but looked up by its name,
    which fails in a named namespace. *)
Definition loop_footprint (ind_var : value_placeholder) (v : Z) : footprint :=
  {[ footprint_key ind_var :=
       pint_collection (value_scalar {| value := v; instantiated := true; valid := true |}) ]}.

Definition loop_context (ind_var : value_placeholder) (c : unroll_context) (v : Z) : unroll_context :=
  chained_context (Some (loop_footprint ind_var v)) (top_footprint c) c.

Definition initialize_footprint (ind_var : value_placeholder) : outcome unit :=
  invariant (bool_decide (get_name ind_var = footprint_key ind_var)).

Section Loop.
Context {A : Type} (ind_var : value_placeholder) (body : Z -> outcome A) (op : A -> A -> outcome A).

Fixpoint accumulate (n : nat) (p : Z) (i : A) : outcome A :=
  match n with
  | O => Good i
  | S n' => body p >>=o fun v => op i v >>=o fun i' => accumulate n' (p + 1) i'
  end.

(** The induction variable is incremented past the upper bound, which
    overflows if that is the greatest [long]. *)
Definition loop_value (cr : Z * Z) : outcome A :=
  let '(min, max) := cr in
  if max <? min then Bad
  else initialize_footprint ind_var >>=o fun _ =>
       body min >>=o accumulate (Z.to_nat (max - min)) (min + 1) >>=o fun i =>
       if max =? LONG_MAX then Crash F_undef else Good i.
End Loop.

(** *** Values in a context *)
Definition indices_of (i : meta_index_list) (l : outcome (list const_index))
    : option (outcome (list const_index)) :=
  match i with no_indices => None | _ => Some l end.

Fixpoint pint_unroll_resolve_value (e : pint_expr) (c : unroll_context) : outcome Z :=
  match e with
  | pint_const v => Good v
  | pint_value_reference p i =>
      reference_value (lookup_rvalue_collection c (footprint_key p) ≫= as_pint)
        (indices_of i (unroll_resolve_indices i c))
  | pint_unary_expr op ex => pint_unroll_resolve_value ex c >>=o pint_unary_evaluate op
  | pint_arith_expr lx op rx =>
      both (pint_unroll_resolve_value lx c) (pint_unroll_resolve_value rx c) (pint_arith op)
  | pint_arith_loop_expr i r ex op =>
      unroll_resolve_range r c >>=o
      loop_value i (fun v => pint_unroll_resolve_value ex (loop_context i c v)) (pint_arith op)
  end
with unroll_resolve_range (r : meta_range_expr) (c : unroll_context) : outcome (Z * Z) :=
  match r with
  | const_range l u => Good (l, u)
  | pint_range l u =>
      pint_unroll_resolve_value l c >>=o fun a =>
      pint_unroll_resolve_value u c >>=o fun b => Good (a, b)
  end
with unroll_resolve_indices (l : meta_index_list) (c : unroll_context) : outcome (list const_index) :=
  match l with
  | no_indices => Good []
  | index_int e l =>
      pint_unroll_resolve_value e c >>=o fun v =>
      unroll_resolve_indices l c >>=o fun k => Good (ci_int v :: k)
  | index_range r l =>
      unroll_resolve_range r c >>=o fun '(a, b) =>
      unroll_resolve_indices l c >>=o fun k => Good (ci_range a b :: k)
  end.

Fixpoint preal_unroll_resolve_value (e : preal_expr) (c : unroll_context) : outcome spec_float :=
  match e with
  | preal_const v => Good v
  | preal_value_reference p i =>
      reference_value (lookup_rvalue_collection c (footprint_key p) ≫= as_preal)
        (indices_of i (unroll_resolve_indices i c))
  | preal_unary_expr _ ex => omap_out SFopp (preal_unroll_resolve_value ex c)
  | preal_arith_expr lx op rx =>
      both (preal_unroll_resolve_value lx c) (preal_unroll_resolve_value rx c) (preal_arith op)
  | convert_pint_to_preal_expr ex => omap_out float_of_long (pint_unroll_resolve_value ex c)
  end.

Definition pstring_unroll_resolve_value (e : pstring_expr) (c : unroll_context) : outcome string :=
  match e with
  | pstring_const v => Good v
  | pstring_value_reference p i =>
      reference_value (lookup_rvalue_collection c (footprint_key p) ≫= as_pstring)
        (indices_of i (unroll_resolve_indices i c))
  end.

(** [unroll_resolve_defined] of the four classes of references. *)
Definition unroll_resolve_defined (t : ptype) (p : value_placeholder) (i : meta_index_list)
    (c : unroll_context) : outcome bool :=
  let coll := lookup_rvalue_collection c (footprint_key p) in
  let idx := indices_of i (unroll_resolve_indices i c) in
  match t with
  | PInt => reference_defined (coll ≫= as_pint) idx
  | PBool => reference_defined (coll ≫= as_pbool) idx
  | PReal => reference_defined (coll ≫= as_preal) idx
  | PString => reference_defined (coll ≫= as_pstring) idx
  end.

Fixpoint pbool_unroll_resolve_value (e : pbool_expr) (c : unroll_context) : outcome bool :=
  match e with
  | pbool_const v => Good v
  | pbool_value_reference p i =>
      reference_value (lookup_rvalue_collection c (footprint_key p) ≫= as_pbool)
        (indices_of i (unroll_resolve_indices i c))
  | pbool_unary_expr _ ex => omap_out negb (pbool_unroll_resolve_value ex c)
  | pbool_logical_expr lx op rx =>
      relate (pbool_logical op) (pbool_unroll_resolve_value lx c) (pbool_unroll_resolve_value rx c)
  | pint_relational_expr lx op rx =>
      relate (pint_relation op) (pint_unroll_resolve_value lx c) (pint_unroll_resolve_value rx c)
  | preal_relational_expr lx op rx =>
      relate (preal_relation op) (preal_unroll_resolve_value lx c) (preal_unroll_resolve_value rx c)
  | pstring_relational_expr lx op rx =>
      relate (pstring_relation op)
        (pstring_unroll_resolve_value lx c) (pstring_unroll_resolve_value rx c)
  | pbool_logical_loop_expr i r ex op =>
      unroll_resolve_range r c >>=o
      loop_value i (fun v => pbool_unroll_resolve_value ex (loop_context i c v))
        (fun a b => Good (pbool_logical op a b))
  | param_defined t p i => unroll_resolve_defined t p i c
  end.

(** *** Constants from a context: [__unroll_resolve_rvalue]

    The second evaluator; loops and conversions call the first one. *)
Fixpoint pint_unroll_resolve_rvalue (e : pint_expr) (c : unroll_context) : outcome Z :=
  match e with
  | pint_const v => Good v
  | pint_value_reference p i =>
      reference_rvalue as_pint (lookup_rvalue_collection c (footprint_key p))
        (indices_of i (unroll_resolve_indices i c))
  | pint_unary_expr op ex => pint_unroll_resolve_rvalue ex c >>=o pint_unary_evaluate op
  | pint_arith_expr lx op rx =>
      both (pint_unroll_resolve_rvalue lx c) (pint_unroll_resolve_rvalue rx c) (pint_arith op)
  | pint_arith_loop_expr _ _ _ _ => pint_unroll_resolve_value e c
  end.

Fixpoint preal_unroll_resolve_rvalue (e : preal_expr) (c : unroll_context) : outcome spec_float :=
  match e with
  | preal_const v => Good v
  | preal_value_reference p i =>
      reference_rvalue as_preal (lookup_rvalue_collection c (footprint_key p))
        (indices_of i (unroll_resolve_indices i c))
  | preal_unary_expr _ ex => omap_out SFopp (preal_unroll_resolve_rvalue ex c)
  | preal_arith_expr lx op rx =>
      both (preal_unroll_resolve_rvalue lx c) (preal_unroll_resolve_rvalue rx c) (preal_arith op)
  | convert_pint_to_preal_expr ex => omap_out float_of_long (pint_unroll_resolve_value ex c)
  end.

Definition pstring_unroll_resolve_rvalue (e : pstring_expr) (c : unroll_context) : outcome string :=
  match e with
  | pstring_const v => Good v
  | pstring_value_reference p i =>
      reference_rvalue as_pstring (lookup_rvalue_collection c (footprint_key p))
        (indices_of i (unroll_resolve_indices i c))
  end.

Fixpoint pbool_unroll_resolve_rvalue (e : pbool_expr) (c : unroll_context) : outcome bool :=
  match e with
  | pbool_const v => Good v
  | pbool_value_reference p i =>
      reference_rvalue as_pbool (lookup_rvalue_collection c (footprint_key p))
        (indices_of i (unroll_resolve_indices i c))
  | pbool_unary_expr _ ex => omap_out negb (pbool_unroll_resolve_rvalue ex c)
  | pbool_logical_expr lx op rx =>
      relate (pbool_logical op) (pbool_unroll_resolve_rvalue lx c) (pbool_unroll_resolve_rvalue rx c)
  | pint_relational_expr lx op rx =>
      relate (pint_relation op) (pint_unroll_resolve_rvalue lx c) (pint_unroll_resolve_rvalue rx c)
  | preal_relational_expr lx op rx =>
      relate (preal_relation op)
        (preal_unroll_resolve_rvalue lx c) (preal_unroll_resolve_rvalue rx c)
  | pstring_relational_expr lx op rx =>
      relate (pstring_relation op)
        (pstring_unroll_resolve_rvalue lx c) (pstring_unroll_resolve_rvalue rx c)
  | pbool_logical_loop_expr _ _ _ _ => pbool_unroll_resolve_value e c
  | param_defined t p i => unroll_resolve_defined t p i c
  end.

(** *** Dependence on relaxed template parameters *)
Fixpoint pint_is_relaxed_formal_dependent (e : pint_expr) : bool :=
  match e with
  | pint_const _ => false
  | pint_value_reference p i =>
      is_relaxed_template_formal p || indices_is_relaxed_formal_dependent i
  | pint_unary_expr _ ex => pint_is_relaxed_formal_dependent ex
  | pint_arith_expr lx _ rx =>
      pint_is_relaxed_formal_dependent lx || pint_is_relaxed_formal_dependent rx
  | pint_arith_loop_expr _ r ex _ =>
      range_is_relaxed_formal_dependent r || pint_is_relaxed_formal_dependent ex
  end
with range_is_relaxed_formal_dependent (r : meta_range_expr) : bool :=
  match r with
  | const_range _ _ => false
  | pint_range l u => pint_is_relaxed_formal_dependent l || pint_is_relaxed_formal_dependent u
  end
with indices_is_relaxed_formal_dependent (l : meta_index_list) : bool :=
  match l with
  | no_indices => false
  | index_int e l => pint_is_relaxed_formal_dependent e || indices_is_relaxed_formal_dependent l
  | index_range r l => range_is_relaxed_formal_dependent r || indices_is_relaxed_formal_dependent l
  end.

(** ** Equivalence

    [must_be_equivalent] is decided without a context: it is structural, but
    for constants and for template parameters, which are compared by their
    positions. *)
Definition both_true (a b : outcome bool) : outcome bool :=
  a >>=o fun x => if x then b else Good false.

Definition same_op {A} `{EqDecision A} (a b : A) : outcome bool := Good (bool_decide (a = b)).

Definition same_formal (p q : value_placeholder) : bool :=
  negb (is_template_formal p =? 0)%nat && (is_template_formal p =? is_template_formal q)%nat.

(** [pint_const::must_be_equivalent] and its like. *)
Definition equals_constant {A} (eqb : A -> A -> bool) (v : A) (static : bool) (w : outcome A)
    : outcome bool :=
  if static then omap_out (eqb v) w else Good false.

Definition is_const_int (e : pint_expr) : bool :=
  match e with pint_const _ => true | _ => false end.
Definition is_const_range (r : meta_range_expr) : bool :=
  match r with const_range _ _ => true | pint_range _ _ => false end.

(** Whether the list is a [const_index_list]. *)
Fixpoint is_const_indices (l : meta_index_list) : bool :=
  match l with
  | no_indices => true
  | index_int e l => is_const_int e && is_const_indices l
  | index_range r l => is_const_range r && is_const_indices l
  end.

(** [pint_range::must_be_formal_size_equivalent] of a constant range. *)
Definition range_is_const (l u : pint_expr) (first second : Z) : outcome bool :=
  if pint_is_static_constant l && pint_is_static_constant u
  then both_true (omap_out (fun a => a =? first) (pint_static_constant_value l))
         (omap_out (fun b => b =? second) (pint_static_constant_value u))
  else Good false.

(** An index, or a range, as the left operand against a constant one. *)
Definition int_is_const_index (e e' : pint_expr) : outcome bool :=
  match e, e' with
  | pint_const v, pint_const w => Good (v =? w)
  | _, _ => Good false
  end.

Definition range_is_const_range (r r' : meta_range_expr) : outcome bool :=
  match r, r' with
  | const_range a b, const_range a' b' => Good ((a =? a') && (b =? b'))
  | pint_range l u, const_range a b | const_range a b, pint_range l u => range_is_const l u a b
  | pint_range _ _, pint_range _ _ => Good false
  end.

(** [std::equal] of a dynamic list with a constant one. *)
Fixpoint dynamic_equals_const (l m : meta_index_list) : outcome bool :=
  match l, m with
  | no_indices, _ => Good true
  | index_int e l, index_int e' m => both_true (int_is_const_index e e') (dynamic_equals_const l m)
  | index_range r l, index_range r' m =>
      both_true (range_is_const_range r r') (dynamic_equals_const l m)
  | index_int _ _, index_range _ _ | index_range _ _, index_int _ _ => Good false
  | _, no_indices => Crash F_index
  end.

(** [must_be_equivalent_indices] of two lists, neither of which is NULL: a
    constant list hands a dynamic one the comparison; only the method of the
    latter asserts that the sizes agree. *)
Definition indices_compare (l m : meta_index_list) (equal : outcome bool) : outcome bool :=
  match l, m with
  | no_indices, _ | _, no_indices => Good true
  | _, _ =>
      if is_const_indices l && is_const_indices m then equal
      else invariant (indices_size l =? indices_size m)%nat >>=o fun _ =>
           if is_const_indices l then dynamic_equals_const m l else equal
  end.

Definition reference_must_be_equivalent (p q : value_placeholder) (indices : outcome bool)
    : outcome bool :=
  if same_formal p q then indices else Good false.

Fixpoint pint_must_be_equivalent (e e' : pint_expr) : outcome bool :=
  match e with
  | pint_const v =>
      equals_constant Z.eqb v (pint_is_static_constant e') (pint_static_constant_value e')
  | pint_value_reference p i =>
      match e' with
      | pint_value_reference q j =>
          reference_must_be_equivalent p q (indices_compare i j (indices_equal i j))
      | _ => Good false
      end
  | pint_unary_expr op ex =>
      match e' with
      | pint_unary_expr op' ex' => both_true (same_op op op') (pint_must_be_equivalent ex ex')
      | _ => Good false
      end
  | pint_arith_expr lx op rx =>
      match e' with
      | pint_arith_expr lx' op' rx' =>
          both_true (same_op op op')
            (both_true (pint_must_be_equivalent lx lx') (pint_must_be_equivalent rx rx'))
      | _ => Good false
      end
  | pint_arith_loop_expr _ r ex op =>
      match e' with
      | pint_arith_loop_expr _ r' ex' op' =>
          both_true (same_op op op')
            (both_true (range_must_be_equivalent r r') (pint_must_be_equivalent ex ex'))
      | _ => Good false
      end
  end
with range_must_be_equivalent (r r' : meta_range_expr) : outcome bool :=
  match r, r' with
  | const_range a b, const_range a' b' => Good ((a =? a') && (b =? b'))
  | const_range a b, pint_range l u => range_is_const l u a b
  | pint_range l u, const_range a b => range_is_const l u a b
  | pint_range l u, pint_range l' u' =>
      both_true (pint_must_be_equivalent l l') (pint_must_be_equivalent u u')
  end
with indices_equal (l m : meta_index_list) : outcome bool :=
  match l, m with
  | no_indices, _ => Good true
  | index_int e l, index_int e' m => both_true (pint_must_be_equivalent e e') (indices_equal l m)
  | index_range r l, index_range r' m =>
      both_true (range_must_be_equivalent r r') (indices_equal l m)
  | index_int _ _, index_range _ _ | index_range _ _, index_int _ _ => Good false
  | _, no_indices => Crash F_index
  end.

Definition references_must_be_equivalent (p : value_placeholder) (i : meta_index_list)
    (q : value_placeholder) (j : meta_index_list) : outcome bool :=
  reference_must_be_equivalent p q (indices_compare i j (indices_equal i j)).

Fixpoint preal_must_be_equivalent (e e' : preal_expr) : outcome bool :=
  match e, e' with
  | preal_const v, _ =>
      equals_constant SFeqb v (preal_is_static_constant e') (preal_static_constant_value e')
  | preal_value_reference p i, preal_value_reference q j => references_must_be_equivalent p i q j
  | preal_unary_expr op ex, preal_unary_expr op' ex' =>
      both_true (same_op op op') (preal_must_be_equivalent ex ex')
  | preal_arith_expr lx op rx, preal_arith_expr lx' op' rx' =>
      both_true (same_op op op')
        (both_true (preal_must_be_equivalent lx lx') (preal_must_be_equivalent rx rx'))
  | convert_pint_to_preal_expr ex, convert_pint_to_preal_expr ex' => pint_must_be_equivalent ex ex'
  | _, _ => Good false
  end.

Definition pstring_must_be_equivalent (e e' : pstring_expr) : outcome bool :=
  match e, e' with
  | pstring_const v, _ =>
      equals_constant String.eqb v (pstring_is_static_constant e') (pstring_static_constant_value e')
  | pstring_value_reference p i, pstring_value_reference q j =>
      references_must_be_equivalent p i q j
  | _, _ => Good false
  end.

(** The operator of a [pbool_unary_expr] is not compared. *)
Fixpoint pbool_must_be_equivalent (e e' : pbool_expr) : outcome bool :=
  match e, e' with
  | pbool_const v, _ =>
      equals_constant Bool.eqb v (pbool_is_static_constant e') (pbool_static_constant_value e')
  | pbool_value_reference p i, pbool_value_reference q j => references_must_be_equivalent p i q j
  | pbool_unary_expr _ ex, pbool_unary_expr _ ex' => pbool_must_be_equivalent ex ex'
  | pbool_logical_expr lx op rx, pbool_logical_expr lx' op' rx' =>
      both_true (same_op op op')
        (both_true (pbool_must_be_equivalent lx lx') (pbool_must_be_equivalent rx rx'))
  | pint_relational_expr lx op rx, pint_relational_expr lx' op' rx' =>
      both_true (same_op op op')
        (both_true (pint_must_be_equivalent lx lx') (pint_must_be_equivalent rx rx'))
  | preal_relational_expr lx op rx, preal_relational_expr lx' op' rx' =>
      both_true (same_op op op')
        (both_true (preal_must_be_equivalent lx lx') (preal_must_be_equivalent rx rx'))
  | pstring_relational_expr lx op rx, pstring_relational_expr lx' op' rx' =>
      both_true (same_op op op')
        (both_true (pstring_must_be_equivalent lx lx') (pstring_must_be_equivalent rx rx'))
  | pbool_logical_loop_expr _ r ex op, pbool_logical_loop_expr _ r' ex' op' =>
      both_true (same_op op op')
        (both_true (range_must_be_equivalent r r') (pbool_must_be_equivalent ex ex'))
  | _, _ => Good false
  end.

(** ** Substitution of template parameters

    [substitute_default_positional_parameters f e]: [f] is the definition whose
    parameters are replaced, [e] the expressions for them by position.  A
    pointer that is returned unchanged and a copy are the same here. *)
Section Substitution.
Context (f : nat) (actuals : list param_expr).

Definition an_int (e : param_expr) : option pint_expr :=
  match e with AnInt e => Some e | _ => None end.
Definition a_bool (e : param_expr) : option pbool_expr :=
  match e with ABool e => Some e | _ => None end.
Definition a_real (e : param_expr) : option preal_expr :=
  match e with AReal e => Some e | _ => None end.
Definition a_string (e : param_expr) : option pstring_expr :=
  match e with AString e => Some e | _ => None end.

Section Reference.
Context {E : Type} (cast : param_expr -> option E)
  (as_reference : E -> option (value_placeholder * meta_index_list))
  (make : value_placeholder -> meta_index_list -> E).

Definition is_no_indices (i : meta_index_list) : bool :=
  match i with no_indices => true | _ => false end.

(** The replacement has the right type, or [NEVER_NULL] fails; a reference is
    indexed anew, if it is scalar; other expressions can not be indexed. *)
Definition substitute_reference (p : value_placeholder) (ind : outcome meta_index_list) : outcome E :=
  ind >>=o fun ind =>
  if bool_decide (get_owner p = Some f) then
    invariant (negb (is_template_formal p =? 0)%nat) >>=o fun _ =>
    match actuals !! (is_template_formal p - 1)%nat with
    | None => Crash F_index
    | Some a =>
        match cast a with
        | None => Crash F_assert
        | Some repl =>
            match as_reference repl with
            | Some (q, j) =>
                if (reference_dimensions q j =? 0)%nat && is_no_indices j
                then Good (make q ind) else Bad
            | None => if is_no_indices ind then Good repl else Bad
            end
        end
    end
  else Good (make p ind).
End Reference.

Definition pint_as_reference (e : pint_expr) : option (value_placeholder * meta_index_list) :=
  match e with pint_value_reference p i => Some (p, i) | _ => None end.
Definition pbool_as_reference (e : pbool_expr) : option (value_placeholder * meta_index_list) :=
  match e with pbool_value_reference p i => Some (p, i) | _ => None end.
Definition preal_as_reference (e : preal_expr) : option (value_placeholder * meta_index_list) :=
  match e with preal_value_reference p i => Some (p, i) | _ => None end.
Definition pstring_as_reference (e : pstring_expr) : option (value_placeholder * meta_index_list) :=
  match e with pstring_value_reference p i => Some (p, i) | _ => None end.

(** A loop substitutes its body, and then is made from the original one; its
    range is not substituted.  An index that fails leaves a NULL in the list. *)
Fixpoint pint_substitute (e : pint_expr) : outcome pint_expr :=
  match e with
  | pint_const _ => Good e
  | pint_value_reference p i =>
      substitute_reference an_int pint_as_reference pint_value_reference p (indices_substitute i)
  | pint_unary_expr op ex => omap_out (pint_unary_expr op) (pint_substitute ex)
  | pint_arith_expr lx op rx =>
      both (pint_substitute lx) (pint_substitute rx) (fun l r => Good (pint_arith_expr l op r))
  | pint_arith_loop_expr _ _ ex _ => pint_substitute ex >>=o fun _ => Good e
  end
with range_substitute (r : meta_range_expr) : outcome meta_range_expr :=
  match r with
  | const_range _ _ => Good r
  | pint_range l u => both (pint_substitute l) (pint_substitute u) (fun l u => Good (pint_range l u))
  end
with indices_substitute (l : meta_index_list) : outcome meta_index_list :=
  match l with
  | no_indices => Good no_indices
  | index_int e l =>
      match pint_substitute e with
      | Bad => Crash F_undef
      | o => o >>=o fun e => omap_out (index_int e) (indices_substitute l)
      end
  | index_range r l =>
      match range_substitute r with
      | Bad => Crash F_undef
      | o => o >>=o fun r => omap_out (index_range r) (indices_substitute l)
      end
  end.

Fixpoint preal_substitute (e : preal_expr) : outcome preal_expr :=
  match e with
  | preal_const _ => Good e
  | preal_value_reference p i =>
      substitute_reference a_real preal_as_reference preal_value_reference p (indices_substitute i)
  | preal_unary_expr op ex => omap_out (preal_unary_expr op) (preal_substitute ex)
  | preal_arith_expr lx op rx =>
      both (preal_substitute lx) (preal_substitute rx) (fun l r => Good (preal_arith_expr l op r))
  | convert_pint_to_preal_expr ex => omap_out convert_pint_to_preal_expr (pint_substitute ex)
  end.

Definition pstring_substitute (e : pstring_expr) : outcome pstring_expr :=
  match e with
  | pstring_const _ => Good e
  | pstring_value_reference p i =>
      substitute_reference a_string pstring_as_reference pstring_value_reference p
        (indices_substitute i)
  end.

Fixpoint pbool_substitute (e : pbool_expr) : outcome pbool_expr :=
  match e with
  | pbool_const _ => Good e
  | pbool_value_reference p i =>
      substitute_reference a_bool pbool_as_reference pbool_value_reference p (indices_substitute i)
  | pbool_unary_expr op ex => omap_out (pbool_unary_expr op) (pbool_substitute ex)
  | pbool_logical_expr lx op rx =>
      both (pbool_substitute lx) (pbool_substitute rx) (fun l r => Good (pbool_logical_expr l op r))
  | pint_relational_expr lx op rx =>
      both (pint_substitute lx) (pint_substitute rx) (fun l r => Good (pint_relational_expr l op r))
  | preal_relational_expr lx op rx =>
      both (preal_substitute lx) (preal_substitute rx)
        (fun l r => Good (preal_relational_expr l op r))
  | pstring_relational_expr lx op rx =>
      both (pstring_substitute lx) (pstring_substitute rx)
        (fun l r => Good (pstring_relational_expr l op r))
  | pbool_logical_loop_expr _ _ ex _ => pbool_substitute ex >>=o fun _ => Good e
  | param_defined _ _ _ => Bad
  end.
End Substitution.

(** ** Making expressions

    The constructors assert that their operands are scalar. *)
Definition new_pint_unary_expr (op : ascii) (e : pint_expr) : outcome pint_expr :=
  invariant (pint_dimensions e =? 0)%nat >>=o fun _ => Good (pint_unary_expr op e).
Definition new_preal_unary_expr (op : ascii) (e : preal_expr) : outcome preal_expr :=
  invariant (preal_dimensions e =? 0)%nat >>=o fun _ => Good (preal_unary_expr op e).
Definition new_pbool_unary_expr (op : ascii) (e : pbool_expr) : outcome pbool_expr :=
  invariant (pbool_dimensions e =? 0)%nat >>=o fun _ => Good (pbool_unary_expr op e).

(** An operator that is not in the table: the end iterator is dereferenced. *)
Definition find_op {K O} (map : K -> option O) (k : K) : outcome O :=
  match map k with Some o => Good o | None => Crash F_undef end.

Definition new_pint_arith_expr (l : pint_expr) (o : ascii) (r : pint_expr) : outcome pint_expr :=
  find_op pint_op_map o >>=o fun op =>
  invariant ((pint_dimensions l =? 0) && (pint_dimensions r =? 0))%nat >>=o fun _ =>
  Good (pint_arith_expr l op r).
Definition new_preal_arith_expr (l : preal_expr) (o : ascii) (r : preal_expr) : outcome preal_expr :=
  find_op preal_op_map o >>=o fun op =>
  invariant ((preal_dimensions l =? 0) && (preal_dimensions r =? 0))%nat >>=o fun _ =>
  Good (preal_arith_expr l op r).
Definition new_pbool_logical_expr (l : pbool_expr) (o : string) (r : pbool_expr) : outcome pbool_expr :=
  find_op pbool_op_map o >>=o fun op =>
  invariant ((pbool_dimensions l =? 0) && (pbool_dimensions r =? 0))%nat >>=o fun _ =>
  Good (pbool_logical_expr l op r).
Definition new_pint_relational_expr (l : pint_expr) (o : string) (r : pint_expr)
    : outcome pbool_expr :=
  find_op relational_op_map o >>=o fun op =>
  invariant ((pint_dimensions l =? 0) && (pint_dimensions r =? 0))%nat >>=o fun _ =>
  Good (pint_relational_expr l op r).
Definition new_preal_relational_expr (l : preal_expr) (o : string) (r : preal_expr)
    : outcome pbool_expr :=
  find_op relational_op_map o >>=o fun op =>
  invariant ((preal_dimensions l =? 0) && (preal_dimensions r =? 0))%nat >>=o fun _ =>
  Good (preal_relational_expr l op r).
Definition new_pstring_relational_expr (l : pstring_expr) (o : string) (r : pstring_expr)
    : outcome pbool_expr :=
  find_op relational_op_map o >>=o fun op =>
  invariant ((pstring_dimensions l =? 0) && (pstring_dimensions r =? 0))%nat >>=o fun _ =>
  Good (pstring_relational_expr l op r).

(** ** Expressions of any type: [param_expr] and [const_param] *)
Inductive const_param : Type :=
  | CInt (v : Z)
  | CBool (v : bool)
  | CReal (v : spec_float)
  | CString (v : string).

Definition is_static_constant (e : param_expr) : bool :=
  match e with
  | AnInt e => pint_is_static_constant e
  | ABool e => pbool_is_static_constant e
  | AReal e => preal_is_static_constant e
  | AString e => pstring_is_static_constant e
  end.

Definition static_constant_param (e : param_expr) : outcome const_param :=
  match e with
  | AnInt e => omap_out CInt (pint_static_constant_value e)
  | ABool e => omap_out CBool (pbool_static_constant_value e)
  | AReal e => omap_out CReal (preal_static_constant_value e)
  | AString e => omap_out CString (pstring_static_constant_value e)
  end.

Definition unroll_resolve_value (e : param_expr) (c : unroll_context) : outcome const_param :=
  match e with
  | AnInt e => omap_out CInt (pint_unroll_resolve_value e c)
  | ABool e => omap_out CBool (pbool_unroll_resolve_value e c)
  | AReal e => omap_out CReal (preal_unroll_resolve_value e c)
  | AString e => omap_out CString (pstring_unroll_resolve_value e c)
  end.

(** [unroll_resolve_rvalues] of a scalar. *)
Definition unroll_resolve_rvalues (e : param_expr) (c : unroll_context) : outcome const_param :=
  match e with
  | AnInt e => omap_out CInt (pint_unroll_resolve_rvalue e c)
  | ABool e => omap_out CBool (pbool_unroll_resolve_rvalue e c)
  | AReal e => omap_out CReal (preal_unroll_resolve_rvalue e c)
  | AString e => omap_out CString (pstring_unroll_resolve_rvalue e c)
  end.

(** [must_be_equivalent_generic]: expressions of different types are not. *)
Definition must_be_equivalent_generic (e e' : param_expr) : outcome bool :=
  match e, e' with
  | AnInt e, AnInt e' => pint_must_be_equivalent e e'
  | ABool e, ABool e' => pbool_must_be_equivalent e e'
  | AReal e, AReal e' => preal_must_be_equivalent e e'
  | AString e, AString e' => pstring_must_be_equivalent e e'
  | _, _ => Good false
  end.

Definition param_substitute (f : nat) (actuals : list param_expr) (e : param_expr)
    : outcome param_expr :=
  match e with
  | AnInt e => omap_out AnInt (pint_substitute f actuals e)
  | ABool e => omap_out ABool (pbool_substitute f actuals e)
  | AReal e => omap_out AReal (preal_substitute f actuals e)
  | AString e => omap_out AString (pstring_substitute f actuals e)
  end.
