(* ===== verification/MetaCheck.v ===== *)
(** The type checker of meta-parameter expressions: the [check_meta_expr] of
    the syntax trees of "AST/expr.cc", "AST/token.cc", "AST/range.cc" and the
    special function [defined] of "AST/CHP.cc", with the scopes of
    "AST/parse_context.cc" as far as they matter for it.

    It turns an untyped syntax tree into a typed expression of "MetaExpr.v",
    choosing among the overloaded operators, and folds constants on the way.
    The lookup of names through definitions and namespaces is a map.  Names
    are simple identifiers; members, aggregates and calls of loaded functions
    are left out. *)
From stdpp Require Import strings gmap.
From Stdlib Require Import Ascii Floats.SpecFloat.
From S2P Require Import Prelude MetaValue MetaExpr.
Open Scope Z_scope.

#[local] Abbreviation length := Datatypes.length.

(** ** Syntax trees *)
Inductive expr : Type :=
  | token_int (val : Z)
  | token_float (val : spec_float)
  | token_bool (text : string)
  | token_quoted_string (text : string)
  | id_expr (id : string)
  | index_expr (id : string) (ranges : range_list)
  | prefix_expr (op : string) (e : expr)
  | arith_expr (l : expr) (op : string) (r : expr)
  | relational_expr (l : expr) (op : string) (r : expr)
  | logical_expr (l : expr) (op : string) (r : expr)
  | loop_operation (op : string) (index : string) (bounds : range) (body : expr)
  | defined_call (args : expr_list)
with range : Type :=
  | single_range (lower : expr)
  | full_range (lower upper : expr)
with range_list : Type :=
  | no_ranges
  | more_ranges (r : range) (l : range_list)
with expr_list : Type :=
  | no_exprs
  | more_exprs (e : expr) (l : expr_list).

Scheme expr_mind := Induction for expr Sort Prop
  with range_mind := Induction for range Sort Prop
  with range_list_mind := Induction for range_list Sort Prop
  with expr_list_mind := Induction for expr_list Sort Prop.
Combined Scheme ast_mind from expr_mind, range_mind, range_list_mind, expr_list_mind.

(** A character of the text of an operator, which ends with a NUL. *)
Definition text_at (s : string) (i : nat) : ascii := default zero (String.get i s).

(** ** Scopes *)
Inductive object : Type :=
  | value_object (t : ptype) (p : value_placeholder)
  | other_object.

Record context : Type := {
  loop_var_stack : list value_placeholder;
  objects : gmap string object;        (* what the named scopes make visible *)
  scope_definition : option nat;       (* the current scope, if a definition *)
  scope_prefix : string                (* "" in a definition and at the top *)
}.

Definition lookup_object (c : context) (id : string) : option object :=
  match list_find (fun p => get_name p = id) (loop_var_stack c) with
  | Some (_, p) => Some (value_object PInt p)
  | None => objects c !! id
  end.

(** The placeholder of a loop variable: a scalar [pint] of the current scope. *)
Definition loop_var_placeholder (c : context) (i : string) : value_placeholder :=
  {| get_name := i;
     footprint_key := scope_prefix c +:+ i;
     get_dimensions := 0;
     is_template_formal := 0;
     is_relaxed_template_formal := false;
     get_owner := scope_definition c |}.

Definition push_loop_var (c : context) (i : string) : outcome (value_placeholder * context) :=
  match lookup_object c i with
  | Some _ => Bad                      (* shadows another object *)
  | None =>
      let p := loop_var_placeholder c i in
      Good (p, {| loop_var_stack := p :: loop_var_stack c; objects := objects c;
                  scope_definition := scope_definition c; scope_prefix := scope_prefix c |})
  end.

(** ** Leaves *)
Definition make_meta_value_reference (t : ptype) (p : value_placeholder) (i : meta_index_list)
    : param_expr :=
  match t with
  | PInt => AnInt (pint_value_reference p i)
  | PBool => ABool (pbool_value_reference p i)
  | PReal => AReal (preal_value_reference p i)
  | PString => AString (pstring_value_reference p i)
  end.

(** [id_expr::check_meta_reference], of which an expression must be a value. *)
Definition check_meta_reference (c : context) (id : string) : outcome (ptype * value_placeholder) :=
  match lookup_object c id with
  | Some (value_object t p) => Good (t, p)
  | _ => Crash F_exit
  end.

Definition attach_indices (t : ptype) (p : value_placeholder) (i : meta_index_list)
    : outcome param_expr :=
  if (get_dimensions p <? indices_size i)%nat then Crash F_exit
  else Good (make_meta_value_reference t p i).

(** ** Folding

    A constant is replaced by its value.  Only the arithmetic operators catch
    the exceptions. *)
Definition fold_pint (e : pint_expr) (v : outcome Z) : outcome param_expr :=
  if pint_is_static_constant e then omap_out (fun v => AnInt (pint_const v)) v
  else Good (AnInt e).
Definition fold_preal (e : preal_expr) (v : outcome spec_float) : outcome param_expr :=
  if preal_is_static_constant e then omap_out (fun v => AReal (preal_const v)) v
  else Good (AReal e).
Definition fold_pbool (e : pbool_expr) (v : outcome bool) : outcome param_expr :=
  if pbool_is_static_constant e then omap_out (fun v => ABool (pbool_const v)) v
  else Good (ABool e).

(** [prefix_expr::check_meta_expr]: folding comes before making. *)
Definition prefix_pint (ch : ascii) (e : pint_expr) (fold : Z -> outcome Z) : outcome param_expr :=
  if pint_is_static_constant e
  then omap_out (fun v => AnInt (pint_const v)) (pint_static_constant_value e >>=o fold)
  else omap_out AnInt (new_pint_unary_expr ch e).
Definition prefix_preal (ch : ascii) (e : preal_expr) : outcome param_expr :=
  if preal_is_static_constant e
  then omap_out (fun v => AReal (preal_const v))
         (preal_static_constant_value e >>=o preal_unary_evaluate ch)
  else omap_out AReal (new_preal_unary_expr ch e).
Definition prefix_pbool (ch : ascii) (e : pbool_expr) : outcome param_expr :=
  if pbool_is_static_constant e
  then omap_out (fun v => ABool (pbool_const v))
         (pbool_static_constant_value e >>=o pbool_unary_evaluate ch)
  else omap_out ABool (new_pbool_unary_expr ch e).

(** C's [!v]. *)
Definition c_not (v : Z) : outcome Z := Good (if v =? 0 then 1 else 0).

Definition check_prefix (op : string) (pe : param_expr) : outcome param_expr :=
  let ch := text_at op 0 in
  match pe with
  | AnInt e =>
      if bool_decide (ch = "-"%char) then prefix_pint ch e (pint_unary_evaluate ch)
      else if bool_decide (ch = "!"%char) then prefix_pint ch e c_not
      else if bool_decide (ch = "~"%char) then prefix_pint ch e (pint_unary_evaluate ch)
      else Crash F_exit
  | ABool e =>
      if bool_decide (ch = "-"%char) then Bad
      else if bool_decide (ch = "!"%char) then Bad
      else if bool_decide (ch = "~"%char) then prefix_pbool ch e
      else Crash F_exit
  | AReal e =>
      if bool_decide (ch = "-"%char) then prefix_preal ch e
      else if bool_decide (ch = "!"%char) then Bad
      else if bool_decide (ch = "~"%char) then Bad
      else Crash F_exit
  | AString _ =>
      if bool_decide (ch ∈ ["-"; "!"; "~"]%char) then Bad else Crash F_exit
  end.

(** [arith_expr::check_meta_expr] *)
Definition arith_pints (li : pint_expr) (op : string) (ri : pint_expr) : outcome param_expr :=
  if bool_decide (text_at op 1 ∈ ["&"; "|"]%char) then Bad
  else new_pint_arith_expr li (text_at op 0) ri >>=o fun e =>
       fold_pint e (catching (pint_static_constant_value e)).

Definition arith_preals (lr : preal_expr) (op : string) (rr : preal_expr) : outcome param_expr :=
  new_preal_arith_expr lr (text_at op 0) rr >>=o fun e =>
  fold_preal e (catching (preal_static_constant_value e)).

(** With one operand converted, constants are not folded. *)
Definition arith_mixed (lr : preal_expr) (op : string) (rr : preal_expr) : outcome param_expr :=
  omap_out AReal (new_preal_arith_expr lr (text_at op 0) rr).

(** The logical operator that an arithmetic one is taken for; empty if the
    second character is not a NUL. *)
Definition forgiven_op (op : string) : outcome string :=
  let ch := text_at op 0 in
  let single := bool_decide (text_at op 1 = zero) in
  if bool_decide (ch = "&"%char) then Good (if single then "&&" else "")%string
  else if bool_decide (ch = "|"%char) then Good (if single then "||" else "")%string
  else if bool_decide (ch = "^"%char) then Good "!="%string
  else Bad.

Definition arith_pbools (lb : pbool_expr) (op : string) (rb : pbool_expr) : outcome param_expr :=
  forgiven_op op >>=o fun op_str =>
  new_pbool_logical_expr lb op_str rb >>=o fun e =>
  fold_pbool e (pbool_static_constant_value e).

Definition check_arith (op : string) (lo ro : param_expr) : outcome param_expr :=
  match lo, ro with
  | AnInt li, AnInt ri => arith_pints li op ri
  | AReal lr, AReal rr => arith_preals lr op rr
  | AnInt li, AReal rr => arith_mixed (convert_pint_to_preal_expr li) op rr
  | AReal lr, AnInt ri => arith_mixed lr op (convert_pint_to_preal_expr ri)
  | ABool lb, ABool rb => arith_pbools lb op rb
  | _, _ => Bad
  end.

(** [relational_expr::check_meta_expr] *)
Definition check_relational (op_str : string) (lo ro : param_expr) : outcome param_expr :=
  match lo, ro with
  | AnInt l, AnInt r =>
      new_pint_relational_expr l op_str r >>=o fun e => fold_pbool e (pbool_static_constant_value e)
  | AReal l, AReal r =>
      new_preal_relational_expr l op_str r >>=o fun e => fold_pbool e (pbool_static_constant_value e)
  | ABool l, ABool r =>
      match pbool_op_map op_str with
      | None => Bad
      | Some _ =>
          new_pbool_logical_expr l op_str r >>=o fun e =>
          fold_pbool e (pbool_static_constant_value e)
      end
  | AString l, AString r =>
      new_pstring_relational_expr l op_str r >>=o fun e =>
      fold_pbool e (pbool_static_constant_value e)
  | _, _ => Bad
  end.

(** [logical_expr::check_meta_expr]: on integers, the bitwise operator with the
    same first character is made, and not folded. *)
Definition logical_pbools (l : pbool_expr) (op_str : string) (r : pbool_expr) : outcome param_expr :=
  match pbool_op_map op_str with
  | None => Bad
  | Some op =>
      if pbool_is_static_constant l && pbool_is_static_constant r
      then omap_out (fun v => ABool (pbool_const v))
             (relate (pbool_logical op) (pbool_static_constant_value l)
                (pbool_static_constant_value r))
      else omap_out ABool (new_pbool_logical_expr l op_str r)
  end.

Definition check_logical (op_str : string) (lo ro : param_expr) : outcome param_expr :=
  match lo, ro with
  | ABool l, ABool r => logical_pbools l op_str r
  | AnInt l, AnInt r =>
      if bool_decide (text_at op_str 0 ∈ ["&"; "|"; "!"]%char)
      then omap_out AnInt (new_pint_arith_expr l (text_at op_str 0) r)
      else Bad
  | _, _ => Bad
  end.

(** ** Ranges *)
Inductive meta_index_expr : Type :=
  | an_index (e : pint_expr)
  | a_range (r : meta_range_expr).

(** [const int lb = lp->static_constant_value()] keeps 32 bits. *)
Definition int_of_long (v : Z) : Z :=
  let u := wrap 32 v in if 2 ^ 31 <=? u then u - 2 ^ 32 else u.

(** [range::check_meta_index]: an error in a bound ends the program. *)
Definition bound_of (o : outcome param_expr) : outcome pint_expr :=
  match o with
  | Good (AnInt e) => Good e
  | Good _ | Bad => Crash F_exit
  | Throws => Throws
  | Crash f => Crash f
  end.

Definition make_range (lp up : pint_expr) : outcome meta_index_expr :=
  if pint_is_static_constant lp && pint_is_static_constant up then
    pint_static_constant_value lp >>=o fun l =>
    pint_static_constant_value up >>=o fun u =>
    let lb := int_of_long l in
    let ub := int_of_long u in
    if ub <? lb then Bad else Good (a_range (const_range lb ub))
  else Good (a_range (pint_range lp up)).

(** [meta_range_expr::make_explicit_range]: [n] is [0..n-1]. *)
Definition make_explicit_range (i : meta_index_expr) : outcome meta_range_expr :=
  match i with
  | a_range r => Good r
  | an_index e =>
      if pint_is_static_constant e then
        pint_static_constant_value e >>=o fun n => omap_out (const_range 0) (checked (n - 1))
      else omap_out (pint_range (pint_const 0)) (new_pint_arith_expr e "-" (pint_const 1))
  end.

(** [range_list::check_meta_indices] refuses an index that is not scalar. *)
Definition cons_index (i : meta_index_expr) (l : meta_index_list) : outcome meta_index_list :=
  match i with
  | an_index e => if (pint_dimensions e =? 0)%nat then Good (index_int e l) else Bad
  | a_range r => Good (index_range r l)
  end.

Fixpoint cons_indices (l : list meta_index_expr) : outcome meta_index_list :=
  match l with
  | [] => Good no_indices
  | i :: l => cons_indices l >>=o cons_index i
  end.

(** [loop_operation::check_meta_expr], from the checked body on. *)
Definition check_loop (op : string) (i : value_placeholder) (r : meta_range_expr) (lo : param_expr)
    : outcome param_expr :=
  match lo with
  | ABool b =>
      let op_str := if bool_decide (text_at op 0 = "^"%char) then "!="%string else op in
      match pbool_op_map op_str with
      | None => Bad
      | Some o => Good (ABool (pbool_logical_loop_expr i r b o))
      end
  | AnInt b =>
      if bool_decide (text_at op 1 ∈ ["&"; "|"]%char) then Bad
      else match pint_op_map (text_at op 0) with
           | None => Bad
           | Some o => Good (AnInt (pint_arith_loop_expr i r b o))
           end
  | AReal _ | AString _ => Bad
  end.

(** [defined(x)], of the checked arguments, some of which may be NULL. *)
Definition check_defined (args : list (option param_expr)) : outcome param_expr :=
  let make t p i :=
    if (reference_dimensions p i =? 0)%nat then Good (ABool (param_defined t p i))
    else Crash F_exit in
  match args with
  | [Some (AnInt (pint_value_reference p i))] => make PInt p i
  | [Some (ABool (pbool_value_reference p i))] => make PBool p i
  | [Some (AReal (preal_value_reference p i))] => make PReal p i
  | [Some (AString (pstring_value_reference p i))] => make PString p i
  | _ => Crash F_exit
  end.

(** A NULL is kept. *)
Definition nullable {A} (o : outcome A) : outcome (option A) :=
  match o with
  | Good a => Good (Some a)
  | Bad => Good None
  | Throws => Throws
  | Crash f => Crash f
  end.

(** ** The checker *)
Fixpoint check_meta_expr (e : expr) (c : context) : outcome param_expr :=
  match e with
  | token_int v => Good (AnInt (pint_const v))
  | token_float v => Good (AReal (preal_const v))
  | token_bool s => Good (ABool (pbool_const (String.eqb s "true")))
  | token_quoted_string s => Good (AString (pstring_const s))
  | id_expr id =>
      check_meta_reference c id >>=o fun '(t, p) => Good (make_meta_value_reference t p no_indices)
  | index_expr id ranges =>
      check_meta_indices ranges c >>=o fun i =>
      check_meta_reference c id >>=o fun '(t, p) => attach_indices t p i
  | prefix_expr op e => check_meta_expr e c >>=o check_prefix op
  | arith_expr l op r => both (check_meta_expr l c) (check_meta_expr r c) (check_arith op)
  | relational_expr l op r => both (check_meta_expr l c) (check_meta_expr r c) (check_relational op)
  | logical_expr l op r => both (check_meta_expr l c) (check_meta_expr r c) (check_logical op)
  | loop_operation op index bounds body =>
      check_meta_index bounds c >>=o make_explicit_range >>=o fun r =>
      push_loop_var c index >>=o fun '(i, c') =>
      check_meta_expr body c' >>=o check_loop op i r
  | defined_call args => check_meta_exprs args c >>=o check_defined
  end
with check_meta_index (r : range) (c : context) : outcome meta_index_expr :=
  match r with
  | single_range lower => omap_out an_index (bound_of (check_meta_expr lower c))
  | full_range lower upper =>
      bound_of (check_meta_expr lower c) >>=o fun lp =>
      bound_of (check_meta_expr upper c) >>=o make_range lp
  end
with postorder_check_meta (l : range_list) (c : context) : outcome (list meta_index_expr) :=
  match l with
  | no_ranges => Good []
  | more_ranges r l =>
      match check_meta_index r c with
      | Bad => Crash F_exit
      | o => o >>=o fun i => omap_out (cons i) (postorder_check_meta l c)
      end
  end
with check_meta_indices (l : range_list) (c : context) : outcome meta_index_list :=
  match l with
  | no_ranges => Good no_indices
  | more_ranges r l' =>
      match check_meta_index r c with
      | Bad => Crash F_exit
      | o =>
          o >>=o fun i => postorder_check_meta l' c >>=o fun is' =>
          match (if (4 <? S (length is'))%nat then Bad else cons_indices (i :: is')) with
          | Bad => Crash F_exit
          | o => o
          end
      end
  end
with check_meta_exprs (l : expr_list) (c : context) : outcome (list (option param_expr)) :=
  match l with
  | no_exprs => Good []
  | more_exprs e l =>
      nullable (check_meta_expr e c) >>=o fun o => omap_out (cons o) (check_meta_exprs l c)
  end.
