(* ===== verification/MetaExprProps.v ===== *)
(** Properties of meta-parameter expressions: constants do not depend on the
    context, the two evaluators agree, a well-typed expression evaluates
    without failing an assertion, equivalence and substitution preserve
    values. *)
From stdpp Require Import strings gmap.
From Stdlib Require Import Ascii Floats.SpecFloat.
From S2P Require Import Prelude MetaValue MetaExpr.
Open Scope Z_scope.

#[local] Abbreviation length := Datatypes.length.

(** ** Outcomes *)
Lemma obind_assoc {A B C} (m : outcome A) (f : A -> outcome B) (g : B -> outcome C) :
  m >>=o f >>=o g = m >>=o (fun a => f a >>=o g).
Proof. by destruct m. Qed.

Lemma obind_Good {A B} (m : outcome A) (k : A -> outcome B) b :
  m >>=o k = Good b -> exists a, m = Good a /\ k a = Good b.
Proof. destruct m; cbn; [eauto|done..]. Qed.

Lemma omap_out_Good {A B} (f : A -> B) (m : outcome A) b :
  omap_out f m = Good b -> exists a, m = Good a /\ f a = b.
Proof. intros (a&?&[= <-])%obind_Good. eauto. Qed.

Lemma both_Good {A B R} (l : outcome A) (r : outcome B) (k : A -> B -> outcome R) x :
  both l r k = Good x -> exists a b, l = Good a /\ r = Good b /\ k a b = Good x.
Proof.
  destruct l; cbn; [|by destruct r|done..].
  intros (b&->&?)%obind_Good. eauto.
Qed.

Lemma both_true_Good a b :
  both_true a b = Good true -> a = Good true /\ b = Good true.
Proof. by intros ([]&->&?)%obind_Good. Qed.

Lemma obind_ext {A B} (m : outcome A) (f g : A -> outcome B) :
  (forall a, m = Good a -> f a = g a) -> m >>=o f = m >>=o g.
Proof. destruct m; cbn; auto. Qed.

(** Every way to fail but the undefined behaviour of an operator is a failure
    of an assertion of the program. *)
Definition safe {A} (o : outcome A) : Prop :=
  match o with Crash f => f = F_undef | _ => True end.

Lemma safe_bind {A B} (m : outcome A) (k : A -> outcome B) :
  safe m -> (forall a, m = Good a -> safe (k a)) -> safe (m >>=o k).
Proof. destruct m; cbn; auto. Qed.

Lemma safe_omap {A B} (f : A -> B) (m : outcome A) : safe m -> safe (omap_out f m).
Proof. by destruct m. Qed.

Lemma safe_both {A B R} (l : outcome A) (r : outcome B) (k : A -> B -> outcome R) :
  safe l -> safe r -> (forall a b, safe (k a b)) -> safe (both l r k).
Proof. destruct l; cbn; intros; try done; apply safe_bind; auto; done. Qed.

Lemma safe_checked v : safe (checked v).
Proof. unfold checked. by destruct (is_long v). Qed.

Lemma safe_pint_arith o a b : safe (pint_arith o a b).
Proof.
  destruct o; cbn; try apply safe_checked; try done;
    unfold divides, modulus, shift_left, shift_right;
    repeat case_match; try apply safe_checked; done.
Qed.

Lemma safe_pint_unary op v : safe (pint_unary_evaluate op v).
Proof. unfold pint_unary_evaluate. case_match; [apply safe_checked|done]. Qed.

Lemma safe_preal_arith o a b : safe (preal_arith o a b).
Proof. destruct o; cbn; repeat case_match; done. Qed.

Lemma safe_relate {A} (rel : A -> A -> bool) l r :
  safe l -> safe r -> safe (relate rel l r).
Proof. intros. by apply safe_both. Qed.

Create HintDb meta discriminated.
#[export] Hint Resolve safe_checked safe_pint_arith safe_pint_unary safe_preal_arith safe_omap
  safe_relate : meta.

(** Induction on the classes that contain no others than [pint_expr], ranges
    and lists of indices. *)
Lemma pint_mind (P : pint_expr -> Prop) (Q : meta_range_expr -> Prop) (R : meta_index_list -> Prop) :
  (forall v, P (pint_const v)) ->
  (forall p i, R i -> P (pint_value_reference p i)) ->
  (forall op ex, P ex -> P (pint_unary_expr op ex)) ->
  (forall l op r, P l -> P r -> P (pint_arith_expr l op r)) ->
  (forall i r ex op, Q r -> P ex -> P (pint_arith_loop_expr i r ex op)) ->
  (forall a b, Q (const_range a b)) ->
  (forall l u, P l -> P u -> Q (pint_range l u)) ->
  R no_indices ->
  (forall e l, P e -> R l -> R (index_int e l)) ->
  (forall r l, Q r -> R l -> R (index_range r l)) ->
  (forall e, P e) /\ (forall r, Q r) /\ (forall l, R l).
Proof.
  intros. pose proof (meta_expr_mind P (fun _ => True) (fun _ => True) (fun _ => True) Q R) as H9.
  cut ((forall e, P e) /\ (forall _ : pbool_expr, True) /\ (forall _ : preal_expr, True) /\
       (forall _ : pstring_expr, True) /\ (forall r, Q r) /\ (forall l, R l)); [tauto|].
  apply H9; auto.
Qed.

(** ** Constants *)
Lemma pint_constant e c :
  pint_is_static_constant e = true ->
  pint_unroll_resolve_value e c = pint_static_constant_value e.
Proof.
  induction e; cbn; try done.
  - intros H. by rewrite IHe.
  - intros [H1 H2]%andb_true_iff. by rewrite IHe1, IHe2.
Qed.

Lemma preal_constant e c :
  preal_is_static_constant e = true ->
  preal_unroll_resolve_value e c = preal_static_constant_value e.
Proof.
  induction e; cbn; try done.
  - intros H. by rewrite IHe.
  - intros [H1 H2]%andb_true_iff. by rewrite IHe1, IHe2.
  - intros H. by rewrite pint_constant.
Qed.

Lemma pstring_constant e c :
  pstring_is_static_constant e = true ->
  pstring_unroll_resolve_value e c = pstring_static_constant_value e.
Proof. by destruct e. Qed.

(** The operators of negations are those that the type checker makes. *)
Fixpoint preal_ops_ok (e : preal_expr) : bool :=
  match e with
  | preal_unary_expr op ex => bool_decide (op = "-"%char) && preal_ops_ok ex
  | preal_arith_expr l _ r => preal_ops_ok l && preal_ops_ok r
  | _ => true
  end.

Fixpoint pbool_ops_ok (e : pbool_expr) : bool :=
  match e with
  | pbool_unary_expr op ex => bool_decide (op = "~"%char) && pbool_ops_ok ex
  | pbool_logical_expr l _ r => pbool_ops_ok l && pbool_ops_ok r
  | preal_relational_expr l _ r => preal_ops_ok l && preal_ops_ok r
  | pbool_logical_loop_expr _ _ ex _ => pbool_ops_ok ex
  | _ => true
  end.

Lemma negation_ok op (o : outcome bool) :
  bool_decide (op = "~"%char) = true -> o >>=o pbool_unary_evaluate op = omap_out negb o.
Proof. intros H. destruct o; cbn; try done. unfold pbool_unary_evaluate. by rewrite H. Qed.

Lemma pbool_constant e c :
  pbool_ops_ok e = true -> pbool_is_static_constant e = true ->
  pbool_unroll_resolve_value e c = pbool_static_constant_value e.
Proof.
  induction e; cbn; try done.
  - intros [Hop Hok]%andb_true_iff H. by rewrite negation_ok, IHe.
  - intros [Hl Hr]%andb_true_iff [H1 H2]%andb_true_iff. by rewrite IHe1, IHe2.
  - intros _ [H1 H2]%andb_true_iff. by rewrite !pint_constant.
  - intros _ [H1 H2]%andb_true_iff. by rewrite !preal_constant.
  - intros _ [H1 H2]%andb_true_iff. by rewrite !pstring_constant.
Qed.

(** ** Typing of expressions

    A signature gives the type and the number of dimensions of every name. *)
Abbreviation signature := (gmap string (ptype * nat)).

Definition array_dims {A} (v : value_array A) (d : nat) : Prop :=
  match v with
  | value_scalar _ => d = 0%nat
  | value_collection D _ => D = d /\ d <> 0%nat
  end.

Definition collection_typed (t : ptype) (d : nat) (i : instance_collection) : Prop :=
  match i, t with
  | pint_collection v, PInt => array_dims v d
  | pbool_collection v, PBool => array_dims v d
  | preal_collection v, PReal => array_dims v d
  | pstring_collection v, PString => array_dims v d
  | _, _ => False
  end.

(** What a context knows of a name has its type. *)
Definition context_typed (G : signature) (c : unroll_context) : Prop :=
  forall k t d i, G !! k = Some (t, d) -> lookup_rvalue_collection c k = Some i ->
    collection_typed t d i.

Definition loop_signature (G : signature) (i : value_placeholder) : signature :=
  <[footprint_key i := (PInt, 0%nat)]> G.

Definition placeholder_typed (G : signature) (t : ptype) (p : value_placeholder)
    (i : meta_index_list) : Prop :=
  G !! footprint_key p = Some (t, get_dimensions p) /\ (indices_size i <= get_dimensions p)%nat.

Definition loop_var_ok (i : value_placeholder) : Prop :=
  get_name i = footprint_key i /\ get_dimensions i = 0%nat.

(** Operands, indices, bounds of ranges and bodies of loops are scalar. *)
Fixpoint pint_typed (G : signature) (e : pint_expr) : Prop :=
  match e with
  | pint_const _ => True
  | pint_value_reference p i => placeholder_typed G PInt p i /\ indices_typed G i
  | pint_unary_expr _ ex => pint_typed G ex /\ pint_dimensions ex = 0%nat
  | pint_arith_expr l _ r =>
      (pint_typed G l /\ pint_dimensions l = 0%nat) /\ pint_typed G r /\ pint_dimensions r = 0%nat
  | pint_arith_loop_expr i r ex _ =>
      loop_var_ok i /\ range_typed G r /\
      pint_typed (loop_signature G i) ex /\ pint_dimensions ex = 0%nat
  end
with range_typed (G : signature) (r : meta_range_expr) : Prop :=
  match r with
  | const_range _ _ => True
  | pint_range l u =>
      (pint_typed G l /\ pint_dimensions l = 0%nat) /\ pint_typed G u /\ pint_dimensions u = 0%nat
  end
with indices_typed (G : signature) (l : meta_index_list) : Prop :=
  match l with
  | no_indices => True
  | index_int e l => (pint_typed G e /\ pint_dimensions e = 0%nat) /\ indices_typed G l
  | index_range r l => range_typed G r /\ indices_typed G l
  end.

Fixpoint preal_typed (G : signature) (e : preal_expr) : Prop :=
  match e with
  | preal_const _ => True
  | preal_value_reference p i => placeholder_typed G PReal p i /\ indices_typed G i
  | preal_unary_expr _ ex => preal_typed G ex /\ preal_dimensions ex = 0%nat
  | preal_arith_expr l _ r =>
      (preal_typed G l /\ preal_dimensions l = 0%nat) /\ preal_typed G r /\ preal_dimensions r = 0%nat
  | convert_pint_to_preal_expr ex => pint_typed G ex
  end.

Definition pstring_typed (G : signature) (e : pstring_expr) : Prop :=
  match e with
  | pstring_const _ => True
  | pstring_value_reference p i => placeholder_typed G PString p i /\ indices_typed G i
  end.

Fixpoint pbool_typed (G : signature) (e : pbool_expr) : Prop :=
  match e with
  | pbool_const _ => True
  | pbool_value_reference p i => placeholder_typed G PBool p i /\ indices_typed G i
  | pbool_unary_expr _ ex => pbool_typed G ex /\ pbool_dimensions ex = 0%nat
  | pbool_logical_expr l _ r =>
      (pbool_typed G l /\ pbool_dimensions l = 0%nat) /\ pbool_typed G r /\ pbool_dimensions r = 0%nat
  | pint_relational_expr l _ r =>
      (pint_typed G l /\ pint_dimensions l = 0%nat) /\ pint_typed G r /\ pint_dimensions r = 0%nat
  | preal_relational_expr l _ r =>
      (preal_typed G l /\ preal_dimensions l = 0%nat) /\ preal_typed G r /\ preal_dimensions r = 0%nat
  | pstring_relational_expr l _ r =>
      (pstring_typed G l /\ pstring_dimensions l = 0%nat) /\
      pstring_typed G r /\ pstring_dimensions r = 0%nat
  | pbool_logical_loop_expr i r ex _ =>
      loop_var_ok i /\ range_typed G r /\
      pbool_typed (loop_signature G i) ex /\ pbool_dimensions ex = 0%nat
  | param_defined t p i =>
      placeholder_typed G t p i /\ indices_typed G i /\ reference_dimensions p i = 0%nat
  end.

(** An expression of any type; [scalar] is that it has no dimensions. *)
Definition param_typed (G : signature) (e : param_expr) : Prop :=
  match e with
  | AnInt e => pint_typed G e
  | ABool e => pbool_typed G e
  | AReal e => preal_typed G e
  | AString e => pstring_typed G e
  end.

Definition param_dimensions (e : param_expr) : nat :=
  match e with
  | AnInt e => pint_dimensions e
  | ABool e => pbool_dimensions e
  | AReal e => preal_dimensions e
  | AString e => pstring_dimensions e
  end.

(** *** Scalar references *)
Lemma lookup_top c k :
  lookup_rvalue_collection c k = None -> footprint_value (top_footprint c) k = None.
Proof. destruct c; simpl; unfold first_of; by repeat case_match. Qed.

(** A loop hides one name of its context. *)
Lemma lookup_loop_context i c v k :
  lookup_rvalue_collection (loop_context i c v) k =
  if decide (k = footprint_key i)
  then Some (pint_collection (value_scalar {| value := v; instantiated := true; valid := true |}))
  else lookup_rvalue_collection c k.
Proof.
  unfold loop_context, loop_footprint. simpl.
  unfold footprint_value at 1. simpl.
  case_decide as Hk.
  - subst. by rewrite lookup_singleton_eq.
  - rewrite lookup_singleton_ne by done. simpl.
    destruct (lookup_rvalue_collection c k) eqn:E; [done|]. simpl. by apply lookup_top.
Qed.

Lemma loop_context_typed G c i v :
  context_typed G c -> context_typed (loop_signature G i) (loop_context i c v).
Proof.
  intros Hc k t d o HG. rewrite lookup_loop_context. unfold loop_signature in HG.
  case_decide as Hk.
  - subst. rewrite lookup_insert_eq in HG. injection HG as <- <-. by intros [= <-].
  - rewrite lookup_insert_ne in HG by done. by apply Hc.
Qed.

(** Induction along a list of indices only. *)
Lemma index_list_ind (P : meta_index_list -> Prop) :
  P no_indices -> (forall e l, P l -> P (index_int e l)) ->
  (forall r l, P l -> P (index_range r l)) -> forall l, P l.
Proof.
  intros H0 Hi Hr. fix IH 1. intros [|e l|r l]; [apply H0|apply Hi, IH|apply Hr, IH].
Qed.

Lemma dimensions_collapsed_le i : (dimensions_collapsed i <= indices_size i)%nat.
Proof. induction i using index_list_ind; cbn; lia. Qed.

Lemma indices_of_cases i l :
  (i = no_indices /\ indices_of i l = None) \/ (i <> no_indices /\ indices_of i l = Some l).
Proof. destruct i; cbn; auto. Qed.

Lemma resolve_indices_shape i c l :
  unroll_resolve_indices i c = Good l ->
  length l = indices_size i /\
  (dimensions_collapsed i = indices_size i -> forallb is_ci_int l = true).
Proof.
  revert l. induction i using index_list_ind; cbn.
  - intros l [= <-]. done.
  - intros l (v&_&(k&Hk&[= <-])%obind_Good)%obind_Good. destruct (IHi k Hk) as [? Hints]. cbn.
    split; [lia|]. intros. apply Hints. lia.
  - intros l ([a b]&_&(k&Hk&[= <-])%obind_Good)%obind_Good. destruct (IHi k Hk) as [? _]. cbn.
    split; [lia|]. intros. pose proof (dimensions_collapsed_le i). lia.
Qed.

Lemma multikey_of_ints l :
  forallb is_ci_int l = true -> multikey_of l = Good (lower_multikey l).
Proof.
  intros H. unfold multikey_of. rewrite bool_decide_eq_true_2; [done|].
  unfold lower_multikey, upper_multikey. induction l as [|[]]; cbn in *; [done| |done].
  f_equal. auto.
Qed.

(** A scalar reference has no index if it is to a scalar, and as many integers
    as there are dimensions otherwise. *)
Lemma scalar_reference G t p i :
  placeholder_typed G t p i -> reference_dimensions p i = 0%nat ->
  (i = no_indices /\ get_dimensions p = 0%nat) \/
  (i <> no_indices /\ get_dimensions p = indices_size i /\
   dimensions_collapsed i = indices_size i).
Proof.
  unfold reference_dimensions. intros [_ Hle] H0.
  pose proof (dimensions_collapsed_le i) as Hc.
  destruct i; cbn [indices_size dimensions_collapsed] in *; [left|right..]; split; try done; lia.
Qed.

Section ScalarReference.
Context {A : Type} (p : value_placeholder) (i : meta_index_list) (c : unroll_context).
Hypothesis Hscalar : (i = no_indices /\ get_dimensions p = 0%nat) \/
  (i <> no_indices /\ get_dimensions p = indices_size i /\ dimensions_collapsed i = indices_size i).
Let idx := indices_of i (unroll_resolve_indices i c).

Lemma scalar_collection (a : value_array A) :
  array_dims a (get_dimensions p) -> i <> no_indices ->
  exists m, a = value_collection (get_dimensions p) m.
Proof.
  intros Ha Hi. destruct Hscalar as [[]|(_&Hd&_)]; [done|].
  destruct a; cbn in Ha; [|destruct Ha; subst; eauto].
  destruct i; cbn in *; try done; lia.
Qed.

Lemma reference_value_safe (v : option (value_array A)) :
  (forall a, v = Some a -> array_dims a (get_dimensions p)) ->
  safe (unroll_resolve_indices i c) -> safe (reference_value v idx).
Proof.
  intros Hv Hs. destruct v as [a|]; [|done]. specialize (Hv a eq_refl). unfold idx.
  destruct (indices_of_cases i (unroll_resolve_indices i c)) as [[Hi Hidx]|[Hi Hidx]]; rewrite Hidx.
  - cbn. destruct Hscalar as [[_ Hd]|[]]; [|done]. rewrite Hd in Hv.
    destruct a; cbn in *; [|by destruct Hv]. unfold lookup_value. by case_match.
  - destruct (scalar_collection a Hv Hi) as [m ->].
    destruct Hscalar as [[]|(_&Hd&Hc)]; [done|].
    cbn. rewrite obind_assoc. apply safe_bind; [done|]. intros l Hl.
    destruct (resolve_indices_shape _ _ _ Hl) as [Hlen Hints].
    rewrite multikey_of_ints by auto. cbn. unfold lower_multikey. rewrite length_fmap, Hlen, Hd.
    rewrite Nat.eqb_refl. cbn. unfold lookup_value. by repeat case_match.
Qed.

Lemma reference_defined_safe (v : option (value_array A)) :
  (forall a, v = Some a -> array_dims a (get_dimensions p)) ->
  safe (unroll_resolve_indices i c) -> safe (reference_defined v idx).
Proof.
  intros Hv Hs. destruct v as [a|]; [|done]. specialize (Hv a eq_refl). unfold idx.
  destruct (indices_of_cases i (unroll_resolve_indices i c)) as [[Hi Hidx]|[Hi Hidx]];
    rewrite Hidx; [by destruct a|].
  destruct (scalar_collection a Hv Hi) as [m ->].
  destruct Hscalar as [[]|(_&Hd&Hc)]; [done|].
  cbn. rewrite obind_assoc. apply safe_bind; [done|]. intros l Hl.
  destruct (resolve_indices_shape _ _ _ Hl) as [Hlen Hints].
  rewrite multikey_of_ints by auto. cbn. unfold lower_multikey. rewrite length_fmap, Hlen, Hd.
  rewrite Nat.eqb_refl. cbn. by repeat case_match.
Qed.

(** The two look-ups agree on scalar references. *)
Lemma reference_rvalue_value (as_t : instance_collection -> option (value_array A)) o :
  (forall x, o = Some x -> exists a, as_t x = Some a /\ array_dims a (get_dimensions p)) ->
  reference_rvalue as_t o idx = reference_value (o ≫= as_t) idx.
Proof.
  intros Ho. destruct o as [x|]; [|done]. destruct (Ho x eq_refl) as (a&Ha&Hd). cbn. rewrite Ha.
  unfold idx. destruct (indices_of_cases i (unroll_resolve_indices i c)) as [[Hi Hidx]|[Hi Hidx]]; rewrite Hidx.
  - cbn. destruct Hscalar as [[_ H0]|[]]; [|done]. rewrite H0 in Hd.
    destruct a; cbn in *; [done|by destruct Hd].
  - destruct (scalar_collection a Hd Hi) as [m ->].
    destruct Hscalar as [[]|(_&Hp&Hc)]; [done|].
    cbn. rewrite obind_assoc. apply obind_ext. intros l Hl.
    destruct (resolve_indices_shape _ _ _ Hl) as [Hlen Hints].
    rewrite multikey_of_ints, Hints by auto. cbn. unfold lower_multikey.
    rewrite length_fmap, Hlen, Hp, Nat.eqb_refl. done.
Qed.
End ScalarReference.

Lemma typed_as_pint d x : collection_typed PInt d x ->
  exists a, as_pint x = Some a /\ array_dims a d.
Proof. destruct x; cbn; try done; eauto. Qed.
Lemma typed_as_pbool d x : collection_typed PBool d x ->
  exists a, as_pbool x = Some a /\ array_dims a d.
Proof. destruct x; cbn; try done; eauto. Qed.
Lemma typed_as_preal d x : collection_typed PReal d x ->
  exists a, as_preal x = Some a /\ array_dims a d.
Proof. destruct x; cbn; try done; eauto. Qed.
Lemma typed_as_pstring d x : collection_typed PString d x ->
  exists a, as_pstring x = Some a /\ array_dims a d.
Proof. destruct x; cbn; try done; eauto. Qed.

(** What the look-up of a typed placeholder finds. *)
Lemma lookup_typed {A} (as_t : instance_collection -> option (value_array A)) G t p i c :
  context_typed G c -> placeholder_typed G t p i ->
  (forall d x, collection_typed t d x -> exists a, as_t x = Some a /\ array_dims a d) ->
  (forall x, lookup_rvalue_collection c (footprint_key p) = Some x ->
     exists a, as_t x = Some a /\ array_dims a (get_dimensions p)) /\
  (forall a, lookup_rvalue_collection c (footprint_key p) ≫= as_t = Some a ->
     array_dims a (get_dimensions p)).
Proof.
  intros Hc [Hp _] Hd.
  assert (H : forall x, lookup_rvalue_collection c (footprint_key p) = Some x ->
     exists a, as_t x = Some a /\ array_dims a (get_dimensions p)) by eauto.
  split; [done|]. intros a (x&Hx&Ha)%bind_Some. destruct (H x Hx) as (?&?&?). by simplify_eq.
Qed.

(** *** Evaluation of typed expressions *)
Lemma safe_accumulate {A} (body : Z -> outcome A) op n :
  (forall v, safe (body v)) -> (forall a b, safe (op a b)) ->
  forall p i, safe (accumulate body op n p i).
Proof.
  intros Hb Ho. induction n as [|n IH]; intros p i; cbn; [done|].
  apply safe_bind; [done|intros v _]. apply safe_bind; [done|intros w _]. apply IH.
Qed.

Lemma safe_loop {A} i (body : Z -> outcome A) op cr :
  loop_var_ok i -> (forall v, safe (body v)) -> (forall a b, safe (op a b)) ->
  safe (loop_value i body op cr).
Proof.
  intros [Hk _] Hb Ho. destruct cr as [min max]. cbn. case_match; [done|].
  unfold initialize_footprint. rewrite Hk, bool_decide_eq_true_2 by done. cbn.
  apply safe_bind; [apply safe_bind|]; auto using safe_accumulate.
  intros v _. by case_match.
Qed.

Lemma safe_bind_all {A B} (m : outcome A) (k : A -> outcome B) :
  safe m -> (forall a, safe (k a)) -> safe (m >>=o k).
Proof. intros. by apply safe_bind. Qed.

Lemma pint_eval_safe :
  (forall e G c, context_typed G c -> pint_typed G e -> pint_dimensions e = 0%nat ->
     safe (pint_unroll_resolve_value e c)) /\
  (forall r G c, context_typed G c -> range_typed G r -> safe (unroll_resolve_range r c)) /\
  (forall l G c, context_typed G c -> indices_typed G l -> safe (unroll_resolve_indices l c)).
Proof.
  apply pint_mind; try done.
  - intros p i IH G c Hc [Hp Hi] Hd.
    destruct (lookup_typed as_pint _ _ _ _ _ Hc Hp typed_as_pint) as [_ Hv].
    cbn. eapply reference_value_safe; eauto using scalar_reference.
  - intros op ex IH G c Hc [Ht Hd] _. cbn. apply safe_bind_all; eauto with meta.
  - intros l op r IHl IHr G c Hc [[Hl Hdl] [Hr Hdr]] _. cbn. apply safe_both; eauto with meta.
  - intros i r ex op IHr IHe G c Hc (Hi&Hr&He&Hd) _. cbn. apply safe_bind_all; [eauto|].
    intros cr. apply safe_loop; [done| |eauto with meta].
    intros v. eapply IHe; eauto using loop_context_typed.
  - intros l u IHl IHu G c Hc [[Hl Hdl] [Hu Hdu]]. cbn.
    apply safe_bind_all; [eauto|intros a]. apply safe_bind_all; eauto. done.
  - intros e l IHe IHl G c Hc [[He Hd] Hl]. cbn.
    apply safe_bind_all; [eauto|intros a]. apply safe_bind_all; eauto. done.
  - intros r l IHr IHl G c Hc [Hr Hl]. cbn.
    apply safe_bind_all; [eauto|intros [a b]]. apply safe_bind_all; eauto. done.
Qed.

Lemma indices_eval_safe l G c :
  context_typed G c -> indices_typed G l -> safe (unroll_resolve_indices l c).
Proof. apply pint_eval_safe. Qed.

Lemma preal_eval_safe e G c :
  context_typed G c -> preal_typed G e -> preal_dimensions e = 0%nat ->
  safe (preal_unroll_resolve_value e c).
Proof.
  intros Hc. induction e as [v|p i|op ex IH|l IHl op r IHr|ex]; cbn; [done|..].
  - intros [Hp Hi] Hd. destruct (lookup_typed as_preal _ _ _ _ _ Hc Hp typed_as_preal) as [_ Hv].
    eapply reference_value_safe; eauto using scalar_reference, indices_eval_safe.
  - intros [] _. auto with meta.
  - intros [[] []] _. apply safe_both; auto with meta.
  - intros. apply safe_omap. eapply pint_eval_safe; eauto.
Qed.

Lemma pstring_eval_safe e G c :
  context_typed G c -> pstring_typed G e -> pstring_dimensions e = 0%nat ->
  safe (pstring_unroll_resolve_value e c).
Proof.
  intros Hc. destruct e as [v|p i]; cbn; [done|]. intros [Hp Hi] Hd.
  destruct (lookup_typed as_pstring _ _ _ _ _ Hc Hp typed_as_pstring) as [_ Hv].
  eapply reference_value_safe; eauto using scalar_reference, indices_eval_safe.
Qed.

Lemma defined_safe t p i G c :
  context_typed G c -> placeholder_typed G t p i -> indices_typed G i ->
  reference_dimensions p i = 0%nat -> safe (unroll_resolve_defined t p i c).
Proof.
  intros Hc Hp Hi Hd. unfold unroll_resolve_defined.
  destruct t; (eapply reference_defined_safe; [by eapply scalar_reference| |by eapply indices_eval_safe]);
    eapply lookup_typed;
    eauto using typed_as_pint, typed_as_pbool, typed_as_preal, typed_as_pstring.
Qed.

Lemma pbool_eval_safe e G c :
  context_typed G c -> pbool_typed G e -> pbool_dimensions e = 0%nat ->
  safe (pbool_unroll_resolve_value e c).
Proof.
  revert G c. induction e as [v|p i|op ex IH|l IHl op r IHr|l op r|l op r|l op r|i r ex IH op|t p i];
    cbn; intros G c Hc; [done|..].
  - intros [Hp Hi] Hd. destruct (lookup_typed as_pbool _ _ _ _ _ Hc Hp typed_as_pbool) as [_ Hv].
    eapply reference_value_safe; eauto using scalar_reference, indices_eval_safe.
  - intros [] _. eauto with meta.
  - intros [[] []] _. eauto with meta.
  - intros [[] []] _. apply safe_relate; eapply pint_eval_safe; eauto.
  - intros [[] []] _. apply safe_relate; eapply preal_eval_safe; eauto.
  - intros [[] []] _. apply safe_relate; eapply pstring_eval_safe; eauto.
  - intros (Hi&Hr&He&Hd) _. apply safe_bind_all; [by eapply pint_eval_safe|].
    intros cr. apply safe_loop; [done| |done].
    intros v. eapply IH; eauto using loop_context_typed.
  - intros (Hp&Hi&Hd) _. by eapply defined_safe.
Qed.

(** ** The two evaluators *)
Lemma pint_rvalue_value e G c :
  context_typed G c -> pint_typed G e -> pint_dimensions e = 0%nat ->
  pint_unroll_resolve_rvalue e c = pint_unroll_resolve_value e c.
Proof.
  intros Hc. induction e as [v|p i|op ex IH|l IHl op r IHr|i r ex IH op]; cbn; try done.
  - intros [Hp Hi] Hd. destruct (lookup_typed as_pint _ _ _ _ _ Hc Hp typed_as_pint) as [Ho _].
    eapply reference_rvalue_value; eauto using scalar_reference.
  - intros [] _. by rewrite IH.
  - intros [[] []] _. by rewrite IHl, IHr.
Qed.

Lemma preal_rvalue_value e G c :
  context_typed G c -> preal_typed G e -> preal_dimensions e = 0%nat ->
  preal_unroll_resolve_rvalue e c = preal_unroll_resolve_value e c.
Proof.
  intros Hc. induction e as [v|p i|op ex IH|l IHl op r IHr|ex]; cbn; try done.
  - intros [Hp Hi] Hd. destruct (lookup_typed as_preal _ _ _ _ _ Hc Hp typed_as_preal) as [Ho _].
    eapply reference_rvalue_value; eauto using scalar_reference.
  - intros [] _. by rewrite IH.
  - intros [[] []] _. by rewrite IHl, IHr.
Qed.

Lemma pstring_rvalue_value e G c :
  context_typed G c -> pstring_typed G e -> pstring_dimensions e = 0%nat ->
  pstring_unroll_resolve_rvalue e c = pstring_unroll_resolve_value e c.
Proof.
  intros Hc. destruct e as [v|p i]; cbn; [done|]. intros [Hp Hi] Hd.
  destruct (lookup_typed as_pstring _ _ _ _ _ Hc Hp typed_as_pstring) as [Ho _].
  eapply reference_rvalue_value; eauto using scalar_reference.
Qed.

Lemma pbool_rvalue_value e G c :
  context_typed G c -> pbool_typed G e -> pbool_dimensions e = 0%nat ->
  pbool_unroll_resolve_rvalue e c = pbool_unroll_resolve_value e c.
Proof.
  intros Hc. induction e as [v|p i|op ex IH|l IHl op r IHr|l op r|l op r|l op r|i r ex IH op|t p i];
    cbn; try done.
  - intros [Hp Hi] Hd. destruct (lookup_typed as_pbool _ _ _ _ _ Hc Hp typed_as_pbool) as [Ho _].
    eapply reference_rvalue_value; eauto using scalar_reference.
  - intros [] _. by rewrite IH.
  - intros [[] []] _. by rewrite IHl, IHr.
  - intros [[] []] _. by erewrite !pint_rvalue_value by eauto.
  - intros [[] []] _. by erewrite !preal_rvalue_value by eauto.
  - intros [[] []] _. by erewrite !pstring_rvalue_value by eauto.
Qed.

Definition param_ops_ok (e : param_expr) : bool :=
  match e with ABool e => pbool_ops_ok e | AReal e => preal_ops_ok e | _ => true end.

(** C14: A well-typed scalar expression has one value.  Evaluating it fails no
    assertion: it gives a value, reports an error, throws, or leaves the
    defined behaviour in an operator.  The two evaluators of the source agree,
    in the outcome as well, and if the expression is a constant, both agree
    with its static value, whatever the context. *)
Theorem evaluation_sound e G c :
  context_typed G c -> param_typed G e -> param_dimensions e = 0%nat -> param_ops_ok e = true ->
  safe (unroll_resolve_value e c) /\
  unroll_resolve_rvalues e c = unroll_resolve_value e c /\
  (is_static_constant e = true -> unroll_resolve_value e c = static_constant_param e).
Proof.
  intros Hc Ht Hd Ho. destruct e as [e|e|e|e]; cbn in *; split_and!.
  - apply safe_omap. eapply pint_eval_safe; eauto.
  - f_equal. by eapply pint_rvalue_value.
  - intros. by rewrite pint_constant.
  - apply safe_omap. by eapply pbool_eval_safe.
  - f_equal. by eapply pbool_rvalue_value.
  - intros. by rewrite pbool_constant.
  - apply safe_omap. by eapply preal_eval_safe.
  - f_equal. by eapply preal_rvalue_value.
  - intros. by rewrite preal_constant.
  - apply safe_omap. by eapply pstring_eval_safe.
  - f_equal. by eapply pstring_rvalue_value.
  - intros. by rewrite pstring_constant.
Qed.

(** *** An example: a template parameter [n], bound to a value *)
Definition ex_n : value_placeholder :=
  {| get_name := "n"; footprint_key := "n"; get_dimensions := 0; is_template_formal := 1;
     is_relaxed_template_formal := false; get_owner := Some 0%nat |}.

Definition ex_signature : signature := {["n"%string := (PInt, 0%nat)]}.

Definition ex_context (v : Z) : unroll_context :=
  root_context (Some {["n"%string :=
    pint_collection (value_scalar {| value := v; instantiated := true; valid := true |})]}) None.

Lemma ex_context_typed v : context_typed ex_signature (ex_context v).
Proof.
  intros k t d i HG. unfold ex_signature in HG. apply lookup_singleton_Some in HG as [<- [= <- <-]].
  vm_compute. by intros [= <-].
Qed.

(** [n - 7] *)
Definition ex_difference : pint_expr :=
  pint_arith_expr (pint_value_reference ex_n no_indices) subtractor (pint_const 7).

Lemma ex_difference_typed : pint_typed ex_signature ex_difference.
Proof. cbn. unfold placeholder_typed. repeat split; cbn; try done; lia. Qed.

Lemma evaluation_sound_witness :
  (safe (unroll_resolve_value (AnInt ex_difference) (ex_context 5)) /\
   unroll_resolve_rvalues (AnInt ex_difference) (ex_context 5) =
   unroll_resolve_value (AnInt ex_difference) (ex_context 5) /\
   (is_static_constant (AnInt ex_difference) = true ->
    unroll_resolve_value (AnInt ex_difference) (ex_context 5) =
    static_constant_param (AnInt ex_difference))) /\
  unroll_resolve_value (AnInt ex_difference) (ex_context 5) = Good (CInt (-2)).
Proof.
  split; [|reflexivity].
  apply (evaluation_sound (AnInt ex_difference) ex_signature (ex_context 5));
    [apply ex_context_typed|apply ex_difference_typed|reflexivity..].
Defined.
