(* ===== verification/MetaEquiv.v ===== *)
(** Equivalence and substitution of meta-parameter expressions: what
    [must_be_equivalent] accepts has the same value in contexts that agree on
    the template parameters, and an expression without loops has, after its
    template parameters are substituted, the value that it has when they are
    bound. *)
From stdpp Require Import strings gmap.
From Stdlib Require Import Ascii Floats.SpecFloat.
From S2P Require Import Prelude MetaValue MetaExpr MetaExprProps.
Open Scope Z_scope.

#[local] Abbreviation length := Datatypes.length.

(** ** Reals up to the sign of zero

    Constants are compared by [==], which does not tell the two zeros apart. *)
Definition same_real (x y : spec_float) : Prop :=
  x = y \/ exists s s', x = S754_zero s /\ y = S754_zero s'.

#[export] Instance same_real_refl : Reflexive same_real.
Proof. by left. Qed.

Lemma SFeqb_same_real x y : SFeqb x y = true -> same_real x y.
Proof.
  unfold SFeqb, SFcompare.
  destruct x as [s|s| |s m e], y as [s'|s'| |s' m' e']; intros H; try done;
    try (by destruct s); try (by destruct s').
  - right. eauto.
  - left. by destruct s, s'.
  - left. destruct s, s'; try done; destruct (e ?= e') eqn:He; try done;
      apply Z.compare_eq in He as ->; change (Pos.compare_cont Eq m m') with (Pos.compare m m') in H;
      destruct (Pos.compare m m') eqn:Hm; try done; by apply Pos.compare_eq in Hm as ->.
Qed.

Lemma same_real_opp x y : same_real x y -> same_real (SFopp x) (SFopp y).
Proof. intros [->|(s&s'&->&->)]; [done|]. right. cbn. eauto. Qed.

Lemma same_real_relation o x x' y y' :
  same_real x x' -> same_real y y' -> preal_relation o x y = preal_relation o x' y'.
Proof.
  intros [->|(s&s'&->&->)] [->|(t&t'&->&->)]; try done;
    destruct o; cbn; unfold SFeqb, SFltb, SFleb; cbn; try done; by repeat case_match.
Qed.

(** Related outcomes. *)
Definition outcome_rel {A} (R : A -> A -> Prop) (o o' : outcome A) : Prop :=
  match o, o' with
  | Good a, Good a' => R a a'
  | Bad, Bad | Throws, Throws => True
  | Crash f, Crash f' => f = f'
  | _, _ => False
  end.

Lemma outcome_rel_refl {A} (R : A -> A -> Prop) `{!Reflexive R} o : outcome_rel R o o.
Proof. by destruct o; cbn. Qed.

Lemma outcome_rel_eq {A} (o o' : outcome A) : outcome_rel eq o o' -> o = o'.
Proof. destruct o, o'; cbn; naive_solver. Qed.

Lemma outcome_rel_both {A R} (S : A -> A -> Prop) (T : R -> R -> Prop) l l' r r'
    (k k' : A -> A -> outcome R) :
  outcome_rel S l l' -> outcome_rel S r r' ->
  (forall a a' b b', S a a' -> S b b' -> outcome_rel T (k a b) (k' a' b')) ->
  outcome_rel T (both l r k) (both l' r' k').
Proof. destruct l, l'; cbn; try done; destruct r, r'; cbn; auto; by intros. Qed.

Lemma same_real_arith o x x' y y' :
  same_real x x' -> same_real y y' -> outcome_rel same_real (preal_arith o x y) (preal_arith o x' y').
Proof.
  intros Hx Hy.
  assert (Hz : zerodiv_detect_float y = zerodiv_detect_float y').
  { change (preal_relation op_less y FLT_MIN = preal_relation op_less y' FLT_MIN).
    by apply same_real_relation. }
  destruct o; cbn; try (rewrite <- Hz; destruct (zerodiv_detect_float y) eqn:Hd; [done|]); cbn;
    destruct Hx as [->|(s&s'&->&->)], Hy as [->|(t&t'&->&->)]; try done;
    try (destruct x' as [?|?| |[] ? ?]); try (destruct y' as [?|?| |[] ? ?]);
    cbn; try reflexivity;
    right; repeat case_match; eauto.
Qed.

(** ** Scopes

    The placeholders of an expression are declared, in [D], and no template
    parameter is hidden by a loop variable of the same name, which the type
    checker takes care of.  [H] are the keys of the loops around. *)
Section Scopes.
Context (D : list value_placeholder).

Definition visible (H : list string) (p : value_placeholder) : Prop :=
  p ∈ D /\ (is_template_formal p <> 0%nat -> footprint_key p ∉ H).

Fixpoint pint_scoped (H : list string) (e : pint_expr) : Prop :=
  match e with
  | pint_const _ => True
  | pint_value_reference p i => visible H p /\ indices_scoped H i
  | pint_unary_expr _ ex => pint_scoped H ex
  | pint_arith_expr l _ r => pint_scoped H l /\ pint_scoped H r
  | pint_arith_loop_expr i r ex _ => range_scoped H r /\ pint_scoped (footprint_key i :: H) ex
  end
with range_scoped (H : list string) (r : meta_range_expr) : Prop :=
  match r with
  | const_range _ _ => True
  | pint_range l u => pint_scoped H l /\ pint_scoped H u
  end
with indices_scoped (H : list string) (l : meta_index_list) : Prop :=
  match l with
  | no_indices => True
  | index_int e l => pint_scoped H e /\ indices_scoped H l
  | index_range r l => range_scoped H r /\ indices_scoped H l
  end.

Fixpoint preal_scoped (H : list string) (e : preal_expr) : Prop :=
  match e with
  | preal_const _ => True
  | preal_value_reference p i => visible H p /\ indices_scoped H i
  | preal_unary_expr _ ex => preal_scoped H ex
  | preal_arith_expr l _ r => preal_scoped H l /\ preal_scoped H r
  | convert_pint_to_preal_expr ex => pint_scoped H ex
  end.

Definition pstring_scoped (H : list string) (e : pstring_expr) : Prop :=
  match e with
  | pstring_const _ => True
  | pstring_value_reference p i => visible H p /\ indices_scoped H i
  end.

Fixpoint pbool_scoped (H : list string) (e : pbool_expr) : Prop :=
  match e with
  | pbool_const _ => True
  | pbool_value_reference p i => visible H p /\ indices_scoped H i
  | pbool_unary_expr _ ex => pbool_scoped H ex
  | pbool_logical_expr l _ r => pbool_scoped H l /\ pbool_scoped H r
  | pint_relational_expr l _ r => pint_scoped H l /\ pint_scoped H r
  | preal_relational_expr l _ r => preal_scoped H l /\ preal_scoped H r
  | pstring_relational_expr l _ r => pstring_scoped H l /\ pstring_scoped H r
  | pbool_logical_loop_expr i r ex _ => range_scoped H r /\ pbool_scoped (footprint_key i :: H) ex
  | param_defined _ p i => visible H p /\ indices_scoped H i
  end.

Definition param_scoped (H : list string) (e : param_expr) : Prop :=
  match e with
  | AnInt e => pint_scoped H e
  | ABool e => pbool_scoped H e
  | AReal e => preal_scoped H e
  | AString e => pstring_scoped H e
  end.
End Scopes.

(** ** Equivalent expressions

    Two contexts, with the loops around them, that have the same values for
    the declared template parameters at the same positions. *)
Definition formals_agree (D D' : list value_placeholder) (H H' : list string)
    (c c' : unroll_context) : Prop :=
  forall p q, p ∈ D -> q ∈ D' -> same_formal p q = true -> footprint_key p ∉ H -> footprint_key q ∉ H' ->
    lookup_rvalue_collection c (footprint_key p) = lookup_rvalue_collection c' (footprint_key q) /\
    get_dimensions p = get_dimensions q.

Lemma formals_agree_loop D D' H H' c c' i i' v :
  formals_agree D D' H H' c c' ->
  formals_agree D D' (footprint_key i :: H) (footprint_key i' :: H')
    (loop_context i c v) (loop_context i' c' v).
Proof.
  intros Ha p q HpD HqD Hpq [Hp HpH]%not_elem_of_cons [Hq HqH]%not_elem_of_cons.
  rewrite !lookup_loop_context, !decide_False by done. by apply Ha.
Qed.

Lemma same_formal_visible p q :
  same_formal p q = true -> is_template_formal p <> 0%nat /\ is_template_formal q <> 0%nat.
Proof.
  unfold same_formal. intros [Hp Hq]%andb_true_iff. apply Nat.eqb_eq in Hq.
  apply negb_true_iff, Nat.eqb_neq in Hp. by rewrite <- Hq.
Qed.

(** Comparisons with constants. *)
Lemma range_is_const_value l u a b c :
  range_is_const l u a b = Good true ->
  unroll_resolve_range (pint_range l u) c = Good (a, b).
Proof.
  unfold range_is_const. case_match eqn:Hs; [|done].
  apply andb_true_iff in Hs as [Hl Hu].
  intros [(v&Hv&Hva)%omap_out_Good (w&Hw&Hwb)%omap_out_Good]%both_true_Good.
  cbn. rewrite !pint_constant, Hv, Hw by done. cbn. f_equal. f_equal; lia.
Qed.

Lemma dynamic_equals_const_value l m c c' :
  indices_size l = indices_size m -> dynamic_equals_const l m = Good true ->
  unroll_resolve_indices l c = unroll_resolve_indices m c'.
Proof.
  revert m. induction l as [|e l IH|r l IH] using index_list_ind; intros [|e' m|r' m]; cbn;
    try done; intros [= Hsize] [He Hm]%both_true_Good.
  - rewrite (IH m) by done. destruct e, e'; try done. cbn in *. injection He as He.
    by apply Z.eqb_eq in He as ->.
  - rewrite (IH m) by done. f_equal. destruct r, r'; cbn in He; try done.
    + injection He as [Ha Hb]%andb_true_iff.
      by apply Z.eqb_eq in Ha as ->, Hb as ->.
    + by rewrite (range_is_const_value _ _ _ _ c' He).
    + by rewrite (range_is_const_value _ _ _ _ c He).
Qed.

(** Two scalar references to the same template parameter. *)
Section ReferenceEquivalence.
Context (D D' : list value_placeholder) (H H' : list string) (c c' : unroll_context)
  (G G' : signature) (t t' : ptype)
  (p q : value_placeholder) (i j : meta_index_list).
Hypothesis Hagree : formals_agree D D' H H' c c'.
Hypothesis Hp : placeholder_typed G t p i.
Hypothesis Hq : placeholder_typed G' t' q j.
Hypothesis Hdp : reference_dimensions p i = 0%nat.
Hypothesis Hdq : reference_dimensions q j = 0%nat.
Hypothesis Hvp : visible D H p.
Hypothesis Hvq : visible D' H' q.
Hypothesis Hequal : indices_size i = indices_size j -> indices_equal i j = Good true ->
  unroll_resolve_indices i c = unroll_resolve_indices j c'.

Lemma reference_equivalent :
  reference_must_be_equivalent p q (indices_compare i j (indices_equal i j)) = Good true ->
  lookup_rvalue_collection c (footprint_key p) = lookup_rvalue_collection c' (footprint_key q) /\
  indices_of i (unroll_resolve_indices i c) = indices_of j (unroll_resolve_indices j c').
Proof.
  unfold reference_must_be_equivalent. case_match eqn:Hs; [|done]. intros Hi.
  destruct (same_formal_visible _ _ Hs) as [Hfp Hfq].
  destruct (Hagree p q (proj1 Hvp) (proj1 Hvq) Hs (proj2 Hvp Hfp) (proj2 Hvq Hfq)) as [Hl Hdims]. split; [done|].
  destruct (scalar_reference _ _ _ _ Hp Hdp) as [[-> Hp0]|(Hni&Hpn&_)],
    (scalar_reference _ _ _ _ Hq Hdq) as [[-> Hq0]|(Hnj&Hqn&_)]; try done.
  - destruct j; cbn in *; try done; lia.
  - destruct i; cbn in *; try done; lia.
  - assert (Hsize : indices_size i = indices_size j) by lia.
    assert (Hr : unroll_resolve_indices i c = unroll_resolve_indices j c').
    { unfold indices_compare in Hi.
      assert (Hi' : (if is_const_indices i && is_const_indices j then indices_equal i j
        else invariant (indices_size i =? indices_size j)%nat >>=o fun _ =>
           if is_const_indices i then dynamic_equals_const j i else indices_equal i j) = Good true)
        by (by destruct i, j).
      rewrite Hsize, Nat.eqb_refl in Hi'. cbn in Hi'.
      destruct (is_const_indices i), (is_const_indices j); cbn in Hi'; auto.
      symmetry. by apply dynamic_equals_const_value. }
    rewrite Hr. by destruct i, j.
Qed.
End ReferenceEquivalence.

Lemma loop_value_ext {A} i i' (f f' : Z -> outcome A) op cr :
  loop_var_ok i -> loop_var_ok i' -> (forall v, f v = f' v) ->
  loop_value i f op cr = loop_value i' f' op cr.
Proof.
  intros [Hi _] [Hi' _] Hf. destruct cr as [min max]. unfold loop_value, initialize_footprint.
  rewrite Hi, Hi', !bool_decide_eq_true_2 by done. case_match; [done|]. cbn. rewrite Hf.
  f_equal. apply obind_ext. intros a _.
  generalize (Z.to_nat (max - min)) (min + 1) a. clear -Hf.
  induction n as [|n IH]; intros p b; cbn; [done|]. rewrite Hf.
  apply obind_ext. intros v _. apply obind_ext. intros w _. apply IH.
Qed.

Definition equivalence_sound {E V} (typed : signature -> E -> Prop) (scoped : list value_placeholder -> list string -> E -> Prop)
    (compare : E -> E -> outcome bool) (eval : E -> unroll_context -> V) (R : V -> V -> Prop)
    (e : E) : Prop :=
  forall e' G G' D D' H H' c c', typed G e -> typed G' e' -> scoped D H e -> scoped D' H' e' ->
    formals_agree D D' H H' c c' -> compare e e' = Good true -> R (eval e c) (eval e' c').

Definition pint_scalar (G : signature) (e : pint_expr) : Prop :=
  pint_typed G e /\ pint_dimensions e = 0%nat.

Lemma same_op_Good {A} `{EqDecision A} (a b : A) k :
  both_true (same_op a b) k = Good true -> a = b /\ k = Good true.
Proof. unfold same_op. intros [[= ?%bool_decide_eq_true]]%both_true_Good. done. Qed.

Ltac compare_cbn := cbn [pint_must_be_equivalent range_must_be_equivalent indices_equal].

Lemma pint_equivalence :
  (forall e, equivalence_sound pint_scalar pint_scoped pint_must_be_equivalent
     pint_unroll_resolve_value eq e) /\
  (forall r, equivalence_sound range_typed range_scoped range_must_be_equivalent
     unroll_resolve_range eq r) /\
  (forall l, equivalence_sound indices_typed indices_scoped
     (fun l m => if (indices_size l =? indices_size m)%nat then indices_equal l m else Good false)
     unroll_resolve_indices eq l).
Proof.
  apply pint_mind; unfold equivalence_sound.
  - intros v e' G G' D D' H H' c c' _ _ _ _ _.
    compare_cbn. unfold equals_constant. case_match eqn:Hs; [|done].
    intros (w&Hw&Hv)%omap_out_Good. rewrite (pint_constant e'), Hw by done. cbn. f_equal. lia.
  - intros p i IH e' G G' D D' H H' c c' [[Hp Hi] Hd] [Ht' Hd'] [Hv Hsi] Hs' Ha.
    compare_cbn.
    destruct e' as [|q j| | |]; try done. destruct Ht' as [Hq Hj], Hs' as [Hvq Hsj]. intros He.
    destruct (reference_equivalent D D' H H' c c' G G' PInt PInt p q i j) as [Hl Hx]; try done.
    + intros Hsize Hij. eapply IH; eauto. by rewrite Hsize, Nat.eqb_refl.
    + cbn. by rewrite Hl, Hx.
  - intros op ex IH e' G G' D D' H H' c c' [[Ht Hd] _] [Ht' _] Hs Hs' Ha.
    compare_cbn.
    destruct e' as [| |op' ex'| |]; try done. destruct Ht' as [Ht' Hd'].
    intros [-> Hex]%same_op_Good.
    cbn. f_equal. eapply IH; eauto; by split.
  - intros l op r IHl IHr e' G G' D D' H H' c c' [[[Hl Hdl] [Hr Hdr]] _] [Ht' _] [Hsl Hsr] Hs' Ha.
    compare_cbn.
    destruct e' as [| | |l' op' r'|]; try done. destruct Ht' as [[Hl' Hdl'] [Hr' Hdr']], Hs'.
    intros [-> [Hel Her]%both_true_Good]%same_op_Good.
    cbn. f_equal; [eapply IHl|eapply IHr]; eauto; by split.
  - intros i r ex op IHr IHe e' G G' D D' H H' c c' [(Hi&Hr&He&Hd) _] [Ht' _] [Hsr Hse] Hs' Ha.
    compare_cbn.
    destruct e' as [| | | |i' r' ex' op']; try done. destruct Ht' as (Hi'&Hr'&He'&Hd'), Hs'.
    intros [-> [Her Hee]%both_true_Good]%same_op_Good.
    cbn. rewrite (IHr r' G G' D D' H H' c c') by done. apply obind_ext. intros cr _.
    apply loop_value_ext; [done..|]. intros v. eapply IHe; eauto using formals_agree_loop; by split.
  - intros a b r' G G' D D' H H' c c' _ _ _ _ _.
    compare_cbn. destruct r' as [a' b'|l u].
    + intros [= [Hx Hy]%andb_true_iff]. cbn. f_equal. f_equal; lia.
    + intros Hx. symmetry. by apply range_is_const_value.
  - intros l u IHl IHu r' G G' D D' H H' c c' [[Hl Hdl] [Hu Hdu]] Ht' [Hsl Hsu] Hs' Ha.
    compare_cbn.
    destruct r' as [a' b'|l' u']; [intros Hx; by apply (range_is_const_value _ _ _ _ c)|].
    destruct Ht' as [[Hl' Hdl'] [Hu' Hdu']], Hs' as [Hsl' Hsu'].
    intros [Hel Heu]%both_true_Good. cbn.
    rewrite (IHl l' G G' D D' H H' c c'), (IHu u' G G' D D' H H' c c') by done. done.
  - intros m G G' D D' H H' c c' _ _ _ _ _.
    compare_cbn. destruct m; by repeat case_match.
  - intros e l IHe IHl m G G' D D' H H' c c' [[He Hd] Hl] Hm [Hse Hsl] Hsm Ha.
    compare_cbn.
    destruct m as [|e' m|r' m]; [done| |by repeat case_match].
    case_match eqn:Hsize; [|done]. destruct Hm as [[He' Hd'] Hm], Hsm as [Hse' Hsm].
    intros [Hee Hlm]%both_true_Good. cbn.
    rewrite (IHe e' G G' D D' H H' c c') by done. apply obind_ext. intros v _.
    rewrite (IHl m G G' D D' H H' c c'); try done. cbn in Hsize. by rewrite Hsize.
  - intros r l IHr IHl m G G' D D' H H' c c' [Hr Hl] Hm [Hsr Hsl] Hsm Ha.
    compare_cbn.
    destruct m as [|e' m|r' m]; [done|by repeat case_match|].
    case_match eqn:Hsize; [|done]. destruct Hm as [Hr' Hm], Hsm as [Hsr' Hsm].
    intros [Hrr Hlm]%both_true_Good. cbn.
    rewrite (IHr r' G G' D D' H H' c c') by done. apply obind_ext. intros [a b] _.
    rewrite (IHl m G G' D D' H H' c c'); try done. cbn in Hsize. by rewrite Hsize.
Qed.

Lemma pint_equivalent e e' G G' D D' H H' c c' :
  pint_typed G e -> pint_dimensions e = 0%nat -> pint_typed G' e' -> pint_dimensions e' = 0%nat ->
  pint_scoped D H e -> pint_scoped D' H' e' -> formals_agree D D' H H' c c' ->
  pint_must_be_equivalent e e' = Good true ->
  pint_unroll_resolve_value e c = pint_unroll_resolve_value e' c'.
Proof. intros. eapply pint_equivalence; eauto; by split. Qed.

(** Indices of a reference: what [reference_equivalent] asks for. *)
Lemma indices_equivalent i j G G' D D' H H' c c' :
  indices_typed G i -> indices_typed G' j -> indices_scoped D H i -> indices_scoped D' H' j ->
  formals_agree D D' H H' c c' -> indices_size i = indices_size j -> indices_equal i j = Good true ->
  unroll_resolve_indices i c = unroll_resolve_indices j c'.
Proof.
  intros Hi Hj Hsi Hsj Ha Hsize Hij.
  eapply (proj2 (proj2 pint_equivalence)); eauto. by rewrite Hsize, Nat.eqb_refl.
Qed.

Definition preal_scalar (G : signature) (e : preal_expr) : Prop :=
  preal_typed G e /\ preal_dimensions e = 0%nat.
Definition pstring_scalar (G : signature) (e : pstring_expr) : Prop :=
  pstring_typed G e /\ pstring_dimensions e = 0%nat.
Definition pbool_scalar (G : signature) (e : pbool_expr) : Prop :=
  pbool_typed G e /\ pbool_dimensions e = 0%nat.

Lemma omap_out_rel {A B} (R : A -> A -> Prop) (S : B -> B -> Prop) (f : A -> B) o o' :
  outcome_rel R o o' -> (forall a a', R a a' -> S (f a) (f a')) ->
  outcome_rel S (omap_out f o) (omap_out f o').
Proof. destruct o, o'; cbn; auto. Qed.

Lemma preal_equivalence e :
  equivalence_sound preal_scalar preal_scoped preal_must_be_equivalent
    preal_unroll_resolve_value (outcome_rel same_real) e.
Proof.
  unfold equivalence_sound.
  induction e as [v|p i|op ex IH|l IHl op r IHr|ex];
    intros e' G G' D D' H H' c c' [Ht Hd] [Ht' Hd'] Hs Hs' Ha; cbn [preal_must_be_equivalent].
  - unfold equals_constant. case_match eqn:Hst; [|done]. intros (w&Hw&Hv)%omap_out_Good.
    rewrite (preal_constant e'), Hw by done. cbn. by apply SFeqb_same_real.
  - destruct e' as [|q j| | |]; try done. destruct Ht as [Hp Hi], Ht' as [Hq Hj], Hs, Hs'. intros He.
    destruct (reference_equivalent D D' H H' c c' G G' PReal PReal p q i j) as [Hl Hx];
      eauto using indices_equivalent.
    cbn. rewrite Hl, Hx. apply outcome_rel_refl. apply _.
  - destruct e' as [| |op' ex'| |]; try done. intros [-> Hex]%same_op_Good.
    cbn. eapply omap_out_rel; [eapply IH; eauto|apply same_real_opp].
  - destruct e' as [| | |l' op' r'|]; try done. destruct Ht as [? ?], Ht' as [? ?], Hs, Hs'.
    intros [-> [Hel Her]%both_true_Good]%same_op_Good.
    cbn. eapply outcome_rel_both; [eapply IHl; eauto|eapply IHr; eauto|].
    intros. by apply same_real_arith.
  - destruct e' as [| | | |ex']; try done. intros He. cbn.
    erewrite pint_equivalent; eauto. apply outcome_rel_refl. apply _.
Qed.

Lemma pstring_equivalence e :
  equivalence_sound pstring_scalar pstring_scoped pstring_must_be_equivalent
    pstring_unroll_resolve_value eq e.
Proof.
  unfold equivalence_sound. destruct e as [v|p i];
    intros e' G G' D D' H H' c c' [Ht Hd] [Ht' Hd'] Hs Hs' Ha; cbn [pstring_must_be_equivalent].
  - unfold equals_constant. case_match eqn:Hst; [|done].
    intros (w&Hw&Hv)%omap_out_Good. rewrite (pstring_constant e'), Hw by done. cbn.
    by apply String.eqb_eq in Hv as ->.
  - destruct e' as [|q j]; try done. destruct Ht as [Hp Hi], Ht' as [Hq Hj], Hs, Hs'. intros He.
    destruct (reference_equivalent D D' H H' c c' G G' PString PString p q i j) as [Hl Hx];
      eauto using indices_equivalent.
    cbn. by rewrite Hl, Hx.
Qed.

(** A comparison of operands that are related has one result. *)
Lemma relate_rel {A} (R : A -> A -> Prop) (rel : A -> A -> bool) l l' r r' :
  outcome_rel R l l' -> outcome_rel R r r' ->
  (forall a a' b b', R a a' -> R b b' -> rel a b = rel a' b') ->
  relate rel l r = relate rel l' r'.
Proof.
  intros Hl Hr Hrel. apply outcome_rel_eq. apply (outcome_rel_both R); auto.
Qed.

Lemma pbool_equivalence e :
  pbool_ops_ok e = true ->
  forall e' G G' D D' H H' c c', pbool_ops_ok e' = true -> pbool_scalar G e -> pbool_scalar G' e' ->
    pbool_scoped D H e -> pbool_scoped D' H' e' -> formals_agree D D' H H' c c' ->
    pbool_must_be_equivalent e e' = Good true ->
    pbool_unroll_resolve_value e c = pbool_unroll_resolve_value e' c'.
Proof.
  induction e as [v|p i|op ex IH|l IHl op r IHr|l op r|l op r|l op r|i r ex IH op|t p i];
    intros Ho e' G G' D D' H H' c c' Ho' [Ht Hd] [Ht' Hd'] Hs Hs' Ha;
    cbn [pbool_must_be_equivalent].
  - unfold equals_constant. case_match eqn:Hst; [|done]. intros (w&Hw&Hv)%omap_out_Good.
    rewrite (pbool_constant e'), Hw by done. cbn. by apply eqb_prop in Hv as ->.
  - destruct e' as [|q j| | | | | | |]; try done.
    destruct Ht as [Hp Hi], Ht' as [Hq Hj], Hs, Hs'. intros He.
    destruct (reference_equivalent D D' H H' c c' G G' PBool PBool p q i j) as [Hl Hx];
      eauto using indices_equivalent.
    cbn. by rewrite Hl, Hx.
  - destruct e' as [| |op' ex'| | | | | |]; try done. intros He.
    apply andb_true_iff in Ho as [_ Ho], Ho' as [_ Ho']. cbn. f_equal. eapply IH; eauto.
  - destruct e' as [| | |l' op' r'| | | | |]; try done.
    destruct Ht as [? ?], Ht' as [? ?], Hs, Hs'.
    apply andb_true_iff in Ho as [? ?], Ho' as [? ?].
    intros [-> [Hel Her]%both_true_Good]%same_op_Good. cbn.
    f_equal; [eapply IHl|eapply IHr]; eauto.
  - destruct e' as [| | | |l' op' r'| | | |]; try done.
    destruct Ht as [[] []], Ht' as [[] []], Hs, Hs'.
    intros [-> [Hel Her]%both_true_Good]%same_op_Good. cbn.
    by rewrite (pint_equivalent l l' G G' D D' H H' c c'), (pint_equivalent r r' G G' D D' H H' c c').
  - destruct e' as [| | | | |l' op' r'| | |]; try done. destruct Ht, Ht', Hs, Hs'.
    intros [-> [Hel Her]%both_true_Good]%same_op_Good. cbn.
    apply (relate_rel same_real); [eapply preal_equivalence; eauto..|].
    intros. by apply same_real_relation.
  - destruct e' as [| | | | | |l' op' r'| |]; try done. destruct Ht, Ht', Hs, Hs'.
    intros [-> [Hel Her]%both_true_Good]%same_op_Good. cbn.
    f_equal; eapply pstring_equivalence; eauto.
  - destruct e' as [| | | | | | |i' r' ex' op'|]; try done.
    destruct Ht as (?&Hr&?&?), Ht' as (?&Hr'&?&?), Hs, Hs'.
    intros [-> [Her Hee]%both_true_Good]%same_op_Good. cbn.
    rewrite (proj1 (proj2 pint_equivalence) r r' G G' D D' H H' c c') by done.
    apply obind_ext. intros cr _. apply loop_value_ext; [done..|].
    intros v. eapply IH; eauto using formals_agree_loop; by split.
  - done.
Qed.

(** *** Equivalent expressions of any type *)
Definition same_const (v w : const_param) : Prop :=
  match v, w with
  | CReal x, CReal y => same_real x y
  | _, _ => v = w
  end.

Lemma same_const_omap {A} (f : A -> const_param) o o' :
  (forall a, same_const (f a) (f a)) -> o = o' -> outcome_rel same_const (omap_out f o) (omap_out f o').
Proof. intros Hf ->. destruct o'; cbn; auto. Qed.

(** C15: Expressions that must be equivalent have the same value, up to the
    sign of a zero, in any two contexts in which the template parameters at
    the same positions have the same values; they also fail alike. *)
Theorem must_be_equivalent_sound e e' D D' G G' c c' :
  param_typed G e -> param_typed G' e' -> param_dimensions e = 0%nat ->
  param_dimensions e' = 0%nat -> param_ops_ok e = true -> param_ops_ok e' = true ->
  param_scoped D [] e -> param_scoped D' [] e' -> formals_agree D D' [] [] c c' ->
  must_be_equivalent_generic e e' = Good true ->
  outcome_rel same_const (unroll_resolve_value e c) (unroll_resolve_value e' c').
Proof.
  intros Ht Ht' Hd Hd' Ho Ho' Hs Hs' Ha.
  destruct e as [e|e|e|e], e' as [e'|e'|e'|e']; cbn in *; try done; intros He.
  - apply same_const_omap; [done|]. by eapply pint_equivalent.
  - apply same_const_omap; [done|]. eapply pbool_equivalence; eauto; by split.
  - eapply (omap_out_rel same_real); [eapply preal_equivalence; eauto; by split|done].
  - apply same_const_omap; [done|]. eapply pstring_equivalence; eauto; by split.
Qed.

(** ** Substitution *)
Fixpoint pint_loop_free (e : pint_expr) : bool :=
  match e with
  | pint_const _ => true
  | pint_value_reference _ i => indices_loop_free i
  | pint_unary_expr _ ex => pint_loop_free ex
  | pint_arith_expr l _ r => pint_loop_free l && pint_loop_free r
  | pint_arith_loop_expr _ _ _ _ => false
  end
with range_loop_free (r : meta_range_expr) : bool :=
  match r with
  | const_range _ _ => true
  | pint_range l u => pint_loop_free l && pint_loop_free u
  end
with indices_loop_free (l : meta_index_list) : bool :=
  match l with
  | no_indices => true
  | index_int e l => pint_loop_free e && indices_loop_free l
  | index_range r l => range_loop_free r && indices_loop_free l
  end.

Fixpoint preal_loop_free (e : preal_expr) : bool :=
  match e with
  | preal_const _ => true
  | preal_value_reference _ i => indices_loop_free i
  | preal_unary_expr _ ex => preal_loop_free ex
  | preal_arith_expr l _ r => preal_loop_free l && preal_loop_free r
  | convert_pint_to_preal_expr ex => pint_loop_free ex
  end.

Definition pstring_loop_free (e : pstring_expr) : bool :=
  match e with pstring_const _ => true | pstring_value_reference _ i => indices_loop_free i end.

Fixpoint pbool_loop_free (e : pbool_expr) : bool :=
  match e with
  | pbool_const _ => true
  | pbool_value_reference _ i => indices_loop_free i
  | pbool_unary_expr _ ex => pbool_loop_free ex
  | pbool_logical_expr l _ r => pbool_loop_free l && pbool_loop_free r
  | pint_relational_expr l _ r => pint_loop_free l && pint_loop_free r
  | preal_relational_expr l _ r => preal_loop_free l && preal_loop_free r
  | pstring_relational_expr l _ r => pstring_loop_free l && pstring_loop_free r
  | pbool_logical_loop_expr _ _ _ _ => false
  | param_defined _ _ i => indices_loop_free i
  end.

Definition param_loop_free (e : param_expr) : bool :=
  match e with
  | AnInt e => pint_loop_free e
  | ABool e => pbool_loop_free e
  | AReal e => preal_loop_free e
  | AString e => pstring_loop_free e
  end.

(** The collection that holds one value. *)
Definition scalar_of {A} (v : A) : value_array A :=
  value_scalar {| value := v; instantiated := true; valid := true |}.

Definition collection_of (v : const_param) : instance_collection :=
  match v with
  | CInt v => pint_collection (scalar_of v)
  | CBool v => pbool_collection (scalar_of v)
  | CReal v => preal_collection (scalar_of v)
  | CString v => pstring_collection (scalar_of v)
  end.

Definition param_as_reference (e : param_expr) : option (value_placeholder * meta_index_list) :=
  match e with
  | AnInt e => pint_as_reference e
  | ABool e => pbool_as_reference e
  | AReal e => preal_as_reference e
  | AString e => pstring_as_reference e
  end.

(** [c'] is [c] with the template parameters of [f], of those declared, bound
    to the values that the actual parameters have in [c]. *)
Record binds_formals (D : list value_placeholder) (f : nat) (actuals : list param_expr)
    (c c' : unroll_context) : Prop := {
  binds_others : forall p, p ∈ D -> get_owner p <> Some f ->
    lookup_rvalue_collection c' (footprint_key p) = lookup_rvalue_collection c (footprint_key p);
  binds_reference : forall p a q, p ∈ D -> get_owner p = Some f ->
    actuals !! (is_template_formal p - 1)%nat = Some a ->
    param_as_reference a = Some (q, no_indices) ->
    lookup_rvalue_collection c' (footprint_key p) = lookup_rvalue_collection c (footprint_key q);
  binds_value : forall p a, p ∈ D -> get_owner p = Some f ->
    actuals !! (is_template_formal p - 1)%nat = Some a -> param_as_reference a = None ->
    exists v, unroll_resolve_value a c = Good v /\
      lookup_rvalue_collection c' (footprint_key p) = Some (collection_of v)
}.

Section Substitution.
Context (D : list value_placeholder) (f : nat) (actuals : list param_expr)
  (c c' : unroll_context).
Hypothesis Hbinds : binds_formals D f actuals c c'.

(** A reference, for each of the four classes. *)
Section Reference.
Context {E A : Type} (cast : param_expr -> option E)
  (as_reference : E -> option (value_placeholder * meta_index_list))
  (make : value_placeholder -> meta_index_list -> E) (inject : E -> param_expr)
  (con : A -> const_param) (as_t : instance_collection -> option (value_array A))
  (eval : E -> unroll_context -> outcome A).
Hypothesis Hcast : forall a e, cast a = Some e -> a = inject e.
Hypothesis Hreference : forall e, param_as_reference (inject e) = as_reference e.
Hypothesis Hmake : forall p i c, eval (make p i) c =
  reference_value (lookup_rvalue_collection c (footprint_key p) ≫= as_t)
    (indices_of i (unroll_resolve_indices i c)).
Hypothesis Heval : forall e c, unroll_resolve_value (inject e) c = omap_out con (eval e c).
Hypothesis Hcon : forall v, as_t (collection_of (con v)) = Some (scalar_of v).

Lemma substitute_reference_sound p i e :
  p ∈ D ->
  (forall j, indices_substitute f actuals i = Good j ->
     indices_of j (unroll_resolve_indices j c) = indices_of i (unroll_resolve_indices i c')) ->
  substitute_reference f actuals cast as_reference make p (indices_substitute f actuals i) = Good e ->
  eval e c = eval (make p i) c'.
Proof.
  intros HpD Hi (j&Hj&He)%obind_Good. specialize (Hi j Hj). rewrite (Hmake p i c').
  case_bool_decide as Hown; cycle 1.
  { injection He as <-. by rewrite Hmake, Hi, (binds_others _ _ _ _ _ Hbinds). }
  apply obind_Good in He as (_&_&He).
  destruct (actuals !! _) as [a|] eqn:Ha; [|done].
  destruct (cast a) as [repl|] eqn:Hc; [|done]. apply Hcast in Hc as ->.
  destruct (as_reference repl) as [[q k]|] eqn:Hr.
  - case_match eqn:Hk; [|done]. injection He as <-. apply andb_true_iff in Hk as [_ Hk].
    destruct k; try done. rewrite Hmake, Hi. f_equal. f_equal.
    symmetry. eapply binds_reference; eauto. by rewrite Hreference.
  - case_match eqn:Hk; [|done]. injection He as <-.
    destruct (binds_value _ _ _ _ _ Hbinds p _ HpD Hown Ha) as (v&Hv&Hl); [by rewrite Hreference|].
    rewrite Heval in Hv. apply omap_out_Good in Hv as (w&Hw&<-).
    rewrite Hl, <- Hi. destruct j; [|done..]. cbn. by rewrite Hcon, Hw.
Qed.
End Reference.

Lemma indices_substitute_int e l m :
  indices_substitute f actuals (index_int e l) = Good m ->
  exists e' l', pint_substitute f actuals e = Good e' /\
    indices_substitute f actuals l = Good l' /\ m = index_int e' l'.
Proof.
  change (indices_substitute f actuals (index_int e l)) with
    (match pint_substitute f actuals e with
     | Bad => Crash F_undef
     | o => o >>=o fun e => omap_out (index_int e) (indices_substitute f actuals l)
     end).
  destruct (pint_substitute f actuals e); try done. intros (l'&?&<-)%omap_out_Good. eauto.
Qed.

Lemma indices_substitute_range r l m :
  indices_substitute f actuals (index_range r l) = Good m ->
  exists r' l', range_substitute f actuals r = Good r' /\
    indices_substitute f actuals l = Good l' /\ m = index_range r' l'.
Proof.
  change (indices_substitute f actuals (index_range r l)) with
    (match range_substitute f actuals r with
     | Bad => Crash F_undef
     | o => o >>=o fun r => omap_out (index_range r) (indices_substitute f actuals l)
     end).
  destruct (range_substitute f actuals r); try done. intros (l'&?&<-)%omap_out_Good. eauto.
Qed.

Lemma pint_substitution :
  (forall e e', pint_loop_free e = true -> pint_scoped D [] e -> pint_substitute f actuals e = Good e' ->
     pint_unroll_resolve_value e' c = pint_unroll_resolve_value e c') /\
  (forall r r', range_loop_free r = true -> range_scoped D [] r -> range_substitute f actuals r = Good r' ->
     unroll_resolve_range r' c = unroll_resolve_range r c') /\
  (forall l l', indices_loop_free l = true -> indices_scoped D [] l -> indices_substitute f actuals l = Good l' ->
     indices_of l' (unroll_resolve_indices l' c) = indices_of l (unroll_resolve_indices l c') /\
     unroll_resolve_indices l' c = unroll_resolve_indices l c').
Proof.
  apply pint_mind; cbn [pint_loop_free range_loop_free indices_loop_free]; try done.
  - intros v e' _ _ [= <-]. done.
  - intros p i IH e' Hf [[Hp _] Hs] He.
    eapply (substitute_reference_sound an_int pint_as_reference pint_value_reference AnInt CInt
      as_pint pint_unroll_resolve_value); try done.
    + by intros [] ? [= ->].
    + intros j Hj. by apply IH.
  - intros op ex IH e' Hf Hs (ex'&Hex&<-)%omap_out_Good. cbn. by rewrite (IH ex').
  - intros l op r IHl IHr e' [Hl Hr]%andb_true_iff [Hsl Hsr] (l'&r'&El&Er&[= <-])%both_Good. cbn.
    by rewrite (IHl l'), (IHr r').
  - intros a b r' _ _ [= <-]. done.
  - intros l u IHl IHu e' [Hl Hu]%andb_true_iff [Hsl Hsu] (l'&u'&El&Eu&[= <-])%both_Good. cbn.
    by rewrite (IHl l'), (IHu u').
  - intros l' _ _ [= <-]. done.
  - intros e l IHe IHl l' [He Hl]%andb_true_iff [Hse Hsl] (e'&m&Ee&Em&->)%indices_substitute_int.
    destruct (IHl m Hl Hsl Em) as [_ Hm]. cbn. by rewrite (IHe e' He Hse Ee), Hm.
  - intros r l IHr IHl l' [Hr Hl]%andb_true_iff [Hsr Hsl] (r'&m&Er&Em&->)%indices_substitute_range.
    destruct (IHl m Hl Hsl Em) as [_ Hm]. cbn. by rewrite (IHr r' Hr Hsr Er), Hm.
Qed.

Lemma indices_substitution i j :
  indices_loop_free i = true -> indices_scoped D [] i -> indices_substitute f actuals i = Good j ->
  indices_of j (unroll_resolve_indices j c) = indices_of i (unroll_resolve_indices i c').
Proof. apply pint_substitution. Qed.

Lemma preal_substitution e e' :
  preal_loop_free e = true -> preal_scoped D [] e ->
  preal_substitute f actuals e = Good e' ->
  preal_unroll_resolve_value e' c = preal_unroll_resolve_value e c'.
Proof.
  revert e'. induction e as [v|p i|op ex IH|l IHl op r IHr|ex];
    intros e' Hf Hs; cbn [preal_loop_free] in Hf.
  - by intros [= <-].
  - destruct Hs as [[Hp _] Hs]. intros He.
    eapply (substitute_reference_sound a_real preal_as_reference preal_value_reference
      AReal CReal as_preal preal_unroll_resolve_value); try done.
    + by intros [] ? [= ->].
    + intros j. by apply indices_substitution.
  - intros (ex'&Hex&<-)%omap_out_Good. cbn. by rewrite (IH ex').
  - apply andb_true_iff in Hf as [Hl Hr]. destruct Hs as [Hsl Hsr].
    intros (l'&r'&El&Er&[= <-])%both_Good. cbn.
    by rewrite (IHl l'), (IHr r').
  - intros (ex'&Hex&<-)%omap_out_Good. cbn. by rewrite (proj1 pint_substitution ex ex').
Qed.

Lemma pstring_substitution e e' :
  pstring_loop_free e = true -> pstring_scoped D [] e ->
  pstring_substitute f actuals e = Good e' ->
  pstring_unroll_resolve_value e' c = pstring_unroll_resolve_value e c'.
Proof.
  destruct e as [v|p i]; intros Hf Hs.
  - by intros [= <-].
  - destruct Hs as [[Hp _] Hs]. intros He.
    eapply (substitute_reference_sound a_string pstring_as_reference
      pstring_value_reference AString CString as_pstring pstring_unroll_resolve_value); try done.
    + by intros [] ? [= ->].
    + intros j. by apply indices_substitution.
Qed.

Lemma pbool_substitution e e' :
  pbool_loop_free e = true -> pbool_scoped D [] e ->
  pbool_substitute f actuals e = Good e' ->
  pbool_unroll_resolve_value e' c = pbool_unroll_resolve_value e c'.
Proof.
  revert e'. induction e as [v|p i|op ex IH|l IHl op r IHr|l op r|l op r|l op r|i r ex IH op|t p i];
    intros e' Hf Hs; cbn [pbool_loop_free] in Hf; try done.
  - by intros [= <-].
  - destruct Hs as [[Hp _] Hs]. intros He.
    eapply (substitute_reference_sound a_bool pbool_as_reference pbool_value_reference
      ABool CBool as_pbool pbool_unroll_resolve_value); try done.
    + by intros [] ? [= ->].
    + intros j. by apply indices_substitution.
  - intros (ex'&Hex&<-)%omap_out_Good. cbn. by rewrite (IH ex').
  - apply andb_true_iff in Hf as [Hl Hr]. destruct Hs as [Hsl Hsr].
    intros (l'&r'&El&Er&[= <-])%both_Good. cbn.
    by rewrite (IHl l'), (IHr r').
  - apply andb_true_iff in Hf as [Hl Hr]. destruct Hs as [Hsl Hsr].
    intros (l'&r'&El&Er&[= <-])%both_Good. cbn.
    by rewrite (proj1 pint_substitution l l'), (proj1 pint_substitution r r').
  - apply andb_true_iff in Hf as [Hl Hr]. destruct Hs as [Hsl Hsr].
    intros (l'&r'&El&Er&[= <-])%both_Good. cbn.
    by rewrite (preal_substitution l l'), (preal_substitution r r').
  - apply andb_true_iff in Hf as [Hl Hr]. destruct Hs as [Hsl Hsr].
    intros (l'&r'&El&Er&[= <-])%both_Good. cbn.
    by rewrite (pstring_substitution l l'), (pstring_substitution r r').
Qed.
End Substitution.

(** C16: Substituting template parameters is binding them.  What an expression
    without loops becomes by the substitution has the value, in a context,
    that the expression itself has once the template parameters are bound
    there to the values of their substitutes. *)
Theorem substitution_sound D f actuals c c' e e' :
  binds_formals D f actuals c c' -> param_loop_free e = true -> param_scoped D [] e ->
  param_substitute f actuals e = Good e' ->
  unroll_resolve_value e' c = unroll_resolve_value e c'.
Proof.
  intros Hb Hf Hs.
  destruct e as [e|e|e|e]; cbn in *; intros (e2&He&<-)%omap_out_Good; cbn; f_equal.
  - by apply (proj1 (pint_substitution D f actuals c c' Hb)).
  - by apply (pbool_substitution D f actuals c c' Hb).
  - by apply (preal_substitution D f actuals c c' Hb).
  - by apply (pstring_substitution D f actuals c c' Hb).
Qed.

(** ** Examples *)

(** Another parameter at the same position of another template. *)
Definition ex_m : value_placeholder :=
  {| get_name := "m"; footprint_key := "m"; get_dimensions := 0; is_template_formal := 1;
     is_relaxed_template_formal := false; get_owner := Some 1%nat |}.

Definition ex_signature_m : signature := {["m"%string := (PInt, 0%nat)]}.

Definition ex_context_m (v : Z) : unroll_context :=
  root_context (Some {["m"%string :=
    pint_collection (value_scalar {| value := v; instantiated := true; valid := true |})]}) None.

Definition ex_difference_m : pint_expr :=
  pint_arith_expr (pint_value_reference ex_m no_indices) subtractor (pint_const 7).

Lemma ex_agree (v : Z) : formals_agree [ex_n] [ex_m] [] [] (ex_context v) (ex_context_m v).
Proof.
  intros p q Hp%list_elem_of_singleton Hq%list_elem_of_singleton _ _ _. by subst.
Qed.

Lemma must_be_equivalent_sound_witness :
  outcome_rel same_const (unroll_resolve_value (AnInt ex_difference) (ex_context 5))
    (unroll_resolve_value (AnInt ex_difference_m) (ex_context_m 5)).
Proof.
  apply (must_be_equivalent_sound (AnInt ex_difference) (AnInt ex_difference_m)
    [ex_n] [ex_m] ex_signature ex_signature_m); try reflexivity.
  - apply ex_difference_typed.
  - cbn. unfold placeholder_typed. repeat split; cbn; try done; lia.
  - cbn. unfold visible. repeat split; try done; [by left|intros _; apply not_elem_of_nil].
  - cbn. unfold visible. repeat split; try done; [by left|intros _; apply not_elem_of_nil].
  - apply ex_agree.
Defined.

Lemma ex_binds :
  binds_formals [ex_n] 0 [AnInt (pint_const 5)] (root_context None None) (ex_context 5).
Proof.
  split; intros p.
  - intros ->%list_elem_of_singleton Hn. by destruct Hn.
  - intros a q _ _ Ha Hr. destruct (is_template_formal p - 1)%nat as [|[|]]; try done.
    by injection Ha as <-.
  - intros a ->%list_elem_of_singleton _ [= <-] _. by exists (CInt 5).
Qed.

Lemma substitution_sound_witness :
  exists e', param_substitute 0 [AnInt (pint_const 5)] (AnInt ex_difference) = Good e' /\
    unroll_resolve_value e' (root_context None None) =
    unroll_resolve_value (AnInt ex_difference) (ex_context 5).
Proof.
  eexists. split; [reflexivity|].
  apply (substitution_sound [ex_n] 0 [AnInt (pint_const 5)]); try reflexivity.
  - apply ex_binds.
  - cbn. unfold visible. repeat split; try done; [by left|intros _; apply not_elem_of_nil].
Defined.
