(* ===== verification/MetaMeaning.v ===== *)
(** A reference semantics of the syntax of meta-parameter expressions, and that
    the type checker preserves it: choosing overloaded operators, converting
    integers to reals, forgiving misused operators and folding constants do not
    change the value of an expression in any context. *)
From stdpp Require Import strings gmap.
From Stdlib Require Import Ascii Floats.SpecFloat.
From S2P Require Import Prelude MetaValue MetaExpr MetaExprProps MetaCheck.
Open Scope Z_scope.

#[local] Abbreviation length := Datatypes.length.

(** ** Constants

    The constants of the syntax are the trees of operators over literals.
    Two constructs mean something else when their operands are constant: the
    prefix operator ['!'] and ranges. *)
Fixpoint constant (e : expr) : bool :=
  match e with
  | token_int _ | token_float _ | token_bool _ | token_quoted_string _ => true
  | prefix_expr _ e => constant e
  | arith_expr l _ r | relational_expr l _ r | logical_expr l _ r => constant l && constant r
  | id_expr _ | index_expr _ _ | loop_operation _ _ _ _ | defined_call _ => false
  end.

(** ** Operators on values *)

(** On an integer, ['!'] is C's negation of a truth value if the operand is a
    constant ([k]), and the bitwise complement otherwise. *)
Definition mean_prefix (k : bool) (op : string) (v : const_param) : outcome const_param :=
  let ch := text_at op 0 in
  match v with
  | CInt v =>
      if bool_decide (ch = "-"%char) then omap_out CInt (checked (- v))
      else if bool_decide (ch = "~"%char) then Good (CInt (Z.lnot v))
      else if bool_decide (ch = "!"%char) then
        Good (CInt (if k then Z.b2z (v =? 0) else Z.lnot v))
      else Bad
  | CBool v => if bool_decide (ch = "~"%char) then Good (CBool (negb v)) else Bad
  | CReal v => if bool_decide (ch = "-"%char) then Good (CReal (SFopp v)) else Bad
  | CString _ => Bad
  end.

Definition mean_arith (op : string) (v w : const_param) : outcome const_param :=
  let reals a b := find_op preal_op_map (text_at op 0) >>=o fun o => omap_out CReal (preal_arith o a b) in
  match v, w with
  | CInt a, CInt b =>
      find_op pint_op_map (text_at op 0) >>=o fun o => omap_out CInt (pint_arith o a b)
  | CReal a, CReal b => reals a b
  | CInt a, CReal b => reals (float_of_long a) b
  | CReal a, CInt b => reals a (float_of_long b)
  | CBool a, CBool b =>
      forgiven_op op >>=o find_op pbool_op_map >>=o fun o => Good (CBool (pbool_logical o a b))
  | _, _ => Bad
  end.

Definition mean_relational (op : string) (v w : const_param) : outcome const_param :=
  match v, w with
  | CInt a, CInt b => find_op relational_op_map op >>=o fun o => Good (CBool (pint_relation o a b))
  | CReal a, CReal b => find_op relational_op_map op >>=o fun o => Good (CBool (preal_relation o a b))
  | CBool a, CBool b => find_op pbool_op_map op >>=o fun o => Good (CBool (pbool_logical o a b))
  | CString a, CString b =>
      find_op relational_op_map op >>=o fun o => Good (CBool (pstring_relation o a b))
  | _, _ => Bad
  end.

Definition mean_logical (op : string) (v w : const_param) : outcome const_param :=
  match v, w with
  | CBool a, CBool b => find_op pbool_op_map op >>=o fun o => Good (CBool (pbool_logical o a b))
  | CInt a, CInt b =>
      find_op pint_op_map (text_at op 0) >>=o fun o => omap_out CInt (pint_arith o a b)
  | _, _ => Bad
  end.

(** The operator of a loop, for bodies of each type. *)
Definition mean_loop (op : string) (v w : const_param) : outcome const_param :=
  match v, w with
  | CInt a, CInt b =>
      find_op pint_op_map (text_at op 0) >>=o fun o => omap_out CInt (pint_arith o a b)
  | CBool a, CBool b =>
      find_op pbool_op_map (if bool_decide (text_at op 0 = "^"%char) then "!=" else op)%string
      >>=o fun o => Good (CBool (pbool_logical o a b))
  | _, _ => Bad
  end.

(** The value at a placeholder, and whether there is one. *)
Definition mean_reference (t : ptype) (p : value_placeholder) (c : unroll_context)
    (idx : option (outcome (list const_index))) : outcome const_param :=
  let coll := lookup_rvalue_collection c (footprint_key p) in
  match t with
  | PInt => omap_out CInt (reference_value (coll ≫= as_pint) idx)
  | PBool => omap_out CBool (reference_value (coll ≫= as_pbool) idx)
  | PReal => omap_out CReal (reference_value (coll ≫= as_preal) idx)
  | PString => omap_out CString (reference_value (coll ≫= as_pstring) idx)
  end.

Definition mean_defined (t : ptype) (p : value_placeholder) (c : unroll_context)
    (idx : option (outcome (list const_index))) : outcome const_param :=
  let coll := lookup_rvalue_collection c (footprint_key p) in
  omap_out CBool
    match t with
    | PInt => reference_defined (coll ≫= as_pint) idx
    | PBool => reference_defined (coll ≫= as_pbool) idx
    | PReal => reference_defined (coll ≫= as_preal) idx
    | PString => reference_defined (coll ≫= as_pstring) idx
    end.

Definition mean_int (v : const_param) : outcome Z := match v with CInt v => Good v | _ => Bad end.

(** The [int] of the low 32 bits. *)
Definition low_int (v : Z) : Z := (v + 2 ^ 31) mod 2 ^ 32 - 2 ^ 31.

(** A range of constant bounds ([k]) is one of [int]s and must not run
    backwards; the bounds of any other are kept as they are. *)
Definition mean_bounds (k : bool) (l u : Z) : outcome (Z * Z) :=
  if k then if low_int u <? low_int l then Bad else Good (low_int l, low_int u)
  else Good (l, u).

(** ** The meaning of syntax trees *)
Fixpoint meaning (e : expr) (c : context) (uc : unroll_context) : outcome const_param :=
  match e with
  | token_int v => Good (CInt v)
  | token_float v => Good (CReal v)
  | token_bool s => Good (CBool (String.eqb s "true"))
  | token_quoted_string s => Good (CString s)
  | id_expr id => check_meta_reference c id >>=o fun '(t, p) => mean_reference t p uc None
  | index_expr id ranges =>
      check_meta_reference c id >>=o fun '(t, p) => mean_reference t p uc (mean_ranges ranges c uc)
  | prefix_expr op e => meaning e c uc >>=o mean_prefix (constant e) op
  | arith_expr l op r => both (meaning l c uc) (meaning r c uc) (mean_arith op)
  | relational_expr l op r => both (meaning l c uc) (meaning r c uc) (mean_relational op)
  | logical_expr l op r => both (meaning l c uc) (meaning r c uc) (mean_logical op)
  | loop_operation op index bounds body =>
      mean_loop_range bounds c uc >>=o fun cr =>
      push_loop_var c index >>=o fun '(i, c') =>
      loop_value i (fun v => meaning body c' (loop_context i uc v)) (mean_loop op) cr
  | defined_call (more_exprs (id_expr id) no_exprs) =>
      check_meta_reference c id >>=o fun '(t, p) => mean_defined t p uc None
  | defined_call (more_exprs (index_expr id ranges) no_exprs) =>
      check_meta_reference c id >>=o fun '(t, p) => mean_defined t p uc (mean_ranges ranges c uc)
  | defined_call _ => Bad
  end
with mean_loop_range (r : range) (c : context) (uc : unroll_context) : outcome (Z * Z) :=
  match r with
  | single_range n =>
      meaning n c uc >>=o mean_int >>=o fun n => omap_out (fun u => (0, u)) (checked (n - 1))
  | full_range l u =>
      meaning l c uc >>=o mean_int >>=o fun a =>
      meaning u c uc >>=o mean_int >>=o mean_bounds (constant l && constant u) a
  end
with mean_index (r : range) (c : context) (uc : unroll_context) : outcome const_index :=
  match r with
  | single_range n => meaning n c uc >>=o mean_int >>=o fun n => Good (ci_int n)
  | full_range l u =>
      meaning l c uc >>=o mean_int >>=o fun a =>
      meaning u c uc >>=o mean_int >>=o mean_bounds (constant l && constant u) a >>=o fun '(a, b) => Good (ci_range a b)
  end
with mean_indices (l : range_list) (c : context) (uc : unroll_context) : outcome (list const_index) :=
  match l with
  | no_ranges => Good []
  | more_ranges r l =>
      mean_index r c uc >>=o fun i => mean_indices l c uc >>=o fun k => Good (i :: k)
  end
with mean_ranges (l : range_list) (c : context) (uc : unroll_context)
    : option (outcome (list const_index)) :=
  match l with
  | no_ranges => None
  | more_ranges r l =>
      Some (mean_index r c uc >>=o fun i => mean_indices l c uc >>=o fun k => Good (i :: k))
  end.

(** ** Outcomes

    Of a syntax tree and of what the checker makes of it: what comes next is
    the same if the outcome is. *)
Lemma eq_bind {A B} (m o : outcome A) (k k' : A -> outcome B) :
  m = o -> (forall a, o = Good a -> k a = k' a) -> m >>=o k = o >>=o k'.
Proof. intros -> Hk. destruct o; cbn; auto. Qed.

(** Values of one type: an outcome over them, seen as values of any type. *)
Lemma eq_bind_omap {A B} (f : A -> const_param) (o : outcome A) m
    (k : const_param -> outcome B) (k' : A -> outcome B) :
  m = omap_out f o -> (forall a, o = Good a -> k (f a) = k' a) -> m >>=o k = o >>=o k'.
Proof. intros -> Hk. destruct o; cbn; auto. Qed.

Lemma eq_both_omap {A B R} (f : A -> const_param) (g : B -> const_param) (o1 : outcome A)
    (o2 : outcome B) m1 m2 (k : const_param -> const_param -> outcome R) (k' : A -> B -> outcome R) :
  m1 = omap_out f o1 -> m2 = omap_out g o2 -> (forall a b, k (f a) (g b) = k' a b) ->
  both m1 m2 k = both o1 o2 k'.
Proof. intros -> -> Hk. destruct o1, o2; cbn; auto. Qed.

Lemma omap_both {A B R T} (f : R -> T) (l : outcome A) (r : outcome B) k :
  omap_out f (both l r k) = both l r (fun a b => omap_out f (k a b)).
Proof. by destruct l, r. Qed.

Lemma omap_omap {A B C} (g : B -> C) (f : A -> B) (m : outcome A) :
  omap_out g (omap_out f m) = m >>=o fun a => Good (g (f a)).
Proof. by destruct m. Qed.

Lemma omap_bind {A B C} (f : B -> C) (m : outcome A) k :
  omap_out f (m >>=o k) = m >>=o fun a => omap_out f (k a).
Proof. by destruct m. Qed.

(** A loop over values of one type. *)
Section Loops.
Context {A : Type} (f : A -> const_param) (i : value_placeholder)
  (body : Z -> outcome const_param) (body' : Z -> outcome A)
  (op : const_param -> const_param -> outcome const_param) (op' : A -> A -> outcome A).
Hypothesis Hbody : forall v, body v = omap_out f (body' v).
Hypothesis Hop : forall a b, op (f a) (f b) = omap_out f (op' a b).

Lemma eq_accumulate n p a :
  accumulate body op n p (f a) = omap_out f (accumulate body' op' n p a).
Proof.
  revert p a. induction n as [|n IH]; intros p a; cbn [accumulate]; [reflexivity|].
  rewrite omap_bind. apply (eq_bind_omap f); [done|]. intros v _.
  rewrite omap_bind. by apply (eq_bind_omap f).
Qed.

Lemma eq_loop cr : loop_value i body op cr = omap_out f (loop_value i body' op' cr).
Proof.
  destruct cr as [min max]. cbn [loop_value]. case_match; [reflexivity|].
  destruct (initialize_footprint i); cbn; try reflexivity.
  rewrite omap_bind. apply (eq_bind_omap f); [|intros; case_match; reflexivity].
  rewrite omap_bind. apply (eq_bind_omap f); [done|]. intros v _. apply eq_accumulate.
Qed.
End Loops.

(** ** Folding keeps values *)
Definition same_value (e o : param_expr) : Prop :=
  param_ops_ok o = true /\ is_static_constant o = is_static_constant e /\
  forall uc, unroll_resolve_value o uc = unroll_resolve_value e uc.

Lemma catching_Good {A} (m : outcome A) a : catching m = Good a -> m = Good a.
Proof. by destruct m. Qed.

Lemma fold_pint_same e v o :
  fold_pint e v = Good o -> (forall w, v = Good w -> pint_static_constant_value e = Good w) ->
  same_value (AnInt e) o.
Proof.
  unfold fold_pint. case_match eqn:Hs; [|by intros [= <-]].
  intros (w&Hw&<-)%omap_out_Good Hv. split; [done|]. split; [by symmetry|]. intros uc. cbn.
  by rewrite (pint_constant e), (Hv w).
Qed.

Lemma fold_preal_same e v o :
  preal_ops_ok e = true ->
  fold_preal e v = Good o -> (forall w, v = Good w -> preal_static_constant_value e = Good w) ->
  same_value (AReal e) o.
Proof.
  intros Hok. unfold fold_preal. case_match eqn:Hs; [|by intros [= <-]].
  intros (w&Hw&<-)%omap_out_Good Hv. split; [done|]. split; [by symmetry|]. intros uc. cbn.
  by rewrite (preal_constant e), (Hv w).
Qed.

Lemma fold_pbool_same e o :
  pbool_ops_ok e = true ->
  fold_pbool e (pbool_static_constant_value e) = Good o -> same_value (ABool e) o.
Proof.
  intros Hok. unfold fold_pbool. case_match eqn:Hs; [|by intros [= <-]].
  intros (w&Hw&<-)%omap_out_Good. split; [done|]. split; [by symmetry|]. intros uc. cbn.
  by rewrite (pbool_constant e), Hw.
Qed.

(** What [find_op] and an assertion of scalar operands leave. *)
Lemma find_op_Good {K O} (map : K -> option O) k o : find_op map k = Good o -> map k = Some o.
Proof. unfold find_op. case_match; [|done]. by intros [= ->]. Qed.

Lemma made {K O E} (map : K -> option O) k b (mk : O -> E) e :
  find_op map k >>=o (fun op => invariant b >>=o fun _ => Good (mk op)) = Good e ->
  exists op, map k = Some op /\ e = mk op.
Proof. intros (op&?%find_op_Good&(_&_&[= <-])%obind_Good)%obind_Good. eauto. Qed.

Lemma found {K O} (map : K -> option O) k o : map k = Some o -> find_op map k = Good o.
Proof. unfold find_op. by intros ->. Qed.

(** ** Every operator keeps the meaning of its operands

    What the checker has made of a tree, which is a constant or not ([k]). *)
Definition has_meaning (k : bool) (m : unroll_context -> outcome const_param) (o : param_expr)
    : Prop :=
  param_ops_ok o = true /\ is_static_constant o = k /\ forall uc, m uc = unroll_resolve_value o uc.

Lemma same_value_meaning k m e o :
  (forall uc, m uc = unroll_resolve_value e uc) -> is_static_constant e = k -> same_value e o ->
  has_meaning k m o.
Proof.
  intros Hm Hk (Hok&Hc&Hs). split; [done|]. split; [congruence|]. intros uc. by rewrite Hs.
Qed.

Lemma folded {A} (f : A -> param_expr) v o : omap_out f v = Good o -> exists w, v = Good w /\ o = f w.
Proof. intros (w&?&<-)%omap_out_Good. eauto. Qed.

#[global] Arguments mean_prefix : simpl never.

Lemma prefix_pint_meaning k op e fold m o :
  has_meaning k m (AnInt e) ->
  (k = true -> forall v, mean_prefix k op (CInt v) = omap_out CInt (fold v)) ->
  (k = false -> forall v,
     mean_prefix k op (CInt v) = omap_out CInt (pint_unary_evaluate (text_at op 0) v)) ->
  prefix_pint (text_at op 0) e fold = Good o ->
  has_meaning k (fun uc => m uc >>=o mean_prefix k op) o.
Proof.
  intros (_&Hk&Hm) Hf Hu. cbn in Hk. unfold prefix_pint. rewrite Hk. destruct k.
  - intros (w&(v&Hv&Hw)%obind_Good&->)%folded. split; [done|]. split; [done|]. intros uc.
    rewrite Hm. cbn. rewrite pint_constant, Hv by done. cbn. by rewrite Hf, Hw.
  - intros (w&(_&_&[= <-])%obind_Good&->)%folded. split; [done|]. split; [done|]. intros uc. cbn.
    rewrite omap_bind. apply (eq_bind_omap CInt); [apply Hm|auto].
Qed.

Lemma prefix_preal_meaning k op e m o :
  has_meaning k m (AReal e) -> text_at op 0 = "-"%char -> prefix_preal (text_at op 0) e = Good o ->
  has_meaning k (fun uc => m uc >>=o mean_prefix k op) o.
Proof.
  intros (Hok&Hk&Hm) Hop. cbn in Hok, Hk. unfold prefix_preal. rewrite Hop, Hk. destruct k.
  - intros (w&(v&Hv&[= <-])%obind_Good&->)%folded. split; [done|]. split; [done|]. intros uc.
    rewrite Hm. cbn. rewrite preal_constant, Hv by done. cbn. unfold mean_prefix. by rewrite Hop.
  - intros (w&(_&_&[= <-])%obind_Good&->)%folded. split; [done|]. split; [done|].
    intros uc. cbn. rewrite omap_omap. apply (eq_bind_omap CReal); [apply Hm|].
    intros v _. unfold mean_prefix. by rewrite Hop.
Qed.

Lemma prefix_pbool_meaning k op e m o :
  has_meaning k m (ABool e) -> text_at op 0 = "~"%char -> prefix_pbool (text_at op 0) e = Good o ->
  has_meaning k (fun uc => m uc >>=o mean_prefix k op) o.
Proof.
  intros (Hok&Hk&Hm) Hop. cbn in Hok, Hk. unfold prefix_pbool. rewrite Hop, Hk. destruct k.
  - intros (w&(v&Hv&[= <-])%obind_Good&->)%folded. split; [done|]. split; [done|]. intros uc.
    rewrite Hm. cbn. rewrite pbool_constant, Hv by done. cbn. unfold mean_prefix. by rewrite Hop.
  - intros (w&(_&_&[= <-])%obind_Good&->)%folded. split; [done|]. split; [done|].
    intros uc. cbn. rewrite omap_omap. apply (eq_bind_omap CBool); [apply Hm|].
    intros v _. unfold mean_prefix. by rewrite Hop.
Qed.

(** What folding and evaluation do to an integer. *)
Lemma mean_prefix_int k op a :
  text_at op 0 ∈ ["-"; "!"; "~"]%char ->
  (k = true -> mean_prefix k op (CInt a) =
     omap_out CInt (if bool_decide (text_at op 0 = "!"%char) then c_not a
                    else pint_unary_evaluate (text_at op 0) a)) /\
  (k = false -> mean_prefix k op (CInt a) = omap_out CInt (pint_unary_evaluate (text_at op 0) a)).
Proof.
  unfold mean_prefix, pint_unary_evaluate, c_not. intros Hop.
  assert (text_at op 0 = "-" \/ text_at op 0 = "!" \/ text_at op 0 = "~")%char as [H|[H|H]]
    by set_solver; rewrite H; cbn; split; by intros ->.
Qed.

Lemma check_prefix_meaning k op e m o :
  has_meaning k m e -> check_prefix op e = Good o ->
  has_meaning k (fun uc => m uc >>=o mean_prefix k op) o.
Proof.
  intros Hm. destruct e as [e|e|e|e]; unfold check_prefix.
  - case_bool_decide as H1; [|case_bool_decide as H2; [|case_bool_decide as H3; [|done]]];
      (apply prefix_pint_meaning; [done| |]); intros Hk v;
      (destruct (mean_prefix_int k op v) as [Hf Hu]; [set_solver|]);
      first [rewrite Hf by done|rewrite Hu by done]; try done;
      rewrite ?H1, ?H2, ?H3; done.
  - case_bool_decide as H1; [done|case_bool_decide as H2; [done|case_bool_decide as H3; [|done]]].
    by apply prefix_pbool_meaning.
  - case_bool_decide as H1; [|case_bool_decide as H2; [done|by case_bool_decide]].
    by apply prefix_preal_meaning.
  - by case_bool_decide.
Qed.

Lemma both_omap_l {A B C R} (f : A -> B) (l : outcome A) (r : outcome C) (k : B -> C -> outcome R) :
  both (omap_out f l) r k = both l r (fun a => k (f a)).
Proof. by destruct l. Qed.

Lemma both_omap_r {A B C R} (f : B -> C) (l : outcome A) (r : outcome B) (k : A -> C -> outcome R) :
  both l (omap_out f r) k = both l r (fun a b => k a (f b)).
Proof. by destruct l, r. Qed.

(** The two sides of a binary operator, of known types. *)
Lemma binary_meaning {A B R} (f : A -> const_param) (g : B -> const_param) (h : R -> const_param)
    m1 m2 (l : unroll_context -> outcome A) (r : unroll_context -> outcome B) mean k uc :
  m1 uc = omap_out f (l uc) -> m2 uc = omap_out g (r uc) ->
  (forall a b, mean (f a) (g b) = omap_out h (k a b)) ->
  both (m1 uc) (m2 uc) mean = omap_out h (both (l uc) (r uc) k).
Proof. intros Hl Hr Hk. rewrite omap_both. by apply (eq_both_omap f g). Qed.

(** The expressions that are made before folding. *)
Section Made.
Context (m1 m2 : unroll_context -> outcome const_param) (uc : unroll_context).

Ltac binary f g h Ha :=
  intros Ha H1 H2; apply (binary_meaning f g h m1 m2 _ _ _ _ uc H1 H2);
  intros x y; cbn; by rewrite (found _ _ _ Ha).

Lemma pint_arith_means op a l r :
  pint_op_map (text_at op 0) = Some a ->
  m1 uc = unroll_resolve_value (AnInt l) uc ->
  m2 uc = unroll_resolve_value (AnInt r) uc ->
  both (m1 uc) (m2 uc) (mean_arith op) =
    unroll_resolve_value (AnInt (pint_arith_expr l a r)) uc.
Proof. binary CInt CInt CInt Ha. Qed.

Lemma preal_arith_means op a l r :
  preal_op_map (text_at op 0) = Some a ->
  m1 uc = unroll_resolve_value (AReal l) uc ->
  m2 uc = unroll_resolve_value (AReal r) uc ->
  both (m1 uc) (m2 uc) (mean_arith op) =
    unroll_resolve_value (AReal (preal_arith_expr l a r)) uc.
Proof. binary CReal CReal CReal Ha. Qed.

Lemma converted_left_means op a l r :
  preal_op_map (text_at op 0) = Some a ->
  m1 uc = unroll_resolve_value (AnInt l) uc ->
  m2 uc = unroll_resolve_value (AReal r) uc ->
  both (m1 uc) (m2 uc) (mean_arith op) =
    unroll_resolve_value (AReal (preal_arith_expr (convert_pint_to_preal_expr l) a r)) uc.
Proof. cbn. rewrite both_omap_l. binary CInt CReal CReal Ha. Qed.

Lemma converted_right_means op a l r :
  preal_op_map (text_at op 0) = Some a ->
  m1 uc = unroll_resolve_value (AReal l) uc ->
  m2 uc = unroll_resolve_value (AnInt r) uc ->
  both (m1 uc) (m2 uc) (mean_arith op) =
    unroll_resolve_value (AReal (preal_arith_expr l a (convert_pint_to_preal_expr r))) uc.
Proof. cbn. rewrite both_omap_r. binary CReal CInt CReal Ha. Qed.

Lemma forgiven_means op s a l r :
  forgiven_op op = Good s -> pbool_op_map s = Some a ->
  m1 uc = unroll_resolve_value (ABool l) uc ->
  m2 uc = unroll_resolve_value (ABool r) uc ->
  both (m1 uc) (m2 uc) (mean_arith op) =
    unroll_resolve_value (ABool (pbool_logical_expr l a r)) uc.
Proof.
  intros Hs Ha H1 H2. apply (binary_meaning CBool CBool CBool m1 m2 _ _ _ _ uc H1 H2).
  intros x y. cbn. rewrite Hs. cbn. by rewrite (found _ _ _ Ha).
Qed.

Lemma pint_relational_means op a l r :
  relational_op_map op = Some a ->
  m1 uc = unroll_resolve_value (AnInt l) uc ->
  m2 uc = unroll_resolve_value (AnInt r) uc ->
  both (m1 uc) (m2 uc) (mean_relational op) =
    unroll_resolve_value (ABool (pint_relational_expr l a r)) uc.
Proof. binary CInt CInt CBool Ha. Qed.

Lemma preal_relational_means op a l r :
  relational_op_map op = Some a ->
  m1 uc = unroll_resolve_value (AReal l) uc ->
  m2 uc = unroll_resolve_value (AReal r) uc ->
  both (m1 uc) (m2 uc) (mean_relational op) =
    unroll_resolve_value (ABool (preal_relational_expr l a r)) uc.
Proof. binary CReal CReal CBool Ha. Qed.

Lemma pstring_relational_means op a l r :
  relational_op_map op = Some a ->
  m1 uc = unroll_resolve_value (AString l) uc ->
  m2 uc = unroll_resolve_value (AString r) uc ->
  both (m1 uc) (m2 uc) (mean_relational op) =
    unroll_resolve_value (ABool (pstring_relational_expr l a r)) uc.
Proof. binary CString CString CBool Ha. Qed.

Lemma pbool_relational_means op a l r :
  pbool_op_map op = Some a ->
  m1 uc = unroll_resolve_value (ABool l) uc ->
  m2 uc = unroll_resolve_value (ABool r) uc ->
  both (m1 uc) (m2 uc) (mean_relational op) =
    unroll_resolve_value (ABool (pbool_logical_expr l a r)) uc.
Proof. binary CBool CBool CBool Ha. Qed.

Lemma pbool_logical_means op a l r :
  pbool_op_map op = Some a ->
  m1 uc = unroll_resolve_value (ABool l) uc ->
  m2 uc = unroll_resolve_value (ABool r) uc ->
  both (m1 uc) (m2 uc) (mean_logical op) =
    unroll_resolve_value (ABool (pbool_logical_expr l a r)) uc.
Proof. binary CBool CBool CBool Ha. Qed.

Lemma pint_logical_means op a l r :
  pint_op_map (text_at op 0) = Some a ->
  m1 uc = unroll_resolve_value (AnInt l) uc ->
  m2 uc = unroll_resolve_value (AnInt r) uc ->
  both (m1 uc) (m2 uc) (mean_logical op) =
    unroll_resolve_value (AnInt (pint_arith_expr l a r)) uc.
Proof. binary CInt CInt CInt Ha. Qed.
End Made.

Create HintDb meaning discriminated.
#[export] Hint Resolve pint_arith_means preal_arith_means converted_left_means
  converted_right_means forgiven_means pint_relational_means preal_relational_means
  pstring_relational_means pbool_relational_means pbool_logical_means pint_logical_means : meaning.

Lemma check_arith_meaning op l r k1 k2 m1 m2 o :
  has_meaning k1 m1 l -> has_meaning k2 m2 r -> check_arith op l r = Good o ->
  has_meaning (k1 && k2) (fun uc => both (m1 uc) (m2 uc) (mean_arith op)) o.
Proof.
  intros (Hok1&<-&H1) (Hok2&<-&H2).
  destruct l as [l|l|l|l], r as [r|r|r|r]; cbn [check_arith]; try done.
  - unfold arith_pints. case_match; [done|].
    intros (e&(a&Ha&->)%made&He)%obind_Good.
    apply fold_pint_same in He; [|intros w; apply catching_Good].
    refine (same_value_meaning _ _ _ _ _ _ He); [|done]; eauto with meaning.
  - intros (e&(a&Ha&->)%made&->)%folded. split; [done|]. split; [done|]. eauto with meaning.
  - unfold arith_pbools. intros (s&Hs&(e&(a&Ha&->)%made&He)%obind_Good)%obind_Good.
    apply fold_pbool_same in He; [|cbn in *; by rewrite Hok1, Hok2].
    refine (same_value_meaning _ _ _ _ _ _ He); [|done]; eauto with meaning.
  - intros (e&(a&Ha&->)%made&->)%folded. split; [by cbn in *; rewrite Hok1|]. split; [done|]. eauto with meaning.
  - unfold arith_preals. intros (e&(a&Ha&->)%made&He)%obind_Good.
    apply fold_preal_same in He; [|cbn in *; by rewrite Hok1, Hok2|intros w; apply catching_Good].
    refine (same_value_meaning _ _ _ _ _ _ He); [|done]; eauto with meaning.
Qed.

Lemma check_relational_meaning op l r k1 k2 m1 m2 o :
  has_meaning k1 m1 l -> has_meaning k2 m2 r -> check_relational op l r = Good o ->
  has_meaning (k1 && k2) (fun uc => both (m1 uc) (m2 uc) (mean_relational op)) o.
Proof.
  intros (Hok1&<-&H1) (Hok2&<-&H2).
  destruct l as [l|l|l|l], r as [r|r|r|r]; cbn [check_relational]; try done.
  2: destruct (pbool_op_map op) eqn:Hop; [|done].
  all: intros (e&(a&Ha&->)%made&He)%obind_Good;
    apply fold_pbool_same in He; [|cbn in *; by rewrite ?Hok1, ?Hok2];
    refine (same_value_meaning _ _ _ _ _ _ He); [|done]; eauto with meaning.
Qed.

Lemma check_logical_meaning op l r k1 k2 m1 m2 o :
  has_meaning k1 m1 l -> has_meaning k2 m2 r -> check_logical op l r = Good o ->
  has_meaning (k1 && k2) (fun uc => both (m1 uc) (m2 uc) (mean_logical op)) o.
Proof.
  intros (Hok1&<-&H1) (Hok2&<-&H2).
  destruct l as [l|l|l|l], r as [r|r|r|r]; cbn [check_logical]; try done.
  - case_match; [|done]. intros (e&(a&Ha&->)%made&->)%folded. split; [done|]. split; [done|]. eauto with meaning.
  - unfold logical_pbools. destruct (pbool_op_map op) as [a|] eqn:Ha; [|done].
    assert (Hm : forall uc, both (m1 uc) (m2 uc) (mean_logical op) =
      unroll_resolve_value (ABool (pbool_logical_expr l a r)) uc) by eauto with meaning.
    case_match eqn:Hs.
    + intros (w&Hw&->)%folded. split; [done|]. split; [by symmetry|]. intros uc. specialize (Hm uc).
      apply andb_true_iff in Hs as [Hs1 Hs2]. cbn in Hok1, Hok2, Hm.
      rewrite !pbool_constant, Hw in Hm by done. done.
    + intros (e&(b&Hb&->)%made&->)%folded. rewrite Ha in Hb. injection Hb as <-.
      split; [by cbn in *; rewrite Hok1, Hok2|by split].
Qed.

(** ** Loops and references *)
Lemma check_loop_meaning op i r lo o body cr :
  param_ops_ok lo = true ->
  (forall uc, body uc = unroll_resolve_value lo uc) ->
  (forall uc, cr uc = unroll_resolve_range r uc) ->
  check_loop op i r lo = Good o ->
  has_meaning false (fun uc => cr uc >>=o
    loop_value i (fun v => body (loop_context i uc v)) (mean_loop op)) o.
Proof.
  intros Hok Hb Hr. destruct lo as [e|e|e|e]; cbn [check_loop]; try done.
  - case_match; [done|]. destruct (pint_op_map _) as [a|] eqn:Ha; [|done]. intros [= <-].
    split; [done|]. split; [done|]. intros uc. cbn. rewrite omap_bind.
    apply eq_bind; [done|]. intros b _.
    apply (eq_loop CInt); [by intros v; apply Hb|]. intros x y. cbn. by rewrite (found _ _ _ Ha).
  - destruct (pbool_op_map _) as [a|] eqn:Ha; [|done]. intros [= <-].
    split; [done|]. split; [done|]. intros uc. cbn. rewrite omap_bind.
    apply eq_bind; [done|]. intros b _.
    apply (eq_loop CBool); [by intros v; apply Hb|]. intros x y. cbn. by rewrite (found _ _ _ Ha).
Qed.

Lemma make_reference_value t p i uc :
  unroll_resolve_value (make_meta_value_reference t p i) uc =
  mean_reference t p uc (indices_of i (unroll_resolve_indices i uc)).
Proof. by destruct t. Qed.

Lemma make_reference_not_constant t p i :
  is_static_constant (make_meta_value_reference t p i) = false.
Proof. by destruct t. Qed.

Lemma make_reference_ok t p i : param_ops_ok (make_meta_value_reference t p i) = true.
Proof. by destruct t. Qed.

(** ** Indices and ranges *)
Lemma low_int_of_long v : int_of_long v = low_int v.
Proof.
  unfold int_of_long, low_int, wrap.
  pose proof (Z.mod_pos_bound v (2 ^ 32) ltac:(lia)). pose proof (Z.div_mod v (2 ^ 32) ltac:(lia)).
  case_match eqn:Hv; [apply Z.leb_le in Hv|apply Z.leb_gt in Hv].
  - rewrite <- (Z.mod_unique (v + 2 ^ 31) (2 ^ 32) (v / 2 ^ 32 + 1) (v mod 2 ^ 32 - 2 ^ 31)); lia.
  - rewrite <- (Z.mod_unique (v + 2 ^ 31) (2 ^ 32) (v / 2 ^ 32) (v mod 2 ^ 32 + 2 ^ 31)); lia.
Qed.

Definition index_value (i : meta_index_expr) (uc : unroll_context) : outcome const_index :=
  match i with
  | an_index e => omap_out ci_int (pint_unroll_resolve_value e uc)
  | a_range r => unroll_resolve_range r uc >>=o fun '(a, b) => Good (ci_range a b)
  end.

Lemma cons_index_value i l m uc :
  cons_index i l = Good m ->
  m <> no_indices /\
  unroll_resolve_indices m uc =
    index_value i uc >>=o fun v => unroll_resolve_indices l uc >>=o fun k => Good (v :: k).
Proof.
  destruct i as [e|r]; cbn.
  - case_match; [|done]. intros [= <-]. split; [done|]. cbn.
    by destruct (pint_unroll_resolve_value e uc).
  - intros [= <-]. split; [done|]. cbn. by destruct (unroll_resolve_range r uc) as [[]| | |].
Qed.

(** The meaning of a bound, of which the checker made [e]. *)
Definition int_meaning (k : bool) (m : unroll_context -> outcome const_param) (e : pint_expr)
    : Prop :=
  pint_is_static_constant e = k /\ forall uc, m uc >>=o mean_int = pint_unroll_resolve_value e uc.

Lemma bound_meaning k m o e :
  (forall o', o = Good o' -> has_meaning k m o') -> bound_of o = Good e -> int_meaning k m e.
Proof.
  intros Hm. destruct o as [[e'|e'|e'|e']| | |]; try done. intros [= ->].
  destruct (Hm (AnInt e) eq_refl) as (_&Hk&H). split; [done|]. intros uc.
  rewrite H. cbn. by destruct (pint_unroll_resolve_value e uc).
Qed.

Definition bounds_meaning (k : bool) (m n : unroll_context -> outcome const_param)
    (uc : unroll_context) :=
  m uc >>=o mean_int >>=o fun a => n uc >>=o mean_int >>=o mean_bounds k a.

Lemma make_range_meaning k1 k2 m n lp up i :
  int_meaning k1 m lp -> int_meaning k2 n up -> make_range lp up = Good i ->
  exists r, i = a_range r /\
    forall uc, bounds_meaning (k1 && k2) m n uc = unroll_resolve_range r uc.
Proof.
  intros [<- Hl] [<- Hu]. unfold make_range, bounds_meaning. case_match eqn:Hs.
  - apply andb_true_iff in Hs as [Hsl Hsu].
    intros (l&Hvl&(u&Hvu&Hi)%obind_Good)%obind_Good. rewrite !low_int_of_long in Hi.
    case_match eqn:Hlt; [done|]. injection Hi as <-.
    eexists; split; [done|]. intros uc.
    rewrite Hl, Hu, !pint_constant, Hvl, Hvu by done. cbn. by rewrite Hlt.
  - intros [= <-]. eexists; split; [done|]. intros uc. cbn.
    apply eq_bind; [done|]. intros a _. by apply eq_bind.
Qed.

Lemma explicit_range_meaning k m e r :
  int_meaning k m e -> make_explicit_range (an_index e) = Good r ->
  forall uc, m uc >>=o mean_int >>=o (fun n => omap_out (fun u => (0, u)) (checked (n - 1))) =
    unroll_resolve_range r uc.
Proof.
  intros [_ Hm]. cbn. case_match eqn:Hs.
  - intros (n&Hn&(u&Hu&<-)%omap_out_Good)%obind_Good uc.
    rewrite Hm, pint_constant, Hn by done. cbn. by rewrite Hu.
  - intros (x&(_&_&[= <-])%obind_Good&<-)%omap_out_Good uc. rewrite Hm. cbn.
    by destruct (pint_unroll_resolve_value e uc).
Qed.

(** ** Checking keeps the meaning *)
Definition indices_meaning (l : range_list) : Prop :=
  (forall c k m, postorder_check_meta l c = Good k -> cons_indices k = Good m ->
     forall uc, mean_indices l c uc = unroll_resolve_indices m uc) /\
  (forall c i, check_meta_indices l c = Good i ->
     forall uc, mean_ranges l c uc = indices_of i (unroll_resolve_indices i uc)).

Definition expr_meaning (e : expr) : Prop :=
  (forall c o, check_meta_expr e c = Good o -> has_meaning (constant e) (meaning e c) o) /\
  match e with index_expr _ ranges => indices_meaning ranges | _ => True end.

Definition range_meaning (r : range) : Prop :=
  forall c i, check_meta_index r c = Good i ->
    (forall uc, mean_index r c uc = index_value i uc) /\
    (forall x, make_explicit_range i = Good x ->
       forall uc, mean_loop_range r c uc = unroll_resolve_range x uc).

Definition exprs_meaning (l : expr_list) : Prop :=
  match l with more_exprs e no_exprs => expr_meaning e | _ => True end.

Lemma single_range_meaning e : expr_meaning e -> range_meaning (single_range e).
Proof.
  intros [He _] c i (p&Hp&<-)%omap_out_Good.
  assert (Hm : int_meaning (constant e) (meaning e c) p) by (eapply bound_meaning; [|exact Hp]; auto).
  split; [|intros x Hx uc; by apply (explicit_range_meaning _ _ _ _ Hm)].
  intros uc. cbn. by apply eq_bind; [apply Hm|].
Qed.

Lemma full_range_meaning e e' :
  expr_meaning e -> expr_meaning e' -> range_meaning (full_range e e').
Proof.
  intros [He _] [He' _] c i (lp&Hl&(up&Hu&Hi)%obind_Good)%obind_Good.
  assert (Hml : int_meaning (constant e) (meaning e c) lp) by (eapply bound_meaning; [|exact Hl]; auto).
  assert (Hmu : int_meaning (constant e') (meaning e' c) up) by (eapply bound_meaning; [|exact Hu]; auto).
  destruct (make_range_meaning _ _ _ _ _ _ _ Hml Hmu Hi) as (r&->&Hr).
  split; [|by intros x [= <-] uc; apply Hr].
  intros uc. cbn. rewrite <- (obind_assoc (meaning e c uc >>=o mean_int)).
  by apply eq_bind; [apply Hr|].
Qed.

Lemma cons_indices_meaning r l :
  range_meaning r -> (forall c k m, postorder_check_meta l c = Good k -> cons_indices k = Good m ->
     forall uc, mean_indices l c uc = unroll_resolve_indices m uc) ->
  forall c i k m, check_meta_index r c = Good i -> postorder_check_meta l c = Good k ->
    cons_indices (i :: k) = Good m ->
    m <> no_indices /\ forall uc, (mean_index r c uc >>=o fun i =>
      mean_indices l c uc >>=o fun k => Good (i :: k)) = unroll_resolve_indices m uc.
Proof.
  intros Hr Hl c i k m Hi Hk (m'&Hm'&Hm)%obind_Good.
  destruct (Hr c i Hi) as [Hmi _].
  pose proof (fun uc => cons_index_value i m' m uc Hm) as Hv.
  split; [by apply (Hv (root_context None None))|]. intros uc.
  rewrite (proj2 (Hv uc)). apply eq_bind; [done|]. intros v _.
  by apply eq_bind; [eapply Hl|].
Qed.

Lemma more_ranges_meaning r l :
  range_meaning r -> indices_meaning l -> indices_meaning (more_ranges r l).
Proof.
  intros Hr [Hl _]. split.
  - intros c k m Hk Hm uc. cbn in Hk.
    assert (exists i k', check_meta_index r c = Good i /\ postorder_check_meta l c = Good k' /\
      k = i :: k') as (i&k'&Hi&Hk'&->).
    { destruct (check_meta_index r c); try done. apply omap_out_Good in Hk as (?&?&<-). eauto. }
    by eapply cons_indices_meaning.
  - intros c m Hm uc. cbn in Hm.
    assert (exists i k', check_meta_index r c = Good i /\ postorder_check_meta l c = Good k' /\
      cons_indices (i :: k') = Good m) as (i&k'&Hi&Hk'&Hm').
    { destruct (check_meta_index r c) as [i| | |]; try done.
      apply obind_Good in Hm as (k'&Hk'&Hm). exists i, k'. split; [reflexivity|split; [exact Hk'|]].
      cbn. destruct (match length k' with S (S (S (S _))) => true | _ => false end); [done|].
      by destruct (cons_indices k' >>=o cons_index i). }
    destruct (cons_indices_meaning r l Hr Hl c i k' m Hi Hk' Hm') as [Hne Hmeans].
    cbn. destruct m; [done|f_equal; apply Hmeans..].
Qed.

(** *** Definedness: what is checked into a reference is a name *)
Definition reference_of (o : param_expr) : option (ptype * value_placeholder * meta_index_list) :=
  match o with
  | AnInt (pint_value_reference p i) => Some (PInt, p, i)
  | ABool (pbool_value_reference p i) => Some (PBool, p, i)
  | AReal (preal_value_reference p i) => Some (PReal, p, i)
  | AString (pstring_value_reference p i) => Some (PString, p, i)
  | _ => None
  end.

Ltac good_cases :=
  repeat match goal with
  | H : _ >>=o _ = Good _ |- _ => apply obind_Good in H as (?&?&?)
  | H : omap_out _ _ = Good _ |- _ => apply omap_out_Good in H as (?&?&?)
  | H : Good _ = Good _ |- _ => injection H as H
  | H : Bad = Good _ |- _ => discriminate H
  | H : Crash _ = Good _ |- _ => discriminate H
  | H : (if ?b then _ else _) = Good _ |- _ => destruct b eqn:?
  | H : match ?b with _ => _ end = Good _ |- _ => destruct b eqn:?
  | H : _ = ?x |- _ => is_var x; subst x
  | H : ?x = _ |- _ => is_var x; subst x
  end.

Lemma check_prefix_value op e o : check_prefix op e = Good o -> reference_of o = None.
Proof.
  unfold check_prefix, prefix_pint, prefix_pbool, prefix_preal,
    new_pint_unary_expr, new_preal_unary_expr, new_pbool_unary_expr.
  intros. by good_cases.
Qed.

Lemma check_arith_value op l r o : check_arith op l r = Good o -> reference_of o = None.
Proof.
  unfold check_arith, arith_pints, arith_preals, arith_mixed, arith_pbools, fold_pint, fold_preal,
    fold_pbool, new_pint_arith_expr, new_preal_arith_expr, new_pbool_logical_expr.
  intros. by good_cases.
Qed.

Lemma check_relational_value op l r o : check_relational op l r = Good o -> reference_of o = None.
Proof.
  unfold check_relational, fold_pbool, new_pint_relational_expr, new_preal_relational_expr,
    new_pstring_relational_expr, new_pbool_logical_expr.
  intros. by good_cases.
Qed.

Lemma check_logical_value op l r o : check_logical op l r = Good o -> reference_of o = None.
Proof.
  unfold check_logical, logical_pbools, new_pint_arith_expr, new_pbool_logical_expr.
  intros. by good_cases.
Qed.

Lemma check_loop_value op i r e o : check_loop op i r e = Good o -> reference_of o = None.
Proof. unfold check_loop. intros. by good_cases. Qed.

Lemma check_defined_value l o : check_defined l = Good o -> reference_of o = None.
Proof. unfold check_defined. intros. by good_cases. Qed.

Lemma reference_of_make t p i : reference_of (make_meta_value_reference t p i) = Some (t, p, i).
Proof. by destruct t. Qed.

Lemma reference_syntax e c o t p i :
  check_meta_expr e c = Good o -> reference_of o = Some (t, p, i) ->
  (exists id, e = id_expr id /\ i = no_indices /\ check_meta_reference c id = Good (t, p)) \/
  (exists id ranges, e = index_expr id ranges /\ check_meta_indices ranges c = Good i /\
     check_meta_reference c id = Good (t, p)).
Proof.
  destruct e as [v|v|s|s|id|id ranges|op e|l op r|l op r|l op r|op x b body|args];
    cbn [check_meta_expr]; intros Ho Hr.
  1-4: by injection Ho as <-.
  - left. apply obind_Good in Ho as ([t' p']&Hc&[= <-]). rewrite reference_of_make in Hr.
    injection Hr as -> -> <-. eauto.
  - right. apply obind_Good in Ho as (i'&Hi&([t' p']&Hc&Ho)%obind_Good).
    unfold attach_indices in Ho. case_match; [done|]. injection Ho as <-.
    rewrite reference_of_make in Hr. injection Hr as -> -> ->. eauto.
  - apply obind_Good in Ho as (a&_&Ho%check_prefix_value). congruence.
  - apply both_Good in Ho as (a&b&_&_&Ho%check_arith_value). congruence.
  - apply both_Good in Ho as (a&b&_&_&Ho%check_relational_value). congruence.
  - apply both_Good in Ho as (a&b&_&_&Ho%check_logical_value). congruence.
  - apply obind_Good in Ho as (r&_&([i' c']&_&(lo&_&Ho%check_loop_value)%obind_Good)%obind_Good).
    congruence.
  - apply obind_Good in Ho as (l&_&Ho%check_defined_value). congruence.
Qed.

Lemma check_defined_Good l o :
  check_defined l = Good o ->
  exists a t p i, l = [Some a] /\ reference_of a = Some (t, p, i) /\
    o = ABool (param_defined t p i) /\ reference_dimensions p i = 0%nat.
Proof.
  unfold check_defined. intros. good_cases;
    match goal with H : (_ =? 0)%nat = true |- _ => apply Nat.eqb_eq in H end; eauto 10.
Qed.

Lemma defined_meaning args c o :
  exprs_meaning args -> check_meta_exprs args c >>=o check_defined = Good o ->
  has_meaning false (meaning (defined_call args) c) o.
Proof.
  intros Hargs (l&Hl&Ho)%obind_Good.
  apply check_defined_Good in Ho as (a&t&p&i&->&Hr&->&_).
  destruct args as [|e args]; [done|].
  cbn [check_meta_exprs] in Hl.
  apply obind_Good in Hl as (o&Ho&(l&Hl&[= -> ->])%omap_out_Good).
  destruct (check_meta_expr e c) as [a'| | |] eqn:He; try done. injection Ho as ->.
  destruct args as [|e' args]; cycle 1.
  { cbn in Hl. by apply obind_Good in Hl as (?&_&(?&_&?)%omap_out_Good). }
  split; [done|]. split; [done|]. intros uc.
  change (unroll_resolve_value (ABool (param_defined t p i)) uc) with
    (mean_defined t p uc (indices_of i (unroll_resolve_indices i uc))).
  destruct (reference_syntax _ _ _ _ _ _ He Hr) as [(id&->&->&Hid)|(id&ranges&->&Hi&Hid)];
    cbn; rewrite Hid.
  - reflexivity.
  - destruct Hargs as [_ [_ Hm]]. cbn. by rewrite (Hm c i Hi).
Qed.

Lemma checking_keeps_meaning :
  (forall e, expr_meaning e) /\ (forall r, range_meaning r) /\
  (forall l, indices_meaning l) /\ (forall l, exprs_meaning l).
Proof.
  apply ast_mind; try done; unfold expr_meaning; cbn [check_meta_expr].
  - intros v. split; [|done]. intros c o [= <-]. by split.
  - intros v. split; [|done]. intros c o [= <-]. by split.
  - intros v. split; [|done]. intros c o [= <-]. by split.
  - intros v. split; [|done]. intros c o [= <-]. by split.
  - intros id. split; [|done]. intros c o ([t p]&Hid&[= <-])%obind_Good.
    split; [apply make_reference_ok|]. split; [apply make_reference_not_constant|]. intros uc. cbn.
    by rewrite make_reference_value, Hid.
  - intros id ranges Hl. split; [|done].
    intros c o (i&Hi&([t p]&Hid&Ho)%obind_Good)%obind_Good. unfold attach_indices in Ho.
    case_match; [done|]. injection Ho as <-.
    split; [apply make_reference_ok|]. split; [apply make_reference_not_constant|]. intros uc. cbn.
    rewrite make_reference_value, Hid. cbn. by rewrite (proj2 Hl c i Hi).
  - intros op e [He _]. split; [|done]. intros c o (a&Ha&Ho)%obind_Good.
    eapply check_prefix_meaning; eauto.
  - intros l [Hl _] op r [Hr _]. split; [|done]. intros c o (a&b&Ha&Hb&Ho)%both_Good.
    eapply check_arith_meaning; eauto.
  - intros l [Hl _] op r [Hr _]. split; [|done]. intros c o (a&b&Ha&Hb&Ho)%both_Good.
    eapply check_relational_meaning; eauto.
  - intros l [Hl _] op r [Hr _]. split; [|done]. intros c o (a&b&Ha&Hb&Ho)%both_Good.
    eapply check_logical_meaning; eauto.
  - intros op x b Hb body [He _]. split; [|done].
    intros c o (r&(j&Hj&Hr)%obind_Good&([i c']&Hp&(lo&Hlo&Ho)%obind_Good)%obind_Good)%obind_Good.
    destruct (He c' lo Hlo) as (Hok&_&Hm). destruct (Hb c j Hj) as [_ Hx].
    destruct (check_loop_meaning op i r lo o (meaning body c') (mean_loop_range b c)) 
      as (?&?&Hloop); auto.
    split; [done|]. split; [done|]. intros uc. specialize (Hloop uc). cbn [meaning]. rewrite Hp.
    exact Hloop.
  - intros args Hargs. split; [|done]. intros c o. by apply defined_meaning.
  - apply single_range_meaning.
  - intros. by apply full_range_meaning.
  - split; [|by intros c i [= <-]].
    intros c k m [= <-] [= <-] uc. reflexivity.
  - intros. by apply more_ranges_meaning.
  - intros e He [|] _; done.
Qed.

(** C13: Checking an expression keeps its meaning: whenever the type checker
    makes an expression of a syntax tree, choosing overloaded operators,
    converting integers to reals and folding constants on the way, its value
    in every context is the meaning of the tree, failures included.  The
    meaning is that of the operators on values, evaluated where they stand,
    with two exceptions that the checker makes for constants: ['!'] is C's
    negation of a constant integer and the complement of any other, and a
    range of constant bounds is one of [int]s. *)
Theorem check_meta_expr_meaning e c o uc :
  check_meta_expr e c = Good o -> unroll_resolve_value o uc = meaning e c uc.
Proof.
  intros Ho. destruct (proj1 checking_keeps_meaning e) as [He _].
  destruct (He c o Ho) as (_&_&H). by rewrite H.
Qed.

(** *** An example: [(+ : i : n : i * 2)], the sum of [i * 2] for [i] below [n] *)
Definition ex_scope (prefix : string) : context :=
  {| loop_var_stack := []; objects := {["n"%string := value_object PInt ex_n]};
     scope_definition := Some 0%nat; scope_prefix := prefix |}.

Definition ex_bounds : range := single_range (id_expr "n").

Definition ex_body : expr := arith_expr (id_expr "i") "*" (token_int 2).

Definition ex_loop : expr := loop_operation "+" "i" ex_bounds ex_body.

(** Constants, on which the checker does what evaluation does not: [!5], and
    [(+ : i : 4294967296..4294967298 : i)]. *)
Definition ex_bang (e : expr) : expr := prefix_expr "!" e.

Definition ex_wide_loop : expr :=
  loop_operation "+" "i" (full_range (token_int (2 ^ 32)) (token_int (2 ^ 32 + 2))) (id_expr "i").

Lemma check_meta_expr_meaning_witness :
  (exists o, check_meta_expr ex_loop (ex_scope "") = Good o /\
    unroll_resolve_value o (ex_context 5) = meaning ex_loop (ex_scope "") (ex_context 5) /\
    meaning ex_loop (ex_scope "") (ex_context 5) = Good (CInt 20)) /\
  (exists o, check_meta_expr (ex_bang (token_int 5)) (ex_scope "") = Good o /\
    unroll_resolve_value o (ex_context 5) = Good (CInt 0)) /\
  (exists o, check_meta_expr (ex_bang (id_expr "n")) (ex_scope "") = Good o /\
    unroll_resolve_value o (ex_context 5) = Good (CInt (-6))) /\
  (exists o, check_meta_expr ex_wide_loop (ex_scope "") = Good o /\
    unroll_resolve_value o (ex_context 5) = Good (CInt 3)).
Proof.
  split_and!; eexists; (split; [vm_compute; reflexivity|]); [split|..].
  - apply check_meta_expr_meaning. vm_compute. reflexivity.
  - vm_compute. reflexivity.
  - rewrite (check_meta_expr_meaning (ex_bang (token_int 5)) (ex_scope "")); vm_compute; reflexivity.
  - rewrite (check_meta_expr_meaning (ex_bang (id_expr "n")) (ex_scope "")); vm_compute; reflexivity.
  - rewrite (check_meta_expr_meaning ex_wide_loop (ex_scope "")); vm_compute; reflexivity.
Defined.
