(* ===== verification/MetaTyping.v ===== *)
(** The typing rules of meta-parameter expressions, which the source does not
    state, and that the type checker implements them: it accepts the well-typed
    expressions, whose type and dimensions the result has, except just those
    with a constant to fold that has no value. *)
From stdpp Require Import strings gmap.
From Stdlib Require Import Ascii Floats.SpecFloat.
From S2P Require Import Prelude MetaValue MetaExpr MetaExprProps MetaCheck MetaMeaning.
Open Scope Z_scope.

#[local] Abbreviation length := Datatypes.length.

(** ** Types of operators *)
Definition is_double (op : string) : bool := bool_decide (text_at op 1 ∈ ["&"; "|"]%char).

Definition typed_if {O} (o : option O) (t : ptype) : option ptype := o ≫= fun _ => Some t.

Definition prefix_type (op : string) (t : ptype) : option ptype :=
  let ch := text_at op 0 in
  match t with
  | PInt => if bool_decide (ch ∈ ["-"; "!"; "~"]%char) then Some PInt else None
  | PBool => if bool_decide (ch = "~"%char) then Some PBool else None
  | PReal => if bool_decide (ch = "-"%char) then Some PReal else None
  | PString => None
  end.

Definition arith_type (op : string) (t t' : ptype) : option ptype :=
  match t, t' with
  | PInt, PInt => if is_double op then None else typed_if (pint_op_map (text_at op 0)) PInt
  | PInt, PReal | PReal, PInt | PReal, PReal => typed_if (preal_op_map (text_at op 0)) PReal
  | PBool, PBool =>
      match forgiven_op op with Good s => typed_if (pbool_op_map s) PBool | _ => None end
  | _, _ => None
  end.

Definition relational_type (op : string) (t t' : ptype) : option ptype :=
  match t, t' with
  | PInt, PInt | PReal, PReal | PString, PString => typed_if (relational_op_map op) PBool
  | PBool, PBool => typed_if (pbool_op_map op) PBool
  | _, _ => None
  end.

Definition logical_type (op : string) (t t' : ptype) : option ptype :=
  match t, t' with
  | PBool, PBool => typed_if (pbool_op_map op) PBool
  | PInt, PInt =>
      if bool_decide (text_at op 0 ∈ ["&"; "|"; "!"]%char)
      then typed_if (pint_op_map (text_at op 0)) PInt else None
  | _, _ => None
  end.

Definition loop_type (op : string) (t : ptype) : option ptype :=
  match t with
  | PInt => if is_double op then None else typed_if (pint_op_map (text_at op 0)) PInt
  | PBool =>
      typed_if (pbool_op_map (if bool_decide (text_at op 0 = "^"%char) then "!=" else op)%string) PBool
  | _ => None
  end.

(** ** Typing rules

    [has_type c e t d]: in the scope [c], [e] is an array of [d] dimensions of
    values of type [t].  Operands, indices and bounds are scalar; an index
    that is a range does not take away a dimension. *)
Inductive has_type : context -> expr -> ptype -> nat -> Prop :=
  | type_int c v : has_type c (token_int v) PInt 0
  | type_float c v : has_type c (token_float v) PReal 0
  | type_bool c s : has_type c (token_bool s) PBool 0
  | type_string c s : has_type c (token_quoted_string s) PString 0
  | type_id c id t p :
      lookup_object c id = Some (value_object t p) ->
      has_type c (id_expr id) t (get_dimensions p)
  | type_index c id ranges t p n k :
      lookup_object c id = Some (value_object t p) -> indices_have_type c ranges n k ->
      (n <= 4)%nat -> (n <= get_dimensions p)%nat ->
      has_type c (index_expr id ranges) t (get_dimensions p - k)
  | type_prefix c op e t t' :
      has_type c e t 0 -> prefix_type op t = Some t' -> has_type c (prefix_expr op e) t' 0
  | type_arith c l op r tl tr t :
      has_type c l tl 0 -> has_type c r tr 0 -> arith_type op tl tr = Some t ->
      has_type c (arith_expr l op r) t 0
  | type_relational c l op r tl tr t :
      has_type c l tl 0 -> has_type c r tr 0 -> relational_type op tl tr = Some t ->
      has_type c (relational_expr l op r) t 0
  | type_logical c l op r tl tr t :
      has_type c l tl 0 -> has_type c r tr 0 -> logical_type op tl tr = Some t ->
      has_type c (logical_expr l op r) t 0
  | type_loop c op x bounds body i c' n t t' :
      range_has_type c bounds n -> push_loop_var c x = Good (i, c') -> has_type c' body t 0 ->
      loop_type op t = Some t' -> has_type c (loop_operation op x bounds body) t' 0
  | type_defined_id c id t :
      has_type c (id_expr id) t 0 ->
      has_type c (defined_call (more_exprs (id_expr id) no_exprs)) PBool 0
  | type_defined_index c id ranges t :
      has_type c (index_expr id ranges) t 0 ->
      has_type c (defined_call (more_exprs (index_expr id ranges) no_exprs)) PBool 0
(** The number of dimensions that an index takes away. *)
with range_has_type : context -> range -> nat -> Prop :=
  | type_single c e : has_type c e PInt 0 -> range_has_type c (single_range e) 1
  | type_full c l u :
      has_type c l PInt 0 -> has_type c u PInt 0 -> range_has_type c (full_range l u) 0
(** The number of indices, and of dimensions that they take away. *)
with indices_have_type : context -> range_list -> nat -> nat -> Prop :=
  | type_none c : indices_have_type c no_ranges 0 0
  | type_more c r l d n k :
      range_has_type c r d -> indices_have_type c l n k ->
      indices_have_type c (more_ranges r l) (S n) (d + k).

(** ** Scopes and signatures

    A scope in a definition, or at the top, of which [G] is the signature. *)
Record scope_typed (G : signature) (c : context) : Prop := {
  scope_unqualified : scope_prefix c = ""%string;
  scope_keys : forall id t p, lookup_object c id = Some (value_object t p) ->
    footprint_key p = id /\ G !! id = Some (t, get_dimensions p)
}.

Lemma push_loop_var_Good c x i c' :
  push_loop_var c x = Good (i, c') ->
  lookup_object c x = None /\ i = loop_var_placeholder c x /\ scope_prefix c' = scope_prefix c /\
  forall id, lookup_object c' id =
    if decide (id = x) then Some (value_object PInt i) else lookup_object c id.
Proof.
  unfold push_loop_var. case_match eqn:Hx; [done|]. intros [= <- <-].
  split_and!; [done..|]. intros id. unfold lookup_object. cbn.
  case_decide as H1; case_decide as H2; try done; try (by exfalso; apply H1 || apply H2).
  by destruct (list_find _ (loop_var_stack c)) as [[]|].
Qed.

Lemma scope_push G c x i c' :
  scope_typed G c -> push_loop_var c x = Good (i, c') ->
  loop_var_ok i /\ scope_typed (loop_signature G i) c'.
Proof.
  intros [Hp Hk] Hpush. destruct (push_loop_var_Good _ _ _ _ Hpush) as (Hx&->&Hp'&Hl).
  unfold loop_signature, loop_var_ok, loop_var_placeholder. cbn. rewrite Hp. cbn.
  split; [done|]. split; [by rewrite Hp'|].
  intros id t p. rewrite Hl. case_decide as Hid.
  - subst id. intros [= <- <-]. cbn. rewrite Hp. cbn. by rewrite lookup_insert_eq.
  - intros [Hkey HG]%Hk. rewrite lookup_insert_ne by done. done.
Qed.

(** ** Constants with a value

    The checker refuses a well-typed tree for one reason: it needs the value
    of a constant that has none. *)
Fixpoint literal_type (e : expr) : option ptype :=
  match e with
  | token_int _ => Some PInt
  | token_float _ => Some PReal
  | token_bool _ => Some PBool
  | token_quoted_string _ => Some PString
  | prefix_expr op e => literal_type e ≫= prefix_type op
  | arith_expr l op r => literal_type l ≫= fun t => literal_type r ≫= arith_type op t
  | relational_expr l op r => literal_type l ≫= fun t => literal_type r ≫= relational_type op t
  | logical_expr l op r => literal_type l ≫= fun t => literal_type r ≫= logical_type op t
  | _ => None
  end.

Definition is_good {A} (o : outcome A) : bool := match o with Good _ => true | _ => false end.

(** The meaning of a constant does not depend on where it stands. *)
Definition no_scope : context :=
  {| loop_var_stack := []; objects := ∅; scope_definition := None; scope_prefix := "" |}.
Definition no_context : unroll_context := root_context None None.

Definition has_value (e : expr) : bool := negb (constant e) || is_good (meaning e no_scope no_context).

(** Constant operators are folded, except between an integer and a real, and
    logical ones between integers. *)
Definition mixed (l r : expr) : bool := bool_decide (literal_type l <> literal_type r).
Definition bitwise (l : expr) : bool := bool_decide (literal_type l = Some PInt).

Definition range_has_value (r : range) : bool :=
  match r with
  | single_range _ => true
  | full_range l u => negb (constant l && constant u) || is_good (mean_index r no_scope no_context)
  end.

(** [n] items make the range [0..n-1]. *)
Definition size_has_value (r : range) : bool :=
  match r with
  | single_range n => negb (constant n) || is_good (mean_loop_range r no_scope no_context)
  | full_range _ _ => true
  end.

Fixpoint constants_ok (e : expr) : bool :=
  match e with
  | token_int _ | token_float _ | token_bool _ | token_quoted_string _ | id_expr _ => true
  | index_expr _ l => indices_ok l
  | prefix_expr _ x => constants_ok x && has_value e
  | arith_expr l _ r => constants_ok l && constants_ok r && (mixed l r || has_value e)
  | relational_expr l _ r => constants_ok l && constants_ok r && has_value e
  | logical_expr l _ r => constants_ok l && constants_ok r && (bitwise l || has_value e)
  | loop_operation _ _ bounds body => index_ok bounds && size_has_value bounds && constants_ok body
  | defined_call (more_exprs x no_exprs) => constants_ok x
  | defined_call _ => true
  end
with index_ok (r : range) : bool :=
  match r with
  | single_range n => constants_ok n
  | full_range l u => constants_ok l && constants_ok u && range_has_value r
  end
with indices_ok (l : range_list) : bool :=
  match l with
  | no_ranges => true
  | more_ranges r l => index_ok r && indices_ok l
  end.

Lemma constant_anywhere e c c' uc uc' :
  constant e = true -> meaning e c uc = meaning e c' uc'.
Proof.
  induction e as [| | | | | |op e IH|l IHl op r IHr|l IHl op r IHr|l IHl op r IHr| |]; cbn; try done.
  - intros H. by rewrite IH.
  - intros [H1 H2]%andb_true_iff. by rewrite IHl, IHr.
  - intros [H1 H2]%andb_true_iff. by rewrite IHl, IHr.
  - intros [H1 H2]%andb_true_iff. by rewrite IHl, IHr.
Qed.

Lemma constant_type c e t d : has_type c e t d -> constant e = true -> literal_type e = Some t.
Proof.
  revert t d.
  induction e as [| | | | | |op e IH|l IHl op r IHr|l IHl op r IHr|l IHl op r IHr| |];
    intros t d Ht; cbn; try done; inversion Ht; subst; try done.
  - intros H. by erewrite IH.
  - intros [H1 H2]%andb_true_iff. erewrite IHl, IHr by done. done.
  - intros [H1 H2]%andb_true_iff. erewrite IHl, IHr by done. done.
  - intros [H1 H2]%andb_true_iff. erewrite IHl, IHr by done. done.
Qed.

Lemma has_value_anywhere e c uc : has_value e = negb (constant e) || is_good (meaning e c uc).
Proof.
  unfold has_value. destruct (constant e) eqn:He; [|done].
  by rewrite (constant_anywhere e no_scope c no_context uc).
Qed.

(** ** What the checker does to well-typed expressions *)

(** It makes an expression of the type, just if [b]. *)
Definition checked_as (G : signature) (t : ptype) (d : nat) (b : bool) (r : outcome param_expr)
    : Prop :=
  if b then exists o, r = Good o /\ param_type o = t /\ param_dimensions o = d /\ param_typed G o
  else forall o, r <> Good o.

Lemma checked_Good G t d o :
  param_type o = t -> param_dimensions o = d -> param_typed G o -> checked_as G t d true (Good o).
Proof. cbn. eauto. Qed.

Lemma is_good_omap {A B} (f : A -> B) o : is_good (omap_out f o) = is_good o.
Proof. by destruct o. Qed.

Lemma is_good_catching {A} (o : outcome A) : is_good (catching o) = is_good o.
Proof. by destruct o. Qed.

(** Folding, of an expression that is typed and whose value is [m]. *)
Lemma folding_checked G t (k : bool) e (v : outcome param_expr) (m : outcome const_param) r :
  (forall o, v = Good o -> param_type o = t /\ param_dimensions o = 0%nat /\ param_typed G o) ->
  (k = true -> is_good v = is_good m) ->
  param_type e = t -> param_dimensions e = 0%nat -> param_typed G e ->
  r = (if k then v else Good e) -> checked_as G t 0 (negb k || is_good m) r.
Proof.
  intros Hv Hm Ht Hd He ->. destruct k; cbn [negb orb]; [|by apply checked_Good].
  rewrite <- Hm by done. destruct v as [o| | |]; cbn; try done. destruct (Hv o eq_refl) as (?&?&?).
  eauto.
Qed.

Section Folding.
Context (G : signature) (m : outcome const_param) (uc : unroll_context).

Lemma fold_pint_checked e v :
  pint_typed G e -> pint_dimensions e = 0%nat -> m = unroll_resolve_value (AnInt e) uc ->
  is_good v = is_good (pint_static_constant_value e) ->
  checked_as G PInt 0 (negb (pint_is_static_constant e) || is_good m) (fold_pint e v).
Proof.
  intros Ht Hd -> Hv. apply (folding_checked G PInt _ (AnInt e) (omap_out (fun v => AnInt (pint_const v)) v));
    try done.
  - by intros o (w&_&<-)%omap_out_Good.
  - intros Hs. cbn. by rewrite !is_good_omap, pint_constant, Hv.
Qed.

Lemma fold_preal_checked e v :
  preal_typed G e -> preal_dimensions e = 0%nat -> m = unroll_resolve_value (AReal e) uc ->
  is_good v = is_good (preal_static_constant_value e) ->
  checked_as G PReal 0 (negb (preal_is_static_constant e) || is_good m) (fold_preal e v).
Proof.
  intros Ht Hd -> Hv. apply (folding_checked G PReal _ (AReal e) (omap_out (fun v => AReal (preal_const v)) v));
    try done.
  - by intros o (w&_&<-)%omap_out_Good.
  - intros Hs. cbn. by rewrite !is_good_omap, preal_constant, Hv.
Qed.

Lemma fold_pbool_checked e :
  pbool_typed G e -> pbool_dimensions e = 0%nat -> pbool_ops_ok e = true ->
  m = unroll_resolve_value (ABool e) uc ->
  checked_as G PBool 0 (negb (pbool_is_static_constant e) || is_good m)
    (fold_pbool e (pbool_static_constant_value e)).
Proof.
  intros Ht Hd Hok ->.
  apply (folding_checked G PBool _ (ABool e)
    (omap_out (fun v => ABool (pbool_const v)) (pbool_static_constant_value e))); try done.
  - by intros o (w&_&<-)%omap_out_Good.
  - intros Hs. cbn. by rewrite !is_good_omap, pbool_constant.
Qed.
End Folding.

(** A typed operand: scalar, and with a meaning. *)
Definition operand (G : signature) (k : bool) (m : unroll_context -> outcome const_param)
    (e : param_expr) : Prop :=
  param_typed G e /\ param_dimensions e = 0%nat /\ has_meaning k m e.

Lemma typed_if_Some {O} (o : option O) t t' :
  typed_if o t = Some t' -> exists a, o = Some a /\ t' = t.
Proof. destruct o as [a|]; [|done]. intros [= <-]. eauto. Qed.

Lemma make_Good {K O E} (map : K -> option O) k a d d' (mk : O -> E) :
  map k = Some a -> d = 0%nat -> d' = 0%nat ->
  find_op map k >>=o (fun op => invariant ((d =? 0) && (d' =? 0))%nat >>=o fun _ => Good (mk op)) =
  Good (mk a).
Proof. intros Ha -> ->. by rewrite (found _ _ _ Ha). Qed.

Section Operators.
Context (G : signature) (op : string) (k1 k2 : bool) (m1 m2 : unroll_context -> outcome const_param)
  (uc : unroll_context).

Lemma check_arith_typed l r t :
  operand G k1 m1 l -> operand G k2 m2 r -> arith_type op (param_type l) (param_type r) = Some t ->
  checked_as G t 0
    (bool_decide (param_type l <> param_type r) ||
     (negb (k1 && k2) || is_good (both (m1 uc) (m2 uc) (mean_arith op))))
    (check_arith op l r).
Proof.
  intros (Ht1&Hd1&Hok1&<-&H1) (Ht2&Hd2&Hok2&<-&H2).
  destruct l as [l|l|l|l], r as [r|r|r|r]; cbn [param_type arith_type check_arith]; try done;
    cbn [bool_decide decide_rel]; rewrite ?bool_decide_eq_false_2, ?bool_decide_eq_true_2 by tauto;
    cbn [orb].
  - unfold is_double, arith_pints, new_pint_arith_expr. case_match; [done|].
    intros (a&Ha&->)%typed_if_Some. erewrite (make_Good pint_op_map) by done. cbn [obind].
    apply (fold_pint_checked G _ uc (pint_arith_expr l a r)); [done|done|eauto with meaning|apply is_good_catching].
  - intros (a&Ha&->)%typed_if_Some. unfold arith_mixed, new_preal_arith_expr.
    erewrite (make_Good preal_op_map) by done. by apply checked_Good.
  - destruct (forgiven_op op) as [s| | |] eqn:Hs; try done. intros (a&Ha&->)%typed_if_Some.
    unfold arith_pbools, new_pbool_logical_expr. rewrite Hs. cbn [obind].
    erewrite (make_Good pbool_op_map) by done. cbn [obind].
    apply (fold_pbool_checked G _ uc (pbool_logical_expr l a r)); [done|done|cbn in *; by rewrite Hok1, Hok2|eauto with meaning].
  - intros (a&Ha&->)%typed_if_Some. unfold arith_mixed, new_preal_arith_expr.
    erewrite (make_Good preal_op_map) by done. by apply checked_Good.
  - intros (a&Ha&->)%typed_if_Some. unfold arith_preals, new_preal_arith_expr.
    erewrite (make_Good preal_op_map) by done. cbn [obind].
    apply (fold_preal_checked G _ uc (preal_arith_expr l a r)); [done|done|eauto with meaning|apply is_good_catching].
Qed.

Lemma check_relational_typed l r t :
  operand G k1 m1 l -> operand G k2 m2 r -> relational_type op (param_type l) (param_type r) = Some t ->
  checked_as G t 0 (negb (k1 && k2) || is_good (both (m1 uc) (m2 uc) (mean_relational op)))
    (check_relational op l r).
Proof.
  intros (Ht1&Hd1&Hok1&<-&H1) (Ht2&Hd2&Hok2&<-&H2).
  destruct l as [l|l|l|l], r as [r|r|r|r]; cbn [param_type relational_type check_relational];
    try done; intros (a&Ha&->)%typed_if_Some; try rewrite Ha;
    unfold new_pint_relational_expr, new_preal_relational_expr, new_pstring_relational_expr,
      new_pbool_logical_expr;
    erewrite (make_Good relational_op_map) || erewrite (make_Good pbool_op_map); try done;
    cbn [obind];
    (match goal with |- context [fold_pbool ?e _] => apply (fold_pbool_checked G _ uc e) end;
      [done|done|cbn in *; by rewrite ?Hok1, ?Hok2|eauto with meaning]).
Qed.

Lemma check_logical_typed l r t :
  operand G k1 m1 l -> operand G k2 m2 r -> logical_type op (param_type l) (param_type r) = Some t ->
  checked_as G t 0
    (bool_decide (param_type l = PInt) ||
     (negb (k1 && k2) || is_good (both (m1 uc) (m2 uc) (mean_logical op))))
    (check_logical op l r).
Proof.
  intros (Ht1&Hd1&Hok1&<-&H1) (Ht2&Hd2&Hok2&<-&H2).
  destruct l as [l|l|l|l], r as [r|r|r|r]; cbn [param_type logical_type check_logical]; try done;
    rewrite ?bool_decide_eq_false_2, ?bool_decide_eq_true_2 by done; cbn [orb].
  - case_match; [|done]. intros (a&Ha&->)%typed_if_Some. unfold new_pint_arith_expr.
    erewrite (make_Good pint_op_map) by done. by apply checked_Good.
  - intros (a&Ha&->)%typed_if_Some.
    pose proof (fold_pbool_checked G (both (m1 uc) (m2 uc) (mean_logical op)) uc
      (pbool_logical_expr l a r)) as Hf.
    unfold logical_pbools, new_pbool_logical_expr. rewrite Ha.
    erewrite (make_Good pbool_op_map) by done. apply Hf; [done|done| |eauto with meaning].
    cbn in *. by rewrite Hok1, Hok2.
Qed.
End Operators.

Lemma check_prefix_typed G op k m e t uc :
  operand G k m e -> prefix_type op (param_type e) = Some t ->
  checked_as G t 0 (negb k || is_good (m uc >>=o mean_prefix k op)) (check_prefix op e).
Proof.
  intros (Ht&Hd&Hok&<-&Hm). rewrite Hm.
  destruct e as [e|e|e|e]; cbn [param_type prefix_type is_static_constant]; unfold check_prefix;
    try done; case_bool_decide as Hin; try done; intros [= <-].
  - assert (Hp : forall fold,
      (pint_is_static_constant e = true -> forall v, mean_prefix true op (CInt v) = omap_out CInt (fold v)) ->
      checked_as G PInt 0 (negb (pint_is_static_constant e) ||
        is_good (unroll_resolve_value (AnInt e) uc >>=o mean_prefix (pint_is_static_constant e) op))
        (prefix_pint (text_at op 0) e fold)).
    { intros fold Hf. unfold prefix_pint, new_pint_unary_expr. cbn in Hd. rewrite Hd.
      eapply (folding_checked G PInt _ (AnInt (pint_unary_expr (text_at op 0) e))); try done.
      - by intros o (w&_&<-)%omap_out_Good.
      - intros Hs. rewrite is_good_omap, Hs. cbn. rewrite pint_constant by done.
        destruct (pint_static_constant_value e) as [v| | |]; try done. cbn.
        by rewrite Hf, is_good_omap. }
    case_bool_decide as H1; [|case_bool_decide as H2; [|case_bool_decide as H3; [|set_solver]]];
      apply Hp; intros Hs v; (rewrite (proj1 (mean_prefix_int true op v Hin)) by done);
      rewrite ?H1, ?H2, ?H3; done.
  - rewrite Hin, !bool_decide_eq_false_2 by done. unfold prefix_pbool, new_pbool_unary_expr.
    cbn in Hd. rewrite Hd.
    eapply (folding_checked G PBool _ (ABool (pbool_unary_expr "~" e))); try done.
    + by intros o (w&_&<-)%omap_out_Good.
    + intros Hs. rewrite is_good_omap. cbn. rewrite pbool_constant by done.
      destruct (pbool_static_constant_value e) as [v| | |]; try done. cbn.
      unfold mean_prefix. by rewrite Hin.
  - rewrite Hin. cbn [bool_decide decide_rel].
    unfold prefix_preal, new_preal_unary_expr. cbn in Hd. rewrite Hd.
    eapply (folding_checked G PReal _ (AReal (preal_unary_expr "-" e))); try done.
    + by intros o (w&_&<-)%omap_out_Good.
    + intros Hs. rewrite is_good_omap. cbn. rewrite preal_constant by done.
      destruct (preal_static_constant_value e) as [v| | |]; try done. cbn.
      unfold mean_prefix. by rewrite Hin.
Qed.

(** ** Ranges and indices *)
Definition index_typed (G : signature) (i : meta_index_expr) (n : nat) : Prop :=
  match i with
  | an_index e => (pint_typed G e /\ pint_dimensions e = 0%nat) /\ n = 1%nat
  | a_range r => range_typed G r /\ n = 0%nat
  end.

(** A result that has the property, just if [b]. *)
Definition made_if {A} (b : bool) (P : A -> Prop) (r : outcome A) : Prop :=
  if b then exists a, r = Good a /\ P a else forall a, r <> Good a.

Lemma made_if_bind {A B} b b' (P : A -> Prop) (Q : B -> Prop) (r : outcome A) (k : A -> outcome B) :
  made_if b P r -> (forall a, r = Good a -> P a -> made_if b' Q (k a)) ->
  made_if (b && b') Q (r >>=o k).
Proof.
  intros Hr Hk. destruct b; cbn in *.
  - destruct Hr as (a&->&Ha). by apply Hk.
  - intros x (a&Ha&_)%obind_Good. by apply (Hr a).
Qed.

Lemma made_if_is_good {A} (P : A -> Prop) (r : outcome A) b :
  is_good r = b -> (forall a, r = Good a -> P a) -> made_if b P r.
Proof. intros <- H. destruct r; cbn; eauto; done. Qed.

Lemma is_good_bind {A B} (o : outcome A) (k : A -> B) : is_good (o >>=o fun a => Good (k a)) = is_good o.
Proof. by destruct o. Qed.

(** The predicates of the induction: the syntax of each class is checked into
    what its type says, just if its constants have values. *)
Definition index_checked (r : range) : Prop :=
  forall c G n, scope_typed G c -> range_has_type c r n ->
    made_if (index_ok r) (fun i => index_typed G i n) (check_meta_index r c).

Definition indices_checked (l : range_list) : Prop :=
  forall c G n k, scope_typed G c -> indices_have_type c l n k ->
    made_if (indices_ok l) (fun is' => length is' = n /\ exists m, cons_indices is' = Good m /\
      indices_typed G m /\ indices_size m = n /\ dimensions_collapsed m = k)
      (postorder_check_meta l c).

Definition expr_checked (e : expr) : Prop :=
  (forall c G t d, scope_typed G c -> has_type c e t d ->
     checked_as G t d (constants_ok e) (check_meta_expr e c)) /\
  match e with index_expr _ ranges => indices_checked ranges | _ => True end.

Lemma bound_of_Good o p : bound_of o = Good p -> o = Good (AnInt p).
Proof. destruct o as [[]| | |]; try done. by intros [= ->]. Qed.

Lemma bound_checked e c G :
  expr_checked e -> scope_typed G c -> has_type c e PInt 0 ->
  made_if (constants_ok e) (fun p => (pint_typed G p /\ pint_dimensions p = 0%nat) /\
    int_meaning (constant e) (meaning e c) p) (bound_of (check_meta_expr e c)).
Proof.
  intros [He _] HG Ht. specialize (He c G _ _ HG Ht).
  destruct (constants_ok e); cbn in *.
  - destruct He as (o&Ho&Hot&Hd&Htd). rewrite Ho. destruct o as [p|p|p|p]; try done.
    exists p. split; [done|]. split; [done|].
    eapply (bound_meaning _ _ (Good (AnInt p))); [|done].
    intros o [= <-]. by apply (proj1 checking_keeps_meaning e).
  - intros p Hp. destruct (check_meta_expr e c) as [o| | |] eqn:E; try done. by apply (He o).
Qed.

Lemma mean_range_anywhere l u c uc :
  range_has_value (full_range l u) =
  negb (constant l && constant u) ||
  is_good (bounds_meaning (constant l && constant u) (meaning l c) (meaning u c) uc).
Proof.
  cbn. destruct (constant l && constant u) eqn:H; [|done].
  apply andb_true_iff in H as [Hl Hu]. cbn [negb orb].
  rewrite <- (obind_assoc (meaning l no_scope no_context >>=o mean_int)).
  rewrite (constant_anywhere l no_scope c no_context uc Hl).
  rewrite (constant_anywhere u no_scope c no_context uc Hu).
  unfold bounds_meaning.
  match goal with |- is_good (?o >>=o _) = _ => by destruct o as [[]| | |] end.
Qed.

Lemma make_range_good k1 k2 m n lp up uc :
  int_meaning k1 m lp -> int_meaning k2 n up ->
  is_good (make_range lp up) = negb (k1 && k2) || is_good (bounds_meaning (k1 && k2) m n uc).
Proof.
  intros [<- Hl] [<- Hu]. unfold make_range, bounds_meaning. case_match eqn:Hs; [|done].
  apply andb_true_iff in Hs as [Hsl Hsu]. rewrite Hl, Hu, !pint_constant by done.
  destruct (pint_static_constant_value lp) as [l| | |]; [|done..]. cbn.
  destruct (pint_static_constant_value up) as [u| | |]; [|done..]. cbn.
  rewrite !low_int_of_long. by case_match.
Qed.

Lemma single_checked e : expr_checked e -> index_checked (single_range e).
Proof.
  intros He c G n HG Hr. inversion Hr as [? ? Ht|]; subst. cbn [check_meta_index index_ok].
  rewrite <- (andb_true_r (constants_ok e)). eapply made_if_bind; [by apply bound_checked|].
  intros p _ [Hp _]. by exists (an_index p).
Qed.

Lemma full_checked l u : expr_checked l -> expr_checked u -> index_checked (full_range l u).
Proof.
  intros Hl Hu c G n HG Hr. inversion Hr as [|? ? ? Htl Htu]; subst.
  cbn [check_meta_index index_ok]. rewrite <- andb_assoc.
  eapply made_if_bind; [by apply bound_checked|]. intros lp _ [Htl' Hml].
  eapply made_if_bind; [by apply bound_checked|]. intros up _ [Htu' Hmu].
  rewrite (mean_range_anywhere l u c no_context).
  apply made_if_is_good; [by apply make_range_good|]. intros i Hi.
  unfold make_range in Hi. case_match; [|by injection Hi as <-].
  apply obind_Good in Hi as (x&_&(y&_&Hi)%obind_Good).
  case_match; [done|]. by injection Hi as <-.
Qed.

Lemma none_checked : indices_checked no_ranges.
Proof.
  intros c G n k HG Hl. inversion Hl; subst. exists []. split; [done|]. split; [done|].
  by exists no_indices.
Qed.

Lemma cons_index_typed G i n l :
  index_typed G i n -> indices_typed G l ->
  exists m, cons_index i l = Good m /\ indices_typed G m /\ indices_size m = S (indices_size l) /\
    dimensions_collapsed m = (n + dimensions_collapsed l)%nat.
Proof.
  destruct i as [e|r]; intros [Hi ->] Hl; cbn.
  - destruct Hi as [Ht Hd]. rewrite Hd. by eexists.
  - by eexists.
Qed.

(** A bad index ends the program. *)
Lemma check_first_index r l c :
  made_if true (fun _ => True) (check_meta_index r c) \/
  (forall i, check_meta_index r c <> Good i) /\
  forall k, postorder_check_meta (more_ranges r l) c <> Good k.
Proof. cbn. destruct (check_meta_index r c); [left; by eexists|by right..]. Qed.

Lemma more_checked r l :
  index_checked r -> indices_checked l -> indices_checked (more_ranges r l).
Proof.
  intros Hr Hl c G n k HG Ht. inversion Ht as [|? ? ? d n' k' Hrt Hlt]; subst.
  specialize (Hr c G d HG Hrt). specialize (Hl c G n' k' HG Hlt). cbn [indices_ok].
  destruct (index_ok r); cbn [andb made_if] in *.
  - destruct Hr as (i&Hi&Hit). cbn [postorder_check_meta]. rewrite Hi. cbn [obind].
    rewrite <- (andb_true_r (indices_ok l)). eapply made_if_bind; [exact Hl|].
    intros is' _ (<-&m&Hm&Hmt&Hs&Hd). exists (i :: is'). split; [done|]. split; [done|].
    cbn. rewrite Hm. cbn. destruct (cons_index_typed G i d m Hit Hmt) as (m'&Hm'&?&?&?). exists m'.
    rewrite Hm', <- Hs, <- Hd. done.
  - by destruct (check_first_index r l c) as [(i&Hi%Hr&_)|[_ ?]].
Qed.

(** The indices of a reference. *)
Lemma check_indices_postorder r l c :
  check_meta_indices (more_ranges r l) c =
  postorder_check_meta (more_ranges r l) c >>=o fun k =>
  match (if (4 <? length k)%nat then Bad else cons_indices k) with
  | Bad => Crash F_exit
  | o => o
  end.
Proof.
  cbn [check_meta_indices postorder_check_meta].
  destruct (check_meta_index r c); cbn [obind]; try done.
  by destruct (postorder_check_meta l c).
Qed.

Lemma indices_references l c G n k :
  indices_checked l -> scope_typed G c -> indices_have_type c l n k -> (n <= 4)%nat ->
  made_if (indices_ok l)
    (fun m => indices_typed G m /\ indices_size m = n /\ dimensions_collapsed m = k)
    (check_meta_indices l c).
Proof.
  intros Hl HG Ht Hn. specialize (Hl c G n k HG Ht).
  destruct l as [|r l]; [inversion Ht; subst; by exists no_indices|].
  rewrite check_indices_postorder, <- (andb_true_r (indices_ok _)).
  eapply made_if_bind; [exact Hl|]. intros is' _ (<-&m&->&?&?&?).
  destruct (4 <? length is')%nat eqn:H4; [apply Nat.ltb_lt in H4; lia|]. by exists m.
Qed.

Lemma lookup_reference c id t p :
  lookup_object c id = Some (value_object t p) -> check_meta_reference c id = Good (t, p).
Proof. unfold check_meta_reference. by intros ->. Qed.

Lemma make_reference_typed G t p i :
  placeholder_typed G t p i -> indices_typed G i ->
  param_type (make_meta_value_reference t p i) = t /\
  param_dimensions (make_meta_value_reference t p i) = reference_dimensions p i /\
  param_typed G (make_meta_value_reference t p i).
Proof. by destruct t. Qed.

Lemma scope_placeholder G c id t p i :
  scope_typed G c -> lookup_object c id = Some (value_object t p) ->
  (indices_size i <= get_dimensions p)%nat -> placeholder_typed G t p i.
Proof. intros HG [Hk Hp]%(scope_keys _ _ HG) Hi. split; [by rewrite Hk|done]. Qed.

(** What a reference is made into. *)
Definition reference_to (G : signature) (t : ptype) (d : nat) (o : param_expr) : Prop :=
  exists p i, o = make_meta_value_reference t p i /\ reference_dimensions p i = d /\
    placeholder_typed G t p i /\ indices_typed G i.

Lemma reference_checked_as G t d b r : made_if b (reference_to G t d) r -> checked_as G t d b r.
Proof.
  destruct b; [|done]. intros (o&->&p&i&->&<-&Hp&Hi). eexists. split; [done|].
  by apply make_reference_typed.
Qed.

Lemma id_checked id c G t d :
  scope_typed G c -> has_type c (id_expr id) t d ->
  made_if true (reference_to G t d) (check_meta_expr (id_expr id) c).
Proof.
  intros HG Ht. inversion Ht as [| | | |? ? ? p Hid| | | | | | | |]; subst.
  cbn. rewrite (lookup_reference _ _ _ _ Hid). eexists. split; [done|]. exists p, no_indices.
  split; [done|]. unfold reference_dimensions. cbn. split; [lia|]. split; [|done].
  eapply scope_placeholder; eauto. cbn. lia.
Qed.

Lemma index_expr_checked id l c G t d :
  indices_checked l -> scope_typed G c -> has_type c (index_expr id l) t d ->
  made_if (indices_ok l) (reference_to G t d) (check_meta_expr (index_expr id l) c).
Proof.
  intros Hl HG Ht. inversion Ht as [| | | | |? ? ? ? p n k Hid Hr H4 Hn| | | | | | |]; subst.
  cbn [check_meta_expr]. rewrite <- (andb_true_r (indices_ok l)).
  eapply made_if_bind; [by eapply indices_references|]. intros i _ (Hi&Hs&Hd).
  rewrite (lookup_reference _ _ _ _ Hid). cbn [obind].
  unfold attach_indices. destruct (get_dimensions p <? indices_size i)%nat eqn:Hlt;
    [apply Nat.ltb_lt in Hlt; lia|].
  eexists. split; [done|]. exists p, i. split; [done|].
  split; [by unfold reference_dimensions; rewrite Hd|].
  split; [|done]. eapply scope_placeholder; eauto. lia.
Qed.

(** ** Definedness and loops *)
Lemma defined_checked e c G t b :
  made_if b (reference_to G t 0) (check_meta_expr e c) ->
  checked_as G PBool 0 b (check_meta_expr (defined_call (more_exprs e no_exprs)) c).
Proof.
  intros He. cbn [check_meta_expr check_meta_exprs]. destruct b; cbn [made_if] in He.
  - destruct He as (o&->&p&i&->&Hd&Hp&Hi). cbn. unfold check_defined.
    destruct t; cbn; rewrite Hd; by apply checked_Good.
  - intros o. by destruct (check_meta_expr e c) as [a| | |]; [destruct (He a)|..].
Qed.

Lemma loop_range_checked r c G n :
  index_checked r -> scope_typed G c -> range_has_type c r n ->
  made_if (index_ok r && size_has_value r) (range_typed G)
    (check_meta_index r c >>=o make_explicit_range).
Proof.
  intros Hr HG Ht. eapply made_if_bind; [by apply Hr|]. intros i Hi Hit.
  pose proof (proj1 (proj2 checking_keeps_meaning) r c i Hi) as [_ Hm].
  inversion Ht as [? e Het|? l u Hlt Hut]; subst; destruct i as [p|x]; destruct Hit as [Hit [=]]; cycle 1.
  { by exists x. }
  destruct Hit as [Hpt Hpd]. cbn [check_meta_index] in Hi.
  apply omap_out_Good in Hi as (p'&Hp%bound_of_Good&[= ->]).
  destruct (proj1 (proj1 checking_keeps_meaning e) c _ Hp) as (_&Hk&Hv). cbn in Hk.
  cbn [make_explicit_range size_has_value]. rewrite <- Hk.
  destruct (pint_is_static_constant p) eqn:Hs; cbn [negb orb].
  - apply made_if_is_good.
    + cbn [mean_loop_range]. symmetry in Hk.
      rewrite (constant_anywhere e no_scope c no_context no_context Hk), Hv. cbn.
      rewrite pint_constant by done. destruct (pint_static_constant_value p); [|done..]. cbn.
      by rewrite !is_good_omap.
    + by intros x (v&_&(w&_&<-)%omap_out_Good)%obind_Good.
  - unfold new_pint_arith_expr. cbn. rewrite Hpd. by eexists.
Qed.

Lemma loop_checked op x bounds body :
  index_checked bounds -> expr_checked body -> expr_checked (loop_operation op x bounds body).
Proof.
  intros Hr [Hb _]. split; [|done]. intros c G t d HG Ht.
  inversion Ht as [| | | | | | | | | |? ? ? ? ? i c' n tb ? Hrt Hp Hbt Hop| |]; subst.
  pose proof (loop_range_checked bounds c G n Hr HG Hrt) as Hx.
  destruct (scope_push G c x i c' HG Hp) as [Hi HG']. specialize (Hb c' _ _ _ HG' Hbt).
  cbn [check_meta_expr constants_ok]. eapply made_if_bind; [exact Hx|]. intros r _ Hrt'.
  rewrite Hp. cbn [obind]. rewrite <- (andb_true_r (constants_ok body)).
  eapply made_if_bind; [exact Hb|]. intros lo _ (<-&Hd&Hbt').
  destruct lo as [e|e|e|e]; cbn [param_type loop_type check_loop] in *; try done.
  - unfold is_double in Hop. case_match; [done|].
    apply typed_if_Some in Hop as (a&->&->). by apply checked_Good.
  - apply typed_if_Some in Hop as (a&->&->). by apply checked_Good.
Qed.

(** The operands of a binary operator. *)
Lemma binary_checked G c l r tl tr t b (check : param_expr -> param_expr -> outcome param_expr) :
  (forall a b', operand G (constant l) (meaning l c) a -> operand G (constant r) (meaning r c) b' ->
     param_type a = tl -> param_type b' = tr -> checked_as G t 0 b (check a b')) ->
  checked_as G tl 0 (constants_ok l) (check_meta_expr l c) ->
  checked_as G tr 0 (constants_ok r) (check_meta_expr r c) ->
  checked_as G t 0 (constants_ok l && constants_ok r && b)
    (both (check_meta_expr l c) (check_meta_expr r c) check).
Proof.
  intros Hcheck Hl Hr.
  pose proof (proj1 (proj1 checking_keeps_meaning l) c) as Hml.
  pose proof (proj1 (proj1 checking_keeps_meaning r) c) as Hmr.
  destruct (constants_ok l); cbn [andb checked_as] in *;
    [|by intros o (a&?&Ha&_)%both_Good; apply (Hl a)].
  destruct (constants_ok r); cbn [andb checked_as] in *;
    [|by intros o (?&a&_&Ha&_)%both_Good; apply (Hr a)].
  destruct Hl as (a&Ha&Hta&Hda&Ht'), Hr as (a'&Ha'&Hta'&Hda'&Ht''). rewrite Ha, Ha'.
  apply Hcheck; try done; split_and!; auto.
Qed.

(** Constant operands have the types of the literals. *)
Lemma constant_types c l r tl tr :
  has_type c l tl 0 -> has_type c r tr 0 -> constant l && constant r = true ->
  literal_type l = Some tl /\ literal_type r = Some tr.
Proof. intros Hl Hr [H1 H2]%andb_true_iff. split; by eapply constant_type. Qed.

Lemma orb_negb_true (b b1 b2 v : bool) :
  (b = true -> b1 = b2) -> b1 || (negb b || v) = b2 || (negb b || v).
Proof. destruct b; cbn; [by intros ->|by rewrite !orb_true_r]. Qed.

Lemma checker_complete :
  (forall e, expr_checked e) /\ (forall r, index_checked r) /\ (forall l, indices_checked l) /\
  (forall l, match l with more_exprs e no_exprs => expr_checked e | _ => True end).
Proof.
  apply ast_mind; try done; unfold expr_checked.
  1-4: intros v; split; [|done]; intros c G t d HG Ht; inversion Ht; subst; by apply checked_Good.
  - intros id. split; [|done]. intros c G t d HG Ht. by apply reference_checked_as, id_checked.
  - intros id l Hl. split; [|done]. intros c G t d HG Ht.
    by apply reference_checked_as, index_expr_checked.
  - intros op e [He _]. split; [|done]. intros c G t d HG Ht.
    inversion Ht as [| | | | | |? ? ? te ? Het Hop| | | | | |]; subst.
    specialize (He c G te 0%nat HG Het). cbn [check_meta_expr constants_ok].
    rewrite (has_value_anywhere _ c no_context). eapply made_if_bind; [exact He|].
    intros o Ho (<-&Hd&Hot). apply check_prefix_typed; [|done]. split_and!; try done.
    by apply (proj1 checking_keeps_meaning e).
  - intros l [Hl _] op r [Hr _]. split; [|done]. intros c G t d HG Ht.
    inversion Ht as [| | | | | | |? ? ? ? tl tr ? Hlt Hrt Hop| | | | |]; subst.
    apply (binary_checked G c l r tl tr); eauto. intros a b Ha Hb <- <-.
    rewrite (has_value_anywhere _ c no_context). cbn [constant].
    erewrite (orb_negb_true _ (mixed l r)); [by apply check_arith_typed|].
    intros Hk. destruct (constant_types c l r _ _ Hlt Hrt Hk) as [E E'].
    unfold mixed. rewrite E, E'. apply bool_decide_ext. split; congruence.
  - intros l [Hl _] op r [Hr _]. split; [|done]. intros c G t d HG Ht.
    inversion Ht as [| | | | | | | |? ? ? ? tl tr ? Hlt Hrt Hop| | | |]; subst.
    apply (binary_checked G c l r tl tr); eauto. intros a b Ha Hb <- <-.
    rewrite (has_value_anywhere _ c no_context). by apply check_relational_typed.
  - intros l [Hl _] op r [Hr _]. split; [|done]. intros c G t d HG Ht.
    inversion Ht as [| | | | | | | | |? ? ? ? tl tr ? Hlt Hrt Hop| | |]; subst.
    apply (binary_checked G c l r tl tr); eauto. intros a b Ha Hb <- <-.
    rewrite (has_value_anywhere _ c no_context). cbn [constant].
    erewrite (orb_negb_true _ (bitwise l)); [by apply check_logical_typed|].
    intros Hk. destruct (constant_types c l r _ _ Hlt Hrt Hk) as [E E'].
    unfold bitwise. rewrite E. apply bool_decide_ext. split; congruence.
  - intros. by apply loop_checked.
  - intros args Hargs. split; [|done]. intros c G t d HG Ht.
    inversion Ht as [| | | | | | | | | | |? id ? Het|? id l ? Het]; subst; cbn [constants_ok].
    + by eapply defined_checked, id_checked.
    + destruct Hargs as [_ Hl]. by eapply defined_checked, index_expr_checked.
  - intros. by apply single_checked.
  - intros. by apply full_checked.
  - apply none_checked.
  - intros. by apply more_checked.
  - intros e He [|]; done.
Qed.

(** ** What the checker accepts is well-typed *)
Lemma pint_static_typed G e :
  pint_is_static_constant e = true -> pint_typed G e /\ pint_dimensions e = 0%nat.
Proof.
  induction e; cbn; try done.
  - intros H. destruct (IHe H). done.
  - intros [H1 H2]%andb_true_iff. destruct (IHe1 H1), (IHe2 H2). done.
Qed.

Lemma preal_static_typed G e :
  preal_is_static_constant e = true -> preal_typed G e /\ preal_dimensions e = 0%nat.
Proof.
  induction e; cbn; try done.
  - intros H. destruct (IHe H). done.
  - intros [H1 H2]%andb_true_iff. destruct (IHe1 H1), (IHe2 H2). done.
  - by apply pint_static_typed.
Qed.

Lemma pstring_static_typed G e :
  pstring_is_static_constant e = true -> pstring_typed G e /\ pstring_dimensions e = 0%nat.
Proof. by destruct e. Qed.

Lemma pbool_static_typed G e :
  pbool_is_static_constant e = true -> pbool_typed G e /\ pbool_dimensions e = 0%nat.
Proof.
  induction e; cbn; try done.
  - intros H. destruct (IHe H). done.
  - intros [H1 H2]%andb_true_iff. destruct (IHe1 H1), (IHe2 H2). done.
  - intros [H1 H2]%andb_true_iff. split; [|done]. split; by apply pint_static_typed.
  - intros [H1 H2]%andb_true_iff. split; [|done]. split; by apply preal_static_typed.
  - intros [H1 H2]%andb_true_iff. split; [|done]. split; by apply pstring_static_typed.
Qed.

Definition scalar_param (G : signature) (e : param_expr) : Prop :=
  param_typed G e /\ param_dimensions e = 0%nat.

(** What was folded, or not, was typed. *)
Lemma fold_pint_typed G e v o :
  fold_pint e v = Good o -> param_typed G o -> pint_dimensions e = 0%nat ->
  param_type o = PInt /\ param_dimensions o = 0%nat /\ pint_typed G e.
Proof.
  unfold fold_pint. case_match eqn:Hs; [|by intros [= <-]].
  intros (w&_&<-)%omap_out_Good _ _. split_and!; [done..|]. by apply pint_static_typed.
Qed.

Lemma fold_preal_typed G e v o :
  fold_preal e v = Good o -> param_typed G o -> preal_dimensions e = 0%nat ->
  param_type o = PReal /\ param_dimensions o = 0%nat /\ preal_typed G e.
Proof.
  unfold fold_preal. case_match eqn:Hs; [|by intros [= <-]].
  intros (w&_&<-)%omap_out_Good _ _. split_and!; [done..|]. by apply preal_static_typed.
Qed.

Lemma fold_pbool_typed G e v o :
  fold_pbool e v = Good o -> param_typed G o -> pbool_dimensions e = 0%nat ->
  param_type o = PBool /\ param_dimensions o = 0%nat /\ pbool_typed G e.
Proof.
  unfold fold_pbool. case_match eqn:Hs; [|by intros [= <-]].
  intros (w&_&<-)%omap_out_Good _ _. split_and!; [done..|]. by apply pbool_static_typed.
Qed.

Lemma check_arith_sound G op l r o :
  check_arith op l r = Good o -> param_typed G o ->
  scalar_param G l /\ scalar_param G r /\ param_dimensions o = 0%nat /\
  arith_type op (param_type l) (param_type r) = Some (param_type o).
Proof.
  unfold scalar_param. destruct l as [l|l|l|l], r as [r|r|r|r]; cbn [check_arith]; try done.
  - unfold arith_pints, arith_type, is_double. case_match; [done|].
    intros (e&(a&Ha&->)%made&He)%obind_Good Ht. cbn. rewrite Ha.
    destruct (fold_pint_typed G _ _ _ He Ht eq_refl) as (->&->&[]). done.
  - intros (e&(a&Ha&->)%made&->)%folded Ht. cbn. rewrite Ha. cbn in Ht. tauto.
  - unfold arith_pbools. intros (s&Hs&(e&(a&Ha&->)%made&He)%obind_Good)%obind_Good Ht. cbn.
    rewrite Hs, Ha. destruct (fold_pbool_typed G _ _ _ He Ht eq_refl) as (->&->&[]). done.
  - intros (e&(a&Ha&->)%made&->)%folded Ht. cbn. rewrite Ha. cbn in Ht. tauto.
  - unfold arith_preals. intros (e&(a&Ha&->)%made&He)%obind_Good Ht. cbn. rewrite Ha.
    destruct (fold_preal_typed G _ _ _ He Ht eq_refl) as (->&->&[]). done.
Qed.

Lemma check_relational_sound G op l r o :
  check_relational op l r = Good o -> param_typed G o ->
  scalar_param G l /\ scalar_param G r /\ param_dimensions o = 0%nat /\
  relational_type op (param_type l) (param_type r) = Some (param_type o).
Proof.
  unfold scalar_param. destruct l as [l|l|l|l], r as [r|r|r|r]; cbn [check_relational]; try done.
  2: destruct (pbool_op_map op) eqn:Hop; [|done].
  all: intros (e&(a&Ha&->)%made&He)%obind_Good Ht; cbn; rewrite ?Ha;
    destruct (fold_pbool_typed G _ _ _ He Ht eq_refl) as (->&->&[]); done.
Qed.

Lemma check_logical_sound G op l r o :
  check_logical op l r = Good o -> param_typed G o ->
  scalar_param G l /\ scalar_param G r /\ param_dimensions o = 0%nat /\
  logical_type op (param_type l) (param_type r) = Some (param_type o).
Proof.
  unfold scalar_param, logical_type.
  destruct l as [l|l|l|l], r as [r|r|r|r]; cbn [check_logical]; try done.
  - cbn [param_type]. case_match; [|done].
    intros (e&(a&Ha&->)%made&->)%folded Ht. cbn. rewrite Ha. cbn in Ht. tauto.
  - unfold logical_pbools. destruct (pbool_op_map op) as [a|] eqn:Ha; [|done].
    case_match eqn:Hs.
    + apply andb_true_iff in Hs as [Hl Hr]. intros (w&_&->)%folded _. cbn.
      split_and!; try done; by apply pbool_static_typed.
    + intros (e&(b&Hb&->)%made&->)%folded Ht. cbn. cbn in Ht. tauto.
Qed.

Lemma check_prefix_sound G op e o :
  check_prefix op e = Good o -> param_typed G o ->
  scalar_param G e /\ param_dimensions o = 0%nat /\
  prefix_type op (param_type e) = Some (param_type o).
Proof.
  unfold scalar_param, check_prefix, prefix_type.
  destruct e as [e|e|e|e]; cbn [param_type].
  - assert (Hp : forall fold, prefix_pint (text_at op 0) e fold = Good o -> param_typed G o ->
      (pint_typed G e /\ pint_dimensions e = 0%nat) /\ param_dimensions o = 0%nat /\
      param_type o = PInt).
    { intros fold. unfold prefix_pint. case_match eqn:Hs.
      - intros (w&_&->)%folded _. split; [by apply pint_static_typed|done].
      - by intros (w&(_&_&[= <-])%obind_Good&->)%folded []. }
    intros Ho Ht.
    case_bool_decide as H1; [|case_bool_decide as H2; [|case_bool_decide as H3; [|done]]];
      destruct (Hp _ Ho Ht) as (?&->&->); rewrite bool_decide_eq_true_2 by set_solver; done.
  - case_bool_decide as H1; [done|case_bool_decide as H2; [done|case_bool_decide as H3; [|done]]].
    unfold prefix_pbool. case_match eqn:Hs.
    + intros (w&_&->)%folded _. split; [by apply pbool_static_typed|done].
    + by intros (w&(_&_&[= <-])%obind_Good&->)%folded [].
  - case_bool_decide as H1; [|case_bool_decide as H2; [done|by case_bool_decide]].
    unfold prefix_preal. case_match eqn:Hs.
    + intros (w&_&->)%folded _. split; [by apply preal_static_typed|done].
    + by intros (w&(_&_&[= <-])%obind_Good&->)%folded [].
  - by case_bool_decide.
Qed.

Definition expr_sound (e : expr) : Prop :=
  forall c G o, scope_typed G c -> check_meta_expr e c = Good o -> param_typed G o ->
    has_type c e (param_type o) (param_dimensions o).

Definition range_sound (r : range) : Prop :=
  forall c G i n, scope_typed G c -> check_meta_index r c = Good i -> index_typed G i n ->
    range_has_type c r n.

Definition indices_sound (l : range_list) : Prop :=
  forall c G k m, scope_typed G c -> postorder_check_meta l c = Good k -> cons_indices k = Good m ->
    indices_typed G m ->
    indices_have_type c l (length k) (dimensions_collapsed m) /\ indices_size m = length k.

Lemma single_sound e : expr_sound e -> range_sound (single_range e).
Proof.
  intros He c G i n HG (p&Hp%bound_of_Good&<-)%omap_out_Good [[Ht Hd] ->].
  constructor. specialize (He c G _ HG Hp Ht). cbn in He. by rewrite Hd in He.
Qed.

Lemma full_sound l u : expr_sound l -> expr_sound u -> range_sound (full_range l u).
Proof.
  intros Hl Hu c G i n HG (lp&Hlp%bound_of_Good&(up&Hup%bound_of_Good&Hi)%obind_Good)%obind_Good Ht.
  assert (Hb : exists r, i = a_range r /\ scalar_param G (AnInt lp) /\ scalar_param G (AnInt up)).
  { unfold make_range in Hi. case_match eqn:Hs.
    - apply andb_true_iff in Hs as [Hsl Hsu].
      apply obind_Good in Hi as (?&_&(?&_&Hi)%obind_Good). case_match; [done|]. injection Hi as <-.
      eexists. split; [done|]. split; by apply pint_static_typed.
    - injection Hi as <-. eexists. split; [done|]. by destruct Ht as [[] _]. }
  destruct Hb as (r&->&[Htl Hdl]&[Htu Hdu]). destruct Ht as [_ ->].
  specialize (Hl c G _ HG Hlp Htl). specialize (Hu c G _ HG Hup Htu). cbn in Hl, Hu, Hdl, Hdu.
  rewrite Hdl in Hl. rewrite Hdu in Hu. by constructor.
Qed.

(** The first index of a list, and the others. *)
Lemma cons_index_sound G i l m :
  cons_index i l = Good m -> indices_typed G m ->
  exists n, index_typed G i n /\ indices_typed G l /\ indices_size m = S (indices_size l) /\
    dimensions_collapsed m = (n + dimensions_collapsed l)%nat.
Proof.
  destruct i as [e|r]; cbn.
  - case_match eqn:Hd; [|done]. apply Nat.eqb_eq in Hd. intros [= <-] [[] ?]. by exists 1%nat.
  - intros [= <-] []. by exists 0%nat.
Qed.

Lemma more_sound r l : range_sound r -> indices_sound l -> indices_sound (more_ranges r l).
Proof.
  intros Hr Hl c G k m HG Hk Hm Ht. cbn [postorder_check_meta] in Hk.
  destruct (check_meta_index r c) as [i| | |] eqn:Hi; try done. cbn [obind] in Hk.
  apply omap_out_Good in Hk as (k'&Hk'&<-). cbn [cons_indices] in Hm.
  apply obind_Good in Hm as (m'&Hm'&Hm).
  destruct (cons_index_sound G i m' m Hm Ht) as (n&Hit&Ht'&->&->).
  destruct (Hl c G k' m' HG Hk' Hm' Ht') as [Hlt ->]. split; [|done].
  constructor; [by eapply Hr|done].
Qed.

Lemma reference_indices_sound l c G i :
  indices_sound l -> scope_typed G c -> check_meta_indices l c = Good i -> indices_typed G i ->
  indices_have_type c l (indices_size i) (dimensions_collapsed i) /\ (indices_size i <= 4)%nat.
Proof.
  intros Hl HG Hi Ht. destruct l as [|r l].
  { injection Hi as <-. split; [constructor|cbn; lia]. }
  rewrite check_indices_postorder in Hi. apply obind_Good in Hi as (k&Hk&Hi).
  destruct (4 <? length k)%nat eqn:H4; [done|]. apply Nat.ltb_ge in H4.
  assert (Hi' : cons_indices k = Good i) by (by destruct (cons_indices k)).
  destruct (Hl c G k i HG Hk Hi' Ht) as [Hlt ->]. done.
Qed.

Lemma reference_Good c id t p :
  check_meta_reference c id = Good (t, p) -> lookup_object c id = Some (value_object t p).
Proof. unfold check_meta_reference. repeat case_match; try done. by intros [= -> ->]. Qed.

Lemma index_expr_sound id l : indices_sound l -> expr_sound (index_expr id l).
Proof.
  intros Hl c G o HG (i&Hi&([t p]&Hp&Ho)%obind_Good)%obind_Good Ht.
  unfold attach_indices in Ho. destruct (get_dimensions p <? indices_size i)%nat eqn:Hlt; [done|].
  apply Nat.ltb_ge in Hlt. injection Ho as <-. apply reference_Good in Hp.
  assert (Hit : indices_typed G i) by (by destruct t, Ht).
  destruct (make_reference_typed G t p i) as (->&->&_);
    [by eapply scope_placeholder|done|].
  destruct (reference_indices_sound l c G i Hl HG Hi Hit) as [Hlt' H4].
  by econstructor.
Qed.

Lemma loop_sound op x bounds body :
  range_sound bounds -> expr_sound body -> expr_sound (loop_operation op x bounds body).
Proof.
  intros Hr Hb c G o HG Ho Ht. cbn [check_meta_expr] in Ho.
  apply obind_Good in Ho as (r&(j&Hj&Hx)%obind_Good&([i c']&Hp&(lo&Hlo&Ho)%obind_Good)%obind_Good).
  destruct (scope_push G c x i c' HG Hp) as [_ HG'].
  assert (Hloop : range_typed G r /\ scalar_param (loop_signature G i) lo /\
    loop_type op (param_type lo) = Some (param_type o) /\ param_dimensions o = 0%nat).
  { unfold scalar_param. destruct lo as [e|e|e|e]; cbn [check_loop] in Ho; try done;
      unfold loop_type, is_double; cbn [param_type].
    - case_match; [done|]. destruct (pint_op_map _); [|done]. injection Ho as <-.
      cbn in Ht |- *. tauto.
    - destruct (pbool_op_map _); [|done]. injection Ho as <-. cbn in Ht |- *. tauto. }
  destruct Hloop as (Hrt&[Hlt Hld]&Hop&->).
  assert (exists n, range_has_type c bounds n) as [n Hn].
  { destruct j as [e|x']; cbn in Hx.
    - exists 1%nat. apply (Hr c G (an_index e)); [done..|]. split; [|done]. case_match eqn:Hs.
      + by apply pint_static_typed.
      + apply omap_out_Good in Hx as (e'&(_&_&[= <-])%obind_Good&<-). cbn in Hrt. tauto.
    - injection Hx as ->. exists 0%nat. by apply (Hr c G (a_range r)). }
  specialize (Hb c' _ lo HG' Hlo Hlt). rewrite Hld in Hb. by econstructor.
Qed.

Lemma defined_sound args :
  match args with more_exprs e no_exprs => expr_sound e | _ => True end ->
  expr_sound (defined_call args).
Proof.
  intros Hargs c G o HG Ho Ht. cbn [check_meta_expr] in Ho.
  apply obind_Good in Ho as (l&Hl&Ho).
  apply check_defined_Good in Ho as (a&t&p&i&->&Hr&->&Hd). cbn [param_type param_dimensions].
  destruct args as [|e args]; [done|]. cbn [check_meta_exprs] in Hl.
  apply obind_Good in Hl as (o&Ho&(l&Hl&[= -> ->])%omap_out_Good).
  destruct (check_meta_expr e c) as [a'| | |] eqn:He; try done. injection Ho as ->.
  destruct args as [|e' args]; cycle 1.
  { cbn in Hl. by apply obind_Good in Hl as (?&_&(?&_&?)%omap_out_Good). }
  assert (Ha : param_typed G a /\ param_dimensions a = 0%nat).
  { destruct Ht as (Hp&Hi&_).
    destruct a as [[]|[]|[]|[]]; try done; injection Hr as <- -> ->; done. }
  destruct Ha as [Hat Had]. specialize (Hargs c G a HG He Hat). rewrite Had in Hargs.
  destruct (reference_syntax _ _ _ _ _ _ He Hr) as [(id&->&_)|(id&ranges&->&_)];
    by econstructor.
Qed.

Lemma checker_sound :
  (forall e, expr_sound e) /\ (forall r, range_sound r) /\ (forall l, indices_sound l) /\
  (forall l, match l with more_exprs e no_exprs => expr_sound e | _ => True end).
Proof.
  apply ast_mind; try done.
  1-4: intros v c G o HG [= <-] _; constructor.
  - intros id c G o HG ([t p]&Hp%reference_Good&[= <-])%obind_Good _.
    destruct (make_reference_typed G t p no_indices) as (->&->&_);
      [eapply scope_placeholder; eauto; cbn; lia|done|].
    unfold reference_dimensions. cbn. rewrite Nat.sub_0_r. by constructor.
  - intros. by apply index_expr_sound.
  - intros op e He c G o HG (a&Ha&Ho)%obind_Good Ht.
    destruct (check_prefix_sound G _ _ _ Ho Ht) as ([Hat Had]&->&Hop).
    specialize (He c G a HG Ha Hat). rewrite Had in He. by econstructor.
  - intros l Hl op r Hr c G o HG (a&b&Ha&Hb&Ho)%both_Good Ht.
    destruct (check_arith_sound G _ _ _ _ Ho Ht) as ([Hat Had]&[Hbt Hbd]&->&Hop).
    specialize (Hl c G a HG Ha Hat). specialize (Hr c G b HG Hb Hbt).
    rewrite Had in Hl. rewrite Hbd in Hr. by econstructor.
  - intros l Hl op r Hr c G o HG (a&b&Ha&Hb&Ho)%both_Good Ht.
    destruct (check_relational_sound G _ _ _ _ Ho Ht) as ([Hat Had]&[Hbt Hbd]&->&Hop).
    specialize (Hl c G a HG Ha Hat). specialize (Hr c G b HG Hb Hbt).
    rewrite Had in Hl. rewrite Hbd in Hr. by econstructor.
  - intros l Hl op r Hr c G o HG (a&b&Ha&Hb&Ho)%both_Good Ht.
    destruct (check_logical_sound G _ _ _ _ Ho Ht) as ([Hat Had]&[Hbt Hbd]&->&Hop).
    specialize (Hl c G a HG Ha Hat). specialize (Hr c G b HG Hb Hbt).
    rewrite Had in Hl. rewrite Hbd in Hr. by econstructor.
  - intros. by apply loop_sound.
  - intros. by apply defined_sound.
  - intros. by apply single_sound.
  - intros. by apply full_sound.
  - intros c G k m HG [= <-] [= <-] _. split; [constructor|done].
  - intros. by apply more_sound.
  - intros e He [|] _; done.
Qed.


(** *** The example *)
Lemma ex_scope_typed : scope_typed ex_signature (ex_scope "").
Proof.
  split; [done|]. intros id t p. unfold lookup_object. cbn.
  intros [<- [= <- <-]]%lookup_singleton_Some. done.
Qed.

Lemma ex_loop_type : has_type (ex_scope "") ex_loop PInt 0.
Proof.
  apply (type_loop _ _ _ _ _ (loop_var_placeholder (ex_scope "") "i")
    (match push_loop_var (ex_scope "") "i" with Good (_, c) => c | _ => ex_scope "" end)
    1 PInt); [apply type_single|reflexivity| |reflexivity].
  - by apply (type_id _ _ PInt ex_n).
  - apply (type_arith _ _ _ _ PInt PInt); [|constructor|reflexivity].
    by apply (type_id _ _ PInt (loop_var_placeholder (ex_scope "") "i")).
Qed.

(** [!5 / 0] is a constant that has no value. *)
Definition ex_quotient (l r : expr) : expr := arith_expr l "/" r.

Lemma ex_quotient_type l r :
  has_type (ex_scope "") l PInt 0 -> has_type (ex_scope "") r PInt 0 ->
  has_type (ex_scope "") (ex_quotient l r) PInt 0.
Proof. intros. by apply (type_arith _ _ _ _ PInt PInt). Qed.

Lemma ex_bang_type n : has_type (ex_scope "") (ex_bang (token_int n)) PInt 0.
Proof. by apply (type_prefix _ _ _ PInt); [constructor|]. Qed.

