(* ===== verification/MetaLimits.v ===== *)
(** The limits of meta-parameter expressions: integer operators are exact
    within 64 bits and fail exactly where there is no result; a loop in a
    named namespace is accepted and then fails an assertion; the operator ['!']
    does different things to constants and to other integers. *)
From stdpp Require Import strings gmap.
From Stdlib Require Import Ascii Zquot Floats.SpecFloat.
From S2P Require Import Prelude MetaValue MetaExpr MetaExprProps MetaCheck MetaMeaning.
Open Scope Z_scope.

(** ** Integer operators *)

(** What an operator should give, in terms of unbounded integers. *)
Definition pint_denotes (o : pint_arith_op) (a b v : Z) : Prop :=
  match o with
  | adder => v = a + b
  | subtractor => v = a - b
  | multiplier => v = a * b
  | divider => exists r, a = b * v + r /\ Z.abs r < Z.abs b /\ 0 <= r * a
  | remainder => exists q, is_long q = true /\ a = b * q + v /\ Z.abs v < Z.abs b /\ 0 <= v * a
  | doubler => 0 <= b < 64 /\ exists k, a * 2 ^ b = v + k * 2 ^ 64
  | halver => 0 <= b < 64 /\ v * 2 ^ b <= a < (v + 1) * 2 ^ b
  | masker => forall n, 0 <= n -> Z.testbit v n = Z.testbit a n && Z.testbit b n
  | unmasker => forall n, 0 <= n -> Z.testbit v n = Z.testbit a n || Z.testbit b n
  | hasher => forall n, 0 <= n -> Z.testbit v n = xorb (Z.testbit a n) (Z.testbit b n)
  end.

Lemma is_long_bounds v : is_long v = true <-> LONG_MIN <= v <= LONG_MAX.
Proof. unfold is_long. rewrite andb_true_iff, !Z.leb_le. done. Qed.

(** A [long] is an integer whose bits from the 63rd on are its sign. *)
Lemma is_long_shift v : is_long v = true <-> Z.shiftr v 63 = 0 \/ Z.shiftr v 63 = -1.
Proof.
  rewrite is_long_bounds, Z.shiftr_div_pow2 by lia. unfold LONG_MIN, LONG_MAX.
  split; intros H.
  - destruct (decide (0 <= v)); [left; apply Z.div_small; lia|right].
    symmetry. apply (Z.div_unique _ _ _ (v + 2 ^ 63)); lia.
  - pose proof (Z.div_mod v (2 ^ 63)). pose proof (Z.mod_pos_bound v (2 ^ 63)). lia.
Qed.

Lemma long_land a b : is_long a = true -> is_long b = true -> is_long (Z.land a b) = true.
Proof.
  rewrite !is_long_shift, Z.shiftr_land. intros [-> | ->] [-> | ->]; cbn; auto.
Qed.
Lemma long_lor a b : is_long a = true -> is_long b = true -> is_long (Z.lor a b) = true.
Proof.
  rewrite !is_long_shift, Z.shiftr_lor. intros [-> | ->] [-> | ->]; cbn; auto.
Qed.
Lemma long_lxor a b : is_long a = true -> is_long b = true -> is_long (Z.lxor a b) = true.
Proof.
  rewrite !is_long_shift, Z.shiftr_lxor. intros [-> | ->] [-> | ->]; cbn; auto.
Qed.

Lemma long_of_bits_spec v :
  is_long (long_of_bits v) = true /\ exists k, v = long_of_bits v + k * 2 ^ 64.
Proof.
  unfold long_of_bits, wrap. rewrite is_long_bounds. unfold LONG_MIN, LONG_MAX.
  pose proof (Z.mod_pos_bound v (2 ^ 64)). pose proof (Z.div_mod v (2 ^ 64)).
  destruct (Z.leb_spec (2 ^ 63) (v mod 2 ^ 64)); (split; [lia|]).
  - exists (v / 2 ^ 64 + 1). lia.
  - exists (v / 2 ^ 64). lia.
Qed.

Lemma quot_denotes a b : b <> 0 -> pint_denotes divider a b (Z.quot a b).
Proof.
  intros Hb. exists (Z.rem a b). pose proof (Z.quot_rem' a b).
  pose proof (Z.rem_bound_abs a b Hb). pose proof (Z.rem_sign_mul a b Hb). done.
Qed.

Lemma remainder_of a b q r :
  a = b * q + r -> Z.abs r < Z.abs b -> 0 <= r * a -> Zquot.Remainder a b r.
Proof.
  unfold Zquot.Remainder. intros Ha Hr Hs. destruct (Z.lt_trichotomy a 0) as [H|[->|H]].
  - right. nia.
  - assert (q = 0) as -> by nia. left. lia.
  - left. nia.
Qed.

Lemma rem_unique a b q r : a = b * q + r -> Z.abs r < Z.abs b -> 0 <= r * a -> q = Z.quot a b.
Proof. intros. eapply Zquot_unique_full; [by eapply remainder_of|done]. Qed.

Lemma quot_unique a b v : pint_denotes divider a b v -> v = Z.quot a b.
Proof. intros (r&Ha&Hr&Hs). by eapply rem_unique. Qed.

(** [checked v] is [v], or undefined if it is no [long]. *)
Lemma checked_spec (P : Z -> Prop) (Q : Prop) v :
  P v -> (forall w, P w -> w = v) ->
  match checked v with
  | Good w => is_long w = true /\ P w
  | Throws => Q
  | Crash f => f = F_undef /\ ~ exists w, is_long w = true /\ P w
  | Bad => False
  end.
Proof.
  intros Hv Hu. unfold checked. destruct (is_long v) eqn:Hl; [done|]. split; [done|].
  intros (w&Hw&HP). apply Hu in HP as ->. congruence.
Qed.

Lemma shift_amount s : (0 <=? s) && (s <? 64) = true <-> 0 <= s < 64.
Proof. rewrite andb_true_iff, Z.leb_le, Z.ltb_lt. done. Qed.

(** C34: Integer operators are exact.  Applied to two [long]s, an operator
    gives the [long] that it denotes on unbounded integers (for [<<], modulo
    2^64); it throws just if it divides by zero, and its behaviour is
    undefined just if no [long] is denoted: the result does not fit, or bits
    are shifted by an amount outside of 0 to 63. *)
Theorem pint_arith_exact o a b :
  is_long a = true -> is_long b = true ->
  match pint_arith o a b with
  | Good v => is_long v = true /\ pint_denotes o a b v
  | Throws => (o = divider \/ o = remainder) /\ b = 0
  | Crash f => f = F_undef /\ ~ exists v, is_long v = true /\ pint_denotes o a b v
  | Bad => False
  end.
Proof.
  intros Ha Hb. destruct o; cbn [pint_arith].
  - by apply (checked_spec (pint_denotes adder a b)).
  - by apply (checked_spec (pint_denotes subtractor a b)).
  - by apply (checked_spec (pint_denotes multiplier a b)).
  - unfold divides, zerodiv_detect. destruct (Z.eqb_spec b 0); [auto|].
    apply (checked_spec (pint_denotes divider a b)); [by apply quot_denotes|].
    intros w. apply quot_unique.
  - unfold modulus, zerodiv_detect. destruct (Z.eqb_spec b 0); [auto|].
    destruct (is_long (Z.quot a b)) eqn:Hq; split; try done.
    + apply is_long_bounds in Hb. apply is_long_bounds. unfold LONG_MIN, LONG_MAX in *.
      pose proof (Z.rem_bound_abs a b n). lia.
    + exists (Z.quot a b). pose proof (Z.quot_rem' a b).
      pose proof (Z.rem_bound_abs a b n). pose proof (Z.rem_sign_mul a b n). done.
    + intros (v&_&q&Hql&?&?&?). rewrite (rem_unique a b q v) in Hql by done. congruence.
  - unfold shift_left. destruct (_ && _) eqn:Hs.
    + apply shift_amount in Hs. destruct (long_of_bits_spec (Z.shiftl a b)) as [Hl [k Hk]].
      split; [done|]. split; [done|]. exists k. by rewrite <- Z.shiftl_mul_pow2 by lia.
    + split; [done|]. intros (v&_&Hs'&_). apply shift_amount in Hs'. congruence.
  - unfold shift_right. destruct (_ && _) eqn:Hs.
    + apply shift_amount in Hs. rewrite Z.shiftr_div_pow2 by lia.
      assert (0 < 2 ^ b) by (apply Z.pow_pos_nonneg; lia).
      pose proof (Z.div_mod a (2 ^ b)). pose proof (Z.mod_pos_bound a (2 ^ b)).
      split; [|split; [done|nia]].
      apply is_long_bounds in Ha. apply is_long_bounds. unfold LONG_MIN, LONG_MAX in *.
      split; [apply Z.div_le_lower_bound|apply Z.div_le_upper_bound]; nia.
    + split; [done|]. intros (v&_&Hs'&_). apply shift_amount in Hs'. congruence.
  - split; [by apply long_land|]. intros n _. apply Z.land_spec.
  - split; [by apply long_lor|]. intros n _. apply Z.lor_spec.
  - split; [by apply long_lxor|]. intros n _. apply Z.lxor_spec.
Qed.

(** ** Loops in named namespaces *)
Lemma qualified_differs (p x : string) : p <> ""%string -> x <> p +:+ x.
Proof.
  intros Hp H. apply (f_equal String.length) in H.
  assert (Hlen : forall s t, String.length (s +:+ t) = (String.length s + String.length t)%nat).
  { induction s as [|ch s IH]; intros t; [done|]. exact (f_equal S (IH t)). }
  rewrite Hlen in H. destruct p; cbn in H; [done|lia].
Qed.

Lemma named_loop_asserts {A} c x i c' (body : Z -> outcome A) op a b :
  scope_prefix c <> ""%string -> push_loop_var c x = Good (i, c') -> a <= b ->
  loop_value i body op (a, b) = Crash F_assert.
Proof.
  intros Hp Hi Hab. unfold push_loop_var in Hi. case_match; [done|]. injection Hi as <- _.
  unfold loop_value. destruct (Z.ltb_spec b a); [lia|].
  unfold initialize_footprint. cbn. rewrite bool_decide_eq_false_2; [done|].
  by apply qualified_differs.
Qed.

(** Loops are unusable in named namespaces.  There, every loop expression
    that the type checker accepts fails an assertion when it is evaluated,
    however it is used, unless its range is empty or has no value. *)
Theorem loop_in_namespace_asserts op x bounds body c o uc a b :
  scope_prefix c <> ""%string ->
  check_meta_expr (loop_operation op x bounds body) c = Good o ->
  mean_loop_range bounds c uc = Good (a, b) -> a <= b ->
  unroll_resolve_value o uc = Crash F_assert.
Proof.
  intros Hp Ho Hr Hab. cbn [check_meta_expr] in Ho.
  apply obind_Good in Ho as (r&(j&Hj&Hx)%obind_Good&([i c']&Hi&(lo&Hlo&Ho)%obind_Good)%obind_Good).
  destruct (proj1 (proj2 checking_keeps_meaning) bounds c j Hj) as [_ Hm].
  pose proof (Hm r Hx uc) as E. rewrite Hr in E.
  assert (Hv : forall A f (k : Z -> outcome A) (g : A -> A -> outcome A),
    omap_out f (unroll_resolve_range r uc >>=o loop_value i k g) = Crash (A := const_param) F_assert).
  { intros A f k g. rewrite <- E. cbn [obind]. by rewrite (named_loop_asserts c x i c'). }
  destruct lo as [e|e|e|e]; cbn [check_loop] in Ho; try done.
  - case_match; [done|]. destruct (pint_op_map _); [|done]. injection Ho as <-. apply Hv.
  - destruct (pbool_op_map _); [|done]. injection Ho as <-. apply Hv.
Qed.

(** ** The operator ['!'] on integers *)

(** The operator ['!'] means two things.  A constant integer is negated
    as a truth value, any other one bit by bit, and the two disagree on every
    integer but -1. *)
Theorem bang_is_inconsistent op e c a o uc v :
  text_at op 0 = "!"%char -> check_meta_expr e c = Good (AnInt a) ->
  check_meta_expr (prefix_expr op e) c = Good o -> pint_unroll_resolve_value a uc = Good v ->
  unroll_resolve_value o uc =
    Good (CInt (if pint_is_static_constant a then if v =? 0 then 1 else 0 else Z.lnot v)) /\
  ((if v =? 0 then 1 else 0) = Z.lnot v <-> v = -1).
Proof.
  intros Hop Ha Ho Hv. cbn [check_meta_expr] in Ho. rewrite Ha in Ho. cbn [obind] in Ho.
  unfold check_prefix in Ho. rewrite Hop in Ho. cbn in Ho.
  split; [|destruct (Z.eqb_spec v 0); unfold Z.lnot; lia].
  unfold prefix_pint in Ho. destruct (pint_is_static_constant a) eqn:Hs.
  - rewrite (pint_constant a uc) in Hv by done. rewrite Hv in Ho. by injection Ho as <-.
  - apply omap_out_Good in Ho as (e'&(_&_&[= <-])%obind_Good&<-). cbn. by rewrite Hv.
Qed.

(** *** Examples *)
Lemma pint_arith_exact_witness :
  (is_long LONG_MIN = true /\ pint_arith divider LONG_MIN (-1) = Crash F_undef) /\
  ~ exists v, is_long v = true /\ pint_denotes divider LONG_MIN (-1) v.
Proof.
  split; [done|].
  exact (proj2 (pint_arith_exact divider LONG_MIN (-1) eq_refl eq_refl)).
Defined.

Lemma loop_in_namespace_asserts_witness :
  exists o, check_meta_expr ex_loop (ex_scope "ns::") = Good o /\
    unroll_resolve_value o (ex_context 5) = Crash F_assert.
Proof.
  eexists. split; [vm_compute; reflexivity|].
  eapply (loop_in_namespace_asserts "+" "i" ex_bounds ex_body (ex_scope "ns::"));
    [discriminate|vm_compute; reflexivity..|]. lia.
Defined.

Lemma bang_is_inconsistent_witness :
  (exists o, check_meta_expr (prefix_expr "!" (token_int 5)) (ex_scope "") = Good o /\
     unroll_resolve_value o (ex_context 5) = Good (CInt 0)) /\
  (exists o, check_meta_expr (prefix_expr "!" (id_expr "n")) (ex_scope "") = Good o /\
     unroll_resolve_value o (ex_context 5) = Good (CInt (-6))).
Proof.
  split; eexists; (split; [vm_compute; reflexivity|]).
  - exact (proj1 (bang_is_inconsistent "!" (token_int 5) (ex_scope "") (pint_const 5) _
      (ex_context 5) 5 eq_refl eq_refl eq_refl eq_refl)).
  - exact (proj1 (bang_is_inconsistent "!" (id_expr "n") (ex_scope "")
      (pint_value_reference ex_n no_indices) _ (ex_context 5) 5 eq_refl eq_refl eq_refl eq_refl)).
Defined.
