(* ===== verification/PrsExpr.v ===== *)
(** Expressions of production rules before they are unrolled: the classes of
    "Object/lang/PRS.hh" that derive from [prs_expr], with their [negate],
    [flip_literals] and [negation_normalize] of "Object/lang/PRS.cc", and the
    literals of "Object/lang/bool_literal.hh".

    Expressions are shared and one of the operations changes them in place: an
    operation that does returns both its result and the expression as it is
    afterwards.  References name a bool, or an internal node, of the definition
    itself; references to members are left out. *)
From stdpp Require Import strings gmap.
From S2P Require Import Prelude MetaValue MetaExpr.
Open Scope Z_scope.
#[local] Set Warnings "-register-all".

#[local] Abbreviation length := Datatypes.length.

(** ** References *)

(** A bool or an internal node that was declared. *)
Record instance_placeholder : Type := {
  ip_name : string;           (* with the namespace it belongs to *)
  ip_dimensions : nat
}.

#[export] Instance instance_placeholder_eq_dec : EqDecision instance_placeholder.
Proof. solve_decision. Defined.

Record generic_attribute : Type := mkAttribute {
  ga_key : string;
  ga_values : option (list param_expr)    (* NULL if there are none *)
}.

(** [bool_literal]: [negated] matters for an internal node only. *)
Inductive bool_literal : Type :=
  | bool_var (var : instance_placeholder) (indices : meta_index_list)
  | internal_node (int_node : instance_placeholder) (indices : meta_index_list) (negated : bool).

Definition is_internal (b : bool_literal) : bool :=
  match b with bool_var _ _ => false | internal_node _ _ _ => true end.

Definition negate_node (b : bool_literal) : bool_literal :=
  match b with bool_var _ _ => b | internal_node p i _ => internal_node p i true end.
Definition toggle_negate_node (b : bool_literal) : bool_literal :=
  match b with bool_var _ _ => b | internal_node p i n => internal_node p i (negb n) end.

Record literal : Type := mkLiteral {
  base_type : bool_literal;
  params : list param_expr;
  attr : list generic_attribute
}.

(** The constructor that takes a reference only. *)
Definition new_literal (b : bool_literal) : literal := mkLiteral b [] [].

(** ** Expressions

    The precharges of a conjunction are one fewer than its operands; each is
    an expression and the direction of its pull. *)
Inductive prs_expr : Type :=
  | literal_expr (l : literal)
  | not_expr (var : prs_expr)
  | and_expr (l : list prs_expr) (precharge_array : list (option (prs_expr * bool)))
  | or_expr (l : list prs_expr)
  | and_expr_loop (ind_var : value_placeholder) (range : meta_range_expr) (body_expr : prs_expr)
  | or_expr_loop (ind_var : value_placeholder) (range : meta_range_expr) (body_expr : prs_expr).

(** The expression of an element of [precharge_array]. *)
Definition precharge_all (P : prs_expr -> Prop) (p : option (prs_expr * bool)) : Prop :=
  match p with Some (e, _) => P e | None => True end.

Section Induction.
Context (P : prs_expr -> Prop).
Context (Hlit : forall l, P (literal_expr l)).
Context (Hnot : forall v, P v -> P (not_expr v)).
Context (Hand : forall l p, Forall P l -> Forall (precharge_all P) p -> P (and_expr l p)).
Context (Hor : forall l, Forall P l -> P (or_expr l)).
Context (Hand_loop : forall i r b, P b -> P (and_expr_loop i r b)).
Context (Hor_loop : forall i r b, P b -> P (or_expr_loop i r b)).

Fixpoint prs_expr_nested_ind (e : prs_expr) : P e :=
  let all := fix all (l : list prs_expr) : Forall P l :=
    match l with
    | [] => List.Forall_nil P
    | x :: l' => List.Forall_cons P x l' (prs_expr_nested_ind x) (all l')
    end in
  let all_p := fix all_p (l : list (option (prs_expr * bool))) : Forall (precharge_all P) l :=
    match l with
    | [] => List.Forall_nil _
    | x :: l' =>
        List.Forall_cons (precharge_all P) x l'
          (match x with Some (e, _) => prs_expr_nested_ind e | None => I end) (all_p l')
    end in
  match e with
  | literal_expr l => Hlit l
  | not_expr v => Hnot v (prs_expr_nested_ind v)
  | and_expr l p => Hand l p (all l) (all_p p)
  | or_expr l => Hor l (all l)
  | and_expr_loop i r b => Hand_loop i r b (prs_expr_nested_ind b)
  | or_expr_loop i r b => Hor_loop i r b (prs_expr_nested_ind b)
  end.
End Induction.

(** *** Building sequences

    [push_back] without a precharge; a sequence built by it alone. *)
Definition and_push_back (l : list prs_expr) (p : list (option (prs_expr * bool))) (e : prs_expr)
    : list prs_expr * list (option (prs_expr * bool)) :=
  (l ++ [e], match l with [] => p | _ => p ++ [None] end).
Definition and_push_back_precharge (l : list prs_expr) (p : list (option (prs_expr * bool)))
    (e : prs_expr) (c : option (prs_expr * bool)) : prs_expr :=
  and_expr (l ++ [e]) (p ++ [c]).
Definition and_push_front_precharge (l : list prs_expr) (p : list (option (prs_expr * bool)))
    (e : prs_expr) (c : option (prs_expr * bool)) : prs_expr :=
  and_expr (e :: l) (c :: p).
Definition and_copy (l : list prs_expr) (p : list (option (prs_expr * bool))) (es : list prs_expr)
    : prs_expr :=
  let '(l', p') := fold_left (fun lp e => and_push_back lp.1 lp.2 e) es (l, p) in and_expr l' p'.

(** ** Negation *)

(** [negation_normalize]: what it returns, NULL if nothing new, and the
    expression after it.  The loops drop what it returns for their body. *)
Fixpoint negation_normalize (e : prs_expr) : option prs_expr * prs_expr :=
  match e with
  | literal_expr _ => (None, e)
  | not_expr v =>
      match v with
      | not_expr w =>
          let '(temp, w') := negation_normalize w in
          (Some (default w' temp), not_expr (not_expr w'))
      | _ =>
          let '(temp, v') := negation_normalize v in
          (None, not_expr (default v' temp))
      end
  | and_expr l p =>
      (None, and_expr (map (fun x => let '(temp, x') := negation_normalize x in default x' temp) l) p)
  | or_expr l =>
      (None, or_expr (map (fun x => let '(temp, x') := negation_normalize x in default x' temp) l))
  | and_expr_loop i r b => (None, and_expr_loop i r (negation_normalize b).2)
  | or_expr_loop i r b => (None, or_expr_loop i r (negation_normalize b).2)
  end.

Definition literal_negate (l : literal) : prs_expr :=
  if is_internal (base_type l)
  then literal_expr (mkLiteral (toggle_negate_node (base_type l)) (params l) (attr l))
  else not_expr (literal_expr l).

(** [negate]: the negation, and the expression after it. *)
Fixpoint negate (e : prs_expr) : prs_expr * prs_expr :=
  match e with
  | literal_expr l => (literal_negate l, e)
  | not_expr v =>
      let '(temp, v') := negation_normalize v in
      (default v' temp, not_expr v')
  | and_expr l p =>
      let r := map negate l in (or_expr (map fst r), and_expr (map snd r) p)
  | or_expr l =>
      let r := map negate l in (and_copy [] [] (map fst r), or_expr (map snd r))
  | and_expr_loop i r b => let '(n, b') := negate b in (or_expr_loop i r n, and_expr_loop i r b')
  | or_expr_loop i r b => let '(n, b') := negate b in (and_expr_loop i r n, or_expr_loop i r b')
  end.

(** [flip_literals] *)
Fixpoint flip_literals (e : prs_expr) : prs_expr :=
  match e with
  | literal_expr l => literal_negate l
  | not_expr v =>
      let temp := flip_literals v in
      match temp with not_expr w => w | _ => not_expr temp end
  | and_expr l _ => and_copy [] [] (map flip_literals l)
  | or_expr l => or_expr (map flip_literals l)
  | and_expr_loop i r b => and_expr_loop i r (flip_literals b)
  | or_expr_loop i r b => or_expr_loop i r (flip_literals b)
  end.
