(* ===== verification/PrsFootprint.v ===== *)
(** Unrolling the expressions of production rules: the footprint that collects
    the rules of a definition ("Object/lang/PRS_footprint.hh" and its .cc), the
    attributes and parameters of literals and rules ("generic_attribute.tcc",
    "attribute_common.cc", "PRS_attribute_common.cc",
    "PRS_literal_attribute_common.cc", "directive_source.cc"), references to
    bools ("bool_literal.cc" and "Object/ref/meta_instance_reference_subtypes.tcc"),
    and the [unroll] of every class of expressions of "Object/lang/PRS.cc".

    What [unroll] returns is, as in the source, the index of the new expression
    from 1, or 0 if an error was reported.  The footprint of "ExprAlloc.v",
    with which the simulator starts, is what [resolved_prs] keeps of it. *)
From stdpp Require Import strings gmap.
From Stdlib Require Import Ascii.
From S2P Require Import Prelude MetaValue MetaExpr PrsExpr.
From S2P Require Import Expr ExprAlloc.
Open Scope Z_scope.
Local Open Scope hackt_scope.

#[local] Abbreviation length := Datatypes.length.

(** ** The footprint under construction *)

(** An attribute whose values could not be resolved has a NULL list. *)
Record resolved_attribute : Type := mkResolved {
  ra_key : string;
  ra_values : option (list const_param)
}.

Record expr_node : Type := mkNode {
  en_type : prs_enum;
  en_nodes : list nat;
  en_precharges : list (nat * (nat * bool));
  en_params : list const_param;
  en_attributes : list resolved_attribute
}.

Record rule_entry : Type := mkRuleEntry {
  re_expr_index : nat;
  re_output_index : nat;
  re_dir : bool;
  re_attributes : list resolved_attribute
}.

Record macro_entry : Type := mkMacroEntry {
  me_name : string;
  me_params : list const_param;
  me_attributes : list resolved_attribute;
  me_nodes : list (list nat)
}.

(** The text of a reference to an internal node: its name and its indices. *)
Abbreviation node_key := (string * list (Z * option Z))%type.

Record node_expr_type : Type := mkNodeExpr {
  ne_expr : nat;
  ne_dir : bool;
  ne_name : node_key;
  ne_attributes : list resolved_attribute
}.

(** Half-open ranges of indices in the pools. *)
Record resource_map_entry : Type := mkResources {
  rm_rules : nat * nat;
  rm_macros : nat * nat;
  rm_int_nodes : nat * nat
}.
Record subcircuit_map_entry : Type := mkSubcircuit { sc_name : string; sc_resources : resource_map_entry }.
Record supply_entry : Type := mkSupplyEntry {
  se_resources : resource_map_entry;
  se_Vdd : nat;
  se_GND : nat;
  se_Vdd_substrate : nat;
  se_GND_substrate : nat
}.
Record supplies : Type := mkSupplies { current_Vdd : nat; current_GND : nat; current_Vdd_substrate : nat; current_GND_substrate : nat }.
Definition no_supplies : supplies := mkSupplies 0 0 0 0.

Record footprint_prs : Type := mkFootprint {
  p_rule_pool : list rule_entry;
  p_expr_pool : list expr_node;
  p_macro_pool : list macro_entry;
  p_internal_node_pool : list node_expr_type;
  p_internal_node_expr_map : gmap node_key nat;
  p_subcircuit_map : list subcircuit_map_entry;
  p_supply_map : list supply_entry;
  p_current : supplies
}.
Definition footprint_empty : footprint_prs := mkFootprint [] [] [] [] ∅ [] [] no_supplies.

Definition set_rules (x : list rule_entry) (p : footprint_prs) : footprint_prs :=
  mkFootprint x (p_expr_pool p) (p_macro_pool p) (p_internal_node_pool p) (p_internal_node_expr_map p)
    (p_subcircuit_map p) (p_supply_map p) (p_current p).
Definition set_exprs (x : list expr_node) (p : footprint_prs) : footprint_prs :=
  mkFootprint (p_rule_pool p) x (p_macro_pool p) (p_internal_node_pool p) (p_internal_node_expr_map p)
    (p_subcircuit_map p) (p_supply_map p) (p_current p).
Definition set_macros (x : list macro_entry) (p : footprint_prs) : footprint_prs :=
  mkFootprint (p_rule_pool p) (p_expr_pool p) x (p_internal_node_pool p) (p_internal_node_expr_map p)
    (p_subcircuit_map p) (p_supply_map p) (p_current p).
Definition set_nodes (x : list node_expr_type) (m : gmap node_key nat) (p : footprint_prs) : footprint_prs :=
  mkFootprint (p_rule_pool p) (p_expr_pool p) (p_macro_pool p) x m (p_subcircuit_map p) (p_supply_map p) (p_current p).
Definition set_subcircuits (x : list subcircuit_map_entry) (p : footprint_prs) : footprint_prs :=
  mkFootprint (p_rule_pool p) (p_expr_pool p) (p_macro_pool p) (p_internal_node_pool p)
    (p_internal_node_expr_map p) x (p_supply_map p) (p_current p).
Definition set_supply_map (x : list supply_entry) (p : footprint_prs) : footprint_prs :=
  mkFootprint (p_rule_pool p) (p_expr_pool p) (p_macro_pool p) (p_internal_node_pool p)
    (p_internal_node_expr_map p) (p_subcircuit_map p) x (p_current p).
Definition set_current (x : supplies) (p : footprint_prs) : footprint_prs :=
  mkFootprint (p_rule_pool p) (p_expr_pool p) (p_macro_pool p) (p_internal_node_pool p)
    (p_internal_node_expr_map p) (p_subcircuit_map p) (p_supply_map p) x.

(** What the connections of a bool record, one entry per bool of the
    definition: [BOOL_ATOMIC], [BOOL_PORT_FORMAL_INPUT] and the four flags of
    local production rules. *)
Record bool_connect : Type := mkConnect {
  bc_atomic : bool;
  bc_input_port : bool;
  bc_fanin_up : bool;
  bc_fanin_dn : bool;
  bc_fanout_up : bool;
  bc_fanout_dn : bool
}.
Definition or_fanin (dir : bool) (b : bool_connect) : bool_connect :=
  mkConnect (bc_atomic b) (bc_input_port b) (bc_fanin_up b || dir) (bc_fanin_dn b || negb dir)
    (bc_fanout_up b) (bc_fanout_dn b).
Definition or_fanout (dir : bool) (b : bool_connect) : bool_connect :=
  mkConnect (bc_atomic b) (bc_input_port b) (bc_fanin_up b) (bc_fanin_dn b)
    (bc_fanout_up b || dir) (bc_fanout_dn b || negb dir).

(** The part of the target footprint that unrolling changes. *)
Record target : Type := mkTarget { t_prs : footprint_prs; t_bools : list bool_connect }.
Definition set_prs (f : footprint_prs -> footprint_prs) (t : target) : target := mkTarget (f (t_prs t)) (t_bools t).
Definition set_bools (f : list bool_connect -> list bool_connect) (t : target) : target :=
  mkTarget (t_prs t) (f (t_bools t)).

Abbreviation UM := (M target).
Definition upd_prs (f : footprint_prs -> footprint_prs) : UM unit := modify (set_prs f).
Definition get_prs : UM footprint_prs := gets t_prs.

(** A value that may be missing because of an error that was reported; an
    exception that nothing catches ends the program. *)
Definition lift_outcome {S A} (o : outcome A) : M S (option A) :=
  match o with
  | Good a => ret (Some a)
  | Bad => ret None
  | Throws => fail F_exit
  | Crash f => fail f
  end.
(** [std::transform]: every element, also after an error. *)
Section Collect.
Context {S A B : Type} (body : A -> M S B).

Fixpoint collect (l : list A) : M S (list B) :=
  match l with
  | [] => ret []
  | x :: l' => y <- body x ;; ys <- collect l' ;; ret (y :: ys)
  end.
End Collect.

(** *** Its operations *)
Definition push_back_expr (t : prs_enum) (nodes : list nat) : UM nat :=
  upd_prs (fun p => set_exprs (p_expr_pool p ++ [mkNode t nodes [] [] []]) p) ;;;
  p <- get_prs ;; ret (length (p_expr_pool p)).
Definition push_back_rule (e o : nat) (d : bool) (a : list resolved_attribute) : UM unit :=
  upd_prs (fun p => set_rules (p_rule_pool p ++ [mkRuleEntry e o d a]) p).
(** [expr_pool[eid]], from 1. *)
Definition upd_expr_node (eid : nat) (f : expr_node -> expr_node) : UM unit :=
  match eid with
  | O => fail F_index
  | S k =>
      p <- get_prs ;;
      e <- of_option F_index (p_expr_pool p !! k) ;;
      upd_prs (fun p => set_exprs (<[k := f e]> (p_expr_pool p)) p)
  end.
Definition push_back_precharge (i e : nat) (d : bool) (n : expr_node) : expr_node :=
  mkNode (en_type n) (en_nodes n) (en_precharges n ++ [(i, (e, d))]) (en_params n) (en_attributes n).
Definition set_en_params (x : list const_param) (n : expr_node) : expr_node :=
  mkNode (en_type n) (en_nodes n) (en_precharges n) x (en_attributes n).
Definition set_en_attributes (x : list resolved_attribute) (n : expr_node) : expr_node :=
  mkNode (en_type n) (en_nodes n) (en_precharges n) (en_params n) x.
(** [first_node_error], as a test. *)
Definition any_node_error (l : list nat) : bool := existsb (Nat.eqb 0) l.

(** [register_internal_node_expr], with the attributes of the node. *)
Definition register_internal_node_expr (k : node_key) (eid : nat) (dir : bool) (a : list resolved_attribute)
    : UM bool :=
  p <- get_prs ;;
  match p_internal_node_expr_map p !! k with
  | Some _ => ret false
  | None =>
      upd_prs (fun p => set_nodes (p_internal_node_pool p ++ [mkNodeExpr eid dir k a])
                         (<[k := length (p_internal_node_pool p)]> (p_internal_node_expr_map p)) p) ;;;
      ret true
  end.
(** [lookup_internal_node_expr]; its exceptions are caught by the caller. *)
Definition lookup_internal_node_expr (p : footprint_prs) (k : node_key) (dir : bool) : outcome nat :=
  match p_internal_node_expr_map p !! k with
  | None => Throws
  | Some i =>
      match p_internal_node_pool p !! i with
      | None => Crash F_index
      | Some n => if Bool.eqb (ne_dir n) dir then Good (ne_expr n) else Throws
      end
  end.

(** [collect_literal_indices], as a list with duplicates; the fuel is the
    depth. *)
Fixpoint collect_literal_indices (p : footprint_prs) (fuel ei : nat) : option (list nat) :=
  match fuel with
  | O => None
  | S fuel' =>
      e ← pool_at (p_expr_pool p) ei;
      match en_type e with
      | PRS_LITERAL_TYPE_ENUM => n ← en_nodes e !! 0%nat; Some [n]
      | PRS_NODE_TYPE_ENUM => Some []
      | _ => mjoin <$> mapM (collect_literal_indices p fuel') (en_nodes e)
      end
  end.

(** ** Attributes *)
Definition is_pint_const (v : const_param) : bool := match v with CInt _ => true | _ => false end.

Definition check_optional_integer (v : list const_param) : bool :=
  match v with [] => true | [x] => is_pint_const x | _ => false end.
Definition check_single_integer (v : list const_param) : bool :=
  match v with [x] => is_pint_const x | _ => false end.
Definition check_single_real (v : list const_param) : bool :=
  match v with [CReal _] | [CInt _] => true | _ => false end.
Definition check_delay_value (v : list const_param) : bool :=
  match v with [CInt d] => 0 <=? d | _ => false end.
Definition check_single_string (v : list const_param) : bool :=
  match v with [CString _] => true | _ => false end.

(** The registered attributes of rules and of literals; [output] is refused
    whatever its values are. *)
Definition cflat_rule_attribute_registry (k : string) : option (list const_param -> bool) :=
  if existsb (String.eqb k) ["after"; "after_min"; "after_max"]%string then Some check_delay_value
  else if existsb (String.eqb k) ["W"; "L"; "loadcap"; "N_reff"; "P_reff"]%string then Some check_single_real
  else if existsb (String.eqb k) ["comb"; "keeper"]%string then Some check_single_integer
  else if existsb (String.eqb k) ["hvt"; "lvt"; "svt"; "always_random"; "weak"; "unstab"; "iskeeper";
      "isckeeper"; "diode"; "res"]%string then Some check_optional_integer
  else if String.eqb k "output" then Some (fun _ => false)
  else None.
Definition cflat_literal_attribute_registry (k : string) : option (list const_param -> bool) :=
  if String.eqb k "label" then Some check_single_string
  else if existsb (String.eqb k) ["lvt"; "svt"; "hvt"]%string then Some check_optional_integer
  else None.

(** [directive_source_common::unroll_params] tries all values; the values of an
    attribute are resolved up to the first error. *)
Fixpoint unroll_params (l : list param_expr) (c : unroll_context) : outcome (list const_param) :=
  match l with
  | [] => Good []
  | e :: l' => both (unroll_resolve_rvalues e c) (unroll_params l' c) (fun v vs => Good (v :: vs))
  end.
Fixpoint unroll_values (l : list param_expr) (c : unroll_context) : outcome (list const_param) :=
  match l with
  | [] => Good []
  | e :: l' => unroll_resolve_rvalues e c >>=o fun v => unroll_values l' c >>=o fun vs => Good (v :: vs)
  end.

(** An attribute whose values cannot be resolved is checked as if it had
    none, and kept if that is allowed. *)
Definition unroll_check_attribute (registry : string -> option (list const_param -> bool)) (c : unroll_context)
    (a : generic_attribute) : outcome resolved_attribute :=
  match registry (ga_key a) with
  | None => Bad
  | Some check =>
      match ga_values a with
      | None => Good (mkResolved (ga_key a) None)
      | Some es =>
          match unroll_values es c with
          | Good vs => if check vs then Good (mkResolved (ga_key a) (Some vs)) else Bad
          | Bad => if check [] then Good (mkResolved (ga_key a) None) else Bad
          | Throws => Throws
          | Crash f => Crash f
          end
      end
  end.
Fixpoint unroll_check_attributes (registry : string -> option (list const_param -> bool)) (c : unroll_context)
    (l : list generic_attribute) : outcome (list resolved_attribute) :=
  match l with
  | [] => Good []
  | a :: l' =>
      unroll_check_attribute registry c a >>=o fun r =>
      unroll_check_attributes registry c l' >>=o fun rs => Good (r :: rs)
  end.

(** ** References *)

(** A collection of bools of the footprint: the indices of its bools, from 1. *)
Inductive bool_collection : Type :=
  | bool_scalar (index : option nat)
  | bool_array (D : nat) (collection : gmap (list Z) nat).

Section Target.
Context (bools : gmap string bool_collection).

(** [unroll_base]: that the reference is scalar was checked; one that is not
    is taken to fail the assertion here. *)
Definition node_index_of (i : nat) : outcome nat := invariant (negb (Nat.eqb i 0)) >>=o fun _ => Good i.
Definition unroll_base (var : instance_placeholder) (indices : meta_index_list) (c : unroll_context) : outcome nat :=
  match bools !! ip_name var with
  | None => Crash F_assert
  | Some (bool_scalar None) => Bad
  | Some (bool_scalar (Some i)) => node_index_of i
  | Some (bool_array D m) =>
      match indices with
      | no_indices => Crash F_assert
      | _ =>
          unroll_resolve_indices indices c >>=o fun cil =>
          if (D =? length cil)%nat && forallb is_ci_int cil then
            let k := lower_multikey cil in
            if forallb (Z.leb 0) k then match m !! k with Some i => node_index_of i | None => Bad end else Bad
          else Crash F_assert
      end
  end.

Definition key_of_index (i : const_index) : Z * option Z :=
  match i with ci_int v => (v, None) | ci_range a b => (a, Some b) end.
(** [unroll_node_reference], then its text. *)
Definition unroll_node_reference (p : instance_placeholder) (indices : meta_index_list) (c : unroll_context)
    : outcome node_key :=
  unroll_resolve_indices indices c >>=o fun cil => Good (ip_name p, key_of_index <$> cil).

(** [footprint::lookup_implicit_bool_port] *)
Definition lookup_implicit_bool_port (s : string) : outcome nat :=
  match bools !! s with Some (bool_scalar (Some i)) => Good i | _ => Crash F_assert end.

(** *** Connections of a bool, by its index from 1 *)
Definition upd_bool (i : nat) (f : bool_connect -> bool_connect) : UM bool_connect :=
  match i with
  | O => fail F_index
  | S k =>
      bs <- gets t_bools ;;
      b <- of_option F_index (bs !! k) ;;
      modify (set_bools (<[k := f b]>)) ;;;
      ret (f b)
  end.
Definition nonatomic_only_prs_literal (i : nat) : UM unit :=
  bs <- gets t_bools ;;
  b <- of_option F_index (pool_at bs i) ;;
  require F_exit (negb (bc_atomic b)).
Definition prs_fanin (i : nat) (dir : bool) : UM bool :=
  nonatomic_only_prs_literal i ;;;
  b <- upd_bool i (or_fanin dir) ;;
  ret (negb (bc_input_port b)).
Definition prs_fanout (i : nat) (dir : bool) : UM unit :=
  nonatomic_only_prs_literal i ;;;
  _ <- upd_bool i (or_fanout dir) ;;
  ret tt.

(** ** Unrolling expressions *)

(** The reference of a literal, as a new expression; then its parameters and
    attributes.  After an error, the expression is left as it was. *)
Definition unroll_reference (b : bool_literal) (c : unroll_context) : UM nat :=
  match b with
  | internal_node p i negated =>
      k <- lift_outcome (unroll_node_reference p i c) ;;
      match k with
      | None => ret 0%nat
      | Some k =>
          pfp <- get_prs ;;
          match lookup_internal_node_expr pfp k (negb negated) with
          | Good g => push_back_expr PRS_NODE_TYPE_ENUM [g]
          | Bad | Throws => ret 0%nat
          | Crash f => fail f
          end
      end
  | bool_var var i =>
      n <- lift_outcome (unroll_base var i c) ;;
      match n with
      | None => ret 0%nat
      | Some n => push_back_expr PRS_LITERAL_TYPE_ENUM [n]
      end
  end.
Definition unroll_literal (l : literal) (c : unroll_context) : UM nat :=
  new_expr <- unroll_reference (base_type l) c ;;
  if (new_expr =? 0)%nat then ret 0%nat
  else
    ps <- lift_outcome (unroll_params (params l) c) ;;
    match ps with
    | None => ret 0%nat
    | Some ps =>
        upd_expr_node new_expr (set_en_params ps) ;;;
        require F_assert (length (params l) <=? 2)%nat ;;;
        rs <- lift_outcome (unroll_check_attributes cflat_literal_attribute_registry c (attr l)) ;;
        match rs with
        | None => ret 0%nat
        | Some rs => upd_expr_node new_expr (set_en_attributes rs) ;;; ret new_expr
        end
    end.

(** The new expression around its operands, which may have failed. *)
Definition push_back_Nary (t : prs_enum) (ixs : list nat) : UM nat :=
  n <- push_back_expr t ixs ;; ret (if any_node_error ixs then 0%nat else n).

Definition expr_count_max : Z := 2 ^ 16 - 1.
(** The values of a loop variable; it is incremented past the last one. *)
Definition loop_range (min max : Z) : list Z := seqZ min (max - min + 1).

Section Loop.
Context (unroll_body : unroll_context -> UM nat).

(** [expr_loop_base::unroll_base] *)
Definition unroll_expr_loop (t : prs_enum) (i : value_placeholder) (r : meta_range_expr) (c : unroll_context)
    : UM nat :=
  cr <- lift_outcome (unroll_resolve_range r c) ;;
  match cr with
  | None => ret 0%nat
  | Some (min, max) =>
      if max <? min then ret 0%nat
      else if expr_count_max <? max - min then
        (* the difference is taken in 64 bits *)
        require F_undef (is_long (max - min)) ;;; ret 0%nat
      else
        _ <- lift_outcome (initialize_footprint i) ;;
        ixs <- collect (fun v => unroll_body (loop_context i c v)) (loop_range min max) ;;
        require F_undef (negb (max =? LONG_MAX)) ;;;
        push_back_Nary t ixs
  end.
End Loop.

(** [precharge_expr::unroll] for all precharges of expression [eid]; [j] is
    the position of the first one. *)
Section Precharges.
Context (rec : prs_expr -> UM nat) (eid : nat).

Fixpoint unroll_precharges (ps : list (option (prs_expr * bool))) (j : nat) : UM bool :=
  match ps with
  | [] => ret true
  | None :: ps' => unroll_precharges ps' (S j)
  | Some (e, dir) :: ps' =>
      p <- rec e ;;
      if (p =? 0)%nat then ret false
      else
        upd_expr_node eid (push_back_precharge j p dir) ;;;
        unroll_precharges ps' (S j)
  end.
End Precharges.

Fixpoint unroll (e : prs_expr) (c : unroll_context) {struct e} : UM nat :=
  match e with
  | literal_expr l => unroll_literal l c
  | not_expr v =>
      n <- unroll v c ;;
      if (n =? 0)%nat then ret 0%nat else push_back_expr PRS_NOT_EXPR_TYPE_ENUM [n]
  | and_expr l ps =>
      ixs <- collect (fun x => unroll x c) l ;;
      n <- push_back_Nary PRS_AND_EXPR_TYPE_ENUM ixs ;;
      if (n =? 0)%nat then ret 0%nat
      else
        ok <- unroll_precharges (fun x => unroll x c) n ps 0 ;;
        ret (if (ok : bool) then n else 0%nat)
  | or_expr l =>
      ixs <- collect (fun x => unroll x c) l ;;
      push_back_Nary PRS_OR_EXPR_TYPE_ENUM ixs
  | and_expr_loop i r b => unroll_expr_loop (unroll b) PRS_AND_EXPR_TYPE_ENUM i r c
  | or_expr_loop i r b => unroll_expr_loop (unroll b) PRS_OR_EXPR_TYPE_ENUM i r c
  end.
End Target.

(** ** What the simulator starts with

    Parameters of literals, precharges, subcircuits and substrates are for
    netlists. *)
Definition resolved_expr (e : expr_node) : footprint_expr_node := mkFExpr (en_type e) (en_nodes e).
Definition resolved_value (v : const_param) : option Z := match v with CInt v => Some v | _ => None end.
Definition resolved_attributes (l : list resolved_attribute) : list (string * list Z) :=
  map (fun a => (ra_key a, omap resolved_value (default [] (ra_values a)))) l.
Definition resolved_rule (r : rule_entry) : footprint_rule :=
  mkFRule (re_expr_index r) (re_output_index r) (re_dir r) (resolved_attributes (re_attributes r)).
Definition resolved_macro (m : macro_entry) : footprint_macro := mkFMacro (me_name m) (me_nodes m).
Definition resolved_supply (s : supply_entry) : supply_override_entry :=
  mkSupply (rm_rules (se_resources s)).1 (rm_int_nodes (se_resources s)).1 (se_Vdd s) (se_GND s).
Definition resolved_prs (p : footprint_prs) : prs_footprint :=
  mkPRS (map resolved_rule (p_rule_pool p)) (map resolved_expr (p_expr_pool p)) (map resolved_macro (p_macro_pool p))
    (map (fun n => (ne_expr n, ne_dir n)) (p_internal_node_pool p)) [] (map resolved_supply (p_supply_map p)).
