(* ===== verification/PrsRules.v ===== *)
(** Production rules and the bodies that hold them: the classes of
    "Object/lang/PRS.hh" that derive from [rule], how a body grows
    ([append_rule], [expand_complement]) and how it is unrolled into the
    footprint of its definition ("Object/lang/PRS.cc", with "meta_loop.tcc" and
    "meta_conditional.tcc" of "Object/unroll").

    What [unroll] returns is the [good_bool] of the source: false if an error
    was reported.  Arguments of macros are references to single bools. *)
From stdpp Require Import strings gmap.
From S2P Require Import Prelude MetaValue MetaExpr PrsExpr PrsFootprint.
From S2P Require Import Expr OrdMap ExprAlloc.
Open Scope Z_scope.
Local Open Scope hackt_scope.
#[local] Set Warnings "-register-all".

#[local] Abbreviation length := Datatypes.length.

Inductive arrow : Set := ARROW_NORMAL | ARROW_COMPLEMENT | ARROW_FLIP.

(** [pull dir] is [pull_up] or [pull_dn]. *)
Inductive rule : Type :=
  | pull (dir : bool) (guard : prs_expr) (output : bool_literal) (arrow_type : arrow)
      (attributes : list generic_attribute)
  | macro (name : string) (mparams : list param_expr) (mattr : list generic_attribute)
      (nodes : list (list bool_literal))
  | rule_loop (ind_var : value_placeholder) (range : meta_range_expr) (rules : list rule)
  | rule_conditional (clauses : list (option pbool_expr * list rule))
  | subcircuit (name : string) (rules : list rule)
  | rule_set (Vdd GND Vdd_substrate GND_substrate : option bool_literal) (rules : list rule).

Section Induction.
Context (P : rule -> Prop).
Context (Hpull : forall d g o a l, P (pull d g o a l)).
Context (Hmacro : forall n p a l, P (macro n p a l)).
Context (Hloop : forall i r l, Forall P l -> P (rule_loop i r l)).
Context (Hcond : forall l, Forall (fun c => Forall P c.2) l -> P (rule_conditional l)).
Context (Hsub : forall n l, Forall P l -> P (subcircuit n l)).
Context (Hset : forall v g vs gs l, Forall P l -> P (rule_set v g vs gs l)).

Fixpoint rule_nested_ind (r : rule) : P r :=
  let all := fix all (l : list rule) : Forall P l :=
    match l with
    | [] => List.Forall_nil P
    | x :: l' => List.Forall_cons P x l' (rule_nested_ind x) (all l')
    end in
  match r with
  | pull d g o a l => Hpull d g o a l
  | macro n p a l => Hmacro n p a l
  | rule_loop i r l => Hloop i r l (all l)
  | rule_conditional l =>
      Hcond l ((fix clauses (l : list (option pbool_expr * list rule)) : Forall (fun c => Forall P c.2) l :=
        match l with
        | [] => List.Forall_nil _
        | (_, x) as c :: l' => List.Forall_cons (fun c => Forall P c.2) c l' (all x) (clauses l')
        end) l)
  | subcircuit n l => Hsub n l (all l)
  | rule_set v g vs gs l => Hset v g vs gs l (all l)
  end.
End Induction.

(** ** Complements *)

(** [rule_set_base::expand_complements]: a complement goes before its rule. *)
Definition expand_complements_with (rec : rule -> option rule * rule) (l : list rule) : list rule :=
  l ≫= fun r => let '(cmpl, r') := rec r in match cmpl with Some c => [c; r'] | None => [r'] end.

(** [expand_complement]: the complement, NULL if there is none, and the rule
    after it, whose arrow is normal then. *)
Fixpoint expand_complement (r : rule) : option rule * rule :=
  match r with
  | pull dir g o ARROW_COMPLEMENT l =>
      let '(n, g') := negate g in
      (Some (pull (negb dir) n o ARROW_NORMAL l), pull dir g' o ARROW_NORMAL l)
  | pull dir g o ARROW_FLIP l =>
      (Some (pull (negb dir) (flip_literals g) o ARROW_NORMAL l), pull dir g o ARROW_NORMAL l)
  | pull _ _ _ ARROW_NORMAL _ | macro _ _ _ _ => (None, r)
  | rule_loop i rg l => (None, rule_loop i rg (expand_complements_with expand_complement l))
  | rule_conditional cs =>
      (None, rule_conditional (map (fun c => (c.1, expand_complements_with expand_complement c.2)) cs))
  | subcircuit n l => (None, subcircuit n (expand_complements_with expand_complement l))
  | rule_set v g vs gs l => (None, rule_set v g vs gs (expand_complements_with expand_complement l))
  end.

(** [append_rule]: a complement goes behind its rule. *)
Definition append_rule (body : list rule) (r : rule) : list rule :=
  let '(cmpl, r') := expand_complement r in
  body ++ r' :: match cmpl with Some c => [c] | None => [] end.

(** ** Unrolling *)
Section Target.
Context (bools : gmap string bool_collection).

(** The last [diode] attribute decides. *)
Definition diode_value (a : resolved_attribute) : outcome bool :=
  match ra_values a with
  | Some (CInt v :: _) => Good (negb (v =? 0))
  | Some (_ :: _) => Crash F_assert
  | _ => Good true
  end.
Fixpoint is_diode (l : list resolved_attribute) (last : bool) : outcome bool :=
  match l with
  | [] => Good last
  | a :: l' => if String.eqb (ra_key a) "diode" then diode_value a >>=o is_diode l' else is_diode l' last
  end.

Definition literal_indices (guard : nat) : UM (list nat) :=
  p <- get_prs ;;
  l <- of_option F_fuel (collect_literal_indices p (S (length (p_expr_pool p))) guard) ;;
  ret (s_of_list l).

Definition output_node (o : bool_literal) (c : unroll_context) : outcome nat :=
  match o with bool_var var i => unroll_base bools var i c | internal_node _ _ _ => Crash F_assert end.

(** The two branches of [pull_base::unroll_base] after the guard and the
    attributes: the definition of an internal node, and a rule proper. *)
Definition unroll_internal_node (p : instance_placeholder) (i : meta_index_list) (guard : nat) (dir : bool)
    (r_attr : list resolved_attribute) (c : unroll_context) : UM bool :=
  nref <- lift_outcome (unroll_node_reference p i c) ;;
  match nref with
  | None => ret false
  | Some k => register_internal_node_expr k guard dir r_attr
  end.
Definition unroll_driver (o : bool_literal) (guard : nat) (dir : bool) (r_attr : list resolved_attribute)
    (c : unroll_context) : UM bool :=
  n <- lift_outcome (output_node o c) ;;
  match n with
  | None => ret false
  | Some n =>
      d <- lift_outcome (is_diode r_attr false) ;;
      d <- of_option F_assert d ;;
      fig <- (if (d : bool) then ret true else prs_fanin n dir) ;;
      f <- literal_indices guard ;;
      for_each f (fun i => prs_fanout i dir) ;;;
      if (fig : bool) then push_back_rule guard n dir r_attr ;;; ret true else ret false
  end.
Definition unroll_pull (dir : bool) (g : prs_expr) (o : bool_literal) (attributes : list generic_attribute)
    (c : unroll_context) : UM bool :=
  guard <- unroll bools g c ;;
  if (guard =? 0)%nat then ret false
  else
    r_attr <- lift_outcome (unroll_check_attributes cflat_rule_attribute_registry c attributes) ;;
    match r_attr with
    | None => ret false
    | Some r_attr =>
        match o with
        | internal_node p i _ => unroll_internal_node p i guard dir r_attr c
        | bool_var _ _ => unroll_driver o guard dir r_attr c
        end
    end.

(** *** Macros *)
Fixpoint unroll_group (l : list bool_literal) (c : unroll_context) : outcome (list nat) :=
  match l with
  | [] => Good []
  | b :: l' => output_node b c >>=o fun n => unroll_group l' c >>=o fun ns => Good (n :: ns)
  end.
(** The bools of a group, each once. *)
Fixpoint unroll_nodes (l : list (list bool_literal)) (c : unroll_context) : outcome (list (list nat)) :=
  match l with
  | [] => Good []
  | g :: l' =>
      unroll_group g c >>=o fun ns =>
      invariant (negb (length ns =? 0)%nat) >>=o fun _ =>
      unroll_nodes l' c >>=o fun nss => Good (s_of_list ns :: nss)
  end.
Definition upd_last_macro (f : macro_entry -> macro_entry) : UM unit :=
  p <- get_prs ;;
  let k := Nat.pred (length (p_macro_pool p)) in
  m <- of_option F_index (p_macro_pool p !! k) ;;
  upd_prs (fun p => set_macros (<[k := f m]> (p_macro_pool p)) p).
Definition first_node (l : list (list nat)) (k : nat) : option nat := g ← l !! k; g !! 0%nat.
(** Pass gates count as fanin and fanout; that the drain is an input port is
    reported, and not an error here. *)
Definition connect_pass_gate (name : string) (nodes : list (list nat)) : UM unit :=
  when (String.eqb name "passn" || String.eqb name "passp")
    (g <- of_option F_index (first_node nodes 0) ;;
     s <- of_option F_index (first_node nodes 1) ;;
     d <- of_option F_index (first_node nodes 2) ;;
     let dir := negb (String.eqb name "passn") in
     prs_fanout g dir ;;;
     prs_fanout s dir ;;;
     _ <- prs_fanin d dir ;;
     ret tt).
Definition unroll_macro (name : string) (mparams : list param_expr) (mattr : list generic_attribute)
    (nodes : list (list bool_literal)) (c : unroll_context) : UM bool :=
  upd_prs (fun p => set_macros (p_macro_pool p ++ [mkMacroEntry name [] [] []]) p) ;;;
  ps <- lift_outcome (unroll_params mparams c) ;;
  match ps with
  | None => ret false
  | Some ps =>
      upd_last_macro (fun m => mkMacroEntry (me_name m) ps (me_attributes m) (me_nodes m)) ;;;
      rs <- lift_outcome (unroll_check_attributes cflat_literal_attribute_registry c mattr) ;;
      match rs with
      | None => ret false
      | Some rs =>
          upd_last_macro (fun m => mkMacroEntry (me_name m) (me_params m) rs (me_nodes m)) ;;;
          ns <- lift_outcome (unroll_nodes nodes c) ;;
          match ns with
          | None => ret false
          | Some ns =>
              upd_last_macro (fun m => mkMacroEntry (me_name m) (me_params m) (me_attributes m) ns) ;;;
              connect_pass_gate name ns ;;;
              ret true
          end
      end
  end.

(** *** Bodies *)
Section Bodies.
Context {X : Type} (unroll_one : X -> UM bool).

(** [rule_set_base::unroll]: up to the first error. *)
Fixpoint unroll_all (l : list X) : UM bool :=
  match l with
  | [] => ret true
  | r :: l' => ok <- unroll_one r ;; if (ok : bool) then unroll_all l' else ret false
  end.
End Bodies.

(** [meta_loop::unroll]: an empty range is no error. *)
Definition unroll_rule_loop (body : unroll_context -> UM bool) (i : value_placeholder) (r : meta_range_expr)
    (c : unroll_context) : UM bool :=
  cr <- lift_outcome (unroll_resolve_range r c) ;;
  match cr with
  | None => ret false
  | Some (min, max) =>
      if max <? min then ret true
      else
        _ <- lift_outcome (initialize_footprint i) ;;
        ok <- unroll_all (fun v => body (loop_context i c v)) (loop_range min max) ;;
        if (ok : bool) then require F_undef (negb (max =? LONG_MAX)) ;;; ret true else ret false
  end.

(** [meta_conditional::unroll]: the first clause whose guard holds, if any. *)
Section Conditional.
Context (body : list rule -> UM bool) (c : unroll_context).

Fixpoint unroll_clauses (l : list (option pbool_expr * list rule)) : UM bool :=
  match l with
  | [] => ret true
  | (None, rs) :: _ => body rs
  | (Some g, rs) :: l' =>
      b <- lift_outcome (pbool_unroll_resolve_rvalue g c) ;;
      match b with
      | None => ret false
      | Some true => body rs
      | Some false => unroll_clauses l'
      end
  end.
End Conditional.

Definition resources_of (p : footprint_prs) : nat * nat * nat :=
  (length (p_rule_pool p), length (p_macro_pool p), length (p_internal_node_pool p)).
Definition resources_from (a b : nat * nat * nat) : resource_map_entry :=
  mkResources (a.1.1, b.1.1) (a.1.2, b.1.2) (a.2, b.2).
(** The ends of the last entry of the supply map. *)
Definition supplied (p : footprint_prs) : nat * nat * nat :=
  match last (p_supply_map p) with
  | Some e => ((rm_rules (se_resources e)).2, (rm_macros (se_resources e)).2, (rm_int_nodes (se_resources e)).2)
  | None => (0, 0, 0)%nat
  end.

(** [subcircuit::unroll]; [lock] is its static variable. *)
Definition unroll_subcircuit (body : UM bool) (lock : bool) (name : string) : UM bool :=
  if lock then ret false
  else
    p <- get_prs ;;
    ok <- body ;;
    upd_prs (fun q => set_subcircuits
      (p_subcircuit_map q ++ [mkSubcircuit name (resources_from (resources_of p) (resources_of q))]) q) ;;;
    ret ok.

(** One supply of a rule set: the reference that overrides it, or the default. *)
Definition supply_of (o : option bool_literal) (dflt : outcome nat) (c : unroll_context) : outcome nat :=
  match o with Some b => output_node b c | None => dflt end.
Definition supplies_of (Vdd GND Vdd_substrate GND_substrate : option bool_literal) (c : unroll_context)
    : outcome supplies :=
  supply_of Vdd (lookup_implicit_bool_port bools "!Vdd") c >>=o fun v =>
  supply_of GND (lookup_implicit_bool_port bools "!GND") c >>=o fun g =>
  invariant (negb (v =? 0)%nat && negb (g =? 0)%nat) >>=o fun _ =>
  supply_of Vdd_substrate (Good v) c >>=o fun vs =>
  supply_of GND_substrate (Good g) c >>=o fun gs =>
  Good (mkSupplies v g vs gs).
(** The new entry of the supply map, unless the set added nothing. *)
Definition push_supply (s : supplies) (p : footprint_prs) : footprint_prs :=
  if bool_decide (supplied p = resources_of p) then p
  else set_supply_map (p_supply_map p ++ [mkSupplyEntry (resources_from (supplied p) (resources_of p))
         (current_Vdd s) (current_GND s) (current_Vdd_substrate s) (current_GND_substrate s)]) p.
(** [rule_set::unroll] *)
Definition unroll_rule_set (body : UM bool) (Vdd GND Vdd_substrate GND_substrate : option bool_literal)
    (c : unroll_context) : UM bool :=
  p <- get_prs ;;
  require F_assert ((current_Vdd (p_current p) =? 0)%nat && (current_GND (p_current p) =? 0)%nat) ;;;
  require F_assert (bool_decide (supplied p = resources_of p)) ;;;
  s <- lift_outcome (supplies_of Vdd GND Vdd_substrate GND_substrate c) ;;
  match s with
  | None => ret false
  | Some s =>
      upd_prs (set_current s) ;;;
      ok <- body ;;
      (if (ok : bool) then upd_prs (push_supply s) else ret tt) ;;;
      upd_prs (set_current (p_current p)) ;;;
      ret ok
  end.

(** [rule::unroll] *)
Fixpoint unroll_rule (lock : bool) (r : rule) (c : unroll_context) {struct r} : UM bool :=
  match r with
  | pull dir g o _ attributes => unroll_pull dir g o attributes c
  | macro name ps a ns => unroll_macro name ps a ns c
  | rule_loop i rg l => unroll_rule_loop (fun c' => unroll_all (fun x => unroll_rule lock x c') l) i rg c
  | rule_conditional cs => unroll_clauses (unroll_all (fun x => unroll_rule lock x c)) c cs
  | subcircuit name l => unroll_subcircuit (unroll_all (fun x => unroll_rule true x c) l) lock name
  | rule_set v g vs gs l => unroll_rule_set (unroll_all (fun x => unroll_rule lock x c) l) v g vs gs c
  end.
(** The bodies of a definition: [rule_set_base::unroll]. *)
Definition unroll_body (l : list rule) (c : unroll_context) : UM bool :=
  unroll_all (fun r => unroll_rule false r c) l.
End Target.
