(* ===== verification/PrsExprProps.v ===== *)
(** What the expressions of production rules mean, and that negation and the
    other operations on them respect it.

    [meaning] is a reference semantics: the three-valued value of an
    expression in a context, given the values of the bools of the definition
    and those of the internal nodes defined so far, each with the direction of
    its definition.  An expression whose unrolling is an error has none. *)
From stdpp Require Import strings gmap.
From S2P Require Import Prelude PullSet MetaValue MetaExpr PrsExpr.
From S2P Require Import Expr ExprAlloc PrsFootprint.
Open Scope Z_scope.

#[local] Abbreviation length := Datatypes.length.

(** ** Reference semantics *)
Definition good {A} (o : outcome A) : option A := match o with Good a => Some a | _ => None end.
Lemma good_inv {A} (o : outcome A) a : good o = Some a -> o = Good a.
Proof. destruct o; by intros [= ->]. Qed.
Abbreviation node_env := (gmap node_key (bool * pull_enum)).

Section Reference.
Context (bools : gmap string bool_collection) (nv : nat -> pull_enum) (env : node_env).

(** The node that was defined with this direction. *)
Definition env_val (k : node_key) (dir : bool) : option pull_enum :=
  n ← env !! k; if Bool.eqb n.1 dir then Some n.2 else None.
(** The parameters and attributes of a literal resolve. *)
Definition literal_ok (l : literal) (c : unroll_context) : option unit :=
  _ ← good (unroll_params (params l) c);
  _ ← good (unroll_check_attributes cflat_literal_attribute_registry c (attr l));
  if (length (params l) <=? 2)%nat then Some tt else None.
Definition reference_meaning (b : bool_literal) (c : unroll_context) : option pull_enum :=
  match b with
  | bool_var var i => n ← good (unroll_base bools var i c); nv <$> lookup_local_bool_id n
  | internal_node p i negated => k ← good (unroll_node_reference p i c); env_val k (negb negated)
  end.
Definition literal_meaning (l : literal) (c : unroll_context) : option pull_enum :=
  v ← reference_meaning (base_type l) c; _ ← literal_ok l c; Some v.
(** The values that the variable of a loop takes. *)
Definition loop_values (i : value_placeholder) (r : meta_range_expr) (c : unroll_context) : option (list Z) :=
  cr ← good (unroll_resolve_range r c);
  _ ← good (initialize_footprint i);
  if (cr.1 <=? cr.2) && (cr.2 - cr.1 <=? expr_count_max) && negb (cr.2 =? LONG_MAX) then Some (loop_range cr.1 cr.2)
  else None.

Fixpoint meaning (e : prs_expr) (c : unroll_context) {struct e} : option pull_enum :=
  match e with
  | literal_expr l => literal_meaning l c
  | not_expr v => k_not <$> meaning v c
  | and_expr l ps =>
      vs ← mapM (fun x => meaning x c) l;
      _ ← mapM (fun p => match p with Some (x, _) => meaning x c | None => Some PULL_OFF end) ps;
      Some (foldr k_and PULL_ON vs)
  | or_expr l => foldr k_or PULL_OFF <$> mapM (fun x => meaning x c) l
  | and_expr_loop i r b =>
      zs ← loop_values i r c; foldr k_and PULL_ON <$> mapM (fun z => meaning b (loop_context i c z)) zs
  | or_expr_loop i r b =>
      zs ← loop_values i r c; foldr k_or PULL_OFF <$> mapM (fun z => meaning b (loop_context i c z)) zs
  end.
End Reference.

(** Without references to internal nodes, but in precharges. *)
Fixpoint node_free (e : prs_expr) : bool :=
  match e with
  | literal_expr l => negb (is_internal (base_type l))
  | not_expr v => node_free v
  | and_expr l _ | or_expr l => forallb node_free l
  | and_expr_loop _ _ b | or_expr_loop _ _ b => node_free b
  end.

(** ** Generic facts *)
Lemma k_not_all vs : k_not (foldr k_and PULL_ON vs) = foldr k_or PULL_OFF (map k_not vs).
Proof. induction vs as [|v vs IH]; [done|]. cbn. rewrite <- IH. by destruct v, (foldr _ _ vs). Qed.
Lemma k_not_any vs : k_not (foldr k_or PULL_OFF vs) = foldr k_and PULL_ON (map k_not vs).
Proof. induction vs as [|v vs IH]; [done|]. cbn. rewrite <- IH. by destruct v, (foldr _ _ vs). Qed.
Lemma mapM_map {A B C} (f : B -> option C) (g : A -> B) l : mapM f (map g l) = mapM (fun x => f (g x)) l.
Proof. induction l as [|x l IH]; [done|]. cbn. by rewrite IH. Qed.
Lemma mapM_Forall_ext {A B} (f g : A -> option B) l : Forall (fun x => f x = g x) l -> mapM f l = mapM g l.
Proof. induction 1 as [|x l Hx _ IH]; [done|]. cbn. by rewrite Hx, IH. Qed.
Lemma mapM_then {A B C} (f : A -> option B) (h : A -> option C) (g : B -> C) l vs :
  Forall (fun x => forall v, f x = Some v -> h x = Some (g v)) l -> mapM f l = Some vs -> mapM h l = Some (map g vs).
Proof.
  intros Hall. revert vs. induction Hall as [|x l Hx _ IH]; intros vs E; cbn in *; [by injection E as <-|].
  apply bind_Some in E as (v & Hv & (vs' & Hvs & [= <-])%bind_Some). by rewrite (Hx _ Hv), (IH _ Hvs).
Qed.
Lemma mapM_both {A B C} (f : A -> option B) (h : A -> option C) (g : B -> C) l : forall vs ws,
  Forall (fun x => forall v w, f x = Some v -> h x = Some w -> w = g v) l -> mapM f l = Some vs -> mapM h l = Some ws ->
  ws = map g vs.
Proof.
  induction l as [|x l IH]; intros vs ws Hall E1 E2; cbn in *; [by injection E1 as <-; injection E2 as <-|].
  inversion Hall as [|? ? Hx Hl]; subst.
  apply bind_Some in E1 as (v & Hv & (vs' & Hvs & [= <-])%bind_Some).
  apply bind_Some in E2 as (w & Hw & (ws' & Hws & [= <-])%bind_Some). cbn. f_equal; eauto.
Qed.
Lemma forallb_Forall {A} (f : A -> bool) (P : A -> Prop) l : Forall (fun x => f x = true -> P x) l -> forallb f l = true ->
  Forall P l.
Proof.
  induction 1 as [|x l Hx _ IH]; [constructor|]. cbn. intros [H1 H2]%andb_true_iff. constructor; auto.
Qed.

Section Meaning.
Context (bools : gmap string bool_collection) (nv : nat -> pull_enum) (env : node_env).
#[local] Abbreviation meaning := (meaning bools nv env).

Lemma and_copy_shape es : forall l p,
  exists q, fold_left (fun lp e => and_push_back lp.1 lp.2 e) es (l, p) = (l ++ es, p ++ q) /\ Forall (fun x => x = None) q.
Proof.
  induction es as [|e es IH]; intros l p; cbn.
  - exists []. by rewrite !app_nil_r.
  - destruct (IH (l ++ [e]) (match l with [] => p | _ => p ++ [None] end)) as (q & E & Hq).
    unfold and_push_back at 2. cbn [fst snd]. rewrite E, <- app_assoc. destruct l; [by exists q|].
    exists (None :: q). rewrite <- app_assoc. split; [done|]. by constructor.
Qed.
Abbreviation precharge_meaning c := (fun p => match p with Some (x, _) => meaning x c | None => Some PULL_OFF end).
Lemma precharges_none c (q : list (option (prs_expr * bool))) : Forall (fun x => x = None) q -> is_Some (mapM (precharge_meaning c) q).
Proof. induction 1 as [|x q -> _ [ws IH]]; [by eexists|]. cbn. rewrite IH. by eexists. Qed.
Lemma meaning_and_copy es c : meaning (and_copy [] [] es) c = foldr k_and PULL_ON <$> mapM (fun x => meaning x c) es.
Proof.
  unfold and_copy. destruct (and_copy_shape es [] []) as (q & -> & Hq). cbn.
  destruct (mapM _ es) as [vs|]; [|done]. cbn. by destruct (precharges_none c q Hq) as [ws ->].
Qed.

(** *** Normalising *)
Lemma normalize_all (P : prs_expr -> prs_expr -> Prop) l :
  Forall (fun x => P x (default (negation_normalize x).2 (negation_normalize x).1)) l ->
  Forall2 P l (map (fun x => let '(temp, x') := negation_normalize x in default x' temp) l).
Proof. induction 1 as [|x l Hx _ IH]; constructor; [|done]. by destruct (negation_normalize x). Qed.
Lemma mapM_Forall2 {A B} (f : A -> option B) l l' : Forall2 (fun x y => f y = f x) l l' -> mapM f l' = mapM f l.
Proof. induction 1 as [|x y l l' Hx _ IH]; [done|]. cbn. by rewrite Hx, IH. Qed.
Lemma Forall2_and_all l l' : Forall2 (fun x y => forall c, meaning y c = meaning x c) l l' -> forall c,
  mapM (fun x => meaning x c) l' = mapM (fun x => meaning x c) l.
Proof. intros H c. apply mapM_Forall2. eapply Forall2_impl; [exact H|]. auto. Qed.

(** The value of what a caller keeps of [negation_normalize]. *)
Definition normalized (e : prs_expr) : prs_expr := default (negation_normalize e).2 (negation_normalize e).1.
Definition normalizes (e : prs_expr) : Prop :=
  (forall c, meaning (negation_normalize e).2 c = meaning e c) /\ (forall c, meaning (normalized e) c = meaning e c).

Lemma normalized_list l : map (fun x => let '(temp, x') := negation_normalize x in default x' temp) l = map normalized l.
Proof. apply map_ext. intros x. unfold normalized. by destruct (negation_normalize x). Qed.
Lemma normalizes_list l c : Forall normalizes l -> mapM (fun x => meaning (normalized x) c) l = mapM (fun x => meaning x c) l.
Proof. intros H. apply mapM_Forall_ext. eapply Forall_impl; [exact H|]. intros x [_ Hx]. apply Hx. Qed.
Lemma normalizes_same e e' : negation_normalize e = (None, e') -> (forall c, meaning e' c = meaning e c) -> normalizes e.
Proof. unfold normalizes, normalized. by intros ->. Qed.
Lemma normalizes_not v : normalizes v -> (forall w, v = not_expr w -> normalizes w) -> normalizes (not_expr v).
Proof.
  intros [H1 H2] Hw. unfold normalized in H2.
  assert (Hd : negation_normalize (not_expr v) = (None, not_expr (normalized v)) -> normalizes (not_expr v)).
  { intros E. eapply normalizes_same; [exact E|]. intros c. cbn [PrsExprProps.meaning]. unfold normalized. by rewrite H2. }
  destruct v as [l|w|l p|l|i r b|i r b]; try (apply Hd; unfold normalized; cbn [negation_normalize]; done).
  - destruct (Hw w eq_refl) as [Hw1 Hw2]. unfold normalizes, normalized in *. cbn [negation_normalize].
    destruct (negation_normalize w) as [t w']. cbn [fst snd default] in *. split; intros c; cbn [PrsExprProps.meaning].
    + by rewrite Hw1.
    + change (match t with Some x => x | None => w' end) with (default w' t). rewrite Hw2. destruct (meaning w c); cbn; [|done]. by rewrite k_not_involutive.
Qed.
Lemma negation_normalize_meaning e : normalizes e.
Proof.
  enough (H : normalizes e /\ forall w, e = not_expr w -> normalizes w) by (exact (proj1 H)).
  induction e as [l|v [IH IHw]|l p IHl IHp|l IHl|i r b [IH _]|i r b [IH _]] using prs_expr_nested_ind; (split; [|try done]).
  - by eapply normalizes_same.
  - by apply normalizes_not.
  - by intros w [= <-].
  - eapply normalizes_same; [done|]. intros c. cbn [PrsExprProps.meaning]. rewrite normalized_list, mapM_map, normalizes_list; [done|].
    eapply Forall_impl; [exact IHl|]. by intros x [Hx _].
  - eapply normalizes_same; [done|]. intros c. cbn [PrsExprProps.meaning]. rewrite normalized_list, mapM_map, normalizes_list; [done|].
    eapply Forall_impl; [exact IHl|]. by intros x [Hx _].
  - eapply normalizes_same; [done|]. intros c. cbn [PrsExprProps.meaning]. destruct (loop_values i r c); [|done]. cbn.
    f_equal. apply mapM_Forall_ext, Forall_true. intros z. apply IH.
  - eapply normalizes_same; [done|]. intros c. cbn [PrsExprProps.meaning]. destruct (loop_values i r c); [|done]. cbn.
    f_equal. apply mapM_Forall_ext, Forall_true. intros z. apply IH.
Qed.

(** *** Negating *)
Lemma negate_not v : negate (not_expr v) = (normalized v, not_expr (negation_normalize v).2).
Proof. unfold normalized. cbn [negate]. by destruct (negation_normalize v). Qed.
Lemma negate_and_loop i r b : negate (and_expr_loop i r b) = (or_expr_loop i r (negate b).1, and_expr_loop i r (negate b).2).
Proof. cbn [negate]. by destruct (negate b). Qed.
Lemma negate_or_loop i r b : negate (or_expr_loop i r b) = (and_expr_loop i r (negate b).1, or_expr_loop i r (negate b).2).
Proof. cbn [negate]. by destruct (negate b). Qed.

(** The expression itself keeps its value, though parts are replaced. *)
Lemma negate_keeps e : forall c, meaning (negate e).2 c = meaning e c.
Proof.
  induction e as [l|v _|l p IHl _|l IHl|i r b IH|i r b IH] using prs_expr_nested_ind; intros c.
  - done.
  - rewrite negate_not. cbn [snd PrsExprProps.meaning]. by rewrite (proj1 (negation_normalize_meaning v)).
  - cbn [negate snd PrsExprProps.meaning]. rewrite map_map, mapM_map. rewrite (mapM_Forall_ext _ (fun x => meaning x c)); [done|].
    eapply Forall_impl; [exact IHl|]. auto.
  - cbn [negate snd PrsExprProps.meaning]. rewrite map_map, mapM_map. rewrite (mapM_Forall_ext _ (fun x => meaning x c)); [done|].
    eapply Forall_impl; [exact IHl|]. auto.
  - rewrite negate_and_loop. cbn [snd PrsExprProps.meaning]. destruct (loop_values i r c); [|done]. cbn.
    f_equal. apply mapM_Forall_ext, Forall_true. intros z. apply IH.
  - rewrite negate_or_loop. cbn [snd PrsExprProps.meaning]. destruct (loop_values i r c); [|done]. cbn.
    f_equal. apply mapM_Forall_ext, Forall_true. intros z. apply IH.
Qed.

Lemma literal_negate_meaning l c v : is_internal (base_type l) = false -> literal_meaning bools nv env l c = Some v ->
  meaning (literal_negate l) c = Some (k_not v).
Proof. intros Hi E. unfold literal_negate. rewrite Hi. cbn [PrsExprProps.meaning]. by rewrite E. Qed.

Lemma negate_meaning e : forall c v, node_free e = true -> meaning e c = Some v -> meaning (negate e).1 c = Some (k_not v).
Proof.
  induction e as [l|v _|l p IHl _|l IHl|i r b IH|i r b IH] using prs_expr_nested_ind; intros c v0 Hnf E.
  - apply negb_true_iff in Hnf. by apply literal_negate_meaning.
  - rewrite negate_not. cbn [fst]. rewrite (proj2 (negation_normalize_meaning v)). cbn [PrsExprProps.meaning] in E.
    apply fmap_Some in E as (w & -> & ->). by rewrite k_not_involutive.
  - cbn [PrsExprProps.meaning node_free] in *. apply bind_Some in E as (vs & Hvs & (_ & _ & [= <-])%bind_Some).
    cbn [negate fst PrsExprProps.meaning]. rewrite k_not_all, map_map, mapM_map. erewrite mapM_then; [done| |exact Hvs].
    cbn beta. eapply forallb_Forall; [|exact Hnf]. eapply Forall_impl; [exact IHl|]. auto.
  - cbn [PrsExprProps.meaning node_free] in *. apply fmap_Some in E as (vs & Hvs & ->).
    cbn [negate fst]. rewrite meaning_and_copy, k_not_any, map_map, mapM_map. erewrite mapM_then; [done| |exact Hvs].
    cbn beta. eapply forallb_Forall; [|exact Hnf]. eapply Forall_impl; [exact IHl|]. auto.
  - rewrite negate_and_loop. cbn [fst PrsExprProps.meaning node_free] in *. apply bind_Some in E as (zs & -> & (vs & Hvs & ->)%fmap_Some).
    cbn. rewrite k_not_all. erewrite mapM_then; [done| |exact Hvs]. apply Forall_true. intros z w Hw. by apply IH.
  - rewrite negate_or_loop. cbn [fst PrsExprProps.meaning node_free] in *. apply bind_Some in E as (zs & -> & (vs & Hvs & ->)%fmap_Some).
    cbn. rewrite k_not_any. erewrite mapM_then; [done| |exact Hvs]. apply Forall_true. intros z w Hw. by apply IH.
Qed.

(** A node has one direction, so that a reference and its complement never
    both have a value. *)
Lemma literal_negate_excludes l c v w : literal_meaning bools nv env l c = Some v ->
  meaning (literal_negate l) c = Some w -> w = k_not v.
Proof.
  intros E1 E2. destruct (is_internal (base_type l)) eqn:Hi.
  2: { rewrite (literal_negate_meaning l c v Hi E1) in E2. by injection E2. }
  unfold literal_negate in E2. rewrite Hi in E2. cbn [PrsExprProps.meaning] in E2. unfold literal_meaning in *. cbn [base_type] in E2.
  destruct (base_type l) as [|q i n]; [done|]. cbn [reference_meaning toggle_negate_node] in *.
  destruct (good (unroll_node_reference q i c)) as [k|]; [|done]. cbn [mbind option_bind] in *. unfold env_val in *.
  destruct (env !! k) as [[d u]|]; [|done]. cbn in *. by destruct d, n.
Qed.
Lemma negate_sound e : forall c v w, meaning e c = Some v -> meaning (negate e).1 c = Some w -> w = k_not v.
Proof.
  induction e as [l|v _|l p IHl _|l IHl|i r b IH|i r b IH] using prs_expr_nested_ind; intros c v0 w0 E1 E2.
  - by eapply literal_negate_excludes.
  - rewrite negate_not in E2. cbn [fst] in E2. rewrite (proj2 (negation_normalize_meaning v)) in E2. cbn [PrsExprProps.meaning] in E1.
    rewrite E2 in E1. injection E1 as <-. by rewrite k_not_involutive.
  - cbn [PrsExprProps.meaning] in E1. apply bind_Some in E1 as (vs & Hvs & (_ & _ & [= <-])%bind_Some).
    cbn [negate fst PrsExprProps.meaning] in E2. rewrite map_map, mapM_map in E2. apply fmap_Some in E2 as (ws & Hws & ->).
    rewrite k_not_all. f_equal. eapply mapM_both; [|exact Hvs|exact Hws]. eapply Forall_impl; [exact IHl|]. intros x Hx v w. apply Hx.
  - cbn [PrsExprProps.meaning] in E1. apply fmap_Some in E1 as (vs & Hvs & ->).
    cbn [negate fst] in E2. rewrite meaning_and_copy, map_map, mapM_map in E2. apply fmap_Some in E2 as (ws & Hws & ->).
    rewrite k_not_any. f_equal. eapply mapM_both; [|exact Hvs|exact Hws]. eapply Forall_impl; [exact IHl|]. intros x Hx v w. apply Hx.
  - rewrite negate_and_loop in E2. cbn [fst PrsExprProps.meaning] in *. destruct (loop_values i r c) as [zs|]; [|done].
    cbn [mbind option_bind] in *. apply fmap_Some in E1 as (vs & Hvs & ->), E2 as (ws & Hws & ->). rewrite k_not_all. f_equal.
    eapply mapM_both; [|exact Hvs|exact Hws]. apply Forall_true. intros x v w. apply IH.
  - rewrite negate_or_loop in E2. cbn [fst PrsExprProps.meaning] in *. destruct (loop_values i r c) as [zs|]; [|done].
    cbn [mbind option_bind] in *. apply fmap_Some in E1 as (vs & Hvs & ->), E2 as (ws & Hws & ->). rewrite k_not_any. f_equal.
    eapply mapM_both; [|exact Hvs|exact Hws]. apply Forall_true. intros x v w. apply IH.
Qed.
End Meaning.

(** *** Flipping literals: the value under the negated literals *)
Section Flip.
Context (bools : gmap string bool_collection) (nv : nat -> pull_enum) (env : node_env).
#[local] Abbreviation plain := (PrsExprProps.meaning bools nv env).
#[local] Abbreviation flipped := (PrsExprProps.meaning bools (fun n => k_not (nv n)) env).

Lemma flip_not v c : plain (flip_literals (not_expr v)) c = k_not <$> plain (flip_literals v) c.
Proof.
  cbn [flip_literals]. destruct (flip_literals v) as [|w| | | |]; try done.
  cbn [PrsExprProps.meaning]. destruct (plain w c); cbn; [|done]. by rewrite k_not_involutive.
Qed.
Lemma flip_literal_value l c v w : literal_meaning bools (fun n => k_not (nv n)) env l c = Some v ->
  plain (literal_negate l) c = Some w -> w = v.
Proof.
  intros E1 E2. destruct (is_internal (base_type l)) eqn:Hi.
  - unfold literal_negate in E2. rewrite Hi in E2. cbn [PrsExprProps.meaning] in E2. unfold literal_meaning in *. cbn [base_type] in E2.
    destruct (base_type l) as [|q i n]; [done|]. cbn [reference_meaning toggle_negate_node] in *.
    destruct (good (unroll_node_reference q i c)) as [k|]; [|done]. cbn [mbind option_bind] in *. unfold env_val in *.
    destruct (env !! k) as [[d u]|]; [|done]. cbn in *. by destruct d, n.
  - unfold literal_negate in E2. rewrite Hi in E2. cbn [PrsExprProps.meaning] in E2. unfold literal_meaning in *.
    destruct (base_type l) as [q i|]; [|done]. cbn [reference_meaning] in *. destruct (good (unroll_base bools q i c)) as [n|]; [|done].
    cbn [mbind option_bind] in *. destruct (lookup_local_bool_id n); [|done]. cbn in *. destruct (literal_ok l c); [|done].
    cbn in *. congruence.
Qed.
Lemma flip_literal_ok l c v : is_internal (base_type l) = false -> literal_meaning bools (fun n => k_not (nv n)) env l c = Some v ->
  plain (literal_negate l) c = Some v.
Proof.
  intros Hi E. assert (exists w, plain (literal_negate l) c = Some w) as [w Ew].
  { unfold literal_negate. rewrite Hi. cbn [PrsExprProps.meaning]. unfold literal_meaning in *. destruct (base_type l); [|done].
    cbn [reference_meaning] in *. destruct (good _); [|done]. cbn in *. destruct (lookup_local_bool_id _); [|done]. cbn in *.
    destruct (literal_ok l c); [|done]. by eexists. }
  by rewrite Ew, (flip_literal_value _ _ _ _ E Ew).
Qed.

Lemma flip_meaning e : forall c v, node_free e = true -> flipped e c = Some v -> plain (flip_literals e) c = Some v.
Proof.
  assert (Hid : forall l : list pull_enum, map (fun x => x) l = l) by apply map_id.
  induction e as [l|v IH|l p IHl _|l IHl|i r b IH|i r b IH] using prs_expr_nested_ind; intros c v0 Hnf E.
  - apply negb_true_iff in Hnf. by apply flip_literal_ok.
  - rewrite flip_not. cbn [PrsExprProps.meaning] in E. apply fmap_Some in E as (w & Hw & ->). by rewrite (IH c w).
  - cbn [PrsExprProps.meaning node_free] in *. apply bind_Some in E as (vs & Hvs & (_ & _ & [= <-])%bind_Some).
    cbn [flip_literals]. rewrite meaning_and_copy, mapM_map. erewrite mapM_then; [|  |exact Hvs]; [by rewrite Hid|].
    cbn beta. eapply forallb_Forall; [|exact Hnf]. eapply Forall_impl; [exact IHl|]. auto.
  - cbn [PrsExprProps.meaning node_free] in *. apply fmap_Some in E as (vs & Hvs & ->).
    cbn [flip_literals PrsExprProps.meaning]. rewrite mapM_map. erewrite mapM_then; [|  |exact Hvs]; [cbn; by rewrite Hid|].
    cbn beta. eapply forallb_Forall; [|exact Hnf]. eapply Forall_impl; [exact IHl|]. auto.
  - cbn [flip_literals PrsExprProps.meaning node_free] in *. apply bind_Some in E as (zs & -> & (vs & Hvs & ->)%fmap_Some).
    cbn. erewrite mapM_then; [|  |exact Hvs]; [cbn; by rewrite Hid|]. apply Forall_true. intros z w Hw. by apply IH.
  - cbn [flip_literals PrsExprProps.meaning node_free] in *. apply bind_Some in E as (zs & -> & (vs & Hvs & ->)%fmap_Some).
    cbn. erewrite mapM_then; [|  |exact Hvs]; [cbn; by rewrite Hid|]. apply Forall_true. intros z w Hw. by apply IH.
Qed.
Lemma flip_sound e : forall c v w, flipped e c = Some v -> plain (flip_literals e) c = Some w -> w = v.
Proof.
  assert (Hid : forall l : list pull_enum, map (fun x => x) l = l) by apply map_id.
  induction e as [l|v IH|l p IHl _|l IHl|i r b IH|i r b IH] using prs_expr_nested_ind; intros c v0 w0 E1 E2.
  - by eapply flip_literal_value.
  - rewrite flip_not in E2. cbn [PrsExprProps.meaning] in E1. apply fmap_Some in E1 as (v1 & Hv & ->), E2 as (w1 & Hw & ->).
    by rewrite (IH _ _ _ Hv Hw).
  - cbn [PrsExprProps.meaning] in E1. apply bind_Some in E1 as (vs & Hvs & (_ & _ & [= <-])%bind_Some).
    cbn [flip_literals] in E2. rewrite meaning_and_copy, mapM_map in E2. apply fmap_Some in E2 as (ws & Hws & ->).
    f_equal. rewrite <- (Hid vs). eapply mapM_both; [|exact Hvs|exact Hws]. eapply Forall_impl; [exact IHl|]. intros x Hx v w. apply Hx.
  - cbn [flip_literals PrsExprProps.meaning] in *. rewrite mapM_map in E2. apply fmap_Some in E1 as (vs & Hvs & ->), E2 as (ws & Hws & ->).
    f_equal. rewrite <- (Hid vs). eapply mapM_both; [|exact Hvs|exact Hws]. eapply Forall_impl; [exact IHl|]. intros x Hx v w. apply Hx.
  - cbn [flip_literals PrsExprProps.meaning] in *. destruct (loop_values i r c) as [zs|]; [|done]. cbn [mbind option_bind] in *.
    apply fmap_Some in E1 as (vs & Hvs & ->), E2 as (ws & Hws & ->).
    f_equal. rewrite <- (Hid vs). eapply mapM_both; [|exact Hvs|exact Hws]. apply Forall_true. intros x v w. apply IH.
  - cbn [flip_literals PrsExprProps.meaning] in *. destruct (loop_values i r c) as [zs|]; [|done]. cbn [mbind option_bind] in *.
    apply fmap_Some in E1 as (vs & Hvs & ->), E2 as (ws & Hws & ->).
    f_equal. rewrite <- (Hid vs). eapply mapM_both; [|exact Hvs|exact Hws]. apply Forall_true. intros x v w. apply IH.
Qed.
End Flip.
