(* ===== verification/PrsUnrollProps.v ===== *)
(** Unrolling an expression gives an entry of the footprint with its meaning.

    [unroll] is a compiler from expressions to the pool of the footprint, where
    operands are indices of earlier entries.  It fails exactly when the
    expression has no [meaning]; otherwise the entry that it returns has that
    value, by the [plain_val] of "ExprAllocProps.v", the semantics on which
    the correctness of the simulator's graphs rests. *)
From stdpp Require Import strings gmap.
From S2P Require Import Prelude PullSet MetaValue MetaExpr PrsExpr.
From S2P Require Import Expr ExprAlloc ExprBuild ExprVisit ExprAllocProps.
From S2P Require Import PrsFootprint PrsExprProps.
Open Scope Z_scope.
Local Open Scope hackt_scope.

#[local] Abbreviation length := Datatypes.length.

(** ** Pools whose operands come first *)
Definition ordered_node (k : nat) (e : expr_node) : Prop :=
  en_type e = PRS_LITERAL_TYPE_ENUM \/ Forall (fun n => (n <= k)%nat) (en_nodes e).
(** A reference to an internal node is to one that is defined. *)
Definition node_resolves (p : footprint_prs) (e : expr_node) : Prop := en_type e = PRS_NODE_TYPE_ENUM ->
  exists j n, p_internal_node_pool p !! j = Some n /\ en_nodes e = [ne_expr n].
Definition ordered (p : footprint_prs) : Prop := forall k e, p_expr_pool p !! k = Some e ->
  ordered_node k e /\ node_resolves p e.

Section Values.
Context (nv : nat -> pull_enum) (nodes : nat).

(** The value of entry [i]; as operands come first, [i] is fuel enough. *)
Definition val_of (p : footprint_prs) (fuel i : nat) : option pull_enum := plain_val nv nodes (resolved_prs p) fuel i.
Definition val (t : target) (i : nat) : option pull_enum := val_of (t_prs t) i i.

Lemma val_of_agree p q : ordered p -> forall fuel fuel' i, (i <= fuel)%nat -> (i <= fuel')%nat ->
  (forall k, (k < i)%nat -> resolved_expr <$> p_expr_pool p !! k = resolved_expr <$> p_expr_pool q !! k) ->
  val_of p fuel i = val_of q fuel' i.
Proof.
  intros Ho. induction fuel as [|fuel IH]; intros fuel' i Hi Hi' Heq.
  - assert (i = 0%nat) as -> by lia. by destruct fuel'.
  - destruct i as [|k]; [by destruct fuel'|]. destruct fuel' as [|fuel']; [lia|].
    assert (Hk : map resolved_expr (p_expr_pool p) !! k = map resolved_expr (p_expr_pool q) !! k).
    { rewrite !list_lookup_fmap. apply Heq. lia. }
    unfold val_of in *. cbn [plain_val]. unfold resolved_prs in *. cbn [pf_expr_pool pool_at] in *. rewrite Hk.
    destruct (map resolved_expr (p_expr_pool q) !! k) as [e|] eqn:E; [|done]. cbn [mbind option_bind].
    rewrite list_lookup_fmap in Hk. destruct (p_expr_pool p !! k) as [e'|] eqn:E'; [|done]. injection Hk as Hk.
    assert (Hrec : forall n, (n <= k)%nat -> plain_val nv nodes (resolved_prs p) fuel n = plain_val nv nodes (resolved_prs q) fuel' n).
    { intros n Hn. apply IH; [lia..|]. intros k' Hk'. apply Heq. lia. }
    destruct (Ho _ _ E') as [[Hl|Hall] _]; [subst e; cbn; by rewrite Hl|].
    change (en_nodes e') with (fe_nodes (resolved_expr e')) in Hall. rewrite Hk in Hall.
    assert (Honly : forall n, only e = Some n -> (n <= k)%nat).
    { intros n Hn%only_spec. rewrite Hn in Hall. by inversion Hall. }
    assert (HmapM : mapM (plain_val nv nodes (resolved_prs p) fuel) (fe_nodes e) = mapM (plain_val nv nodes (resolved_prs q) fuel') (fe_nodes e)).
    { apply mapM_Forall_ext. eapply Forall_impl; [exact Hall|]. auto. }
    unfold resolved_prs in *. destruct (fe_type e); try done; try by rewrite HmapM.
    + destruct (only e) as [n|]; [|done]. cbn. by rewrite Hrec by auto.
    + destruct (only e) as [n|]; [|done]. cbn. by rewrite Hrec by auto.
Qed.
End Values.

(** ** What unrolling may change *)
Record grows (t t' : target) : Prop := {
  gr_prefix : p_expr_pool (t_prs t) `prefix_of` p_expr_pool (t_prs t');
  gr_rest : t' = set_prs (set_exprs (p_expr_pool (t_prs t'))) t;
  gr_ordered : ordered (t_prs t')
}.
Lemma grows_refl t : ordered (t_prs t) -> grows t t.
Proof. intros Ho. split; [done| |done]. by destruct t as [[]]. Qed.
Lemma grows_trans t1 t2 t3 : grows t1 t2 -> grows t2 t3 -> grows t1 t3.
Proof. intros [P1 R1 _] [P2 R2 O2]. split; [by etrans| |done]. by rewrite R2, R1 at 1. Qed.
Lemma grows_le t t' : grows t t' -> (length (p_expr_pool (t_prs t)) <= length (p_expr_pool (t_prs t')))%nat.
Proof. intros [P _ _]. by apply prefix_length. Qed.
Lemma grows_push t e : ordered (t_prs t) -> ordered_node (length (p_expr_pool (t_prs t))) e ->
  node_resolves (t_prs t) e -> grows t (set_prs (fun p => set_exprs (p_expr_pool p ++ [e]) p) t).
Proof.
  intros Ho He Hr. split; cbn; [by apply prefix_app_r|done|]. intros k x [Hx|[Hk Hx]]%lookup_app_Some; [by apply Ho|].
  apply list_lookup_singleton_Some in Hx as [Hz <-]. by assert (k = length (p_expr_pool (t_prs t))) as -> by lia.
Qed.
(** Only what is new is changed, and not its operands. *)
Lemma grows_update t t' k e f : grows t t' -> (length (p_expr_pool (t_prs t)) <= k)%nat ->
  p_expr_pool (t_prs t') !! k = Some e -> resolved_expr (f e) = resolved_expr e ->
  grows t (set_prs (fun p => set_exprs (<[k := f e]> (p_expr_pool p)) p) t').
Proof.
  intros [P R O] Hk He Hf. split; cbn.
  - destruct P as [l ->]. rewrite insert_app_r_alt by done. by apply prefix_app_r.
  - by rewrite R at 1.
  - intros j x Hx. apply list_lookup_insert_Some in Hx as [(<- & <- & _)|[_ Hx]]; [|by apply O].
    injection Hf as Ht Hn. unfold ordered_node, node_resolves. rewrite Ht, Hn. by apply (O k).
Qed.
Lemma prefix_lookup_lt {A} (l l' : list A) k : l `prefix_of` l' -> (k < length l)%nat -> l' !! k = l !! k.
Proof. intros [r ->] Hk. by rewrite lookup_app_l. Qed.

(** ** The specification of a compiled expression *)
Lemma wpe_lift_outcome {S A} (o : outcome A) (E : fault -> Prop) (Q : option A -> S -> Prop) s :
  (forall a, good o = Some a -> Q (Some a) s) -> (good o = None -> Q None s) -> (good o = None -> forall f, E f) ->
  wpe E (lift_outcome o) Q s.
Proof. intros H1 H2 H3. destruct o; cbn; auto; by apply H3. Qed.

Section Compiles.
Context (nv : nat -> pull_enum) (nodes : nat) (env : node_env).
#[local] Abbreviation val := (val nv nodes).

Lemma val_grows t t' i : ordered (t_prs t) -> grows t t' -> (i <= length (p_expr_pool (t_prs t)))%nat ->
  val t' i = val t i.
Proof.
  intros Ho Hg Hi. symmetry. apply val_of_agree; [done..|]. intros k Hk. f_equal. symmetry.
  apply prefix_lookup_lt; [apply Hg|lia].
Qed.
Lemma val_same t t' i : ordered (t_prs t) ->
  map resolved_expr (p_expr_pool (t_prs t')) = map resolved_expr (p_expr_pool (t_prs t)) -> val t' i = val t i.
Proof.
  intros Ho E. symmetry. apply val_of_agree; [done..|]. intros k _.
  pose proof (f_equal (lookup k) E) as Ek. by rewrite !list_lookup_fmap in Ek.
Qed.
Lemma resolved_update (l : list expr_node) k e f : l !! k = Some e -> resolved_expr (f e) = resolved_expr e ->
  map resolved_expr (<[k := f e]> l) = map resolved_expr l.
Proof.
  intros Hk Hf. rewrite (list_fmap_insert resolved_expr). rewrite Hf. apply list_insert_id. by rewrite list_lookup_fmap, Hk.
Qed.

(** The internal nodes of the footprint are those of [env]. *)
Record unrolled (t : target) : Prop := {
  un_ordered : ordered (t_prs t);
  un_node : forall k d v, env !! k = Some (d, v) -> exists j n, p_internal_node_expr_map (t_prs t) !! k = Some j /\
    p_internal_node_pool (t_prs t) !! j = Some n /\ ne_dir n = d /\
    (ne_expr n <= length (p_expr_pool (t_prs t)))%nat /\ ne_expr n <> 0%nat /\ val t (ne_expr n) = Some v;
  un_none : forall k, env !! k = None -> p_internal_node_expr_map (t_prs t) !! k = None
}.
Lemma unrolled_grows t t' : unrolled t -> grows t t' -> unrolled t'.
Proof.
  intros [Ho Hn Hz] Hg. pose proof Hg as [P R O]. split; [done| |].
  - intros k d v (j & n & H1 & H2 & H3 & H4 & H5 & H6)%Hn. exists j, n. rewrite R. cbn. split_and!; try done.
    + pose proof (grows_le _ _ Hg). cbn. lia.
    + rewrite <- H6. rewrite <- R. by apply val_grows.
  - intros k Hk%Hz. by rewrite R.
Qed.

(** Entry [i] is the result for an expression of meaning [ref]. *)
Definition result (t : target) (i : nat) (ref : option pull_enum) : Prop :=
  match i with
  | O => ref = None
  | S _ => (i <= length (p_expr_pool (t_prs t)))%nat /\ exists v, ref = Some v /\ val t i = Some v
  end.
Definition compiles (m : UM nat) (ref : option pull_enum) : Prop := forall t, unrolled t ->
  wpe (fun _ => ref = None) m (fun i t' => grows t t' /\ result t' i ref) t.

Lemma result_grows t t' i ref : ordered (t_prs t) -> grows t t' -> result t i ref -> result t' i ref.
Proof.
  intros Ho Hg. destruct i as [|i]; [done|]. intros (Hi & v & Hr & Hv). pose proof (grows_le _ _ Hg). split; [lia|].
  exists v. split; [done|]. by rewrite (val_grows t).
Qed.
Lemma wp_push_back_expr (E : fault -> Prop) ty ixs (Q : nat -> target -> Prop) t :
  Q (S (length (p_expr_pool (t_prs t)))) (set_prs (fun p => set_exprs (p_expr_pool p ++ [mkNode ty ixs [] [] []]) p) t) ->
  wpe E (push_back_expr ty ixs) Q t.
Proof.
  intros H. unfold push_back_expr. apply wpe_bind, wpe_modify, wpe_bind, wpe_gets, wpe_ret. cbn.
  by rewrite length_app, Nat.add_1_r.
Qed.
Lemma val_pushed t e : val (set_prs (fun p => set_exprs (p_expr_pool p ++ [e]) p) t) (S (length (p_expr_pool (t_prs t)))) =
  let t' := set_prs (fun p => set_exprs (p_expr_pool p ++ [e]) p) t in
  let pv := plain_val nv nodes (resolved_prs (t_prs t')) (length (p_expr_pool (t_prs t))) in
  match en_type e with
  | PRS_LITERAL_TYPE_ENUM => n ← only (resolved_expr e); node_val nv nodes (lookup_local_bool_id n)
  | PRS_NOT_EXPR_TYPE_ENUM => n ← only (resolved_expr e); k_not <$> pv n
  | PRS_AND_EXPR_TYPE_ENUM => foldr k_and PULL_ON <$> mapM pv (en_nodes e)
  | PRS_OR_EXPR_TYPE_ENUM => foldr k_or PULL_OFF <$> mapM pv (en_nodes e)
  | PRS_NODE_TYPE_ENUM => n ← only (resolved_expr e); pv n
  end.
Proof.
  set (t' := set_prs _ t). assert (E : pool_at (pf_expr_pool (resolved_prs (t_prs t'))) (S (length (p_expr_pool (t_prs t)))) = Some (resolved_expr e)).
  { cbn. rewrite map_app, lookup_app_r by (by rewrite length_map). by rewrite length_map, Nat.sub_diag. }
  unfold PrsUnrollProps.val, val_of. cbn [plain_val]. by rewrite E.
Qed.
Lemma plain_operand t e n : ordered (t_prs t) -> (n <= length (p_expr_pool (t_prs t)))%nat ->
  plain_val nv nodes (resolved_prs (t_prs (set_prs (fun p => set_exprs (p_expr_pool p ++ [e]) p) t)))
    (length (p_expr_pool (t_prs t))) n = val t n.
Proof.
  intros Ho Hn. symmetry. apply (val_of_agree nv nodes); [done..|]. intros k Hk. cbn. f_equal. symmetry. apply lookup_app_l. lia.
Qed.

Lemma wp_compiled {B} (m : UM nat) ref (k : nat -> UM B) (E : fault -> Prop) (Q : B -> target -> Prop) t :
  compiles m ref -> unrolled t -> (ref = None -> forall f, E f) ->
  (forall i t', grows t t' -> unrolled t' -> result t' i ref -> wpe E (k i) Q t') -> wpe E (n <- m ;; k n) Q t.
Proof.
  intros Hm Ht HE Hk. apply wpe_bind. specialize (Hm t Ht). unfold wpe in *. destruct (m t) as [[i t']|f]; [|by apply HE].
  destruct Hm as [Hg Hr]. apply Hk; [done| |done]. by eapply unrolled_grows.
Qed.

(** *** One operand; many operands *)
Lemma compiles_not m ref : compiles m ref ->
  compiles (n <- m ;; if (n =? 0)%nat then ret 0%nat else push_back_expr PRS_NOT_EXPR_TYPE_ENUM [n]) (k_not <$> ref).
Proof.
  intros Hm t Ht. eapply wp_compiled; [exact Hm|exact Ht|by cbn; intros ->|]. intros [|i] t' Hg _ Hr.
  - apply wpe_ret. split; [done|]. cbn in *. by rewrite Hr.
  - cbn [Nat.eqb]. destruct Hr as (Hi & v & -> & Hv). pose proof (gr_ordered _ _ Hg) as Ho.
    apply wp_push_back_expr. split.
    + eapply grows_trans; [exact Hg|]. apply grows_push; [done| |done]. right. by constructor.
    + cbn [result]. split; [cbn; rewrite length_app; cbn; lia|]. exists (k_not v). split; [done|].
      rewrite val_pushed. cbn [en_type]. cbn [only resolved_expr fe_nodes en_nodes mbind option_bind].
      by rewrite plain_operand, Hv by done.
Qed.

Definition results (t : target) (ixs : list nat) (refs : option (list pull_enum)) : Prop :=
  Forall (fun i => (i <= length (p_expr_pool (t_prs t)))%nat) ixs /\
  if any_node_error ixs then refs = None else exists vs, refs = Some vs /\ mapM (val t) ixs = Some vs.
Lemma results_cons t t' i ixs r rs : ordered (t_prs t) -> grows t t' -> result t i r -> results t' ixs rs ->
  results t' (i :: ixs) (v ← r; vs ← rs; Some (v :: vs)).
Proof.
  intros Ho Hg Hr [Hall Hrs]. apply (result_grows t t' i r Ho Hg) in Hr. unfold results in *.
  destruct i as [|i]; [cbn in Hr |- *; rewrite Hr; split; [constructor; [lia|done]|done]|].
  destruct Hr as (Hi & v & -> & Hv). split; [by constructor|]. change (any_node_error (S i :: ixs)) with (any_node_error ixs).
  revert Hrs. destruct (any_node_error ixs); [by intros ->|]. intros (vs & -> & Hvs). exists (v :: vs). split; [done|].
  cbn [mapM]. by rewrite Hv, Hvs.
Qed.
Definition collects {X} (body : X -> UM nat) (ref : X -> option pull_enum) (l : list X) : Prop := forall t, unrolled t ->
  wpe (fun _ => mapM ref l = None) (collect body l) (fun ixs t' => grows t t' /\ results t' ixs (mapM ref l)) t.
Lemma wp_collect {X} (body : X -> UM nat) (ref : X -> option pull_enum) l :
  Forall (fun x => compiles (body x) (ref x)) l -> collects body ref l.
Proof.
  induction 1 as [|x l Hx _ IH]; intros t Ht; cbn [collect].
  - apply wpe_ret. split; [apply grows_refl, Ht|]. split; [constructor|]. by exists [].
  - eapply wp_compiled; [exact Hx|exact Ht|by cbn; intros ->|]. intros i t1 Hg1 Ht1 Hr.
    apply wpe_bind. specialize (IH t1 Ht1). unfold wpe in IH |- *. destruct (collect body l t1) as [[ixs t2]|f].
    + destruct IH as [Hg2 Hrs]. cbn. split; [by eapply grows_trans|].
      eapply results_cons; [exact (un_ordered _ Ht1)|exact Hg2|exact Hr|exact Hrs].
    + cbn. rewrite IH. by destruct (ref x).
Qed.
Lemma compiles_collect {X} (body : X -> UM nat) (ref : X -> option pull_enum) l ty (op : pull_enum -> pull_enum -> pull_enum) z t :
  ty = PRS_AND_EXPR_TYPE_ENUM /\ op = k_and /\ z = PULL_ON \/ ty = PRS_OR_EXPR_TYPE_ENUM /\ op = k_or /\ z = PULL_OFF ->
  collects body ref l -> unrolled t ->
  wpe (fun _ => mapM ref l = None) (ixs <- collect body l ;; push_back_Nary ty ixs)
    (fun i t' => grows t t' /\ (length (p_expr_pool (t_prs t)) < length (p_expr_pool (t_prs t')))%nat /\
      (i = 0%nat \/ i = length (p_expr_pool (t_prs t'))) /\ result t' i (foldr op z <$> mapM ref l)) t.
Proof.
  intros Hty Hl Ht. apply wpe_bind. specialize (Hl t Ht). unfold wpe at 1 in Hl. unfold wpe at 1.
  destruct (collect body l t) as [[ixs t1]|f]; [|exact Hl]. destruct Hl as [Hg Hrs].
  unfold push_back_Nary. apply wpe_bind, wp_push_back_expr, wpe_ret. pose proof (gr_ordered _ _ Hg) as Ho1.
  pose proof (grows_le _ _ Hg) as Hle. set (e := mkNode _ _ _ _ _). set (t2 := set_prs _ t1).
  assert (Hlen : length (p_expr_pool (t_prs t2)) = S (length (p_expr_pool (t_prs t1)))) by (cbn; rewrite length_app; cbn; lia).
  destruct Hrs as [Hall Hrs]. split_and!.
  - eapply grows_trans; [exact Hg|]. apply grows_push; [done|by right|]. by destruct Hty as [(-> & _)|(-> & _)].
  - lia.
  - destruct (any_node_error ixs); [by left|right; congruence].
  - revert Hrs. destruct (any_node_error ixs); [by cbn; intros ->|]. intros (vs & -> & Hvs). split; [lia|].
    exists (foldr op z vs). split; [done|]. unfold t2. rewrite val_pushed. cbn [en_type en_nodes e].
    assert (Hm : mapM (plain_val nv nodes (resolved_prs (t_prs t2)) (length (p_expr_pool (t_prs t1)))) ixs = Some vs).
    { rewrite <- Hvs. apply mapM_Forall_ext. eapply Forall_impl; [exact Hall|]. intros i Hi. by apply plain_operand. }
    by destruct Hty as [(-> & -> & ->)|(-> & -> & ->)]; fold t2; rewrite Hm.
Qed.

(** *** Loops *)
Lemma compiles_loop (body : unroll_context -> UM nat) (ref : unroll_context -> option pull_enum) ty op z i r c :
  ty = PRS_AND_EXPR_TYPE_ENUM /\ op = k_and /\ z = PULL_ON \/ ty = PRS_OR_EXPR_TYPE_ENUM /\ op = k_or /\ z = PULL_OFF ->
  (forall c', compiles (body c') (ref c')) ->
  compiles (unroll_expr_loop body ty i r c)
    (zs ← loop_values i r c; foldr op z <$> mapM (fun v => ref (loop_context i c v)) zs).
Proof.
  intros Hty Hb t Ht. unfold unroll_expr_loop, loop_values. pose proof (grows_refl _ (un_ordered _ Ht)) as Hg.
  apply wpe_bind, wpe_lift_outcome; [intros [min max] ->|by intros ->; apply wpe_ret|by cbn; intros ->]. cbn [mbind option_bind fst snd].
  assert (Hno : forall b zs, b = false -> (_ ← good (initialize_footprint i); if (b : bool) then Some zs else None) = (None : option (list Z))).
  { intros b zs ->. by destruct (good _). }
  destruct (Z.ltb_spec max min) as [Hlt|Hle].
  { apply wpe_ret. split; [done|]. rewrite Hno; [done|]. by rewrite (proj2 (Z.leb_gt _ _)). }
  rewrite (proj2 (Z.leb_le _ _) Hle). cbn [andb]. destruct (Z.ltb_spec expr_count_max (max - min)) as [Hlt|Hle2].
  { rewrite (proj2 (Z.leb_gt _ _)) by done. rewrite Hno by done. apply wpe_bind, wpe_require; [intros _; by apply wpe_ret|done]. }
  rewrite (proj2 (Z.leb_le _ _) Hle2). cbn [andb]. unfold initialize_footprint, invariant.
  destruct (bool_decide _); [|done]. cbn [good mbind option_bind]. apply wpe_bind, wpe_ret.
  pose proof (compiles_collect (fun v => body (loop_context i c v)) (fun v => ref (loop_context i c v)) (loop_range min max)
    ty op z t Hty (wp_collect _ _ _ (Forall_true _ _ (fun v => Hb _))) Ht) as Hc.
  destruct (Z.eqb_spec max LONG_MAX) as [Hm|Hm]; cbn [negb mbind option_bind].
  - apply wpe_bind. unfold wpe, bind in Hc |- *. by destruct (collect _ _ t) as [[ixs t1]|f].
  - unfold wpe, bind in Hc |- *. destruct (collect _ _ t) as [[ixs t1]|f]; [|by rewrite Hc]. cbn [require ret].
    destruct (push_back_Nary ty ixs t1) as [[n t2]|f]; [tauto|by rewrite Hc].
Qed.

(** *** Literals *)
Context (bools : gmap string bool_collection).

(** The bools of the definition are among its [nodes] nodes. *)
Definition bools_within : Prop := forall s b, bools !! s = Some b ->
  match b with
  | bool_scalar o => forall i, o = Some i -> (i <= nodes)%nat
  | bool_array _ m => forall k i, m !! k = Some i -> (i <= nodes)%nat
  end.
Context (Hbools : bools_within).

Lemma unroll_base_index var i c n : unroll_base bools var i c = Good n ->
  exists k, lookup_local_bool_id n = Some k /\ n = S k /\ (k < nodes)%nat.
Proof.
  assert (Hn : forall j, (j <= nodes)%nat -> node_index_of j = Good n -> exists k, lookup_local_bool_id n = Some k /\ n = S k /\ (k < nodes)%nat).
  { intros [|k] Hj; [done|]. intros [= <-]. by exists k. }
  unfold unroll_base. destruct (bools !! ip_name var) as [[[j|]|D m]|] eqn:E; [| |destruct i|]; try done.
  { apply Hn. by apply (Hbools _ _ E). }
  all: match goal with |- context [unroll_resolve_indices ?x ?y] => destruct (unroll_resolve_indices x y) as [cil| | |] end; try done.
  all: cbn [obind]; destruct (_ && _); [|done]; destruct (forallb _ _); [|done].
  all: destruct (m !! lower_multikey cil) as [j|] eqn:Ej; [|done]; apply Hn; by eapply (Hbools _ _ E).
Qed.
Lemma wp_reference b c t : unrolled t ->
  wpe (fun _ => reference_meaning bools nv env b c = None) (unroll_reference bools b c) (fun i t' => grows t t' /\
    result t' i (reference_meaning bools nv env b c) /\ (i <> 0%nat -> (length (p_expr_pool (t_prs t)) < i)%nat)) t.
Proof.
  intros Ht. pose proof (un_ordered _ Ht) as Ho. pose proof (grows_refl _ Ho) as Hg. destruct b as [var i|p i n]; cbn [unroll_reference reference_meaning].
  - apply wpe_bind, wpe_lift_outcome; [|by intros ->; apply wpe_ret|by cbn; intros ->]. intros n Hn. rewrite Hn. cbn [mbind option_bind].
    apply good_inv in Hn as Hu.
    destruct (unroll_base_index _ _ _ _ Hu) as (k & -> & -> & Hk). apply wp_push_back_expr. split.
    + apply grows_push; [done|by left|done].
    + split; [|lia]. split; [cbn; rewrite length_app; cbn; lia|]. exists (nv k). split; [done|]. rewrite val_pushed.
      cbn [en_type only resolved_expr fe_nodes en_nodes mbind option_bind lookup_local_bool_id]. unfold node_val.
      by rewrite (proj2 (Nat.ltb_lt _ _) Hk).
  - apply wpe_bind, wpe_lift_outcome; [|by intros ->; apply wpe_ret|by cbn; intros ->]. intros k Hk. rewrite Hk. cbn [mbind option_bind].
    apply wpe_bind, wpe_gets. unfold env_val, lookup_internal_node_expr. destruct (env !! k) as [[d v]|] eqn:Ek.
    + destruct (un_node _ Ht _ _ _ Ek) as (j & x & -> & Hx & Hd & Hle & Hnz & Hv). rewrite Hx, Hd. cbn [mbind option_bind fst snd].
      destruct (Bool.eqb d (negb n)); [|by apply wpe_ret]. apply wp_push_back_expr. split.
      * apply grows_push; [done|right; by constructor|]. intros _. by exists j, x.
      * split; [|lia]. split; [cbn; rewrite length_app; cbn; lia|]. exists v. split; [done|]. rewrite val_pushed. cbn [en_type only resolved_expr fe_nodes en_nodes mbind option_bind].
        by rewrite plain_operand.
    + rewrite (un_none _ Ht _ Ek). by apply wpe_ret.
Qed.
(** A change of the entry that was just added, if not to its operands. *)
Lemma wp_upd_new (E : fault -> Prop) t t' i f (Q : unit -> target -> Prop) ref : ordered (t_prs t) -> grows t t' ->
  (length (p_expr_pool (t_prs t)) < i)%nat -> result t' i ref -> (forall e, resolved_expr (f e) = resolved_expr e) ->
  (forall t'', grows t t'' -> result t'' i ref -> length (p_expr_pool (t_prs t'')) = length (p_expr_pool (t_prs t')) -> Q tt t'') ->
  wpe E (upd_expr_node i f) Q t'.
Proof.
  intros Ho Hg Hi Hr Hf HQ. destruct i as [|k]; [lia|]. destruct Hr as (Hle & v & -> & Hv). unfold upd_expr_node.
  apply wpe_bind, wpe_gets, wpe_bind. destruct (lookup_lt_is_Some_2 (p_expr_pool (t_prs t')) k) as [e He]; [lia|].
  rewrite He. apply wpe_ret, wpe_modify. apply HQ.
  - eapply grows_update; [done|lia|done|done].
  - split; [cbn; by rewrite length_insert|]. exists v. split; [done|]. rewrite <- Hv. apply val_same; [apply Hg|].
    cbn. by apply resolved_update.
  - cbn. by rewrite length_insert.
Qed.

Lemma compiles_literal l c : compiles (unroll_literal bools l c) (literal_meaning bools nv env l c).
Proof.
  intros t Ht. pose proof (un_ordered _ Ht) as Ho. unfold unroll_literal, literal_meaning, literal_ok.
  set (ref := reference_meaning bools nv env (base_type l) c). apply wpe_bind. pose proof (wp_reference (base_type l) c t Ht) as Hw.
  fold ref in Hw. unfold wpe at 1 in Hw. unfold wpe at 1. destruct (unroll_reference bools (base_type l) c t) as [[n t1]|f].
  2: { by rewrite Hw. }
  destruct Hw as (Hg & Hr & Hn). destruct n as [|n]; [apply wpe_ret; split; [done|]; cbn in *; by rewrite Hr|].
  cbn [Nat.eqb]. specialize (Hn ltac:(done)).
  assert (Hno : (v ← ref; _ ← (None : option unit); Some v) = None) by by destruct ref.
  apply wpe_bind, wpe_lift_outcome; [|intros ->; by apply wpe_ret|intros ->; done]. intros ps ->. cbn [mbind option_bind] in *.
  apply wpe_bind. eapply wp_upd_new; [done..|]. intros t2 Hg2 Hr2 _. apply wpe_bind, wpe_require.
  2: { intros ->. by destruct (good (unroll_check_attributes _ _ _)). }
  intros ->. apply wpe_bind, wpe_lift_outcome; [|intros ->; by apply wpe_ret|intros ->; done]. intros rs ->. cbn [mbind option_bind] in *.
  apply wpe_bind. eapply wp_upd_new; [done..|]. intros t3 Hg3 Hr3 _. apply wpe_ret. split; [done|].
  by destruct ref.
Qed.

(** *** Precharges, which leave the conjunction as it is *)
Definition precharge_ref (mref : prs_expr -> option pull_enum) (p : option (prs_expr * bool)) : option pull_enum :=
  match p with Some (x, _) => mref x | None => Some PULL_OFF end.
Lemma wp_precharges (rec : prs_expr -> UM nat) (mref : prs_expr -> option pull_enum) t0 eid v ps :
  unrolled t0 -> (length (p_expr_pool (t_prs t0)) < eid)%nat ->
  Forall (precharge_all (fun e => compiles (rec e) (mref e))) ps -> forall j t, grows t0 t -> result t eid (Some v) ->
  wpe (fun _ => mapM (precharge_ref mref) ps = None) (unroll_precharges rec eid ps j) (fun ok t' => grows t0 t' /\
    result t' eid (Some v) /\ if (ok : bool) then is_Some (mapM (precharge_ref mref) ps) else mapM (precharge_ref mref) ps = None) t.
Proof.
  intros Ht0 Heid. induction 1 as [|p ps Hp _ IH]; intros j t Hg Hr; cbn [unroll_precharges mapM].
  - apply wpe_ret. split_and!; [done..|by eexists].
  - destruct p as [[e dir]|]; cbn [precharge_ref].
    + pose proof (unrolled_grows _ _ Ht0 Hg) as Ht. eapply wp_compiled; [exact Hp|exact Ht|by intros ->|]. intros i t1 Hg1 Ht1 Hri.
      assert (Hg' : grows t0 t1) by (by eapply grows_trans).
      assert (Hr1 : result t1 eid (Some v)) by (eapply result_grows; [exact (un_ordered _ Ht)|done|done]).
      destruct i as [|i]; cbn [Nat.eqb].
      { apply wpe_ret. split_and!; [done..|]. cbn in Hri. by rewrite Hri. }
      destruct Hri as (_ & w & -> & _). apply wpe_bind.
      eapply wp_upd_new; [exact (un_ordered _ Ht0)|exact Hg'|exact Heid|exact Hr1|done|]. intros t2 Hg2 Hr2 _.
      specialize (IH (S j) t2 Hg2 Hr2). unfold wpe in IH |- *. destruct (unroll_precharges _ _ _ _ _) as [[ok t3]|f].
      * destruct IH as (? & ? & Hok). split_and!; [done..|]. destruct ok; [|cbn; by rewrite Hok]. destruct Hok as [vs Hvs]. cbn. rewrite Hvs. by eexists.
      * cbn. by rewrite IH.
    + specialize (IH (S j) t Hg Hr). unfold wpe in IH |- *. destruct (unroll_precharges _ _ _ _ _) as [[ok t3]|f].
      * destruct IH as (? & ? & Hok). split_and!; [done..|]. destruct ok; [|cbn; by rewrite Hok]. destruct Hok as [vs Hvs]. cbn. rewrite Hvs. by eexists.
      * cbn. by rewrite IH.
Qed.

(** *** Expressions *)
Lemma unroll_compiles e : forall c, compiles (unroll bools e c) (meaning bools nv env e c).
Proof.
  induction e as [l|v IH|l p IHl IHp|l IHl|i r b IH|i r b IH] using prs_expr_nested_ind; intros c.
  - apply compiles_literal.
  - apply (compiles_not _ _ (IH c)).
  - intros t Ht. cbn [unroll meaning].
    assert (Hl : Forall (fun x => compiles (unroll bools x c) (meaning bools nv env x c)) l) by (eapply Forall_impl; [exact IHl|]; auto).
    assert (Hp : Forall (precharge_all (fun x => compiles (unroll bools x c) (meaning bools nv env x c))) p).
    { eapply Forall_impl; [exact IHp|]. intros [[]|]; cbn; auto. }
    pose proof (compiles_collect _ _ l PRS_AND_EXPR_TYPE_ENUM k_and PULL_ON t ltac:(by left) (wp_collect _ _ _ Hl) Ht) as Hc.
    change (mapM _ p) with (mapM (precharge_ref (fun x => meaning bools nv env x c)) p).
    unfold wpe, bind in Hc |- *. destruct (collect _ l t) as [[ixs t1]|f]; [|by rewrite Hc].
    destruct (push_back_Nary _ ixs t1) as [[n t2]|f]; [|by rewrite Hc]. destruct Hc as (Hg & Hlt & Hn & Hr).
    destruct n as [|n]; cbn [Nat.eqb].
    { split; [done|]. cbn in Hr |- *. by destruct (mapM _ l). }
    destruct Hn as [|Hn]; [done|]. destruct Hr as (Hle & v & Hv & Hval). apply fmap_Some in Hv as (vs & -> & ->).
    assert (Hr : result t2 (S n) (Some (foldr k_and PULL_ON vs))) by (split; [lia|by eexists]).
    assert (Hlt' : (length (p_expr_pool (t_prs t)) < S n)%nat) by lia.
    pose proof (wp_precharges (fun x => unroll bools x c) (fun x => meaning bools nv env x c) t _ _ p Ht Hlt' Hp 0%nat t2 Hg Hr) as Hpre.
    unfold wpe in Hpre. destruct (unroll_precharges _ _ _ _ t2) as [[ok t3]|f]; [|cbn; by rewrite Hpre].
    destruct Hpre as (Hg3 & Hr3 & Hok). split; [done|]. destruct ok; cbn [mbind option_bind].
    + destruct Hok as [ws ->]. exact Hr3.
    + by rewrite Hok.
  - intros t Ht. cbn [unroll meaning].
    assert (Hl : Forall (fun x => compiles (unroll bools x c) (meaning bools nv env x c)) l) by (eapply Forall_impl; [exact IHl|]; auto).
    eapply wpe_weaken; [|eapply wpe_mono; [exact (compiles_collect _ _ l PRS_OR_EXPR_TYPE_ENUM k_or PULL_OFF t ltac:(by right) (wp_collect _ _ _ Hl) Ht)|]].
    + by intros _ ->.
    + by intros n t' (? & _ & _ & ?).
  - apply (compiles_loop (unroll bools b) (meaning bools nv env b) PRS_AND_EXPR_TYPE_ENUM); [by left|done].
  - apply (compiles_loop (unroll bools b) (meaning bools nv env b) PRS_OR_EXPR_TYPE_ENUM); [by right|done].
Qed.
End Compiles.
