(* ===== verification/PrsRulesProps.v ===== *)
(** Unrolling production rules gives the rules that they mean.

    [rule_meaning] is a reference semantics of the bodies of definitions: the
    list of drives, that is, which bool is pulled which way under a guard of
    which value, by rules with which attributes and supplies; the list of
    macros; and the internal nodes.  [unroll_rule] fills the pools of the
    footprint with just these, and fails only if there is no such list, or on
    account of atomic bools, which the semantics leaves out. *)
From stdpp Require Import strings gmap.
From S2P Require Import Prelude PullSet MetaValue MetaExpr PrsExpr.
From S2P Require Import Expr OrdMap ExprAlloc ExprBuild ExprVisit ExprAllocProps.
From S2P Require Import PrsFootprint PrsRules PrsExprProps PrsUnrollProps.
Open Scope Z_scope.
Local Open Scope hackt_scope.

#[local] Abbreviation length := Datatypes.length.

(** ** Reference semantics *)
Record drive : Type := mkDrive {
  dr_output : nat;
  dr_dir : bool;
  dr_attributes : list resolved_attribute;
  dr_value : pull_enum;
  dr_supplies : supplies
}.
(** What rules do: the drives, the macros, and the nodes from then on. *)
Abbreviation effect := (list drive * list (string * list (list nat)) * node_env)%type.

Definition is_pass_gate (name : string) : bool := String.eqb name "passn" || String.eqb name "passp".
(** A pass gate has a gate, a source and a drain. *)
Definition macro_complete (name : string) (ns : list (list nat)) : bool :=
  negb (is_pass_gate name) || forallb (fun k => bool_decide (is_Some (first_node ns k))) [0; 1; 2]%nat.

(** One after another. *)
Section Sequence.
Context {X : Type} (f : X -> node_env -> option effect).

Fixpoint seq_meaning (l : list X) (env : node_env) : option effect :=
  match l with
  | [] => Some ([], [], env)
  | x :: l' => a ← f x env; b ← seq_meaning l' a.2; Some (a.1.1 ++ b.1.1, a.1.2 ++ b.1.2, b.2)
  end.
End Sequence.

Section Reference.
Context (bools : gmap string bool_collection) (nv : nat -> pull_enum).
(** Per bool: whether it is atomic, and whether it is an input port. *)
Context (ports : list (bool * bool)).

Definition drivable (n : nat) : bool := match pool_at ports n with Some p => negb p.2 | None => false end.
Definition any_atomic : bool := existsb fst ports.

Definition pull_meaning (s : supplies) (dir : bool) (g : prs_expr) (o : bool_literal) (attributes : list generic_attribute)
    (c : unroll_context) (env : node_env) : option effect :=
  v ← meaning bools nv env g c;
  ra ← good (unroll_check_attributes cflat_rule_attribute_registry c attributes);
  match o with
  | internal_node p i _ =>
      k ← good (unroll_node_reference p i c);
      match env !! k with Some _ => None | None => Some ([], [], <[k := (dir, v)]> env) end
  | bool_var _ _ =>
      n ← good (output_node bools o c);
      d ← good (is_diode ra false);
      if (d : bool) || drivable n then Some ([mkDrive n dir ra v s], [], env) else None
  end.
Definition macro_meaning (name : string) (mparams : list param_expr) (mattr : list generic_attribute)
    (nodes : list (list bool_literal)) (c : unroll_context) (env : node_env) : option effect :=
  _ ← good (unroll_params mparams c);
  _ ← good (unroll_check_attributes cflat_literal_attribute_registry c mattr);
  ns ← good (unroll_nodes bools nodes c);
  if macro_complete name ns then Some ([], [(name, ns)], env) else None.
Definition rule_loop_values (i : value_placeholder) (r : meta_range_expr) (c : unroll_context) : option (list Z) :=
  cr ← good (unroll_resolve_range r c);
  if cr.2 <? cr.1 then Some []
  else _ ← good (initialize_footprint i); if cr.2 =? LONG_MAX then None else Some (loop_range cr.1 cr.2).

(** The body of the clause that is taken. *)
Fixpoint taken {A} (c : unroll_context) (l : list (option pbool_expr * A)) : option (option A) :=
  match l with
  | [] => Some None
  | (None, rs) :: _ => Some (Some rs)
  | (Some g, rs) :: l' => b ← good (pbool_unroll_resolve_rvalue g c); if (b : bool) then Some (Some rs) else taken c l'
  end.

(** In a rule set with supplies [s], or outside of any; in a subcircuit if [lock]. *)
Fixpoint rule_meaning (cur : option supplies) (lock : bool) (r : rule) (c : unroll_context) (env : node_env) {struct r}
    : option effect :=
  match r with
  | pull dir g o _ a => s ← cur; pull_meaning s dir g o a c env
  | macro name ps a ns => _ ← cur; macro_meaning name ps a ns c env
  | rule_loop i rg l =>
      zs ← rule_loop_values i rg c;
      seq_meaning (fun z => seq_meaning (fun x => rule_meaning cur lock x (loop_context i c z)) l) zs env
  | rule_conditional cs =>
      b ← taken c (map (fun x => (x.1, seq_meaning (fun y => rule_meaning cur lock y c) x.2)) cs);
      match b with Some f => f env | None => Some ([], [], env) end
  | subcircuit _ l =>
      _ ← cur;
      if lock then None else seq_meaning (fun x => rule_meaning cur true x c) l env
  | rule_set v g vs gs l =>
      match cur with
      | Some _ => None
      | None =>
          s ← good (supplies_of bools v g vs gs c);
          seq_meaning (fun x => rule_meaning (Some s) lock x c) l env
      end
  end.
Definition body_meaning (l : list rule) (c : unroll_context) : option effect :=
  seq_meaning (fun x => rule_meaning None false x c) l ∅.
End Reference.

(** Rules are in rule sets. *)
Fixpoint placed (r : rule) : bool :=
  match r with
  | pull _ _ _ _ _ | macro _ _ _ _ | subcircuit _ _ => false
  | rule_loop _ _ l => forallb placed l
  | rule_conditional cs => forallb (fun c => forallb placed c.2) cs
  | rule_set _ _ _ _ _ => true
  end.

(** ** The footprint holds what was meant *)
Section Correct.
Context (bools : gmap string bool_collection) (nv : nat -> pull_enum) (ports : list (bool * bool)).
#[local] Abbreviation nodes := (length ports).
#[local] Abbreviation val := (val nv nodes).
#[local] Abbreviation unrolled := (unrolled nv nodes).

Definition ports_of (l : list bool_connect) : list (bool * bool) := map (fun b => (bc_atomic b, bc_input_port b)) l.
Record rule_is (t : target) (r : rule_entry) (d : drive) : Prop := {
  ri_output : re_output_index r = dr_output d;
  ri_dir : re_dir r = dr_dir d;
  ri_attributes : re_attributes r = dr_attributes d;
  ri_index : (re_expr_index r <= length (p_expr_pool (t_prs t)))%nat;
  ri_value : val t (re_expr_index r) = Some (dr_value d)
}.
Definition macro_of (m : macro_entry) : string * list (list nat) := (me_name m, me_nodes m).

(** Rule [i] is in the range of an entry with these supplies, and this is the
    entry that is found for it. *)
Definition supplied_by (p : footprint_prs) (i : nat) (s : supplies) : Prop := exists e, e ∈ p_supply_map p /\
  ((rm_rules (se_resources e)).1 <= i < (rm_rules (se_resources e)).2)%nat /\
  mkSupplies (se_Vdd e) (se_GND e) (se_Vdd_substrate e) (se_GND_substrate e) = s /\
  lookup_rule_supply (resolved_prs p) i = Some (resolved_supply e).
Definition triple_le (a b : nat * nat * nat) : Prop := (a.1.1 <= b.1.1)%nat /\ (a.1.2 <= b.1.2)%nat /\ (a.2 <= b.2)%nat.
Record supply_ok (cur : option supplies) (D : list drive) (p : footprint_prs) : Prop := {
  so_current : p_current p = default no_supplies cur;
  so_open : forall s, cur = Some s -> current_Vdd s <> 0%nat;
  so_closed : cur = None -> supplied p = resources_of p;
  so_le : triple_le (supplied p) (resources_of p);
  so_first : Forall (fun e => ((rm_rules (se_resources e)).1 <= (supplied p).1.1)%nat /\
                              ((rm_int_nodes (se_resources e)).1 <= (supplied p).2)%nat) (p_supply_map p);
  so_rules : forall i d, D !! i = Some d ->
    if (i <? (supplied p).1.1)%nat then supplied_by p i (dr_supplies d) else cur = Some (dr_supplies d);
  so_nodes : forall i, (i < (supplied p).2)%nat -> is_Some (lookup_internal_node_supply (resolved_prs p) i)
}.
Record footprint_is (cur : option supplies) (D : list drive) (Ms : list (string * list (list nat))) (env : node_env)
    (t : target) : Prop := {
  fi_unrolled : unrolled env t;
  fi_ports : ports_of (t_bools t) = ports;
  fi_rules : Forall2 (rule_is t) (p_rule_pool (t_prs t)) D;
  fi_macros : map macro_of (p_macro_pool (t_prs t)) = Ms;
  fi_supply : supply_ok cur D (t_prs t)
}.

Lemma supply_ok_same cur D p q : p_supply_map q = p_supply_map p -> p_current q = p_current p ->
  triple_le (resources_of p) (resources_of q) -> (cur = None -> resources_of q = resources_of p) ->
  supply_ok cur D p -> supply_ok cur D q.
Proof.
  intros Em Ec Hle Hn [H1 H2 H3 H4 H5 H6 H7].
  assert (Es : supplied q = supplied p) by (unfold supplied; by rewrite Em).
  split; rewrite ?Es; rewrite ?Em; try done.
  - by rewrite Ec.
  - intros Hc. by rewrite (Hn Hc), H3.
  - unfold triple_le in *. lia.
  - intros i d Hd. specialize (H6 i d Hd). destruct (_ <? _)%nat; [|done]. destruct H6 as (e & He).
    exists e. rewrite Em. unfold lookup_rule_supply, resolved_prs in *. cbn [pf_supply_map] in *. by rewrite Em.
  - intros i Hi%H7. unfold lookup_internal_node_supply, resolved_prs in *. cbn [pf_supply_map] in *. by rewrite Em.
Qed.
Lemma rule_is_grows t t' r d : ordered (t_prs t) -> grows t t' -> rule_is t r d -> rule_is t' r d.
Proof.
  intros Ho Hg [H1 H2 H3 H4 H5]. pose proof (grows_le _ _ Hg). split; [done..|lia|]. rewrite <- H5. by apply val_grows.
Qed.
Lemma footprint_grows cur D Ms env t t' : footprint_is cur D Ms env t -> grows t t' -> footprint_is cur D Ms env t'.
Proof.
  intros [Hu Hp Hr Hm Hs] Hg. pose proof (gr_rest _ _ Hg) as R. pose proof (un_ordered _ _ _ _ Hu) as Ho. split.
  - by eapply unrolled_grows.
  - by rewrite R.
  - assert (E : p_rule_pool (t_prs t') = p_rule_pool (t_prs t)) by by rewrite R. rewrite E.
    eapply Forall2_impl; [exact Hr|]. intros r d. by apply rule_is_grows.
  - by rewrite R.
  - eapply supply_ok_same; [..|exact Hs]; by rewrite R.
Qed.

(** ** The specification of a rule *)
Definition does (cur : option supplies) (m : UM bool) (f : node_env -> option effect) : Prop :=
  forall D Ms env t, footprint_is cur D Ms env t ->
  wpe (fun _ => f env = None \/ any_atomic ports = true) m (fun ok t' =>
    if (ok : bool) then exists e, f env = Some e /\ footprint_is cur (D ++ e.1.1) (Ms ++ e.1.2) e.2 t' else f env = None) t.

(** *** Sequences *)
Lemma does_nothing cur : does cur (ret true) (fun env => Some ([], [], env)).
Proof. intros D Ms env t Ht. apply wpe_ret. eexists. split; [done|]. cbn. by rewrite !app_nil_r. Qed.
Lemma does_all {X} (cur : option supplies) (one : X -> UM bool) (f : X -> node_env -> option effect) l :
  Forall (fun x => does cur (one x) (f x)) l -> does cur (unroll_all one l) (seq_meaning f l).
Proof.
  induction 1 as [|x l Hx _ IH]; intros D Ms env t Ht; cbn [unroll_all seq_meaning]; [by apply (does_nothing cur)|].
  apply wpe_bind. specialize (Hx D Ms env t Ht). unfold wpe at 1. unfold wpe in Hx. destruct (one x t) as [[ok t1]|flt].
  2: { destruct Hx as [->|Ha]; [by left|by right]. }
  destruct ok; [|apply wpe_ret; by rewrite Hx]. destruct Hx as (e & -> & Ht1). cbn [mbind option_bind].
  specialize (IH _ _ _ _ Ht1). unfold wpe in IH |- *. destruct (unroll_all one l t1) as [[ok t2]|flt].
  - destruct ok; [|by rewrite IH]. destruct IH as (e' & -> & Ht2). cbn. eexists. split; [done|]. cbn. by rewrite !app_assoc.
  - destruct IH as [->|Ha]; [by left|by right].
Qed.

(** *** Connections *)
Lemma wp_upd_bool (E : fault -> Prop) n b0 f (Q : bool_connect -> target -> Prop) t :
  pool_at (t_bools t) n = Some b0 -> Q (f b0) (set_bools (<[Nat.pred n := f b0]>) t) -> wpe E (upd_bool n f) Q t.
Proof.
  intros Hb HQ. destruct n as [|k]; [done|]. unfold upd_bool. apply wpe_bind, wpe_gets, wpe_bind. cbn in Hb. rewrite Hb.
  apply wpe_ret, wpe_bind, wpe_modify, wpe_ret. exact HQ.
Qed.
Lemma footprint_bools cur D Ms env t n b0 b1 : footprint_is cur D Ms env t -> pool_at (t_bools t) n = Some b0 ->
  bc_atomic b1 = bc_atomic b0 -> bc_input_port b1 = bc_input_port b0 ->
  footprint_is cur D Ms env (set_bools (<[Nat.pred n := b1]>) t).
Proof.
  intros [Hu Hp Hr Hm Hs] Hb Ha Hi. destruct n as [|k]; [done|]. cbn [pool_at Nat.pred] in *. split; [|..|done].
  - destruct Hu as [? ? ?]. by split.
  - rewrite <- Hp. unfold ports_of. cbn. rewrite (list_fmap_insert (fun b => (bc_atomic b, bc_input_port b))). rewrite Ha, Hi.
    apply list_insert_id. by rewrite list_lookup_fmap, Hb.
  - eapply Forall2_impl; [exact Hr|]. intros r d [? ? ? ? ?]. by split.
  - exact Hm.
Qed.
Lemma ports_at cur D Ms env t n k : footprint_is cur D Ms env t -> n = S k -> (k < nodes)%nat ->
  exists b, pool_at (t_bools t) n = Some b /\ pool_at ports n = Some (bc_atomic b, bc_input_port b).
Proof.
  intros Ht -> Hk. pose proof (fi_ports _ _ _ _ _ Ht) as Hp. destruct (lookup_lt_is_Some_2 (t_bools t) k) as [b Hb].
  { rewrite <- Hp in Hk. unfold ports_of in Hk. by rewrite length_map in Hk. }
  exists b. split; [done|]. rewrite <- Hp. cbn. unfold ports_of. by rewrite (list_lookup_fmap (fun b => _)), Hb.
Qed.
Lemma atomic_at n b : pool_at ports n = Some (bc_atomic b, bc_input_port b) -> bc_atomic b = true -> any_atomic ports = true.
Proof.
  intros Hn Ha. unfold any_atomic. apply existsb_exists. exists (bc_atomic b, bc_input_port b). split; [|done].
  destruct n; [done|]. apply list_elem_of_In. by eapply list_elem_of_lookup_2.
Qed.
Definition in_range (n : nat) : Prop := exists k, n = S k /\ (k < nodes)%nat.
Lemma wp_nonatomic cur D Ms env t n (Q : unit -> target -> Prop) : footprint_is cur D Ms env t -> in_range n ->
  Q tt t -> wpe (fun _ => any_atomic ports = true) (nonatomic_only_prs_literal n) Q t.
Proof.
  intros Ht (k & Hn & Hk) HQ. destruct (ports_at _ _ _ _ _ _ _ Ht Hn Hk) as (b & Hb & Hp).
  unfold nonatomic_only_prs_literal. apply wpe_bind, wpe_gets, wpe_bind. rewrite Hb. apply wpe_ret.
  apply wpe_require; [done|]. intros Ha%negb_false_iff. by eapply atomic_at.
Qed.
Lemma wp_prs_fanout cur D Ms env t n dir : footprint_is cur D Ms env t -> in_range n ->
  wpe (fun _ => any_atomic ports = true) (prs_fanout n dir) (fun _ t' => footprint_is cur D Ms env t' /\ t_prs t' = t_prs t) t.
Proof.
  intros Ht Hn. unfold prs_fanout. apply wpe_bind. eapply wp_nonatomic; [done..|]. destruct Hn as (k & Hn & Hk).
  destruct (ports_at _ _ _ _ _ _ _ Ht Hn Hk) as (b & Hb & Hp). apply wpe_bind. eapply wp_upd_bool; [exact Hb|]. apply wpe_ret.
  split; [|done]. by eapply footprint_bools.
Qed.
Lemma wp_prs_fanin cur D Ms env t n dir : footprint_is cur D Ms env t -> in_range n ->
  wpe (fun _ => any_atomic ports = true) (prs_fanin n dir)
    (fun fig t' => footprint_is cur D Ms env t' /\ t_prs t' = t_prs t /\ fig = drivable ports n) t.
Proof.
  intros Ht Hn. unfold prs_fanin. apply wpe_bind. eapply wp_nonatomic; [done..|]. destruct Hn as (k & Hn & Hk).
  destruct (ports_at _ _ _ _ _ _ _ Ht Hn Hk) as (b & Hb & Hp). apply wpe_bind. eapply wp_upd_bool; [exact Hb|]. apply wpe_ret.
  split_and!; [by eapply footprint_bools|done|]. unfold drivable. by rewrite Hp.
Qed.
Lemma wp_fanouts cur D Ms env dir l : Forall in_range l -> forall t, footprint_is cur D Ms env t ->
  wpe (fun _ => any_atomic ports = true) (for_each l (fun i => prs_fanout i dir))
    (fun _ t' => footprint_is cur D Ms env t' /\ t_prs t' = t_prs t) t.
Proof.
  induction 1 as [|n l Hn _ IH]; intros t Ht; cbn [for_each]; [by apply wpe_ret|]. apply wpe_bind.
  eapply wpe_mono; [by eapply wp_prs_fanout|]. intros [] t1 [Ht1 E1]. eapply wpe_mono; [by apply IH|].
  intros [] t2 [Ht2 E2]. split; [done|congruence].
Qed.

Lemma literal_in_range e v : (n ← only (resolved_expr e); node_val nv nodes (lookup_local_bool_id n)) = Some v ->
  exists l, (n ← en_nodes e !! 0%nat; Some [n]) = Some l /\ Forall in_range l.
Proof.
  intros (n & Hn%only_spec & Hv)%bind_Some. cbn [resolved_expr fe_nodes] in Hn. rewrite Hn. exists [n]. split; [done|].
  constructor; [|constructor]. unfold node_val in Hv. destruct n as [|m]; [done|]. cbn [lookup_local_bool_id] in Hv.
  destruct (Nat.ltb_spec m nodes); [|done]. by exists m.
Qed.
Lemma Forall_s_of_list (P : nat -> Prop) l : Forall P l -> Forall P (s_of_list l).
Proof. intros H. apply list.Forall_forall. intros x Hx%(proj1 (elem_of_s_of_list _ _)). exact (proj1 (list.Forall_forall P l) H x Hx). Qed.
(** An expression with a value is well-formed throughout. *)
Lemma collect_ok p fuel : ordered p -> forall fuel' i v, (i < fuel')%nat -> val_of nv nodes p fuel i = Some v ->
  exists l, collect_literal_indices p fuel' i = Some l /\ Forall in_range l.
Proof.
  intros Ho. unfold val_of. induction fuel as [|fuel IH]; intros [|fuel'] i v Hi E; try done; [lia|].
  cbn [plain_val collect_literal_indices] in *. destruct i as [|k]; [done|]. cbn [pool_at] in *.
  apply bind_Some in E as (e' & He & E). change ((resolved_expr <$> p_expr_pool p) !! k = Some e') in He. rewrite list_lookup_fmap in He. destruct (p_expr_pool p !! k) as [e|] eqn:Ek; [|done].
  injection He as <-. cbn [mbind option_bind]. destruct (Ho _ _ Ek) as [[Hl|Hall] _].
  - change (fe_type (resolved_expr e)) with (en_type e) in E. rewrite Hl in *. by eapply literal_in_range.
  - assert (Hops : forall vs, mapM (plain_val nv nodes (resolved_prs p) fuel) (en_nodes e) = Some vs ->
      exists l, mjoin <$> mapM (collect_literal_indices p fuel') (en_nodes e) = Some l /\ Forall in_range l).
    { revert Hall. induction (en_nodes e) as [|n ns IHn]; intros Hall vs Hvs; cbn in *; [by exists []|]. apply Forall_cons in Hall as [Hn Hall].
      apply bind_Some in Hvs as (w & Hw & (ws & Hws & _)%bind_Some).
      destruct (IH fuel' n w ltac:(lia) Hw) as (l1 & -> & H1). destruct (IHn Hall _ Hws) as (l2 & (ls & -> & ->)%fmap_Some & H2).
      cbn. eexists. split; [done|]. by apply Forall_app. }
    change (fe_type (resolved_expr e)) with (en_type e) in E. destruct (en_type e) eqn:Et.
    + by eapply literal_in_range.
    + apply bind_Some in E as (n & Hn & (w & Hw & _)%fmap_Some). apply (Hops [w]). apply only_spec in Hn. change (en_nodes e = [n]) in Hn. rewrite Hn.
      cbn. by rewrite Hw.
    + apply fmap_Some in E as (vs & Hvs & _). by apply (Hops vs).
    + apply fmap_Some in E as (vs & Hvs & _). by apply (Hops vs).
    + eexists. split; [done|]. constructor.
Qed.
Lemma wp_literal_indices (E : fault -> Prop) env t g v (Q : list nat -> target -> Prop) : unrolled env t ->
  (g <= length (p_expr_pool (t_prs t)))%nat -> val t g = Some v -> (forall l, Forall in_range l -> Q l t) ->
  wpe E (literal_indices g) Q t.
Proof.
  intros Hu Hg Hv HQ. unfold literal_indices. apply wpe_bind, wpe_gets, wpe_bind.
  destruct (collect_ok (t_prs t) g (un_ordered _ _ _ _ Hu) (S (length (p_expr_pool (t_prs t)))) g v) as (l & -> & Hl); [lia|exact Hv|].
  apply wpe_ret, wpe_ret, HQ. by apply Forall_s_of_list.
Qed.

(** *** A rule is added *)
Lemma footprint_push_rule s D Ms env t g n dir ra v : footprint_is (Some s) D Ms env t ->
  (g <= length (p_expr_pool (t_prs t)))%nat -> val t g = Some v ->
  footprint_is (Some s) (D ++ [mkDrive n dir ra v s]) Ms env
    (set_prs (fun p => set_rules (p_rule_pool p ++ [mkRuleEntry g n dir ra]) p) t).
Proof.
  intros [Hu Hp Hr Hm Hs] Hg Hv. set (t' := set_prs _ t).
  assert (Hsame : forall r d, rule_is t r d -> rule_is t' r d) by (intros r d [? ? ? ? ?]; by split).
  pose proof (Forall2_length _ _ _ Hr) as Hlen. split; [|done| |done|].
  - destruct Hu. by split.
  - cbn. apply Forall2_app; [by eapply Forall2_impl|]. constructor; [by split|constructor].
  - destruct (supply_ok_same (Some s) D (t_prs t) (t_prs t')) as [H1 H2 H3 H4 H5 H6 H7]; try done.
    { unfold triple_le, resources_of. cbn. rewrite length_app. cbn. lia. }
    split; try done. intros i d [Hd|[Hi Hd]]%lookup_app_Some; [by apply H6|].
    apply list_lookup_singleton_Some in Hd as [Hi0 <-]. cbn [dr_supplies].
    destruct (Nat.ltb_spec i (supplied (t_prs t')).1.1) as [Hlt|]; [|done]. exfalso.
    destruct Hs as [_ _ _ [Hle _] _ _ _]. change (supplied (t_prs t')) with (supplied (t_prs t)) in Hlt.
    change (resources_of (t_prs t)).1.1 with (length (p_rule_pool (t_prs t))) in Hle. lia.
Qed.

(** *** A node is defined *)
Lemma footprint_push_node s D Ms env t k g dir ra v : footprint_is (Some s) D Ms env t -> env !! k = None ->
  (g <= length (p_expr_pool (t_prs t)))%nat -> g <> 0%nat -> val t g = Some v ->
  footprint_is (Some s) D Ms (<[k := (dir, v)]> env)
    (set_prs (fun p => set_nodes (p_internal_node_pool p ++ [mkNodeExpr g dir k ra])
       (<[k := length (p_internal_node_pool p)]> (p_internal_node_expr_map p)) p) t).
Proof.
  intros [Hu Hp Hr Hm Hs] Hk Hg Hz Hv. set (t' := set_prs _ t). split; [|done| |done|].
  - destruct Hu as [Ho Hn H0]. split.
    + intros i e He. destruct (Ho i e He) as [H1 H2]. split; [done|]. intros (j & n & Hj & Hen)%H2. exists j, n. split; [|done].
      cbn. by apply lookup_app_l_Some.
    + intros k' d w Hk'. cbn. destruct (decide (k' = k)) as [->|Hne].
      * rewrite (lookup_insert_eq env k (dir, v)) in Hk'. injection Hk' as <- <-.
        eexists (length (p_internal_node_pool (t_prs t))), _. rewrite (lookup_insert_eq (p_internal_node_expr_map (t_prs t)) k).
        rewrite lookup_app_r, Nat.sub_diag by done. cbn [lookup list_lookup ne_dir ne_expr]. by split_and!.
      * rewrite (lookup_insert_ne env) in Hk' by done. destruct (Hn _ _ _ Hk') as (j & n & H1 & H2 & H3).
        exists j, n. rewrite (lookup_insert_ne (p_internal_node_expr_map (t_prs t))) by done. split; [done|]. split; [|exact H3]. by apply lookup_app_l_Some.
    + intros k' Hk'. cbn. destruct (decide (k' = k)) as [->|Hne]; [by rewrite (lookup_insert_eq env) in Hk'|].
      rewrite (lookup_insert_ne env) in Hk' by done. rewrite (lookup_insert_ne (p_internal_node_expr_map (t_prs t))) by done. by apply H0.
  - eapply Forall2_impl; [exact Hr|]. intros r d [? ? ? ? ?]. by split.
  - eapply supply_ok_same; [..|exact Hs]; try done. unfold triple_le, resources_of. cbn. rewrite length_app. cbn. lia.
Qed.

Context (Hbools : bools_within nodes bools).
Lemma output_in_range o c n : output_node bools o c = Good n -> in_range n.
Proof. destruct o; [|done]. intros (k & _ & -> & Hk)%(unroll_base_index nodes _ Hbools). by exists k. Qed.

Lemma does_driver s o guard dir ra c v D Ms env t : footprint_is (Some s) D Ms env t ->
  (guard <= length (p_expr_pool (t_prs t)))%nat -> val t guard = Some v ->
  let ref := n ← good (output_node bools o c); d ← good (is_diode ra false);
    if (d : bool) || drivable ports n then Some ([mkDrive n dir ra v s], [], env) else None : option effect in
  wpe (fun _ => ref = None \/ any_atomic ports = true) (unroll_driver bools o guard dir ra c) (fun ok t' =>
    if (ok : bool) then exists e, ref = Some e /\ footprint_is (Some s) (D ++ e.1.1) (Ms ++ e.1.2) e.2 t' else ref = None) t.
Proof.
  intros Ht Hg Hv ref. unfold unroll_driver.
  apply wpe_bind, wpe_lift_outcome; [|intros E; apply wpe_ret; unfold ref; by rewrite E|intros E _; left; unfold ref; by rewrite E].
  intros n En. pose proof (output_in_range _ _ _ (good_inv _ _ En)) as Hn.
  assert (Hd : forall d, good (is_diode ra false) = d ->
    ref = (d ← d; if (d : bool) || drivable ports n then Some ([mkDrive n dir ra v s], [], env) else None)).
  { intros d <-. unfold ref. by rewrite En. }
  clearbody ref. apply wpe_bind, wpe_lift_outcome.
  2: { intros E. apply wpe_bind, wpe_of_option; [done|]. intros _. left. by rewrite (Hd _ E). }
  2: { intros E _. left. by rewrite (Hd _ E). }
  intros d Ed. apply Hd in Ed as ->. cbn [mbind option_bind]. apply wpe_bind, wpe_of_option; [|done]. intros _ [= <-].
  eapply wpe_weaken; [intros f Hf; right; exact Hf|]. apply wpe_bind.
  assert (Hfig : wpe (fun _ => any_atomic ports = true) (if d then ret true else prs_fanin n dir)
    (fun fig t1 => footprint_is (Some s) D Ms env t1 /\ t_prs t1 = t_prs t /\ fig = d || drivable ports n) t).
  { destruct d; [by apply wpe_ret|]. by eapply wp_prs_fanin. }
  eapply wpe_mono; [exact Hfig|]. intros fig t1 (Ht1 & E1 & ->). apply wpe_bind.
  eapply wp_literal_indices; [apply Ht1|by rewrite E1|unfold PrsUnrollProps.val; rewrite E1; exact Hv|]. intros l Hl. apply wpe_bind.
  eapply wpe_mono; [by eapply wp_fanouts|]. intros [] t2 [Ht2 E2]. destruct (d || drivable ports n); [|by apply wpe_ret].
  apply wpe_bind. unfold push_back_rule, upd_prs. apply wpe_modify, wpe_ret. eexists. split; [done|]. cbn [fst snd]. rewrite app_nil_r.
  apply footprint_push_rule; [done|by rewrite E2, E1|]. unfold PrsUnrollProps.val. by rewrite E2, E1.
Qed.
Lemma does_pull s dir g o a c : does (Some s) (unroll_pull bools dir g o a c) (pull_meaning bools nv ports s dir g o a c).
Proof.
  intros D Ms env t Ht. pose proof (fi_unrolled _ _ _ _ _ Ht) as Hu. unfold unroll_pull, pull_meaning.
  eapply wp_compiled; [by apply unroll_compiles|exact Hu|intros ->; by left|]. intros guard t1 Hg Hu1 Hr.
  pose proof (footprint_grows _ _ _ _ _ _ Ht Hg) as Ht1. destruct guard as [|gi]; [apply wpe_ret; cbn in Hr; by rewrite Hr|].
  cbn [Nat.eqb]. destruct Hr as (Hle & v & -> & Hv). cbn [mbind option_bind].
  apply wpe_bind, wpe_lift_outcome; [|intros ->; by apply wpe_ret|intros ->; by left]. intros ra ->. cbn [mbind option_bind].
  destruct o as [var i|q i n]; [by apply does_driver|]. unfold unroll_internal_node.
  apply wpe_bind, wpe_lift_outcome; [|intros ->; by apply wpe_ret|intros ->; by left]. intros k ->. cbn [mbind option_bind].
  unfold register_internal_node_expr. apply wpe_bind, wpe_gets. destruct (env !! k) as [[d w]|] eqn:Ek.
  - destruct (un_node _ _ _ _ Hu1 _ _ _ Ek) as (j & x & -> & _). by apply wpe_ret.
  - rewrite (un_none _ _ _ _ Hu1 _ Ek). apply wpe_bind. unfold upd_prs. apply wpe_modify, wpe_ret. eexists. split; [done|].
    cbn [fst snd]. rewrite !app_nil_r. by apply footprint_push_node.
Qed.

(** *** Macros *)
Lemma footprint_macros s D Ms Ms' env t l : footprint_is (Some s) D Ms env t -> map macro_of l = Ms' ->
  (length (p_macro_pool (t_prs t)) <= length l)%nat ->
  footprint_is (Some s) D Ms' env (set_prs (set_macros l) t).
Proof.
  intros [Hu Hp Hr Hm Hs] El Hl. split; [|done| |done|].
  - destruct Hu. by split.
  - eapply Forall2_impl; [exact Hr|]. intros r d [? ? ? ? ?]. by split.
  - by eapply supply_ok_same; [..|exact Hs].
Qed.
Lemma wp_upd_last_macro (E : fault -> Prop) l m f (Q : unit -> target -> Prop) t :
  Q tt (set_prs (set_macros (l ++ [f m])) t) -> wpe E (upd_last_macro f) Q (set_prs (set_macros (l ++ [m])) t).
Proof.
  intros HQ. unfold upd_last_macro. apply wpe_bind, wpe_gets, wpe_bind. cbn [set_prs t_prs set_macros p_macro_pool].
  rewrite length_app, Nat.add_1_r. cbn [Nat.pred]. rewrite lookup_app_r, Nat.sub_diag by done. apply wpe_ret. unfold upd_prs.
  apply wpe_modify. unfold set_prs, set_macros in *. cbn in *. rewrite insert_app_r_alt, Nat.sub_diag by done. exact HQ.
Qed.
Lemma unroll_group_range l c : forall ns, unroll_group bools l c = Good ns -> Forall in_range ns.
Proof.
  induction l as [|b l IH]; intros ns E; cbn in E; [by injection E as <-|].
  destruct (output_node bools b c) as [n| | |] eqn:En; try done. cbn in E.
  destruct (unroll_group bools l c) as [ns'| | |]; try done. injection E as <-. constructor; [by eapply output_in_range|by apply IH].
Qed.
Lemma unroll_nodes_range l c : forall nss, unroll_nodes bools l c = Good nss -> Forall (Forall in_range) nss.
Proof.
  induction l as [|g l IH]; intros nss E; cbn in E; [by injection E as <-|].
  destruct (unroll_group bools g c) as [ns| | |] eqn:En; try done. cbn in E. unfold invariant in E. destruct (negb _); [|done].
  cbn in E. destruct (unroll_nodes bools l c) as [nss'| | |]; try done. injection E as <-.
  constructor; [by eapply Forall_s_of_list, unroll_group_range|by apply IH].
Qed.
Lemma first_node_range nss k n : Forall (Forall in_range) nss -> first_node nss k = Some n -> in_range n.
Proof.
  intros Hall (g & Hg & Hn)%bind_Some. eapply Forall_lookup_1 in Hg; [|exact Hall]. by eapply Forall_lookup_1 in Hn.
Qed.
Lemma wp_connect_pass_gate cur D Ms env t name ns : footprint_is cur D Ms env t -> Forall (Forall in_range) ns ->
  wpe (fun _ => macro_complete name ns = false \/ any_atomic ports = true) (connect_pass_gate name ns)
    (fun _ t' => footprint_is cur D Ms env t' /\ macro_complete name ns = true) t.
Proof.
  intros Ht Hns. unfold connect_pass_gate, macro_complete. fold (is_pass_gate name). apply wpe_when; intros Hpg; rewrite Hpg; [|done].
  cbn [negb orb forallb].
  assert (Hone : forall k (E : fault -> Prop) (Q : nat -> target -> Prop), (first_node ns k = None -> forall f, E f) ->
    (forall n, first_node ns k = Some n -> in_range n -> Q n t) -> wpe E (of_option F_index (first_node ns k)) Q t).
  { intros k E Q H1 H2. apply wpe_of_option; [|by intros Hn; apply H1]. intros n Hn. apply H2; [done|]. by eapply first_node_range. }
  apply wpe_bind, Hone; [intros ->; by left|]. intros g -> Hg.
  apply wpe_bind, Hone; [intros ->; by left|]. intros s -> Hs.
  apply wpe_bind, Hone; [intros ->; by left|]. intros d -> Hd. rewrite !bool_decide_true by by eexists. cbn [andb].
  eapply wpe_weaken; [intros f Hf; right; exact Hf|].
  apply wpe_bind. eapply wpe_mono; [by eapply wp_prs_fanout|]. intros [] t1 [Ht1 _].
  apply wpe_bind. eapply wpe_mono; [by eapply wp_prs_fanout|]. intros [] t2 [Ht2 _].
  apply wpe_bind. eapply wpe_mono; [by eapply wp_prs_fanin|]. intros fig t3 (Ht3 & _). by apply wpe_ret.
Qed.
Lemma does_macro s name mparams mattr nodes c :
  does (Some s) (unroll_macro bools name mparams mattr nodes c) (macro_meaning bools name mparams mattr nodes c).
Proof.
  intros D Ms env t Ht. unfold unroll_macro, macro_meaning. apply wpe_bind. unfold upd_prs. apply wpe_modify.
  change (set_prs (fun p => set_macros (p_macro_pool p ++ [mkMacroEntry name [] [] []]) p) t)
    with (set_prs (set_macros (p_macro_pool (t_prs t) ++ [mkMacroEntry name [] [] []])) t).
  apply wpe_bind, wpe_lift_outcome; [|intros ->; by apply wpe_ret|intros ->; by left]. intros ps ->. cbn [mbind option_bind].
  apply wpe_bind, wp_upd_last_macro.
  apply wpe_bind, wpe_lift_outcome; [|intros ->; by apply wpe_ret|intros ->; by left]. intros rs ->. cbn [mbind option_bind].
  apply wpe_bind, wp_upd_last_macro.
  apply wpe_bind, wpe_lift_outcome; [|intros ->; by apply wpe_ret|intros ->; by left]. intros ns En. rewrite En. cbn [mbind option_bind].
  apply wpe_bind, wp_upd_last_macro. apply wpe_bind. cbn [me_name me_params me_attributes].
  set (t1 := set_prs _ t).
  assert (Ht1 : footprint_is (Some s) D (Ms ++ [(name, ns)]) env t1).
  { apply footprint_macros with (Ms := Ms); [done| |rewrite length_app; lia]. rewrite map_app. by rewrite (fi_macros _ _ _ _ _ Ht). }
  eapply wpe_weaken; [|eapply wpe_mono; [apply (wp_connect_pass_gate _ _ _ _ _ name ns Ht1)|]].
  - intros f [->|Ha]; [by left|by right].
  - by apply good_inv in En as En'%unroll_nodes_range.
  - intros [] t2 [Ht2 ->]. apply wpe_ret. eexists. split; [done|]. cbn [fst snd]. by rewrite app_nil_r.
Qed.

(** *** Loops, conditionals and subcircuits *)
Lemma does_loop (cur : option supplies) (body : unroll_context -> UM bool) (f : unroll_context -> node_env -> option effect) i r c :
  (forall c', does cur (body c') (f c')) ->
  does cur (unroll_rule_loop body i r c)
    (fun env => zs ← rule_loop_values i r c; seq_meaning (fun z => f (loop_context i c z)) zs env).
Proof.
  intros Hb D Ms env t Ht. unfold unroll_rule_loop, rule_loop_values.
  apply wpe_bind, wpe_lift_outcome; [|intros ->; by apply wpe_ret|intros ->; by left]. intros [min max] ->.
  cbn [mbind option_bind fst snd]. destruct (max <? min); [by apply (does_nothing cur)|].
  unfold initialize_footprint, invariant. destruct (bool_decide _); [|by left]. cbn [good mbind option_bind]. apply wpe_bind, wpe_ret, wpe_bind.
  pose proof (does_all cur (fun v => body (loop_context i c v)) (fun v => f (loop_context i c v)) (loop_range min max)
    (Forall_true _ _ (fun v => Hb _)) D Ms env t Ht) as Hl.
  unfold wpe at 1. unfold wpe in Hl. destruct (unroll_all _ _ t) as [[ok t1]|flt].
  - destruct (max =? LONG_MAX).
    + destruct ok; [by left|by apply wpe_ret].
    + destruct ok; [|by apply wpe_ret]. by apply wpe_bind, wpe_ret.
  - destruct (max =? LONG_MAX); [by left|exact Hl].
Qed.
Lemma does_clauses (cur : option supplies) (body : list rule -> UM bool) (f : list rule -> node_env -> option effect) c l :
  Forall (fun x => does cur (body x.2) (f x.2)) l ->
  does cur (unroll_clauses body c l) (fun env => b ← taken c (map (fun x => (x.1, f x.2)) l);
    match b with Some f => f env | None => Some ([], [], env) end).
Proof.
  induction 1 as [|[[g|] rs] l Hx _ IH]; intros D Ms env t Ht; cbn [unroll_clauses taken map fst snd].
  - by apply (does_nothing cur).
  - apply wpe_bind, wpe_lift_outcome; [|intros ->; by apply wpe_ret|intros ->; by left]. intros b ->. cbn [mbind option_bind].
    destruct b; [by apply Hx|by apply IH].
  - by apply Hx.
Qed.
Lemma does_subcircuit s (body : UM bool) f name : does (Some s) body f ->
  does (Some s) (unroll_subcircuit body false name) f.
Proof.
  intros Hb D Ms env t Ht. unfold unroll_subcircuit. apply wpe_bind, wpe_gets, wpe_bind.
  eapply wpe_mono; [by apply Hb|]. intros ok t1 H1. apply wpe_bind. unfold upd_prs. apply wpe_modify, wpe_ret.
  destruct ok; [|done]. destruct H1 as (e & He & [Hu Hp Hr Hm Hs]). exists e. split; [done|]. split; [|done| |done|].
  - destruct Hu. by split.
  - eapply Forall2_impl; [exact Hr|]. intros r d [? ? ? ? ?]. by split.
  - by eapply supply_ok_same; [..|exact Hs].
Qed.

(** *** Rule sets *)
Lemma supply_last_le_app first i l e : supply_last_le first i (l ++ [e]) =
  if forallb (fun x => first x <=? i)%nat l && (first e <=? i)%nat then Some e else supply_last_le first i l.
Proof.
  induction l as [|x l IH]; cbn [app supply_last_le forallb].
  - rewrite Nat.ltb_antisym. by destruct (first e <=? i)%nat.
  - rewrite IH, Nat.ltb_antisym. destruct (first x <=? i)%nat; cbn [negb andb]; [|done]. by destruct (_ && _).
Qed.
Lemma supplied_push p e : supplied (set_supply_map (p_supply_map p ++ [e]) p) =
  ((rm_rules (se_resources e)).2, (rm_macros (se_resources e)).2, (rm_int_nodes (se_resources e)).2).
Proof. unfold supplied. cbn. by rewrite last_snoc. Qed.

Lemma supply_close s D p : supply_ok (Some s) D p -> length D = length (p_rule_pool p) ->
  supply_ok None D (set_current no_supplies (push_supply s p)).
Proof.
  intros [H1 H2 H3 H4 H5 H6 H7] Hlen. unfold push_supply. destruct (bool_decide _) eqn:Eb.
  - apply bool_decide_eq_true in Eb. change (supplied (set_current no_supplies p)) with (supplied p) in *. split; try done.
    intros i d Hd. specialize (H6 i d Hd). change (supplied (set_current no_supplies p)) with (supplied p).
    apply lookup_lt_Some in Hd. rewrite Eb in H6 |- *. cbn [resources_of fst] in *. by rewrite (proj2 (Nat.ltb_lt _ _)) in H6 |- * by lia.
  - set (e := mkSupplyEntry _ _ _ _ _). set (q := set_current _ _).
    assert (Esup : supplied q = resources_of p) by apply (supplied_push p e).
    assert (Ef : forallb (fun x => so_rules_first x <=? (supplied p).1.1)%nat (map resolved_supply (p_supply_map p)) = true /\
                 forallb (fun x => so_int_nodes_first x <=? (supplied p).2)%nat (map resolved_supply (p_supply_map p)) = true).
    { clear -H5. induction H5 as [|x l [Hx1 Hx2] _ [IH1 IH2]]; [done|]. cbn. by rewrite IH1, IH2, !(proj2 (Nat.leb_le _ _)). }
    assert (Hmono : forall (f : supply_override_entry -> nat) (a b : nat) l, (a <= b)%nat ->
      forallb (fun x => f x <=? a)%nat l = true -> forallb (fun x => f x <=? b)%nat l = true).
    { intros f a b l Hab. rewrite !forallb_forall. intros H x Hx%H. apply Nat.leb_le in Hx. apply Nat.leb_le. lia. }
    assert (Emap : pf_supply_map (resolved_prs q) = map resolved_supply (p_supply_map p) ++ [resolved_supply e]) by (cbn; by rewrite map_app).
    split; rewrite ?Esup; try done.
    + change (p_supply_map q) with (p_supply_map p ++ [e]). destruct H4 as (? & ? & ?). apply Forall_app. split.
      * eapply Forall_impl; [exact H5|]. cbn beta. lia.
      * constructor; [|constructor]. by split.
    + intros i d Hd. specialize (H6 i d Hd). apply lookup_lt_Some in Hd.
      rewrite (proj2 (Nat.ltb_lt i (resources_of p).1.1)) by (cbn; lia).
      destruct (Nat.ltb_spec i (supplied p).1.1) as [Hlt|Hge].
      * destruct H6 as (e' & He' & Hr & Hs & Hl). exists e'. split_and!; [cbn; apply elem_of_app; by left|lia|lia|done|].
        unfold lookup_rule_supply in *. rewrite Emap, supply_last_le_app.
        rewrite (proj2 (Nat.leb_gt (so_rules_first (resolved_supply e)) i)) by (cbn; lia). by rewrite andb_false_r.
      * injection H6 as <-. exists e. split_and!; [cbn; apply elem_of_app; right; by left|cbn; lia|cbn; lia|by destruct s|].
        unfold lookup_rule_supply. rewrite Emap, supply_last_le_app. rewrite (Hmono _ _ i _ Hge (proj1 Ef)).
        by rewrite (proj2 (Nat.leb_le (so_rules_first (resolved_supply e)) i)) by (cbn; lia).
    + intros i Hi. unfold lookup_internal_node_supply in *. rewrite Emap, supply_last_le_app.
      destruct (Nat.ltb_spec i (supplied p).2) as [Hlt|Hge]; [destruct (_ && _); [by eexists|by apply H7]|].
      rewrite (Hmono _ _ i _ Hge (proj2 Ef)). rewrite (proj2 (Nat.leb_le (so_int_nodes_first (resolved_supply e)) i)) by (cbn; lia). by eexists.
Qed.

Lemma footprint_current cur cur' D Ms env t p : footprint_is cur D Ms env t ->
  p_rule_pool p = p_rule_pool (t_prs t) -> p_expr_pool p = p_expr_pool (t_prs t) ->
  p_macro_pool p = p_macro_pool (t_prs t) -> p_internal_node_pool p = p_internal_node_pool (t_prs t) ->
  p_internal_node_expr_map p = p_internal_node_expr_map (t_prs t) -> supply_ok cur' D p ->
  footprint_is cur' D Ms env (set_prs (fun _ => p) t).
Proof.
  intros [Hu Hp Hr Hm Hs] Er Ee Em En Ep Hs'.
  assert (Hv : forall i, val (set_prs (fun _ => p) t) i = val t i).
  { intros i. apply val_same; [apply Hu|]. cbn. by rewrite Ee. }
  split; [|done| | |done].
  - destruct Hu as [Ho Hn H0]. split.
    + intros k e He. cbn in *. rewrite Ee in He. destruct (Ho k e He) as [? Hn']. split; [done|]. unfold node_resolves in *. by rewrite En.
    + intros k d v (j & n & H1 & H2 & H3 & H4 & H5 & H6)%Hn. exists j, n. rewrite Hv. cbn. by rewrite Ep, En, Ee.
    + intros k Hk%H0. cbn. by rewrite Ep.
  - cbn. rewrite Er. eapply Forall2_impl; [exact Hr|]. intros r d [? ? ? ? ?]. split; try done; [cbn; by rewrite Ee|by rewrite Hv].
  - cbn. by rewrite Em.
Qed.
Lemma supplies_nonzero v g vs gs c s : supplies_of bools v g vs gs c = Good s -> current_Vdd s <> 0%nat.
Proof.
  unfold supplies_of. destruct (supply_of bools v _ c) as [n1| | |]; try done. cbn [obind].
  destruct (supply_of bools g _ c) as [n2| | |]; try done. cbn [obind]. unfold invariant.
  destruct (negb _ && negb _) eqn:E; [|done]. cbn [obind]. destruct (supply_of bools vs _ c); try done. cbn [obind].
  destruct (supply_of bools gs _ c); try done. intros [= <-]. cbn.
  apply andb_true_iff in E as [E _]. apply negb_true_iff, Nat.eqb_neq in E. exact E.
Qed.
Lemma does_rule_set (body : UM bool) (f : supplies -> node_env -> option effect) v g vs gs c :
  (forall s, does (Some s) body (f s)) ->
  does None (unroll_rule_set bools body v g vs gs c) (fun env => s ← good (supplies_of bools v g vs gs c); f s env).
Proof.
  intros Hb D Ms env t Ht. unfold unroll_rule_set. apply wpe_bind, wpe_gets.
  pose proof (fi_supply _ _ _ _ _ Ht) as [Hcur _ Hclosed Hle Hfirst Hrules Hnodes]. cbn beta. rewrite Hcur. cbn [default no_supplies current_Vdd current_GND].
  apply wpe_bind, wpe_ret. rewrite bool_decide_true by by apply Hclosed. apply wpe_bind, wpe_ret.
  apply wpe_bind, wpe_lift_outcome; [|intros ->; by apply wpe_ret|intros ->; by left]. intros s Es. rewrite Es. cbn [mbind option_bind].
  pose proof (supplies_nonzero _ _ _ _ _ _ (good_inv _ _ Es)) as Hs.
  apply wpe_bind. unfold upd_prs at 1. apply wpe_modify, wpe_bind. change (set_prs (set_current s) t) with (set_prs (fun _ => set_current s (t_prs t)) t).
  assert (Ht1 : footprint_is (Some s) D Ms env (set_prs (fun _ => set_current s (t_prs t)) t)).
  { eapply footprint_current; [exact Ht|done..|]. split; try done; [by intros ? [= <-]|].
    intros i d Hd. specialize (Hrules i d Hd). change (supplied (set_current s (t_prs t))) with (supplied (t_prs t)).
    destruct (_ <? _)%nat; [exact Hrules|done]. }
  specialize (Hb s D Ms env _ Ht1). unfold wpe in Hb. unfold wpe at 1. destruct (body _) as [[ok t2]|flt]; [|exact Hb].
  destruct ok; cycle 1; [by apply wpe_bind, wpe_ret, wpe_bind, wpe_modify, wpe_ret|].
  destruct Hb as (e & -> & Ht2). apply wpe_bind. unfold upd_prs. apply wpe_modify, wpe_bind, wpe_modify, wpe_ret.
  exists e. split; [done|]. 
  set (p := set_current no_supplies (push_supply s (t_prs t2))).
  change (set_prs (set_current no_supplies) (set_prs (push_supply s) t2)) with (set_prs (fun _ => p) t2).
  eapply footprint_current; [exact Ht2|unfold p, push_supply; by destruct (bool_decide _)..|].
  apply supply_close; [apply Ht2|]. symmetry. eapply Forall2_length, Ht2.
Qed.

(** *** Rules *)
Lemma does_rule lock_in r : forall cur c, (cur = None -> placed r = true) ->
  does cur (unroll_rule bools lock_in r c) (rule_meaning bools nv ports cur lock_in r c).
Proof.
  revert lock_in. induction r as [d g o a l|n p a l|i rg l IH|l IH|n l IH|v g vs gs l IH] using rule_nested_ind; intros lock_in cur c Hpl.
  - destruct cur as [s|]; [|by specialize (Hpl eq_refl)]. apply does_pull.
  - destruct cur as [s|]; [|by specialize (Hpl eq_refl)]. apply does_macro.
  - cbn [unroll_rule rule_meaning]. apply (does_loop cur (fun c' => unroll_all (fun x => unroll_rule bools lock_in x c') l)
      (fun c' => seq_meaning (fun x => rule_meaning bools nv ports cur lock_in x c') l)).
    intros c'. apply does_all. destruct cur as [s|].
    + eapply Forall_impl; [exact IH|]. intros x Hx. by apply Hx.
    + specialize (Hpl eq_refl). cbn in Hpl. eapply forallb_Forall; [|exact Hpl]. eapply Forall_impl; [exact IH|]. intros x Hx Hp. by apply Hx.
  - cbn [unroll_rule rule_meaning].
    apply (does_clauses cur (unroll_all (fun x => unroll_rule bools lock_in x c)) (fun rs => seq_meaning (fun y => rule_meaning bools nv ports cur lock_in y c) rs)).
    assert (Hone : forall rs, Forall (fun r => forall lock_in cur c, (cur = None -> placed r = true) ->
        does cur (unroll_rule bools lock_in r c) (rule_meaning bools nv ports cur lock_in r c)) rs -> (cur = None -> forallb placed rs = true) ->
      does cur (unroll_all (fun x => unroll_rule bools lock_in x c) rs) (seq_meaning (fun y => rule_meaning bools nv ports cur lock_in y c) rs)).
    { intros rs Hrs Hp. apply does_all. destruct cur as [s|].
      - eapply Forall_impl; [exact Hrs|]. intros x Hx. by apply Hx.
      - eapply forallb_Forall; [|by apply Hp]. eapply Forall_impl; [exact Hrs|]. intros x Hx Hpx. by apply Hx. }
    destruct cur as [s|].
    + eapply Forall_impl; [exact IH|]. intros x Hx. by apply Hone.
    + specialize (Hpl eq_refl). cbn in Hpl. eapply forallb_Forall; [|exact Hpl]. eapply Forall_impl; [exact IH|]. intros x Hx Hpx. by apply Hone.
  - destruct cur as [s|]; [|by specialize (Hpl eq_refl)]. cbn [unroll_rule rule_meaning mbind option_bind]. destruct lock_in.
    + intros D Ms env t Ht. by apply wpe_ret.
    + apply does_subcircuit, does_all. eapply Forall_impl; [exact IH|]. intros x Hx. by apply Hx.
  - cbn [unroll_rule rule_meaning]. destruct cur as [s|].
    + intros D Ms env t Ht. unfold unroll_rule_set. apply wpe_bind, wpe_gets.
      pose proof (so_current _ _ _ (fi_supply _ _ _ _ _ Ht)) as Hc. pose proof (so_open _ _ _ (fi_supply _ _ _ _ _ Ht) _ eq_refl) as Hs.
      cbn beta. rewrite Hc. change (default no_supplies (Some s)) with s. rewrite (proj2 (Nat.eqb_neq _ _) Hs). by left.
    + apply (does_rule_set _ (fun s env => seq_meaning (fun x => rule_meaning bools nv ports (Some s) lock_in x c) l env)).
      intros s. apply does_all. eapply Forall_impl; [exact IH|]. intros x Hx. by apply Hx.
Qed.
Lemma does_body l c : forallb placed l = true -> does None (unroll_body bools l c)
  (seq_meaning (fun x => rule_meaning bools nv ports None false x c) l).
Proof.
  intros Hp. apply does_all. eapply forallb_Forall; [|exact Hp]. apply Forall_true. intros x Hx. by apply does_rule.
Qed.
Lemma footprint_start bs : ports_of bs = ports -> footprint_is None [] [] ∅ (mkTarget footprint_empty bs).
Proof.
  intros Hp. split; [|done|constructor|done|].
  - split; [by intros [|]|by intros k d v E|done].
  - split; try done. cbn. lia.
Qed.
End Correct.
