(* ===== verification/PrsCompile.v ===== *)
(** From the production rules of a definition to the graph of its process
    type: what [unroll_body] of "PrsRules.v" leaves in the footprint is what
    [process_graph] of "ExprAlloc.v" builds the simulator's graph from. *)
From stdpp Require Import strings gmap.
From S2P Require Import Prelude SimTime PullSet MetaValue MetaExpr PrsExpr.
From S2P Require Import Expr OrdMap ProcGraph EvalProps ExprAlloc ExprTree ExprBuild ExprVisit.
From S2P Require Import ExprForest ExprRules ExprAllocProps.
From S2P Require Import PrsFootprint PrsRules PrsExprProps PrsUnrollProps PrsRulesProps.
Open Scope Z_scope.
Local Open Scope hackt_scope.

#[local] Abbreviation length := Datatypes.length.

(** ** Guards with supplies that are not dynamic *)

(** Operands can be counted in 16 bits. *)
Definition sizes_ok (l : list expr_node) : bool :=
  forallb (fun e => match en_type e with
    | PRS_AND_EXPR_TYPE_ENUM | PRS_OR_EXPR_TYPE_ENUM => size_ok (length (en_nodes e))
    | _ => true
    end) l.

Section Guards.
Context (nv : nat -> pull_enum) (nodes : nat) (p : footprint_prs) (dir : bool).
Context (Hsizes : sizes_ok (p_expr_pool p) = true) (Ho : ordered p).
Context (Hsupply : forall i, (i < length (p_internal_node_pool p))%nat ->
  is_Some (lookup_internal_node_supply (resolved_prs p) i)).

Lemma find_internal_node_ok eo j n : p_internal_node_pool p !! j = Some n -> ne_expr n = eo ->
  exists ii, find_internal_node (resolved_prs p) eo = Some ii /\ (ii < length (p_internal_node_pool p))%nat.
Proof.
  unfold find_internal_node. cbn [resolved_prs pf_internal_node_pool]. intros Hj Hn.
  enough (forall k, exists ii, find_internal_node_from k (map (fun n => (ne_expr n, ne_dir n)) (p_internal_node_pool p)) eo = Some ii /\
    (ii < k + length (p_internal_node_pool p))%nat) as H by apply (H 0%nat).
  clear Hsupply. revert j Hj. induction (p_internal_node_pool p) as [|x l IH]; intros j Hj k; [done|]. cbn.
  destruct (Nat.eqb_spec (ne_expr x) eo); [exists k; split; [done|lia]|]. destruct j as [|j]; [by injection Hj as ->|].
  destruct (IH j Hj (S k)) as (ii & -> & Hii). exists ii. split; [done|lia].
Qed.
Lemma fp_val_of_plain fuel : forall ps i v, plain_val nv nodes (resolved_prs p) fuel i = Some v ->
  fp_val nv nodes (resolved_prs p) (Some dir) fuel ps false i = Some (v, false).
Proof.
  induction fuel as [|fuel IH]; intros ps i v E; [done|]. cbn [plain_val fp_val] in *.
  apply bind_Some in E as (e' & He & E). rewrite He. cbn [mbind option_bind].
  destruct i as [|k]; [done|]. cbn [pool_at] in He. change ((resolved_expr <$> p_expr_pool p) !! k = Some e') in He.
  rewrite list_lookup_fmap in He. destruct (p_expr_pool p !! k) as [e|] eqn:Ek; [|done]. injection He as <-.
  assert (Hops : forall l vs, mapM (plain_val nv nodes (resolved_prs p) fuel) l = Some vs ->
    mapM (fun c => fst <$> fp_val nv nodes (resolved_prs p) (Some dir) fuel ps false c) l = Some vs /\
    mapM (fun c => r ← fp_val nv nodes (resolved_prs p) (Some dir) fuel ps false c; with_supply nv nodes (Some dir) ps r) l = Some vs).
  { intros l vs Hvs. split; (eapply mapM_agree; [exact Hvs|]); intros x y Hxy; by rewrite (IH ps x y Hxy). }
  pose proof (proj1 (forallb_forall _ _) Hsizes e) as Hsz.
  specialize (Hsz (proj1 (list_elem_of_In _ _) (list_elem_of_lookup_2 _ _ _ Ek))). cbn beta in Hsz.
  destruct (Ho _ _ Ek) as [_ Hres]. unfold node_resolves in Hres.
  change (fe_type (resolved_expr e)) with (en_type e) in *. change (fe_nodes (resolved_expr e)) with (en_nodes e) in *.
  destruct (en_type e).
  - apply bind_Some in E as (n & -> & E). cbn. by rewrite E.
  - apply bind_Some in E as (n & -> & (w & Hw & ->)%fmap_Some). cbn. by rewrite (IH _ _ _ Hw).
  - apply fmap_Some in E as (vs & Hvs & ->). destruct (en_nodes e) as [|c cs]; [done|]. cbn in Hvs.
    apply bind_Some in Hvs as (w & Hw & (ws & Hws & [= <-])%bind_Some). rewrite (IH _ _ _ Hw). cbn [mbind option_bind fst snd].
    rewrite (proj1 (Hops _ _ Hws)). cbn [mbind option_bind].
    change (size_ok _) with (size_ok (length (c :: cs))). by rewrite Hsz.
  - apply fmap_Some in E as (vs & Hvs & ->). rewrite (proj2 (Hops _ _ Hvs)). cbn [mbind option_bind]. by rewrite Hsz.
  - apply bind_Some in E as (n & Hn & E). destruct (Hres eq_refl) as (j & x & Hj & Hx).
    pose proof (only_spec _ _ Hn) as Hn'. change (en_nodes e = [n]) in Hn'. rewrite Hx in Hn'. injection Hn' as Hn'.
    rewrite Hn. cbn [mbind option_bind]. destruct (find_internal_node_ok n j x Hj Hn') as (ii & -> & Hii).
    destruct (Hsupply _ Hii) as [s Hs]. cbn [mbind option_bind]. rewrite Hs. cbn [mbind option_bind]. by rewrite (IH _ _ _ E).
Qed.
End Guards.

(** ** The items of the type *)
Section Whole.
Context (flags : ExprAllocFlags) (d : real_time) (fuel : nat) (nv : nat -> pull_enum).
Context (Hstatic : dynamic_power_supply flags = false /\ dynamic_ground_supply flags = false).

(** What a drive adds to the graph: nothing if it is a keeper that is left out. *)
Definition drive_pulls (nodes : nat) (x : drive) : option (list (pull_target * pull_enum)) :=
  r ← rule_of_attributes flags d (mkFRule 0 0 (dr_dir x) (resolved_attributes (dr_attributes x)));
  if (r.2 : bool) then Some []
  else n ← local_node nodes (dr_output x); Some [((n, dr_dir x, strength_of r.1), dr_value x)].
Definition effect_pulls (nodes : nat) (e : effect) : option (list (pull_target * pull_enum)) :=
  rs ← mapM (drive_pulls nodes) e.1.1;
  ms ← mapM (fun m => macro_pulls nv nodes (mkFMacro m.1 m.2)) e.1.2;
  Some (List.concat rs ++ List.concat ms).

Section Target.
Context (ports : list (bool * bool)) (t : target) (D : list drive) (Ms : list (string * list (list nat))) (env : node_env).
#[local] Abbreviation nodes := (length ports).
Context (Ht : footprint_is nv ports None D Ms env t).
Context (Hsizes : sizes_ok (p_expr_pool (t_prs t)) = true) (Hfuel : (length (p_expr_pool (t_prs t)) <= fuel)%nat).
#[local] Abbreviation pfp := (resolved_prs (t_prs t)).

Lemma supplied_nodes i : (i < length (p_internal_node_pool (t_prs t)))%nat -> is_Some (lookup_internal_node_supply pfp i).
Proof.
  intros Hi. pose proof (fi_supply _ _ _ _ _ _ _ Ht) as Hs. apply (so_nodes _ _ _ Hs).
  by rewrite (so_closed _ _ _ Hs eq_refl).
Qed.
Lemma rule_pulls_ok i r x : p_rule_pool (t_prs t) !! i = Some r -> D !! i = Some x ->
  rule_pulls flags d fuel nv nodes pfp (i, resolved_rule r) = drive_pulls nodes x.
Proof.
  intros Hr Hx. pose proof (fi_supply _ _ _ _ _ _ _ Ht) as Hs. pose proof (fi_unrolled _ _ _ _ _ _ _ Ht) as Hu.
  pose proof (Forall2_lookup_lr _ _ _ _ _ _ (fi_rules _ _ _ _ _ _ _ Ht) Hr Hx) as [Ho Hd Ha Hi Hv].
  unfold rule_pulls, drive_pulls. cbn [fst snd]. change (fr_output_index (resolved_rule r)) with (re_output_index r).
  change (fr_dir (resolved_rule r)) with (re_dir r).
  change (rule_of_attributes flags d (resolved_rule r)) with (rule_of_attributes flags d (mkFRule 0 0 (re_dir r) (resolved_attributes (re_attributes r)))).
  rewrite Ho, Hd, Ha. destruct (rule_of_attributes _ _ _) as [[rl keeper]|]; [|done]. cbn [mbind option_bind fst snd].
  destruct keeper; [done|]. destruct (local_node nodes (dr_output x)) as [n|]; [|done]. cbn [mbind option_bind].
  assert (Hg : guard_val flags fuel nv nodes pfp i (resolved_rule r) = Some (dr_value x)); [|by rewrite Hg].
  pose proof (so_rules _ _ _ Hs i x Hx) as Hsup.
  rewrite (proj2 (Nat.ltb_lt i _)) in Hsup.
  2: { rewrite (so_closed _ _ _ Hs eq_refl). cbn. by apply lookup_lt_Some in Hr. }
  destruct Hsup as (e & _ & _ & _ & Hl). unfold guard_val. rewrite Hl. cbn [mbind option_bind].
  assert (Hsrc : (if fr_dir (resolved_rule r) then dynamic_power_supply flags else dynamic_ground_supply flags) = false).
  { destruct Hstatic as [-> ->]. by destruct (fr_dir _). }
  rewrite Hsrc. change (fr_expr_index (resolved_rule r)) with (re_expr_index r).
  rewrite (fp_val_of_plain nv nodes (t_prs t) _ Hsizes (un_ordered _ _ _ _ Hu) supplied_nodes fuel _ _ (dr_value x)); [done|].
  rewrite <- Hv. symmetry. apply (val_of_agree nv nodes); [apply Hu|done|lia|done].
Qed.
Lemma prs_pulls_ok : prs_pulls flags d fuel nv nodes pfp = effect_pulls nodes (D, Ms, env).
Proof.
  unfold prs_pulls, effect_pulls. cbn [fst snd].
  assert (Er : mapM (rule_pulls flags d fuel nv nodes pfp) (indexed (pf_rule_pool pfp)) = mapM (drive_pulls nodes) D).
  { pose proof (Forall2_length _ _ _ (fi_rules _ _ _ _ _ _ _ Ht)) as Hlen. unfold indexed. cbn [resolved_prs pf_rule_pool].
    assert (H : forall k rs ds, length rs = length ds -> (forall i r x, rs !! i = Some r -> ds !! i = Some x ->
        p_rule_pool (t_prs t) !! (k + i)%nat = Some r /\ D !! (k + i)%nat = Some x) ->
      mapM (rule_pulls flags d fuel nv nodes pfp) (combine (seq k (length (map resolved_rule rs))) (map resolved_rule rs)) = mapM (drive_pulls nodes) ds).
    { intros k rs. revert k. induction rs as [|r rs IH]; intros k [|x ds] Hl Hat; try done. cbn.
      destruct (Hat 0%nat r x eq_refl eq_refl) as [H1 H2]. rewrite Nat.add_0_r in H1, H2. rewrite (rule_pulls_ok _ _ _ H1 H2).
      rewrite (IH (S k) ds); [done|by injection Hl|]. intros i r' x' Hr' Hx'. specialize (Hat (S i) r' x' Hr' Hx').
      by rewrite Nat.add_succ_r in Hat. }
    by apply (H 0%nat). }
  rewrite Er. destruct (mapM _ D); [|done]. cbn [mbind option_bind]. cbn [resolved_prs pf_macro_pool].
  rewrite <- (fi_macros _ _ _ _ _ _ _ Ht). by rewrite !mapM_map.
Qed.
End Target.
End Whole.

(** ** What the compiler of production rules promises *)
Section Theorems.
Context (bools : gmap string bool_collection) (nv : nat -> pull_enum).

(** C17: [unroll] fails, with an error or with an exception, exactly when the
    expression has no meaning.  Otherwise it only adds entries to the
    pool of expressions, and the entry it returns has the value of the expression. *)
Theorem unroll_correct nodes env e c t : bools_within nodes bools -> unrolled nv nodes env t ->
  match unroll bools e c t with
  | Ok (O, t') => meaning bools nv env e c = None /\ grows t t'
  | Ok (S i, t') => grows t t' /\ exists v, meaning bools nv env e c = Some v /\
      plain_val nv nodes (resolved_prs (t_prs t')) (S i) (S i) = Some v
  | Err _ => meaning bools nv env e c = None
  end.
Proof.
  intros Hb Ht. pose proof (unroll_compiles nv nodes env bools Hb e c t Ht) as Hw. unfold wpe in Hw.
  destruct (unroll bools e c t) as [[[|i] t']|f]; [by destruct Hw as [? ?]| |done].
  destruct Hw as (Hg & _ & v & Hv & Hval). split; [done|]. by exists v.
Qed.

(** A rule keeps its meaning when its complement is taken, though its
    guard is changed in place.  The complement pulls the other way, under the
    negation of the guard for [=>], and under the guard of the negated
    literals for [#>]; only references to internal nodes, which have one
    direction, can leave it without meaning. *)
Theorem expand_complement_correct env c dir g o a l v : meaning bools nv env g c = Some v ->
  exists g', (expand_complement (pull dir g o a l)).2 = pull dir g' o ARROW_NORMAL l /\ meaning bools nv env g' c = Some v /\
  match a with
  | ARROW_NORMAL => (expand_complement (pull dir g o a l)).1 = None
  | ARROW_COMPLEMENT => exists n, (expand_complement (pull dir g o a l)).1 = Some (pull (negb dir) n o ARROW_NORMAL l) /\
      (forall w, meaning bools nv env n c = Some w -> w = k_not v) /\
      (node_free g = true -> meaning bools nv env n c = Some (k_not v))
  | ARROW_FLIP => exists n, (expand_complement (pull dir g o a l)).1 = Some (pull (negb dir) n o ARROW_NORMAL l) /\
      forall u, meaning bools (fun n => k_not (nv n)) env g c = Some u ->
      (forall w, meaning bools nv env n c = Some w -> w = u) /\ (node_free g = true -> meaning bools nv env n c = Some u)
  end.
Proof.
  intros Hv. destruct a; cbn [expand_complement].
  - by exists g.
  - destruct (negate g) as [n g'] eqn:En. exists g'. split; [done|]. pose proof (negate_keeps bools nv env g c) as Hk.
    rewrite En in Hk. split; [by rewrite <- Hv, <- Hk|].
    exists n. split; [done|]. split; [intros w Hw; eapply negate_sound; [exact Hv|by rewrite En]|].
    intros Hnf. pose proof (negate_meaning bools nv env g c v Hnf Hv) as H. by rewrite En in H.
  - exists g. split_and!; [done..|]. exists (flip_literals g). split; [done|]. intros u Hu.
    split; [intros w Hw; by eapply flip_sound|intros Hnf; by apply flip_meaning].
Qed.

(** C6: unrolling the rule sets of a definition fails only if they have no
    meaning, or on account of atomic bools.  Otherwise the footprint has
    one rule for each drive that they mean, in order, with its output, its
    direction, its attributes and the value of its guard; the rule is found
    under the supplies of the rule set that it was written in; and the macros
    are those that they mean. *)
Theorem unroll_body_correct bs l c : bools_within (length bs) bools -> forallb placed l = true ->
  match unroll_body bools l c (mkTarget footprint_empty bs) with
  | Ok (true, t) => exists e, body_meaning bools nv (ports_of bs) l c = Some e /\
      Forall2 (rule_is nv (ports_of bs) t) (p_rule_pool (t_prs t)) e.1.1 /\
      map macro_of (p_macro_pool (t_prs t)) = e.1.2 /\
      forall i x, e.1.1 !! i = Some x -> supplied_by (t_prs t) i (dr_supplies x)
  | Ok (false, _) => body_meaning bools nv (ports_of bs) l c = None
  | Err _ => body_meaning bools nv (ports_of bs) l c = None \/ any_atomic (ports_of bs) = true
  end.
Proof.
  intros Hb Hp. replace (length bs) with (length (ports_of bs)) in Hb by apply length_map.
  pose proof (does_body bools nv (ports_of bs) Hb l c Hp [] [] ∅ _ (footprint_start nv (ports_of bs) bs eq_refl)) as Hw.
  unfold wpe in Hw. unfold body_meaning. destruct (unroll_body _ _ _ _) as [[[] t]|f]; [|done..].
  destruct Hw as (e & He & Hf). exists e. split; [done|]. split; [apply (fi_rules _ _ _ _ _ _ _ Hf)|].
  split; [apply (fi_macros _ _ _ _ _ _ _ Hf)|]. intros i x Hx. pose proof (fi_supply _ _ _ _ _ _ _ Hf) as Hs.
  pose proof (so_rules _ _ _ Hs i x Hx) as H. rewrite (so_closed _ _ _ Hs eq_refl) in H.
  rewrite (proj2 (Nat.ltb_lt _ _)) in H; [done|]. cbn.
  rewrite (Forall2_length _ _ _ (fi_rules _ _ _ _ _ _ _ Hf)). by eapply lookup_lt_Some.
Qed.

(** C3: end to end, for definitions without atomic bools and simulations
    without dynamic supplies: rule sets that have a meaning are unrolled
    without error, and the graph that the simulator builds of the
    footprint is a well-formed tree graph that pulls each node by exactly the
    guards that the rules mean, as long as no operator has 2^16 operands. *)
Theorem compiled_graph_correct flags d fuel atomic bs l c e P :
  bools_within (length bs) bools -> forallb placed l = true -> any_atomic (ports_of bs) = false -> length atomic = length bs ->
  dynamic_power_supply flags = false /\ dynamic_ground_supply flags = false ->
  body_meaning bools nv (ports_of bs) l c = Some e -> effect_pulls flags d nv (length bs) e = Some P ->
  exists t, unroll_body bools l c (mkTarget footprint_empty bs) = Ok (true, t) /\
  (sizes_ok (p_expr_pool (t_prs t)) = true -> (length (p_expr_pool (t_prs t)) <= fuel)%nat ->
   exists gr, process_graph flags d fuel atomic (Some (resolved_prs (t_prs t))) None = Ok gr /\ tree_graph gr /\
     carries nv (length bs) gr P []).
Proof.
  intros Hb Hp Hat Hlen Hfl He HP. assert (Hl : length (ports_of bs) = length bs) by apply length_map. rewrite <- Hl in *.
  pose proof (does_body bools nv (ports_of bs) Hb l c Hp [] [] ∅ _ (footprint_start nv (ports_of bs) bs eq_refl)) as Hw.
  unfold wpe in Hw. unfold body_meaning in He. destruct (unroll_body _ _ _ _) as [[[] t]|f].
  2: { by rewrite Hw in He. }
  2: { rewrite He, Hat in Hw. by destruct Hw. }
  destruct Hw as (e' & He' & Hf). rewrite He in He'. injection He' as <-. exists t. split; [done|]. intros Hsz Hfuel.
  rewrite <- Hlen. apply process_graph_spec; [|done]. unfold type_pulls. cbn [from_option mbind option_bind].
  rewrite Hlen, (prs_pulls_ok flags d fuel nv Hfl (ports_of bs) t e.1.1 e.1.2 e.2 Hf Hsz Hfuel). replace (e.1.1, e.1.2, e.2) with e by by destruct e as [[]].
  rewrite HP. cbn. by rewrite app_nil_r.
Qed.
End Theorems.

(** ** An example: a C-element with an internal node, and its supplies

    The nodes are GND, Vdd, a, b and y, as in "ExprAllocProps.v". *)
Section Example.
Definition ex_bools : gmap string bool_collection :=
  {[ "!GND" := bool_scalar (Some 1%nat); "!Vdd" := bool_scalar (Some 2%nat); "a" := bool_scalar (Some 3%nat);
     "b" := bool_scalar (Some 4%nat); "y" := bool_scalar (Some 5%nat) ]}%string.
Definition ex_input : bool_connect := mkConnect false true false false false false.
Definition ex_ports : list bool_connect := [ex_input; ex_input; ex_input; ex_input; mkConnect false false false false false false].
Definition ex_var (s : string) : bool_literal := bool_var {| ip_name := s; ip_dimensions := 0 |} no_indices.
Definition ex_lit (s : string) : prs_expr := literal_expr (new_literal (ex_var s)).
Definition ex_node (negated : bool) : bool_literal := internal_node {| ip_name := "x"; ip_dimensions := 0 |} no_indices negated.
Definition ex_and : prs_expr := and_expr [ex_lit "a"; ex_lit "b"] [None].
(** [a & b -> @x-], [~@x -> y-], and what [~a & ~b #> y+] leaves of a weak keeper. *)
Definition ex_rules : list rule :=
  append_rule (append_rule (append_rule [] (pull false ex_and (ex_node false) ARROW_NORMAL []))
    (pull false (literal_expr (new_literal (ex_node true))) (ex_var "y") ARROW_NORMAL []))
    (pull true (and_expr [not_expr (ex_lit "a"); not_expr (ex_lit "b")] [None]) (ex_var "y") ARROW_FLIP
      [mkAttribute "weak" (Some [AnInt (pint_const 1)])]).
Definition ex_sets : list rule := [rule_set None None None None ex_rules].
Definition ex_root : unroll_context := root_context None None.
Definition ex_values (n : nat) : pull_enum := match n with 1%nat | 2%nat => PULL_ON | 3%nat => PULL_WEAK | _ => PULL_OFF end.

Lemma ex_bools_within : bools_within 5 ex_bools.
Proof.
  intros s b Hs. unfold ex_bools in Hs. repeat (apply lookup_insert_Some in Hs as [[_ <-]|[_ Hs]]; [intros i [= <-]; lia|]).
  apply lookup_singleton_Some in Hs as [_ <-]. intros i [= <-]. lia.
Qed.

Lemma unroll_correct_witness : exists t, unroll ex_bools ex_and ex_root (mkTarget footprint_empty ex_ports) = Ok (3%nat, t) /\
  match unroll ex_bools ex_and ex_root (mkTarget footprint_empty ex_ports) with
  | Ok (O, t') => meaning ex_bools ex_values ∅ ex_and ex_root = None /\ grows (mkTarget footprint_empty ex_ports) t'
  | Ok (S i, t') => grows (mkTarget footprint_empty ex_ports) t' /\ exists v, meaning ex_bools ex_values ∅ ex_and ex_root = Some v /\
      plain_val ex_values 5 (resolved_prs (t_prs t')) (S i) (S i) = Some v
  | Err _ => meaning ex_bools ex_values ∅ ex_and ex_root = None
  end.
Proof.
  eexists. split; [vm_compute; reflexivity|].
  apply (unroll_correct ex_bools ex_values 5 ∅ ex_and ex_root (mkTarget footprint_empty ex_ports) ex_bools_within).
  apply (fi_unrolled _ _ _ _ _ _ _ (footprint_start ex_values (ports_of ex_ports) ex_ports eq_refl)).
Defined.

Definition ex_guard_value : pull_enum := default PULL_OFF (meaning ex_bools ex_values ∅ ex_and ex_root).
Lemma expand_complement_correct_witness : exists g', (expand_complement (pull true ex_and (ex_var "y") ARROW_COMPLEMENT [])).2 =
    pull true g' (ex_var "y") ARROW_NORMAL [] /\ meaning ex_bools ex_values ∅ g' ex_root = Some ex_guard_value /\
  exists n, (expand_complement (pull true ex_and (ex_var "y") ARROW_COMPLEMENT [])).1 = Some (pull false n (ex_var "y") ARROW_NORMAL []) /\
    (forall w, meaning ex_bools ex_values ∅ n ex_root = Some w -> w = k_not ex_guard_value) /\
    (node_free ex_and = true -> meaning ex_bools ex_values ∅ n ex_root = Some (k_not ex_guard_value)).
Proof.
  apply (expand_complement_correct ex_bools ex_values ∅ ex_root true ex_and (ex_var "y") ARROW_COMPLEMENT [] ex_guard_value).
  vm_compute. reflexivity.
Defined.

Lemma unroll_body_correct_witness : exists t, unroll_body ex_bools ex_sets ex_root (mkTarget footprint_empty ex_ports) = Ok (true, t) /\
  match unroll_body ex_bools ex_sets ex_root (mkTarget footprint_empty ex_ports) with
  | Ok (true, t) => exists e, body_meaning ex_bools ex_values (ports_of ex_ports) ex_sets ex_root = Some e /\
      Forall2 (rule_is ex_values (ports_of ex_ports) t) (p_rule_pool (t_prs t)) e.1.1 /\
      map macro_of (p_macro_pool (t_prs t)) = e.1.2 /\
      forall i x, e.1.1 !! i = Some x -> supplied_by (t_prs t) i (dr_supplies x)
  | Ok (false, _) => body_meaning ex_bools ex_values (ports_of ex_ports) ex_sets ex_root = None
  | Err _ => body_meaning ex_bools ex_values (ports_of ex_ports) ex_sets ex_root = None \/ any_atomic (ports_of ex_ports) = true
  end.
Proof.
  eexists. split; [vm_compute; reflexivity|].
  apply (unroll_body_correct ex_bools ex_values ex_ports ex_sets ex_root ex_bools_within). reflexivity.
Defined.

Definition ex_effect : effect := default ([], [], ∅) (body_meaning ex_bools ex_values (ports_of ex_ports) ex_sets ex_root).
Definition ex_pulls : list (pull_target * pull_enum) := default [] (effect_pulls ExprAllocFlags_default real_zero ex_values 5 ex_effect).
Lemma ex_pulls_are : ex_pulls = [((4%nat, false, NORMAL_RULE), PULL_WEAK); ((4%nat, true, WEAK_RULE), PULL_OFF); ((4%nat, false, WEAK_RULE), PULL_WEAK)].
Proof. vm_compute. reflexivity. Qed.
Lemma compiled_graph_correct_witness : exists t gr,
  unroll_body ex_bools ex_sets ex_root (mkTarget footprint_empty ex_ports) = Ok (true, t) /\
  process_graph ExprAllocFlags_default real_zero 20 or_atomic (Some (resolved_prs (t_prs t))) None = Ok gr /\ tree_graph gr /\
  carries ex_values (length ex_ports) gr ex_pulls [].
Proof.
  destruct (compiled_graph_correct ex_bools ex_values ExprAllocFlags_default real_zero 20 or_atomic ex_ports ex_sets ex_root ex_effect ex_pulls
    ex_bools_within) as (t & E & H); try reflexivity; [split; reflexivity|vm_compute; reflexivity..|].
  assert (Hs : sizes_ok (p_expr_pool (t_prs t)) = true /\ (length (p_expr_pool (t_prs t)) <= 20)%nat).
  { vm_compute in E. injection E as <-. split; [reflexivity|apply Nat.leb_le; reflexivity]. }
  destruct Hs as [H1 H2]. destruct (H H1 H2) as (gr & Hg). exists t, gr. split; [exact E|exact Hg].
Defined.
End Example.
