(* ===== verification/PrsCheck.v ===== *)
(** The type checker of production rules: the [check_prs_expr] and [check_rule]
    of the syntax trees of "AST/PRS.cc", [prefix_expr], [logical_expr] and
    [inst_ref_expr] of "AST/expr.cc", and the declaration of internal nodes of
    "Object/common/namespace.cc".

    It turns the syntax of production rules into the expressions and rules of
    "PrsExpr.v" and "PrsRules.v".  Checking an item adds to the body
    that is open, and may declare internal nodes; both are kept when an
    exception is thrown, since conditionals catch exceptions.  An exception that
    is caught is [F_exit] or [Throws]; other faults end the program.

    References name a bool, an internal node or a parameter, with indices;
    macros are left out. *)
From stdpp Require Import strings gmap.
From S2P Require Import Prelude MetaValue MetaExpr MetaCheck PrsExpr PrsFootprint PrsRules.
Open Scope Z_scope.
Open Scope meta_scope.
#[local] Set Warnings "-register-all".

#[local] Abbreviation length := Datatypes.length.

(** ** Syntax trees *)
Inductive inst_ref : Type :=
  | ref_id (id : string)
  | ref_index (id : string) (ranges : range_list).

(** A key can be left out in the attributes of literals. *)
Record ast_attribute : Type := mkAstAttribute { at_key : option string; at_values : option expr_list }.
Record literal_params : Type := mkParams { lp_exprs : expr_list; lp_attrs : list ast_attribute }.
(** [PRS::literal] of "AST/PRS.h": [al_internal] for [@]. *)
Record ast_literal : Type := mkAstLiteral {
  al_ref : inst_ref;
  al_params : option literal_params;
  al_internal : bool
}.

(** The operators are [~], [&], which may have a precharge, and [|]. *)
Inductive prs_ast : Type :=
  | prs_literal (l : ast_literal)
  | prs_not (e : prs_ast)
  | prs_and (l : prs_ast) (pchg : option (prs_ast * bool)) (r : prs_ast)
  | prs_or (l r : prs_ast)
  | op_loop (is_and : bool) (index : string) (bounds : range) (ex : prs_ast).

Inductive body_item : Type :=
  | ast_rule (attribs : list ast_attribute) (guard : prs_ast) (arrow_type : arrow) (r : ast_literal) (dir : bool)
  | ast_loop (index : string) (bounds : range) (rules : list body_item)
  | ast_conditional (gp : list (option expr * list body_item))       (* no guard: [else] *)
  | ast_body (rules : list body_item)                                (* [tree] *)
  | ast_subcircuit (sname : option expr_list) (rules : list body_item).

Section Induction.
Context (P : body_item -> Prop).
Context (Hrule : forall a g t r d, P (ast_rule a g t r d)).
Context (Hloop : forall i b l, Forall P l -> P (ast_loop i b l)).
Context (Hcond : forall l, Forall (fun c => Forall P c.2) l -> P (ast_conditional l)).
Context (Hbody : forall l, Forall P l -> P (ast_body l)).
Context (Hsub : forall n l, Forall P l -> P (ast_subcircuit n l)).

Fixpoint body_item_nested_ind (x : body_item) : P x :=
  let all := fix all (l : list body_item) : Forall P l :=
    match l with
    | [] => List.Forall_nil P
    | x :: l' => List.Forall_cons P x l' (body_item_nested_ind x) (all l')
    end in
  match x with
  | ast_rule a g t r d => Hrule a g t r d
  | ast_loop i b l => Hloop i b l (all l)
  | ast_conditional l =>
      Hcond l ((fix clauses (l : list (option expr * list body_item)) : Forall (fun c => Forall P c.2) l :=
        match l with
        | [] => List.Forall_nil _
        | (_, x) as c :: l' => List.Forall_cons (fun c => Forall P c.2) c l' (all x) (clauses l')
        end) l)
  | ast_body l => Hbody l (all l)
  | ast_subcircuit n l => Hsub n l (all l)
  end.
End Induction.

(** ** Scopes

    The names that the definition itself declares, but for internal nodes; the
    bools among all names that are visible; and the nodes with their dimensions. *)
Record prs_scope : Type := mkScope {
  sc_context : context;
  sc_members : gset string;
  sc_bools : gmap string instance_placeholder;
  sc_nodes : gmap string nat
}.
Definition set_sc_nodes (n : gmap string nat) (s : prs_scope) : prs_scope :=
  mkScope (sc_context s) (sc_members s) (sc_bools s) n.
Definition set_sc_context (c : context) (s : prs_scope) : prs_scope :=
  mkScope c (sc_members s) (sc_bools s) (sc_nodes s).
(** The context with the nodes, which hide what is outside of the definition. *)
Definition visible (s : prs_scope) : context :=
  {| loop_var_stack := loop_var_stack (sc_context s);
     objects := ((fun _ => other_object) <$> sc_nodes s) ∪ objects (sc_context s);
     scope_definition := scope_definition (sc_context s);
     scope_prefix := scope_prefix (sc_context s) |}.

(** ** Literals *)

(** [inst_ref_expr::check_prs_literal]; indices of instances other than
    bools are not counted here, as it is an error anyway. *)
Definition bool_of (s : prs_scope) (id : string) : option instance_placeholder :=
  match sc_nodes s !! id with Some _ => None | None => sc_bools s !! id end.
Definition check_bool_reference (s : prs_scope) (r : inst_ref) : outcome bool_literal :=
  match r with
  | ref_id id =>
      match lookup_object (visible s) id with
      | None => Crash F_exit
      | Some (value_object _ _) => Bad
      | Some other_object =>
          match bool_of s id with
          | Some p => if (ip_dimensions p =? 0)%nat then Good (bool_var p no_indices) else Bad
          | None => Bad
          end
      end
  | ref_index id ranges =>
      check_meta_indices ranges (visible s) >>=o fun i =>
      match lookup_object (visible s) id with
      | None => Crash F_exit
      | Some (value_object t p) => attach_indices t p i >>=o fun _ => Bad
      | Some other_object =>
          match bool_of s id with
          | Some p =>
              if (ip_dimensions p <? indices_size i)%nat then Crash F_exit
              else if (ip_dimensions p - dimensions_collapsed i =? 0)%nat then Good (bool_var p i)
              else Bad
          | None => Bad
          end
      end
  end.

Definition ref_name (r : inst_ref) : string := match r with ref_id id | ref_index id _ => id end.
Fixpoint ranges_size (l : range_list) : nat := match l with no_ranges => 0 | more_ranges _ l => S (ranges_size l) end.
Definition ref_indices (r : inst_ref) : nat := match r with ref_id _ => 0 | ref_index _ l => ranges_size l end.

(** Too many indices are reported, and the reference is left without any. *)
Definition check_node_reference (s : prs_scope) (r : inst_ref) : outcome bool_literal :=
  match sc_nodes s !! ref_name r with
  | None => Bad
  | Some d =>
      let p := {| ip_name := ref_name r; ip_dimensions := d |} in
      match r with
      | ref_id _ => Good (internal_node p no_indices false)
      | ref_index _ ranges =>
          check_meta_indices ranges (visible s) >>=o fun i =>
          Good (internal_node p (if (d <? indices_size i)%nat then no_indices else i) false)
      end
  end.

(** Expressions none of which is NULL. *)
Definition checked_exprs (l : expr_list) (c : context) : outcome (list param_expr) :=
  check_meta_exprs l c >>=o fun os => match mapM id os with Some es => Good es | None => Bad end.
Fixpoint exprs_size (l : expr_list) : nat := match l with no_exprs => 0 | more_exprs _ l => S (exprs_size l) end.

(** [check_literal_attribute] and [check_prs_attribute]; an error leaves a
    blank in the list, for which the caller exits in the end. *)
Definition check_attribute (registry : string -> option (list const_param -> bool)) (dflt : string) (c : context)
    (a : ast_attribute) : outcome generic_attribute :=
  let key := default dflt (at_key a) in
  match registry key with
  | None => Bad
  | Some _ =>
      match at_values a with
      | None => Good (mkAttribute key None)
      | Some es => checked_exprs es c >>=o fun vs => Good (mkAttribute key (match vs with [] => None | _ => Some vs end))
      end
  end.
Fixpoint check_attributes (registry : string -> option (list const_param -> bool)) (dflt : string) (c : context)
    (l : list ast_attribute) : outcome (list generic_attribute) :=
  match l with
  | [] => Good []
  | a :: l' => both (check_attribute registry dflt c a) (check_attributes registry dflt c l') (fun x xs => Good (x :: xs))
  end.

Definition exit_on_error {A} (o : outcome A) : outcome A := match o with Bad => Crash F_exit | _ => o end.

Definition check_params (s : prs_scope) (b : bool_literal) (p : literal_params) : outcome literal :=
  if (2 <? exprs_size (lp_exprs p))%nat then Bad
  else
    checked_exprs (lp_exprs p) (visible s) >>=o fun ps =>
    exit_on_error (check_attributes cflat_literal_attribute_registry "label" (visible s) (lp_attrs p)) >>=o fun atts =>
    Good (mkLiteral b ps atts).
(** [literal::check_prs_literal] *)
Definition check_prs_literal (s : prs_scope) (l : ast_literal) : outcome literal :=
  if al_internal l then
    check_node_reference s (al_ref l) >>=o fun b =>
    match al_params l with Some _ => Bad | None => Good (new_literal b) end
  else
    check_bool_reference s (al_ref l) >>=o fun b =>
    match al_params l with Some p => check_params s b p | None => Good (new_literal b) end.

(** ** Expressions *)

(** [prefix_expr::check_prs_expr]: a node stays negated under two negations. *)
Definition make_not (pe : prs_expr) : prs_expr :=
  match pe with
  | literal_expr l =>
      if is_internal (base_type l) then literal_expr (mkLiteral (negate_node (base_type l)) (params l) (attr l))
      else not_expr pe
  | _ => not_expr pe
  end.
(** [logical_expr::check_prs_expr]: conjunctions of conjunctions are flattened,
    and the precharges are lost if both operands are. *)
Definition make_and (lo ro : prs_expr) (pchg : option (prs_expr * bool)) : prs_expr :=
  match lo, ro with
  | and_expr l p, and_expr l' _ => and_copy l p l'
  | and_expr l p, _ => and_push_back_precharge l p ro pchg
  | _, and_expr l' p' => and_push_front_precharge l' p' lo pchg
  | _, _ => and_push_back_precharge [lo] [] ro pchg
  end.
Definition make_or (lo ro : prs_expr) : prs_expr :=
  match lo, ro with
  | or_expr l, or_expr l' => or_expr (l ++ l')
  | or_expr l, _ => or_expr (l ++ [ro])
  | _, or_expr l' => or_expr (lo :: l')
  | _, _ => or_expr [lo; ro]
  end.

(** The variable and the range of a loop, and the scope of its body. *)
Definition open_loop (s : prs_scope) (index : string) (bounds : range)
    : outcome (value_placeholder * meta_range_expr * prs_scope) :=
  check_meta_index bounds (visible s) >>=o fun rng =>
  make_explicit_range rng >>=o fun r =>
  push_loop_var (visible s) index >>=o fun '(i, c) =>
  Good (i, r, set_sc_context c s).

Fixpoint check_prs_expr (e : prs_ast) (s : prs_scope) {struct e} : outcome prs_expr :=
  match e with
  | prs_literal l => omap_out literal_expr (check_prs_literal s l)
  | prs_not e => omap_out make_not (exit_on_error (check_prs_expr e s))
  | prs_and l pchg r =>
      exit_on_error (both (check_prs_expr l s) (check_prs_expr r s) (fun lo ro => Good (lo, ro))) >>=o fun '(lo, ro) =>
      match pchg with
      | None => Good (make_and lo ro None)
      | Some (p, dir) => exit_on_error (check_prs_expr p s) >>=o fun pe => Good (make_and lo ro (Some (pe, dir)))
      end
  | prs_or l r => exit_on_error (both (check_prs_expr l s) (check_prs_expr r s) (fun lo ro => Good (make_or lo ro)))
  | op_loop is_and index bounds ex =>
      open_loop s index bounds >>=o fun '(i, r, s') =>
      check_prs_expr ex s' >>=o fun body =>
      Good (if is_and then and_expr_loop i r body else or_expr_loop i r body)
  end.

(** ** Rules

    The state: the internal nodes, and the rules of the open body. *)
Abbreviation check_state := (gmap string nat * list rule)%type.
Abbreviation CM := (check_state -> outcome unit * check_state).

(** An exception that [catch (...)] catches. *)
Definition caught {A} (o : outcome A) : bool :=
  match o with Good _ => false | Bad | Throws | Crash F_exit => true | Crash _ => false end.

(** [add_node_instance_idempotent] *)
Definition add_internal_node (s : prs_scope) (id : string) (dim : nat) : outcome (gmap string nat) :=
  if bool_decide (id ∈ sc_members s) then Bad
  else match sc_nodes s !! id with
       | Some d => if (d =? dim)%nat then Good (sc_nodes s) else Bad
       | None => Good (<[id := dim]> (sc_nodes s))
       end.
Definition declared_nodes (s : prs_scope) (l : ast_literal) : outcome (gmap string nat) :=
  if al_internal l then add_internal_node s (ref_name (al_ref l)) (ref_indices (al_ref l)) else Good (sc_nodes s).

Definition is_normal (a : arrow) : bool := match a with ARROW_NORMAL => true | _ => false end.
(** [rule::check_rule], once the guard is checked and the node of the
    right-hand side declared. *)
Definition check_output (s : prs_scope) (attribs : list ast_attribute) (g : prs_expr) (arrow_type : arrow) (r : ast_literal)
    (dir : bool) : outcome rule :=
  exit_on_error (check_prs_literal s r) >>=o fun o =>
  if negb (is_normal arrow_type) && is_internal (base_type o) then Crash F_exit
  else
    exit_on_error (check_attributes cflat_rule_attribute_registry "" (visible s) attribs) >>=o fun atts =>
    Good (pull dir g (base_type o) arrow_type atts).
Definition check_single (s : prs_scope) (attribs : list ast_attribute) (guard : prs_ast) (arrow_type : arrow) (r : ast_literal)
    (dir : bool) : CM := fun '(n, body) =>
  match exit_on_error (check_prs_expr guard (set_sc_nodes n s)) >>=o fun g =>
        exit_on_error (declared_nodes (set_sc_nodes n s) r) >>=o fun n' => Good (g, n') with
  | Good (g, n') =>
      match check_output (set_sc_nodes n' s) attribs g arrow_type r dir with
      | Good ru => (Good tt, (n', append_rule body ru))
      | Bad => (Bad, (n', body))
      | Throws => (Throws, (n', body))
      | Crash f => (Crash f, (n', body))
      end
  | Bad => (Bad, (n, body))
  | Throws => (Throws, (n, body))
  | Crash f => (Crash f, (n, body))
  end.

(** One item after another, up to the first exception. *)
Section Items.
Context (check_one : body_item -> CM).

Fixpoint check_all (l : list body_item) : CM := fun st =>
  match l with
  | [] => (Good tt, st)
  | x :: l' => match check_one x st with (Good _, st') => check_all l' st' | r => r end
  end.
End Items.

(** A new body that is filled by [items]: it stays in the enclosing one, even
    after an exception, unless it is empty. *)
Definition nested (make : list rule -> rule) (items : CM) : CM := fun '(n, body) =>
  match items (n, []) with
  | (Good _, (n', [])) => (Good tt, (n', body))
  | (o, (n', l)) => (o, (n', body ++ [make l]))
  end.

(** [guarded_body::check_clause], for all clauses: exceptions in the body of a
    clause go no further. *)
Section Clauses.
Context (items : list body_item -> CM).

Definition clause_guard (s : prs_scope) (g : option expr) : outcome (option pbool_expr) :=
  match g with
  | None => Good None
  | Some e =>
      exit_on_error (check_meta_expr e (visible s)) >>=o fun pe =>
      match pe with ABool b => Good (Some b) | _ => Crash F_exit end
  end.
Fixpoint check_clauses (s : prs_scope) (l : list (option expr * list body_item)) (acc : list (option pbool_expr * list rule))
    (n : gmap string nat) : outcome unit * (gmap string nat * list (option pbool_expr * list rule)) :=
  match l with
  | [] => (Good tt, (n, acc))
  | (g, rs) :: l' =>
      match clause_guard (set_sc_nodes n s) g with
      | Good bg =>
          let '(o, (n', b)) := items rs (n, []) in
          match o with
          | Good _ => check_clauses s l' (acc ++ [(bg, b)]) n'
          | _ => if caught o then check_clauses s l' (acc ++ [(bg, b)]) n' else (o, (n', acc ++ [(bg, b)]))
          end
      | Bad => (Bad, (n, acc))
      | Throws => (Throws, (n, acc))
      | Crash f => (Crash f, (n, acc))
      end
  end.
End Clauses.

(** [meta_conditional::empty] *)
Definition all_empty (cs : list (option pbool_expr * list rule)) : bool :=
  forallb (fun c => match c.2 with [] => true | _ => false end) cs.

Definition subcircuit_name (s : prs_scope) (sname : option expr_list) : outcome string :=
  match sname with
  | None => Good ""%string
  | Some es =>
      check_meta_exprs es (visible s) >>=o fun os =>
      match os with [Some (AString e)] => pstring_static_constant_value e | _ => Crash F_exit end
  end.

(** [check_rule].  A loop whose range is NULL, or whose variable hides
    another name, is left out, and no error. *)
Fixpoint check_rule (x : body_item) (s : prs_scope) {struct x} : CM :=
  match x with
  | ast_rule attribs guard arrow_type r dir => check_single s attribs guard arrow_type r dir
  | ast_loop index bounds rules => fun '(n, body) =>
      match open_loop (set_sc_nodes n s) index bounds with
      | Good (i, r, s') => nested (rule_loop i r) (check_all (fun y => check_rule y s') rules) (n, body)
      | Bad => (Good tt, (n, body))
      | Throws => (Throws, (n, body))
      | Crash f => (Crash f, (n, body))
      end
  | ast_conditional gp => fun '(n, body) =>
      let '(o, (n', cs)) := check_clauses (check_all (fun y => check_rule y s)) s gp [] n in
      match o with
      | Good _ => (o, (n', if all_empty cs then body else body ++ [rule_conditional cs]))
      | _ => (o, (n', body ++ [rule_conditional cs]))
      end
  | ast_body rules => fun st =>
      let '(o, st') := check_all (fun y => check_rule y s) rules st in
      (if caught o then Crash F_exit else o, st')
  | ast_subcircuit sname rules => fun '(n, body) =>
      match subcircuit_name (set_sc_nodes n s) sname with
      | Good name => nested (subcircuit name) (check_all (fun y => check_rule y s) rules) (n, body)
      | Bad => (Bad, (n, body))
      | Throws => (Throws, (n, body))
      | Crash f => (Crash f, (n, body))
      end
  end.

(** ** Bodies of a definition

    The supplies are up to four references, any of which can be missing. *)
Fixpoint check_supplies (s : prs_scope) (l : list (option inst_ref)) : outcome (list (option bool_literal)) :=
  match l with
  | [] => Good []
  | None :: l' => omap_out (cons None) (check_supplies s l')
  | Some r :: l' => check_bool_reference s r >>=o fun b => omap_out (cons (Some b)) (check_supplies s l')
  end.
Definition body_supplies (s : prs_scope) (supplies : option (list (option inst_ref)))
    : outcome (list (option bool_literal)) :=
  match supplies with
  | None => Good []
  | Some l =>
      exit_on_error (check_supplies s l) >>=o fun bs =>
      if ((length bs <? 1) || (4 <? length bs))%nat then Crash F_exit else Good bs
  end.
Definition supply_at (l : list (option bool_literal)) (i : nat) : option bool_literal := mjoin (l !! i).
(** [body::check_build]: the set is there before its supplies are checked. *)
Definition check_build (s : prs_scope) (supplies : option (list (option inst_ref))) (rules : list body_item) : CM :=
  fun '(n, body) =>
  match body_supplies (set_sc_nodes n s) supplies with
  | Good bs =>
      nested (rule_set (supply_at bs 0) (supply_at bs 1) (supply_at bs 2) (supply_at bs 3))
        (fun st => let '(o, st') := check_all (fun y => check_rule y s) rules st in
                   (if caught o then Crash F_exit else o, st')) (n, body)
  | Bad => (Bad, (n, body ++ [rule_set None None None None []]))
  | Throws => (Throws, (n, body ++ [rule_set None None None None []]))
  | Crash f => (Crash f, (n, body ++ [rule_set None None None None []]))
  end.
