(* ===== verification/PrsCheckProps.v ===== *)
(** What the checker of production rules promises: expressions keep the
    meaning of their syntax, down to the entries of the footprint, and the
    bodies it builds, also after an error, are well-formed. *)
From stdpp Require Import strings gmap.
From S2P Require Import Prelude PullSet MetaValue MetaExpr MetaCheck PrsExpr.
From S2P Require Import Expr ExprAlloc ExprAllocProps PrsFootprint PrsRules.
From S2P Require Import PrsExprProps PrsUnrollProps PrsRulesProps PrsCompile PrsCheck.
Open Scope Z_scope.
Open Scope meta_scope.

#[local] Abbreviation length := Datatypes.length.

Section Induction.
Context (P : prs_ast -> Prop).
Context (Hlit : forall l, P (prs_literal l)).
Context (Hnot : forall e, P e -> P (prs_not e)).
Context (Hand : forall l p r, P l -> (forall e d, p = Some (e, d) -> P e) -> P r -> P (prs_and l p r)).
Context (Hor : forall l r, P l -> P r -> P (prs_or l r)).
Context (Hloop : forall a i b e, P e -> P (op_loop a i b e)).

Fixpoint prs_ast_nested_ind (e : prs_ast) : P e :=
  match e with
  | prs_literal l => Hlit l
  | prs_not e => Hnot e (prs_ast_nested_ind e)
  | prs_and l p r =>
      Hand l p r (prs_ast_nested_ind l)
        (match p with
         | None => fun e d H => match H in _ = o return match o with Some _ => P e | None => True end with eq_refl => I end
         | Some (e, d) => fun e' d' H =>
             match H in _ = o return match o with Some (x, _) => P x | None => True end with eq_refl => prs_ast_nested_ind e end
         end)
        (prs_ast_nested_ind r)
  | prs_or l r => Hor l r (prs_ast_nested_ind l) (prs_ast_nested_ind r)
  | op_loop a i b e => Hloop a i b e (prs_ast_nested_ind e)
  end.
End Induction.

(** ** The meaning of the syntax *)
Section Reference.
Context (bools : gmap string bool_collection) (nv : nat -> pull_enum) (env : node_env).

(** Negation of a node is part of the reference. *)
Definition negated (l : literal) : literal := mkLiteral (negate_node (base_type l)) (params l) (attr l).
Fixpoint ast_meaning (e : prs_ast) (s : prs_scope) (c : unroll_context) {struct e} : option pull_enum :=
  match e with
  | prs_literal l => x ← good (check_prs_literal s l); literal_meaning bools nv env x c
  | prs_not e' =>
      match e' with
      | prs_literal l =>
          x ← good (check_prs_literal s l);
          if al_internal l then literal_meaning bools nv env (negated x) c else k_not <$> literal_meaning bools nv env x c
      | _ => k_not <$> ast_meaning e' s c
      end
  | prs_and l p r =>
      v ← ast_meaning l s c;
      w ← ast_meaning r s c;
      _ ← match p with Some (x, _) => ast_meaning x s c | None => Some PULL_OFF end;
      Some (k_and v w)
  | prs_or l r => v ← ast_meaning l s c; w ← ast_meaning r s c; Some (k_or v w)
  | op_loop is_and index bounds ex =>
      x ← good (open_loop s index bounds);
      zs ← loop_values x.1.1 x.1.2 c;
      vs ← mapM (fun z => ast_meaning ex x.2 (loop_context x.1.1 c z)) zs;
      Some (if is_and then foldr k_and PULL_ON vs else foldr k_or PULL_OFF vs)
  end.
End Reference.

(** A node under any number of negations; no node is negated twice. *)
Fixpoint is_node (e : prs_ast) : bool :=
  match e with prs_literal l => al_internal l | prs_not e => is_node e | _ => false end.
Definition is_not (e : prs_ast) : bool := match e with prs_not _ => true | _ => false end.
Fixpoint single_nots (e : prs_ast) : bool :=
  match e with
  | prs_literal _ => true
  | prs_not e => negb (is_not e && is_node e) && single_nots e
  | prs_and l p r => single_nots l && single_nots r && match p with Some (x, _) => single_nots x | None => true end
  | prs_or l r => single_nots l && single_nots r
  | op_loop _ _ _ e => single_nots e
  end.

Section Meaning.
Context (bools : gmap string bool_collection) (nv : nat -> pull_enum) (env : node_env).
#[local] Abbreviation meaning := (PrsExprProps.meaning bools nv env).
#[local] Abbreviation ast_meaning := (ast_meaning bools nv env).

#[local] Abbreviation precharge_meaning c :=
  (fun p : option (prs_expr * bool) => match p with Some (x, _) => meaning x c | None => Some PULL_OFF end).

(** *** Flattening *)
Lemma k_or_assoc x y z : k_or x (k_or y z) = k_or (k_or x y) z.
Proof. by destruct x, y, z. Qed.
Lemma fold_and_app l r : foldr k_and PULL_ON (l ++ r) = k_and (foldr k_and PULL_ON l) (foldr k_and PULL_ON r).
Proof. induction l as [|x l IH]; cbn; [by destruct (foldr _ _ r)|]. by rewrite IH, k_and_assoc. Qed.
Lemma fold_or_app l r : foldr k_or PULL_OFF (l ++ r) = k_or (foldr k_or PULL_OFF l) (foldr k_or PULL_OFF r).
Proof. induction l as [|x l IH]; cbn; [by destruct (foldr _ _ r)|]. by rewrite IH, k_or_assoc. Qed.
Lemma fold_and_one v : foldr k_and PULL_ON [v] = v.
Proof. by destruct v. Qed.
Lemma fold_or_one v : foldr k_or PULL_OFF [v] = v.
Proof. by destruct v. Qed.
Lemma mapM_app_Some {A B} (f : A -> option B) l l' vs vs' : mapM f l = Some vs -> mapM f l' = Some vs' ->
  mapM f (l ++ l') = Some (vs ++ vs').
Proof.
  revert vs. induction l as [|x l IH]; intros vs E E'; cbn in *; [by injection E as <-|].
  apply bind_Some in E as (v & -> & (ws & Hws & [= <-])%bind_Some). by rewrite (IH _ Hws E').
Qed.

(** The operands and the precharges of a conjunction all have values. *)
Definition conjuncts (l : list prs_expr) (p : list (option (prs_expr * bool))) (c : unroll_context) (v : pull_enum) : Prop :=
  exists vs, mapM (fun x => meaning x c) l = Some vs /\ v = foldr k_and PULL_ON vs /\
    is_Some (mapM (precharge_meaning c) p).
Lemma meaning_and l p c v : meaning (and_expr l p) c = Some v <-> conjuncts l p c v.
Proof.
  cbn [PrsExprProps.meaning]. split.
  - intros (vs & Hvs & (ws & Hws & [= <-])%bind_Some)%bind_Some. exists vs. split_and!; [done..|]. by exists ws.
  - intros (vs & -> & -> & ws & Hws). cbn [mbind option_bind]. by rewrite Hws.
Qed.
Lemma conjuncts_app l l' p p' c v v' : conjuncts l p c v ->
  (exists vs, mapM (fun x => meaning x c) l' = Some vs /\ v' = foldr k_and PULL_ON vs) ->
  is_Some (mapM (precharge_meaning c) p') -> conjuncts (l ++ l') (p ++ p') c (k_and v v').
Proof.
  intros (vs & Hvs & -> & ws & Hws) (vs' & Hvs' & ->) [ws' Hws']. exists (vs ++ vs').
  split_and!; [by apply mapM_app_Some|by rewrite fold_and_app|]. exists (ws ++ ws'). by apply mapM_app_Some.
Qed.
Lemma make_and_meaning lo ro pchg c v w : meaning lo c = Some v -> meaning ro c = Some w ->
  is_Some (precharge_meaning c pchg) -> meaning (make_and lo ro pchg) c = Some (k_and v w).
Proof.
  intros Hl Hr [pv Hp].
  assert (H1 : forall x u, meaning x c = Some u -> exists vs, mapM (fun x => meaning x c) [x] = Some vs /\ u = foldr k_and PULL_ON vs).
  { intros x u Hx. exists [u]. rewrite fold_and_one. cbn. by rewrite Hx. }
  assert (Hp1 : is_Some (mapM (precharge_meaning c) [pchg])).
  { exists [pv]. destruct pchg as [[x dir]|]; cbn in Hp |- *; [by rewrite Hp|by injection Hp as <-]. }
  assert (Hfront : forall l p, ro = and_expr l p -> meaning (and_push_front_precharge l p lo pchg) c = Some (k_and v w)).
  { intros l p ->. apply meaning_and. apply meaning_and in Hr as (ws & Hws & -> & Hpr).
    apply (conjuncts_app [lo] l [pchg] p); [|by exists ws|done]. destruct (H1 _ _ Hl) as (vs & Hvs & ->). by exists vs. }
  assert (Hback : forall l p, meaning (and_expr l p) c = Some v -> meaning (and_push_back_precharge l p ro pchg) c = Some (k_and v w)).
  { intros l p Hc. apply meaning_and. apply meaning_and in Hc. apply conjuncts_app; [done|by apply H1|done]. }
  assert (Hnew : meaning (and_push_back_precharge [lo] [] ro pchg) c = Some (k_and v w)).
  { apply Hback, meaning_and. destruct (H1 _ _ Hl) as (vs & Hvs & ->). exists vs. split_and!; [done..|by exists []]. }
  unfold make_and. destruct lo as [| |l p| | |]; try (destruct ro; [exact Hnew..| |exact Hnew|exact Hnew|exact Hnew]; by apply Hfront).
  destruct ro as [| |l' p'| | |]; try by apply Hback.
  unfold and_copy. destruct (and_copy_shape l' l p) as (q & -> & Hq). apply meaning_and. apply meaning_and in Hr as (ws & Hws & -> & _).
  apply conjuncts_app; [by apply meaning_and|by exists ws|]. by apply precharges_none.
Qed.
Lemma make_or_meaning lo ro c v w : meaning lo c = Some v -> meaning ro c = Some w -> meaning (make_or lo ro) c = Some (k_or v w).
Proof.
  assert (Hor : forall l u, meaning (or_expr l) c = Some u <-> exists vs, mapM (fun x => meaning x c) l = Some vs /\ u = foldr k_or PULL_OFF vs).
  { intros l u. cbn [PrsExprProps.meaning]. rewrite fmap_Some. done. }
  assert (H1 : forall x u, meaning x c = Some u -> meaning (or_expr [x]) c = Some u).
  { intros x u Hx. apply Hor. exists [u]. rewrite fold_or_one. cbn. by rewrite Hx. }
  assert (Happ : forall l l' a b, meaning (or_expr l) c = Some a -> meaning (or_expr l') c = Some b -> meaning (or_expr (l ++ l')) c = Some (k_or a b)).
  { intros l l' a b (vs & Hvs & ->)%Hor (ws & Hws & ->)%Hor. apply Hor. exists (vs ++ ws). rewrite fold_or_app. split; [by apply mapM_app_Some|done]. }
  intros Hl Hr. unfold make_or. destruct lo as [| | |l| |].
  4: { destruct ro as [| | |l'| |]; try by apply Happ; [|apply H1]. by apply Happ. }
  all: destruct ro as [| | |l'| |]; try (apply (Happ [_] [_]); by apply H1).
  all: apply (Happ [_] l'); [by apply H1|done].
Qed.

(** *** Literals and negations *)
Lemma check_internal s l x : check_prs_literal s l = Good x -> is_internal (base_type x) = al_internal l.
Proof.
  unfold check_prs_literal. destruct (al_internal l).
  - unfold check_node_reference. destruct (sc_nodes s !! _); [|done]. destruct (al_ref l) as [id|id rs].
    + cbn [obind]. destruct (al_params l); [done|]. by intros [= <-].
    + destruct (check_meta_indices rs (visible s)); try done. cbn [obind]. destruct (al_params l); [done|]. by intros [= <-].
  - assert (Hb : forall b, check_bool_reference s (al_ref l) = Good b -> is_internal b = false).
    { intros b. unfold check_bool_reference. destruct (al_ref l) as [id|id rs].
      - destruct (lookup_object _ _) as [[]|]; try done. destruct (bool_of s id); [|done]. destruct (_ =? _)%nat; [|done]. by intros [= <-].
      - destruct (check_meta_indices rs (visible s)); try done. cbn [obind]. destruct (lookup_object _ _) as [[t q|]|]; try done.
        + unfold attach_indices. by destruct (_ <? _)%nat.
        + destruct (bool_of s id); [|done]. destruct (_ <? _)%nat; [done|]. destruct (_ =? _)%nat; [|done]. by intros [= <-]. }
    destruct (check_bool_reference s (al_ref l)) as [b| | |] eqn:E; try done. specialize (Hb b eq_refl). cbn [obind].
    destruct (al_params l) as [p|]; [|intros [= <-]; exact Hb]. unfold check_params. destruct (_ <? _)%nat; [done|].
    destruct (checked_exprs _ _); try done. cbn [obind]. destruct (exit_on_error _); try done. cbn [obind]. intros [= <-]. exact Hb.
Qed.
(** Only literals, and nodes under negations, become literals. *)
Lemma make_and_not_literal lo ro p x : make_and lo ro p <> literal_expr x.
Proof.
  unfold make_and, and_push_front_precharge, and_push_back_precharge, and_copy.
  destruct lo; try (by destruct ro). destruct ro; try done. by destruct (fold_left _ _ _).
Qed.
Lemma make_or_not_literal lo ro x : make_or lo ro <> literal_expr x.
Proof. unfold make_or. by destruct lo, ro. Qed.
Lemma check_literal_shape e : forall s x, check_prs_expr e s = Good (literal_expr x) -> is_internal (base_type x) = true -> is_node e = true.
Proof.
  induction e as [l|e IH|l p r _ _ _|l r _ _|a i b e _] using prs_ast_nested_ind; intros s x E Hi; cbn [check_prs_expr is_node] in *.
  - destruct (check_prs_literal s l) as [y| | |] eqn:El; try done. injection E as ->. by rewrite <- (check_internal _ _ _ El).
  - destruct (check_prs_expr e s) as [pe| | |] eqn:Epe; try done. injection E as E. destruct pe as [y| | | | |]; try done. cbn [make_not] in E.
    destruct (is_internal (base_type y)) eqn:Ey; [by eapply IH|done].
  - destruct (exit_on_error _) as [[lo ro]| | |]; try done. cbn [obind] in E. destruct p as [[p dir]|].
    + destruct (exit_on_error _) as [pe| | |]; try done. injection E as E. by apply make_and_not_literal in E.
    + injection E as E. by apply make_and_not_literal in E.
  - unfold both in E. destruct (check_prs_expr l s) as [lo| | |]; try done; destruct (check_prs_expr r s) as [ro| | |]; try done.
    injection E as E. by apply make_or_not_literal in E.
  - destruct (open_loop s i b) as [[[iv rg] s']| | |]; try done. cbn [obind] in E. destruct (check_prs_expr e s'); try done. by destruct a.
Qed.

Lemma check_prs_expr_meaning e : forall s c v, single_nots e = true -> ast_meaning e s c = Some v ->
  exists e', check_prs_expr e s = Good e' /\ meaning e' c = Some v.
Proof.
  induction e as [l|e IH|l p r IHl IHp IHr|l r IHl IHr|a i b e IH] using prs_ast_nested_ind; intros s c v Hs E.
  - cbn [PrsCheckProps.ast_meaning check_prs_expr] in *. apply bind_Some in E as (x & Hx%good_inv & E). rewrite Hx. by eexists.
  - cbn [single_nots] in Hs. apply andb_true_iff in Hs as [Hn Hs].
    assert (Hgen : (exists w, ast_meaning e s c = Some w /\ v = k_not w) -> is_node e = false ->
      exists e', check_prs_expr (prs_not e) s = Good e' /\ meaning e' c = Some v).
    { intros (w & Hw & ->) Hnode. destruct (IH s c w Hs Hw) as (pe & Epe & Hpe). cbn [check_prs_expr]. rewrite Epe.
      exists (make_not pe). split; [done|]. assert (Hm : make_not pe = not_expr pe); [|rewrite Hm; cbn [PrsExprProps.meaning]; by rewrite Hpe].
      destruct pe as [x| | | | |]; try done. cbn [make_not]. destruct (is_internal (base_type x)) eqn:Ex; [|done].
      by rewrite (check_literal_shape _ _ _ Epe Ex) in Hnode. }
    destruct e as [l|e'|l p r|l r|a i b e'].
    + cbn [PrsCheckProps.ast_meaning] in E. apply bind_Some in E as (x & Hx & E). destruct (al_internal l) eqn:Ei.
      * apply good_inv in Hx. exists (literal_expr (negated x)). split; [|exact E]. cbn [check_prs_expr]. rewrite Hx. cbn.
        by rewrite (check_internal _ _ _ Hx), Ei.
      * apply fmap_Some in E as (w & Hw & ->). apply Hgen; [|exact Ei]. exists w. split; [|done]. cbn [PrsCheckProps.ast_meaning]. by rewrite Hx.
    + apply fmap_Some in E. apply Hgen; [exact E|]. cbn [is_not andb] in Hn. by apply negb_true_iff in Hn.
    + apply fmap_Some in E. by apply Hgen.
    + apply fmap_Some in E. by apply Hgen.
    + apply fmap_Some in E. by apply Hgen.
  - cbn [PrsCheckProps.ast_meaning single_nots check_prs_expr] in *. apply andb_true_iff in Hs as [[H1 H2]%andb_true_iff H3].
    apply bind_Some in E as (vl & Hl & (vr & Hr & (pv & Hp & [= <-])%bind_Some)%bind_Some).
    destruct (IHl _ _ _ H1 Hl) as (lo & -> & Hlo). destruct (IHr _ _ _ H2 Hr) as (ro & -> & Hro). cbn [both obind exit_on_error].
    destruct p as [[p dir]|].
    + destruct (IHp p dir eq_refl _ _ _ H3 Hp) as (pe & -> & Hpe). cbn [exit_on_error obind]. eexists. split; [done|].
      apply make_and_meaning; [done..|]. by exists pv.
    + eexists. split; [done|]. apply make_and_meaning; [done..|by eexists].
  - cbn [PrsCheckProps.ast_meaning single_nots check_prs_expr] in *. apply andb_true_iff in Hs as [H1 H2].
    apply bind_Some in E as (vl & Hl & (vr & Hr & [= <-])%bind_Some).
    destruct (IHl _ _ _ H1 Hl) as (lo & -> & Hlo). destruct (IHr _ _ _ H2 Hr) as (ro & -> & Hro). cbn [both obind exit_on_error].
    eexists. split; [done|]. by apply make_or_meaning.
  - cbn [PrsCheckProps.ast_meaning single_nots check_prs_expr] in *.
    apply bind_Some in E as ([[iv rg] s'] & Ho%good_inv & (zs & Hzs & (vs & Hvs & [= <-])%bind_Some)%bind_Some). rewrite Ho. cbn [obind fst snd] in *.
    assert (Hex : exists e', check_prs_expr e s' = Good e').
    { destruct zs as [|z zs].
      - exfalso. unfold loop_values in Hzs. apply bind_Some in Hzs as ([mn mx] & _ & (_ & _ & Hzs)%bind_Some). cbn [fst snd] in Hzs.
        destruct (mn <=? mx) eqn:Hle; cbn [andb] in Hzs; [|done]. destruct (_ && _); [|done]. injection Hzs as Hzs.
        apply Z.leb_le in Hle. apply (f_equal length) in Hzs. unfold loop_range in Hzs. rewrite length_seqZ in Hzs. cbn in Hzs. lia.
      - cbn in Hvs. apply bind_Some in Hvs as (w & Hw & _). destruct (IH _ _ _ Hs Hw) as (e' & He' & _). by exists e'. }
    destruct Hex as [e' He']. rewrite He'. cbn [obind].
    assert (Hall : mapM (fun z => meaning e' (loop_context iv c z)) zs = Some vs).
    { clear Hzs. revert vs Hvs. induction zs as [|z zs IHz]; intros vs Hvs; cbn in *; [done|].
      apply bind_Some in Hvs as (w & Hw & (ws & Hws & [= <-])%bind_Some). destruct (IH _ _ _ Hs Hw) as (e2 & He2 & Hm).
      assert (e2 = e') as -> by congruence. rewrite Hm. by rewrite (IHz _ Hws). }
    eexists. split; [done|]. destruct a; cbn [PrsExprProps.meaning]; rewrite Hzs; cbn [mbind option_bind]; by rewrite Hall.
Qed.
End Meaning.

(** ** Well-formed bodies *)

(** What a literal refers to, in all of an expression. *)
Fixpoint all_literals (Q : bool_literal -> bool) (e : prs_expr) : bool :=
  match e with
  | literal_expr l => Q (base_type l)
  | not_expr v => all_literals Q v
  | and_expr l p =>
      forallb (all_literals Q) l && forallb (fun x => match x with Some (y, _) => all_literals Q y | None => true end) p
  | or_expr l => forallb (all_literals Q) l
  | and_expr_loop _ _ b | or_expr_loop _ _ b => all_literals Q b
  end.
(** The node was declared, with these dimensions. *)
Definition declared (n : gmap string nat) (b : bool_literal) : bool :=
  match b with
  | bool_var _ _ => true
  | internal_node p _ _ => bool_decide (n !! ip_name p = Some (ip_dimensions p))
  end.
(** A rule as it can be unrolled in a rule set: complements are expanded, nodes
    are declared, and there is no rule set inside. *)
Fixpoint well_formed (n : gmap string nat) (r : rule) : bool :=
  match r with
  | pull _ g o a _ => is_normal a && all_literals (declared n) g && declared n o
  | macro _ _ _ ns => forallb (forallb (declared n)) ns
  | rule_loop _ _ l => forallb (well_formed n) l
  | rule_conditional cs => forallb (fun c => forallb (well_formed n) c.2) cs
  | subcircuit _ l => forallb (well_formed n) l
  | rule_set _ _ _ _ _ => false
  end.
Definition well_formed_set (n : gmap string nat) (r : rule) : bool :=
  match r with rule_set _ _ _ _ l => forallb (well_formed n) l | _ => false end.

Lemma forallb_mono {A} (f g : A -> bool) l : Forall (fun x => f x = true -> g x = true) l -> forallb f l = true -> forallb g l = true.
Proof. induction 1 as [|x l Hx _ IH]; [done|]. cbn. intros [H1 H2]%andb_true_iff. by rewrite Hx, IH. Qed.
Lemma forallb_map {A B} (f : B -> bool) (h : A -> B) l : forallb f (map h l) = forallb (fun x => f (h x)) l.
Proof. induction l as [|x l IH]; [done|]. cbn. by rewrite IH. Qed.

Section Literals.
Context (Q : bool_literal -> bool).
Context (Htoggle : forall b, Q (toggle_negate_node b) = Q b) (Hnegate : forall b, Q (negate_node b) = Q b).
#[local] Abbreviation lits := (all_literals Q).
#[local] Abbreviation lits_p := (forallb (fun x : option (prs_expr * bool) => match x with Some (y, _) => lits y | None => true end)).

Lemma lits_and_copy l p es : forallb lits l = true -> lits_p p = true -> forallb lits es = true -> lits (and_copy l p es) = true.
Proof.
  intros Hl Hp He. unfold and_copy. destruct (and_copy_shape es l p) as (q & -> & Hq). cbn [all_literals].
  rewrite !forallb_app, Hl, He, Hp. cbn [andb]. induction Hq as [|x q -> _ IH]; [done|]. exact IH.
Qed.
Definition normal_lits (e : prs_expr) : Prop := lits e = true -> lits (negation_normalize e).2 = true /\ lits (normalized e) = true.
Lemma normal_lits_same e e' : negation_normalize e = (None, e') -> (lits e = true -> lits e' = true) -> normal_lits e.
Proof. unfold normal_lits, normalized. intros -> H He. split; by apply H. Qed.
Lemma normal_lits_list l : Forall normal_lits l -> forallb lits l = true -> forallb lits (map normalized l) = true.
Proof. intros H. rewrite forallb_map. apply forallb_mono. eapply Forall_impl; [exact H|]. intros x Hx Hl. by apply Hx. Qed.
Lemma normal_lits_not v : normal_lits v -> (forall w, v = not_expr w -> normal_lits w) -> normal_lits (not_expr v).
Proof.
  intros H Hw.
  assert (Hd : negation_normalize (not_expr v) = (None, not_expr (normalized v)) -> normal_lits (not_expr v)).
  { intros E. eapply normal_lits_same; [exact E|]. intros Hv. by apply H. }
  destruct v as [l|w|l p|l|i r b|i r b]; try (apply Hd; unfold normalized; cbn [negation_normalize]; done).
  intros Hv. specialize (Hw w eq_refl Hv). unfold normalized in *. cbn [negation_normalize].
  by destruct (negation_normalize w) as [t w'].
Qed.
Lemma normal_lits_all e : normal_lits e.
Proof.
  enough (H : normal_lits e /\ forall w, e = not_expr w -> normal_lits w) by (exact (proj1 H)).
  induction e as [l|v [IH IHw]|l p IHl IHp|l IHl|i r b [IH _]|i r b [IH _]] using prs_expr_nested_ind; (split; [|try done]).
  - by eapply normal_lits_same.
  - by apply normal_lits_not.
  - by intros w [= <-].
  - eapply normal_lits_same; [done|]. cbn [all_literals]. intros [H1 H2]%andb_true_iff. rewrite normalized_list, normal_lits_list, H2; [done| |done].
    eapply Forall_impl; [exact IHl|]. by intros x [Hx _].
  - eapply normal_lits_same; [done|]. cbn [all_literals]. intros H1. rewrite normalized_list, normal_lits_list; [done| |done].
    eapply Forall_impl; [exact IHl|]. by intros x [Hx _].
  - eapply normal_lits_same; [done|]. intros H1. by apply IH.
  - eapply normal_lits_same; [done|]. intros H1. by apply IH.
Qed.
Lemma literal_negate_lits l : lits (literal_negate l) = Q (base_type l).
Proof. unfold literal_negate. destruct (is_internal _); [|done]. apply Htoggle. Qed.
Lemma negate_lits e : lits e = true -> lits (negate e).1 = true /\ lits (negate e).2 = true.
Proof.
  assert (Hlist : forall l, Forall (fun e => lits e = true -> lits (negate e).1 = true /\ lits (negate e).2 = true) l ->
    forallb lits l = true -> forallb lits (map fst (map negate l)) = true /\ forallb lits (map snd (map negate l)) = true).
  { intros l Hl. rewrite !map_map, !forallb_map. intros H. split; (eapply forallb_mono; [|exact H]); (eapply Forall_impl; [exact Hl|]);
    intros x Hx Hlx; by apply Hx. }
  induction e as [l|v _|l p IHl _|l IHl|i r b IH|i r b IH] using prs_expr_nested_ind.
  - cbn [negate fst snd]. rewrite literal_negate_lits. done.
  - rewrite negate_not. cbn [fst snd]. intros H. by apply and_comm, (normal_lits_all v H).
  - cbn [negate fst snd all_literals]. intros [H1 H2]%andb_true_iff. destruct (Hlist _ IHl H1) as [H3 H4]. by rewrite H3, H4, H2.
  - cbn [negate fst snd]. intros H. destruct (Hlist _ IHl H) as [H3 H4]. split; [by apply lits_and_copy|exact H4].
  - rewrite negate_and_loop. exact IH.
  - rewrite negate_or_loop. exact IH.
Qed.
Lemma flip_lits e : lits e = true -> lits (flip_literals e) = true.
Proof.
  induction e as [l|v IH|l p IHl _|l IHl|i r b IH|i r b IH] using prs_expr_nested_ind; cbn [flip_literals all_literals].
  - by rewrite literal_negate_lits.
  - intros H. specialize (IH H). by destruct (flip_literals v).
  - intros [H _]%andb_true_iff. apply lits_and_copy; [done..|]. rewrite forallb_map. by eapply forallb_mono.
  - intros H. rewrite forallb_map. by eapply forallb_mono.
  - exact IH.
  - exact IH.
Qed.
Lemma make_and_lits lo ro p : lits lo = true -> lits ro = true -> match p with Some (x, _) => lits x | None => true end = true ->
  lits (make_and lo ro p) = true.
Proof.
  intros Hl Hr Hp.
  assert (Hback : forall l q, forallb lits l = true -> lits_p q = true -> lits (and_push_back_precharge l q ro p) = true).
  { intros l q H1 H2. cbn. by rewrite !forallb_app, H1, H2; cbn; rewrite Hr, Hp. }
  assert (Hfront : forall l q, forallb lits l = true -> lits_p q = true -> lits (and_push_front_precharge l q lo p) = true).
  { intros l q H1 H2. cbn. by rewrite H1, H2, Hl, Hp. }
  assert (Hnew : lits (and_push_back_precharge [lo] [] ro p) = true) by (apply Hback; [cbn; by rewrite Hl|done]).
  unfold make_and. destruct lo as [| |l q| | |]; try (destruct ro as [| |l' q'| | |]; try exact Hnew;
    cbn [all_literals] in Hr; apply andb_true_iff in Hr as [H1 H2]; by apply Hfront).
  cbn [all_literals] in Hl. apply andb_true_iff in Hl as [H1 H2].
  destruct ro as [| |l' q'| | |]; try by apply Hback. cbn [all_literals] in Hr. apply andb_true_iff in Hr as [H3 _]. by apply lits_and_copy.
Qed.
Lemma make_or_lits lo ro : lits lo = true -> lits ro = true -> lits (make_or lo ro) = true.
Proof.
  intros Hl Hr. unfold make_or. destruct lo; destruct ro; cbn [all_literals forallb] in *; rewrite ?forallb_app; cbn [forallb all_literals];
    rewrite ?Hl, ?Hr; done.
Qed.
Lemma make_not_lits e : lits (make_not e) = lits e.
Proof. destruct e; try done. cbn [make_not]. destruct (is_internal _); [apply Hnegate|done]. Qed.
End Literals.

(** *** What is checked refers to declared nodes *)
Lemma declared_toggle n b : declared n (toggle_negate_node b) = declared n b.
Proof. by destruct b. Qed.
Lemma declared_negate n b : declared n (negate_node b) = declared n b.
Proof. by destruct b. Qed.
Lemma declared_mono n n' b : n ⊆ n' -> declared n b = true -> declared n' b = true.
Proof.
  intros Hn. destruct b as [|p i neg]; [done|]. cbn. rewrite !bool_decide_eq_true. intros H. by eapply lookup_weaken.
Qed.
Lemma all_literals_mono (Q Q' : bool_literal -> bool) e : (forall b, Q b = true -> Q' b = true) ->
  all_literals Q e = true -> all_literals Q' e = true.
Proof.
  intros H. induction e as [l|v IH|l p IHl IHp|l IHl|i r b IH|i r b IH] using prs_expr_nested_ind; cbn [all_literals]; [by apply H|done| |by apply forallb_mono|done..].
  intros [H1 H2]%andb_true_iff. apply andb_true_iff. split; [by eapply forallb_mono|]. eapply forallb_mono; [|exact H2].
  eapply Forall_impl; [exact IHp|]. intros [[x d]|]; [|done]. cbn. auto.
Qed.
Lemma well_formed_mono n n' r : n ⊆ n' -> well_formed n r = true -> well_formed n' r = true.
Proof.
  intros Hn. induction r as [d g o a l|m p a l|i rg l IH|l IH|m l IH|v g vs gs l IH] using rule_nested_ind; cbn [well_formed];
    try (apply forallb_mono; exact IH); [| | |done].
  - intros [[H1 H2]%andb_true_iff H3]%andb_true_iff. rewrite H1, (declared_mono _ _ _ Hn H3). cbn [andb]. rewrite andb_true_r.
    eapply all_literals_mono; [|exact H2]. intros b. by apply declared_mono.
  - apply forallb_mono, Forall_true. intros x. apply forallb_mono, Forall_true. intros b. by apply declared_mono.
  - apply forallb_mono. eapply Forall_impl; [exact IH|]. intros x Hx. by apply forallb_mono.
Qed.
Lemma check_literal_declared s l x : check_prs_literal s l = Good x -> declared (sc_nodes s) (base_type x) = true.
Proof.
  intros E. pose proof (check_internal _ _ _ E) as Hi. unfold check_prs_literal in E. destruct (al_internal l).
  - unfold check_node_reference in E. destruct (sc_nodes s !! ref_name (al_ref l)) as [d|] eqn:En; [|done].
    destruct (al_ref l) as [id|id rs].
    + cbn [obind] in E. destruct (al_params l); [done|]. injection E as <-. cbn. by apply bool_decide_eq_true.
    + destruct (check_meta_indices rs (visible s)); try done. cbn [obind] in E. destruct (al_params l); [done|]. injection E as <-.
      cbn. by apply bool_decide_eq_true.
  - by destruct (base_type x).
Qed.
Lemma open_loop_nodes s i b iv r s' : open_loop s i b = Good (iv, r, s') -> sc_nodes s' = sc_nodes s.
Proof.
  unfold open_loop. destruct (check_meta_index b (visible s)); try done. cbn [obind]. destruct (make_explicit_range _); try done. cbn [obind].
  destruct (push_loop_var _ _) as [[p c]| | |]; try done. cbn [obind]. by intros [= _ _ <-].
Qed.
Lemma exit_good {A} (o : outcome A) a : exit_on_error o = Good a -> o = Good a.
Proof. by destruct o. Qed.
Lemma check_prs_expr_declared e : forall s e', check_prs_expr e s = Good e' -> all_literals (declared (sc_nodes s)) e' = true.
Proof.
  induction e as [l|e IH|l p r IHl IHp IHr|l r IHl IHr|a i b e IH] using prs_ast_nested_ind; intros s e' E; cbn [check_prs_expr] in E.
  - destruct (check_prs_literal s l) as [x| | |] eqn:El; try done. injection E as <-. by apply check_literal_declared in El.
  - destruct (check_prs_expr e s) as [pe| | |] eqn:Ep; try done. injection E as <-. rewrite make_not_lits; [by apply IH|]. apply declared_negate.
  - unfold both in E. destruct (check_prs_expr l s) as [lo| | |] eqn:El; try done; destruct (check_prs_expr r s) as [ro| | |] eqn:Er; try done.
    cbn [obind exit_on_error] in E. destruct p as [[p dir]|].
    + destruct (exit_on_error (check_prs_expr p s)) as [pe| | |] eqn:Ep; try done. cbn [obind] in E. injection E as <-. apply exit_good in Ep.
      apply make_and_lits; [by apply IHl|by apply IHr|by eapply IHp].
    + injection E as <-. apply make_and_lits; [by apply IHl|by apply IHr|done].
  - unfold both in E. destruct (check_prs_expr l s) as [lo| | |] eqn:El; try done; destruct (check_prs_expr r s) as [ro| | |] eqn:Er; try done.
    cbn [obind exit_on_error] in E. injection E as <-. apply make_or_lits; [by apply IHl|by apply IHr].
  - destruct (open_loop s i b) as [[[iv rg] s']| | |] eqn:Eo; try done. cbn [obind] in E.
    destruct (check_prs_expr e s') as [pe| | |] eqn:Ep; try done. cbn [obind] in E. injection E as <-. apply open_loop_nodes in Eo.
    apply IH in Ep. rewrite Eo in Ep. by destruct a.
Qed.

(** *** Every state of the checker is well-formed *)
Definition state_ok (n : gmap string nat) (st : check_state) : Prop :=
  n ⊆ st.1 /\ forallb (well_formed st.1) st.2 = true.
Definition keeps (m : CM) : Prop := forall st, forallb (well_formed st.1) st.2 = true -> state_ok st.1 (m st).2.

Lemma state_refl st : forallb (well_formed st.1) st.2 = true -> state_ok st.1 st.
Proof. by split. Qed.
Lemma body_mono n n' l : n ⊆ n' -> forallb (well_formed n) l = true -> forallb (well_formed n') l = true.
Proof. intros Hn. apply forallb_mono, Forall_true. intros r. by apply well_formed_mono. Qed.
Lemma append_rule_ok n body d g o a l : forallb (well_formed n) body = true -> all_literals (declared n) g = true ->
  declared n o = true -> forallb (well_formed n) (append_rule body (pull d g o a l)) = true.
Proof.
  intros Hb Hg Ho. unfold append_rule. destruct a; cbn [expand_complement].
  - rewrite forallb_app, Hb. cbn. by rewrite Hg, Ho.
  - pose proof (negate_lits (declared n) (declared_toggle n) g Hg) as [H1 H2]. destruct (negate g) as [x g']. cbn [fst snd] in *.
    rewrite forallb_app, Hb. cbn. by rewrite H1, H2, Ho.
  - pose proof (flip_lits (declared n) (declared_toggle n) g Hg) as H1. rewrite forallb_app, Hb. cbn. by rewrite Hg, H1, Ho.
Qed.
Lemma declared_nodes_grow s l n' : declared_nodes s l = Good n' -> sc_nodes s ⊆ n'.
Proof.
  unfold declared_nodes, add_internal_node. destruct (al_internal l); [|by intros [= <-]]. case_bool_decide; [done|].
  destruct (sc_nodes s !! _) eqn:E; [destruct (_ =? _)%nat; [by intros [= <-]|done]|]. intros [= <-]. by apply insert_subseteq.
Qed.
Lemma check_single_keeps s attribs g a r d : keeps (check_single s attribs g a r d).
Proof.
  intros [n body] Hb. cbn [fst snd] in Hb. cbn [check_single fst].
  destruct (exit_on_error (check_prs_expr g (set_sc_nodes n s))) as [ge| | |] eqn:Eg; cbn [obind]; try by apply (state_refl (n, body)).
  destruct (exit_on_error (declared_nodes (set_sc_nodes n s) r)) as [n'| | |] eqn:En; cbn [obind]; try by apply (state_refl (n, body)).
  pose proof (check_prs_expr_declared _ _ _ (exit_good _ _ Eg)) as Hg. pose proof (declared_nodes_grow _ _ _ (exit_good _ _ En)) as Hn. cbn [sc_nodes set_sc_nodes] in *.
  assert (Hb' : forallb (well_formed n') body = true) by by eapply body_mono.
  assert (Hst : state_ok n (n', body)) by done.
  destruct (check_output (set_sc_nodes n' s) attribs ge a r d) as [ru| | |] eqn:Er; [|exact Hst..]. split; [exact Hn|]. cbn [fst snd].
  unfold check_output in Er. destruct (exit_on_error (check_prs_literal (set_sc_nodes n' s) r)) as [o| | |] eqn:Eo; try done.
  cbn [obind] in Er. destruct (negb (is_normal a) && is_internal (base_type o)); [done|]. destruct (exit_on_error (check_attributes _ _ _ _)) as [atts| | |]; try done. injection Er as <-.
  apply append_rule_ok; [done| |].
  - eapply all_literals_mono; [|exact Hg]. intros b. by apply declared_mono.
  - exact (check_literal_declared _ _ _ (exit_good _ _ Eo)).
Qed.
Lemma check_all_keeps one l : Forall (fun x => keeps (one x)) l -> keeps (check_all one l).
Proof.
  induction 1 as [|x l Hx _ IH]; intros st Hst; cbn [check_all]; [by apply state_refl|].
  specialize (Hx st Hst). destruct (one x st) as [[] st']; [|exact Hx..]. cbn [snd] in Hx. destruct Hx as [Hn Hb].
  destruct (IH st' Hb) as [Hn' Hb']. split; [by etrans|done].
Qed.
Lemma nested_keeps make items : (forall n l, forallb (well_formed n) l = true -> well_formed n (make l) = true) -> keeps items ->
  keeps (nested make items).
Proof.
  intros Hm Hi [n body] Hb. cbn [fst snd] in *. unfold nested. specialize (Hi (n, []) eq_refl). destruct (items (n, [])) as [o [n' l]].
  destruct Hi as [Hn Hl]. cbn [fst snd] in *. assert (Hb' : forallb (well_formed n') body = true) by by eapply body_mono.
  assert (Hadd : state_ok n (n', body ++ [make l])).
  { split; [done|]. cbn [fst snd]. rewrite forallb_app, Hb'. cbn. by rewrite Hm. }
  destruct o; [|exact Hadd..]. by destruct l.
Qed.
Lemma check_clauses_keeps items s l : Forall (fun x => keeps (items x.2)) l -> forall acc n,
  forallb (fun c : option pbool_expr * list rule => forallb (well_formed n) c.2) acc = true ->
  let st := (check_clauses items s l acc n).2 in
  n ⊆ st.1 /\ forallb (fun c : option pbool_expr * list rule => forallb (well_formed st.1) c.2) st.2 = true.
Proof.
  induction 1 as [|[g rs] l Hx _ IH]; intros acc n Hacc; cbn [check_clauses]; [by split|].
  destruct (clause_guard _ g) as [bg| | |]; try by split. cbn [snd] in Hx. specialize (Hx (n, []) eq_refl).
  destruct (items rs (n, [])) as [o [n' b]]. destruct Hx as [Hn Hb]. cbn [fst snd] in *.
  assert (Hacc' : forallb (fun c : option pbool_expr * list rule => forallb (well_formed n') c.2) (acc ++ [(bg, b)]) = true).
  { rewrite forallb_app. cbn. rewrite Hb, andb_true_r. eapply forallb_mono; [|exact Hacc]. apply Forall_true. intros c. by apply body_mono. }
  assert (Hgo : let st := (check_clauses items s l (acc ++ [(bg, b)]) n').2 in
    n ⊆ st.1 /\ forallb (fun c : option pbool_expr * list rule => forallb (well_formed st.1) c.2) st.2 = true).
  { destruct (IH _ _ Hacc') as [H1 H2]. split; [by etrans|done]. }
  destruct o; [exact Hgo|..]; destruct (caught _); try exact Hgo; by split.
Qed.
Lemma check_rule_keeps x : forall s, keeps (check_rule x s).
Proof.
  induction x as [a g t r d|i b l IH|l IH|l IH|m l IH] using body_item_nested_ind; intros s; cbn [check_rule].
  - apply check_single_keeps.
  - intros [n body] Hb. destruct (open_loop _ _ _) as [[[iv rg] s']| | |]; try by apply (state_refl (n, body)).
    apply (nested_keeps (rule_loop iv rg)); [done| |done]. apply check_all_keeps. eapply Forall_impl; [exact IH|]. auto.
  - intros [n body] Hb. cbn [fst snd] in Hb.
    destruct (check_clauses_keeps (check_all (fun y => check_rule y s)) s l) with (acc := @nil (option pbool_expr * list rule)) (n := n) as [H1 H2]; [|done|].
    { eapply Forall_impl; [exact IH|]. intros c Hc. apply check_all_keeps. eapply Forall_impl; [exact Hc|]. auto. }
    destruct (check_clauses _ _ _ _ _) as [o [n' cs]]. cbn [fst snd] in *. pose proof (body_mono _ _ _ H1 Hb) as Hb'.
    assert (Hadd : state_ok n (n', body ++ [rule_conditional cs])).
    { split; [done|]. cbn [fst snd]. rewrite forallb_app, Hb'. cbn. by rewrite H2. }
    destruct o; [|exact Hadd..]. destruct (all_empty cs); [by split|exact Hadd].
  - intros st Hb. assert (Hall : keeps (check_all (fun y => check_rule y s) l)).
    { apply check_all_keeps. eapply Forall_impl; [exact IH|]. auto. }
    specialize (Hall st Hb). by destruct (check_all _ l st) as [o st'].
  - intros [n body] Hb. destruct (subcircuit_name _ m) as [name| | |]; try by apply (state_refl (n, body)).
    apply (nested_keeps (subcircuit name)); [done| |done]. apply check_all_keeps. eapply Forall_impl; [exact IH|]. auto.
Qed.

(** ** The theorems *)

(** C4: an expression of production rules keeps its meaning from its syntax
    down to the footprint: where the syntax has a meaning, it passes the
    checker, which flattens it, and unrolling the result returns an entry
    with just that value; references to nodes that are negated twice are
    excepted. *)
Theorem checked_expr_correct bools nv env nodes e s c v t : bools_within nodes bools -> unrolled nv nodes env t ->
  single_nots e = true -> ast_meaning bools nv env e s c = Some v ->
  exists e' i t', check_prs_expr e s = Good e' /\ unroll bools e' c t = Ok (S i, t') /\ grows t t' /\
    plain_val nv nodes (resolved_prs (t_prs t')) (S i) (S i) = Some v.
Proof.
  intros Hb Ht Hs Hv. destruct (check_prs_expr_meaning bools nv env e s c v Hs Hv) as (e' & He & Hm). exists e'.
  pose proof (unroll_compiles nv nodes env bools Hb e' c t Ht) as Hw. unfold wpe in Hw.
  destruct (unroll bools e' c t) as [[[|i] t']|f]; [by rewrite Hm in Hw; destruct Hw| |by rewrite Hm in Hw].
  destruct Hw as (Hg & _ & w & Hw & Hval). rewrite Hm in Hw. injection Hw as <-. by exists i, t'.
Qed.

(** C18: whatever comes of checking a body, errors included, all bodies that
    are left in the definition are rule sets in which complements are
    expanded, in which all references to nodes are to nodes that were declared,
    with their dimensions, and which hold no further rule sets; and nodes that
    were declared before keep their dimensions. *)
Theorem check_build_well_formed s supplies rules n body : forallb (well_formed_set n) body = true ->
  let st := (check_build s supplies rules (n, body)).2 in
  n ⊆ st.1 /\ forallb (well_formed_set st.1) st.2 = true /\ forallb placed st.2 = true.
Proof.
  intros Hb st. enough (H : n ⊆ st.1 /\ forallb (well_formed_set st.1) st.2 = true).
  { destruct H as [H1 H2]. split_and!; [done..|]. eapply forallb_mono; [|exact H2]. apply Forall_true. by intros []. }
  assert (Hmono : forall n', n ⊆ n' -> forallb (well_formed_set n') body = true).
  { intros n' Hn. eapply forallb_mono; [|exact Hb]. apply Forall_true. intros [] H; try done. cbn in *. by eapply body_mono. }
  subst st. unfold check_build. destruct (body_supplies _ _) as [bs| | |];
    [|split; [done|]; cbn [fst snd]; rewrite forallb_app, Hb; done..].
  unfold nested.
  assert (Hall : keeps (check_all (fun y => check_rule y s) rules)).
  { apply check_all_keeps, Forall_true. intros x. apply check_rule_keeps. }
  specialize (Hall (n, []) eq_refl). destruct (check_all _ rules (n, [])) as [o [n' l]]. destruct Hall as [Hn Hl]. cbn [fst snd] in *.
  assert (Hadd : n ⊆ n' /\ forallb (well_formed_set n') (body ++ [rule_set (supply_at bs 0) (supply_at bs 1) (supply_at bs 2) (supply_at bs 3) l]) = true).
  { split; [done|]. rewrite forallb_app, Hmono by done. cbn. by rewrite Hl. }
  destruct (if caught o then Crash F_exit else o); [|exact Hadd..]. destruct l; [|exact Hadd]. split; [done|by apply Hmono].
Qed.

(** ** Examples, in the definition of "PrsCompile.v" *)
Section Example.
Definition ex_objects : context :=
  {| loop_var_stack := []; objects := {[ "a" := other_object; "b" := other_object; "y" := other_object ]}%string;
     scope_definition := Some 0%nat; scope_prefix := "" |}.
Definition ex_placeholder (x : string) : instance_placeholder := {| ip_name := x; ip_dimensions := 0 |}.
Definition ex_prs_scope : prs_scope :=
  mkScope ex_objects {["a"; "b"; "y"]}%string
    {[ "a" := ex_placeholder "a"; "b" := ex_placeholder "b"; "y" := ex_placeholder "y" ]}%string ∅.
Definition ast_bool (x : string) : prs_ast := prs_literal (mkAstLiteral (ref_id x) None false).
Definition ast_node (x : string) : ast_literal := mkAstLiteral (ref_id x) None true.
(** [a & (~b & (&:i:2: a))] *)
Definition ex_ast : prs_ast :=
  prs_and (ast_bool "a") None (prs_and (prs_not (ast_bool "b")) None
    (op_loop true "i" (single_range (token_int 2)) (ast_bool "a"))).
Definition ex_ast_value : pull_enum := default PULL_OFF (ast_meaning ex_bools ex_values ∅ ex_ast ex_prs_scope ex_root).

Lemma checked_expr_correct_witness : ex_ast_value = PULL_WEAK /\
  exists e' i t', check_prs_expr ex_ast ex_prs_scope = Good e' /\
    unroll ex_bools e' ex_root (mkTarget footprint_empty ex_ports) = Ok (S i, t') /\ grows (mkTarget footprint_empty ex_ports) t' /\
    plain_val ex_values 5 (resolved_prs (t_prs t')) (S i) (S i) = Some ex_ast_value.
Proof.
  split; [vm_compute; reflexivity|].
  apply (checked_expr_correct ex_bools ex_values ∅ 5 ex_ast ex_prs_scope ex_root ex_ast_value _ ex_bools_within).
  - apply (fi_unrolled _ _ _ _ _ _ _ (footprint_start ex_values (ports_of ex_ports) ex_ports eq_refl)).
  - reflexivity.
  - vm_compute. reflexivity.
Defined.

(** [a & b => y-], a node, and then a rule for a bool that does not exist. *)
Definition ex_items : list body_item :=
  [ast_rule [] (prs_and (ast_bool "a") None (ast_bool "b")) ARROW_COMPLEMENT (mkAstLiteral (ref_id "y") None false) false;
   ast_rule [] (ast_bool "a") ARROW_NORMAL (ast_node "x") false;
   ast_rule [] (ast_bool "z") ARROW_NORMAL (mkAstLiteral (ref_id "y") None false) true].
Lemma check_build_well_formed_witness :
  (check_build ex_prs_scope None ex_items (∅, [])).1 = Crash F_exit /\
  let st := (check_build ex_prs_scope None ex_items (∅, [])).2 in
  length st.2 = 1%nat /\ ∅ ⊆ st.1 /\ forallb (well_formed_set st.1) st.2 = true /\ forallb placed st.2 = true.
Proof.
  split; [vm_compute; reflexivity|]. split; [vm_compute; reflexivity|].
  apply (check_build_well_formed ex_prs_scope None ex_items ∅ []). reflexivity.
Defined.

(** Two negations of a node are one. *)
Lemma negated_twice : check_prs_expr (prs_not (prs_not (prs_literal (ast_node "x")))) (set_sc_nodes {["x" := 0%nat]} ex_prs_scope) =
  check_prs_expr (prs_not (prs_literal (ast_node "x"))) (set_sc_nodes {["x" := 0%nat]} ex_prs_scope).
Proof. vm_compute. reflexivity. Qed.
(** The errors of a clause are swallowed, with the rules after them. *)
Lemma conditional_swallows : (check_rule (ast_conditional [(None, ex_items)]) ex_prs_scope (∅, [])).1 = Good tt.
Proof. vm_compute. reflexivity. Qed.
(** A loop over an empty range of constants is left out without an error,
    whatever its body is. *)
Lemma empty_loop_left_out l : check_rule (ast_loop "i" (full_range (token_int 3) (token_int 1)) l) ex_prs_scope (∅, []) = (Good tt, (∅, [])).
Proof. vm_compute. reflexivity. Qed.
End Example.
