(* ===== verification/Longs.v ===== *)
(** Signed machine integers of the compiler's values: [pint_value_type] is
    [long].  Arithmetic that leaves its range is undefined; conversion to [int]
    keeps 32 bits. *)
From S2P Require Import Prelude.
Open Scope Z_scope.

Definition LONG_MAX : Z := 2 ^ 63 - 1.
Definition LONG_MIN : Z := - 2 ^ 63.
Definition to_long (z : Z) : res Z := if (LONG_MIN <=? z) && (z <=? LONG_MAX) then Ok z else Err F_undef.
Definition to_int (z : Z) : Z := let u := wrap 32 z in if 2 ^ 31 <=? u then u - 2 ^ 32 else u.

(** Results without a state, in sequence. *)
Notation "x <-- m ;; k" := (match m with Ok x => k | Err f => Err f end)
  (at level 100, m at next level, right associativity) : hackt_scope.
Definition assertion (b : bool) : res unit := if b then Ok tt else Err F_assert.

Lemma to_long_ok z : LONG_MIN <= z -> z <= LONG_MAX -> to_long z = Ok z.
Proof. intros. unfold to_long. assert ((LONG_MIN <=? z) && (z <=? LONG_MAX) = true) as -> by lia. done. Qed.
Lemma to_int_small z : - 2 ^ 31 <= z < 2 ^ 31 -> to_int z = z.
Proof.
  intros Hz. unfold to_int, wrap. destruct (Z.ltb_spec z 0).
  - rewrite <- (Z_mod_plus_full z 1), Z.mod_small by lia. destruct (Z.leb_spec (2 ^ 31) (z + 1 * 2 ^ 32)); lia.
  - rewrite Z.mod_small by lia. destruct (Z.leb_spec (2 ^ 31) z); lia.
Qed.
