(* ===== verification/Intervals.v ===== *)
(** Sets of integers as intervals: "util/discrete_interval_set.hh" and ".tcc".

    A set is a [std::map] from the lower to the upper bound of each interval,
    both inclusive; the compiler uses it for the ranges of arrays
    (Object/expr/meta_range.cc), over [pint_value_type], i.e. [long].

    Here the map is the list of its entries in ascending order of their keys.
    An iterator is the key of the entry that it points to, or [None] for [end()]:
    that stays valid when other entries are inserted or erased, as it does in the
    source.  [contains] looks at what [end()] points to, which is undefined; that
    is the parameter [past_end], and it does not matter. *)
From S2P Require Import Prelude Longs.
From stdpp Require Import sorting.
Open Scope Z_scope.
Local Open Scope hackt_scope.
#[local] Abbreviation length := Datatypes.length.

(** ** The map *)
Definition intervals : Type := list (Z * Z).
Definition iterator : Type := option Z.

Definition find_key (f : Z -> bool) (l : intervals) : iterator :=
  match List.find (fun p => f p.1) l with Some p => Some p.1 | None => None end.
Definition upper_bound (v : Z) : intervals -> iterator := find_key (fun k => v <? k).
Definition lower_bound (v : Z) : intervals -> iterator := find_key (fun k => v <=? k).
Definition it_begin : intervals -> iterator := find_key (fun _ => true).
Definition it_eqb (i j : iterator) : bool :=
  match i, j with Some a, Some b => a =? b | None, None => true | _, _ => false end.
(** [++i]; past the end it is undefined. *)
Definition it_next (i : iterator) (l : intervals) : res iterator :=
  match i with Some k => Ok (upper_bound k l) | None => Err F_undef end.
(** [--i]: the last entry before it. *)
Fixpoint last_key (f : Z -> bool) (l : intervals) : iterator :=
  match l with
  | [] => None
  | p :: l' => match last_key f l' with Some k => Some k | None => if f p.1 then Some p.1 else None end
  end.
Definition it_prev (i : iterator) (l : intervals) : res iterator :=
  match last_key (fun k => match i with Some a => k <? a | None => true end) l with
  | Some k => Ok (Some k)
  | None => Err F_undef
  end.
Definition value_at (k : Z) (l : intervals) : res Z :=
  match List.find (fun p => p.1 =? k) l with Some p => Ok p.2 | None => Err F_undef end.

(** [parent[k] = v], and [i->second = v]. *)
Fixpoint put (k v : Z) (l : intervals) : intervals :=
  match l with
  | [] => [(k, v)]
  | p :: l' => if k <? p.1 then (k, v) :: l else if k =? p.1 then (k, v) :: l' else p :: put k v l'
  end.
(** [parent.erase(i, j)]; [j] has to be reached from [i]. *)
Definition erase (i j : iterator) (l : intervals) : res intervals :=
  match i, j with
  | None, None => Ok l
  | None, Some _ => Err F_undef
  | Some a, None => Ok (List.filter (fun p => p.1 <? a) l)
  | Some a, Some b =>
      if a <=? b then Ok (List.filter (fun p => (p.1 <? a) || (b <=? p.1)) l) else Err F_undef
  end.

(** ** Queries *)
Section Queries.
Context (past_end : Z * Z).

Definition deref (i : iterator) (l : intervals) : res (Z * Z) :=
  match i with Some k => v <-- value_at k l ;; Ok (k, v) | None => Ok past_end end.

Definition contains (v : Z) (l : intervals) : res iterator :=
  let ret := upper_bound v l in
  if negb (it_eqb ret (it_begin l)) then
    ret <-- it_prev ret l ;;
    p <-- deref ret l ;;
    _ <-- assertion (p.1 <=? v) ;;
    Ok (if v <=? p.2 then ret else None)
  else
    p <-- deref ret l ;;
    Ok (if (p.1 <=? v) && (v <=? p.2) then ret else None).
Definition contains_entirely (min max : Z) (l : intervals) : res iterator :=
  i <-- contains min l ;;
  match i with
  | None => Ok None
  | Some _ => u <-- contains max l ;; Ok (if it_eqb u i then u else None)
  end.

(** [distance(lower_bound(min), lower_bound(max)) > 0]: as [min <= max], the
    distance is that of two iterators of which the second is not before the
    first. *)
Definition query_overlap (min max : Z) (l : intervals) : res bool :=
  _ <-- assertion (min <=? max) ;;
  i <-- contains min l ;;
  match i with
  | Some _ => Ok true
  | None =>
      j <-- contains max l ;;
      match j with
      | Some _ => Ok true
      | None => Ok (negb (it_eqb (lower_bound min l) (lower_bound max l)))
      end
  end.

(** Sizes are of type [size_t]. *)
Definition member_size (l : intervals) : Z := fold_left (fun n p => wrap 64 (n + (p.2 - p.1 + 1))) l 0.

Fixpoint integrity_from (temp : Z) (l : intervals) : res unit :=
  match l with
  | [] => Ok tt
  | p :: l' =>
      _ <-- assertion (p.1 <=? p.2) ;; _ <-- assertion (temp <? p.1) ;; integrity_from p.2 l'
  end.
Definition check_integrity (l : intervals) : res unit :=
  match l with
  | [] => Ok tt
  | p :: l' => _ <-- assertion (p.1 <=? p.2) ;; integrity_from p.2 l'
  end.

(** ** Changes

    The result tells whether there was an overlap, or anything to delete. *)
Definition lower_end (min : Z) (li : iterator) (l : intervals) : iterator * Z :=
  match li with Some k => (li, k) | None => (lower_bound min l, min) end.
Definition upper_end (max : Z) (li ui : iterator) (l : intervals) : res (iterator * Z) :=
  match ui with
  | Some k => new_max <-- value_at k l ;; Ok (ui, new_max)
  | None =>
      let ui := lower_bound max l in
      if negb (it_eqb ui (it_begin l)) then ui <-- it_prev ui l ;; Ok (ui, max)
      else _ <-- assertion (it_eqb li (it_begin l)) ;; Ok (ui, max)
  end.
Definition erase_around (overlap fuse : bool) (li ui : iterator) (l : intervals) : res intervals :=
  match li, ui with
  | Some a, Some b =>
      if a =? b then
        if overlap || fuse then e <-- it_next li l ;; erase li e l else Ok l
      else
        la <-- value_at a l ;;
        if (la <? b) || overlap then e <-- it_next ui l ;; erase li e l else Ok l
  | _, _ => Ok l
  end.
Definition add_range (min max : Z) (l : intervals) : res (bool * intervals) :=
  overlap <-- query_overlap min max l ;;
  below <-- to_long (min - 1) ;;
  li <-- contains below l ;;
  above <-- to_long (max + 1) ;;
  ui <-- contains above l ;;
  let fuse := negb (it_eqb li None) || negb (it_eqb ui None) in
  let lo := lower_end min li l in
  up <-- upper_end max lo.1 ui l ;;
  l1 <-- erase_around overlap fuse lo.1 up.1 l ;;
  let l2 := put lo.2 up.2 l1 in
  _ <-- check_integrity l2 ;;
  Ok (overlap, l2).

(** What is left above [max] is split off; what is left below [min] is cut. *)
Definition split_upper (max : Z) (lfnem lueq : bool) (ui : iterator) (l : intervals) : res (iterator * intervals) :=
  match ui with
  | Some k =>
      u <-- value_at k l ;;
      l1 <-- (if negb (u =? max) then n <-- to_long (max + 1) ;; Ok (put n u l) else Ok l) ;;
      ui' <-- (if negb (lfnem && lueq) then it_next ui l1 else Ok ui) ;;
      Ok (ui', l1)
  | None => Ok (lower_bound max l, l)
  end.
Definition cut_lower (min : Z) (lfnem lueq : bool) (li : iterator) (l : intervals) : res (iterator * intervals) :=
  match li with
  | Some k =>
      if lfnem then
        n <-- to_long (min - 1) ;;
        let l1 := put k n l in
        li' <-- (if negb lueq then it_next li l1 else Ok li) ;;
        Ok (li', l1)
      else Ok (li, l)
  | None => Ok (lower_bound min l, l)
  end.
Definition delete_range (min max : Z) (l : intervals) : res (bool * intervals) :=
  overlap <-- query_overlap min max l ;;
  if negb overlap then Ok (false, l)
  else
    li <-- contains min l ;;
    ui <-- contains max l ;;
    lp <-- deref li l ;;
    let lfnem := negb (lp.1 =? min) in
    let lueq := it_eqb li ui in
    up <-- split_upper max lfnem lueq ui l ;;
    lo <-- cut_lower min lfnem lueq li up.2 ;;
    l3 <-- erase lo.1 up.1 lo.2 ;;
    _ <-- check_integrity l3 ;;
    Ok (true, l3).

Definition behead (m : Z) (l : intervals) : res (bool * intervals) :=
  li <-- contains m l ;;
  match li with
  | Some k =>
      new_max <-- value_at k l ;;
      new_min <-- to_long (m + 1) ;;
      li' <-- it_next li l ;;
      l1 <-- erase (it_begin l) li' l ;;
      Ok (true, if new_min <=? new_max then put new_min new_max l1 else l1)
  | None =>
      let li := lower_bound m l in
      l1 <-- erase (it_begin l) li l ;;
      Ok (negb (it_eqb li (it_begin l)), l1)
  end.
Definition betail (m : Z) (l : intervals) : res (bool * intervals) :=
  ui <-- contains m l ;;
  match ui with
  | Some k =>
      if k =? m then l1 <-- erase ui None l ;; Ok (true, l1)
      else
        n <-- to_long (m - 1) ;;
        let l1 := put k n l in
        ui' <-- it_next ui l1 ;;
        l2 <-- erase ui' None l1 ;;
        Ok (true, l2)
  | None =>
      let ui := lower_bound m l in
      l1 <-- erase ui None l ;;
      Ok (negb (it_eqb ui None), l1)
  end.

(** Meant to delete what is between the intervals of the other set; but the
    variable is already that of the interval behind the gap. *)
Fixpoint delete_gaps (temp : Z) (b : intervals) (ret : bool) (l : intervals) : res (Z * bool * intervals) :=
  match b with
  | [] => Ok (temp, ret, l)
  | p :: b' =>
      temp' <-- to_long (p.2 + 1) ;;
      hi <-- to_long (p.1 - 1) ;;
      r <-- delete_range temp' hi l ;;
      delete_gaps temp' b' (r.1 || ret) r.2
  end.
Definition meet (b l : intervals) : res (bool * intervals) :=
  match b with
  | [] => Ok (negb (match l with [] => true | _ => false end), [])
  | p :: b' =>
      temp <-- to_long (p.2 + 1) ;;
      lo <-- to_long (p.1 - 1) ;;
      r <-- behead lo l ;;
      g <-- delete_gaps temp b' r.1 r.2 ;;
      let '(temp', ret, l1) := g in
      t <-- betail temp' l1 ;;
      Ok (t.1 || ret, t.2)
  end.
Fixpoint for_ranges (f : Z -> Z -> intervals -> res (bool * intervals)) (b : intervals) (ret : bool)
    (l : intervals) : res (bool * intervals) :=
  match b with
  | [] => Ok (ret, l)
  | p :: b' => r <-- f p.1 p.2 l ;; for_ranges f b' (r.1 || ret) r.2
  end.
Definition join (b l : intervals) : res (bool * intervals) := for_ranges add_range b false l.
Definition subtract (b l : intervals) : res (bool * intervals) := for_ranges delete_range b false l.

(** A set of one interval. *)
Definition single_range (a b : Z) : res intervals :=
  r <-- add_range a b [] ;; _ <-- assertion (negb r.1) ;; Ok r.2.
End Queries.
