(* ===== verification/IntervalProps.v ===== *)
(** The interval sets implement finite sets of integers: what each operation
    does to the members, that the intervals stay disjoint and apart, and where
    operations fail. *)
From stdpp Require Import sorting.
From S2P Require Import Prelude Longs Intervals.
Open Scope Z_scope.
Local Open Scope hackt_scope.
#[local] Abbreviation length := Datatypes.length.

(** ** Sorted maps *)
Definition keys_sorted (l : intervals) : Prop := StronglySorted (fun p q => p.1 < q.1) l.

(** The first key that satisfies [f], and the last one. *)
Definition is_first (f : Z -> bool) (l : intervals) (i : iterator) : Prop :=
  match i with
  | Some k => (exists v, (k, v) ∈ l) /\ f k = true /\ forall a b, (a, b) ∈ l -> f a = true -> k <= a
  | None => forall a b, (a, b) ∈ l -> f a = false
  end.
Definition is_last (f : Z -> bool) (l : intervals) (i : iterator) : Prop :=
  match i with
  | Some k => (exists v, (k, v) ∈ l) /\ f k = true /\ forall a b, (a, b) ∈ l -> f a = true -> a <= k
  | None => forall a b, (a, b) ∈ l -> f a = false
  end.

Lemma sorted_head p l a b : keys_sorted (p :: l) -> (a, b) ∈ l -> p.1 < a.
Proof.
  intros Hs Hin. apply StronglySorted_inv in Hs as [_ Hs]. rewrite Forall_forall in Hs. by apply (Hs (a, b)).
Qed.
Lemma sorted_tail p l : keys_sorted (p :: l) -> keys_sorted l.
Proof. intros Hs. by apply StronglySorted_inv in Hs as [Hs _]. Qed.

Lemma find_key_first f l : keys_sorted l -> is_first f l (find_key f l).
Proof.
  intros Hs. unfold find_key. induction l as [|[k v] l IH]; cbn [List.find]; [intros a b Hin; by apply elem_of_nil in Hin|].
  cbn [fst]. destruct (f k) eqn:E.
  - split; [exists v; by left|]. split; [done|]. intros a b [Hin|Hin]%elem_of_cons _; [injection Hin as -> ->; done|].
    pose proof (sorted_head _ _ _ _ Hs Hin). cbn in *. lia.
  - specialize (IH (sorted_tail _ _ Hs)). destruct (List.find _ l) as [[k' v']|]; cbn [fst is_first] in *.
    + destruct IH as ((v0 & Hin) & Hf & Hm). split; [exists v0; by right|]. split; [done|].
      intros a b [Hab|Hab]%elem_of_cons Hfa; [injection Hab as -> ->; congruence|by eapply Hm].
    + intros a b [Hab|Hab]%elem_of_cons; [by injection Hab as -> ->|by eapply IH].
Qed.
Lemma last_key_last f l : keys_sorted l -> is_last f l (last_key f l).
Proof.
  intros Hs. induction l as [|[k v] l IH]; cbn [last_key]; [intros a b Hin; by apply elem_of_nil in Hin|].
  specialize (IH (sorted_tail _ _ Hs)). destruct (last_key f l) as [k'|]; cbn [is_last] in *.
  - destruct IH as ((v0 & Hin) & Hf & Hm). split; [exists v0; by right|]. split; [done|].
    intros a b [Hab|Hab]%elem_of_cons Hfa; [injection Hab as -> ->|by eapply Hm].
    pose proof (sorted_head _ _ _ _ Hs Hin). cbn in *. lia.
  - cbn [fst]. destruct (f k) eqn:E; cbn [is_last].
    + split; [exists v; by left|]. split; [done|].
      intros a b [Hab|Hab]%elem_of_cons Hfa; [injection Hab as -> ->; done|].
      pose proof (IH _ _ Hab). congruence.
    + intros a b [Hab|Hab]%elem_of_cons; [by injection Hab as -> ->|by eapply IH].
Qed.
Lemma sorted_fun l k v w : keys_sorted l -> (k, v) ∈ l -> (k, w) ∈ l -> v = w.
Proof.
  intros Hs. induction l as [|p l IH]; [intros Hin; by apply elem_of_nil in Hin|].
  intros [Hv|Hv]%elem_of_cons [Hw|Hw]%elem_of_cons.
  - congruence.
  - pose proof (sorted_head _ _ _ _ Hs Hw). subst. cbn in *. lia.
  - pose proof (sorted_head _ _ _ _ Hs Hv). subst. cbn in *. lia.
  - apply IH; [by eapply sorted_tail|done..].
Qed.
Lemma value_at_in l k v : keys_sorted l -> (k, v) ∈ l -> value_at k l = Ok v.
Proof.
  intros Hs Hin. unfold value_at. destruct (List.find (fun p => p.1 =? k) l) as [[k' w]|] eqn:E.
  - apply find_some in E as [Hin' Hk]. apply Z.eqb_eq in Hk. cbn in *. subst.
    apply list_elem_of_In in Hin'. f_equal. by eapply sorted_fun.
  - apply list_elem_of_In in Hin. pose proof (find_none _ _ E _ Hin) as Hk. cbn in Hk. lia.
Qed.

Lemma elem_of_put k v l a b : keys_sorted l ->
  (a, b) ∈ put k v l <-> (a = k /\ b = v) \/ ((a, b) ∈ l /\ a <> k).
Proof.
  intros Hs. induction l as [|[k' v'] l IH]; cbn [put fst].
  - rewrite list_elem_of_singleton. split; [intros [= -> ->]; by left|].
    intros [[-> ->]|[Hin _]]; [done|by apply elem_of_nil in Hin].
  - specialize (IH (sorted_tail _ _ Hs)).
    assert (Hh : forall a b, (a, b) ∈ l -> k' < a) by (intros ?? Hi; exact (sorted_head _ _ _ _ Hs Hi)).
    destruct (Z.ltb_spec k k'); [|destruct (Z.eqb_spec k k')]; rewrite !elem_of_cons.
    + split; [|by intros [[-> ->]|[[?|?] _]]; auto].
      intros [[= -> ->]|[[= -> ->]|Hin]]; [by left| |]; right; (split; [auto|]); [lia|].
      pose proof (Hh _ _ Hin). lia.
    + subst. split.
      * intros [[= -> ->]|Hin]; [by left|right]. pose proof (Hh _ _ Hin). split; [by right|lia].
      * intros [[-> ->]|[[[= -> ->]|Hin] Hne]]; [by left|done|by right].
    + rewrite IH. split.
      * intros [[= -> ->]|[[-> ->]|[Hin Hne]]]; [right; split; [by left|lia]|by left|right; split; [by right|done]].
      * intros [[-> ->]|[[[= -> ->]|Hin] Hne]]; [by right; left|by left|by right; right].
Qed.
Lemma sorted_put k v l : keys_sorted l -> keys_sorted (put k v l).
Proof.
  intros Hs. induction l as [|[k' v'] l IH]; cbn [put fst]; [repeat constructor|].
  pose proof (sorted_tail _ _ Hs) as Ht.
  assert (Hh : forall a b, (a, b) ∈ l -> k' < a) by (intros ?? Hi; exact (sorted_head _ _ _ _ Hs Hi)).
  destruct (Z.ltb_spec k k'); [|destruct (Z.eqb_spec k k')]; (constructor; [done || by apply IH|]);
    apply Forall_forall; intros [a b]; cbn; rewrite ?elem_of_cons.
  - intros [[= -> ->]|Hin]; [done|]. pose proof (Hh _ _ Hin). lia.
  - intros Hin. pose proof (Hh _ _ Hin). lia.
  - rewrite elem_of_put by done. intros [[-> ->]|[Hin _]]; [lia|by eapply Hh].
Qed.
Lemma elem_of_filter_keys f l a b : (a, b) ∈ List.filter (fun p : Z * Z => f p.1) l <-> (a, b) ∈ l /\ f a = true.
Proof. by rewrite !list_elem_of_In, filter_In. Qed.
Lemma sorted_filter f l : keys_sorted l -> keys_sorted (List.filter (fun p : Z * Z => f p.1) l).
Proof.
  intros Hs. induction l as [|[k v] l IH]; cbn [List.filter fst]; [done|]. pose proof (sorted_tail _ _ Hs) as Ht.
  destruct (f k); [|by apply IH]. constructor; [by apply IH|]. apply Forall_forall. intros [a b] [Hin _]%elem_of_filter_keys.
  exact (sorted_head _ _ _ _ Hs Hin).
Qed.

(** ** Interval sets *)
Definition member (v : Z) (l : intervals) : Prop := exists a b, (a, b) ∈ l /\ a <= v <= b.
Record wf_ranges (l : intervals) : Prop := {
  wr_sorted : keys_sorted l;
  wr_order : forall a b, (a, b) ∈ l -> LONG_MIN <= a /\ a <= b /\ b <= LONG_MAX;
  wr_apart : forall a b c d, (a, b) ∈ l -> (c, d) ∈ l -> a < c -> b + 1 < c
}.

Section Sets.
Context (past_end : Z * Z).
Implicit Types (l : intervals).

(** What an iterator to the interval around [v] is. *)
Definition around (v : Z) l (i : iterator) : Prop :=
  match i with Some k => exists b, (k, b) ∈ l /\ k <= v <= b | None => ~ member v l end.

Lemma it_eqb_eq i j : it_eqb i j = true <-> i = j.
Proof. destruct i, j; cbn; rewrite ?Z.eqb_eq; split; intros; simplify_eq; try done. Qed.

Lemma contains_around l v : wf_ranges l -> exists i, contains past_end v l = Ok i /\ around v l i.
Proof.
  intros [Hs Ho Hg]. unfold contains. pose proof (find_key_first (fun k => v <? k) l Hs) as Hu.
  pose proof (find_key_first (fun _ => true) l Hs) as Hb. fold (upper_bound v l) in Hu. fold (it_begin l) in Hb.
  destruct (it_eqb (upper_bound v l) (it_begin l)) eqn:E; cbn [negb].
  - apply it_eqb_eq in E. rewrite <- E in Hb. destruct (upper_bound v l) as [k|]; cbn [deref].
    + destruct Hu as ((w & Hin) & Hv & _). destruct Hb as (_ & _ & Hm). rewrite (value_at_in _ _ _ Hs Hin).
      cbn [fst snd]. assert ((k <=? v) = false) as -> by lia. exists None. split; [done|].
      intros (a & b & Hab & Hr). pose proof (Hm _ _ Hab eq_refl). lia.
    + exists None. split; [by destruct (_ && _)|]. intros (a & b & Hab & _). pose proof (Hb _ _ Hab). done.
  - unfold it_prev. set (f := fun k => match upper_bound v l with Some a => k <? a | None => true end).
    pose proof (last_key_last f l Hs) as Hl. destruct (last_key f l) as [k|] eqn:Ek.
    + destruct Hl as ((w & Hin) & Hf & Hm). cbn [deref]. rewrite (value_at_in _ _ _ Hs Hin). cbn [fst snd].
      assert (Hkv : k <= v).
      { unfold f in Hf. destruct (upper_bound v l) as [a|].
        - destruct Hu as (_ & _ & Hu). destruct (Z.ltb_spec v k) as [Hvk|]; [|lia].
          apply Z.ltb_lt in Hvk. pose proof (Hu _ _ Hin Hvk). lia.
        - pose proof (Hu _ _ Hin). cbn in *. lia. }
      assert ((k <=? v) = true) as -> by lia. cbn [assertion]. destruct (Z.leb_spec v w).
      * exists (Some k). split; [done|]. by exists w.
      * exists None. split; [done|]. intros (a & b & Hab & Hr).
        assert (Hfa : f a = true).
        { unfold f. destruct (upper_bound v l) as [c|]; [|done]. destruct Hu as (_ & Hu & _). lia. }
        pose proof (Hm _ _ Hab Hfa). destruct (decide (a = k)) as [->|Hne].
        { pose proof (sorted_fun _ _ _ _ Hs Hab Hin). lia. }
        pose proof (Hg _ _ _ _ Hab Hin). lia.
    + exfalso. destruct (it_begin l) as [k0|].
      * destruct Hb as ((w & Hin) & _ & Hm). pose proof (Hl _ _ Hin) as Hf. unfold f in Hf.
        destruct (upper_bound v l) as [a|]; [|done]. destruct Hu as ((wa & Ha) & _ & _).
        pose proof (Hm _ _ Ha eq_refl). cbn in E. lia.
      * destruct (upper_bound v l) as [a|]; [|done]. destruct Hu as ((wa & Ha) & _ & _). by pose proof (Hb _ _ Ha).
Qed.

Lemma contains_entirely_spec l min max : wf_ranges l -> min <= max ->
  exists i, contains_entirely past_end min max l = Ok i /\
    match i with
    | Some k => exists b, (k, b) ∈ l /\ k <= min /\ max <= b
    | None => exists v, min <= v <= max /\ ~ member v l
    end.
Proof.
  intros Hw Hm. unfold contains_entirely. destruct (contains_around l min Hw) as (i & -> & Hi).
  destruct i as [k|]; [|exists None; split; [done|exists min; split; [lia|done]]].
  destruct (contains_around l max Hw) as (u & -> & Hu). exists (if it_eqb u (Some k) then u else None).
  split; [done|]. destruct Hi as (b & Hb & Hkb). destruct (it_eqb u (Some k)) eqn:E.
  - apply it_eqb_eq in E as ->. destruct Hu as (b' & Hb' & Hkb').
    pose proof (sorted_fun _ _ _ _ (wr_sorted _ Hw) Hb Hb'). subst b'. exists b. split_and!; [done|lia|lia].
  - assert (Hlt : b < max).
    { destruct (Z.ltb_spec b max); [done|]. exfalso. destruct u as [k'|].
      - destruct Hu as (b' & Hb' & Hkb'). assert (k' <> k) by (cbn in E; lia).
        destruct (Z.lt_total k k') as [Hl|[?|Hl]]; [|done|].
        + pose proof (wr_apart _ Hw _ _ _ _ Hb Hb' Hl). lia.
        + pose proof (wr_apart _ Hw _ _ _ _ Hb' Hb Hl). lia.
      - apply Hu. exists k, b. split; [done|lia]. }
    exists (b + 1). split; [lia|]. intros (c & d & Hcd & Hr).
    destruct (Z.lt_total k c) as [Hl|[<-|Hl]].
    + pose proof (wr_apart _ Hw _ _ _ _ Hb Hcd Hl). lia.
    + pose proof (sorted_fun _ _ _ _ (wr_sorted _ Hw) Hb Hcd). lia.
    + pose proof (wr_apart _ Hw _ _ _ _ Hcd Hb Hl). lia.
Qed.

(** Members in a range. *)
Definition overlaps (min max : Z) l : Prop := exists v, min <= v <= max /\ member v l.

Lemma query_overlap_spec l min max : wf_ranges l -> min <= max ->
  exists b, query_overlap past_end min max l = Ok b /\ (b = true <-> overlaps min max l).
Proof.
  intros Hw Hm. unfold query_overlap. assert ((min <=? max) = true) as -> by lia. cbn [assertion].
  destruct (contains_around l min Hw) as (i & -> & Hi). destruct i as [k|].
  { exists true. split; [done|]. split; [intros _|done]. destruct Hi as (b & Hb & Hr).
    exists min. split; [lia|]. by exists k, b. }
  destruct (contains_around l max Hw) as (j & -> & Hj). destruct j as [k|].
  { exists true. split; [done|]. split; [intros _|done]. destruct Hj as (b & Hb & Hr).
    exists max. split; [lia|]. by exists k, b. }
  exists (negb (it_eqb (lower_bound min l) (lower_bound max l))). split; [done|].
  pose proof (find_key_first (fun k => min <=? k) l (wr_sorted _ Hw)) as Hl1. fold (lower_bound min l) in Hl1.
  pose proof (find_key_first (fun k => max <=? k) l (wr_sorted _ Hw)) as Hl2. fold (lower_bound max l) in Hl2.
  destruct (it_eqb _ _) eqn:E; cbn [negb]; (split; try done).
  - intros (v & Hv & a & b & Hab & Hr). apply it_eqb_eq in E. rewrite <- E in Hl2. exfalso.
    assert (min < a) by (destruct (Z.ltb_spec min a); [done|]; exfalso; apply Hi; exists a, b; split; [done|lia]).
    assert (b < max) by (destruct (Z.ltb_spec b max); [done|]; exfalso; apply Hj; exists a, b; split; [done|lia]).
    destruct (lower_bound min l) as [k|].
    + destruct Hl1 as (_ & _ & H1). destruct Hl2 as (_ & H2 & _).
      assert (Hma : (min <=? a) = true) by lia. pose proof (H1 _ _ Hab Hma). lia.
    + pose proof (Hl1 _ _ Hab). cbn in *. lia.
  - intros _. destruct (lower_bound min l) as [k|].
    + destruct Hl1 as ((w & Hin) & H1 & Hk1). exists k. split; [|exists k, w; split; [done|]; pose proof (wr_order _ Hw _ _ Hin); lia].
      split; [lia|]. destruct (Z.leb_spec k max); [done|]. exfalso. destruct (lower_bound max l) as [k'|].
      * destruct Hl2 as ((w' & Hin') & H2 & Hk2). cbn in E.
        assert (Hmk : (min <=? k') = true) by lia. pose proof (Hk1 _ _ Hin' Hmk).
        assert (Hmk' : (max <=? k) = true) by lia. pose proof (Hk2 _ _ Hin Hmk'). lia.
      * pose proof (Hl2 _ _ Hin). cbn in *. lia.
    + destruct (lower_bound max l) as [k'|]; [|done]. destruct Hl2 as ((w' & Hin') & H2 & Hk2).
      pose proof (Hl1 _ _ Hin'). cbn in *. lia.
Qed.

(** ** The check of the map *)
Lemma integrity_from_cases t l : integrity_from t l = Ok tt \/ integrity_from t l = Err F_assert.
Proof.
  revert t. induction l as [|p l IH]; intros t; cbn [integrity_from]; [by left|]. unfold assertion.
  destruct (_ <=? _); [|by right]. destruct (_ <? _); [|by right]. apply IH.
Qed.
Lemma check_integrity_cases l : check_integrity l = Ok tt \/ check_integrity l = Err F_assert.
Proof.
  destruct l as [|p l]; cbn [check_integrity]; [by left|]. unfold assertion.
  destruct (_ <=? _); [|by right]. apply integrity_from_cases.
Qed.
Lemma integrity_from_ok t l : keys_sorted l -> (forall a b, (a, b) ∈ l -> t < a /\ a <= b) ->
  (forall a b c d, (a, b) ∈ l -> (c, d) ∈ l -> a < c -> b < c) -> integrity_from t l = Ok tt.
Proof.
  revert t. induction l as [|[a b] l IH]; intros t Hs Ht Hd; cbn [integrity_from fst snd]; [done|].
  destruct (Ht a b ltac:(by left)). assert ((a <=? b) = true) as -> by lia. assert ((t <? a) = true) as -> by lia.
  cbn [assertion]. apply IH; [by eapply sorted_tail| |].
  - intros c d Hcd. destruct (Ht c d ltac:(by right)). split; [|done].
    apply (Hd a b c d); [by left|by right|]. exact (sorted_head _ _ _ _ Hs Hcd).
  - intros c d e f ? ?. apply (Hd c d e f); by right.
Qed.
Lemma check_integrity_ok l : wf_ranges l -> check_integrity l = Ok tt.
Proof.
  intros [Hs Ho Hg]. destruct l as [|[a b] l]; [done|]. cbn [check_integrity fst snd].
  destruct (Ho a b ltac:(by left)) as (_ & ? & _). assert ((a <=? b) = true) as -> by lia. cbn [assertion].
  apply integrity_from_ok; [by eapply sorted_tail| |].
  - intros c d Hcd. destruct (Ho c d ltac:(by right)) as (_ & ? & _). split; [|done].
    pose proof (Hg a b c d ltac:(by left) ltac:(by right) (sorted_head _ _ _ _ Hs Hcd)). lia.
  - intros c d e f Hc He Hlt. pose proof (Hg c d e f ltac:(by right) ltac:(by right) Hlt). lia.
Qed.
Lemma integrity_from_apart t l : integrity_from t l = Ok tt ->
  (forall a b, (a, b) ∈ l -> t < a) /\
  (forall a b c d, (a, b) ∈ l -> (c, d) ∈ l -> a < c -> b < c).
Proof.
  revert t. induction l as [|[a b] l IH]; intros t; cbn [integrity_from fst snd].
  { intros _. split; [intros a b Hin; by apply elem_of_nil in Hin|intros a b c d Hin; by apply elem_of_nil in Hin]. }
  destruct (Z.leb_spec a b); [|done]. destruct (Z.ltb_spec t a); [|done]. cbn [assertion]. intros Hi.
  destruct (IH _ Hi) as [H1 H2]. split.
  - intros c d [Hin|Hin]%elem_of_cons; [injection Hin as -> ->; done|]. pose proof (H1 _ _ Hin). lia.
  - intros c d e f [Hc|Hc]%elem_of_cons [He|He]%elem_of_cons Hlt; simplify_eq; try lia; eauto.
    pose proof (H1 _ _ Hc). lia.
Qed.
(** Two intervals that share a member are noticed. *)
Lemma check_integrity_fails l a b c d : (a, b) ∈ l -> (c, d) ∈ l -> a < c -> c <= b ->
  check_integrity l = Err F_assert.
Proof.
  intros Hab Hcd Hlt Hle. destruct (check_integrity_cases l) as [E|E]; [|done]. exfalso.
  destruct l as [|[k v] l]; [by apply elem_of_nil in Hab|]. cbn [check_integrity fst snd] in E.
  destruct (Z.leb_spec k v); [|done]. cbn [assertion] in E. destruct (integrity_from_apart _ _ E) as [H1 H2].
  apply elem_of_cons in Hab as [Hab|Hab], Hcd as [Hcd|Hcd]; simplify_eq; try lia.
  - pose proof (H1 _ _ Hcd). lia.
  - pose proof (H1 _ _ Hab). lia.
  - pose proof (H2 _ _ _ _ Hab Hcd Hlt). lia.
Qed.

(** ** Adding *)

(** An interval takes the place of those that it touches. *)
Lemma replace_spec l nmin nmax keep : wf_ranges l -> LONG_MIN <= nmin -> nmin <= nmax -> nmax <= LONG_MAX ->
  (forall a b, (a, b) ∈ l -> keep a = true -> a <> nmin -> b + 1 < nmin \/ nmax + 1 < a) ->
  let l' := put nmin nmax (List.filter (fun p => keep p.1) l) in
  wf_ranges l' /\
  forall v, member v l' <-> nmin <= v <= nmax \/ exists a b, (a, b) ∈ l /\ keep a = true /\ a <> nmin /\ a <= v <= b.
Proof.
  intros [Hs Ho Hg] H1 H2 H3 Hk. cbn zeta. pose proof (sorted_filter keep _ Hs) as Hf.
  assert (Hel : forall a b, (a, b) ∈ put nmin nmax (List.filter (fun p => keep p.1) l) <->
    (a = nmin /\ b = nmax) \/ ((a, b) ∈ l /\ keep a = true /\ a <> nmin)).
  { intros a b. rewrite elem_of_put by done. rewrite elem_of_filter_keys. tauto. }
  split; [split; [by apply sorted_put| |]|].
  - intros a b [[-> ->]|(Hin & _)]%Hel; [lia|by apply Ho].
  - intros a b c d [[-> ->]|(Ha & Hka & Hna)]%Hel [[-> ->]|(Hc & Hkc & Hnc)]%Hel Hlt.
    + lia.
    + destruct (Hk _ _ Hc Hkc Hnc); [|lia]. pose proof (Ho _ _ Hc). lia.
    + destruct (Hk _ _ Ha Hka Hna); lia.
    + by apply (Hg a b c d).
  - intros v. split.
    + intros (a & b & [[-> ->]|(Hin & Hka & Hna)]%Hel & Hr); [by left|right]. by exists a, b.
    + intros [Hr|(a & b & Hin & Hka & Hna & Hr)].
      * exists nmin, nmax. split; [apply Hel; by left|done].
      * exists a, b. split; [apply Hel; by right|done].
Qed.

Lemma is_first_unique f g l i j : is_first f l i -> is_first g l j ->
  (forall a b, (a, b) ∈ l -> f a = g a) -> i = j.
Proof.
  intros Hi Hj Hfg. destruct i as [a|], j as [b|]; cbn in *; try done.
  - destruct Hi as ((va & Ha) & Hfa & Hma), Hj as ((vb & Hb) & Hgb & Hmb). f_equal.
    pose proof (Hma _ _ Hb ltac:(by rewrite (Hfg _ _ Hb))). pose proof (Hmb _ _ Ha ltac:(by rewrite <- (Hfg _ _ Ha))). lia.
  - destruct Hi as ((va & Ha) & Hfa & _). rewrite (Hfg _ _ Ha) in Hfa. by rewrite (Hj _ _ Ha) in Hfa.
  - destruct Hj as ((vb & Hb) & Hgb & _). rewrite <- (Hfg _ _ Hb) in Hgb. by rewrite (Hi _ _ Hb) in Hgb.
Qed.
Lemma filter_same (f g : Z -> bool) l : (forall a b, (a, b) ∈ l -> f a = g a) ->
  List.filter (fun p => f p.1) l = List.filter (fun p => g p.1) l.
Proof. intros Hfg. apply filter_ext_in. intros [a b] Hin. apply (Hfg a b). by apply list_elem_of_In. Qed.
Lemma filter_all (f : Z -> bool) l : (forall a b, (a, b) ∈ l -> f a = true) -> List.filter (fun p => f p.1) l = l.
Proof.
  intros Hf. induction l as [|[a b] l IH]; cbn [List.filter fst]; [done|]. rewrite (Hf a b) by (by left).
  f_equal. apply IH. intros c d Hin. apply (Hf c d). by right.
Qed.

(** Erasing up to and with the entry [b]. *)
Lemma erase_through l a b vb : keys_sorted l -> (b, vb) ∈ l -> a <= b ->
  (e <-- it_next (Some b) l ;; erase (Some a) e l)
  = Ok (List.filter (fun p => (p.1 <? a) || (b <? p.1)) l).
Proof.
  intros Hs Hb Hab. cbn [it_next]. pose proof (find_key_first (fun k => b <? k) l Hs) as Hu.
  fold (upper_bound b l) in Hu. destruct (upper_bound b l) as [e|]; cbn [erase].
  - destruct Hu as ((w & He) & Hbe & Hm). assert ((a <=? e) = true) as -> by lia. f_equal.
    apply (filter_same (fun k => (k <? a) || (e <=? k)) (fun k => (k <? a) || (b <? k))). intros c d Hcd.
    f_equal. destruct (Z.ltb_spec b c) as [Hbc|]; [|lia]. apply Z.ltb_lt in Hbc. pose proof (Hm _ _ Hcd Hbc). lia.
  - f_equal. apply (filter_same (fun k => k <? a) (fun k => (k <? a) || (b <? k))). intros c d Hcd.
    pose proof (Hu _ _ Hcd). cbn in *. lia.
Qed.
Lemma erase_nothing l a b : keys_sorted l -> upper_bound b l = Some a ->
  (e <-- it_next (Some b) l ;; erase (Some a) e l) = Ok l.
Proof.
  intros Hs Hu. cbn [it_next]. rewrite Hu. cbn [erase]. assert ((a <=? a) = true) as -> by lia. f_equal.
  apply (filter_all (fun k => (k <? a) || (a <=? k))). intros c d _. lia.
Qed.

(** The left end of a new interval: the interval that it touches there, or the
    first one behind it. *)
Lemma left_end l min i : wf_ranges l -> LONG_MIN <= min -> around (min - 1) l i ->
  let '(li, nm) := lower_end min i l in
  is_first (fun k => nm <=? k) l li /\ LONG_MIN <= nm /\ nm <= min /\
  (forall a b, (a, b) ∈ l -> a < nm -> b + 1 < nm) /\ (forall v, nm <= v < min -> member v l).
Proof.
  intros Hw Hl Hi. destruct i as [k|].
  - destruct Hi as (b & Hb & Hr). pose proof (wr_order _ Hw _ _ Hb). split_and!; [|lia|lia| |].
    + split; [by exists b|]. split; [lia|]. intros c d _ Hc. lia.
    + intros c d Hcd Hlt. exact (wr_apart _ Hw _ _ _ _ Hcd Hb Hlt).
    + intros v Hv. exists k, b. split; [done|lia].
  - split_and!; [exact (find_key_first _ l (wr_sorted _ Hw))|lia|lia| |lia].
    intros a b Hab Hlt. destruct (Z.ltb_spec (b + 1) min); [done|]. exfalso. apply Hi. exists a, b. split; [done|lia].
Qed.

(** What is erased when the last interval to be erased is known. *)
Lemma erase_touched l li ui nm nx overlap fuse :
  wf_ranges l -> is_first (fun k => nm <=? k) l li -> is_last (fun k => k <=? nx) l ui ->
  (forall a b, (a, b) ∈ l -> a < nm -> b + 1 < nm) ->
  (forall a b, (a, b) ∈ l -> nm <= a <= nx -> overlap || fuse = true) ->
  ((forall a b, (a, b) ∈ l -> ~ nm <= a <= nx) -> overlap = false) ->
  erase_around overlap fuse li ui l = Ok (List.filter (fun p => (p.1 <? nm) || (nx <? p.1)) l).
Proof.
  intros Hw Hf Hl Hb Ho Hn. pose proof (wr_sorted _ Hw) as Hs. unfold erase_around.
  destruct li as [a|], ui as [b|]; cbn [is_first is_last] in *.
  - destruct Hf as ((va & Ha) & Hna & Hma), Hl as ((vb & Hvb) & Hnb & Hmb).
    assert (Hkeep : a <= b -> Ok (List.filter (fun p => (p.1 <? a) || (b <? p.1)) l)
                    = Ok (List.filter (fun p => (p.1 <? nm) || (nx <? p.1)) l)).
    { intros Hab. f_equal. apply (filter_same (fun k => (k <? a) || (b <? k)) (fun k => (k <? nm) || (nx <? k))).
      intros c d Hcd. destruct (Z.ltb_spec c nm), (Z.ltb_spec nx c); [lia|lia| |]; cbn [orb].
      - assert (Hc : (nm <=? c) = true) by lia. pose proof (Hma _ _ Hcd Hc). lia.
      - assert (Hc : (nm <=? c) = true) by lia. pose proof (Hma _ _ Hcd Hc).
        assert (Hc' : (c <=? nx) = true) by lia. pose proof (Hmb _ _ Hcd Hc'). lia. }
    destruct (Z.eqb_spec a b) as [->|Hne].
    + rewrite (Ho b vb Hvb ltac:(lia)). rewrite (erase_through l b b vb Hs Hvb) by lia. apply Hkeep. lia.
    + rewrite (value_at_in _ _ _ Hs Ha). destruct (Z.lt_total a b) as [Hlt|[?|Hgt]]; [|done|].
      * assert ((va <? b) = true) as -> by (pose proof (wr_apart _ Hw _ _ _ _ Ha Hvb Hlt); lia). cbn [orb].
        rewrite (erase_through l a b vb Hs Hvb) by lia. apply Hkeep. lia.
      * assert (Hbn : b < nm).
        { destruct (Z.ltb_spec b nm); [done|]. assert (Hc : (nm <=? b) = true) by lia. pose proof (Hma _ _ Hvb Hc). lia. }
        assert (Han : nx < a).
        { destruct (Z.ltb_spec nx a); [done|]. assert (Hc : (a <=? nx) = true) by lia. pose proof (Hmb _ _ Ha Hc). lia. }
        assert (Hnone : forall c d, (c, d) ∈ l -> ~ nm <= c <= nx).
        { intros c d Hcd Hr. assert (Hc : (nm <=? c) = true) by lia. pose proof (Hma _ _ Hcd Hc). lia. }
        rewrite (Hn Hnone). pose proof (wr_order _ Hw _ _ Ha). assert ((va <? b) = false) as -> by lia. cbn [orb].
        f_equal. symmetry. apply (filter_all (fun k => (k <? nm) || (nx <? k))). intros c d Hcd.
        specialize (Hnone _ _ Hcd). lia.
  - f_equal. symmetry. apply (filter_all (fun k => (k <? nm) || (nx <? k))). intros c d Hcd.
    pose proof (Hl _ _ Hcd). cbn in *. lia.
  - f_equal. symmetry. apply (filter_all (fun k => (k <? nm) || (nx <? k))). intros c d Hcd.
    pose proof (Hf _ _ Hcd). cbn in *. lia.
  - f_equal. symmetry. apply (filter_all (fun k => (k <? nm) || (nx <? k))). intros c d Hcd.
    pose proof (Hf _ _ Hcd). cbn in *. lia.
Qed.

(** What [add_range] promises. *)
Definition added (min max : Z) l l' : Prop :=
  wf_ranges l' /\ forall v, member v l' <-> member v l \/ min <= v <= max.

Lemma added_touched l min max nm nx : wf_ranges l -> LONG_MIN <= nm -> nm <= min -> min <= max -> max <= nx -> nx <= LONG_MAX ->
  (forall a b, (a, b) ∈ l -> a < nm -> b + 1 < nm) -> (forall v, nm <= v < min -> member v l) ->
  (forall a b, (a, b) ∈ l -> a <= nx -> b <= nx) -> (forall a b, (a, b) ∈ l -> nx < a -> nx + 1 < a) ->
  (forall v, max < v <= nx -> member v l) ->
  added min max l (put nm nx (List.filter (fun p => (p.1 <? nm) || (nx <? p.1)) l)).
Proof.
  intros Hw H1 H2 H3 H4 H5 Hb Hl Ha Hg Hr.
  destruct (replace_spec l nm nx (fun k => (k <? nm) || (nx <? k)) Hw H1 ltac:(lia) H5) as [Hw' Hm].
  { intros a b Hab Hk _. apply orb_true_iff in Hk as [Hk|Hk]; apply Z.ltb_lt in Hk; eauto. }
  split; [done|]. intros v. rewrite Hm. split.
  - intros [Hv|(a & b & Hab & _ & _ & Hv)]; [|left; by exists a, b].
    destruct (Z.ltb_spec v min); [left; apply Hl; lia|]. destruct (Z.ltb_spec max v); [left; apply Hr; lia|right; lia].
  - intros [(a & b & Hab & Hv)|Hv]; [|left; lia]. destruct (Z.ltb_spec a nm) as [Hlt|Hge].
    + right. exists a, b. assert ((a <? nm) = true) as -> by lia. split_and!; [done|done|lia|lia|lia].
    + destruct (Z.ltb_spec nx a) as [Hlt|Hge'].
      * right. exists a, b. assert ((nx <? a) = true) as -> by lia. rewrite orb_true_r. split_and!; [done|done|lia|lia|lia].
      * left. pose proof (Ha _ _ Hab Hge'). lia.
Qed.

(** The last interval begins where the new one ends: it is overlooked when
    another one is before it. *)
Definition overlooked (min max : Z) l : Prop :=
  min < max /\ (max, max) ∈ l /\ exists a b, (a, b) ∈ l /\ a < max.

Lemma overlooked_dec min max l : Decision (overlooked min max l).
Proof.
  unfold overlooked. destruct (decide (min < max)) as [?|?]; [|right; tauto].
  destruct (decide ((max, max) ∈ l)) as [?|?]; [|right; tauto].
  destruct (decide (Exists (fun p => p.1 < max) l)) as [He|He].
  - left. split_and!; [done|done|]. apply Exists_exists in He as ([a b] & Hin & Hlt). by exists a, b.
  - right. intros (_ & _ & a & b & Hin & Hlt). apply He, Exists_exists. by exists (a, b).
Qed.

(** The right end, when no interval is around the next number. *)
Lemma last_before l max : wf_ranges l -> ~ member (max + 1) l ->
  (forall a b, (a, b) ∈ l -> a <= max -> b <= max) /\ (forall a b, (a, b) ∈ l -> max < a -> max + 1 < a).
Proof.
  intros Hw Hn. split.
  - intros a b Hab Ha. destruct (Z.leb_spec b max); [done|]. exfalso. apply Hn. exists a, b. split; [done|lia].
  - intros a b Hab Ha. pose proof (wr_order _ Hw _ _ Hab). destruct (Z.ltb_spec (max + 1) a); [done|].
    exfalso. apply Hn. exists a, b. split; [done|lia].
Qed.

(** The iterator before the first key that is not less than [max]. *)
Lemma prev_lower l max : keys_sorted l -> it_eqb (lower_bound max l) (it_begin l) = false ->
  exists k, it_prev (lower_bound max l) l = Ok (Some k) /\ is_last (fun k => k <? max) l (Some k).
Proof.
  intros Hs E. unfold it_prev. set (f := fun k => match lower_bound max l with Some a => k <? a | None => true end).
  pose proof (find_key_first (fun k => max <=? k) l Hs) as Hl. fold (lower_bound max l) in Hl.
  pose proof (find_key_first (fun _ => true) l Hs) as Hb. fold (it_begin l) in Hb.
  pose proof (last_key_last f l Hs) as Hk. assert (Hf : forall a b, (a, b) ∈ l -> f a = (a <? max)).
  { intros a b Hab. unfold f. destruct (lower_bound max l) as [c|]; cbn [is_first] in Hl.
    - destruct Hl as ((w & Hc) & H1 & H2). destruct (Z.ltb_spec a max); [lia|].
      assert (Ha : (max <=? a) = true) by lia. pose proof (H2 _ _ Hab Ha). lia.
    - pose proof (Hl _ _ Hab). cbn in *. lia. }
  destruct (last_key f l) as [k|].
  - exists k. split; [done|]. destruct Hk as ((w & Hin) & H1 & H2). split; [by exists w|].
    rewrite (Hf _ _ Hin) in H1. split; [done|]. intros a b Hab Ha. apply (H2 a b Hab). by rewrite (Hf _ _ Hab).
  - exfalso. destruct (it_begin l) as [c|].
    + destruct Hb as ((w & Hc) & _ & Hm). pose proof (Hk _ _ Hc) as Hfc. unfold f in Hfc.
      destruct (lower_bound max l) as [d|]; [|done]. destruct Hl as ((wd & Hd) & _ & _).
      pose proof (Hm _ _ Hd eq_refl). cbn in E. lia.
    + destruct (lower_bound max l) as [d|]; [|done]. destruct Hl as ((wd & Hd) & _ & _). by pose proof (Hb _ _ Hd).
Qed.

(** An interval begins in the range, or none does. *)
Lemma overlap_in_keys l min max a b : wf_ranges l -> (a, b) ∈ l -> min <= a <= max -> overlaps min max l.
Proof.
  intros Hw Hab Ha. pose proof (wr_order _ Hw _ _ Hab). exists a. split; [done|]. exists a, b. split; [done|lia].
Qed.
Lemma overlap_keys l min max nm : (forall a b, (a, b) ∈ l -> a < nm -> b + 1 < nm) -> nm <= min ->
  (forall a b, (a, b) ∈ l -> ~ nm <= a <= max) -> ~ overlaps min max l.
Proof.
  intros Hb Hnm Hn (v & Hv & a & b & Hab & Hr). destruct (Z.ltb_spec a nm) as [Hlt|Hge].
  - pose proof (Hb _ _ Hab Hlt). lia.
  - apply (Hn _ _ Hab). lia.
Qed.

(** The three cases of the upper end. *)
Lemma add_at_upper l min max i U w : wf_ranges l -> LONG_MIN <= min -> min <= max ->
  around (min - 1) l i -> (U, w) ∈ l -> U <= max + 1 <= w -> forall ov,
  let lo := lower_end min i l in
  upper_end max lo.1 (Some U) l = Ok (Some U, w) /\
  exists l1, erase_around ov (negb (it_eqb i None) || true) lo.1 (Some U) l = Ok l1 /\ added min max l (put lo.2 w l1).
Proof.
  intros Hw H1 H2 Hi HU Hr ov. pose proof (left_end l min i Hw H1 Hi) as Hl. destruct (lower_end min i l) as [li nm].
  destruct Hl as (Hf & Hnm1 & Hnm2 & Hbelow & Hleft). pose proof (wr_order _ Hw _ _ HU). cbn [fst snd upper_end].
  rewrite (value_at_in _ _ _ (wr_sorted _ Hw) HU). split; [done|]. eexists. split.
  - apply (erase_touched l li (Some U) nm w); try done.
    + split; [by exists w|]. split; [lia|]. intros a b Hab Ha. destruct (Z.leb_spec a U); [done|].
      pose proof (wr_apart _ Hw _ _ _ _ HU Hab ltac:(lia)). lia.
    + intros. by rewrite !orb_true_r.
    + intros Hn. exfalso. apply (Hn _ _ HU). destruct (Z.leb_spec nm U); [lia|].
      pose proof (Hbelow _ _ HU ltac:(lia)). lia.
  - apply added_touched; try done; try lia.
    + intros a b Hab Ha. destruct (Z.lt_total a U) as [Hlt|[->|Hgt]].
      * pose proof (wr_apart _ Hw _ _ _ _ Hab HU Hlt). lia.
      * pose proof (sorted_fun _ _ _ _ (wr_sorted _ Hw) Hab HU). lia.
      * pose proof (wr_apart _ Hw _ _ _ _ HU Hab Hgt). lia.
    + intros a b Hab Ha. apply (wr_apart _ Hw _ _ _ _ HU Hab). lia.
    + intros v Hv. exists U, w. split; [done|lia].
Qed.

Lemma overlap_flag l min max i ov : wf_ranges l -> around (min - 1) l i -> LONG_MIN <= min ->
  (ov = true <-> overlaps min max l) ->
  (forall a b, (a, b) ∈ l -> (lower_end min i l).2 <= a <= max -> ov || (negb (it_eqb i None) || false) = true) /\
  ((forall a b, (a, b) ∈ l -> ~ (lower_end min i l).2 <= a <= max) -> ov = false).
Proof.
  intros Hw Hi H1 Hov. pose proof (left_end l min i Hw H1 Hi) as Hl. split.
  - intros a b Hab Ha. destruct i as [k|]; [by rewrite orb_true_r|]. apply orb_true_iff. left. apply Hov.
    by apply (overlap_in_keys l min max a b).
  - intros Hn. destruct (lower_end min i l) as [li nm]. destruct Hl as (_ & _ & Hnm & Hb & _).
    apply not_true_is_false. intros Ho%Hov. by apply (overlap_keys l min max nm Hb Hnm Hn).
Qed.
(** An interval that is added again. *)
Lemma added_again l max : wf_ranges l -> (max, max) ∈ l -> LONG_MIN <= max -> max <= LONG_MAX ->
  added max max l (put max max l).
Proof.
  intros Hw Hin H1 H2. rewrite <- (filter_all (fun _ => true) l) at 2 by done.
  destruct (replace_spec l max max (fun _ => true) Hw H1 ltac:(lia) H2) as [Hw' Hm].
  { intros a b Hab _ Hne. destruct (Z.lt_total a max) as [Hlt|[?|Hgt]]; [|done|].
    - left. pose proof (wr_apart _ Hw _ _ _ _ Hab Hin Hlt). lia.
    - right. pose proof (wr_apart _ Hw _ _ _ _ Hin Hab Hgt). lia. }
  split; [done|]. intros v. rewrite Hm. split.
  - intros [Hv|(a & b & Hab & _ & _ & Hv)]; [right; lia|left; by exists a, b].
  - intros [(a & b & Hab & Hv)|Hv]; [|left; lia]. destruct (decide (a = max)) as [->|Hne].
    + left. pose proof (sorted_fun _ _ _ _ (wr_sorted _ Hw) Hab Hin). lia.
    + right. by exists a, b.
Qed.

Lemma next_of_pred l max k : keys_sorted l -> (max, max) ∈ l -> is_last (fun k => k <? max) l (Some k) ->
  upper_bound k l = Some max.
Proof.
  intros Hs HX ((w & Hin) & Hk & Hm).
  apply (is_first_unique (fun c => k <? c) (fun c => k <? c) l); [exact (find_key_first _ l Hs)| |done].
  split; [by exists max|]. split; [lia|]. intros a b Hab Ha. destruct (Z.leb_spec max a); [done|].
  assert (Ham : (a <? max) = true) by lia. pose proof (Hm _ _ Hab Ham). lia.
Qed.

Lemma add_above l min max i ov : wf_ranges l -> LONG_MIN <= min -> min <= max -> max <= LONG_MAX ->
  around (min - 1) l i -> ~ member (max + 1) l -> ~ overlooked min max l -> (ov = true <-> overlaps min max l) ->
  let lo := lower_end min i l in
  exists ui l1, upper_end max lo.1 None l = Ok (ui, max) /\
    erase_around ov (negb (it_eqb i None) || false) lo.1 ui l = Ok l1 /\ added min max l (put lo.2 max l1).
Proof.
  intros Hw H1 H2 H3 Hi Hu Hno Hov. pose proof (wr_sorted _ Hw) as Hs.
  destruct (overlap_flag l min max i ov Hw Hi H1 Hov) as [Ho Hn]. pose proof (left_end l min i Hw H1 Hi) as Hl.
  destruct (last_before l max Hw Hu) as [Hr1 Hr2].
  assert (Htouch : forall li nm ui, lower_end min i l = (li, nm) -> is_last (fun k => k <=? max) l ui ->
    exists l1, erase_around ov (negb (it_eqb i None) || false) li ui l = Ok l1 /\ added min max l (put nm max l1)).
  { intros li nm ui E Hui. rewrite E in *. cbn [fst snd] in *. destruct Hl as (Hf & Hnm1 & Hnm2 & Hb & Hleft).
    eexists. split; [by apply erase_touched|]. apply added_touched; try done; try lia. }
  unfold upper_end. destruct (it_eqb (lower_bound max l) (it_begin l)) eqn:E; cbn [negb].
  - apply it_eqb_eq in E. pose proof (find_key_first (fun k => max <=? k) l Hs) as Hlb. fold (lower_bound max l) in Hlb.
    pose proof (find_key_first (fun _ => true) l Hs) as Hbg. fold (it_begin l) in Hbg. rewrite E in Hlb.
    assert (Hall : forall a b, (a, b) ∈ l -> max <= a).
    { intros a b Hab. destruct (it_begin l) as [c|]; [|by pose proof (Hbg _ _ Hab)].
      destruct Hbg as (_ & _ & Hm). destruct Hlb as (_ & Hc & _). pose proof (Hm _ _ Hab eq_refl). lia. }
    destruct i as [k|].
    { exfalso. destruct Hi as (b & Hb & Hr). pose proof (Hall _ _ Hb). lia. }
    cbn [lower_end fst snd] in *.
    assert (Hli : lower_bound min l = it_begin l).
    { apply (is_first_unique (fun k => min <=? k) (fun _ => true) l); [exact (find_key_first _ l Hs)|done|].
      intros a b Hab. pose proof (Hall _ _ Hab). lia. }
    rewrite E, Hli in *. assert (it_eqb (it_begin l) (it_begin l) = true) as -> by (by apply it_eqb_eq). cbn [assertion].
    exists (it_begin l). destruct (it_begin l) as [c|] eqn:Ec.
    + destruct (decide (c <= max)) as [Hc|Hc].
      * destruct (Htouch _ _ (Some c) eq_refl) as (l1 & E1 & Ha); [|by exists l1].
        destruct Hbg as (Hin & _ & Hm). split; [done|]. split; [lia|]. intros a b Hab Ha.
        pose proof (Hall _ _ Hab). destruct Hlb as (_ & Hcm & _). lia.
      * assert (Hnone : forall a b, (a, b) ∈ l -> ~ min <= a <= max).
        { intros a b Hab Ha. destruct Hbg as (_ & _ & Hm). pose proof (Hm _ _ Hab eq_refl). lia. }
        exists l. split; [done|]. split.
        { cbn [erase_around]. rewrite Z.eqb_refl, (Hn Hnone). done. }
        destruct Hl as (_ & _ & _ & Hb & Hleft).
        rewrite <- (filter_all (fun k => (k <? min) || (max <? k)) l) at 2.
        -- apply added_touched; try done; lia.
        -- intros a b Hab. pose proof (Hall _ _ Hab). specialize (Hnone _ _ Hab). lia.
    + destruct (Htouch _ _ None eq_refl) as (l1 & E1 & Ha); [|by exists l1].
      intros a b Hab. by pose proof (Hbg _ _ Hab).
  - destruct (prev_lower l max Hs E) as (k & -> & Hk). destruct Hk as ((w & Hin) & Hkm & Hm).
    destruct (decide ((max, max) ∈ l)) as [HX|HX].
    + assert (min = max) as ->.
      { destruct (Z.eqb_spec min max); [done|]. exfalso. apply Hno. split; [lia|]. split; [done|]. exists k, w. split; [done|lia]. }
      destruct i as [L|].
      { exfalso. destruct Hi as (b & Hb & Hr). pose proof (wr_apart _ Hw _ _ _ _ Hb HX ltac:(lia)). lia. }
      cbn [lower_end fst snd] in *. exists (Some k), l. split; [done|]. split; [|by apply added_again].
      assert (Hlb : lower_bound max l = Some max).
      { apply (is_first_unique (fun k => max <=? k) (fun k => max <=? k) l); [exact (find_key_first _ l Hs)| |done].
        split; [by exists max|]. split; [lia|]. intros a b _ Ha. lia. }
      rewrite Hlb. cbn [erase_around]. assert ((max =? k) = false) as -> by lia. rewrite (value_at_in _ _ _ Hs HX).
      assert (ov = true) as -> by (apply Hov; exists max; split; [lia|]; exists max, max; split; [done|lia]).
      rewrite orb_true_r. apply erase_nothing; [done|]. apply next_of_pred; [done|done|].
      split; [by exists w|done].
    + destruct (lower_end min i l) as [li nm] eqn:El. destruct (Htouch li nm (Some k) eq_refl) as (l1 & E1 & Ha).
      * split; [by exists w|]. split; [lia|]. intros a b Hab Ha. destruct (decide (a = max)) as [->|Hne].
        { exfalso. apply HX. pose proof (wr_order _ Hw _ _ Hab). pose proof (Hr1 _ _ Hab ltac:(lia)).
          by assert (b = max) as -> by lia. }
        assert (Ham : (a <? max) = true) by lia. exact (Hm _ _ Hab Ham).
      * by exists (Some k), l1.
Qed.

(** The overlooked interval stays in the map. *)
Lemma add_overlooks l min max i : wf_ranges l -> LONG_MIN <= min -> around (min - 1) l i -> overlooked min max l ->
  let lo := lower_end min i l in
  exists ui l1, upper_end max lo.1 None l = Ok (ui, max) /\
    erase_around true (negb (it_eqb i None) || false) lo.1 ui l = Ok l1 /\
    check_integrity (put lo.2 max l1) = Err F_assert.
Proof.
  intros Hw H1 Hi (Hlt & HX & a & b & Hab & Ha). pose proof (wr_sorted _ Hw) as Hs.
  pose proof (left_end l min i Hw H1 Hi) as Hl. destruct (lower_end min i l) as [li nm].
  destruct Hl as (Hf & _ & Hnm & _ & _). cbn [fst snd]. unfold upper_end.
  destruct (it_eqb (lower_bound max l) (it_begin l)) eqn:E; cbn [negb].
  { exfalso. apply it_eqb_eq in E. pose proof (find_key_first (fun k => max <=? k) l Hs) as Hlb.
    fold (lower_bound max l) in Hlb. pose proof (find_key_first (fun _ => true) l Hs) as Hbg.
    fold (it_begin l) in Hbg. rewrite E in Hlb. destruct (it_begin l) as [c|]; [|by pose proof (Hbg _ _ Hab)].
    destruct Hbg as (_ & _ & Hm). destruct Hlb as (_ & Hc & _). pose proof (Hm _ _ Hab eq_refl). lia. }
  destruct (prev_lower l max Hs E) as (k & -> & Hk). exists (Some k).
  assert (Hl1 : exists l1, erase_around true (negb (it_eqb i None) || false) li (Some k) l = Ok l1 /\
    (max, max) ∈ l1 /\ keys_sorted l1).
  { pose proof Hk as ((w & Hin) & Hkm & Hm). assert (Hnx : (nm <=? max) = true) by lia.
    destruct li as [K|]; [|pose proof (Hf _ _ HX) as Hx; cbn in Hx; lia]. destruct Hf as ((kv & HK) & HnK & HmK).
    pose proof (HmK _ _ HX Hnx). cbn [erase_around orb]. rewrite (value_at_in _ _ _ Hs HK), orb_true_r.
    assert (Hthrough : K <= k -> exists l1, (e <-- it_next (Some k) l ;; erase (Some K) e l) = Ok l1 /\
      (max, max) ∈ l1 /\ keys_sorted l1).
    { intros HKk. rewrite (erase_through l K k w Hs Hin HKk). eexists. split; [done|].
      split; [|by apply (sorted_filter (fun c => (c <? K) || (k <? c)))].
      apply (elem_of_filter_keys (fun c => (c <? K) || (k <? c))). split; [done|]. lia. }
    destruct (Z.eqb_spec K k) as [->|Hne]; [apply Hthrough; lia|].
    destruct (Z.ltb_spec K k); [apply Hthrough; lia|]. exists l. split; [|done].
    assert (K = max) as ->.
    { destruct (Z.ltb_spec K max) as [HKm|]; [|lia]. apply Z.ltb_lt in HKm. pose proof (Hm _ _ HK HKm). lia. }
    apply erase_nothing; [done|]. by apply next_of_pred. }
  destruct Hl1 as (l1 & E1 & HX1 & Hs1). exists l1. split_and!; [done|done|].
  apply (check_integrity_fails _ nm max max max); [| |lia|lia]; apply elem_of_put; try done; [by left|right].
  split; [done|lia].
Qed.

Lemma add_range_spec l min max : wf_ranges l -> LONG_MIN < min -> min <= max -> max < LONG_MAX ->
  (overlooked min max l -> add_range past_end min max l = Err F_assert) /\
  (~ overlooked min max l -> exists ov l', add_range past_end min max l = Ok (ov, l') /\
     (ov = true <-> overlaps min max l) /\ added min max l l').
Proof.
  intros Hw H1 H2 H3. unfold add_range.
  destruct (query_overlap_spec l min max Hw H2) as (ov & -> & Hov). rewrite (to_long_ok (min - 1)) by lia.
  destruct (contains_around l (min - 1) Hw) as (i & -> & Hi). rewrite (to_long_ok (max + 1)) by lia.
  destruct (contains_around l (max + 1) Hw) as (u & -> & Hu). split.
  - intros Hno. destruct u as [U|].
    { exfalso. destruct Hu as (w & HU & Hr). destruct Hno as (_ & HX & _).
      destruct (Z.lt_total U max) as [Hlt|[->|Hgt]].
      - pose proof (wr_apart _ Hw _ _ _ _ HU HX Hlt). lia.
      - pose proof (sorted_fun _ _ _ _ (wr_sorted _ Hw) HU HX). lia.
      - pose proof (wr_apart _ Hw _ _ _ _ HX HU Hgt). lia. }
    assert (ov = true) as ->.
    { apply Hov. destruct Hno as (_ & HX & _). apply (overlap_in_keys l min max max max); [done|done|lia]. }
    destruct (add_overlooks l min max i Hw ltac:(lia) Hi Hno) as (ui & l1 & E1 & E2 & E3).
    cbv zeta. rewrite E1. cbn [fst snd it_eqb negb]. rewrite E2. by rewrite E3.
  - intros Hno. destruct u as [U|].
    + destruct Hu as (w & HU & Hr). destruct (add_at_upper l min max i U w Hw ltac:(lia) H2 Hi HU Hr ov) as (E1 & l1 & E2 & Ha).
      cbv zeta. rewrite E1. cbn [fst snd it_eqb negb]. rewrite E2. destruct Ha as [Hw' Hm].
      rewrite (check_integrity_ok _ Hw'). by exists ov, (put (lower_end min i l).2 w l1).
    + destruct (add_above l min max i ov Hw ltac:(lia) H2 ltac:(lia) Hi Hu Hno Hov) as (ui & l1 & E1 & E2 & Ha).
      cbv zeta. rewrite E1. cbn [fst snd it_eqb negb]. rewrite E2. destruct Ha as [Hw' Hm].
      rewrite (check_integrity_ok _ Hw'). by exists ov, (put (lower_end min i l).2 max l1).
Qed.

(** ** Deleting *)
Definition deleted (min max : Z) l l' : Prop :=
  wf_ranges l' /\ forall v, member v l' <-> member v l /\ ~ min <= v <= max.

(** Intervals are left alone, cut at their end, or cut at their beginning. *)
Definition rest (min max : Z) l (a b : Z) : Prop :=
  ((a, b) ∈ l /\ (b < min \/ max < a)) \/
  (a < min /\ b = min - 1 /\ exists b0, (a, b0) ∈ l /\ min <= b0) \/
  (a = max + 1 /\ max < b /\ exists a0, (a0, b) ∈ l /\ a0 <= max).

Lemma deleted_rest l l' min max : wf_ranges l -> min <= max -> keys_sorted l' ->
  (forall a b, (a, b) ∈ l' <-> rest min max l a b) -> deleted min max l l'.
Proof.
  intros Hw Hm Hs Hel.
  assert (Hbound : forall a b, rest min max l a b -> exists a0 b0, (a0, b0) ∈ l /\ a0 <= a /\ a <= b /\ b <= b0 /\
    (b < min \/ max < a) /\ (b = b0 \/ b = min - 1) /\ (a = a0 \/ a = max + 1)).
  { intros a b [[Hin Hr]|[(Ha & -> & b0 & Hin & Hb)|(-> & Hb & a0 & Hin & Ha)]]; pose proof (wr_order _ Hw _ _ Hin).
    - exists a, b. split_and!; auto; lia.
    - exists a, b0. split_and!; auto; lia.
    - exists a0, b. split_and!; auto; lia. }
  split; [split; [done| |]|].
  - intros a b Hab%Hel. destruct (Hbound _ _ Hab) as (a0 & b0 & Hin & ? & ? & ? & _).
    pose proof (wr_order _ Hw _ _ Hin). lia.
  - intros a b c d Hab%Hel Hcd%Hel Hlt.
    destruct (Hbound _ _ Hab) as (a0 & b0 & Hin & ? & ? & ? & ? & ? & ?).
    destruct (Hbound _ _ Hcd) as (c0 & d0 & Hin' & ? & ? & ? & ? & ? & ?).
    destruct (Z.lt_total a0 c0) as [Hl|[->|Hl]].
    + pose proof (wr_apart _ Hw _ _ _ _ Hin Hin' Hl). lia.
    + pose proof (sorted_fun _ _ _ _ (wr_sorted _ Hw) Hin Hin'). lia.
    + pose proof (wr_apart _ Hw _ _ _ _ Hin' Hin Hl). lia.
  - intros v. split.
    + intros (a & b & Hab%Hel & Hv). destruct (Hbound _ _ Hab) as (a0 & b0 & Hin & ? & ? & ? & ? & _).
      split; [exists a0, b0; split; [done|lia]|lia].
    + intros [(a & b & Hab & Hv) Hn]. destruct (Z.ltb_spec v min) as [Hlt|Hge].
      * destruct (Z.ltb_spec b min) as [Hb|Hb].
        { exists a, b. split; [apply Hel; left|]; auto. }
        exists a, (min - 1). split; [|lia]. apply Hel. right. left. split_and!; [lia|done|by exists b].
      * destruct (Z.ltb_spec max a) as [Ha|Ha].
        { exists a, b. split; [apply Hel; left|]; auto. }
        exists (max + 1), b. split; [|lia]. apply Hel. right. right. split_and!; [done|lia|by exists a].
Qed.

(** Erasing between the first keys from [x] and from [y] on. *)
Lemma erase_between l i j x y : is_first (fun k => x <=? k) l i -> is_first (fun k => y <=? k) l j -> x <= y ->
  erase i j l = Ok (List.filter (fun p => (p.1 <? x) || (y <=? p.1)) l).
Proof.
  intros Hi Hj Hxy. destruct i as [a|], j as [b|]; cbn [is_first erase] in *.
  - destruct Hi as ((va & Ha) & Hxa & Hma), Hj as ((vb & Hb) & Hyb & Hmb).
    assert (Hxb : (x <=? b) = true) by lia. pose proof (Hma _ _ Hb Hxb). assert ((a <=? b) = true) as -> by lia. f_equal.
    apply (filter_same (fun k => (k <? a) || (b <=? k)) (fun k => (k <? x) || (y <=? k))). intros c d Hcd. f_equal.
    + destruct (Z.ltb_spec c x); [lia|]. assert (Hxc : (x <=? c) = true) by lia. pose proof (Hma _ _ Hcd Hxc). lia.
    + destruct (Z.leb_spec y c); [|lia]. assert (Hyc : (y <=? c) = true) by lia. pose proof (Hmb _ _ Hcd Hyc). lia.
  - destruct Hi as ((va & Ha) & Hxa & Hma). f_equal.
    apply (filter_same (fun k => k <? a) (fun k => (k <? x) || (y <=? k))). intros c d Hcd. pose proof (Hj _ _ Hcd) as Hy.
    cbn in Hy. rewrite Hy, orb_false_r. destruct (Z.ltb_spec c x); [lia|].
    assert (Hxc : (x <=? c) = true) by lia. pose proof (Hma _ _ Hcd Hxc). lia.
  - destruct Hj as ((vb & Hb) & Hyb & _). pose proof (Hi _ _ Hb) as Hx. cbn in Hx. lia.
  - f_equal. symmetry. apply (filter_all (fun k => (k <? x) || (y <=? k))). intros c d Hcd.
    pose proof (Hi _ _ Hcd) as Hx. cbn in Hx. lia.
Qed.
Lemma first_next k l : keys_sorted l -> is_first (fun c => k + 1 <=? c) l (upper_bound k l).
Proof.
  intros Hs. pose proof (find_key_first (fun c => k <? c) l Hs) as Hf. fold (upper_bound k l) in Hf.
  destruct (upper_bound k l) as [a|]; cbn [is_first] in *.
  - destruct Hf as (Hin & Ha & Hm). split; [done|]. split; [lia|]. intros c d Hcd Hc. apply (Hm c d Hcd). lia.
  - intros a b Hab. pose proof (Hf _ _ Hab) as Hx. cbn in Hx. lia.
Qed.
Lemma first_key k v l : (k, v) ∈ l -> is_first (fun c => k <=? c) l (Some k).
Proof. intros Hin. split; [by exists v|]. split; [lia|]. intros a b _ Ha. lia. Qed.
Lemma first_lower k l : keys_sorted l -> is_first (fun c => k <=? c) l (lower_bound k l).
Proof. apply find_key_first. Qed.

(** Where an interval lies with respect to another one. *)
Lemma position l L lb a b : wf_ranges l -> (L, lb) ∈ l -> (a, b) ∈ l ->
  (a < L /\ b + 1 < L) \/ (a = L /\ b = lb) \/ (L < a /\ lb + 1 < a).
Proof.
  intros Hw HL Hab. destruct (Z.lt_total a L) as [Hl|[->|Hl]].
  - left. by pose proof (wr_apart _ Hw _ _ _ _ Hab HL Hl).
  - right. left. by pose proof (sorted_fun _ _ _ _ (wr_sorted _ Hw) HL Hab).
  - right. right. by pose proof (wr_apart _ Hw _ _ _ _ HL Hab Hl).
Qed.

Lemma around_unique v l i k b : wf_ranges l -> around v l i -> (k, b) ∈ l -> k <= v <= b -> i = Some k.
Proof.
  intros Hw Hi Hin Hr. destruct i as [k'|]; [|exfalso; apply Hi; by exists k, b].
  destruct Hi as (b' & Hin' & Hr'). destruct (position l k b k' b' Hw Hin Hin') as [?|[[-> _]|?]]; [lia|done|lia].
Qed.
Lemma rest_low l min i a b : wf_ranges l -> around min l i ->
  (a < min /\ b = min - 1 /\ exists b0, (a, b0) ∈ l /\ min <= b0) <->
  match i with Some L => a = L /\ L < min /\ b = min - 1 | None => False end.
Proof.
  intros Hw Hi. split.
  - intros (Ha & -> & b0 & Hin & Hb). rewrite (around_unique min l i a b0 Hw Hi Hin); [done|lia].
  - destruct i as [L|]; [|done]. intros (-> & Hlt & ->). destruct Hi as (b & Hin & Hr). split_and!; [done|done|].
    exists b. split; [done|lia].
Qed.
Lemma rest_high l max u a b : wf_ranges l -> around max l u ->
  (a = max + 1 /\ max < b /\ exists a0, (a0, b) ∈ l /\ a0 <= max) <->
  match u with Some U => a = max + 1 /\ max < b /\ (U, b) ∈ l | None => False end.
Proof.
  intros Hw Hu. split.
  - intros (-> & Hb & a0 & Hin & Ha). rewrite (around_unique max l u a0 b Hw Hu Hin); [done|lia].
  - destruct u as [U|]; [|done]. intros (-> & Hlt & Hin). split_and!; [done|done|]. exists U. split; [done|].
    destruct Hu as (b' & Hin' & Hr). lia.
Qed.
Lemma first_put f k v l i : keys_sorted l -> (exists w, (k, w) ∈ l) -> is_first f l i -> is_first f (put k v l) i.
Proof.
  intros Hs (w & Hk) Hi.
  assert (Hkeys : forall a b, (a, b) ∈ put k v l -> exists b', (a, b') ∈ l).
  { intros a b [[-> _]|[Hin _]]%elem_of_put; [by exists w|by exists b|done]. }
  destruct i as [c|]; cbn [is_first] in *.
  - destruct Hi as ((cw & Hc) & Hf & Hm). split_and!; [|done|].
    + destruct (decide (c = k)) as [->|Hne]; [exists v|exists cw]; apply elem_of_put; try done; [by left|by right].
    + intros a b (b' & Hab)%Hkeys. by eapply Hm.
  - intros a b (b' & Hab)%Hkeys. by eapply Hi.
Qed.

(** The two maps that deleting builds before it erases: with the end of the
    interval around [max] split off, and that around [min] cut. *)
Definition split_off (max : Z) (u : iterator) l l1 : Prop :=
  keys_sorted l1 /\ forall a b, (a, b) ∈ l1 <-> (a, b) ∈ l \/
    match u with Some U => a = max + 1 /\ max < b /\ (U, b) ∈ l | None => False end.
Definition cut (min : Z) (i : iterator) l1 l2 : Prop :=
  keys_sorted l2 /\ forall a b, (a, b) ∈ l2 <->
    match i with
    | Some L => ((a, b) ∈ l1 /\ (a <> L \/ min <= L)) \/ (a = L /\ L < min /\ b = min - 1)
    | None => (a, b) ∈ l1
    end.

Lemma split_off_some l max U u : wf_ranges l -> (U, u) ∈ l -> U <= max <= u ->
  split_off max (Some U) l (if negb (u =? max) then put (max + 1) u l else l).
Proof.
  intros Hw HU Hr. pose proof (wr_sorted _ Hw) as Hs. destruct (Z.eqb_spec u max) as [->|Hne]; cbn [negb].
  - split; [done|]. intros a b. split; [by left|]. intros [?|(_ & Hb & Hin)]; [done|].
    pose proof (sorted_fun _ _ _ _ Hs HU Hin). lia.
  - split; [by apply sorted_put|]. intros a b. rewrite elem_of_put by done. split.
    + intros [[-> ->]|[? _]]; [right; split_and!; auto; lia|by left].
    + intros [Hab|(-> & Hb & Hin)].
      * right. split; [done|]. destruct (position _ _ _ _ _ Hw HU Hab) as [?|[?|?]]; lia.
      * left. split; [done|]. by eapply sorted_fun.
Qed.
Lemma cut_some min L lb l1 : keys_sorted l1 -> (L, lb) ∈ l1 -> L <= min ->
  cut min (Some L) l1 (if negb (L =? min) then put L (min - 1) l1 else l1).
Proof.
  intros Hs HL Hr. destruct (Z.eqb_spec L min) as [->|Hne]; cbn [negb].
  - split; [done|]. intros a b. split; [left; split; [done|lia]|]. intros [[? _]|?]; [done|lia].
  - split; [by apply sorted_put|]. intros a b. rewrite elem_of_put by done. split.
    + intros [[-> ->]|[? ?]]; [right; split_and!; auto; lia|left; split; auto].
    + intros [[Hab [?|?]]|(-> & Hb & ->)]; [by right|lia|by left].
Qed.
Definition erase_from (min : Z) (i : iterator) : Z :=
  match i with Some L => if L <? min then L + 1 else L | None => min end.
Definition erase_to (max : Z) (u : iterator) : Z := match u with Some U => U + 1 | None => max end.

Lemma erased_rest l l1 l2 min max i u a b : wf_ranges l -> min <= max -> around min l i -> around max l u ->
  split_off max u l l1 -> cut min i l1 l2 ->
  ((a, b) ∈ l2 /\ (a < erase_from min i \/ erase_to max u <= a)) <-> rest min max l a b.
Proof.
  intros Hw Hm Hi Hu [_ H1] [_ H2]. unfold rest. rewrite (rest_low l min i a b Hw Hi), (rest_high l max u a b Hw Hu), H2.
  assert (Hlow : (a, b) ∈ l -> match i with
    | Some L => (a < L /\ b < L) \/ (a = L /\ min <= b) \/ (L < a /\ min < a)
    | None => (a <= b /\ b < min) \/ min < a end).
  { intros Hab. pose proof (wr_order _ Hw _ _ Hab). destruct i as [L|].
    - destruct Hi as (lb & HL & Hr). destruct (position _ _ _ _ _ Hw HL Hab) as [?|[?|?]]; lia.
    - destruct (Z.ltb_spec b min); [lia|]. destruct (Z.ltb_spec min a); [lia|]. exfalso. apply Hi. exists a, b. split; [done|lia]. }
  assert (Hhigh : (a, b) ∈ l -> match u with
    | Some U => (a < U /\ b < U) \/ (a = U /\ max <= b) \/ (U < a /\ max < a)
    | None => (a <= b /\ b < max) \/ max < a end).
  { intros Hab. pose proof (wr_order _ Hw _ _ Hab). destruct u as [U|].
    - destruct Hu as (ub & HU & Hr). destruct (position _ _ _ _ _ Hw HU Hab) as [?|[?|?]]; lia.
    - destruct (Z.ltb_spec b max); [lia|]. destruct (Z.ltb_spec max a); [lia|]. exfalso. apply Hu. exists a, b. split; [done|lia]. }
  assert (Hil : match i with Some L => L <= min | None => True end) by (destruct i as [L|]; [destruct Hi as (? & _ & ?); lia|done]).
  assert (Huu : match u with Some U => U <= max | None => True end) by (destruct u as [U|]; [destruct Hu as (? & _ & ?); lia|done]).
  assert (Hb : (a, b) ∈ l -> a <= b) by (intros Hab; pose proof (wr_order _ Hw _ _ Hab); lia).
  assert (Hprop : forall p : Z * Z, (p ∈ l <-> True) \/ (p ∈ l <-> False)) by (intros p; destruct (decide (p ∈ l)); tauto).
  assert (HP : ((a, b) ∈ l <-> True) \/ ((a, b) ∈ l <-> False)) by apply Hprop.
  unfold erase_from, erase_to.
  destruct i as [L|], u as [U|]; try pose proof (Hprop (U, b)) as HQ; clear Hprop;
    try (destruct (Z.ltb_spec L min) as [HL|HL]); rewrite ?H1; destruct HP as [HP|HP]; rewrite ?HP in *|-; rewrite ?HP; try destruct HQ as [HQ|HQ];
    try rewrite !HQ; clear Hi Hu Hw H1 H2; lia.
Qed.
Lemma delete_erase l l1 l2 min max i u li ui : wf_ranges l -> min <= max -> around min l i -> around max l u ->
  split_off max u l l1 -> cut min i l1 l2 ->
  is_first (fun k => erase_from min i <=? k) l2 li -> is_first (fun k => erase_to max u <=? k) l2 ui ->
  exists l3, erase li ui l2 = Ok l3 /\ deleted min max l l3.
Proof.
  intros Hw Hm Hi Hu H1 H2 Hli Hui. eexists. split.
  - apply (erase_between _ _ _ _ _ Hli Hui). unfold erase_from, erase_to.
    destruct i as [L|], u as [U|].
    + destruct Hi as (lb & HL & HrL), Hu as (ub & HU & HrU).
      destruct (Z.ltb_spec L min), (position _ _ _ _ _ Hw HL HU) as [?|[?|?]]; lia.
    + destruct Hi as (lb & HL & HrL). destruct (Z.ltb_spec L min); lia.
    + destruct Hu as (ub & HU & HrU). destruct (Z.leb_spec min (U + 1)); [done|].
      exfalso. apply Hi. exists U, ub. split; [done|lia].
    + done.
  - apply deleted_rest; [done|done|by apply (sorted_filter (fun k => (k <? _) || (_ <=? k))), H2|].
    intros a b. rewrite (elem_of_filter_keys (fun k => (k <? _) || (_ <=? k))).
    rewrite <- (erased_rest l l1 l2 min max i u a b Hw Hm Hi Hu H1 H2), orb_true_iff, Z.ltb_lt, Z.leb_le. done.
Qed.
Lemma erase_same i l : erase i i l = Ok l.
Proof.
  destruct i as [a|]; cbn [erase]; [|done]. rewrite Z.leb_refl. f_equal.
  apply (filter_all (fun k => (k <? a) || (a <=? k))). intros c d _. lia.
Qed.
Lemma split_upper_ok l max u lfnem lueq : wf_ranges l -> around max l u ->
  exists ui l1, split_upper max lfnem lueq u l = Ok (ui, l1) /\ split_off max u l l1 /\
    (((u = None \/ lfnem && lueq = false) /\ is_first (fun k => erase_to max u <=? k) l1 ui) \/ (ui = u /\ lfnem = true /\ lueq = true /\ u <> None)).
Proof.
  intros Hw Hu. pose proof (wr_sorted _ Hw) as Hs. destruct u as [U|]; cbn [split_upper erase_to].
  - destruct Hu as (b & HU & Hr). rewrite (value_at_in _ _ _ Hs HU).
    pose proof (split_off_some l max U b Hw HU Hr) as Hsp. pose proof (wr_order _ Hw _ _ HU).
    set (l1 := if negb (b =? max) then put (max + 1) b l else l) in *.
    assert ((if negb (b =? max) then n <-- to_long (max + 1) ;; Ok (put n b l) else Ok l) = Ok l1) as ->.
    { subst l1. destruct (Z.eqb_spec b max); cbn [negb]; [done|]. by rewrite to_long_ok by lia. }
    destruct (lfnem && lueq) eqn:E; cbn [negb it_next]; eexists _, l1; (split; [done|]); (split; [done|]).
    + right. apply andb_true_iff in E as [-> ->]. done.
    + left. split; [by right|]. apply first_next, Hsp.
  - exists (lower_bound max l), l. split; [done|]. split; [|left; split; [by left|by apply first_lower]].
    split; [done|]. intros a b. tauto.
Qed.
Lemma cut_lower_ok l l1 min max i u lueq : wf_ranges l -> around min l i -> split_off max u l l1 ->
  let lfnem := match i with Some L => negb (L =? min) | None => false end in
  exists li l2, (forall f, (i <> None -> f = lfnem) -> cut_lower min f lueq i l1 = Ok (li, l2)) /\ cut min i l1 l2 /\
    (forall f j, is_first f l1 j -> is_first f l2 j) /\
    ((lfnem && lueq = false /\ is_first (fun k => erase_from min i <=? k) l2 li) \/
     (lfnem && lueq = true /\ li = i)).
Proof.
  intros Hw Hi [Hs1 H1]. destruct i as [L|]; cbn [cut_lower erase_from].
  - destruct Hi as (lb & HL & Hr). pose proof (wr_order _ Hw _ _ HL). assert (HL1 : (L, lb) ∈ l1) by (apply H1; by left).
    pose proof (cut_some min L lb l1 Hs1 HL1 ltac:(lia)) as Hc.
    destruct (Z.eqb_spec L min) as [->|Hne]; cbn [negb andb] in *.
    + exists (Some min), l1. split_and!; [|done|done|].
      * intros f ->; done.
      * left. rewrite Z.ltb_irrefl. split; [done|]. by apply (first_key _ lb).
    + assert ((L <? min) = true) as -> by lia.
      exists (if negb lueq then upper_bound L (put L (min - 1) l1) else Some L), (put L (min - 1) l1). split_and!.
      * intros f ->; [|done]. rewrite to_long_ok by lia. destruct lueq; done.
      * done.
      * intros f j. apply first_put; [done|by exists lb].
      * destruct lueq; [by right|left]. split; [done|]. apply first_next, Hc.
  - exists (lower_bound min l1), l1. split_and!; [done|by split|done|]. left. split; [done|by apply first_lower].
Qed.

Lemma delete_range_spec l min max : wf_ranges l -> min <= max ->
  exists ov l', delete_range past_end min max l = Ok (ov, l') /\ (ov = true <-> overlaps min max l) /\
    deleted min max l l'.
Proof.
  intros Hw Hm. pose proof (wr_sorted _ Hw) as Hs. unfold delete_range.
  destruct (query_overlap_spec l min max Hw Hm) as (ov & -> & Hov). destruct ov; cbn [negb].
  2: { exists false, l. split_and!; [done|done|]. split; [done|]. intros v. split; [|tauto]. intros Hv. split; [done|].
       intros Hr. enough (false = true) by done. apply Hov. by exists v. }
  destruct (contains_around l min Hw) as (i & -> & Hi). destruct (contains_around l max Hw) as (u & -> & Hu).
  assert (Hd : exists p, deref past_end i l = Ok p /\ (i <> None -> negb (p.1 =? min) =
    match i with Some L => negb (L =? min) | None => false end)).
  { destruct i as [L|]; cbn [deref]; [|by exists past_end]. destruct Hi as (b & HL & _).
    rewrite (value_at_in _ _ _ Hs HL). by exists (L, b). }
  destruct Hd as (p & -> & Hp). cbv zeta. set (f := negb (p.1 =? min)) in *. set (q := it_eqb i u).
  destruct (split_upper_ok l max u f q Hw Hu) as (ui & l1 & -> & H1 & Hui). cbn [fst snd].
  destruct (cut_lower_ok l l1 min max i u q Hw Hi H1) as (li & l2 & Hc & H2 & Hk & Hli).
  rewrite (Hc f Hp). cbn [fst snd].
  assert (Hx : exists l3, erase li ui l2 = Ok l3 /\ deleted min max l l3).
  { destruct Hui as [[Hfq Hui]|(-> & Hf & Hq & Hn)], Hli as [[Hfq' Hli]|[Hfq' ->]].
    - by apply (delete_erase l l1 l2 min max i u li ui Hw Hm Hi Hu H1 H2 Hli), Hk.
    - exfalso. apply andb_true_iff in Hfq' as [Hf' Hq]. destruct i as [L|]; [|done]. rewrite (Hp ltac:(done)), Hf', Hq in Hfq.
      apply it_eqb_eq in Hq as <-. by destruct Hfq.
    - exfalso. apply it_eqb_eq in Hq as Hiu. subst u. rewrite <- (Hp Hn), Hf, Hq in Hfq'. done.
    - apply it_eqb_eq in Hq. subst u. apply andb_true_iff in Hfq' as [Hf' _]. destruct i as [L|]; [|done].
      assert (HL : erase_from min (Some L) = L + 1).
      { cbn [erase_from]. destruct Hi as (b & _ & Hr). assert ((L <? min) = true) as -> by lia. done. }
      rewrite erase_same. pose proof (first_next L l2 (proj1 H2)) as Hn2.
      destruct (delete_erase l l1 l2 min max (Some L) (Some L) (upper_bound L l2) (upper_bound L l2) Hw Hm Hi Hu H1 H2)
        as (l3 & E & Hdel); [by rewrite HL|done|]. rewrite erase_same in E. by exists l2; injection E as ->. }
  destruct Hx as (l3 & -> & Hdel). rewrite (check_integrity_ok _ (proj1 Hdel)). by exists true, l3.
Qed.

(** ** Cutting off both ends *)
Lemma filter_wf f l : wf_ranges l -> wf_ranges (List.filter (fun p : Z * Z => f p.1) l).
Proof.
  intros [Hs Ho Hg]. split; [by apply sorted_filter| |].
  - intros a b [Hab _]%elem_of_filter_keys. by apply Ho.
  - intros a b c d [Hab _]%elem_of_filter_keys [Hcd _]%elem_of_filter_keys. by apply (Hg a b c d).
Qed.
Lemma erase_head l i x : is_first (fun k => x <=? k) l i -> keys_sorted l ->
  erase (it_begin l) i l = Ok (List.filter (fun p => x <=? p.1) l).
Proof.
  intros Hi Hs. pose proof (find_key_first (fun _ => true) l Hs) as Hb. fold (it_begin l) in Hb.
  destruct (it_begin l) as [c|] eqn:Ec.
  - assert (exists y, y <= x /\ is_first (fun k => y <=? k) l (Some c)) as (y & Hyx & Hy).
    { exists (Z.min c x). split; [lia|]. destruct Hb as (Hin & _ & Hm). split; [done|]. split; [lia|]. eauto. }
    rewrite (erase_between _ _ _ _ _ Hy Hi Hyx). f_equal.
    apply (filter_same (fun k => (k <? y) || (x <=? k)) (fun k => x <=? k)).
    intros a b Hab. destruct Hb as (_ & _ & Hm). pose proof (Hm _ _ Hab eq_refl). destruct Hy as (_ & Hy & _). lia.
  - destruct l as [|[a b] l]; [|by pose proof (Hb a b ltac:(by left))].
    destruct i as [k|]; [|done]. destruct Hi as ((v & Hin) & _). by apply elem_of_nil in Hin.
Qed.
Lemma erase_tail l i x : is_first (fun k => x <=? k) l i -> keys_sorted l ->
  erase i None l = Ok (List.filter (fun p => p.1 <? x) l).
Proof.
  intros Hi Hs. destruct i as [a|]; cbn [erase]; f_equal.
  - destruct Hi as (_ & Hxa & Hm). apply (filter_same (fun k => k <? a) (fun k => k <? x)). intros c d Hcd.
    destruct (Z.ltb_spec c x); [lia|]. assert (Hxc : (x <=? c) = true) by lia. pose proof (Hm _ _ Hcd Hxc). lia.
  - symmetry. apply (filter_all (fun k => k <? x)). intros c d Hcd. pose proof (Hi _ _ Hcd) as Hx. cbn in Hx. lia.
Qed.

Definition above (m : Z) l l' : Prop := wf_ranges l' /\ forall v, member v l' <-> member v l /\ m < v.
Definition below (m : Z) l l' : Prop := wf_ranges l' /\ forall v, member v l' <-> member v l /\ v < m.

Lemma behead_inside l m L : wf_ranges l -> m < LONG_MAX -> around m l (Some L) -> contains past_end m l = Ok (Some L) ->
  exists l', behead past_end m l = Ok (true, l') /\ above m l l'.
Proof.
  intros Hw Hm Hi E. pose proof (wr_sorted _ Hw) as Hs. unfold behead. rewrite E.
  destruct Hi as (b & HL & Hr). rewrite (value_at_in _ _ _ Hs HL). pose proof (wr_order _ Hw _ _ HL).
    rewrite to_long_ok by lia. cbn [it_next]. rewrite (erase_head _ _ _ (first_next L l Hs) Hs).
    set (l1 := List.filter _ l). assert (Hw1 : wf_ranges l1) by (by apply (filter_wf (fun k => L + 1 <=? k))).
    assert (H1 : forall c d, (c, d) ∈ l1 <-> (c, d) ∈ l /\ L < c).
    { intros c d. unfold l1. rewrite (elem_of_filter_keys (fun k => L + 1 <=? k)), Z.leb_le. split; intros [? ?]; split; auto; lia. }
    assert (Hmem : forall v, member v l1 <-> member v l /\ b < v).
    { intros v. split.
      - intros (c & d & [Hcd Hlt]%H1 & Hv). pose proof (wr_apart _ Hw _ _ _ _ HL Hcd Hlt).
        split; [by exists c, d|lia].
      - intros [(c & d & Hcd & Hv) Hb]. exists c, d. split; [|done]. apply H1. split; [done|].
        destruct (position _ _ _ _ _ Hw HL Hcd) as [?|[?|?]]; lia. }
    eexists. split; [done|]. destruct (Z.leb_spec (m + 1) b).
    + assert (Hkeep : l1 = List.filter (fun p => L + 1 <=? p.1) l) by done. rewrite Hkeep.
      destruct (replace_spec l (m + 1) b (fun k => L + 1 <=? k) Hw) as [Hw' Hm']; try lia.
      { intros c d Hcd Hc _. right. pose proof (wr_apart _ Hw _ _ _ _ HL Hcd ltac:(lia)). lia. }
      split; [done|]. intros v. rewrite Hm'. split.
      * intros [Hv|(c & d & Hcd & Hc & _ & Hv)]; [split; [exists L, b; split; [done|lia]|lia]|].
        split; [by exists c, d|]. pose proof (wr_apart _ Hw _ _ _ _ HL Hcd ltac:(lia)). lia.
      * intros [(c & d & Hcd & Hv) Hmv]. destruct (position _ _ _ _ _ Hw HL Hcd) as [?|[[-> ->]|[? ?]]]; [lia|left; lia|].
        right. exists c, d. split_and!; [done|lia|lia|lia|lia].
    + split; [done|]. intros v. rewrite Hmem. split; intros [Hv ?]; (split; [done|lia]).
Qed.
Lemma behead_outside l m : wf_ranges l -> ~ member m l -> contains past_end m l = Ok None ->
  exists ov l', behead past_end m l = Ok (ov, l') /\ (ov = true <-> exists v, v <= m /\ member v l) /\ above m l l'.
Proof.
  intros Hw Hi E. pose proof (wr_sorted _ Hw) as Hs. unfold behead. rewrite E.
  rewrite (erase_head _ _ _ (first_lower m l Hs) Hs). eexists _, _. split; [done|].
    pose proof (first_lower m l Hs) as Hlb.
    assert (Hlow : forall c d, (c, d) ∈ l -> c <= m -> d < m).
    { intros c d Hcd Hc. destruct (Z.ltb_spec d m); [done|]. exfalso. apply Hi. exists c, d. split; [done|lia]. }
    split.
    + pose proof (find_key_first (fun _ => true) l Hs) as Hb. fold (it_begin l) in Hb. rewrite negb_true_iff. split.
      * intros Eb. destruct (it_begin l) as [c|] eqn:Ec.
        -- destruct Hb as ((w & Hin) & _ & Hm0). pose proof (wr_order _ Hw _ _ Hin).
           assert (Hcm : c <= m); [|exists c; split; [done|exists c, w; split; [done|lia]]].
           destruct (Z.leb_spec c m); [done|]. destruct (lower_bound m l) as [k|].
           ++ destruct Hlb as ((kw & Hk) & Hmk & Hmin). pose proof (Hm0 _ _ Hk eq_refl).
              assert (Hmc : (m <=? c) = true) by lia. pose proof (Hmin _ _ Hin Hmc). cbn in Eb. lia.
           ++ pose proof (Hlb _ _ Hin) as Hx. cbn in Hx. lia.
        -- destruct (lower_bound m l) as [k|]; [|done]. destruct Hlb as ((kw & Hk) & _). by pose proof (Hb _ _ Hk).
      * intros (v & Hv & c & d & Hcd & Hr). pose proof (Hlow _ _ Hcd ltac:(lia)).
        destruct (it_eqb _ _) eqn:Eb; [|done]. apply it_eqb_eq in Eb. rewrite Eb in Hlb. destruct (it_begin l) as [k|].
        -- destruct Hb as (_ & _ & Hm0), Hlb as (_ & Hmk & _). pose proof (Hm0 _ _ Hcd eq_refl). lia.
        -- by pose proof (Hb _ _ Hcd).
    + split; [by apply (filter_wf (fun k => m <=? k))|]. intros v. split.
      * intros (c & d & [Hcd Hc]%(elem_of_filter_keys (fun k => m <=? k)) & Hv). split; [by exists c, d|].
        destruct (decide (v = m)) as [->|]; [exfalso; apply Hi; by exists c, d|lia].
      * intros [(c & d & Hcd & Hv) Hmv]. exists c, d. split; [|done].
        apply (elem_of_filter_keys (fun k => m <=? k)). split; [done|].
        destruct (Z.leb_spec m c); [done|]. pose proof (Hlow _ _ Hcd ltac:(lia)). lia.
Qed.
Lemma behead_spec l m : wf_ranges l -> m < LONG_MAX ->
  exists ov l', behead past_end m l = Ok (ov, l') /\ (ov = true <-> exists v, v <= m /\ member v l) /\ above m l l'.
Proof.
  intros Hw Hm. destruct (contains_around l m Hw) as (i & E & Hi). destruct i as [L|]; [|by apply behead_outside].
  destruct (behead_inside l m L Hw Hm Hi E) as (l' & -> & Ha). exists true, l'. split_and!; [done| |done].
  split; [intros _|done]. destruct Hi as (b & HL & Hr). exists m. split; [lia|by exists L, b].
Qed.

Lemma below_rest l l' m : wf_ranges l -> m <= LONG_MAX -> keys_sorted l' ->
  (forall a b, (a, b) ∈ l' <-> ((a, b) ∈ l /\ b < m) \/ (a < m /\ b = m - 1 /\ exists b0, (a, b0) ∈ l /\ m <= b0)) ->
  below m l l'.
Proof.
  intros Hw Hm Hs Hel. destruct (deleted_rest l l' m LONG_MAX Hw Hm Hs) as [Hw' Hmem].
  - intros a b. rewrite Hel. unfold rest. split.
    + intros [[Hin ?]|?]; [by left; split; [|left]|by right; left].
    + intros [[Hin [?|Ha]]|[?|(_ & Hb & a0 & Hin & _)]]; [by left| |by right|];
        pose proof (wr_order _ Hw _ _ Hin); lia.
  - split; [done|]. intros v. rewrite Hmem. split; intros [Hv Hr]; (split; [done|]); [|lia].
    destruct Hv as (a & b & Hin & Hab). pose proof (wr_order _ Hw _ _ Hin). lia.
Qed.
Lemma betail_inside l m U : wf_ranges l -> around m l (Some U) -> contains past_end m l = Ok (Some U) ->
  exists l', betail past_end m l = Ok (true, l') /\ below m l l'.
Proof.
  intros Hw (b & HU & Hr) E. pose proof (wr_sorted _ Hw) as Hs. pose proof (wr_order _ Hw _ _ HU). unfold betail. rewrite E.
  destruct (Z.eqb_spec U m) as [->|Hne].
  - rewrite (erase_tail _ _ _ (first_key _ _ _ HU) Hs). eexists. split; [done|].
    apply below_rest; [done|lia|by apply (sorted_filter (fun k => k <? m))|]. intros c d.
    rewrite (elem_of_filter_keys (fun k => k <? m)), Z.ltb_lt. split.
    + intros [Hcd Hlt]. left. split; [done|]. destruct (position _ _ _ _ _ Hw HU Hcd) as [?|[?|?]]; lia.
    + intros [[Hcd Hd]|(Hc & _ & d0 & Hcd & Hd)]; [split; [done|pose proof (wr_order _ Hw _ _ Hcd); lia]|].
      destruct (position _ _ _ _ _ Hw HU Hcd) as [?|[?|?]]; lia.
  - rewrite to_long_ok by lia. cbn [it_next]. set (l1 := put U (m - 1) l). assert (Hs1 : keys_sorted l1) by by apply sorted_put.
    rewrite (erase_tail _ _ _ (first_next U l1 Hs1) Hs1). eexists. split; [done|].
    apply below_rest; [done|lia|by apply (sorted_filter (fun k => k <? U + 1))|]. intros c d.
    rewrite (elem_of_filter_keys (fun k => k <? U + 1)), Z.ltb_lt. unfold l1. rewrite elem_of_put by done. split.
    + intros [[[-> ->]|[Hcd Hn]] Hlt]; [right; split_and!; [lia|done|exists b; split; [done|lia]]|].
      left. split; [done|]. destruct (position _ _ _ _ _ Hw HU Hcd) as [?|[?|?]]; lia.
    + intros [[Hcd Hd]|(Hc & -> & d0 & Hcd & Hd)]; pose proof (wr_order _ Hw _ _ Hcd); destruct (position _ _ _ _ _ Hw HU Hcd) as [?|[[-> ->]|?]]; try lia.
      split; [right; split; [done|lia]|lia].
Qed.
Lemma betail_spec l m : wf_ranges l -> m <= LONG_MAX ->
  exists ov l', betail past_end m l = Ok (ov, l') /\ (ov = true <-> exists v, m <= v /\ member v l) /\ below m l l'.
Proof.
  intros Hw Hm. pose proof (wr_sorted _ Hw) as Hs. destruct (contains_around l m Hw) as (i & E & Hi). destruct i as [U|].
  { destruct (betail_inside l m U Hw Hi E) as (l' & -> & Hb). exists true, l'. split_and!; [done| |done].
    split; [intros _|done]. destruct Hi as (b & HU & Hr). exists m. split; [lia|by exists U, b]. }
  unfold betail. rewrite E, (erase_tail _ _ _ (first_lower m l Hs) Hs). eexists _, _. split; [done|].
  pose proof (first_lower m l Hs) as Hlb.
  assert (Hout : forall c d, (c, d) ∈ l -> d < m \/ m < c).
  { intros c d Hcd. destruct (Z.ltb_spec d m); [by left|]. right. destruct (Z.ltb_spec m c); [done|].
    exfalso. apply Hi. exists c, d. split; [done|lia]. }
  split.
  - rewrite negb_true_iff. destruct (lower_bound m l) as [k|]; cbn [it_eqb]; split; try done.
    + intros _. destruct Hlb as ((w & Hk) & Hmk & _). pose proof (wr_order _ Hw _ _ Hk).
      exists k. split; [lia|]. exists k, w. split; [done|lia].
    + intros (v & Hv & c & d & Hcd & Hr). pose proof (Hlb _ _ Hcd) as Hx. cbn in Hx. pose proof (Hout _ _ Hcd). lia.
  - apply below_rest; [done|done|by apply (sorted_filter (fun k => k <? m))|]. intros c d.
    rewrite (elem_of_filter_keys (fun k => k <? m)), Z.ltb_lt. split.
    + intros [Hcd Hlt]. left. split; [done|]. pose proof (Hout _ _ Hcd). lia.
    + intros [[Hcd Hd]|(Hc & _ & d0 & Hcd & Hd)]; [|pose proof (Hout _ _ Hcd); lia].
      split; [done|]. pose proof (wr_order _ Hw _ _ Hcd). lia.
Qed.

(** ** One representation for each set *)
Lemma wf_ranges_unique l l' : wf_ranges l -> wf_ranges l' -> (forall v, member v l <-> member v l') -> l = l'.
Proof.
  intros Hw Hw' Hm.
  assert (Hsub : forall k k', wf_ranges k -> wf_ranges k' -> (forall v, member v k <-> member v k') ->
    forall a b, (a, b) ∈ k -> (a, b) ∈ k').
  { clear. intros k k' Hw Hw' Hm a b Hab. pose proof (wr_order _ Hw _ _ Hab).
    assert (Ha : member a k') by (apply Hm; exists a, b; split; [done|lia]).
    destruct Ha as (c & d & Hcd & Hr). pose proof (wr_order _ Hw' _ _ Hcd).
    assert (Hc : c = a).
    { destruct (Z.eqb_spec c a); [done|]. assert (Hv : member (a - 1) k) by (apply Hm; exists c, d; split; [done|lia]).
      destruct Hv as (e & f & Hef & Hv). destruct (position _ _ _ _ _ Hw Hab Hef) as [?|[?|?]]; lia. }
    subst c. assert (Hd : d = b); [|by subst].
    destruct (Z.lt_total d b) as [Hlt|[?|Hlt]]; [|done|]; exfalso.
    - assert (Hv : member (d + 1) k') by (apply Hm; exists a, b; split; [done|lia]).
      destruct Hv as (e & f & Hef & Hv). destruct (position _ _ _ _ _ Hw' Hcd Hef) as [?|[?|?]]; lia.
    - assert (Hv : member (b + 1) k) by (apply Hm; exists a, d; split; [done|lia]).
      destruct Hv as (e & f & Hef & Hv). destruct (position _ _ _ _ _ Hw Hab Hef) as [?|[?|?]]; lia. }
  assert (Hin : forall a b, (a, b) ∈ l <-> (a, b) ∈ l').
  { intros a b. split; apply Hsub; try done. }
  pose proof (wr_sorted _ Hw) as Hs. pose proof (wr_sorted _ Hw') as Hs'. clear Hw Hw' Hm Hsub. revert l' Hs' Hin.
  induction l as [|[a b] l IH]; intros [|[c d] l'] Hs' Hin.
  - done.
  - exfalso. eapply not_elem_of_nil, Hin. by left.
  - exfalso. eapply not_elem_of_nil, Hin. by left.
  - assert (E : (a, b) = (c, d)).
    { assert (Hc : (a, b) ∈ (c, d) :: l') by (apply Hin; by left). assert (Ha : (c, d) ∈ (a, b) :: l) by (apply Hin; by left).
      apply elem_of_cons in Hc as [?|Hc]; [done|]. apply elem_of_cons in Ha as [?|Ha]; [done|].
      pose proof (sorted_head _ _ _ _ Hs' Hc). pose proof (sorted_head _ _ _ _ Hs Ha). cbn in *. lia. }
    injection E as <- <-. f_equal. apply IH; [by eapply sorted_tail|by eapply sorted_tail|].
    intros e f. specialize (Hin e f). rewrite !elem_of_cons in Hin.
    assert (Hn : forall k, keys_sorted ((a, b) :: k) -> (e, f) ∈ k -> (e, f) <> (a, b)).
    { intros k Hk Hef [= -> ->]. pose proof (sorted_head _ _ _ _ Hk Hef). cbn in *. lia. }
    split; intros Hef; [destruct (proj1 Hin (or_intror Hef)) as [E|]|destruct (proj2 Hin (or_intror Hef)) as [E|]]; try done;
      exfalso; (exact (Hn _ Hs Hef E) || exact (Hn _ Hs' Hef E)).
Qed.

(** ** Operations on two sets *)
Lemma wf_tail p l : wf_ranges (p :: l) -> wf_ranges l.
Proof.
  intros [Hs Ho Hg]. split; [by eapply sorted_tail| |].
  - intros a b Hab. apply Ho. by right.
  - intros a b c d Hab Hcd. apply (Hg a b c d); by right.
Qed.
Lemma member_cons v p l : member v (p :: l) <-> p.1 <= v <= p.2 \/ member v l.
Proof.
  split.
  - intros (a & b & [<-|Hin]%elem_of_cons & Hv); [by left|right; by exists a, b].
  - intros [Hv|(a & b & Hin & Hv)]; [exists p.1, p.2; split; [destruct p; by left|done]|exists a, b; split; [by right|done]].
Qed.

Definition common (b l : intervals) : Prop := exists v, member v b /\ member v l.

Lemma subtract_from b l ret : wf_ranges b -> wf_ranges l -> exists ov l',
  for_ranges (delete_range past_end) b ret l = Ok (ov, l') /\ (ov = true <-> ret = true \/ common b l) /\
  wf_ranges l' /\ forall v, member v l' <-> member v l /\ ~ member v b.
Proof.
  revert l ret. induction b as [|p b IH]; intros l ret Hb Hw; cbn [for_ranges].
  - exists ret, l. split_and!; [done| |done|].
    + split; [by left|]. intros [?|(v & (a & c & Hin & _) & _)]; [done|]. by apply elem_of_nil in Hin.
    + intros v. split; [|tauto]. intros Hv. split; [done|]. intros (a & c & Hin & _). by apply elem_of_nil in Hin.
  - destruct p as [lo hi]. pose proof (wr_order _ Hb lo hi ltac:(by left)) as Ho. cbn [fst snd].
    destruct (delete_range_spec l lo hi Hw ltac:(lia)) as (ov & l1 & -> & Hov & Hw1 & H1). cbn [fst snd].
    destruct (IH l1 (ov || ret) (wf_tail _ _ Hb) Hw1) as (ov' & l' & -> & Hov' & Hw' & H').
    exists ov', l'. split_and!; [done| |done|].
    + rewrite Hov', orb_true_iff, Hov. split.
      * intros [[(v & Hv & Hm)|?]|(v & Hv & Hm)]; [right|by left|right]; exists v; rewrite member_cons; [by auto|].
        split; [by right|]. by apply H1.
      * intros [?|(v & [Hv|Hv]%member_cons & Hm)]; [by left; right|left; left; by exists v|].
        destruct (decide (lo <= v <= hi)); [left; left; by exists v|]. right. exists v. split; [done|]. by apply H1.
    + intros v. rewrite H', H1, member_cons. cbn [fst snd]. tauto.
Qed.
Lemma subtract_spec b l : wf_ranges b -> wf_ranges l -> exists ov l',
  subtract past_end b l = Ok (ov, l') /\ (ov = true <-> common b l) /\
  wf_ranges l' /\ forall v, member v l' <-> member v l /\ ~ member v b.
Proof.
  intros Hb Hw. destruct (subtract_from b l false Hb Hw) as (ov & l' & E & Hov & H). exists ov, l'.
  split_and!; [done| |apply H..]. rewrite Hov. split; [by intros [?|?]|by right].
Qed.

(** Cutting at both ends is right for a set of one interval; for more, the
    first gap asserts. *)
Lemma meet_single lo hi l : wf_ranges l -> LONG_MIN < lo -> lo <= hi -> hi < LONG_MAX -> exists ov l',
  meet past_end [(lo, hi)] l = Ok (ov, l') /\ (ov = true <-> exists v, member v l /\ ~ lo <= v <= hi) /\
  wf_ranges l' /\ forall v, member v l' <-> member v l /\ lo <= v <= hi.
Proof.
  intros Hw H1 H2 H3. cbn [meet fst snd delete_gaps]. rewrite !to_long_ok by lia.
  destruct (behead_spec l (lo - 1) Hw ltac:(lia)) as (o1 & l1 & -> & Ho1 & Hw1 & M1). cbn [fst snd].
  destruct (betail_spec l1 (hi + 1) Hw1 ltac:(lia)) as (o2 & l2 & -> & Ho2 & Hw2 & M2). cbn [fst snd].
  exists (o2 || o1), l2. split_and!; [done| |done|].
  - rewrite orb_true_iff, Ho1, Ho2. split.
    + intros [(v & Hv & Hm%M1)|(v & Hv & Hm)]; exists v; (split; [apply Hm|lia]).
    + intros (v & Hm & Hn). destruct (Z.ltb_spec v lo); [right|left]; exists v; (split; [lia|]); [done|].
      apply M1. split; [done|lia].
  - intros v. rewrite M2, M1. split; [intros [[? ?] ?]|intros [? ?]]; split_and!; auto; lia.
Qed.
Lemma query_overlap_asserts l min max : max < min -> query_overlap past_end min max l = Err F_assert.
Proof. intros Hm. unfold query_overlap. assert ((min <=? max) = false) as -> by lia. done. Qed.
Lemma meet_several p q b l : wf_ranges (p :: q :: b) -> wf_ranges l -> LONG_MIN < p.1 -> q.2 < LONG_MAX ->
  meet past_end (p :: q :: b) l = Err F_assert.
Proof.
  intros Hb Hw H1 H2. destruct p as [a c], q as [d e]. cbn [fst snd meet delete_gaps] in *.
  pose proof (wr_order _ Hb a c ltac:(by left)). pose proof (wr_order _ Hb d e ltac:(right; by left)).
  pose proof (wr_apart _ Hb a c d e ltac:(by left) ltac:(right; by left)) as Hg.
  pose proof (sorted_head _ _ d e (wr_sorted _ Hb) ltac:(by left)) as Hlt. cbn in Hlt. specialize (Hg Hlt).
  rewrite !to_long_ok by lia. destruct (behead_spec l (a - 1) Hw ltac:(lia)) as (o1 & l1 & -> & _). cbn [fst snd].
  unfold delete_range. by rewrite query_overlap_asserts by lia.
Qed.

(** Deleting what was added anew restores the set. *)
Lemma add_delete l min max l' : wf_ranges l -> LONG_MIN < min -> min <= max -> max < LONG_MAX -> ~ overlaps min max l ->
  add_range past_end min max l = Ok (false, l') -> delete_range past_end min max l' = Ok (true, l).
Proof.
  intros Hw H1 H2 H3 Hno E. destruct (add_range_spec l min max Hw H1 H2 H3) as [_ Hok].
  destruct Hok as (ov & l1 & E1 & _ & Hw1 & M1).
  { intros (Hlt & HX & _). apply Hno. exists max. split; [lia|]. exists max, max. split; [done|lia]. }
  rewrite E in E1. injection E1 as <- <-.
  destruct (delete_range_spec l' min max Hw1 H2) as (ov & l2 & -> & Hov & Hw2 & M2).
  assert (ov = true) as -> by (apply Hov; exists min; split; [lia|]; apply M1; right; lia). do 2 f_equal.
  apply wf_ranges_unique; [done..|]. intros v. rewrite M2, M1. split; [tauto|]. intros Hv. split; [by left|].
  intros Hr. apply Hno. by exists v.
Qed.
End Sets.

(** A decision procedure for well-formedness. *)
Fixpoint wf_from (t : Z) (l : intervals) : bool :=
  match l with
  | [] => true
  | p :: l' => (t <? p.1) && (p.1 <=? p.2) && (p.2 <=? LONG_MAX) && wf_from (p.2 + 1) l'
  end.
Lemma wf_from_wf t l : LONG_MIN - 1 <= t -> wf_from t l = true ->
  wf_ranges l /\ forall a b, (a, b) ∈ l -> t < a.
Proof.
  revert t. induction l as [|[a b] l IH]; intros t Ht Hc; cbn [wf_from fst snd] in *.
  { split; [split|]; try (intros *; intros Hin; by apply elem_of_nil in Hin). constructor. }
  rewrite !andb_true_iff, Z.ltb_lt, !Z.leb_le in Hc. destruct Hc as [[[H1 H2] H3] Hc].
  destruct (IH (b + 1) ltac:(lia) Hc) as [Hw Hl]. split; [split|].
  - constructor; [apply Hw|]. apply Forall_forall. intros [c d] Hcd. cbn. specialize (Hl _ _ Hcd). lia.
  - intros c d [[= -> ->]|Hcd]%elem_of_cons; [lia|by apply Hw].
  - intros c d e f [[= -> ->]|Hcd]%elem_of_cons [[= -> ->]|Hef]%elem_of_cons Hlt; [lia|by apply (Hl e f)| |].
    + specialize (Hl _ _ Hcd). lia.
    + by apply (wr_apart _ Hw c d e f).
  - intros c d [[= -> ->]|Hcd]%elem_of_cons; [done|]. specialize (Hl _ _ Hcd). lia.
Qed.
Lemma wf_decide l : wf_from (LONG_MIN - 1) l = true -> wf_ranges l.
Proof. intros H. by apply (wf_from_wf (LONG_MIN - 1)). Qed.

(** ** What the operations promise *)

(** C35: adding a range to a well-formed set is the union with it, tells
    exactly whether it overlapped, and keeps the intervals apart from each other;
    except where the set has both a lone number at the upper end of the range and
    an interval before it: there the code keeps that number in the map, and its
    own check of the map fails. *)
Theorem add_range_correct past_end l min max :
  wf_ranges l -> LONG_MIN < min -> min <= max -> max < LONG_MAX ->
  (overlooked min max l -> add_range past_end min max l = Err F_assert) /\
  (~ overlooked min max l -> exists overlap l', add_range past_end min max l = Ok (overlap, l') /\
     (overlap = true <-> exists v, min <= v <= max /\ member v l) /\
     wf_ranges l' /\ forall v, member v l' <-> member v l \/ min <= v <= max).
Proof. exact (add_range_spec past_end l min max). Qed.

Lemma add_range_correct_witness :
  add_range (0, 0) 5 10 [(1, 2); (10, 10)] = Err F_assert /\
  exists overlap l', add_range (0, 0) 3 9 [(1, 2); (10, 10)] = Ok (overlap, l') /\
    (overlap = true <-> exists v, 3 <= v <= 9 /\ member v [(1, 2); (10, 10)]) /\
    wf_ranges l' /\ forall v, member v l' <-> member v [(1, 2); (10, 10)] \/ 3 <= v <= 9.
Proof.
  assert (Hw : wf_ranges [(1, 2); (10, 10)]) by (apply wf_decide; reflexivity). split.
  - apply (add_range_correct (0, 0) _ 5 10 Hw); [unfold LONG_MIN; lia|lia|unfold LONG_MAX; lia|].
    split; [lia|]. split; [by right; left|]. exists 1, 2. split; [by left|lia].
  - apply (add_range_correct (0, 0) _ 3 9 Hw); [unfold LONG_MIN; lia|lia|unfold LONG_MAX; lia|].
    intros (_ & Hin & _). rewrite !elem_of_cons, elem_of_nil in Hin. by destruct Hin as [[=]|[[=]|[]]].
Defined.

(** C36: deleting a range from a well-formed set never fails; it removes just
    the members in the range, splitting an interval where need be, tells exactly
    whether there were any, and what was added without overlap is deleted without
    a trace. *)
Theorem delete_range_correct past_end l min max : wf_ranges l -> min <= max ->
  (exists deleted l', delete_range past_end min max l = Ok (deleted, l') /\
     (deleted = true <-> exists v, min <= v <= max /\ member v l) /\
     wf_ranges l' /\ forall v, member v l' <-> member v l /\ ~ min <= v <= max) /\
  (LONG_MIN < min -> max < LONG_MAX -> forall l', add_range past_end min max l = Ok (false, l') ->
     delete_range past_end min max l' = Ok (true, l)).
Proof.
  intros Hw Hm. split; [exact (delete_range_spec past_end l min max Hw Hm)|].
  intros H1 H2 l' E. apply (add_delete past_end l); try done. intros Hov.
  destruct (add_range_spec past_end l min max Hw H1 Hm H2) as [Hbad Hok].
  destruct (overlooked_dec past_end min max l) as [Ho|Ho]; [by rewrite (Hbad Ho) in E|].
  destruct (Hok Ho) as (ov & l1 & E1 & Hov1 & _). rewrite E in E1. injection E1 as <- _. by apply Hov1 in Hov.
Qed.

Lemma delete_range_correct_witness :
  (exists deleted l', delete_range (0, 0) 4 6 [(1, 9)] = Ok (deleted, l') /\
     (deleted = true <-> exists v, 4 <= v <= 6 /\ member v [(1, 9)]) /\
     wf_ranges l' /\ forall v, member v l' <-> member v [(1, 9)] /\ ~ 4 <= v <= 6) /\
  add_range (0, 0) 4 6 [(1, 3); (7, 9)] = Ok (false, [(1, 9)]) /\
  delete_range (0, 0) 4 6 [(1, 9)] = Ok (true, [(1, 3); (7, 9)]).
Proof.
  assert (Hw : wf_ranges [(1, 3); (7, 9)]) by (apply wf_decide; reflexivity).
  assert (Hw' : wf_ranges [(1, 9)]) by (apply wf_decide; reflexivity). split_and!.
  - apply (delete_range_correct (0, 0) [(1, 9)] 4 6 Hw'). lia.
  - reflexivity.
  - apply (delete_range_correct (0, 0) [(1, 3); (7, 9)] 4 6 Hw); [lia|unfold LONG_MIN; lia|unfold LONG_MAX; lia|reflexivity].
Defined.

(** C37: taking the intersection with another set is right for a set of one
    interval and for the empty set, and fails an assertion for every set of two or
    more intervals, whatever the set that is cut. *)
Theorem meet_result past_end b l : wf_ranges b -> wf_ranges l ->
  (forall v, member v b -> LONG_MIN < v < LONG_MAX) ->
  if Nat.leb (length b) 1 then
    exists deleted l', meet past_end b l = Ok (deleted, l') /\
      (deleted = true <-> exists v, member v l /\ ~ member v b) /\
      wf_ranges l' /\ forall v, member v l' <-> member v l /\ member v b
  else meet past_end b l = Err F_assert.
Proof.
  intros Hb Hw Hlim. destruct b as [|[lo hi] [|q b]]; cbn [length Nat.leb].
  - assert (Hnil : forall v, ~ member v []) by (intros v (a & c & Hin & _); by apply elem_of_nil in Hin).
    exists (negb (match l with [] => true | _ => false end)), []. split_and!; [done| |by apply wf_decide|].
    + split.
      * destruct l as [|[a c] l]; [done|]. intros _. exists a. split; [|apply Hnil].
        exists a, c. split; [by left|]. pose proof (wr_order _ Hw a c ltac:(by left)). lia.
      * intros (v & Hv & _). destruct l; [by apply Hnil in Hv|done].
    + intros v. split; [intros Hv|intros [_ Hv]]; by apply Hnil in Hv.
  - pose proof (wr_order _ Hb lo hi ltac:(by left)).
    assert (Hmem : forall v, member v [(lo, hi)] <-> lo <= v <= hi).
    { intros v. rewrite member_cons. split; [intros [?|(a & c & Hin & _)]; [done|by apply elem_of_nil in Hin]|by left]. }
    pose proof (Hlim lo ltac:(apply Hmem; lia)). pose proof (Hlim hi ltac:(apply Hmem; lia)).
    destruct (meet_single past_end lo hi l Hw) as (ov & l' & E & Hov & Hw' & Hm); [lia..|].
    exists ov, l'. split_and!; [done| |done|].
    + rewrite Hov. by setoid_rewrite Hmem.
    + intros v. by rewrite Hm, Hmem.
  - pose proof (wr_order _ Hb lo hi ltac:(by left)).
    destruct q as [lo' hi']. pose proof (wr_order _ Hb lo' hi' ltac:(right; by left)).
    apply meet_several; try done; cbn [fst].
    + apply Hlim. exists lo, hi. split; [by left|lia].
    + cbn [snd]. apply Hlim. exists lo', hi'. split; [right; by left|lia].
Qed.

Lemma meet_result_witness :
  (exists deleted l', meet (0, 0) [(3, 8)] [(1, 4); (7, 9)] = Ok (deleted, l') /\
    (deleted = true <-> exists v, member v [(1, 4); (7, 9)] /\ ~ member v [(3, 8)]) /\
    wf_ranges l' /\ forall v, member v l' <-> member v [(1, 4); (7, 9)] /\ member v [(3, 8)]) /\
  meet (0, 0) [(1, 4); (7, 9)] [(3, 8)] = Err F_assert.
Proof.
  assert (H1 : wf_ranges [(3, 8)]) by (apply wf_decide; reflexivity).
  assert (H2 : wf_ranges [(1, 4); (7, 9)]) by (apply wf_decide; reflexivity). split.
  - apply (meet_result (0, 0) [(3, 8)] [(1, 4); (7, 9)] H1 H2). intros v (a & b & Hin & Hv).
    apply list_elem_of_singleton in Hin as [= -> ->]. unfold LONG_MIN, LONG_MAX. lia.
  - apply (meet_result (0, 0) [(1, 4); (7, 9)] [(3, 8)] H2 H1). intros v (a & b & Hin & Hv).
    apply elem_of_cons in Hin as [[= -> ->]|[= -> ->]%list_elem_of_singleton]; unfold LONG_MIN, LONG_MAX; lia.
Defined.
