(* ===== verification/PackedArray.v ===== *)
(** Packed arrays: "util/packed_array.hh" and ".tcc", over the keys of
    "util/multikey.hh" and ".tcc".

    The compiler keeps the values of an array in one vector, in lexicographic
    order of the keys; this is [packed_array_generic<pint_value_type, T>], whose
    number of dimensions is known at run time only.  Keys are sequences of signed
    [long]s.  The type of the elements and the element that a resize fills in are
    parameters. *)
From S2P Require Import Prelude Longs.
Open Scope Z_scope.
Local Open Scope hackt_scope.
#[local] Abbreviation length := Datatypes.length.

Definition key : Type := list Z.

(** ** Keys ([multikey_generic]) *)
Definition sizes_agree (l m : key) : bool := Nat.eqb (length l) (length m).
Definition key_eqb (l m : key) : bool := sizes_agree l m && bool_decide (l = m).

Fixpoint lexicographical_compare (l m : key) : bool :=
  match l, m with
  | a :: l', b :: m' => if a <? b then true else if b <? a then false else lexicographical_compare l' m'
  | [], _ :: _ => true
  | _, [] => false
  end.
Definition key_less (l m : key) : res bool := _ <-- assertion (sizes_agree l m) ;; Ok (lexicographical_compare l m).
Definition key_leq (l m : key) : res bool := b <-- key_less m l ;; Ok (negb b).

Fixpoint key_transform (f : Z -> Z -> Z) (l m : key) : res key :=
  match l, m with
  | a :: l', b :: m' => c <-- to_long (f a b) ;; r <-- key_transform f l' m' ;; Ok (c :: r)
  | [], _ => Ok []
  | _ :: _, [] => Err F_index
  end.
Definition key_add (l m : key) : res key := _ <-- assertion (sizes_agree l m) ;; key_transform Z.add l m.
Definition key_sub (l m : key) : res key := _ <-- assertion (sizes_agree l m) ;; key_transform Z.sub l m.

(** ** Enumerating the keys between two corners ([multikey_generator_generic]) *)
Record generator : Type := { current : key; lower_corner : key; upper_corner : key }.

Definition make_generator (l u : key) : res generator :=
  _ <-- assertion (sizes_agree l u) ;;
  Ok {| current := replicate (length l) 0; lower_corner := l; upper_corner := u |}.
(** Meant to make a generator of one dimension from its bounds: but the
    corners are built from numbers of dimensions. *)
Definition make_generator1 (l u : nat) : generator :=
  {| current := [0]; lower_corner := replicate l 0; upper_corner := replicate u 0 |}.

Fixpoint validate_from (l u : key) : res unit :=
  match l, u with
  | a :: l', b :: u' => _ <-- assertion (a <=? b) ;; validate_from l' u'
  | [], _ => Ok tt
  | _ :: _, [] => Err F_index
  end.
Definition validate (g : generator) : res unit := validate_from (lower_corner g) (upper_corner g).
Definition generator_initialize (g : generator) : res generator :=
  _ <-- validate g ;;
  Ok {| current := lower_corner g; lower_corner := lower_corner g; upper_corner := upper_corner g |}.

(** [operator ++], from the last dimension to the first. *)
Fixpoint advance (inc min max : key) : res key :=
  match inc with
  | [] => Ok []
  | c :: inc' =>
      match min, max with
      | l :: min', u :: max' =>
          if u <=? c then r <-- advance inc' min' max' ;; Ok (l :: r) else Ok (c + 1 :: inc')
      | _, _ => Err F_index
      end
  end.
Definition next_key (g : generator) : res generator :=
  r <-- advance (rev (current g)) (rev (lower_corner g)) (rev (upper_corner g)) ;;
  Ok {| current := rev r; lower_corner := lower_corner g; upper_corner := upper_corner g |}.

(** ** Arrays *)
Section Elements.
Context {T : Type} (filler : T).

Record packed_array : Type := { dim : nat; sizes : key; values : list T; coeffs : key }.

(** The product is accumulated in an [int], as that is the type of the initial
    value. *)
Fixpoint product_from (acc : Z) (k : key) : res Z :=
  match k with [] => Ok acc | x :: k' => p <-- to_long (acc * x) ;; product_from (to_int p) k' end.
Definition sizes_product (k : key) : res Z := product_from 1 k.

Definition at_index {A} (i : Z) (l : list A) : res A :=
  if i <? 0 then Err F_index else match l !! Z.to_nat i with Some x => Ok x | None => Err F_index end.

(** [coeffs[j] *= s] for the first [i] coefficients. *)
Fixpoint mul_prefix (i : nat) (s : Z) (c : key) : res key :=
  match i with
  | O => Ok c
  | S i' =>
      match c with
      | x :: c' => y <-- to_long (x * s) ;; r <-- mul_prefix i' s c' ;; Ok (y :: r)
      | [] => Err F_index
      end
  end.
Fixpoint reset_from (n i : nat) (s c : key) : res key :=
  match n with
  | O => Ok c
  | S n' => x <-- at_index (Z.of_nat i) s ;; c' <-- mul_prefix i x c ;; reset_from n' (S i) s c'
  end.
Definition reset_coeffs (d : nat) (s : key) : res key := reset_from (d - 1) 1 s (replicate (d - 1) 1).

(** [values.resize(n)]; the library throws if [n] is negative, and that is not
    caught. *)
Definition values_resize (n : Z) (l : list T) : res (list T) :=
  if n <? 0 then Err F_exit else Ok (firstn (Z.to_nat n) (l ++ replicate (Z.to_nat n) filler)).

Definition new_array (s : key) : res packed_array :=
  n <-- sizes_product s ;;
  v <-- values_resize n [] ;;
  c <-- reset_coeffs (length s) s ;;
  Ok {| dim := length s; sizes := s; values := v; coeffs := c |}.

Definition first_key (a : packed_array) : key := replicate (dim a) 0.
Definition last_key (a : packed_array) : res key := key_sub (sizes a) (replicate (dim a) 1).

(** [range_check]: only upper bounds, as if keys were unsigned. *)
Fixpoint range_check_from (n : nat) (k s : key) : res bool :=
  match n with
  | O => Ok true
  | S n' =>
      match k, s with
      | x :: k', y :: s' => if y <=? x then Ok false else range_check_from n' k' s'
      | _, _ => Err F_index
      end
  end.
Definition range_check (a : packed_array) (k : key) : res bool := range_check_from (dim a) k (sizes a).

Fixpoint inner_product (acc : Z) (k c : key) : res Z :=
  match k with
  | [] => Ok acc
  | x :: k' =>
      match c with
      | y :: c' => p <-- to_long (x * y) ;; acc' <-- to_long (acc + p) ;; inner_product acc' k' c'
      | [] => Err F_index
      end
  end.
(** [k.back()] of an empty key is what is before its first element. *)
Definition key_to_index (a : packed_array) (k : key) : res Z :=
  match k with
  | [] => Err F_index
  | _ => inner_product (List.last k 0) (removelast k) (coeffs a)
  end.
Definition get (a : packed_array) (k : key) : res T := i <-- key_to_index a k ;; at_index i (values a).
Definition get_at (a : packed_array) (k : key) : res T :=
  ok <-- range_check a k ;; _ <-- assertion ok ;; get a k.

(** [index_to_key]; the index is unsigned. *)
Fixpoint middle_keys (i : Z) (c s : key) : res key :=
  match c, s with
  | [], [y] => if y =? 0 then Err F_undef else Ok [i mod y]
  | x :: c', y :: s' =>
      if (x =? 0) || (y =? 0) then Err F_undef
      else r <-- middle_keys i c' s' ;; Ok ((i / x) mod y :: r)
  | _, _ => Err F_index
  end.
Definition index_to_key (a : packed_array) (i : Z) : res key :=
  if Nat.eqb (dim a) 1 then Ok [i]
  else
    match coeffs a, sizes a with
    | x :: c, _ :: s => if x =? 0 then Err F_undef else r <-- middle_keys i c s ;; Ok (i / x :: r)
    | _, _ => Err F_index
    end.

(** [a[l..u]]: copies until the generator is back at its lower corner. *)
Fixpoint copy_loop (fuel : nat) (a : packed_array) (g : generator) (i : nat) (v : list T) : res (list T) :=
  match fuel with
  | O => Err F_fuel
  | S fuel' =>
      x <-- get a (current g) ;;
      _ <-- (if Nat.ltb i (length v) then Ok tt else Err F_index) ;;
      let v' := <[i := x]> v in
      g' <-- next_key g ;;
      if negb (key_eqb (current g') (lower_corner g')) then copy_loop fuel' a g' (S i) v' else Ok v'
  end.
Definition slice (fuel : nat) (a : packed_array) (l u : key) : res packed_array :=
  _ <-- assertion (sizes_agree l u) ;;
  le <-- key_leq l u ;;
  _ <-- assertion le ;;
  d <-- key_sub u l ;;
  s <-- key_add d (replicate (length l) 1) ;;
  n <-- sizes_product s ;;
  v <-- values_resize n [] ;;
  c <-- reset_coeffs (length l) s ;;
  g0 <-- make_generator l u ;;
  g <-- generator_initialize g0 ;;
  _ <-- assertion (Z.of_nat (length v) =? n) ;;
  v' <-- copy_loop fuel a g 0 v ;;
  Ok {| dim := length l; sizes := s; values := v'; coeffs := c |}.

(** The same loop in the arrays of a fixed number of dimensions: [key_gen++] is
    the key after the current one, as it returns a reference to the generator. *)
Fixpoint copy_loop_fixed (fuel : nat) (a : packed_array) (g : generator) (i : nat) (v : list T) : res (list T) :=
  match fuel with
  | O => Err F_fuel
  | S fuel' =>
      g' <-- next_key g ;;
      x <-- get a (current g') ;;
      _ <-- (if Nat.ltb i (length v) then Ok tt else Err F_index) ;;
      let v' := <[i := x]> v in
      if negb (key_eqb (current g') (lower_corner g')) then copy_loop_fixed fuel' a g' (S i) v' else Ok v'
  end.

(** [resize(s)]: the values stay where they are in the vector. *)
Definition resize (a : packed_array) (s : key) : res packed_array :=
  n <-- sizes_product s ;;
  v <-- values_resize n (values a) ;;
  c <-- reset_coeffs (length s) s ;;
  Ok {| dim := length s; sizes := s; values := v; coeffs := c |}.
(** [resize()] to a scalar. *)
Definition resize_scalar (a : packed_array) : res packed_array :=
  v <-- values_resize 1 (values a) ;;
  c <-- reset_coeffs 0 [] ;;
  Ok {| dim := 0; sizes := []; values := v; coeffs := c |}.

(** [std::copy] of [l] to position [i] of [v]. *)
Definition copy_values (i : nat) (l v : list T) : res (list T) :=
  if Nat.leb (i + length l) (length v) then Ok (firstn i v ++ l ++ skipn (i + length l) v) else Err F_index.
(** [operator +=]: concatenation, or one more row. *)
Definition append (a b : packed_array) : res packed_array :=
  new_size <--
    (match sizes a with
     | [] => Err F_index
     | n :: s =>
         if Nat.eqb (dim a) (dim b) then
           match sizes b with
           | [] => Err F_index
           | m :: s' => _ <-- assertion (bool_decide (s = s')) ;; k <-- to_long (n + m) ;; Ok (k :: s)
           end
         else
           _ <-- assertion (Nat.eqb (dim a) (dim b + 1)) ;;
           _ <-- assertion (bool_decide (s = sizes b)) ;;
           k <-- to_long (n + 1) ;; Ok (k :: s)
     end) ;;
  start <-- sizes_product (sizes a) ;;
  a' <-- resize a new_size ;;
  if start <? 0 then Err F_index
  else
    v <-- copy_values (Z.to_nat start) (values b) (values a') ;;
    Ok {| dim := dim a'; sizes := sizes a'; values := v; coeffs := coeffs a' |}.
End Elements.
