(* ===== verification/PackedArrayProps.v ===== *)
(** Packed arrays implement functions on keys: keys in range correspond to the
    indices of the vector in lexicographic order, slices and concatenations have
    the elements that they should, and what range checks let pass. *)
From S2P Require Import Prelude Longs PackedArray.
Open Scope Z_scope.
Local Open Scope hackt_scope.
#[local] Abbreviation length := Datatypes.length.

(** ** Keys as numbers in mixed radix *)
Fixpoint volume (s : key) : Z := match s with [] => 1 | n :: s' => n * volume s' end.
(** A bound of all products of sizes, thin arrays included. *)
Fixpoint room (s : key) : Z := match s with [] => 1 | n :: s' => Z.max 1 n * room s' end.
Fixpoint row_major (s k : key) : Z :=
  match s, k with _ :: s', x :: k' => x * volume s' + row_major s' k' | _, _ => 0 end.
Fixpoint strides (s : key) : key :=
  match s with
  | [] => []
  | _ :: s' => match s' with [] => [] | _ => volume s' :: strides s' end
  end.
Definition in_box (s k : key) : Prop := Forall2 (fun n x => 0 <= x < n) s k.
Definition natural (s : key) : Prop := Forall (fun n => 0 <= n) s.

Lemma volume_app s t : volume (s ++ t) = volume s * volume t.
Proof. induction s as [|n s IH]; cbn [volume app]; [lia|]. rewrite IH. ring. Qed.
Lemma room_app s t : room (s ++ t) = room s * room t.
Proof. induction s as [|n s IH]; cbn [room app]; [lia|]. rewrite IH. ring. Qed.
Lemma room_pos s : 1 <= room s.
Proof. induction s as [|n s IH]; cbn [room]; nia. Qed.
Lemma volume_room s : natural s -> 0 <= volume s <= room s.
Proof. induction 1 as [|n s Hn Hs IH]; cbn [volume room]; nia. Qed.
Lemma in_box_natural s k : in_box s k -> natural s.
Proof. induction 1; constructor; [lia|done]. Qed.
Lemma in_box_length s k : in_box s k -> length k = length s.
Proof. intros H. symmetry. by eapply Forall2_length. Qed.

Lemma row_major_bound s k : in_box s k -> 0 <= row_major s k < volume s.
Proof. induction 1 as [|n x s k Hx Hk IH]; cbn [row_major volume]; nia. Qed.
Lemma row_major_inj s k k' : in_box s k -> in_box s k' -> row_major s k = row_major s k' -> k = k'.
Proof.
  intros Hk. revert k'. induction Hk as [|n x s k Hx Hk IH]; intros k' Hk' E.
  - by inversion Hk'.
  - inversion Hk' as [|? x' ? k2 Hx' Hk2]; subst. cbn [row_major] in E.
    pose proof (row_major_bound _ _ Hk). pose proof (row_major_bound _ _ Hk2).
    assert (x = x') as -> by nia. f_equal. apply IH; [done|lia].
Qed.
Lemma row_major_surj s i : natural s -> 0 <= i < volume s -> exists k, in_box s k /\ row_major s k = i.
Proof.
  intros Hs. revert i. induction Hs as [|n s Hn Hs IH]; intros i Hi; cbn [volume] in Hi.
  - exists []. split; [constructor|]. cbn. lia.
  - assert (Hv : 0 < volume s) by (pose proof (volume_room _ Hs); nia).
    destruct (IH (i mod volume s) ltac:(by apply Z.mod_pos_bound)) as (k & Hk & E).
    exists (i / volume s :: k). split.
    + constructor; [|done]. split; [apply Z.div_pos; lia|]. apply Z.div_lt_upper_bound; [done|lia].
    + cbn [row_major]. rewrite E. pose proof (Z.div_mod i (volume s) ltac:(lia)). lia.
Qed.

Lemma lex_row_major s k k' : in_box s k -> in_box s k' ->
  lexicographical_compare k k' = (row_major s k <? row_major s k').
Proof.
  intros Hk. revert k'. induction Hk as [|n x s k Hx Hk IH]; intros k' Hk'; inversion Hk' as [|? x' ? k2 Hx' Hk2]; subst.
  - done.
  - cbn [lexicographical_compare row_major]. rewrite (IH _ Hk2).
    pose proof (row_major_bound _ _ Hk). pose proof (row_major_bound _ _ Hk2).
    destruct (Z.ltb_spec x x'); [symmetry; apply Z.ltb_lt; nia|].
    destruct (Z.ltb_spec x' x); [symmetry; apply Z.ltb_ge; nia|]. assert (x = x') as -> by lia.
    destruct (Z.ltb_spec (row_major s k) (row_major s k2)), (Z.ltb_spec (x' * volume s + row_major s k) (x' * volume s + row_major s k2)); lia.
Qed.

(** ** Sizes and coefficients *)
Lemma product_from_ok acc s : natural s -> 0 <= acc -> Z.max 1 acc * room s < 2 ^ 31 ->
  product_from acc s = Ok (acc * volume s).
Proof.
  intros Hs. revert acc. induction Hs as [|n s Hn Hs IH]; intros acc Ha Hr; cbn [product_from volume room] in *.
  - f_equal. lia.
  - pose proof (room_pos s). assert (Hb : Z.max 1 (acc * n) * room s < 2 ^ 31).
    { eapply Z.le_lt_trans; [|exact Hr]. rewrite Z.mul_assoc. apply Z.mul_le_mono_nonneg_r; nia. }
    rewrite to_long_ok by (unfold LONG_MIN, LONG_MAX; nia). rewrite to_int_small by nia.
    rewrite IH by (done || nia). f_equal. ring.
Qed.
Lemma sizes_product_ok s : natural s -> room s < 2 ^ 31 -> sizes_product s = Ok (volume s).
Proof. intros Hs Hr. unfold sizes_product. rewrite product_from_ok; [f_equal; lia|done|lia|lia]. Qed.

Lemma strides_snoc s x : s <> [] -> strides (s ++ [x]) = map (fun y => y * x) (strides s) ++ [x].
Proof.
  induction s as [|n s IH]; [done|]. intros _. destruct s as [|m s]; [cbn; f_equal; lia|].
  change (strides ((n :: m :: s) ++ [x])) with (volume ((m :: s) ++ [x]) :: strides ((m :: s) ++ [x])).
  rewrite IH by done. rewrite volume_app. cbn [volume strides map app]. f_equal. lia.
Qed.
Lemma strides_length s : length (strides s) = (length s - 1)%nat.
Proof. induction s as [|n [|m s] IH]; [done..|]. change (S (length (strides (m :: s))) = length (m :: s)). rewrite IH. cbn. lia. Qed.
Lemma strides_bound s y : natural s -> y ∈ strides s -> 0 <= y <= room s.
Proof.
  induction s as [|n s IH]; intros Hs Hy; [by apply elem_of_nil in Hy|]. apply Forall_cons in Hs as [Hn Hs].
  destruct s as [|m s]; [by apply elem_of_nil in Hy|]. change (y ∈ volume (m :: s) :: strides (m :: s)) in Hy.
  pose proof (room_pos (m :: s)). assert (0 <= y <= room (m :: s)); [|cbn [room] in *; nia].
  apply elem_of_cons in Hy as [->|Hy]; [by apply volume_room|by apply IH].
Qed.

Lemma mul_prefix_ok c x t : (forall y, y ∈ c -> LONG_MIN <= y * x <= LONG_MAX) ->
  mul_prefix (length c) x (c ++ t) = Ok (map (fun y => y * x) c ++ t).
Proof.
  induction c as [|y c IH]; intros Hb; cbn [length mul_prefix app map]; [done|].
  destruct (Hb y ltac:(by left)). rewrite to_long_ok by done. rewrite IH; [done|]. intros z Hz. apply Hb. by right.
Qed.
Lemma at_index_middle {A} (p : list A) x q : at_index (Z.of_nat (length p)) (p ++ x :: q) = Ok x.
Proof.
  unfold at_index. pose proof (Nat2Z.is_nonneg (length p)). assert ((Z.of_nat (length p) <? 0) = false) as -> by lia.
  by rewrite Nat2Z.id, list_lookup_middle.
Qed.
Lemma reset_from_ok q : forall p, p <> [] -> natural (p ++ q) -> room (p ++ q) < 2 ^ 31 ->
  reset_from (length q) (length p) (p ++ q) (strides p ++ replicate (length q) 1) = Ok (strides (p ++ q)).
Proof.
  induction q as [|x q IH]; intros p Hp Hs Hr; cbn [length reset_from replicate].
  - by rewrite !app_nil_r.
  - rewrite at_index_middle. assert (Hpn : natural p) by (by apply Forall_app in Hs as [? _]).
    assert (Hx : 0 <= x) by (apply Forall_app in Hs as [_ Hs]; by apply Forall_cons in Hs as [? _]).
    assert (Hl : length p = length (strides p ++ [1])).
    { rewrite length_app, strides_length. cbn. destruct p; [done|cbn; lia]. }
    rewrite Hl. replace (strides p ++ 1 :: replicate (length q) 1) with ((strides p ++ [1]) ++ replicate (length q) 1)
      by by rewrite <- app_assoc.
    rewrite room_app in Hr. cbn [room] in Hr. pose proof (room_pos p). pose proof (room_pos q).
    rewrite mul_prefix_ok.
    2: { intros y Hy. assert (0 <= y <= room p).
         { apply elem_of_app in Hy as [Hy|Hy]; [by apply strides_bound|]. apply list_elem_of_singleton in Hy. lia. }
         assert (y * x <= room p * Z.max 1 x) by (apply Z.mul_le_mono_nonneg; lia).
         assert (room p * Z.max 1 x * 1 <= room p * Z.max 1 x * room q) by (apply Z.mul_le_mono_nonneg_l; nia).
         unfold LONG_MIN, LONG_MAX. nia. }
    rewrite map_app. cbn [map]. replace (1 * x) with x by lia. rewrite <- strides_snoc by done.
    replace (p ++ x :: q) with ((p ++ [x]) ++ q) in * by by rewrite <- app_assoc.
    replace (S (length (strides p ++ [1]))) with (length (p ++ [x])) by (rewrite !length_app in *; cbn in *; lia).
    apply IH; [by destruct p|done|]. rewrite !room_app. cbn [room]. lia.
Qed.
Lemma reset_coeffs_ok s : natural s -> room s < 2 ^ 31 -> reset_coeffs (length s) s = Ok (strides s).
Proof.
  intros Hs Hr. unfold reset_coeffs. destruct s as [|n s]; [done|]. cbn [length]. replace (S (length s) - 1)%nat with (length s) by lia.
  exact (reset_from_ok s [n] ltac:(done) Hs Hr).
Qed.

(** ** Enumeration *)
Definition extent (l u : key) : key := zip_with (fun a b => b - a + 1) l u.
Definition offset (l k : key) : key := zip_with Z.add l k.
Definition ordered (l u : key) : Prop := Forall2 Z.le l u.
#[export] Instance ordered_dec l u : Decision (ordered l u).
Proof. unfold ordered. apply _. Defined.

(** The next key, seen from the first dimension, with a carry. *)
Fixpoint bump (c l u : key) : key * bool :=
  match c, l, u with
  | x :: c', a :: l', b :: u' =>
      let '(r, carry) := bump c' l' u' in
      if carry then if b <=? x then (a :: r, true) else (x + 1 :: r, false) else (x :: r, false)
  | _, _, _ => ([], true)
  end.
(** The loop of [advance] with the carry that it leaves. *)
Fixpoint carry_on (c l u : key) : key * bool :=
  match c, l, u with
  | x :: c', a :: l', b :: u' =>
      if b <=? x then let '(r, carry) := carry_on c' l' u' in (a :: r, carry) else (x + 1 :: c', false)
  | _, _, _ => ([], true)
  end.
Lemma advance_carry c l u : length c = length l -> length c = length u -> advance c l u = Ok (carry_on c l u).1.
Proof.
  revert l u. induction c as [|x c IH]; intros [|a l] [|b u] Hl Hu; cbn [advance carry_on] in *; try done.
  destruct (b <=? x); [|done]. rewrite IH by (cbn in *; lia). by destruct (carry_on c l u).
Qed.
Lemma carry_on_snoc c l u x a b : length c = length l -> length c = length u ->
  carry_on (c ++ [x]) (l ++ [a]) (u ++ [b]) =
  let '(r, carry) := carry_on c l u in
  (r ++ [if carry then if b <=? x then a else x + 1 else x], carry && (b <=? x)).
Proof.
  revert l u. induction c as [|y c IH]; intros [|a' l] [|b' u] Hl Hu; cbn in Hl, Hu; try lia; cbn [carry_on app].
  - by destruct (b <=? x).
  - destruct (b' <=? y); [|done]. rewrite IH by lia. by destruct (carry_on c l u).
Qed.
Lemma carry_on_bump c l u : length c = length l -> length c = length u ->
  carry_on (rev c) (rev l) (rev u) = let '(r, carry) := bump c l u in (rev r, carry).
Proof.
  revert l u. induction c as [|x c IH]; intros [|a l] [|b u] Hl Hu; cbn in Hl, Hu; try lia; [done|]. cbn [rev bump].
  rewrite carry_on_snoc by (rewrite !length_rev; lia). rewrite IH by lia. destruct (bump c l u) as [r carry].
  destruct carry; cbn [andb]; [|done]. by destruct (b <=? x).
Qed.
Lemma next_key_bump g : length (current g) = length (lower_corner g) -> length (current g) = length (upper_corner g) ->
  next_key g = Ok {| current := (bump (current g) (lower_corner g) (upper_corner g)).1;
                     lower_corner := lower_corner g; upper_corner := upper_corner g |}.
Proof.
  intros Hl Hu. unfold next_key. rewrite advance_carry by (rewrite !length_rev; lia). rewrite carry_on_bump by done.
  destruct (bump _ _ _) as [r carry]. cbn [fst]. by rewrite rev_involutive.
Qed.

Definition origin (s : key) : key := map (fun _ => 0) s.
Lemma row_major_origin s : row_major s (origin s) = 0.
Proof. induction s as [|n s IH]; cbn [row_major origin map]; [done|]. fold (origin s). rewrite IH. lia. Qed.
Lemma extent_volume l u : ordered l u -> 0 < volume (extent l u).
Proof. induction 1 as [|a b l u Hab H IH]; cbn [extent zip_with volume]; [lia|]. fold (extent l u). nia. Qed.
Lemma origin_in_box l u : ordered l u -> in_box (extent l u) (origin (extent l u)).
Proof. induction 1; cbn; constructor; [lia|done]. Qed.
Lemma offset_origin l u : length l = length u -> offset l (origin (extent l u)) = l.
Proof.
  revert u. induction l as [|a l IH]; intros [|b u] H; cbn in H; try lia; [done|].
  cbn [extent zip_with origin map offset]. f_equal; [lia|]. apply IH. lia.
Qed.

Lemma inj_offset l u k k' : in_box (extent l u) k -> in_box (extent l u) k' -> length l = length u ->
  offset l k = offset l k' -> k = k'.
Proof.
  revert u k k'. induction l as [|a l IH]; intros [|b u] k k' Hk Hk' Hl E; cbn in Hl; try lia.
  - inversion Hk; subst. by inversion Hk'.
  - cbn [extent zip_with] in *. fold (extent l u) in *. inversion Hk; inversion Hk'; subst.
    cbn [offset zip_with] in E. injection E as E1 E2. f_equal; [lia|]. apply (IH u); done || lia.
Qed.

Lemma offset_not_empty l u k : l <> [] -> ordered l u -> in_box (extent l u) k -> offset l k <> [].
Proof. intros Hn Ho Hk. destruct Ho as [|x y l u Hxy Ho]; [done|]. cbn in Hk. by inversion Hk. Qed.

(** Advancing goes through the keys in lexicographic order, and back to the
    lower corner. *)
Lemma bump_offset l u k : ordered l u -> in_box (extent l u) k ->
  let s := extent l u in let '(r, carry) := bump (offset l k) l u in
  if carry then r = l /\ row_major s k = volume s - 1
  else exists k', r = offset l k' /\ in_box s k' /\ row_major s k' = row_major s k + 1.
Proof.
  intros Ho. revert k. induction Ho as [|a b l u Hab Ho IH]; intros k Hk.
  - inversion Hk; subst. done.
  - cbn [extent zip_with] in *. fold (extent l u) in *. inversion Hk as [|? x ? k0 Hx Hk0]; subst.
    specialize (IH k0 Hk0). cbn [offset zip_with bump]. fold (offset l k0). cbv zeta in *.
    destruct (bump (offset l k0) l u) as [r carry]. destruct carry.
    + destruct IH as [-> Hv]. destruct (Z.leb_spec b (a + x)).
      * split; [done|]. cbn [row_major volume]. rewrite Hv. assert (x = b - a) as -> by lia. ring.
      * exists (x + 1 :: origin (extent l u)). cbn [offset zip_with row_major]. fold (offset l (origin (extent l u))).
        rewrite offset_origin by (by eapply Forall2_length). split_and!.
        -- f_equal. lia.
        -- constructor; [lia|by apply origin_in_box].
        -- rewrite row_major_origin, Hv. ring.
    + destruct IH as (k' & -> & Hk' & Hr). exists (x :: k'). cbn [offset zip_with row_major]. split_and!; [done| |].
      * by constructor.
      * rewrite Hr. ring.
Qed.

(** ** Access *)
Section Elements.
Context {T : Type} (filler : T).
Implicit Types (a b : packed_array (T := T)).

Record array_ok a : Prop := {
  ok_dim : dim a = length (sizes a);
  ok_natural : natural (sizes a);
  ok_room : room (sizes a) < 2 ^ 31;
  ok_values : Z.of_nat (length (values a)) = volume (sizes a);
  ok_coeffs : coeffs a = strides (sizes a)
}.

Lemma inner_product_ok s k acc : in_box s k -> k <> [] -> 0 <= acc -> acc + room s * 2 <= LONG_MAX ->
  inner_product acc (removelast k) (strides s) = Ok (acc + row_major s k - List.last k 0).
Proof.
  intros Hk. revert acc. induction Hk as [|n x s k Hx Hk IH]; [done|]. intros acc _ Ha Hb.
  destruct Hk as [|m y s k Hy Hk]; [cbn; f_equal; lia|].
  change (removelast (x :: y :: k)) with (x :: removelast (y :: k)).
  change (strides (n :: m :: s)) with (volume (m :: s) :: strides (m :: s)).
  change (List.last (x :: y :: k) 0) with (List.last (y :: k) 0).
  change (row_major (n :: m :: s) (x :: y :: k)) with (x * volume (m :: s) + row_major (m :: s) (y :: k)).
  assert (Hbox : in_box (m :: s) (y :: k)) by by constructor.
  pose proof (volume_room _ (in_box_natural _ _ Hbox)) as Hv.
  change (room (n :: m :: s)) with (Z.max 1 n * room (m :: s)) in Hb. set (V := volume (m :: s)) in *.
  set (R := room (m :: s)) in *. assert (Hxv : 0 <= x * V <= (Z.max 1 n - 1) * R) by nia.
  cbn [inner_product]. unfold LONG_MAX in *. rewrite !to_long_ok by (unfold LONG_MIN, LONG_MAX; nia).
  rewrite (IH (acc + x * V)) by (done || nia). f_equal. lia.
Qed.
Lemma key_to_index_ok a k : array_ok a -> in_box (sizes a) k -> k <> [] ->
  key_to_index a k = Ok (row_major (sizes a) k).
Proof.
  intros Ha Hk Hn. unfold key_to_index. destruct k as [|x k]; [done|]. rewrite (ok_coeffs _ Ha).
  pose proof (ok_room _ Ha). assert (Hl : 0 <= List.last (x :: k) 0 < 2 ^ 31).
  { pose proof (room_pos (sizes a)).
    assert (Hlast : exists s n, sizes a = s ++ [n] /\ 0 <= List.last (x :: k) 0 < n).
    { destruct (exists_last Hn) as (k' & y & E). rewrite E in *. rewrite last_last.
      apply Forall2_app_inv_r in Hk as (s & t & Hs & Ht & ->). inversion Ht as [|n ? t' ? Hy Ht']; subst.
      inversion Ht'; subst. by exists s, n. }
    destruct Hlast as (s & n & E & Hy). rewrite E, room_app in *. cbn [room] in *. pose proof (room_pos s). nia. }
  rewrite (inner_product_ok _ _ _ Hk Hn); [f_equal; lia|lia|unfold LONG_MAX; lia].
Qed.
Lemma at_index_inside {A} i (l : list A) : 0 <= i < Z.of_nat (length l) ->
  exists x, at_index i l = Ok x /\ l !! Z.to_nat i = Some x.
Proof.
  intros Hi. unfold at_index. assert ((i <? 0) = false) as -> by lia.
  destruct (lookup_lt_is_Some_2 l (Z.to_nat i)) as [x E]; [lia|]. exists x. by rewrite E.
Qed.
Lemma at_index_lookup {A} i (l : list A) x : 0 <= i -> l !! Z.to_nat i = Some x -> at_index i l = Ok x.
Proof.
  intros Hi E. unfold at_index. assert ((i <? 0) = false) as -> by lia. by rewrite E.
Qed.
Lemma get_ok a k : array_ok a -> in_box (sizes a) k -> k <> [] ->
  exists x, get a k = Ok x /\ values a !! Z.to_nat (row_major (sizes a) k) = Some x.
Proof.
  intros Ha Hk Hn. unfold get. rewrite key_to_index_ok by done. apply at_index_inside.
  rewrite (ok_values _ Ha). by apply row_major_bound.
Qed.

(** ** From indices to keys *)
Lemma middle_keys_ok s k q : in_box s k -> k <> [] -> 0 <= q ->
  middle_keys (q * volume s + row_major s k) (strides s) s = Ok k.
Proof.
  intros Hk. revert q. induction Hk as [|n x s k Hx Hk IH]; [done|]. intros q _ Hq.
  destruct Hk as [|m y s k Hy Hk].
  - cbn [strides middle_keys volume row_major]. assert ((n =? 0) = false) as -> by lia. do 2 f_equal.
    replace (q * (n * 1) + (x * 1 + 0)) with (x + q * n) by lia. rewrite Z_mod_plus_full. by apply Z.mod_small.
  - assert (Hbox : in_box (m :: s) (y :: k)) by by constructor. pose proof (row_major_bound _ _ Hbox) as Hr.
    change (strides (n :: m :: s)) with (volume (m :: s) :: strides (m :: s)).
    change (volume (n :: m :: s)) with (n * volume (m :: s)).
    change (row_major (n :: m :: s) (x :: y :: k)) with (x * volume (m :: s) + row_major (m :: s) (y :: k)).
    set (V := volume (m :: s)) in *. set (r := row_major (m :: s) (y :: k)) in *.
    replace (q * (n * V) + (x * V + r)) with ((q * n + x) * V + r) by ring.
    change (middle_keys ((q * n + x) * V + r) (V :: strides (m :: s)) (n :: m :: s)) with
      (if (V =? 0) || (n =? 0) then Err F_undef
       else r' <-- middle_keys ((q * n + x) * V + r) (strides (m :: s)) (m :: s) ;;
            Ok ((((q * n + x) * V + r) / V) mod n :: r')).
    assert ((V =? 0) || (n =? 0) = false) as -> by lia.
    pose proof (IH (q * n + x) ltac:(done) ltac:(nia)) as E. fold V r in E. rewrite E.
    do 2 f_equal. rewrite Z.div_add_l, (Z.div_small r V), Z.add_0_r by lia.
    rewrite Z.add_comm, Z_mod_plus_full. by apply Z.mod_small.
Qed.
Lemma index_to_key_ok a k : array_ok a -> in_box (sizes a) k -> k <> [] ->
  index_to_key a (row_major (sizes a) k) = Ok k.
Proof.
  intros Ha Hk Hn. unfold index_to_key. rewrite (ok_dim _ Ha), (ok_coeffs _ Ha). pose proof (in_box_length _ _ Hk) as Hl.
  destruct Hk as [|n x s k Hx Hk]; [done|]. destruct Hk as [|m y s k Hy Hk].
  - cbn. do 2 f_equal. lia.
  - assert (Hbox : in_box (m :: s) (y :: k)) by by constructor. pose proof (row_major_bound _ _ Hbox) as Hr.
    cbn [length Nat.eqb]. change (strides (n :: m :: s)) with (volume (m :: s) :: strides (m :: s)).
    change (row_major (n :: m :: s) (x :: y :: k)) with (x * volume (m :: s) + row_major (m :: s) (y :: k)).
    cbv beta iota. assert ((volume (m :: s) =? 0) = false) as -> by lia. rewrite middle_keys_ok by (done || lia).
    do 2 f_equal. rewrite Z.div_add_l, Z.div_small by lia. lia.
Qed.

(** ** Slices *)
Section Slice.
Context (a : packed_array (T := T)) (l u : key) (Ha : array_ok a) (Ho : ordered l u) (Hn : l <> [])
  (Hin : forall k, in_box (extent l u) k -> in_box (sizes a) (offset l k)).
Let s := extent l u.

Definition copied (n : Z) (v : list T) : Prop :=
  forall k, in_box s k -> row_major s k < n ->
  exists x, get a (offset l k) = Ok x /\ v !! Z.to_nat (row_major s k) = Some x.

Lemma copied_next i v k0 x : in_box s k0 -> row_major s k0 = Z.of_nat i -> Z.of_nat (length v) = volume s ->
  get a (offset l k0) = Ok x -> copied (Z.of_nat i) v -> copied (Z.of_nat i + 1) (<[i := x]> v).
Proof.
  intros Hk0 Hi Hv Hx Hc k Hk Hlt. pose proof (row_major_bound _ _ Hk0). pose proof (row_major_bound _ _ Hk).
  destruct (decide (row_major s k = Z.of_nat i)) as [E|E].
  - assert (k = k0) as -> by (apply (row_major_inj s); congruence). exists x. split; [done|].
    rewrite Hi, Nat2Z.id. apply list_lookup_insert_eq. lia.
  - destruct (Hc k Hk ltac:(lia)) as (y & Hy & Hl). exists y. split; [done|].
    rewrite list_lookup_insert_ne by lia. done.
Qed.
Lemma copy_loop_ok fuel : forall i v k0, in_box s k0 -> row_major s k0 = Z.of_nat i -> Z.of_nat (length v) = volume s ->
  volume s - Z.of_nat i <= Z.of_nat fuel -> copied (Z.of_nat i) v ->
  exists v', copy_loop fuel a {| current := offset l k0; lower_corner := l; upper_corner := u |} i v = Ok v' /\
    Z.of_nat (length v') = volume s /\ copied (volume s) v'.
Proof.
  induction fuel as [|fuel IH]; intros i v k0 Hk0 Hi Hv Hf Hc; pose proof (row_major_bound _ _ Hk0) as Hb; [lia|].
  cbn [copy_loop current]. destruct (get_ok a (offset l k0) Ha (Hin _ Hk0) (offset_not_empty l u _ Hn Ho Hk0)) as (x & Hx & _).
  rewrite Hx. assert (Nat.ltb i (length v) = true) as -> by (apply Nat.ltb_lt; lia).
  pose proof (copied_next i v k0 x Hk0 Hi Hv Hx Hc) as Hc'. set (v' := <[i := x]> v) in *.
  assert (Hv' : Z.of_nat (length v') = volume s) by (unfold v'; by rewrite length_insert).
  assert (Hll : length (offset l k0) = length l).
  { unfold offset. rewrite length_zip_with. pose proof (in_box_length _ _ Hk0) as E. unfold s, extent in E.
    rewrite length_zip_with in E. pose proof (Forall2_length _ _ _ Ho). lia. }
  rewrite next_key_bump by (cbn; pose proof (Forall2_length _ _ _ Ho); lia). cbn [current lower_corner upper_corner].
  pose proof (bump_offset l u k0 Ho Hk0) as Hbump. fold s in Hbump. cbv zeta in Hbump.
  destruct (bump (offset l k0) l u) as [r carry]. cbn [fst]. destruct carry.
  - destruct Hbump as [-> Hlast]. unfold key_eqb, sizes_agree. rewrite Nat.eqb_refl, bool_decide_true by done. cbn.
    exists v'. split_and!; [done|done|]. replace (volume s) with (Z.of_nat i + 1) by lia. done.
  - destruct Hbump as (k' & -> & Hk' & Hr). assert (Hne : key_eqb (offset l k') l = false).
    { unfold key_eqb. rewrite bool_decide_false; [by rewrite andb_false_r|]. intros E.
      assert (Hl0 : offset l k' = offset l (origin s)) by (unfold s; rewrite offset_origin; [done|by eapply Forall2_length]).
      assert (k' = origin s).
      { apply (inj_offset l u); [done|by apply origin_in_box|by eapply Forall2_length|done]. }
      subst k'. rewrite row_major_origin in Hr. lia. }
    rewrite Hne. cbn [negb]. apply (IH (S i) v' k'); try done; try lia. by replace (Z.of_nat (S i)) with (Z.of_nat i + 1) by lia.
Qed.
End Slice.

Lemma key_transform_ok f l u : length l = length u ->
  Forall2 (fun x y => LONG_MIN <= f x y <= LONG_MAX) l u -> key_transform f l u = Ok (zip_with f l u).
Proof.
  intros _. induction 1 as [|x y l u Hxy H IH]; cbn [key_transform zip_with]; [done|].
  rewrite to_long_ok by apply Hxy. by rewrite IH.
Qed.
Lemma extent_ok l u : ordered l u -> Forall (fun x => 0 <= x) l -> Forall (fun x => x < 2 ^ 31) u ->
  (d <-- key_sub u l ;; key_add d (replicate (length l) 1)) = Ok (extent l u).
Proof.
  intros Ho Hl Hu. pose proof (Forall2_length _ _ _ Ho) as Hlen. unfold key_sub, key_add, sizes_agree.
  rewrite <- Hlen, Nat.eqb_refl. cbn [assertion]. rewrite key_transform_ok; [|done|].
  - rewrite length_zip_with, length_replicate, <- Hlen, Nat.min_id, Nat.eqb_refl. cbn [assertion].
    rewrite key_transform_ok.
    + f_equal. clear Hl Hu Hlen. induction Ho as [|x y l u Hxy Ho IH]; cbn; [done|]. f_equal. exact IH.
    + by rewrite length_zip_with, length_replicate, <- Hlen, Nat.min_id.
    + clear Hlen. induction Ho as [|x y l u Hxy Ho IH]; cbn; [constructor|]. apply Forall_cons in Hl as [Hx Hl].
      apply Forall_cons in Hu as [Hy Hu]. constructor; [unfold LONG_MIN, LONG_MAX; lia|by apply IH].
  - clear Hlen. induction Ho as [|x y l u Hxy Ho IH]; [constructor|]. apply Forall_cons in Hl as [Hx Hl].
    apply Forall_cons in Hu as [Hy Hu]. constructor; [unfold LONG_MIN, LONG_MAX; lia|by apply IH].
Qed.
Lemma ordered_leq l u : ordered l u -> key_leq l u = Ok true.
Proof.
  intros Ho. unfold key_leq, key_less, sizes_agree. rewrite (Forall2_length _ _ _ Ho), Nat.eqb_refl. cbn [assertion].
  assert (lexicographical_compare u l = false) as ->; [|done].
  induction Ho as [|x y l u Hxy Ho IH]; cbn [lexicographical_compare]; [done|].
  destruct (Z.ltb_spec y x); [lia|]. by destruct (x <? y).
Qed.
Lemma validate_from_spec l u : length l = length u ->
  validate_from l u = if bool_decide (ordered l u) then Ok tt else Err F_assert.
Proof.
  revert u. induction l as [|x l IH]; intros [|y u] Hl; cbn in Hl; try lia; cbn [validate_from].
  - rewrite bool_decide_true; [done|constructor].
  - unfold assertion. destruct (Z.leb_spec x y).
    + rewrite IH by lia. case_bool_decide as Ea; case_bool_decide as Eb; try done; exfalso.
      * apply Eb. by constructor.
      * by inversion Eb.
    + rewrite bool_decide_false; [done|]. intros H'. inversion H'; subst. lia.
Qed.
Lemma slice_box s l u k : in_box s l -> in_box s u -> in_box (extent l u) k -> in_box s (offset l k).
Proof.
  intros Hl. revert u k. induction Hl as [|n x s l Hx Hl IH]; intros u k Hu Hk; inversion Hu; subst; cbn in Hk.
  - inversion Hk; subst. constructor.
  - inversion Hk; subst. cbn. constructor; [lia|]. by apply (IH l').
Qed.
Lemma extent_room s l u : in_box s l -> in_box s u -> ordered l u -> natural (extent l u) /\ room (extent l u) <= room s.
Proof.
  intros Hl. revert u. induction Hl as [|n x s l Hx Hl IH]; intros u Hu Ho; inversion Hu; subst; cbn.
  - split; [constructor|lia].
  - inversion Ho; subst. destruct (IH l') as [Hn Hr]; [done|done|]. fold (extent l l').
    pose proof (room_pos (extent l l')). split; [constructor; [lia|done]|]. nia.
Qed.
Lemma in_box_bounds s k : in_box s k -> room s < 2 ^ 31 -> Forall (fun x => 0 <= x) k /\ Forall (fun x => x < 2 ^ 31) k.
Proof.
  induction 1 as [|n x s k Hx Hk IH]; intros Hr; [split; constructor|]. cbn [room] in Hr. pose proof (room_pos s).
  destruct IH as [H1 H2]; [nia|]. split; constructor; try done; nia.
Qed.
Lemma resize_nil n : 0 <= n -> values_resize filler n [] = Ok (replicate (Z.to_nat n) filler).
Proof.
  intros Hn. unfold values_resize. assert ((n <? 0) = false) as -> by lia. cbn [app].
  by rewrite firstn_all2 by (rewrite length_replicate; lia).
Qed.

Lemma slice_ok a l u fuel : array_ok a -> in_box (sizes a) l -> in_box (sizes a) u -> ordered l u -> l <> [] ->
  volume (extent l u) <= Z.of_nat fuel ->
  exists r, slice filler fuel a l u = Ok r /\ array_ok r /\ sizes r = extent l u /\
    forall k, in_box (extent l u) k -> get r k = get a (offset l k).
Proof.
  intros Ha Hl Hu Ho Hn Hf. pose proof (Forall2_length _ _ _ Ho) as Hlen. unfold slice.
  unfold sizes_agree at 1. rewrite Hlen, Nat.eqb_refl. cbn [assertion]. rewrite ordered_leq by done. cbn [assertion].
  destruct (in_box_bounds _ _ Hl (ok_room _ Ha)) as [Hl0 _]. destruct (in_box_bounds _ _ Hu (ok_room _ Ha)) as [_ Hu1].
  pose proof (extent_ok l u Ho Hl0 Hu1) as He. rewrite Hlen in He. destruct (key_sub u l) as [d|]; [|done]. rewrite He.
  destruct (extent_room _ _ _ Hl Hu Ho) as [Hs Hr]. pose proof (ok_room _ Ha). set (s := extent l u) in *.
  rewrite sizes_product_ok by (done || lia). pose proof (volume_room s Hs) as Hv. rewrite resize_nil by lia.
  assert (length u = length s) as -> by (unfold s, extent; rewrite length_zip_with; lia).
  rewrite reset_coeffs_ok by (done || lia). unfold make_generator, sizes_agree. rewrite Hlen, Nat.eqb_refl. cbn [assertion].
  unfold generator_initialize, validate. cbn [lower_corner upper_corner]. rewrite validate_from_spec, bool_decide_true by done.
  rewrite length_replicate, Z2Nat.id, Z.eqb_refl by lia. cbn [assertion].
  destruct (copy_loop_ok a l u Ha Ho Hn (fun k => slice_box _ l u k Hl Hu) fuel 0 (replicate (Z.to_nat (volume s)) filler) (origin s))
    as (v' & E & Hv' & Hc).
  - by apply origin_in_box.
  - by rewrite row_major_origin.
  - rewrite length_replicate. fold s. lia.
  - fold s. lia.
  - intros k Hk Hlt. pose proof (row_major_bound _ _ Hk). lia.
  - replace (offset l (origin s)) with l in E by (symmetry; by apply offset_origin). rewrite E. eexists. split; [done|].
    assert (Hok : array_ok {| dim := length s; sizes := s; values := v'; coeffs := strides s |}) by (split; cbn; done || lia).
    split_and!; [done|done|]. intros k Hk. destruct (Hc k Hk) as (x & Hx & Hlk); [by apply row_major_bound|].
    rewrite Hx. unfold get. rewrite key_to_index_ok; [|done|done|].
    + cbn [sizes values]. apply at_index_lookup; [by apply row_major_bound|done].
    + intros ->. unfold s in Hk. destruct l, u; try done; inversion Hk.
Qed.
Lemma slice_unordered a l u fuel r : ~ ordered l u -> slice filler fuel a l u <> Ok r.
Proof.
  intros Ho E. unfold slice, generator_initialize, validate, make_generator in E.
  destruct (sizes_agree l u) eqn:Hs; [|done]. cbn [assertion] in E. cbn [lower_corner upper_corner] in E.
  apply Nat.eqb_eq in Hs. rewrite validate_from_spec, bool_decide_false in E by done.
  repeat (match type of E with context [match ?m with Ok _ => _ | Err _ => _ end] => destruct m end; try done).
Qed.

(** ** Making and growing arrays *)
Lemma resize_grows n v : Z.of_nat (length v) <= n ->
  values_resize filler n v = Ok (v ++ replicate (Z.to_nat n - length v) filler).
Proof.
  intros Hn. unfold values_resize. assert ((n <? 0) = false) as -> by lia. f_equal.
  rewrite firstn_app, firstn_all2 by lia. f_equal. rewrite take_replicate. f_equal. lia.
Qed.
Lemma new_array_ok s : natural s -> room s < 2 ^ 31 ->
  exists a, new_array filler s = Ok a /\ array_ok a /\ sizes a = s /\ values a = replicate (Z.to_nat (volume s)) filler.
Proof.
  intros Hs Hr. pose proof (volume_room s Hs). unfold new_array.
  rewrite sizes_product_ok, resize_nil, reset_coeffs_ok by (done || lia). eexists. split; [done|].
  split_and!; [|done|done]. split; cbn; try done. rewrite length_replicate. lia.
Qed.
Lemma copy_values_end va vb : copy_values (length va) vb (va ++ replicate (length vb) filler) = Ok (va ++ vb).
Proof.
  unfold copy_values. rewrite length_app, length_replicate, Nat.leb_refl. f_equal.
  rewrite firstn_app, firstn_all, Nat.sub_diag, app_nil_r. cbn [firstn]. rewrite skipn_all2; [by rewrite app_nil_r|].
  rewrite length_app, length_replicate. lia.
Qed.

(** [b] is [m] more rows for [a]. *)
Definition rows_of (s : key) (m : Z) b : Prop := sizes b = m :: s \/ (sizes b = s /\ m = 1).

Lemma append_ok a b n m s : array_ok a -> array_ok b -> sizes a = n :: s -> rows_of s m b -> room (n + m :: s) < 2 ^ 31 ->
  exists r, append filler a b = Ok r /\ array_ok r /\ sizes r = n + m :: s /\ values r = values a ++ values b.
Proof.
  intros Ha Hb Ea Eb Hr. pose proof (ok_natural _ Ha) as Hna. rewrite Ea in Hna. apply Forall_cons in Hna as [Hn Hs].
  assert (Hm : 0 <= m /\ volume (sizes b) = m * volume s).
  { destruct Eb as [Eb|[Eb ->]]; [|rewrite Eb; lia]. pose proof (ok_natural _ Hb) as Hnb. rewrite Eb in *.
    apply Forall_cons in Hnb as [? _]. done. }
  destruct Hm as [Hm Hvb]. pose proof (room_pos s). pose proof (volume_room s Hs).
  assert (Hnm : n + m < 2 ^ 31) by (cbn [room] in Hr; nia). unfold append. rewrite Ea.
  assert (E : (if Nat.eqb (dim a) (dim b) then
      match sizes b with
      | [] => Err F_index
      | m0 :: s' => _ <-- assertion (bool_decide (s = s')) ;; k <-- to_long (n + m0) ;; Ok (k :: s)
      end
    else _ <-- assertion (Nat.eqb (dim a) (dim b + 1)) ;; _ <-- assertion (bool_decide (s = sizes b)) ;;
      k <-- to_long (n + 1) ;; Ok (k :: s)) = Ok (n + m :: s)).
  { rewrite (ok_dim _ Ha), (ok_dim _ Hb), Ea. destruct Eb as [Eb|[Eb ->]]; rewrite Eb; cbn [length].
    - rewrite Nat.eqb_refl, bool_decide_true by done. cbn [assertion].
      by rewrite to_long_ok by (unfold LONG_MIN, LONG_MAX; lia).
    - assert (Nat.eqb (S (length s)) (length s) = false) as -> by (apply Nat.eqb_neq; lia).
      rewrite bool_decide_true by done. assert (Nat.eqb (S (length s)) (length s + 1) = true) as -> by (apply Nat.eqb_eq; lia).
      cbn [assertion]. by rewrite to_long_ok by (unfold LONG_MIN, LONG_MAX; lia). }
  rewrite E. pose proof (ok_natural _ Ha) as Hna. pose proof (ok_room _ Ha) as Hra. rewrite Ea in Hna, Hra.
  rewrite sizes_product_ok by done. pose proof (ok_values _ Ha) as Hva. rewrite Ea in Hva. cbn [volume] in *.
  pose proof (ok_values _ Hb) as Hvb'. rewrite Hvb in Hvb'. unfold resize.
  assert (Hnew : natural (n + m :: s)) by (constructor; [lia|done]). rewrite sizes_product_ok by done. cbn [volume].
  rewrite resize_grows by lia. change (S (length s)) with (length (n + m :: s)). rewrite reset_coeffs_ok by done.
  assert ((n * volume s <? 0) = false) as -> by lia.
  replace (Z.to_nat ((n + m) * volume s) - length (values a))%nat with (length (values b)) by lia.
  rewrite <- Hva, Nat2Z.id. cbn [values]. rewrite copy_values_end. eexists. split; [done|]. split_and!; [|done|done].
  split; cbn [dim sizes values coeffs]; try done. rewrite length_app. cbn [volume]. lia.
Qed.
Lemma append_get a r n m s k x vb : array_ok a -> array_ok r -> sizes a = n :: s -> sizes r = n + m :: s ->
  values r = values a ++ vb -> in_box (n + m :: s) (x :: k) ->
  get r (x :: k) = if x <? n then get a (x :: k) else at_index ((x - n) * volume s + row_major s k) vb.
Proof.
  intros Ha Hr Ea Er Ev Hk. inversion Hk as [|? ? ? ? Hx Hk']; subst. pose proof (row_major_bound _ _ Hk') as Hb.
  pose proof (ok_values _ Ha) as Hva. rewrite Ea in Hva. cbn [volume] in Hva. unfold get at 1.
  rewrite key_to_index_ok by (rewrite ?Er; done). rewrite Er, Ev. cbn [row_major].
  destruct (Z.ltb_spec x n).
  - assert (Hka : in_box (sizes a) (x :: k)) by (rewrite Ea; constructor; [lia|done]).
    unfold get. rewrite key_to_index_ok by done. rewrite Ea. cbn [row_major]. unfold at_index.
    assert ((x * volume s + row_major s k <? 0) = false) as -> by nia. by rewrite lookup_app_l by nia.
  - unfold at_index. assert ((x * volume s + row_major s k <? 0) = false) as -> by nia.
    assert (((x - n) * volume s + row_major s k <? 0) = false) as -> by nia. rewrite lookup_app_r by nia.
    replace (Z.to_nat (x * volume s + row_major s k) - length (values a))%nat
      with (Z.to_nat ((x - n) * volume s + row_major s k)) by nia. done.
Qed.

(** ** Range checks *)
Lemma range_check_from_spec s k : length k = length s ->
  range_check_from (length s) k s = Ok (bool_decide (Forall2 (fun n x => x < n) s k)).
Proof.
  revert k. induction s as [|n s IH]; intros [|x k] Hl; cbn in Hl; try lia; cbn [length range_check_from].
  - by rewrite bool_decide_true by constructor.
  - destruct (Z.leb_spec n x).
    + rewrite bool_decide_false; [done|]. intros H'. inversion H'; subst. lia.
    + rewrite IH by lia. f_equal. apply bool_decide_ext. split; intros H'; [by constructor|by inversion H'].
Qed.
End Elements.

(** ** What arrays promise *)

(** C38: keys in range and indices of the vector correspond one to one, in
    lexicographic order, in both directions; and the range check lets pass just
    the keys below the upper bounds, negative ones included. *)
Theorem keys_and_indices {T} (a : packed_array (T := T)) : array_ok a -> sizes a <> [] ->
  (forall k, in_box (sizes a) k -> exists i, key_to_index a k = Ok i /\ 0 <= i < Z.of_nat (length (values a)) /\
     index_to_key a i = Ok k) /\
  (forall i, 0 <= i < Z.of_nat (length (values a)) -> exists k, index_to_key a i = Ok k /\ in_box (sizes a) k /\
     key_to_index a k = Ok i) /\
  (forall k k' i i', in_box (sizes a) k -> in_box (sizes a) k' -> key_to_index a k = Ok i -> key_to_index a k' = Ok i' ->
     lexicographical_compare k k' = (i <? i')) /\
  (forall k, length k = dim a -> range_check a k = Ok (bool_decide (Forall2 (fun n x => x < n) (sizes a) k))).
Proof.
  intros Ha Hs.
  assert (Hne : forall k, in_box (sizes a) k -> k <> []) by (intros k Hk ->; by inversion Hk).
  split_and!.
  - intros k Hk. exists (row_major (sizes a) k). rewrite (ok_values _ Ha).
    split_and!; [by apply key_to_index_ok; auto|by apply row_major_bound..|by apply index_to_key_ok; auto].
  - intros i Hi. rewrite (ok_values _ Ha) in Hi.
    destruct (row_major_surj _ i (ok_natural _ Ha) Hi) as (k & Hk & <-). exists k.
    split_and!; [by apply index_to_key_ok; auto|done|by apply key_to_index_ok; auto].
  - intros k k' i i' Hk Hk'. rewrite !key_to_index_ok by auto. intros [= <-] [= <-]. by apply lex_row_major.
  - intros k Hk. unfold range_check. rewrite (ok_dim _ Ha) in *. by apply range_check_from_spec.
Qed.

(** A slice of an array of two rows and three columns. *)
Definition sample : packed_array (T := Z) :=
  {| dim := 2; sizes := [2; 3]; values := [10; 11; 12; 20; 21; 22]; coeffs := [3] |}.
Lemma sample_ok : array_ok sample.
Proof. split; try reflexivity. repeat constructor; lia. Qed.

Lemma keys_and_indices_witness :
  exists i, key_to_index sample [1; 2] = Ok i /\ 0 <= i < Z.of_nat (length (values sample)) /\
    index_to_key sample i = Ok [1; 2].
Proof. apply (keys_and_indices sample sample_ok); [discriminate|]. repeat constructor; lia. Defined.

(** C39: with fuel for its elements, copying the part of an array between two
    corners in range succeeds, and the copy has at each key the element at the
    same place from the lower corner; and copying never succeeds between corners
    that are not in order in each dimension, whatever their lexicographic order. *)
Theorem slice_correct {T} (filler : T) a l u fuel :
  (array_ok a -> in_box (sizes a) l -> in_box (sizes a) u -> ordered l u -> l <> [] ->
   volume (extent l u) <= Z.of_nat fuel ->
   exists r, slice filler fuel a l u = Ok r /\ array_ok r /\ sizes r = extent l u /\
     forall k, in_box (extent l u) k -> exists x, get r k = Ok x /\ get a (offset l k) = Ok x) /\
  (~ ordered l u -> forall r, slice filler fuel a l u <> Ok r).
Proof.
  split; [|intros Ho r; by apply slice_unordered]. intros Ha Hl Hu Ho Hn Hf.
  destruct (slice_ok filler a l u fuel Ha Hl Hu Ho Hn Hf) as (r & E & Hr & Hs & Hget). exists r. split_and!; [done..|].
  intros k Hk. rewrite (Hget k Hk).
  destruct (get_ok a (offset l k) Ha (slice_box _ l u k Hl Hu Hk) (offset_not_empty l u k Hn Ho Hk)) as (x & Hx & _).
  by exists x.
Qed.

Lemma slice_correct_witness :
  (exists r, slice 0 4 sample [0; 1] [1; 2] = Ok r /\ array_ok r /\ sizes r = [2; 2] /\
    forall k, in_box [2; 2] k -> exists x, get r k = Ok x /\ get sample (offset [0; 1] k) = Ok x) /\
  slice 0 4 sample [0; 2] [1; 1] <> Ok sample.
Proof.
  split.
  - apply (slice_correct 0 sample [0; 1] [1; 2] 4); [exact sample_ok|repeat constructor; lia..|discriminate|].
    vm_compute. discriminate.
  - apply (slice_correct 0 sample [0; 2] [1; 1] 4). intros H. inversion H as [|? ? ? ? _ H']; subst.
    inversion H'; subst. lia.
Defined.

(** C40: an array grows by the rows of another one, or by one row: the elements
    stay at their keys, and the new ones come after them in their order. *)
Theorem append_correct {T} (filler : T) a b n m s :
  array_ok a -> array_ok b -> sizes a = n :: s -> rows_of s m b -> room (n + m :: s) < 2 ^ 31 ->
  exists r, append filler a b = Ok r /\ array_ok r /\ sizes r = n + m :: s /\
    forall x k, in_box (n + m :: s) (x :: k) ->
      get r (x :: k) = if x <? n then get a (x :: k) else at_index ((x - n) * volume s + row_major s k) (values b).
Proof.
  intros Ha Hb Ea Eb Hr. destruct (append_ok filler a b n m s Ha Hb Ea Eb Hr) as (r & E & Hok & Es & Ev).
  exists r. split_and!; [done..|]. intros x k Hk. by apply (append_get a r n m s k x (values b)).
Qed.

Lemma append_correct_witness :
  exists r, append 0 sample sample = Ok r /\ array_ok r /\ sizes r = [4; 3] /\
    forall x k, in_box [4; 3] (x :: k) ->
      get r (x :: k) = if x <? 2 then get sample (x :: k)
                       else at_index ((x - 2) * volume [3] + row_major [3] k) (values sample).
Proof.
  apply (append_correct 0 sample sample 2 2 [3] sample_ok sample_ok); [reflexivity|by left|].
  vm_compute. reflexivity.
Defined.

(** ** What goes wrong *)

(** Negative keys pass the range check of [at], and are read outside of the
    vector. *)
Example negative_key_passes : get_at sample [-1; 0] = Err F_index /\ range_check sample [-1; 0] = Ok true.
Proof. split; reflexivity. Qed.
(** ... or at another key. *)
Example negative_key_aliases : get_at sample [1; -1] = Ok 12 /\ get_at sample [0; 2] = Ok 12.
Proof. split; reflexivity. Qed.
(** Arrays of four billion elements get an empty vector. *)
Example size_truncated : sizes_product [65536; 65536] = Ok 0.
Proof. reflexivity. Qed.
(** The element of an array without dimensions is not found. *)
Example scalar_has_no_element : get {| dim := 0; sizes := []; values := [7]; coeffs := [] |} [] = Err F_index.
Proof. reflexivity. Qed.
(** A slice of an array with a fixed number of dimensions is rotated. *)
Example fixed_slice_rotates :
  copy_loop_fixed 3 sample {| current := [0; 0]; lower_corner := [0; 0]; upper_corner := [0; 2] |} 0 [0; 0; 0]
  = Ok [11; 12; 10].
Proof. reflexivity. Qed.
(** The generator of one dimension has corners of as many dimensions as its
    bounds say. *)
Example corners_of_one_dimension : make_generator1 1 3 = {| current := [0]; lower_corner := [0]; upper_corner := [0; 0; 0] |}.
Proof. reflexivity. Qed.
