(* ===== verification/ArrayRanges.v ===== *)
(** Ranges of arrays: "Object/expr/meta_range.cc", "meta_range_list.cc",
    "meta_index_expr_list.cc" and "util/conditional.hh", for the constant ranges
    and indices that are left when template parameters are resolved.

    [const_range_list] is a list of pairs; [const_index_list] a list of the
    constant integers and ranges of MetaExpr.v.  Overlaps are computed with interval sets
    (Intervals.v). *)
From stdpp Require Import sorting.
From S2P Require Import Prelude Longs MetaExpr Intervals IntervalProps.
Open Scope Z_scope.
Local Open Scope hackt_scope.
#[local] Abbreviation length := Datatypes.length.

(** ** Ranges *)
Definition range : Type := Z * Z.
Definition range_empty (r : range) : bool := r.2 <? r.1.
Definition range_negative (r : range) : bool := (r.1 <? 0) || (r.2 <? 0).
Definition is_sane (r : range) : bool := negb (range_empty r).
(** [second - first + 1] *)
Definition range_size (r : range) : res Z := d <-- to_long (r.2 - r.1) ;; to_long (d + 1).
Definition range_eqb (r s : range) : bool := (r.1 =? s.1) && (r.2 =? s.2).
Definition diff_of (r : range) : res Z := to_long (r.2 - r.1).

Section Overlap.
Context (past_end : Z * Z).
Definition range_overlap (r s : range) : res range :=
  temp <-- single_range past_end r.1 r.2 ;;
  temp2 <-- single_range past_end s.1 s.2 ;;
  m <-- Intervals.meet past_end temp2 temp ;;
  match m.2 with
  | [] => Ok (0, -1)
  | p :: _ => _ <-- assertion (p.1 <=? p.2) ;; Ok p
  end.

(** ** Lists of ranges *)
Definition range_list : Type := list range.
Definition is_valid (l : range_list) : bool := forallb is_sane l.

Fixpoint overlap_from (i j : range_list) (ret : range_list) : res range_list :=
  match i, j with
  | [], _ => Ok ret
  | ir :: i', jr :: j' =>
      o <-- range_overlap ir jr ;;
      if negb (range_empty o) then overlap_from i' j' (ret ++ [o]) else Ok []
  | _ :: _, [] => Err F_index
  end.
(** [None] is a list that is not constant. *)
Definition static_overlap (l : range_list) (r : option range_list) : res range_list :=
  match r with
  | Some s => _ <-- assertion (Nat.eqb (length l) (length s)) ;; overlap_from l s []
  | None => Ok []
  end.
End Overlap.

(** Sizes are compared as [int]s. *)
Fixpoint sizes_equivalent (i j : range_list) : res bool :=
  match i, j with
  | [], [] => Ok true
  | r :: i', s :: j' =>
      ld <-- diff_of r ;;
      rd <-- diff_of s ;;
      if negb (to_int ld =? to_int rd) then Ok false else sizes_equivalent i' j'
  | _, _ => Ok false
  end.
Definition is_size_equivalent (l c : range_list) : res bool :=
  if negb (Nat.eqb (length l) (length c)) then Ok false else sizes_equivalent l c.
Fixpoint ranges_equal (i j : range_list) : bool :=
  match i, j with
  | [], [] => true
  | r :: i', s :: j' => if negb (range_eqb r s) then false else ranges_equal i' j'
  | _, _ => false
  end.
Definition range_list_eqb (l c : range_list) : bool :=
  if negb (Nat.eqb (length l) (length c)) then false else ranges_equal l c.
Definition range_lower_multikey (l : range_list) : list Z := map fst l.
Definition range_upper_multikey (l : range_list) : list Z := map snd l.
(** [throw *i] for a bad range. *)
Fixpoint resolve_sizes (l : range_list) : res (list Z + range) :=
  match l with
  | [] => Ok (inl [])
  | r :: l' =>
      if range_empty r then Ok (inr r)
      else
        n <-- range_size r ;;
        rest <-- resolve_sizes l' ;;
        Ok (match rest with inl k => inl (n :: k) | inr bad => inr bad end)
  end.

(** ** Lists of indices *)
Definition index_list : Type := list const_index.

Definition index_negative (i : const_index) : bool :=
  match i with ci_int v => v <? 0 | ci_range a b => range_negative (a, b) end.
Definition is_range (i : const_index) : bool := negb (is_ci_int i).
Definition range_size_equivalent (i j : const_index) : res bool :=
  match i, j with
  | ci_range a b, ci_range c d => s <-- diff_of (c, d) ;; r <-- diff_of (a, b) ;; Ok (s =? r)
  | _, _ => Ok false
  end.

Definition indices_collapsed (l : index_list) : nat := length (List.filter is_ci_int l).
Fixpoint collapsed_dimension_ranges (l : index_list) : range_list :=
  match l with
  | [] => []
  | ci_range a b :: l' => (a, b) :: collapsed_dimension_ranges l'
  | ci_int _ :: l' => collapsed_dimension_ranges l'
  end.
Definition negative (l : index_list) : bool := existsb index_negative l.
(** [const_range_list(const const_index_list&)]: an index goes through an [int]. *)
Definition ranges_of_indices (l : index_list) : range_list :=
  map (fun i => match i with ci_int v => (to_int v, to_int v) | ci_range a b => (a, b) end) l.
(** [const_index_list(l, f)]: the remaining dimensions are filled in. *)
Fixpoint check_filled (l : index_list) (f s : list Z) : res (list Z * list Z) :=
  match l, f, s with
  | [], _, _ => Ok (f, s)
  | i :: l', a :: f', b :: s' =>
      _ <-- assertion (MetaExpr.lower_bound i =? a) ;; _ <-- assertion (MetaExpr.upper_bound i =? b) ;; check_filled l' f' s'
  | _, _, _ => Err F_index
  end.
Fixpoint fill_rest (f s : list Z) : res index_list :=
  match f, s with
  | [], [] => Ok []
  | a :: f', b :: s' => _ <-- assertion (a <=? b) ;; r <-- fill_rest f' s' ;; Ok (ci_range a b :: r)
  | _, _ => Err F_index
  end.
Definition fill_indices (l : index_list) (f s : list Z) : res index_list :=
  match f with
  | [] => _ <-- assertion (match s with [] => true | _ => false end) ;; Ok []
  | _ =>
      _ <-- assertion (Nat.eqb (length f) (length s)) ;;
      _ <-- assertion (Nat.leb (length l) (length f)) ;;
      p <-- check_filled l f s ;;
      r <-- fill_rest p.1 p.2 ;;
      Ok (l ++ r)
  end.

(** [compare_if]: the loop never goes on to the next elements.  Beyond the end
    there is nothing to compare. *)
Fixpoint skip_to {A} (p : A -> bool) (l : list A) : list A :=
  match l with [] => [] | x :: l' => if p x then l else skip_to p l' end.
Fixpoint compare_if {A} (fuel : nat) (p1 p2 : A -> bool) (comp : A -> A -> res bool) (l r : list A) : res bool :=
  match fuel with
  | O => Err F_fuel
  | S fuel' =>
      match l, r with
      | [], _ | _, [] => Ok (match l, r with [], [] => true | _, _ => false end)
      | _, _ =>
          match skip_to p1 l, skip_to p2 r with
          | x :: l', y :: r' =>
              b <-- comp x y ;;
              if negb b then Ok false else compare_if fuel' p1 p2 comp (x :: l') (y :: r')
          | _, _ => Err F_index
          end
      end
  end.
Definition equal_dimensions (fuel : nat) (l m : index_list) : res bool :=
  compare_if fuel is_range is_range range_size_equivalent l m.

(** ** What they mean *)
Section Meaning.
Context (past_end : Z * Z).

(** Ranges of which the neighbours are still [long]s. *)
Definition inner_range (r : range) : Prop := LONG_MIN < r.1 /\ r.1 <= r.2 /\ r.2 < LONG_MAX.

Lemma single_range_ok a b : inner_range (a, b) -> single_range past_end a b = Ok [(a, b)].
Proof.
  intros (H1 & H2 & H3). cbn [fst snd] in *. assert (Hnil : wf_ranges []) by by apply wf_decide.
  assert (Hno : forall v, ~ member v []) by (intros v (c & d & Hin & _); by apply elem_of_nil in Hin).
  destruct (add_range_spec past_end [] a b Hnil H1 H2 H3) as [_ Hok].
  destruct Hok as (ov & l' & E & Hov & Hw & Hm); [intros (_ & Hin & _); by apply elem_of_nil in Hin|].
  unfold single_range. rewrite E. cbn [fst snd]. destruct ov.
  { exfalso. destruct (proj1 Hov eq_refl) as (v & _ & Hv). by apply (Hno v). }
  cbn [negb assertion]. f_equal. apply wf_ranges_unique; [done| |].
  - apply wf_decide. cbn. unfold LONG_MIN, LONG_MAX in *. rewrite !andb_true_r.
    rewrite !andb_true_iff, Z.ltb_lt, !Z.leb_le. lia.
  - intros v. rewrite Hm, member_cons. cbn [fst snd]. split; [intros [Hv|?]; [by apply Hno in Hv|by left]|].
    intros [?|Hv]; [by right|by apply Hno in Hv].
Qed.
Lemma range_overlap_ok r s : inner_range r -> inner_range s ->
  range_overlap past_end r s =
  Ok (if Z.max r.1 s.1 <=? Z.min r.2 s.2 then (Z.max r.1 s.1, Z.min r.2 s.2) else (0, -1)).
Proof.
  intros Hr Hs. destruct r as [a b], s as [c d]. unfold range_overlap. cbn [fst snd]. rewrite !single_range_ok by done.
  destruct Hr as (R1 & R2 & R3), Hs as (S1 & S2 & S3). cbn [fst snd] in *.
  assert (Hw : wf_ranges [(a, b)]).
  { apply wf_decide. cbn. rewrite !andb_true_r, !andb_true_iff, Z.ltb_lt, !Z.leb_le. lia. }
  destruct (meet_single past_end c d [(a, b)] Hw S1 S2 S3) as (ov & l' & -> & _ & Hw' & Hm). cbn [snd].
  assert (Hmem : forall v, member v l' <-> a <= v <= b /\ c <= v <= d).
  { intros v. rewrite Hm, member_cons. cbn [fst snd]. split; [|tauto]. intros [[?|(e & f & Hin & _)] ?]; [done|].
    by apply elem_of_nil in Hin. }
  destruct (Z.leb_spec (Z.max a c) (Z.min b d)) as [Hle|Hgt].
  - assert (l' = [(Z.max a c, Z.min b d)]) as ->.
    { apply wf_ranges_unique; [done| |].
      - apply wf_decide. cbn. rewrite !andb_true_r, !andb_true_iff, Z.ltb_lt, !Z.leb_le. lia.
      - intros v. rewrite Hmem, member_cons. cbn [fst snd]. split; [left; lia|].
        intros [?|(e & f & Hin & _)]; [lia|by apply elem_of_nil in Hin]. }
    cbn [fst snd]. by assert ((Z.max a c <=? Z.min b d) = true) as -> by lia.
  - destruct l' as [|[e f] l']; [done|]. exfalso. pose proof (wr_order _ Hw' e f ltac:(by left)).
    assert (He : member e ((e, f) :: l')) by (exists e, f; split; [by left|lia]). apply Hmem in He. lia.
Qed.
(** Empty ranges may be made, but an overlap with them fails an assertion. *)
Lemma range_overlap_empty r s : range_empty r = true -> range_overlap past_end r s = Err F_assert.
Proof.
  intros Hr. unfold range_empty in Hr. apply Z.ltb_lt in Hr. unfold range_overlap, single_range, add_range.
  by rewrite query_overlap_asserts.
Qed.

(** An overlap in all dimensions: the box of the keys in both. *)
Definition meets (r s : range) : bool := Z.max r.1 s.1 <=? Z.min r.2 s.2.
Definition meet_of (r s : range) : range := (Z.max r.1 s.1, Z.min r.2 s.2).
Definition in_ranges (l : range_list) (k : list Z) : Prop := Forall2 (fun r x => r.1 <= x <= r.2) l k.

Lemma overlap_from_ok i j ret : Forall inner_range i -> Forall inner_range j -> length i = length j ->
  overlap_from past_end i j ret =
  Ok (if forallb (fun p => meets p.1 p.2) (zip i j) then ret ++ zip_with meet_of i j else []).
Proof.
  intros Hi. revert j ret. induction Hi as [|r i Hr Hi IH]; intros [|s j] ret Hj Hl; cbn in Hl; try lia; cbn.
  - by rewrite app_nil_r.
  - apply Forall_cons in Hj as [Hs Hj]. rewrite range_overlap_ok by done. fold (meets r s).
    destruct (meets r s) eqn:E; cbn [andb].
    + unfold range_empty. unfold meets in E. cbn [fst snd]. assert ((Z.min r.2 s.2 <? Z.max r.1 s.1) = false) as -> by lia.
      cbn [negb]. rewrite IH by (done || lia). by rewrite <- app_assoc.
    + done.
Qed.
(** The box of an overlap holds just the keys in both lists of ranges. *)
Lemma static_overlap_ok l s : Forall inner_range l -> Forall inner_range s -> length l = length s -> l <> [] ->
  exists o, static_overlap past_end l (Some s) = Ok o /\
    (o = [] <-> ~ exists k, in_ranges l k /\ in_ranges s k) /\
    (o <> [] -> forall k, in_ranges o k <-> in_ranges l k /\ in_ranges s k).
Proof.
  intros Hl Hs Hlen Hn. unfold static_overlap. rewrite Hlen, Nat.eqb_refl. cbn [assertion].
  rewrite overlap_from_ok by done. cbn [app].
  assert (Hbox : forall k, in_ranges (zip_with meet_of l s) k <-> in_ranges l k /\ in_ranges s k).
  { clear - Hlen. revert s Hlen. unfold in_ranges. induction l as [|r l IH]; intros [|q s] Hlen k; cbn in Hlen; try lia; cbn.
    - split; [intros H; inversion H; by split|by intros [? _]].
    - split.
      + intros H. inversion H as [|? x ? k' Hx Hk]; subst. cbn [meet_of fst snd] in Hx. apply IH in Hk as [? ?]; [|lia].
        split; constructor; (done || lia).
      + intros [H H']. inversion H as [|? x ? k' Hx Hk]; subst. inversion H' as [|? x' ? k2 Hx' Hk2]; subst.
        constructor; [cbn; lia|]. apply IH; [lia|done]. }
  assert (Hex : forallb (fun p => meets p.1 p.2) (zip l s) = true <-> exists k, in_ranges l k /\ in_ranges s k).
  { clear - Hlen. revert s Hlen. unfold in_ranges. induction l as [|r l IH]; intros [|q s] Hlen; cbn in Hlen; try lia; cbn.
    - split; [exists []; by split|done].
    - rewrite andb_true_iff. unfold meets at 1. rewrite IH by lia. split.
      + intros [Hm (k & H & H')]. exists (Z.max r.1 q.1 :: k). split; constructor; try done; lia.
      + intros (k & H & H'). inversion H as [|? x ? k' Hx Hk]; subst. inversion H' as [|? x' ? k2 Hx' Hk2]; subst.
        split; [lia|by exists k']. }
  eexists. split; [done|]. destruct (forallb _ _) eqn:E.
  - split; [|by intros _].
    split; [|intros H; by exfalso; apply H, Hex].
    intros H. exfalso. destruct l, s; done.
  - split; [|done]. split; [intros _ H; by apply Hex in H|done].
Qed.
End Meaning.

(** Sizes are told apart as long as they are [int]s. *)
Lemma is_size_equivalent_ok l c :
  Forall (fun r => 0 <= r.2 - r.1 < 2 ^ 31) l -> Forall (fun r => 0 <= r.2 - r.1 < 2 ^ 31) c ->
  is_size_equivalent l c = Ok (bool_decide (map (fun r => r.2 - r.1) l = map (fun r => r.2 - r.1) c)).
Proof.
  intros Hl Hc. unfold is_size_equivalent. destruct (Nat.eqb _ _) eqn:Hlen; cbn [negb].
  2: { apply Nat.eqb_neq in Hlen. rewrite bool_decide_false; [done|]. intros E. apply (f_equal length) in E. by rewrite !length_map in E. }
  apply Nat.eqb_eq in Hlen. revert c Hc Hlen.
  induction Hl as [|r l Hr Hl IH]; intros [|s c] Hc Hlen; cbn in Hlen; try lia; cbn [sizes_equivalent map].
  - by rewrite bool_decide_true.
  - apply Forall_cons in Hc as [Hs Hc]. unfold diff_of. rewrite !to_long_ok by (unfold LONG_MIN, LONG_MAX; lia).
    rewrite !to_int_small by lia. destruct (Z.eqb_spec (r.2 - r.1) (s.2 - s.1)) as [E|E]; cbn [negb].
    + rewrite IH by (done || lia). f_equal. apply bool_decide_ext. rewrite E. split; [by intros ->|by intros [= ->]].
    + rewrite bool_decide_false; [done|]. by intros [= ?].
Qed.
(** The remaining dimensions get the ranges between the two corners, and the
    indices that were given must be there. *)
Lemma fill_rest_ok f s r : fill_rest f s = Ok r -> MetaExpr.lower_multikey r = f /\ MetaExpr.upper_multikey r = s /\
  Forall2 Z.le f s.
Proof.
  revert s r. induction f as [|a f IH]; intros [|b s] r E; cbn in E; try done.
  - by injection E as <-.
  - destruct (Z.leb_spec a b); [|done]. cbn [assertion] in E. destruct (fill_rest f s) as [r'|] eqn:E'; [|done].
    injection E as <-. destruct (IH _ _ E') as (<- & <- & Hle). cbn. split_and!; [done|done|by constructor].
Qed.
Lemma check_filled_ok l f s p : check_filled l f s = Ok p ->
  f = MetaExpr.lower_multikey l ++ p.1 /\ s = MetaExpr.upper_multikey l ++ p.2.
Proof.
  revert f s. induction l as [|i l IH]; intros f s E; cbn in E; [by injection E as <-|].
  destruct f as [|a f], s as [|b s]; try done. destruct (Z.eqb_spec (MetaExpr.lower_bound i) a); [|done]. cbn [assertion] in E.
  destruct (Z.eqb_spec (MetaExpr.upper_bound i) b); [|done]. cbn [assertion] in E. destruct (IH _ _ E) as [-> ->]. by subst.
Qed.
Lemma fill_indices_ok l f s r : fill_indices l f s = Ok r -> f <> [] ->
  l `prefix_of` r /\ MetaExpr.lower_multikey r = f /\ MetaExpr.upper_multikey r = s.
Proof.
  intros E Hf. destruct f as [|a f']; [done|]. unfold fill_indices in E.
  destruct (Nat.eqb _ _); [|done]. cbn [assertion] in E. destruct (Nat.leb _ _); [|done]. cbn [assertion] in E.
  destruct (check_filled l (a :: f') s) as [p|] eqn:E1; [|done]. destruct (fill_rest p.1 p.2) as [q|] eqn:E2; [|done].
  injection E as <-. destruct (check_filled_ok _ _ _ _ E1) as [Ef Es]. destruct (fill_rest_ok _ _ _ E2) as (E3 & E4 & _).
  unfold MetaExpr.lower_multikey, MetaExpr.upper_multikey in *. rewrite Ef, Es, !fmap_app, E3, E4. split_and!; [by exists q|done|done].
Qed.

(** ** What goes wrong *)

(** Comparing two lists that both start with ranges of the same size never
    returns. *)
Lemma equal_dimensions_diverges fuel r s l m : r.2 - r.1 = s.2 - s.1 -> LONG_MIN <= r.2 - r.1 <= LONG_MAX ->
  equal_dimensions fuel (ci_range r.1 r.2 :: l) (ci_range s.1 s.2 :: m) = Err F_fuel.
Proof.
  intros E [H1 H2]. unfold equal_dimensions. induction fuel as [|fuel IH]; cbn; [done|].
  unfold diff_of. cbn [fst snd]. rewrite <- E, !to_long_ok by done. rewrite Z.eqb_refl. exact IH.
Qed.
(** Ranges of which the sizes differ by a multiple of 2^32 are equivalent. *)
Example sizes_truncated : is_size_equivalent [(0, 4)] [(0, 2 ^ 32 + 4)] = Ok true.
Proof. reflexivity. Qed.
Example index_truncated : ranges_of_indices [ci_int (2 ^ 32 + 7)] = [(7, 7)].
Proof. reflexivity. Qed.
